(* ===== verification/_CoqProject ===== *)
-Q . S2P
Prelude.v
GoString.v
GoStrconv.v
GoSort.v
GoFloat.v
Sha256.v
GoJson.v
JsonDecode.v
JsonRoundtrip.v
Finding.v
Ambiguous.v
FindingJson.v
Cluster.v
Similarity.v
UnionFind.v
Dbscan.v
Hungarian.v
FloatBound.v
Bipartite.v
Singles.v
Dedupe.v
Merge.v
PageRank.v
Consensus.v
Reconcile.v
JsonAdapter.v
CircuitBreaker.v
Levenshtein.v
Stream.v
JsonRepair.v
ModelOutput.v
FindingsV2.v
Think.v
SkepticVerdict.v
Gate.v
GoInt.v
Window.v
Budget.v
WorkQueue.v
Chunker.v
ChunkMerge.v
RecordMerge.v
Radar.v
Debate.v
DebateApply.v
Partition.v
ChunkRecord.v
ChunkLedger.v
GoTime.v
LocalDebt.v
DebtCompact.v
DebtSignal.v
DebtPersist.v
