(* ===== verification/Prelude.v ===== *)
(** * atcr: a verification of the deterministic core of a code-review panel

    atcr sends a change to a panel of models and reconciles what they find. The program
    around the models is deterministic, and this library models that part of it: what
    goes into a payload and how units of work are retried, how a model's reply is read,
    how findings are written to files and read back, how the findings of all reviewers
    are clustered, merged, scored and filtered, how a skeptic's verdict on a finding is
    read and tallied, and which findings fail a gate.

    ** The parts, in the order a run uses them

    The Go libraries the program runs on, as far as it uses them:
    - [Prelude]: automation and generic lemmas. [GoString], [GoStrconv], [GoSort],
      [GoFloat], [GoInt], [Sha256]: byte strings and package strings, Atoi, the sort
      package, float64 on the Standard Library's SpecFloat, int64 with wrap-around,
      SHA-256. [GoTime]: time.Parse and the format of RFC 3339. [GoJson],
      [JsonDecode], [JsonRoundtrip]: encoding/json, both ways.

    What is sent (src/internal/payload, src/internal/fanout):
    - [Window]: contextwindow.go, sizing.go, and from verify/invoke.go the skeptic's tool
      ceiling and the dispatcher that enforces it.
    - [Budget]: budget.go, the shedding of a payload to a byte budget.
    - [WorkQueue]: workpool.go, throttle.go, requeue.go and the part of [Engine.Run]
      (engine.go) that settles a lease; its state is [unitQueue], [providerThrottle] and
      one [unitRetryState] per unit, its steps the relation [step].
    - [CircuitBreaker]: src/internal/circuitbreaker, the breaker a lane's caps consult
      ([read_cap], [read_state] of [WorkQueue]) and the registry that shares it.
    - [Chunker]: chunker.go, the split of a diff into chunks and the framing of the joined
      review, with its reader in src/internal/reconcile/justification.go. [ChunkMerge]:
      the fold of a persona's chunk results, the findings read from it and the salvage
      fields of its status; its state is [Result].
    - [Partition]: the packing of a whole repository into bins (payload/fullrepo.go, and
      the bins a resume re-packs). [ChunkRecord]: chunkrecord.go, chunkmerge.go, resume.go,
      chunkcoverage.go, baseline_coverage.go: the record of planned bins ([plan], with one
      [chunkRecord] per persona), its union with the record of an interrupted run, and the
      readers of coverage. [ChunkLedger]: the ledger while a run drains it; its state is
      [world], whose memory is [chunkLedger], and its steps are the critical sections of
      the hooks and the coalescing writer, interleaved with file writes and the persona
      tracker of review.go.

    What comes back (src/internal/stream, jsonrepair, llmclient):
    - [Think]: think.go, inline reasoning markup. [JsonRepair]: repair.go.
    - [Levenshtein], [Stream]: levenshtein.go, category.go, writer.go and the v1 half of
      parser.go. [ModelOutput]: [ParseModelOutput] and what it calls, which uses
      [JsonRepair] and the row parser of [Stream]. [FindingsV2]: v2.go.

    Reconciling (src/reconcile):
    - [Finding]: the wire types and vocabularies. [Ambiguous]: the sidecar's ids and hash.
    - [Cluster] (cluster.go, grouper.go), [Similarity] (distance.go), [UnionFind], [Dbscan],
      [Hungarian] with [FloatBound], [Bipartite], [Dedupe] (dedupe.go): from a flat list
      of findings to merge groups. [Merge] (merge.go, panelwide.go), [PageRank],
      [Consensus], and [Reconcile] (reconcile.go), which composes them all.
    - [JsonAdapter]: adapter/json/adapter.go.

    Judging (src/internal/verify, src/internal/reconcile):
    - [SkepticVerdict]: verdict.go, votes.go, the grade of a run in invoke.go. It reads a
      reply through [Think] and [JsonRepair].
    - [Gate]: gate.go, unresolved.go, fallback.go, [JSONFindings] of emit.go, severity.go.
    - [RecordMerge]: merge.go and symbol_anchor.go of internal/reconcile, the record several
      findings.json records collapse to. [Radar]: disagree.go, what the panel disagreed on.

    Cross-examination (src/internal/debate):
    - [Debate]: one disputed item from its cast to its outcome (select.go, cast.go,
      protocol.go, envelope.go, [debateOne] of debate.go); a judge's reply is read through
      [Think] and the scanner of [SkepticVerdict]. What the engine answers to a seat's
      prompt is an argument.
    - [DebateApply]: [runDebate], over the items of [Radar] and the records of [Gate]: what is
      filtered, selected and withheld, the rulings applied (emit.go), the clusters merged
      (cluster.go, through [RecordMerge]) and the counts of debate.json, the state a series
      of runs hands on.

    What is kept between runs (src/internal/localdebt):
    - [LocalDebt]: a stored record, its statuses and the fold of a finding's history to the
      record that counts (record.go, the fold of store.go, streaming.go). Records and their
      streamed summaries fold through one interface, the class [Foldable].
    - [DebtCompact]: what compaction retains, how it is filed around files that may not be
      rewritten, and when it starts by itself (store.go, paths.go); its state is the list
      of records with the file of each, [shardRead]. [DebtSignal]: qualitysignal.go.
    - [DebtPersist]: reconcile.go, what a run appends to the store from the records of
      [Gate], through the gate of [appendLocked].

    ** How state and operations correspond

    A struct is a Record with its fields (the ones the modelled code reads or writes), an
    enum an Inductive type, a method a function from the old state to the new. Names are
    the source's; where two Go types share a field name the Record's field has a prefix.
    [None] is a panic where a file's header says so. An error is a constructor of a sum
    type or a boolean; its text is not modelled. A shared object behind a mutex is a
    state, and its concurrent callers are an arbitrary interleaving of whole method
    calls; [Registry.Get] of [CircuitBreaker], which takes two locks, is two steps, and a
    flush of [ChunkLedger], which writes a file between two locks, is five. Nil
    and empty slices and maps are one value, except where encoding/json tells them apart.
    Integers are Z or nat; where a sum can leave 64 bits ([Window], [Budget], [WorkQueue],
    Atoi) it wraps as Go's does.

    ** What the theorems show

    - Nothing is lost or invented: [Reconcile_conserves], [dedupeCluster_conserves],
      [queue_conserves], [routeUnresolved_aligned], [Repair_keeps_data],
      [mergeChunkResults_conserves], [chunkDiff_spec], [PartitionByBudget_spec], and
      across an interruption [resume_union]; through cross-examination
      [runDebate_conserves], over the merged records of [MergeJSONFindings_spec]. A
      refused chunk is refused everywhere: [mergeResultGroup_provenance].
    - What is on disk and what is reported agree: [durable_before_reported],
      [coverage_agrees]. The records keep their vocabularies: [runDebate_typed].
    - The store may forget without its readers noticing: [compaction_invisible],
      [signal_survives_compaction], [retention_bounds], [compaction_plan]. What it shows:
      [FoldRecords_recency], [FoldSummaries_agrees], [AggregateQualitySignal_rows],
      [detections_surface].
    - A dispute is settled fairly, once, or given up after three attempts: [CastRoles_spec],
      [debateOne_spec], [rerun_settled], [withholding_ceiling].
    - What is computed: [BuildDisagreements_spec], [DedupeCluster_groups], [Reconcile_sorted_filtered],
      [ClusterWith_connected_components], [dbscanLabels_components],
      [bipartiteGroups_linkage], [Merge_confidence], [parseVerdictCore_valid],
      [aggregateVerdicts_spec], [ApplyByteBudget_spec].
    - Agreement with a reference: [levenshtein_edit_distance], [pick_reference],
      [skepticToolBudget_spec]; refinement of an abstract specification: [SplitThink_spec]
      (the grammar [leading] of think blocks), [queue_refines] (a bag of units, each
      waiting, held or resolved).
    - Reading never fails or loops on any bytes a model may write: [Repair_total],
      [ParseModelOutput_safe], [parseVerdictCore_spec], [grade_run_refuted].
    - Round trips: [parse_write], [write_structure], [WriteSourceV2_read],
      [ReadPoolFindings_toon], [Decode_Encode], [chunk_framing]; errors: [Decode_spec].
    - Progress and bounds: [hungarian_permutation], [queue_progress], [ledger_calls_return],
      [leases_bounded],
      [lease_respects_caps], [breaker_single_probe], [breaker_cooldown],
      [registry_one_breaker_per_provider], [EffectiveByteBudget_fits],
      [clampDispatcher_bounds], [CountAtOrAbove_gate].

    ** Bounds and fuel

    Loops of the source whose recursion is not structural run on fuel, and running out is
    a value no theorem accepts as a result. Of the Hungarian solver [hungarian_permutation]
    proves the fuel enough, and that float64 stays below the sentinel, for up to 25 rows
    ([solver_rows]): its potentials may climb three binades per iteration. [matchable]
    asks that of a cluster, or that every finding has its own source, when each
    assignment is a plain minimum; [tokens_small] that a problem has fewer than 2^52
    distinct tokens. A cluster over [maxClusterSize] = 500 takes the pass-through path.
    The scans of [Think] and [SkepticVerdict] get one more unit of fuel than bytes, which
    their theorems prove enough; [JsonRepair] gets one per byte ([Repair_total]), the
    reader of [JsonDecode] twice the length plus two, path halving in [UnionFind] the
    length of the parent array. encoding/json's nesting limit 10000 is the library's. The
    retry theorems are about the engine's own policy, [defaultUnitRetryPolicy].

    ** Parameters

    Code outside src/ and facts of its environment are arguments: the AST grouper (an
    interface of src/reconcile/grouper.go), the Unicode case tables above ASCII (class
    [UnicodeCase]), the TOON codec (class [GoAxi]), the order in which Go ranges over a
    map, the instants a clock reads and the states a breaker reads, and what an attempt
    at a unit or a tool call answers.

    ** Not modelled

    The command line, the calls to models (src/internal/llmclient beyond think.go, the
    engine of src/internal/fanout beyond the queue), payload extraction around git, the
    registry's YAML, the scorecard, the sandbox, MCP and webhook
    servers, personas, tools, benchmarks, rendering, telemetry and logs: network, file
    and process I/O around the part modelled here. tree-sitter parsing is behind the
    grouper interface. Of internal/reconcile the discovery and emission of files, of
    internal/verify the prompt and the pipeline, of internal/debate the correction of
    verification.json and the transcripts, of internal/localdebt the files, their locks and
    lines, the event layout and the commands that import and resolve. Error texts, log
    lines and metrics are left out throughout, except the breaker's gauge. *)

From Stdlib Require Import Bool.
From stdpp Require Import base tactics list option sorting relations.
From Stdlib Require Import ZArith Lia.

(** ** Automation *)

Create HintDb atcr discriminated.

Declare Scope go_scope.
Delimit Scope go_scope with go.

(** Boolean tests of the code, turned into the propositions they decide. *)
Ltac bool_prop :=
  repeat match goal with
  | H : _ && _ = true |- _ => apply andb_true_iff in H as [? ?]
  | H : _ || _ = false |- _ => apply orb_false_iff in H as [? ?]
  | H : negb _ = true |- _ => apply negb_true_iff in H
  | H : negb _ = false |- _ => apply negb_false_iff in H
  | H : (_ =? _)%nat = true |- _ => apply Nat.eqb_eq in H
  | H : (_ =? _)%nat = false |- _ => apply Nat.eqb_neq in H
  | H : (_ <? _)%nat = true |- _ => apply Nat.ltb_lt in H
  | H : (_ <? _)%nat = false |- _ => apply Nat.ltb_ge in H
  | H : (_ <=? _)%nat = true |- _ => apply Nat.leb_le in H
  | H : (_ <=? _)%nat = false |- _ => apply Nat.leb_gt in H
  | H : (_ =? _)%Z = true |- _ => apply Z.eqb_eq in H
  | H : (_ =? _)%Z = false |- _ => apply Z.eqb_neq in H
  | H : (_ <? _)%Z = true |- _ => apply Z.ltb_lt in H
  | H : (_ <? _)%Z = false |- _ => apply Z.ltb_ge in H
  | H : (_ <=? _)%Z = true |- _ => apply Z.leb_le in H
  | H : (_ <=? _)%Z = false |- _ => apply Z.leb_gt in H
  | H : bool_decide _ = true |- _ => apply bool_decide_eq_true in H
  | H : bool_decide _ = false |- _ => apply bool_decide_eq_false in H
  end.

(** Case analysis on the innermost scrutinee of the goal. *)
Ltac split_match :=
  match goal with
  | |- context [match ?x with _ => _ end] =>
      lazymatch x with context [match _ with _ => _ end] => fail | _ => destruct x eqn:? end
  end.

(** ** Loops

    A [for _, x := range l] loop whose body updates the locals [s] is
    [foldl body s l]; an invariant of the body is an invariant of the loop. *)

Lemma foldl_invariant {A B} (P : list A -> B -> Prop) (f : B -> A -> B) l s :
  P [] s ->
  (forall done x todo s', l = done ++ x :: todo -> P done s' -> P (done ++ [x]) (f s' x)) ->
  P l (foldl f s l).
Proof.
  intros H0 Hstep.
  cut (forall todo done s', l = done ++ todo -> P done s' -> P l (foldl f s' todo)).
  { intros H. by apply (H l [] s). }
  induction todo as [|x todo IH]; intros done s' -> Hd; simpl.
  - by rewrite app_nil_r.
  - apply (IH (done ++ [x])); [by rewrite <- app_assoc|]. by eapply Hstep.
Qed.

Lemma foldl_preserves {A B} (P : B -> Prop) (f : B -> A -> B) l s :
  P s -> (forall s' x, x ∈ l -> P s' -> P (f s' x)) -> P (foldl f s l).
Proof.
  revert s. induction l as [|x l IH]; intros s H0 Hstep; simpl; [done|].
  apply IH; [apply Hstep; [left|done] | intros s' y Hy; apply Hstep; by right].
Qed.

Lemma foldl_fold_left {A B} (f : B -> A -> B) l s : foldl f s l = List.fold_left f l s.
Proof. revert s. by induction l as [|x l IH]; intros s; simpl; rewrite ?IH. Qed.

(** ** Lists *)

Lemma filter_Forall_id {A} (P : A -> Prop) `{!forall x, Decision (P x)} (l : list A) :
  Forall P l -> filter P l = l.
Proof.
  induction 1 as [|x l Hx Hl IH]; [done|].
  by rewrite filter_cons_True, IH.
Qed.

Lemma filter_Forall_nil {A} (P : A -> Prop) `{!forall x, Decision (P x)} (l : list A) :
  Forall (fun x => ~ P x) l -> filter P l = [].
Proof.
  induction 1 as [|x l Hx Hl IH]; [done|].
  by rewrite filter_cons_False, IH.
Qed.

Lemma StronglySorted_snoc {A} (R : A -> A -> Prop) l x :
  StronglySorted R l -> Forall (fun y => R y x) l -> StronglySorted R (l ++ [x]).
Proof.
  induction 1 as [|y l Hs IH Hy]; intros Hall; simpl.
  - repeat constructor.
  - inversion Hall as [|? ? Hyx Hall']; subst. constructor; [by apply IH|].
    apply Forall_app. split; [done|]. by constructor.
Qed.

(** A loop that appends a slice per element is a concatenation. *)
Lemma foldl_append {A B} (f : A -> list B) (l : list A) (acc : list B) :
  foldl (fun acc x => acc ++ f x) acc l = acc ++ mjoin (f <$> l).
Proof.
  revert acc. induction l as [|x l IH]; intros acc; simpl; [by rewrite app_nil_r|].
  by rewrite IH, app_assoc.
Qed.

Lemma foldl_ext {A B} (f g : B -> A -> B) (l : list A) (s : B) :
  (forall s x, x ∈ l -> f s x = g s x) -> foldl f s l = foldl g s l.
Proof.
  revert s. induction l as [|x l IH]; intros s H; simpl; [done|].
  rewrite H by left. apply IH. intros s' y Hy. apply H. by right.
Qed.

Lemma elem_of_mjoin {A} (x : A) (ls : list (list A)) :
  x ∈ mjoin ls <-> exists l, l ∈ ls /\ x ∈ l.
Proof.
  induction ls as [|l ls IH]; simpl.
  - split; [by intros ?%elem_of_nil | by intros (l & ?%elem_of_nil & _)].
  - rewrite elem_of_app, IH. split.
    + intros [Hx | (l' & Hl & Hx)]; [exists l | exists l']; split; try done; [left | by right].
    + intros (l' & [->|Hl]%elem_of_cons & Hx); [by left | right; eauto].
Qed.

Lemma mjoin_app {A} (l1 l2 : list (list A)) : mjoin (l1 ++ l2) = mjoin l1 ++ mjoin l2.
Proof. induction l1 as [|x l1 IH]; simpl; [done|]. by rewrite IH, app_assoc. Qed.

Lemma StronglySorted_app_intro {A} (R : A -> A -> Prop) l1 l2 :
  StronglySorted R l1 -> StronglySorted R l2 ->
  (forall x y, x ∈ l1 -> y ∈ l2 -> R x y) -> StronglySorted R (l1 ++ l2).
Proof.
  induction 1 as [|x l1 Hs IH Hx]; intros H2 H; simpl; [done|]. constructor.
  - apply IH; [done|]. intros y z Hy Hz. apply H; [by right|done].
  - apply Forall_app. split; [done|]. apply Forall_forall. intros y Hy. apply H; [left|done].
Qed.

(** Elements at two different places of a sorted list are related one way. *)
Lemma StronglySorted_elem {A} (R : A -> A -> Prop) l x y :
  StronglySorted R l -> x ∈ l -> y ∈ l -> x = y \/ R x y \/ R y x.
Proof.
  induction 1 as [|z l Hs IH Hz]; [by intros ?%elem_of_nil|].
  rewrite Forall_forall in Hz.
  intros [->|Hx]%elem_of_cons [->|Hy]%elem_of_cons; auto.
Qed.

Lemma StronglySorted_filter {A} (R : A -> A -> Prop) (P : A -> Prop) `{!forall x, Decision (P x)} l :
  StronglySorted R l -> StronglySorted R (filter P l).
Proof.
  induction 1 as [|x l _ IH Hx]; [constructor|]. rewrite filter_cons. case_decide; [|done].
  constructor; [done|]. rewrite Forall_forall in *. intros y [_ Hy]%list_elem_of_filter. auto.
Qed.

Lemma filter_iff_in {A} (P Q : A -> Prop) `{!forall x, Decision (P x), !forall x, Decision (Q x)} (l : list A) :
  (forall x, x ∈ l -> P x <-> Q x) -> filter P l = filter Q l.
Proof.
  induction l as [|x l IH]; intros Hl; [done|]. rewrite !filter_cons.
  rewrite IH by (intros y Hy; apply Hl; by right).
  pose proof (Hl x (list_elem_of_here x l)) as Hx. repeat case_decide; tauto.
Qed.

(** Reading a slice after a write, by index in range. *)
Lemma lookup_total_insert_cases {A} `{!Inhabited A} (l : list A) i j x :
  j < length l -> <[i := x]> l !!! j = if decide (i = j) then x else l !!! j.
Proof.
  intros Hj. rewrite !list_lookup_total_alt. case_decide as Hd.
  - subst. by rewrite list_lookup_insert_eq.
  - by rewrite list_lookup_insert_ne.
Qed.

(** Splitting a list by a key and concatenating the parts loses nothing. *)
Lemma filter_keys_Permutation {A K} `{!EqDecision K} (key : A -> K) (ks : list K) (l : list A) :
  NoDup ks -> (forall x, x ∈ l -> key x ∈ ks) ->
  mjoin ((fun k => filter (fun x => key x = k) l) <$> ks) ≡ₚ l.
Proof.
  revert l. induction ks as [|k ks IH]; intros l Hnd Hall; simpl.
  - destruct l as [|x l]; [done|]. exfalso. eapply not_elem_of_nil, (Hall x). left.
  - apply NoDup_cons in Hnd as [Hk Hnd].
    transitivity (filter (fun x => key x = k) l ++ filter (fun x => ~ key x = k) l);
      [|by rewrite (filter_app_complement (fun x => key x = k))].
    apply Permutation_app_head. rewrite <- (IH (filter (fun x => ~ key x = k) l)); [|done|].
    + apply reflexive_eq. f_equal. apply list_fmap_ext. intros i k' Hk'.
      rewrite list_filter_filter. apply list_filter_iff. intros x.
      apply list_elem_of_lookup_2 in Hk'. split; [|by intros [? ?]]. intros <-.
      split; [done|]. intros Heq. by rewrite Heq in Hk'.
    + intros x [Hne Hx]%list_elem_of_filter. apply Hall, elem_of_cons in Hx as [?|?]; done.
Qed.

(** ** Loops that can fail *)

(** A [for range] loop whose body may panic or return early. *)
Fixpoint foldM {A B} (f : B -> A -> option B) (s : B) (l : list A) : option B :=
  match l with
  | [] => Some s
  | x :: l' => s' ← f s x; foldM f s' l'
  end.

Lemma foldM_invariant {A B} (P : list A -> B -> Prop) (f : B -> A -> option B) l s :
  P [] s ->
  (forall done x todo s, l = done ++ x :: todo -> P done s ->
     exists s', f s x = Some s' /\ P (done ++ [x]) s') ->
  exists s', foldM f s l = Some s' /\ P l s'.
Proof.
  intros H0 Hstep.
  enough (forall done todo s, l = done ++ todo -> P done s ->
    exists s', foldM f s todo = Some s' /\ P l s') as H by (by apply (H [])).
  intros done todo. revert done. induction todo as [|x todo IH]; intros done s' Hl Hs; simpl.
  - rewrite app_nil_r in Hl. subst. eauto.
  - destruct (Hstep _ _ _ _ Hl Hs) as (s1 & -> & Hs1). simpl.
    apply (IH (done ++ [x])); [by rewrite <- app_assoc|done].
Qed.

Lemma foldM_cons {A B} (f : B -> A -> option B) s x s' l :
  f s x = Some s' -> foldM f s (x :: l) = foldM f s' l.
Proof. intros H. simpl. by rewrite H. Qed.

(** ** Writing one value at many indices *)

Lemma length_foldl_insert {A} (v : A) (idxs : list nat) (l : list A) :
  length (foldl (fun g i => <[i := v]> g) l idxs) = length l.
Proof. revert l. induction idxs as [|i idxs IH]; intros l; simpl; [done|]. by rewrite IH, length_insert. Qed.

Lemma foldl_insert_lookup {A} `{!Inhabited A} (v : A) (idxs : list nat) (l : list A) x :
  x < length l ->
  foldl (fun g i => <[i := v]> g) l idxs !!! x = if decide (x ∈ idxs) then v else l !!! x.
Proof.
  revert l. induction idxs as [|i idxs IH]; intros l Hx; cbn [foldl].
  - case_decide as H; [by apply elem_of_nil in H|done].
  - rewrite IH by (by rewrite length_insert). rewrite lookup_total_insert_cases by done.
    destruct (decide (x ∈ idxs)) as [H1|H1], (decide (i = x)) as [H2|H2],
      (decide (x ∈ i :: idxs)) as [H3|H3]; try done; exfalso.
    all: rewrite elem_of_cons in H3; intuition congruence.
Qed.

Lemma mjoin_NoDup_block {A} (ls : list (list A)) l : NoDup (mjoin ls) -> l ∈ ls -> NoDup l.
Proof.
  induction ls as [|h ls IH]; intros Hnd Hl; [by apply elem_of_nil in Hl|].
  simpl in Hnd. apply NoDup_app in Hnd as (? & _ & ?).
  apply elem_of_cons in Hl as [->|Hl]; [done|by apply IH].
Qed.

(** A value occurs in one block of a duplicate-free partition. *)
Lemma mjoin_NoDup_index {A} (ls : list (list A)) i j l k x :
  NoDup (mjoin ls) -> ls !! i = Some l -> ls !! j = Some k -> x ∈ l -> x ∈ k -> i = j.
Proof.
  revert i j. induction ls as [|h ls IH]; intros [|i] [|j] Hnd Hi Hj Hx Hy; simpl in *; try done;
    apply NoDup_app in Hnd as (_ & Hdis & Hnd).
  - injection Hi as ->. destruct (Hdis x Hx). apply elem_of_mjoin. exists k.
    split; [by apply list_elem_of_lookup_2 in Hj|done].
  - injection Hj as ->. destruct (Hdis x Hy). apply elem_of_mjoin. exists l.
    split; [by apply list_elem_of_lookup_2 in Hi|done].
  - f_equal. by apply IH.
Qed.

(** ** Adding an edge to an equivalence closure *)

Lemma rtsc_add_edge {A} (R S : A -> A -> Prop) a b :
  (forall x y, S x y <-> R x y \/ x = a /\ y = b) ->
  forall x y, rtsc S x y <->
    rtsc R x y \/ rtsc R x a /\ rtsc R b y \/ rtsc R x b /\ rtsc R a y.
Proof.
  intros HS x y.
  assert (forall x y, rtsc R x y -> rtsc S x y) as Hsub.
  { intros u v. apply rtc_subrel. intros p q [H|H]; [left|right]; apply HS; by left. }
  split.
  - intros H. induction H as [x|x z y Hz _ IH]; [left; reflexivity|].
    assert (sc R x z \/ (x = a /\ z = b) \/ (x = b /\ z = a)) as [Hr|[[-> ->]|[-> ->]]].
    { destruct Hz as [Hz|Hz]; apply HS in Hz as [Hz|[-> ->]]; [left; by left|auto|left; by right|auto]. }
    + assert (forall w, rtsc R z w -> rtsc R x w) as Hx by (intros w; by apply rtc_l).
      destruct IH as [IH|[[H1 H2]|[H1 H2]]]; auto.
    + destruct IH as [IH|[[H1 H2]|[H1 H2]]]; [|by right; left|by left].
      right; left. split; [reflexivity|done].
    + destruct IH as [IH|[[H1 H2]|[H1 H2]]]; [|by left|by right; right].
      right; right. split; [reflexivity|done].
  - assert (sc S a b) as Hab by (left; apply HS; by right).
    assert (sc S b a) as Hba by (right; apply HS; by right).
    intros [H|[[H1 H2]|[H1 H2]]]; [by apply Hsub| |];
      (etrans; [apply Hsub, H1|]); (eapply rtc_l; [done|by apply Hsub]).
Qed.

Lemma StronglySorted_lt_NoDup (l : list nat) : StronglySorted lt l -> NoDup l.
Proof.
  induction 1 as [|x l Hs IH Hx]; constructor; [|done]. intros Hin.
  rewrite Forall_forall in Hx. specialize (Hx x Hin). lia.
Qed.

(** A list beside its image. *)
Lemma Forall2_fmap_self {A B} (P : A -> B -> Prop) (f : A -> B) l : (forall x, P x (f x)) -> Forall2 P l (f <$> l).
Proof. intros H. induction l; by constructor. Qed.

(** The elements an [omap] keeps, with what it answers for each, and those it drops. *)
Lemma omap_split {A B} (f : A -> option B) (l : list A) : exists kept lost,
  kept ++ lost ≡ₚ l /\ Forall2 (fun x y => f x = Some y) kept (omap f l) /\ Forall (fun x => f x = None) lost.
Proof.
  induction l as [|x l (kept & lost & Hp & Hk & Hl)]; [exists [], []; by split_and!|].
  destruct (f x) as [y|] eqn:E; [exists (x :: kept), lost|exists kept, (x :: lost)]; cbn [omap list_omap]; rewrite E.
  - split_and!; [cbn; by rewrite Hp|by constructor|done].
  - split_and!; [by rewrite <- Permutation_middle, Hp|done|by constructor].
Qed.
