(* ===== verification/GoString.v ===== *)
(** * Go strings

    Go strings are byte strings: [string] here is a list of 8-bit characters and
    every operation works on bytes.  The functions of Go's packages [strings] and
    [strconv] that the reconciler calls are defined below the way those packages
    define them.  [TrimSpace] is exact (the white-space code points of
    [unicode.IsSpace] are a finite list of byte sequences); [ToLower] and
    [ToUpper] are exact on ASCII strings, and on a string with a byte >= 0x80 they
    are the simple case mappings of the Unicode tables, which are the class
    [UnicodeCase]. *)

From Stdlib Require Import Ascii String.
From stdpp Require Import prelude strings pretty sorting.
From S2P Require Import Prelude.

Abbreviation bytes := (list ascii).
Abbreviation to_bytes := list_ascii_of_string.
Abbreviation of_bytes := string_of_list_ascii.

Definition byte_of (n : N) : ascii := ascii_of_N n.
Definition code (c : ascii) : N := N_of_ascii c.

(** ** Order: Go compares strings bytewise *)

Definition str_ltb (a b : string) : bool := String.ltb a b.

(** ** Character classes *)

Definition is_ascii (s : string) : bool :=
  forallb (fun c => (code c <? 128)%N) (to_bytes s).
Definition between (lo hi : N) (c : ascii) : bool := (lo <=? code c)%N && (code c <=? hi)%N.
Definition is_upper (c : ascii) : bool := between 65 90 c.
Definition is_lower (c : ascii) : bool := between 97 122 c.
Definition is_digit (c : ascii) : bool := between 48 57 c.

Definition lower_byte (c : ascii) : ascii := if is_upper c then byte_of (code c + 32) else c.
Definition upper_byte (c : ascii) : ascii := if is_lower c then byte_of (code c - 32) else c.

(** ** Case mapping *)

(** [strings.Map(unicode.ToLower, s)] and [strings.Map(unicode.ToUpper, s)] on a
    string that is not pure ASCII: the Unicode case tables. *)
Class UnicodeCase := {
  unicode_lower : string -> string;
  unicode_upper : string -> string;
}.

(** The instance the concrete evaluations use: no case mapping above ASCII. *)
Definition ascii_case : UnicodeCase :=
  {| unicode_lower s := of_bytes (lower_byte <$> to_bytes s);
     unicode_upper s := of_bytes (upper_byte <$> to_bytes s) |}.

Section case_mapping.
Context {U : UnicodeCase}.
Definition ToLower (s : string) : string :=
    if is_ascii s then of_bytes (lower_byte <$> to_bytes s) else unicode_lower s.
Definition ToUpper (s : string) : string :=
    if is_ascii s then of_bytes (upper_byte <$> to_bytes s) else unicode_upper s.
End case_mapping.

(** ** Prefixes, [strings.Contains], [strings.Split], [strings.ReplaceAll] *)

Fixpoint is_prefix (p l : bytes) : bool :=
  match p, l with
  | [], _ => true
  | a :: p', b :: l' => Ascii.eqb a b && is_prefix p' l'
  | _ :: _, [] => false
  end.

Fixpoint contains_bytes (sub l : bytes) : bool :=
  is_prefix sub l || match l with [] => false | _ :: l' => contains_bytes sub l' end.
Definition Contains (s substr : string) : bool := contains_bytes (to_bytes substr) (to_bytes s).

(** [strings.Split] with a non-empty separator: cut at the leftmost occurrence,
    continue after it. [skip] bytes of a matched separator are still to be passed. *)
Fixpoint split_bytes (sep : bytes) (l : bytes) (skip : nat) (cur : bytes) : list bytes :=
  match l with
  | [] => [cur]
  | c :: l' =>
      match skip with
      | S k => split_bytes sep l' k cur
      | O => if is_prefix sep l then cur :: split_bytes sep l' (length sep - 1) []
             else split_bytes sep l' 0 (cur ++ [c])
      end
  end.
Definition Split (s sep : string) : list string :=
  of_bytes <$> split_bytes (to_bytes sep) (to_bytes s) 0 [].

Fixpoint replace_bytes (old new : bytes) (l : bytes) (skip : nat) : bytes :=
  match l with
  | [] => []
  | c :: l' =>
      match skip with
      | S k => replace_bytes old new l' k
      | O => if is_prefix old l then new ++ replace_bytes old new l' (length old - 1)
             else c :: replace_bytes old new l' 0
      end
  end.
Definition ReplaceAll (s old new : string) : string :=
  of_bytes (replace_bytes (to_bytes old) (to_bytes new) (to_bytes s) 0).

(** [strings.Join] *)
Definition Join (elems : list string) (sep : string) : string := String.concat sep elems.

(** [strconv.Itoa] *)
Definition Itoa (n : Z) : string := pretty n.

(** ** [strings.TrimSpace] *)

(** The UTF-8 encodings of the code points of [unicode.IsSpace]. *)
Definition spaces : list bytes :=
  map (map byte_of)
    [[9]; [10]; [11]; [12]; [13]; [32];                              (* ASCII *)
     [194; 133]; [194; 160];                                         (* U+0085 U+00A0 *)
     [225; 154; 128];                                                (* U+1680 *)
     [226; 128; 128]; [226; 128; 129]; [226; 128; 130]; [226; 128; 131];
     [226; 128; 132]; [226; 128; 133]; [226; 128; 134]; [226; 128; 135];
     [226; 128; 136]; [226; 128; 137]; [226; 128; 138];              (* U+2000..U+200A *)
     [226; 128; 168]; [226; 128; 169]; [226; 128; 175];              (* U+2028 U+2029 U+202F *)
     [226; 129; 159]; [227; 128; 128]]%N.                            (* U+205F U+3000 *)

Fixpoint strip_any (ps : list bytes) (l : bytes) : option bytes :=
  match ps with
  | [] => None
  | p :: ps' => if is_prefix p l then Some (drop (length p) l) else strip_any ps' l
  end.

Fixpoint trim_front (fuel : nat) (ps : list bytes) (l : bytes) : bytes :=
  match fuel with
  | O => l
  | S k => match strip_any ps l with Some l' => trim_front k ps l' | None => l end
  end.

Definition trim_left (l : bytes) : bytes := trim_front (length l) spaces l.
Definition trim_right (l : bytes) : bytes :=
  reverse (trim_front (length l) (reverse <$> spaces) (reverse l)).
Definition TrimSpace (s : string) : string := of_bytes (trim_right (trim_left (to_bytes s))).

(** The canonical form of a category token: [strings.ToLower(strings.TrimSpace(s))]. *)
Definition lower_trim {U : UnicodeCase} (s : string) : string := ToLower (TrimSpace s).
Definition upper_trim {U : UnicodeCase} (s : string) : string := ToUpper (TrimSpace s).

(** ** Lemmas: the byte order is a strict total order *)

Lemma to_bytes_inj a b : to_bytes a = to_bytes b -> a = b.
Proof.
  intros H. rewrite <- (string_of_list_ascii_of_string a), H.
  apply string_of_list_ascii_of_string.
Qed.

Lemma ascii_compare_eq a b : Ascii.compare a b = Eq <-> a = b.
Proof.
  split; [apply Ascii.compare_eq_iff|]. intros ->. apply N.compare_refl.
Qed.

Lemma str_compare_refl a : String.compare a a = Eq.
Proof. induction a as [|x a IH]; [done|]. simpl. by rewrite (proj2 (ascii_compare_eq x x) eq_refl). Qed.

Lemma str_ltb_lt a b : str_ltb a b = true <-> String.compare a b = Lt.
Proof. unfold str_ltb, String.ltb. destruct (String.compare a b); naive_solver. Qed.

Lemma str_compare_lt_trans a b c :
  String.compare a b = Lt -> String.compare b c = Lt -> String.compare a c = Lt.
Proof.
  revert b c. induction a as [|x a IH]; intros [|y b] [|z c]; simpl; try done.
  destruct (Ascii.compare x y) eqn:Hxy; try done;
    destruct (Ascii.compare y z) eqn:Hyz; try done.
  - apply ascii_compare_eq in Hxy, Hyz. subst. rewrite (proj2 (ascii_compare_eq z z) eq_refl).
    apply IH.
  - apply ascii_compare_eq in Hxy as ->. by rewrite Hyz.
  - apply ascii_compare_eq in Hyz as ->. by rewrite Hxy.
  - intros _ _. unfold Ascii.compare in *.
    by rewrite (proj2 (N.compare_lt_iff _ _) (N.lt_trans _ _ _
      (proj1 (N.compare_lt_iff _ _) Hxy) (proj1 (N.compare_lt_iff _ _) Hyz))).
Qed.

Lemma str_ltb_trans a b c : str_ltb a b = true -> str_ltb b c = true -> str_ltb a c = true.
Proof. rewrite !str_ltb_lt. apply str_compare_lt_trans. Qed.

Lemma str_ltb_irrefl a : str_ltb a a = false.
Proof.
  apply not_true_iff_false. rewrite str_ltb_lt.
  by rewrite str_compare_refl.
Qed.

Lemma str_ltb_asym a b : str_ltb a b = true -> str_ltb b a = false.
Proof.
  intros H. apply not_true_iff_false. intros H'.
  pose proof (str_ltb_trans _ _ _ H H') as Hc. by rewrite str_ltb_irrefl in Hc.
Qed.

Lemma str_ltb_total a b : str_ltb a b = false -> str_ltb b a = false -> a = b.
Proof.
  intros Hab Hba. apply String.compare_eq_iff.
  apply not_true_iff_false in Hab, Hba. rewrite str_ltb_lt in Hab, Hba.
  rewrite (String.compare_antisym b a) in Hba. destruct (String.compare a b); naive_solver.
Qed.

(** ** Lemmas: prefixes and [ReplaceAll] *)

Lemma is_prefix_spec p l : is_prefix p l = true <-> exists k, l = p ++ k.
Proof.
  revert l. induction p as [|a p IH]; intros l; simpl.
  - split; [by exists l | done].
  - destruct l as [|b l].
    + split; [done | by intros [k ?]].
    + rewrite andb_true_iff, Ascii.eqb_eq, IH. split.
      * intros [-> [k ->]]. by exists k.
      * intros [k [= -> ->]]. split; [done | by exists k].
Qed.

(** Deleting one character removes exactly its occurrences. *)
Lemma replace_bytes_delete c l :
  replace_bytes [c] [] l 0 = List.filter (fun x => negb (Ascii.eqb c x)) l.
Proof.
  induction l as [|x l IH]; [done|]. simpl. rewrite andb_true_r.
  destruct (Ascii.eqb c x); simpl; by rewrite IH.
Qed.

(** Replacing one character by another. *)
Lemma replace_bytes_char c d l : replace_bytes [c] [d] l 0 = (fun x => if Ascii.eqb c x then d else x) <$> l.
Proof.
  induction l as [|x l IH]; [done|]. rewrite fmap_cons, <- IH. cbn [replace_bytes is_prefix]. rewrite andb_true_r.
  by destruct (Ascii.eqb c x).
Qed.

(** No character of [s] is [c]. *)
Definition lacks (c : ascii) (s : string) : Prop := c ∉ to_bytes s.

Lemma ReplaceAll_delete_lacks c s : lacks c (ReplaceAll s (of_bytes [c]) "").
Proof.
  unfold lacks, ReplaceAll. rewrite !list_ascii_of_string_of_list_ascii.
  change (to_bytes "") with (@nil ascii). rewrite replace_bytes_delete.
  intros [_ H]%list_elem_of_In%List.filter_In. by rewrite Ascii.eqb_refl in H.
Qed.

Lemma ReplaceAll_delete_id c s : lacks c s -> ReplaceAll s (of_bytes [c]) "" = s.
Proof.
  unfold lacks, ReplaceAll. rewrite list_ascii_of_string_of_list_ascii.
  change (to_bytes "") with (@nil ascii). rewrite replace_bytes_delete. intros H.
  rewrite <- (string_of_list_ascii_of_string s) at 2. f_equal.
  induction (to_bytes s) as [|x l IH]; [done|]. apply not_elem_of_cons in H as [Hx Hl].
  simpl. rewrite (proj2 (Ascii.eqb_neq c x) Hx). simpl. by rewrite IH.
Qed.

(** ** Lemmas: [TrimSpace] *)

Lemma strip_any_Some ps l l' :
  strip_any ps l = Some l' -> exists p, p ∈ ps /\ l = p ++ l'.
Proof.
  induction ps as [|p ps IH]; simpl; [done|]. destruct (is_prefix p l) eqn:Hp.
  - apply is_prefix_spec in Hp as [k ->]. intros [= <-].
    rewrite drop_app_length. exists p. split; [left|done].
  - intros (q & Hq & ->)%IH. exists q. split; [by right|done].
Qed.

Lemma strip_any_None ps l :
  strip_any ps l = None <-> forall p, p ∈ ps -> is_prefix p l = false.
Proof.
  induction ps as [|p ps IH]; simpl.
  - split; [|done]. by intros _ q ?%elem_of_nil.
  - destruct (is_prefix p l) eqn:Hp.
    + split; [done|]. intros H. rewrite (H p) in Hp; [done|left].
    + rewrite IH. split.
      * by intros H q [->|Hq]%elem_of_cons; [|apply H].
      * intros H q Hq. apply H. by right.
Qed.

Lemma trim_front_suffix n ps l : exists k, l = k ++ trim_front n ps l.
Proof.
  revert l. induction n as [|n IH]; intros l; simpl; [by exists []|].
  destruct (strip_any ps l) as [l'|] eqn:Hs; [|by exists []].
  apply strip_any_Some in Hs as (p & _ & ->). destruct (IH l') as [k Hk].
  exists (p ++ k). by rewrite <- app_assoc, <- Hk.
Qed.

Lemma trim_front_None n ps l :
  Forall (fun p => p <> []) ps -> length l <= n -> strip_any ps (trim_front n ps l) = None.
Proof.
  intros Hps. revert l. induction n as [|n IH]; intros l Hn; simpl.
  - destruct l; [|simpl in Hn; lia]. apply strip_any_None. intros p Hp.
    rewrite Forall_forall in Hps. specialize (Hps p Hp). by destruct p.
  - destruct (strip_any ps l) as [l'|] eqn:Hs; [|done]. apply IH.
    apply strip_any_Some in Hs as (p & Hp & ->). rewrite Forall_forall in Hps.
    specialize (Hps p Hp). rewrite length_app in Hn. destruct p; simpl in *; [done|lia].
Qed.

Lemma trim_front_id n ps l : strip_any ps l = None -> trim_front n ps l = l.
Proof. destruct n; simpl; [done|]. by intros ->. Qed.

Lemma spaces_nonempty : Forall (fun p : bytes => p <> []) spaces.
Proof. repeat constructor; done. Qed.

Lemma reverse_spaces_nonempty : Forall (fun p : bytes => p <> []) (reverse <$> spaces).
Proof. repeat constructor; done. Qed.

(** A byte string [TrimSpace] leaves alone. *)
Definition trimmed (l : bytes) : Prop :=
  strip_any spaces l = None /\ strip_any (reverse <$> spaces) (reverse l) = None.

Lemma trim_trimmed l : trimmed (trim_right (trim_left l)).
Proof.
  set (m := trim_left l).
  assert (strip_any spaces m = None) as Hm
    by (apply trim_front_None; [apply spaces_nonempty | done]).
  split.
  - unfold trim_right.
    destruct (trim_front_suffix (length m) (reverse <$> spaces) (reverse m)) as [k Hk].
    set (r := trim_front _ _ _) in *.
    assert (m = reverse r ++ reverse k) as Hr by
      (rewrite <- reverse_app, <- Hk; by rewrite reverse_involutive).
    apply strip_any_None. intros p Hp.
    destruct (is_prefix p (reverse r)) eqn:He; [|done].
    apply is_prefix_spec in He as [q Hq]. exfalso.
    assert (is_prefix p m = false) as Hf by (by apply strip_any_None with (ps := spaces)).
    rewrite <- not_true_iff_false in Hf. apply Hf, is_prefix_spec.
    exists (q ++ reverse k). rewrite Hr, Hq. by rewrite <- app_assoc.
  - unfold trim_right. rewrite reverse_involutive.
    apply trim_front_None; [apply reverse_spaces_nonempty|]. by rewrite length_reverse.
Qed.

Lemma trimmed_id l : trimmed l -> trim_right (trim_left l) = l.
Proof.
  intros [H1 H2]. unfold trim_left. rewrite (trim_front_id _ _ _ H1).
  unfold trim_right. rewrite (trim_front_id _ _ _ H2). apply reverse_involutive.
Qed.

Lemma TrimSpace_idemp s : TrimSpace (TrimSpace s) = TrimSpace s.
Proof.
  unfold TrimSpace. rewrite list_ascii_of_string_of_list_ascii. f_equal.
  apply trimmed_id, trim_trimmed.
Qed.

Lemma trim_elem c l : c ∈ trim_right (trim_left l) -> c ∈ l.
Proof.
  unfold trim_right, trim_left.
  destruct (trim_front_suffix (length l) spaces l) as [k Hk].
  set (m := trim_front (length l) spaces l) in *.
  destruct (trim_front_suffix (length m) (reverse <$> spaces) (reverse m)) as [k' Hk'].
  set (r := trim_front _ (reverse <$> spaces) _) in *.
  rewrite elem_of_reverse. intros Hc. rewrite Hk. apply elem_of_app. right.
  apply elem_of_reverse. rewrite Hk'. apply elem_of_app. by right.
Qed.

(** ** Lemmas: canonical tokens of ASCII strings *)

Definition all_chars : list ascii := byte_of <$> (N.of_nat <$> seq 0 256).

Lemma elem_of_all_chars c : c ∈ all_chars.
Proof.
  unfold all_chars. apply list_elem_of_fmap. exists (code c). split.
  - unfold byte_of, code. by rewrite ascii_N_embedding.
  - apply list_elem_of_fmap. exists (N.to_nat (code c)). split; [lia|].
    apply elem_of_seq. pose proof (N_ascii_bounded c). unfold code. lia.
Qed.

(** A property of all 256 characters, checked by evaluation. *)
Lemma all_chars_forallb (f : ascii -> bool) :
  forallb f all_chars = true -> forall c, f c = true.
Proof.
  intros H c. rewrite forallb_forall in H. apply H, list_elem_of_In, elem_of_all_chars.
Qed.

Lemma is_ascii_spec s : is_ascii s = true <-> Forall (fun c => (code c < 128)%N) (to_bytes s).
Proof.
  unfold is_ascii. rewrite forallb_forall, List.Forall_forall.
  split; intros H x Hx; apply N.ltb_lt; auto.
Qed.

Lemma lower_byte_ascii c : (code c < 128)%N -> (code (lower_byte c) < 128)%N.
Proof.
  rewrite <- !N.ltb_lt.
  pose proof (all_chars_forallb (fun c => implb (code c <? 128)%N (code (lower_byte c) <? 128)%N)
    ltac:(by vm_compute) c) as H. cbv beta in H. destruct (code c <? 128)%N; [by intros _|done].
Qed.

Lemma lower_byte_idemp c : lower_byte (lower_byte c) = lower_byte c.
Proof.
  apply Ascii.eqb_eq.
  apply (all_chars_forallb (fun c => Ascii.eqb (lower_byte (lower_byte c)) (lower_byte c))).
  by vm_compute.
Qed.

(** A space that starts with an ASCII byte is one byte, and lower-casing a byte
    never turns it into a space. *)
Definition space_pats : list bytes := spaces ++ (reverse <$> spaces).

Lemma lower_space p c l :
  p ∈ space_pats -> (code c < 128)%N ->
  is_prefix p (lower_byte c :: (lower_byte <$> l)) = true -> is_prefix p (c :: l) = true.
Proof.
  intros Hp Hc.
  assert (implb (is_prefix p [lower_byte c] || (1 <? length p)) (bool_decide (p = [c]) ||
            negb (is_prefix (take 1 p) [lower_byte c])) = true) as H.
  { apply N.ltb_lt in Hc.
    pose proof (all_chars_forallb (fun c => implb (code c <? 128)%N (forallb (fun p =>
      implb (is_prefix p [lower_byte c] || (1 <? length p)) (bool_decide (p = [c]) ||
        negb (is_prefix (take 1 p) [lower_byte c]))) space_pats)) ltac:(by vm_compute) c) as H.
    cbv beta in H. rewrite Hc in H. cbn [implb] in H. rewrite forallb_forall in H.
    by apply H, list_elem_of_In. }
  destruct p as [|b [|b' p]]; simpl in *; [done| |].
  - destruct (Ascii.eqb b (lower_byte c)) eqn:Hb; simpl in *; [|done].
    rewrite orb_false_r in H. apply bool_decide_eq_true in H as [= ->].
    intros _. by rewrite Ascii.eqb_refl.
  - rewrite orb_true_r in H. simpl in H. destruct (Ascii.eqb b (lower_byte c)); simpl in *; [|done].
    rewrite orb_false_r in H. by apply bool_decide_eq_true in H.
Qed.

Lemma lower_strip_any ps l :
  ps ⊆ space_pats -> Forall (fun c => (code c < 128)%N) l ->
  strip_any ps l = None -> strip_any ps (lower_byte <$> l) = None.
Proof.
  intros Hps Hl. rewrite !strip_any_None. intros H p Hp. specialize (H p Hp).
  destruct Hl as [|c l Hc Hl]; [done|]. apply not_true_iff_false in H.
  apply not_true_iff_false. contradict H. by apply lower_space; [apply Hps| |].
Qed.

Lemma lower_trimmed l :
  Forall (fun c => (code c < 128)%N) l -> trimmed l -> trimmed (lower_byte <$> l).
Proof.
  intros Hl [H1 H2]. split.
  - apply lower_strip_any; [|done..]. unfold space_pats. intros x Hx. apply elem_of_app. by left.
  - rewrite <- fmap_reverse. apply lower_strip_any; [|by apply Forall_reverse|done].
    unfold space_pats. intros x Hx. apply elem_of_app. by right.
Qed.

Lemma TrimSpace_ascii s : is_ascii s = true -> is_ascii (TrimSpace s) = true.
Proof.
  rewrite !is_ascii_spec. unfold TrimSpace. rewrite list_ascii_of_string_of_list_ascii.
  rewrite !Forall_forall. intros H x Hx. by apply H, trim_elem.
Qed.

Section canonical.
Context {U : UnicodeCase}.

Lemma ToLower_ascii s :
    is_ascii s = true -> to_bytes (ToLower s) = lower_byte <$> to_bytes s.
  Proof. intros H. unfold ToLower. rewrite H. apply list_ascii_of_string_of_list_ascii. Qed.

Lemma ToLower_is_ascii s : is_ascii s = true -> is_ascii (ToLower s) = true.
  Proof.
    intros H. rewrite is_ascii_spec, (ToLower_ascii _ H), Forall_fmap.
    apply is_ascii_spec in H. eapply Forall_impl; [exact H|]. apply lower_byte_ascii.
  Qed.

Lemma lower_trim_is_ascii s : is_ascii s = true -> is_ascii (lower_trim s) = true.
  Proof. intros H. by apply ToLower_is_ascii, TrimSpace_ascii. Qed.

  (** Canonicalizing a category twice is canonicalizing it once. *)
Lemma lower_trim_idemp s : is_ascii s = true -> lower_trim (lower_trim s) = lower_trim s.
  Proof.
    intros H. pose proof (TrimSpace_ascii _ H) as Ht. unfold lower_trim.
    assert (TrimSpace (ToLower (TrimSpace s)) = ToLower (TrimSpace s)) as ->.
    { unfold TrimSpace at 1. rewrite <- (string_of_list_ascii_of_string (ToLower (TrimSpace s))) at 2.
      f_equal. apply trimmed_id. rewrite (ToLower_ascii _ Ht).
      apply lower_trimmed; [by apply is_ascii_spec|].
      unfold TrimSpace. rewrite list_ascii_of_string_of_list_ascii. apply trim_trimmed. }
    apply to_bytes_inj. rewrite !ToLower_ascii; [|done|by apply ToLower_is_ascii].
    rewrite <- list_fmap_compose. apply list_fmap_ext. intros _ c _. apply lower_byte_idemp.
  Qed.
End canonical.

(** ** Lemmas: [Split] *)

Lemma is_prefix_app_cases (p x y : bytes) :
  is_prefix p (x ++ y) = true -> is_prefix p x = true \/ exists b q, p = x ++ b :: q /\ is_prefix (b :: q) y = true.
Proof.
  revert x. induction p as [|a p IH]; intros x; [by left|]. destruct x as [|c x].
  - intros H. right. by exists a, p.
  - cbn [is_prefix app]. rewrite !andb_true_iff, Ascii.eqb_eq. intros [<- H].
    destruct (IH x H) as [?|(b & q & -> & ?)]; [by left|]. right. by exists b, q.
Qed.

Lemma split_none sep l cur : contains_bytes sep l = false -> split_bytes sep l 0 cur = [cur ++ l].
Proof.
  revert cur. induction l as [|c l IH]; intros cur; [by rewrite app_nil_r|].
  cbn [contains_bytes split_bytes]. intros [-> H]%orb_false_iff. rewrite (IH _ H). by rewrite <- app_assoc.
Qed.

Lemma to_bytes_app a b : to_bytes (a +:+ b) = to_bytes a ++ to_bytes b.
Proof. induction a as [|c a IH]; [done|]. simpl. by rewrite <- IH. Qed.

Lemma str_app_assoc a b c : (a +:+ b) +:+ c = a +:+ b +:+ c.
Proof. apply to_bytes_inj. by rewrite !to_bytes_app, <- app_assoc. Qed.

(** A two-byte separator without overlap with itself: what follows a separator is
    split on its own. *)
Lemma split_bytes_app s1 s2 l r cur : Ascii.eqb s2 s1 = false ->
  split_bytes [s1; s2] (l ++ [s1; s2] ++ r) 0 cur =
  split_bytes [s1; s2] l 0 cur ++ split_bytes [s1; s2] r 0 [].
Proof.
  intros Hs. revert cur. induction l as [l IH] using (induction_ltof1 _ (@length ascii)). unfold ltof in IH. intros cur.
  destruct l as [|c [|d l]].
  - simpl. by rewrite !Ascii.eqb_refl.
  - simpl. rewrite Hs, !Ascii.eqb_refl, andb_false_r. simpl. by rewrite andb_false_r.
  - cbn [app split_bytes is_prefix]. destruct (Ascii.eqb s1 c && (Ascii.eqb s2 d && true)) eqn:E.
    + simpl. by rewrite <- (IH l) by (simpl; lia).
    + apply (IH (d :: l)). simpl; lia.
Qed.

Lemma split_lacks c x cur : c ∉ x -> split_bytes [c] x 0 cur = [cur ++ x].
Proof.
  revert cur. induction x as [|a x IH]; intros cur Hc; [by rewrite app_nil_r|].
  apply not_elem_of_cons in Hc as [Ha Hx]. simpl. rewrite (proj2 (Ascii.eqb_neq c a)) by done. simpl.
  rewrite IH by done. by rewrite <- app_assoc.
Qed.

Lemma split_char c x y cur :
  c ∉ x -> split_bytes [c] (x ++ c :: y) 0 cur = (cur ++ x) :: split_bytes [c] y 0 [].
Proof.
  revert cur. induction x as [|a x IH]; intros cur Hc.
  - simpl. by rewrite Ascii.eqb_refl, app_nil_r.
  - apply not_elem_of_cons in Hc as [Ha Hx]. simpl. rewrite (proj2 (Ascii.eqb_neq c a)) by done. simpl.
    rewrite IH by done. by rewrite <- app_assoc.
Qed.

(** A one-character string. *)
Definition char (c : ascii) : string := String c EmptyString.

Lemma Split_lacks c s : lacks c s -> Split s (char c) = [s].
Proof. intros H. unfold Split. simpl. rewrite split_lacks by done. simpl. by rewrite string_of_list_ascii_of_string. Qed.

Lemma Split_char c s t : lacks c s -> Split (s +:+ char c +:+ t) (char c) = s :: Split t (char c).
Proof.
  intros H. unfold Split. rewrite to_bytes_app. simpl. rewrite split_char by done. simpl.
  by rewrite string_of_list_ascii_of_string.
Qed.

Lemma Join_cons s t l sep : Join (s :: t :: l) sep = s +:+ sep +:+ Join (t :: l) sep.
Proof. done. Qed.

(** Joining and splitting on one character are inverse. *)
Lemma Split_Join c l : l <> [] -> Forall (lacks c) l -> Split (Join l (char c)) (char c) = l.
Proof.
  intros Hl H. induction H as [|s l Hs Hall IH]; [done|]. destruct l as [|t l]; [by apply Split_lacks|].
  rewrite Join_cons, Split_char by done. f_equal. by apply IH.
Qed.

Lemma Join_Split c s : Join (Split s (char c)) (char c) = s.
Proof.
  remember (length (to_bytes s)) as n eqn:Hn. revert s Hn. induction (lt_wf n) as [n _ IH]. intros s ->.
  destruct (decide (c ∈ to_bytes s)) as [Hin|Hout]; [|by rewrite Split_lacks].
  apply list_elem_of_split_l in Hin as (l1 & l2 & E & Hl1).
  assert (s = of_bytes l1 +:+ char c +:+ of_bytes l2) as ->.
  { apply to_bytes_inj. by rewrite E, !to_bytes_app, !list_ascii_of_string_of_list_ascii. }
  rewrite Split_char by (unfold lacks; by rewrite list_ascii_of_string_of_list_ascii).
  destruct (Split (of_bytes l2) (char c)) as [|t ts] eqn:Es.
  - exfalso. unfold Split in Es. destruct (to_bytes (of_bytes l2)) as [|d l] in Es; [done|].
    revert Es. generalize (@nil ascii) as cur. generalize 0 as k. generalize (d :: l) as m. clear.
    induction m as [|d m IH]; intros k cur; [done|]. cbn [split_bytes]. destruct k; [|apply IH].
    destruct (is_prefix _ _); [done|apply IH].
  - rewrite Join_cons, <- Es. do 2 f_equal. apply (IH (length (to_bytes (of_bytes l2)))); [|done].
    rewrite E, length_app, list_ascii_of_string_of_list_ascii. simpl. lia.
Qed.

Lemma lacks_app c s t : lacks c (s +:+ t) <-> lacks c s /\ lacks c t.
Proof. unfold lacks. rewrite to_bytes_app, not_elem_of_app. done. Qed.

Lemma lacks_Join c l sep : Forall (lacks c) l -> lacks c sep -> lacks c (Join l sep).
Proof.
  intros H Hsep. induction H as [|s l Hs Hall IH]; [by intros ?%elem_of_nil|]. destruct l as [|t l]; [done|].
  rewrite Join_cons. by rewrite !lacks_app.
Qed.

(** ** Lemmas: strings without white space *)

(** The bytes of the white-space encodings. *)
Definition space_bytes : list ascii := mjoin spaces.

Lemma strip_any_no_space ps l :
  (forall p, p ∈ ps -> p <> [] /\ forall c, c ∈ p -> c ∈ space_bytes) -> Forall (fun c => c ∉ space_bytes) l ->
  strip_any ps l = None.
Proof.
  intros Hps Hl. apply strip_any_None. intros p Hp. destruct (Hps p Hp) as [Hne Hin].
  destruct p as [|a p]; [done|]. destruct Hl as [|b l Hb _]; [done|]. simpl.
  destruct (Ascii.eqb_spec a b) as [->|]; [|done]. destruct Hb. apply Hin. left.
Qed.

Lemma spaces_bytes p c : p ∈ spaces -> c ∈ p -> c ∈ space_bytes.
Proof. intros Hp Hc. apply elem_of_mjoin. by exists p. Qed.

Lemma spaces_pats p : p ∈ spaces -> p <> [] /\ forall c, c ∈ p -> c ∈ space_bytes.
Proof.
  intros Hp. split; [|by intros c; apply spaces_bytes].
  pose proof spaces_nonempty as H. rewrite Forall_forall in H. by apply H.
Qed.

Lemma reverse_spaces_pats p : p ∈ reverse <$> spaces -> p <> [] /\ forall c, c ∈ p -> c ∈ space_bytes.
Proof.
  intros (q & -> & Hq)%list_elem_of_fmap. split.
  - destruct (spaces_pats q Hq) as [Hne _]. intros H. apply Hne. by rewrite <- (reverse_involutive q), H.
  - intros c Hc. rewrite elem_of_reverse in Hc. by apply (spaces_bytes q).
Qed.

Lemma TrimSpace_no_space s : Forall (fun c => c ∉ space_bytes) (to_bytes s) -> TrimSpace s = s.
Proof.
  intros H. unfold TrimSpace. rewrite trimmed_id; [apply string_of_list_ascii_of_string|]. split.
  - apply strip_any_no_space; [apply spaces_pats|done].
  - apply strip_any_no_space; [apply reverse_spaces_pats|by apply Forall_reverse].
Qed.

(** What is trimmed away is white space. *)
Lemma trim_front_chars n ps l c :
  (forall p, p ∈ ps -> forall c, c ∈ p -> c ∈ space_bytes) -> c ∈ l -> c ∉ space_bytes -> c ∈ trim_front n ps l.
Proof.
  intros Hps. revert l. induction n as [|n IH]; intros l Hc Hn; [done|]. simpl.
  destruct (strip_any ps l) as [l'|] eqn:E; [|done]. apply IH; [|done].
  apply strip_any_Some in E as (p & Hp & ->). apply elem_of_app in Hc as [Hc|Hc]; [|done].
  destruct Hn. by apply (Hps p).
Qed.

Lemma TrimSpace_keeps s c : c ∈ to_bytes s -> c ∉ space_bytes -> c ∈ to_bytes (TrimSpace s).
Proof.
  intros Hc Hn. unfold TrimSpace, trim_right, trim_left. rewrite list_ascii_of_string_of_list_ascii.
  apply elem_of_reverse, trim_front_chars; [intros p Hp; by apply reverse_spaces_pats| |done].
  apply elem_of_reverse, trim_front_chars; [intros p Hp; by apply spaces_pats|done|done].
Qed.

(** ** Lemmas: decimal digits *)

Lemma pretty_N_go_digits x s :
  Forall (fun c => is_digit c = true) (to_bytes s) ->
  Forall (fun c => is_digit c = true) (to_bytes (pretty_N_go x s)).
Proof.
  revert s. induction (N.lt_wf_0 x) as [x _ IH]. intros s Hs.
  destruct (decide (x = 0)%N) as [->|Hx]; [by rewrite pretty_N_go_0|].
  rewrite pretty_N_go_step by lia. apply IH; [apply N.div_lt; lia|].
  simpl. constructor; [|done]. pose proof (N.mod_lt x 10 ltac:(lia)) as Hm.
  revert Hm. generalize (x mod 10)%N. intros d Hd.
  assert (d ∈ (N.of_nat <$> seq 0 10)) as Hin.
  { apply list_elem_of_fmap. exists (N.to_nat d). split; [lia|]. apply elem_of_seq. lia. }
  simpl in Hin. repeat (apply elem_of_cons in Hin as [->|Hin]; [by vm_compute|]).
  by apply elem_of_nil in Hin.
Qed.

Lemma pretty_nat_digits (n : nat) : Forall (fun c => is_digit c = true) (to_bytes (pretty n)).
Proof.
  unfold pretty, pretty_nat, pretty, pretty_N. destruct (decide _).
  - repeat constructor.
  - by apply pretty_N_go_digits.
Qed.

Lemma pretty_N_digits (x : N) : Forall (fun c => is_digit c = true) (to_bytes (pretty x)).
Proof.
  unfold pretty, pretty_N. destruct (decide _); [repeat constructor|]. by apply pretty_N_go_digits.
Qed.

Lemma digit_no_space c : is_digit c = true \/ c = "-"%char -> c ∉ space_bytes.
Proof.
  pose proof (all_chars_forallb (fun c => implb (is_digit c || Ascii.eqb c "-") (bool_decide (c ∉ space_bytes)))
    ltac:(by vm_compute) c) as H. cbv beta in H.
  intros Hc. apply (bool_decide_eq_true_1 _). destruct Hc as [Hc| ->]; [by rewrite Hc in H|by vm_compute].
Qed.

(** The characters of a decimal number. *)
Lemma Itoa_chars n : Forall (fun c => is_digit c = true \/ c = "-"%char) (to_bytes (Itoa n)).
Proof.
  assert (forall x : N, Forall (fun c => is_digit c = true \/ c = "-"%char) (to_bytes (pretty x))) as Hx.
  { intros x. eapply Forall_impl; [apply pretty_N_digits|]. auto. }
  destruct n as [|p|p]; unfold Itoa, pretty, pretty_Z; [repeat constructor|apply Hx|].
  rewrite to_bytes_app. apply Forall_app. split; [|apply Hx]. constructor; [by right|constructor].
Qed.
