(* ===== verification/GoStrconv.v ===== *)
(** * strconv

    [strconv.Atoi] with its overflow check, and the decimal form of an integer read
    back. *)

From Stdlib Require Import Ascii String.
From stdpp Require Import prelude strings list pretty.
From Stdlib Require Import ZArith Lia.
From S2P Require Import Prelude GoString.

Open Scope string_scope.
Open Scope list_scope.
Open Scope nat_scope.

(** ** [strconv.Atoi] *)

Definition MaxInt64 : Z := 2 ^ 63 - 1.
Definition MinInt64 : Z := - 2 ^ 63.

Definition digit_value (c : ascii) : Z := Z.of_N (code c) - 48.

(** A run of digits, most significant first, read onto [n]. *)
Fixpoint read_digits (l : bytes) (n : Z) : option Z :=
  match l with
  | [] => Some n
  | c :: l' => if is_digit c then read_digits l' (10 * n + digit_value c)%Z else None
  end.

Definition in_int64 (n : Z) : option Z := if ((MinInt64 <=? n) && (n <=? MaxInt64))%Z then Some n else None.

Definition Atoi (s : string) : option Z :=
  match to_bytes s with
  | [] => None
  | c :: l =>
      if Ascii.eqb c "-" then
        match l with [] => None | _ => n ← read_digits l 0; in_int64 (- n) end
      else
        let l := if Ascii.eqb c "+" then l else c :: l in
        match l with [] => None | _ => n ← read_digits l 0; in_int64 n end
  end.

(** ** Reading back a printed integer *)

Lemma read_digits_pretty (x : N) s :
  read_digits (to_bytes (pretty_N_go x s)) 0 = read_digits (to_bytes s) (Z.of_N x).
Proof.
  revert s. induction (N.lt_wf_0 x) as [x _ IH]. intros s.
  destruct (decide (x = 0)%N) as [->|Hx]; [by rewrite pretty_N_go_0|].
  rewrite pretty_N_go_step by lia. rewrite IH by (apply N.div_lt; lia). simpl.
  assert (is_digit (pretty_N_char (x mod 10)) = true /\ digit_value (pretty_N_char (x mod 10)) = Z.of_N (x mod 10)) as [-> ->].
  { pose proof (N.mod_lt x 10 ltac:(lia)) as Hm. revert Hm. generalize (x mod 10)%N. intros d Hd.
    assert (d ∈ (N.of_nat <$> seq 0 10)) as Hin.
    { apply list_elem_of_fmap. exists (N.to_nat d). split; [lia|]. apply elem_of_seq. lia. }
    simpl in Hin. repeat (apply elem_of_cons in Hin as [->|Hin]; [by vm_compute|]). by apply elem_of_nil in Hin. }
  f_equal. rewrite (N.div_mod x 10) at 3 by done. lia.
Qed.

Lemma read_digits_N (x : N) : read_digits (to_bytes (pretty x)) 0 = Some (Z.of_N x).
Proof.
  unfold pretty, pretty_N. destruct (decide _) as [->|]; [done|]. by rewrite read_digits_pretty.
Qed.

(** A decimal natural starts with a digit. *)
Lemma pretty_N_head (x : N) : exists c l, to_bytes (pretty x) = c :: l /\ is_digit c = true.
Proof.
  pose proof (pretty_N_digits x) as H. pose proof (read_digits_N x) as Hr.
  destruct (to_bytes (pretty x)) as [|c l] eqn:E; [|inversion_clear H; by exists c, l].
  exfalso. destruct (decide (x = 0)%N) as [->|Hx]; [done|]. simpl in Hr. injection Hr as Hr. lia.
Qed.

Lemma Atoi_Itoa n : (MinInt64 <= n <= MaxInt64)%Z -> Atoi (Itoa n) = Some n.
Proof.
  intros Hn. assert (in_int64 n = Some n) as Hi.
  { unfold in_int64. by rewrite (proj2 (Z.leb_le _ _)), (proj2 (Z.leb_le _ _)) by lia. }
  assert (forall x : N, Z.of_N x = n -> Atoi (pretty x) = Some n) as Hpos.
  { intros x <-. unfold Atoi. pose proof (read_digits_N x) as Hr. destruct (pretty_N_head x) as (c & l & E & Hc).
    rewrite E in *. assert (Ascii.eqb c "-" = false /\ Ascii.eqb c "+" = false) as [-> ->].
    { split; apply Ascii.eqb_neq; by intros ->. }
    by rewrite Hr. }
  destruct n as [|p|p]; unfold Itoa, pretty, pretty_Z; [done|by apply Hpos|].
  unfold Atoi. rewrite to_bytes_app. simpl. pose proof (read_digits_N (Npos p)) as Hr.
  destruct (pretty_N_head (Npos p)) as (c & l & E & _). change (pretty p) with (pretty (Npos p)). rewrite E in *.
  rewrite Hr. exact Hi.
Qed.

(** *** The leading digit of a positive number *)

Lemma pretty_N_char_spec d : (d < 10)%N ->
  is_digit (pretty_N_char d) = true /\ (d <> 0%N -> pretty_N_char d <> "0"%char).
Proof.
  intros Hd. assert (d ∈ (N.of_nat <$> seq 0 10)) as Hin.
  { apply list_elem_of_fmap. exists (N.to_nat d). split; [lia|]. apply elem_of_seq. lia. }
  simpl in Hin. repeat (apply elem_of_cons in Hin as [->|Hin]; [by vm_compute|]). by apply elem_of_nil in Hin.
Qed.

Lemma pretty_N_go_head x s : x <> 0%N ->
  exists c l, to_bytes (pretty_N_go x s) = c :: l /\ is_digit c = true /\ c <> "0"%char.
Proof.
  revert s. induction (N.lt_wf_0 x) as [x _ IH]. intros s Hx.
  rewrite pretty_N_go_step by lia. destruct (decide (x / 10 = 0)%N) as [H0|Hn].
  - rewrite H0, pretty_N_go_0. simpl. eexists _, _. split; [done|].
    assert (x mod 10 <> 0)%N by (pose proof (N.div_mod x 10 ltac:(lia)); lia).
    destruct (pretty_N_char_spec (x mod 10)); [apply N.mod_lt; lia|]. auto.
  - apply IH; [apply N.div_lt; lia|done].
Qed.

Lemma pretty_pos_head (p : positive) :
  exists c l, to_bytes (pretty (Npos p)) = c :: l /\ is_digit c = true /\ c <> "0"%char.
Proof. unfold pretty, pretty_N. destruct (decide _); [done|]. by apply pretty_N_go_head. Qed.
