(* ===== verification/GoSort.v ===== *)
(** * Go's [sort] package

    [sort.SliceStable], [sort.Strings] and [sort.Ints].  The Go library promises
    what these return, not how: a permutation of the input, in order, that keeps
    equal elements in their input order.  [slice_stable] is an insertion sort with
    that contract, and [slice_stable_unique] shows that the contract has only one
    result, so any stable algorithm returns the same slice. *)

From stdpp Require Import prelude strings sorting.
From Stdlib Require Import ZArith Lia.
From S2P Require Import Prelude GoString.

Section slice_stable.
Context {A : Type} (less : A -> A -> bool).

Fixpoint sort_insert (x : A) (l : list A) : list A :=
    match l with
    | [] => [x]
    | y :: l' => if less y x then y :: sort_insert x l' else x :: l
    end.

Definition slice_stable (l : list A) : list A := foldr sort_insert [] l.

  (** [x] does not sort after [y]. *)
Definition not_after (x y : A) : Prop := less y x = false.

Lemma sort_insert_Permutation x l : sort_insert x l ≡ₚ x :: l.
  Proof.
    induction l as [|y l IH]; simpl; [done|]. destruct (less y x); [|done].
    rewrite IH. constructor.
  Qed.

Lemma slice_stable_Permutation l : slice_stable l ≡ₚ l.
  Proof.
    induction l as [|x l IH]; simpl; [done|]. by rewrite sort_insert_Permutation, IH.
  Qed.

Lemma slice_stable_elem x l : x ∈ slice_stable l <-> x ∈ l.
  Proof. by rewrite slice_stable_Permutation. Qed.
End slice_stable.

(** The law a Go [less] function must satisfy: a strict weak order, stated through
    its complement [not_after], which is then a total preorder. *)
Class WeakOrder {A} (less : A -> A -> bool) : Prop := {
  less_asym : forall x y, less x y = true -> less y x = false;
  not_after_trans : forall x y z,
    not_after less x y -> not_after less y z -> not_after less x z;
}.

Section weak_order.
Context {A : Type} (less : A -> A -> bool) `{!WeakOrder less}.

Lemma less_irrefl x : less x x = false.
  Proof. destruct (less x x) eqn:H; [|done]. by rewrite <- H, (less_asym _ _ H). Qed.

Lemma not_after_refl x : not_after less x x.
  Proof. apply less_irrefl. Qed.

#[global] Instance not_after_Transitive : Transitive (not_after less).
  Proof. intros x y z. apply not_after_trans. Qed.

Lemma less_not_after x y : less x y = true -> not_after less x y.
  Proof. apply less_asym. Qed.

Lemma sort_insert_sorted x l :
    StronglySorted (not_after less) l -> StronglySorted (not_after less) (sort_insert less x l).
  Proof.
    induction 1 as [|y l Hs IH Hy]; simpl; [repeat constructor|].
    destruct (less y x) eqn:Hyx.
    - constructor; [done|]. rewrite (sort_insert_Permutation less x l).
      constructor; [by apply less_not_after|done].
    - constructor; [by constructor|]. constructor; [done|].
      eapply Forall_impl; [exact Hy|]. intros z Hyz. by transitivity y.
  Qed.

Lemma slice_stable_sorted l : StronglySorted (not_after less) (slice_stable less l).
  Proof. induction l; simpl; [constructor|]. by apply sort_insert_sorted. Qed.

  (** Elements that neither sorts before the other. *)
Definition equivb (x y : A) : bool := negb (less x y) && negb (less y x).

Lemma equivb_spec x y : equivb x y = true <-> not_after less x y /\ not_after less y x.
  Proof.
    unfold equivb, not_after. rewrite andb_true_iff, !negb_true_iff. tauto.
  Qed.

Lemma sort_insert_stable e x l :
    List.filter (equivb e) (sort_insert less x l) = List.filter (equivb e) (x :: l).
  Proof.
    induction l as [|y l IH]; simpl; [done|].
    destruct (less y x) eqn:Hyx; [|done]. simpl. rewrite IH. simpl.
    destruct (equivb e x) eqn:Hex, (equivb e y) eqn:Hey; try done. exfalso.
    apply equivb_spec in Hex as [H1 H2], Hey as [H3 H4].
    pose proof (not_after_trans _ _ _ H2 H3) as Hxy. unfold not_after in Hxy. congruence.
  Qed.

  (** Stability: the elements equivalent to any given one keep their order. *)
Lemma slice_stable_stable e l :
    List.filter (equivb e) (slice_stable less l) = List.filter (equivb e) l.
  Proof.
    induction l as [|x l IH]; simpl; [done|]. rewrite sort_insert_stable. simpl. by rewrite IH.
  Qed.

Lemma filter_equivb_head e x l :
    StronglySorted (not_after less) (x :: l) ->
    List.filter (equivb e) (x :: l) <> [] -> not_after less x e.
  Proof.
    inversion_clear 1 as [|? ? Hs Hall]. simpl. destruct (equivb e x) eqn:He.
    - apply equivb_spec in He as [_ He]. done.
    - intros Hne. destruct (List.filter (equivb e) l) as [|z zs] eqn:Hz; [done|].
      assert (List.In z (List.filter (equivb e) l)) as [Hin Hez]%List.filter_In
        by (rewrite Hz; by left).
      apply equivb_spec in Hez as [_ Hez]. rewrite Forall_forall in Hall.
      transitivity z; [|done]. apply Hall. by apply list_elem_of_In.
  Qed.

  (** Equal elements stay in the order [R] they came in. *)
Lemma slice_stable_ties (R : A -> A -> Prop) l : StronglySorted R l ->
    StronglySorted (fun a b => less a b = true \/ less b a = false /\ R a b) (slice_stable less l).
  Proof.
    induction 1 as [|x l _ IH Hx]; simpl; [constructor|].
    rewrite <- (slice_stable_Permutation less l) in Hx.
    induction IH as [|y k Hk IHk Hy]; simpl; [by repeat constructor|].
    destruct (less y x) eqn:E.
    - constructor; [apply IHk; by inversion Hx|]. rewrite sort_insert_Permutation.
      constructor; [by left|done].
    - constructor; [by constructor|]. apply Forall_forall. intros z Hz. right.
      split; [|by apply (Forall_forall (R x) (y :: k))].
      apply elem_of_cons in Hz as [->|Hz]; [done|].
      apply (not_after_trans x y z); [done|]. rewrite Forall_forall in Hy.
      destruct (Hy z Hz) as [?|[? _]]; [by apply less_asym|done].
  Qed.
  (** The contract of a stable sort has one result. *)
Lemma slice_stable_unique l1 l2 :
    StronglySorted (not_after less) l1 -> StronglySorted (not_after less) l2 ->
    (forall e, List.filter (equivb e) l1 = List.filter (equivb e) l2) -> l1 = l2.
  Proof.
    intros H1. revert l2. induction H1 as [|x l1 Hs1 IH Hx]; intros l2 H2 Hf.
    { destruct l2 as [|y l2]; [done|]. specialize (Hf y). simpl in Hf.
      by rewrite (proj2 (equivb_spec y y) (conj (not_after_refl y) (not_after_refl y))) in Hf. }
    assert (List.filter (equivb x) (x :: l1) <> []) as Hne1.
    { simpl. by rewrite (proj2 (equivb_spec x x) (conj (not_after_refl x) (not_after_refl x))). }
    destruct l2 as [|y l2].
    { by rewrite Hf in Hne1. }
    assert (List.filter (equivb y) (y :: l2) <> []) as Hne2.
    { simpl. by rewrite (proj2 (equivb_spec y y) (conj (not_after_refl y) (not_after_refl y))). }
    assert (not_after less y x) as Hyx.
    { rewrite (Hf x) in Hne1. by eapply filter_equivb_head. }
    assert (not_after less x y) as Hxy.
    { rewrite <- (Hf y) in Hne2. eapply filter_equivb_head; [|done]. by constructor. }
    assert (x = y) as <-.
    { specialize (Hf x). simpl in Hf.
      rewrite (proj2 (equivb_spec x x) (conj (not_after_refl x) (not_after_refl x))) in Hf.
      rewrite (proj2 (equivb_spec x y) (conj Hxy Hyx)) in Hf. by injection Hf. }
    f_equal. inversion_clear H2 as [|? ? Hs2 _]. apply IH; [done|].
    intros e. specialize (Hf e). simpl in Hf. destruct (equivb e x); [by injection Hf|done].
  Qed.

  (** Sorting a sorted slice changes nothing. *)
Lemma slice_stable_sorted_id l : StronglySorted (not_after less) l -> slice_stable less l = l.
  Proof.
    intros H. apply slice_stable_unique; [apply slice_stable_sorted|done|].
    intros e. apply slice_stable_stable.
  Qed.

  (** With a total order the result depends only on the multiset of elements. *)
Lemma slice_stable_perm_eq l1 l2 :
    (forall x y, x ∈ l1 -> y ∈ l1 -> not_after less x y -> not_after less y x -> x = y) ->
    l1 ≡ₚ l2 -> slice_stable less l1 = slice_stable less l2.
  Proof.
    intros Htot Hp.
    apply (StronglySorted_unique_strong (not_after less)).
    - intros x1 x2 H1 H2. rewrite slice_stable_Permutation in H1, H2. rewrite <- Hp in H2. auto.
    - apply slice_stable_sorted.
    - apply slice_stable_sorted.
    - by rewrite !slice_stable_Permutation.
  Qed.
End weak_order.

(** ** [sort.Strings] and [sort.Ints] *)

Definition sort_strings (l : list string) : list string := slice_stable str_ltb l.
Definition sort_ints (l : list nat) : list nat := slice_stable Nat.ltb l.

#[export] Instance str_ltb_WeakOrder : WeakOrder str_ltb.
Proof.
  split; [apply str_ltb_asym|]. unfold not_after. intros x y z Hyx Hzy.
  destruct (str_ltb z x) eqn:Hzx; [|done].
  destruct (str_ltb y z) eqn:Hyz.
  - by rewrite (str_ltb_trans _ _ _ Hyz Hzx) in Hyx.
  - rewrite (str_ltb_total _ _ Hyz Hzy) in *. congruence.
Qed.

#[export] Instance nat_ltb_WeakOrder : WeakOrder Nat.ltb.
Proof.
  split; unfold not_after; intros *; rewrite ?Nat.ltb_lt, ?Nat.ltb_ge; lia.
Qed.

Lemma not_after_nat x y : not_after Nat.ltb x y <-> x <= y.
Proof. apply Nat.ltb_ge. Qed.

Lemma sort_strings_Permutation l : sort_strings l ≡ₚ l.
Proof. apply slice_stable_Permutation. Qed.

Lemma sort_ints_Permutation l : sort_ints l ≡ₚ l.
Proof. apply slice_stable_Permutation. Qed.

Lemma sort_strings_perm_eq l1 l2 : l1 ≡ₚ l2 -> sort_strings l1 = sort_strings l2.
Proof.
  apply slice_stable_perm_eq; [apply _|]. intros x y _ _ H1 H2. by apply str_ltb_total.
Qed.

Lemma sort_strings_sorted l : StronglySorted (not_after str_ltb) (sort_strings l).
Proof. apply slice_stable_sorted, _. Qed.

Lemma sort_ints_sorted l : StronglySorted le (sort_ints l).
Proof.
  assert (StronglySorted (not_after Nat.ltb) (sort_ints l)) as H by apply slice_stable_sorted, _.
  induction H as [|x l' _ IH Hx]; constructor; [done|].
  eapply Forall_impl; [exact Hx|]. intros y. apply not_after_nat.
Qed.

Lemma elem_of_sort_strings x l : x ∈ sort_strings l <-> x ∈ l.
Proof. apply slice_stable_elem. Qed.

Lemma elem_of_sort_ints x l : x ∈ sort_ints l <-> x ∈ l.
Proof. apply slice_stable_elem. Qed.

(** A duplicate-free slice sorts into a strictly ascending one. *)
Lemma sort_strings_strict l :
  NoDup l -> StronglySorted (fun x y => str_ltb x y = true) (sort_strings l).
Proof.
  intros Hnd. assert (NoDup (sort_strings l)) as Hnd' by by rewrite sort_strings_Permutation.
  pose proof (sort_strings_sorted l) as Hs. clear Hnd.
  induction Hs as [|x l' _ IH Hx]; [constructor|].
  apply NoDup_cons in Hnd' as [Hnin Hnd']. constructor; [by apply IH|].
  rewrite Forall_forall in *. intros y Hy. specialize (Hx y Hy).
  destruct (str_ltb x y) eqn:Hxy; [done|]. destruct Hnin.
  by rewrite (str_ltb_total _ _ Hxy Hx).
Qed.

#[export] Hint Resolve sort_strings_Permutation sort_ints_Permutation sort_ints_sorted
  sort_strings_sorted slice_stable_Permutation : atcr.

(** ** Lexicographic comparisons *)

(** Compare by [less1], then by [less2]. *)
Definition lex_less {A} (less1 less2 : A -> A -> bool) (a b : A) : bool :=
  if less1 a b then true else if less1 b a then false else less2 a b.

#[export] Instance lex_WeakOrder {A} (less1 less2 : A -> A -> bool)
    `{!WeakOrder less1, !WeakOrder less2} : WeakOrder (lex_less less1 less2).
Proof.
  split; unfold not_after, lex_less.
  - intros x y. destruct (less1 x y) eqn:E; [by rewrite (less_asym _ _ E)|].
    destruct (less1 y x); [done|]. apply less_asym.
  - intros x y z Hyx Hzy.
    destruct (less1 y x) eqn:E1; [done|]. destruct (less1 z y) eqn:E2; [done|].
    pose proof (not_after_trans (less := less1) x y z E1 E2) as Hzx. unfold not_after in Hzx. rewrite Hzx.
    destruct (less1 x z) eqn:E3; [done|].
    pose proof (not_after_trans (less := less1) y z x E2 E3) as Hxy. unfold not_after in Hxy.
    pose proof (not_after_trans (less := less1) z x y E3 E1) as Hyz. unfold not_after in Hyz.
    rewrite Hxy in Hyx. rewrite Hyz in Hzy. by apply (not_after_trans (less := less2) x y z).
Qed.

(** Compare by a key. *)
#[export] Instance key_WeakOrder {A B} (less : B -> B -> bool) (key : A -> B) `{!WeakOrder less} :
  WeakOrder (fun a b => less (key a) (key b)).
Proof.
  split; unfold not_after.
  - intros x y. apply less_asym.
  - intros x y z. apply (not_after_trans (less := less)).
Qed.

#[export] Instance Z_ltb_WeakOrder : WeakOrder Z.ltb.
Proof. split; unfold not_after; intros *; rewrite ?Z.ltb_lt, ?Z.ltb_ge; lia. Qed.

#[export] Instance Z_gtb_WeakOrder : WeakOrder (fun a b => Z.ltb b a).
Proof. split; unfold not_after; intros *; rewrite ?Z.ltb_lt, ?Z.ltb_ge; lia. Qed.

(** Go's way to write it: the first key that differs decides. *)
Lemma if_lex {A K} (eqb less : K -> K -> bool) `{!WeakOrder less} (key : A -> K) (next : A -> A -> bool) a b :
  (forall x y, eqb x y = true <-> x = y) -> (forall x y, less x y = false -> less y x = false -> x = y) ->
  (if negb (eqb (key a) (key b)) then less (key a) (key b) else next a b) =
  lex_less (fun a b => less (key a) (key b)) next a b.
Proof.
  intros Heq Htot. unfold lex_less. destruct (eqb (key a) (key b)) eqn:E; cbn [negb].
  - apply Heq in E as ->. by rewrite less_irrefl.
  - destruct (less (key a) (key b)) eqn:E1; [done|]. destruct (less (key b) (key a)) eqn:E2; [done|].
    exfalso. pose proof (Htot _ _ E1 E2) as Hk. apply Heq in Hk. rewrite Hk in E. done.
Qed.

Lemma if_lex_Z {A} (key : A -> Z) (next : A -> A -> bool) a b :
  (if negb (key a =? key b)%Z then (key a <? key b)%Z else next a b) = lex_less (fun a b => key a <? key b)%Z next a b.
Proof. apply (if_lex Z.eqb Z.ltb); [apply Z.eqb_eq|]. intros x y. rewrite !Z.ltb_ge. lia. Qed.
Lemma if_lex_Z_desc {A} (key : A -> Z) (next : A -> A -> bool) a b :
  (if negb (key a =? key b)%Z then (key b <? key a)%Z else next a b) = lex_less (fun a b => key b <? key a)%Z next a b.
Proof. apply (if_lex Z.eqb (fun x y => Z.ltb y x)); [apply Z.eqb_eq|]. intros x y. rewrite !Z.ltb_ge. lia. Qed.
Lemma if_lex_str {A} (key : A -> string) (next : A -> A -> bool) a b :
  (if negb (key a =? key b)%string then str_ltb (key a) (key b) else next a b) = lex_less (fun a b => str_ltb (key a) (key b)) next a b.
Proof. apply (if_lex String.eqb str_ltb); [apply String.eqb_eq|apply str_ltb_total]. Qed.

Lemma StronglySorted_impl {A} (R R' : A -> A -> Prop) l :
  (forall a b, R a b -> R' a b) -> StronglySorted R l -> StronglySorted R' l.
Proof. intros H. induction 1 as [|x l _ IH Hx]; constructor; [done|]. by eapply Forall_impl; [exact Hx|]; auto. Qed.

Lemma WeakOrder_ext {A} (less less' : A -> A -> bool) : (forall a b, less a b = less' a b) -> WeakOrder less' -> WeakOrder less.
Proof. intros H [H1 H2]. split; unfold not_after in *; intros *; rewrite !H; eauto. Qed.

(** The first key that differs decides, read as a disjunction. *)
Lemma if_Z_spec (x y : Z) (next : bool) (P : Prop) : (next = true <-> P) ->
  (if negb (x =? y)%Z then (x <? y)%Z else next) = true <-> (x < y)%Z \/ x = y /\ P.
Proof. intros HP. destruct (Z.eqb_spec x y); cbn [negb]; rewrite ?Z.ltb_lt; intuition lia. Qed.
Lemma if_Z_desc_spec (x y : Z) (next : bool) (P : Prop) : (next = true <-> P) ->
  (if negb (x =? y)%Z then (y <? x)%Z else next) = true <-> (y < x)%Z \/ x = y /\ P.
Proof. intros HP. destruct (Z.eqb_spec x y); cbn [negb]; rewrite ?Z.ltb_lt; intuition lia. Qed.
Lemma if_str_spec (x y : string) (next : bool) (P : Prop) : (next = true <-> P) ->
  (if negb (x =? y)%string then str_ltb x y else next) = true <-> str_ltb x y = true \/ x = y /\ P.
Proof.
  intros HP. destruct (String.eqb_spec x y) as [->|]; cbn [negb]; [|intuition].
  rewrite HP. split; [auto|]. intros [H|[_ ?]]; [by rewrite str_ltb_irrefl in H|done].
Qed.

(** A list sorted by a comparison is sorted by what the comparison means. *)
Lemma sorted_by {A} (less : A -> A -> bool) (P : A -> A -> Prop) l : (forall a b, less a b = true <-> P a b) ->
  StronglySorted (not_after less) l -> StronglySorted (fun a b => ~ P b a) l.
Proof.
  intros H. induction 1 as [|x l _ IH Hx]; constructor; [done|]. eapply Forall_impl; [exact Hx|].
  intros y Hy. unfold not_after in Hy. rewrite <- H. congruence.
Qed.
