(* ===== verification/GoFloat.v ===== *)
(** * Go's float64

    IEEE-754 binary64 with round-to-nearest-even, as the Standard Library's
    executable specification [SpecFloat] defines it (53-bit significand, largest
    exponent 1024).  Every operation rounds once: the model is that of a compiler
    that does not contract [x*y + z] into a fused multiply-add, which the Go
    language allows and amd64 (GOAMD64=v1) does not do. *)

From stdpp Require Import prelude.
From Stdlib Require Import ZArith Lia Floats.SpecFloat.
From S2P Require Import Prelude.

Abbreviation float64 := spec_float.

Definition f_add : float64 -> float64 -> float64 := SFadd 53 1024.
Definition f_sub : float64 -> float64 -> float64 := SFsub 53 1024.
Definition f_mul : float64 -> float64 -> float64 := SFmul 53 1024.
Definition f_div : float64 -> float64 -> float64 := SFdiv 53 1024.
Definition f_abs : float64 -> float64 := SFabs.
Definition f_lt (x y : float64) : bool := SFltb x y.
Definition f_le (x y : float64) : bool := SFleb x y.
Definition f_gt (x y : float64) : bool := SFltb y x.
Definition f_ge (x y : float64) : bool := SFleb y x.
Definition f_eq (x y : float64) : bool := SFeqb x y.

(** [float64(n)] *)
Definition f_of_Z (n : Z) : float64 := binary_normalize 53 1024 n 0 false.
Definition f_of_nat (n : nat) : float64 := f_of_Z (Z.of_nat n).

(** A decimal constant [n/d] of the source: the nearest float64 (both operands
    are exact below 2^53, and the quotient is rounded once). *)
Definition f_const (n d : Z) : float64 := f_div (f_of_Z n) (f_of_Z d).

Definition f_zero : float64 := S754_zero false.
Definition f_one : float64 := f_of_Z 1.
(** [math.MaxFloat64] *)
Definition f_max : float64 := S754_finite false 9007199254740991 971.

#[export] Instance float64_eq_dec : EqDecision float64.
Proof. solve_decision. Defined.

(** ** Order

    On values that are not NaN, comparison is the lexicographic order of a
    (class, exponent, significand) key, so it is a total preorder. *)

Definition is_nan (x : float64) : bool := match x with S754_nan => true | _ => false end.

Definition f_key (x : float64) : Z * Z * Z :=
  match x with
  | S754_infinity true => (-2, 0, 0)
  | S754_finite true m e => (-1, -e, Zneg m)
  | S754_zero _ | S754_nan => (0, 0, 0)
  | S754_finite false m e => (1, e, Zpos m)
  | S754_infinity false => (2, 0, 0)
  end%Z.

Definition key_compare (a b : Z * Z * Z) : comparison :=
  let '(a1, a2, a3) := a in let '(b1, b2, b3) := b in
  match Z.compare a1 b1 with
  | Eq => match Z.compare a2 b2 with Eq => Z.compare a3 b3 | c => c end
  | c => c
  end.

Lemma SFcompare_key x y :
  SFcompare x y = if is_nan x || is_nan y then None else Some (key_compare (f_key x) (f_key y)).
Proof.
  destruct x as [[]|[]| |[] m e], y as [[]|[]| |[] m' e']; simpl; try done.
  rewrite Z.compare_opp, (Z.compare_antisym e e'). by destruct (Z.compare e e').
Qed.

Definition key_le (a b : Z * Z * Z) : Prop :=
  let '(a1, a2, a3) := a in let '(b1, b2, b3) := b in
  (a1 < b1 \/ a1 = b1 /\ (a2 < b2 \/ a2 = b2 /\ a3 <= b3))%Z.

Lemma key_compare_le a b : key_compare a b <> Gt <-> key_le a b.
Proof.
  destruct a as [[a1 a2] a3], b as [[b1 b2] b3]. simpl.
  destruct (Z.compare_spec a1 b1); [|split; [lia|done]|split; [done|lia]].
  destruct (Z.compare_spec a2 b2); [|split; [lia|done]|split; [done|lia]].
  destruct (Z.compare_spec a3 b3); split; (done || lia).
Qed.

Lemma key_le_trans a b c : key_le a b -> key_le b c -> key_le a c.
Proof. destruct a as [[? ?] ?], b as [[? ?] ?], c as [[? ?] ?]. simpl. lia. Qed.

Lemma f_le_key x y :
  f_le x y = true <-> is_nan x = false /\ is_nan y = false /\ key_le (f_key x) (f_key y).
Proof.
  unfold f_le, SFleb. rewrite SFcompare_key, <- key_compare_le.
  destruct (is_nan x), (is_nan y); simpl; try (intuition congruence).
  destruct (key_compare (f_key x) (f_key y)); intuition congruence.
Qed.

Lemma f_le_trans x y z : f_le x y = true -> f_le y z = true -> f_le x z = true.
Proof.
  rewrite !f_le_key. intros (? & ? & H1) (? & ? & H2). repeat split; try done.
  by apply (key_le_trans _ (f_key y)).
Qed.
