(* ===== verification/Sha256.v ===== *)
(** * SHA-256

    [crypto/sha256.Sum256] and [encoding/hex.EncodeToString] (FIPS 180-4), on
    32-bit words as [N] reduced modulo 2^32. Executable, so content-addressed ids
    and digests evaluate to the bytes the program prints. *)

From Stdlib Require Import Ascii String.
From stdpp Require Import prelude strings list.
From Stdlib Require Import NArith Lia.
From S2P Require Import Prelude GoString.

Open Scope N_scope.

Definition w32 (x : N) : N := x mod 2 ^ 32.
Definition rotr (n x : N) : N := N.lor (N.shiftr x n) (w32 (N.shiftl x (32 - n))).

(** The first 32 bits of the fractional parts of the square roots of the first 8
    primes and of the cube roots of the first 64 primes. *)
Definition sha_h0 : list N :=
  [1779033703; 3144134277; 1013904242; 2773480762;
   1359893119; 2600822924; 528734635; 1541459225].

Definition sha_k : list N :=
  [1116352408; 1899447441; 3049323471; 3921009573; 961987163; 1508970993;
   2453635748; 2870763221; 3624381080; 310598401; 607225278; 1426881987;
   1925078388; 2162078206; 2614888103; 3248222580; 3835390401; 4022224774;
   264347078; 604807628; 770255983; 1249150122; 1555081692; 1996064986;
   2554220882; 2821834349; 2952996808; 3210313671; 3336571891; 3584528711;
   113926993; 338241895; 666307205; 773529912; 1294757372; 1396182291;
   1695183700; 1986661051; 2177026350; 2456956037; 2730485921; 2820302411;
   3259730800; 3345764771; 3516065817; 3600352804; 4094571909; 275423344;
   430227734; 506948616; 659060556; 883997877; 958139571; 1322822218;
   1537002063; 1747873779; 1955562222; 2024104815; 2227730452; 2361852424;
   2428436474; 2756734187; 3204031479; 3329325298].

Definition Ch (x y z : N) : N := N.lxor (N.land x y) (N.land (N.lxor x (N.ones 32)) z).
Definition Maj (x y z : N) : N := N.lxor (N.lxor (N.land x y) (N.land x z)) (N.land y z).
Definition Sigma0 (x : N) : N := N.lxor (N.lxor (rotr 2 x) (rotr 13 x)) (rotr 22 x).
Definition Sigma1 (x : N) : N := N.lxor (N.lxor (rotr 6 x) (rotr 11 x)) (rotr 25 x).
Definition sigma0 (x : N) : N := N.lxor (N.lxor (rotr 7 x) (rotr 18 x)) (N.shiftr x 3).
Definition sigma1 (x : N) : N := N.lxor (N.lxor (rotr 17 x) (rotr 19 x)) (N.shiftr x 10).

(** The message as bytes, padded with 0x80, zeros and its 64-bit bit length. *)
Definition be_bytes (n : nat) (x : N) : list N :=
  (fun i => N.shiftr x (8 * N.of_nat (n - 1 - i)) mod 256) <$> seq 0 n.
Definition sha_pad (m : list N) : list N :=
  let l := N.of_nat (length m) in
  let zeros := N.to_nat ((119 - l mod 64) mod 64) in
  m ++ [128] ++ replicate zeros 0 ++ be_bytes 8 (8 * l).

Fixpoint be_words (fuel : nat) (l : list N) : list N :=
  match fuel, l with
  | S k, a :: b :: c :: d :: l' => (a * 16777216 + b * 65536 + c * 256 + d) :: be_words k l'
  | _, _ => []
  end.

(** The message schedule, newest word first. *)
Fixpoint sha_schedule (n : nat) (w : list N) : list N :=
  match n with
  | O => w
  | S k =>
      let at_ i := nth i w 0 in
      sha_schedule k (w32 (sigma1 (at_ 1%nat) + at_ 6%nat + sigma0 (at_ 14%nat) + at_ 15%nat) :: w)
  end.

Definition sha_round (s : list N) (kw : N * N) : list N :=
  match s with
  | [a; b; c; d; e; f; g; h] =>
      let t1 := h + Sigma1 e + Ch e f g + kw.1 + kw.2 in
      let t2 := Sigma0 a + Maj a b c in
      [w32 (t1 + t2); a; b; c; w32 (d + t1); e; f; g]
  | _ => s
  end.

Definition sha_block (h : list N) (ws : list N) : list N :=
  let w := reverse (sha_schedule 48 (reverse ws)) in
  zip_with (fun x y => w32 (x + y)) h (foldl sha_round h (zip sha_k w)).

Fixpoint sha_blocks (fuel : nat) (h ws : list N) : list N :=
  match fuel, ws with
  | S k, _ :: _ => sha_blocks k (sha_block h (take 16 ws)) (drop 16 ws)
  | _, _ => h
  end.

(** [sha256.Sum256] *)
Definition Sum256 (data : bytes) : list N :=
  let ws := be_words (length data + 64) (sha_pad (code <$> data)) in
  mjoin (be_bytes 4 <$> sha_blocks (length ws) sha_h0 ws).

(** [hex.EncodeToString] *)
Definition hex_digit (n : N) : ascii := byte_of (if n <? 10 then n + 48 else n + 87).
Definition EncodeToString (b : list N) : string :=
  of_bytes (mjoin ((fun x => [hex_digit (x / 16); hex_digit (x mod 16)]) <$> b)).

(** The FIPS 180-4 example digests. *)
Example sha256_abc :
  EncodeToString (Sum256 (to_bytes "abc")) =
    "ba7816bf8f01cfea414140de5dae2223b00361a396177a9cb410ff61f20015ad"%string.
Proof. by vm_compute. Qed.

Example sha256_two_blocks :
  EncodeToString (Sum256 (to_bytes "abcdbcdecdefdefgefghfghighijhijkijkljklmklmnlmnomnopnopq")) =
    "248d6a61d20638b8e5c026930c3e6039a33ce45964ff2167f6ecedd419db06c1"%string.
Proof. by vm_compute. Qed.

(** ** The digest is a list of bytes, and hexadecimal is injective on bytes *)

Lemma be_bytes_small n x : Forall (fun b => b < 256) (be_bytes n x).
Proof. apply Forall_fmap, Forall_forall. intros i _. by apply N.mod_lt. Qed.

Lemma Sum256_small data : Forall (fun b => b < 256) (Sum256 data).
Proof.
  unfold Sum256. induction (sha_blocks _ _ _) as [|x l IH]; [constructor|].
  apply Forall_app. split; [apply be_bytes_small|exact IH].
Qed.

Lemma hex_digit_inj a b : a < 16 -> b < 16 -> hex_digit a = hex_digit b -> a = b.
Proof.
  intros Ha Hb H.
  assert (forall x, x < 16 -> x ∈ N.of_nat <$> seq 0 16) as Hin.
  { intros x Hx. apply list_elem_of_fmap. exists (N.to_nat x). split; [lia|]. apply elem_of_seq. lia. }
  assert (Forall (fun a => Forall (fun b => hex_digit a = hex_digit b -> a = b) (N.of_nat <$> seq 0 16))
    (N.of_nat <$> seq 0 16)) as Hall by (apply (bool_decide_eq_true_1 _); by vm_compute).
  rewrite Forall_forall in Hall. specialize (Hall a (Hin a Ha)). rewrite Forall_forall in Hall.
  by apply Hall; [apply Hin|].
Qed.

Lemma EncodeToString_inj l1 l2 :
  Forall (fun b => b < 256) l1 -> Forall (fun b => b < 256) l2 -> EncodeToString l1 = EncodeToString l2 -> l1 = l2.
Proof.
  unfold EncodeToString. intros H1 H2 H%(f_equal to_bytes). rewrite !list_ascii_of_string_of_list_ascii in H.
  revert l2 H2 H. induction H1 as [|a l1 Ha _ IH]; intros l2 H2 H; destruct H2 as [|b l2 Hb H2]; try done.
  cbn [fmap list_fmap mjoin list_join app] in H. injection H as Hq Hr Hl.
  assert (a = b) as ->.
  { apply hex_digit_inj in Hq, Hr; try (by apply N.mod_lt); try (apply N.Div0.div_lt_upper_bound; lia).
    rewrite (N.div_mod a 16), (N.div_mod b 16) by done. congruence. }
  f_equal. by apply IH.
Qed.
