(* ===== verification/GoJson.v ===== *)
(** * encoding/json

    [json.Marshal] and [json.MarshalIndent] on the tree of a value: a struct is a
    [JObj] of its emitted fields in declaration order (an omitted [omitempty] field
    is left out of the list), strings are escaped the way [encoding/json] escapes
    them (HTML characters, control characters, U+2028/U+2029 and invalid UTF-8),
    and a float64 prints as the shortest decimal that reads back as it. *)

From Stdlib Require Import Ascii String.
From stdpp Require Import prelude strings list pretty.
From Stdlib Require Import ZArith Lia Floats.SpecFloat.
From S2P Require Import Prelude GoString GoFloat.

Inductive json :=
  | JStr (s : string)
  | JInt (n : Z)
  | JFloat (x : float64)
  | JBool (b : bool)
  | JArr (l : list json)
  | JObj (fields : list (string * json)).

(** ** UTF-8 *)

Definition continuation (c : ascii) : bool := between 128 191 c.

(** The number of bytes [utf8.DecodeRuneInString] consumes, 0 where it reports an
    invalid encoding (it then consumes one byte and returns RuneError). *)
Definition rune_size (l : bytes) : nat :=
  match l with
  | [] => 0
  | a :: l1 =>
      if (code a <? 128)%N then 1
      else match l1 with
      | [] => 0
      | b :: l2 =>
          if between 194 223 a then (if continuation b then 2 else 0)
          else match l2 with
          | [] => 0
          | c :: l3 =>
              let lo := if (code a =? 224)%N then 160%N else if (code a =? 240)%N then 144%N else 128%N in
              let hi := if (code a =? 237)%N then 159%N else if (code a =? 244)%N then 143%N else 191%N in
              if negb (between lo hi b && continuation c) then 0
              else if between 224 239 a then 3
              else match l3 with
              | [] => 0
              | d :: _ => if between 240 244 a && continuation d then 4 else 0
              end
          end
      end
  end.

(** ** Strings *)

Definition hexd (n : N) : ascii := byte_of (if (n <? 10)%N then n + 48 else n + 87)%N.

Definition escape_ascii (c : ascii) : bytes :=
  let n := code c in
  if ((n =? 34) || (n =? 92))%N then [byte_of 92; c]
  else if (n =? 8)%N then to_bytes "\b"
  else if (n =? 12)%N then to_bytes "\f"
  else if (n =? 10)%N then to_bytes "\n"
  else if (n =? 13)%N then to_bytes "\r"
  else if (n =? 9)%N then to_bytes "\t"
  else if ((n <? 32) || (n =? 38) || (n =? 60) || (n =? 62))%N
    then to_bytes "\u00" ++ [hexd (n / 16); hexd (n mod 16)]
  else [c].

(** [skip] bytes of a multi-byte rune already copied are passed over. *)
Fixpoint escape_bytes (l : bytes) (skip : nat) : bytes :=
  match l with
  | [] => []
  | c :: l' =>
      match skip with
      | S k => escape_bytes l' k
      | O =>
          if (code c <? 128)%N then escape_ascii c ++ escape_bytes l' 0
          else match rune_size l with
          | O => to_bytes "\ufffd" ++ escape_bytes l' 0
          | S k =>
              let rune := take (S k) l in
              (if bool_decide (rune = [byte_of 226; byte_of 128; byte_of 168]) then to_bytes "\u2028"
               else if bool_decide (rune = [byte_of 226; byte_of 128; byte_of 169]) then to_bytes "\u2029"
               else rune) ++ escape_bytes l' k
          end
      end
  end.

Definition quote_string (s : string) : bytes :=
  [byte_of 34] ++ escape_bytes (to_bytes s) 0 ++ [byte_of 34].

(** ** Floats *)

(** [v = V * 2^q], and the interval of reals that round to it: [L, H], endpoints
    included when the significand is even. *)
Section shortest.
  Variables (m q : Z).
Let V := (4 * m)%Z.
Let L := (if (m =? 2 ^ 52) then 4 * m - 1 else 4 * m - 2)%Z.
Let H := (4 * m + 2)%Z.

  (** Compares [x * 2^q] with [d * 10^k]. *)
Definition cmp_dec (x d k : Z) : comparison :=
    Z.compare (x * 2 ^ Z.max 0 q * 10 ^ Z.max 0 (- k)) (d * 10 ^ Z.max 0 k * 2 ^ Z.max 0 (- q)).
Definition floor_dec (k : Z) : Z :=
    (V * 2 ^ Z.max 0 q * 10 ^ Z.max 0 (- k) / (10 ^ Z.max 0 k * 2 ^ Z.max 0 (- q)))%Z.

  (** The decimal exponent [p] with [10^(p-1) <= v < 10^p]. *)
Fixpoint dec_exponent (fuel : nat) (p : Z) : Z :=
    match fuel with
    | O => p
    | S n => match cmp_dec V 1 p with Lt => p | _ => dec_exponent n (p + 1) end
    end.

Definition inside (d k : Z) : bool :=
    match cmp_dec L d k, cmp_dec H d k with
    | Lt, Gt => true
    | Eq, _ | _, Eq => Z.even m
    | _, _ => false
    end.

  (** The shortest digits: [n] digits are enough when a neighbour of [v] with [n]
      digits rounds to [v]; of two such neighbours the nearer is taken. *)
Fixpoint shortest_from (fuel : nat) (p n : Z) : Z * Z :=
    let k := (p - n)%Z in
    let lo := floor_dec k in
    let hi := (lo + 1)%Z in
    match fuel, inside lo k, inside hi k with
    | O, _, _ => (hi, k)
    | _, true, false => (lo, k)
    | _, false, true => (hi, k)
    | _, true, true =>
        match cmp_dec (2 * V) (lo + hi) k with
        | Lt => (lo, k)
        | Gt => (hi, k)
        | Eq => if Z.even lo then (lo, k) else (hi, k)
        end
    | S f, false, false => shortest_from f p (n + 1)
    end.
End shortest.

Fixpoint strip_zeros (fuel : nat) (d k : Z) : Z * Z :=
  match fuel with
  | O => (d, k)
  | S n => if (d mod 10 =? 0)%Z then strip_zeros n (d / 10) (k + 1) else (d, k)
  end.

(** The shortest decimal [d * 10^k] of a positive finite float. *)
Definition shortest_decimal (m : positive) (e : Z) : Z * Z :=
  let q := (e - 2)%Z in
  let est := ((e + Z.log2 (Zpos m)) * 30103 / 100000 - 1)%Z in
  let p := dec_exponent (Zpos m) q 5 est in
  let '(d, k) := shortest_from (Zpos m) q 17 p 1 in
  strip_zeros 20 d k.

Definition zeros (n : Z) : bytes := replicate (Z.to_nat n) (byte_of 48).

(** [json]'s float encoder: ['f'] format, ['e'] outside [1e-6, 1e21). *)
Definition format_pos (m : positive) (e : Z) : bytes :=
  let '(d, k) := shortest_decimal m e in
  let ds := to_bytes (pretty d) in
  let n := Z.of_nat (length ds) in
  let p := (n + k)%Z in
  if ((p <=? -6) || (22 <=? p))%Z then
    take 1 ds ++ (if (n =? 1)%Z then [] else to_bytes "." ++ drop 1 ds) ++ to_bytes "e" ++
      (if (0 <=? p - 1)%Z then to_bytes "+" else []) ++ to_bytes (pretty (p - 1)%Z)
  else if (p <=? 0)%Z then to_bytes "0." ++ zeros (- p) ++ ds
  else if (n <=? p)%Z then ds ++ zeros (p - n)
  else take (Z.to_nat p) ds ++ to_bytes "." ++ drop (Z.to_nat p) ds.

Definition format_float (x : float64) : option bytes :=
  match x with
  | S754_zero false => Some (to_bytes "0")
  | S754_zero true => Some (to_bytes "-0")
  | S754_finite false m e => Some (format_pos m e)
  | S754_finite true m e => Some (to_bytes "-" ++ format_pos m e)
  | _ => None                                  (* UnsupportedValueError *)
  end.

(** ** Values *)

Definition sep_by (sep : bytes) (l : list bytes) : bytes :=
  match l with
  | [] => []
  | x :: l' => x ++ mjoin ((fun y => sep ++ y) <$> l')
  end.

Fixpoint oseq {A} (l : list (option A)) : option (list A) :=
  match l with
  | [] => Some []
  | x :: l' => a ← x; r ← oseq l'; Some (a :: r)
  end.

(** [json.Marshal]: [None] is a marshalling error. *)
Fixpoint Marshal (v : json) : option bytes :=
  match v with
  | JStr s => Some (quote_string s)
  | JInt n => Some (to_bytes (pretty n))
  | JFloat x => format_float x
  | JBool b => Some (to_bytes (if b then "true" else "false"))
  | JArr l => es ← oseq (map Marshal l); Some (to_bytes "[" ++ sep_by (to_bytes ",") es ++ to_bytes "]")
  | JObj fs =>
      es ← oseq (map (fun kv => e ← Marshal kv.2; Some (quote_string kv.1 ++ to_bytes ":" ++ e)) fs);
      Some (to_bytes "{" ++ sep_by (to_bytes ",") es ++ to_bytes "}")
  end.

Definition newline (depth : nat) : bytes := byte_of 10 :: replicate (2 * depth) (byte_of 32).

(** [json.MarshalIndent] with an empty prefix and a two-space indent. *)
Fixpoint MarshalIndent (depth : nat) (v : json) : option bytes :=
  match v with
  | JArr [] => Some (to_bytes "[]")
  | JObj [] => Some (to_bytes "{}")
  | JArr l =>
      es ← oseq (map (fun x => e ← MarshalIndent (S depth) x; Some (newline (S depth) ++ e)) l);
      Some (to_bytes "[" ++ sep_by (to_bytes ",") es ++ newline depth ++ to_bytes "]")
  | JObj fs =>
      es ← oseq (map (fun kv => e ← MarshalIndent (S depth) kv.2;
                     Some (newline (S depth) ++ quote_string kv.1 ++ to_bytes ": " ++ e)) fs);
      Some (to_bytes "{" ++ sep_by (to_bytes ",") es ++ newline depth ++ to_bytes "}")
  | _ => Marshal v
  end.

(** ** Totality *)

(** Every number of the tree is finite: the values encoding/json accepts. *)
Fixpoint encodable (v : json) : bool :=
  match v with
  | JFloat x => if format_float x is Some _ then true else false
  | JArr l => forallb encodable l
  | JObj fs => forallb (fun kv => encodable kv.2) fs
  | _ => true
  end.

Abbreviation encodable_field := (fun kv : string * json => encodable kv.2).

Lemma oseq_total {A B} (f : A -> option B) l : Forall (fun x => is_Some (f x)) l -> is_Some (oseq (map f l)).
Proof.
  induction 1 as [|x l [y Hy] _ [ys Hys]]; simpl; [by eexists|]. rewrite Hy, Hys. by eexists.
Qed.

(** Both encoders succeed on an encodable tree. *)
Lemma Marshal_total v : encodable v = true -> is_Some (Marshal v).
Proof.
  revert v. fix IH 1. intros [s|n|x|b|l|fs]; simpl; try (intros _; by eexists).
  - by destruct (format_float x).
  - intros H. destruct (oseq_total Marshal l) as [es ->]; [|by eexists].
    induction l as [|v l IHl]; constructor; simpl in H; apply andb_true_iff in H as [H1 H2]; [by apply IH|by apply IHl].
  - intros H. match goal with |- context [oseq (map ?g fs)] => destruct (oseq_total g fs) as [es ->] end; [|by eexists].
    induction fs as [|[k v] fs IHl]; constructor; simpl in H; apply andb_true_iff in H as [H1 H2]; [|by apply IHl].
    simpl. destruct (IH v H1) as [e ->]. by eexists.
Qed.

Lemma MarshalIndent_total v : encodable v = true -> forall depth, is_Some (MarshalIndent depth v).
Proof.
  revert v. fix IH 1. intros [s|n|x|b|l|fs] H depth; try (by apply (Marshal_total (JFloat x))); try by eexists.
  - destruct l as [|v l]; [by eexists|]. cbn [MarshalIndent].
    match goal with |- context [oseq (map ?g ?l')] => assert (is_Some (oseq (map g l'))) as [es ->] end; [|by eexists].
    apply oseq_total. simpl in H. apply andb_true_iff in H as [H1 H2]. constructor.
    + destruct (IH v H1 (S depth)) as [e ->]. by eexists.
    + induction l as [|w l IHl]; constructor; simpl in H2; apply andb_true_iff in H2 as [H2 H3]; [|by apply IHl].
      destruct (IH w H2 (S depth)) as [e ->]. by eexists.
  - destruct fs as [|[k v] fs]; [by eexists|]. cbn [MarshalIndent].
    match goal with |- context [oseq (map ?g ?l')] => assert (is_Some (oseq (map g l'))) as [es ->] end; [|by eexists].
    apply oseq_total. simpl in H. apply andb_true_iff in H as [H1 H2]. constructor.
    + simpl. destruct (IH v H1 (S depth)) as [e ->]. by eexists.
    + induction fs as [|[k' w] fs IHl]; constructor; simpl in H2; apply andb_true_iff in H2 as [H2 H3]; [|by apply IHl].
      simpl. destruct (IH w H2 (S depth)) as [e ->]. by eexists.
Qed.

Lemma encodable_strings l : forallb encodable (JStr <$> l) = true.
Proof. by induction l. Qed.
