(* ===== verification/JsonDecode.v ===== *)
(** * Decoding encoding/json

    The half of [encoding/json] that reads: the scanner's grammar with its nesting
    limit, the unquoting of string literals, and the tree of a value, from which
    [json.Unmarshal] fills a struct. A number keeps its literal: what a Go type
    makes of it is the type's business. *)

From Stdlib Require Import Ascii String.
From stdpp Require Import prelude strings list pretty.
From Stdlib Require Import ZArith Lia Floats.SpecFloat.
From S2P Require Import Prelude GoString GoStrconv GoFloat GoJson.

Open Scope string_scope.
Open Scope list_scope.
Open Scope nat_scope.

Inductive jtree :=
  | TNull
  | TBool (b : bool)
  | TNum (lit : bytes)
  | TStr (s : string)
  | TArr (l : list jtree)
  | TObj (fields : list (string * jtree)).

(** ** The grammar *)

Definition is_json_ws (c : ascii) : bool :=
  existsb (fun n => Ascii.eqb c (byte_of n)) [32; 9; 13; 10]%N.

Fixpoint skip_ws (l : bytes) : bytes :=
  match l with
  | c :: l' => if is_json_ws c then skip_ws l' else l
  | [] => []
  end.

Definition is_hex (c : ascii) : bool := is_digit c || between 97 102 c || between 65 70 c.

(** The escapes of one byte, and what they stand for. *)
Definition simple_escape (d : ascii) : option ascii :=
  let n := code d in
  if ((n =? 34) || (n =? 92) || (n =? 47))%N then Some d
  else if (n =? 98)%N then Some (byte_of 8)
  else if (n =? 102)%N then Some (byte_of 12)
  else if (n =? 110)%N then Some (byte_of 10)
  else if (n =? 114)%N then Some (byte_of 13)
  else if (n =? 116)%N then Some (byte_of 9)
  else None.

(** A string literal after its opening quote: the bytes up to the closing one, and
    the rest. *)
Fixpoint scan_string (l : bytes) : option (bytes * bytes) :=
  match l with
  | [] => None
  | c :: l' =>
      if Ascii.eqb c (byte_of 34) then Some ([], l')
      else if Ascii.eqb c (byte_of 92) then
        match l' with
        | d :: l'' =>
            if Ascii.eqb d "u" then
              match l'' with
              | h1 :: h2 :: h3 :: h4 :: l3 =>
                  if is_hex h1 && is_hex h2 && is_hex h3 && is_hex h4
                  then '(x, r) ← scan_string l3; Some (c :: d :: h1 :: h2 :: h3 :: h4 :: x, r) else None
              | _ => None
              end
            else match simple_escape d with
                 | Some _ => '(x, r) ← scan_string l''; Some (c :: d :: x, r)
                 | None => None
                 end
        | [] => None
        end
      else if (code c <? 32)%N then None
      else '(x, r) ← scan_string l'; Some (c :: x, r)
  end.

(** *** Unquoting *)

Definition hex_value (c : ascii) : N :=
  if is_digit c then code c - 48 else if between 97 102 c then code c - 87 else code c - 55.
Definition hex4 (h1 h2 h3 h4 : ascii) : N :=
  (hex_value h1 * 4096 + hex_value h2 * 256 + hex_value h3 * 16 + hex_value h4)%N.

(** [utf8.AppendRune] *)
Definition utf8_encode (r : N) : bytes :=
  byte_of <$>
  (if (r <? 128)%N then [r]
   else if (r <? 2048)%N then [192 + r / 64; 128 + r mod 64]
   else if (r <? 65536)%N then [224 + r / 4096; 128 + r / 64 mod 64; 128 + r mod 64]
   else [240 + r / 262144; 128 + r / 4096 mod 64; 128 + r / 64 mod 64; 128 + r mod 64])%N.

Definition RuneError : bytes := byte_of <$> [239; 191; 189]%N.

Definition is_surrogate (r : N) : bool := ((55296 <=? r) && (r <? 57344))%N.

(** [utf16.DecodeRune] of a pair that is one. *)
Definition decode_pair (r1 r2 : N) : option N :=
  if ((55296 <=? r1) && (r1 <? 56320) && (56320 <=? r2) && (r2 <? 57344))%N
  then Some ((r1 - 55296) * 1024 + (r2 - 56320) + 65536)%N else None.

(** The rune of a surrogate and the escape after it. *)
Definition unquote_low (r1 : N) (l : bytes) : option N :=
  match l with
  | b :: u :: g1 :: g2 :: g3 :: g4 :: _ =>
      if Ascii.eqb b (byte_of 92) && Ascii.eqb u "u" then decode_pair r1 (hex4 g1 g2 g3 g4) else None
  | _ => None
  end.

(** [skip] bytes are part of a rune or an escape already written. *)
Fixpoint unquote (l : bytes) (skip : nat) : bytes :=
  match l with
  | [] => []
  | c :: l' =>
      match skip with
      | S k => unquote l' k
      | O =>
          if Ascii.eqb c (byte_of 92) then
            match l' with
            | [] => []
            | d :: l2 =>
                if Ascii.eqb d "u" then
                  match l2 with
                  | h1 :: h2 :: h3 :: h4 :: l6 =>
                      let r1 := hex4 h1 h2 h3 h4 in
                      match (if is_surrogate r1 then unquote_low r1 l6 else None) with
                      | Some r => utf8_encode r ++ unquote l' 11
                      | None => (if is_surrogate r1 then RuneError else utf8_encode r1) ++ unquote l' 5
                      end
                  | _ => []
                  end
                else default [] ((fun e => [e]) <$> simple_escape d) ++ unquote l' 1
            end
          else if (code c <? 128)%N then c :: unquote l' 0
          else match rune_size l with
               | O => RuneError ++ unquote l' 0
               | S k => take (S k) l ++ unquote l' k
               end
      end
  end.

(** *** Numbers *)

Fixpoint skip_digits (l : bytes) : bytes :=
  match l with
  | c :: l' => if is_digit c then skip_digits l' else l
  | [] => []
  end.
Definition digits1 (l : bytes) : option bytes :=
  match l with
  | c :: l' => if is_digit c then Some (skip_digits l') else None
  | [] => None
  end.

Definition scan_exponent (l : bytes) : option bytes :=
  match l with
  | c :: l' =>
      if Ascii.eqb c "e" || Ascii.eqb c "E" then
        match l' with
        | d :: l'' => if Ascii.eqb d "+" || Ascii.eqb d "-" then digits1 l'' else digits1 l'
        | [] => None
        end
      else Some l
  | [] => Some l
  end.
Definition scan_fraction (l : bytes) : option bytes :=
  match l with
  | c :: l' => if Ascii.eqb c "." then digits1 l' else Some l
  | [] => Some l
  end.
Definition scan_integer (l : bytes) : option bytes :=
  match l with
  | c :: l' => if Ascii.eqb c "0" then Some l' else digits1 l
  | [] => None
  end.
Definition drop_minus (l : bytes) : bytes :=
  match l with
  | c :: l' => if Ascii.eqb c "-" then l' else l
  | [] => []
  end.

(** The bytes after a number. *)
Definition scan_number (l : bytes) : option bytes :=
  l ← scan_integer (drop_minus l); l ← scan_fraction l; scan_exponent l.

(** *** Values *)

Definition maxNestingDepth : nat := 10000.
Arguments maxNestingDepth : simpl never.

Definition literal (w : string) (t : jtree) (l : bytes) : option (jtree * bytes) :=
  if is_prefix (to_bytes w) l then Some (t, drop (length (to_bytes w)) l) else None.

(** A value after white space; the elements of an array from its first, and the
    members of an object from its first key. Each answers the bytes that follow. *)
Fixpoint parse_value (fuel depth : nat) (l : bytes) : option (jtree * bytes) :=
  match fuel with
  | O => None
  | S k =>
      match skip_ws l with
      | [] => None
      | c :: l' =>
          if Ascii.eqb c (byte_of 34) then
            '(x, r) ← scan_string l'; Some (TStr (of_bytes (unquote x 0)), r)
          else if Ascii.eqb c "{" then
            if maxNestingDepth <=? depth then None
            else match skip_ws l' with
                 | [] => None
                 | d :: r => if Ascii.eqb d "}" then Some (TObj [], r)
                             else '(fs, r) ← parse_members k (S depth) (d :: r); Some (TObj fs, r)
                 end
          else if Ascii.eqb c "[" then
            if maxNestingDepth <=? depth then None
            else match skip_ws l' with
                 | [] => None
                 | d :: r => if Ascii.eqb d "]" then Some (TArr [], r)
                             else '(vs, r) ← parse_elements k (S depth) (d :: r); Some (TArr vs, r)
                 end
          else if Ascii.eqb c "t" then literal "true" (TBool true) (c :: l')
          else if Ascii.eqb c "f" then literal "false" (TBool false) (c :: l')
          else if Ascii.eqb c "n" then literal "null" TNull (c :: l')
          else r ← scan_number (c :: l'); Some (TNum (take (length (c :: l') - length r) (c :: l')), r)
      end
  end
with parse_elements (fuel depth : nat) (l : bytes) : option (list jtree * bytes) :=
  match fuel with
  | O => None
  | S k =>
      '(v, r) ← parse_value k depth l;
      match skip_ws r with
      | [] => None
      | c :: r' =>
          if Ascii.eqb c "," then '(vs, r) ← parse_elements k depth r'; Some (v :: vs, r)
          else if Ascii.eqb c "]" then Some ([v], r') else None
      end
  end
with parse_members (fuel depth : nat) (l : bytes) : option (list (string * jtree) * bytes) :=
  match fuel with
  | O => None
  | S k =>
      match skip_ws l with
      | [] => None
      | c :: l' =>
          if negb (Ascii.eqb c (byte_of 34)) then None
          else
            '(x, r) ← scan_string l';
            match skip_ws r with
            | [] => None
            | c :: r' =>
                if negb (Ascii.eqb c ":") then None
                else
                  '(v, r) ← parse_value k depth r';
                  let f := (of_bytes (unquote x 0), v) in
                  match skip_ws r with
                  | [] => None
                  | c :: r' =>
                      if Ascii.eqb c "," then '(fs, r) ← parse_members k depth r'; Some (f :: fs, r)
                      else if Ascii.eqb c "}" then Some ([f], r') else None
                  end
            end
      end
  end.

(** The next value of a [json.Decoder] and the bytes after it. *)
Definition DecodeNext (l : bytes) : option (jtree * bytes) := parse_value (2 * length l + 2) 0 l.

(** One value and nothing but white space around it: what [json.Unmarshal] reads. *)
Definition Parse (l : bytes) : option jtree :=
  '(t, r) ← DecodeNext l; if skip_ws r is [] then Some t else None.

Definition Valid (l : bytes) : bool := bool_decide (is_Some (Parse l)).

(** A literal of the examples, with [^] for the double quote. *)
Definition quoted (s : string) : bytes :=
  (fun c => if Ascii.eqb c "^" then byte_of 34 else c) <$> to_bytes s.

Example Parse_examples :
  Parse (quoted " {^a^: [1, -2.5e+3, true, null, ^\u00e9\n\ud83d\ude00^], ^b^: {}} ") =
    Some (TObj [("a", TArr [TNum (to_bytes "1"); TNum (to_bytes "-2.5e+3"); TBool true; TNull;
                            TStr (of_bytes (byte_of <$> [195; 169; 10; 240; 159; 152; 128]%N))]);
                ("b", TObj [])]) /\
  Valid (quoted "[1,]") = false /\ Valid (quoted "01") = false /\ Valid (quoted "[] x") = false.
Proof. by vm_compute. Qed.

(** ** Filling Go values

    A decoder takes the value a variable holds and the tree read into it; [None] is
    an [UnmarshalTypeError], after which the code that called [json.Unmarshal] never
    looks at the variable. [null] leaves every value but a slice or a pointer alone. *)

(** [foldName]: field names match their keys by simple case folding, which also maps
    U+017F to [S] and U+212A to [K]. *)
Fixpoint fold_bytes (l : bytes) (skip : nat) : bytes :=
  match l with
  | [] => []
  | c :: l' =>
      match skip with
      | S k => fold_bytes l' k
      | O => if is_prefix (byte_of <$> [197; 191]%N) l then "S"%char :: fold_bytes l' 1
             else if is_prefix (byte_of <$> [226; 132; 170]%N) l then "K"%char :: fold_bytes l' 2
             else upper_byte c :: fold_bytes l' 0
      end
  end.
Definition fold_key (s : string) : bytes := fold_bytes (to_bytes s) 0.

Definition decoder (A : Type) := A -> jtree -> option A.

Definition dec_string : decoder string := fun old t =>
  match t with TStr s => Some s | TNull => Some old | _ => None end.
Definition dec_bool : decoder bool := fun old t =>
  match t with TBool b => Some b | TNull => Some old | _ => None end.
(** [strconv.ParseInt] of the literal. *)
Definition dec_int : decoder Z := fun old t =>
  match t with TNum lit => Atoi (of_bytes lit) | TNull => Some old | _ => None end.

(** A pointer: [null] is nil, and anything else is read into the value pointed to, a
    fresh one where there is none. *)
Definition dec_pointer {A} (zero : A) (d : decoder A) : decoder (option A) := fun old t =>
  match t with TNull => Some None | _ => Some <$> d (default zero old) t end.

(** A slice: the elements are read over those of an earlier value of the key. *)
Fixpoint dec_elements {A} (zero : A) (d : decoder A) (old : list A) (ts : list jtree) : option (list A) :=
  match ts with
  | [] => Some []
  | t :: ts' =>
      x ← d (default zero (head old)) t; xs ← dec_elements zero d (tail old) ts'; Some (x :: xs)
  end.
Definition dec_slice {A} (zero : A) (d : decoder A) : decoder (list A) := fun old t =>
  match t with TArr ts => dec_elements zero d old ts | TNull => Some [] | _ => None end.

(** The same for a slice the code tells nil from empty. *)
Definition dec_nil_slice {A} (zero : A) (d : decoder A) : decoder (option (list A)) := fun old t =>
  match t with
  | TArr ts => Some <$> dec_elements zero d (default [] old) ts
  | TNull => Some None
  | _ => None
  end.

(** A struct: each member goes to the field its key names; others are ignored. *)
Definition dec_member {A} (fields : list (string * decoder A)) (old : A) (kv : string * jtree) : option A :=
  match list_find (fun f : string * decoder A => fold_key f.1 = fold_key kv.1) fields with
  | Some (_, f) => f.2 old kv.2
  | None => Some old
  end.
Definition dec_struct {A} (fields : list (string * decoder A)) : decoder A := fun old t =>
  match t with
  | TObj kvs => foldM (dec_member fields) old kvs
  | TNull => Some old
  | _ => None
  end.

(** The decoder of one field, from its type's and its setter. *)
Definition field {A B} (name : string) (get : A -> B) (set : B -> A -> A) (d : decoder B) : string * decoder A :=
  (name, fun old t => (fun b => set b old) <$> d (get old) t).

(** [json.Unmarshal] into a variable holding [zero]. *)
Definition Unmarshal {A} (d : decoder A) (zero : A) (data : bytes) : option A := t ← Parse data; d zero t.
