(* ===== verification/JsonRoundtrip.v ===== *)
(** * Parsing what Marshal wrote

    The tree [Parse] reads from the bytes of [Marshal] is that of the value encoded,
    with each invalid UTF-8 byte of a string replaced by U+FFFD. *)

From Stdlib Require Import Ascii String.
From stdpp Require Import prelude strings list pretty.
From Stdlib Require Import ZArith Lia Floats.SpecFloat Wf_nat.
From S2P Require Import Prelude GoString GoStrconv GoFloat GoJson JsonDecode.

Open Scope string_scope.
Open Scope list_scope.
Open Scope nat_scope.

(** What encoding and decoding a string makes of it. *)
Fixpoint sanitize_bytes (l : bytes) (skip : nat) : bytes :=
  match l with
  | [] => []
  | c :: l' =>
      match skip with
      | S k => sanitize_bytes l' k
      | O => if (code c <? 128)%N then c :: sanitize_bytes l' 0
             else match rune_size l with
                  | O => RuneError ++ sanitize_bytes l' 0
                  | S k => take (S k) l ++ sanitize_bytes l' k
                  end
      end
  end.
Definition sanitize (s : string) : string := of_bytes (sanitize_bytes (to_bytes s) 0).

(** A string of valid UTF-8. *)
Definition valid_utf8 (s : string) : bool := (sanitize s =? s)%string.

Fixpoint tree_of (v : json) : jtree :=
  match v with
  | JStr s => TStr (sanitize s)
  | JInt n => TNum (to_bytes (pretty n))
  | JFloat x => TNum (default [] (format_float x))
  | JBool b => TBool b
  | JArr l => TArr (map tree_of l)
  | JObj fs => TObj (map (fun kv => (sanitize kv.1, tree_of kv.2)) fs)
  end.

(** How deep a value nests. *)
Fixpoint nesting (v : json) : nat :=
  match v with
  | JArr l => S (max_list (map nesting l))
  | JObj fs => S (max_list (map (fun kv => nesting kv.2) fs))
  | _ => 0
  end.

(** ** Runes *)

Lemma code_byte_range c : (code c < 256)%N.
Proof. apply Ascii.N_ascii_bounded. Qed.

Lemma continuation_high c : continuation c = true -> (128 <=? code c)%N = true.
Proof. unfold continuation, between. intros H. apply andb_true_iff in H as [-> _]. done. Qed.

Lemma between_high lo hi c : between lo hi c = true -> (128 <= lo)%N -> (128 <=? code c)%N = true.
Proof. unfold between. intros H Hlo. apply andb_true_iff in H as [H%N.leb_le _]. apply N.leb_le. lia. Qed.

(** A rune is read from its own bytes alone, and those of a long one are not ASCII. *)
Lemma rune_size_app l k x :
  rune_size l = S k ->
  rune_size (take (S k) l ++ x) = S k /\ length (take (S k) l) = S k /\
  (forall c l', l = c :: l' -> (code c <? 128)%N = false -> Forall (fun d => (128 <=? code d)%N = true) (take (S k) l)).
Proof.
  destruct l as [|a l1]; [done|]. unfold rune_size at 1.
  destruct (code a <? 128)%N eqn:Ea.
  { intros [= <-]. cbn. rewrite Ea. split_and!; [done|done|]. intros c l' [= <- <-]. by rewrite Ea. }
  assert (Ha : (128 <=? code a)%N = true) by (apply N.leb_le; apply N.ltb_ge in Ea; lia).
  destruct l1 as [|b l2]; [done|].
  destruct (between 194 223 a) eqn:E2.
  { destruct (continuation b) eqn:Eb; [|done]. intros [= <-]. cbn. rewrite Ea, E2, Eb. split_and!; [done|done|].
    intros ? ? _ _. repeat constructor; [done|by apply continuation_high]. }
  destruct l2 as [|c l3]; [done|].
  set (lo := if (code a =? 224)%N then 160%N else if (code a =? 240)%N then 144%N else 128%N).
  set (hi := if (code a =? 237)%N then 159%N else if (code a =? 244)%N then 143%N else 191%N).
  assert (Hlo : (128 <= lo)%N) by (unfold lo; repeat case_match; lia).
  destruct (between lo hi b && continuation c) eqn:Ebc; [|done]. cbn [negb].
  pose proof Ebc as [Hb Hc]%andb_true_iff.
  destruct (between 224 239 a) eqn:E3.
  { intros [= <-]. cbn. fold lo hi. rewrite Ea, E2, Ebc, E3. split_and!; [done|done|].
    intros ? ? _ _. repeat constructor; [done|by eapply between_high|by apply continuation_high]. }
  destruct l3 as [|d l4]; [done|]. destruct (between 240 244 a && continuation d) eqn:E4; [|done].
  pose proof E4 as [_ Hd]%andb_true_iff.
  intros [= <-]. cbn. fold lo hi. rewrite Ea, E2, Ebc, E3, E4. split_and!; [done|done|].
  intros ? ? _ _. repeat constructor; [done|by eapply between_high|by apply continuation_high..].
Qed.

(** ** Strings *)

(** Bytes the scanner passes over, whatever follows them. *)
Definition scans (bs : bytes) : Prop :=
  forall x, scan_string (bs ++ x) = ('(y, r) ← scan_string x; Some (bs ++ y, r)).

Lemma scans_nil : scans [].
Proof. intros x. simpl. by destruct (scan_string x) as [[? ?]|]. Qed.

Lemma scans_app a b : scans a -> scans b -> scans (a ++ b).
Proof.
  intros Ha Hb x. rewrite <-app_assoc, Ha, Hb. destruct (scan_string x) as [[y r]|]; [|done].
  simpl. by rewrite app_assoc.
Qed.

Lemma scans_high bs : Forall (fun d => (128 <=? code d)%N = true) bs -> scans bs.
Proof.
  induction 1 as [|c bs Hc%N.leb_le _ IH]; [apply scans_nil|].
  change (c :: bs) with ([c] ++ bs). apply scans_app; [|done]. intros x. cbn [app scan_string].
  assert (H1 : Ascii.eqb c (byte_of 34) = false) by (apply Ascii.eqb_neq; by intros ->).
  assert (H2 : Ascii.eqb c (byte_of 92) = false) by (apply Ascii.eqb_neq; by intros ->).
  rewrite H1, H2. assert ((code c <? 32)%N = false) as -> by (apply N.ltb_ge; lia). done.
Qed.

Lemma escape_ascii_scans c : (code c <? 128)%N = true -> scans (escape_ascii c).
Proof. destruct c as [[] [] [] [] [] [] [] []]; intros H; try discriminate H; intros x; reflexivity. Qed.

Lemma escape_ascii_unquote c x : (code c <? 128)%N = true -> unquote (escape_ascii c ++ x) 0 = c :: unquote x 0.
Proof. destruct c as [[] [] [] [] [] [] [] []]; intros H; try discriminate H; reflexivity. Qed.

Lemma unquote_skip a x : unquote (a ++ x) (length a) = unquote x 0.
Proof. by induction a. Qed.

Lemma unquote_rune l k c l' x :
  l = c :: l' -> (code c <? 128)%N = false -> rune_size l = S k ->
  unquote (take (S k) l ++ x) 0 = take (S k) l ++ unquote x 0.
Proof.
  intros El Hc Hk. destruct (rune_size_app l k x Hk) as (Happ & Hlen & _). subst l.
  cbn [take] in Happ, Hlen |- *. rewrite <-app_comm_cons in *. cbn [unquote].
  assert (Ascii.eqb c (byte_of 92) = false) as -> by (apply Ascii.eqb_neq; by intros ->).
  rewrite Hc, Happ. injection Hlen as Hlen.
  replace (unquote (take k l' ++ x) k) with (unquote x 0) by (by rewrite <-Hlen at 2; rewrite unquote_skip).
  change (take (S k) (c :: take k l' ++ x)) with (c :: take k (take k l' ++ x)).
  by rewrite take_app_le, take_take, Nat.min_id by lia.
Qed.

Lemma escape_bytes_0 c l :
  escape_bytes (c :: l) 0 =
  (if (code c <? 128)%N then escape_ascii c ++ escape_bytes l 0
   else match rune_size (c :: l) with
        | O => to_bytes "\ufffd" ++ escape_bytes l 0
        | S k => (let rune := take (S k) (c :: l) in
                  if bool_decide (rune = [byte_of 226; byte_of 128; byte_of 168]) then to_bytes "\u2028"
                  else if bool_decide (rune = [byte_of 226; byte_of 128; byte_of 169]) then to_bytes "\u2029"
                  else rune) ++ escape_bytes l k
        end).
Proof. done. Qed.

Lemma sanitize_bytes_0 c l :
  sanitize_bytes (c :: l) 0 =
  (if (code c <? 128)%N then c :: sanitize_bytes l 0
   else match rune_size (c :: l) with
        | O => RuneError ++ sanitize_bytes l 0
        | S k => take (S k) (c :: l) ++ sanitize_bytes l k
        end).
Proof. done. Qed.

Lemma escape_bytes_scans l k : scans (escape_bytes l k).
Proof.
  revert k. induction l as [|c l IH]; intros [|k]; [apply scans_nil..| |apply IH].
  rewrite escape_bytes_0. destruct (code c <? 128)%N eqn:Hc.
  { apply scans_app; [by apply escape_ascii_scans|apply IH]. }
  destruct (rune_size (c :: l)) as [|k] eqn:Hk; apply scans_app; try apply IH; [done|].
  cbv zeta. case_bool_decide; [done|]. case_bool_decide; [done|].
  apply scans_high. destruct (rune_size_app _ _ [] Hk) as (_ & _ & Hr). by eapply Hr.
Qed.

Lemma escape_bytes_unquote l k : unquote (escape_bytes l k) 0 = sanitize_bytes l k.
Proof.
  revert k. induction l as [|c l IH]; intros [|k]; [done..| |apply IH].
  rewrite escape_bytes_0, sanitize_bytes_0. destruct (code c <? 128)%N eqn:Hc.
  { by rewrite escape_ascii_unquote, IH. }
  destruct (rune_size (c :: l)) as [|k] eqn:Hk.
  { rewrite <-IH. done. }
  rewrite <-(IH k). cbv zeta. case_bool_decide as H1; [by rewrite H1|]. case_bool_decide as H2; [by rewrite H2|].
  by eapply unquote_rune.
Qed.

(** A quoted string scans and unquotes to its sanitized bytes. *)
Lemma scan_quoted s r :
  scan_string (escape_bytes (to_bytes s) 0 ++ byte_of 34 :: r) = Some (escape_bytes (to_bytes s) 0, r) /\
  of_bytes (unquote (escape_bytes (to_bytes s) 0) 0) = sanitize s.
Proof.
  split.
  - rewrite escape_bytes_scans. simpl. by rewrite app_nil_r.
  - unfold sanitize. by rewrite escape_bytes_unquote.
Qed.

(** ** Numbers *)

(** The bytes after a number: none of them could belong to it. *)
Definition stops (x : bytes) : Prop :=
  match x with
  | [] => True
  | c :: _ => is_digit c = false /\ Ascii.eqb c "." = false /\ Ascii.eqb c "e" = false /\ Ascii.eqb c "E" = false
  end.

Definition digits (l : bytes) : Prop := l <> [] /\ Forall (fun c => is_digit c = true) l.

Definition int_part (l : bytes) : Prop := l = ["0"%char] \/ digits l /\ head l <> Some "0"%char.
Definition frac_part (l : bytes) : Prop := l = [] \/ exists ds, digits ds /\ l = "."%char :: ds.
Definition exp_part (l : bytes) : Prop :=
  l = [] \/ exists s ds, (s = "+"%char \/ s = "-"%char) /\ digits ds /\ l = "e"%char :: s :: ds.

(** The grammar of a JSON number, as encoding/json writes it. *)
Definition unsigned_lit (l : bytes) : Prop :=
  exists i f e, int_part i /\ frac_part f /\ exp_part e /\ l = i ++ f ++ e.
Definition number_lit (l : bytes) : Prop :=
  exists m u, (m = [] \/ m = ["-"%char]) /\ unsigned_lit u /\ l = m ++ u.

Definition no_digit (x : bytes) : Prop := match x with [] => True | c :: _ => is_digit c = false end.

Lemma skip_digits_app ds x : Forall (fun c => is_digit c = true) ds -> no_digit x -> skip_digits (ds ++ x) = x.
Proof.
  intros Hd Hx. induction Hd as [|c ds Hc _ IH]; simpl; [|by rewrite Hc].
  destruct x as [|c x]; [done|]. simpl in Hx |- *. by rewrite Hx.
Qed.

Lemma digits1_app ds x : digits ds -> no_digit x -> digits1 (ds ++ x) = Some x.
Proof.
  intros [Hne Hd] Hx. destruct ds as [|c ds]; [done|]. apply Forall_cons in Hd as [Hc Hd].
  cbn [app digits1]. by rewrite Hc, skip_digits_app.
Qed.

Lemma stops_no_digit x : stops x -> no_digit x.
Proof. destruct x; [done|]. by intros [? _]. Qed.

Lemma digit_not_e c : is_digit c = true -> Ascii.eqb c "." = false /\ Ascii.eqb c "-" = false.
Proof. intros H. split; apply Ascii.eqb_neq; by intros ->. Qed.

Lemma scan_number_lit l x : number_lit l -> stops x -> scan_number (l ++ x) = Some x.
Proof.
  intros (m & u & Hm & (i & f & e & Hi & Hf & He & ->) & ->) Hx. pose proof (stops_no_digit _ Hx) as Hnd.
  assert (Hex : scan_exponent (e ++ x) = Some x).
  { destruct He as [->|(s & ds & Hs & Hds & ->)].
    - destruct x as [|c x]; [done|]. destruct Hx as (_ & _ & H1 & H2). cbn [app scan_exponent]. by rewrite H1, H2.
    - rewrite <-!app_comm_cons. destruct Hs as [-> | ->]; cbn; by apply digits1_app. }
  assert (He' : no_digit (e ++ x) /\ match e ++ x with [] => True | c :: _ => Ascii.eqb c "." = false end).
  { destruct He as [->|(s & ds & Hs & Hds & ->)]; [|done]. destruct x; [done|]. by destruct Hx as (? & ? & _). }
  assert (Hfr : scan_fraction ((f ++ e) ++ x) = Some (e ++ x)).
  { destruct Hf as [->|(ds & Hds & ->)]; rewrite <-app_assoc.
    - cbn [app]. destruct He' as [_ He']. destruct (e ++ x) as [|c y]; [done|]. cbn [scan_fraction]. by rewrite He'.
    - rewrite <-app_comm_cons. cbn. apply digits1_app; [done|apply He']. }
  assert (Hnf : no_digit ((f ++ e) ++ x)).
  { rewrite <-app_assoc. destruct Hf as [->|(ds & Hds & ->)]; [apply He'|done]. }
  assert (Hint : scan_integer ((i ++ f ++ e) ++ x) = Some ((f ++ e) ++ x)).
  { rewrite <-app_assoc. destruct Hi as [->|[Hd Hh]]; [done|].
    destruct i as [|c i]; [by destruct Hd|]. cbn [app scan_integer].
    destruct (Ascii.eqb_spec c "0") as [->|_]; [done|]. by apply (digits1_app (c :: i)). }
  assert (Hdm : drop_minus ((m ++ i ++ f ++ e) ++ x) = (i ++ f ++ e) ++ x).
  { destruct Hm as [-> | ->]; [|done]. destruct Hi as [->|[[Hne Hd] _]]; [done|].
    destruct i as [|c i]; [done|]. apply Forall_cons in Hd as [Hc _]. cbn [app drop_minus].
    by rewrite (proj2 (digit_not_e c Hc)). }
  unfold scan_number. rewrite Hdm, Hint. cbn [mbind option_bind]. rewrite Hfr. done.
Qed.

Lemma number_lit_head l : number_lit l -> exists c l', l = c :: l' /\ (c = "-"%char \/ is_digit c = true).
Proof.
  intros (m & u & [-> | ->] & (i & f & e & Hi & _ & _ & ->) & ->); [|by eexists _, _; split; [|left]].
  destruct Hi as [->|[[Hne Hd] _]]; [by eexists _, _; split; [|right]|].
  destruct i as [|c i]; [done|]. apply Forall_cons in Hd as [Hc _]. by eexists _, _; split; [|right].
Qed.

Lemma int_part_pos p : int_part (to_bytes (pretty (Npos p))).
Proof.
  right. destruct (pretty_pos_head p) as (c & l & E & _ & H0). split.
  - split; [by rewrite E|apply pretty_N_digits].
  - rewrite E. simpl. congruence.
Qed.

Lemma unsigned_lit_int i : int_part i -> unsigned_lit i.
Proof. intros Hi. exists i, [], []. split_and!; [done|by left|by left|]. by rewrite !app_nil_r. Qed.

Lemma number_lit_int m i : (m = [] \/ m = ["-"%char]) -> int_part i -> number_lit (m ++ i).
Proof. intros Hm Hi. exists m, i. split_and!; [done|by apply unsigned_lit_int|done]. Qed.

Lemma number_lit_Z (n : Z) : number_lit (to_bytes (pretty n)).
Proof.
  destruct n as [|p|p].
  - by apply (number_lit_int [] ["0"%char]); left.
  - apply (number_lit_int []); [by left|apply int_part_pos].
  - unfold pretty, pretty_Z. rewrite to_bytes_app. apply number_lit_int; [by right|apply (int_part_pos p)].
Qed.

(** *** Floats *)

Lemma floor_dec_nonneg m q k : (0 < m)%Z -> (0 <= floor_dec m q k)%Z.
Proof.
  intros Hm. unfold floor_dec. apply Z.div_pos.
  - repeat apply Z.mul_nonneg_nonneg; try lia; apply Z.pow_nonneg; lia.
  - apply Z.mul_pos_pos; apply Z.pow_pos_nonneg; lia.
Qed.

(** Zero is below the interval of reals that round to a positive float. *)
Lemma inside_pos m q d k : (0 < m)%Z -> (0 <= d)%Z -> inside m q d k = true -> (0 < d)%Z.
Proof.
  intros Hm Hd Hin. destruct (decide (d = 0)%Z) as [->|]; [|lia]. exfalso. revert Hin.
  assert (Hc : forall x, (0 < x)%Z -> cmp_dec q x 0 k = Gt).
  { intros x Hx. unfold cmp_dec. rewrite Z.compare_gt_iff, !Z.mul_0_l.
    repeat apply Z.mul_pos_pos; try lia; apply Z.pow_pos_nonneg; lia. }
  unfold inside. rewrite !Hc; [done|lia|]. destruct (m =? 2 ^ 52)%Z; lia.
Qed.

Lemma shortest_from_pos m q fuel p n : (0 < m)%Z -> (0 < (shortest_from m q fuel p n).1)%Z.
Proof.
  intros Hm. revert n. induction fuel as [|fuel IH]; intros n; cbn [shortest_from].
  - pose proof (floor_dec_nonneg m q (p - n) Hm). simpl. lia.
  - pose proof (floor_dec_nonneg m q (p - n) Hm) as Hlo.
    destruct (inside m q (floor_dec m q (p - n)) (p - n)) eqn:E1;
      destruct (inside m q (floor_dec m q (p - n) + 1) (p - n)) eqn:E2; [| | |apply IH].
    + apply inside_pos in E1; [|lia..]. repeat case_match; simpl; lia.
    + apply inside_pos in E1; [|lia..]. done.
    + simpl. lia.
Qed.

Lemma strip_zeros_pos fuel d k : (0 < d)%Z -> (0 < (strip_zeros fuel d k).1)%Z.
Proof.
  revert d k. induction fuel as [|fuel IH]; intros d k Hd; [done|]. cbn [strip_zeros].
  destruct (Z.eqb_spec (d mod 10) 0); [|done]. apply IH.
  pose proof (Z.div_mod d 10 ltac:(lia)). lia.
Qed.

Lemma shortest_decimal_pos m e : (0 < (shortest_decimal m e).1)%Z.
Proof.
  unfold shortest_decimal. cbv zeta.
  match goal with |- context [shortest_from ?a ?b ?c ?d ?f] =>
    pose proof (shortest_from_pos a b c d f ltac:(lia)) as H; destruct (shortest_from a b c d f) as [x k] end.
  by apply strip_zeros_pos.
Qed.

Lemma digits_app_l a b : digits a -> Forall (fun c => is_digit c = true) b -> digits (a ++ b).
Proof. intros [H1 H2] Hb. split; [by destruct a|]. by apply Forall_app. Qed.

Lemma zeros_digits n : Forall (fun c => is_digit c = true) (zeros n).
Proof. unfold zeros. by apply Forall_replicate. Qed.

Lemma int_part_grow a b : int_part a -> a <> ["0"%char] -> Forall (fun c => is_digit c = true) b -> int_part (a ++ b).
Proof.
  intros [->|[Hd Hh]] Hn Hb; [done|]. right. split; [by apply digits_app_l|]. by destruct a; [destruct Hd|].
Qed.

Lemma digits_Z n : (0 <= n)%Z -> digits (to_bytes (pretty n)).
Proof.
  destruct n as [|q|q]; intros H; [by split; [|repeat constructor]| |lia].
  destruct (pretty_pos_head q) as (c & l & E & _). change (pretty (Z.pos q)) with (pretty (Npos q)).
  split; [by rewrite E|apply pretty_N_digits].
Qed.

Lemma exp_part_Z n :
  exp_part (to_bytes "e" ++ (if (0 <=? n)%Z then to_bytes "+" else []) ++ to_bytes (pretty n)).
Proof.
  right. destruct (Z.leb_spec 0 n) as [Hp|Hp].
  - exists "+"%char, (to_bytes (pretty n)). split_and!; [by left|by apply digits_Z|done].
  - destruct n as [|q|q]; [lia..|]. exists "-"%char, (to_bytes (pretty (Z.pos q))).
    split_and!; [by right|by apply digits_Z|done].
Qed.

Lemma format_pos_lit m e : unsigned_lit (format_pos m e).
Proof.
  unfold format_pos. pose proof (shortest_decimal_pos m e) as Hpos.
  destruct (shortest_decimal m e) as [d k]. simpl in Hpos. destruct d as [|p|p]; [lia| |lia].
  change (pretty (Z.pos p)) with (pretty (Npos p)). set (ds := to_bytes (pretty (Npos p))).
  destruct (pretty_pos_head p) as (c & l & E & Hc & H0). fold ds in E.
  assert (Hall : Forall (fun c => is_digit c = true) ds) by apply pretty_N_digits.
  assert (Hint : int_part [c]) by (right; split; [by split; [|constructor]|simpl; congruence]).
  set (n := Z.of_nat (length ds)). set (pt := (n + k)%Z).
  assert (Hl : Forall (fun c => is_digit c = true) l) by (rewrite E in Hall; by inversion Hall).
  destruct ((pt <=? -6) || (22 <=? pt))%Z.
  { exists [c], (if (n =? 1)%Z then [] else to_bytes "." ++ drop 1 ds),
      (to_bytes "e" ++ (if (0 <=? pt - 1)%Z then to_bytes "+" else []) ++ to_bytes (pretty (pt - 1)%Z)).
    split_and!; [done| |apply exp_part_Z|by rewrite E].
    destruct (Z.eqb_spec n 1) as [|Hn]; [by left|]. right. exists l. split; [|by rewrite E].
    split; [|done]. intros ->. unfold n in Hn. by rewrite E in Hn. }
  destruct (Z.leb_spec pt 0) as [Hp|Hp].
  { exists ["0"%char], ("."%char :: zeros (- pt) ++ ds), []. split_and!; [by left| |by left|by rewrite app_nil_r].
    right. exists (zeros (- pt) ++ ds). split; [|done]. split; [|by apply Forall_app; split; [apply zeros_digits|]].
    rewrite E. by destruct (zeros (- pt)). }
  destruct (Z.leb_spec n pt) as [Hq|Hq].
  { apply unsigned_lit_int, int_part_grow; [apply int_part_pos|fold ds; rewrite E; congruence|apply zeros_digits]. }
  exists (take (Z.to_nat pt) ds), ("."%char :: drop (Z.to_nat pt) ds), [].
  assert (exists j, Z.to_nat pt = S j) as [j Hj] by (exists (Z.to_nat pt - 1); lia).
  split_and!; [| |by left|by rewrite app_nil_r].
  - rewrite Hj, E. simpl. apply (int_part_grow [c]); [done|congruence|by apply Forall_take].
  - right. exists (drop (Z.to_nat pt) ds). split; [|done]. split; [|by apply Forall_drop].
    intros Hd. apply (f_equal length) in Hd. rewrite length_drop in Hd. simpl in Hd. lia.
Qed.

Lemma format_float_lit x b : format_float x = Some b -> number_lit b.
Proof.
  destruct x as [[]|[]| |[] m e]; intros [= <-].
  - by apply (number_lit_int ["-"%char] ["0"%char]); [right|left].
  - by apply (number_lit_int [] ["0"%char]); left.
  - exists ["-"%char], (format_pos m e). split_and!; [by right|apply format_pos_lit|done].
  - exists [], (format_pos m e). split_and!; [by left|apply format_pos_lit|done].
Qed.

(** ** Values *)

Section json_induction.
Variable P : json -> Prop.
Hypothesis HStr : forall s, P (JStr s).
Hypothesis HInt : forall n, P (JInt n).
Hypothesis HFloat : forall x, P (JFloat x).
Hypothesis HBool : forall b, P (JBool b).
Hypothesis HArr : forall l, Forall P l -> P (JArr l).
Hypothesis HObj : forall fs, Forall (fun kv => P kv.2) fs -> P (JObj fs).

Fixpoint json_nested_ind (v : json) : P v :=
  match v with
  | JStr s => HStr s
  | JInt n => HInt n
  | JFloat x => HFloat x
  | JBool b => HBool b
  | JArr l => HArr l ((fix go l := match l return Forall P l with
                                    | [] => Forall_nil_2 P
                                    | v :: l => Forall_cons_2 P v l (json_nested_ind v) (go l) end) l)
  | JObj fs => HObj fs ((fix go fs := match fs return Forall (fun kv => P kv.2) fs with
                                       | [] => Forall_nil_2 _
                                       | kv :: fs => Forall_cons_2 _ kv fs (json_nested_ind kv.2) (go fs) end) fs)
  end.
End json_induction.

Lemma oseq_Some {A B} (f : A -> option B) l es : oseq (map f l) = Some es -> Forall2 (fun x e => f x = Some e) l es.
Proof.
  revert es. induction l as [|x l IH]; intros es H; simpl in H; [by simplify_eq|].
  destruct (f x) as [e|] eqn:E; [|done]. destruct (oseq (map f l)) as [es'|]; [|done].
  simpl in H. simplify_eq. constructor; auto.
Qed.

Lemma skip_ws_id c l : is_json_ws c = false -> skip_ws (c :: l) = c :: l.
Proof. intros H. simpl. by rewrite H. Qed.

(** The first byte of a value tells its kind. *)
Definition starts_value (b : bytes) : Prop :=
  exists c l, b = c :: l /\ is_json_ws c = false /\ Ascii.eqb c "]" = false /\ Ascii.eqb c "}" = false.

Lemma number_head_starts c : c = "-"%char \/ is_digit c = true ->
  is_json_ws c = false /\ Ascii.eqb c "]" = false /\ Ascii.eqb c "}" = false /\
  Ascii.eqb c (byte_of 34) = false /\ Ascii.eqb c "{" = false /\ Ascii.eqb c "[" = false /\
  Ascii.eqb c "t" = false /\ Ascii.eqb c "f" = false /\ Ascii.eqb c "n" = false.
Proof.
  intros [->|H]; [by vm_compute|].
  destruct c as [[] [] [] [] [] [] [] []]; try discriminate H; by vm_compute.
Qed.

Lemma parse_number fuel depth lit rest :
  number_lit lit -> stops rest -> 0 < fuel ->
  parse_value fuel depth (lit ++ rest) = Some (TNum lit, rest).
Proof.
  intros Hl Hr Hf. destruct fuel as [|k]; [lia|]. pose proof (scan_number_lit _ _ Hl Hr) as Hs.
  destruct (number_lit_head _ Hl) as (c & l & -> & Hc).
  destruct (number_head_starts c Hc) as (Hw & _ & _ & H1 & H2 & H3 & H4 & H5 & H6).
  rewrite <-app_comm_cons in *. cbn [parse_value]. rewrite skip_ws_id by done. rewrite H1, H2, H3, H4, H5, H6, Hs.
  cbn [mbind option_bind]. f_equal. f_equal. f_equal.
  change (c :: l ++ rest) with ((c :: l) ++ rest). rewrite length_app, Nat.add_sub. apply take_app_length.
Qed.

Lemma Marshal_starts v b : Marshal v = Some b -> starts_value b /\ 0 < length b.
Proof.
  intros H. enough (Hs : starts_value b). { split; [done|]. destruct Hs as (c & l & -> & _). simpl. lia. }
  assert (Hnum : forall lit, number_lit lit -> starts_value lit).
  { intros lit Hl. destruct (number_lit_head _ Hl) as (c & l & -> & Hc).
    destruct (number_head_starts c Hc) as (? & ? & ? & _). by exists c, l. }
  destruct v as [s|n|x|[]|l|fs]; cbn [Marshal] in H; try (injection H as <-).
  - by eexists _, _.
  - apply Hnum, number_lit_Z.
  - by apply Hnum, (format_float_lit x).
  - by eexists _, _.
  - by eexists _, _.
  - destruct (oseq _); simplify_eq/=. by eexists _, _.
  - destruct (oseq _); simplify_eq/=. by eexists _, _.
Qed.

(** What the induction proves of a value. *)
Definition parses (v : json) : Prop :=
  forall b fuel depth rest, Marshal v = Some b -> 2 * length b <= fuel -> depth + nesting v <= maxNestingDepth ->
    stops rest -> parse_value fuel depth (b ++ rest) = Some (tree_of v, rest).

Lemma sep_by_cons sep x y l : sep_by sep (x :: y :: l) = x ++ sep ++ sep_by sep (y :: l).
Proof. simpl. by rewrite <-app_assoc. Qed.

Lemma max_list_le x l n : x ∈ l -> max_list l <= n -> x <= n.
Proof. intros Hx Hm. pose proof (max_list_elem_of_le x l Hx). lia. Qed.

Lemma parse_elements_Marshal l es fuel depth rest :
  l <> [] -> Forall parses l -> Forall2 (fun v e => Marshal v = Some e) l es ->
  2 * length (sep_by (to_bytes ",") es) + 1 <= fuel -> Forall (fun v => depth + nesting v <= maxNestingDepth) l ->
  parse_elements fuel depth (sep_by (to_bytes ",") es ++ "]"%char :: rest) = Some (map tree_of l, rest).
Proof.
  intros Hne Hp Hes. revert fuel Hne Hp.
  induction Hes as [|v e l es Hv Hes IH]; intros fuel Hne Hp Hf Hd; [done|].
  apply Forall_cons in Hp as [Hpv Hp]. apply Forall_cons in Hd as [Hdv Hd].
  destruct fuel as [|k]; [lia|]. cbn [parse_elements].
  destruct Hes as [|v' e' l es Hv' Hes].
  - cbn [sep_by fmap list_fmap mjoin list_join] in Hf |- *. rewrite app_nil_r in Hf |- *.
    rewrite (Hpv e) by (done || lia). done.
  - rewrite sep_by_cons in Hf |- *. rewrite !length_app in Hf. change (length (to_bytes ",")) with 1 in Hf. pose proof (proj2 (Marshal_starts _ _ Hv)).
    rewrite <-app_assoc, (Hpv e) by (done || lia). cbn [mbind option_bind].
    change (to_bytes ",") with [","%char]. rewrite <-app_assoc. cbn [app skip_ws]. change (is_json_ws ",") with false.
    cbv iota. change (Ascii.eqb "," ",") with true. cbv iota.
    change [","%char] with (to_bytes ","). rewrite IH by (done || lia). done.
Qed.

Lemma Marshal_Arr l b : Marshal (JArr l) = Some b ->
  exists es, b = "["%char :: sep_by (to_bytes ",") es ++ ["]"%char] /\ Forall2 (fun v e => Marshal v = Some e) l es.
Proof.
  cbn [Marshal]. destruct (oseq _) as [es|] eqn:E; [|done]. intros [= <-]. exists es. split; [done|by apply oseq_Some].
Qed.

Lemma parse_Arr l : Forall parses l -> parses (JArr l).
Proof.
  intros Hp b fuel depth rest Hb Hf Hd Hr. apply Marshal_Arr in Hb as (es & -> & Hes).
  cbn [length] in Hf. rewrite length_app in Hf. cbn [length] in Hf. destruct fuel as [|k]; [lia|].
  cbn [nesting] in Hd. rewrite <-app_comm_cons, <-app_assoc. cbn [app parse_value].
  rewrite skip_ws_id by done. cbn [tree_of].
  change (Ascii.eqb "[" (byte_of 34)) with false. change (Ascii.eqb "[" "{") with false. change (Ascii.eqb "[" "[") with true.
  cbv iota. rewrite (proj2 (Nat.leb_gt _ _)) by lia.
  destruct Hes as [|v e l es Hv Hes]; [done|].
  assert (Hst : starts_value (sep_by (to_bytes ",") (e :: es) ++ "]"%char :: rest)).
  { destruct (Marshal_starts _ _ Hv) as [(c & x & -> & ?) _]. simpl. by eexists _, _. }
  destruct Hst as (c & x & E & Hw & Hc & _). rewrite E, skip_ws_id, Hc, <-E by done. cbv iota.
  rewrite (parse_elements_Marshal (v :: l)); [done|done|done|by constructor|simpl in Hf |- *; lia|].
  apply Forall_forall. intros w Hw'. assert (nesting w <= maxNestingDepth - S depth); [|lia].
  eapply (max_list_le _ (map nesting (v :: l))); [|lia]. by apply list_elem_of_fmap_2.
Qed.

(** The text of one member. *)
Definition member_text (kv : string * json) (t : bytes) : Prop :=
  exists e, Marshal kv.2 = Some e /\ t = quote_string kv.1 ++ to_bytes ":" ++ e.

Lemma quote_string_eq s r : quote_string s ++ r = byte_of 34 :: escape_bytes (to_bytes s) 0 ++ byte_of 34 :: r.
Proof. unfold quote_string. by rewrite <-!app_assoc. Qed.

(** A member is read up to the byte after its value. *)
Lemma parse_member_head kv t rest :
  member_text kv t -> parses kv.2 ->
  exists e, Marshal kv.2 = Some e /\ length t = length (escape_bytes (to_bytes kv.1) 0) + 3 + length e /\
    t ++ rest = byte_of 34 :: escape_bytes (to_bytes kv.1) 0 ++ byte_of 34 :: ":"%char :: e ++ rest.
Proof.
  intros (e & He & ->) _. exists e. split; [done|]. split.
  - rewrite (quote_string_eq kv.1 (to_bytes ":" ++ e)). simpl. rewrite length_app. simpl. lia.
  - rewrite <-app_assoc, quote_string_eq, <-app_assoc. done.
Qed.

Lemma parse_members_Marshal fs ts fuel depth rest :
  fs <> [] -> Forall (fun kv => parses kv.2) fs -> Forall2 member_text fs ts ->
  2 * length (sep_by (to_bytes ",") ts) + 1 <= fuel ->
  Forall (fun kv => depth + nesting kv.2 <= maxNestingDepth) fs ->
  parse_members fuel depth (sep_by (to_bytes ",") ts ++ "}"%char :: rest) =
  Some (map (fun kv => (sanitize kv.1, tree_of kv.2)) fs, rest).
Proof.
  intros Hne Hp Hts. revert fuel Hne Hp.
  induction Hts as [|kv t fs ts Ht Hts IH]; intros fuel Hne Hp Hf Hd; [done|].
  apply Forall_cons in Hp as [Hpv Hp]. apply Forall_cons in Hd as [Hdv Hd].
  destruct fuel as [|k]; [lia|]. cbn [parse_members].
  assert (Hlast : exists sep tl, sep_by (to_bytes ",") (t :: ts) ++ "}"%char :: rest = t ++ sep :: tl /\ stops (sep :: tl) /\
    is_json_ws sep = false /\ 2 * length t <= k /\
    (if Ascii.eqb sep ","
     then '(fs, r) ← parse_members k depth tl; Some ((sanitize kv.1, tree_of kv.2) :: fs, r)
     else if Ascii.eqb sep "}" then Some ([(sanitize kv.1, tree_of kv.2)], tl) else None) =
    Some (map (fun kv => (sanitize kv.1, tree_of kv.2)) (kv :: fs), rest)).
  { destruct Hts as [|kv' t' fs ts Ht' Hts].
    - exists "}"%char, rest. cbn [sep_by fmap list_fmap mjoin list_join] in Hf |- *. rewrite app_nil_r in Hf |- *.
      split_and!; [done|done|done|lia|done].
    - rewrite sep_by_cons in Hf |- *. rewrite !length_app in Hf. change (length (to_bytes ",")) with 1 in Hf.
      exists ","%char, (sep_by (to_bytes ",") (t' :: ts) ++ "}"%char :: rest).
      split_and!; [by rewrite <-!app_assoc|done|done|lia|]. change (Ascii.eqb "," ",") with true. cbv iota.
      rewrite IH by (done || lia). done. }
  destruct Hlast as (sep & tl & -> & Hst & Hws & Hk & Hrest).
  destruct (parse_member_head kv t (sep :: tl) Ht Hpv) as (e & He & Hlen & ->).
  rewrite skip_ws_id by done. change (negb (Ascii.eqb (byte_of 34) (byte_of 34))) with false. cbv iota.
  destruct (scan_quoted kv.1 (":"%char :: e ++ sep :: tl)) as [-> Hu]. cbn [mbind option_bind].
  rewrite skip_ws_id by done. change (negb (Ascii.eqb ":" ":")) with false. cbv iota.
  rewrite (Hpv e) by (done || lia). cbn [mbind option_bind]. rewrite skip_ws_id by done. rewrite Hu. exact Hrest.
Qed.

Lemma Marshal_Obj fs b : Marshal (JObj fs) = Some b ->
  exists ts, b = "{"%char :: sep_by (to_bytes ",") ts ++ ["}"%char] /\ Forall2 member_text fs ts.
Proof.
  cbn [Marshal]. destruct (oseq _) as [es|] eqn:E; [|done]. intros [= <-]. exists es. split; [done|].
  apply oseq_Some in E. eapply Forall2_impl; [exact E|]. intros kv t H. cbv beta in H.
  destruct (Marshal kv.2) as [e|] eqn:Ee; [|done]. injection H as <-. by exists e.
Qed.

Lemma parse_Obj fs : Forall (fun kv => parses kv.2) fs -> parses (JObj fs).
Proof.
  intros Hp b fuel depth rest Hb Hf Hd Hr. apply Marshal_Obj in Hb as (ts & -> & Hts).
  cbn [length] in Hf. rewrite length_app in Hf. cbn [length] in Hf. destruct fuel as [|k]; [lia|].
  cbn [nesting] in Hd. rewrite <-app_comm_cons, <-app_assoc. cbn [app parse_value].
  rewrite skip_ws_id by done. cbn [tree_of].
  change (Ascii.eqb "{" (byte_of 34)) with false. change (Ascii.eqb "{" "{") with true.
  cbv iota. rewrite (proj2 (Nat.leb_gt _ _)) by lia.
  destruct Hts as [|kv t fs ts Ht Hts]; [done|].
  assert (exists x, sep_by (to_bytes ",") (t :: ts) ++ "}"%char :: rest = byte_of 34 :: x) as [x E].
  { destruct Ht as (e & _ & ->). simpl. by eexists. }
  rewrite E, skip_ws_id, <-E by done. change (Ascii.eqb (byte_of 34) "}") with false. cbv iota.
  rewrite (parse_members_Marshal (kv :: fs)); [done|done|done|by constructor|lia|].
  apply Forall_forall. intros w Hw'. assert (nesting w.2 <= maxNestingDepth - S depth); [|lia].
  eapply (max_list_le _ (map (fun kv => nesting kv.2) (kv :: fs))); [|lia].
  change (nesting w.2) with ((fun kv : string * json => nesting kv.2) w). by apply list_elem_of_fmap_2.
Qed.

Lemma parse_Marshal v : parses v.
Proof.
  induction v as [s|n|x|b|l Hl|fs Hfs] using json_nested_ind.
  - intros b fuel depth rest [= <-] Hf _ _. simpl in Hf. destruct fuel as [|k]; [lia|].
    rewrite quote_string_eq. cbn [parse_value]. rewrite skip_ws_id by done.
    change (Ascii.eqb (byte_of 34) (byte_of 34)) with true. cbv iota.
    destruct (scan_quoted s rest) as [-> Hu]. cbn [mbind option_bind tree_of]. by rewrite Hu.
  - intros b fuel depth rest [= <-] Hf _ Hr. apply parse_number; [apply number_lit_Z|done|].
    pose proof (proj2 (Marshal_starts (JInt n) (to_bytes (pretty n)) eq_refl)). lia.
  - intros b fuel depth rest Hb Hf _ Hr. cbn [tree_of]. cbn [Marshal] in Hb. rewrite Hb.
    apply parse_number; [by apply (format_float_lit x)|done|].
    pose proof (proj2 (Marshal_starts (JFloat x) b Hb)). lia.
  - intros bs fuel depth rest [= <-] Hf _ _. destruct fuel as [|k]; destruct b; (simpl in Hf; lia) || done.
  - by apply parse_Arr.
  - by apply parse_Obj.
Qed.

(** The bytes of [Marshal] parse back as the value's tree. *)
Lemma Parse_Marshal v b : Marshal v = Some b -> nesting v <= maxNestingDepth -> Parse b = Some (tree_of v).
Proof.
  intros Hb Hn. unfold Parse, DecodeNext.
  pose proof (parse_Marshal v b (2 * length b + 2) 0 [] Hb ltac:(lia) ltac:(lia) I) as H.
  rewrite app_nil_r in H. by rewrite H.
Qed.

(** ** The fuel is enough

    A value and what follows it are read with no more fuel than twice the bytes
    left, so giving [parse_value] more changes no answer. *)

Lemma skip_ws_length l : length (skip_ws l) <= length l.
Proof. induction l as [|c l IH]; [done|]. simpl. destruct (is_json_ws c); simpl; lia. Qed.

Lemma scan_string_length l x r : scan_string l = Some (x, r) -> length r < length l.
Proof.
  revert x r. induction (well_founded_ltof _ (@length ascii) l) as [l _ IH]. unfold ltof in IH. intros x r.
  destruct l as [|c l]; [done|]. cbn [scan_string].
  assert (Hrec : forall l', length l' <= length l -> forall f, ('(y, s) ← scan_string l'; Some (f y, s)) = Some (x, r) ->
    length r < length (c :: l)).
  { intros l' Hl f H. destruct (scan_string l') as [[y s]|] eqn:E; [|done]. injection H as _ <-.
    apply IH in E; simpl in *; lia. }
  destruct (Ascii.eqb c (byte_of 34)); [intros [= _ <-]; simpl; lia|].
  destruct (Ascii.eqb c (byte_of 92)).
  - destruct l as [|d l2]; [done|]. destruct (Ascii.eqb d "u").
    + destruct l2 as [|h1 [|h2 [|h3 [|h4 l3]]]]; try done. destruct (_ && _); [|done].
      apply (Hrec l3 ltac:(simpl; lia) (fun x => c :: d :: h1 :: h2 :: h3 :: h4 :: x)).
    + destruct (simple_escape d); [|done]. apply (Hrec l2 ltac:(simpl; lia) (fun x => c :: d :: x)).
  - destruct (code c <? 32)%N; [done|]. by apply (Hrec l ltac:(lia) (fun x => c :: x)).
Qed.

Lemma skip_digits_length l : length (skip_digits l) <= length l.
Proof. induction l as [|c l IH]; [done|]. simpl. destruct (is_digit c); simpl; lia. Qed.

Lemma digits1_length l r : digits1 l = Some r -> length r < length l.
Proof.
  destruct l as [|c l]; [done|]. simpl. destruct (is_digit c); [|done]. intros [= <-].
  pose proof (skip_digits_length l). lia.
Qed.

Lemma scan_number_length l r : scan_number l = Some r -> length r < length l.
Proof.
  unfold scan_number. assert (H0 : length (drop_minus l) <= length l).
  { destruct l as [|c l]; [done|]. simpl. destruct (Ascii.eqb c "-"); simpl; lia. }
  destruct (scan_integer (drop_minus l)) as [l1|] eqn:E1; [|done].
  assert (H1 : length l1 < length (drop_minus l)).
  { destruct (drop_minus l) as [|c l']; [done|]. cbn [scan_integer] in E1.
    destruct (Ascii.eqb c "0"); [injection E1 as <-; simpl; lia|by apply digits1_length]. }
  cbn [mbind option_bind]. destruct (scan_fraction l1) as [l2|] eqn:E2; [|done]. cbn [mbind option_bind]. intros E3.
  assert (H2 : length l2 <= length l1).
  { destruct l1 as [|c l1]; [by injection E2 as <-|]. cbn [scan_fraction] in E2.
    destruct (Ascii.eqb c "."); [apply digits1_length in E2; simpl; lia|by injection E2 as <-]. }
  assert (H3 : length r <= length l2); [|lia].
  destruct l2 as [|c l2]; [by injection E3 as <-|]. cbn [scan_exponent] in E3.
  destruct (Ascii.eqb c "e" || Ascii.eqb c "E"); [|by injection E3 as <-]. destruct l2 as [|d l2]; [done|].
  destruct (Ascii.eqb d "+" || Ascii.eqb d "-"); apply digits1_length in E3; simpl in *; lia.
Qed.

Lemma literal_length w t l v r : w <> "" -> literal w t l = Some (v, r) -> length r < length l.
Proof.
  intros Hw. unfold literal. destruct (is_prefix (to_bytes w) l) eqn:E; [|done]. intros [= _ <-].
  apply is_prefix_spec in E as [k ->]. rewrite drop_app_length, length_app. destruct w; [done|]. simpl. lia.
Qed.

(** Each of the three parsers leaves fewer bytes than it was given. *)
Lemma parse_shrinks fuel :
  (forall d l v r, parse_value fuel d l = Some (v, r) -> length r < length l) /\
  (forall d l v r, parse_elements fuel d l = Some (v, r) -> length r < length l) /\
  (forall d l v r, parse_members fuel d l = Some (v, r) -> length r < length l).
Proof.
  induction fuel as [|k (IHv & IHe & IHm)]; [done|]. split_and!; intros d l v r.
  - cbn [parse_value]. pose proof (skip_ws_length l) as Hl. destruct (skip_ws l) as [|c l']; [done|].
    cbn [length] in Hl. intros H. enough (length r < length (c :: l')) by (cbn [length] in *; lia).
    repeat (match type of H with (if ?b then _ else _) = _ => destruct b end; try done).
    + destruct (scan_string l') as [[x s]|] eqn:E; [|done]. injection H as _ <-.
      apply scan_string_length in E. cbn [length]. lia.
    + pose proof (skip_ws_length l'). destruct (skip_ws l') as [|e s]; [done|]. cbn [length] in *. destruct (Ascii.eqb e "}").
      * injection H as _ <-. lia.
      * destruct (parse_members k (S d) (e :: s)) as [[fs q]|] eqn:E; [|done]. injection H as _ <-.
        apply IHm in E. cbn [length] in *. lia.
    + pose proof (skip_ws_length l'). destruct (skip_ws l') as [|e s]; [done|]. cbn [length] in *. destruct (Ascii.eqb e "]").
      * injection H as _ <-. lia.
      * destruct (parse_elements k (S d) (e :: s)) as [[fs q]|] eqn:E; [|done]. injection H as _ <-.
        apply IHe in E. cbn [length] in *. lia.
    + by apply literal_length in H.
    + by apply literal_length in H.
    + by apply literal_length in H.
    + destruct (scan_number (c :: l')) as [q|] eqn:E; [|done]. injection H as _ <-. by apply scan_number_length.
  - cbn [parse_elements]. destruct (parse_value k d l) as [[w q]|] eqn:E; [|done]. cbn [mbind option_bind].
    apply IHv in E. pose proof (skip_ws_length q). destruct (skip_ws q) as [|c q']; [done|]. cbn [length] in *.
    destruct (Ascii.eqb c ","); [|destruct (Ascii.eqb c "]"); [|done]; intros [= _ <-]; lia].
    destruct (parse_elements k d q') as [[vs s]|] eqn:E2; [|done]. intros [= _ <-]. apply IHe in E2. lia.
  - cbn [parse_members]. pose proof (skip_ws_length l). destruct (skip_ws l) as [|c l']; [done|]. cbn [length] in *.
    destruct (negb _); [done|]. destruct (scan_string l') as [[x s]|] eqn:Es; [|done]. cbn [mbind option_bind].
    apply scan_string_length in Es. pose proof (skip_ws_length s). destruct (skip_ws s) as [|e s']; [done|]. cbn [length] in *.
    destruct (negb _); [done|]. destruct (parse_value k d s') as [[w q]|] eqn:E; [|done]. cbn [mbind option_bind].
    apply IHv in E. pose proof (skip_ws_length q). destruct (skip_ws q) as [|g q']; [done|]. cbn [length] in *.
    destruct (Ascii.eqb g ","); [|destruct (Ascii.eqb g "}"); [|done]; intros [= _ <-]; lia].
    destruct (parse_members k d q') as [[vs t]|] eqn:E2; [|done]. intros [= _ <-]. apply IHm in E2. lia.
Qed.

(** Two fuels agree on texts of at most [m] twice-counted bytes. *)
Definition agree (n m : nat) : Prop :=
  (forall d l, 2 * length l + 1 <= m -> parse_value n d l = parse_value m d l) /\
  (forall d l, 2 * length l + 2 <= m -> parse_elements n d l = parse_elements m d l) /\
  (forall d l, 2 * length l + 2 <= m -> parse_members n d l = parse_members m d l).

Lemma agree_S n m : agree n m -> agree (S n) (S m).
Proof.
  intros (IHv & IHe & IHm). split_and!; intros d l Hf.
  - cbn [parse_value]. pose proof (skip_ws_length l) as Hl. destruct (skip_ws l) as [|c l']; [done|].
    cbn [length] in Hl. pose proof (skip_ws_length l') as Hl'. destruct (skip_ws l') as [|e s]; [done|].
    cbn [length] in Hl'. rewrite IHm, IHe by (cbn [length]; lia). done.
  - cbn [parse_elements]. rewrite IHv by lia. destruct (parse_value m d l) as [[w q]|] eqn:E; [|done].
    cbn [mbind option_bind]. apply (parse_shrinks m) in E. pose proof (skip_ws_length q).
    destruct (skip_ws q) as [|c q']; [done|]. cbn [length] in *. rewrite IHe by lia. done.
  - cbn [parse_members]. pose proof (skip_ws_length l). destruct (skip_ws l) as [|c l']; [done|]. cbn [length] in *.
    destruct (negb _); [done|]. destruct (scan_string l') as [[x s]|] eqn:Es; [|done]. cbn [mbind option_bind].
    apply scan_string_length in Es. pose proof (skip_ws_length s). destruct (skip_ws s) as [|e s']; [done|].
    cbn [length] in *. destruct (negb _); [done|]. rewrite IHv by lia.
    destruct (parse_value m d s') as [[w q]|] eqn:E; [|done]. cbn [mbind option_bind].
    apply (parse_shrinks m) in E. pose proof (skip_ws_length q). destruct (skip_ws q) as [|g q']; [done|].
    cbn [length] in *. rewrite IHm by lia. done.
Qed.

Lemma parse_fuel fuel : agree (S fuel) fuel.
Proof. induction fuel as [|k IH]; [split_and!; intros; lia|]. by apply agree_S. Qed.

(** [DecodeNext] answers what any larger fuel would. *)
Lemma DecodeNext_fuel l n : 2 * length l + 2 <= n -> parse_value n 0 l = DecodeNext l.
Proof.
  unfold DecodeNext. induction 1 as [|n Hn IH]; [done|]. rewrite <-IH. apply (parse_fuel n). lia.
Qed.

(** ** Valid UTF-8 is kept *)

Lemma sanitize_valid s : valid_utf8 s = true -> sanitize s = s.
Proof. unfold valid_utf8. by intros H%String.eqb_eq. Qed.

Lemma sanitize_ascii s : is_ascii s = true -> valid_utf8 s = true.
Proof.
  intros H. apply String.eqb_eq. unfold sanitize. rewrite <-(string_of_list_ascii_of_string s) at 2. f_equal.
  apply is_ascii_spec in H. induction H as [|c l Hc _ IH]; [done|]. rewrite sanitize_bytes_0.
  rewrite (proj2 (N.ltb_lt _ _) Hc). by rewrite IH.
Qed.
