(* ===== verification/Finding.v ===== *)
(** * The wire types and the closed vocabularies

    src/reconcile/finding.go, verification.go, source.go, severity.go,
    confidence.go, attribution.go and category.go: the records every stage passes
    on, the severity and confidence ladders, the fix-attribution tokens in a
    finding's evidence and the reviewer category vocabulary. *)

From Stdlib Require Import Ascii String.
From stdpp Require Import prelude strings gmap.
From Stdlib Require Import ZArith Lia.
From S2P Require Import Prelude GoString.

Open Scope string_scope.
Open Scope list_scope.

(** ** Records *)

(** [Verification]: the skeptic verdict block. *)
Record Verification := mkVerification {
  Verdict : string;
  Skeptic : string;
  Notes : string;
  ChallengeSurvived : bool;
  Truncated : bool;
}.

(** [Finding]. [Line] and [EstMinutes] are Go [int]s; [Verification_] is the
    [*Verification] pointer, [None] when nil. A nil and an empty [Reviewers]
    slice are not distinguished: no code of the package does. *)
Record Finding := mkFinding {
  Severity : string;
  File : string;
  Line : Z;
  Problem : string;
  Fix : string;
  Category : string;
  EstMinutes : Z;
  Evidence : string;
  Reviewer : string;
  Reviewers : list string;
  Confidence : string;
  Disagreement : string;
  Verification_ : option Verification;
}.

(** [Source]: a named origin and its findings. *)
Record Source := mkSource {
  Name : string;
  src_Findings : list Finding;
}.

#[export] Instance Verification_eq_dec : EqDecision Verification.
Proof. solve_decision. Defined.
#[export] Instance Finding_eq_dec : EqDecision Finding.
Proof. solve_decision. Defined.

(** The zero value of the struct. *)
#[export] Instance Finding_inhabited : Inhabited Finding :=
  populate (mkFinding "" "" 0 "" "" "" 0 "" "" [] "" "" None).

(** [f.Confidence = c] on a copy of [f]. *)
Definition set_Confidence (c : string) (f : Finding) : Finding :=
  mkFinding (Severity f) (File f) (Line f) (Problem f) (Fix f) (Category f) (EstMinutes f)
    (Evidence f) (Reviewer f) (Reviewers f) c (Disagreement f) (Verification_ f).

(** ** severity.go *)

Definition SevCritical := "CRITICAL".
Definition SevHigh := "HIGH".
Definition SevMedium := "MEDIUM".
Definition SevLow := "LOW".

(** The map literal [SeverityRank]. *)
Definition SeverityRank : gmap string Z :=
  {[ "CRITICAL" := 4; "HIGH" := 3; "MEDIUM" := 2; "LOW" := 1 ]}%Z.

(** Indexing a Go map with [int] values: an absent key reads 0. *)
Definition index0 (m : gmap string Z) (k : string) : Z := default 0%Z (m !! k).

Definition NormalizeSeverity {U : UnicodeCase} (s : string) : string := ToUpper (TrimSpace s).

(** ** verification.go *)

Definition VerdictConfirmed := "confirmed".
Definition VerdictRefuted := "refuted".
Definition VerdictUnverifiable := "unverifiable".

Definition Valid (v : Verification) : bool :=
  if (Verdict v =? VerdictConfirmed) || (Verdict v =? VerdictRefuted)
     || (Verdict v =? VerdictUnverifiable)
  then negb (Skeptic v =? "")
  else false.

(** ** confidence.go *)

Definition ConfHigh := "HIGH".
Definition ConfMedium := "MEDIUM".
Definition ConfLow := "LOW".
Definition ConfidenceVerified := "VERIFIED".

Definition ConfidenceForVerdict {U : UnicodeCase} (prior verdict : string) : string :=
  let v := ToLower (TrimSpace verdict) in
  if v =? VerdictConfirmed then ConfidenceVerified
  else if v =? VerdictRefuted then ConfLow
  else ToUpper (TrimSpace prior).

Definition confidenceRank : gmap string Z :=
  {[ ConfLow := 1; ConfMedium := 2; ConfHigh := 3; ConfidenceVerified := 4 ]}%Z.

Definition ConfidenceAtOrAbove {U : UnicodeCase} (c floor : string) : bool :=
  let cr := index0 confidenceRank (ToUpper (TrimSpace c)) in
  let fr := index0 confidenceRank (ToUpper (TrimSpace floor)) in
  if (cr =? 0)%Z || (fr =? 0)%Z then false else (fr <=? cr)%Z.

(** ** attribution.go *)

Definition EvidenceSep := "; ".
Definition FixAttributionPrefix := "fix by ".

Definition HasFixAttribution (evidence name : string) : bool :=
  if TrimSpace name =? "" then false
  else
    let attr := FixAttributionPrefix +:+ name in
    existsb (fun seg => TrimSpace seg =? attr) (Split evidence EvidenceSep).

Definition AppendFixAttribution (evidence name : string) : string :=
  if TrimSpace name =? "" then evidence
  else if HasFixAttribution evidence name then evidence
  else if TrimSpace evidence =? "" then FixAttributionPrefix +:+ name
  else evidence +:+ EvidenceSep +:+ FixAttributionPrefix +:+ name.

(** ** category.go *)

Definition CategoryCorrectness := "correctness".
Definition CategoryLogic := "logic".
Definition CategorySecurity := "security".
Definition CategorySecret := "secret".
Definition CategoryErrorHandling := "error-handling".
Definition CategoryInvariant := "invariant".
Definition CategoryInputValidation := "input-validation".
Definition CategoryResourceLeak := "resource-leak".
Definition CategoryMaintainability := "maintainability".
Definition CategoryNaming := "naming".
Definition CategoryOutOfScope := "out-of-scope".
Definition CategoryOther := "other".

(** The vocabulary, in the order it is offered to a reviewer. *)
Definition categories : list string :=
  [CategoryCorrectness; CategoryLogic; CategorySecurity; CategorySecret; "performance";
   "concurrency"; "race"; CategoryErrorHandling; "state"; CategoryInvariant; "type";
   "api-contract"; "contract"; "validation"; CategoryInputValidation; CategoryResourceLeak;
   "leak"; "dependency"; "configuration"; "coupling"; "complexity"; "bloat"; "duplication";
   "extensibility"; CategoryMaintainability; CategoryNaming; "style"; "observability";
   "testing"; "docs"; CategoryOutOfScope; CategoryOther].

(** The recorded folds from an emitted word to the member it means. *)
Definition categoryMerges : gmap string string :=
  {[ "resource" := CategoryResourceLeak;
     "resources" := CategoryResourceLeak;
     CategoryLogic := CategoryCorrectness;
     "bug" := CategoryCorrectness;
     "input" := CategoryInputValidation;
     "failure" := CategoryErrorHandling;
     "stability" := CategoryErrorHandling;
     "clarity" := CategoryMaintainability;
     "cleanliness" := CategoryMaintainability;
     "consistency" := CategoryNaming;
     "structure" := CategoryMaintainability ]}.

(** Both accessors return a copy of the package's table; values here are
    immutable, so a copied slice is the slice and a copied map is the loop that
    inserts every entry. *)
Definition CategoryMerges : gmap string string :=
  map_fold (fun word target out => <[word := target]> out) ∅ categoryMerges.
Definition Categories : list string := categories.

(** ** Attribution tokens *)

(** The token an attribution appends is left alone by [TrimSpace]. *)
Lemma trimmed_attribution name : name <> "" -> TrimSpace name = name ->
  TrimSpace (FixAttributionPrefix +:+ name) = FixAttributionPrefix +:+ name.
Proof.
  intros Hne Ht. assert (trimmed (to_bytes name)) as [_ Hr].
  { rewrite <- Ht. unfold TrimSpace. rewrite list_ascii_of_string_of_list_ascii. apply trim_trimmed. }
  assert (to_bytes (FixAttributionPrefix +:+ name) = to_bytes FixAttributionPrefix ++ to_bytes name) as Hb by done.
  unfold TrimSpace. rewrite Hb, trimmed_id; [by rewrite <- Hb; apply string_of_list_ascii_of_string|].
  split; [done|]. apply strip_any_None. intros p Hp. apply not_true_iff_false. rewrite reverse_app. intros Hpre.
  destruct (is_prefix_app_cases _ _ _ Hpre) as [Hin|(b & q & -> & Hq)].
  - by rewrite (proj1 (strip_any_None _ _) Hr p Hp) in Hin.
  - cbn in Hq. destruct (Ascii.eqb b " ") eqn:Eb; [|done]. apply Ascii.eqb_eq in Eb as ->.
    assert (reverse (to_bytes name) <> []) as Hrn.
    { intros Hn. apply (f_equal reverse) in Hn. rewrite reverse_involutive in Hn. by destruct name. }
    assert (Forall (fun p => " "%char ∉ tail p) (reverse <$> spaces)) as Hsp by (apply (bool_decide_eq_true_1 _); by vm_compute).
    rewrite Forall_forall in Hsp. apply (Hsp _ Hp). destruct (reverse (to_bytes name)) as [|x l]; [done|].
    simpl. apply elem_of_app. right. left.
Qed.

Definition attributions (evidence : string) : list string := TrimSpace <$> Split evidence EvidenceSep.

Lemma HasFixAttribution_iff evidence name :
  HasFixAttribution evidence name = true <->
  TrimSpace name <> "" /\ FixAttributionPrefix +:+ name ∈ attributions evidence.
Proof.
  unfold HasFixAttribution, attributions. destruct (String.eqb_spec (TrimSpace name) "") as [|Hn]; [split; [done|by intros []]|].
  rewrite existsb_exists, list_elem_of_fmap. split.
  - intros (x & Hx & Heq%String.eqb_eq). split; [done|]. exists x. split; [by rewrite Heq|]. by apply list_elem_of_In.
  - intros [_ (x & Hx & Hin)]. exists x. split; [by apply list_elem_of_In|]. apply String.eqb_eq. by symmetry.
Qed.

Lemma attributions_app e a :
  Contains a EvidenceSep = false -> attributions (e +:+ EvidenceSep +:+ a) = attributions e ++ [TrimSpace a].
Proof.
  intros Ha. unfold attributions, Split.
  replace (to_bytes (e +:+ EvidenceSep +:+ a)) with (to_bytes e ++ to_bytes EvidenceSep ++ to_bytes a)
    by (by rewrite !to_bytes_app).
  change (to_bytes EvidenceSep) with [";"%char; " "%char]. rewrite split_bytes_app, (split_none _ (to_bytes a)) by done. rewrite !fmap_app. simpl.
  by rewrite string_of_list_ascii_of_string.
Qed.

(** *)
Theorem AppendFixAttribution_idempotent (evidence name : string) :
  TrimSpace name = name -> Contains name EvidenceSep = false ->
  let out := AppendFixAttribution evidence name in
  AppendFixAttribution out name = out /\
  (name <> "" -> HasFixAttribution out name = true) /\
  (TrimSpace evidence <> "" -> forall other, HasFixAttribution evidence other = true -> HasFixAttribution out other = true).
Proof.
  intros Ht Hsep. cbv zeta.
  assert (Contains (FixAttributionPrefix +:+ name) EvidenceSep = false) as Ha by exact Hsep.
  assert (AppendFixAttribution evidence name = evidence /\ (name <> "" -> HasFixAttribution evidence name = true) \/
    name <> "" /\ HasFixAttribution (AppendFixAttribution evidence name) name = true /\
    (TrimSpace evidence <> "" -> attributions (AppendFixAttribution evidence name) =
       attributions evidence ++ [TrimSpace (FixAttributionPrefix +:+ name)])) as [[He Hn]|(Hn & Hh & Happ)].
  { unfold AppendFixAttribution. rewrite Ht. destruct (String.eqb_spec name "") as [|Hn]; [left; by split|].
    destruct (HasFixAttribution evidence name) eqn:Eh; [by left|]. right. split; [done|].
    destruct (String.eqb_spec (TrimSpace evidence) "") as [|He].
    - split; [|done]. apply HasFixAttribution_iff. rewrite Ht. split; [done|]. unfold attributions, Split.
      rewrite split_none by done. simpl. rewrite string_of_list_ascii_of_string.
      apply list_elem_of_singleton. symmetry. by apply (trimmed_attribution name).
    - rewrite attributions_app by done. split; [|done]. apply HasFixAttribution_iff. rewrite Ht. split; [done|].
      rewrite attributions_app by done. rewrite trimmed_attribution by done. apply elem_of_app. right. left. }
  - rewrite !He. done.
  - split; [|split; [done|]].
    + unfold AppendFixAttribution at 1. rewrite Hh. by destruct (TrimSpace name =? "")%string.
    + intros Hne other Ho. apply HasFixAttribution_iff in Ho as [? Ho]. apply HasFixAttribution_iff.
      split; [done|]. rewrite (Happ Hne). apply elem_of_app. by left.
Qed.

Lemma AppendFixAttribution_idempotent_witness :
  let out := AppendFixAttribution "seen twice; fix by opus" "op" in
  out = "seen twice; fix by opus; fix by op" /\ AppendFixAttribution out "op" = out /\
  ("op" <> "" -> HasFixAttribution out "op" = true) /\
  (TrimSpace "seen twice; fix by opus" <> "" -> forall other,
     HasFixAttribution "seen twice; fix by opus" other = true -> HasFixAttribution out other = true).
Proof.
  split; [by vm_compute|]. apply (AppendFixAttribution_idempotent "seen twice; fix by opus" "op"); by vm_compute.
Defined.

(** For a name with a surrounding space, or with the separator inside, the appended
    token is not recognized again and is appended once more. *)
Example AppendFixAttribution_twice :
  AppendFixAttribution (AppendFixAttribution "e" "op ") "op " = "e; fix by op ; fix by op " /\
  AppendFixAttribution (AppendFixAttribution "e" "a; b") "a; b" = "e; fix by a; b; fix by a; b".
Proof. by vm_compute. Qed.
