(* ===== verification/Ambiguous.v ===== *)
(** * The ambiguous sidecar

    src/reconcile/ambiguous.go and the [AmbiguousCluster] type of dedupe.go: the
    wire record of a gray-zone pair, its content-addressed id, and the digest of
    the emitted sidecar bytes. *)

From Stdlib Require Import Ascii String.
From stdpp Require Import prelude strings list pretty.
From Stdlib Require Import ZArith Lia.
From S2P Require Import Prelude GoString GoFloat Sha256 GoJson Finding.

Open Scope string_scope.
Open Scope list_scope.

(** [AmbiguousCluster]: a same-location pair in the gray zone, or one isolated
    finding. *)
Record AmbiguousCluster := mkAmbiguousCluster {
  ID : string;
  amb_File : string;
  amb_Line : Z;
  Similarity : float64;
  amb_Findings : list Finding;
}.

(** ** JSON shapes, from the struct tags *)

Definition omitempty_str (k v : string) : list (string * json) :=
  if v =? "" then [] else [(k, JStr v)].
Definition omitempty_bool (k : string) (v : bool) : list (string * json) :=
  if v then [(k, JBool true)] else [].

Definition json_of_Verification (v : Verification) : json :=
  JObj ([("verdict", JStr (Verdict v)); ("skeptic", JStr (Skeptic v))]
    ++ omitempty_str "notes" (Notes v)
    ++ omitempty_bool "challenge_survived" (ChallengeSurvived v)
    ++ omitempty_bool "truncated" (Truncated v)).

Definition json_of_Finding (f : Finding) : json :=
  JObj ([("severity", JStr (Severity f)); ("file", JStr (File f)); ("line", JInt (Line f));
         ("problem", JStr (Problem f)); ("fix", JStr (Fix f)); ("category", JStr (Category f));
         ("est_minutes", JInt (EstMinutes f)); ("evidence", JStr (Evidence f))]
    ++ omitempty_str "reviewer" (Reviewer f)
    ++ (if Reviewers f is [] then [] else [("reviewers", JArr (JStr <$> Reviewers f))])
    ++ omitempty_str "confidence" (Confidence f)
    ++ omitempty_str "disagreement" (Disagreement f)
    ++ match Verification_ f with None => [] | Some v => [("verification", json_of_Verification v)] end).

Definition json_of_AmbiguousCluster (c : AmbiguousCluster) : json :=
  JObj [("id", JStr (ID c)); ("file", JStr (amb_File c)); ("line", JInt (amb_Line c));
        ("similarity", JFloat (Similarity c));
        ("findings", JArr (json_of_Finding <$> amb_Findings c))].

(** ** ambiguous.go *)

(** One [fmt.Fprintf(&buf, "%d:%s|", len(f), f)]. *)
Definition id_field (f : string) : bytes :=
  to_bytes (pretty (length (to_bytes f))) ++ to_bytes ":" ++ to_bytes f ++ to_bytes "|".

(** The bytes hashed by [AmbiguousID]. *)
Definition id_preimage (file : string) (line : Z) (problemA problemB : string) : bytes :=
  let '(lo, hi) := if str_ltb problemB problemA then (problemB, problemA) else (problemA, problemB) in
  mjoin (id_field <$> [file; Itoa line; lo; hi]).

Definition AmbiguousID (file : string) (line : Z) (problemA problemB : string) : string :=
  "amb-" +:+ EncodeToString (take 16 (Sum256 (id_preimage file line problemA problemB))).

Definition HashBytes (data : bytes) : string := "sha256:" +:+ EncodeToString (Sum256 data).

(** [None] is the error of [json.MarshalIndent]. *)
Definition renderIndentedJSON (v : json) : option bytes :=
  data ← MarshalIndent 0 v; Some (data ++ [byte_of 10]).

(** [clusters] is never nil in the pipeline, so no clusters render as [[]]. *)
Definition AmbiguousHash (clusters : list AmbiguousCluster) : string :=
  match renderIndentedJSON (JArr (json_of_AmbiguousCluster <$> clusters)) with
  | None => ""
  | Some buf => HashBytes buf
  end.

(** ** The id encoding is injective *)

(** A list of digits followed by a non-digit is read back uniquely. *)
Lemma digits_app_inj (d1 d2 : bytes) c r1 r2 :
  is_digit c = false ->
  Forall (fun x => is_digit x = true) d1 -> Forall (fun x => is_digit x = true) d2 ->
  d1 ++ c :: r1 = d2 ++ c :: r2 -> d1 = d2 /\ r1 = r2.
Proof.
  intros Hc H1. revert d2. induction H1 as [|x d1 Hx _ IH]; intros d2 H2 Heq.
  - destruct H2 as [|y d2 Hy _]; simpl in Heq; [by injection Heq|].
    injection Heq as -> _. congruence.
  - destruct H2 as [|y d2 Hy H2]; simpl in Heq.
    + injection Heq as -> _. congruence.
    + injection Heq as -> Heq. destruct (IH d2 H2 Heq) as [-> ->]. done.
Qed.

Lemma id_field_app_inj f1 f2 r1 r2 :
  id_field f1 ++ r1 = id_field f2 ++ r2 -> f1 = f2 /\ r1 = r2.
Proof.
  unfold id_field. rewrite <- !app_assoc. intros H.
  apply digits_app_inj in H as [Hlen H]; [|done|apply pretty_nat_digits..].
  apply to_bytes_inj in Hlen. apply (inj pretty) in Hlen.
  simpl in H. apply app_inj_1 in H as [Hf Hr]; [|done].
  apply to_bytes_inj in Hf. by injection Hr.
Qed.

Lemma id_fields_inj l1 l2 :
  length l1 = length l2 -> mjoin (id_field <$> l1) = mjoin (id_field <$> l2) -> l1 = l2.
Proof.
  revert l2. induction l1 as [|x l1 IH]; intros [|y l2]; simpl; try done.
  intros [= Hlen] H. apply id_field_app_inj in H as [-> H]. f_equal. auto.
Qed.

(** The ordered pair of problem texts [AmbiguousID] hashes. *)
Lemma id_pair_cases a b :
  (if str_ltb b a then (b, a) else (a, b)) = (a, b) \/
  (if str_ltb b a then (b, a) else (a, b)) = (b, a).
Proof. destruct (str_ltb b a); auto. Qed.

Lemma id_preimage_sym file line a b : id_preimage file line a b = id_preimage file line b a.
Proof.
  unfold id_preimage. destruct (str_ltb b a) eqn:Hba, (str_ltb a b) eqn:Hab; try done.
  - by rewrite (str_ltb_asym _ _ Hba) in Hab.
  - by rewrite (str_ltb_total _ _ Hab Hba).
Qed.

Lemma id_preimage_inj file line a b file' line' a' b' :
  id_preimage file line a b = id_preimage file' line' a' b' ->
  file = file' /\ line = line' /\ (a = a' /\ b = b' \/ a = b' /\ b = a').
Proof.
  unfold id_preimage. intros H.
  destruct (id_pair_cases a b) as [E|E], (id_pair_cases a' b') as [E'|E'];
    rewrite E, E' in H; apply id_fields_inj in H; try done; injection H as -> Hl Ha Hb;
    apply (inj pretty) in Hl; auto.
Qed.

(** An id is a function of the location and the unordered pair of problem texts
    and of nothing else: the order of the two texts does not matter, and two equal
    ids are of the same location and pair unless the 128-bit prefixes of the two
    SHA-256 digests collide on different encodings. *)
Theorem AmbiguousID_content file line a b file' line' a' b' :
  AmbiguousID file line b a = AmbiguousID file line a b /\
  (AmbiguousID file line a b = AmbiguousID file' line' a' b' <->
     (file = file' /\ line = line' /\ (a = a' /\ b = b' \/ a = b' /\ b = a')) \/
     (id_preimage file line a b <> id_preimage file' line' a' b' /\
      take 16 (Sum256 (id_preimage file line a b)) = take 16 (Sum256 (id_preimage file' line' a' b')))).
Proof.
  split; [unfold AmbiguousID; by rewrite id_preimage_sym|]. split.
  - unfold AmbiguousID. intros H. simpl in H. injection H as H.
    apply EncodeToString_inj in H; [|apply Forall_take, Sum256_small..].
    destruct (decide (id_preimage file line a b = id_preimage file' line' a' b')) as [He|He]; [left|by right].
    by apply id_preimage_inj in He.
  - intros [(-> & -> & [[-> ->]|[-> ->]])|[_ H]]; [done| |unfold AmbiguousID; by rewrite H].
    unfold AmbiguousID. by rewrite id_preimage_sym.
Qed.

Example AmbiguousID_example :
  AmbiguousID "a.go" 3 "x" "y" <> AmbiguousID "a.go" 3 "x|1:y" "".
Proof. by vm_compute. Qed.

(** ** The sidecar always renders *)

Lemma encodable_omitempty_str k v : forallb encodable_field (omitempty_str k v) = true.
Proof. unfold omitempty_str. by destruct (v =? ""). Qed.

Lemma encodable_omitempty_bool k v : forallb encodable_field (omitempty_bool k v) = true.
Proof. by destruct v. Qed.

Lemma encodable_Verification v : encodable (json_of_Verification v) = true.
Proof.
  cbn [encodable json_of_Verification]. rewrite !forallb_app, encodable_omitempty_str, !encodable_omitempty_bool. done.
Qed.

Lemma encodable_Finding f : encodable (json_of_Finding f) = true.
Proof.
  unfold json_of_Finding. cbn [encodable]. rewrite !forallb_app, !encodable_omitempty_str.
  destruct (Reviewers f) as [|r rs], (Verification_ f) as [v|];
    cbn [forallb encodable snd]; rewrite ?encodable_Verification, ?encodable_strings; done.
Qed.

(** A sidecar of finite similarities. *)
Definition sidecar_ok (clusters : list AmbiguousCluster) : Prop :=
  Forall (fun c => is_Some (format_float (Similarity c))) clusters.

Lemma encodable_clusters clusters : sidecar_ok clusters ->
  forallb encodable (json_of_AmbiguousCluster <$> clusters) = true.
Proof.
  induction 1 as [|c clusters [x Hx] _ IH]; [done|]. rewrite fmap_cons. cbn [forallb]. rewrite IH, andb_true_r.
  cbn [json_of_AmbiguousCluster encodable forallb snd]. rewrite Hx. cbn [andb]. rewrite andb_true_r.
  induction (amb_Findings c) as [|f fs IHf]; [done|]. rewrite fmap_cons. cbn [forallb]. by rewrite encodable_Finding.
Qed.

Lemma AmbiguousHash_ok clusters : sidecar_ok clusters ->
  exists buf, renderIndentedJSON (JArr (json_of_AmbiguousCluster <$> clusters)) = Some buf /\
    AmbiguousHash clusters = HashBytes buf.
Proof.
  intros Hok. unfold AmbiguousHash, renderIndentedJSON.
  destruct (MarshalIndent_total (JArr (json_of_AmbiguousCluster <$> clusters)) (encodable_clusters _ Hok) 0) as [b ->].
  by eexists.
Qed.
