(* ===== verification/FindingJson.v ===== *)
(** * The serialized form of a finding

    What src/reconcile/reconcile.go relies on when it keys findings by their JSON bytes:
    two findings have the same bytes only when they agree in every field, up to the bytes
    of a text that are no UTF-8, which the encoder replaces. *)

From Stdlib Require Import Ascii String.
From stdpp Require Import prelude strings list pretty.
From Stdlib Require Import ZArith Lia.
From S2P Require Import Prelude GoString GoFloat GoJson JsonDecode JsonRoundtrip Finding Ambiguous.

Open Scope string_scope.
Open Scope list_scope.
Open Scope nat_scope.

(** A verdict and a finding with every text as a reader of the JSON sees it. *)
Definition clean_Verification (v : Verification) : Verification :=
  mkVerification (sanitize (Verdict v)) (sanitize (Skeptic v)) (sanitize (Notes v)) (ChallengeSurvived v) (Truncated v).
Definition clean_Finding (f : Finding) : Finding :=
  mkFinding (sanitize (Severity f)) (sanitize (File f)) (Line f) (sanitize (Problem f)) (sanitize (Fix f)) (sanitize (Category f))
    (EstMinutes f) (sanitize (Evidence f)) (sanitize (Reviewer f)) (sanitize <$> Reviewers f) (sanitize (Confidence f))
    (sanitize (Disagreement f)) (clean_Verification <$> Verification_ f).

(** ** A finding nests two levels *)

Lemma nesting_Arr n l : Forall (fun v => nesting v <= n) l -> nesting (JArr l) <= S n.
Proof. intros H. cbn [nesting]. apply le_n_S. induction H; simpl; lia. Qed.

Lemma nesting_Obj n (fs : list (string * json)) : Forall (fun kv => nesting kv.2 <= n) fs -> nesting (JObj fs) <= S n.
Proof. intros H. cbn [nesting]. apply le_n_S. induction H; simpl; lia. Qed.

Lemma nesting_map {A} (g : A -> json) (l : list A) n : (forall x, nesting (g x) <= n) -> nesting (JArr (g <$> l)) <= S n.
Proof. intros H. apply nesting_Arr, Forall_fmap, Forall_true, H. Qed.

Lemma nesting_omitempty_str k s n : Forall (fun kv : string * json => nesting kv.2 <= n) (omitempty_str k s).
Proof. unfold omitempty_str. destruct (_ =? _)%string; repeat constructor. simpl. lia. Qed.

Lemma nesting_omitempty_bool k b n : Forall (fun kv : string * json => nesting kv.2 <= n) (omitempty_bool k b).
Proof. unfold omitempty_bool. destruct b; repeat constructor. simpl. lia. Qed.

Ltac nest := repeat first
  [ apply Forall_nil_2 | apply nesting_omitempty_str | apply nesting_omitempty_bool
  | apply Forall_cons_2; [cbn [snd]; first [apply Nat.le_0_l | idtac]|] | apply Forall_app; split ].

Lemma nesting_Verification v : nesting (json_of_Verification v) <= 1.
Proof. unfold json_of_Verification. apply nesting_Obj. nest. Qed.

Lemma nesting_Finding f : nesting (json_of_Finding f) <= 2.
Proof.
  unfold json_of_Finding. apply nesting_Obj. nest.
  - destruct (Reviewers f); nest. by apply (nesting_map JStr _ 0).
  - destruct (Verification_ f); nest. apply nesting_Verification.
Qed.

(** ** The members of an object *)

Definition kvs_of (t : jtree) : list (string * jtree) := match t with TObj kvs => kvs | _ => [] end.
(** What an object answers for a key. *)
Fixpoint member (k : string) (kvs : list (string * jtree)) : option jtree :=
  match kvs with
  | [] => None
  | (k', t) :: kvs' => if (k' =? k)%string then Some t else member k kvs'
  end.
Definition members (fs : list (string * json)) : list (string * jtree) := map (fun kv => (sanitize kv.1, tree_of kv.2)) fs.

Lemma member_app k a b : member k (a ++ b) = match member k a with Some t => Some t | None => member k b end.
Proof. induction a as [|[k' t] a IH]; [done|]. simpl. destruct (_ =? _)%string; [done|exact IH]. Qed.
Lemma members_app a b : members (a ++ b) = members a ++ members b.
Proof. unfold members. apply map_app. Qed.

Lemma member_omitempty_str k k' s : is_ascii k' = true ->
  member k (members (omitempty_str k' s)) = if (k' =? k)%string && negb (s =? "")%string then Some (TStr (sanitize s)) else None.
Proof.
  intros Hk. unfold omitempty_str. destruct (s =? "")%string; [by rewrite andb_false_r|]. unfold members. simpl.
  rewrite (sanitize_valid k') by (by apply sanitize_ascii). by destruct (k' =? k)%string.
Qed.
Lemma member_omitempty_bool k k' (b : bool) : is_ascii k' = true ->
  member k (members (omitempty_bool k' b)) = if (k' =? k)%string && b then Some (TBool true) else None.
Proof.
  intros Hk. unfold omitempty_bool. destruct b; [|by rewrite andb_false_r]. unfold members. simpl.
  rewrite (sanitize_valid k') by (by apply sanitize_ascii). by destruct (k' =? k)%string.
Qed.

(** An optional text is there or not, and reads the same. *)
Lemma optional_str_inj s s' :
  (if negb (s =? "")%string then Some (TStr (sanitize s)) else None) =
  (if negb (s' =? "")%string then Some (TStr (sanitize s')) else None) -> sanitize s = sanitize s'.
Proof.
  destruct (String.eqb_spec s "") as [->|], (String.eqb_spec s' "") as [->|]; cbn [negb]; congruence.
Qed.

Lemma pretty_bytes_inj (a b : Z) : TNum (to_bytes (pretty a)) = TNum (to_bytes (pretty b)) -> a = b.
Proof. intros [= H%to_bytes_inj]. by apply (inj (pretty (A := Z))) in H. Qed.

Lemma strings_inj (l l' : list string) :
  map tree_of (JStr <$> l) = map tree_of (JStr <$> l') -> sanitize <$> l = sanitize <$> l'.
Proof. revert l'. induction l as [|x l IH]; intros [|y l']; try done. cbn. intros [= -> H]. f_equal. by apply IH. Qed.

Lemma member_cons k k' v l : is_ascii k' = true ->
  member k (members ((k', v) :: l)) = if (k' =? k)%string then Some (tree_of v) else member k (members l).
Proof. intros Hk. unfold members. simpl. by rewrite (sanitize_valid k') by (by apply sanitize_ascii). Qed.

Definition json_reviewers (l : list string) : list (string * json) := if l is [] then [] else [("reviewers", JArr (JStr <$> l))].
Lemma member_reviewers k l : member k (members (json_reviewers l)) =
  if ("reviewers" =? k)%string && negb (bool_decide (l = [])) then Some (TArr (map tree_of (JStr <$> l))) else None.
Proof.
  destruct l as [|r l]; [by rewrite andb_false_r|]. unfold json_reviewers. rewrite member_cons by reflexivity.
  rewrite bool_decide_eq_false_2 by done. by destruct (_ =? _)%string.
Qed.
Definition json_verification (v : option Verification) : list (string * json) :=
  match v with None => [] | Some v => [("verification", json_of_Verification v)] end.
Lemma member_verification k v : member k (members (json_verification v)) =
  if ("verification" =? k)%string then (fun v => tree_of (json_of_Verification v)) <$> v else None.
Proof. destruct v as [v|]; [|by destruct (_ =? _)%string]. apply member_cons. reflexivity. Qed.

(** Read one key of both sides of an equation of members. *)
Ltac read_key H k E :=
  pose proof (f_equal (member k) H) as E;
  rewrite ?members_app, ?member_app, ?member_cons, ?member_omitempty_str, ?member_omitempty_bool,
    ?member_reviewers, ?member_verification in E by reflexivity;
  cbn [String.eqb Ascii.eqb Bool.eqb andb members map member] in E.

Lemma Verification_tree_inj v w : tree_of (json_of_Verification v) = tree_of (json_of_Verification w) ->
  clean_Verification v = clean_Verification w.
Proof.
  intros H%(f_equal kvs_of).
  change (members ([("verdict", JStr (Verdict v)); ("skeptic", JStr (Skeptic v))] ++ omitempty_str "notes" (Notes v)
      ++ omitempty_bool "challenge_survived" (ChallengeSurvived v) ++ omitempty_bool "truncated" (Truncated v)) =
    members ([("verdict", JStr (Verdict w)); ("skeptic", JStr (Skeptic w))] ++ omitempty_str "notes" (Notes w)
      ++ omitempty_bool "challenge_survived" (ChallengeSurvived w) ++ omitempty_bool "truncated" (Truncated w))) in H.
  unfold clean_Verification.
  read_key H "verdict" E1. injection E1 as ->. read_key H "skeptic" E2. injection E2 as ->.
  read_key H "notes" E3. read_key H "challenge_survived" E4. read_key H "truncated" E5.
  rewrite (optional_str_inj (Notes v) (Notes w)).
  - by destruct (ChallengeSurvived v), (ChallengeSurvived w), (Truncated v), (Truncated w).
  - by destruct (Notes v =? "")%string, (Notes w =? "")%string.
Qed.

Definition finding_pairs (f : Finding) : list (string * json) :=
  [("severity", JStr (Severity f)); ("file", JStr (File f)); ("line", JInt (Line f));
   ("problem", JStr (Problem f)); ("fix", JStr (Fix f)); ("category", JStr (Category f));
   ("est_minutes", JInt (EstMinutes f)); ("evidence", JStr (Evidence f))]
    ++ omitempty_str "reviewer" (Reviewer f) ++ json_reviewers (Reviewers f) ++ omitempty_str "confidence" (Confidence f)
    ++ omitempty_str "disagreement" (Disagreement f) ++ json_verification (Verification_ f).

(** Findings with one reading as JSON agree in every field. *)
Lemma Finding_tree_inj f g : tree_of (json_of_Finding f) = tree_of (json_of_Finding g) -> clean_Finding f = clean_Finding g.
Proof.
  intros H%(f_equal kvs_of). change (members (finding_pairs f) = members (finding_pairs g)) in H. unfold finding_pairs in H.
  unfold clean_Finding.
  read_key H "severity" E. injection E as ->. read_key H "file" E. injection E as ->.
  read_key H "line" E. injection E as E%(f_equal of_bytes). rewrite !string_of_list_ascii_of_string in E. apply (inj pretty) in E as ->.
  read_key H "problem" E. injection E as ->. read_key H "fix" E. injection E as ->. read_key H "category" E. injection E as ->.
  read_key H "est_minutes" E. injection E as E%(f_equal of_bytes). rewrite !string_of_list_ascii_of_string in E. apply (inj pretty) in E as ->.
  read_key H "evidence" E. injection E as ->.
  assert (sanitize (Reviewer f) = sanitize (Reviewer g)) as ->.
  { read_key H "reviewer" E. apply optional_str_inj. by destruct (Reviewer f =? "")%string, (Reviewer g =? "")%string. }
  assert (sanitize <$> Reviewers f = sanitize <$> Reviewers g) as ->.
  { read_key H "reviewers" E. apply strings_inj.
    do 2 case_bool_decide; cbn [negb] in E; congruence. }
  assert (sanitize (Confidence f) = sanitize (Confidence g)) as ->.
  { read_key H "confidence" E. apply optional_str_inj. by destruct (Confidence f =? "")%string, (Confidence g =? "")%string. }
  assert (sanitize (Disagreement f) = sanitize (Disagreement g)) as ->.
  { read_key H "disagreement" E. apply optional_str_inj. by destruct (Disagreement f =? "")%string, (Disagreement g =? "")%string. }
  read_key H "verification" E. f_equal. destruct (Verification_ f) as [v|], (Verification_ g) as [w|]; try done.
  cbn [fmap option_fmap option_map] in *. apply (inj Some) in E. f_equal. by apply Verification_tree_inj.
Qed.

(** Equal bytes are equal fields. *)
Lemma Marshal_Finding_inj f g : Marshal (json_of_Finding f) = Marshal (json_of_Finding g) -> clean_Finding f = clean_Finding g.
Proof.
  intros H. destruct (Marshal_total (json_of_Finding f) (encodable_Finding f)) as [b Hb]. rewrite Hb in H. symmetry in H.
  assert (forall h, nesting (json_of_Finding h) <= maxNestingDepth) as Hn.
  { intros h. etrans; [apply nesting_Finding|]. apply Nat.leb_le. by vm_compute. }
  apply Finding_tree_inj. pose proof (Parse_Marshal _ _ Hb (Hn f)). pose proof (Parse_Marshal _ _ H (Hn g)). congruence.
Qed.
