(* ===== verification/Cluster.v ===== *)
(** * Location clustering

    src/reconcile/cluster.go and grouper.go: findings are grouped per file, first
    by the structural key of the configured grouper, then by single-linkage on the
    line number. *)

From Stdlib Require Import String.
From stdpp Require Import prelude strings gmap sorting.
From Stdlib Require Import ZArith Lia.
From S2P Require Import Prelude GoString GoSort Finding.

Open Scope string_scope.
Open Scope list_scope.

(** The [Grouper] interface: the structural key of a finding, "" when it has none. *)
Record Grouper := mkGrouper { GroupKey : Finding -> string }.

Definition LineProximity : Z := 3.

(** [sort.SliceStable(lined, ...)]'s comparison. *)
Definition line_less (a b : Finding) : bool := (Line a <? Line b)%Z.

(** [byFile[f.File] = append(byFile[f.File], f)] for every finding. *)
Definition byFile_step (m : gmap string (list Finding)) (f : Finding) : gmap string (list Finding) :=
  <[File f := default [] (m !! File f) ++ [f]]> m.
Definition byFile (findings : list Finding) : gmap string (list Finding) :=
  foldl byFile_step ∅ findings.
(** The keys of the map, sorted. *)
Definition files_of (m : gmap string (list Finding)) : list string :=
  sort_strings (map_to_list m).*1.

Definition splitFileLevel (findings : list Finding) : list Finding * list Finding :=
  foldl (fun '(fileLevel, lined) f =>
      if (Line f <=? 0)%Z then (fileLevel ++ [f], lined) else (fileLevel, lined ++ [f]))
    ([], []) findings.

(** The locals of the [proximityClusters] loop. *)
Record prox_state := mkProx {
  px_clusters : list (list Finding);
  px_cur : list Finding;
  px_prevLine : Z;
}.

Definition prox_step (s : prox_state) (f : Finding) : prox_state :=
  match px_cur s with
  | [] => mkProx (px_clusters s) [f] (Line f)
  | cur =>
      if (Line f - px_prevLine s <=? LineProximity)%Z
      then mkProx (px_clusters s) (cur ++ [f]) (Line f)
      else mkProx (px_clusters s ++ [cur]) [f] (Line f)
  end.

Definition proximityClusters (lined : list Finding) : list (list Finding) :=
  let s := foldl prox_step (mkProx [] [] 0) lined in
  match px_cur s with [] => px_clusters s | cur => px_clusters s ++ [cur] end.

Definition append_nonempty (clusters : list (list Finding)) (c : list Finding) :=
  match c with [] => clusters | _ => clusters ++ [c] end.

Definition Cluster (findings : list Finding) : list (list Finding) :=
  let m := byFile findings in
  foldl (fun clusters file =>
      let '(fileLevel, lined) := splitFileLevel (default [] (m !! file)) in
      let clusters := append_nonempty clusters fileLevel in
      clusters ++ proximityClusters (slice_stable line_less lined))
    [] (files_of m).

(** The locals of the keying loop of [ClusterWith]. *)
Record key_state := mkKeys {
  ks_keyed : gmap string (list Finding);
  ks_order : list string;
  ks_unkeyed : list Finding;
}.

Definition key_step (g : Grouper) (s : key_state) (f : Finding) : key_state :=
  let k := GroupKey g f in
  if k =? "" then mkKeys (ks_keyed s) (ks_order s) (ks_unkeyed s ++ [f])
  else
    let order := match ks_keyed s !! k with None => ks_order s ++ [k] | Some _ => ks_order s end in
    mkKeys (<[k := default [] (ks_keyed s !! k) ++ [f]]> (ks_keyed s)) order (ks_unkeyed s).

Definition ClusterWith (findings : list Finding) (g : option Grouper) : list (list Finding) :=
  match g with
  | None => Cluster findings
  | Some g =>
      let m := byFile findings in
      foldl (fun clusters file =>
          let '(fileLevel, lined) := splitFileLevel (default [] (m !! file)) in
          let clusters := append_nonempty clusters fileLevel in
          let lined := slice_stable line_less lined in
          let s := foldl (key_step g) (mkKeys ∅ [] []) lined in
          let clusters := clusters ++ ((fun k => default [] (ks_keyed s !! k)) <$> ks_order s) in
          clusters ++ proximityClusters (ks_unkeyed s))
        [] (files_of m)
  end.

(** ** The comparison is a weak order *)

#[export] Instance line_less_WeakOrder : WeakOrder line_less.
Proof.
  split; unfold not_after, line_less; intros *; rewrite ?Z.ltb_lt, ?Z.ltb_ge; lia.
Qed.

Lemma not_after_line a b : not_after line_less a b <-> (Line a <= Line b)%Z.
Proof. unfold not_after, line_less. apply Z.ltb_ge. Qed.

(** ** [byFile] *)

Lemma byFile_lookup fs k :
  byFile fs !! k = match filter (fun f => File f = k) fs with [] => None | l => Some l end.
Proof.
  unfold byFile. apply (foldl_invariant (fun done m =>
    m !! k = match filter (fun f => File f = k) done with [] => None | l => Some l end)).
  - apply lookup_empty.
  - intros done x todo m _ IH. unfold byFile_step. rewrite filter_app. simpl.
    rewrite filter_cons, filter_nil. destruct (decide (File x = k)) as [->|Hne].
    + rewrite lookup_insert_eq, IH. by destruct (filter _ done) eqn:E.
    + rewrite lookup_insert_ne, IH by done. by rewrite app_nil_r.
Qed.

(** The findings of one file, in input order. *)
Lemma byFile_findings fs k : default [] (byFile fs !! k) = filter (fun f => File f = k) fs.
Proof. rewrite byFile_lookup. by destruct (filter _ fs). Qed.

Lemma elem_of_files_of fs k : k ∈ files_of (byFile fs) <-> exists f, f ∈ fs /\ File f = k.
Proof.
  unfold files_of. rewrite elem_of_sort_strings, list_elem_of_fmap. split.
  - intros ([k' l] & -> & H%elem_of_map_to_list). simpl. rewrite byFile_lookup in H.
    destruct (filter (fun f => File f = k') fs) as [|f fl] eqn:E; [done|].
    assert (f ∈ filter (fun f => File f = k') fs) as Hf by (rewrite E; left).
    apply list_elem_of_filter in Hf as [? ?]. eauto.
  - intros (f & Hf & <-).
    destruct (filter (fun f' => File f' = File f) fs) as [|f' fl] eqn:E.
    + exfalso. assert (f ∈ filter (fun f' => File f' = File f) fs) as H
        by (by apply list_elem_of_filter). rewrite E in H. by apply elem_of_nil in H.
    + exists (File f, f' :: fl). split; [done|]. apply elem_of_map_to_list.
      by rewrite byFile_lookup, E.
Qed.

Lemma files_of_NoDup m : NoDup (files_of m).
Proof. unfold files_of. rewrite sort_strings_Permutation. apply NoDup_fst_map_to_list. Qed.

(** ** [splitFileLevel] *)

Lemma splitFileLevel_filter fs :
  splitFileLevel fs = (filter (fun f => (Line f <= 0)%Z) fs, filter (fun f => ~ (Line f <= 0)%Z) fs).
Proof.
  unfold splitFileLevel. apply (foldl_invariant (fun done s =>
    s = (filter (fun f => (Line f <= 0)%Z) done, filter (fun f => ~ (Line f <= 0)%Z) done))); [done|].
  intros done x todo s' _ ->. rewrite !filter_app. simpl. rewrite !filter_cons, !filter_nil.
  destruct (Line x <=? 0)%Z eqn:E; bool_prop;
    repeat case_decide; try lia; by rewrite ?app_nil_r.
Qed.

(** ** The location relation

    Two findings are co-located when they are in the same file and either both
    file-level, or both on a line with the same structural key and (for the empty
    key) at most [LineProximity] lines apart. *)

(** The structural key clustering reads: "" for every finding without a grouper. *)
Definition lkey (g : option Grouper) (f : Finding) : string :=
  match g with None => "" | Some g => GroupKey g f end.

Definition colocated (g : option Grouper) (a b : Finding) : Prop :=
  File a = File b /\
  ((Line a <= 0)%Z /\ (Line b <= 0)%Z \/
   (0 < Line a)%Z /\ (0 < Line b)%Z /\ lkey g a = lkey g b /\
     (lkey g a <> "" \/ (Z.abs (Line a - Line b) <= LineProximity)%Z)).

Lemma colocated_sym g a b : colocated g a b -> colocated g b a.
Proof.
  intros [Hf H]. split; [done|]. destruct H as [[? ?]|(? & ? & Hk & H)]; [by left|right].
  split_and!; try done. destruct H; [left; congruence | right; lia].
Qed.

(** No finding of one cluster is co-located with one of the other. *)
Definition apart (g : option Grouper) (c1 c2 : list Finding) : Prop :=
  forall a b, a ∈ c1 -> b ∈ c2 -> ~ colocated g a b.

(** A cluster: nonempty, and any two members linked by co-located members. *)
Definition connected (g : option Grouper) (c : list Finding) : Prop :=
  c <> [] /\ forall a b, a ∈ c -> b ∈ c ->
    rtc (fun x y => x ∈ c /\ y ∈ c /\ colocated g x y) a b.

Lemma connected_clique g c :
  c <> [] -> (forall a b, a ∈ c -> b ∈ c -> colocated g a b) -> connected g c.
Proof. intros Hne H. split; [done|]. intros a b Ha Hb. apply rtc_once. auto. Qed.

(** The clusters of a list are its connected components. *)
Definition components (g : option Grouper) (l : list Finding) (cs : list (list Finding)) : Prop :=
  mjoin cs ≡ₚ l /\ StronglySorted (apart g) cs /\ Forall (connected g) cs.

Lemma components_app g l1 l2 cs1 cs2 :
  components g l1 cs1 -> components g l2 cs2 ->
  (forall a b, a ∈ l1 -> b ∈ l2 -> ~ colocated g a b) -> components g (l1 ++ l2) (cs1 ++ cs2).
Proof.
  intros (P1 & A1 & C1) (P2 & A2 & C2) H. split_and!.
  - by rewrite mjoin_app, P1, P2.
  - apply StronglySorted_app_intro; [done..|]. intros c1 c2 Hc1 Hc2 a b Ha Hb.
    apply H; [rewrite <- P1 | rewrite <- P2]; apply elem_of_mjoin; eauto.
  - by apply Forall_app.
Qed.

Lemma components_perm g l l' cs : l ≡ₚ l' -> components g l cs -> components g l' cs.
Proof. intros Hl (P & A & C). split_and!; [by rewrite P|done..]. Qed.

Lemma components_nil g : components g [] [].
Proof. split_and!; [done|constructor..]. Qed.

Lemma components_one g l :
  (forall a b, a ∈ l -> b ∈ l -> colocated g a b) -> components g l (append_nonempty [] l).
Proof.
  intros H. destruct l as [|x l]; [apply components_nil|]. simpl. split_and!.
  - simpl. by rewrite app_nil_r.
  - repeat constructor.
  - constructor; [|constructor]. by apply connected_clique.
Qed.

(** Membership in one cluster is exactly reachability by co-location. *)
Lemma components_iff g l cs a b :
  components g l cs -> a ∈ l ->
  (exists c, c ∈ cs /\ a ∈ c /\ b ∈ c) <->
  rtc (fun x y => x ∈ l /\ y ∈ l /\ colocated g x y) a b.
Proof.
  intros (P & A & C) Ha. rewrite Forall_forall in C.
  assert (forall x c, c ∈ cs -> x ∈ c -> x ∈ l) as Hin.
  { intros x c Hc Hx. rewrite <- P. apply elem_of_mjoin. eauto. }
  split.
  - intros (c & Hc & Hac & Hbc). destruct (C c Hc) as [_ Hconn].
    eapply (rtc_subrel (fun x y => x ∈ c /\ y ∈ c /\ colocated g x y)); [|by apply Hconn].
    intros x y (Hx & Hy & Hxy). eauto.
  - rewrite <- P in Ha. apply elem_of_mjoin in Ha as (c & Hc & Ha).
    intros Hr. exists c. split; [done|]. split; [done|]. revert Ha.
    induction Hr as [x|x y z (_ & Hy & Hxy) _ IH]; intros Hx; [done|]. apply IH.
    rewrite <- P in Hy. apply elem_of_mjoin in Hy as (c' & Hc' & Hy).
    destruct (StronglySorted_elem _ _ _ _ A Hc Hc') as [->|[H|H]]; [done|exfalso..].
    + by eapply (H x y).
    + eapply (H y x); [done..|]. by apply colocated_sym.
Qed.

(** ** [proximityClusters] computes the components of a sorted file *)

Lemma connected_snoc g c x y :
  connected g c -> y ∈ c -> colocated g y x -> connected g (c ++ [x]).
Proof.
  intros [Hne Hc] Hy Hyx. split; [by destruct c|].
  set (R := fun a b => a ∈ c ++ [x] /\ b ∈ c ++ [x] /\ colocated g a b).
  assert (x ∈ c ++ [x]) as Hx by (apply elem_of_app; right; left).
  assert (forall a, a ∈ c -> a ∈ c ++ [x]) as Hin by (intros a Ha; apply elem_of_app; by left).
  assert (forall a b, a ∈ c -> b ∈ c -> rtc R a b) as HR.
  { intros a b Ha Hb. eapply rtc_subrel; [|by apply (Hc a b)].
    intros p q (Hp & Hq & Hpq). unfold R. auto. }
  assert (forall a, a ∈ c -> rtc R a x) as Hto.
  { intros a Ha. eapply rtc_r; [by apply (HR a y)|]. unfold R. auto. }
  assert (forall a, a ∈ c -> rtc R x a) as Hfrom.
  { intros a Ha. eapply rtc_l; [|by apply (HR y a)]. unfold R. eauto using colocated_sym. }
  intros a b [Ha|Ha%list_elem_of_singleton]%elem_of_app [Hb|Hb%list_elem_of_singleton]%elem_of_app;
    subst; auto. apply rtc_refl.
Qed.

(** The invariant of the [proximityClusters] loop. *)
Record prox_inv (g : option Grouper) (done : list Finding) (s : prox_state) : Prop := {
  pi_join : mjoin (px_clusters s) ++ px_cur s = done;
  pi_apart : StronglySorted (apart g) (px_clusters s);
  pi_conn : Forall (connected g) (px_clusters s);
  pi_far : forall c a b, c ∈ px_clusters s -> a ∈ c -> b ∈ px_cur s ->
    (LineProximity < Line b - Line a)%Z;
  pi_cur : px_cur s = [] \/ connected g (px_cur s) /\
    exists y, y ∈ px_cur s /\ Line y = px_prevLine s;
  pi_empty : px_cur s = [] -> done = [];
  pi_max : forall x, x ∈ done -> (Line x <= px_prevLine s)%Z;
}.

Lemma far_not_colocated g a b :
  lkey g a = "" -> lkey g b = "" -> (0 < Line b)%Z -> (LineProximity < Line b - Line a)%Z ->
  ~ colocated g a b.
Proof. intros Ha Hb Hpos Hfar [_ [[? ?]|(? & ? & _ & [?|?])]]; [lia|congruence|lia]. Qed.

(** What the loop relies on: one file, on a line, without a key. *)
Definition plain (g : option Grouper) (file : string) (f : Finding) : Prop :=
  File f = file /\ (0 < Line f)%Z /\ lkey g f = "".

Lemma prox_clusters_apart g file s :
  (forall x, x ∈ mjoin (px_clusters s) ++ px_cur s -> plain g file x) ->
  (forall c a b, c ∈ px_clusters s -> a ∈ c -> b ∈ px_cur s -> (LineProximity < Line b - Line a)%Z) ->
  forall c, c ∈ px_clusters s -> apart g c (px_cur s).
Proof.
  intros Hpl Hfar c Hc a b Ha Hb.
  destruct (Hpl a) as (_ & _ & Hka); [apply elem_of_app; left; apply elem_of_mjoin; eauto|].
  destruct (Hpl b) as (_ & Hpb & Hkb); [apply elem_of_app; by right|].
  apply far_not_colocated; [done..|]. by apply (Hfar c).
Qed.

Lemma prox_step_inv g file done x s :
  Forall (plain g file) (done ++ [x]) -> Forall (fun y => (Line y <= Line x)%Z) done ->
  prox_inv g done s -> prox_inv g (done ++ [x]) (prox_step s x).
Proof.
  intros Hpl Hle [Hj Ha Hc Hf Hcur He Hm]. rewrite Forall_forall in Hpl, Hle.
  assert (forall y, y ∈ done ++ [x] -> (Line y <= Line x)%Z) as Hmax.
  { intros y [Hy|Hy%list_elem_of_singleton]%elem_of_app; [by apply Hle|by subst]. }
  assert (plain g file x) as Hx by (apply Hpl, elem_of_app; right; left).
  assert (connected g [x]) as Hone.
  { apply connected_clique; [done|]. destruct Hx as (Hx1 & Hx2 & Hx3).
    intros a b Ha'%list_elem_of_singleton Hb'%list_elem_of_singleton. subst.
    split; [done|right]. split_and!; try done. right. unfold LineProximity. lia. }
  unfold prox_step. destruct (px_cur s) as [|c0 cur] eqn:Hcur_eq.
  { rewrite (He eq_refl) in *. apply app_nil in Hj as [Hj _].
    split; simpl; try done.
    - by rewrite Hj.
    - intros c a b Hcc Hac. exfalso. apply (not_elem_of_nil a). rewrite <- Hj.
      apply elem_of_mjoin. eauto.
    - right. split; [done|]. exists x. split; [left|done]. }
  destruct Hcur as [?|[Hconn (y & Hy & Hyl)]]; [done|].
  assert (plain g file y) as Hyp.
  { apply Hpl. rewrite <- Hj, !elem_of_app. left. by right. }
  destruct (Line x - px_prevLine s <=? LineProximity)%Z eqn:E; bool_prop; split; simpl; try done.
  - by rewrite <- Hj, <- app_assoc.
  - intros c a b Hcc Hac [Hb|Hb%list_elem_of_singleton]%(elem_of_app (c0 :: cur)).
    + eapply Hf; eauto.
    + subst b. specialize (Hf c a y Hcc Hac Hy). specialize (Hmax y).
      assert (y ∈ done) as Hyd by (rewrite <- Hj, elem_of_app; by right).
      specialize (Hle y Hyd). lia.
  - right. split.
    + apply (connected_snoc g (c0 :: cur) x y); [done..|].
      destruct Hx as (? & ? & ?), Hyp as (? & ? & ?).
      split; [congruence|right]. split_and!; try done; [congruence|right].
      assert (y ∈ done) as Hyd by (rewrite <- Hj, elem_of_app; by right).
      specialize (Hle y Hyd). lia.
    + exists x. split; [|done]. apply (elem_of_app (c0 :: cur)). right. left.
  - rewrite mjoin_app. simpl. by rewrite app_nil_r, Hj.
  - apply StronglySorted_snoc; [done|]. apply Forall_forall. intros c Hcc.
    rewrite <- Hcur_eq. apply (prox_clusters_apart g file); [|by rewrite Hcur_eq|done].
    intros z Hz. apply Hpl, elem_of_app. left. by rewrite <- Hj, <- Hcur_eq.
  - apply Forall_app. split; [done|]. by constructor.
  - intros c a b [Hcc|Hcc%list_elem_of_singleton]%elem_of_app Hac ->%list_elem_of_singleton;
      assert (a ∈ done) as Had by (rewrite <- Hj, elem_of_app;
        first [by (subst; right) | left; apply elem_of_mjoin; by eauto]);
      specialize (Hm a Had); lia.
  - right. split; [done|]. exists x. split; [left|done].
Qed.

Lemma proximityClusters_components g file l :
  Forall (plain g file) l -> StronglySorted (not_after line_less) l ->
  components g l (proximityClusters l).
Proof.
  intros Hpl Hs. unfold proximityClusters.
  assert (prox_inv g l (foldl prox_step (mkProx [] [] 0) l)) as [Hj Ha Hc Hf Hcur He Hm].
  { apply (foldl_invariant (prox_inv g)).
    - split; simpl; try done; try (by constructor); try (by left).
      + by intros c a b ?%elem_of_nil.
      + by intros x ?%elem_of_nil.
    - intros done x todo s -> Hinv. apply (prox_step_inv g file); [|clear Hpl|done].
      + rewrite cons_middle, app_assoc in Hpl. by apply Forall_app in Hpl as [? _].
      + apply Forall_forall. intros y Hy. apply not_after_line.
        eapply StronglySorted_app_1_elem_of; [done..|left]. }
  set (s := foldl _ _ _) in *. destruct (px_cur s) as [|c0 cur] eqn:E.
  - rewrite (He eq_refl) in *. apply app_nil in Hj as [Hj _].
    split_and!; [by rewrite Hj|done..].
  - split_and!.
    + rewrite mjoin_app. simpl. by rewrite app_nil_r, Hj.
    + apply StronglySorted_snoc; [done|]. apply Forall_forall. intros c Hcc.
      rewrite <- E. apply (prox_clusters_apart g file); [|by rewrite E|done].
      intros z Hz. rewrite Forall_forall in Hpl. apply Hpl. by rewrite <- Hj, <- E.
    + apply Forall_app. split; [done|]. constructor; [|done]. by destruct Hcur as [?|[? _]].
Qed.

(** ** The keying loop *)

Record key_inv (g : Grouper) (done : list Finding) (s : key_state) : Prop := {
  ki_unkeyed : ks_unkeyed s = filter (fun f => GroupKey g f = "") done;
  ki_keyed : forall k, k <> "" ->
    default [] (ks_keyed s !! k) = filter (fun f => GroupKey g f = k) done;
  ki_seen : forall k, k ∈ ks_order s <-> is_Some (ks_keyed s !! k);
  ki_order : forall k, k ∈ ks_order s <-> k <> "" /\ exists f, f ∈ done /\ GroupKey g f = k;
  ki_nodup : NoDup (ks_order s);
}.

Lemma key_step_inv g done x s : key_inv g done s -> key_inv g (done ++ [x]) (key_step g s x).
Proof.
  intros [Hu Hk Hs Ho Hn]. unfold key_step.
  destruct (GroupKey g x =? "") eqn:E.
  - apply String.eqb_eq in E. split; simpl; [|intros k Hne|done| |done].
    + rewrite filter_app, Hu, filter_cons_True, filter_nil by done. done.
    + rewrite filter_app, filter_cons_False, filter_nil, app_nil_r by congruence. by apply Hk.
    + intros k. rewrite Ho. split; intros (Hne & f & Hf & Hfk); (split; [done|]).
      * exists f. split; [apply elem_of_app; by left|done].
      * apply elem_of_app in Hf as [Hf| ->%list_elem_of_singleton]; [by exists f|congruence].
  - apply String.eqb_neq in E.
    assert (forall k, (k <> "" /\ exists f, f ∈ done ++ [x] /\ GroupKey g f = k) <->
              k ∈ ks_order s \/ k = GroupKey g x) as Hnew.
    { intros k. rewrite Ho. split.
      - intros (Hne & f & [Hf| ->%list_elem_of_singleton]%elem_of_app & Hfk); [left; eauto|by right].
      - intros [(Hne & f & Hf & Hfk)| ->]; (split; [done|]).
        + exists f. split; [apply elem_of_app; by left|done].
        + exists x. split; [apply elem_of_app; right; left|done]. }
    set (order := match ks_keyed s !! GroupKey g x with None => _ | Some _ => _ end).
    assert (forall k, k ∈ order <-> k ∈ ks_order s \/ k = GroupKey g x) as Hord.
    { intros k. unfold order. destruct (ks_keyed s !! GroupKey g x) eqn:El.
      - split; [by left|]. intros [?| ->]; [done|]. apply Hs. by rewrite El.
      - by rewrite elem_of_app, list_elem_of_singleton. }
    split; simpl; [|intros k Hne| | |].
    + rewrite filter_app, Hu, filter_cons_False, filter_nil by done. by rewrite app_nil_r.
    + rewrite filter_app, lookup_insert. case_decide as Hd.
      * subst k. simpl. by rewrite Hk, filter_cons_True, filter_nil by done.
      * rewrite filter_cons_False, filter_nil, app_nil_r by congruence. by apply Hk.
    + intros k. rewrite Hord, lookup_insert, Hs. case_decide; [subst|].
      * split; [done|by right].
      * split; [by intros [?|?]|by left].
    + intros k. by rewrite Hnew, Hord.
    + unfold order. destruct (ks_keyed s !! GroupKey g x) eqn:El; [done|].
      apply NoDup_app. split_and!; [done| |apply NoDup_singleton].
      intros k Hin ->%list_elem_of_singleton. apply Hs in Hin as [? ?]. congruence.
Qed.

Lemma key_loop_inv g l : key_inv g l (foldl (key_step g) (mkKeys ∅ [] []) l).
Proof.
  apply (foldl_invariant (key_inv g)).
  - split; simpl; try done.
    + intros k. rewrite lookup_empty. split; [by intros ?%elem_of_nil|by intros []].
    + intros k. split; [by intros ?%elem_of_nil|]. by intros (_ & f & ?%elem_of_nil & _).
    + constructor.
  - intros done x todo s _. apply key_step_inv.
Qed.

(** The clusters one file contributes. *)
Definition lined_clusters (g : option Grouper) (lined : list Finding) : list (list Finding) :=
  match g with
  | None => proximityClusters lined
  | Some g =>
      let s := foldl (key_step g) (mkKeys ∅ [] []) lined in
      ((fun k => default [] (ks_keyed s !! k)) <$> ks_order s) ++ proximityClusters (ks_unkeyed s)
  end.

Definition file_clusters (g : option Grouper) (fs : list Finding) : list (list Finding) :=
  append_nonempty [] (splitFileLevel fs).1 ++
    lined_clusters g (slice_stable line_less (splitFileLevel fs).2).

Lemma append_nonempty_app cs c : append_nonempty cs c = cs ++ append_nonempty [] c.
Proof. destruct c; simpl; by rewrite ?app_nil_r. Qed.

Lemma ClusterWith_files g fs :
  ClusterWith fs g =
    mjoin ((fun file => file_clusters g (filter (fun f => File f = file) fs)) <$> files_of (byFile fs)).
Proof.
  change (mjoin ?x) with ([] ++ mjoin x). rewrite <- foldl_append.
  destruct g as [g|]; apply foldl_ext; intros cs file _; rewrite byFile_findings;
    unfold file_clusters; destruct (splitFileLevel _) as [fl lined]; simpl;
    rewrite append_nonempty_app; by rewrite <- !app_assoc.
Qed.

Lemma keyed_components g file ks l :
  Forall (fun f => File f = file /\ (0 < Line f)%Z /\ GroupKey g f <> "") l ->
  NoDup ks -> (forall k, k ∈ ks <-> exists f, f ∈ l /\ GroupKey g f = k) ->
  components (Some g) l ((fun k => filter (fun f => GroupKey g f = k) l) <$> ks).
Proof.
  intros Hl Hn Hks. rewrite Forall_forall in Hl. split_and!.
  - apply filter_keys_Permutation; [done|]. intros x Hx. apply Hks. eauto.
  - clear Hks. induction Hn as [|k ks Hk Hn IH]; simpl; constructor; [done|].
    apply Forall_forall. intros c (k' & -> & Hk')%list_elem_of_fmap a b
      [<- Ha]%list_elem_of_filter [<- Hb]%list_elem_of_filter [_ [[? ?]|(_ & _ & Hab & _)]].
    + destruct (Hl a Ha) as (_ & ? & _). lia.
    + simpl in Hab. by rewrite Hab in Hk.
  - apply Forall_forall. intros c (k & -> & Hk)%list_elem_of_fmap. apply connected_clique.
    + apply Hks in Hk as (f & Hf & Hfk). intros Hnil. apply (not_elem_of_nil f).
      rewrite <- Hnil. by apply list_elem_of_filter.
    + intros a b [Ka Ha]%list_elem_of_filter [Kb Hb]%list_elem_of_filter.
      destruct (Hl a Ha) as (? & ? & ?), (Hl b Hb) as (? & ? & ?).
      split; [congruence|right]. simpl. split_and!; try done; [congruence|by left].
Qed.

Lemma lined_components g file l :
  Forall (fun f => File f = file /\ (0 < Line f)%Z) l -> StronglySorted (not_after line_less) l ->
  components g l (lined_clusters g l).
Proof.
  intros Hl Hs. destruct g as [g|]; simpl.
  - destruct (key_loop_inv g l) as [Hu Hk _ Ho Hn].
    set (s := foldl _ _ _) in *. clearbody s.
    set (keyed := filter (fun f => GroupKey g f <> "") l).
    eapply (components_perm _ (keyed ++ filter (fun f => GroupKey g f = "") l)).
    { rewrite Permutation_app_comm. apply filter_app_complement. }
    assert ((fun k => default [] (ks_keyed s !! k)) <$> ks_order s =
            (fun k => filter (fun f => GroupKey g f = k) keyed) <$> ks_order s) as ->.
    { apply list_fmap_ext. intros i k Hik. apply list_elem_of_lookup_2, Ho in Hik as [Hne _].
      rewrite (Hk k Hne). unfold keyed. rewrite list_filter_filter.
      apply list_filter_iff. intros f. split; [|by intros [? _]]. intros <-. done. }
    apply components_app.
    + apply (keyed_components g file).
      * apply Forall_forall. intros f [Hf Hfl]%list_elem_of_filter.
        rewrite Forall_forall in Hl. destruct (Hl f Hfl). done.
      * done.
      * intros k. rewrite Ho. unfold keyed. setoid_rewrite list_elem_of_filter. split.
        -- intros (Hne & f & Hf & <-). eauto.
        -- intros (f & [Hne Hf] & <-). eauto.
    + rewrite Hu. apply (proximityClusters_components (Some g) file).
      * apply Forall_forall. intros f [Hf Hfl]%list_elem_of_filter.
        rewrite Forall_forall in Hl. destruct (Hl f Hfl). done.
      * by apply StronglySorted_filter.
    + intros a b [Ha Hal]%list_elem_of_filter [Hb Hbl]%list_elem_of_filter
        [_ [[? ?]|(_ & _ & Hab & _)]]; [|simpl in Hab; congruence].
      rewrite Forall_forall in Hl. destruct (Hl a Hal). lia.
  - apply (proximityClusters_components None file); [|done].
    eapply Forall_impl; [exact Hl|]. intros f [? ?]. done.
Qed.

Lemma file_components g file l :
  Forall (fun f => File f = file) l -> components g l (file_clusters g l).
Proof.
  intros Hl. unfold file_clusters. rewrite splitFileLevel_filter. simpl.
  rewrite Forall_forall in Hl.
  set (fl := filter (fun f => (Line f <= 0)%Z) l).
  set (lined := filter (fun f => ~ (Line f <= 0)%Z) l).
  eapply (components_perm _ (fl ++ slice_stable line_less lined)).
  { rewrite slice_stable_Permutation. apply filter_app_complement. }
  apply components_app.
  - apply components_one. intros a b [Ha Hal]%list_elem_of_filter [Hb Hbl]%list_elem_of_filter.
    split; [|by left]. by rewrite (Hl a Hal), (Hl b Hbl).
  - apply (lined_components g file); [|apply slice_stable_sorted, _].
    apply Forall_forall. intros f Hf. rewrite slice_stable_elem in Hf.
    apply list_elem_of_filter in Hf as [Hf Hfl]. split; [by apply Hl|lia].
  - intros a b [Ha _]%list_elem_of_filter Hb. rewrite slice_stable_elem in Hb.
    apply list_elem_of_filter in Hb as [Hb _]. intros [_ [[? ?]|(? & ? & _)]]; lia.
Qed.

Lemma ClusterWith_components g fs : components g fs (ClusterWith fs g).
Proof.
  rewrite ClusterWith_files.
  assert (forall f, f ∈ fs -> File f ∈ files_of (byFile fs)) as Hall.
  { intros f Hf. apply elem_of_files_of. eauto. }
  pose proof (files_of_NoDup (byFile fs)) as Hn. revert Hn Hall.
  generalize (files_of (byFile fs)). intros ks Hn Hall.
  eapply components_perm; [by apply (filter_keys_Permutation File ks)|].
  clear Hall. induction Hn as [|k ks Hk Hn IH]; simpl; [apply components_nil|].
  apply components_app; [|done|].
  - apply (file_components g k). apply Forall_forall. by intros f [? _]%list_elem_of_filter.
  - intros a b [<- _]%list_elem_of_filter (l & (k' & -> & Hk')%list_elem_of_fmap & Hb)%elem_of_mjoin
      [Heq _]. apply list_elem_of_filter in Hb as [<- _]. by rewrite Heq in Hk.
Qed.

(** ** Properties *)

(** Clustering loses and duplicates nothing: for any
    grouper, the clusters of [ClusterWith] together are a permutation of the input
    findings, and no cluster is empty. *)
Theorem ClusterWith_partition (fs : list Finding) (g : option Grouper) :
  mjoin (ClusterWith fs g) ≡ₚ fs /\ Forall (fun c => c <> []) (ClusterWith fs g).
Proof.
  destruct (ClusterWith_components g fs) as (Hp & _ & Hc). split; [done|].
  eapply Forall_impl; [exact Hc|]. by intros c [? _].
Qed.

(** C22. The clusters are exactly the connected components of
    co-location (same file; both file-level, or the same non-empty structural key,
    or both unkeyed and at most [LineProximity] lines apart): two input findings
    share a cluster exactly when a chain of co-located findings links them. *)
Theorem ClusterWith_connected_components (fs : list Finding) (g : option Grouper) (a b : Finding)
    (Ha : a ∈ fs) :
  (exists c, c ∈ ClusterWith fs g /\ a ∈ c /\ b ∈ c) <->
  rtc (fun x y => x ∈ fs /\ y ∈ fs /\ colocated g x y) a b.
Proof. apply components_iff; [apply ClusterWith_components|done]. Qed.

(** A grouper that supplies no key clusters exactly as no
    grouper at all, as the clusters of [Cluster]: the AST path is opt-in. *)
Theorem ClusterWith_keyless (fs : list Finding) (g : Grouper)
    (Hg : forall f, f ∈ fs -> GroupKey g f = "") :
  ClusterWith fs (Some g) = Cluster fs.
Proof.
  change (Cluster fs) with (ClusterWith fs None). rewrite !ClusterWith_files. f_equal.
  apply list_fmap_ext. intros _ file _. unfold file_clusters. f_equal. simpl.
  set (l := slice_stable _ _).
  assert (forall f, f ∈ l -> GroupKey g f = "") as Hl.
  { intros f Hf. unfold l in Hf. rewrite slice_stable_elem, splitFileLevel_filter in Hf.
    apply list_elem_of_filter in Hf as [_ Hf]. apply list_elem_of_filter in Hf as [_ Hf]. auto. }
  destruct (key_loop_inv g l) as [Hu _ _ Ho _]. rewrite Hu.
  destruct (ks_order _) as [|k ks] eqn:E.
  - simpl. f_equal. apply filter_Forall_id. by apply Forall_forall.
  - exfalso. destruct (proj1 (Ho k)) as (Hne & f & Hf & <-); [left|]. by rewrite Hl in Hne.
Qed.

(** Three findings of one file on lines 1, 4 and 9, and one file-level finding. *)
Definition mk_at (line : Z) (p : string) : Finding :=
  mkFinding "HIGH" "a.go" line p "" "logic" 5 "" "r" [] "" "" None.
Definition four : list Finding := [mk_at 9 "c"; mk_at 1 "a"; mk_at 0 "d"; mk_at 4 "b"].

Example Cluster_four :
  Cluster four = [[mk_at 0 "d"]; [mk_at 1 "a"; mk_at 4 "b"]; [mk_at 9 "c"]].
Proof. by vm_compute. Qed.

Example ClusterWith_connected_components_witness :
  mk_at 1 "a" ∈ four /\
  ((exists c, c ∈ ClusterWith four None /\ mk_at 1 "a" ∈ c /\ mk_at 4 "b" ∈ c) <->
   rtc (fun x y => x ∈ four /\ y ∈ four /\ colocated None x y) (mk_at 1 "a") (mk_at 4 "b")).
Proof.
  assert (mk_at 1 "a" ∈ four) as H by (apply list_elem_of_In; simpl; tauto).
  split; [exact H|]. exact (ClusterWith_connected_components four None _ _ H).
Defined.

Example ClusterWith_keyless_witness :
  (forall f, f ∈ four -> GroupKey (mkGrouper (fun _ => "")) f = "") /\
  ClusterWith four (Some (mkGrouper (fun _ => ""))) = Cluster four.
Proof.
  split; [done|]. apply (ClusterWith_keyless four). done.
Defined.
