(* ===== verification/Similarity.v ===== *)
(** * Similarity and the composite distance

    The token sets, the merge/gray/distinct classification of dedupe.go and the
    edge-weight distance of src/reconcile/distance.go. *)

From Stdlib Require Import Ascii String.
From stdpp Require Import prelude strings gmap.
From Stdlib Require Import ZArith Lia Floats.SpecFloat.
From S2P Require Import Prelude GoString GoFloat Finding.

Open Scope string_scope.
Open Scope list_scope.

Section similarity.
Context {U : UnicodeCase}.

(** The characters of [[a-z0-9]]. *)
Definition is_token_byte (c : ascii) : bool := is_lower c || is_digit c.

(** [tokenSplit.Split(s, -1)] less its empty strings: the maximal runs of token
    characters. The regexp [[^a-z0-9]+] matches every other rune, invalid UTF-8
    included, so a byte outside ASCII always separates. *)
Fixpoint token_runs (l cur : bytes) : list bytes :=
  match l with
  | [] => match cur with [] => [] | _ => [cur] end
  | c :: l' =>
      if is_token_byte c then token_runs l' (cur ++ [c])
      else match cur with [] => token_runs l' [] | _ => cur :: token_runs l' [] end
  end.

Definition tokenize (s : string) : gset string :=
  foldl (fun set tok => {[of_bytes tok]} ∪ set) ∅ (token_runs (to_bytes (ToLower s)) []).

(** The dedupe outcome for one pair. *)
Inductive relation := relDistinct | relGray | relMerge.
#[global] Instance relation_eq_dec : EqDecision relation.
Proof. solve_decision. Defined.

(** The loop that counts the common tokens. *)
Definition inter_count (a b : gset string) : nat :=
  length (filter (fun t => t ∈ b) (elements a)).

Definition classify (a b : gset string) : relation * float64 :=
  if (size a =? 0)%nat && (size b =? 0)%nat then (relMerge, f_one)
  else if (size a =? 0)%nat || (size b =? 0)%nat then (relDistinct, f_zero)
  else
    let inter := inter_count a b in
    let union := (size a + size b - inter)%nat in
    let sim := f_div (f_of_nat inter) (f_of_nat union) in
    if (union * 7 <=? inter * 10)%nat then (relMerge, sim)
    else if (union * 4 <=? inter * 10)%nat then (relGray, sim)
    else (relDistinct, sim).

Definition distanceFloor : float64 := f_zero.
Definition distanceCeiling : float64 := f_one.

Definition pairDistance (keyA keyB : string) (tokA tokB : gset string) : float64 :=
  if negb (keyA =? "") && (keyA =? keyB) then distanceFloor
  else let '(_, sim) := classify tokA tokB in f_sub distanceCeiling sim.

(** ** Lemmas *)

Lemma inter_count_size a b : inter_count a b = size (a ∩ b).
Proof.
  unfold inter_count. rewrite <- (size_list_to_set (C := gset string)).
  - apply (f_equal size). apply set_eq. intros x.
    rewrite elem_of_list_to_set, list_elem_of_filter, elem_of_elements, elem_of_intersection. tauto.
  - apply NoDup_filter, NoDup_elements.
Qed.

Lemma size_union_inter (a b : gset string) :
  (size a + size b - size (a ∩ b))%nat = size (a ∪ b).
Proof.
  assert (a ∪ b = a ∪ (b ∖ a)) as ->.
  { apply set_eq. intros x. rewrite !elem_of_union, elem_of_difference.
    destruct (decide (x ∈ a)); tauto. }
  rewrite (size_union a (b ∖ a)) by set_solver.
  assert (size b = size (a ∩ b) + size (b ∖ a))%nat as Hb.
  { rewrite <- (size_union (a ∩ b) (b ∖ a)) by set_solver. apply (f_equal size). apply set_eq. intros x.
    rewrite elem_of_union, elem_of_intersection, elem_of_difference.
    destruct (decide (x ∈ a)); tauto. }
  lia.
Qed.

Lemma size_zero (a : gset string) : size a = 0 <-> a = ∅.
Proof. rewrite size_empty_iff. apply leibniz_equiv_iff. Qed.

Lemma classify_sym a b : classify a b = classify b a.
Proof.
  unfold classify. rewrite !inter_count_size, !size_union_inter.
  pose proof (intersection_comm_L b a) as Hi. pose proof (union_comm_L b a) as Hu.
  rewrite Hi, Hu.
  by destruct (size a =? 0)%nat, (size b =? 0)%nat.
Qed.

(** [classify] decides the merge and gray thresholds
    exactly on the token sets: two empty texts are duplicates, one empty text is
    distinct from any other, and otherwise the pair merges when the Jaccard ratio
    |a n b| / |a u b| is at least 7/10 and is gray when it is in [4/10, 7/10), as
    integer inequalities with no rounding; it does not depend on the order. *)
Theorem classify_thresholds (a b : gset string) :
  (fst (classify a b) = relMerge <->
     a = ∅ /\ b = ∅ \/ a <> ∅ /\ b <> ∅ /\ 7 * size (a ∪ b) <= 10 * size (a ∩ b)) /\
  (fst (classify a b) = relGray <->
     a <> ∅ /\ b <> ∅ /\ 4 * size (a ∪ b) <= 10 * size (a ∩ b) < 7 * size (a ∪ b)) /\
  classify a b = classify b a.
Proof.
  split_and!; [..|apply classify_sym]; unfold classify;
    rewrite inter_count_size, size_union_inter;
    rewrite <- !size_zero;
    destruct (size a =? 0)%nat eqn:Ea, (size b =? 0)%nat eqn:Eb; simpl; bool_prop;
    try (split; [done|lia]); try (split; [auto|done]);
    destruct (size (a ∪ b) * 7 <=? size (a ∩ b) * 10)%nat eqn:E7; simpl; bool_prop;
    try (split; [intros; lia|done]); try (split; [done|intros; lia]);
    destruct (size (a ∪ b) * 4 <=? size (a ∩ b) * 10)%nat eqn:E4; simpl; bool_prop;
    (split; [intros; first [done|lia]|intros; first [done|lia]]).
Qed.

(** ** The words of a text *)

(** A lower-case ASCII letter or a digit. *)
Definition word_byte (c : ascii) : Prop := (97 <= code c <= 122)%N \/ (48 <= code c <= 57)%N.
(** A maximal run of them. *)
Definition word_in (text w : bytes) : Prop := w <> [] /\ Forall word_byte w /\
  exists pre post, text = pre ++ w ++ post /\
    (forall l c, pre = l ++ [c] -> ~ word_byte c) /\ (forall c l, post = c :: l -> ~ word_byte c).

Lemma is_token_byte_word c : is_token_byte c = true <-> word_byte c.
Proof. unfold is_token_byte, is_lower, is_digit, between, word_byte. rewrite orb_true_iff, !andb_true_iff, !N.leb_le. tauto. Qed.

Lemma word_in_run w : Forall word_byte w -> forall v, word_in w v <-> v = w /\ w <> [].
Proof.
  intros Hw v. split.
  - intros (Hne & _ & pre & post & -> & Hpre & Hpost). apply Forall_app in Hw as [H1 [H2 H3]%Forall_app].
    assert (pre = []) as ->.
    { destruct pre as [|c l _] using rev_ind; [done|]. apply Forall_app in H1 as [_ H1]. inversion_clear H1. by destruct (Hpre l c). }
    destruct post as [|c l]; [rewrite app_nil_r; auto|]. inversion_clear H3. by destruct (Hpost c l).
  - intros [-> Hne]. split; [done|]. split; [done|]. exists [], []. rewrite app_nil_r. split; [done|].
    split; [by intros [|? l] c|done].
Qed.

Lemma word_in_split cur c l v : Forall word_byte cur -> ~ word_byte c ->
  word_in (cur ++ c :: l) v <-> (v = cur /\ cur <> []) \/ word_in l v.
Proof.
  intros Hcur Hc. split.
  - intros (Hne & Hv & pre & post & E & Hpre & Hpost). apply app_eq_app in E as (m & [[-> E]|[-> E]]).
    + left. apply app_eq_app in E as (m' & [[-> E]|[-> E]]).
      * destruct m' as [|d m'].
        { cbn in E. rewrite app_nil_r in *. subst post. assert (pre = []) as ->; [|done].
          apply Forall_app in Hcur as [H1 _]. destruct pre as [|d k _] using rev_ind; [done|]. apply Forall_app in H1 as [_ H1].
          inversion_clear H1. by destruct (Hpre k d). }
        injection E as -> _. apply Forall_app in Hv as [_ Hv]. by inversion_clear Hv.
      * apply Forall_app in Hcur as [H1 [_ H2]%Forall_app].
        assert (pre = []) as ->.
        { destruct pre as [|d k _] using rev_ind; [done|]. apply Forall_app in H1 as [_ H1]. inversion_clear H1. by destruct (Hpre k d). }
        destruct m' as [|d m']; [by rewrite app_nil_r|]. inversion_clear H2. by destruct (Hpost d (m' ++ c :: l)).
    + right. destruct m as [|d m].
      { cbn in E. destruct v as [|d v]; [done|]. injection E as -> _. by inversion_clear Hv. }
      injection E as -> ->. split; [done|]. split; [done|]. exists m, post. split; [done|]. split; [|done].
      intros k x ->. apply (Hpre (cur ++ d :: k) x). by rewrite <- app_assoc.
  - intros [[-> Hne]|(Hne & Hv & pre & post & -> & Hpre & Hpost)].
    + split; [done|]. split; [done|]. exists [], (c :: l). split; [done|]. split; [by intros [|? k] d|]. by intros d k [= -> _].
    + split; [done|]. split; [done|]. exists (cur ++ c :: pre), post. split; [by rewrite <- app_assoc|]. split; [|done].
      intros k d E. destruct pre as [|x pre _] using rev_ind.
      * apply app_inj_tail in E as [_ ->]. done.
      * rewrite app_comm_cons, app_assoc in E. apply app_inj_tail in E as [_ <-]. by apply (Hpre pre x).
Qed.

Lemma token_runs_words l cur v : Forall word_byte cur -> v ∈ token_runs l cur <-> word_in (cur ++ l) v.
Proof.
  revert cur. induction l as [|c l IH]; intros cur Hcur; cbn [token_runs].
  - rewrite app_nil_r, (word_in_run cur Hcur). destruct cur; [by split; [intros ?%elem_of_nil|intros [_ ?]]|].
    rewrite list_elem_of_singleton. split; [done|by intros [? _]].
  - destruct (is_token_byte c) eqn:Ec.
    + apply is_token_byte_word in Ec. rewrite IH by (apply Forall_app; split; [done|by constructor]). by rewrite <- app_assoc.
    + assert (~ word_byte c) as Hc by (rewrite <- is_token_byte_word; congruence). rewrite word_in_split by done.
      destruct cur as [|d cur]; [|rewrite elem_of_cons]; rewrite IH by constructor; cbn [app]; naive_solver.
Qed.

(** The token set of a text is the set of the words of its lower-cased form. *)
Lemma tokenize_words s w : w ∈ tokenize s <-> word_in (to_bytes (ToLower s)) (to_bytes w).
Proof.
  transitivity (to_bytes w ∈ token_runs (to_bytes (ToLower s)) []); [|by apply (token_runs_words _ [])].
  unfold tokenize. set (runs := token_runs _ _). clearbody runs.
  assert (forall set : gset string, w ∈ foldl (fun set tok => {[of_bytes tok]} ∪ set) set runs <-> to_bytes w ∈ runs \/ w ∈ set) as H.
  { induction runs as [|r runs IH]; intros set; cbn [foldl]; [rewrite elem_of_nil; tauto|].
    rewrite IH, elem_of_cons, elem_of_union, elem_of_singleton.
    assert (w = of_bytes r <-> to_bytes w = r) as ->; [|tauto]. split.
    - intros ->. by rewrite list_ascii_of_string_of_list_ascii.
    - intros <-. by rewrite string_of_list_ascii_of_string. }
  rewrite H, elem_of_empty. tauto.
Qed.
End similarity.
