(* ===== verification/UnionFind.v ===== *)
(** * The disjoint-set of dedupe.go

    [unionFind] folds adjudicated gray-pair merges over the group ids of a cluster.
    The model keeps the parent array and its path halving; [None] is an index out
    of range or a loop that runs out of fuel. *)

From stdpp Require Import prelude list.
From Stdlib Require Import Lia.
From S2P Require Import Prelude.

Record unionFind := mkUnionFind { parent : list nat }.

Definition newUnionFind (n : nat) : unionFind := mkUnionFind (seq 0 n).

(** The loop of [find]: path halving, then one step up. *)
Fixpoint find_loop (fuel : nat) (p : list nat) (x : nat) : option (nat * list nat) :=
  px ← p !! x;
  if (px =? x)%nat then Some (x, p)
  else
    ppx ← p !! px;
    match fuel with
    | O => None
    | S n => find_loop n (<[x := ppx]> p) ppx
    end.

Definition find (u : unionFind) (x : nat) : option (nat * unionFind) :=
  '(r, p) ← find_loop (length (parent u)) (parent u) x; Some (r, mkUnionFind p).

Definition union (u : unionFind) (a b : nat) : option unionFind :=
  '(ra, u) ← find u a;
  '(rb, u) ← find u b;
  Some (if (ra =? rb)%nat then u
        else if (ra <? rb)%nat then mkUnionFind (<[rb := ra]> (parent u))
        else mkUnionFind (<[ra := rb]> (parent u))).

(** ** Well-formedness and representatives *)

(** Every parent is in range and not above its child, so parent chains descend. *)
Definition uf_wf (p : list nat) : Prop :=
  forall x px, p !! x = Some px -> px <= x.

(** [r] is the root of [x]. *)
Inductive rep (p : list nat) : nat -> nat -> Prop :=
  | rep_root x : p !! x = Some x -> rep p x x
  | rep_step x px r : p !! x = Some px -> px <> x -> rep p px r -> rep p x r.

Lemma uf_wf_lt p x px : uf_wf p -> p !! x = Some px -> px < length p.
Proof. intros Hw Hx. pose proof (Hw _ _ Hx). apply lookup_lt_Some in Hx. lia. Qed.

Lemma rep_det p x r1 r2 : rep p x r1 -> rep p x r2 -> r1 = r2.
Proof.
  intros H1. revert r2. induction H1 as [x Hx|x px r Hx Hne _ IH]; intros r2 H2;
    inversion H2; subst; try congruence. apply IH. congruence.
Qed.

Lemma rep_is_root p x r : rep p x r -> p !! r = Some r.
Proof. by induction 1. Qed.

Lemma rep_le p x r : uf_wf p -> rep p x r -> r <= x.
Proof. intros Hw. induction 1 as [|x px r Hx _ _ IH]; [done|]. specialize (Hw _ _ Hx). lia. Qed.

Lemma rep_exists p x : uf_wf p -> x < length p -> exists r, rep p x r.
Proof.
  intros Hw. induction (lt_wf x) as [x _ IH]. intros Hx.
  destruct (lookup_lt_is_Some_2 _ _ Hx) as [px Hpx]. pose proof (Hw _ _ Hpx) as Hle.
  destruct (decide (px = x)) as [->|Hne]; [exists x; by constructor|].
  destruct (IH px) as [r Hr]; [lia..|]. exists r. by eapply rep_step.
Qed.

(** Redirecting [x] to a lower node [y] with the same root keeps every root. *)
Lemma rep_relink p x y r z s :
  uf_wf p -> rep p x r -> rep p y r -> y < x -> rep p z s -> rep (<[x := y]> p) z s.
Proof.
  intros Hw Hx Hy Hlt. revert s. induction (lt_wf z) as [z _ IH]. intros s Hz.
  assert (x < length p) as Hxl.
  { destruct Hx as [x Hx|x ? ? Hx]; by apply lookup_lt_Some in Hx. }
  destruct (decide (z = x)) as [->|Hne].
  - rewrite (rep_det _ _ _ _ Hz Hx). apply rep_step with y; [|lia|by apply IH].
    by apply list_lookup_insert_eq.
  - destruct Hz as [z Hz|z pz s Hz Hpz Hs].
    + apply rep_root. by rewrite list_lookup_insert_ne.
    + apply rep_step with pz; [by rewrite list_lookup_insert_ne|done|].
      apply IH; [|done]. specialize (Hw _ _ Hz). lia.
Qed.

(** Redirecting a root [b] to a lower root [a] merges the two classes. *)
Lemma rep_merge p a b z s :
  uf_wf p -> p !! a = Some a -> p !! b = Some b -> a < b -> rep p z s ->
  rep (<[b := a]> p) z (if decide (s = b) then a else s).
Proof.
  intros Hw Ha Hb Hlt Hz. pose proof (lookup_lt_Some _ _ _ Hb) as Hbl.
  assert (rep (<[b := a]> p) a a) as Haa.
  { apply rep_root. rewrite list_lookup_insert_ne by lia. done. }
  induction Hz as [z Hz|z pz s Hz Hpz _ IH].
  - case_decide as Hd.
    + subst z. apply rep_step with a; [by apply list_lookup_insert_eq|lia|done].
    + apply rep_root. by rewrite list_lookup_insert_ne.
  - apply rep_step with pz; [|done|done]. rewrite list_lookup_insert_ne; [done|].
    intros ->. congruence.
Qed.

Lemma uf_wf_insert p x y : uf_wf p -> y <= x -> uf_wf (<[x := y]> p).
Proof.
  intros Hw Hle z pz. rewrite list_lookup_insert. case_decide as Hd.
  - intros [= <-]. lia.
  - apply Hw.
Qed.

Lemma newUnionFind_lookup n x : parent (newUnionFind n) !! x = if decide (x < n) then Some x else None.
Proof.
  simpl. case_decide as H; [by rewrite lookup_seq_lt|].
  apply lookup_ge_None_2. rewrite length_seq. lia.
Qed.

Lemma newUnionFind_wf n : uf_wf (parent (newUnionFind n)).
Proof. intros x px. rewrite newUnionFind_lookup. case_decide; [intros [= <-]; lia|done]. Qed.

Lemma newUnionFind_rep n x : x < n -> rep (parent (newUnionFind n)) x x.
Proof. intros H. apply rep_root. rewrite newUnionFind_lookup. by rewrite decide_True. Qed.

(** ** [find] *)

Lemma find_loop_spec fuel p x :
  uf_wf p -> x < length p -> x <= fuel ->
  exists r p', find_loop fuel p x = Some (r, p') /\ rep p x r /\ uf_wf p' /\
    length p' = length p /\ forall z s, rep p z s -> rep p' z s.
Proof.
  revert p x. induction fuel as [|fuel IH]; intros p x Hw Hx Hf;
    destruct (lookup_lt_is_Some_2 _ _ Hx) as [px Hpx]; simpl; rewrite Hpx; simpl;
    (destruct (px =? x)%nat eqn:E; bool_prop;
      [subst px; exists x, p; split_and!; auto using rep_root|]); pose proof (Hw _ _ Hpx).
  - lia.
  - destruct (lookup_lt_is_Some_2 p px) as [ppx Hppx]; [lia|]. rewrite Hppx. simpl.
    pose proof (Hw _ _ Hppx).
    destruct (rep_exists p ppx Hw) as [r Hr]; [lia|].
    assert (rep p px r) as Hpr.
    { destruct (decide (ppx = px)) as [->|]; [done|]. by apply rep_step with ppx. }
    assert (rep p x r) as Hxr by (by apply rep_step with px).
    destruct (IH (<[x := ppx]> p) ppx) as (r' & p' & -> & Hr' & Hw' & Hl' & Hk).
    + apply uf_wf_insert; [done|lia].
    + rewrite length_insert. lia.
    + lia.
    + assert (forall z s, rep p z s -> rep (<[x := ppx]> p) z s) as Hins.
      { intros z s Hz. apply rep_relink with r; [done..|lia|done]. }
      exists r', p'. rewrite length_insert in Hl'. split_and!; auto.
      by rewrite (rep_det _ _ _ _ Hr' (Hins _ _ Hr)).
Qed.

(** ** Abstract specification: an equivalence relation on [0 .. n-1] *)

(** [x] and [y] are in the same set. *)
Definition same (u : unionFind) (x y : nat) : Prop :=
  exists r, rep (parent u) x r /\ rep (parent u) y r.

(** The invariant every reachable disjoint-set of [n] elements satisfies. *)
Definition uf_inv (n : nat) (u : unionFind) : Prop := uf_wf (parent u) /\ length (parent u) = n.

Lemma find_spec n u x :
  uf_inv n u -> x < n ->
  exists r u', find u x = Some (r, u') /\ rep (parent u) x r /\ uf_inv n u' /\
    forall z s, rep (parent u) z s <-> rep (parent u') z s.
Proof.
  intros [Hw Hl] Hx. unfold find.
  destruct (find_loop_spec (length (parent u)) (parent u) x) as (r & p' & -> & Hr & Hw' & Hl' & Hk);
    [done|lia..|]. exists r, (mkUnionFind p'). split; [done|]. split; [done|].
  split; [split; simpl; [done|lia]|].
  intros z s. split; [apply Hk|]. intros Hz.
  assert (z < length (parent u)) as Hzl.
  { rewrite <- Hl'. destruct Hz as [z Hz|z ? ? Hz]; by apply lookup_lt_Some in Hz. }
  destruct (rep_exists _ _ Hw Hzl) as [s' Hs'].
  by rewrite (rep_det _ _ _ _ Hz (Hk _ _ Hs')).
Qed.

Lemma union_spec n u a b :
  uf_inv n u -> a < n -> b < n ->
  exists u' ra rb, union u a b = Some u' /\ uf_inv n u' /\
    rep (parent u) a ra /\ rep (parent u) b rb /\
    forall z s, rep (parent u) z s ->
      rep (parent u') z (if decide (s = ra \/ s = rb) then ra `min` rb else s).
Proof.
  intros Hi Ha Hb. unfold union.
  destruct (find_spec n u a Hi Ha) as (ra & u1 & -> & Hra & Hi1 & Hk1). simpl.
  destruct (find_spec n u1 b Hi1 Hb) as (rb & u2 & -> & Hrb & Hi2 & Hk2). simpl.
  rewrite <- Hk1 in Hrb. pose proof Hi2 as [Hw2 Hl2].
  assert (forall z s, rep (parent u) z s -> rep (parent u2) z s) as Hk.
  { intros z s Hz. by apply Hk2, Hk1. }
  pose proof (rep_is_root _ _ _ (Hk _ _ Hra)) as Hra2.
  pose proof (rep_is_root _ _ _ (Hk _ _ Hrb)) as Hrb2.
  destruct (ra =? rb)%nat eqn:E; bool_prop; [|destruct (ra <? rb)%nat eqn:E2; bool_prop].
  - subst rb. exists u2, ra, ra. split_and!; try done. intros z s Hz.
    case_decide as Hd; [|by apply Hk]. rewrite Nat.min_id. destruct Hd as [->| ->]; by apply Hk.
  - exists (mkUnionFind (<[rb := ra]> (parent u2))), ra, rb. split_and!; try done.
    + split; simpl; [exact (uf_wf_insert _ rb ra Hw2 ltac:(lia))|by rewrite length_insert].
    + intros z s Hz. simpl. rewrite Nat.min_l by lia.
      pose proof (rep_merge _ ra rb z s Hw2 Hra2 Hrb2 E2 (Hk _ _ Hz)) as Hm.
      destruct (decide (s = rb)), (decide (s = ra \/ s = rb)) as [[->| ->]|]; done || tauto.
  - exists (mkUnionFind (<[ra := rb]> (parent u2))), ra, rb. split_and!; try done.
    + split; simpl; [exact (uf_wf_insert _ ra rb Hw2 ltac:(lia))|by rewrite length_insert].
    + intros z s Hz. simpl. rewrite Nat.min_r by lia.
      pose proof (rep_merge _ rb ra z s Hw2 Hrb2 Hra2 ltac:(lia) (Hk _ _ Hz)) as Hm.
      destruct (decide (s = ra)), (decide (s = ra \/ s = rb)) as [[->| ->]|]; done || tauto.
Qed.

Lemma same_lt n u x y : uf_inv n u -> same u x y -> x < n /\ y < n.
Proof.
  intros [_ <-] (r & Hx & Hy). split; [destruct Hx as [? H|? ? ? H]|destruct Hy as [? H|? ? ? H]];
    by apply lookup_lt_Some in H.
Qed.

Lemma rep_total n u x : uf_inv n u -> x < n -> exists r, rep (parent u) x r.
Proof. intros [Hw <-]. by apply rep_exists. Qed.

Lemma union_same (n : nat) (u : unionFind) (a b : nat)
    (Hi : uf_inv n u) (Ha : a < n) (Hb : b < n) :
  exists u', union u a b = Some u' /\ uf_inv n u' /\
    forall x y, x < n -> y < n ->
      (same u' x y <->
       same u x y \/ same u x a /\ same u b y \/ same u x b /\ same u a y).
Proof.
  destruct (union_spec n u a b Hi Ha Hb) as (u' & ra & rb & Hu & Hi' & Hra & Hrb & Hk).
  exists u'. split_and!; [done..|]. intros x y Hx Hy.
  destruct (rep_total n u x Hi Hx) as [sx Hsx], (rep_total n u y Hi Hy) as [sy Hsy].
  assert (same u' x y <-> (if decide (sx = ra \/ sx = rb) then ra `min` rb else sx) =
            (if decide (sy = ra \/ sy = rb) then ra `min` rb else sy)) as ->.
  { pose proof (Hk _ _ Hsx) as H1. pose proof (Hk _ _ Hsy) as H2. split.
    - intros (r & Hr1 & Hr2). by rewrite (rep_det _ _ _ _ H1 Hr1), (rep_det _ _ _ _ H2 Hr2).
    - intros Heq. rewrite Heq in H1. by eexists. }
  assert (forall v w r s, rep (parent u) v r -> rep (parent u) w s -> same u v w <-> r = s) as Hs.
  { intros v w r s Hv Hw. split; [intros (t & Ht1 & Ht2)|intros ->; by exists s].
    by rewrite (rep_det _ _ _ _ Hv Ht1), (rep_det _ _ _ _ Hw Ht2). }
  rewrite (Hs x y sx sy), (Hs x a sx ra), (Hs b y rb sy), (Hs x b sx rb), (Hs a y ra sy) by done.
  repeat case_decide; lia.
Qed.

Lemma find_min (n : nat) (u : unionFind) (x : nat) (Hi : uf_inv n u) (Hx : x < n) :
  exists r u', find u x = Some (r, u') /\ same u r x /\ (forall y, same u x y -> r <= y) /\
    uf_inv n u' /\ forall y z, same u' y z <-> same u y z.
Proof.
  destruct (find_spec n u x Hi Hx) as (r & u' & Hf & Hr & Hi' & Hk). exists r, u'.
  split_and!; [done| | |done|].
  - exists r. split; [|done]. apply rep_root. by eapply rep_is_root.
  - intros y (r' & Hxr & Hyr). rewrite (rep_det _ _ _ _ Hr Hxr).
    apply rep_le with (parent u); [by destruct Hi|done].
  - intros y z. unfold same. by setoid_rewrite <- Hk.
Qed.

(** The representative, as a function. *)
Definition root_of (u : unionFind) (x : nat) : nat :=
  match find u x with Some (r, _) => r | None => x end.

Lemma root_of_rep n u x : uf_inv n u -> x < n -> rep (parent u) x (root_of u x).
Proof.
  intros Hi Hx. unfold root_of. destruct (find_spec n u x Hi Hx) as (r & u' & -> & Hr & _). done.
Qed.

Lemma rep_root_of n u x r : uf_inv n u -> x < n -> rep (parent u) x r -> root_of u x = r.
Proof. intros Hi Hx Hr. by apply (rep_det _ _ _ _ (root_of_rep n u x Hi Hx)). Qed.

Lemma same_root_of n u x y : uf_inv n u -> x < n -> y < n -> same u x y <-> root_of u x = root_of u y.
Proof.
  intros Hi Hx Hy. pose proof (root_of_rep n u x Hi Hx) as H1. pose proof (root_of_rep n u y Hi Hy) as H2.
  split.
  - intros (r & Hr1 & Hr2). by rewrite (rep_det _ _ _ _ H1 Hr1), (rep_det _ _ _ _ H2 Hr2).
  - intros Heq. rewrite <- Heq in H2. by eexists.
Qed.

Lemma same_new n x y : x < n -> y < n -> same (newUnionFind n) x y <-> x = y.
Proof.
  intros Hx Hy. split.
  - intros (r & H1 & H2). rewrite (rep_det _ _ _ _ H1 (newUnionFind_rep n x Hx)) in H2.
    symmetry. by apply (rep_det _ _ _ _ (newUnionFind_rep n y Hy)).
  - intros ->. exists y. by split; apply newUnionFind_rep.
Qed.

(** Reading through [find] changes no representative. *)
Lemma find_root n u x :
  uf_inv n u -> x < n ->
  exists u', find u x = Some (root_of u x, u') /\ uf_inv n u' /\ forall y, y < n -> root_of u' y = root_of u y.
Proof.
  intros Hi Hx. destruct (find_spec n u x Hi Hx) as (r & u' & Hf & Hr & Hi' & Hk).
  exists u'. rewrite (rep_root_of n u x r Hi Hx Hr). split; [done|]. split; [done|].
  intros y Hy. apply (rep_root_of n); [done|done|]. apply Hk. by apply (root_of_rep n).
Qed.

(** ** Properties *)

(** [find] terminates without an index panic on every element, returns
    the smallest element of its set, and its path halving changes no set. *)
Theorem find_returns_minimum (n : nat) (u : unionFind) (x : nat) (Hi : uf_inv n u) (Hx : x < n) :
  exists r u', find u x = Some (r, u') /\ same u r x /\ (forall y, same u x y -> r <= y) /\
    uf_inv n u' /\ forall y z, same u' y z <-> same u y z.
Proof. by apply find_min. Qed.

(** [union a b] implements the join of the sets of [a] and [b]: it never
    panics, and afterwards two elements share a set exactly when they did before or
    one was with [a] and the other with [b]. *)
Theorem union_joins_sets (n : nat) (u : unionFind) (a b : nat)
    (Hi : uf_inv n u) (Ha : a < n) (Hb : b < n) :
  exists u', union u a b = Some u' /\ uf_inv n u' /\
    forall x y, x < n -> y < n ->
      (same u' x y <->
       same u x y \/ same u x a /\ same u b y \/ same u x b /\ same u a y).
Proof. by apply union_same. Qed.

(** The state after [union 0 2] on four elements. *)
Example uf_inv_new n : uf_inv n (newUnionFind n).
Proof. split; [apply newUnionFind_wf|]. apply length_seq. Qed.

Example find_returns_minimum_witness :
  uf_inv 4 (newUnionFind 4) /\
  exists r u', find (newUnionFind 4) 2 = Some (r, u') /\ same (newUnionFind 4) r 2 /\
    (forall y, same (newUnionFind 4) 2 y -> r <= y) /\
    uf_inv 4 u' /\ forall y z, same u' y z <-> same (newUnionFind 4) y z.
Proof.
  split; [apply uf_inv_new|]. apply (find_returns_minimum 4); [apply uf_inv_new|lia].
Defined.

Example union_joins_sets_witness :
  uf_inv 4 (newUnionFind 4) /\
  exists u', union (newUnionFind 4) 2 0 = Some u' /\ uf_inv 4 u' /\
    forall x y, x < 4 -> y < 4 ->
      (same u' x y <-> same (newUnionFind 4) x y \/
         same (newUnionFind 4) x 2 /\ same (newUnionFind 4) 0 y \/
         same (newUnionFind 4) x 0 /\ same (newUnionFind 4) 2 y).
Proof.
  split; [apply uf_inv_new|]. apply (union_joins_sets 4); [apply uf_inv_new|lia|lia].
Defined.
