(* ===== verification/Dbscan.v ===== *)
(** * DBSCAN noise isolation

    src/reconcile/dbscan.go. [dbscanLabels] labels the points of one location
    cluster; the only caller passes [dbscanMinPts = 2] and a symmetric neighbour
    predicate, and for those the labels are the connected components of the
    neighbour graph, with the isolated points as noise. *)

From stdpp Require Import prelude list.
From Stdlib Require Import ZArith Lia.
From S2P Require Import Prelude.

Definition dbscanMinPts : nat := 2.
Definition dbscanNoise : Z := -1.
Definition dbscanUnvisited : Z := -2.

(** The slices and the loop of one cluster expansion. *)
Record db_state := mkDb {
  labels : list Z;
  queued : list bool;
  seeds : list nat;
}.

Section dbscan.
Context (n minPts : nat) (neighbor : nat -> nat -> bool).

Definition neighborsOf (p : nat) : list nat :=
  filter (fun q => q <> p /\ neighbor p q = true) (seq 0 n).

Definition is_core (nb : list nat) : bool := minPts <=? length nb + 1.

Definition mark (qs : list nat) (queued : list bool) : list bool :=
  foldl (fun queued q => <[q := true]> queued) queued qs.

(** [for _, r := range qn]: enqueue the unvisited neighbours not yet queued. *)
Definition enqueue (labels : list Z) (qn : list nat) (s : list bool * list nat)
    : list bool * list nat :=
  foldl (fun '(queued, seeds) r =>
      if (labels !!! r =? dbscanUnvisited)%Z && negb (queued !!! r)
      then (<[r := true]> queued, seeds ++ [r]) else (queued, seeds)) s qn.

(** One iteration of [for k := 0; k < len(seeds); k++] at [q = seeds[k]]. *)
Definition expand_step (cluster : Z) (q : nat) (s : db_state) : db_state :=
  let lab := labels s in
  let lab := if (lab !!! q =? dbscanNoise)%Z then <[q := cluster]> lab else lab in
  if negb (lab !!! q =? dbscanUnvisited)%Z then mkDb lab (queued s) (seeds s)
  else
    let lab := <[q := cluster]> lab in
    let qn := neighborsOf q in
    if is_core qn then
      let '(qu, se) := enqueue lab qn (queued s, seeds s) in mkDb lab qu se
    else mkDb lab (queued s) (seeds s).

(** The loop grows the slice it ranges over; [None] is running out of fuel. *)
Fixpoint expand (fuel : nat) (cluster : Z) (k : nat) (s : db_state) : option db_state :=
  match seeds s !! k with
  | None => Some s
  | Some q =>
      match fuel with
      | O => None
      | S f => expand f cluster (S k) (expand_step cluster q s)
      end
  end.

(** One iteration of the outer loop over the points. *)
Definition visit (p : nat) (st : list Z * list bool * Z) : option (list Z * list bool * Z) :=
  let '(lab, qu, cluster) := st in
  if negb (lab !!! p =? dbscanUnvisited)%Z then Some (lab, qu, cluster)
  else
    let nb := neighborsOf p in
    if length nb + 1 <? minPts then Some (<[p := dbscanNoise]> lab, qu, cluster)
    else
      s ← expand n cluster 0 (mkDb (<[p := cluster]> lab) (mark nb qu) nb);
      Some (labels s, queued s, cluster + 1)%Z.

Fixpoint visit_all (ps : list nat) (st : list Z * list bool * Z) : option (list Z * list bool * Z) :=
  match ps with
  | [] => Some st
  | p :: ps' => st ← visit p st; visit_all ps' st
  end.

Definition dbscanLabels : option (list Z * bool) :=
  '(lab, _, cluster) ←
    visit_all (seq 0 n) (replicate n dbscanUnvisited, replicate n false, 0%Z);
  Some (lab, (0 <? cluster)%Z).
End dbscan.

Section correctness.
Context (n : nat) (neighbor : nat -> nat -> bool).
Context (Hsym : forall i j, neighbor i j = neighbor j i).

Notation nbs := (neighborsOf n neighbor).

Lemma elem_of_nbs p q : q ∈ nbs p <-> q < n /\ q <> p /\ neighbor p q = true.
Proof. unfold neighborsOf. rewrite list_elem_of_filter, elem_of_seq. split; intros; lia || naive_solver lia. Qed.

Lemma nbs_sym p q : p < n -> q ∈ nbs p -> p ∈ nbs q.
Proof. rewrite !elem_of_nbs, (Hsym q p). naive_solver. Qed.

Lemma nbs_NoDup p : NoDup (nbs p).
Proof. apply NoDup_filter, NoDup_seq. Qed.

(** Two points are linked when a chain of neighbours joins them. *)
Definition linked : nat -> nat -> Prop := rtc (fun a b => a < n /\ b ∈ nbs a).

Lemma linked_step a b : a < n -> b ∈ nbs a -> linked a b.
Proof. intros. by apply rtc_once. Qed.

Lemma linked_sym a b : linked a b -> linked b a.
Proof.
  unfold linked. induction 1 as [x|x y z [Hx Hy] _ IH]; [done|].
  eapply rtc_r; [exact IH|]. pose proof (proj1 (elem_of_nbs _ _) Hy) as (? & _).
  split; [done|by apply nbs_sym].
Qed.

Lemma linked_trans a b c : linked a b -> linked b c -> linked a c.
Proof. unfold linked. intros. by transitivity b. Qed.

(** Between clusters: labels are closed under neighbours and classes connected. *)
Record outer_inv (lab : list Z) (qu : list bool) (c : Z) : Prop := {
  o_len : length lab = n /\ length qu = n;
  o_range : forall q, q < n -> lab !!! q = dbscanUnvisited \/ lab !!! q = dbscanNoise \/
    (0 <= lab !!! q < c)%Z;
  o_noise : forall q, q < n -> lab !!! q = dbscanNoise -> nbs q = [];
  o_closed : forall q r, q < n -> (0 <= lab !!! q)%Z -> r ∈ nbs q -> lab !!! r = lab !!! q;
  o_conn : forall q r, q < n -> r < n -> (0 <= lab !!! q)%Z -> lab !!! q = lab !!! r -> linked q r;
  o_queued : forall q, q < n -> qu !!! q = true -> (0 <= lab !!! q)%Z;
  o_pos : (0 <= c)%Z;
  o_nb : forall q, q < n -> (0 <= lab !!! q)%Z -> nbs q <> [];
  o_used : (0 < c)%Z -> exists q r, q < n /\ r ∈ nbs q;
}.

(** Inside the expansion of cluster [c] from [p], before seed number [k]. *)
Record inner_inv (c : Z) (p k : nat) (s : db_state) : Prop := {
  i_len : length (labels s) = n /\ length (queued s) = n;
  i_range : forall q, q < n -> labels s !!! q = dbscanUnvisited \/ labels s !!! q = dbscanNoise \/
    (0 <= labels s !!! q <= c)%Z;
  i_noise : forall q, q < n -> labels s !!! q = dbscanNoise -> nbs q = [];
  i_closed : forall q r, q < n -> (0 <= labels s !!! q < c)%Z -> r ∈ nbs q ->
    labels s !!! r = labels s !!! q;
  i_conn : forall q r, q < n -> r < n -> (0 <= labels s !!! q < c)%Z ->
    labels s !!! q = labels s !!! r -> linked q r;
  i_cur : forall q, q < n -> labels s !!! q = c -> linked p q;
  i_p : p < n /\ labels s !!! p = c /\ (0 <= c)%Z;
  i_seeds : NoDup (seeds s) /\ forall q, q ∈ seeds s -> q < n /\ q <> p /\ linked p q /\ nbs q <> [];
  i_done : forall j q, j < k -> seeds s !! j = Some q -> labels s !!! q = c;
  i_todo : forall j q, k <= j -> seeds s !! j = Some q -> labels s !!! q = dbscanUnvisited;
  i_open : forall q r, q < n -> labels s !!! q = c -> r ∈ nbs q ->
    labels s !!! r = c \/ r ∈ seeds s;
  i_queued : forall q, q < n -> queued s !!! q = true -> (0 <= labels s !!! q)%Z \/ q ∈ seeds s;
  i_qseeds : forall q, q ∈ seeds s -> queued s !!! q = true;
  i_nb : forall q, q < n -> (0 <= labels s !!! q < c)%Z -> nbs q <> [];
}.

(** ** The loop bodies *)

Lemma mark_length qs qu : length (mark qs qu) = length qu.
Proof.
  unfold mark. revert qu. induction qs as [|q qs IH]; intros qu; simpl; [done|].
  by rewrite IH, length_insert.
Qed.

Lemma mark_lookup qs qu r : r < length qu -> mark qs qu !!! r = true <-> r ∈ qs \/ qu !!! r = true.
Proof.
  unfold mark. revert qu. induction qs as [|q qs IH]; intros qu Hr; simpl.
  - split; [by right|]. by intros [?%elem_of_nil|].
  - rewrite IH by by rewrite length_insert. rewrite lookup_total_insert_cases, elem_of_cons by done.
    case_decide; naive_solver.
Qed.

(** The enqueued points: unvisited and not queued before. *)
Definition fresh (lab : list Z) (qu : list bool) (qn : list nat) : list nat :=
  filter (fun r => lab !!! r = dbscanUnvisited /\ qu !!! r = false) qn.

Lemma enqueue_fresh lab qn qu se :
  NoDup qn -> (forall r, r ∈ qn -> r < length qu) ->
  enqueue lab qn (qu, se) = (mark (fresh lab qu qn) qu, se ++ fresh lab qu qn).
Proof.
  unfold enqueue, fresh. intros Hn. revert qu se.
  induction Hn as [|r qn Hr Hn IH]; intros qu se Hlt; simpl; [by rewrite app_nil_r|].
  assert (forall x, x ∈ qn -> x < length qu) as Hlt' by (intros x Hx; apply Hlt; by right).
  destruct (lab !!! r =? dbscanUnvisited)%Z eqn:E1, (qu !!! r) eqn:E2; simpl; bool_prop.
  1, 3, 4: rewrite filter_cons_False, IH by (done || naive_solver congruence); done.
  rewrite filter_cons_True by done. rewrite IH by (intros x Hx; rewrite length_insert; auto).
  assert (filter (fun x => lab !!! x = dbscanUnvisited /\ <[r:=true]> qu !!! x = false) qn =
          filter (fun x => lab !!! x = dbscanUnvisited /\ qu !!! x = false) qn) as ->.
  { apply filter_iff_in. intros x Hx.
    rewrite lookup_total_insert_cases by auto. case_decide; [by subst|done]. }
  simpl. by rewrite <- app_assoc.
Qed.

Lemma elem_of_fresh lab qu qn r :
  r ∈ fresh lab qu qn <-> r ∈ qn /\ lab !!! r = dbscanUnvisited /\ qu !!! r = false.
Proof. unfold fresh. rewrite list_elem_of_filter. tauto. Qed.

Lemma expand_step_eq c q s :
  labels s !!! q = dbscanUnvisited -> length (labels s) = n -> length (queued s) = n -> q < n ->
  nbs q <> [] ->
  let lab := <[q := c]> (labels s) in
  let new := fresh lab (queued s) (nbs q) in
  expand_step n 2 neighbor c q s = mkDb lab (mark new (queued s)) (seeds s ++ new).
Proof.
  intros Hq Hl1 Hl2 Hqn Hne lab new. unfold expand_step.
  destruct (labels s !!! q =? dbscanNoise)%Z eqn:E; [rewrite Hq in E; done|].
  rewrite Hq. simpl.
  unfold is_core. destruct (nbs q) as [|r qn] eqn:Enb; [done|]. simpl length.
  destruct (2 <=? S (length qn) + 1) eqn:E2; bool_prop; [|lia].
  rewrite enqueue_fresh; [done| |].
  - rewrite <- Enb. apply nbs_NoDup.
  - intros x. rewrite <- Enb, elem_of_nbs, Hl2. by intros [? _].
Qed.

Lemma expand_step_inv c p k q s :
  inner_inv c p k s -> seeds s !! k = Some q ->
  inner_inv c p (S k) (expand_step n 2 neighbor c q s).
Proof.
  intros [[Hl1 Hl2] Hr Hno Hcl Hco Hcu (Hp & Hpl & Hc0) [Hsn Hse] Hdo Hto Hop Hqu Hqs Hnb] Hk.
  pose proof (list_elem_of_lookup_2 _ _ _ Hk) as Hqin.
  destruct (Hse q Hqin) as (Hqn & Hqp & Hqlink & Hqnb).
  pose proof (Hto k q (le_n k) Hk) as Hun.
  rewrite expand_step_eq by done. cbv zeta.
  set (lab := <[q := c]> (labels s)). set (new := fresh lab (queued s) (nbs q)).
  assert (forall x, x < n -> lab !!! x = if decide (q = x) then c else labels s !!! x) as Hlab
    by (intros; apply lookup_total_insert_cases; lia).
  assert (forall x, x ∈ new -> x < n /\ x ∈ nbs q /\ labels s !!! x = dbscanUnvisited /\ x <> q /\
            queued s !!! x = false) as Hnew.
  { intros x (Hx & Hu & Hqq)%elem_of_fresh. pose proof (proj1 (elem_of_nbs _ _) Hx) as (Hxn & Hxq & _).
    rewrite Hlab in Hu by done. case_decide; [done|]. by split_and!. }
  assert (forall x, x ∈ new -> x ∉ seeds s) as Hdisj.
  { intros x Hx Hxs. apply Hqs in Hxs. apply Hnew in Hx as (_ & _ & _ & _ & Hx). congruence. }
  split; simpl.
  - unfold lab. by rewrite length_insert, mark_length.
  - intros x Hx. rewrite Hlab by done. case_decide; [right; right; lia|by apply Hr].
  - intros x Hx. rewrite Hlab by done. case_decide; [unfold dbscanNoise; lia|by apply Hno].
  - intros x r Hx. rewrite Hlab by done. case_decide; [lia|]. intros Hxl Hxr.
    pose proof (Hcl x r Hx Hxl Hxr) as Hrl.
    pose proof (proj1 (elem_of_nbs _ _) Hxr) as (Hrn & _). rewrite Hlab by done.
    case_decide; [|done]. subst r. rewrite Hun in Hrl. unfold dbscanUnvisited in Hrl. lia.
  - intros x r Hx Hrn. rewrite !Hlab by done. repeat case_decide; try lia. by apply Hco.
  - intros x Hx. rewrite Hlab by done. case_decide; [by subst|by apply Hcu].
  - rewrite Hlab by done. case_decide; by split_and!.
  - split.
    + apply NoDup_app. split_and!; [done|intros x Hx Hxn; by apply (Hdisj x)|].
      apply NoDup_filter, nbs_NoDup.
    + intros x [Hx|Hx]%elem_of_app; [by apply Hse|].
      apply Hnew in Hx as (Hxn & Hxq & Hxu & _). split_and!; [done| | |].
      * intros ->. rewrite Hpl in Hxu. unfold dbscanUnvisited in Hxu. lia.
      * apply (linked_trans p q); [done|by apply linked_step].
      * intros Hnil. apply (nbs_sym q x Hqn) in Hxq. rewrite Hnil in Hxq. by apply elem_of_nil in Hxq.
  - intros j x Hj Hjx. apply lookup_lt_Some in Hk as Hkl.
    rewrite lookup_app_l in Hjx by lia.
    assert (x < n) as Hx by (by destruct (Hse x); [eapply list_elem_of_lookup_2|]).
    rewrite Hlab by done. case_decide as Hd; [done|].
    destruct (decide (j = k)) as [->|]; [congruence|]. apply (Hdo j); [lia|done].
  - intros j x Hj [Hjx|[Hjl Hjx]]%lookup_app_Some.
    + assert (x < n) as Hx by (by destruct (Hse x); [eapply list_elem_of_lookup_2|]).
      rewrite Hlab by done. case_decide as Hd; [|apply (Hto j); [lia|done]].
      subst x. pose proof (NoDup_lookup _ _ _ _ Hsn Hk Hjx). lia.
    + apply list_elem_of_lookup_2, Hnew in Hjx as (Hx & _ & Hu & Hne & _).
      rewrite Hlab by done. case_decide; [done|done].
  - intros x r Hx. rewrite Hlab by done. intros Hxc Hxr.
    pose proof (proj1 (elem_of_nbs _ _) Hxr) as (Hrn & Hrx & _). rewrite Hlab by done.
    rewrite elem_of_app. destruct (decide (q = r)) as [|Hqr]; [by left|].
    case_decide as Hd.
    + subst x. destruct (Hr r Hrn) as [Hru|[Hrno|Hrc]].
      * right. destruct (queued s !!! r) eqn:Eq.
        -- destruct (Hqu r Hrn Eq) as [?|?]; [unfold dbscanUnvisited in *; lia|by left].
        -- right. apply elem_of_fresh. rewrite Hlab by done. rewrite decide_False by done. done.
      * exfalso. apply (nbs_sym q r Hqn) in Hxr. rewrite (Hno r Hrn Hrno) in Hxr.
        by apply elem_of_nil in Hxr.
      * left. destruct (decide (labels s !!! r = c)) as [|Hne]; [done|exfalso].
        apply (nbs_sym q r Hqn) in Hxr.
        pose proof (Hcl r q Hrn ltac:(lia) Hxr) as Heq. rewrite Hun in Heq.
        unfold dbscanUnvisited in Heq. lia.
    + destruct (Hop x r Hx Hxc Hxr) as [?|?]; [by left|right; by left].
  - intros x Hx. rewrite mark_lookup by lia. rewrite Hlab, elem_of_app by done.
    intros [Hxn|Hxq]; [by right; right|]. case_decide; [left; lia|].
    destruct (Hqu x Hx Hxq); [by left|right; by left].
  - intros x. rewrite elem_of_app. intros Hx.
    assert (x < n) as Hxn by (by destruct Hx as [Hx|Hx]; [apply Hse in Hx|apply Hnew in Hx]; destruct_and!).
    rewrite mark_lookup by lia. destruct Hx as [Hx|Hx]; [right; by apply Hqs|by left].
  - intros x Hx. rewrite Hlab by done. case_decide; [lia|by apply Hnb].
Qed.

Lemma seeds_length c p k s : inner_inv c p k s -> length (seeds s) <= n.
Proof.
  intros H. destruct (i_seeds _ _ _ _ H) as [Hn Hs].
  rewrite <- (length_seq n 0). apply submseteq_length, NoDup_submseteq; [done|].
  intros x Hx. apply elem_of_seq. apply Hs in Hx as [? _]. lia.
Qed.

(** The expansion loop terminates: no point is enqueued twice. *)
Lemma expand_spec fuel c p k s :
  inner_inv c p k s -> n <= fuel + k ->
  exists s' k', expand n 2 neighbor fuel c k s = Some s' /\ inner_inv c p k' s' /\
    length (seeds s') <= k'.
Proof.
  revert k s. induction fuel as [|fuel IH]; intros k s Hi Hf; simpl;
    destruct (seeds s !! k) as [q|] eqn:E.
  - pose proof (lookup_lt_Some _ _ _ E). pose proof (seeds_length _ _ _ _ Hi). lia.
  - exists s, k. split_and!; [done..|]. by apply lookup_ge_None.
  - apply IH; [by apply expand_step_inv|lia].
  - exists s, k. split_and!; [done..|]. by apply lookup_ge_None.
Qed.

Lemma start_inv lab qu c p :
  outer_inv lab qu c -> p < n -> lab !!! p = dbscanUnvisited -> nbs p <> [] ->
  inner_inv c p 0 (mkDb (<[p := c]> lab) (mark (nbs p) qu) (nbs p)).
Proof.
  intros [[Hl1 Hl2] Hr Hno Hcl Hco Hqu Hpos Hnb _] Hp Hun Hne.
  assert (forall x, x < n -> <[p := c]> lab !!! x = if decide (p = x) then c else lab !!! x) as Hlab
    by (intros; apply lookup_total_insert_cases; lia).
  assert (forall x, x < n -> p <> x -> lab !!! x <> c) as Hnc.
  { intros x Hx Hpx Heq. destruct (Hr x Hx) as [E|[E|E]]; rewrite Heq in E;
      unfold dbscanUnvisited, dbscanNoise in E; lia. }
  split; simpl.
  - by rewrite length_insert, mark_length.
  - intros q Hq. rewrite Hlab by done. case_decide; [lia|]. destruct (Hr q Hq) as [?|[?|?]]; auto with lia.
  - intros q Hq. rewrite Hlab by done. case_decide; [unfold dbscanNoise; lia|by apply Hno].
  - intros q r Hq. rewrite Hlab by done. case_decide; [lia|]. intros Hqc Hqr.
    pose proof (Hcl q r Hq ltac:(lia) Hqr) as Heq.
    pose proof (proj1 (elem_of_nbs _ _) Hqr) as (Hrn & _). rewrite Hlab by done.
    case_decide; [|done]. subst r. rewrite Hun in Heq. unfold dbscanUnvisited in Heq. lia.
  - intros q r Hq Hrn. rewrite !Hlab by done. repeat case_decide; try lia.
    intros H1 H2. apply Hco; [done..|lia|done].
  - intros q Hq. rewrite Hlab by done. case_decide; [subst; intros _; apply rtc_refl|].
    intros H1. by destruct (Hnc q).
  - rewrite Hlab by done. by rewrite decide_True.
  - split; [apply nbs_NoDup|]. intros q Hq.
    pose proof (proj1 (elem_of_nbs _ _) Hq) as (Hqn & Hqp & _). split_and!; [done..| |].
    + by apply linked_step.
    + intros Hnil. apply (nbs_sym p q Hp) in Hq. rewrite Hnil in Hq. by apply elem_of_nil in Hq.
  - lia.
  - intros j q _ Hjq%list_elem_of_lookup_2.
    pose proof (proj1 (elem_of_nbs _ _) Hjq) as (Hqn & Hqp & _).
    apply (nbs_sym p q Hp) in Hjq. rewrite Hlab by done. rewrite decide_False by done.
    destruct (Hr q Hqn) as [?|[Hn|Hge]]; [done|exfalso..].
    + rewrite (Hno q Hqn Hn) in Hjq. by apply elem_of_nil in Hjq.
    + pose proof (Hcl q p Hqn ltac:(lia) Hjq) as Heq. rewrite Hun in Heq.
      unfold dbscanUnvisited in Heq. lia.
  - intros q r Hq. rewrite Hlab by done. case_decide; [subst q; by right|].
    intros H1. by destruct (Hnc q).
  - intros q Hq. rewrite mark_lookup by lia. rewrite Hlab by done.
    intros [?|?]; [by right|left]. case_decide; [lia|by apply Hqu].
  - intros q Hq. pose proof (proj1 (elem_of_nbs _ _) Hq) as (Hqn & _).
    rewrite mark_lookup by lia. by left.
  - intros q Hq. rewrite Hlab by done. case_decide; [lia|]. intros [? _]. by apply Hnb.
Qed.

Lemma finish_inv c p k s :
  inner_inv c p k s -> length (seeds s) <= k -> nbs p <> [] ->
  outer_inv (labels s) (queued s) (c + 1).
Proof.
  intros [Hl Hr Hno Hcl Hco Hcu (Hp & Hpl & Hc0) [Hsn Hse] Hdo Hto Hop Hqu Hqs Hnb] Hk Hne.
  assert (forall q, q ∈ seeds s -> labels s !!! q = c) as Hall.
  { intros q (j & Hj)%list_elem_of_lookup. apply (Hdo j); [|done].
    apply lookup_lt_Some in Hj. lia. }
  split; [done| |done| | | |lia| |].
  - intros q Hq. destruct (Hr q Hq) as [?|[?|?]]; auto with lia.
  - intros q r Hq Hge Hqr. destruct (decide (labels s !!! q = c)) as [Heq|Hneq].
    + rewrite Heq. destruct (Hop q r Hq Heq Hqr); auto.
    + apply Hcl; [done| |done]. destruct (Hr q Hq) as [E|[E|E]]; rewrite ?E in *;
        unfold dbscanUnvisited, dbscanNoise in *; lia.
  - intros q r Hq Hrn Hge Heq. destruct (decide (labels s !!! q = c)) as [Hqc|Hqc].
    + apply (linked_trans q p r); [apply linked_sym|]; apply Hcu; [done..|congruence].
    + apply Hco; [done..| |done]. destruct (Hr q Hq) as [E|[E|E]]; rewrite ?E in *;
        unfold dbscanUnvisited, dbscanNoise in *; lia.
  - intros q Hq Hqq. destruct (Hqu q Hq Hqq) as [?|Hs]; [done|]. rewrite (Hall q Hs). lia.
  - intros q Hq Hge. destruct (decide (labels s !!! q = c)) as [Hqc|Hqc].
    + pose proof (Hcu q Hq Hqc) as Hl'. apply linked_sym, rtc_inv in Hl' as [->|(y & [_ Hy] & _)]; [done|].
      intros Hnil. rewrite Hnil in Hy. by apply elem_of_nil in Hy.
    + apply Hnb; [done|]. destruct (Hr q Hq) as [E|[E|E]]; rewrite ?E in *;
        unfold dbscanUnvisited, dbscanNoise in *; lia.
  - intros _. destruct (nbs p) as [|r l] eqn:E; [done|]. exists p, r. rewrite E. split; [done|left].
Qed.

(** A labelled point stays labelled. *)
Definition visited (lab : list Z) (q : nat) : Prop := lab !!! q <> dbscanUnvisited.

Lemma insert_visited lab x c q :
  c <> dbscanUnvisited -> visited lab q -> visited (<[x := c]> lab) q.
Proof.
  unfold visited. rewrite !list_lookup_total_alt, list_lookup_insert. intros Hc Hq.
  case_decide as Hd; [done|]. done.
Qed.

Lemma expand_step_visited c x s q :
  c <> dbscanUnvisited -> visited (labels s) q ->
  visited (labels (expand_step n 2 neighbor c x s)) q.
Proof.
  intros Hc Hq. unfold expand_step.
  set (lab := if (labels s !!! x =? dbscanNoise)%Z then _ else _).
  assert (visited lab q) as Hlab by (unfold lab; destruct (_ =? _)%Z; [by apply insert_visited|done]).
  destruct (negb _); simpl; [done|].
  destruct (is_core _ _); [destruct (enqueue _ _ _)|]; by apply insert_visited.
Qed.

Lemma expand_visited fuel c k s s' q :
  c <> dbscanUnvisited -> expand n 2 neighbor fuel c k s = Some s' ->
  visited (labels s) q -> visited (labels s') q.
Proof.
  intros Hc. revert k s. induction fuel as [|fuel IH]; intros k s; simpl;
    destruct (seeds s !! k); intros H Hq; simplify_eq; try done.
  eapply IH; [done|]. by apply expand_step_visited.
Qed.

Lemma visit_spec p lab qu c :
  outer_inv lab qu c -> p < n ->
  exists lab' qu' c', visit n 2 neighbor p (lab, qu, c) = Some (lab', qu', c') /\
    outer_inv lab' qu' c' /\ visited lab' p /\ forall q, visited lab q -> visited lab' q.
Proof.
  intros Ho Hp. pose proof Ho as [[Hl1 Hl2] Hr Hno Hcl Hco Hqu Hpos Hnb Hus]. unfold visit.
  destruct (lab !!! p =? dbscanUnvisited)%Z eqn:E; simpl; bool_prop; [|by exists lab, qu, c].
  destruct (length (nbs p) + 1 <? 2) eqn:E2; bool_prop.
  - assert (nbs p = []) as Hnil by (destruct (nbs p); simpl in E2; [done|lia]).
    exists (<[p := dbscanNoise]> lab), qu, c. split; [done|].
    assert (forall x, x < n -> <[p := dbscanNoise]> lab !!! x =
              if decide (p = x) then dbscanNoise else lab !!! x) as Hlab
      by (intros; apply lookup_total_insert_cases; lia).
    assert (forall q, q < n -> (0 <= <[p := dbscanNoise]> lab !!! q)%Z -> p <> q) as Hge.
    { intros q Hq. rewrite Hlab by done. case_decide; [unfold dbscanNoise; lia|done]. }
    split_and!; [split; try done| |].
    + by rewrite length_insert.
    + intros q Hq. rewrite Hlab by done. case_decide; [by right; left|by apply Hr].
    + intros q Hq. rewrite Hlab by done. case_decide; [by subst|by apply Hno].
    + intros q r Hq Hq0 Hqr. pose proof (proj1 (elem_of_nbs _ _) Hqr) as (Hrn & _).
      pose proof (Hge q Hq Hq0) as Hne. rewrite !Hlab in * by done.
      rewrite (decide_False (P := p = q)) in * by done. case_decide; [|by apply Hcl].
      subst r. apply (nbs_sym q p Hq) in Hqr. rewrite Hnil in Hqr. by apply elem_of_nil in Hqr.
    + intros q r Hq Hrn Hq0. pose proof (Hge q Hq Hq0) as Hne. rewrite !Hlab in * by done.
      rewrite (decide_False (P := p = q)) in * by done. case_decide; [|by apply Hco].
      intros Heq. rewrite Heq in Hq0. unfold dbscanNoise in Hq0. lia.
    + intros q Hq Hqq. rewrite Hlab by done. pose proof (Hqu q Hq Hqq).
      case_decide; [|done]. subst q. rewrite E in *. unfold dbscanUnvisited in *. lia.
    + intros q Hq Hq0. pose proof (Hge q Hq Hq0) as Hne. rewrite Hlab, decide_False in Hq0 by done.
      by apply Hnb.
    + unfold visited. rewrite Hlab, decide_True by done. done.
    + intros q. by apply insert_visited.
  - assert (nbs p <> []) as Hne by (destruct (nbs p); simpl in E2; [lia|done]).
    destruct (expand_spec n c p 0 _ (start_inv lab qu c p Ho Hp E Hne) ltac:(lia))
      as (s' & k' & He & Hi & Hk). rewrite He. simpl.
    assert (c <> dbscanUnvisited) as Hcu by (unfold dbscanUnvisited; lia).
    exists (labels s'), (queued s'), (c + 1)%Z. split_and!; [done|by eapply finish_inv| |].
    + destruct (i_p _ _ _ _ Hi) as (_ & Hl & _). unfold visited. by rewrite Hl.
    + intros q Hq. apply (expand_visited _ _ _ _ _ q Hcu He). by apply insert_visited.
Qed.

Lemma visit_all_spec ps lab qu c :
  outer_inv lab qu c -> (forall p, p ∈ ps -> p < n) ->
  exists lab' qu' c', visit_all n 2 neighbor ps (lab, qu, c) = Some (lab', qu', c') /\
    outer_inv lab' qu' c' /\ (forall p, p ∈ ps -> visited lab' p) /\
    forall q, visited lab q -> visited lab' q.
Proof.
  revert lab qu c. induction ps as [|p ps IH]; intros lab qu c Ho Hps; cbn [visit_all].
  - exists lab, qu, c. split_and!; [done..| |done]. by intros p ?%elem_of_nil.
  - destruct (visit_spec p lab qu c Ho) as (lab1 & qu1 & c1 & -> & Ho1 & Hp1 & Hk1).
    { apply Hps. left. }
    destruct (IH lab1 qu1 c1 Ho1) as (lab' & qu' & c' & He & Ho' & Hall & Hk).
    { intros q Hq. apply Hps. by right. }
    exists lab', qu', c'. split_and!; [done..| |by auto].
    intros q [->|Hq]%elem_of_cons; auto.
Qed.

Lemma initial_inv : outer_inv (replicate n dbscanUnvisited) (replicate n false) 0.
Proof.
  assert (forall q, q < n -> replicate n dbscanUnvisited !!! q = dbscanUnvisited) as Hl.
  { intros q Hq. by rewrite lookup_total_replicate_2. }
  split; try lia.
  - by rewrite !length_replicate.
  - intros q Hq. rewrite Hl by done. by left.
  - intros q Hq. by rewrite Hl.
  - intros q r Hq. rewrite Hl by done. unfold dbscanUnvisited. lia.
  - intros q r Hq Hr. rewrite Hl by done. unfold dbscanUnvisited. lia.
  - intros q Hq. by rewrite lookup_total_replicate_2.
  - intros q Hq. rewrite Hl by done. unfold dbscanUnvisited. lia.
Qed.

(** What a labelling of the connected components says. *)
Definition labelling_ok (lab : list Z) (dense : bool) : Prop :=
  length lab = n /\
    (forall p, p < n -> (lab !!! p = dbscanNoise <-> nbs p = []) /\
       (lab !!! p = dbscanNoise \/ (0 <= lab !!! p)%Z)) /\
    (forall p q, p < n -> q < n -> lab !!! p <> dbscanNoise ->
       (lab !!! p = lab !!! q <-> linked p q)) /\
    (dense = true <-> exists p q, p < n /\ q ∈ nbs p).

Lemma dbscanLabels_spec :
  exists lab dense, dbscanLabels n dbscanMinPts neighbor = Some (lab, dense) /\ labelling_ok lab dense.
Proof.
  unfold dbscanLabels, dbscanMinPts.
  destruct (visit_all_spec (seq 0 n) _ _ _ initial_inv) as (lab & qu & c & -> & Ho & Hall & _).
  { intros p Hp%elem_of_seq. lia. }
  simpl. destruct Ho as [[Hl1 Hl2] Hr Hno Hcl Hco _ Hpos Hnb Hus].
  exists lab, (0 <? c)%Z.
  assert (forall p, p < n -> lab !!! p = dbscanNoise \/ (0 <= lab !!! p < c)%Z) as Hcase.
  { intros p Hp. destruct (Hr p Hp) as [H|[H|H]]; [|by left|by right].
    by destruct (Hall p); [apply elem_of_seq; lia|]. }
  split; [done|]. unfold labelling_ok. split_and!; [done| | |].
  - intros p Hp. destruct (Hcase p Hp) as [Hc|Hc]; (split; [|auto with lia]); split; auto.
    intros Hnil. by destruct (Hnb p Hp ltac:(lia)).
  - intros p q Hp Hq Hne. destruct (Hcase p Hp) as [?|Hc]; [done|].
    split; [apply Hco; [done|done|lia]|]. intros Hl. clear Hne. unfold linked in Hl.
    induction Hl as [|x y z [_ Hy] _ IH]; [done|].
    pose proof (proj1 (elem_of_nbs _ _) Hy) as (Hyn & _).
    pose proof (Hcl x y Hp ltac:(lia) Hy) as Heq. rewrite <- Heq in Hc |- *. by apply IH.
  - rewrite Z.ltb_lt. split; [apply Hus|]. intros (p & q & Hp & Hq).
    destruct (Hcase p Hp) as [Hc|Hc]; [|lia]. rewrite (Hno p Hp Hc) in Hq. by apply elem_of_nil in Hq.
Qed.

(** For the density parameter the code uses and a symmetric
    neighbour predicate, [dbscanLabels] terminates and its labels are the connected
    components of the neighbour graph: a point is noise exactly when it has no
    neighbour, two points that are not noise share a label exactly when a chain of
    neighbours links them, and [dense] reports that some pair are neighbours. *)
Theorem dbscanLabels_components :
  exists lab dense, dbscanLabels n dbscanMinPts neighbor = Some (lab, dense) /\ length lab = n /\
    (forall p, p < n -> (lab !!! p = dbscanNoise <-> nbs p = []) /\
       (lab !!! p = dbscanNoise \/ (0 <= lab !!! p)%Z)) /\
    (forall p q, p < n -> q < n -> lab !!! p <> dbscanNoise ->
       (lab !!! p = lab !!! q <-> linked p q)) /\
    (dense = true <-> exists p q, p < n /\ q ∈ nbs p).
Proof. exact dbscanLabels_spec. Qed.
End correctness.

(** Three points, the first two neighbours: the third is noise. *)
Example dbscanLabels_three :
  dbscanLabels 3 dbscanMinPts (fun i j => i + j =? 1) = Some ([0; 0; -1]%Z, true).
Proof. by vm_compute. Qed.

Example dbscanLabels_components_witness :
  (forall i j, (i + j =? 1) = (j + i =? 1)) /\
  exists lab dense, dbscanLabels 3 dbscanMinPts (fun i j => i + j =? 1) = Some (lab, dense) /\
    length lab = 3 /\
    (forall p, p < 3 ->
       (lab !!! p = dbscanNoise <-> neighborsOf 3 (fun i j => i + j =? 1) p = []) /\
       (lab !!! p = dbscanNoise \/ (0 <= lab !!! p)%Z)) /\
    (forall p q, p < 3 -> q < 3 -> lab !!! p <> dbscanNoise ->
       (lab !!! p = lab !!! q <-> linked 3 (fun i j => i + j =? 1) p q)) /\
    (dense = true <-> exists p q, p < 3 /\ q ∈ neighborsOf 3 (fun i j => i + j =? 1) p).
Proof.
  assert (forall i j, (i + j =? 1) = (j + i =? 1)) as H by (intros; by rewrite Nat.add_comm).
  split; [exact H|]. exact (dbscanLabels_components 3 (fun i j => i + j =? 1) H).
Defined.

(** Outside the parameter the code uses ([minPts = 3]), a point labelled noise before
    the cluster is found stays noise even when a core point other than the first
    reaches it: 0 is a neighbour of the core point 2, and a border point of DBSCAN. *)
Example dbscan_border_point_missed :
  let edge i j := bool_decide ((i, j) ∈ [(0, 2); (2, 0); (1, 2); (2, 1); (1, 3); (3, 1)]) in
  is_core 3 (neighborsOf 4 edge 2) = true /\ edge 2 0 = true /\
  dbscanLabels 4 3 edge = Some ([-1; 0; 0; 0]%Z, true).
Proof. by vm_compute. Qed.
