(* ===== verification/Hungarian.v ===== *)
(** * The assignment solver

    [hungarian] and [hungarianAssign] of src/reconcile/bipartite.go: minimum-cost
    assignment by shortest augmenting paths, and its rectangular wrapper. The
    solver is written over an arithmetic interface [Num]; the program runs it on
    float64 ([float64_Num]). Its guarantees are proved from the laws [NumBound]:
    magnitudes grow by at most one binade per operation, and a bounded number is
    below [math.MaxFloat64]. *)

From stdpp Require Import prelude list.
From Stdlib Require Import ZArith Lia.
From S2P Require Import Prelude GoFloat.


(** The arithmetic of the cost matrix. [n_inf] is [math.MaxFloat64]. *)
Class Num (F : Type) := {
  n_zero : F;
  n_add : F -> F -> F;
  n_sub : F -> F -> F;
  n_lt : F -> F -> bool;
  n_inf : F;
  n_one : F;          (** [distanceCeiling] *)
}.

#[export] Instance float64_Num : Num float64 :=
  {| n_zero := f_zero; n_add := f_add; n_sub := f_sub; n_lt := f_lt; n_inf := f_max; n_one := f_one |}.

(** The zero value of a Go bool. *)
#[export] Instance bool_zero : Inhabited bool := populate false.

#[export] Instance Num_inhabited {F} `{!Num F} : Inhabited F := populate n_zero.

Section solver.
Context {F : Type} `{!Num F}.

(** [noMatchSentinel = distanceCeiling + 1.0] *)
Definition noMatchSentinel : F := n_add n_one n_one.

(** ** hungarian *)

Record h_state := mkH {
  h_u : list F;       (** row potentials *)
  h_v : list F;       (** column potentials *)
  h_p : list nat;     (** the row assigned to each column, 0 for none *)
  h_way : list nat;   (** the column before each column on the alternating path *)
}.

(** The locals of one row's search. *)
Record h_search := mkSearch {
  s_h : h_state;
  s_minv : list F;
  s_used : list bool;
}.

(** One iteration of [for j := 1; j <= n; j++] that scans row [i0] from [j0]. *)
Definition scan_step (cost : list (list F)) (h : h_state) (used : list bool) (i0 j0 : nat)
    (st : list F * list nat * F * option nat) (j : nat) : list F * list nat * F * option nat :=
  let '(minv, way, delta, j1) := st in
  if (used !!! j : bool) then st
  else
    let cur := n_sub (n_sub (cost !!! (i0 - 1) !!! (j - 1)) (h_u h !!! i0)) (h_v h !!! j) in
    let '(minv, way) :=
      if n_lt cur (minv !!! j) then (<[j := cur]> minv, <[j := j0]> way) else (minv, way) in
    if n_lt (minv !!! j) delta then (minv, way, minv !!! j, Some j) else (minv, way, delta, j1).

(** One iteration of [for j := 0; j <= n; j++] that moves the potentials. *)
Definition shift_step (p : list nat) (used : list bool) (delta : F)
    (st : list F * list F * list F) (j : nat) : list F * list F * list F :=
  let '(u, v, minv) := st in
  if (used !!! j : bool)
  then (<[p !!! j := n_add (u !!! (p !!! j)) delta]> u, <[j := n_sub (v !!! j) delta]> v, minv)
  else (u, v, <[j := n_sub (minv !!! j) delta]> minv).

(** The search loop: [None] is the iteration panic or the index panic at [j1 = -1]. *)
Fixpoint search (fuel n : nat) (cost : list (list F)) (s : h_search) (j0 : nat)
    : option (h_search * nat) :=
  match fuel with
  | O => None
  | S f =>
      let used := <[j0 := true]> (s_used s) in
      let h := s_h s in
      let i0 := (h_p h !!! j0 : nat) in
      let '(minv, way, delta, j1) :=
        foldl (scan_step cost h used i0 j0) (s_minv s, h_way h, n_inf, None) (seq 1 n) in
      let '(u, v, minv) :=
        foldl (shift_step (h_p h) used delta) (h_u h, h_v h, minv) (seq 0 (n + 1)) in
      let s' := mkSearch (mkH u v (h_p h) way) minv used in
      j1 ← j1;
      if (h_p h !!! j1 =? 0) then Some (s', j1) else search f n cost s' j1
  end.

(** [for j0 != 0 { j1 := way[j0]; p[j0] = p[j1]; j0 = j1 }] *)
Fixpoint augment (fuel : nat) (way p : list nat) (j0 : nat) : option (list nat) :=
  if j0 =? 0 then Some p
  else
    match fuel with
    | O => None
    | S f => let j1 : nat := way !!! j0 in augment f way (<[j0 := p !!! j1]> p) j1
    end.

(** The body of the loop over the rows. *)
Definition add_row (n : nat) (cost : list (list F)) (h : h_state) (i : nat) : option h_state :=
  let h := mkH (h_u h) (h_v h) (<[0 := i]> (h_p h)) (h_way h) in
  '(s, j0) ← search (n + 1) n cost
               (mkSearch h (replicate (n + 1) n_inf) (replicate (n + 1) false)) 0;
  p ← augment (n + 1) (h_way (s_h s)) (h_p (s_h s)) j0;
  Some (mkH (h_u (s_h s)) (h_v (s_h s)) p (h_way (s_h s))).

Fixpoint add_rows (n : nat) (cost : list (list F)) (rows : list nat) (h : h_state) : option h_state :=
  match rows with
  | [] => Some h
  | i :: rows' => h ← add_row n cost h i; add_rows n cost rows' h
  end.

Definition maxHungarianN : nat := 500.

Definition read_assign (n : nat) (p : list nat) : list nat :=
  foldl (fun assign j =>
      if 1 <=? p !!! j then <[p !!! j - 1 := j - 1]> assign else assign)
    (replicate n 0) (seq 1 n).

Definition hungarian (cost : list (list F)) : option (list nat) :=
  let n := length cost in
  if n =? 0 then Some []
  else if maxHungarianN <? n then None
  else
    h ← add_rows n cost (seq 1 n)
          (mkH (replicate (n + 1) n_zero) (replicate (n + 1) n_zero)
               (replicate (n + 1) 0) (replicate (n + 1) 0));
    Some (read_assign n (h_p h)).

(** ** hungarianAssign *)

(** The plain argmin of the one-row and one-column shapes. *)
Definition argmin (k : nat) (f : nat -> F) : nat :=
  snd (foldl (fun '(best, bestI) i =>
      let v := f i in if n_lt v best then (v, i) else (best, bestI))
    (f 0, 0) (seq 1 (k - 1))).

Definition square (rows cols : nat) (cost : nat -> nat -> F) : list (list F) :=
  let n := if rows <? cols then cols else rows in
  (fun r => (fun c =>
      if (r <? rows) && (c <? cols) then cost r c else noMatchSentinel) <$> seq 0 n) <$> seq 0 n.

(** [None] in the result list is the column -1. *)
Definition hungarianAssign (rows cols : nat) (cost : nat -> nat -> F) : option (list (option nat)) :=
  let assign := replicate rows None in
  if (rows =? 0) || (cols =? 0) then Some assign
  else if rows =? 1 then Some (<[0 := Some (argmin cols (fun c => cost 0 c))]> assign)
  else if cols =? 1 then Some (<[argmin rows (fun r => cost r 0) := Some 0]> assign)
  else
    full ← hungarian (square rows cols cost);
    Some ((fun r => let c : nat := full !!! r in if c <? cols then Some c else None) <$> seq 0 rows).

End solver.

(** ** The laws of the arithmetic

    [bnd k x]: the magnitude of [x] is at most 2^k. [K] is the largest bound below
    [n_inf]. *)
Class NumBound (F : Type) `{!Num F} (K : nat) := {
  bnd : nat -> F -> Prop;
  bnd_mono : forall k k' x, k <= k' -> bnd k x -> bnd k' x;
  bnd_zero : forall k, bnd k n_zero;
  bnd_one : bnd 1 n_one;
  bnd_sentinel : bnd 1 noMatchSentinel;
  bnd_add : forall k x y, k < K -> bnd k x -> bnd k y -> bnd (S k) (n_add x y);
  bnd_sub : forall k x y, k < K -> bnd k x -> bnd k y -> bnd (S k) (n_sub x y);
  bnd_inf : forall k x, k <= K -> bnd k x -> n_lt x n_inf = true;
}.

Section structure.
Context {F : Type} `{!Num F} {K : nat} `{!NumBound F K}.
Context (n : nat) (cost : list (list F)).

(** Every entry the scans read is bounded. *)
Definition cost_bnd (k : nat) : Prop := forall r c, bnd k (cost !!! r !!! c).

(** ** The scan of one row *)

Section scan.
Context (h : h_state (F := F)) (used : list bool) (i0 j0 k : nat) (vis : list nat).
Context (Hk : S (S k) <= K) (Hc : cost_bnd k).
Context (Hu : forall r, bnd k (h_u h !!! r)) (Hv : forall j, bnd k (h_v h !!! j)).

Let cur (j : nat) : F := n_sub (n_sub (cost !!! (i0 - 1) !!! (j - 1)) (h_u h !!! i0)) (h_v h !!! j).

Lemma cur_bnd j : bnd (S (S k)) (cur j).
Proof.
  apply bnd_sub; [lia| |apply (bnd_mono k); auto with lia]. apply bnd_sub; [lia|apply Hc|apply Hu].
Qed.

(** What the scan knows of the columns in [done]. *)
Record scan_inv (minv0 : list F) (way0 : list nat) (done : list nat)
    (st : list F * list nat * F * option nat) : Prop := {
  sc_len : length st.1.1.1 = n + 1 /\ length st.1.1.2 = n + 1;
  sc_keep : forall j, j ∉ done \/ used !!! j = true ->
    st.1.1.1 !!! j = minv0 !!! j /\ st.1.1.2 !!! j = way0 !!! j;
  sc_seen : forall j, j ∈ done -> used !!! j = false ->
    bnd (S (S k)) (st.1.1.1 !!! j) /\ st.1.1.2 !!! j ∈ j0 :: vis;
  sc_best : (st.1.2 = n_inf /\ st.2 = None /\ forall j, j ∈ done -> used !!! j = true) \/
    exists j, st.2 = Some j /\ j ∈ done /\ used !!! j = false /\ bnd (S (S k)) st.1.2;
}.

Lemma scan_step_inv minv0 way0 done st j :
  j < n + 1 -> j ∉ done ->
  (used !!! j = false -> minv0 !!! j = n_inf \/ bnd k (minv0 !!! j) /\ way0 !!! j ∈ vis) ->
  scan_inv minv0 way0 done st -> scan_inv minv0 way0 (done ++ [j]) (scan_step cost h used i0 j0 st j).
Proof.
  intros Hj Hnd Hj0 [[Hl1 Hl2] Hkeep Hseen Hbest].
  destruct st as [[[minv way] delta] j1]; simpl in *. unfold scan_step.
  destruct (used !!! j) eqn:Eu.
  { split; simpl; [done| | |].
    - intros x Hx. apply Hkeep. destruct Hx as [Hx|Hx]; [|by right].
      left. intros Hin. apply Hx, elem_of_app. by left.
    - intros x [Hx|Hx%list_elem_of_singleton]%elem_of_app Hxu; [by apply Hseen|congruence].
    - destruct Hbest as [(? & ? & Hall)|(x & ? & ? & ? & ?)].
      + left. split_and!; [done..|]. intros x [Hx|Hx%list_elem_of_singleton]%elem_of_app; [auto|congruence].
      + right. exists x. split_and!; [done| |done..]. apply elem_of_app. by left. }
  fold (cur j). destruct (Hkeep j ltac:(by left)) as [Hmj Hwj].
  set (mw := if n_lt (cur j) (minv !!! j) then _ else _).
  assert (length mw.1 = n + 1 /\ length mw.2 = n + 1) as [Hm1 Hm2].
  { unfold mw. destruct (n_lt _ _); simpl; by rewrite ?length_insert. }
  assert (forall x, x <> j -> mw.1 !!! x = minv !!! x /\ mw.2 !!! x = way !!! x) as Hother.
  { intros x Hx. unfold mw. destruct (n_lt _ _); simpl; [|done].
    by rewrite !list_lookup_total_insert_ne. }
  assert (bnd (S (S k)) (mw.1 !!! j) /\ mw.2 !!! j ∈ j0 :: vis) as [Hbj Hvj].
  { unfold mw. destruct (n_lt (cur j) (minv !!! j)) eqn:El; simpl.
    - rewrite !list_lookup_total_insert_eq by lia. split; [apply cur_bnd|left].
    - rewrite Hmj, Hwj. destruct (Hj0 eq_refl) as [Hinf|[Hb Hw]].
      + rewrite Hmj, Hinf, (bnd_inf (S (S k))) in El; [done|done|apply cur_bnd].
      + split; [apply (bnd_mono k); [lia|done]|by right]. }
  assert (forall (delta' : F) j1', (delta' = n_inf /\ j1' = None /\ False) \/
            (exists x, j1' = Some x /\ x ∈ done ++ [j] /\ used !!! x = false /\ bnd (S (S k)) delta') ->
            scan_inv minv0 way0 (done ++ [j]) (mw.1, mw.2, delta', j1')) as Hgo.
  { intros delta' j1' Hb. split; simpl; [done| | |].
    - intros x Hx. assert (x <> j) as Hxj.
      { intros ->. destruct Hx as [Hx|Hx]; [|congruence]. apply Hx, elem_of_app. right. left. }
      destruct (Hother x Hxj) as [-> ->]. apply Hkeep. destruct Hx as [Hx|Hx]; [|by right].
      left. intros Hin. apply Hx, elem_of_app. by left.
    - intros x Hx Hxu. destruct (decide (x = j)) as [->|Hxj]; [done|].
      destruct (Hother x Hxj) as [-> ->]. apply Hseen; [|done].
      apply elem_of_app in Hx as [Hx|Hx%list_elem_of_singleton]; done.
    - destruct Hb as [(_ & _ & [])|Hb]. by right. }
  clearbody mw. destruct mw as [minv' way']; simpl in *.
  assert (j ∈ done ++ [j]) as Hjin by (apply elem_of_app; right; left).
  destruct (n_lt (minv' !!! j) delta) eqn:El; apply Hgo; right.
  - by exists j.
  - destruct Hbest as [(-> & _)|(x & -> & Hx & Hxu & Hxb)].
    + by rewrite (bnd_inf (S (S k))) in El.
    + exists x. split_and!; [done| |done..]. apply elem_of_app. by left.
Qed.

Lemma scan_spec minv0 way0 :
  length minv0 = n + 1 -> length way0 = n + 1 ->
  (forall j, 1 <= j <= n -> used !!! j = false ->
     minv0 !!! j = n_inf \/ bnd k (minv0 !!! j) /\ way0 !!! j ∈ vis) ->
  scan_inv minv0 way0 (seq 1 n)
    (foldl (scan_step cost h used i0 j0) (minv0, way0, n_inf, None) (seq 1 n)).
Proof.
  intros Hl1 Hl2 H0. apply (foldl_invariant (scan_inv minv0 way0)).
  - split; simpl; [done|done|by intros j ?%elem_of_nil|]. left. split_and!; [done..|].
    by intros j ?%elem_of_nil.
  - intros done j todo st Heq Hinv.
    assert (j ∈ seq 1 n) as Hj by (rewrite Heq; apply elem_of_app; right; left).
    apply elem_of_seq in Hj. apply scan_step_inv; [lia| |apply H0; lia|done].
    pose proof (NoDup_seq 1 n) as Hn. rewrite Heq in Hn.
    apply NoDup_app in Hn as (_ & Hn & _). intros Hin. apply (Hn j Hin). left.
Qed.
End scan.

(** ** The shift of the potentials *)

Definition all_bnd (k : nat) (l : list F) : Prop := forall j, bnd k (l !!! j).

Lemma all_bnd_insert k l i x : all_bnd k l -> bnd k x -> all_bnd k (<[i := x]> l).
Proof.
  intros Hl Hx j. rewrite list_lookup_total_alt, list_lookup_insert.
  case_decide; [done|]. rewrite <- list_lookup_total_alt. apply Hl.
Qed.

Lemma all_bnd_mono k k' l : k <= k' -> all_bnd k l -> all_bnd k' l.
Proof. intros Hk Hl j. by apply (bnd_mono k). Qed.

Lemma all_bnd_replicate k m x : bnd k x -> all_bnd k (replicate m x).
Proof.
  intros Hx j. rewrite list_lookup_total_alt. destruct (replicate m x !! j) eqn:E; simpl.
  - apply lookup_replicate in E as [-> _]. done.
  - apply bnd_zero.
Qed.

Section shift.
Context (p : list nat) (used : list bool) (delta : F) (k : nat).
Context (Hk : S (S (S k)) <= K) (Hd : bnd (S (S k)) delta).
Context (Hinj : forall a b, used !!! a = true -> used !!! b = true -> p !!! a = p !!! b -> a = b).

Record shift_inv (u v minv : list F) (done : list nat) (st : list F * list F * list F) : Prop := {
  sh_len : length st.1.1 = n + 1 /\ length st.1.2 = n + 1 /\ length st.2 = n + 1;
  sh_u : all_bnd (S (S (S k))) st.1.1;
  sh_v : all_bnd (S (S (S k))) st.1.2;
  sh_ukeep : forall r, (forall j, j ∈ done -> used !!! j = true -> p !!! j <> r) ->
    st.1.1 !!! r = u !!! r;
  sh_keep : forall j, j ∉ done -> st.1.2 !!! j = v !!! j /\ st.2 !!! j = minv !!! j;
  sh_minv : forall j, j ∈ done -> 1 <= j <= n -> used !!! j = false -> bnd (S (S (S k))) (st.2 !!! j);
}.

Lemma shift_step_inv u v minv done st j :
  all_bnd k u -> all_bnd k v ->
  (forall x, 1 <= x <= n -> used !!! x = false -> bnd (S (S k)) (minv !!! x)) ->
  j < n + 1 -> j ∉ done ->
  shift_inv u v minv done st -> shift_inv u v minv (done ++ [j]) (shift_step p used delta st j).
Proof.
  intros Hu Hv Hm Hj Hnd [(Hl1 & Hl2 & Hl3) Hbu Hbv Huk Hkeep Hmv].
  destruct st as [[u' v'] minv']; simpl in *. unfold shift_step.
  assert (forall x, x ∉ done ++ [j] -> x ∉ done /\ x <> j) as Hsnoc.
  { intros x Hx. rewrite elem_of_app, list_elem_of_singleton in Hx. tauto. }
  destruct (Hkeep j Hnd) as [Hvj Hmj].
  destruct (used !!! j) eqn:Eu; split; simpl.
  - by rewrite !length_insert.
  - apply all_bnd_insert; [done|]. apply bnd_add; [lia| |done].
    rewrite Huk; [apply (bnd_mono k); [lia|apply Hu]|].
    intros x Hx Hxu Heq. rewrite (Hinj _ _ Hxu Eu Heq) in Hx. done.
  - apply all_bnd_insert; [done|]. apply bnd_sub; [lia| |done].
    rewrite Hvj. apply (bnd_mono k); [lia|apply Hv].
  - intros r Hr. rewrite list_lookup_total_insert_ne.
    + apply Huk. intros x Hx. apply Hr, elem_of_app. by left.
    + apply Hr; [apply elem_of_app; right; left|done].
  - intros x [Hx Hxj]%Hsnoc. rewrite list_lookup_total_insert_ne by done. by apply Hkeep.
  - intros x [Hx|Hx%list_elem_of_singleton]%elem_of_app Hxn Hxu; [by apply Hmv|congruence].
  - by rewrite !length_insert.
  - done.
  - done.
  - intros r Hr. apply Huk. intros x Hx. apply Hr, elem_of_app. by left.
  - intros x [Hx Hxj]%Hsnoc. rewrite list_lookup_total_insert_ne by done. by apply Hkeep.
  - intros x Hx Hxn Hxu. rewrite lookup_total_insert_cases by lia. case_decide as Heq.
    + subst x. apply bnd_sub; [lia| |done]. rewrite Hmj. by apply Hm.
    + apply Hmv; [|done..]. apply elem_of_app in Hx as [Hx|Hx%list_elem_of_singleton]; congruence.
Qed.

Lemma shift_spec u v minv :
  length u = n + 1 -> length v = n + 1 -> length minv = n + 1 ->
  all_bnd k u -> all_bnd k v ->
  (forall x, 1 <= x <= n -> used !!! x = false -> bnd (S (S k)) (minv !!! x)) ->
  shift_inv u v minv (seq 0 (n + 1))
    (foldl (shift_step p used delta) (u, v, minv) (seq 0 (n + 1))).
Proof.
  intros Hl1 Hl2 Hl3 Hu Hv Hm. apply (foldl_invariant (shift_inv u v minv)).
  - split; simpl; [done| | |done|done|by intros j ?%elem_of_nil];
      by apply (all_bnd_mono k); [lia|].
  - intros done j todo st Heq Hinv.
    assert (j ∈ seq 0 (n + 1)) as Hj by (rewrite Heq; apply elem_of_app; right; left).
    apply elem_of_seq in Hj. apply shift_step_inv; [done..|lia| |done].
    pose proof (NoDup_seq 0 (n + 1)) as Hn. rewrite Heq in Hn.
    apply NoDup_app in Hn as (_ & Hn & _). intros Hin. apply (Hn j Hin). left.
Qed.
End shift.

(** ** The search for a free column *)

(** The columns visited in one search, newest first: each one's [way] is older. *)
Inductive tree (way : list nat) : list nat -> Prop :=
  | tree_root : tree way [0]
  | tree_cons j vis : tree way vis -> way !!! j ∈ vis -> j ∉ vis -> j <> 0 -> tree way (j :: vis).

Lemma tree_zero way vis : tree way vis -> 0 ∈ vis.
Proof. induction 1; [left|by right]. Qed.

Lemma tree_NoDup way vis : tree way vis -> NoDup vis.
Proof. induction 1; [apply NoDup_singleton|by constructor]. Qed.

Lemma tree_ext way way' vis :
  tree way vis -> (forall j, j ∈ vis -> way' !!! j = way !!! j) -> tree way' vis.
Proof.
  induction 1 as [|j vis _ IH Hw Hj Hne]; intros H; [constructor|].
  constructor; [apply IH; intros x Hx; apply H; by right| |done|done].
  rewrite H; [done|left].
Qed.

(** The rows 1 .. m are matched to distinct columns. *)
Definition rows_ok (m : nat) (p : list nat) : Prop :=
  length p = n + 1 /\ filter (fun r => r <> 0) (tail p) ≡ₚ seq 1 m.

Lemma tail_lookup (p : list nat) j : tail p !! j = p !! S j.
Proof. by destruct p. Qed.

Lemma rows_ok_occupied m p :
  rows_ok m p -> length (filter (fun j => p !!! j <> 0) (seq 1 n)) = m.
Proof.
  intros [Hl Hp]. rewrite <- (length_seq m 1), <- (Permutation_length Hp).
  assert (tail p = (fun j => p !!! j) <$> seq 1 n) as ->.
  { apply list_eq. intros j. rewrite tail_lookup, list_lookup_fmap.
    destruct (decide (j < n)).
    - rewrite lookup_seq_lt by done. simpl. apply list_lookup_lookup_total_lt. lia.
    - rewrite !lookup_ge_None_2; [done|rewrite length_seq; lia|lia]. }
  generalize (seq 1 n). intros l. induction l as [|x l IH]; [done|].
  cbn [fmap list_fmap]. rewrite !filter_cons. repeat case_decide; simpl; congruence.
Qed.

Lemma rows_ok_inj m p a b :
  rows_ok m p -> 1 <= a <= n -> 1 <= b <= n -> p !!! a <> 0 -> p !!! a = p !!! b -> a = b.
Proof.
  intros [Hl Hp] Ha Hb Hne Heq.
  assert (NoDup (filter (fun r => r <> 0) (tail p))) as Hnd by (rewrite Hp; apply NoDup_seq).
  assert (tail p !! (a - 1) = Some (p !!! a)) as H1.
  { rewrite tail_lookup. replace (S (a - 1)) with a by lia. apply list_lookup_lookup_total_lt. lia. }
  assert (tail p !! (b - 1) = Some (p !!! a)) as H2.
  { rewrite tail_lookup, Heq. replace (S (b - 1)) with b by lia. apply list_lookup_lookup_total_lt. lia. }
  revert H1 H2 Hne Hnd. generalize (p !!! a). generalize (tail p).
  enough (forall l v i j, l !! i = Some v -> l !! j = Some v -> v <> 0 ->
            NoDup (filter (fun r => r <> 0) l) -> i = j) as H.
  { intros l v H1 H2 Hv Hnd. pose proof (H l v _ _ H1 H2 Hv Hnd). lia. }
  induction l as [|x l IH]; intros v [|i] [|j]; simpl; try done.
  - intros [= ->] Hj Hv. rewrite filter_cons_True by done. intros [Hn _]%NoDup_cons.
    destruct Hn. apply list_elem_of_filter. split; [done|]. by apply list_elem_of_lookup_2 in Hj.
  - intros Hi [= ->] Hv. rewrite filter_cons_True by done. intros [Hn _]%NoDup_cons.
    destruct Hn. apply list_elem_of_filter. split; [done|]. by apply list_elem_of_lookup_2 in Hi.
  - intros Hi Hj Hv Hnd. f_equal. eapply IH; [done..|]. rewrite filter_cons in Hnd.
    case_decide; [by apply NoDup_cons in Hnd as [_ ?]|done].
Qed.

Lemma rows_ok_range m p j : rows_ok m p -> 1 <= j <= n -> p !!! j <= m.
Proof.
  intros [Hl Hp] Hj. destruct (decide (p !!! j = 0)) as [|Hne]; [lia|].
  assert (p !!! j ∈ seq 1 m) as Hin.
  { rewrite <- Hp. apply list_elem_of_filter. split; [done|].
    apply (list_elem_of_lookup_2 _ (j - 1)). rewrite tail_lookup.
    replace (S (j - 1)) with j by lia. apply list_lookup_lookup_total_lt. lia. }
  apply elem_of_seq in Hin. lia.
Qed.

(** Distinct occupied columns are no more than the rows matched. *)
Lemma rows_ok_count m p l :
  rows_ok m p -> NoDup l -> (forall j, j ∈ l -> 1 <= j <= n /\ p !!! j <> 0) -> length l <= m.
Proof.
  intros Hp Hnd Hl. rewrite <- (rows_ok_occupied m p Hp).
  apply submseteq_length, NoDup_submseteq; [done|]. intros j Hj.
  apply list_elem_of_filter. destruct (Hl j Hj). split; [done|]. apply elem_of_seq. lia.
Qed.

(** The state at the top of a search iteration that adds row [i] after visiting [vis]. *)
Record search_inv (k i : nat) (vis : list nat) (s : h_search (F := F)) (j0 : nat) : Prop := {
  si_len : length (h_u (s_h s)) = n + 1 /\ length (h_v (s_h s)) = n + 1 /\
    length (h_way (s_h s)) = n + 1 /\ length (s_minv s) = n + 1 /\ length (s_used s) = n + 1;
  si_u : all_bnd k (h_u (s_h s));
  si_v : all_bnd k (h_v (s_h s));
  si_p : rows_ok (i - 1) (h_p (s_h s)) /\ h_p (s_h s) !!! 0 = i;
  si_used : forall j, s_used s !!! j = true <-> j ∈ vis;
  si_tree : tree (h_way (s_h s)) (j0 :: vis);
  si_occ : forall j, j ∈ j0 :: vis -> j <> 0 -> 1 <= j <= n /\ h_p (s_h s) !!! j <> 0;
  si_minv : forall j, 1 <= j <= n -> j ∉ vis ->
    s_minv s !!! j = n_inf \/ bnd k (s_minv s !!! j) /\ h_way (s_h s) !!! j ∈ vis;
}.

(** The state a search leaves: [j] is a free column reached from column 0. *)
Record search_done (k i : nat) (p : list nat) (s : h_search (F := F)) (j : nat) : Prop := {
  sd_len : length (h_u (s_h s)) = n + 1 /\ length (h_v (s_h s)) = n + 1 /\
    length (h_way (s_h s)) = n + 1;
  sd_u : all_bnd k (h_u (s_h s));
  sd_v : all_bnd k (h_v (s_h s));
  sd_p : h_p (s_h s) = p;
  sd_tree : exists vis, tree (h_way (s_h s)) (j :: vis) /\
    (forall x, x ∈ vis -> x <= n) /\ length vis <= i;
  sd_free : 1 <= j <= n /\ p !!! j = 0;
}.

Lemma search_inv_count k i vis s j0 :
  0 < i -> search_inv k i vis s j0 -> length (j0 :: vis) <= i.
Proof.
  intros Hi [_ _ _ [Hp _] _ Ht Ho _]. pose proof (tree_NoDup _ _ Ht) as Hnd.
  pose proof (tree_zero _ _ Ht) as Hz. apply elem_of_Permutation in Hz as [l Hl].
  rewrite Hl. simpl. rewrite Hl in Hnd. apply NoDup_cons in Hnd as [H0 Hnd].
  enough (length l <= i - 1) by lia. apply (rows_ok_count _ _ _ Hp Hnd).
  intros j Hj. apply Ho; [rewrite Hl; by right|]. by intros ->.
Qed.

Lemma search_used_inj k i vis s j0 a b :
  0 < i -> search_inv k i vis s j0 -> a ∈ j0 :: vis -> b ∈ j0 :: vis ->
  h_p (s_h s) !!! a = h_p (s_h s) !!! b -> a = b.
Proof.
  intros Hi [_ _ _ [Hp H0] _ _ Ho _] Ha Hb Heq.
  destruct (decide (a = 0)) as [->|Ha0], (decide (b = 0)) as [->|Hb0]; [done| | |].
  - destruct (Ho b Hb Hb0) as [Hbn _]. pose proof (rows_ok_range _ _ b Hp Hbn). lia.
  - destruct (Ho a Ha Ha0) as [Han _]. pose proof (rows_ok_range _ _ a Hp Han). lia.
  - destruct (Ho a Ha Ha0), (Ho b Hb Hb0). by apply (rows_ok_inj _ _ _ _ Hp).
Qed.

Lemma elem_of_seq1 j : j ∈ seq 1 n <-> 1 <= j <= n.
Proof. rewrite elem_of_seq. lia. Qed.

Section search_step.
Context (k i : nat) (vis : list nat) (s : h_search (F := F)) (j0 : nat).
Context (Hc : cost_bnd k) (Hi : 1 <= i <= n) (Hk : k + 3 <= K) (Hs : search_inv k i vis s j0).

Let used := <[j0 := true]> (s_used s).
Let p := h_p (s_h s).
Let scan := foldl (scan_step cost (s_h s) used (p !!! j0) j0)
              (s_minv s, h_way (s_h s), n_inf, None) (seq 1 n).

Lemma search_used j : used !!! j = true <-> j ∈ j0 :: vis.
Proof.
  pose proof Hs as [Hl _ _ _ Hu Ht Ho _]. unfold used.
  assert (j0 < n + 1) as Hj0.
  { destruct (decide (j0 = 0)); [lia|]. destruct (Ho j0 (list_elem_of_here _ _)); [done|lia]. }
  destruct (decide (j0 = j)) as [<-|Hne].
  - rewrite list_lookup_total_insert_eq by lia. split; [left|done].
  - rewrite list_lookup_total_insert_ne by done. rewrite Hu, elem_of_cons. naive_solver.
Qed.

Lemma search_unused j : used !!! j = false <-> j ∉ j0 :: vis.
Proof. rewrite <- search_used. destruct (used !!! j); naive_solver. Qed.

Lemma search_scan : scan_inv used j0 k vis (s_minv s) (h_way (s_h s)) (seq 1 n) scan.
Proof.
  pose proof Hs as [Hl Hu Hv _ _ _ _ Hm].
  apply scan_spec; [lia|done..|lia|lia|]. intros j Hj Hjn. apply Hm; [done|].
  apply search_unused in Hjn. set_solver.
Qed.

(** A column is left: fewer than [n] are occupied. *)
Lemma search_best :
  exists j1, scan.2 = Some j1 /\ 1 <= j1 <= n /\ j1 ∉ j0 :: vis /\ bnd (S (S k)) scan.1.2 /\
    scan.1.1.2 !!! j1 ∈ j0 :: vis.
Proof.
  destruct search_scan as [_ _ Hseen [(_ & _ & Hall)|(j & -> & Hj & Hju & Hb)]].
  - exfalso. pose proof Hs as [_ _ _ [Hp _] _ _ Ho _].
    assert (n <= i - 1); [|lia]. rewrite <- (length_seq n 1).
    apply (rows_ok_count _ _ _ Hp (NoDup_seq 1 n)). intros j Hj.
    apply Ho; [by apply search_used, Hall|]. apply elem_of_seq1 in Hj. lia.
  - exists j. split_and!; [done|by apply elem_of_seq1..|by apply search_unused|done|by apply Hseen].
Qed.

Lemma search_tree : tree scan.1.1.2 (j0 :: vis).
Proof.
  pose proof Hs as [_ _ _ _ _ Ht _ _]. apply (tree_ext _ _ _ Ht). intros j Hj.
  apply (sc_keep _ _ _ _ _ _ _ _ search_scan). right. by apply search_used.
Qed.

Let shift := foldl (shift_step p used scan.1.2)
               (h_u (s_h s), h_v (s_h s), scan.1.1.1) (seq 0 (n + 1)).

Lemma search_shift : shift_inv p used k (h_u (s_h s)) (h_v (s_h s)) scan.1.1.1 (seq 0 (n + 1)) shift.
Proof.
  pose proof Hs as [Hl Hu Hv _ _ _ _ _].
  destruct search_best as (j1 & _ & _ & _ & Hb & _).
  pose proof search_scan as [[Hl1 _] _ Hseen _].
  apply shift_spec; [lia|done| |lia|lia|done|done|done|].
  - intros a b Ha Hbu. apply (search_used_inj k i vis s j0); [lia|done|by apply search_used..].
  - intros x Hx Hxu. apply Hseen; [by apply elem_of_seq1|done].
Qed.

(** One iteration: it ends with the free column, or re-establishes the invariant. *)
Lemma search_iter fuel :
  exists s' j1,
    search (S fuel) n cost s j0 =
      (if p !!! j1 =? 0 then Some (s', j1) else search fuel n cost s' j1) /\
    h_p (s_h s') = p /\ 1 <= j1 <= n /\
    (p !!! j1 = 0 -> search_done (k + 3) i p s' j1) /\
    (p !!! j1 <> 0 -> search_inv (k + 3) i (j0 :: vis) s' j1).
Proof.
  destruct search_best as (j1 & Hj1 & Hj1n & Hj1v & Hb & Hway).
  pose proof search_scan as Hscan. pose proof search_shift as Hshift. pose proof search_tree as Htree.
  exists (mkSearch (mkH shift.1.1 shift.1.2 p scan.1.1.2) shift.2 used), j1.
  pose proof Hs as [Hl Hu Hv Hp Hus Ht Ho Hm].
  assert (tree scan.1.1.2 (j1 :: j0 :: vis)) as Ht' by (constructor; [done|done|done|lia]).
  destruct Hscan as [[Hl1 Hl2] Hkeep Hseen _]. destruct Hshift as [(Hl3 & Hl4 & Hl5) Hbu Hbv _ _ Hbm].
  replace (S (S (S k))) with (k + 3) in * by lia.
  split_and!; [|done|lia|lia| |].
  - cbn [search]. fold used. fold p. fold scan. destruct scan as [[[minv way] delta] j1'] eqn:Es.
    simpl in *. fold shift. subst j1'. destruct shift as [[u v] minv'] eqn:Esh. simpl. done.
  - intros Hfree. split; simpl; try done. exists (j0 :: vis). split_and!; [done| |].
    + intros x Hx. destruct (decide (x = 0)) as [->|]; [lia|]. destruct (Ho x Hx); [done|lia].
    + apply (search_inv_count k i vis s j0); [lia|done].
  - intros Hocc. split; simpl; try done.
    + unfold used. rewrite length_insert. lia.
    + apply search_used.
    + intros x [->|Hx]%elem_of_cons; [lia|by apply Ho].
    + intros j Hj Hjv. right. split.
      * apply Hbm; [apply elem_of_seq; lia|lia|by apply search_unused].
      * apply Hseen; [by apply elem_of_seq1|by apply search_unused].
Qed.
End search_step.

Lemma cost_bnd_mono k k' : k <= k' -> cost_bnd k -> cost_bnd k'.
Proof. intros Hk Hc r c. by apply (bnd_mono k). Qed.

Lemma search_done_mono k k' i p s j : k <= k' -> search_done k i p s j -> search_done k' i p s j.
Proof. intros Hk [? ? ? ? ? ?]. split; try done; by apply (all_bnd_mono k). Qed.

Lemma search_spec fuel k i vis s j0 :
  cost_bnd k -> 1 <= i <= n -> k + 3 * (i - length vis) <= K ->
  i < fuel + length vis -> search_inv k i vis s j0 ->
  exists s' j, search fuel n cost s j0 = Some (s', j) /\
    search_done (k + 3 * (i - length vis)) i (h_p (s_h s)) s' j.
Proof.
  revert k vis s j0. induction fuel as [|fuel IH]; intros k vis s j0 Hc Hi Hk Hf Hs;
    pose proof (search_inv_count k i vis s j0 ltac:(lia) Hs) as Hcount; simpl in Hcount; [lia|].
  destruct (search_iter k i vis s j0 Hc Hi ltac:(lia) Hs fuel) as (s' & j1 & -> & Hp & Hj1 & Hdone & Hnext).
  destruct (Nat.eqb_spec (h_p (s_h s) !!! j1) 0) as [H0|H0].
  - exists s', j1. split; [done|]. apply (search_done_mono (k + 3)); [lia|by apply Hdone].
  - destruct (IH (k + 3) (j0 :: vis) s' j1) as (s'' & j & Hr & Hd); simpl; try lia.
    + by apply (cost_bnd_mono k); [lia|].
    + by apply Hnext.
    + exists s'', j. split; [done|]. rewrite Hp in Hd. simpl in Hd.
      apply (search_done_mono _ (k + 3 * (i - length vis))) in Hd; [done|lia].
Qed.

(** ** Augmentation *)

Lemma tree_sub way vis j :
  tree way vis -> j ∈ vis ->
  exists vis', tree way (j :: vis') /\ length (j :: vis') <= length vis /\ vis' ⊆ vis.
Proof.
  induction 1 as [|x vis Ht IH Hw Hx Hne]; intros Hj.
  - apply list_elem_of_singleton in Hj as ->. exists []. split; [constructor|]. split; [done|]. by intros y ?%elem_of_nil.
  - apply elem_of_cons in Hj as [->|Hj].
    + exists vis. split; [by constructor|]. split; [simpl; lia|]. intros y Hy. by right.
    + destruct (IH Hj) as (vis' & ? & ? & H2). exists vis'. split; [done|]. simpl in *.
      split; [lia|]. intros y Hy. right. by apply H2.
Qed.

(** The rows 1 .. i are matched, column [j0] aside. *)
Definition hole_ok (i : nat) (p : list nat) (j0 : nat) : Prop :=
  length p = n + 1 /\ filter (fun r => r <> 0) (delete j0 p) ≡ₚ seq 1 i.

Lemma delete_lookup_total (p : list nat) j : j < length p -> p ≡ₚ p !!! j :: delete j p.
Proof. intros Hj. apply delete_Permutation. by apply list_lookup_lookup_total_lt. Qed.

Lemma hole_ok_step i p j0 j1 :
  hole_ok i p j0 -> j0 <= n -> j1 <= n -> j1 <> j0 -> hole_ok i (<[j0 := p !!! j1]> p) j1.
Proof.
  intros [Hl Hp] H0 H1 Hne. split; [by rewrite length_insert|]. rewrite <- Hp.
  apply filter_Permutation. apply (Permutation_cons_inv (a := p !!! j1)).
  set (q := <[j0 := p !!! j1]> p).
  assert (length q = n + 1) as Hlq by (unfold q; by rewrite length_insert).
  trans q.
  - assert (p !!! j1 = q !!! j1) as -> by (unfold q; by rewrite list_lookup_total_insert_ne).
    symmetry. apply delete_lookup_total. lia.
  - rewrite (delete_lookup_total q j0) by lia. unfold q at 1.
    rewrite list_lookup_total_insert_eq by lia. apply Permutation_refl'. f_equal.
    unfold q. rewrite !delete_take_drop. rewrite take_insert_ge by lia. rewrite drop_insert_lt by lia. done.
Qed.

Lemma hole_ok_start i p j :
  1 <= i -> rows_ok (i - 1) p -> p !!! 0 = i -> j <= n -> p !!! j = 0 -> hole_ok i p j.
Proof.
  intros Hi [Hl Hp] H0 Hj Hf. split; [done|].
  trans (filter (fun r => r <> 0) p).
  - rewrite (delete_lookup_total p j) at 2 by lia. rewrite Hf. by rewrite filter_cons_False by (by intros []).
  - destruct p as [|x p]; [simpl in Hl; lia|]. simpl in *. rewrite filter_cons_True by (simpl in H0; unfold lookup_total in H0; simpl in H0; lia).
    rewrite Hp. cbn in H0. subst x. rewrite Permutation_cons_append.
    destruct i as [|i]; [lia|]. simpl. rewrite Nat.sub_0_r. rewrite <- seq_S. done.
Qed.

Lemma augment_spec fuel i way vis p j0 :
  tree way (j0 :: vis) -> (forall x, x ∈ j0 :: vis -> x <= n) -> length vis <= fuel ->
  hole_ok i p j0 -> exists p', augment fuel way p j0 = Some p' /\ rows_ok i p'.
Proof.
  revert vis p j0. induction fuel as [|fuel IH]; intros vis p j0 Ht Hn Hf Hp; simpl.
  - destruct vis; [|simpl in Hf; lia]. assert (j0 = 0) as -> by (inversion Ht as [|? ? Hr]; [done|inversion Hr]).
    simpl. exists p. destruct Hp as [Hl Hp]. split; [done|]. split; [done|]. destruct p; [simpl in Hl; lia|done].
  - destruct (Nat.eqb_spec j0 0) as [->|Hj0].
    + exists p. destruct Hp as [Hl Hp]. split; [done|]. split; [done|]. destruct p; [simpl in Hl; lia|done].
    + inversion Ht as [|? ? Ht' Hw Hv]; [congruence|subst].
      destruct (tree_sub _ _ _ Ht' Hw) as (vis' & Ht'' & Hlen & Hsub).
      apply (IH vis'); [done| |simpl in Hlen; lia|].
      * intros x Hx. apply Hn. right. apply elem_of_cons in Hx as [->|Hx]; [done|by apply Hsub].
      * apply hole_ok_step; [done|apply Hn; left|apply Hn; by right|congruence].
Qed.

(** ** Adding the rows *)

(** The state between two rows. *)
Record row_inv (k i : nat) (h : h_state (F := F)) : Prop := {
  ri_len : length (h_u h) = n + 1 /\ length (h_v h) = n + 1 /\ length (h_way h) = n + 1;
  ri_u : all_bnd k (h_u h);
  ri_v : all_bnd k (h_v h);
  ri_p : rows_ok i (h_p h);
}.

(** Column 0 is scratch. *)
Lemma rows_ok_scratch m p x : rows_ok m p -> rows_ok m (<[0 := x]> p).
Proof. intros [? Hp]. split; [by rewrite length_insert|]. by destruct p. Qed.

Lemma add_row_spec k i h :
  cost_bnd k -> 1 <= i <= n -> k + 3 * i <= K -> row_inv k (i - 1) h ->
  exists h', add_row n cost h i = Some h' /\ row_inv (k + 3 * i) i h'.
Proof.
  intros Hc Hi Hk [Hl Hu Hv Hp]. unfold add_row.
  pose proof Hp as [Hpl _].
  edestruct (search_spec (n + 1) k i []) as (s' & j & -> & Hd); [done|done| | | |].
  4: { simpl. destruct Hd as [Hl' Hu' Hv' Hp' (vis & Ht & Hvn & Hvl) [Hj Hf]]. simpl in *.
    destruct (augment_spec (n + 1) i (h_way (s_h s')) vis (h_p (s_h s')) j) as (p' & -> & Hok);
      [done| |lia| |].
    - intros x [->|Hx]%elem_of_cons; [lia|by apply Hvn].
    - rewrite Hp'. apply hole_ok_start; [lia| | |lia|done].
      + by apply rows_ok_scratch.
      + by rewrite list_lookup_total_insert_eq by lia.
    - eexists. split; [done|]. rewrite Nat.sub_0_r in *. split; simpl; [lia|done|done|done]. }
  - simpl. lia.
  - simpl. lia.
  - split; simpl.
    + rewrite !length_replicate. lia.
    + done.
    + done.
    + split; [by apply rows_ok_scratch|by rewrite list_lookup_total_insert_eq by lia].
    + intros j. split; [|by intros ?%elem_of_nil].
      rewrite list_lookup_total_alt. destruct (replicate (n + 1) false !! j) eqn:E; simpl; [|done].
      apply lookup_replicate in E as [-> _]. done.
    + constructor.
    + intros j ->%list_elem_of_singleton. done.
    + intros j Hj _. left. rewrite list_lookup_total_alt, lookup_replicate_2 by lia. done.
Qed.

(** The magnitude budget of the rows: each search of row [i] makes [i] iterations. *)
Fixpoint budget (i m : nat) : nat :=
  match m with O => 0 | S m => 3 * i + budget (S i) m end.

Lemma add_rows_spec m k i h :
  cost_bnd k -> 1 <= i -> i + m = n + 1 -> k + budget i m <= K -> row_inv k (i - 1) h ->
  exists h', add_rows n cost (seq i m) h = Some h' /\ rows_ok n (h_p h').
Proof.
  revert k i h. induction m as [|m IH]; intros k i h Hc Hi Hm Hk Hr; simpl in *.
  - exists h. split; [done|]. replace n with (i - 1) by lia. apply Hr.
  - destruct (add_row_spec k i h) as (h' & -> & Hr'); [done|lia|lia|done|]. simpl.
    apply (IH (k + 3 * i)); [by apply (cost_bnd_mono k); [lia|]|lia|lia|lia|].
    by replace (S i - 1) with i by lia.
Qed.

Lemma budget_eq i m : 2 * budget i m = 3 * m * (2 * i + m - 1).
Proof. revert i. induction m as [|m IH]; intros i; simpl; [lia|]. specialize (IH (S i)). nia. Qed.

(** ** Reading the assignment off *)

Lemma rows_ok_full p j : rows_ok n p -> 1 <= j <= n -> 1 <= p !!! j <= n.
Proof.
  intros Hp Hj. pose proof (rows_ok_range _ _ _ Hp Hj). split; [|done].
  destruct (decide (p !!! j = 0)) as [H0|]; [exfalso|lia].
  pose proof (rows_ok_occupied _ _ Hp) as Hc.
  assert (j ∈ filter (fun j => p !!! j <> 0) (seq 1 n)) as Hin.
  { rewrite (submseteq_length_Permutation (filter _ _) (seq 1 n)); [by apply elem_of_seq1| |].
    - apply sublist_submseteq, sublist_filter.
    - by rewrite Hc, length_seq. }
  by apply list_elem_of_filter in Hin as [Hne _].
Qed.

Lemma read_assign_spec p :
  rows_ok n p ->
  length (read_assign n p) = n /\
  forall j, 1 <= j <= n -> read_assign n p !!! (p !!! j - 1) = j - 1.
Proof.
  intros Hp. unfold read_assign.
  pose (I (xs a : list nat) := length a = n /\ forall j, j ∈ xs -> a !!! (p !!! j - 1) = j - 1).
  assert (I (seq 1 n) (read_assign n p)) as [Hl HI]; [|split; [done|]; intros j Hj; by apply HI, elem_of_seq1].
  apply (foldl_invariant I).
  - split; [by rewrite length_replicate|by intros j ?%elem_of_nil].
  - intros done j todo a Heq [Hl HI].
    assert (j ∈ seq 1 n) as Hj by (rewrite Heq; apply elem_of_app; right; left).
    apply elem_of_seq1 in Hj. pose proof (rows_ok_full _ _ Hp Hj).
    rewrite (proj2 (Nat.leb_le _ _)) by lia. split; [by rewrite length_insert|].
    intros x Hx. assert (1 <= x <= n) as Hxn.
    { apply elem_of_seq1. rewrite Heq. apply elem_of_app in Hx as [?| ->%list_elem_of_singleton];
        apply elem_of_app; [by left|right; left]. }
    pose proof (rows_ok_full _ _ Hp Hxn). rewrite lookup_total_insert_cases by lia.
    case_decide as Hd.
    + f_equal. apply (rows_ok_inj _ _ _ _ Hp); lia.
    + apply HI. apply elem_of_app in Hx as [Hx| ->%list_elem_of_singleton]; [done|congruence].
Qed.

Lemma read_assign_perm p : rows_ok n p -> read_assign n p ≡ₚ seq 0 n.
Proof.
  intros Hp. destruct (read_assign_spec p Hp) as [Hl HI]. symmetry.
  apply submseteq_length_Permutation; [|by rewrite Hl, length_seq].
  apply NoDup_submseteq; [apply NoDup_seq|]. intros c Hc%elem_of_seq.
  pose proof (rows_ok_full p (S c) Hp ltac:(lia)).
  pose proof (HI (S c) ltac:(lia)) as Hr. replace (S c - 1) with c in Hr by lia. rewrite <- Hr at 1.
  apply (list_elem_of_lookup_2 _ (p !!! S c - 1)), list_lookup_lookup_total_lt. lia.
Qed.
End structure.

(** ** The solver returns a permutation *)

Section solution.
Context {F : Type} `{!Num F} {K : nat} `{!NumBound F K}.

Lemma rows_ok_none n : rows_ok n 0 (replicate (n + 1) 0).
Proof.
  split; [by rewrite length_replicate|]. rewrite Nat.add_1_r. simpl.
  induction n as [|m IH]; [done|]. simpl. apply IH.
Qed.

(** The binades the potentials of an n x n problem can climb. *)
Definition climb (n : nat) : nat := budget 1 n.

Lemma hungarian_perm k (cost : list (list F)) :
  cost_bnd cost k -> length cost <= maxHungarianN -> k + climb (length cost) <= K ->
  exists assign, hungarian cost = Some assign /\ assign ≡ₚ seq 0 (length cost).
Proof.
  intros Hc Hn Hk. unfold hungarian. set (n := length cost) in *.
  destruct (Nat.eqb_spec n 0) as [->|Hn0]; [by exists []|].
  destruct (Nat.ltb_spec maxHungarianN n); [lia|].
  edestruct (add_rows_spec n cost n k 1) as (h & -> & Hp); [done|done|lia|done| |].
  { split; cbn [h_u h_v h_p h_way].
    - by rewrite !length_replicate.
    - apply all_bnd_replicate, bnd_zero.
    - apply all_bnd_replicate, bnd_zero.
    - apply rows_ok_none. }
  simpl. eexists. split; [done|]. by apply read_assign_perm.
Qed.

(** ** The rectangular wrapper *)

(** [assign] matches rows to distinct columns in range, as many as fit. *)
Definition matching (rows cols : nat) (assign : list (option nat)) : Prop :=
  length assign = rows /\ NoDup (omap id assign) /\ Forall (fun c => c < cols) (omap id assign) /\
  length (omap id assign) = Nat.min rows cols.

Lemma argmin_range m (f : nat -> F) : 0 < m -> argmin m f < m.
Proof.
  intros Hm. unfold argmin.
  apply (foldl_invariant (fun _ (st : F * nat) => st.2 < m)); [simpl; lia|].
  intros xs i todo [best bi] Heq Hb.
  assert (i ∈ seq 1 (m - 1)) as Hi by (rewrite Heq; apply elem_of_app; right; left).
  apply elem_of_seq in Hi. simpl in *. destruct (n_lt (f i) best); simpl; lia.
Qed.

Lemma matching_single rows cols r c :
  r < rows -> c < cols -> Nat.min rows cols = 1 ->
  matching rows cols (<[r := Some c]> (replicate rows None)).
Proof.
  intros Hr Hc Hmin.
  assert (omap id (<[r := Some c]> (replicate rows (@None nat))) = [c]) as Ho.
  { clear Hmin Hc. revert r Hr. induction rows as [|rows IH]; intros r Hr; [lia|].
    assert (forall k, omap id (replicate k (@None nat)) = []) as Hn by (intros k; induction k; done).
    destruct r as [|r]; simpl; [by rewrite Hn|]. apply IH. lia. }
  unfold matching. rewrite length_insert, length_replicate, Ho.
  split_and!; [done|apply NoDup_singleton|by repeat constructor|done].
Qed.

Lemma matching_none rows cols : rows = 0 \/ cols = 0 -> matching rows cols (replicate rows None).
Proof.
  intros Hz. assert (forall k, omap id (replicate k (@None nat)) = []) as Hn by (intros k; induction k; done).
  unfold matching. rewrite length_replicate, Hn.
  split_and!; [done|constructor|constructor|simpl; lia].
Qed.

Lemma omap_select cols (l : list nat) :
  omap id ((fun c => if c <? cols then Some c else None) <$> l) = filter (fun c => c < cols) l.
Proof.
  induction l as [|c l IH]; [done|]. rewrite filter_cons, <- IH. cbn [fmap list_fmap].
  destruct (Nat.ltb_spec c cols); case_decide; try lia; done.
Qed.

Lemma filter_lt_seq m a cols : filter (fun c => c < cols) (seq a m) = seq a (Nat.min m (cols - a)).
Proof.
  revert a. induction m as [|m IH]; intros a; [done|]. cbn [seq]. rewrite filter_cons.
  case_decide.
  - rewrite IH. replace (Nat.min (S m) (cols - a)) with (S (Nat.min m (cols - S a))) by lia. done.
  - rewrite IH. replace (Nat.min m (cols - S a)) with 0 by lia.
    by replace (Nat.min (S m) (cols - a)) with 0 by lia.
Qed.

Lemma matching_full rows cols full :
  full ≡ₚ seq 0 (Nat.max rows cols) ->
  matching rows cols ((fun r => let c : nat := full !!! r in if c <? cols then Some c else None) <$> seq 0 rows).
Proof.
  intros Hp. pose proof (Permutation_length Hp) as Hl. rewrite length_seq in Hl.
  assert (((fun r => let c : nat := full !!! r in if c <? cols then Some c else None) <$> seq 0 rows) =
          (fun c => if c <? cols then Some c else None) <$> take rows full) as ->.
  { apply list_eq. intros r. rewrite !list_lookup_fmap. destruct (decide (r < rows)).
    - rewrite lookup_seq_lt, lookup_take_lt by done. simpl.
      by rewrite (list_lookup_lookup_total_lt full r) by lia.
    - rewrite !lookup_ge_None_2; [done|rewrite length_take; lia|rewrite length_seq; lia]. }
  unfold matching. rewrite omap_select. split_and!.
  - rewrite length_fmap, length_take. lia.
  - apply NoDup_filter, (sublist_NoDup _ full); [|apply sublist_take]. rewrite Hp. apply NoDup_seq.
  - apply Forall_forall. by intros c [Hc _]%list_elem_of_filter.
  - destruct (Nat.le_gt_cases cols rows).
    + rewrite take_ge by lia. rewrite Hp, filter_lt_seq, length_seq. lia.
    + rewrite filter_Forall_id; [rewrite length_take; lia|]. apply Forall_forall. intros c Hc.
      assert (c ∈ full) as Hf by (by apply elem_of_take in Hc as (j & ?%list_elem_of_lookup_2 & _)).
      rewrite Hp in Hf. apply elem_of_seq in Hf. lia.
Qed.

Lemma square_bnd k rows cols (cost : nat -> nat -> F) :
  1 <= k -> (forall r c, r < rows -> c < cols -> bnd k (cost r c)) -> cost_bnd (square rows cols cost) k.
Proof.
  intros Hk Hc r c. rewrite (list_lookup_total_alt (square rows cols cost)). unfold square.
  set (n := if rows <? cols then cols else rows). rewrite list_lookup_fmap.
  destruct (decide (r < n)).
  - rewrite lookup_seq_lt by done. simpl. rewrite list_lookup_total_alt, list_lookup_fmap.
    destruct (decide (c < n)).
    + rewrite lookup_seq_lt by done. simpl.
      destruct (Nat.ltb_spec r rows), (Nat.ltb_spec c cols); simpl;
        [by apply Hc|apply (bnd_mono 1); [done|apply bnd_sentinel]..].
    + rewrite lookup_ge_None_2 by (rewrite length_seq; lia). simpl. apply bnd_zero.
  - rewrite lookup_ge_None_2 by (rewrite length_seq; lia). simpl. apply bnd_zero.
Qed.

(** The shapes the solver is guaranteed on: one row, one column, or a square whose
    potentials stay below [n_inf]. *)
Definition solvable (k rows cols : nat) : Prop :=
  rows <= 1 \/ cols <= 1 \/
  (Nat.max rows cols <= maxHungarianN /\ k + climb (Nat.max rows cols) <= K).

Lemma hungarianAssign_ok k rows cols (cost : nat -> nat -> F) :
  1 <= k -> (forall r c, r < rows -> c < cols -> bnd k (cost r c)) -> solvable k rows cols ->
  exists assign, hungarianAssign rows cols cost = Some assign /\ matching rows cols assign.
Proof.
  intros Hk Hc Hs. unfold hungarianAssign.
  destruct (Nat.eqb_spec rows 0) as [->|Hr]; simpl; [eexists; split; [done|apply matching_none; auto]|].
  destruct (Nat.eqb_spec cols 0) as [->|Hcz]; simpl; [eexists; split; [done|apply matching_none; auto]|].
  destruct (Nat.eqb_spec rows 1) as [->|Hr1].
  { eexists. split; [done|]. apply matching_single; [lia|apply argmin_range; lia|lia]. }
  destruct (Nat.eqb_spec cols 1) as [->|Hc1].
  { eexists. split; [done|]. apply matching_single; [apply argmin_range; lia|lia|lia]. }
  destruct Hs as [|[|[Hn Hb]]]; [lia..|].
  assert (length (square rows cols cost) = Nat.max rows cols) as Hl.
  { unfold square. rewrite length_fmap, length_seq. destruct (Nat.ltb_spec rows cols); lia. }
  destruct (hungarian_perm k (square rows cols cost)) as (full & -> & Hp);
    [by apply square_bnd|by rewrite Hl..|].
  rewrite Hl in Hp. simpl. eexists. split; [done|]. by apply matching_full.
Qed.

End solution.
