(* ===== verification/FloatBound.v ===== *)
(** * Magnitude bounds of float64 arithmetic

    A sum or difference of two float64 of magnitude at most 2^k has magnitude at
    most 2^(k+1), for k < 1023: rounding to nearest never passes a power of two, and
    the result does not overflow. These are the laws [NumBound] the assignment
    solver relies on, discharged for float64 ([float64_NumBound]). *)

From stdpp Require Import prelude.
From Stdlib Require Import ZArith Lia Floats.SpecFloat.
From S2P Require Import Prelude GoFloat Hungarian.

Open Scope Z_scope.

(** The magnitude is at most 2^k, and the exponent is not past the largest. *)
Definition f_bnd (k : Z) (x : float64) : Prop :=
  match x with
  | S754_zero _ => True
  | S754_finite _ m e => e <= 971 /\ Zpos m <= 2 ^ (k - e)
  | _ => False
  end.

Lemma pow2_neg t p : Zpos p <= 2 ^ t -> 0 <= t.
Proof. intros H. destruct (Z.le_gt_cases 0 t); [done|]. rewrite Z.pow_neg_r in H by lia. lia. Qed.

Lemma f_bnd_mono k k' x : k <= k' -> f_bnd k x -> f_bnd k' x.
Proof.
  destruct x as [| | |s m e]; simpl; try done. intros Hk [He Hm]. split; [done|].
  pose proof (pow2_neg _ _ Hm). etrans; [done|]. apply Z.pow_le_mono_r; lia.
Qed.

(** ** Shifts *)

Definition sticky (r : shr_record) : Z := if shr_r r || shr_s r then 1 else 0.

(** The value is at most 2^t, the bits shifted out counted. *)
Definition within (r : shr_record) (t : Z) : Prop :=
  0 <= shr_m r /\ 0 <= t /\ shr_m r + sticky r <= 2 ^ t.

Lemma shr_1_within r t : 0 <= t -> within r (t + 1) -> within (shr_1 r) t.
Proof.
  destruct r as [m r s]. unfold within, sticky. simpl. intros Ht (Hm & _ & Hb).
  rewrite Z.pow_add_r in Hb by lia. pose proof (Z.pow_pos_nonneg 2 t ltac:(lia) Ht).
  destruct m as [|[p|p|]|p]; [destruct r, s; simpl in *; lia..|lia].
Qed.

Lemma iter_shr_within p r t : 0 <= t -> within r (t + Zpos p) -> within (iter_pos shr_1 p r) t.
Proof.
  revert r t. induction p as [p IH|p IH|]; intros r t Ht Hw; simpl.
  - apply IH; [done|]. apply IH; [lia|]. apply shr_1_within; [lia|].
    by replace (t + Z.pos p + Z.pos p + 1) with (t + Z.pos p~1) by lia.
  - apply IH; [done|]. apply IH; [lia|].
    by replace (t + Z.pos p + Z.pos p) with (t + Z.pos p~0) by lia.
  - by apply shr_1_within.
Qed.

Lemma shr_within r e n k :
  within r (k - e) -> e + n <= k -> within (shr r e n).1 (k - (shr r e n).2).
Proof.
  intros Hw Hn. destruct n as [|p|p]; simpl; [done| |done].
  apply iter_shr_within; [lia|]. by replace (k - (e + Z.pos p) + Z.pos p) with (k - e) by lia.
Qed.

Lemma shr_exp r e n : (shr r e n).2 = Z.max e (e + n).
Proof. destruct n; simpl; lia. Qed.

(** ** Digits *)

Lemma digits2_pos_le p : 2 ^ (Zpos (digits2_pos p) - 1) <= Zpos p.
Proof.
  induction p as [p IH|p IH|]; simpl digits2_pos; [| |done];
    rewrite Pos2Z.inj_succ; rewrite Z.sub_1_r in *; rewrite Z.pred_succ;
    rewrite <- (Z.succ_pred (Zpos (digits2_pos p))), Z.pow_succ_r by lia; lia.
Qed.

Lemma digits2_bound p t : Zpos p <= 2 ^ t -> Zpos (digits2_pos p) <= t + 1.
Proof.
  intros H. pose proof (digits2_pos_le p). pose proof (pow2_neg _ _ H).
  assert (Zpos (digits2_pos p) - 1 <= t); [|lia].
  apply (Z.pow_le_mono_r_iff 2); lia.
Qed.

Lemma Zdigits2_bound m t : 0 <= m -> 0 <= t -> m <= 2 ^ t -> Zdigits2 m <= t + 1.
Proof. intros Hm Ht Hb. destruct m as [|p|p]; simpl; [lia|by apply digits2_bound|lia]. Qed.

Lemma shr_fexp_within m e l k :
  0 <= k <= 1023 -> e <= 971 -> within (shr_record_of_loc m l) (k - e) ->
  let r := shr_fexp 53 1024 m e l in within r.1 (k - r.2) /\ r.2 <= 971.
Proof.
  intros Hk He Hw. unfold shr_fexp. cbv zeta.
  assert (fexp 53 1024 (Zdigits2 m + e) <= 971 /\ fexp 53 1024 (Zdigits2 m + e) <= k) as [H1 H2].
  { assert (Zdigits2 m <= k - e + 1).
    { destruct Hw as (Hm & Ht & Hb). destruct l as [|[]]; simpl in *; unfold sticky in Hb; simpl in *;
        (apply Zdigits2_bound; lia). }
    unfold fexp, SpecFloat.emin. lia. }
  split; [apply shr_within; [done|lia]|rewrite shr_exp; lia].
Qed.

Lemma round_within r t :
  within r t -> 0 <= round_nearest_even (shr_m r) (loc_of_shr_record r) <= 2 ^ t.
Proof.
  destruct r as [m [] []]; unfold within, sticky; simpl; intros (? & ? & ?); [lia| |lia|lia].
  destruct (Z.even m); lia.
Qed.

Lemma binary_round_aux_within s m e l k :
  0 <= k <= 1023 -> e <= 971 -> within (shr_record_of_loc m l) (k - e) ->
  f_bnd k (binary_round_aux 53 1024 s m e l).
Proof.
  intros Hk He Hw. unfold binary_round_aux.
  pose proof (shr_fexp_within m e l k Hk He Hw) as [Hw1 He1].
  destruct (shr_fexp 53 1024 m e l) as [r1 e1]; cbn [fst snd] in Hw1, He1.
  pose proof (round_within _ _ Hw1) as Hr.
  set (m1 := round_nearest_even _ _) in *.
  assert (within (shr_record_of_loc m1 loc_Exact) (k - e1)) as Hw2.
  { destruct Hw1 as (_ & ? & _). unfold within, sticky. simpl. lia. }
  pose proof (shr_fexp_within m1 e1 loc_Exact k Hk He1 Hw2) as [Hw3 He3].
  destruct (shr_fexp 53 1024 m1 e1 loc_Exact) as [[m2 r2 s2] e2]; cbn [fst snd] in Hw3, He3.
  destruct Hw3 as (Hm2 & Ht2 & Hb2). unfold sticky in Hb2. simpl in *.
  destruct m2 as [|p|p]; simpl; [done| |lia].
  change (1024 - 53) with 971. destruct (Z.leb_spec e2 971); [|lia]. simpl. split; [done|].
  destruct (r2 || s2); lia.
Qed.

Lemma binary_round_aux_bnd s m e k :
  0 <= k <= 1023 -> e <= 971 -> 0 <= m -> m <= 2 ^ (k - e) -> 0 <= k - e ->
  f_bnd k (binary_round_aux 53 1024 s m e loc_Exact).
Proof.
  intros Hk He Hm Hb Ht. apply binary_round_aux_within; [done|done|].
  unfold within, sticky. simpl. lia.
Qed.

Lemma iter_xO p d : Zpos (Pos.iter xO p d) = Zpos p * 2 ^ Zpos d.
Proof.
  induction d as [|d IH] using Pos.peano_ind; simpl; [lia|].
  rewrite Pos.iter_succ, Pos2Z.inj_xO, IH, Pos2Z.inj_succ, Z.pow_succ_r by lia. lia.
Qed.

(** Aligning to a smaller exponent keeps the value. *)
Lemma shl_align_value m e e' : e' <= e -> Zpos (shl_align m e e').1 = Zpos m * 2 ^ (e - e').
Proof.
  intros He. unfold shl_align. destruct (Z.sub e' e) as [|d|d] eqn:Ed; simpl; [|lia|].
  - replace (e - e') with 0 by lia. lia.
  - rewrite iter_xO. do 2 f_equal. lia.
Qed.

Lemma shl_align_bnd m e e' k :
  Zpos m <= 2 ^ (k - e) -> e' <= e -> Zpos (shl_align m e e').1 <= 2 ^ (k - e').
Proof.
  intros Hm He. rewrite shl_align_value by done. pose proof (pow2_neg _ _ Hm).
  replace (k - e') with ((k - e) + (e - e')) by lia. rewrite Z.pow_add_r by lia.
  apply Z.mul_le_mono_nonneg_r; [|done]. apply Z.pow_nonneg. lia.
Qed.

Lemma binary_round_bnd s m e k :
  0 <= k <= 1023 -> e <= 971 -> Zpos m <= 2 ^ (k - e) -> f_bnd k (binary_round 53 1024 s m e).
Proof.
  intros Hk He Hm. unfold binary_round. set (e' := fexp 53 1024 _).
  pose proof (pow2_neg _ _ Hm).
  assert ((shl_align m e e').2 <= e /\ Zpos (shl_align m e e').1 <= 2 ^ (k - (shl_align m e e').2)) as [H1 H2].
  { destruct (Z.le_gt_cases e e') as [Hle|Hgt].
    - assert (shl_align m e e' = (m, e)) as ->; [|simpl; lia].
      unfold shl_align. destruct (Z.sub e' e) eqn:Ed; [done|done|lia].
    - assert ((shl_align m e e').2 = e') as ->.
      { unfold shl_align. destruct (Z.sub e' e) eqn:Ed; simpl; [lia|lia|done]. }
      split; [lia|]. apply shl_align_bnd; [done|lia]. }
  destruct (shl_align m e e') as [mz ez]; simpl in *.
  apply binary_round_aux_bnd; [done|lia|lia|done|lia].
Qed.

Lemma binary_normalize_bnd m e k :
  0 <= k <= 1023 -> e <= 971 -> Z.abs m <= 2 ^ (k - e) -> f_bnd k (binary_normalize 53 1024 m e false).
Proof. intros Hk He Hm. destruct m as [|p|p]; simpl in *; [done|by apply binary_round_bnd..]. Qed.

(** Two aligned significands, added or subtracted. *)
Lemma aligned_bnd (sx sy : bool) (op : Z -> Z -> Z) mx ex my ey k :
  (forall a b, Z.abs (op a b) <= Z.abs a + Z.abs b) ->
  0 <= k < 1023 -> ex <= 971 -> ey <= 971 -> Zpos mx <= 2 ^ (k - ex) -> Zpos my <= 2 ^ (k - ey) ->
  f_bnd (k + 1) (binary_normalize 53 1024
    (op (cond_Zopp sx (Zpos (fst (shl_align mx ex (Z.min ex ey)))))
        (cond_Zopp sy (Zpos (fst (shl_align my ey (Z.min ex ey)))))) (Z.min ex ey) false).
Proof.
  intros Hop Hk Hex Hey Hx Hy. apply binary_normalize_bnd; [lia|lia|].
  pose proof (shl_align_bnd mx ex (Z.min ex ey) k Hx ltac:(lia)).
  pose proof (shl_align_bnd my ey (Z.min ex ey) k Hy ltac:(lia)).
  pose proof (pow2_neg _ _ Hx). pose proof (pow2_neg _ _ Hy).
  etrans; [apply Hop|].
  replace (k + 1 - Z.min ex ey) with ((k - Z.min ex ey) + 1) by lia.
  rewrite Z.pow_add_r by lia. destruct sx, sy; simpl; lia.
Qed.

Lemma f_add_bnd k x y : 0 <= k < 1023 -> f_bnd k x -> f_bnd k y -> f_bnd (k + 1) (f_add x y).
Proof.
  intros Hk Hx Hy.
  destruct x as [sx| | |sx mx ex], y as [sy| | |sy my ey]; simpl in Hx, Hy; try done.
  - unfold f_add. simpl. by destruct sx, sy.
  - apply (f_bnd_mono k); [lia|done].
  - apply (f_bnd_mono k); [lia|done].
  - apply (aligned_bnd sx sy Z.add); [intros; lia|done|tauto..].
Qed.

Lemma f_sub_bnd k x y : 0 <= k < 1023 -> f_bnd k x -> f_bnd k y -> f_bnd (k + 1) (f_sub x y).
Proof.
  intros Hk Hx Hy.
  destruct x as [sx| | |sx mx ex], y as [sy| | |sy my ey]; simpl in Hx, Hy; try done.
  - unfold f_sub. simpl. by destruct sx, sy.
  - apply (f_bnd_mono k _ (S754_finite (negb sy) my ey)); [lia|done].
  - apply (f_bnd_mono k); [lia|done].
  - apply (aligned_bnd sx sy Z.sub); [intros; lia|done|tauto..].
Qed.

Lemma compare_cont_lt m p : Zpos m < Zpos p -> Pos.compare_cont Eq m p = Lt.
Proof. done. Qed.

Lemma f_bnd_lt_max k x : k <= 1023 -> f_bnd k x -> f_lt x f_max = true.
Proof.
  intros Hk Hx. destruct x as [s| | |[] m e]; simpl in Hx; try done. destruct Hx as [He Hm].
  unfold f_lt, SFltb, f_max, SFcompare. destruct (Z.compare_spec e 971) as [->| |]; [|done|lia].
  rewrite compare_cont_lt; [done|]. apply (Z.le_lt_trans _ (2 ^ (k - 971))); [done|].
  apply (Z.le_lt_trans _ (2 ^ 52)); [apply Z.pow_le_mono_r; lia|done].
Qed.

#[export] Program Instance float64_NumBound : NumBound float64 1023 :=
  {| bnd k x := f_bnd (Z.of_nat k) x |}.
Next Obligation. intros k k' x Hk. apply f_bnd_mono. lia. Qed.
Next Obligation. done. Qed.
Next Obligation. by vm_compute. Qed.
Next Obligation. by vm_compute. Qed.
Next Obligation.
  intros k x y Hk Hx Hy. cbv beta. replace (Z.of_nat (S k)) with (Z.of_nat k + 1) by lia.
  apply (f_add_bnd (Z.of_nat k)); [lia|done..].
Qed.
Next Obligation.
  intros k x y Hk Hx Hy. cbv beta. replace (Z.of_nat (S k)) with (Z.of_nat k + 1) by lia.
  apply (f_sub_bnd (Z.of_nat k)); [lia|done..].
Qed.
Next Obligation. intros k x Hk Hx. apply (f_bnd_lt_max (Z.of_nat k)); [lia|done]. Qed.

(** ** Ratios of small counts *)

Lemma digits2_pos_gt p : Zpos p < 2 ^ Zpos (digits2_pos p).
Proof.
  induction p as [p IH|p IH|]; simpl digits2_pos; [| |done];
    rewrite Pos2Z.inj_succ, Z.pow_succ_r by lia; lia.
Qed.

Lemma digits2_shift p d : Zpos (digits2_pos (Pos.iter xO p d)) = Zpos (digits2_pos p) + Zpos d.
Proof.
  induction d as [|d IH] using Pos.peano_ind; simpl; [lia|].
  rewrite Pos.iter_succ. simpl digits2_pos. lia.
Qed.

(** A significand already of full width is not changed by rounding. *)
Lemma binary_round_aux_id s m e :
  Zpos (digits2_pos m) = 53 -> -1074 <= e <= 971 ->
  binary_round_aux 53 1024 s (Zpos m) e loc_Exact = S754_finite s m e.
Proof.
  intros Hd He. unfold binary_round_aux.
  assert (shr_fexp 53 1024 (Zpos m) e loc_Exact = (Build_shr_record (Zpos m) false false, e)) as Hs.
  { unfold shr_fexp. simpl Zdigits2. rewrite Hd. unfold fexp, SpecFloat.emin.
    replace (Z.max _ _ - e) with 0 by lia. done. }
  rewrite Hs. cbn [shr_m loc_of_shr_record round_nearest_even]. rewrite Hs. cbn [shr_m].
  change (1024 - 53) with 971. by rewrite (proj2 (Z.leb_le _ _)) by lia.
Qed.

(** A positive integer below 2^53 is represented exactly. *)
Lemma f_of_Z_exact p :
  Zpos p < 2 ^ 53 ->
  exists m e, f_of_Z (Zpos p) = S754_finite false m e /\ -53 <= e <= 0 /\ Zpos m = Zpos p * 2 ^ (- e).
Proof.
  intros Hp. set (d := Zpos (digits2_pos p)).
  assert (1 <= d <= 53) as Hd.
  { split; [unfold d; lia|]. pose proof (digits2_pos_le p) as Hl. fold d in Hl.
    assert (d - 1 < 53); [|lia]. apply (Z.pow_lt_mono_r_iff 2); lia. }
  exists (shl_align p 0 (d - 53)).1, (d - 53).
  assert (Zpos (digits2_pos (shl_align p 0 (d - 53)).1) = 53) as Hw.
  { unfold shl_align. destruct (d - 53 - 0) as [|q|q] eqn:E; simpl; fold d; [lia|lia|].
    rewrite digits2_shift. fold d. lia. }
  assert (shl_align p 0 (d - 53) = ((shl_align p 0 (d - 53)).1, d - 53)) as Hpair.
  { unfold shl_align. destruct (d - 53 - 0) as [|q|q] eqn:E; simpl; [f_equal; lia|lia|done]. }
  split; [|split; [lia|]].
  - unfold f_of_Z, binary_normalize, binary_round. fold d.
    replace (fexp 53 1024 (d + 0)) with (d - 53) by (unfold fexp, SpecFloat.emin; lia).
    rewrite Hpair. cbn [fst]. apply binary_round_aux_id; [done|lia].
  - rewrite shl_align_value by lia. f_equal.
Qed.

Lemma new_location_sticky m r q :
  0 <= r -> sticky (shr_record_of_loc q (new_location (Zpos m) r)) = if r =? 0 then 0 else 1.
Proof.
  intros Hr. unfold new_location, new_location_even, new_location_odd, sticky.
  destruct (Z.even (Zpos m)), (Z.eqb_spec r 0); simpl; try done.
  - by destruct (_ ?= _).
  - by destruct (_ ?= _).
Qed.

(** A quotient of at most one is at most one. *)
Lemma f_div_unit m1 e1 m2 e2 t :
  t <= e1 -> t <= e2 -> Zpos m1 * 2 ^ (e1 - t) <= Zpos m2 * 2 ^ (e2 - t) ->
  f_bnd 0 (f_div (S754_finite false m1 e1) (S754_finite false m2 e2)).
Proof.
  intros Ht1 Ht2 Hle. unfold f_div, SFdiv. cbn [xorb]. unfold SFdiv_core_binary. simpl Zdigits2.
  set (d1 := Zpos (digits2_pos m1)). set (d2 := Zpos (digits2_pos m2)).
  set (e' := Z.min _ _). set (s := e1 - e2 - e').
  pose proof (Z.pow_pos_nonneg 2 (e1 - t) ltac:(lia) ltac:(lia)) as HA.
  pose proof (Z.pow_pos_nonneg 2 (e2 - t) ltac:(lia) ltac:(lia)) as HB.
  assert (d1 + e1 <= d2 + e2) as Hd.
  { pose proof (digits2_pos_le m1) as H1. pose proof (digits2_pos_gt m2) as H2. fold d1 in H1. fold d2 in H2.
    assert (2 ^ (d1 - 1 + (e1 - t)) < 2 ^ (d2 + (e2 - t))) as Hlt.
    { rewrite !Z.pow_add_r by lia. nia. }
    apply Z.pow_lt_mono_r_iff in Hlt; lia. }
  assert (e' <= -53) as He' by (unfold e', fexp, SpecFloat.emin; lia).
  assert (0 <= s) as Hs by (unfold s, e'; lia).
  assert (match s with Zpos _ => Z.shiftl (Zpos m1) s | Z0 => Zpos m1 | Zneg _ => 0 end =
          Zpos m1 * 2 ^ s) as ->.
  { destruct s as [|q|q] eqn:E; [lia|by rewrite Z.shiftl_mul_pow2 by lia|lia]. }
  assert (Zpos m1 * 2 ^ s <= Zpos m2 * 2 ^ (- e')) as Hm.
  { apply (Z.mul_le_mono_pos_r _ _ (2 ^ (e2 - t))); [done|].
    replace (Zpos m1 * 2 ^ s * 2 ^ (e2 - t)) with (Zpos m1 * 2 ^ (e1 - t) * 2 ^ (- e')).
    - pose proof (Z.pow_pos_nonneg 2 (- e') ltac:(lia) ltac:(lia)). nia.
    - rewrite <- !Z.mul_assoc, <- !Z.pow_add_r by lia. do 2 f_equal. unfold s. lia. }
  pose proof (Z_div_mod (Zpos m1 * 2 ^ s) (Zpos m2) ltac:(lia)) as Hdm.
  destruct (Z.div_eucl _ _) as [q r]. destruct Hdm as [Heq Hr].
  pose proof (Z.pow_pos_nonneg 2 s ltac:(lia) Hs).
  apply binary_round_aux_within; [lia|lia|]. unfold within. rewrite new_location_sticky by lia.
  assert (shr_m (shr_record_of_loc q (new_location (Zpos m2) r)) = q) as ->
    by (unfold shr_record_of_loc; destruct (new_location _ _) as [|[]]; done).
  split_and!; [nia|lia|]. replace (0 - e') with (- e') by lia.
  destruct (Z.eqb_spec r 0); nia.
Qed.

(** The ratio of two counts below 2^53, the first no larger, is at most one. *)
Lemma f_ratio_bnd a b :
  (a <= b)%nat -> (0 < b)%nat -> Z.of_nat b < 2 ^ 53 -> f_bnd 0 (f_div (f_of_nat a) (f_of_nat b)).
Proof.
  intros Hab Hb Hlt. unfold f_of_nat.
  destruct (f_of_Z_exact (Z.to_pos (Z.of_nat b))) as (m2 & e2 & H2 & He2 & Hm2); [lia|].
  rewrite Z2Pos.id in H2, Hm2 by lia. rewrite H2.
  destruct a as [|a]; [done|].
  destruct (f_of_Z_exact (Z.to_pos (Z.of_nat (S a)))) as (m1 & e1 & H1 & He1 & Hm1); [lia|].
  rewrite Z2Pos.id in H1, Hm1 by lia. rewrite H1.
  apply (f_div_unit _ _ _ _ (-53)); [lia|lia|].
  rewrite Hm1, Hm2. rewrite <- !Z.mul_assoc, <- !Z.pow_add_r by lia.
  replace (- e1 + (e1 - -53)) with 53 by lia. replace (- e2 + (e2 - -53)) with 53 by lia. nia.
Qed.

(** ** The solver on float64

    A row addition makes at most as many search iterations as its row number, and
    each iteration climbs three binades, so 25 rows climb 975: from costs of
    magnitude at most 2 the potentials stay below [math.MaxFloat64]. *)
Definition solver_rows : nat := 25.

Lemma climb_solver_rows n : (n <= solver_rows)%nat -> (1 + climb n <= 1023)%nat.
Proof. intros Hn. unfold climb, solver_rows in *. pose proof (budget_eq 1 n). nia. Qed.

Lemma float_solvable rows cols :
  (rows <= 1 \/ cols <= 1 \/ Nat.max rows cols <= solver_rows)%nat -> solvable (K := 1023) 1 rows cols.
Proof.
  intros [H|[H|H]]; [by left|by right; left|right; right].
  split; [unfold maxHungarianN, solver_rows in *; lia|by apply climb_solver_rows].
Qed.

(** Costs within [-2, 2]; the program's are in [0, 1] and the sentinel is 2. *)
Definition costs_small (cost : list (list float64)) : Prop :=
  forall r c, f_bnd 1 (cost !!! r !!! c).

(** C24. [hungarian] on a square matrix of up to 25 rows of small float64 costs
    returns (no panic: the iteration guard is not hit and the scan always finds a
    column), and what it returns is a permutation of the columns. *)
Theorem hungarian_permutation (cost : list (list float64)) :
  costs_small cost -> (length cost <= solver_rows)%nat ->
  exists assign, hungarian cost = Some assign /\ assign ≡ₚ seq 0 (length cost).
Proof.
  intros Hc Hn. apply (hungarian_perm (K := 1023) 1); [exact Hc| |by apply climb_solver_rows].
  unfold maxHungarianN, solver_rows in *. lia.
Qed.

Definition cost3 : list (list float64) :=
  [[f_const 1 2; f_const 1 4; f_one]; [f_const 1 4; f_const 1 8; f_one]; [f_zero; f_one; f_const 1 8]].

Lemma cost3_small : costs_small cost3.
Proof.
  intros r c. do 4 (try destruct r as [|r]); do 4 (try destruct c as [|c]); by vm_compute.
Qed.

Lemma hungarian_permutation_witness :
  hungarian cost3 = Some [1; 0; 2]%nat /\
  exists assign, hungarian cost3 = Some assign /\ assign ≡ₚ seq 0 3.
Proof. split; [by vm_compute|]. apply (hungarian_permutation cost3 cost3_small). unfold solver_rows. simpl. lia. Defined.

(** [hungarianAssign] on a rectangular problem: never a panic, one answer per
    row, no column given twice, columns in range, and as many rows matched to real
    columns as the smaller side allows. One row or one column needs no bound. *)
Theorem hungarianAssign_matching rows cols (cost : nat -> nat -> float64) :
  (forall r c, (r < rows)%nat -> (c < cols)%nat -> f_bnd 1 (cost r c)) ->
  (rows <= 1 \/ cols <= 1 \/ Nat.max rows cols <= solver_rows)%nat ->
  exists assign, hungarianAssign rows cols cost = Some assign /\ matching rows cols assign.
Proof. intros Hc Hs. apply (hungarianAssign_ok (K := 1023) 1); [lia|exact Hc|by apply float_solvable]. Qed.

Lemma hungarianAssign_matching_witness :
  hungarianAssign 3 2 (fun r c => f_const (Z.of_nat c) (1 + Z.of_nat r)) = Some [Some 0; None; Some 1]%nat /\
  exists assign, hungarianAssign 3 2 (fun r c => f_const (Z.of_nat c) (1 + Z.of_nat r)) = Some assign /\ matching 3 2 assign.
Proof.
  split; [by vm_compute|]. apply hungarianAssign_matching; [|right; right; unfold solver_rows; lia].
  intros r c Hr Hc. do 3 (try destruct r as [|r]); do 2 (try destruct c as [|c]); try lia; by vm_compute.
Defined.
