(* ===== verification/Bipartite.v ===== *)
(** * Bipartite matching

    [bipartiteGroups] of src/reconcile/bipartite.go: the reduction of N-way matching
    to merge groups. Each source's findings are assigned to the groups built so far,
    and a candidate joins its group only when it is mergeable with every member. *)

From Stdlib Require Import String.
From stdpp Require Import prelude strings gmap list sorting.
From Stdlib Require Import ZArith Lia.
From S2P Require Import Prelude GoString GoSort GoFloat Hungarian FloatBound.

Open Scope string_scope.
Open Scope list_scope.
Open Scope nat_scope.

Section groups.
Context {F : Type} `{!Num F}.
Context (dist : list (list F)) (mergeable : nat -> nat -> bool).

(** [bySource] and [order], before sorting. *)
Definition source_step (st : gmap string (list nat) * list string) (ik : nat * string)
    : gmap string (list nat) * list string :=
  let '(bySource, order) := st in
  let '(i, key) := ik in
  let order := match bySource !! key with None => order ++ [key] | Some _ => order end in
  (<[key := default [] (bySource !! key) ++ [i]]> bySource, order).

(** The group-to-candidate cost: the least distance to a member. *)
Definition group_cost (g : list nat) (cand : nat) : F :=
  foldl (fun m gi => let d : F := dist !!! gi !!! cand in if n_lt d m then d else m) n_one g.

(** One iteration of [for r, c := range assign]: [None] is an index panic. *)
Definition accept_step (cands : list nat) (st : list (list nat) * list bool) (rc : nat * option nat)
    : list (list nat) * list bool :=
  let '(groups, used) := st in
  let '(r, c) := rc in
  match c with
  | None => (groups, used)
  | Some c =>
      let cand : nat := cands !!! c in
      if forallb (fun gi => mergeable gi cand) (groups !!! r : list nat)
      then (<[r := (groups !!! r) ++ [cand]]> groups, <[c := true]> used)
      else (groups, used)
  end.

(** The candidates no group accepted seed their own groups. *)
Definition leftovers (cands : list nat) (used : list bool) : list (list nat) :=
  (fun ic => [ic.2]) <$> filter (fun ic : nat * nat => (used !!! ic.1 : bool) = false) (imap pair cands).

(** The loop body for the candidates of one source. *)
Definition match_source (groups : list (list nat)) (cands : list nat) : option (list (list nat)) :=
  match groups with
  | [] => Some ((fun c => [c]) <$> cands)
  | _ =>
      assign ← hungarianAssign (length groups) (length cands)
                 (fun r c => group_cost (groups !!! r) (cands !!! c));
      let '(groups, used) :=
        foldl (accept_step cands) (groups, replicate (length cands) false) (imap pair assign) in
      Some (groups ++ leftovers cands used)
  end.

Fixpoint match_sources (groups : list (list nat)) (sources : list (list nat)) : option (list (list nat)) :=
  match sources with
  | [] => Some groups
  | cands :: rest => groups ← match_source groups cands; match_sources groups rest
  end.

Definition head_less (a b : list nat) : bool := (a !!! 0 <? b !!! 0)%nat.

Definition bipartiteGroups (srcKeys : list string) : option (list (list nat)) :=
  let '(bySource, order) := foldl source_step (∅, []) (imap pair srcKeys) in
  groups ← match_sources [] ((fun s => default [] (bySource !! s)) <$> sort_strings order);
  Some (slice_stable head_less (sort_ints <$> groups)).
End groups.

(** ** What one matching step does to the groups *)

Section step.
Context {F : Type} `{!Num F}.
Context (mergeable : nat -> nat -> bool) (cands : list nat).

Lemma imap_pair_seq {A} `{!Inhabited A} (l : list A) :
  imap pair l = (fun i => (i, l !!! i)) <$> seq 0 (length l).
Proof.
  apply list_eq. intros i. rewrite list_lookup_imap, list_lookup_fmap.
  destruct (decide (i < length l)).
  - rewrite lookup_seq_lt by done. rewrite (list_lookup_lookup_total_lt l i) by done. done.
  - rewrite !lookup_ge_None_2; [done|rewrite length_seq; lia|lia].
Qed.

Lemma imap_pair_fst {A} (l : list A) : (imap pair l).*1 = seq 0 (length l).
Proof.
  apply list_eq. intros i. rewrite list_lookup_fmap, list_lookup_imap.
  destruct (l !! i) eqn:E; simpl.
  - symmetry. apply lookup_seq. split; [done|]. by apply lookup_lt_Some in E.
  - symmetry. apply lookup_ge_None_2. rewrite length_seq. by apply lookup_ge_None.
Qed.

Lemma imap_pair_snd {A} (l : list A) : (imap pair l).*2 = l.
Proof.
  apply list_eq. intros i. rewrite list_lookup_fmap, list_lookup_imap. by destruct (l !! i).
Qed.

Lemma omap_snd {A B} (l : list (A * option B)) : omap snd l = omap id l.*2.
Proof. induction l as [|[a [b|]] l IH]; cbn; [done|by f_equal|done]. Qed.

(** The candidates no group has accepted yet. *)
Definition pending (used : list bool) : list nat :=
  (fun i => cands !!! i) <$> filter (fun i => (used !!! i : bool) = false) (seq 0 (length cands)).

Lemma pending_none : pending (replicate (length cands) false) = cands.
Proof.
  unfold pending. rewrite filter_Forall_id.
  - rewrite <- (imap_pair_snd cands) at 2. rewrite imap_pair_seq, <- list_fmap_compose. done.
  - apply Forall_forall. intros i Hi%elem_of_seq.
    rewrite list_lookup_total_alt, lookup_replicate_2 by lia. done.
Qed.

Lemma leftovers_pending used : leftovers cands used = (fun x => [x]) <$> pending used.
Proof.
  unfold leftovers, pending. rewrite imap_pair_seq. rewrite <- list_fmap_compose.
  generalize (seq 0 (length cands)). intros l. induction l as [|i l IH]; [done|].
  cbn [fmap list_fmap]. rewrite !filter_cons. cbn [fst]. case_decide; [|done]. cbn. by f_equal.
Qed.

Lemma mjoin_singletons {A} (l : list A) : mjoin ((fun x => [x]) <$> l) = l.
Proof. induction l as [|x l IH]; [done|]. simpl. by f_equal. Qed.

Lemma mjoin_insert_snoc {A} (gs : list (list A)) r g x :
  gs !! r = Some g -> mjoin (<[r := g ++ [x]]> gs) ≡ₚ x :: mjoin gs.
Proof.
  revert r. induction gs as [|h gs IH]; intros [|r] Hr; simpl in *; try done.
  - injection Hr as ->. rewrite <- app_assoc. simpl. by rewrite Permutation_middle.
  - rewrite IH by done. by rewrite Permutation_middle.
Qed.

Lemma filter_insert_used (used : list bool) c l :
  NoDup l -> c ∈ l -> c < length used -> used !!! c = false ->
  filter (fun i => (used !!! i : bool) = false) l ≡ₚ
    c :: filter (fun i => (<[c := true]> used !!! i : bool) = false) l.
Proof.
  intros Hnd Hc Hl Hu. apply elem_of_Permutation in Hc as [l' Hl']. rewrite Hl' in *.
  apply NoDup_cons in Hnd as [Hc Hnd]. rewrite filter_cons_True by done.
  rewrite filter_cons_False by (by rewrite list_lookup_total_insert_eq).
  constructor. apply reflexive_eq, filter_iff_in. intros x Hx.
  rewrite list_lookup_total_insert_ne; [done|]. by intros ->.
Qed.

(** A group of [gs], or one that grew by a candidate mergeable with all its members. *)
Definition grown (gs : list (list nat)) (g' : list nat) : Prop :=
  g' ∈ gs \/ exists g x, g ∈ gs /\ x ∈ cands /\ Forall (fun gi => mergeable gi x = true) g /\ g' = g ++ [x].

Record accept_inv (G : list (list nat)) (todo : list (nat * option nat))
    (st : list (list nat) * list bool) : Prop := {
  ac_len : length st.1 = length G /\ length st.2 = length cands;
  ac_rows : forall r, r ∈ todo.*1 -> st.1 !! r = G !! r;
  ac_cols : forall c, c ∈ omap snd todo -> st.2 !!! c = false;
  ac_perm : mjoin st.1 ++ pending st.2 ≡ₚ mjoin G ++ cands;
  ac_grown : Forall (grown G) st.1;
}.

Lemma accept_step_inv G rc todo st :
  NoDup (rc :: todo).*1 -> NoDup (omap snd (rc :: todo)) ->
  Forall (fun r => r < length G) (rc :: todo).*1 ->
  Forall (fun c => c < length cands) (omap snd (rc :: todo)) ->
  accept_inv G (rc :: todo) st -> accept_inv G todo (accept_step mergeable cands st rc).
Proof.
  intros Hr Hc Hrl Hcl [[Hl1 Hl2] Hrows Hcols Hperm Hgrown].
  destruct st as [gs used], rc as [r oc]. cbn [fst snd] in *.
  apply NoDup_cons in Hr as [Hr _]. apply Forall_cons in Hrl as [Hrl _].
  assert (accept_inv G todo (gs, used)) as Hskip.
  { split; cbn [fst snd]; [done| | |done|done].
    - intros r' Hr'. apply Hrows. by right.
    - intros c Hc'. apply Hcols. cbn. destruct oc; [by right|done]. }
  unfold accept_step. destruct oc as [c|]; [|done]. cbn in Hc, Hcl, Hcols.
  destruct (forallb _ _) eqn:Ef; [|done].
  apply NoDup_cons in Hc as [Hc _]. apply Forall_cons in Hcl as [Hcl _].
  assert (gs !! r = Some (gs !!! r)) as Hg by (apply list_lookup_lookup_total_lt; (simpl in *; lia)).
  split; cbn [fst snd].
  - by rewrite !length_insert.
  - intros r' Hr'. rewrite list_lookup_insert_ne by (by intros ->). apply Hrows. by right.
  - intros c' Hc'. rewrite list_lookup_total_insert_ne by (by intros ->). apply Hcols. by right.
  - rewrite <- Hperm, (mjoin_insert_snoc _ _ _ _ Hg). unfold pending.
    rewrite (filter_insert_used used c (seq 0 (length cands))); [|apply NoDup_seq|apply elem_of_seq; lia|lia|].
    + cbn [fmap list_fmap]. by rewrite <- Permutation_middle.
    + apply Hcols. left.
  - apply Forall_insert; [done|]. right. exists (gs !!! r), (cands !!! c). split_and!; [| | |done].
    + rewrite Hrows in Hg by left. by apply list_elem_of_lookup_2 in Hg.
    + by apply list_elem_of_lookup_total_2.
    + apply Forall_forall. intros gi Hgi.
      rewrite forallb_forall in Ef. by apply Ef, list_elem_of_In.
Qed.

Lemma accept_fold G rcs st :
  NoDup rcs.*1 -> NoDup (omap snd rcs) ->
  Forall (fun r => r < length G) rcs.*1 -> Forall (fun c => c < length cands) (omap snd rcs) ->
  accept_inv G rcs st -> accept_inv G [] (foldl (accept_step mergeable cands) st rcs).
Proof.
  revert st. induction rcs as [|[r oc] rcs IH]; intros st Hr Hc Hrl Hcl Hinv; [done|].
  simpl. pose proof (accept_step_inv _ _ _ _ Hr Hc Hrl Hcl Hinv) as Hinv'.
  cbn in Hr, Hc, Hrl, Hcl. apply NoDup_cons in Hr as [_ Hr]. apply Forall_cons in Hrl as [_ Hrl].
  destruct oc as [c|]; [apply NoDup_cons in Hc as [_ Hc]; apply Forall_cons in Hcl as [_ Hcl]|]; by apply IH.
Qed.
End step.

(** ** The loop over the sources *)

Section sources.
Context {F : Type} `{!Num F} {K : nat} `{!NumBound F K}.
Context (dist : list (list F)) (mergeable : nat -> nat -> bool) (key : nat -> string).
Context (Hdist : forall a b, bnd 1 (dist !!! a !!! b)).

(** One finding per source, and every later member is mergeable with every earlier one. *)
Definition group_ok (g : list nat) : Prop :=
  g <> [] /\ NoDup (key <$> g) /\ StronglySorted (fun a b => mergeable a b = true) g.

(** The groups hold exactly the findings of [done]. *)
Definition groups_ok (done : list nat) (gs : list (list nat)) : Prop :=
  mjoin gs ≡ₚ done /\ Forall group_ok gs.

Lemma group_ok_single x : group_ok [x].
Proof. split_and!; [done|apply NoDup_singleton|repeat constructor]. Qed.

Lemma groups_ok_count done gs : groups_ok done gs -> length gs <= length done.
Proof.
  intros [Hp Hg]. rewrite <- Hp. clear Hp. induction Hg as [|g gs [Hne _] _ IH]; simpl; [lia|].
  rewrite length_app. destruct g; [done|simpl; lia].
Qed.

Lemma group_cost_bnd g x : bnd 1 (group_cost dist g x).
Proof.
  unfold group_cost. apply (foldl_preserves (bnd 1)); [apply bnd_one|].
  intros m gi _ Hm. destruct (n_lt _ m); [apply Hdist|done].
Qed.

Lemma grown_ok cands s gs g :
  Forall (fun x => key x = s) cands -> (forall x, x ∈ mjoin gs -> key x <> s) ->
  Forall group_ok gs -> grown mergeable cands gs g -> group_ok g.
Proof.
  intros Hs Hne Hg [Hin|(g0 & x & Hin & Hx & Hm & ->)]; rewrite Forall_forall in Hg; [by apply Hg|].
  destruct (Hg _ Hin) as (Hnil & Hnd & Hsort). split_and!.
  - by destruct g0.
  - rewrite fmap_app. apply NoDup_app. split_and!; [done| |apply NoDup_singleton].
    intros k (y & -> & Hy)%list_elem_of_fmap Hk. apply list_elem_of_singleton in Hk.
    rewrite Forall_forall in Hs. rewrite (Hs x Hx) in Hk. apply (Hne y); [|done].
    apply elem_of_mjoin. eauto.
  - by apply StronglySorted_snoc.
Qed.

Lemma match_source_ok done gs cands s :
  Forall (fun x => key x = s) cands -> (forall x, x ∈ done -> key x <> s) ->
  solvable (K := K) 1 (length gs) (length cands) -> groups_ok done gs ->
  exists gs', match_source dist mergeable gs cands = Some gs' /\ groups_ok (done ++ cands) gs'.
Proof.
  intros Hs Hne Hsolv [Hp Hg]. unfold match_source.
  assert (forall l, Forall group_ok ((fun x => [x]) <$> l)) as Hsingle.
  { intros l. apply Forall_fmap, Forall_forall. intros x _. apply group_ok_single. }
  destruct gs as [|g0 gs0] eqn:Egs.
  { eexists. split; [done|]. split; [|done]. rewrite <- Hp. simpl. by rewrite mjoin_singletons. }
  rewrite <- Egs in *. clear Egs g0 gs0.
  destruct (hungarianAssign_ok 1 (length gs) (length cands)
    (fun r c => group_cost dist (gs !!! r) (cands !!! c))) as (assign & -> & Hlen & Hnd & Hlt & _);
    [done|intros; apply group_cost_bnd|done|].
  cbn [mbind option_bind].
  pose proof (accept_fold mergeable cands gs (imap pair assign) (gs, replicate (length cands) false)) as Hfold.
  rewrite omap_snd, imap_pair_fst, imap_pair_snd, Hlen in Hfold.
  destruct Hfold as [_ _ _ Hperm Hgrown]; [apply NoDup_seq|done| |done| |].
  - apply Forall_forall. intros r Hr%elem_of_seq. lia.
  - split; cbn [fst snd].
    + by rewrite length_replicate.
    + done.
    + intros c Hc. rewrite list_lookup_total_alt.
      destruct (replicate _ false !! c) eqn:E; [|done]. by apply lookup_replicate in E as [-> _].
    + apply Permutation_app_head. unfold pending. apply reflexive_eq. apply pending_none.
    + apply Forall_forall. intros g Hin. by left.
  - destruct (foldl _ _ _) as [gs' used]. cbn [fst snd] in *. eexists. split; [done|].
    rewrite leftovers_pending. split.
    + rewrite mjoin_app, mjoin_singletons, Hperm. by rewrite Hp.
    + apply Forall_app. split; [|done]. eapply Forall_impl; [exact Hgrown|].
      intros g. apply (grown_ok _ s); [done| |done]. intros x. rewrite Hp. apply Hne.
Qed.

Lemma match_sources_ok (cands : string -> list nat) N ks done gs :
  (forall k, Forall (fun x => key x = k) (cands k)) -> NoDup ks ->
  (forall x, x ∈ done -> key x ∉ ks) ->
  (forall r k, r <= N -> k ∈ ks -> solvable (K := K) 1 r (length (cands k))) ->
  length done + length (mjoin (cands <$> ks)) <= N -> groups_ok done gs ->
  exists gs', match_sources dist mergeable gs (cands <$> ks) = Some gs' /\
    groups_ok (done ++ mjoin (cands <$> ks)) gs'.
Proof.
  intros Hkey Hnd. revert done gs. induction Hnd as [|k ks Hk _ IH]; intros done gs Hne Hs HN Hg.
  - exists gs. simpl. by rewrite app_nil_r.
  - simpl in HN. rewrite length_app in HN. pose proof (groups_ok_count _ _ Hg).
    destruct (match_source_ok done gs (cands k) k) as (gs1 & Hm & Hg1); [done| | |done|].
    + intros x Hx <-. apply (Hne x Hx). left.
    + apply Hs; [lia|left].
    + cbn [fmap list_fmap match_sources]. rewrite Hm. simpl.
      destruct (IH (done ++ cands k) gs1) as (gs2 & -> & Hg2).
      * intros x [Hx|Hx]%elem_of_app; [intros Hin; apply (Hne x Hx); by right|].
        pose proof (Hkey k) as Hf. rewrite Forall_forall in Hf. by rewrite (Hf x Hx).
      * intros r k' Hr Hk'. apply Hs; [done|by right].
      * rewrite length_app. unfold fmap. lia.
      * done.
      * exists gs2. by rewrite app_assoc.
Qed.
End sources.

(** ** The split by source *)

Section split.
Context (ps : list (nat * string)).

Definition source_cands (s : string) : list nat := (filter (fun p => p.2 = s) ps).*1.

Lemma source_split :
  let st := foldl source_step (∅, []) ps in
  (forall s, default [] (st.1 !! s) = source_cands s) /\ NoDup st.2 /\
  (forall p, p ∈ ps -> p.2 ∈ st.2) /\ (forall s, s ∈ st.2 -> s ∈ ps.*2).
Proof.
  pose (I (xs : list (nat * string)) (st : gmap string (list nat) * list string) :=
    (forall s, default [] (st.1 !! s) = (filter (fun p => p.2 = s) xs).*1) /\ NoDup st.2 /\
    (forall s, s ∈ st.2 <-> is_Some (st.1 !! s)) /\ (forall p, p ∈ xs -> p.2 ∈ st.2) /\
    (forall s, s ∈ st.2 -> s ∈ xs.*2)).
  enough (I ps (foldl source_step (∅, []) ps)) as (? & ? & _ & ? & ?) by done.
  apply (foldl_invariant I).
  - split_and!; cbn [fst snd].
    + intros s. by rewrite lookup_empty.
    + constructor.
    + intros s. rewrite lookup_empty. split; [by intros ?%elem_of_nil|by intros [? ?]].
    + by intros p ?%elem_of_nil.
    + by intros p ?%elem_of_nil.
  - intros xs [i k] todo [m o] _ (Hm & Hnd & Hdom & Hall & Hkey). cbn [fst snd] in *.
    assert (forall s, s ∈ match m !! k with None => o ++ [k] | Some _ => o end <-> s = k \/ s ∈ o) as Hin.
    { intros s. destruct (m !! k) eqn:E.
      - split; [by right|]. intros [->|?]; [|done]. apply Hdom. by rewrite E.
      - rewrite elem_of_app, list_elem_of_singleton. tauto. }
    split_and!; cbn [source_step fst snd].
    + intros s. rewrite filter_app, fmap_app, <- Hm. rewrite filter_cons. cbn [snd].
      destruct (decide (k = s)) as [->|Hne].
      * by rewrite lookup_insert_eq.
      * rewrite lookup_insert_ne by done. cbn. by rewrite app_nil_r.
    + destruct (m !! k) eqn:E; [done|]. apply NoDup_app. split_and!; [done| |apply NoDup_singleton].
      intros s Hs ->%list_elem_of_singleton. apply Hdom in Hs. rewrite E in Hs. by destruct Hs.
    + intros s. rewrite Hin, Hdom. destruct (decide (k = s)) as [->|Hne].
      * rewrite lookup_insert_eq. split; [by eexists|by left].
      * rewrite lookup_insert_ne by done. split; [by intros [->|?]|by right].
    + intros p [Hp| ->%list_elem_of_singleton]%elem_of_app; apply Hin; [right; by apply Hall|by left].
    + intros s. rewrite Hin, fmap_app, elem_of_app. intros [->|Hs]; [right; by apply list_elem_of_singleton|left; by apply Hkey].
Qed.
End split.

(** ** What [bipartiteGroups] returns *)

Section result.
Context {F : Type} `{!Num F} {K : nat} `{!NumBound F K}.
Context (dist : list (list F)) (mergeable : nat -> nat -> bool) (srcKeys : list string).

#[local] Instance head_less_weak : WeakOrder head_less.
Proof.
  split; unfold head_less, not_after.
  - intros x y H%Nat.ltb_lt. apply Nat.ltb_ge. lia.
  - intros x y z H1%Nat.ltb_ge H2%Nat.ltb_ge. apply Nat.ltb_ge. lia.
Qed.

(** No empty group, members ascending, groups by lowest member. *)
Definition normal_form (groups : list (list nat)) : Prop :=
  Forall (fun g => g <> [] /\ StronglySorted lt g) groups /\ StronglySorted (fun g h => g !!! 0 < h !!! 0) groups.

(** No two members of a group come from one source. *)
Definition one_per_source (g : list nat) : Prop :=
  forall a b, a ∈ g -> b ∈ g -> srcKeys !!! a = srcKeys !!! b -> a = b.

(** Every two members of a group were tested and are mergeable. *)
Definition complete_linkage (g : list nat) : Prop :=
  forall a b, a ∈ g -> b ∈ g -> a <> b -> mergeable a b = true \/ mergeable b a = true.

Lemma group_ok_linked g : group_ok mergeable (fun i => srcKeys !!! i) g -> one_per_source g /\ complete_linkage g.
Proof.
  intros (_ & Hnd & Hs). split.
  - clear Hs. intros a b Ha Hb Heq. apply list_elem_of_lookup in Ha as [i Hi], Hb as [j Hj].
    assert (i = j) as ->; [|congruence].
    apply (NoDup_lookup _ i j (srcKeys !!! a) Hnd); rewrite list_lookup_fmap; [by rewrite Hi|].
    rewrite Hj. simpl. by rewrite Heq.
  - intros a b Ha Hb Hne. destruct (StronglySorted_elem _ _ a b Hs Ha Hb) as [?|[?|?]]; auto.
Qed.

Lemma sort_ints_NoDup g : NoDup g -> StronglySorted lt (sort_ints g).
Proof.
  intros Hn. rewrite <- sort_ints_Permutation in Hn. pose proof (sort_ints_sorted g) as Hs.
  induction Hs as [|x l Hs IH Hx]; constructor; apply NoDup_cons in Hn as [Hxl Hn]; [by apply IH|].
  rewrite Forall_forall in *. intros y Hy. specialize (Hx y Hy).
  assert (x <> y) by congruence. lia.
Qed.

Lemma sort_ints_nonempty g : g <> [] -> sort_ints g <> [].
Proof.
  intros Hg Hn. apply Hg, Permutation_nil_r. rewrite <- Hn. symmetry. apply sort_ints_Permutation.
Qed.

Lemma mjoin_sorted_groups gs : mjoin (slice_stable head_less (sort_ints <$> gs)) ≡ₚ mjoin gs.
Proof.
  rewrite slice_stable_Permutation. induction gs as [|g gs IH]; [done|].
  cbn. rewrite sort_ints_Permutation. by rewrite <- IH.
Qed.

Lemma heads_strict gs :
  StronglySorted (not_after head_less) gs -> NoDup (mjoin gs) -> Forall (fun g => g <> []) gs ->
  StronglySorted (fun g h => g !!! 0 < h !!! 0) gs.
Proof.
  induction 1 as [|g gs Hs IH Hx]; intros Hnd Hne; [constructor|]. simpl in Hnd.
  apply NoDup_app in Hnd as (_ & Hdis & Hnd). apply Forall_cons in Hne as [Hg Hne].
  constructor; [by apply IH|]. rewrite Forall_forall in *. intros h Hh.
  specialize (Hx h Hh). unfold not_after, head_less in Hx. apply Nat.ltb_ge in Hx.
  assert (g !!! 0 <> h !!! 0); [|lia]. intros Heq. apply (Hdis (g !!! 0)).
  - apply list_elem_of_lookup_total_2. destruct g; [done|simpl; lia].
  - apply elem_of_mjoin. exists h. split; [done|]. rewrite Heq.
    apply list_elem_of_lookup_total_2. specialize (Hne h Hh). destruct h; [done|simpl; lia].
Qed.

Lemma bipartiteGroups_ok :
  (forall a b, bnd 1 (dist !!! a !!! b)) ->
  (forall r s, r <= length srcKeys -> solvable (K := K) 1 r (length (source_cands (imap pair srcKeys) s))) ->
  exists groups, bipartiteGroups dist mergeable srcKeys = Some groups /\
    mjoin groups ≡ₚ seq 0 (length srcKeys) /\ normal_form groups /\
    Forall (fun g => one_per_source g /\ complete_linkage g) groups.
Proof.
  intros Hd Hs. unfold bipartiteGroups.
  destruct (source_split (imap pair srcKeys)) as (Hc & Hnd & Hall & _).
  destruct (foldl source_step _ _) as [m order]. cbn [fst snd] in *.
  set (ks := sort_strings order).
  assert (((fun s => default [] (m !! s)) <$> ks) = (source_cands (imap pair srcKeys) <$> ks)) as ->
    by (apply list_fmap_ext; intros ? ? _; apply Hc).
  assert (mjoin (source_cands (imap pair srcKeys) <$> ks) ≡ₚ seq 0 (length srcKeys)) as Hp.
  { rewrite <- imap_pair_fst.
    rewrite <- (filter_keys_Permutation snd ks (imap pair srcKeys)) at 2.
    - induction ks as [|k l IH]; [done|]. cbn. rewrite fmap_app. by rewrite IH.
    - unfold ks. by rewrite sort_strings_Permutation.
    - intros p Hp. unfold ks. rewrite sort_strings_Permutation. by apply Hall. }
  destruct (match_sources_ok dist mergeable (fun i => srcKeys !!! i) Hd
    (source_cands (imap pair srcKeys)) (length srcKeys) ks [] []) as (gs & -> & Hperm & Hok).
  - intros k. apply Forall_fmap, Forall_forall. intros [i k'] [<- Hin]%list_elem_of_filter.
    rewrite imap_pair_seq in Hin. apply list_elem_of_fmap in Hin as (j & [= -> ->] & _). done.
  - unfold ks. by rewrite sort_strings_Permutation.
  - by intros x ?%elem_of_nil.
  - intros r k Hr _. by apply Hs.
  - rewrite Hp, length_seq. simpl. lia.
  - by split.
  - simpl. eexists. split; [done|]. rewrite Hp in Hperm. simpl in Hperm.
    assert (mjoin (slice_stable head_less (sort_ints <$> gs)) ≡ₚ seq 0 (length srcKeys)) as Hfin
      by (by rewrite mjoin_sorted_groups).
    assert (NoDup (mjoin gs)) as HN by (rewrite Hperm; apply NoDup_seq).
    split; [done|]. split; [split|].
    + rewrite slice_stable_Permutation. apply Forall_fmap, Forall_forall. intros g Hg. simpl.
      rewrite Forall_forall in Hok. destruct (Hok g Hg) as [Hne _].
      split; [by apply sort_ints_nonempty|by apply sort_ints_NoDup, (mjoin_NoDup_block gs)].
    + apply heads_strict; [apply slice_stable_sorted, _|by rewrite Hfin; apply NoDup_seq|].
      rewrite slice_stable_Permutation. apply Forall_fmap. eapply Forall_impl; [exact Hok|].
      intros g [Hg _]. by apply sort_ints_nonempty.
    + rewrite slice_stable_Permutation. apply Forall_fmap. eapply Forall_impl; [exact Hok|].
      intros g Hg. apply group_ok_linked in Hg as [H1 H2]. simpl. split.
      * intros a b Ha Hb. rewrite elem_of_sort_ints in Ha, Hb. by apply H1.
      * intros a b Ha Hb. rewrite elem_of_sort_ints in Ha, Hb. by apply H2.
Qed.
End result.

(** ** On float64 *)

(** The clusters the matching is guaranteed on: at most [solver_rows] findings, or
    every finding its own source (then each step is a plain argmin). *)
Definition matchable (srcKeys : list string) : Prop :=
  length srcKeys <= solver_rows \/ NoDup srcKeys.

Lemma source_cands_length ps s : length (source_cands ps s) <= length ps.
Proof. unfold source_cands. rewrite length_fmap. apply length_filter. Qed.

Lemma source_cands_unique srcKeys s :
  NoDup srcKeys -> length (source_cands (imap pair srcKeys) s) <= 1.
Proof.
  intros Hn. rewrite <- (imap_pair_snd srcKeys) in Hn. unfold source_cands. rewrite length_fmap.
  revert Hn. generalize (imap pair srcKeys). intros ps.
  induction ps as [|[i k] ps IH]; intros Hn; [simpl; lia|]. cbn in Hn. apply NoDup_cons in Hn as [Hk Hn].
  rewrite filter_cons. case_decide as Hd; [|by apply IH]. simpl in Hd. subst k.
  rewrite filter_Forall_nil; [simpl; lia|]. apply Forall_forall. intros p Hp Heq.
  apply Hk, list_elem_of_fmap. by exists p.
Qed.

Lemma bipartite_float_ok (dist : list (list float64)) mergeable srcKeys :
  costs_small dist -> matchable srcKeys ->
  exists groups, bipartiteGroups dist mergeable srcKeys = Some groups /\
    mjoin groups ≡ₚ seq 0 (length srcKeys) /\ normal_form groups /\
    Forall (fun g => one_per_source srcKeys g /\ complete_linkage mergeable g) groups.
Proof.
  intros Hd Hm. apply (bipartiteGroups_ok (K := 1023)); [exact Hd|].
  intros r s Hr. apply float_solvable. destruct Hm as [Hm|Hm].
  - pose proof (source_cands_length (imap pair srcKeys) s) as Hl. rewrite length_imap in Hl. lia.
  - pose proof (source_cands_unique srcKeys s Hm). lia.
Qed.

(** The merge groups of a location cluster partition its findings: no panic,
    every index in exactly one group, members ascending and groups ordered by
    their lowest member, whatever the distances and the merge predicate. *)
Theorem bipartiteGroups_partition (dist : list (list float64)) mergeable srcKeys :
  costs_small dist -> matchable srcKeys ->
  exists groups, bipartiteGroups dist mergeable srcKeys = Some groups /\
    mjoin groups ≡ₚ seq 0 (length srcKeys) /\ normal_form groups.
Proof.
  intros Hd Hm. destruct (bipartite_float_ok dist mergeable srcKeys Hd Hm) as (gs & -> & ? & ? & _). eauto.
Qed.

Definition near (a b : nat) : bool := Nat.ltb (a - b + (b - a)) 3.

Lemma bipartiteGroups_partition_witness :
  bipartiteGroups cost3 near ["b"; "a"; "b"] = Some [[0; 1]; [2]] /\
  exists groups, bipartiteGroups cost3 near ["b"; "a"; "b"] = Some groups /\
    mjoin groups ≡ₚ seq 0 3 /\ normal_form groups.
Proof.
  split; [by vm_compute|]. apply (bipartiteGroups_partition cost3 near ["b"; "a"; "b"] cost3_small).
  left. unfold solver_rows. simpl. lia.
Defined.

(** C23. Every merge group is a clique of the merge predicate (complete linkage: no
    chaining through a bridge finding) with at most one finding per source. *)
Theorem bipartiteGroups_linkage (dist : list (list float64)) mergeable srcKeys :
  costs_small dist -> matchable srcKeys ->
  exists groups, bipartiteGroups dist mergeable srcKeys = Some groups /\
    Forall (fun g => one_per_source srcKeys g /\ complete_linkage mergeable g) groups.
Proof.
  intros Hd Hm. destruct (bipartite_float_ok dist mergeable srcKeys Hd Hm) as (gs & -> & _ & _ & ?). eauto.
Qed.

Lemma bipartiteGroups_linkage_witness :
  bipartiteGroups cost3 (fun a b => Nat.ltb (a - b + (b - a)) 2) ["a"; "b"; "c"] = Some [[0; 1]; [2]] /\
  exists groups, bipartiteGroups cost3 (fun a b => Nat.ltb (a - b + (b - a)) 2) ["a"; "b"; "c"] = Some groups /\
    Forall (fun g => one_per_source ["a"; "b"; "c"] g /\
      complete_linkage (fun a b => Nat.ltb (a - b + (b - a)) 2) g) groups.
Proof.
  split; [by vm_compute|]. apply bipartiteGroups_linkage; [apply cost3_small|left; unfold solver_rows; simpl; lia].
Defined.
