(* ===== verification/Singles.v ===== *)
(** * Clusters with one finding per source

    [bipartiteGroups] when every source has one candidate: each step is a plain argmin,
    so which group a finding joins is decided by its nearest predecessor in source order.
    Stated for any arithmetic whose comparison is asymmetric, as float64's is. *)

From Stdlib Require Import String.
From stdpp Require Import prelude strings gmap list sorting.
From Stdlib Require Import ZArith Lia Floats.SpecFloat.
From S2P Require Import Prelude GoString GoSort GoFloat Hungarian FloatBound Bipartite.

Open Scope string_scope.
Open Scope list_scope.
Open Scope nat_scope.

Lemma f_lt_asym x y : f_lt x y = true -> f_lt y x = false.
Proof.
  unfold f_lt, SFltb, SFcompare. destruct x as [[]|[]| |[] m e], y as [[]|[]| |[] m' e']; try done;
  rewrite (Z.compare_antisym e e'); destruct (e ?= e')%Z; cbn [CompOpp]; try done;
  pose proof (Pos.compare_cont_antisym m m' Eq) as H; cbn [CompOpp] in H; rewrite <- H; by destruct (Pos.compare_cont Eq m m').
Qed.

(** Two findings are in one group. *)
Definition mates (gs : list (list nat)) (i k : nat) : Prop := exists g, g ∈ gs /\ i ∈ g /\ k ∈ g.

Section singles.
Context {F : Type} `{!Num F} (Hasym : forall x y : F, n_lt x y = true -> n_lt y x = false).
Context (dist : list (list F)) (mergeable : nat -> nat -> bool).

Lemma lt_irrefl (x : F) : n_lt x x = false.
Proof. destruct (n_lt x x) eqn:E; [|done]. by rewrite <- E, (Hasym _ _ E). Qed.

Lemma argmin_least m (f : nat -> F) r : r < m -> (forall i, i < m -> i <> r -> n_lt (f r) (f i) = true) -> argmin m f = r.
Proof.
  intros Hr Hf. unfold argmin.
  cut (let st := foldl (fun '(best, bestI) i => let v := f i in if n_lt v best then (v, i) else (best, bestI)) (f 0, 0) (seq 1 (m - 1)) in
    st.1 = f st.2 /\ st.2 < m /\ (r ∈ 0 :: seq 1 (m - 1) -> st.2 = r)).
  { intros (_ & _ & H). apply H. change (0 :: seq 1 (m - 1)) with (seq 0 (S (m - 1))). apply elem_of_seq. lia. }
  apply (foldl_invariant (fun dn (st : F * nat) => st.1 = f st.2 /\ st.2 < m /\ (r ∈ 0 :: dn -> st.2 = r))).
  - cbn [fst snd]. split_and!; [done|lia|]. by intros ->%list_elem_of_singleton.
  - intros dn i todo [b bi] E (Hv & Hb & Hin). cbn [fst snd] in *. subst b.
    assert (i ∈ seq 1 (m - 1)) as Hi by (rewrite E; set_solver). apply elem_of_seq in Hi.
    assert (r ∈ 0 :: dn ++ [i] -> r = i \/ r ∈ 0 :: dn) as Hsplit by set_solver.
    destruct (n_lt (f i) (f bi)) eqn:El; cbn [fst snd]; (split_and!; [done|lia|]); intros [->|Hd]%Hsplit.
    + done.
    + rewrite (Hin Hd) in El. destruct (decide (i = r)) as [|Hne]; [done|]. rewrite (Hasym _ _ (Hf i ltac:(lia) Hne)) in El. done.
    + destruct (decide (bi = i)) as [|Hne]; [done|]. rewrite (Hf bi Hb Hne) in El. done.
    + auto.
Qed.

Lemma cost_far g c x : n_lt x n_one = true -> (forall k, k ∈ g -> n_lt x (dist !!! k !!! c) = true) ->
  n_lt x (group_cost dist g c) = true.
Proof.
  intros H1 Hg. unfold group_cost. apply (foldl_invariant (fun _ m => n_lt x m = true)); [done|].
  intros dn k todo m -> Hm. cbv zeta. destruct (n_lt (dist !!! k !!! c) m); [apply Hg; set_solver|done].
Qed.

Lemma cost_near g c i (x := dist !!! i !!! c) : i ∈ g -> n_lt x n_one = true ->
  (forall k, k ∈ g -> k <> i -> n_lt x (dist !!! k !!! c) = true) -> group_cost dist g c = x.
Proof.
  intros Hi H1 Hg. unfold group_cost.
  cut (let m := foldl (fun m gi => let d : F := dist !!! gi !!! c in if n_lt d m then d else m) n_one g in
    (i ∈ g -> m = x) /\ (m = x \/ n_lt x m = true)); [intros [H _]; auto|].
  apply (foldl_invariant (fun dn m => (i ∈ dn -> m = x) /\ (m = x \/ n_lt x m = true))).
  - split; [by intros ?%elem_of_nil|by right].
  - intros dn k todo m E [Hin Hm]. cbv zeta. rewrite elem_of_app, list_elem_of_singleton. destruct (decide (k = i)) as [->|Hne].
    + fold x. destruct Hm as [->|Hm]; [rewrite lt_irrefl; auto|rewrite Hm; auto].
    + assert (n_lt x (dist !!! k !!! c) = true) as Hx by (apply Hg; [rewrite E; set_solver|done]).
      destruct (n_lt (dist !!! k !!! c) m) eqn:El.
      * split; [|by right]. intros [Hd| ->]; [|done]. rewrite (Hin Hd), (Hasym _ _ Hx) in El. done.
      * split; [|done]. intros [Hd| ->]; [auto|done].
Qed.

(** ** One candidate *)

Lemma accept_none c (st : list (list nat) * list bool) k off :
  foldl (accept_step mergeable [c]) st (imap (fun n x => pair (off + n) x) (replicate k None)) = st.
Proof.
  revert off. induction k as [|k IH]; intros off; [done|]. cbn [replicate imap foldl accept_step].
  rewrite <- (IH (S off)) at 2. destruct st as [gs us]. f_equal. apply imap_ext. intros n x _. cbn. f_equal. lia.
Qed.

Lemma accept_single c (gs : list (list nat)) r : r < length gs ->
  foldl (accept_step mergeable [c]) (gs, [false]) (imap pair (<[r := Some 0]> (replicate (length gs) None))) =
  accept_step mergeable [c] (gs, [false]) (r, Some 0).
Proof.
  intros Hr. assert (<[r := Some 0]> (replicate (length gs) None) = replicate r None ++ Some 0 :: replicate (length gs - r - 1) None) as ->.
  { apply list_eq. intros i. destruct (decide (i = r)) as [->|Hne].
    - rewrite list_lookup_insert_eq by (rewrite length_replicate; lia).
      rewrite lookup_app_r, length_replicate, Nat.sub_diag by (rewrite length_replicate; lia). done.
    - rewrite list_lookup_insert_ne by done. destruct (decide (i < r)).
      + rewrite lookup_app_l by (rewrite length_replicate; lia). by rewrite !lookup_replicate_2 by lia.
      + rewrite lookup_app_r, length_replicate by (rewrite length_replicate; lia).
        destruct (i - r) as [|j] eqn:Ej; [lia|]. cbn. apply option_eq. intros o. rewrite !lookup_replicate. intuition lia. }
  rewrite imap_app, foldl_app. change (imap pair (replicate r None)) with (imap (fun n x => pair (0 + n) x) (replicate r (@None nat))).
  rewrite accept_none. cbn [imap foldl]. rewrite length_replicate, Nat.add_0_r.
  set (st := accept_step _ _ _ _). rewrite <- (accept_none c st (length gs - r - 1) (S r)) at 2.
  f_equal. apply imap_ext. intros n x _. cbn. f_equal. lia.
Qed.

Lemma match_single gs c : gs <> [] -> exists r g, gs !! r = Some g /\
  r = (if length gs =? 1 then 0 else argmin (length gs) (fun r => group_cost dist (gs !!! r) c)) /\
  match_source dist mergeable gs [c] =
    Some (if forallb (fun k => mergeable k c) g then <[r := g ++ [c]]> gs else gs ++ [[c]]).
Proof.
  intros Hne. assert (0 < length gs) as Hl by (destruct gs; [done|simpl; lia]).
  set (r := if length gs =? 1 then 0 else argmin (length gs) (fun r => group_cost dist (gs !!! r) c)).
  assert (r < length gs) as Hr by (unfold r; destruct (_ =? 1); [done|by apply argmin_range]).
  destruct (lookup_lt_is_Some_2 gs r Hr) as [g Hg]. exists r, g. split; [done|]. split; [done|].
  assert (hungarianAssign (length gs) (length [c]) (fun r c' => group_cost dist (gs !!! r) ([c] !!! c')) =
    Some (<[r := Some 0]> (replicate (length gs) None))) as E.
  { unfold hungarianAssign. rewrite (proj2 (Nat.eqb_neq (length gs) 0)) by lia. cbn [length orb Nat.eqb].
    unfold r. by destruct (length gs =? 1). }
  unfold match_source. destruct gs as [|g0 gs']; [done|]. set (gs := g0 :: gs') in *. rewrite E. cbn [mbind option_bind length replicate].
  rewrite accept_single by done. unfold accept_step. rewrite (list_lookup_total_correct _ _ _ Hg).
  change ([c] !!! 0) with c. destruct (forallb _ g); cbn; by rewrite ?app_nil_r.
Qed.
(** ** One finding after another *)

Lemma mates_member gs i k : mates gs i k -> i ∈ mjoin gs /\ k ∈ mjoin gs.
Proof. intros (g & Hg & Hi & Hk). split; apply elem_of_mjoin; eauto. Qed.

Lemma mates_self gs i : i ∈ mjoin gs -> mates gs i i.
Proof. intros (g & ? & ?)%elem_of_mjoin. by exists g. Qed.

(** A joined group grows by the new finding; the others stay. *)
Lemma mates_joined gs r g c i k : gs !! r = Some g -> NoDup (mjoin gs) -> c ∉ mjoin gs ->
  mates (<[r := g ++ [c]]> gs) i k <->
  mates gs i k \/ (i ∈ g \/ i = c) /\ k = c \/ i = c /\ k ∈ g.
Proof.
  intros Hg Hnd Hc. pose proof (lookup_lt_Some _ _ _ Hg) as Hr. unfold mates. split.
  - intros (h & Hh & Hi & Hk). apply list_elem_of_lookup in Hh as [j Hj]. destruct (decide (j = r)) as [->|Hne].
    + rewrite list_lookup_insert_eq in Hj by done. injection Hj as <-.
      rewrite elem_of_app, list_elem_of_singleton in Hi, Hk. destruct Hk as [Hk| ->]; [|by right; left].
      destruct Hi as [Hi| ->]; [|by right; right]. left. exists g. by apply list_elem_of_lookup_2 in Hg.
    + rewrite list_lookup_insert_ne in Hj by done. left. exists h. by apply list_elem_of_lookup_2 in Hj.
  - assert (g ++ [c] ∈ <[r := g ++ [c]]> gs) as Hin by (apply (list_elem_of_lookup_2 _ r); by rewrite list_lookup_insert_eq).
    intros [(h & Hh & Hi & Hk)|H]; [|exists (g ++ [c]); rewrite !elem_of_app, !list_elem_of_singleton; intuition].
    apply list_elem_of_lookup in Hh as [j Hj]. destruct (decide (j = r)) as [->|Hne].
    + rewrite Hg in Hj. injection Hj as ->. exists (h ++ [c]). rewrite !elem_of_app. auto.
    + exists h. split; [|done]. apply (list_elem_of_lookup_2 _ j). by rewrite list_lookup_insert_ne.
Qed.

Lemma mates_alone gs c i k : c ∉ mjoin gs -> mates (gs ++ [[c]]) i k <-> mates gs i k \/ i = c /\ k = c.
Proof.
  intros Hc. unfold mates. setoid_rewrite elem_of_app. setoid_rewrite list_elem_of_singleton. split.
  - intros (g & [Hg| ->] & Hi & Hk); [left; by exists g|]. apply list_elem_of_singleton in Hi, Hk. by right.
  - intros [(g & Hg & Hi & Hk)|[-> ->]]; [exists g; auto|]. exists [c]. split; [by right|]. split; left.
Qed.

Lemma match_next gs c : NoDup (mjoin gs) -> c ∉ mjoin gs -> exists gs', match_source dist mergeable gs [c] = Some gs' /\
  mjoin gs' ≡ₚ mjoin gs ++ [c] /\ (forall i k, i ∈ mjoin gs -> k ∈ mjoin gs -> mates gs' i k <-> mates gs i k) /\
  (forall i, i ∈ mjoin gs -> n_lt (dist !!! i !!! c) n_one = true ->
     (forall k, k ∈ mjoin gs -> k <> i -> n_lt (dist !!! i !!! c) (dist !!! k !!! c) = true) ->
     mates gs' i c <-> forall k, mates gs i k -> mergeable k c = true).
Proof.
  intros Hnd Hc. destruct (decide (gs = [])) as [->|Hne].
  { exists [[c]]. split_and!; [done|done| |].
    - by intros ? ? ?%elem_of_nil.
    - by intros ? ?%elem_of_nil. }
  destruct (match_single gs c Hne) as (r & g & Hg & Hr & E). rewrite E. eexists. split; [done|].
  assert (forall i k, mates gs i k -> i <> c /\ k <> c) as Hold.
  { intros i k [Hi Hk]%mates_member. split; intros ->; done. }
  split_and!.
  - destruct (forallb _ g); [|by rewrite mjoin_app].
    rewrite (mjoin_insert_snoc _ _ _ _ Hg). by rewrite Permutation_cons_append.
  - intros i k Hi Hk. assert (i <> c /\ k <> c) as [? ?] by (split; by intros ->).
    destruct (forallb _ g); [rewrite mates_joined by done|rewrite mates_alone by done]; intuition.
  - intros i Hi H1 Hn.
    assert (forall h, h ∈ gs -> i ∈ h -> h = g) as Hgi.
    { intros h Hh Hih. apply list_elem_of_lookup in Hh as [j Hj]. enough (j = r) as -> by congruence.
      pose proof (lookup_lt_Some _ _ _ Hj) as Hl. subst r. destruct (Nat.eqb_spec (length gs) 1); [lia|].
      symmetry. apply argmin_least; [done|]. intros l Hll Hlj. rewrite (list_lookup_total_correct _ _ _ Hj).
      rewrite (cost_near h c i); [|done|done|].
      - destruct (lookup_lt_is_Some_2 gs l Hll) as [hl Ehl]. rewrite (list_lookup_total_correct _ _ _ Ehl).
        apply cost_far; [done|]. intros k Hk. apply Hn; [apply elem_of_mjoin; exists hl; split; [by eapply list_elem_of_lookup_2|done]|].
        intros ->. apply Hlj. by apply (mjoin_NoDup_index gs l j hl h i).
      - intros k Hk Hki. apply Hn; [apply elem_of_mjoin; exists h; split; [by eapply list_elem_of_lookup_2|done]|done]. }
    assert (i ∈ g) as Hig.
    { apply elem_of_mjoin in Hi as (h & Hh & Hih). by rewrite <- (Hgi h Hh Hih). }
    assert (forall k, mates gs i k <-> k ∈ g) as Hmg.
    { intros k. split; [intros (h & Hh & Hih & Hk); by rewrite <- (Hgi h Hh Hih)|]. intros Hk. exists g. by apply list_elem_of_lookup_2 in Hg. }
    setoid_rewrite Hmg. assert (~ mates gs i c) as Hno by (intros Hm; apply Hold in Hm; tauto).
    assert (i <> c) by (by intros ->).
    destruct (forallb (fun k => mergeable k c) g) eqn:Ef.
    + rewrite mates_joined by done. rewrite forallb_forall in Ef. split; [|auto]. intros _ k Hk. by apply Ef, list_elem_of_In.
    + rewrite mates_alone by done. split; [intuition|]. intros Hall. exfalso. apply not_true_iff_false in Ef. apply Ef.
      apply forallb_forall. intros k Hk%list_elem_of_In. by apply Hall.
Qed.

Lemma match_rest js gs : NoDup (mjoin gs ++ js) -> exists gs', match_sources dist mergeable gs ((fun i => [i]) <$> js) = Some gs' /\
  mjoin gs' ≡ₚ mjoin gs ++ js /\ (forall i k, i ∈ mjoin gs -> k ∈ mjoin gs -> mates gs' i k <-> mates gs i k).
Proof.
  revert gs. induction js as [|c js IH]; intros gs Hnd.
  { exists gs. cbn. by rewrite app_nil_r. }
  pose proof Hnd as (Hn & Hd & _)%NoDup_app. destruct (match_next gs c Hn) as (gs1 & E & Hp & Hm & _).
  { intros Hc. apply (Hd c Hc). left. }
  destruct (IH gs1) as (gs2 & E2 & Hp2 & Hm2); [by rewrite Hp, <- app_assoc|]. exists gs2.
  cbn [fmap list_fmap match_sources]. rewrite E. cbn [mbind option_bind]. split_and!; [done|by rewrite Hp2, Hp, <- app_assoc|].
  intros i k Hi Hk. rewrite Hm2 by (rewrite Hp; set_solver). by apply Hm.
Qed.

Lemma match_sources_app gs l1 l2 : match_sources dist mergeable gs (l1 ++ l2) =
  (gs' ← match_sources dist mergeable gs l1; match_sources dist mergeable gs' l2).
Proof.
  revert gs. induction l1 as [|c l1 IH]; intros gs; [done|]. cbn [app match_sources].
  destruct (match_source dist mergeable gs c) as [gs1|]; [|done]. cbn [mbind option_bind]. apply IH.
Qed.

(** A finding joins its strictly nearest predecessor's group exactly when it is mergeable
    with every predecessor in it. *)
Lemma nearest_joins pre c post gs : NoDup (pre ++ c :: post) ->
  match_sources dist mergeable [] ((fun i => [i]) <$> pre ++ c :: post) = Some gs ->
  forall i, i ∈ pre -> n_lt (dist !!! i !!! c) n_one = true ->
  (forall k, k ∈ pre -> k <> i -> n_lt (dist !!! i !!! c) (dist !!! k !!! c) = true) ->
  mates gs i c <-> forall k, k ∈ pre -> mates gs i k -> mergeable k c = true.
Proof.
  intros Hnd E i Hi H1 Hn. rewrite fmap_app, match_sources_app in E.
  pose proof Hnd as (Hpre & Hd & _)%NoDup_app.
  destruct (match_rest pre []) as (gs1 & E1 & Hp1 & _); [done|]. rewrite E1 in E. cbn [mbind option_bind fmap list_fmap match_sources] in E.
  cbn in Hp1. assert (c ∉ mjoin gs1) as Hc by (rewrite Hp1; intros Hc; apply (Hd c Hc); left).
  destruct (match_next gs1 c) as (gs2 & E2 & Hp2 & Hm2 & Hj); [by rewrite Hp1|done|]. rewrite E2 in E. cbn [mbind option_bind] in E.
  destruct (match_rest post gs2) as (gs3 & E3 & _ & Hm3).
  { rewrite Hp2, Hp1, <- app_assoc. exact Hnd. }
  rewrite E3 in E. injection E as <-.
  assert (forall x y, x ∈ pre -> y ∈ pre -> mates gs3 x y <-> mates gs1 x y) as Hold.
  { intros x y Hx Hy. rewrite Hm3 by (rewrite Hp2, Hp1; set_solver). apply Hm2; by rewrite Hp1. }
  rewrite Hm3 by (rewrite Hp2, Hp1; set_solver). rewrite Hj; [|by rewrite Hp1|done|].
  - split.
    + intros Hall k Hk Hik. apply Hall. by apply Hold.
    + intros Hall k Hik. pose proof (mates_member _ _ _ Hik) as [_ Hk]. rewrite Hp1 in Hk. apply Hall; [done|]. by apply Hold.
  - intros k Hk. rewrite Hp1 in Hk. by apply Hn.
Qed.
(** ** The whole matching *)

Lemma mates_sorted gs i k : mates (slice_stable head_less (sort_ints <$> gs)) i k <-> mates gs i k.
Proof.
  unfold mates. setoid_rewrite slice_stable_elem. split.
  - intros (g & (h & -> & Hh)%list_elem_of_fmap & Hi & Hk). rewrite elem_of_sort_ints in Hi, Hk. by exists h.
  - intros (g & Hg & Hi & Hk). exists (sort_ints g). rewrite !elem_of_sort_ints. split; [by apply list_elem_of_fmap_2|done].
Qed.

Lemma Forall_choice {A B} (P : A -> B -> Prop) (l : list A) : (forall x, x ∈ l -> exists y, P x y) -> exists k, Forall2 P l k.
Proof.
  induction l as [|x l IH]; intros H; [by exists []|]. destruct (H x ltac:(left)) as [y Hy].
  destruct IH as [k Hk]; [intros z Hz; apply H; by right|]. exists (y :: k). by constructor.
Qed.

(** With one finding per source, the sources in order are the findings in source order. *)
Lemma single_sources srcKeys : NoDup srcKeys ->
  let st := foldl source_step (∅, []) (imap pair srcKeys) in
  exists js, ((fun s => default [] (st.1 !! s)) <$> sort_strings st.2) = (fun i => [i]) <$> js /\
    js ≡ₚ seq 0 (length srcKeys) /\ StronglySorted (fun a b => str_ltb (srcKeys !!! a) (srcKeys !!! b) = true) js.
Proof.
  intros Hnd. destruct (source_split (imap pair srcKeys)) as (Hc & Ho & Hall & Hkey). cbv zeta.
  destruct (foldl source_step _ _) as [m o]. cbn [fst snd] in *. rewrite imap_pair_snd in Hkey.
  assert (forall i k, i ∈ source_cands (imap pair srcKeys) k <-> srcKeys !! i = Some k) as Hin.
  { intros i k. unfold source_cands. rewrite list_elem_of_fmap. split.
    - intros ([j k'] & -> & [Hk Hj]%list_elem_of_filter). cbn in *. subst k'. apply list_elem_of_lookup in Hj as [a Ha].
      rewrite list_lookup_imap in Ha. destruct (srcKeys !! a) eqn:Ea; [|done]. cbn in Ha. injection Ha as <- <-. exact Ea.
    - intros Hi. exists (i, k). split; [done|]. apply list_elem_of_filter. split; [done|]. apply (list_elem_of_lookup_2 _ i).
      by rewrite list_lookup_imap, Hi. }
  destruct (Forall_choice (fun k i => srcKeys !! i = Some k /\ source_cands (imap pair srcKeys) k = [i]) (sort_strings o)) as [js Hjs].
  { intros k Hk. rewrite elem_of_sort_strings in Hk. apply Hkey in Hk as [i Hi]%list_elem_of_lookup. exists i. split; [done|].
    pose proof (source_cands_unique srcKeys k Hnd) as Hl. apply Hin in Hi.
    destruct (source_cands (imap pair srcKeys) k) as [|j [|? ?]]; [by apply elem_of_nil in Hi| |cbn in Hl; lia].
    by apply list_elem_of_singleton in Hi as ->. }
  exists js. split; [|split].
  - clear -Hjs Hc. induction Hjs as [|k i ks js [_ E] _ IH]; [done|]. cbn. by rewrite Hc, E, IH.
  - apply NoDup_Permutation; [|apply NoDup_seq|].
    + assert (NoDup (sort_strings o)) as Hs by (by rewrite sort_strings_Permutation). clear -Hjs Hs.
      induction Hjs as [|k i ks js [Hi _] Hf IH]; [constructor|]. apply NoDup_cons in Hs as [Hk Hs]. constructor; [|by apply IH].
      intros Hj. apply list_elem_of_lookup in Hj as [a Ha]. destruct (Forall2_lookup_r _ _ _ _ _ Hf Ha) as (k' & Hk' & Hi' & _).
      apply Hk. rewrite Hi in Hi'. injection Hi' as ->. by apply list_elem_of_lookup_2 in Hk'.
    + intros i. rewrite elem_of_seq. split.
      * intros [a Ha]%list_elem_of_lookup. destruct (Forall2_lookup_r _ _ _ _ _ Hjs Ha) as (k & _ & Hi & _).
        apply lookup_lt_Some in Hi. lia.
      * intros [_ Hi]. destruct (lookup_lt_is_Some_2 srcKeys i ltac:(lia)) as [k Hk].
        assert (k ∈ sort_strings o) as Hko. { rewrite elem_of_sort_strings. apply (Hall (i, k)), (list_elem_of_lookup_2 _ i).
          by rewrite list_lookup_imap, Hk. }
        apply list_elem_of_lookup in Hko as [a Ha]. destruct (Forall2_lookup_l _ _ _ _ _ Hjs Ha) as (j & Hj & _ & E).
        apply Hin in Hk. rewrite E in Hk. apply list_elem_of_singleton in Hk as ->. by apply list_elem_of_lookup_2 in Hj.
  - pose proof (sort_strings_strict o Ho) as Hs. clear -Hjs Hs. induction Hjs as [|k i ks js [Hi _] Hf IH]; [constructor|].
    inversion_clear Hs as [|? ? Hs' Hx]. constructor; [by apply IH|]. apply Forall_forall. intros j [a Ha]%list_elem_of_lookup.
    destruct (Forall2_lookup_r _ _ _ _ _ Hf Ha) as (k' & Hk' & Hj & _). rewrite (list_lookup_total_correct _ _ _ Hi), (list_lookup_total_correct _ _ _ Hj).
    rewrite Forall_forall in Hx. apply Hx. by apply list_elem_of_lookup_2 in Hk'.
Qed.

Lemma bipartiteGroups_nearest srcKeys groups : NoDup srcKeys -> bipartiteGroups dist mergeable srcKeys = Some groups ->
  let first i k := i < length srcKeys /\ str_ltb (srcKeys !!! i) (srcKeys !!! k) = true in
  forall i c, c < length srcKeys -> first i c -> n_lt (dist !!! i !!! c) n_one = true ->
  (forall k, first k c -> k <> i -> n_lt (dist !!! i !!! c) (dist !!! k !!! c) = true) ->
  mates groups i c <-> forall k, first k c -> mates groups i k -> mergeable k c = true.
Proof.
  intros Hnd E first i c Hc Hi H1 Hn. unfold bipartiteGroups in E.
  destruct (single_sources srcKeys Hnd) as (js & Hjs & Hp & Hs). destruct (foldl source_step _ _) as [m o]. cbn [fst snd] in Hjs.
  rewrite Hjs in E. destruct (match_sources dist mergeable [] _) as [gs|] eqn:Em; [|done]. injection E as <-.
  setoid_rewrite mates_sorted. assert (c ∈ js) as Hcj by (rewrite Hp; apply elem_of_seq; lia).
  apply list_elem_of_split in Hcj as (pre & post & ->).
  assert (forall k, k ∈ pre <-> first k c) as Hpre.
  { apply StronglySorted_app in Hs as (Hb & _ & Hs). intros k. unfold first. split.
    - intros Hk. split; [|apply Hb; [done|left]]. assert (k ∈ seq 0 (length srcKeys)) as ?%elem_of_seq by (rewrite <- Hp; set_solver). lia.
    - intros [Hk Hlt]. assert (k ∈ pre ++ c :: post) as Hin by (rewrite Hp; apply elem_of_seq; lia).
      apply elem_of_app in Hin as [?|[->|Hpost]%elem_of_cons]; [done|by rewrite str_ltb_irrefl in Hlt|].
      inversion_clear Hs as [|? ? _ Hx]. rewrite Forall_forall in Hx. specialize (Hx k Hpost). by rewrite (str_ltb_asym _ _ Hx) in Hlt. }
  rewrite (nearest_joins pre c post gs); [|rewrite Hp; apply NoDup_seq|done|by apply Hpre|done|].
  - by setoid_rewrite Hpre.
  - intros k Hk. by apply Hn, Hpre.
Qed.
End singles.
