(* ===== verification/Dedupe.v ===== *)
(** * Deduplication of one location cluster

    src/reconcile/dedupe.go: [dedupeCluster] matches the findings of a cluster into
    merge groups, records the gray pairs that stay unmerged, folds adjudicated pairs
    with the disjoint-set, and isolates DBSCAN noise. [plan] is the index part of
    the function (which findings merge, which pairs are gray, which findings are
    noise); [dedupeCluster] materializes it. [None] is a panic. *)

From Stdlib Require Import Ascii String.
From stdpp Require Import prelude strings gmap list sorting.
From Stdlib Require Import ZArith Lia.
From S2P Require Import Prelude GoString GoSort GoFloat Finding Ambiguous Similarity UnionFind Dbscan Hungarian FloatBound Bipartite Singles.

Open Scope string_scope.
Open Scope list_scope.
Open Scope nat_scope.

Definition maxClusterSize : nat := 500.

(** The raw per-source shape of an isolated finding. *)
Definition raw_source_shape (f : Finding) : Finding :=
  match Reviewers f with
  | [r] =>
      if (Reviewer f =? "")%string then
        mkFinding (Severity f) (File f) (Line f) (Problem f) (Fix f) (Category f) (EstMinutes f)
          (Evidence f) r [] "" (Disagreement f) (Verification_ f)
      else f
  | _ => f
  end.

Definition singletonAmbiguousCluster (f : Finding) : AmbiguousCluster :=
  let f := raw_source_shape f in
  mkAmbiguousCluster (AmbiguousID (File f) (Line f) (Problem f) (Problem f)) (File f) (Line f)
    f_zero [f].

(** The pairs of [for i := 0; i < n; i++ { for j := i + 1; j < n; j++ { .. } }]. *)
Definition index_pairs (n : nat) : list (nat * nat) :=
  mjoin ((fun i => pair i <$> seq (S i) (n - S i)) <$> seq 0 n).

(** An n x n matrix filled on both sides of its diagonal by that loop. *)
Definition sym_matrix {A} (n : nat) (zero : A) (f : nat -> nat -> A) : list (list A) :=
  (fun i => (fun j => if i <? j then f i j else if j <? i then f j i else zero) <$> seq 0 n) <$> seq 0 n.

(** One recorded gray pair: the parallel slices [ambiguous], [ambiguousPairs] and
    [ambiguousIdx]. *)
Record gray_entry := mkGray {
  ge_amb : AmbiguousCluster;
  ge_groups : nat * nat;
  ge_idx : nat * nat;
}.

#[export] Instance relation_inhabited : Inhabited relation := populate relDistinct.

Section dedupe.
Context {U : UnicodeCase}.
Context (cluster : list Finding) (keys : list string) (adjudicatedMerges : gset string).

Let n := length cluster.
Let finding (i : nat) : Finding := cluster !!! i.

Definition tokens : list (gset string) := (fun f => tokenize (Problem f)) <$> cluster.

(** A shared non-empty AST key. *)
Definition same_key (a b : nat) : bool :=
  negb (keys !!! a =? "")%string && (keys !!! a =? keys !!! b)%string.

Definition rel : list (list relation) :=
  sym_matrix n relDistinct (fun i j => (classify (tokens !!! i) (tokens !!! j)).1).
Definition sim : list (list float64) :=
  sym_matrix n f_zero (fun i j => (classify (tokens !!! i) (tokens !!! j)).2).
Definition dist : list (list float64) :=
  sym_matrix n f_zero (fun i j =>
    if same_key i j then distanceFloor
    else f_sub distanceCeiling (classify (tokens !!! i) (tokens !!! j)).2).

Definition nul : string := String Ascii.zero EmptyString.

(** The source-partition key of finding [i]. *)
Definition srcKey (i : nat) (f : Finding) : string :=
  if negb (Reviewer f =? "")%string then nul +:+ "src" +:+ nul +:+ Reviewer f
  else nul +:+ "anon" +:+ nul +:+ Itoa (Z.of_nat i).
Definition srcKeys : list string := imap srcKey cluster.

Definition mergeable (a b : nat) : bool :=
  if same_key a b then true else bool_decide (rel !!! a !!! b = relMerge).

Definition groupOf (groups : list (list nat)) : list nat :=
  foldl (fun g '(gi, members) => foldl (fun g idx => <[idx := gi]> g) g members)
    (replicate n 0) (imap pair groups).

(** The body of the gray-pair scan. *)
Definition gray_step (group : list nat) (st : unionFind * list gray_entry) (ij : nat * nat)
    : option (unionFind * list gray_entry) :=
  let '(uf, entries) := st in
  let '(i, j) := ij in
  if (group !!! i =? group !!! j) then Some st
  else if same_key i j then Some st
  else if negb (bool_decide (rel !!! i !!! j = relGray)) then Some st
  else
    let id := AmbiguousID (File (finding i)) (Line (finding i)) (Problem (finding i)) (Problem (finding j)) in
    if bool_decide (id ∈ adjudicatedMerges) then
      uf ← union uf (group !!! i) (group !!! j); Some (uf, entries)
    else
      Some (uf, entries ++
        [mkGray (mkAmbiguousCluster id (File (finding i)) (Line (finding i)) (sim !!! i !!! j)
                   [finding i; finding j])
           (group !!! i, group !!! j) (i, j)]).

(** Keep the pairs whose groups have different roots. *)
Definition keep_step (st : unionFind * list gray_entry) (e : gray_entry)
    : option (unionFind * list gray_entry) :=
  let '(uf, kept) := st in
  '(ra, uf) ← find uf (ge_groups e).1;
  '(rb, uf) ← find uf (ge_groups e).2;
  Some (uf, if (ra =? rb) then kept else kept ++ [e]).

Definition grayInvolved (kept : list gray_entry) : gset nat :=
  list_to_set (mjoin ((fun e => [(ge_idx e).1; (ge_idx e).2]) <$> kept)).

(** [rootIdx] and [rootOrder]. *)
Definition root_step (st : unionFind * gmap nat (list nat) * list nat) (gg : nat * list nat)
    : option (unionFind * gmap nat (list nat) * list nat) :=
  let '(uf, rootIdx, rootOrder) := st in
  let '(gi, g) := gg in
  '(r, uf) ← find uf gi;
  let rootOrder := match rootIdx !! r with None => rootOrder ++ [r] | Some _ => rootOrder end in
  Some (uf, <[r := default [] (rootIdx !! r) ++ g]> rootIdx, rootOrder).

(** The findings that are the only member of their root. *)
Definition soloRoot (rootIdx : gmap nat (list nat)) : gset nat :=
  list_to_set (omap (fun ri : nat * list nat => match ri.2 with [i] => Some i | _ => None end)
    (map_to_list rootIdx)).

Definition denseNeighbor (a b : nat) : bool :=
  mergeable a b && negb (Reviewer (finding a) =? Reviewer (finding b))%string.

Record dedupe_plan := mkPlan {
  dp_roots : list (list nat);      (** the merged groups, members ascending *)
  dp_gray : list gray_entry;       (** the surviving gray pairs *)
  dp_noise : list nat;             (** the isolated findings *)
}.

Definition plan : option dedupe_plan :=
  groups ← bipartiteGroups dist mergeable srcKeys;
  let group := groupOf groups in
  '(uf, entries) ← foldM (gray_step group) (newUnionFind (length groups), []) (index_pairs n);
  '(uf, kept) ← foldM keep_step (uf, []) entries;
  '(uf, rootIdx, rootOrder) ← foldM root_step (uf, ∅, []) (imap pair groups);
  '(labels, dense) ← dbscanLabels n dbscanMinPts denseNeighbor;
  let noise :=
    if (dense : bool) then
      filter (fun i => labels !!! i = dbscanNoise /\ i ∉ grayInvolved kept /\ i ∈ soloRoot rootIdx) (seq 0 n)
    else [] in
  Some (mkPlan ((fun r => sort_ints (default [] (rootIdx !! r))) <$> rootOrder) kept noise).

(** A root is isolated as noise when its only member is. *)
Definition isolated (noise : list nat) (idxs : list nat) : bool :=
  match idxs with [i] => bool_decide (i ∈ noise) | _ => false end.

Definition materialize (p : dedupe_plan) : list (list Finding) * list AmbiguousCluster :=
  let kept : list (list nat) := filter (fun idxs => isolated (dp_noise p) idxs = false) (dp_roots p) in
  let noise : list AmbiguousCluster := (fun i => singletonAmbiguousCluster (finding i)) <$> dp_noise p in
  ((fun idxs : list nat => finding <$> idxs) <$> kept, (ge_amb <$> dp_gray p) ++ noise).

Definition dedupeCluster : option (list (list Finding) * list AmbiguousCluster) :=
  if n =? 0 then Some ([], [])
  else if negb (length keys =? n) then None
  else if maxClusterSize <? n then Some ((fun f => [f]) <$> cluster, [])
  else p ← plan; Some (materialize p).
End dedupe.

Definition DedupeCluster {U : UnicodeCase} (cluster : list Finding)
    : option (list (list Finding) * list AmbiguousCluster) :=
  dedupeCluster cluster (replicate (length cluster) "") ∅.

(** ** The matrices *)

Lemma elem_of_index_pairs n i j : (i, j) ∈ index_pairs n <-> i < j < n.
Proof.
  unfold index_pairs. rewrite elem_of_mjoin. split.
  - intros (l & (x & -> & Hx)%list_elem_of_fmap & (y & [= -> ->] & Hy)%list_elem_of_fmap).
    apply elem_of_seq in Hx, Hy. lia.
  - intros Hij. exists (pair i <$> seq (S i) (n - S i)). split.
    + apply list_elem_of_fmap. exists i. split; [done|]. apply elem_of_seq. lia.
    + apply list_elem_of_fmap. exists j. split; [done|]. apply elem_of_seq. lia.
Qed.

Lemma fmap_seq_lookup {A} `{!Inhabited A} (f : nat -> A) n i :
  (f <$> seq 0 n) !!! i = if decide (i < n) then f i else inhabitant.
Proof.
  rewrite list_lookup_total_alt, list_lookup_fmap. case_decide.
  - by rewrite lookup_seq_lt.
  - rewrite lookup_ge_None_2; [done|]. rewrite length_seq. lia.
Qed.

Lemma sym_matrix_lookup {A} `{!Inhabited A} n (zero : A) f i j :
  i < n -> j < n ->
  sym_matrix n zero f !!! i !!! j = if i <? j then f i j else if j <? i then f j i else zero.
Proof.
  intros Hi Hj. unfold sym_matrix. rewrite (fmap_seq_lookup _ n i), decide_True by done.
  by rewrite fmap_seq_lookup, decide_True.
Qed.

Lemma sym_matrix_sym {A} `{!Inhabited A} n (zero : A) f i j :
  sym_matrix n zero f !!! i !!! j = sym_matrix n zero f !!! j !!! i.
Proof.
  unfold sym_matrix. rewrite (fmap_seq_lookup _ n i), (fmap_seq_lookup _ n j).
  repeat case_decide; rewrite ?fmap_seq_lookup; repeat case_decide; try done.
  destruct (Nat.ltb_spec i j), (Nat.ltb_spec j i); done || lia.
Qed.

(** Every entry, in range or not, satisfies what the zero and the filled entries do. *)
Lemma sym_matrix_all {A} `{!Inhabited A} (P : A -> Prop) n (zero : A) f i j :
  P inhabitant -> P zero -> (forall a b, a < b < n -> P (f a b)) -> P (sym_matrix n zero f !!! i !!! j).
Proof.
  intros H0 Hz Hf. unfold sym_matrix. rewrite (fmap_seq_lookup _ n i). case_decide.
  - rewrite fmap_seq_lookup. case_decide; [|done].
    destruct (Nat.ltb_spec i j); [apply Hf; lia|].
    destruct (Nat.ltb_spec j i); [apply Hf; lia|done].
  - done.
Qed.

Section lemmas.
Context {U : UnicodeCase}.
Context (cluster : list Finding) (keys : list string) (adjudicatedMerges : gset string).

Abbreviation n := (length cluster).
Abbreviation rel' := (rel cluster).
Abbreviation mergeable' := (mergeable cluster keys).

Lemma same_key_sym a b : same_key keys a b = same_key keys b a.
Proof.
  unfold same_key. rewrite (String.eqb_sym (keys !!! b) (keys !!! a)).
  destruct (String.eqb_spec (keys !!! a) (keys !!! b)) as [->|]; [done|]. by rewrite !andb_false_r.
Qed.

Lemma mergeable_sym a b : mergeable' a b = mergeable' b a.
Proof. unfold mergeable. rewrite same_key_sym. unfold rel. by rewrite (sym_matrix_sym _ _ _ a b). Qed.

Lemma denseNeighbor_sym a b : denseNeighbor cluster keys a b = denseNeighbor cluster keys b a.
Proof. unfold denseNeighbor. by rewrite mergeable_sym, String.eqb_sym. Qed.

(** The token sets are small enough for their sizes to be exact float64 values. *)
Definition tokens_small : Prop :=
  Forall (fun f => (Z.of_nat (size (tokenize (Problem f))) < 2 ^ 52)%Z) cluster.

Lemma classify_bnd a b :
  (Z.of_nat (size a) < 2 ^ 52)%Z -> (Z.of_nat (size b) < 2 ^ 52)%Z -> f_bnd 0 (classify a b).2.
Proof.
  intros Ha Hb. unfold classify.
  destruct (Nat.eqb_spec (size a) 0), (Nat.eqb_spec (size b) 0); cbn [andb orb snd]; [by vm_compute|done|done|].
  assert (f_bnd 0 (f_div (f_of_nat (inter_count a b)) (f_of_nat (size a + size b - inter_count a b)))).
  { rewrite inter_count_size.
    pose proof (subseteq_size (a ∩ b) a ltac:(set_solver)).
    pose proof (subseteq_size (a ∩ b) b ltac:(set_solver)). apply f_ratio_bnd; lia. }
  by repeat destruct (_ <=? _).
Qed.

Lemma sim_pair_small a b : tokens_small -> a < n -> b < n ->
  f_bnd 0 (classify (tokens cluster !!! a) (tokens cluster !!! b)).2.
Proof.
  unfold tokens_small. rewrite Forall_forall. intros Hs Ha Hb.
  assert (forall x, x < n -> tokens cluster !!! x = tokenize (Problem (cluster !!! x))) as Ht.
  { intros x Hx. unfold tokens. by rewrite (list_lookup_total_fmap (fun f => tokenize (Problem f))). }
  apply classify_bnd; rewrite Ht by done; by apply Hs, list_elem_of_lookup_total_2.
Qed.

Lemma sim_small : tokens_small -> forall i j, f_bnd 0 (sim cluster !!! i !!! j).
Proof.
  intros Hs i j. unfold sim. apply sym_matrix_all; [done|done|]. intros a b Hab. apply sim_pair_small; [done|lia..].
Qed.

Lemma dist_small : tokens_small -> costs_small (dist cluster keys).
Proof.
  intros Hs i j. unfold dist. apply sym_matrix_all; [done|done|]. intros a b Hab.
  destruct (same_key keys a b); [done|]. apply (f_sub_bnd 0); [lia|by vm_compute|].
  apply sim_pair_small; [done|lia..].
Qed.
End lemmas.

(** ** The folds over the groups *)

Section folds.
Context {U : UnicodeCase}.
Context (cluster : list Finding) (keys : list string) (adjudicatedMerges : gset string).
Context (groups : list (list nat)) (Hpart : mjoin groups ≡ₚ seq 0 (length cluster)).

Abbreviation n := (length cluster).
Abbreviation G := (length groups).
Abbreviation group := (groupOf cluster groups).

Lemma groups_NoDup : NoDup (mjoin groups).
Proof. rewrite Hpart. apply NoDup_seq. Qed.

Lemma elem_of_groups i : i < n <-> exists gi g, groups !! gi = Some g /\ i ∈ g.
Proof.
  assert (i < n <-> i ∈ mjoin groups) as -> by (rewrite Hpart, elem_of_seq; lia).
  rewrite elem_of_mjoin. split.
  - intros (g & (gi & Hg)%list_elem_of_lookup & Hi). eauto.
  - intros (gi & g & Hg%list_elem_of_lookup_2 & Hi). eauto.
Qed.

Lemma groupOf_spec gi g i : groups !! gi = Some g -> i ∈ g -> group !!! i = gi.
Proof.
  intros Hg Hi. assert (i < n) as Hin by (apply elem_of_groups; eauto).
  pose (I (xs : list (nat * list nat)) (l : list nat) :=
    length l = n /\ forall gi g, (gi, g) ∈ xs -> forall i, i ∈ g -> l !!! i = gi).
  enough (I (imap pair groups) group) as [_ H].
  { apply (H gi g); [|done]. apply (list_elem_of_lookup_2 _ gi). by rewrite list_lookup_imap, Hg. }
  unfold groupOf. apply (foldl_invariant I).
  - split; [by rewrite length_replicate|by intros ? ? ?%elem_of_nil].
  - intros xs [gj h] todo l Heq [Hl HI]. split; [by rewrite length_foldl_insert|].
    assert (forall gk k, (gk, k) ∈ xs ++ [(gj, h)] -> groups !! gk = Some k) as Hlook.
    { intros gk k Hk. assert ((gk, k) ∈ imap pair groups) as Hk'.
      { rewrite Heq. apply elem_of_app in Hk as [Hk|Hk%list_elem_of_singleton];
          apply elem_of_app; [by left|right]. rewrite Hk. left. }
      apply list_elem_of_lookup in Hk' as [p Hp]. rewrite list_lookup_imap in Hp.
      destruct (groups !! p) eqn:E; simpl in Hp; [|done]. by injection Hp as -> ->. }
    intros gk k Hk x Hx.
    assert (x < n) as Hxn by (apply elem_of_groups; eauto).
    rewrite foldl_insert_lookup by lia. case_decide as Hxh.
    + apply (mjoin_NoDup_index groups gj gk h k x groups_NoDup); [|by apply Hlook|done..].
      apply Hlook, elem_of_app. right. left.
    + apply elem_of_app in Hk as [Hk|[= -> ->]%list_elem_of_singleton]; [by apply (HI gk k)|done].
Qed.

Lemma groupOf_lt i : i < n -> group !!! i < G.
Proof.
  intros (gi & g & Hg & Hi)%elem_of_groups. rewrite (groupOf_spec gi g i Hg Hi).
  by apply lookup_lt_Some in Hg.
Qed.

Lemma groupOf_elem gi g i : i < n -> groups !! gi = Some g -> i ∈ g <-> group !!! i = gi.
Proof.
  intros Hi Hg. split; [by apply groupOf_spec|]. intros Heq.
  apply elem_of_groups in Hi as (gj & h & Hh & Hi). rewrite (groupOf_spec gj h i Hh Hi) in Heq.
  congruence.
Qed.

(** *** The gray-pair scan *)

(** The pair reaches the adjudication test. *)
Definition gray_pair (i j : nat) : Prop :=
  group !!! i <> group !!! j /\ same_key keys i j = false /\ rel cluster !!! i !!! j = relGray.

Definition pair_id (i j : nat) : string :=
  AmbiguousID (File (cluster !!! i)) (Line (cluster !!! i)) (Problem (cluster !!! i)) (Problem (cluster !!! j)).

Definition pair_entry (i j : nat) : gray_entry :=
  mkGray (mkAmbiguousCluster (pair_id i j) (File (cluster !!! i)) (Line (cluster !!! i))
            (sim cluster !!! i !!! j) [cluster !!! i; cluster !!! j])
    (group !!! i, group !!! j) (i, j).

(** The groups an adjudicated pair of [ps] joins. *)
Definition adj_edge (ps : list (nat * nat)) (x y : nat) : Prop :=
  exists i j, (i, j) ∈ ps /\ gray_pair i j /\ pair_id i j ∈ adjudicatedMerges /\
    x = group !!! i /\ y = group !!! j.

Record gray_inv (ps : list (nat * nat)) (st : unionFind * list gray_entry) : Prop := {
  gr_uf : uf_inv G st.1;
  gr_entries : forall e, e ∈ st.2 <-> exists i j, (i, j) ∈ ps /\ gray_pair i j /\
    pair_id i j ∉ adjudicatedMerges /\ e = pair_entry i j;
  gr_same : forall x y, x < G -> y < G -> same st.1 x y <-> rtsc (adj_edge ps) x y;
}.

Lemma adj_edge_skip ps i j x y :
  ~ (gray_pair i j /\ pair_id i j ∈ adjudicatedMerges) ->
  rtsc (adj_edge (ps ++ [(i, j)])) x y <-> rtsc (adj_edge ps) x y.
Proof.
  intros Hno. split; apply rtc_subrel; intros u v H; (destruct H as [H|H]; [left|right]);
    destruct H as (a & b & Hin & Hg & Hid & -> & ->); exists a, b; (split; [|done]).
  - apply elem_of_app in Hin as [?|[= -> ->]%list_elem_of_singleton]; [done|by destruct Hno].
  - apply elem_of_app in Hin as [?|[= -> ->]%list_elem_of_singleton]; [done|by destruct Hno].
  - apply elem_of_app. by left.
  - apply elem_of_app. by left.
Qed.

Lemma gray_step_inv ps i j st :
  i < n -> j < n -> gray_inv ps st ->
  exists st', gray_step cluster keys adjudicatedMerges group st (i, j) = Some st' /\
    gray_inv (ps ++ [(i, j)]) st'.
Proof.
  intros Hi Hj [Huf Hent Hsame]. destruct st as [uf entries]. cbn [fst snd] in *.
  assert (~ gray_pair i j \/ pair_id i j ∈ adjudicatedMerges ->
    (forall e, e ∈ entries <-> exists a b, (a, b) ∈ ps ++ [(i, j)] /\ gray_pair a b /\
      pair_id a b ∉ adjudicatedMerges /\ e = pair_entry a b)) as Hkeep.
  { intros Hno e. rewrite Hent. split; intros (a & b & Hin & Hg & Hid & He); exists a, b;
      (split; [|done]); [apply elem_of_app; by left|].
    apply elem_of_app in Hin as [?|[= -> ->]%list_elem_of_singleton]; [done|]. by destruct Hno. }
  assert (~ gray_pair i j -> gray_inv (ps ++ [(i, j)]) (uf, entries)) as Hskip.
  { intros Hno. split; cbn [fst snd]; [done|by apply Hkeep; left|].
    intros x y Hx Hy. rewrite adj_edge_skip by tauto. by apply Hsame. }
  unfold gray_step. fold (pair_id i j).
  destruct (Nat.eqb_spec (group !!! i) (group !!! j)) as [Hgr|Hgr];
    [eexists; split; [done|]; apply Hskip; by intros [? _]|].
  destruct (same_key keys i j) eqn:Ek; [eexists; split; [done|]; apply Hskip; intros (_ & ? & _); congruence|].
  case_bool_decide as Hrel; simpl; [|eexists; split; [done|]; apply Hskip; by intros (_ & _ & ?)].
  assert (gray_pair i j) as Hg by done.
  case_bool_decide as Hid.
  - destruct (union_same G uf (group !!! i) (group !!! j) Huf) as (uf' & -> & Huf' & Hs');
      [by apply groupOf_lt..|]. eexists. split; [done|]. split; cbn [fst snd]; [done|by apply Hkeep; right|].
    intros x y Hx Hy. rewrite Hs' by done.
    rewrite (rtsc_add_edge (adj_edge ps) (adj_edge (ps ++ [(i, j)])) (group !!! i) (group !!! j)).
    + pose proof (groupOf_lt i Hi). pose proof (groupOf_lt j Hj). by rewrite !Hsame.
    + intros u v. unfold adj_edge. setoid_rewrite elem_of_app. setoid_rewrite list_elem_of_singleton.
      split.
      * intros (a & b & [Hin|[= -> ->]] & Hg' & Hid' & -> & ->); [left|by right]. by exists a, b.
      * intros [(a & b & Hin & H)|[-> ->]]; [exists a, b; auto|]. exists i, j. auto.
  - eexists. split; [done|]. split; cbn [fst snd]; [done| |].
    + intros e. rewrite elem_of_app, list_elem_of_singleton, Hent. split.
      * intros [(a & b & Hin & H)| ->].
        -- exists a, b. split; [apply elem_of_app; by left|done].
        -- exists i, j. split; [apply elem_of_app; right; left|done].
      * intros (a & b & Hin & Hg' & Hid' & ->).
        apply elem_of_app in Hin as [?|[= -> ->]%list_elem_of_singleton]; [left; by exists a, b|by right].
    + intros x y Hx Hy. rewrite adj_edge_skip by tauto. by apply Hsame.
Qed.

Lemma gray_scan :
  exists st, foldM (gray_step cluster keys adjudicatedMerges group) (newUnionFind G, []) (index_pairs n) = Some st /\
    gray_inv (index_pairs n) st.
Proof.
  apply (foldM_invariant gray_inv).
  - split; cbn [fst snd]; [apply uf_inv_new| |].
    + intros e. split; [by intros ?%elem_of_nil|by intros (a & b & ?%elem_of_nil & _)].
    + intros x y Hx Hy. rewrite same_new by done. split; [by intros ->|].
      intros H. apply rtc_inv in H as [->|(z & [H|H] & _)]; [done| |];
        by destruct H as (a & b & ?%elem_of_nil & _).
  - intros ps [i j] todo st Heq Hinv.
    assert ((i, j) ∈ index_pairs n) as Hij by (rewrite Heq; apply elem_of_app; right; left).
    apply elem_of_index_pairs in Hij. apply gray_step_inv; [lia|lia|done].
Qed.

(** *** The surviving pairs *)

(** The disjoint-set after path halving: the same sets. *)
Definition same_sets (u0 u : unionFind) : Prop :=
  uf_inv G u /\ forall x, x < G -> root_of u x = root_of u0 x.

Lemma keep_scan u0 entries :
  uf_inv G u0 -> (forall e, e ∈ entries -> (ge_groups e).1 < G /\ (ge_groups e).2 < G) ->
  exists u kept, foldM keep_step (u0, []) entries = Some (u, kept) /\ same_sets u0 u /\
    forall e, e ∈ kept <-> e ∈ entries /\ root_of u0 (ge_groups e).1 <> root_of u0 (ge_groups e).2.
Proof.
  intros Hu0 Hlt.
  pose (I (xs : list gray_entry) (st : unionFind * list gray_entry) := same_sets u0 st.1 /\
    forall e, e ∈ st.2 <-> e ∈ xs /\ root_of u0 (ge_groups e).1 <> root_of u0 (ge_groups e).2).
  destruct (foldM_invariant I keep_step entries (u0, [])) as ([u kept] & Hf & Hs & Hk).
  - split; [by split|]. intros e. cbn [snd]. split; [by intros ?%elem_of_nil|by intros [?%elem_of_nil _]].
  - intros xs e todo [u kept] Heq [[Hu Hr] Hk]. cbn [fst snd] in *.
    destruct (Hlt e) as [H1 H2]; [rewrite Heq; apply elem_of_app; right; left|].
    unfold keep_step. destruct (find_root G u (ge_groups e).1 Hu H1) as (u1 & -> & Hu1 & Hr1). simpl.
    destruct (find_root G u1 (ge_groups e).2 Hu1 H2) as (u2 & -> & Hu2 & Hr2). simpl.
    eexists. split; [done|]. split; cbn [fst snd].
    + split; [done|]. intros x Hx. by rewrite Hr2, Hr1, Hr.
    + rewrite Hr1, !Hr by done. intros e'.
      destruct (Nat.eqb_spec (root_of u0 (ge_groups e).1) (root_of u0 (ge_groups e).2)) as [He|He].
      * rewrite Hk, elem_of_app, list_elem_of_singleton. split; [tauto|]. intros [[?| ->] ?]; done.
      * rewrite !elem_of_app, Hk, !list_elem_of_singleton. split; [|tauto].
        intros [[? ?]| ->]; tauto.
  - exists u, kept. done.
Qed.

(** *** The roots *)

Definition root_groups (u0 : unionFind) (r : nat) : list nat :=
  mjoin (filter (fun p : nat * list nat => root_of u0 p.1 = r) (imap pair groups)).*2.

Lemma elem_of_imap_pair {A} (l : list A) i x : (i, x) ∈ imap pair l <-> l !! i = Some x.
Proof.
  rewrite list_elem_of_lookup. split.
  - intros [p Hp]. rewrite list_lookup_imap in Hp. destruct (l !! p) eqn:E; simpl in Hp; [|done].
    by injection Hp as -> ->.
  - intros Hi. exists i. by rewrite list_lookup_imap, Hi.
Qed.

Lemma root_scan u0 u :
  uf_inv G u0 -> same_sets u0 u ->
  exists u' rootIdx rootOrder,
    foldM root_step (u, ∅, []) (imap pair groups) = Some (u', rootIdx, rootOrder) /\
    (forall r, default [] (rootIdx !! r) = root_groups u0 r) /\ NoDup rootOrder /\
    (forall r, r ∈ rootOrder <-> is_Some (rootIdx !! r)) /\
    (forall r, r ∈ rootOrder <-> exists gi, gi < G /\ root_of u0 gi = r).
Proof.
  intros Hu0 Hu.
  pose (I (xs : list (nat * list nat)) (st : unionFind * gmap nat (list nat) * list nat) :=
    same_sets u0 st.1.1 /\
    (forall r, default [] (st.1.2 !! r) = mjoin (filter (fun p => root_of u0 p.1 = r) xs).*2) /\
    NoDup st.2 /\ (forall r, r ∈ st.2 <-> is_Some (st.1.2 !! r)) /\
    (forall r, r ∈ st.2 <-> exists p, p ∈ xs /\ root_of u0 p.1 = r)).
  destruct (foldM_invariant I root_step (imap pair groups) (u, ∅, []))
    as ([[u' m] o] & Hf & _ & Hm & Hnd & Hdom & Hall).
  - split_and!; cbn [fst snd]; [done| | | |].
    + intros r. by rewrite lookup_empty.
    + constructor.
    + intros r. rewrite lookup_empty. split; [by intros ?%elem_of_nil|by intros [? ?]].
    + intros r. split; [by intros ?%elem_of_nil|by intros (p & ?%elem_of_nil & _)].
  - intros xs [gi g] todo [[uf m] o] Heq ([Huf Hr] & Hm & Hnd & Hdom & Hall). cbn [fst snd] in *.
    assert (gi < G) as Hgi.
    { assert ((gi, g) ∈ imap pair groups) as Hin by (rewrite Heq; apply elem_of_app; right; left).
      apply elem_of_imap_pair in Hin. by apply lookup_lt_Some in Hin. }
    unfold root_step. destruct (find_root G uf gi Huf Hgi) as (uf' & -> & Huf' & Hr'). simpl.
    rewrite (Hr gi Hgi). set (k := root_of u0 gi). eexists. split; [done|].
    assert (forall s, s ∈ match m !! k with None => o ++ [k] | Some _ => o end <-> s = k \/ s ∈ o) as Hin.
    { intros s. destruct (m !! k) eqn:E.
      - split; [by right|]. intros [->|?]; [|done]. apply Hdom. by rewrite E.
      - rewrite elem_of_app, list_elem_of_singleton. tauto. }
    split_and!; cbn [fst snd].
    + split; [done|]. intros x Hx. by rewrite Hr', Hr.
    + intros r. rewrite filter_app, fmap_app, mjoin_app, <- Hm, filter_cons. cbn [fst].
      fold k. destruct (decide (k = r)) as [->|Hne].
      * rewrite lookup_insert_eq. cbn. by rewrite app_nil_r.
      * rewrite lookup_insert_ne by done. cbn. by rewrite app_nil_r.
    + destruct (m !! k) eqn:E; [done|]. apply NoDup_app. split_and!; [done| |apply NoDup_singleton].
      intros s Hs ->%list_elem_of_singleton. apply Hdom in Hs. rewrite E in Hs. by destruct Hs.
    + intros s. rewrite Hin, Hdom. destruct (decide (k = s)) as [->|Hne].
      * rewrite lookup_insert_eq. split; [by eexists|by left].
      * rewrite lookup_insert_ne by done. split; [by intros [->|?]|by right].
    + intros r. rewrite Hin, Hall. setoid_rewrite elem_of_app. setoid_rewrite list_elem_of_singleton. split.
      * intros [->|(p & Hp & Hr0)]; [exists (gi, g); auto|exists p; auto].
      * intros (p & [Hp| ->] & Hr0); [right; by exists p|by left].
  - cbn [fst snd] in *. exists u', m, o. split_and!; [done..|]. intros r. rewrite Hall. split.
    + intros ([gi g] & Hp%elem_of_imap_pair & Hr). exists gi. split; [by apply lookup_lt_Some in Hp|done].
    + intros (gi & Hgi & Hr). destruct (lookup_lt_is_Some_2 groups gi Hgi) as [g Hg].
      exists (gi, g). split; [by apply elem_of_imap_pair|done].
Qed.

(** A finding belongs to the root of its group. *)
Lemma elem_of_root_groups u0 r i : i ∈ root_groups u0 r <-> i < n /\ root_of u0 (group !!! i) = r.
Proof.
  unfold root_groups. rewrite elem_of_mjoin. split.
  - intros (g & ([gi g'] & -> & [Hr Hin%elem_of_imap_pair]%list_elem_of_filter)%list_elem_of_fmap & Hi).
    cbn [fst snd] in *. rewrite (groupOf_spec gi g' i Hin Hi). split; [|done]. apply elem_of_groups. eauto.
  - intros [Hi Hr]. pose proof Hi as Hi'. apply elem_of_groups in Hi' as (gi & g & Hg & Hig).
    exists g. split; [|done]. apply list_elem_of_fmap. exists (gi, g). split; [done|].
    apply list_elem_of_filter. rewrite <- (groupOf_spec gi g i Hg Hig). split; [done|].
    rewrite (groupOf_spec gi g i Hg Hig). by apply elem_of_imap_pair.
Qed.

Lemma root_groups_nonempty u0 gi :
  Forall (fun g => g <> []) groups -> gi < G -> root_groups u0 (root_of u0 gi) <> [].
Proof.
  intros Hne Hgi Hnil. destruct (lookup_lt_is_Some_2 groups gi Hgi) as [g Hg].
  rewrite Forall_forall in Hne. pose proof (Hne g (list_elem_of_lookup_2 _ _ _ Hg)) as Hg0.
  destruct g as [|i g]; [done|]. apply (not_elem_of_nil i). rewrite <- Hnil.
  apply elem_of_root_groups. rewrite (groupOf_spec gi (i :: g) i Hg) by left. split; [|done].
  apply elem_of_groups. exists gi, (i :: g). split; [done|left].
Qed.

Lemma roots_partition u0 rootOrder :
  NoDup rootOrder -> (forall r, r ∈ rootOrder <-> exists gi, gi < G /\ root_of u0 gi = r) ->
  mjoin (root_groups u0 <$> rootOrder) ≡ₚ seq 0 n.
Proof.
  intros Hnd Hall. rewrite <- Hpart. trans (mjoin (imap pair groups).*2); [|by rewrite imap_pair_snd].
  rewrite <- (filter_keys_Permutation (fun p : nat * list nat => root_of u0 p.1) rootOrder (imap pair groups)).
  - clear. apply reflexive_eq. induction rootOrder as [|r o IH]; [done|].
    cbn. rewrite fmap_app, mjoin_app. f_equal. apply IH.
  - done.
  - intros [gi g] Hp%elem_of_imap_pair. apply Hall. exists gi. by apply lookup_lt_Some in Hp.
Qed.
End folds.

(** ** The plan *)

Section plan_spec.
Context {U : UnicodeCase}.
Context (cluster : list Finding) (keys : list string) (adjudicatedMerges : gset string).

Abbreviation n := (length cluster).

(** Findings [i] and [j] are in one output group. *)
Definition together (p : dedupe_plan) (i j : nat) : Prop :=
  exists g, g ∈ dp_roots p /\ i ∈ g /\ j ∈ g.

(** Two distinct findings corroborate each other across sources. *)
Definition dense_pair (a b : nat) : Prop :=
  a < n /\ b < n /\ a <> b /\ denseNeighbor cluster keys a b = true.

(** The finding appears in a surviving gray pair. *)
Definition in_gray (p : dedupe_plan) (i : nat) : Prop :=
  exists e, e ∈ dp_gray p /\ (i = (ge_idx e).1 \/ i = (ge_idx e).2).

(** What the plan promises, from the bipartite [groups]. *)
Record plan_ok (groups : list (list nat)) (p : dedupe_plan) : Prop := {
  po_partition : mjoin (dp_roots p) ≡ₚ seq 0 n;
  po_sorted : Forall (fun g => g <> [] /\ StronglySorted lt g) (dp_roots p);
  po_together : forall i j, i < n -> j < n ->
    together p i j <->
    rtsc (adj_edge cluster keys adjudicatedMerges groups (index_pairs n))
      (groupOf cluster groups !!! i) (groupOf cluster groups !!! j);
  po_gray : forall e, e ∈ dp_gray p <-> exists i j, i < j < n /\
    gray_pair cluster keys groups i j /\ ~ together p i j /\ e = pair_entry cluster groups i j;
  po_noise : forall i, i ∈ dp_noise p <->
    i < n /\ (exists a b, dense_pair a b) /\ (forall b, ~ dense_pair i b) /\
    [i] ∈ dp_roots p /\ ~ in_gray p i;
  po_noise_sorted : StronglySorted lt (dp_noise p);
}.

Lemma seq_sorted a m : StronglySorted lt (seq a m).
Proof.
  revert a. induction m as [|m IH]; intros a; simpl; constructor; [apply IH|].
  apply Forall_forall. intros x Hx%elem_of_seq. lia.
Qed.

Lemma elem_of_grayInvolved kept i :
  i ∈ grayInvolved kept <-> exists e, e ∈ kept /\ (i = (ge_idx e).1 \/ i = (ge_idx e).2).
Proof.
  unfold grayInvolved. rewrite elem_of_list_to_set, elem_of_mjoin. split.
  - intros (l & (e & -> & He)%list_elem_of_fmap & Hi). exists e. split; [done|].
    rewrite !elem_of_cons in Hi. destruct Hi as [?|[?|?%elem_of_nil]]; auto; done.
  - intros (e & He & Hi). exists [(ge_idx e).1; (ge_idx e).2]. split; [by apply list_elem_of_fmap; exists e|].
    rewrite !elem_of_cons. tauto.
Qed.

Lemma elem_of_soloRoot m i : i ∈ soloRoot m <-> exists r : nat, m !! r = Some [i].
Proof.
  unfold soloRoot. rewrite elem_of_list_to_set, list_elem_of_omap. split.
  - intros ([r l] & Hin%elem_of_map_to_list & Hl). simpl in Hl. exists r.
    destruct l as [|x [|y l]]; [done| |done]. congruence.
  - intros [r Hr]. exists (r, [i]). split; [by apply elem_of_map_to_list|done].
Qed.

Lemma sort_ints_single l i : sort_ints l = [i] <-> l = [i].
Proof.
  split; [|by intros ->]. intros H. apply Permutation_singleton_r. rewrite <- H.
  symmetry. apply sort_ints_Permutation.
Qed.

Lemma elem_of_neighborsOf p q :
  q ∈ neighborsOf n (denseNeighbor cluster keys) p <-> q < n /\ q <> p /\ denseNeighbor cluster keys p q = true.
Proof. unfold neighborsOf. rewrite list_elem_of_filter, elem_of_seq. intuition lia. Qed.

Lemma plan_spec groups :
  bipartiteGroups (dist cluster keys) (mergeable cluster keys) (srcKeys cluster) = Some groups ->
  mjoin groups ≡ₚ seq 0 n -> Forall (fun g => g <> []) groups ->
  exists p, plan cluster keys adjudicatedMerges = Some p /\ plan_ok groups p.
Proof.
  intros Hb Hpart Hne. unfold plan. rewrite Hb. cbn [mbind option_bind].
  destruct (gray_scan cluster keys adjudicatedMerges groups Hpart) as ([u0 entries] & Hs & [Huf Hent Hsame]).
  rewrite Hs. cbn [mbind option_bind fst snd] in *.
  assert (forall i, i < n -> groupOf cluster groups !!! i < length groups) as Hglt by apply (groupOf_lt _ _ Hpart).
  destruct (keep_scan groups u0 entries Huf) as (u1 & kept & Hf1 & Hu1 & Hkept).
  { intros e (i & j & Hij%elem_of_index_pairs & _ & _ & ->)%Hent. simpl. split; apply Hglt; lia. }
  rewrite Hf1. cbn [mbind option_bind].
  destruct (root_scan groups u0 u1 Huf Hu1) as (u2 & m & o & Hf2 & Hm & Hnd & Hdom & Hall).
  rewrite Hf2. cbn [mbind option_bind].
  destruct (dbscanLabels_spec n (denseNeighbor cluster keys) (denseNeighbor_sym cluster keys))
    as (labels & dense & Hdb & Hlab).
  rewrite Hdb. cbn [mbind option_bind]. eexists. split; [done|].
  assert (forall r, sort_ints (default [] (m !! r)) ≡ₚ root_groups groups u0 r) as Hroot.
  { intros r. by rewrite sort_ints_Permutation, Hm. }
  set (roots := (fun r => sort_ints (default [] (m !! r))) <$> o).
  assert (forall i j, i < n -> j < n ->
    (exists g, g ∈ roots /\ i ∈ g /\ j ∈ g) <-> root_of u0 (groupOf cluster groups !!! i) = root_of u0 (groupOf cluster groups !!! j)) as Htog.
  { intros i j Hi Hj. split.
    - intros (g & (r & -> & Hr)%list_elem_of_fmap & H1 & H2). rewrite Hroot in H1, H2.
      apply (elem_of_root_groups cluster groups Hpart) in H1 as [_ H1], H2 as [_ H2]. by rewrite H1, H2.
    - intros Heq. set (r := root_of u0 (groupOf cluster groups !!! i)). exists (sort_ints (default [] (m !! r))).
      split; [apply list_elem_of_fmap; exists r; split; [done|]; apply Hall; eauto|].
      rewrite Hroot. split; apply (elem_of_root_groups cluster groups Hpart); done. }
  assert (forall i j, i < n -> j < n ->
    root_of u0 (groupOf cluster groups !!! i) = root_of u0 (groupOf cluster groups !!! j) <->
    rtsc (adj_edge cluster keys adjudicatedMerges groups (index_pairs n)) (groupOf cluster groups !!! i) (groupOf cluster groups !!! j)) as Hadj.
  { intros i j Hi Hj. rewrite <- (same_root_of (length groups)) by auto. apply Hsame; auto. }
  split; cbn [dp_roots dp_gray dp_noise].
  - trans (mjoin (root_groups groups u0 <$> o)); [|by apply (roots_partition cluster)].
    subst roots. clear -Hroot. induction o as [|r o IH]; [done|]. cbn. by rewrite Hroot, IH.
  - apply Forall_fmap, Forall_forall. intros r Hr. simpl. rewrite Hm. split.
    { apply Hall in Hr as (gi & Hgi & <-).
      by apply sort_ints_nonempty, (root_groups_nonempty cluster groups Hpart). }
    apply sort_ints_NoDup, (mjoin_NoDup_block (root_groups groups u0 <$> o)); [|by apply list_elem_of_fmap_2].
    rewrite (roots_partition cluster) by done. apply NoDup_seq.
  - intros i j Hi Hj. unfold together. cbn [dp_roots]. rewrite Htog by done. by apply Hadj.
  - intros e. rewrite Hkept, Hent. unfold together. cbn [dp_roots]. split.
    + intros [(i & j & Hij%elem_of_index_pairs & Hg & _ & ->) Hneq]. exists i, j.
      split_and!; [lia..|done| |done]. rewrite Htog by lia. exact Hneq.
    + intros (i & j & Hij & Hg & Hno & ->). rewrite Htog in Hno by lia. split; [|exact Hno].
      exists i, j. split; [by apply elem_of_index_pairs|]. split; [done|]. split; [|done].
      intros Hid. apply Hno, Hadj; [lia|lia|]. apply rtc_once. left. exists i, j.
      split; [by apply elem_of_index_pairs|done].
  - intros i. destruct Hlab as (_ & Hnoise & _ & Hdense).
    assert ((exists a b, dense_pair a b) <-> dense = true) as ->.
    { rewrite Hdense. setoid_rewrite elem_of_neighborsOf. unfold dense_pair.
      split; intros (a & b & H); exists a, b; intuition. }
    assert (i < n -> (forall b, ~ dense_pair i b) <-> labels !!! i = dbscanNoise) as Hiff.
    { intros Hi. rewrite (proj1 (Hnoise i Hi)). split.
      - intros Hno. apply elem_of_nil_inv. intros b (Hb1 & Hb2 & Hb3)%elem_of_neighborsOf.
        apply (Hno b). by repeat split.
      - intros Hnil b (_ & Hb1 & Hb2 & Hb3). apply (not_elem_of_nil b). rewrite <- Hnil.
        apply elem_of_neighborsOf. by split_and!. }
    assert ([i] ∈ roots <-> i ∈ soloRoot m) as ->.
    { rewrite elem_of_soloRoot. unfold roots. rewrite list_elem_of_fmap. split.
      - intros (r & Hr & Hro). symmetry in Hr. apply (proj1 (sort_ints_single _ _)) in Hr. exists r.
        destruct (m !! r) as [l|] eqn:E; simpl in Hr; congruence.
      - intros [r Hr]. exists r. rewrite Hr. split; [done|]. apply Hdom. by rewrite Hr. }
    unfold in_gray. cbn [dp_gray]. rewrite <- elem_of_grayInvolved.
    destruct dense.
    + rewrite list_elem_of_filter, elem_of_seq. split.
      * intros ((? & ? & ?) & ?). assert (i < n) as Hi by lia. rewrite Hiff by done. tauto.
      * intros (Hi & _ & Hno & ? & ?). rewrite Hiff in Hno by done. split_and!; [done..|lia|lia].
    + split; [by intros ?%elem_of_nil|by intros (_ & ? & _)].
  - destruct dense; [|constructor]. apply StronglySorted_filter, seq_sorted.
Qed.
End plan_spec.

(** ** From the plan to the findings *)

(** The inputs the deduplication is guaranteed on: parallel keys, token sets whose
    sizes are exact float64 values, and a matchable cluster. *)
Definition dedupe_input {U : UnicodeCase} (cluster : list Finding) (keys : list string) : Prop :=
  length keys = length cluster /\ tokens_small cluster /\ matchable (srcKeys cluster).

Section results.
Context {U : UnicodeCase}.
Context (cluster : list Finding) (keys : list string) (adjudicatedMerges : gset string).

Abbreviation n := (length cluster).

(** The matching and the plan, together. *)
Lemma plan_exists :
  dedupe_input cluster keys ->
  exists groups p,
    bipartiteGroups (dist cluster keys) (mergeable cluster keys) (srcKeys cluster) = Some groups /\
    plan cluster keys adjudicatedMerges = Some p /\
    plan_ok cluster keys adjudicatedMerges groups p /\
    mjoin groups ≡ₚ seq 0 n /\
    Forall (fun g => one_per_source (srcKeys cluster) g /\ complete_linkage (mergeable cluster keys) g) groups.
Proof.
  intros (Hk & Ht & Hm).
  destruct (bipartite_float_ok (dist cluster keys) (mergeable cluster keys) (srcKeys cluster)
    (dist_small cluster keys Ht) Hm) as (groups & Hb & Hpart & [Hnf _] & Hlink).
  unfold srcKeys in Hpart. rewrite length_imap in Hpart.
  destruct (plan_spec cluster keys adjudicatedMerges groups Hb Hpart) as (p & Hp & Hok).
  { eapply Forall_impl; [exact Hnf|]. by intros g [? _]. }
  exists groups, p. done.
Qed.

Lemma dedupeCluster_plan p :
  length keys = n -> n <> 0 -> n <= maxClusterSize -> plan cluster keys adjudicatedMerges = Some p ->
  dedupeCluster cluster keys adjudicatedMerges = Some (materialize cluster p).
Proof.
  intros Hk Hn0 Hn Hp. unfold dedupeCluster. rewrite Hp.
  rewrite (proj2 (Nat.eqb_neq _ _)) by done. rewrite (proj2 (Nat.eqb_eq _ _)) by done.
  by rewrite (proj2 (Nat.ltb_ge _ _)) by done.
Qed.

Lemma isolated_spec noise idxs :
  isolated noise idxs = true <-> exists i, idxs = [i] /\ i ∈ noise.
Proof.
  destruct idxs as [|i [|j l]]; simpl; [split; [done|by intros (? & ? & _)]| |split; [done|by intros (? & ? & _)]].
  rewrite bool_decide_eq_true. split; [by exists i|by intros (? & [= <-] & ?)].
Qed.

(** The isolated roots are exactly the noise. *)
Lemma roots_split groups p :
  plan_ok cluster keys adjudicatedMerges groups p ->
  mjoin (filter (fun g => isolated (dp_noise p) g = false) (dp_roots p)) ++ dp_noise p ≡ₚ seq 0 n.
Proof.
  intros Hok. pose proof (po_partition _ _ _ _ _ Hok) as Hpart.
  set (P := fun g => isolated (dp_noise p) g = false).
  assert (mjoin (filter P (dp_roots p)) ++ mjoin (filter (fun g => ~ P g) (dp_roots p)) ≡ₚ seq 0 n) as Hsplit.
  { rewrite <- mjoin_app, (filter_app_complement P). done. }
  rewrite <- Hsplit. apply Permutation_app_head.
  assert (NoDup (mjoin (filter (fun g => ~ P g) (dp_roots p)))) as Hnd.
  { pose proof (NoDup_seq 0 n) as Hn. rewrite <- Hsplit in Hn. by apply NoDup_app in Hn as (_ & _ & ?). }
  apply NoDup_Permutation; [|done|].
  - eapply StronglySorted_lt_NoDup, po_noise_sorted, Hok.
  - intros i. rewrite elem_of_mjoin. split.
    + intros Hi. exists [i]. split; [|left]. apply list_elem_of_filter. split.
      * unfold P. rewrite not_false_iff_true. apply isolated_spec. by exists i.
      * by apply (po_noise _ _ _ _ _ Hok) in Hi as (_ & _ & _ & ? & _).
    + intros (g & [Hg _]%list_elem_of_filter & Hi). unfold P in Hg.
      apply not_false_iff_true, isolated_spec in Hg as (j & -> & Hj).
      by apply list_elem_of_singleton in Hi as ->.
Qed.

Lemma fmap_mjoin {A B} (f : A -> B) (ls : list (list A)) : f <$> mjoin ls = mjoin ((fun l => f <$> l) <$> ls).
Proof.
  induction ls as [|l ls IH]; [done|].
  change (f <$> (l ++ mjoin ls) = (f <$> l) ++ mjoin ((fun l => f <$> l) <$> ls)).
  by rewrite fmap_app, IH.
Qed.

Lemma findings_of_indices : (fun i => cluster !!! i) <$> seq 0 n = cluster.
Proof.
  apply list_eq. intros i. rewrite list_lookup_fmap. destruct (decide (i < n)).
  - rewrite lookup_seq_lt by done. simpl. by rewrite list_lookup_lookup_total_lt.
  - rewrite !lookup_ge_None_2; [done|lia|rewrite length_seq; lia].
Qed.
End results.

(** ** Properties *)

(** The result of a deduplication that loses nothing. *)
Definition dedupe_result {U : UnicodeCase} (cluster : list Finding) (keys : list string)
    (adjudicatedMerges : gset string) (out : list (list Finding)) (gray : list AmbiguousCluster)
    (noise : list Finding) : Prop :=
  dedupeCluster cluster keys adjudicatedMerges =
      Some (out, gray ++ (singletonAmbiguousCluster <$> noise)) /\
    mjoin out ++ noise ≡ₚ cluster /\ Forall (fun g => g <> []) out /\
    Forall (fun a => length (amb_Findings a) = 2) gray /\
    Forall (fun a => f_bnd 0 (Similarity a)) gray.

Lemma dedupeCluster_ok {U : UnicodeCase} cluster keys adjudicatedMerges :
  dedupe_input cluster keys \/ (length keys = length cluster /\ maxClusterSize < length cluster) ->
  exists out gray noise, dedupe_result cluster keys adjudicatedMerges out gray noise.
Proof.
  intros Hin. unfold dedupe_result. destruct (decide (length cluster = 0)) as [Hz|Hz].
  { exists [], [], []. destruct cluster; [|done]. by repeat constructor. }
  destruct (decide (maxClusterSize < length cluster)) as [Hbig|Hsmall].
  { exists ((fun f => [f]) <$> cluster), [], []. unfold dedupeCluster.
    assert (length keys = length cluster) as Hk by (destruct Hin as [(? & _)|[? _]]; done).
    rewrite (proj2 (Nat.eqb_neq _ _)) by done. rewrite (proj2 (Nat.eqb_eq _ _)) by done.
    rewrite (proj2 (Nat.ltb_lt _ _)) by done. split; [done|]. rewrite mjoin_singletons, app_nil_r.
    split; [done|]. split; [|done]. by apply Forall_fmap, Forall_forall. }
  destruct Hin as [Hin|[_ ?]]; [|lia].
  destruct (plan_exists cluster keys adjudicatedMerges Hin) as (groups & p & _ & Hp & Hok & _).
  rewrite (dedupeCluster_plan cluster keys adjudicatedMerges p); [|apply Hin|done|lia|done].
  eexists _, (ge_amb <$> dp_gray p), ((fun i => cluster !!! i) <$> dp_noise p).
  split; [unfold materialize; by rewrite <- list_fmap_compose|]. split; [|split_and!].
  - rewrite <- fmap_mjoin, <- fmap_app, (roots_split _ _ _ _ _ Hok). by rewrite findings_of_indices.
  - apply Forall_fmap, Forall_forall. intros g [_ Hg]%list_elem_of_filter.
    pose proof (po_sorted _ _ _ _ _ Hok) as Hs. rewrite Forall_forall in Hs.
    destruct (Hs g Hg) as [Hne _]. simpl. by destruct g.
  - apply Forall_fmap, Forall_forall. intros e He.
    apply (po_gray _ _ _ _ _ Hok) in He as (i & j & _ & _ & _ & ->). done.
  - apply Forall_fmap, Forall_forall. intros e He.
    apply (po_gray _ _ _ _ _ Hok) in He as (i & j & _ & _ & _ & ->). apply sim_small, Hin.
Qed.

(** Deduplication loses and duplicates no finding: the output groups and the
    isolated findings of the sidecar are together a permutation of the cluster, no
    group is empty, and the rest of the sidecar are two-finding gray pairs. Any AST
    keys and any adjudication set. *)
Theorem dedupeCluster_conserves {U : UnicodeCase} cluster keys adjudicatedMerges :
  dedupe_input cluster keys \/ (length keys = length cluster /\ maxClusterSize < length cluster) ->
  exists out gray noise,
    dedupeCluster cluster keys adjudicatedMerges =
      Some (out, gray ++ (singletonAmbiguousCluster <$> noise)) /\
    mjoin out ++ noise ≡ₚ cluster /\ Forall (fun g => g <> []) out /\
    Forall (fun a => length (amb_Findings a) = 2) gray.
Proof.
  intros Hin. destruct (dedupeCluster_ok cluster keys adjudicatedMerges Hin) as (out & gray & noise & ? & ? & ? & ? & _).
  by exists out, gray, noise.
Qed.

#[local] Existing Instance ascii_case.

Definition sample (reviewer problem : string) : Finding :=
  mkFinding "HIGH" "a.go" 3 problem "" "" 5 "" reviewer [] "" "" None.

(** A corroborated pair, a gray finding of one of its reviewers, and a stranger. *)
Definition sample_cluster : list Finding :=
  [sample "a" "nil pointer dereference in handler"; sample "b" "nil pointer dereference in the handler";
   sample "c" "totally other thing"; sample "a" "nil pointer problem in handler code"].

Lemma sample_input : dedupe_input sample_cluster ["k"; ""; ""; "k"].
Proof.
  split; [done|]. split; [|left; unfold solver_rows; simpl; lia].
  repeat constructor; by vm_compute.
Qed.

Lemma sample_plain_input : dedupe_input sample_cluster (replicate 4 "").
Proof. destruct sample_input as (_ & ? & ?). by split. Qed.

Lemma dedupeCluster_conserves_witness :
  dedupe_input sample_cluster ["k"; ""; ""; "k"] /\
  exists out gray noise,
    dedupeCluster sample_cluster ["k"; ""; ""; "k"] ∅ =
      Some (out, gray ++ (singletonAmbiguousCluster <$> noise)) /\
    mjoin out ++ noise ≡ₚ sample_cluster /\ Forall (fun g => g <> []) out /\
    Forall (fun a => length (amb_Findings a) = 2) gray.
Proof.
  split; [exact sample_input|].
  apply (dedupeCluster_conserves sample_cluster ["k"; ""; ""; "k"] ∅). left. exact sample_input.
Defined.

(** The stranger is isolated, the gray finding stays. *)
Example sample_groups :
  (fun p => (dp_roots p, ge_idx <$> dp_gray p, dp_noise p)) <$> plan sample_cluster (replicate 4 "") ∅ =
  Some ([[0; 1]; [2]; [3]], [(0, 3); (1, 3)], [2]).
Proof. by vm_compute. Qed.

Section merge_groups.
Context {U : UnicodeCase}.
Context (cluster : list Finding).

Abbreviation n := (length cluster).

Lemma srcKeys_lookup i : i < n -> srcKeys cluster !!! i = srcKey i (cluster !!! i).
Proof.
  intros Hi. unfold srcKeys. rewrite list_lookup_total_alt, list_lookup_imap.
  by rewrite (list_lookup_lookup_total_lt cluster i Hi).
Qed.

(** Findings of one named reviewer have one source key. *)
Lemma same_reviewer_key i j :
  i < n -> j < n -> Reviewer (cluster !!! i) = Reviewer (cluster !!! j) ->
  Reviewer (cluster !!! i) <> "" -> srcKeys cluster !!! i = srcKeys cluster !!! j.
Proof.
  intros Hi Hj Heq Hne. rewrite !srcKeys_lookup by done. unfold srcKey.
  rewrite <- Heq. by rewrite (proj2 (String.eqb_neq _ _)) by done.
Qed.

(** Two members of a bipartite group: mergeable and from two sources. *)
Lemma group_members keys groups g i j :
  Forall (fun g => one_per_source (srcKeys cluster) g /\ complete_linkage (mergeable cluster keys) g) groups ->
  g ∈ groups -> i ∈ g -> j ∈ g -> i <> j -> i < n -> j < n ->
  mergeable cluster keys i j = true /\
  (Reviewer (cluster !!! i) = Reviewer (cluster !!! j) -> Reviewer (cluster !!! i) = "").
Proof.
  intros Hg Hin Hi Hj Hne Hil Hjl. rewrite Forall_forall in Hg. destruct (Hg g Hin) as [Hs Hc]. split.
  - destruct (Hc i j Hi Hj Hne) as [?|?]; [done|]. by rewrite mergeable_sym.
  - intros Heq. destruct (decide (Reviewer (cluster !!! i) = "")); [done|].
    destruct Hne. apply Hs; [done..|]. by apply same_reviewer_key.
Qed.

(** Without adjudication the output groups are the bipartite groups. *)
Lemma together_groups keys groups p i j :
  mjoin groups ≡ₚ seq 0 n -> plan_ok cluster keys ∅ groups p -> i < n -> j < n -> together p i j ->
  exists g, g ∈ groups /\ i ∈ g /\ j ∈ g.
Proof.
  intros Hpart Hok Hi Hj Ht. apply (po_together _ _ _ _ _ Hok i j Hi Hj) in Ht.
  assert (groupOf cluster groups !!! i = groupOf cluster groups !!! j) as Heq.
  { apply rtc_inv in Ht as [?|(z & [H|H] & _)]; [done|exfalso..];
      by destruct H as (a & b & _ & _ & ?%not_elem_of_empty & _). }
  pose proof Hi as Hi'. apply (elem_of_groups cluster groups Hpart) in Hi' as (gi & g & Hg & Hig).
  exists g. split; [by apply list_elem_of_lookup_2 in Hg|]. split; [done|].
  apply (groupOf_elem cluster groups Hpart gi g j Hj Hg). rewrite <- Heq.
  by apply (groupOf_spec cluster groups Hpart gi g).
Qed.

(** What [DedupeCluster] promises, in terms of the words of the PROBLEM texts. *)
Definition lists_words (words : Finding -> gset string) : Prop :=
  forall f w, w ∈ words f <-> word_in (to_bytes (ToLower (Problem f))) (to_bytes w).
Definition duplicates (words : Finding -> gset string) (f h : Finding) : Prop :=
  words f = ∅ /\ words h = ∅ \/
  words f <> ∅ /\ words h <> ∅ /\ 7 * size (words f ∪ words h) <= 10 * size (words f ∩ words h).
Definition gap (words : Finding -> gset string) (f h : Finding) : float64 :=
  f_sub f_one (if decide (words f = ∅) then if decide (words h = ∅) then f_one else f_zero
               else if decide (words h = ∅) then f_zero
               else f_div (f_of_nat (size (words f ∩ words h))) (f_of_nat (size (words f ∪ words h)))).
Definition grouped (out : list (list Finding)) (f h : Finding) : Prop := exists g, g ∈ out /\ f ∈ g /\ h ∈ g.
Definition earlier (f h : Finding) : Prop := str_ltb (Reviewer f) (Reviewer h) = true.

Section words.
Context (words : Finding -> gset string) (Hwords : lists_words words).

Lemma words_tokenize f : words f = tokenize (Problem f).
Proof. apply set_eq. intros w. rewrite tokenize_words. apply Hwords. Qed.

Lemma gap_classify f h : f_sub f_one (classify (words f) (words h)).2 = gap words f h.
Proof.
  unfold gap, classify. f_equal. rewrite inter_count_size, size_union_inter.
  repeat case_decide; rewrite <- size_zero in *;
  destruct (Nat.eqb_spec (size (words f)) 0), (Nat.eqb_spec (size (words h)) 0); cbn [andb orb snd]; try done;
  by repeat destruct (_ <=? _).
Qed.

Lemma tokens_words x : x < n -> tokens cluster !!! x = words (cluster !!! x).
Proof. intros Hx. unfold tokens. by rewrite (list_lookup_total_fmap (fun f => tokenize (Problem f))), words_tokenize. Qed.

Lemma no_key i j : i < n -> same_key (replicate n "") i j = false.
Proof. intros Hi. unfold same_key. by rewrite lookup_total_replicate_2. Qed.

Lemma mergeable_plain i j : i <> j -> i < n -> j < n ->
  mergeable cluster (replicate n "") i j = true <-> duplicates words (cluster !!! i) (cluster !!! j).
Proof.
  intros Hne Hi Hj. unfold mergeable. rewrite (no_key i j Hi), bool_decide_eq_true. unfold rel.
  rewrite sym_matrix_lookup by done. rewrite !tokens_words by done.
  destruct (Nat.ltb_spec i j); [|destruct (Nat.ltb_spec j i); [rewrite classify_sym|lia]]; apply classify_thresholds.
Qed.

Lemma dist_gap i j : i <> j -> i < n -> j < n -> dist cluster (replicate n "") !!! i !!! j = gap words (cluster !!! i) (cluster !!! j).
Proof.
  intros Hne Hi Hj. unfold dist. rewrite sym_matrix_lookup by done. rewrite (no_key i j Hi), (no_key j i Hj), !tokens_words by done.
  rewrite <- gap_classify.
  destruct (Nat.ltb_spec i j); [done|]. destruct (Nat.ltb_spec j i); [by rewrite classify_sym|lia].
Qed.

Section named.
Context (Hnamed : forall f, f ∈ cluster -> Reviewer f <> "") (Hnd : NoDup (Reviewer <$> cluster)).

Lemma named_index i j : i < n -> j < n -> Reviewer (cluster !!! i) = Reviewer (cluster !!! j) -> i = j.
Proof.
  intros Hi Hj E. apply (NoDup_lookup _ i j (Reviewer (cluster !!! i)) Hnd); rewrite list_lookup_fmap.
  - by rewrite (list_lookup_lookup_total_lt _ _ Hi).
  - rewrite (list_lookup_lookup_total_lt _ _ Hj). cbn. by rewrite E.
Qed.

Lemma named_key i : i < n -> srcKeys cluster !!! i = nul +:+ "src" +:+ nul +:+ Reviewer (cluster !!! i).
Proof.
  intros Hi. rewrite srcKeys_lookup by done. unfold srcKey.
  by rewrite (proj2 (String.eqb_neq _ _)) by by apply Hnamed, list_elem_of_lookup_total_2.
Qed.

Lemma named_keys_NoDup : NoDup (srcKeys cluster).
Proof.
  apply NoDup_alt. intros i j k Hi Hj.
  assert (length (srcKeys cluster) = n) as Hl by apply length_imap.
  pose proof (lookup_lt_Some _ _ _ Hi). pose proof (lookup_lt_Some _ _ _ Hj).
  apply list_lookup_total_correct in Hi, Hj. rewrite named_key in Hi, Hj by lia. subst k.
  apply named_index; [lia|lia|]. cbn in Hj. by injection Hj.
Qed.

Lemma named_before i j : i < n -> j < n ->
  str_ltb (srcKeys cluster !!! i) (srcKeys cluster !!! j) = true <-> earlier (cluster !!! i) (cluster !!! j).
Proof. intros Hi Hj. by rewrite !named_key by done. Qed.

(** The output groups show which findings the matching put together. *)
Lemma grouped_mates groups p i j : mjoin groups ≡ₚ seq 0 n -> plan_ok cluster (replicate n "") ∅ groups p ->
  i < n -> j < n -> i <> j -> grouped (materialize cluster p).1 (cluster !!! i) (cluster !!! j) <-> mates groups i j.
Proof.
  intros Hpart Hok Hi Hj Hne. unfold grouped, materialize. cbn [fst]. split.
  - intros (g & (idxs & -> & [_ Hidx]%list_elem_of_filter)%list_elem_of_fmap & Hfi & Hfj).
    assert (forall x, x < n -> cluster !!! x ∈ (fun i => cluster !!! i) <$> idxs -> x ∈ idxs) as Hin.
    { intros x Hx (y & Hy & Hyi)%list_elem_of_fmap. enough (x = y) as -> by done. apply named_index; [done| |by rewrite Hy].
      assert (y ∈ seq 0 n) as Hs by (rewrite <- (po_partition _ _ _ _ _ Hok); apply elem_of_mjoin; eauto).
      apply elem_of_seq in Hs. lia. }
    apply (together_groups (replicate n "") groups p i j Hpart Hok Hi Hj). exists idxs. auto.
  - intros (g & Hg & Hgi & Hgj). apply list_elem_of_lookup in Hg as [gi Hg].
    assert (together p i j) as (idxs & Hidx & H1 & H2).
    { apply (po_together _ _ _ _ _ Hok i j Hi Hj). rewrite !(groupOf_spec cluster groups Hpart gi g) by done. apply rtc_refl. }
    exists ((fun i => cluster !!! i) <$> idxs). split; [|split; by apply (list_elem_of_fmap_2 (fun i => cluster !!! i))].
    apply list_elem_of_fmap. exists idxs. split; [done|]. apply list_elem_of_filter. split; [|done].
    apply not_true_iff_false. rewrite isolated_spec. intros (x & -> & _).
    apply list_elem_of_singleton in H1, H2. congruence.
Qed.

Lemma named_groups groups p : dedupe_input cluster (replicate n "") ->
  bipartiteGroups (dist cluster (replicate n "")) (mergeable cluster (replicate n "")) (srcKeys cluster) = Some groups ->
  mjoin groups ≡ₚ seq 0 n -> plan_ok cluster (replicate n "") ∅ groups p ->
  let out := (materialize cluster p).1 in
  forall f h, f ∈ cluster -> h ∈ cluster -> earlier f h -> f_lt (gap words f h) f_one = true ->
  (forall k, k ∈ cluster -> earlier k h -> k <> f -> f_lt (gap words f h) (gap words k h) = true) ->
  grouped out f h <-> forall k, k ∈ cluster -> earlier k h -> k = f \/ grouped out f k -> duplicates words k h.
Proof.
  intros Hin Hb Hpart Hok out f h Hf Hh Hfh H1 Hn.
  apply list_elem_of_lookup_total in Hf as (i & Hi & <-), Hh as (c & Hc & <-).
  assert (forall x, earlier (cluster !!! x) (cluster !!! c) -> x <> c) as Hxc by (intros x Hx ->; unfold earlier in Hx; by rewrite str_ltb_irrefl in Hx).
  assert (length (srcKeys cluster) = n) as Hl by apply length_imap.
  pose proof (bipartiteGroups_nearest f_lt_asym _ _ (srcKeys cluster) groups named_keys_NoDup Hb) as Hnear. cbv zeta in Hnear. rewrite Hl in Hnear.
  specialize (Hnear i c Hc). rewrite named_before, dist_gap in Hnear by auto.
  unfold out. rewrite (grouped_mates groups p i c) by auto. rewrite Hnear; [|done|done|].
  - split.
    + intros Hall k Hk Hkc Hik. apply list_elem_of_lookup_total in Hk as (x & Hx & <-).
      apply mergeable_plain; [by apply Hxc|done|done|]. apply Hall; [split; [done|by apply named_before]|].
      destruct (decide (x = i)) as [->|Hne].
      * apply mates_self. rewrite Hpart. apply elem_of_seq. lia.
      * destruct Hik as [E|Hg]; [destruct Hne; by apply named_index; [..|by rewrite E]|by apply (grouped_mates groups p i x); auto].
    + intros Hall x [Hx Hxlt] Hm. apply named_before in Hxlt; [|done|done]. apply mergeable_plain; [by apply Hxc|done|done|].
      apply Hall; [by apply list_elem_of_lookup_total_2|done|]. destruct (decide (x = i)) as [->|Hne]; [by left|right].
      by apply (grouped_mates groups p i x); auto.
  - intros x [Hx Hxlt] Hne. apply named_before in Hxlt; [|done|done]. rewrite dist_gap by auto.
    apply Hn; [by apply list_elem_of_lookup_total_2|done|]. intros E. apply Hne. apply named_index; [done|done|by rewrite E].
Qed.
End named.

(** Any two members of an output group are duplicates from two sources. *)
Lemma groups_sound groups p : dedupe_input cluster (replicate n "") -> mjoin groups ≡ₚ seq 0 n ->
  plan_ok cluster (replicate n "") ∅ groups p ->
  Forall (fun g => one_per_source (srcKeys cluster) g /\ complete_linkage (mergeable cluster (replicate n "")) g) groups ->
  forall g a b f h, g ∈ (materialize cluster p).1 -> g !! a = Some f -> g !! b = Some h -> a <> b ->
    duplicates words f h /\ (Reviewer f = Reviewer h -> Reviewer f = "").
Proof.
  intros Hin Hpart Hok Hlink g a b f h Hg Ha Hb Hab.
  apply list_elem_of_fmap in Hg as (idxs & -> & [_ Hidx]%list_elem_of_filter).
  rewrite list_lookup_fmap in Ha, Hb.
  destruct (idxs !! a) as [i|] eqn:Ei; [|done]. destruct (idxs !! b) as [j|] eqn:Ej; [|done].
  injection Ha as <-. injection Hb as <-.
  pose proof (po_sorted _ _ _ _ _ Hok) as Hs. rewrite Forall_forall in Hs.
  destruct (Hs idxs Hidx) as [_ Hsort]. apply StronglySorted_lt_NoDup in Hsort.
  assert (i <> j) as Hij by (intros ->; apply Hab; by eapply NoDup_lookup).
  assert (forall x, x ∈ idxs -> x < n) as Hlt.
  { intros x Hx. assert (x ∈ seq 0 n) as Hin'.
    { rewrite <- (po_partition _ _ _ _ _ Hok). apply elem_of_mjoin. eauto. }
    apply elem_of_seq in Hin'. lia. }
  apply list_elem_of_lookup_2 in Ei, Ej. pose proof (Hlt i Ei) as Hi. pose proof (Hlt j Ej) as Hj.
  destruct (together_groups _ groups p i j Hpart Hok Hi Hj) as (g & Hg & Hig & Hjg); [by exists idxs|].
  destruct (group_members _ groups g i j Hlink Hg Hig Hjg Hij Hi Hj) as [Hm Hr].
  split; [by apply mergeable_plain|exact Hr].
Qed.
End words.
End merge_groups.

(** C3. What [DedupeCluster] merges. The output groups and the findings isolated in the sidecar
    are together the cluster. With [words] the maximal runs of letters and digits of the
    lower-cased PROBLEM: any two findings of one group are duplicates (their words
    overlap by at least seven tenths, or both have none), every two and not just
    neighbours in a chain, and come from different named reviewers. In a cluster of one
    finding per named reviewer, a finding is grouped with the one that is strictly nearest
    to it (by float64 word distance, below the ceiling) among those of the reviewers sorted
    before its own, exactly when it is a duplicate of that one and of everything of those
    reviewers already grouped with it. For clusters of at most 500 findings within
    [dedupe_input]: at most 25 of them, or one per source. *)
Theorem DedupeCluster_groups {U : UnicodeCase} (words : Finding -> gset string) (cluster : list Finding) :
  lists_words words -> length cluster <= 500 -> dedupe_input cluster (replicate (length cluster) "") ->
  exists out gray noise, DedupeCluster cluster = Some (out, gray ++ (singletonAmbiguousCluster <$> noise)) /\
    mjoin out ++ noise ≡ₚ cluster /\
    (forall g a b f h, g ∈ out -> g !! a = Some f -> g !! b = Some h -> a <> b ->
       duplicates words f h /\ (Reviewer f = Reviewer h -> Reviewer f = "")) /\
    ((forall f, f ∈ cluster -> Reviewer f <> "") -> NoDup (Reviewer <$> cluster) ->
     forall f h, f ∈ cluster -> h ∈ cluster -> earlier f h -> f_lt (gap words f h) f_one = true ->
     (forall k, k ∈ cluster -> earlier k h -> k <> f -> f_lt (gap words f h) (gap words k h) = true) ->
     grouped out f h <-> forall k, k ∈ cluster -> earlier k h -> k = f \/ grouped out f k -> duplicates words k h).
Proof.
  intros Hw Hn Hin. destruct (dedupeCluster_ok cluster _ ∅ (or_introl Hin)) as (out & gray & noise & E & Hc & _).
  exists out, gray, noise. split; [done|]. split; [done|]. destruct (decide (length cluster = 0)) as [Hz|Hz].
  { apply nil_length_inv in Hz. subst cluster. apply Permutation_nil_r in Hc. apply app_nil in Hc as [Ho _]. split.
    - intros g a b f h Hg Ha. exfalso. apply (not_elem_of_nil f). rewrite <- Ho. apply elem_of_mjoin. exists g.
      split; [done|by eapply list_elem_of_lookup_2].
    - by intros _ _ f h ?%elem_of_nil. }
  destruct (plan_exists cluster _ ∅ Hin) as (groups & p & Hb & Hp & Hok & Hpart & Hlink).
  rewrite (dedupeCluster_plan _ _ _ p (proj1 Hin) Hz Hn Hp) in E. apply (inj Some) in E.
  assert (out = (materialize cluster p).1) as -> by (by rewrite E).
  split; [by eapply groups_sound|]. intros Hnamed Hnd. by apply (named_groups cluster words Hw Hnamed Hnd groups).
Qed.

#[local] Existing Instance ascii_case.

(** Three reviewers of one cluster: the first two report one problem, the third another. *)
Definition named_cluster : list Finding :=
  [sample "a" "nil pointer dereference in handler"; sample "b" "nil pointer dereference in the handler";
   sample "c" "totally other thing"].

Lemma named_input : dedupe_input named_cluster (replicate 3 "").
Proof. split; [done|]. split; [repeat constructor; by vm_compute|left; unfold solver_rows; simpl; lia]. Qed.

Definition named_words (f : Finding) : gset string := tokenize (Problem f).

Lemma DedupeCluster_groups_witness :
  lists_words named_words /\
  length named_cluster <= 500 /\ dedupe_input named_cluster (replicate 3 "") /\
  (forall f, f ∈ named_cluster -> Reviewer f <> "") /\ NoDup (Reviewer <$> named_cluster) /\
  exists out gray noise, DedupeCluster named_cluster = Some (out, gray ++ (singletonAmbiguousCluster <$> noise)) /\
    mjoin out ++ noise ≡ₚ named_cluster /\
    (forall h, h ∈ named_cluster -> earlier (named_cluster !!! 0) h -> f_lt (gap named_words (named_cluster !!! 0) h) f_one = true ->
     (forall k, k ∈ named_cluster -> earlier k h -> k <> named_cluster !!! 0 -> f_lt (gap named_words (named_cluster !!! 0) h) (gap named_words k h) = true) ->
     grouped out (named_cluster !!! 0) h <->
     forall k, k ∈ named_cluster -> earlier k h -> k = named_cluster !!! 0 \/ grouped out (named_cluster !!! 0) k -> duplicates named_words k h).
Proof.
  assert (length named_cluster <= 500) as Hl by (simpl; lia).
  assert (forall f, f ∈ named_cluster -> Reviewer f <> "") as Hr.
  { intros f Hf. assert (Forall (fun f => Reviewer f <> "") named_cluster) as Ha by (by repeat constructor).
    rewrite Forall_forall in Ha. by apply Ha. }
  assert (NoDup (Reviewer <$> named_cluster)) as Hnd by (by apply (bool_decide_unpack _); vm_compute).
  assert (lists_words named_words) as Hw by (intros f w; apply tokenize_words).
  split; [exact Hw|]. split; [exact Hl|]. split; [exact named_input|]. split; [exact Hr|]. split; [exact Hnd|].
  destruct (DedupeCluster_groups named_words named_cluster Hw Hl named_input) as (out & gray & noise & H1 & H2 & _ & H3).
  exists out, gray, noise. split; [exact H1|]. split; [exact H2|]. intros h.
  apply (H3 Hr Hnd (named_cluster !!! 0) h). left.
Defined.

(** The sidecar and the output agree. With [groups] the bipartite groups: two
    findings end in one output group exactly when adjudicated gray pairs link their
    groups; the gray entries are exactly the gray pairs (different groups, no shared
    AST key, similarity in the gray band) the output keeps apart. So no entry
    contradicts the output and no adjudicated pair is recorded again. *)
Theorem dedupe_sidecar_exact {U : UnicodeCase} cluster keys adjudicatedMerges :
  dedupe_input cluster keys ->
  exists groups p,
    bipartiteGroups (dist cluster keys) (mergeable cluster keys) (srcKeys cluster) = Some groups /\
    plan cluster keys adjudicatedMerges = Some p /\
    (forall i j, i < length cluster -> j < length cluster ->
       together p i j <->
       rtsc (adj_edge cluster keys adjudicatedMerges groups (index_pairs (length cluster)))
         (groupOf cluster groups !!! i) (groupOf cluster groups !!! j)) /\
    (forall e, e ∈ dp_gray p <-> exists i j, i < j < length cluster /\
       gray_pair cluster keys groups i j /\ ~ together p i j /\ e = pair_entry cluster groups i j) /\
    (forall e, e ∈ dp_gray p -> ID (ge_amb e) ∉ adjudicatedMerges).
Proof.
  intros Hin. destruct (plan_exists cluster keys adjudicatedMerges Hin) as (groups & p & Hb & Hp & Hok & _).
  exists groups, p. split; [done|]. split; [done|]. split; [apply Hok|]. split; [apply Hok|].
  intros e (i & j & Hij & Hg & Hno & ->)%(po_gray _ _ _ _ _ Hok) Hid. apply Hno.
  apply (po_together _ _ _ _ _ Hok); [lia|lia|]. apply rtc_once. left. exists i, j.
  split; [by apply elem_of_index_pairs|]. done.
Qed.

Definition sample_id : string := pair_id sample_cluster 0 3.

Lemma dedupe_sidecar_exact_witness :
  (fun p => (dp_roots p, ge_idx <$> dp_gray p, dp_noise p)) <$>
    plan sample_cluster (replicate 4 "") {[ sample_id ]} = Some ([[0; 1; 3]; [2]], [], [2]) /\
  exists groups p,
    bipartiteGroups (dist sample_cluster (replicate 4 "")) (mergeable sample_cluster (replicate 4 ""))
      (srcKeys sample_cluster) = Some groups /\
    plan sample_cluster (replicate 4 "") {[ sample_id ]} = Some p /\
    (forall i j, i < length sample_cluster -> j < length sample_cluster ->
       together p i j <->
       rtsc (adj_edge sample_cluster (replicate 4 "") {[ sample_id ]} groups (index_pairs (length sample_cluster)))
         (groupOf sample_cluster groups !!! i) (groupOf sample_cluster groups !!! j)) /\
    (forall e, e ∈ dp_gray p <-> exists i j, i < j < length sample_cluster /\
       gray_pair sample_cluster (replicate 4 "") groups i j /\ ~ together p i j /\
       e = pair_entry sample_cluster groups i j) /\
    (forall e, e ∈ dp_gray p -> ID (ge_amb e) ∉ ({[ sample_id ]} : gset string)).
Proof.
  split; [by vm_compute|].
  apply (dedupe_sidecar_exact sample_cluster (replicate 4 "") {[ sample_id ]} sample_plain_input).
Defined.

(** DBSCAN isolation: a finding goes to the sidecar as noise exactly when two
    other-source duplicates exist in its location, it has none itself, it is the
    only member of its output group, and no surviving gray pair shows it — so no
    finding is represented twice. *)
Theorem dedupe_noise_exact {U : UnicodeCase} cluster keys adjudicatedMerges :
  dedupe_input cluster keys ->
  exists p, plan cluster keys adjudicatedMerges = Some p /\
    forall i, i ∈ dp_noise p <->
      i < length cluster /\ (exists a b, dense_pair cluster keys a b) /\
      (forall b, ~ dense_pair cluster keys i b) /\ [i] ∈ dp_roots p /\ ~ in_gray p i.
Proof.
  intros Hin. destruct (plan_exists cluster keys adjudicatedMerges Hin) as (groups & p & _ & Hp & Hok & _).
  exists p. split; [done|]. apply Hok.
Qed.

Lemma dedupe_noise_exact_witness :
  dedupe_input sample_cluster (replicate 4 "") /\
  exists p, plan sample_cluster (replicate 4 "") ∅ = Some p /\
    forall i, i ∈ dp_noise p <->
      i < length sample_cluster /\ (exists a b, dense_pair sample_cluster (replicate 4 "") a b) /\
      (forall b, ~ dense_pair sample_cluster (replicate 4 "") i b) /\ [i] ∈ dp_roots p /\ ~ in_gray p i.
Proof. split; [exact sample_plain_input|]. apply (dedupe_noise_exact sample_cluster _ ∅ sample_plain_input). Defined.

(** The distance matrix [dedupeCluster] fills inline is [pairDistance] of
    distance.go on every pair. *)
Theorem dedupe_dist_pairDistance {U : UnicodeCase} cluster keys i j :
  i <> j -> i < length cluster -> j < length cluster ->
  dist cluster keys !!! i !!! j =
    pairDistance (keys !!! i) (keys !!! j)
      (tokenize (Problem (cluster !!! i))) (tokenize (Problem (cluster !!! j))).
Proof.
  intros Hne Hi Hj. unfold dist. rewrite sym_matrix_lookup by done.
  assert (forall x, x < length cluster -> tokens cluster !!! x = tokenize (Problem (cluster !!! x))) as Ht.
  { intros x Hx. unfold tokens. by rewrite (list_lookup_total_fmap (fun f => tokenize (Problem f))). }
  rewrite !Ht by done. unfold pairDistance. fold (same_key keys i j).
  destruct (Nat.ltb_spec i j); [|destruct (Nat.ltb_spec j i); [|lia]].
  - destruct (same_key keys i j); [done|]. by destruct (classify _ _).
  - rewrite same_key_sym, classify_sym. destruct (same_key keys i j); [done|]. by destruct (classify _ _).
Qed.

Lemma dedupe_dist_pairDistance_witness :
  0 <> 3 /\ dist sample_cluster ["k"; ""; ""; "k"] !!! 0 !!! 3 =
    pairDistance (["k"; ""; ""; "k"] !!! 0) (["k"; ""; ""; "k"] !!! 3)
      (tokenize (Problem (sample_cluster !!! 0))) (tokenize (Problem (sample_cluster !!! 3))).
Proof. split; [done|]. apply (dedupe_dist_pairDistance sample_cluster); simpl; lia. Defined.
