(* ===== verification/Merge.v ===== *)
(** * Merging a group of duplicates

    src/reconcile/merge.go and panelwide.go: [Merge] collapses a merge group into
    one reconciled finding, and the panel-wide-instruction test that discounts
    agreement which is not independent. [None] is an index panic. *)

From Stdlib Require Import Ascii String.
From stdpp Require Import prelude strings gmap list sorting.
From Stdlib Require Import ZArith Lia.
From S2P Require Import Prelude GoString GoSort Finding Similarity.

Open Scope string_scope.
Open Scope list_scope.

(** ** Records *)

(** [SourceQuote]: one source finding as the independence test sees it. *)
Record SourceQuote := mkSourceQuote {
  sq_Reviewer : string;
  sq_File : string;
  sq_Category : string;
  sq_Evidence : string;
}.

(** [SourceCategory]: one source finding's own category. *)
Record SourceCategory := mkSourceCategory {
  sc_Reviewer : string;
  sc_Category : string;
}.

(** [Merged]: the reconciled finding and its in-process provenance. *)
Record Merged := mkMerged {
  m_Finding : Finding;
  SourceCategories : list SourceCategory;
  ConfidenceDiscount : string;
  SourceQuotes : list SourceQuote;
}.

(** The zero value of the struct. *)
Definition zero_Merged : Merged := mkMerged inhabitant [] "" [].

(** [math.MaxInt] on a 64-bit platform. *)
Definition MaxInt : Z := 2 ^ 63 - 1.

Section merge.
Context {U : UnicodeCase}.

(** ** The building blocks *)

(** [strings.ReplaceAll(name, ",", "")] *)
Definition strip_commas (name : string) : string := ReplaceAll name "," "".

Definition distinctReviewers (group : list Finding) : list string :=
  let set : gset string := foldl (fun set f =>
      let r := strip_commas (Reviewer f) in if negb (r =? "") then {[r]} ∪ set else set) ∅ group in
  sort_strings (elements set).

Definition sourceQuotes (group : list Finding) : list SourceQuote :=
  (fun f => mkSourceQuote (strip_commas (Reviewer f)) (File f) (ToLower (TrimSpace (Category f))) (Evidence f)) <$> group.

Definition sourceCategories (group : list Finding) : list SourceCategory :=
  (fun f => mkSourceCategory (strip_commas (Reviewer f)) (ToLower (TrimSpace (Category f)))) <$> group.

(** The locals of the [MergeSeverity] loop. *)
Record sev_state := mkSev {
  seen : gset string;
  maxRank : Z;
  minRank : Z;
  maxSev : string;
  minSev : string;
}.

Definition sev_step (s : sev_state) (f : Finding) : sev_state :=
  let norm := NormalizeSeverity (Severity f) in
  match SeverityRank !! norm with
  | None => s
  | Some rank =>
      let s := mkSev ({[norm]} ∪ seen s) (maxRank s) (minRank s) (maxSev s) (minSev s) in
      let s := if (maxRank s <? rank)%Z then mkSev (seen s) rank (minRank s) norm (minSev s) else s in
      if (rank <? minRank s)%Z then mkSev (seen s) (maxRank s) rank (maxSev s) norm else s
  end.

Definition MergeSeverity (group : list Finding) : option (string * string) :=
  let s := foldl sev_step (mkSev ∅ (-1) MaxInt "" "") group in
  max ← (if maxSev s =? "" then f ← head group; Some (NormalizeSeverity (Severity f)) else Some (maxSev s));
  Some (max, if (1 <? size (seen s))%nat then minSev s +:+ " vs " +:+ max else "").

Definition LongestField (group : list Finding) (sel : Finding -> string) : string :=
  foldl (fun best f => let v := sel f in
    if (String.length best <? String.length v)%nat then v else best) "" group.

(** The loop that counts the canonical categories. *)
Definition count_categories (group : list Finding) : gmap string Z * bool :=
  foldl (fun '(counts, allOutOfScope) f =>
      let cat := ToLower (TrimSpace (Category f)) in
      (<[cat := (index0 counts cat + 1)%Z]> counts,
       if negb (cat =? CategoryOutOfScope) then false else allOutOfScope))
    (∅, true) group.

Definition modal_step (counts : gmap string Z) (st : string * Z) (cat : string) : string * Z :=
  let '(best, bestCount) := st in
  let c := index0 counts cat in
  if (bestCount <? c)%Z then (cat, c)
  else if (c =? bestCount)%Z && (best =? "") && negb (cat =? "") then (cat, bestCount)
  else st.

Definition ModalCategory (group : list Finding) : string :=
  let '(counts, allOutOfScope) := count_categories group in
  if allOutOfScope then CategoryOutOfScope
  else
    let counts := delete CategoryOutOfScope counts in
    let cats := sort_strings (map_to_list counts).*1 in
    (foldl (modal_step counts) ("", (-1)%Z) cats).1.

Definition MaxEstMinutes (group : list Finding) : Z :=
  match group with
  | [] => 0
  | f :: _ => foldl (fun max f => if (max <? EstMinutes f)%Z then EstMinutes f else max) (EstMinutes f) group
  end.

Definition evidence_part (f : Finding) : string :=
  if negb (Reviewer f =? "") then "[" +:+ Reviewer f +:+ "] " +:+ Evidence f else Evidence f.

Definition mergeEvidence (group : list Finding) : string :=
  match group with
  | [f] => Evidence f
  | _ => Join (foldl (fun parts f => if Evidence f =? "" then parts else parts ++ [evidence_part f]) [] group) " / "
  end.

(** ** panelwide.go *)

Definition PanelWideReason : string :=
  "panel-wide instruction: invariant finding, one file, near-identical evidence".

Definition quote_finding (q : SourceQuote) : Finding :=
  mkFinding "" (sq_File q) 0 "" "" (sq_Category q) 0 (sq_Evidence q) (sq_Reviewer q) [] "" "" None.

(** The loop that checks the files and tokenizes the evidence. *)
Fixpoint quote_tokens (file : string) (group : list Finding) : option (list (gset string)) :=
  match group with
  | [] => Some []
  | f :: group' =>
      if negb (TrimSpace (File f) =? file) then None
      else
        let t := tokenize (Evidence f) in
        if (size t =? 0)%nat then None else ts ← quote_tokens file group'; Some (t :: ts)
  end.

(** Every pair of the nested loop classifies as a merge. *)
Fixpoint all_merge (toks : list (gset string)) : bool :=
  match toks with
  | [] => true
  | t :: toks' => forallb (fun t' => bool_decide ((classify t t').1 = relMerge)) toks' && all_merge toks'
  end.

Definition IsPanelWideQuotes (quotes : list SourceQuote) : bool :=
  let group := quote_finding <$> quotes in
  if (length (distinctReviewers group) <? 2)%nat then false
  else if negb (ModalCategory group =? CategoryInvariant) then false
  else
    match quote_tokens (TrimSpace (File (group !!! 0))) group with
    | None => false
    | Some toks => all_merge toks
    end.

Definition IsPanelWide (group : list Finding) : bool := IsPanelWideQuotes (sourceQuotes group).

(** ** Confidence *)

Definition ConfidenceFor (reviewerCount : nat) : string :=
  if (2 <=? reviewerCount)%nat then ConfHigh else ConfMedium.

Definition DiscountedConfidence (reviewerCount : nat) (category : string) (independent : bool) : string * string :=
  if (2 <=? reviewerCount)%nat && negb independent && (ToLower (TrimSpace category) =? CategoryInvariant)
  then (ConfMedium, PanelWideReason)
  else (ConfidenceFor reviewerCount, "").

Definition ConfidenceForCategory (reviewerCount : nat) (category : string) (independent : bool) : string :=
  (DiscountedConfidence reviewerCount category independent).1.

(** ** Merge *)

Definition Merge (group : list Finding) : option Merged :=
  match group with
  | [] => Some zero_Merged
  | first :: _ =>
      let reviewers := distinctReviewers group in
      '(maxSev, disagreement) ← MergeSeverity group;
      let category := ModalCategory group in
      let quotes := sourceQuotes group in
      let '(confidence, discount) :=
        DiscountedConfidence (length reviewers) category (negb (IsPanelWideQuotes quotes)) in
      let m := mkFinding maxSev (File first) (Line first) (LongestField group Problem) (LongestField group Fix)
                 category (MaxEstMinutes group) (mergeEvidence group) "" reviewers confidence disagreement None in
      Some (mkMerged m (sourceCategories group) discount quotes)
  end.
End merge.

(** ** Severity *)

Section severity.
Context {U : UnicodeCase}.

Abbreviation norm f := (NormalizeSeverity (Severity f)).

Lemma SeverityRank_cases s r :
  SeverityRank !! s = Some r ->
  (s = "CRITICAL" /\ r = 4 \/ s = "HIGH" /\ r = 3 \/ s = "MEDIUM" /\ r = 2 \/ s = "LOW" /\ r = 1)%Z.
Proof.
  unfold SeverityRank. intros H.
  repeat (apply lookup_insert_Some in H as [[<- <-]|[_ H]]; [by eauto 8|]).
  apply lookup_singleton_Some in H as [<- <-]. eauto 8.
Qed.

Lemma SeverityRank_inj s s' r : SeverityRank !! s = Some r -> SeverityRank !! s' = Some r -> s = s'.
Proof. intros H H'. apply SeverityRank_cases in H, H'. naive_solver lia. Qed.

(** The four severities in words, read in upper case without their padding; 0 is a text
    that is none of them. *)
Definition severity_level (s : string) : nat :=
  match ToUpper (TrimSpace s) with
  | "CRITICAL" => 4 | "HIGH" => 3 | "MEDIUM" => 2 | "LOW" => 1 | _ => 0
  end%nat.

Lemma severity_level_rank s :
  SeverityRank !! NormalizeSeverity s = if (1 <=? severity_level s)%nat then Some (Z.of_nat (severity_level s)) else None.
Proof.
  unfold severity_level, NormalizeSeverity. destruct (SeverityRank !! ToUpper (TrimSpace s)) as [r|] eqn:E.
  - by apply SeverityRank_cases in E as [[-> ->]|[[-> ->]|[[-> ->]|[-> ->]]]].
  - repeat case_match; try reflexivity; exfalso; vm_compute in E; discriminate.
Qed.

Lemma severity_level_index s : index0 SeverityRank (NormalizeSeverity s) = Z.of_nat (severity_level s).
Proof. unfold index0. rewrite severity_level_rank. by destruct (severity_level s). Qed.

(** The extremes of a nonempty set of known severities. *)
Definition extremes (s : sev_state) : Prop :=
  maxSev s ∈ seen s /\ SeverityRank !! maxSev s = Some (maxRank s) /\
  minSev s ∈ seen s /\ SeverityRank !! minSev s = Some (minRank s) /\
  forall x r, x ∈ seen s -> SeverityRank !! x = Some r -> (minRank s <= r <= maxRank s)%Z.

Record sev_inv (done : list Finding) (s : sev_state) : Prop := {
  sv_seen : forall x, x ∈ seen s <-> exists f, f ∈ done /\ norm f = x /\ is_Some (SeverityRank !! x);
  sv_ext : s = mkSev ∅ (-1) MaxInt "" "" \/ extremes s;
}.

Lemma sev_step_inv done f s : sev_inv done s -> sev_inv (done ++ [f]) (sev_step s f).
Proof.
  intros [Hseen Hext]. unfold sev_step.
  destruct (SeverityRank !! norm f) as [r|] eqn:Er.
  - pose proof (SeverityRank_cases _ _ Er) as Hr.
    set (s' := if (_ <? _)%Z then _ else _).
    assert (seen s' = {[norm f]} ∪ seen s) as Hs'.
    { unfold s'. by repeat destruct (_ <? _)%Z. }
    split.
    + intros x. rewrite Hs', elem_of_union, elem_of_singleton, Hseen. setoid_rewrite elem_of_app.
      setoid_rewrite list_elem_of_singleton. split.
      * intros [->|(h & ? & ?)]; [exists f; split_and!; eauto|exists h; tauto].
      * intros (h & [Hh| ->] & <- & ?); [right; eauto|by left].
    + right. unfold extremes. rewrite Hs'. unfold s'. clear s' Hs'. destruct Hext as [->|(H1 & H2 & H3 & H4 & H5)].
      * simpl. rewrite (proj2 (Z.ltb_lt (-1) r)) by lia. simpl.
        rewrite (proj2 (Z.ltb_lt r MaxInt)) by (unfold MaxInt; lia). simpl.
        split_and!; [set_solver|done|set_solver|done|]. intros x r' Hx Hxr.
        assert (x = norm f) by set_solver. subst x. rewrite Er in Hxr. injection Hxr as <-. lia.
      * assert (forall x r', x ∈ {[norm f]} ∪ seen s -> SeverityRank !! x = Some r' ->
          r' = r \/ (minRank s <= r' <= maxRank s)%Z) as Hall.
        { intros x r' Hx Hxr. apply elem_of_union in Hx as [->%elem_of_singleton|Hx]; [left; congruence|].
          right. by apply (H5 x). }
        pose proof (H5 _ _ H1 H2). cbn [maxRank seen minRank maxSev minSev].
        destruct (Z.ltb_spec (maxRank s) r); cbn [maxRank seen minRank maxSev minSev];
          destruct (Z.ltb_spec r (minRank s)); cbn [maxRank seen minRank maxSev minSev];
          (split_and!; [set_solver|done|set_solver|done|]); intros x r' Hx Hxr;
          destruct (Hall x r' Hx Hxr); lia.
  - split; [|done]. intros x. rewrite Hseen. setoid_rewrite elem_of_app.
    setoid_rewrite list_elem_of_singleton. split; [intros (h & ? & ?); exists h; tauto|].
    intros (h & [Hh| ->] & <- & [? ?]); [eauto|congruence].
Qed.

Lemma sev_fold group : sev_inv group (foldl sev_step (mkSev ∅ (-1) MaxInt "" "") group).
Proof.
  apply (foldl_invariant sev_inv).
  - split; [|by left]. intros x. split; [by intros ?%not_elem_of_empty|by intros (? & ?%elem_of_nil & _)].
  - intros done f todo s _. apply sev_step_inv.
Qed.

Lemma size_distinct (X : gset string) x y : x ∈ X -> y ∈ X -> x <> y -> (1 < size X)%nat.
Proof.
  intros Hx Hy Hne. pose proof (subseteq_size (C := gset string) {[x; y]} X ltac:(set_solver)) as Hs.
  rewrite size_union, !size_singleton in Hs by set_solver. lia.
Qed.

Lemma size_one_eq (X : gset string) x y : ~ (1 < size X)%nat -> x ∈ X -> y ∈ X -> x = y.
Proof. intros Hs Hx Hy. destruct (decide (x = y)); [done|]. destruct Hs. by apply (size_distinct X x y). Qed.

(** What [MergeSeverity] answers. *)
Definition severity_answer (group : list Finding) (max dis : string) : Prop :=
  ((forall f, f ∈ group -> SeverityRank !! norm f = None) /\
      (exists f, head group = Some f /\ max = norm f) /\ dis = "") \/
     (exists rmax lo rlo,
        (exists f, f ∈ group /\ norm f = max) /\ SeverityRank !! max = Some rmax /\
        (exists f, f ∈ group /\ norm f = lo) /\ SeverityRank !! lo = Some rlo /\
        (forall f r, f ∈ group -> SeverityRank !! norm f = Some r -> (rlo <= r <= rmax)%Z) /\
        dis = if decide (lo = max) then "" else lo +:+ " vs " +:+ max).

Lemma MergeSeverity_answer (group : list Finding) :
  group <> [] -> exists max dis, MergeSeverity group = Some (max, dis) /\ severity_answer group max dis.
Proof.
  intros Hne. unfold MergeSeverity, severity_answer. destruct (sev_fold group) as [Hseen [Heq|(H1 & H2 & H3 & H4 & H5)]].
  - rewrite Heq in *. simpl in *. destruct group as [|f0 group]; [done|]. simpl.
    eexists _, _. split; [done|]. left. split; [|split; [by exists f0|done]].
    intros f Hf. destruct (SeverityRank !! norm f) eqn:E; [|done].
    exfalso. apply (not_elem_of_empty (C := gset string) (norm f)). apply Hseen. exists f. rewrite E. eauto.
  - set (s := foldl _ _ _) in *.
    assert ((maxSev s =? "") = false) as ->.
    { apply String.eqb_neq. intros E. rewrite E in H2. by apply SeverityRank_cases in H2 as [[? _]|[[? _]|[[? _]|[? _]]]]. }
    simpl. eexists _, _. split; [done|]. right. exists (maxRank s), (minSev s), (minRank s).
    apply Hseen in H1 as Hx. destruct Hx as (f1 & Hf1 & Hn1 & _).
    apply Hseen in H3 as Hx. destruct Hx as (f2 & Hf2 & Hn2 & _).
    split_and!; [by exists f1|done|by exists f2|done| |].
    + intros f r Hf Hr. apply (H5 (norm f)); [|done]. apply Hseen. exists f. rewrite Hr. eauto.
    + case_decide as Hd.
      * assert (~ (1 < size (seen s))%nat) as Hs; [|by rewrite (proj2 (Nat.ltb_ge _ _)) by lia].
        intros Hs. rewrite Hd in H4. rewrite H2 in H4. injection H4 as Hmm.
        assert (seen s ⊆ {[maxSev s]}) as Hsub.
        { intros x Hx. apply elem_of_singleton. pose proof Hx as Hx'. apply Hseen in Hx' as (_ & _ & _ & [r Hr]).
          pose proof (H5 x r Hx Hr). apply (SeverityRank_inj _ _ (maxRank s)); [|done]. rewrite Hr. f_equal. lia. }
        apply subseteq_size in Hsub. rewrite size_singleton in Hsub. lia.
      * by rewrite (proj2 (Nat.ltb_lt _ _)) by (by apply (size_distinct _ (minSev s) (maxSev s))).
Qed.
Lemma MergeSeverity_total (group : list Finding) :
  group <> [] -> exists max dis, MergeSeverity group = Some (max, dis).
Proof. intros Hg. destruct (MergeSeverity_answer group Hg) as (max & dis & ? & _). eauto. Qed.

(** [MergeSeverity] on a non-empty group never panics. With a known severity
    present, the result is the highest one (case- and space-insensitively), and the
    disagreement is empty when the known severities agree, else "lo vs max" with
    the lowest of them. With none, the first finding's text is kept and there is no
    disagreement. *)
Theorem MergeSeverity_spec (group : list Finding) :
  group <> [] ->
  exists max dis, MergeSeverity group = Some (max, dis) /\
    (((forall f, f ∈ group -> SeverityRank !! norm f = None) /\
      (exists f, head group = Some f /\ max = norm f) /\ dis = "") \/
     (exists rmax lo rlo,
        (exists f, f ∈ group /\ norm f = max) /\ SeverityRank !! max = Some rmax /\
        (exists f, f ∈ group /\ norm f = lo) /\ SeverityRank !! lo = Some rlo /\
        (forall f r, f ∈ group -> SeverityRank !! norm f = Some r -> (rlo <= r <= rmax)%Z) /\
        dis = if decide (lo = max) then "" else lo +:+ " vs " +:+ max)).
Proof. exact (MergeSeverity_answer group). Qed.
End severity.

(** ** Categories *)

Section category.
Context {U : UnicodeCase}.

Abbreviation cat f := (ToLower (TrimSpace (Category f))).

(** How many findings of the group carry the category. *)
Definition votes (group : list Finding) (c : string) : Z :=
  Z.of_nat (length (filter (fun f => cat f = c) group)).

Lemma count_categories_spec group :
  (forall c, index0 (count_categories group).1 c = votes group c) /\
  (forall c, is_Some ((count_categories group).1 !! c) <-> exists f, f ∈ group /\ cat f = c) /\
  ((count_categories group).2 = true <-> Forall (fun f => cat f = CategoryOutOfScope) group).
Proof.
  unfold count_categories. apply (foldl_invariant (fun xs (st : gmap string Z * bool) =>
    (forall c, index0 st.1 c = votes xs c) /\
    (forall c, is_Some (st.1 !! c) <-> exists f, f ∈ xs /\ cat f = c) /\
    (st.2 = true <-> Forall (fun f => cat f = CategoryOutOfScope) xs))).
  - split_and!; simpl.
    + done.
    + intros c. rewrite lookup_empty. split; [by intros [? ?]|by intros (? & ?%elem_of_nil & _)].
    + split; [by constructor|done].
  - intros xs f todo [m b] _ (Hc & Hd & Hb). simpl in *. split_and!.
    + intros c. unfold votes. rewrite filter_app, length_app, filter_cons. specialize (Hc c). unfold index0 in *.
      destruct (decide (cat f = c)) as [<-|Hne].
      * rewrite lookup_insert_eq. simpl. rewrite Hc. unfold votes. lia.
      * rewrite lookup_insert_ne by done. 
        unfold votes in Hc. rewrite Hc. rewrite filter_nil. simpl. lia.
    + intros c. setoid_rewrite elem_of_app. setoid_rewrite list_elem_of_singleton.
      destruct (decide (cat f = c)) as [<-|Hne].
      * rewrite lookup_insert_eq. split; [intros _; exists f; auto|by eexists].
      * rewrite lookup_insert_ne, Hd by done. split; intros (h & Hh & ?); exists h; [tauto|].
        destruct Hh as [?| ->]; [done|congruence].
    + rewrite Forall_app, Forall_singleton, <- Hb.
      destruct (String.eqb_spec (cat f) CategoryOutOfScope); simpl; [tauto|]. split; [done|tauto].
Qed.

(** [c] wins the vote against [d]. *)
Definition beats (group : list Finding) (c d : string) : Prop :=
  (votes group d < votes group c)%Z \/
  (votes group d = votes group c /\ (c = d \/ d = "" \/ (c <> "" /\ str_ltb c d = true))).

Lemma votes_nonneg group c : (0 <= votes group c)%Z.
Proof. unfold votes. lia. Qed.

(** What the scan of the sorted categories [cats] has found. *)
Definition modal_best (group : list Finding) (cats : list string) (st : string * Z) : Prop :=
  st.1 ∈ cats /\ st.2 = votes group st.1 /\ Forall (beats group st.1) cats.

Lemma modal_best_keep group cats st c :
  modal_best group cats st -> beats group st.1 c -> modal_best group (cats ++ [c]) st.
Proof.
  intros (Hb & Hv & Hall) Hc. split; [apply elem_of_app; by left|]. split; [done|].
  apply Forall_app. by split; [|constructor].
Qed.

Lemma modal_best_new group cats c :
  (forall x, x ∈ cats -> beats group c x) -> modal_best group (cats ++ [c]) (c, votes group c).
Proof.
  intros Hc. split; [apply elem_of_app; right; left|]. split; [done|].
  apply Forall_app. split; [by apply Forall_forall|]. constructor; [|done]. right. auto.
Qed.

Lemma modal_step_best group (counts : gmap string Z) cats st c :
  index0 counts c = votes group c -> (forall x, x ∈ cats -> str_ltb x c = true) ->
  (cats = [] /\ st = ("", (-1)%Z)) \/ modal_best group cats st ->
  modal_best group (cats ++ [c]) (modal_step counts st c).
Proof.
  intros Hc Hlt Hst. unfold modal_step. destruct st as [best bc]. rewrite Hc.
  pose proof (votes_nonneg group c). destruct Hst as [[-> [= -> ->]]|Hbest].
  { rewrite (proj2 (Z.ltb_lt _ _)) by lia. apply modal_best_new. by intros x ?%elem_of_nil. }
  pose proof Hbest as (Hb & Hv & Hall). cbn [fst snd] in Hb, Hv, Hall. subst bc.
  rewrite Forall_forall in Hall.
  destruct (Z.ltb_spec (votes group best) (votes group c)).
  { apply modal_best_new. intros x Hx. left. destruct (Hall x Hx) as [?|[? _]]; lia. }
  destruct (Z.eqb_spec (votes group c) (votes group best)) as [He|He]; cbn [andb].
  - destruct (String.eqb_spec best "") as [->|Hb0]; cbn [andb].
    + destruct (String.eqb_spec c "") as [->|Hc0]; cbn [negb].
      * pose proof (Hlt _ Hb) as Habs. by rewrite str_ltb_irrefl in Habs.
      * rewrite <- He. apply modal_best_new. intros x Hx.
        destruct (Hall x Hx) as [?|[? [<-|[->|[? _]]]]]; [left; lia| | |done]; right; (split; [lia|auto]).
    + apply modal_best_keep; [done|]. right. split; [done|]. right. right. split; [done|]. by apply Hlt.
  - apply modal_best_keep; [done|]. left. cbn [fst]. lia.
Qed.

(** The scan of the sorted categories keeps the winner so far. *)
Lemma modal_scan group (counts : gmap string Z) cats :
  (forall c, c ∈ cats -> index0 counts c = votes group c) ->
  StronglySorted (fun a b => str_ltb a b = true) cats -> cats <> [] ->
  modal_best group cats (foldl (modal_step counts) ("", (-1)%Z) cats).
Proof.
  intros Hc Hs Hne.
  assert ((cats = [] /\ foldl (modal_step counts) ("", (-1)%Z) cats = ("", (-1)%Z)) \/
    modal_best group cats (foldl (modal_step counts) ("", (-1)%Z) cats)) as [[? _]|?]; [|done..].
  apply (foldl_invariant (fun xs st => (xs = [] /\ st = ("", (-1)%Z)) \/ modal_best group xs st)); [by left|].
  intros xs c todo st Heq Hinv. right. apply modal_step_best; [|intros x Hx|done].
  - apply Hc. rewrite Heq. apply elem_of_app. right. left.
  - rewrite Heq in Hs. apply StronglySorted_app in Hs as (Hcross & _ & _). apply Hcross; [done|left].
Qed.

(** [ModalCategory] is fail-closed on out-of-scope and a majority vote
    otherwise: it answers out-of-scope only when every finding of the group says
    so (canonically); else the answer is some finding's category, not out-of-scope,
    with the most votes among those, ties going to a non-empty category and then
    to the alphabetically first. *)
Theorem ModalCategory_spec (group : list Finding) :
  (Forall (fun f => cat f = CategoryOutOfScope) group /\ ModalCategory group = CategoryOutOfScope) \/
  (~ Forall (fun f => cat f = CategoryOutOfScope) group /\
   (exists f, f ∈ group /\ cat f = ModalCategory group) /\
   ModalCategory group <> CategoryOutOfScope /\
   forall h, h ∈ group -> cat h <> CategoryOutOfScope -> beats group (ModalCategory group) (cat h)).
Proof.
  destruct (count_categories_spec group) as (Hc & Hd & Hb). unfold ModalCategory.
  destruct (count_categories group) as [counts oos]. simpl in *.
  destruct oos; [left; split; [by apply Hb|done]|right].
  assert (~ Forall (fun f => cat f = CategoryOutOfScope) group) as Hno by (by rewrite <- Hb).
  split; [done|]. set (m := delete CategoryOutOfScope counts).
  assert (forall c, c ∈ sort_strings (map_to_list m).*1 <->
    c <> CategoryOutOfScope /\ exists f, f ∈ group /\ cat f = c) as Hin.
  { intros c. rewrite elem_of_sort_strings, list_elem_of_fmap, <- Hd. split.
    - intros ([c' v] & -> & Hv%elem_of_map_to_list). apply lookup_delete_Some in Hv as [? Hv].
      simpl. split; [done|by eexists].
    - intros [Hne [v Hv]]. exists (c, v). split; [done|]. apply elem_of_map_to_list.
      by apply lookup_delete_Some. }
  assert (exists f, f ∈ group /\ cat f <> CategoryOutOfScope) as (f0 & Hf0 & Hne0).
  { apply not_Forall_Exists in Hno; [|intros ?; apply _]. by apply Exists_exists in Hno. }
  pose proof (modal_scan group m (sort_strings (map_to_list m).*1)) as Hscan.
  destruct Hscan as (Hbest & _ & Hall).
  - intros c [Hne _]%Hin. unfold index0. unfold m. rewrite lookup_delete_ne by done. apply Hc.
  - apply sort_strings_strict, NoDup_fst_map_to_list.
  - intros Hnil. apply (not_elem_of_nil (cat f0)). rewrite <- Hnil. apply Hin. eauto.
  - apply Hin in Hbest as [? ?]. fold m. split; [done|]. split; [done|]. intros h Hh Hhne.
    rewrite Forall_forall in Hall. apply Hall, Hin. eauto.
Qed.
End category.

(** ** Reviewers, texts and estimates *)

Section fields.
Context {U : UnicodeCase}.

Lemma strip_commas_lacks name : lacks ","%char (strip_commas name).
Proof. apply (ReplaceAll_delete_lacks ","%char). Qed.

Lemma strip_commas_id name : lacks ","%char name -> strip_commas name = name.
Proof. apply (ReplaceAll_delete_id ","%char). Qed.

Lemma strip_commas_idemp name : strip_commas (strip_commas name) = strip_commas name.
Proof. apply strip_commas_id, strip_commas_lacks. Qed.

Lemma elem_of_distinctReviewers group r :
  r ∈ distinctReviewers group <-> r <> "" /\ exists f, f ∈ group /\ strip_commas (Reviewer f) = r.
Proof.
  unfold distinctReviewers. rewrite elem_of_sort_strings, elem_of_elements.
  apply (foldl_invariant (fun xs (set : gset string) =>
    r ∈ set <-> r <> "" /\ exists f, f ∈ xs /\ strip_commas (Reviewer f) = r)).
  - split; [by intros ?%not_elem_of_empty|by intros (_ & ? & ?%elem_of_nil & _)].
  - intros xs f todo set _ IH. cbv zeta. setoid_rewrite elem_of_app. setoid_rewrite list_elem_of_singleton.
    destruct (String.eqb_spec (strip_commas (Reviewer f)) "") as [He|He]; cbn [negb].
    + rewrite IH. split; intros [Hr (h & Hh & Heq)]; (split; [done|]); exists h; [tauto|].
      destruct Hh as [?| ->]; [done|congruence].
    + rewrite elem_of_union, elem_of_singleton, IH. split.
      * intros [->|(? & h & ? & ?)]; [split; [done|]; exists f; auto|split; [done|]; exists h; tauto].
      * intros [Hr (h & [Hh| ->] & Heq)]; [right; eauto|by left].
Qed.

Lemma distinctReviewers_sorted group :
  StronglySorted (fun a b => str_ltb a b = true) (distinctReviewers group).
Proof. apply sort_strings_strict, NoDup_elements. Qed.

Lemma LongestField_best group sel :
  (group = [] /\ LongestField group sel = "") \/
  (exists f, f ∈ group /\ sel f = LongestField group sel) /\
  forall f, f ∈ group -> (String.length (sel f) <= String.length (LongestField group sel))%nat.
Proof.
  unfold LongestField. apply (foldl_invariant (fun xs best => (xs = [] /\ best = "") \/
    (exists f, f ∈ xs /\ sel f = best) /\
    forall f, f ∈ xs -> (String.length (sel f) <= String.length best)%nat)); [by left|].
  intros xs f todo best _ Hinv. right. cbv zeta. setoid_rewrite elem_of_app.
  setoid_rewrite list_elem_of_singleton.
  destruct (Nat.ltb_spec (String.length best) (String.length (sel f))) as [Hlt|Hge].
  - split; [exists f; auto|]. intros h [Hh| ->]; [|done].
    destruct Hinv as [[-> ->]|[_ Hall]]; [by apply elem_of_nil in Hh|]. specialize (Hall h Hh). lia.
  - destruct Hinv as [[-> ->]|[(g & Hg & Hgs) Hall]].
    + simpl in Hge. assert (sel f = "") as He by (destruct (sel f); [done|simpl in Hge; lia]).
      split; [exists f; auto|]. intros h [Hh| ->]; [by apply elem_of_nil in Hh|by rewrite He].
    + split; [exists g; auto|]. intros h [Hh| ->]; [by apply Hall|done].
Qed.

Lemma MaxEstMinutes_best group :
  group <> [] ->
  (exists f, f ∈ group /\ EstMinutes f = MaxEstMinutes group) /\
  forall f, f ∈ group -> (EstMinutes f <= MaxEstMinutes group)%Z.
Proof.
  destruct group as [|f0 group]; [done|]. intros _. unfold MaxEstMinutes.
  assert (forall m, (exists f, f ∈ f0 :: group /\ EstMinutes f = m) ->
    (exists f, f ∈ f0 :: group /\ EstMinutes f =
       foldl (fun max f => if (max <? EstMinutes f)%Z then EstMinutes f else max) m (f0 :: group)) /\
    forall f, f ∈ f0 :: group -> (EstMinutes f <=
       foldl (fun max f => if (max <? EstMinutes f)%Z then EstMinutes f else max) m (f0 :: group))%Z) as H;
    [|apply H; exists f0; split; [left|done]].
  intros m Hm.
  apply (foldl_invariant (fun xs max => (exists f, f ∈ f0 :: group /\ EstMinutes f = max) /\
    forall f, f ∈ xs -> (EstMinutes f <= max)%Z)); [split; [done|by intros ? ?%elem_of_nil]|].
  intros xs f todo max Heq [Hex Hall].
  assert (f ∈ f0 :: group) as Hf by (rewrite Heq; apply elem_of_app; right; left).
  destruct (Z.ltb_spec max (EstMinutes f)); split; [by exists f| |done|].
  - intros h [Hh| ->%list_elem_of_singleton]%elem_of_app; [specialize (Hall h Hh); lia|lia].
  - intros h [Hh| ->%list_elem_of_singleton]%elem_of_app; [by apply Hall|lia].
Qed.

Lemma Merge_eq first rest maxSev dis :
  MergeSeverity (first :: rest) = Some (maxSev, dis) ->
  let group := first :: rest in
  let cd := DiscountedConfidence (length (distinctReviewers group)) (ModalCategory group)
              (negb (IsPanelWide group)) in
  Merge group = Some (mkMerged
    (mkFinding maxSev (File first) (Line first) (LongestField group Problem) (LongestField group Fix)
       (ModalCategory group) (MaxEstMinutes group) (mergeEvidence group) "" (distinctReviewers group)
       cd.1 dis None)
    (sourceCategories group) cd.2 (sourceQuotes group)).
Proof. intros Hs. cbv zeta. unfold Merge. rewrite Hs. simpl. by destruct (DiscountedConfidence _ _ _). Qed.
End fields.

(** ** Independence *)

Section independence.
Context {U : UnicodeCase}.
Context (group : list Finding).

Abbreviation quoted := (quote_finding <$> sourceQuotes group).

Lemma quoted_reviewers : distinctReviewers quoted = distinctReviewers group.
Proof.
  unfold distinctReviewers, sourceQuotes. rewrite <- list_fmap_compose. f_equal. f_equal.
  rewrite foldl_fmap. apply foldl_ext. intros set f _. cbn [Reviewer sq_Reviewer quote_finding compose]. by rewrite strip_commas_idemp.
Qed.

Lemma quoted_category :
  Forall (fun f => is_ascii (Category f) = true) group -> ModalCategory quoted = ModalCategory group.
Proof.
  intros Ha. unfold ModalCategory.
  assert (count_categories quoted = count_categories group) as ->; [|done].
  unfold count_categories, sourceQuotes. rewrite <- list_fmap_compose, foldl_fmap. apply foldl_ext.
  intros [counts b] f Hf. cbn [Category sq_Category quote_finding compose]. rewrite Forall_forall in Ha.
  pose proof (lower_trim_idemp (Category f) (Ha f Hf)) as Hi. unfold lower_trim in Hi. by rewrite Hi.
Qed.

Lemma panel_wide_class :
  Forall (fun f => is_ascii (Category f) = true) group -> IsPanelWide group = true ->
  (2 <= length (distinctReviewers group))%nat /\ ModalCategory group = CategoryInvariant.
Proof.
  intros Ha. unfold IsPanelWide, IsPanelWideQuotes. rewrite quoted_reviewers, quoted_category by done.
  destruct (Nat.ltb_spec (length (distinctReviewers group)) 2); [done|].
  destruct (String.eqb_spec (ModalCategory group) CategoryInvariant); [done|done].
Qed.
End independence.

(** ** Properties *)

Section properties.
Context {U : UnicodeCase}.

(** [Merge] on a non-empty group never panics, takes its location from the
    first finding, its problem and fix from a finding whose text is the longest,
    its estimate from the most pessimistic finding, and lists exactly the
    comma-stripped non-empty reviewer names, without commas and strictly sorted;
    verification and reviewer are cleared and the provenance has one entry per
    finding. *)
Theorem Merge_fields (first : Finding) (rest : list Finding) :
  exists m, Merge (first :: rest) = Some m /\
    File (m_Finding m) = File first /\ Line (m_Finding m) = Line first /\
    ((exists f, f ∈ first :: rest /\ Problem f = Problem (m_Finding m)) /\
     forall f, f ∈ first :: rest -> (String.length (Problem f) <= String.length (Problem (m_Finding m)))%nat) /\
    ((exists f, f ∈ first :: rest /\ Fix f = Fix (m_Finding m)) /\
     forall f, f ∈ first :: rest -> (String.length (Fix f) <= String.length (Fix (m_Finding m)))%nat) /\
    ((exists f, f ∈ first :: rest /\ EstMinutes f = EstMinutes (m_Finding m)) /\
     forall f, f ∈ first :: rest -> (EstMinutes f <= EstMinutes (m_Finding m))%Z) /\
    (forall r, r ∈ Reviewers (m_Finding m) <->
       r <> "" /\ exists f, f ∈ first :: rest /\ strip_commas (Reviewer f) = r) /\
    Forall (lacks ","%char) (Reviewers (m_Finding m)) /\
    StronglySorted (fun a b => str_ltb a b = true) (Reviewers (m_Finding m)) /\
    Reviewer (m_Finding m) = "" /\ Verification_ (m_Finding m) = None /\
    length (SourceCategories m) = length (first :: rest) /\
    length (SourceQuotes m) = length (first :: rest).
Proof.
  destruct (MergeSeverity_total (first :: rest)) as (max & dis & Hs); [done|].
  rewrite (Merge_eq _ _ _ _ Hs). eexists. split; [done|]. cbn [m_Finding File Line Problem Fix EstMinutes
    Reviewers Reviewer Verification_ SourceCategories SourceQuotes].
  pose proof (elem_of_distinctReviewers (first :: rest)) as Hr.
  split_and!; try done.
  1-2: destruct (LongestField_best (first :: rest) Problem) as [[? _]|[? ?]]; done.
  1-2: destruct (LongestField_best (first :: rest) Fix) as [[? _]|[? ?]]; done.
  1-2: destruct (MaxEstMinutes_best (first :: rest)); done.
  - apply Forall_forall. intros r (_ & f & _ & <-)%Hr. apply strip_commas_lacks.
  - apply distinctReviewers_sorted.
  - unfold sourceCategories. by rewrite length_fmap.
  - unfold sourceQuotes. by rewrite length_fmap.
Qed.

(** The confidence of a merged row: MEDIUM for one reviewer, HIGH for two or
    more, except that a panel-wide group is discounted to MEDIUM with the recorded
    reason, and only such a group: it has two reviewers and a modal category of
    invariant. *)
Theorem Merge_confidence (first : Finding) (rest : list Finding) :
  Forall (fun f => is_ascii (Category f) = true) (first :: rest) ->
  exists m, Merge (first :: rest) = Some m /\
    (Confidence (m_Finding m), ConfidenceDiscount m) =
      (if IsPanelWide (first :: rest) then (ConfMedium, PanelWideReason)
       else if decide (2 <= length (Reviewers (m_Finding m)))%nat then (ConfHigh, "") else (ConfMedium, "")) /\
    (IsPanelWide (first :: rest) = true ->
       (2 <= length (Reviewers (m_Finding m)))%nat /\ Category (m_Finding m) = CategoryInvariant).
Proof.
  intros Ha. destruct (MergeSeverity_total (first :: rest)) as (max & dis & Hs); [done|].
  rewrite (Merge_eq _ _ _ _ Hs). eexists. split; [done|].
  cbn [m_Finding Confidence ConfidenceDiscount Reviewers Category].
  pose proof (panel_wide_class _ Ha) as Hp. split; [|done].
  unfold DiscountedConfidence. destruct (IsPanelWide (first :: rest)) eqn:Ep; cbn [negb].
  - destruct (Hp eq_refl) as [Hl ->]. rewrite (proj2 (Nat.leb_le _ _)) by done. done.
  - rewrite andb_false_r. cbn. unfold ConfidenceFor. case_decide as Hd.
    + by rewrite (proj2 (Nat.leb_le _ _)) by done.
    + by rewrite (proj2 (Nat.leb_gt _ _)) by lia.
Qed.
End properties.

(** ** Witnesses *)

#[local] Existing Instance ascii_case.

Definition quoted_by (r sev category evidence : string) : Finding :=
  mkFinding sev "a.go" 3 "p" "" category 5 evidence r [] "" "" None.

Definition panel_group : list Finding :=
  [quoted_by "b,x" "low" "Invariant" "if x then y"; quoted_by "a" " CRITICAL" "invariant " "if x then y"].

Lemma MergeSeverity_spec_witness :
  MergeSeverity panel_group = Some ("CRITICAL", "LOW vs CRITICAL") /\
  exists max dis, MergeSeverity panel_group = Some (max, dis) /\ severity_answer panel_group max dis.
Proof. split; [by vm_compute|]. apply (MergeSeverity_spec panel_group). done. Defined.

Lemma Merge_confidence_witness :
  IsPanelWide panel_group = true /\
  exists m, Merge panel_group = Some m /\
    (Confidence (m_Finding m), ConfidenceDiscount m) =
      (if IsPanelWide panel_group then (ConfMedium, PanelWideReason)
       else if decide (2 <= length (Reviewers (m_Finding m)))%nat then (ConfHigh, "") else (ConfMedium, "")) /\
    (IsPanelWide panel_group = true ->
       (2 <= length (Reviewers (m_Finding m)))%nat /\ Category (m_Finding m) = CategoryInvariant).
Proof. split; [by vm_compute|]. apply Merge_confidence. by repeat constructor. Defined.
