(* ===== verification/PageRank.v ===== *)
(** * Model authority

    src/reconcile/pagerank.go: the run-global agreement graph, weighted PageRank over
    it, and the promotion of isolated findings by their model's authority. The power
    method is written over an arithmetic interface [Arith]; the program runs it on
    float64 ([float64_Arith]), and its conservation of rank is proved for exact
    rationals ([Qc_Arith]). *)

From Stdlib Require Import Ascii String.
From stdpp Require Import prelude strings gmap list sorting.
From Stdlib Require Import ZArith Lia QArith Qcanon.
From S2P Require Import Prelude GoString GoSort GoFloat Finding Merge.

Open Scope string_scope.
Open Scope list_scope.
Open Scope nat_scope.

(** The arithmetic of the ranks, with the source's constants. *)
Class Arith (F : Type) := {
  a_zero : F;
  a_one : F;
  a_add : F -> F -> F;
  a_sub : F -> F -> F;
  a_mul : F -> F -> F;
  a_div : F -> F -> F;
  a_abs : F -> F;
  a_lt : F -> F -> bool;
  a_eq0 : F -> bool;             (** [x == 0] *)
  a_of_nat : nat -> F;           (** [float64(n)] *)
  pageRankDamping : F;           (** 0.85 *)
  one_minus_damping : F;         (** the constant expression [1.0 - pageRankDamping] *)
  pageRankEpsilon : F;           (** 1e-12 *)
}.

#[export] Instance float64_Arith : Arith float64 := {|
  a_zero := f_zero; a_one := f_one; a_add := f_add; a_sub := f_sub; a_mul := f_mul;
  a_div := f_div; a_abs := f_abs; a_lt := f_lt; a_eq0 x := f_eq x f_zero; a_of_nat := f_of_nat;
  pageRankDamping := f_const 85 100; one_minus_damping := f_const 15 100;
  pageRankEpsilon := f_const 1 1000000000000;
|}.

#[export] Instance Qc_Arith : Arith Qc := {|
  a_zero := 0%Qc; a_one := 1%Qc; a_add := Qcplus; a_sub := Qcminus; a_mul := Qcmult; a_div := Qcdiv;
  a_abs x := if Qclt_le_dec x 0%Qc then Qcopp x else x;
  a_lt x y := if Qclt_le_dec x y then true else false;
  a_eq0 x := if Qc_eq_dec x 0%Qc then true else false;
  a_of_nat n := Q2Qc (inject_Z (Z.of_nat n));
  pageRankDamping := Q2Qc (85 # 100); one_minus_damping := (1 - Q2Qc (85 # 100))%Qc;
  pageRankEpsilon := Q2Qc (1 # 1000000000000);
|}.

Definition pageRankMaxIter : nat := 1000.
Definition maxDistinctReviewers : nat := 64.

(** ** The agreement graph *)

(** [adj[u][v]] is the number of findings [u] and [v] agreed on. *)
Record agreementGraph := mkGraph { adj : gmap string (gmap string nat) }.

Definition newAgreementGraph : agreementGraph := mkGraph ∅.

(** [g.adj[u]], nil when absent. *)
Definition row (g : agreementGraph) (u : string) : gmap string nat := default ∅ (adj g !! u).
(** [g.adj[u][v]] *)
Definition weight (g : agreementGraph) (u v : string) : nat := default 0 (row g u !! v).

Definition addEdge (g : agreementGraph) (u v : string) : agreementGraph :=
  let a := adj g in
  let a := match a !! u with None => <[u := ∅]> a | Some _ => a end in
  let a := match a !! v with None => <[v := ∅]> a | Some _ => a end in
  let bump (a : gmap string (gmap string nat)) u v :=
    <[u := <[v := default 0 (default ∅ (a !! u) !! v) + 1]> (default ∅ (a !! u))]> a in
  mkGraph (bump (bump a u v) v u).

(** The first occurrences of the non-empty names. *)
Definition distinct_names (reviewers : list string) : list string :=
  (foldl (fun '(seen, distinct) r =>
      if (r =? "")%string || bool_decide (r ∈ (seen : gset string)) then (seen, distinct)
      else ({[r]} ∪ seen, distinct ++ [r])) (∅, []) reviewers).2.

(** [for i { for j := i + 1 { g.addEdge(distinct[i], distinct[j]) } }] *)
Fixpoint add_pairs (g : agreementGraph) (distinct : list string) : agreementGraph :=
  match distinct with
  | [] => g
  | u :: rest => add_pairs (foldl (fun g v => addEdge g u v) g rest) rest
  end.

Definition addAgreement (g : agreementGraph) (reviewers : list string) : agreementGraph :=
  let distinct := sort_strings (distinct_names reviewers) in
  let distinct := if maxDistinctReviewers <? length distinct then take maxDistinctReviewers distinct else distinct in
  add_pairs g distinct.

Definition nodes (g : agreementGraph) : list string := sort_strings (map_to_list (adj g)).*1.

(** ** The power method *)

Section pagerank.
Context {F : Type} `{!Arith F}.

(** Indexing a Go map with float64 values. *)
Definition rank_at (m : gmap string F) (u : string) : F := default a_zero (m !! u).

(** The total out-weight of a node. The source sums in map order; a sum of counts is
    exact, so the order does not matter. *)
Definition out_weight (g : agreementGraph) (u : string) : F :=
  foldl (fun w vc => a_add w (a_of_nat vc.2)) a_zero (map_to_list (row g u)).

Definition neighbors (g : agreementGraph) (u : string) : list string :=
  sort_strings (map_to_list (row g u)).*1.

(** [outWeight] and [neighbors], one entry per node. *)
Definition out_weights (g : agreementGraph) : gmap string F :=
  list_to_map ((fun u => (u, out_weight g u)) <$> nodes g).
Definition neighbor_lists (g : agreementGraph) : gmap string (list string) :=
  list_to_map ((fun u => (u, neighbors g u)) <$> nodes g).

Definition inflow (g : agreementGraph) (ow : gmap string F) (rank : gmap string F) (u : string)
    (nbrs : list string) : F :=
  foldl (fun acc v =>
      let w := rank_at ow v in
      if a_lt a_zero w
      then a_add acc (a_mul (a_div (a_of_nat (weight g v u)) w) (rank_at rank v))
      else acc) a_zero nbrs.

(** The body of the iteration: the next ranks and the L1 change. *)
Definition pr_step (g : agreementGraph) (ow : gmap string F) (nb : gmap string (list string))
    (rank next : gmap string F) : gmap string F * F :=
  let us := nodes g in
  let n := length us in
  let teleport := a_div one_minus_damping (a_of_nat n) in
  let dangling := foldl (fun d u => if a_eq0 (rank_at ow u) then a_add d (rank_at rank u) else d) a_zero us in
  let danglingShare := a_div (a_mul pageRankDamping dangling) (a_of_nat n) in
  foldl (fun '(next, delta) u =>
      let nv := a_add (a_add teleport danglingShare)
                  (a_mul pageRankDamping (inflow g ow rank u (default [] (nb !! u)))) in
      (<[u := nv]> next, a_add delta (a_abs (a_sub nv (rank_at rank u))))) (next, a_zero) us.

(** The loop swaps the two maps and stops on a small change. *)
Fixpoint pr_iter (fuel : nat) (g : agreementGraph) (ow : gmap string F)
    (nb : gmap string (list string)) (rank next : gmap string F) : gmap string F :=
  match fuel with
  | O => rank
  | S f =>
      let '(next, delta) := pr_step g ow nb rank next in
      if a_lt delta pageRankEpsilon then next else pr_iter f g ow nb next rank
  end.

Definition pageRank (g : agreementGraph) : gmap string F :=
  let us := nodes g in
  let n := length us in
  if n =? 0 then ∅
  else
    let rank := list_to_map ((fun u => (u, a_div a_one (a_of_nat n))) <$> us) in
    pr_iter pageRankMaxIter g (out_weights g) (neighbor_lists g) rank ∅.

(** ** Authority over a run *)

Definition agreement_step {U : UnicodeCase} (st : agreementGraph * bool) (group : list Finding)
    : agreementGraph * bool :=
  let '(g, hasAgreement) := st in
  let revs := distinctReviewers group in
  if 2 <=? length revs then (addAgreement g revs, true) else (g, hasAgreement).

Definition agreement_graph {U : UnicodeCase} (groups : list (list Finding)) : agreementGraph * bool :=
  foldl agreement_step (newAgreementGraph, false) groups.

Definition modelAuthority {U : UnicodeCase} (groups : list (list Finding)) : gmap string F :=
  let '(g, hasAgreement) := agreement_graph groups in
  if negb hasAgreement then ∅ else pageRank g.
End pagerank.

(** [m] with another confidence. *)
Definition with_confidence (m : Merged) (c : string) : Merged :=
  mkMerged (set_Confidence c (m_Finding m)) (SourceCategories m) (ConfidenceDiscount m) (SourceQuotes m).

Definition promoteByAuthority (m : Merged) (authority : gmap string float64) (baseline : float64) : Merged :=
  if (size authority =? 0) || negb (length (Reviewers (m_Finding m)) =? 1)
     || negb (Confidence (m_Finding m) =? ConfMedium)%string
  then m
  else
    match authority !! (Reviewers (m_Finding m) !!! 0) with
    | Some score => if f_gt score baseline then with_confidence m ConfHigh else m
    | None => m
    end.

(** ** The graph *)

Lemma row_insert a u r x : row (mkGraph (<[u := r]> a)) x = if decide (x = u) then r else row (mkGraph a) x.
Proof.
  unfold row. simpl. case_decide as Hd; [subst; by rewrite lookup_insert_eq|].
  by rewrite lookup_insert_ne.
Qed.

Lemma addEdge_row g u v x y :
  u <> v ->
  row (addEdge g u v) x !! y =
    if decide (x = u /\ y = v \/ x = v /\ y = u) then Some (weight g x y + 1) else row g x !! y.
Proof.
  intros Hne. unfold addEdge.
  assert (forall a w, row (mkGraph (match a !! w with None => <[w := ∅]> a | Some _ => a end)) x = row (mkGraph a) x /\
    forall z, default ∅ ((match a !! w with None => <[w := ∅]> a | Some _ => a end : gmap string (gmap string nat)) !! z)
      = default ∅ (a !! z)) as Hinit.
  { intros a w. split.
    - destruct (a !! w) eqn:E; [done|]. rewrite row_insert. case_decide as Hd; [|done].
      subst. unfold row. simpl. by rewrite E.
    - intros z. destruct (a !! w) eqn:E; [done|]. rewrite lookup_insert. case_decide as Hd; [|done].
      subst. by rewrite E. }
  set (a1 := match adj g !! u with None => _ | Some _ => _ end).
  set (a2 := match a1 !! v with None => _ | Some _ => _ end).
  assert (forall z, default ∅ (a2 !! z) = row g z) as Ha.
  { intros z. unfold a2. rewrite (proj2 (Hinit a1 v)). unfold a1. by rewrite (proj2 (Hinit (adj g) u)). }
  rewrite row_insert. rewrite row_insert. unfold row at 2. simpl. rewrite !Ha.
  rewrite lookup_insert_ne by done. rewrite !Ha. unfold weight.
  destruct (decide (x = v)) as [->|Hxv]; [|destruct (decide (x = u)) as [->|Hxu]].
  - destruct (decide (y = u)) as [->|Hyu].
    + rewrite lookup_insert_eq, decide_True by tauto. done.
    + rewrite lookup_insert_ne, decide_False by naive_solver. done.
  - destruct (decide (y = v)) as [->|Hyv].
    + rewrite lookup_insert_eq, decide_True by tauto. done.
    + rewrite lookup_insert_ne, decide_False by naive_solver. done.
  - rewrite decide_False by tauto. f_equal. apply Ha.
Qed.

Lemma addEdge_weight g u v x y :
  u <> v ->
  weight (addEdge g u v) x y =
    weight g x y + (if decide (x = u /\ y = v \/ x = v /\ y = u) then 1 else 0).
Proof. intros Hne. unfold weight at 1. rewrite addEdge_row by done. case_decide; simpl; [done|unfold weight; lia]. Qed.

Lemma add_edges_weight g u rest x y :
  NoDup rest -> u ∉ rest ->
  weight (foldl (fun g v => addEdge g u v) g rest) x y =
    weight g x y + (if decide (x = u /\ y ∈ rest \/ y = u /\ x ∈ rest) then 1 else 0).
Proof.
  intros Hnd. revert g. induction Hnd as [|v rest Hv Hnd IH]; intros g Hu; simpl.
  - rewrite decide_False; [lia|]. by intros [[_ ?%elem_of_nil]|[_ ?%elem_of_nil]].
  - apply not_elem_of_cons in Hu as [Huv Hu]. rewrite IH, addEdge_weight by done.
    repeat case_decide; try lia; exfalso; set_solver.
Qed.

Lemma add_pairs_weight g l x y :
  NoDup l ->
  weight (add_pairs g l) x y =
    weight g x y + (if decide (x <> y /\ x ∈ l /\ y ∈ l) then 1 else 0).
Proof.
  intros Hnd. revert g. induction Hnd as [|u l Hu Hnd IH]; intros g; simpl.
  - rewrite decide_False; [lia|]. by intros (_ & ?%elem_of_nil & _).
  - rewrite IH, add_edges_weight by done. repeat case_decide; try lia; exfalso; set_solver.
Qed.

Lemma distinct_names_id l : NoDup l -> "" ∉ l -> distinct_names l = l.
Proof.
  intros Hnd He. unfold distinct_names.
  assert (forall (st : gset string * list string), (forall x, x ∈ l -> x ∉ st.1) ->
    (foldl (fun '(seen, distinct) r =>
      if (r =? "")%string || bool_decide (r ∈ (seen : gset string)) then (seen, distinct)
      else ({[r]} ∪ seen, distinct ++ [r])) st l).2 = st.2 ++ l) as H.
  { induction Hnd as [|x l Hx Hnd IH]; intros [seen d] Hseen; simpl; [by rewrite app_nil_r|].
    apply not_elem_of_cons in He as [Hx0 He]. rewrite (proj2 (String.eqb_neq x "")) by done. simpl.
    rewrite bool_decide_eq_false_2 by (apply (Hseen x); left). rewrite IH; [simpl; by rewrite <- app_assoc|done|].
    simpl. intros y Hy. assert (y <> x) by congruence. specialize (Hseen y (list_elem_of_further _ _ _ Hy)).
    simpl in Hseen. set_solver. }
  rewrite H; [done|]. intros x _. apply not_elem_of_empty.
Qed.

Section agreement.
Context {U : UnicodeCase}.

Lemma distinctReviewers_NoDup group : NoDup (distinctReviewers group).
Proof. unfold distinctReviewers. rewrite sort_strings_Permutation. apply NoDup_elements. Qed.

Lemma addAgreement_weight g group x y :
  length (distinctReviewers group) <= maxDistinctReviewers ->
  weight (addAgreement g (distinctReviewers group)) x y =
    weight g x y + (if decide (x <> y /\ x ∈ distinctReviewers group /\ y ∈ distinctReviewers group) then 1 else 0).
Proof.
  intros Hl. unfold addAgreement. pose proof (distinctReviewers_NoDup group) as Hnd.
  rewrite distinct_names_id; [|done|by intros [? _]%elem_of_distinctReviewers].
  assert (length (sort_strings (distinctReviewers group)) = length (distinctReviewers group)) as Hlen
    by (apply Permutation_length, sort_strings_Permutation).
  rewrite (proj2 (Nat.ltb_ge _ _)) by lia. rewrite add_pairs_weight by (by rewrite sort_strings_Permutation).
  f_equal. apply decide_ext. by rewrite !elem_of_sort_strings.
Qed.

(** The number of groups both models agreed on. *)
Definition agreements (groups : list (list Finding)) (u v : string) : nat :=
  length (filter (fun g => u ∈ distinctReviewers g /\ v ∈ distinctReviewers g) groups).

Lemma two_members (l : list string) x y : x ∈ l -> y ∈ l -> x <> y -> 2 <= length l.
Proof.
  intros Hx Hy Hne. destruct l as [|a [|b l]]; [by apply elem_of_nil in Hx| |simpl; lia].
  apply list_elem_of_singleton in Hx, Hy. congruence.
Qed.

(** The agreement graph of a run counts agreements: with no group over the
    fan-out cap, the weight between two models is the number of merge groups both
    reviewed, the same both ways, and no model has an edge to itself. *)
Theorem agreement_graph_weights (groups : list (list Finding)) u v :
  Forall (fun g => length (distinctReviewers g) <= maxDistinctReviewers) groups ->
  weight (agreement_graph groups).1 u v = (if decide (u = v) then 0 else agreements groups u v) /\
  weight (agreement_graph groups).1 v u = weight (agreement_graph groups).1 u v.
Proof.
  intros Hcap.
  assert (forall u v, weight (agreement_graph groups).1 u v = if decide (u = v) then 0 else agreements groups u v) as H.
  { intros x y. unfold agreement_graph.
    apply (foldl_invariant (fun xs (st : agreementGraph * bool) =>
      weight st.1 x y = if decide (x = y) then 0 else agreements xs x y)).
    - case_decide; done.
    - intros xs g todo [gr b] Heq IH. simpl in IH. unfold agreement_step.
      assert (length (distinctReviewers g) <= maxDistinctReviewers) as Hg.
      { rewrite Forall_forall in Hcap. apply Hcap. rewrite Heq. apply elem_of_app. right. left. }
      unfold agreements. rewrite filter_app, length_app, filter_cons, filter_nil.
      destruct (Nat.leb_spec 2 (length (distinctReviewers g))) as [H2|H2]; simpl.
      + rewrite addAgreement_weight by done. rewrite IH. unfold agreements.
        repeat case_decide; simpl; try lia; naive_solver.
      + rewrite IH. unfold agreements. destruct (decide (x = y)); [done|].
        case_decide as Hin; simpl; [|lia]. destruct Hin as [Hx Hy].
        pose proof (two_members _ _ _ Hx Hy ltac:(done)). lia. }
  split; [apply H|]. rewrite !H. unfold agreements.
  repeat case_decide; try congruence. f_equal. apply list_filter_iff. tauto.
Qed.
End agreement.

(** ** Conservation of rank in exact arithmetic *)

Section conservation.
Open Scope Qc_scope.

Fixpoint qsum {A} (f : A -> Qc) (l : list A) : Qc :=
  match l with [] => 0 | x :: l' => f x + qsum f l' end.

Lemma foldl_qsum {A} (f : A -> Qc) l a : foldl (fun acc x => acc + f x) a l = a + qsum f l.
Proof. revert a. induction l as [|x l IH]; intros a; simpl; [ring|]. rewrite IH. ring. Qed.

Lemma qsum_ext {A} (f g : A -> Qc) l : (forall x, x ∈ l -> f x = g x) -> qsum f l = qsum g l.
Proof.
  induction l as [|x l IH]; intros H; simpl; [done|]. rewrite H by left.
  rewrite IH; [done|]. intros y Hy. apply H. by right.
Qed.

Lemma qsum_plus {A} (f g : A -> Qc) l : qsum (fun x => f x + g x) l = qsum f l + qsum g l.
Proof. induction l as [|x l IH]; simpl; [ring|]. rewrite IH. ring. Qed.

Lemma qsum_scale {A} c (f : A -> Qc) l : qsum (fun x => c * f x) l = c * qsum f l.
Proof. induction l as [|x l IH]; simpl; [ring|]. rewrite IH. ring. Qed.

Lemma qsum_swap {A B} (f : A -> B -> Qc) la lb :
  qsum (fun a => qsum (f a) lb) la = qsum (fun b => qsum (fun a => f a b) la) lb.
Proof.
  induction la as [|a la IH]; simpl.
  - induction lb as [|b lb IHb]; simpl; [done|]. rewrite <- IHb. ring.
  - rewrite IH, <- qsum_plus. done.
Qed.

Lemma qsum_perm {A} (f : A -> Qc) l1 l2 : l1 ≡ₚ l2 -> qsum f l1 = qsum f l2.
Proof. induction 1; simpl; [done|by rewrite IHPermutation|ring|by rewrite IHPermutation1]. Qed.

Lemma qsum_filter {A} (P : A -> Prop) `{!forall x, Decision (P x)} (f : A -> Qc) l :
  qsum f (filter P l) = qsum (fun x => if decide (P x) then f x else 0) l.
Proof.
  induction l as [|x l IH]; [done|]. rewrite filter_cons. simpl.
  case_decide; simpl; rewrite IH; [done|ring].
Qed.

Lemma qsum_const {A} c (l : list A) : qsum (fun _ => c) l = Q2Qc (inject_Z (Z.of_nat (length l))) * c.
Proof.
  induction l as [|x l IH]; simpl length; [symmetry; apply Qcmult_0_l|]. cbn [qsum]. rewrite IH.
  assert (Q2Qc (inject_Z (Z.of_nat (S (length l)))) = 1 + Q2Qc (inject_Z (Z.of_nat (length l)))) as ->; [|ring].
  apply Qc_is_canon. simpl. rewrite !Qred_correct. unfold inject_Z, Qeq, Qplus. simpl. lia.
Qed.

Lemma of_nat_pos k : (0 < k)%nat -> Q2Qc (inject_Z (Z.of_nat k)) <> 0.
Proof.
  intros Hk Heq. apply (proj1 (Q2Qc_eq_iff _ 0%Q)) in Heq. unfold inject_Z, Qeq in Heq. simpl in Heq. lia.
Qed.

(** Edges are symmetric. *)
Definition graph_ok (g : agreementGraph) : Prop := forall u v, row g u !! v = row g v !! u.

Context (g : agreementGraph) (Hg : graph_ok g).

Abbreviation us := (nodes g).
Abbreviation ow := (out_weights (F := Qc) g).
Abbreviation nq k := (Q2Qc (inject_Z (Z.of_nat k))).

Lemma row_node u v c : row g u !! v = Some c -> u ∈ us.
Proof.
  intros H. unfold nodes. rewrite elem_of_sort_strings. unfold row in H.
  destruct (adj g !! u) as [r|] eqn:E; [|simpl in H; by rewrite lookup_empty in H].
  apply list_elem_of_fmap. exists (u, r). split; [done|]. by apply elem_of_map_to_list.
Qed.

Lemma nodes_NoDup : NoDup us.
Proof. unfold nodes. rewrite sort_strings_Permutation. apply NoDup_fst_map_to_list. Qed.

Lemma list_to_map_lookup {A} (f : string -> A) u :
  u ∈ us -> (list_to_map ((fun u => (u, f u)) <$> us) : gmap string A) !! u = Some (f u).
Proof.
  intros Hu. apply elem_of_list_to_map_1.
  - rewrite <- list_fmap_compose. cbn. rewrite list_fmap_id. apply nodes_NoDup.
  - apply list_elem_of_fmap. by exists u.
Qed.

Lemma ow_at u : u ∈ us -> rank_at ow u = out_weight g u.
Proof. intros Hu. unfold rank_at, out_weights. by rewrite list_to_map_lookup. Qed.

(** A node's neighbours are nodes. *)
Lemma neighbors_filter u : u ∈ us -> neighbors g u ≡ₚ filter (fun v => is_Some (row g u !! v)) us.
Proof.
  intros Hu. unfold neighbors. rewrite sort_strings_Permutation. apply NoDup_Permutation.
  - apply NoDup_fst_map_to_list.
  - apply NoDup_filter, nodes_NoDup.
  - intros v. rewrite list_elem_of_fmap, list_elem_of_filter. split.
    + intros ([v' c] & -> & Hc%elem_of_map_to_list). simpl. split; [by eexists|].
      apply (row_node v' u c). by rewrite <- Hg.
    + intros [[c Hc] _]. exists (v, c). split; [done|]. by apply elem_of_map_to_list.
Qed.

Lemma out_weight_sum u : u ∈ us -> out_weight g u = qsum (fun v => nq (weight g u v)) us.
Proof.
  intros Hu. unfold out_weight. cbn [a_add a_of_nat a_zero Qc_Arith].
  rewrite (foldl_qsum (fun vc : string * nat => nq vc.2)).
  assert (qsum (fun v => nq (weight g u v)) us = qsum (fun v => nq (weight g u v)) (neighbors g u)) as ->.
  { rewrite (qsum_perm _ _ _ (neighbors_filter u Hu)), qsum_filter. apply qsum_ext. intros v _.
    case_decide as Hd; [done|]. unfold weight. destruct (row g u !! v) eqn:E; [destruct Hd; by eexists|done]. }
  unfold neighbors. rewrite (qsum_perm _ (sort_strings _) _ (sort_strings_Permutation _)).
  assert (forall l : list (string * nat), (forall v c, (v, c) ∈ l -> row g u !! v = Some c) ->
    qsum (fun vc => nq vc.2) l = qsum (fun v => nq (weight g u v)) l.*1) as H.
  { induction l as [|[v c] l IH]; intros Hl; [done|]. cbn. rewrite IH.
    - f_equal. unfold weight. by rewrite (Hl v c) by left.
    - intros v' c' H'. apply Hl. by right. }
  rewrite H; [ring|]. intros v c. by rewrite elem_of_map_to_list.
Qed.

(** The rank [v] passes to [u]. *)
Definition share (rank : gmap string Qc) (v u : string) : Qc :=
  if a_lt 0 (rank_at ow v) then nq (weight g v u) / rank_at ow v * rank_at rank v else 0.

Lemma inflow_sum rank u :
  u ∈ us -> inflow g ow rank u (neighbors g u) = qsum (fun v => share rank v u) us.
Proof.
  intros Hu. unfold inflow.
  rewrite (foldl_ext _ (fun acc v => acc + share rank v u)); [|intros acc v _; unfold share].
  2: { cbn [a_zero a_add a_mul a_div a_of_nat Qc_Arith]. destruct (a_lt _ _); [done|]. cbn. ring. }
  rewrite foldl_qsum. cbn [a_zero Qc_Arith].
  rewrite (qsum_perm _ _ _ (neighbors_filter u Hu)), qsum_filter.
  assert (forall a : Qc, 0 + a = a) as -> by (intros; ring). apply qsum_ext. intros v _.
  case_decide as Hd; [done|]. unfold share.
  assert (weight g v u = 0%nat) as ->.
  { unfold weight. rewrite Hg. destruct (row g u !! v) eqn:E; [destruct Hd; by eexists|done]. }
  destruct (a_lt _ _); [|done]. change (nq 0) with 0. unfold Qcdiv. ring.
Qed.

(** A node passes on its whole rank, unless it has no out-weight. *)
Lemma share_total rank v :
  v ∈ us -> qsum (share rank v) us = if a_lt 0 (rank_at ow v) then rank_at rank v else 0.
Proof.
  intros Hv. unfold share. destruct (a_lt 0 (rank_at ow v)) eqn:E.
  - rewrite (qsum_ext _ (fun u => (rank_at rank v / rank_at ow v) * nq (weight g v u))).
    + rewrite qsum_scale, <- out_weight_sum, ow_at by done. cbn [a_lt Qc_Arith] in E.
      rewrite ow_at in E by done. destruct (Qclt_le_dec 0 (out_weight g v)) as [Hlt|]; [|done].
      field. intros H0. rewrite H0 in Hlt. by apply Qclt_not_eq in Hlt.
    + intros u _. unfold Qcdiv. ring.
  - clear. induction us as [|u l IH]; simpl; [done|]. rewrite IH. ring.
Qed.

Lemma ow_dichotomy v : v ∈ us -> a_eq0 (rank_at ow v) = negb (a_lt 0 (rank_at ow v)).
Proof.
  intros Hv. rewrite ow_at, out_weight_sum by done. cbn [a_eq0 a_lt Qc_Arith].
  assert (0 <= qsum (fun u => nq (weight g v u)) us) as Hge.
  { clear. induction us as [|u l IH]; simpl; [apply Qcle_refl|].
    replace 0 with (0 + 0) by ring. apply Qcplus_le_compat; [|done].
    unfold Qcle. simpl. rewrite !Qred_correct. unfold inject_Z, Qle. cbn [Qnum Qden]. lia. }
  destruct (Qclt_le_dec 0 _) as [Hlt|Hle]; destruct (Qc_eq_dec _ 0) as [He|Hne]; try done.
  - rewrite He in Hlt. by apply Qclt_not_eq in Hlt.
  - destruct Hne. by apply Qcle_antisym.
Qed.

(** The total rank of the nodes. *)
Definition total (rank : gmap string Qc) : Qc := qsum (rank_at rank) us.

Lemma pr_step_ranks rank next :
  let nv u := a_add (a_add (a_div one_minus_damping (nq (length us)))
                  (a_div (a_mul pageRankDamping
                     (foldl (fun d u => if a_eq0 (rank_at ow u) then a_add d (rank_at rank u) else d) a_zero us))
                     (nq (length us))))
                (a_mul pageRankDamping (inflow g ow rank u (neighbors g u))) in
  forall u, u ∈ us -> rank_at (pr_step g ow (neighbor_lists g) rank next).1 u = nv u.
Proof.
  cbv zeta. intros u Hu. unfold pr_step. cbv zeta. change (a_of_nat (length us)) with (nq (length us)).
  set (ts := a_div one_minus_damping _). set (ds := a_div _ (nq _)). clearbody ts ds.
  assert (forall l (st : gmap string Qc * Qc), u ∈ l -> (forall x, x ∈ l -> x ∈ us) ->
    rank_at (foldl (fun '(next, delta) u =>
      (<[u := a_add (a_add ts ds) (a_mul pageRankDamping (inflow g ow rank u (default [] (neighbor_lists g !! u))))]> next,
       a_add delta (a_abs (a_sub (a_add (a_add ts ds)
          (a_mul pageRankDamping (inflow g ow rank u (default [] (neighbor_lists g !! u))))) (rank_at rank u)))))
      st l).1 u = a_add (a_add ts ds) (a_mul pageRankDamping (inflow g ow rank u (neighbors g u)))) as H.
  { intros l. induction l as [|x l IH] using rev_ind; intros [m d] Hin Hl; [by apply elem_of_nil in Hin|].
    rewrite foldl_app. cbn [foldl]. destruct (foldl _ (m, d) l) as [m' d'] eqn:E. cbn [fst].
    unfold rank_at at 1. destruct (decide (x = u)) as [->|Hne].
    - rewrite lookup_insert_eq. cbn [default]. unfold neighbor_lists. by rewrite list_to_map_lookup.
    - rewrite lookup_insert_ne by done. fold (rank_at m' u).
      specialize (IH (m, d)). rewrite E in IH. apply IH.
      + apply elem_of_app in Hin as [?|?%list_elem_of_singleton]; [done|congruence].
      + intros y Hy. apply Hl, elem_of_app. by left. }
  by apply H.
Qed.

Lemma pr_step_total rank next :
  us <> [] -> total (pr_step g ow (neighbor_lists g) rank next).1 =
    one_minus_damping + pageRankDamping * total rank.
Proof.
  intros Hne. unfold total. rewrite (qsum_ext _ _ _ (pr_step_ranks rank next)).
  set (d := foldl _ a_zero us). cbn [a_add a_mul a_div Qc_Arith].
  rewrite !qsum_plus, !qsum_const, qsum_scale.
  rewrite (qsum_ext _ _ us (fun u Hu => inflow_sum rank u Hu)), qsum_swap.
  rewrite (qsum_ext (fun v => qsum (fun u => share rank v u) us) _ us (share_total rank)).
  assert (d = qsum (fun u => if a_eq0 (rank_at ow u) then rank_at rank u else 0) us) as ->.
  { unfold d. rewrite (foldl_ext _ (fun acc u => acc + (if a_eq0 (rank_at ow u) then rank_at rank u else 0))).
    - rewrite foldl_qsum. cbn. ring.
    - intros acc u _. destruct (a_eq0 _); [done|]. ring. }
  assert (qsum (rank_at rank) us =
    qsum (fun u => if a_eq0 (rank_at ow u) then rank_at rank u else 0) us +
    qsum (fun v => if a_lt 0 (rank_at ow v) then rank_at rank v else 0) us) as ->.
  { rewrite <- qsum_plus. apply qsum_ext. intros v Hv. rewrite ow_dichotomy by done.
    destruct (a_lt 0 (rank_at ow v)); cbn [negb]; ring. }
  field. apply of_nat_pos. destruct us; [done|simpl; lia].
Qed.

Lemma damping_split : (one_minus_damping : Qc) + pageRankDamping * 1 = 1.
Proof. cbn [one_minus_damping pageRankDamping Qc_Arith]. ring. Qed.

Lemma pr_iter_total fuel rank next :
  us <> [] -> total rank = 1 -> total (pr_iter fuel g ow (neighbor_lists g) rank next) = 1.
Proof.
  intros Hne. revert rank next. induction fuel as [|fuel IH]; intros rank next H; cbn [pr_iter]; [done|].
  pose proof (pr_step_total rank next Hne) as Hs. destruct (pr_step _ _ _ _ _) as [next' delta].
  cbn [fst] in Hs. rewrite H, damping_split in Hs. destruct (a_lt _ _); [done|by apply IH].
Qed.

Lemma pageRank_total : us <> [] -> total (pageRank g) = 1.
Proof.
  intros Hne. unfold pageRank. assert (length us <> 0%nat) as Hl by (by destruct us).
  rewrite (proj2 (Nat.eqb_neq _ _)) by done. apply pr_iter_total; [done|].
  unfold total. rewrite (qsum_ext _ (fun _ => 1 / nq (length us))).
  - rewrite qsum_const. field. apply of_nat_pos. lia.
  - intros u Hu. unfold rank_at. by rewrite (list_to_map_lookup (fun _ => _)).
Qed.
End conservation.

Lemma addEdge_ok g u v : u <> v -> graph_ok g -> graph_ok (addEdge g u v).
Proof.
  intros Hne Hg x y. rewrite !addEdge_row by done. unfold weight. rewrite (Hg y x).
  repeat case_decide; try done; tauto.
Qed.

Lemma add_pairs_ok g l : NoDup l -> graph_ok g -> graph_ok (add_pairs g l).
Proof.
  intros Hnd. revert g. induction Hnd as [|u l Hu Hnd IH]; intros g Hg; simpl; [done|].
  apply IH. apply (foldl_preserves graph_ok); [done|]. intros g' v Hv. apply addEdge_ok. by intros ->.
Qed.

Lemma agreement_graph_ok {U : UnicodeCase} groups : graph_ok (agreement_graph groups).1.
Proof.
  unfold agreement_graph. apply (foldl_preserves (fun st : agreementGraph * bool => graph_ok st.1)).
  - intros u v. done.
  - intros [g b] group _ Hg. unfold agreement_step. destruct (2 <=? _); [|done]. simpl.
    unfold addAgreement. pose proof (distinctReviewers_NoDup group) as Hnd.
    rewrite distinct_names_id; [|done|by intros [? _]%elem_of_distinctReviewers].
    apply add_pairs_ok; [|done].
    assert (NoDup (sort_strings (distinctReviewers group))) as Hs by (by rewrite sort_strings_Permutation).
    destruct (_ <? _); [|done]. apply (sublist_NoDup _ _ Hs), sublist_take.
Qed.

(** Scores sum to 1: in exact arithmetic, however many iterations run, the
    authority of the models of a run adds up to exactly 1 (every damped step
    conserves the total, dangling mass included). *)
Theorem pageRank_conserves {U : UnicodeCase} (groups : list (list Finding)) :
  nodes (agreement_graph groups).1 <> [] ->
  qsum (rank_at (pageRank (F := Qc) (agreement_graph groups).1)) (nodes (agreement_graph groups).1) = 1%Qc.
Proof. apply pageRank_total, agreement_graph_ok. Qed.

(** Authority only promotes: the result differs from the input only in the
    confidence, and then a MEDIUM single-reviewer finding became HIGH because its
    reviewer's score is above the baseline. *)
Theorem promoteByAuthority_only (m : Merged) (authority : gmap string float64) (baseline : float64) :
  promoteByAuthority m authority baseline = m \/
  (promoteByAuthority m authority baseline = with_confidence m ConfHigh /\
   Confidence (m_Finding m) = ConfMedium /\
   exists r score, Reviewers (m_Finding m) = [r] /\ authority !! r = Some score /\ f_gt score baseline = true).
Proof.
  unfold promoteByAuthority. destruct (_ || _) eqn:E; [by left|].
  apply orb_false_iff in E as [[_ E2]%orb_false_iff E3].
  apply negb_false_iff, Nat.eqb_eq in E2. apply negb_false_iff, String.eqb_eq in E3.
  destruct (Reviewers (m_Finding m)) as [|r [|? ?]] eqn:Er; try done. simpl.
  destruct (authority !! r) as [score|] eqn:Ea; [|by left].
  destruct (f_gt score baseline) eqn:Eg; [right|by left]. split_and!; [done|done|]. by exists r, score.
Qed.

#[local] Existing Instance ascii_case.

Definition by_reviewer (r : string) : Finding := mkFinding "LOW" "a.go" 3 "p" "" "" 5 "" r [] "" "" None.
Definition two_groups : list (list Finding) :=
  [[by_reviewer "a"; by_reviewer "b"]; [by_reviewer "a"; by_reviewer "c"]].

Lemma agreement_graph_weights_witness :
  Forall (fun g => length (distinctReviewers g) <= maxDistinctReviewers)%nat two_groups /\
  weight (agreement_graph two_groups).1 "a" "b" =
    (if decide ("a" = "b") then 0 else agreements two_groups "a" "b") /\
  weight (agreement_graph two_groups).1 "b" "a" = weight (agreement_graph two_groups).1 "a" "b".
Proof.
  assert (Forall (fun g => length (distinctReviewers g) <= maxDistinctReviewers)%nat two_groups) as H.
  { repeat constructor; apply Nat.leb_le; by vm_compute. }
  split; [exact H|]. apply (agreement_graph_weights two_groups "a" "b" H).
Defined.

Lemma pageRank_conserves_witness :
  nodes (agreement_graph two_groups).1 = ["a"; "b"; "c"] /\
  qsum (rank_at (pageRank (F := Qc) (agreement_graph two_groups).1)) (nodes (agreement_graph two_groups).1) = 1%Qc.
Proof. split; [by vm_compute|]. apply (pageRank_conserves two_groups). by vm_compute. Defined.
