(* ===== verification/Consensus.v ===== *)
(** * The consensus filter and the trust prior

    src/reconcile/consensus.go: the levels of the filter, the exemptions, the panel
    size, and the demotion of low-trust singletons. Every predicate is a pure
    function of one finding; [Reconcile.v] composes them. *)

From Stdlib Require Import Ascii String.
From stdpp Require Import prelude strings gmap list sorting.
From Stdlib Require Import ZArith Lia.
From S2P Require Import Prelude GoString GoFloat Finding Ambiguous Dedupe Merge PageRank.

Open Scope string_scope.
Open Scope list_scope.

Definition consensusMinReviewers : nat := 3.

Definition ConsensusOff : string := "off".
Definition ConsensusLenient : string := "lenient".
Definition ConsensusStrict : string := "strict".

Definition consensusLevels : list string := [ConsensusStrict; ConsensusLenient; ConsensusOff].
(** The accessor returns a fresh slice; values here are immutable. *)
Definition ConsensusLevels : list string := consensusLevels.

Definition trustHighThreshold : float64 := f_const 7 10.
Definition trustLowThreshold : float64 := f_const 3 10.

Section consensus.
Context {U : UnicodeCase}.

Definition NormalizeConsensus (v : string) : string * bool :=
  let c := ToLower (TrimSpace v) in
  if c =? "" then (ConsensusStrict, true)
  else if (c =? ConsensusStrict) || (c =? ConsensusLenient) || (c =? ConsensusOff) then (c, true)
  else ("", false).

Definition effectiveConsensus (level : string) : string :=
  let '(c, ok) := NormalizeConsensus level in if (ok : bool) then c else ConsensusStrict.

(** The floor, and whether the filter runs. *)
Definition consensusFloor (level : string) : string * bool :=
  let '(c, ok) := NormalizeConsensus level in
  if (ok : bool) && (c =? ConsensusOff) then (ConfHigh, false)
  else if ok && (c =? ConsensusLenient) then (ConfMedium, true)
  else if ok && (c =? ConsensusStrict) then (ConfHigh, true)
  else (ConfHigh, true).

Definition securityRelated (category : string) : bool :=
  let c := ToLower (TrimSpace category) in
  if (c =? CategorySecurity) || (c =? CategorySecret) || (c =? CategoryInputValidation) then true
  else Contains c "vuln" || Contains c "auth" || Contains c "inject".

(** The distinct non-empty reviewers across all sources. *)
Definition panelReviewers (sources : list Source) : nat :=
  size (foldl (fun seen s =>
      foldl (fun seen f => if negb (Reviewer f =? "") then {[Reviewer f]} ∪ seen else seen)
        seen (src_Findings s)) (∅ : gset string) sources).

Definition consensusSingletonAt (m : Merged) (floor : string) : bool :=
  if (index0 confidenceRank (ToUpper (TrimSpace floor)) =? 0)%Z then false
  else if (2 <=? length (Reviewers (m_Finding m)))%nat then false
  else negb (ConfidenceAtOrAbove (Confidence (m_Finding m)) floor).

Definition consensusExempt (f : Finding) : bool :=
  let cat := ToLower (TrimSpace (Category f)) in
  if securityRelated cat || (cat =? CategoryOutOfScope) then true
  else
    let sev := NormalizeSeverity (Severity f) in
    if (sev =? SevCritical) || (sev =? SevHigh) then true
    else match Verification_ f with
         | Some v => Verdict v =? VerdictConfirmed
         | None => false
         end.

Definition trustExempt (f : Finding) (priors : gmap string float64) : bool :=
  if (size priors =? 0)%nat || negb (length (Reviewers f) =? 1)%nat then false
  else match priors !! ToLower (Reviewers f !!! 0) with
       | Some rate => f_ge rate trustHighThreshold
       | None => false
       end.

Definition demoteByTrust (m : Merged) (priors : gmap string float64) : Merged :=
  if (size priors =? 0)%nat || negb (Confidence (m_Finding m) =? ConfMedium)
     || negb (length (Reviewers (m_Finding m)) =? 1)%nat
  then m
  else match priors !! ToLower (Reviewers (m_Finding m) !!! 0) with
       | Some rate => if f_le rate trustLowThreshold then with_confidence m ConfLow else m
       | None => m
       end.

Definition consensusNoiseCluster (f : Finding) : AmbiguousCluster := singletonAmbiguousCluster f.

(** ** Properties of the levels and floors *)

Lemma NormalizeConsensus_levels v c : NormalizeConsensus v = (c, true) -> c ∈ consensusLevels.
Proof.
  unfold NormalizeConsensus. set (w := ToLower (TrimSpace v)).
  destruct (String.eqb_spec w "") as [|]; [intros [= <-]; left|].
  destruct (String.eqb_spec w ConsensusStrict) as [->|]; simpl; [intros [= <-]; left|].
  destruct (String.eqb_spec w ConsensusLenient) as [->|]; simpl; [intros [= <-]; right; left|].
  destruct (String.eqb_spec w ConsensusOff) as [->|]; simpl; [intros [= <-]; right; right; left|done].
Qed.

Lemma NormalizeConsensus_level l : l ∈ consensusLevels -> NormalizeConsensus l = (l, true).
Proof. intros H. unfold consensusLevels in H. rewrite !elem_of_cons in H. by destruct H as [->|[->|[->|?%elem_of_nil]]]. Qed.

Lemma consensusFloor_on level :
  effectiveConsensus level <> ConsensusOff -> (consensusFloor (effectiveConsensus level)).2 = true.
Proof.
  unfold effectiveConsensus. destruct (NormalizeConsensus level) as [c ok] eqn:E. destruct ok; [|done].
  pose proof (NormalizeConsensus_levels _ _ E) as Hin. intros Hc.
  unfold consensusLevels in Hin. rewrite !elem_of_cons in Hin. by destruct Hin as [->|[->|[->|?%elem_of_nil]]].
Qed.

(** The level the filter records is always canonical and is the one it runs at:
    [effectiveConsensus] answers one of the three levels, is its own fixed point,
    and has the same floor and switch as the raw token, so an unset or unknown
    level is strict and never switches the filter off. *)
Theorem effectiveConsensus_canonical (level : string) :
  effectiveConsensus level ∈ ConsensusLevels /\
  effectiveConsensus (effectiveConsensus level) = effectiveConsensus level /\
  consensusFloor (effectiveConsensus level) = consensusFloor level /\
  ((consensusFloor level).2 = false <-> effectiveConsensus level = ConsensusOff) /\
  ((NormalizeConsensus level).2 = false -> effectiveConsensus level = ConsensusStrict).
Proof.
  assert (forall c, c ∈ consensusLevels ->
    consensusFloor c = (if decide (c = ConsensusLenient) then ConfMedium else ConfHigh, bool_decide (c <> ConsensusOff)) /\
    effectiveConsensus c = c) as Hc.
  { intros c Hc. unfold effectiveConsensus, consensusFloor. rewrite (NormalizeConsensus_level _ Hc).
    unfold consensusLevels in Hc. rewrite !elem_of_cons in Hc.
    by destruct Hc as [->|[->|[->|?%elem_of_nil]]]. }
  destruct (NormalizeConsensus level) as [c ok] eqn:E. destruct ok.
  - pose proof (NormalizeConsensus_levels _ _ E) as Hin. destruct (Hc c Hin) as [Hf He].
    assert (effectiveConsensus level = c) as -> by (unfold effectiveConsensus; by rewrite E).
    assert (consensusFloor level = consensusFloor c) as ->.
    { unfold consensusFloor. by rewrite E, (NormalizeConsensus_level _ Hin). }
    split_and!; [done|done|done| |done]. rewrite Hf. simpl. rewrite bool_decide_eq_false.
    split; [apply dec_stable|tauto].
  - assert (effectiveConsensus level = ConsensusStrict) as -> by (unfold effectiveConsensus; by rewrite E).
    assert (consensusFloor level = (ConfHigh, true)) as -> by (unfold consensusFloor; by rewrite E).
    split_and!; [left|done|done|done|done].
Qed.

Lemma ConfidenceAtOrAbove_floors c :
  ConfidenceAtOrAbove c ConfHigh = true -> ConfidenceAtOrAbove c ConfMedium = true.
Proof.
  unfold ConfidenceAtOrAbove. set (r := index0 confidenceRank (ToUpper (TrimSpace c))).
  change (index0 confidenceRank (ToUpper (TrimSpace ConfHigh))) with 3%Z.
  change (index0 confidenceRank (ToUpper (TrimSpace ConfMedium))) with 2%Z. simpl.
  destruct (Z.eqb_spec r 0); simpl; [done|]. rewrite !Z.leb_le. lia.
Qed.

(** The predicate of the filter: the finding is routed to the sidecar. *)
Definition filtered (floor : string) (priors : gmap string float64) (m : Merged) : bool :=
  consensusSingletonAt m floor && negb (consensusExempt (m_Finding m))
    && negb (trustExempt (m_Finding m) priors).

Lemma consensusFloor_cases level :
  consensusFloor level = (ConfHigh, false) \/ consensusFloor level = (ConfMedium, true) \/
  consensusFloor level = (ConfHigh, true).
Proof.
  unfold consensusFloor. destruct (NormalizeConsensus level) as [c ok].
  destruct ok, (c =? ConsensusOff), (c =? ConsensusLenient), (c =? ConsensusStrict); simpl; tauto.
Qed.

Lemma filtered_singleton floor priors m :
  filtered floor priors m = true <->
  consensusSingletonAt m floor = true /\ consensusExempt (m_Finding m) = false /\
  trustExempt (m_Finding m) priors = false.
Proof. unfold filtered. rewrite !andb_true_iff, !negb_true_iff. tauto. Qed.

Lemma singleton_floors m :
  consensusSingletonAt m ConfMedium = true -> consensusSingletonAt m ConfHigh = true.
Proof.
  unfold consensusSingletonAt.
  change (index0 confidenceRank (ToUpper (TrimSpace ConfHigh))) with 3%Z.
  change (index0 confidenceRank (ToUpper (TrimSpace ConfMedium))) with 2%Z. cbn [Z.eqb].
  destruct (2 <=? length (Reviewers (m_Finding m)))%nat; [done|]. rewrite !negb_true_iff. intros H.
  destruct (ConfidenceAtOrAbove _ ConfHigh) eqn:E; [|done]. apply ConfidenceAtOrAbove_floors in E. congruence.
Qed.

(** The levels are nested: whatever the lenient bar sidecars the strict bar
    sidecars too, and no bar sidecars a corroborated finding (two reviewers), a
    finding of HIGH or VERIFIED confidence, a security or out-of-scope finding, one
    of CRITICAL or HIGH severity, or one of a trusted reviewer. *)
Theorem consensus_nested (priors : gmap string float64) (m : Merged) (level : string) :
  (filtered ConfMedium priors m = true -> filtered ConfHigh priors m = true) /\
  (filtered (consensusFloor level).1 priors m = true ->
     (length (Reviewers (m_Finding m)) < 2)%nat /\
     Confidence (m_Finding m) <> ConfHigh /\ Confidence (m_Finding m) <> ConfidenceVerified /\
     securityRelated (ToLower (TrimSpace (Category (m_Finding m)))) = false /\
     ToLower (TrimSpace (Category (m_Finding m))) <> CategoryOutOfScope /\
     NormalizeSeverity (Severity (m_Finding m)) <> SevCritical /\
     NormalizeSeverity (Severity (m_Finding m)) <> SevHigh /\
     trustExempt (m_Finding m) priors = false).
Proof.
  split.
  - rewrite !filtered_singleton. intros (? & ? & ?). split; [by apply singleton_floors|done].
  - rewrite filtered_singleton. intros (Hs & He & Ht).
    assert (consensusSingletonAt m ConfHigh = true) as Hh.
    { destruct (consensusFloor_cases level) as [E|[E|E]]; rewrite E in Hs; simpl in Hs; [done| |done].
      by apply singleton_floors. }
    unfold consensusSingletonAt in Hh. change (index0 confidenceRank (ToUpper (TrimSpace ConfHigh))) with 3%Z in Hh.
    cbn [Z.eqb] in Hh. destruct (Nat.leb_spec 2 (length (Reviewers (m_Finding m)))); [done|].
    apply negb_true_iff in Hh. unfold consensusExempt in He.
    destruct (securityRelated _ || _) eqn:Es; [done|]. apply orb_false_iff in Es as [Es1 Es2%String.eqb_neq].
    destruct (_ || _) eqn:Ev in He; [done|]. apply orb_false_iff in Ev as [Ev1%String.eqb_neq Ev2%String.eqb_neq].
    split_and!; try done; intros Hc; by rewrite Hc in Hh.
Qed.

(** Trust only demotes, and only what is still MEDIUM: the result differs from
    the input only in the confidence, and then a MEDIUM single-reviewer finding
    became LOW because its reviewer's recorded rate is at most 0.3 — a promoted
    or corroborated finding is never touched. *)
Theorem demoteByTrust_only (m : Merged) (priors : gmap string float64) :
  demoteByTrust m priors = m \/
  (demoteByTrust m priors = with_confidence m ConfLow /\
   Confidence (m_Finding m) = ConfMedium /\
   exists r rate, Reviewers (m_Finding m) = [r] /\ priors !! ToLower r = Some rate /\
     f_le rate trustLowThreshold = true).
Proof.
  unfold demoteByTrust. destruct (_ || _) eqn:E; [by left|].
  apply orb_false_iff in E as [[_ E2]%orb_false_iff E3].
  apply negb_false_iff, String.eqb_eq in E2. apply negb_false_iff, Nat.eqb_eq in E3.
  destruct (Reviewers (m_Finding m)) as [|r [|? ?]] eqn:Er; try done. simpl.
  destruct (priors !! ToLower r) as [rate|] eqn:Ea; [|by left].
  destruct (f_le rate trustLowThreshold) eqn:Eg; [right|by left]. split_and!; [done|done|]. by exists r, rate.
Qed.

(** Confidence comparison is a total preorder on the four tiers that fails
    closed: it holds exactly when both tokens are known tiers (in any case, with
    any surrounding space) and the first ranks no lower. *)
Theorem ConfidenceAtOrAbove_spec (c floor : string) :
  ConfidenceAtOrAbove c floor = true <->
  exists rc rf, confidenceRank !! ToUpper (TrimSpace c) = Some rc /\
    confidenceRank !! ToUpper (TrimSpace floor) = Some rf /\ (rf <= rc)%Z.
Proof.
  assert (forall k r, confidenceRank !! k = Some r -> (1 <= r <= 4)%Z) as Hr.
  { intros k r. unfold confidenceRank. intros H.
    repeat (apply lookup_insert_Some in H as [[_ <-]|[_ H]]; [lia|]).
    apply lookup_singleton_Some in H as [_ <-]. lia. }
  unfold ConfidenceAtOrAbove, index0.
  destruct (confidenceRank !! ToUpper (TrimSpace c)) as [rc|] eqn:Ec; simpl; [|split; [done|by intros (? & ? & ? & _)]].
  destruct (confidenceRank !! ToUpper (TrimSpace floor)) as [rf|] eqn:Ef; simpl.
  - pose proof (Hr _ _ Ec). pose proof (Hr _ _ Ef).
    rewrite (proj2 (Z.eqb_neq rc 0)), (proj2 (Z.eqb_neq rf 0)) by lia. simpl. rewrite Z.leb_le.
    split; [intros; by exists rc, rf|by intros (? & ? & [= <-] & [= <-] & ?)].
  - rewrite orb_true_r. split; [done|by intros (? & ? & _ & ? & _)].
Qed.
End consensus.
