(* ===== verification/Reconcile.v ===== *)
(** * The reconcile pipeline

    src/reconcile/reconcile.go: flatten, collapse identical rows, cluster, dedupe
    every cluster, merge every group, promote by authority, sort, demote by trust,
    filter uncorroborated singletons, and summarize. [None] is a panic of a step. *)

From Stdlib Require Import Ascii String.
From stdpp Require Import prelude strings gmap list sorting.
From Stdlib Require Import ZArith Lia.
From S2P Require Import Prelude GoString GoSort GoFloat GoJson JsonDecode JsonRoundtrip Finding Ambiguous FindingJson Cluster Similarity Hungarian FloatBound Bipartite Dedupe Merge PageRank Consensus.

Open Scope string_scope.
Open Scope list_scope.
Open Scope nat_scope.

(** ** [time.Time.Format(time.RFC3339)] in UTC *)

(** An instant is its Unix second. The civil date of a day number, proleptic
    Gregorian. *)
Definition civil_from_days (z : Z) : Z * Z * Z :=
  (let z := z + 719468 in
   let era := z / 146097 in
   let doe := z mod 146097 in
   let yoe := (doe - doe / 1460 + doe / 36524 - doe / 146096) / 365 in
   let doy := doe - (365 * yoe + yoe / 4 - yoe / 100) in
   let mp := (5 * doy + 2) / 153 in
   let d := doy - (153 * mp + 2) / 5 + 1 in
   let m := if mp <? 10 then mp + 3 else mp - 9 in
   (yoe + era * 400 + (if m <=? 2 then 1 else 0), m, d))%Z.

(** Zero-padded to a width. *)
Definition pad (width : nat) (n : Z) : string :=
  let s := Itoa n in of_bytes (replicate (width - String.length s) (byte_of 48)) +:+ s.

Definition RFC3339 (t : Z) : string :=
  let '(y, m, d) := civil_from_days (t / 86400)%Z in
  let s := (t mod 86400)%Z in
  pad 4 y +:+ "-" +:+ pad 2 m +:+ "-" +:+ pad 2 d +:+ "T" +:+
  pad 2 (s / 3600)%Z +:+ ":" +:+ pad 2 ((s mod 3600) / 60)%Z +:+ ":" +:+ pad 2 (s mod 60)%Z +:+ "Z".

Example rfc3339_leap_day : RFC3339 1709210096 = "2024-02-29T12:34:56Z".
Proof. by vm_compute. Qed.
Example rfc3339_zero_time : RFC3339 (-62135596800) = "0001-01-01T00:00:00Z".
Proof. by vm_compute. Qed.

(** ** Records *)

(** [Options]. An adjudicated id is a key of [Merges] with value true. *)
Record Options := mkOptions {
  ReconciledAt : Z;
  Partial : bool;
  Merges : gset string;
  Root : string;
  IgnoreRoot : string;
  opt_Grouper : option Grouper;
  TrustPriors : gmap string float64;
  OpportunityScoped : gmap string bool;
  Consensus : string;
}.

(** [Summary]. *)
Record Summary := mkSummary {
  SourcesScanned : list string;
  PerSourceCounts : gmap string nat;
  ClustersCollapsed : nat;
  SeverityDisagreements : nat;
  AuthorityPromoted : nat;
  sum_Partial : bool;
  SkippedSources : list string;
  SkippedSourceCount : nat;
  sum_AmbiguousHash : string;
  AmbiguousCount : nat;
  NoiseCount : nat;
  ConsensusFiltered : nat;
  UnresolvedFiltered : nat;
  UnresolvedState : string;
  ConsensusLevel : string;
  TrustPriorsResolved : nat;
  sum_OpportunityScoped : gmap string bool;
  OutOfScope : nat;
  TotalFindings : nat;
  sum_ReconciledAt : string;
}.

Record Result := mkResult {
  res_Findings : list Merged;
  res_Ambiguous : list AmbiguousCluster;
  res_Summary : Summary;
}.

Definition UnresolvedStateApplied : string := "applied".
Definition UnresolvedStateDisabled : string := "disabled".
Definition UnresolvedStateUnavailable : string := "unavailable".
Definition UnresolvedStateIncomplete : string := "incomplete".
Definition UnresolvedReasonDocShield : string := "doc_shield".

(** ** Helpers *)

(** A nil map and an empty one are the same value here, and serialize alike. *)
Definition copyFlags (m : gmap string bool) : gmap string bool :=
  if size m =? 0 then ∅ else map_fold (fun k v out => <[k := v]> out) ∅ m.

Definition AllFindings (sources : list Source) : list Finding :=
  foldl (fun out s => out ++ src_Findings s) [] sources.

(** The key of a finding: its JSON bytes, [None] on a marshal error. *)
Definition finding_key (f : Finding) : option string := of_bytes <$> Marshal (json_of_Finding f).

Definition collapse_step (st : gset string * list Finding) (f : Finding) : gset string * list Finding :=
  let '(seen, out) := st in
  match finding_key f with
  | None => (seen, out ++ [f])
  | Some key => if bool_decide (key ∈ seen) then st else ({[key]} ∪ seen, out ++ [f])
  end.

Definition collapseIdentical (findings : list Finding) : list Finding :=
  if length findings <? 2 then findings else (foldl collapse_step (∅, []) findings).2.

Definition sourceNames (sources : list Source) : list string :=
  sort_strings (foldl (fun names s => names ++ [Name s]) [] sources).

Definition perSourceCounts (sources : list Source) : gmap string nat :=
  foldl (fun counts s => <[Name s := length (src_Findings s)]> counts) ∅ sources.

Definition clusterKeys (cluster : list Finding) (g : option Grouper) : list string :=
  match g with
  | None => replicate (length cluster) ""
  | Some g => GroupKey g <$> cluster
  end.

Section pipeline.
Context {U : UnicodeCase}.

Definition severity_rank (m : Merged) : Z := index0 SeverityRank (NormalizeSeverity (Severity (m_Finding m))).

(** The comparison of [sortMerged]. *)
Definition merged_less (a b : Merged) : bool :=
  let ri := severity_rank a in
  let rj := severity_rank b in
  if negb (ri =? rj)%Z then (rj <? ri)%Z
  else if negb (File (m_Finding a) =? File (m_Finding b))%string
  then str_ltb (File (m_Finding a)) (File (m_Finding b))
  else if negb (Line (m_Finding a) =? Line (m_Finding b))%Z
  then (Line (m_Finding a) <? Line (m_Finding b))%Z
  else str_ltb (Problem (m_Finding a)) (Problem (m_Finding b)).

Definition sortMerged (m : list Merged) : list Merged := slice_stable merged_less m.

(** The first pass over one cluster. *)
Definition dedupe_step (opts : Options) (st : list (list Finding) * list AmbiguousCluster) (cl : list Finding)
    : option (list (list Finding) * list AmbiguousCluster) :=
  let '(allGroups, ambiguous) := st in
  '(groups, amb) ← dedupeCluster cl (clusterKeys cl (opt_Grouper opts)) (Merges opts);
  Some (allGroups ++ groups, ambiguous ++ amb).

(** The counters of the second pass. *)
Record merge_state := mkMergeState {
  ms_merged : list Merged;
  ms_collapsed : nat;
  ms_disagreements : nat;
  ms_promoted : nat;
}.

Definition merge_step (authority : gmap string float64) (baseline : float64) (s : merge_state) (g : list Finding)
    : option merge_state :=
  base ← Merge g;
  let m := promoteByAuthority base authority baseline in
  Some (mkMergeState (ms_merged s ++ [m])
    (if 2 <=? length g then S (ms_collapsed s) else ms_collapsed s)
    (if negb (Disagreement (m_Finding m) =? "")%string then S (ms_disagreements s) else ms_disagreements s)
    (if (Confidence (m_Finding base) =? ConfMedium)%string && (Confidence (m_Finding m) =? ConfHigh)%string
     then S (ms_promoted s) else ms_promoted s)).

(** One iteration of the consensus filter. *)
Definition filter_step (floor : string) (priors : gmap string float64)
    (st : list Merged * list AmbiguousCluster * nat) (m : Merged) : list Merged * list AmbiguousCluster * nat :=
  let '(kept, ambiguous, consensusFiltered) := st in
  if consensusSingletonAt m floor && negb (consensusExempt (m_Finding m)) && negb (trustExempt (m_Finding m) priors)
  then (kept, ambiguous ++ [consensusNoiseCluster (m_Finding m)], S consensusFiltered)
  else (kept ++ [m], ambiguous, consensusFiltered).

Definition count {A} (p : A -> bool) (l : list A) : nat :=
  foldl (fun n x => if p x then S n else n) 0 l.

Definition Reconcile (sources : list Source) (opts : Options) : option Result :=
  let clusters := ClusterWith (collapseIdentical (AllFindings sources)) (opt_Grouper opts) in
  '(allGroups, ambiguous) ← foldM (dedupe_step opts) ([], []) clusters;
  let authority := modelAuthority allGroups in
  let baseline := if 0 <? size authority then f_div f_one (f_of_nat (size authority)) else f_zero in
  s ← foldM (merge_step authority baseline) (mkMergeState [] 0 0 0) allGroups;
  let merged := sortMerged (ms_merged s) in
  let panel := panelReviewers sources in
  let merged :=
    if consensusMinReviewers <=? panel then (fun m => demoteByTrust m (TrustPriors opts)) <$> merged else merged in
  let noiseCount := count (fun c => length (amb_Findings c) =? 1) ambiguous in
  let consensusLevel := effectiveConsensus (Consensus opts) in
  let '(floor, filterEnabled) := consensusFloor consensusLevel in
  let '(merged, ambiguous, consensusFiltered) :=
    if filterEnabled && (consensusMinReviewers <=? panel)
    then foldl (filter_step floor (TrustPriors opts)) ([], ambiguous, 0) merged
    else (merged, ambiguous, 0) in
  let outOfScope := count (fun m => Category (m_Finding m) =? CategoryOutOfScope)%string merged in
  Some (mkResult merged ambiguous
    (mkSummary (sourceNames sources) (perSourceCounts sources) (ms_collapsed s) (ms_disagreements s)
      (ms_promoted s) (Partial opts) [] 0 (AmbiguousHash ambiguous) (length ambiguous) noiseCount
      consensusFiltered 0 "" consensusLevel (size (TrustPriors opts)) (copyFlags (OpportunityScoped opts))
      outOfScope (length merged) (RFC3339 (ReconciledAt opts)))).
End pipeline.

(** ** Sorting *)

Section sorting.
Context {U : UnicodeCase}.

(** The comparison is lexicographic: severity rank descending, file, line, problem. *)
Lemma merged_less_lex a b :
  merged_less a b =
    lex_less (fun a b => (severity_rank b <? severity_rank a)%Z)
      (lex_less (fun a b => str_ltb (File (m_Finding a)) (File (m_Finding b)))
        (lex_less (fun a b => (Line (m_Finding a) <? Line (m_Finding b))%Z)
          (fun a b => str_ltb (Problem (m_Finding a)) (Problem (m_Finding b))))) a b.
Proof.
  unfold merged_less, lex_less.
  destruct (Z.eqb_spec (severity_rank a) (severity_rank b)) as [Hs|Hs]; simpl.
  - rewrite Hs, Z.ltb_irrefl.
    destruct (String.eqb_spec (File (m_Finding a)) (File (m_Finding b))) as [Hf|Hf]; simpl.
    + rewrite Hf, str_ltb_irrefl.
      destruct (Z.eqb_spec (Line (m_Finding a)) (Line (m_Finding b))) as [Hl|Hl]; simpl.
      * by rewrite Hl, Z.ltb_irrefl.
      * destruct (Z.ltb_spec (Line (m_Finding a)) (Line (m_Finding b))); [done|].
        by rewrite (proj2 (Z.ltb_lt _ _)) by lia.
    + destruct (str_ltb (File (m_Finding a)) (File (m_Finding b))) eqn:E; [done|].
      destruct (str_ltb (File (m_Finding b)) (File (m_Finding a))) eqn:E'; [done|].
      destruct Hf. by apply str_ltb_total.
  - destruct (Z.ltb_spec (severity_rank b) (severity_rank a)); [done|].
    by rewrite (proj2 (Z.ltb_lt _ _)) by lia.
Qed.

#[export] Instance merged_less_WeakOrder : WeakOrder merged_less.
Proof.
  assert (WeakOrder (lex_less (fun a b => (severity_rank b <? severity_rank a)%Z)
      (lex_less (fun a b => str_ltb (File (m_Finding a)) (File (m_Finding b)))
        (lex_less (fun a b => (Line (m_Finding a) <? Line (m_Finding b))%Z)
          (fun a b => str_ltb (Problem (m_Finding a)) (Problem (m_Finding b))))))) as [H1 H2].
  { apply lex_WeakOrder; [apply (key_WeakOrder (fun a b => (b <? a)%Z) severity_rank)|].
    apply lex_WeakOrder; [apply (key_WeakOrder str_ltb (fun m => File (m_Finding m)))|].
    apply lex_WeakOrder; [apply (key_WeakOrder Z.ltb (fun m => Line (m_Finding m)))|].
    apply (key_WeakOrder str_ltb (fun m => Problem (m_Finding m))). }
  split; unfold not_after in *; intros *; rewrite !merged_less_lex; eauto.
Qed.

(** Neither sorts before the other exactly when the four keys agree. *)
Lemma merged_ties a b :
  merged_less a b = false -> merged_less b a = false ->
  severity_rank a = severity_rank b /\ File (m_Finding a) = File (m_Finding b) /\
  Line (m_Finding a) = Line (m_Finding b) /\ Problem (m_Finding a) = Problem (m_Finding b).
Proof.
  unfold merged_less. intros H1 H2.
  rewrite (Z.eqb_sym (severity_rank b)), (String.eqb_sym (File (m_Finding b))), (Z.eqb_sym (Line (m_Finding b))) in H2.
  destruct (Z.eqb_spec (severity_rank a) (severity_rank b)); simpl in *; [|rewrite !Z.ltb_ge in *; lia].
  destruct (String.eqb_spec (File (m_Finding a)) (File (m_Finding b))) as [|Hf]; simpl in *;
    [|destruct Hf; by apply str_ltb_total].
  destruct (Z.eqb_spec (Line (m_Finding a)) (Line (m_Finding b))); simpl in *; [|rewrite !Z.ltb_ge in *; lia].
  split_and!; [done..|]. by apply str_ltb_total.
Qed.

(** [sortMerged] returns a permutation ordered by severity (descending), file,
    line and problem, and the order of its input does not show when no two rows
    agree on all four keys (rows that do keep their input order). *)
Theorem sortMerged_spec (l : list Merged) :
  sortMerged l ≡ₚ l /\ StronglySorted (not_after merged_less) (sortMerged l) /\
  forall l', l ≡ₚ l' ->
    (forall a b, a ∈ l -> b ∈ l -> severity_rank a = severity_rank b ->
       File (m_Finding a) = File (m_Finding b) -> Line (m_Finding a) = Line (m_Finding b) ->
       Problem (m_Finding a) = Problem (m_Finding b) -> a = b) ->
    sortMerged l = sortMerged l'.
Proof.
  unfold sortMerged. split; [apply slice_stable_Permutation|]. split; [apply slice_stable_sorted, _|].
  intros l' Hp Htot. apply slice_stable_perm_eq; [apply _| |done].
  intros a b Ha Hb H1 H2. destruct (merged_ties a b H2 H1) as (? & ? & ? & ?). by apply Htot.
Qed.
End sorting.

(** ** Collapsing identical rows *)

(** A finding always marshals. *)
Lemma finding_key_total f : is_Some (finding_key f).
Proof.
  unfold finding_key. destruct (Marshal_total (json_of_Finding f)) as [b ->]; [apply encodable_Finding|]. by eexists.
Qed.

Record collapse_inv (xs : list Finding) (st : gset string * list Finding) : Prop := {
  cl_sub : st.2 `sublist_of` xs;
  cl_seen : forall k, k ∈ st.1 <-> exists f, f ∈ st.2 /\ finding_key f = Some k;
  cl_nodup : NoDup (finding_key <$> st.2);
  cl_kept : forall f, f ∈ xs -> exists f', f' ∈ st.2 /\ finding_key f' = finding_key f;
}.

Lemma collapse_fold fs : collapse_inv fs (foldl collapse_step (∅, []) fs).
Proof.
  apply (foldl_invariant collapse_inv).
  - split; simpl; [done| |constructor|by intros ? ?%elem_of_nil].
    intros k. split; [by intros ?%not_elem_of_empty|by intros (? & ?%elem_of_nil & _)].
  - intros xs f todo [seen out] _ [Hsub Hseen Hnd Hkept]. simpl in *. unfold collapse_step.
    destruct (finding_key_total f) as [k Hk]. rewrite Hk. case_bool_decide as Hin; split; simpl.
    + by apply sublist_inserts_r.
    + done.
    + done.
    + intros h [Hh| ->%list_elem_of_singleton]%elem_of_app; [by apply Hkept|].
      apply Hseen in Hin as (f' & ? & ?). exists f'. split; [done|congruence].
    + by apply sublist_app.
    + intros k'. setoid_rewrite elem_of_app. setoid_rewrite list_elem_of_singleton.
      rewrite elem_of_union, elem_of_singleton, Hseen. split.
      * intros [->|(f' & ? & ?)]; [exists f; auto|exists f'; auto].
      * intros (f' & [Hf| ->] & Hk'); [right; eauto|left; congruence].
    + rewrite fmap_app. apply NoDup_app. split_and!; [done| |apply NoDup_singleton].
      intros k' (f' & -> & Hf')%list_elem_of_fmap Heq%list_elem_of_singleton. apply Hin, Hseen. exists f'.
      split; [done|congruence].
    + intros h [Hh| ->%list_elem_of_singleton]%elem_of_app.
      * destruct (Hkept h Hh) as (f' & ? & ?). exists f'. split; [apply elem_of_app; by left|done].
      * exists f. split; [apply elem_of_app; right; left|done].
Qed.

(** [collapseIdentical] only removes repeated rows: its result is a subsequence
    of the input whose serialized rows are pairwise different, and every input row
    has its serialization in the result. Marshalling never fails, so the
    keep-on-error branch is not taken. *)
Theorem collapseIdentical_spec (fs : list Finding) :
  collapseIdentical fs `sublist_of` fs /\
  NoDup (finding_key <$> collapseIdentical fs) /\
  (forall f, f ∈ fs -> exists f', f' ∈ collapseIdentical fs /\ finding_key f' = finding_key f) /\
  (forall f, finding_key f <> None).
Proof.
  unfold collapseIdentical. split_and!.
  4: { intros f. by destruct (finding_key_total f) as [k ->]. }
  all: destruct (Nat.ltb_spec (length fs) 2) as [Hl|Hl]; [|apply collapse_fold].
  - done.
  - destruct fs as [|f [|? ?]]; [constructor|apply NoDup_singleton|simpl in Hl; lia].
  - intros f Hf. by exists f.
Qed.

(** Two rows that differ, in a byte that is not UTF-8, serialize alike: one of them
    is dropped though no field of theirs is a repetition. *)
Example collapseIdentical_drops_distinct :
  let row (b : ascii) := mkFinding "HIGH" "a.go" 3 (String b EmptyString) "" "" 5 "" "a" [] "" "" None in
  row "255"%char <> row "254"%char /\
  collapseIdentical [row "255"%char; row "254"%char] = [row "255"%char].
Proof. split; [done|by vm_compute]. Qed.

(** So what is dropped differs from a row that is kept in such bytes at most. *)
Lemma collapse_represents fs f : f ∈ fs -> exists g, g ∈ collapseIdentical fs /\ clean_Finding g = clean_Finding f.
Proof.
  intros Hf. destruct (collapseIdentical_spec fs) as (_ & _ & Hk & _). destruct (Hk f Hf) as (g & Hg & E).
  exists g. split; [done|]. apply Marshal_Finding_inj. unfold finding_key in E.
  destruct (Marshal (json_of_Finding f)), (Marshal (json_of_Finding g)); try done. injection E as E%(f_equal to_bytes).
  rewrite !list_ascii_of_string_of_list_ascii in E. congruence.
Qed.

Lemma collapse_NoDup fs : NoDup (collapseIdentical fs).
Proof. destruct (collapseIdentical_spec fs) as (_ & H & _). by apply NoDup_fmap_1 in H. Qed.

Lemma AllFindings_join sources : AllFindings sources = mjoin (src_Findings <$> sources).
Proof.
  unfold AllFindings. change (mjoin (src_Findings <$> sources)) with ([] ++ mjoin (src_Findings <$> sources)).
  generalize (@nil Finding). induction sources as [|s sources IH]; intros out; [by rewrite app_nil_r|].
  cbn [foldl]. rewrite IH. by rewrite <- (assoc_L (++)).
Qed.

(** ** The passes of the pipeline *)

Abbreviation single := (fun c : AmbiguousCluster => length (amb_Findings c) = 1).

Section passes.
Context {U : UnicodeCase}.

(** A cluster the deduplication handles: within the solver's bounds, or past the
    cap. *)
Definition cluster_input (g : option Grouper) (cl : list Finding) : Prop :=
  dedupe_input cl (clusterKeys cl g) \/
  (length (clusterKeys cl g) = length cl /\ maxClusterSize < length cl).

(** The sources the pipeline is guaranteed on. *)
Definition reconcile_input (sources : list Source) (opts : Options) : Prop :=
  Forall (cluster_input (opt_Grouper opts))
    (ClusterWith (collapseIdentical (AllFindings sources)) (opt_Grouper opts)).

Lemma count_filter {A} (p : A -> bool) l : count p l = length (filter (fun x => p x = true) l).
Proof.
  unfold count. assert (forall n, foldl (fun n x => if p x then S n else n) n l = n + length (filter (fun x => p x = true) l)) as H.
  { induction l as [|x l IH]; intros n; simpl; [lia|]. rewrite filter_cons, IH.
    destruct (p x) eqn:E; case_decide; simpl; try congruence; lia. }
  apply (H 0).
Qed.

Lemma count_filter_iff {A} (p : A -> bool) (P : A -> Prop) `{!forall x, Decision (P x)} l :
  (forall x, p x = true <-> P x) -> count p l = length (filter P l).
Proof. intros Hiff. rewrite count_filter. f_equal. by apply list_filter_iff. Qed.

Lemma single_noise (noise : list Finding) : filter single (singletonAmbiguousCluster <$> noise) = singletonAmbiguousCluster <$> noise.
Proof. apply filter_Forall_id. apply Forall_fmap, Forall_forall. done. Qed.

Lemma single_gray (gray : list AmbiguousCluster) :
  Forall (fun a => length (amb_Findings a) = 2) gray -> filter single gray = [].
Proof. intros H. apply filter_Forall_nil. eapply Forall_impl; [exact H|]. simpl. lia. Qed.

Lemma f_bnd_format k x : f_bnd k x -> is_Some (format_float x).
Proof. destruct x as [[]| | |[]]; simpl; try done; by eexists. Qed.

Lemma sidecar_singletons (noise : list Finding) : sidecar_ok (singletonAmbiguousCluster <$> noise).
Proof. apply Forall_fmap, Forall_forall. intros f _. by eexists. Qed.

(** The first pass over the clusters. *)
Lemma dedupe_pass opts cls : Forall (cluster_input (opt_Grouper opts)) cls ->
  forall groups0 amb0, exists groups amb noise,
    foldM (dedupe_step opts) (groups0, amb0) cls = Some (groups0 ++ groups, amb0 ++ amb) /\
    mjoin groups ++ noise ≡ₚ mjoin cls /\ Forall (fun g => g <> []) groups /\
    filter single amb = singletonAmbiguousCluster <$> noise /\ sidecar_ok amb.
Proof.
  induction 1 as [|cl cls Hcl _ IH]; intros groups0 amb0.
  { exists [], [], []. rewrite !app_nil_r. by repeat constructor. }
  destruct (dedupeCluster_ok cl _ (Merges opts) Hcl) as (out & gray & ns & He & Hperm & Hne & Hgray & Hsim).
  destruct (IH (groups0 ++ out) (amb0 ++ (gray ++ (singletonAmbiguousCluster <$> ns))))
    as (groups & amb & noise & Hf & Hp & Hne' & Ha & Hok).
  exists (out ++ groups), ((gray ++ (singletonAmbiguousCluster <$> ns)) ++ amb), (ns ++ noise).
  split; [|split_and!].
  - rewrite (foldM_cons _ _ _ (groups0 ++ out, amb0 ++ (gray ++ (singletonAmbiguousCluster <$> ns)))).
    + by rewrite Hf, <- !(assoc_L (++)).
    + unfold dedupe_step. by rewrite He.
  - rewrite mjoin_app. change (mjoin (cl :: cls)) with (cl ++ mjoin cls). rewrite <- Hperm, <- Hp. solve_Permutation.
  - by apply Forall_app.
  - by rewrite !filter_app, single_gray, single_noise, Ha, fmap_app.
  - apply Forall_app. split; [|done]. apply Forall_app. split; [|apply sidecar_singletons].
    eapply Forall_impl; [exact Hsim|]. intros a. apply f_bnd_format.
Qed.

(** A group's row: its merge, with the confidence authority leaves it. *)
Definition promoted (authority : gmap string float64) (baseline : float64) (g : list Finding) (m : Merged) : Prop :=
  exists base, Merge g = Some base /\ m = promoteByAuthority base authority baseline.

Lemma Merge_total g : g <> [] -> is_Some (Merge g).
Proof.
  destruct g as [|f g]; [done|]. intros _.
  destruct (MergeSeverity_total (f :: g)) as (max & dis & Hs); [done|]. rewrite (Merge_eq _ _ _ _ Hs). by eexists.
Qed.

(** The second pass over the groups. *)
Lemma merge_pass authority baseline groups : Forall (fun g => g <> []) groups ->
  forall s0, exists s ms,
    foldM (merge_step authority baseline) s0 groups = Some s /\
    ms_merged s = ms_merged s0 ++ ms /\ Forall2 (promoted authority baseline) groups ms /\
    ms_collapsed s = ms_collapsed s0 + length (filter (fun g => 2 <= length g) groups).
Proof.
  induction 1 as [|g groups Hg _ IH]; intros s0.
  { exists s0, []. by rewrite app_nil_r, Nat.add_0_r. }
  destruct (Merge_total g Hg) as [base Hb].
  assert (exists s1, merge_step authority baseline s0 g = Some s1 /\
    ms_merged s1 = ms_merged s0 ++ [promoteByAuthority base authority baseline] /\
    ms_collapsed s1 = if 2 <=? length g then S (ms_collapsed s0) else ms_collapsed s0) as (s1 & H1 & Hm1 & Hc1).
  { unfold merge_step. rewrite Hb. by eexists. }
  destruct (IH s1) as (s & ms & Hf & Hm & H2 & Hc). rewrite (foldM_cons _ _ _ s1) by done.
  exists s, (promoteByAuthority base authority baseline :: ms). split; [exact Hf|]. rewrite Hm1, Hc1 in *.
  rewrite Hm, Hc, <- (assoc_L (++)). split; [done|]. split; [constructor; [by exists base|done]|].
  rewrite filter_cons. destruct (Nat.leb_spec 2 (length g)); case_decide; simpl; lia.
Qed.

(** The consensus filter splits the rows. *)
Lemma filter_pass floor priors ms kept0 amb0 n0 :
  foldl (filter_step floor priors) (kept0, amb0, n0) ms =
  (kept0 ++ filter (fun m => filtered floor priors m = false) ms,
   amb0 ++ ((fun m => consensusNoiseCluster (m_Finding m)) <$> filter (fun m => filtered floor priors m = true) ms),
   n0 + length (filter (fun m => filtered floor priors m = true) ms)).
Proof.
  revert kept0 amb0 n0. induction ms as [|m ms IH]; intros kept0 amb0 n0; [by rewrite !app_nil_r, Nat.add_0_r|].
  cbn [foldl].
  change (filter_step floor priors (kept0, amb0, n0) m) with
    (if filtered floor priors m then (kept0, amb0 ++ [consensusNoiseCluster (m_Finding m)], S n0)
     else (kept0 ++ [m], amb0, n0)).
  destruct (filtered floor priors m) eqn:E; rewrite IH.
  - rewrite filter_cons_False, (filter_cons_True _ m) by congruence.
    rewrite fmap_cons, length_cons, <- (assoc_L (++)). f_equal. lia.
  - rewrite filter_cons_True, (filter_cons_False _ m) by congruence. by rewrite <- (assoc_L (++)).
Qed.
End passes.

(** ** The pipeline *)

Section pipeline_spec.
Context {U : UnicodeCase}.

(** The row of a group: its merge, up to the confidence. *)
Definition row_of (g : list Finding) (m : Merged) : Prop :=
  exists base, Merge g = Some base /\ m = with_confidence base (Confidence (m_Finding m)).

Lemma with_confidence_id m : with_confidence m (Confidence (m_Finding m)) = m.
Proof. by destruct m as [[]]. Qed.

Lemma with_confidence_twice m c d : with_confidence (with_confidence m c) d = with_confidence m d.
Proof. by destruct m as [[]]. Qed.

Lemma promoteByAuthority_confidence m authority baseline :
  exists c, promoteByAuthority m authority baseline = with_confidence m c.
Proof.
  unfold promoteByAuthority. destruct (_ || _); [eexists; symmetry; apply with_confidence_id|].
  repeat case_match; (eexists; first [reflexivity|symmetry; apply with_confidence_id]).
Qed.

Lemma demoteByTrust_confidence m priors : exists c, demoteByTrust m priors = with_confidence m c.
Proof.
  unfold demoteByTrust. destruct (_ || _); [eexists; symmetry; apply with_confidence_id|].
  repeat case_match; (eexists; first [reflexivity|symmetry; apply with_confidence_id]).
Qed.

Lemma row_of_confidence g base c : Merge g = Some base -> row_of g (with_confidence base c).
Proof. intros Hb. exists base. split; [done|]. by rewrite with_confidence_twice || by destruct base as [[]]. Qed.

(** The confidence is no sort key. *)
Lemma merged_less_confidence a b c d : merged_less (with_confidence a c) (with_confidence b d) = merged_less a b.
Proof. by destruct a as [[]], b as [[]]. Qed.

(** The rows after the trust pass. *)
Definition trusted (opts : Options) (panel : nat) (m : Merged) : Merged :=
  if consensusMinReviewers <=? panel then demoteByTrust m (TrustPriors opts) else m.

(** The consensus filter drops the row. *)
Definition dropped (sources : list Source) (opts : Options) (m : Merged) : bool :=
  let '(floor, enabled) := consensusFloor (effectiveConsensus (Consensus opts)) in
  enabled && (consensusMinReviewers <=? panelReviewers sources) && filtered floor (TrustPriors opts) m.

Lemma trusted_confidence opts panel m : exists c, trusted opts panel m = with_confidence m c.
Proof.
  unfold trusted. destruct (_ <=? _); [apply demoteByTrust_confidence|].
  eexists. symmetry. apply with_confidence_id.
Qed.

Lemma trusted_sorted opts panel l :
  StronglySorted (not_after merged_less) l -> StronglySorted (not_after merged_less) (trusted opts panel <$> l).
Proof.
  induction 1 as [|m l _ IH Hm]; [constructor|]. constructor; [done|]. apply Forall_fmap.
  eapply Forall_impl; [exact Hm|]. intros m'. unfold not_after. simpl.
  destruct (trusted_confidence opts panel m) as [c ->], (trusted_confidence opts panel m') as [d ->].
  by rewrite merged_less_confidence.
Qed.

Lemma trusted_rows opts panel authority baseline groups ms :
  Forall2 (promoted authority baseline) groups ms -> Forall2 row_of groups (trusted opts panel <$> ms).
Proof.
  induction 1 as [|g m groups ms (base & Hb & ->) _ IH]; [constructor|]. constructor; [|done].
  destruct (promoteByAuthority_confidence base authority baseline) as [c ->].
  destruct (trusted_confidence opts panel (with_confidence base c)) as [d ->].
  rewrite with_confidence_twice. by apply row_of_confidence.
Qed.

(** The consensus stage, engaged or not. *)
Lemma consensus_stage sources opts amb rows :
  (let '(floor, filterEnabled) := consensusFloor (effectiveConsensus (Consensus opts)) in
   if filterEnabled && (consensusMinReviewers <=? panelReviewers sources)
   then foldl (filter_step floor (TrustPriors opts)) ([], amb, 0) rows else (rows, amb, 0)) =
  (filter (fun m => dropped sources opts m = false) rows,
   amb ++ ((fun m => consensusNoiseCluster (m_Finding m)) <$> filter (fun m => dropped sources opts m = true) rows),
   length (filter (fun m => dropped sources opts m = true) rows)).
Proof.
  unfold dropped. destruct (consensusFloor _) as [floor enabled].
  destruct (enabled && _); cbn [andb]; [apply (filter_pass floor (TrustPriors opts) rows [] amb 0)|].
  rewrite filter_Forall_id by (by apply Forall_forall).
  rewrite (filter_Forall_nil (fun _ => false = true)) by (by apply Forall_forall). by rewrite app_nil_r.
Qed.

Lemma dropped_split sources opts l :
  filter (fun m => dropped sources opts m = false) l ++ filter (fun m => dropped sources opts m = true) l ≡ₚ l.
Proof.
  rewrite (list_filter_iff (fun m => dropped sources opts m = true) (fun m => ~ dropped sources opts m = false)) by
    (intros m; by destruct (dropped sources opts m)).
  by rewrite (filter_app_complement (fun m => dropped sources opts m = false)).
Qed.

Lemma dropped_off sources opts m :
  panelReviewers sources < 3 \/ effectiveConsensus (Consensus opts) = ConsensusOff -> dropped sources opts m = false.
Proof.
  unfold dropped. intros [Hp|Ho].
  - destruct (consensusFloor _) as [floor enabled]. unfold consensusMinReviewers. rewrite (proj2 (Nat.leb_gt _ _) Hp). by destruct enabled.
  - rewrite Ho. done.
Qed.

Lemma dropped_on sources opts m :
  3 <= panelReviewers sources -> effectiveConsensus (Consensus opts) <> ConsensusOff ->
  dropped sources opts m = filtered (consensusFloor (effectiveConsensus (Consensus opts))).1 (TrustPriors opts) m.
Proof.
  unfold dropped. intros Hp Ho. pose proof (consensusFloor_on (Consensus opts) Ho) as Hon.
  destruct (consensusFloor _) as [floor enabled]. simpl in Hon. subst enabled.
  unfold consensusMinReviewers. by rewrite (proj2 (Nat.leb_le _ _) Hp).
Qed.

(** What a run returns, stage by stage. *)
Record run (sources : list Source) (opts : Options) (groups : list (list Finding)) (noise : list Finding)
    (amb : list AmbiguousCluster) (rows sorted : list Merged) (r : Result) : Prop := {
  run_eq : Reconcile sources opts = Some r;
  run_groups : mjoin groups ++ noise ≡ₚ collapseIdentical (AllFindings sources);
  run_nonempty : Forall (fun g => g <> []) groups;
  run_noise : filter (fun c => length (amb_Findings c) = 1) amb = singletonAmbiguousCluster <$> noise;
  run_rows : Forall2 row_of groups rows;
  run_perm : sorted ≡ₚ rows;
  run_sorted : StronglySorted (not_after merged_less) sorted;
  run_findings : res_Findings r = filter (fun m => dropped sources opts m = false) sorted;
  run_ambiguous : res_Ambiguous r = amb ++ ((fun m => consensusNoiseCluster (m_Finding m)) <$>
    filter (fun m => dropped sources opts m = true) sorted);
  run_filtered : ConsensusFiltered (res_Summary r) = length (filter (fun m => dropped sources opts m = true) sorted);
  run_noise_count : NoiseCount (res_Summary r) = length noise;
  run_ambiguous_count : AmbiguousCount (res_Summary r) = length (res_Ambiguous r);
  run_total : TotalFindings (res_Summary r) = length (res_Findings r);
  run_collapsed : ClustersCollapsed (res_Summary r) = length (filter (fun g => 2 <= length g) groups);
  run_scope : OutOfScope (res_Summary r) =
    length (filter (fun m => Category (m_Finding m) = CategoryOutOfScope) (res_Findings r));
  run_hash : sum_AmbiguousHash (res_Summary r) = AmbiguousHash (res_Ambiguous r);
  run_sidecar : sidecar_ok (res_Ambiguous r);
}.

Lemma Reconcile_run sources opts : reconcile_input sources opts ->
  exists groups noise amb rows sorted r, run sources opts groups noise amb rows sorted r.
Proof.
  intros Hin. destruct (dedupe_pass opts _ Hin [] []) as (groups & amb & noise & Hd & Hg & Hne & Ha & Hok).
  set (authority := modelAuthority (F := float64) groups).
  set (baseline := if 0 <? size authority then f_div f_one (f_of_nat (size authority)) else f_zero).
  destruct (merge_pass authority baseline groups Hne (mkMergeState [] 0 0 0)) as (s & ms & Hf & Hm & H2 & Hc).
  simpl in Hd, Hm, Hc.
  set (panel := panelReviewers sources).
  exists groups, noise, amb, (trusted opts panel <$> ms), (trusted opts panel <$> sortMerged ms).
  assert (trusted opts panel <$> sortMerged ms = if consensusMinReviewers <=? panel
    then (fun m => demoteByTrust m (TrustPriors opts)) <$> sortMerged ms else sortMerged ms) as Ht.
  { unfold trusted. destruct (_ <=? _); [done|]. apply list_fmap_id. }
  pose proof (consensus_stage sources opts amb (trusted opts panel <$> sortMerged ms)) as Hcs.
  fold panel in Hcs. destruct (consensusFloor _) as [floor enabled] eqn:Ef.
  eexists. split.
  - unfold Reconcile. rewrite Hd. cbn [mbind option_bind]. fold authority. fold baseline. rewrite Hf.
    cbn [mbind option_bind]. rewrite Hm. fold panel. rewrite <- Ht, Ef, Hcs. reflexivity.
  - rewrite Hg. apply (ClusterWith_components (opt_Grouper opts)).
  - done.
  - done.
  - by eapply trusted_rows.
  - apply fmap_Permutation, slice_stable_Permutation.
  - apply trusted_sorted, slice_stable_sorted, _.
  - reflexivity.
  - reflexivity.
  - reflexivity.
  - cbn [res_Summary NoiseCount]. rewrite (count_filter_iff _ single) by (intros; apply Nat.eqb_eq).
    by rewrite Ha, length_fmap.
  - reflexivity.
  - reflexivity.
  - exact Hc.
  - apply count_filter_iff. intros. apply String.eqb_eq.
  - reflexivity.
  - cbn [res_Ambiguous]. apply Forall_app. split; [done|]. apply Forall_fmap, Forall_forall. intros m _. by eexists.
Qed.

(** ** What a run is to answer *)

(** What a row says of its group: where the first finding is, a problem and a fix one of
    them gives, the highest severity among them, exactly their reviewers, and the file and
    the evidence of every one. *)
Record tells (g : list Finding) (m : Merged) : Prop := {
  tells_place : exists f, head g = Some f /\ File (m_Finding m) = File f /\ Line (m_Finding m) = Line f;
  tells_problem : exists f, f ∈ g /\ Problem (m_Finding m) = Problem f;
  tells_fix : exists f, f ∈ g /\ Fix (m_Finding m) = Fix f;
  tells_severity : (exists f, f ∈ g /\ Severity (m_Finding m) = ToUpper (TrimSpace (Severity f))) /\
    forall f, f ∈ g -> severity_level (Severity f) <= severity_level (Severity (m_Finding m));
  tells_reviewers : forall r, r ∈ Reviewers (m_Finding m) <->
    r <> "" /\ exists f, f ∈ g /\ ReplaceAll (Reviewer f) "," "" = r;
  tells_evidence : Forall2 (fun f q => sq_File q = File f /\ sq_Evidence q = Evidence f) g (SourceQuotes m);
}.

Lemma level_twice f : severity_level (Severity f) <> 0 ->
  severity_level (NormalizeSeverity (Severity f)) = severity_level (Severity f).
Proof.
  pose proof (severity_level_rank (Severity f)) as E. destruct (Nat.leb_spec 1 (severity_level (Severity f))); [|lia].
  unfold NormalizeSeverity in *. apply SeverityRank_cases in E as H'. unfold severity_level at 1.
  destruct H' as [[-> Hr]|[[-> Hr]|[[-> Hr]|[-> Hr]]]]; intros _; apply (inj Z.of_nat); rewrite Hr; by vm_compute.
Qed.

Lemma row_tells g m : g <> [] -> row_of g m -> tells g m.
Proof.
  intros Hne (base & Hb & Hm). set (c := Confidence (m_Finding m)) in Hm. clearbody c. subst m. destruct g as [|first rest]; [done|].
  destruct (Merge_fields first rest) as (m' & Hm & Hf & Hl & [(fp & Hfp & Ep) _] & [(fx & Hfx & Ex) _] & _ & Hr & _).
  rewrite Hb in Hm. injection Hm as <-.
  destruct (MergeSeverity_answer (first :: rest) Hne) as (max & dis & Hs & Hans). pose proof Hb as Hb'.
  rewrite (Merge_eq _ _ _ _ Hs) in Hb'. apply (inj Some) in Hb'. split.
  - exists first. by destruct base as [[]].
  - exists fp. split; [done|]. by destruct base as [[]].
  - exists fx. split; [done|]. by destruct base as [[]].
  - assert (Severity (m_Finding (with_confidence base c)) = max) as Hmax by (by rewrite <- Hb').
    rewrite Hmax. destruct Hans as [(Hnone & (f & [= <-] & ->) & _)|(rmax & lo & rlo & (f & Hin & Ef) & Hrm & _ & _ & Hall & _)].
    + split; [exists first; by split; [left|]|]. intros f Hin. specialize (Hnone f Hin). rewrite severity_level_rank in Hnone.
      destruct (Nat.leb_spec 1 (severity_level (Severity f))); [done|lia].
    + split; [by exists f|]. intros h Hh. rewrite <- Ef in Hrm |- *. rewrite severity_level_rank in Hrm.
      destruct (Nat.leb_spec 1 (severity_level (Severity f))); [|done]. injection Hrm as <-.
      rewrite level_twice by lia. specialize (Hall h). rewrite severity_level_rank in Hall.
      destruct (Nat.leb_spec 1 (severity_level (Severity h))); [|lia]. specialize (Hall _ Hh eq_refl). lia.
  - intros r. rewrite <- Hr. by destruct base as [[]].
  - assert (SourceQuotes (with_confidence base c) = sourceQuotes (first :: rest)) as -> by (by rewrite <- Hb').
    unfold sourceQuotes. by apply Forall2_fmap_self.
Qed.
(** A cluster of the sidecar that holds one finding as it was, its only reviewer named as
    the sources name theirs. *)
Definition isolates (f : Finding) (c : AmbiguousCluster) : Prop :=
  exists g, amb_Findings c = [g] /\
    (Severity g, File g, Line g, Problem g, Fix g, Category g, EstMinutes g, Evidence g, Verification_ g) =
    (Severity f, File f, Line f, Problem f, Fix f, Category f, EstMinutes f, Evidence f, Verification_ f) /\
    (g = f \/ Reviewers f = [Reviewer g]).
Lemma singleton_isolates f : isolates f (singletonAmbiguousCluster f).
Proof.
  exists (raw_source_shape f). split; [done|]. unfold raw_source_shape.
  destruct (Reviewers f) as [|r [|]] eqn:E; [by auto| |by auto]. destruct (_ =? _)%string; [|by auto].
  cbn [Severity File Line Problem Fix Category EstMinutes Evidence Verification_ Reviewer]. by auto.
Qed.

Lemma groups_tell groups rows : Forall (fun g => g <> []) groups -> Forall2 row_of groups rows ->
  Forall2 (fun g m => g <> [] /\ tells g m /\ row_of g m) groups rows.
Proof.
  intros Hne H. induction H as [|g m groups rows Hm _ IH]; [constructor|]. apply Forall_cons in Hne as [Hg Hne].
  constructor; [|by apply IH]. split_and!; [done|by apply row_tells|done].
Qed.


(** The order of the findings: the more severe first, then by file, line and problem. *)
Definition row_ahead (a b : Finding) : Prop :=
  (Z.of_nat (severity_level (Severity b)) < Z.of_nat (severity_level (Severity a)))%Z \/
  Z.of_nat (severity_level (Severity a)) = Z.of_nat (severity_level (Severity b)) /\
  (str_ltb (File a) (File b) = true \/ File a = File b /\
   ((Line a < Line b)%Z \/ Line a = Line b /\ str_ltb (Problem a) (Problem b) = true)).

Lemma merged_less_ahead a b : merged_less a b = true <-> row_ahead (m_Finding a) (m_Finding b).
Proof.
  unfold merged_less, severity_rank, row_ahead. rewrite !severity_level_index. by apply if_Z_desc_spec, if_str_spec, if_Z_spec.
Qed.

(** What the consensus filter is to hold back: with a panel of three and the level not
    off, a row of at most one reviewer whose confidence is below the level's bar, below
    HIGH severity, of no category that is exempt, confirmed by no skeptic and raised by
    no reviewer with a record of 0.7 or better. *)
Definition panel (sources : list Source) : gset string :=
  list_to_set (filter (fun r => r <> "") (Reviewer <$> mjoin (src_Findings <$> sources))).
Definition bar (level : string) : list string :=
  if decide (ToLower (TrimSpace level) = "lenient") then ["MEDIUM"; "HIGH"; "VERIFIED"] else ["HIGH"; "VERIFIED"].
Definition exempt_category (category : string) : Prop :=
  let c := ToLower (TrimSpace category) in
  c = "out-of-scope" \/ ToLower (TrimSpace c) ∈ ["security"; "secret"; "input-validation"] \/
  exists part, part ∈ ["vuln"; "auth"; "inject"] /\ Contains (ToLower (TrimSpace c)) part = true.
Definition uncorroborated (sources : list Source) (opts : Options) (f : Finding) : Prop :=
  3 <= size (panel sources) /\ ToLower (TrimSpace (Consensus opts)) <> "off" /\
  length (Reviewers f) <= 1 /\ ToUpper (TrimSpace (Confidence f)) ∉ bar (Consensus opts) /\
  severity_level (Severity f) < 3 /\ ~ exempt_category (Category f) /\
  (forall v, Verification_ f = Some v -> Verdict v <> "confirmed") /\
  (forall r rate, Reviewers f = [r] -> TrustPriors opts !! ToLower r = Some rate -> f_ge rate (f_const 7 10) = false).

Lemma size_panel sources : size (panel sources) = panelReviewers sources.
Proof.
  unfold panelReviewers. f_equal. unfold panel. rewrite <- AllFindings_join. unfold AllFindings.
  apply (foldl_invariant (fun xs seen => list_to_set (filter (fun r => r <> "") (Reviewer <$> foldl (fun out s => out ++ src_Findings s) [] xs)) = seen));
    [done|]. intros xs s todo seen _ <-. rewrite foldl_app. cbn [foldl]. rewrite fmap_app, filter_app, list_to_set_app_L.
  set (X := list_to_set (filter _ (Reviewer <$> foldl _ _ _))). clearbody X. revert X.
  induction (src_Findings s) as [|f fs IH]; intros X; [cbn; set_solver|]. cbn [foldl]. rewrite <- IH, fmap_cons, filter_cons.
  destruct (String.eqb_spec (Reviewer f) ""); cbn [negb]; [rewrite decide_False by (by intros ?); done|].
  rewrite decide_True by done. rewrite list_to_set_cons. set_solver.
Qed.

Lemma effective_level level : effectiveConsensus level = if decide (ToLower (TrimSpace level) = "off") then "off"
  else if decide (ToLower (TrimSpace level) = "lenient") then "lenient" else "strict".
Proof.
  unfold effectiveConsensus, NormalizeConsensus, ConsensusStrict, ConsensusLenient, ConsensusOff. set (c := ToLower (TrimSpace level)).
  destruct (String.eqb_spec c "") as [->|]; [done|].
  destruct (String.eqb_spec c "strict") as [->|]; [done|]. destruct (String.eqb_spec c "lenient") as [->|]; [done|].
  destruct (String.eqb_spec c "off") as [->|]; [done|]. cbn [orb]. by rewrite !decide_False.
Qed.
Lemma above_bar c level :
  ConfidenceAtOrAbove c (if decide (ToLower (TrimSpace level) = "lenient") then ConfMedium else ConfHigh) = true <->
  ToUpper (TrimSpace c) ∈ bar level.
Proof.
  assert (forall k r, confidenceRank !! k = Some r <->
    (k = "LOW" /\ r = 1 \/ k = "MEDIUM" /\ r = 2 \/ k = "HIGH" /\ r = 3 \/ k = "VERIFIED" /\ r = 4)%Z) as Hr.
  { intros k r. split; [|by intros [[-> ->]|[[-> ->]|[[-> ->]|[-> ->]]]]].
    unfold confidenceRank. intros H. repeat (apply lookup_insert_Some in H as [[<- <-]|[_ H]]; [by eauto 8|]).
    apply lookup_singleton_Some in H as [<- <-]. eauto 8. }
  rewrite ConfidenceAtOrAbove_spec. setoid_rewrite Hr. unfold bar. generalize (ToUpper (TrimSpace c)). intros k.
  case_decide; [change (ToUpper (TrimSpace ConfMedium)) with "MEDIUM"|change (ToUpper (TrimSpace ConfHigh)) with "HIGH"];
    rewrite !elem_of_cons, elem_of_nil; split.
  1,3: intros (rc & rf & Hk & Hf & Hle); destruct Hf as [[? ->]|[[? ->]|[[? ->]|[? ->]]]]; try discriminate;
    destruct Hk as [[-> ->]|[[-> ->]|[[-> ->]|[-> ->]]]]; auto; lia.
  - intros [->|[->|[->|[]]]]; [exists 2%Z, 2%Z|exists 3%Z, 2%Z|exists 4%Z, 2%Z]; split_and!; (lia || eauto 10).
  - intros [->|[->|[]]]; [exists 3%Z, 3%Z|exists 4%Z, 3%Z]; split_and!; (lia || eauto 10).
Qed.

Lemma exempt_spec f : consensusExempt f = true <->
  exempt_category (Category f) \/ 3 <= severity_level (Severity f) \/ exists v, Verification_ f = Some v /\ Verdict v = "confirmed".
Proof.
  unfold consensusExempt, securityRelated, exempt_category, CategorySecurity, CategorySecret, CategoryInputValidation, CategoryOutOfScope.
  set (c := ToLower (TrimSpace (Category f))). set (d := ToLower (TrimSpace c)).
  assert (3 <= severity_level (Severity f) <-> NormalizeSeverity (Severity f) = SevCritical \/ NormalizeSeverity (Severity f) = SevHigh) as ->.
  { unfold severity_level, NormalizeSeverity, SevCritical, SevHigh. generalize (ToUpper (TrimSpace (Severity f))). intros w.
    split; [|by intros [->| ->]; simpl; lia]. repeat case_match; (lia || auto). }
  assert (d ∈ ["security"; "secret"; "input-validation"] <-> ((d =? "security") || (d =? "secret") || (d =? "input-validation"))%string = true) as ->.
  { rewrite !orb_true_iff, !String.eqb_eq, !elem_of_cons, elem_of_nil. tauto. }
  assert ((exists part, part ∈ ["vuln"; "auth"; "inject"] /\ Contains d part = true) <->
    Contains d "vuln" || Contains d "auth" || Contains d "inject" = true) as ->.
  { rewrite !orb_true_iff. setoid_rewrite elem_of_cons. setoid_rewrite elem_of_cons. setoid_rewrite elem_of_cons. setoid_rewrite elem_of_nil.
    naive_solver. }
  destruct ((d =? "security") || (d =? "secret") || (d =? "input-validation"))%string; cbn [orb]; [naive_solver|].
  destruct (Contains d "vuln" || Contains d "auth" || Contains d "inject"); cbn [orb]; [naive_solver|].
  destruct (String.eqb_spec c "out-of-scope"); [naive_solver|].
  destruct (String.eqb_spec (NormalizeSeverity (Severity f)) SevCritical); cbn [orb]; [naive_solver|].
  destruct (String.eqb_spec (NormalizeSeverity (Severity f)) SevHigh); cbn [orb]; [naive_solver|].
  destruct (Verification_ f) as [v|]; [unfold VerdictConfirmed; rewrite String.eqb_eq|]; naive_solver.
Qed.

Lemma trust_spec f priors : trustExempt f priors = false <->
  forall r rate, Reviewers f = [r] -> priors !! ToLower r = Some rate -> f_ge rate (f_const 7 10) = false.
Proof.
  unfold trustExempt, trustHighThreshold. destruct (Nat.eqb_spec (size priors) 0) as [Hs|Hs]; cbn [orb].
  { split; [|done]. intros _ r rate _ Hp. apply map_size_empty_inv in Hs. by rewrite Hs, lookup_empty in Hp. }
  destruct (Reviewers f) as [|r [|r' rs]]; cbn [length Nat.eqb negb]; [by split|idtac|by split].
  change ([r] !!! 0) with r. destruct (priors !! ToLower r) as [rate|] eqn:E; naive_solver.
Qed.

Lemma dropped_spec sources opts m : dropped sources opts m = true <-> uncorroborated sources opts (m_Finding m).
Proof.
  unfold dropped, uncorroborated. rewrite effective_level, size_panel. case_decide as Ho.
  { split; [done|]. tauto. }
  assert (consensusFloor (if decide (ToLower (TrimSpace (Consensus opts)) = "lenient") then "lenient" else "strict") =
    (if decide (ToLower (TrimSpace (Consensus opts)) = "lenient") then ConfMedium else ConfHigh, true)) as -> by (by case_decide).
  unfold consensusMinReviewers. cbn [andb]. rewrite andb_true_iff, Nat.leb_le, filtered_singleton, <- not_true_iff_false, exempt_spec, trust_spec.
  unfold consensusSingletonAt. rewrite <- above_bar.
  assert (forall x y : bool, (if (index0 confidenceRank (ToUpper (TrimSpace
    (if decide (ToLower (TrimSpace (Consensus opts)) = "lenient") then ConfMedium else ConfHigh))) =? 0)%Z then x else y) = y) as -> by (by case_decide).
  destruct (Nat.leb_spec 2 (length (Reviewers (m_Finding m)))); [split; [naive_solver|lia]|].
  rewrite negb_true_iff, <- not_true_iff_false.
  assert ((forall v, Verification_ (m_Finding m) = Some v -> Verdict v <> "confirmed") <->
    ~ exists v, Verification_ (m_Finding m) = Some v /\ Verdict v = "confirmed") as -> by naive_solver.
  assert (severity_level (Severity (m_Finding m)) < 3 <-> ~ 3 <= severity_level (Severity (m_Finding m))) as -> by lia.
  assert (length (Reviewers (m_Finding m)) <= 1 <-> True) as -> by lia. tauto.
Qed.

(** C4. The findings of a run are ordered by severity (descending), file, line and
    problem, and are exactly the rows that the consensus filter lets through: every row
    held back is uncorroborated and no row that is is left. So with fewer than three
    reviewers or with the level off nothing is held back, and a row of two reviewers, of a
    confidence at the bar, of HIGH severity, of an exempt category, of a confirmed verdict
    or of a trusted reviewer never is. *)
Theorem Reconcile_sorted_filtered (sources : list Source) (opts : Options) :
  reconcile_input sources opts ->
  exists r groups noise rows droppedRows, Reconcile sources opts = Some r /\
    mjoin groups ++ noise ≡ₚ collapseIdentical (AllFindings sources) /\ Forall2 row_of groups rows /\
    res_Findings r ++ droppedRows ≡ₚ rows /\
    StronglySorted (fun a b => ~ row_ahead (m_Finding b) (m_Finding a)) (res_Findings r) /\
    Forall (fun m => ~ uncorroborated sources opts (m_Finding m)) (res_Findings r) /\
    Forall (fun m => uncorroborated sources opts (m_Finding m)) droppedRows /\
    ConsensusFiltered (res_Summary r) = length droppedRows.
Proof.
  intros Hin. destruct (Reconcile_run sources opts Hin) as (groups & noise & amb & rows & sorted & r & R).
  destruct R as [Heq Hg _ _ Hrows Hperm Hs Hf _ Hcf _ _ _ _ _ _ _].
  exists r, groups, noise, rows, (filter (fun m => dropped sources opts m = true) sorted). rewrite Hf, Hcf.
  split_and!; try done.
  - by rewrite <- Hperm, dropped_split.
  - apply (sorted_by merged_less (fun a b => row_ahead (m_Finding a) (m_Finding b))); [exact merged_less_ahead|by apply StronglySorted_filter].
  - apply Forall_forall. intros m [Hm _]%list_elem_of_filter. rewrite <- dropped_spec. congruence.
  - apply Forall_forall. intros m [Hm _]%list_elem_of_filter. by apply dropped_spec.
Qed.
End pipeline_spec.

#[local] Existing Instance ascii_case.

Definition sample_sources : list Source :=
  [mkSource "host" [sample "a" "nil pointer dereference in handler"; sample "a" "nil pointer dereference in handler"];
   mkSource "pool" [sample "b" "nil pointer dereference in the handler"; sample "c" "totally other thing"]].

Definition default_options : Options := mkOptions 1709210096 false ∅ "" "" None ∅ ∅ "".

Lemma sample_reconcile_input : reconcile_input sample_sources default_options.
Proof.
  unfold reconcile_input. replace (ClusterWith _ _) with
    [[sample "a" "nil pointer dereference in handler"; sample "b" "nil pointer dereference in the handler";
      sample "c" "totally other thing"]] by by vm_compute.
  constructor; [|constructor]. left. split; [done|]. split; [|left; unfold solver_rows; simpl; lia].
  repeat constructor; by vm_compute.
Qed.


Lemma Reconcile_sorted_filtered_witness :
  reconcile_input sample_sources default_options /\
  exists r droppedRows, Reconcile sample_sources default_options = Some r /\
    StronglySorted (fun a b => ~ row_ahead (m_Finding b) (m_Finding a)) (res_Findings r) /\
    Forall (fun m => ~ uncorroborated sample_sources default_options (m_Finding m)) (res_Findings r) /\
    Forall (fun m => uncorroborated sample_sources default_options (m_Finding m)) droppedRows /\
    ConsensusFiltered (res_Summary r) = length droppedRows.
Proof.
  split; [exact sample_reconcile_input|].
  destruct (Reconcile_sorted_filtered sample_sources default_options sample_reconcile_input) as
    (r & groups & noise & rows & droppedRows & H1 & _ & _ & _ & H2 & H3 & H4 & H5).
  exists r, droppedRows. exact (conj H1 (conj H2 (conj H3 (conj H4 H5)))).
Defined.

(** Rows that agree on severity, file, line and problem keep their input order:
    the order of the output is not independent of the order of the input. *)
Example sortMerged_ties_keep_input_order :
  let row (r : string) := mkMerged (mkFinding "HIGH" "a.go" 3 "p" "" "" 5 "" "" [r] "" "" None) [] "" [] in
  sortMerged [row "a"; row "b"] = [row "a"; row "b"] /\ sortMerged [row "b"; row "a"] = [row "b"; row "a"].
Proof. by vm_compute. Qed.
