(* ===== verification/JsonAdapter.v ===== *)
(** * The reconcile-json/v1 adapter

    src/reconcile/adapter/json/adapter.go: [Decode] sniffs, unmarshals and validates
    an external finding document, [Encode] renders a result as one. *)

From Stdlib Require Import Ascii String.
From stdpp Require Import prelude strings gmap list sorting pretty.
From Stdlib Require Import ZArith Lia.
From S2P Require Import Prelude GoString GoSort GoFloat GoJson JsonDecode JsonRoundtrip GoStrconv Finding Ambiguous FindingJson Cluster Similarity Hungarian FloatBound Bipartite Dedupe Merge PageRank Consensus Reconcile.

Open Scope string_scope.
Open Scope list_scope.
Open Scope nat_scope.

Definition SchemaVersion : string := "reconcile-json/v1".

Definition utf8BOM : bytes := byte_of <$> [239; 187; 191]%N.

(** [decodeEnvelope]; a nil findings slice is [None]. *)
Record decodeEnvelope := mkDecodeEnvelope {
  Version : string;
  env_Source : string;
  env_Findings : option (list Finding);
}.

(** The fields of a finding and of an envelope, as their json tags name them. *)
Definition verification_fields : list (string * decoder Verification) :=
  [field "verdict" Verdict (fun x v => mkVerification x (Skeptic v) (Notes v) (ChallengeSurvived v) (Truncated v)) dec_string;
   field "skeptic" Skeptic (fun x v => mkVerification (Verdict v) x (Notes v) (ChallengeSurvived v) (Truncated v)) dec_string;
   field "notes" Notes (fun x v => mkVerification (Verdict v) (Skeptic v) x (ChallengeSurvived v) (Truncated v)) dec_string;
   field "challenge_survived" ChallengeSurvived
     (fun x v => mkVerification (Verdict v) (Skeptic v) (Notes v) x (Truncated v)) dec_bool;
   field "truncated" Truncated
     (fun x v => mkVerification (Verdict v) (Skeptic v) (Notes v) (ChallengeSurvived v) x) dec_bool].

Definition zero_Verification : Verification := mkVerification "" "" "" false false.
Definition zero_Finding : Finding := mkFinding "" "" 0 "" "" "" 0 "" "" [] "" "" None.

Definition with_text (sev file prob fix_ cat ev : string) (f : Finding) : Finding :=
  mkFinding sev file (Line f) prob fix_ cat (EstMinutes f) ev (Reviewer f) (Reviewers f) (Confidence f)
    (Disagreement f) (Verification_ f).
Definition with_numbers (line est : Z) (f : Finding) : Finding :=
  mkFinding (Severity f) (File f) line (Problem f) (Fix f) (Category f) est (Evidence f) (Reviewer f) (Reviewers f)
    (Confidence f) (Disagreement f) (Verification_ f).
Definition with_panel (rev : string) (revs : list string) (conf dis : string) (v : option Verification) (f : Finding) : Finding :=
  mkFinding (Severity f) (File f) (Line f) (Problem f) (Fix f) (Category f) (EstMinutes f) (Evidence f) rev revs conf dis v.

Definition finding_fields : list (string * decoder Finding) :=
  [field "severity" Severity
     (fun x f => with_text x (File f) (Problem f) (Fix f) (Category f) (Evidence f) f) dec_string;
   field "file" File (fun x f => with_text (Severity f) x (Problem f) (Fix f) (Category f) (Evidence f) f) dec_string;
   field "line" Line (fun x f => with_numbers x (EstMinutes f) f) dec_int;
   field "problem" Problem (fun x f => with_text (Severity f) (File f) x (Fix f) (Category f) (Evidence f) f) dec_string;
   field "fix" Fix (fun x f => with_text (Severity f) (File f) (Problem f) x (Category f) (Evidence f) f) dec_string;
   field "category" Category
     (fun x f => with_text (Severity f) (File f) (Problem f) (Fix f) x (Evidence f) f) dec_string;
   field "est_minutes" EstMinutes (fun x f => with_numbers (Line f) x f) dec_int;
   field "evidence" Evidence
     (fun x f => with_text (Severity f) (File f) (Problem f) (Fix f) (Category f) x f) dec_string;
   field "reviewer" Reviewer
     (fun x f => with_panel x (Reviewers f) (Confidence f) (Disagreement f) (Verification_ f) f) dec_string;
   field "reviewers" Reviewers
     (fun x f => with_panel (Reviewer f) x (Confidence f) (Disagreement f) (Verification_ f) f) (dec_slice "" dec_string);
   field "confidence" Confidence
     (fun x f => with_panel (Reviewer f) (Reviewers f) x (Disagreement f) (Verification_ f) f) dec_string;
   field "disagreement" Disagreement
     (fun x f => with_panel (Reviewer f) (Reviewers f) (Confidence f) x (Verification_ f) f) dec_string;
   field "verification" Verification_
     (fun x f => with_panel (Reviewer f) (Reviewers f) (Confidence f) (Disagreement f) x f)
     (dec_pointer zero_Verification (dec_struct verification_fields))].
Definition dec_Finding : decoder Finding := dec_struct finding_fields.

Definition envelope_fields : list (string * decoder decodeEnvelope) :=
  [field "version" Version (fun x e => mkDecodeEnvelope x (env_Source e) (env_Findings e)) dec_string;
   field "source" env_Source (fun x e => mkDecodeEnvelope (Version e) x (env_Findings e)) dec_string;
   field "findings" env_Findings (fun x e => mkDecodeEnvelope (Version e) (env_Source e) x)
     (dec_nil_slice zero_Finding dec_Finding)].
Definition zero_envelope : decodeEnvelope := mkDecodeEnvelope "" "" None.
Definition dec_envelope : decoder decodeEnvelope := dec_struct envelope_fields.

(** The errors of [Decode], with the indices their messages print. *)
Inductive DecodeError :=
  | EmptyInput
  | NotObjectOrArray (got : ascii)
  | UnmarshalError
  | BadVersion (source : nat) (got : string)
  | SeverityRequired (source finding : nat)
  | FileRequired (source finding : nat)
  | ProblemRequired (source finding : nat).

(** [bytes.TrimPrefix] *)
Definition TrimPrefix (data prefix : bytes) : bytes :=
  if is_prefix prefix data then drop (length prefix) data else data.

(** [bytes.TrimLeft(data, " \t\n\r")] *)
Definition is_json_space (c : ascii) : bool :=
  existsb (fun n => Ascii.eqb c (byte_of n)) [32; 9; 10; 13]%N.
Fixpoint TrimLeft (data : bytes) : bytes :=
  match data with
  | [] => []
  | c :: data' => if is_json_space c then TrimLeft data' else data
  end.

(** The inner loop over the findings of source [i]. *)
Fixpoint check_findings (i j : nat) (findings : list Finding) : option DecodeError :=
  match findings with
  | [] => None
  | f :: findings' =>
      if Severity f =? "" then Some (SeverityRequired i j)
      else if File f =? "" then Some (FileRequired i j)
      else if Problem f =? "" then Some (ProblemRequired i j)
      else check_findings i (S j) findings'
  end%string.

(** The loop over the envelopes. *)
Fixpoint check_envelopes (i : nat) (envelopes : list decodeEnvelope) (sources : list Source)
    : DecodeError + list Source :=
  match envelopes with
  | [] => inr sources
  | e :: envelopes' =>
      if negb (Version e =? SchemaVersion)%string then inl (BadVersion i (Version e))
      else
        let findings := default [] (env_Findings e) in
        match check_findings i 0 findings with
        | Some err => inl err
        | None => check_envelopes (S i) envelopes' (sources ++ [mkSource (env_Source e) findings])
        end
  end.

(** Sniffing and unmarshalling. *)
Definition read_envelopes (data : bytes) : DecodeError + list decodeEnvelope :=
  let data := TrimPrefix data utf8BOM in
  match TrimLeft data with
  | [] => inl EmptyInput
  | c :: _ =>
      if negb (Ascii.eqb c "[") && negb (Ascii.eqb c "{") then inl (NotObjectOrArray c)
      else if Ascii.eqb c "[" then
        match Unmarshal (dec_slice zero_envelope dec_envelope) [] data with
        | None => inl UnmarshalError | Some l => inr l end
      else
        match Unmarshal dec_envelope zero_envelope data with None => inl UnmarshalError | Some e => inr [e] end
  end.

Definition Decode (data : bytes) : DecodeError + list Source :=
  match read_envelopes data with
  | inl e => inl e
  | inr envelopes => check_envelopes 0 envelopes []
  end.

(** ** Encoding *)

(** [time.Time.IsZero]: 0001-01-01T00:00:00Z. *)
Definition IsZero (t : Z) : bool := (t =? -62135596800)%Z.

(** A Go map renders with its keys sorted. *)
Definition json_of_map {A} (f : A -> json) (m : gmap string A) : json :=
  JObj (omap (fun k => (fun x => (k, f x)) <$> m !! k) (sort_strings (map_to_list m).*1)).

Definition JNat (n : nat) : json := JInt (Z.of_nat n).

Definition json_of_Summary (s : Summary) : json :=
  JObj ([("sources_scanned", JArr (JStr <$> SourcesScanned s));
         ("per_source_counts", json_of_map JNat (PerSourceCounts s));
         ("clusters_collapsed", JNat (ClustersCollapsed s));
         ("severity_disagreements", JNat (SeverityDisagreements s));
         ("authority_promoted", JNat (AuthorityPromoted s));
         ("partial", JBool (sum_Partial s));
         ("skipped_sources", JArr (JStr <$> SkippedSources s));
         ("skipped_source_count", JNat (SkippedSourceCount s));
         ("ambiguous_hash", JStr (sum_AmbiguousHash s));
         ("ambiguous_count", JNat (AmbiguousCount s));
         ("noise_count", JNat (NoiseCount s));
         ("consensus_filtered", JNat (ConsensusFiltered s));
         ("unresolved_filtered", JNat (UnresolvedFiltered s))]
    ++ omitempty_str "unresolved_state" (UnresolvedState s)
    ++ [("consensus_level", JStr (ConsensusLevel s)); ("trust_priors_resolved", JNat (TrustPriorsResolved s))]
    ++ (if size (sum_OpportunityScoped s) =? 0 then []
        else [("opportunity_scoped", json_of_map JBool (sum_OpportunityScoped s))])
    ++ [("out_of_scope", JNat (OutOfScope s)); ("total_findings", JNat (TotalFindings s));
        ("reconciled_at", JStr (sum_ReconciledAt s))]).

(** [encodeEnvelope]; a merged row serializes as its embedded finding. *)
Record encodeEnvelope := mkEncodeEnvelope {
  enc_Version : string;
  enc_ReconciledAt : string;
  enc_Findings : list Merged;
  enc_Summary : Summary;
  enc_Ambiguous : list AmbiguousCluster;
}.

Definition json_of_envelope (e : encodeEnvelope) : json :=
  JObj [("version", JStr (enc_Version e)); ("reconciled_at", JStr (enc_ReconciledAt e));
        ("findings", JArr ((fun m => json_of_Finding (m_Finding m)) <$> enc_Findings e));
        ("summary", json_of_Summary (enc_Summary e));
        ("ambiguous", JArr (json_of_AmbiguousCluster <$> enc_Ambiguous e))].

(** [now] is [time.Now()]. *)
Definition Encode (now : Z) (result : Result) (opts : Options) : option bytes :=
  let at_ := if IsZero (ReconciledAt opts) then now else ReconciledAt opts in
  Marshal (json_of_envelope (mkEncodeEnvelope SchemaVersion (RFC3339 at_) (res_Findings result)
    (res_Summary result) (res_Ambiguous result))).

(** ** Validation *)

Section validation.

Definition finding_ok (f : Finding) : Prop := Severity f <> "" /\ File f <> "" /\ Problem f <> "".

Definition envelope_ok (e : decodeEnvelope) : Prop :=
  Version e = SchemaVersion /\ Forall finding_ok (default [] (env_Findings e)).

Definition source_of (e : decodeEnvelope) : Source := mkSource (env_Source e) (default [] (env_Findings e)).

(** What is wrong with finding [f], at its indices: the first missing field, in the
    order severity, file, problem. *)
Definition finding_error (i j : nat) (f : Finding) (err : DecodeError) : Prop :=
  (Severity f = "" /\ err = SeverityRequired i j) \/
  (Severity f <> "" /\ File f = "" /\ err = FileRequired i j) \/
  (Severity f <> "" /\ File f <> "" /\ Problem f = "" /\ err = ProblemRequired i j).

Definition envelope_error (i : nat) (e : decodeEnvelope) (err : DecodeError) : Prop :=
  (Version e <> SchemaVersion /\ err = BadVersion i (Version e)) \/
  (Version e = SchemaVersion /\ exists j f, default [] (env_Findings e) !! j = Some f /\
     Forall finding_ok (take j (default [] (env_Findings e))) /\ finding_error i j f err).

Lemma check_findings_spec i j fs :
  match check_findings i j fs with
  | None => Forall finding_ok fs
  | Some err => exists k f, fs !! k = Some f /\ Forall finding_ok (take k fs) /\ finding_error i (j + k) f err
  end.
Proof.
  revert j. induction fs as [|f fs IH]; intros j; cbn [check_findings]; [constructor|].
  assert (forall err, finding_error i j f err ->
    exists k g, (f :: fs) !! k = Some g /\ Forall finding_ok (take k (f :: fs)) /\ finding_error i (j + k) g err) as here.
  { intros err He. exists 0, f. rewrite Nat.add_0_r. split; [done|]. by split; [constructor|]. }
  destruct (String.eqb_spec (Severity f) "") as [|Hs]; [apply here; by left|].
  destruct (String.eqb_spec (File f) "") as [|Hf]; [apply here; by right; left|].
  destruct (String.eqb_spec (Problem f) "") as [|Hp]; [apply here; by right; right|].
  specialize (IH (S j)). destruct (check_findings i (S j) fs) as [err|].
  - destruct IH as (k & g & Hk & Ht & He). exists (S k), g. split; [done|].
    split; [constructor; done|]. by rewrite Nat.add_succ_r.
  - by constructor.
Qed.

Lemma check_envelopes_spec i es srcs :
  match check_envelopes i es srcs with
  | inr out => Forall envelope_ok es /\ out = srcs ++ (source_of <$> es)
  | inl err => exists k e, es !! k = Some e /\ Forall envelope_ok (take k es) /\ envelope_error (i + k) e err
  end.
Proof.
  revert i srcs. induction es as [|e es IH]; intros i srcs; cbn [check_envelopes].
  { split; [constructor|by rewrite app_nil_r]. }
  destruct (String.eqb_spec (Version e) SchemaVersion) as [Hv|Hv]; cbn [negb].
  2: { exists 0, e. rewrite Nat.add_0_r. split; [done|]. split; [constructor|]. by left. }
  pose proof (check_findings_spec i 0 (default [] (env_Findings e))) as Hf.
  destruct (check_findings i 0 _) as [err|].
  { destruct Hf as (j & f & Hj & Ht & He). exists 0, e. rewrite Nat.add_0_r. split; [done|]. split; [constructor|].
    right. split; [done|]. by exists j, f. }
  specialize (IH (S i) (srcs ++ [source_of e])). fold (source_of e).
  destruct (check_envelopes (S i) es (srcs ++ [source_of e])) as [err|out].
  - destruct IH as (k & e' & Hk & Ht & He). exists (S k), e'. split; [done|].
    split; [constructor; done|]. by rewrite Nat.add_succ_r.
  - destruct IH as [Hall ->]. split; [by constructor|]. by rewrite <- app_assoc.
Qed.
End validation.

(** C40. [Decode] accepts exactly the documents whose every envelope carries the
    schema version and whose every finding has a severity, a file and a problem,
    and then answers one source per envelope, in order, with its findings as they
    were read. It rejects any other with the error of the first offending envelope
    and, in it, of the first offending finding's first missing field, so an error
    never names an entry past a bad one. *)
Theorem Decode_spec (data : bytes) :
  match Decode data, read_envelopes data with
  | inr sources, inr es => Forall envelope_ok es /\ sources = source_of <$> es
  | inl err, inr es => exists k e, es !! k = Some e /\ Forall envelope_ok (take k es) /\ envelope_error k e err
  | inl err, inl err' => err = err'
  | inr _, inl _ => False
  end.
Proof.
  unfold Decode. destruct (read_envelopes data) as [err|es]; [done|]. apply (check_envelopes_spec 0 es []).
Qed.

(** ** A run always encodes *)

Lemma encodable_map {A} (f : A -> json) (m : gmap string A) :
  (forall x, encodable (f x) = true) -> encodable (json_of_map f m) = true.
Proof.
  intros Hf. unfold json_of_map. cbn [encodable]. induction (sort_strings _) as [|k ks IH]; [done|].
  simpl. destruct (m !! k); simpl; [by rewrite Hf|done].
Qed.

Lemma encodable_Summary s : encodable (json_of_Summary s) = true.
Proof.
  unfold json_of_Summary. cbn [encodable]. rewrite !forallb_app, encodable_omitempty_str.
  destruct (size (sum_OpportunityScoped s) =? 0); cbn [forallb encodable snd];
    rewrite ?encodable_strings, ?encodable_map by done; done.
Qed.

Lemma encodable_rows (ms : list Merged) : forallb encodable ((fun m => json_of_Finding (m_Finding m)) <$> ms) = true.
Proof. induction ms as [|m ms IH]; [done|]. rewrite fmap_cons. cbn [forallb]. by rewrite encodable_Finding. Qed.

(** The result of a run always encodes, whatever the clock, and with a
    [ReconciledAt] set the document does not depend on the clock: the same result
    gives the same bytes. *)
Theorem Encode_run {U : UnicodeCase} (sources : list Source) (opts : Options) :
  reconcile_input sources opts ->
  exists r, Reconcile sources opts = Some r /\
    (forall now, is_Some (Encode now r opts)) /\
    (ReconciledAt opts <> (-62135596800)%Z -> forall now now', Encode now r opts = Encode now' r opts).
Proof.
  intros Hin. destruct (Reconcile_run sources opts Hin) as (groups & noise & amb & rows & sorted & r & R).
  exists r. split; [apply R|]. split.
  - intros now. apply Marshal_total. cbn [json_of_envelope enc_Version enc_ReconciledAt enc_Findings enc_Summary
      enc_Ambiguous encodable forallb snd].
    rewrite encodable_rows, encodable_Summary, encodable_clusters by apply R. done.
  - intros Hz now now'. unfold Encode, IsZero. by rewrite (proj2 (Z.eqb_neq _ _) Hz).
Qed.

#[local] Existing Instance ascii_case.

Lemma Encode_run_witness :
  exists r, Reconcile sample_sources default_options = Some r /\
    (forall now, is_Some (Encode now r default_options)) /\
    (ReconciledAt default_options <> (-62135596800)%Z ->
       forall now now', Encode now r default_options = Encode now' r default_options).
Proof. apply (Encode_run sample_sources default_options). exact sample_reconcile_input. Defined.

(** A document is rejected at its first bad entry. *)
Example Decode_errors :
  Decode (utf8BOM ++ quoted " [{^version^: ^reconcile-json/v1^, ^findings^: [{^severity^:^LOW^,^file^:^a^,^problem^:^p^},{^file^: ^b^}]}]")
    = inl (SeverityRequired 0 1) /\
  Decode (quoted "{^Version^: ^reconcile-json/v1^, ^source^: ^s^, ^findings^: null}") = inr [mkSource "s" []] /\
  Decode (quoted "{^version^: ^v2^}") = inl (BadVersion 0 "v2") /\
  Decode (quoted "{^version^: 1}") = inl UnmarshalError /\
  Decode (to_bytes "x") = inl (NotObjectOrArray "x") /\ Decode utf8BOM = inl EmptyInput.
Proof. by vm_compute. Qed.
(** ** A result is itself a document *)

Lemma foldM_app {A B} (f : B -> A -> option B) s l1 l2 : foldM f s (l1 ++ l2) = (s' ← foldM f s l1; foldM f s' l2).
Proof. revert s. induction l1 as [|x l1 IH]; intros s; [done|]. simpl. destruct (f s x); [apply IH|done]. Qed.

(** A value whose strings are valid UTF-8 and whose integers fit keeps them. *)
Definition wire_string (s : string) : Prop := valid_utf8 s = true.
Definition wire_int (n : Z) : Prop := (MinInt64 <= n <= MaxInt64)%Z.
Definition wire_Verification (v : Verification) : Prop :=
  wire_string (Verdict v) /\ wire_string (Skeptic v) /\ wire_string (Notes v).
Definition wire_Finding (f : Finding) : Prop :=
  Forall wire_string ([Severity f; File f; Problem f; Fix f; Category f; Evidence f; Reviewer f; Confidence f;
    Disagreement f] ++ Reviewers f) /\
  wire_int (Line f) /\ wire_int (EstMinutes f) /\ (forall v, Verification_ f = Some v -> wire_Verification v).

Definition tree_field (kv : string * json) : string * jtree := (sanitize kv.1, tree_of kv.2).

Lemma dec_int_pretty old n : wire_int n -> dec_int old (TNum (to_bytes (pretty n))) = Some n.
Proof. intros H. cbn [dec_int]. rewrite string_of_list_ascii_of_string. by apply Atoi_Itoa. Qed.

Lemma dec_strings_tree l : Forall wire_string l ->
  dec_slice "" dec_string [] (tree_of (JArr (JStr <$> l))) = Some l.
Proof.
  intros H. cbn [tree_of dec_slice]. induction H as [|s l Hs _ IH]; [done|].
  rewrite fmap_cons. cbn [map tree_of dec_elements head tail default dec_string mbind option_bind].
  rewrite IH. by rewrite sanitize_valid.
Qed.

(** An [omitempty] string that is left out reads back as the empty one. *)
Lemma dec_omitempty {A} (fields : list (string * decoder A)) k s (set : string -> A -> A) (x : A) :
  wire_string s -> (forall t, dec_member fields x (sanitize k, TStr t) = Some (set t x)) -> set "" x = x ->
  foldM (dec_member fields) x (map tree_field (omitempty_str k s)) = Some (set s x).
Proof.
  intros Hs Hm H0. unfold omitempty_str. destruct (String.eqb_spec s "") as [->|_]; [by simpl; rewrite H0|].
  cbn [map foldM]. unfold tree_field. cbn [fst snd tree_of]. rewrite Hm. simpl. by rewrite sanitize_valid.
Qed.

Lemma dec_omitempty_bool {A} (fields : list (string * decoder A)) k b (set : bool -> A -> A) (x : A) :
  (forall t, dec_member fields x (sanitize k, TBool t) = Some (set t x)) -> set false x = x ->
  foldM (dec_member fields) x (map tree_field (omitempty_bool k b)) = Some (set b x).
Proof.
  intros Hm H0. destruct b; cbn [omitempty_bool map foldM]; [|by rewrite H0].
  unfold tree_field. cbn [fst snd tree_of]. by rewrite Hm.
Qed.

Lemma dec_Verification_tree v : wire_Verification v ->
  dec_struct verification_fields zero_Verification (tree_of (json_of_Verification v)) = Some v.
Proof.
  intros (Hv & Hs & Hn). unfold json_of_Verification. cbn [tree_of dec_struct].
  change (map (fun kv => (sanitize kv.1, tree_of kv.2))) with (map tree_field).
  rewrite !map_app, foldM_app.
  change (foldM (dec_member verification_fields) zero_Verification (map tree_field [("verdict", JStr (Verdict v)); ("skeptic", JStr (Skeptic v))]))
    with (Some (mkVerification (sanitize (Verdict v)) (sanitize (Skeptic v)) "" false false)).
  rewrite !sanitize_valid by done. cbn [mbind option_bind]. rewrite foldM_app.
  rewrite (dec_omitempty _ _ _ (fun x v => mkVerification (Verdict v) (Skeptic v) x (ChallengeSurvived v) (Truncated v))) by done.
  cbn [mbind option_bind]. rewrite foldM_app.
  rewrite (dec_omitempty_bool _ _ _ (fun x v => mkVerification (Verdict v) (Skeptic v) (Notes v) x (Truncated v))) by done.
  cbn [mbind option_bind].
  rewrite (dec_omitempty_bool _ _ _ (fun x v => mkVerification (Verdict v) (Skeptic v) (Notes v) (ChallengeSurvived v) x)) by done.
  by destruct v.
Qed.

(** One member read, its answer computed. *)
Ltac read_member key r :=
  match goal with |- context [dec_member finding_fields ?x (key, ?t)] =>
    change (dec_member finding_fields x (key, t)) with (r x t) end;
  cbn [mbind option_bind fmap option_fmap option_map].

(** The eight members every finding has. *)
Lemma dec_Finding_required sev file line prob fix_ cat est ev l0 e0 :
  dec_int 0%Z l0 = Some line -> dec_int 0%Z e0 = Some est ->
  foldM (dec_member finding_fields) zero_Finding
    [("severity", TStr sev); ("file", TStr file); ("line", l0); ("problem", TStr prob); ("fix", TStr fix_);
     ("category", TStr cat); ("est_minutes", e0); ("evidence", TStr ev)] =
  Some (mkFinding sev file line prob fix_ cat est ev "" [] "" "" None).
Proof.
  intros Hl He. cbn [foldM].
  read_member "severity" (fun (_ : Finding) (_ : jtree) => Some (mkFinding sev "" 0 "" "" "" 0 "" "" [] "" "" None)).
  read_member "file" (fun (_ : Finding) (_ : jtree) => Some (mkFinding sev file 0 "" "" "" 0 "" "" [] "" "" None)).
  read_member "line" (fun x t => (fun n => with_numbers n 0 x) <$> dec_int 0%Z t). rewrite Hl. cbn [fmap option_fmap option_map].
  cbn [mbind option_bind].
  read_member "problem" (fun (_ : Finding) (_ : jtree) => Some (mkFinding sev file line prob "" "" 0 "" "" [] "" "" None)).
  read_member "fix" (fun (_ : Finding) (_ : jtree) => Some (mkFinding sev file line prob fix_ "" 0 "" "" [] "" "" None)).
  read_member "category" (fun (_ : Finding) (_ : jtree) => Some (mkFinding sev file line prob fix_ cat 0 "" "" [] "" "" None)).
  read_member "est_minutes" (fun x t => (fun n => with_numbers line n x) <$> dec_int 0%Z t). rewrite He.
  cbn [fmap option_fmap option_map mbind option_bind].
  by read_member "evidence" (fun (_ : Finding) (_ : jtree) => Some (mkFinding sev file line prob fix_ cat est ev "" [] "" "" None)).
Qed.

Lemma dec_Finding_tree f : wire_Finding f -> dec_Finding zero_Finding (tree_of (json_of_Finding f)) = Some f.
Proof.
  intros (Hs & Hl & He & Hv). apply Forall_app in Hs as [Hs Hr]. repeat (apply Forall_cons in Hs as [? Hs]).
  unfold json_of_Finding, dec_Finding. cbn [tree_of dec_struct].
  change (map (fun kv => (sanitize kv.1, tree_of kv.2))) with (map tree_field). rewrite !map_app, foldM_app.
  match goal with |- context [foldM _ zero_Finding (map tree_field ?l)] => change (map tree_field l) with
    [("severity", TStr (sanitize (Severity f))); ("file", TStr (sanitize (File f)));
     ("line", TNum (to_bytes (pretty (Line f)))); ("problem", TStr (sanitize (Problem f)));
     ("fix", TStr (sanitize (Fix f))); ("category", TStr (sanitize (Category f)));
     ("est_minutes", TNum (to_bytes (pretty (EstMinutes f)))); ("evidence", TStr (sanitize (Evidence f)))] end.
  rewrite (dec_Finding_required _ _ (Line f) _ _ _ (EstMinutes f)) by (by apply dec_int_pretty).
  rewrite !sanitize_valid by done. cbn [mbind option_bind]. rewrite foldM_app.
  rewrite (dec_omitempty _ _ _ (fun x f => with_panel x (Reviewers f) (Confidence f) (Disagreement f) (Verification_ f) f)) by done.
  cbn [mbind option_bind]. rewrite foldM_app.
  match goal with |- context [foldM _ ?x (map tree_field (match Reviewers f with _ => _ end))] =>
    assert (foldM (dec_member finding_fields) x (map tree_field (if Reviewers f is [] then [] else [("reviewers", JArr (JStr <$> Reviewers f))]))
            = Some (with_panel (Reviewer f) (Reviewers f) "" "" None x)) as -> end.
  { destruct (Reviewers f) as [|r rs] eqn:E; [done|]. rewrite <-E in *.
    cbn [map foldM]. unfold tree_field. cbn [fst snd]. change (sanitize "reviewers") with "reviewers".
    read_member "reviewers" (fun x t => (fun l => with_panel (Reviewer f) l "" "" None x) <$> dec_slice "" dec_string [] t).
    by rewrite dec_strings_tree. }
  cbn [mbind option_bind]. rewrite foldM_app.
  rewrite (dec_omitempty _ _ _ (fun x f => with_panel (Reviewer f) (Reviewers f) x (Disagreement f) (Verification_ f) f)) by done.
  cbn [mbind option_bind]. rewrite foldM_app.
  rewrite (dec_omitempty _ _ _ (fun x f => with_panel (Reviewer f) (Reviewers f) (Confidence f) x (Verification_ f) f)) by done.
  cbn [mbind option_bind]. destruct (Verification_ f) as [v|] eqn:E; [|by destruct f; simpl in *; subst].
  cbn [map foldM]. unfold tree_field. cbn [fst snd]. change (sanitize "verification") with "verification".
  read_member "verification" (fun x t => (fun v => with_panel (Reviewer f) (Reviewers f) (Confidence f) (Disagreement f) v x) <$>
    dec_pointer zero_Verification (dec_struct verification_fields) None t).
  assert (dec_pointer zero_Verification (dec_struct verification_fields) None (tree_of (json_of_Verification v)) =
          Some <$> dec_struct verification_fields zero_Verification (tree_of (json_of_Verification v))) as -> by done.
  rewrite dec_Verification_tree by auto. by destruct f; simpl in *; subst.
Qed.

Lemma dec_Findings_tree fs : Forall wire_Finding fs ->
  dec_elements zero_Finding dec_Finding [] (map tree_of (json_of_Finding <$> fs)) = Some fs.
Proof.
  induction 1 as [|f fs Hf _ IH]; [done|]. rewrite fmap_cons. cbn [map dec_elements head tail default].
  by rewrite dec_Finding_tree, IH.
Qed.

(** *** The document nests a handful of levels *)

Lemma nesting_Cluster c : nesting (json_of_AmbiguousCluster c) <= 4.
Proof.
  unfold json_of_AmbiguousCluster. apply nesting_Obj. nest.
  apply (nesting_map json_of_Finding _ 2), nesting_Finding.
Qed.

Lemma nesting_of_map {A} (g : A -> json) (m : gmap string A) : (forall x, nesting (g x) = 0) -> nesting (json_of_map g m) <= 1.
Proof.
  intros Hg. unfold json_of_map. apply nesting_Obj. induction (sort_strings _) as [|k ks IH]; [constructor|].
  simpl. destruct (m !! k); simpl; [|done]. constructor; [simpl; by rewrite Hg|done].
Qed.

Lemma nesting_Summary s : nesting (json_of_Summary s) <= 2.
Proof.
  unfold json_of_Summary. apply nesting_Obj. nest.
  all: try by apply (nesting_map JStr _ 0).
  - by apply nesting_of_map.
  - destruct (_ =? 0); nest. by apply nesting_of_map.
Qed.

Lemma nesting_envelope e : nesting (json_of_envelope e) <= 6.
Proof.
  unfold json_of_envelope. apply nesting_Obj. nest.
  - pose proof (nesting_map (fun m => json_of_Finding (m_Finding m)) (enc_Findings e) 2 ltac:(intros; apply nesting_Finding)). lia.
  - pose proof (nesting_Summary (enc_Summary e)). lia.
  - apply (nesting_map json_of_AmbiguousCluster _ 4), nesting_Cluster.
Qed.

Lemma dec_envelope_tree at_ (ms : list Merged) s a : Forall (fun m => wire_Finding (m_Finding m)) ms ->
  dec_envelope zero_envelope (tree_of (json_of_envelope (mkEncodeEnvelope SchemaVersion at_ ms s a))) =
  Some (mkDecodeEnvelope SchemaVersion "" (Some (m_Finding <$> ms))).
Proof.
  intros H. unfold json_of_envelope, dec_envelope. cbn [enc_Version enc_ReconciledAt enc_Findings enc_Summary enc_Ambiguous].
  cbn [tree_of dec_struct map]. cbn [foldM fst snd].
  match goal with |- context [dec_member envelope_fields zero_envelope ?kv] =>
    change (dec_member envelope_fields zero_envelope kv) with (Some (mkDecodeEnvelope SchemaVersion "" None)) end.
  cbn [mbind option_bind].
  match goal with |- context [dec_member envelope_fields ?x (sanitize "reconciled_at", ?t)] =>
    change (dec_member envelope_fields x (sanitize "reconciled_at", t)) with (Some x) end.
  cbn [mbind option_bind].
  match goal with |- context [dec_member envelope_fields ?x (sanitize "findings", tree_of (JArr ?l))] =>
    change (dec_member envelope_fields x (sanitize "findings", tree_of (JArr l))) with
      (mkDecodeEnvelope SchemaVersion "" <$> (Some <$> dec_elements zero_Finding dec_Finding [] (map tree_of l))) end.
  change ((fun m => json_of_Finding (m_Finding m)) <$> ms) with ((json_of_Finding ∘ m_Finding) <$> ms).
  rewrite list_fmap_compose, dec_Findings_tree by (by apply Forall_fmap).
  done.
Qed.

(** C39. An encoded result is itself a document: decoding it gives back its
    findings, every field of each, as one source, whenever each carries the fields
    [Decode] requires, its strings are valid UTF-8 and its integers fit an int64. *)
Theorem Decode_Encode (now : Z) (result : Result) (opts : Options) :
  Forall (fun m => wire_Finding (m_Finding m) /\ finding_ok (m_Finding m)) (res_Findings result) ->
  sidecar_ok (res_Ambiguous result) ->
  exists data, Encode now result opts = Some data /\
    Decode data = inr [mkSource "" (m_Finding <$> res_Findings result)].
Proof.
  intros Hrows Hamb. unfold Encode.
  set (env := mkEncodeEnvelope _ _ _ _ _).
  assert (exists data, Marshal (json_of_envelope env) = Some data) as [data Hd].
  { apply Marshal_total. cbn [json_of_envelope env enc_Version enc_ReconciledAt enc_Findings enc_Summary
      enc_Ambiguous encodable forallb snd]. by rewrite encodable_rows, encodable_Summary, encodable_clusters. }
  exists data. split; [done|].
  assert (HU : Unmarshal dec_envelope zero_envelope data =
    Some (mkDecodeEnvelope SchemaVersion "" (Some (m_Finding <$> res_Findings result)))).
  { unfold Unmarshal. rewrite (Parse_Marshal _ _ Hd).
    - apply dec_envelope_tree. eapply Forall_impl; [exact Hrows|]. by intros m [? _].
    - pose proof (nesting_envelope env). apply (Nat.le_trans _ 6); [done|]. by apply Nat.leb_le. }
  destruct (Marshal_Obj _ _ Hd) as (ts & Hdata & _).
  assert (Hread : read_envelopes data = inr [mkDecodeEnvelope SchemaVersion "" (Some (m_Finding <$> res_Findings result))]).
  { unfold read_envelopes. assert (TrimPrefix data utf8BOM = data) as -> by (by rewrite Hdata).
    assert (TrimLeft data = data) as -> by (by rewrite Hdata). rewrite HU. by rewrite Hdata. }
  pose proof (check_envelopes_spec 0 [mkDecodeEnvelope SchemaVersion "" (Some (m_Finding <$> res_Findings result))] []) as Hc.
  unfold Decode. rewrite Hread. destruct (check_envelopes _ _ _) as [err|out]; [|by destruct Hc as [_ ->]].
  destruct Hc as (k & e & Hk & _ & He). destruct k as [|k]; [|done]. injection Hk as <-.
  destruct He as [[? _]|(_ & j & f & Hj & _ & Hf)]; [done|]. cbn [env_Findings default] in Hj.
  apply list_elem_of_lookup_2, list_elem_of_fmap in Hj as (m & -> & Hm). rewrite Forall_forall in Hrows.
  destruct (Hrows m Hm) as [_ (H1 & H2 & H3)]. destruct Hf as [[? _]|[(_ & ? & _)|(_ & _ & ? & _)]]; done.
Qed.

Definition sample_result : Result :=
  mkResult
    [mkMerged (mkFinding "HIGH" "a.go" 7 "nil <deref>" "guard" "bug" 15 "x != nil" "" ["alice"; "bob"] "HIGH" ""
       (Some (mkVerification "confirmed" "eve" "" true false))) [] "" []]
    [] (mkSummary [] ∅ 0 0 0 false [] 0 "" 0 0 0 0 "" "" 0 ∅ 0 1 "").

Lemma Decode_Encode_witness :
  exists data, Encode 0 sample_result default_options = Some data /\
    Decode data = inr [mkSource "" (m_Finding <$> res_Findings sample_result)].
Proof.
  apply (Decode_Encode 0 sample_result default_options); [|constructor].
  apply Forall_cons; split; [|constructor]. split.
  - split; [|split; [|split]].
    + repeat (apply Forall_cons; split; [by vm_compute|]). constructor.
    + unfold wire_int, MinInt64, MaxInt64. simpl. lia.
    + unfold wire_int, MinInt64, MaxInt64. simpl. lia.
    + simpl. intros w [= <-]. split_and!; by vm_compute.
  - split_and!; by vm_compute.
Defined.
