(* ===== verification/CircuitBreaker.v ===== *)
(** * The circuit breaker

    src/internal/circuitbreaker: one provider's three-state breaker (breaker.go) and
    the registry that shares one breaker per provider (registry.go). Every method of
    a [Breaker] runs under its mutex, so concurrent callers amount to some sequence
    of whole method calls, each at the instant its clock reads; [Registry.Get] takes
    two locks in turn and is modelled as the steps between them. The slog line of a
    transition is not modelled; the gauge is. *)

From Stdlib Require Import String.
From stdpp Require Import prelude strings gmap list.
From Stdlib Require Import ZArith Lia.
From S2P Require Import Prelude.

Open Scope string_scope.
Open Scope list_scope.
Open Scope Z_scope.

(** ** breaker.go *)

Inductive State := StateClosed | StateOpen | StateHalfOpen.

#[export] Instance State_eq_dec : EqDecision State.
Proof. solve_decision. Defined.

(** The number the gauge stores. *)
Definition state_code (s : State) : Z :=
  match s with StateClosed => 0 | StateOpen => 1 | StateHalfOpen => 2 end.

(** [State.String] on the integer it switches over. *)
Definition state_string (s : Z) : string :=
  if s =? state_code StateClosed then "closed"
  else if s =? state_code StateOpen then "open"
  else if s =? state_code StateHalfOpen then "half-open"
  else "unknown".

(** Instants and durations are nanoseconds; a duration is an int64 and
    [time.Time.Sub] saturates. *)
Definition maxDuration : Z := 2 ^ 63 - 1.
Definition minDuration : Z := - 2 ^ 63.
Definition Sub (t u : Z) : Z := Z.max minDuration (Z.min maxDuration (t - u)).

Definition DefaultThreshold : Z := 3.
Definition DefaultCooldown : Z := 60 * 10 ^ 9.

Record Breaker := mkBreaker {
  provider : string;
  state : State;
  failureCount : Z;
  openedAt : Z;
  probeInFlight : bool;
  threshold : Z;
  cooldown : Z;
  gauge : Z;
}.

Definition New (provider : string) (threshold cooldown : Z) : Breaker :=
  let threshold := if threshold <=? 0 then DefaultThreshold else threshold in
  let cooldown := if cooldown <=? 0 then DefaultCooldown else cooldown in
  mkBreaker provider StateClosed 0 0 false threshold cooldown (state_code StateClosed).

Definition setMetric (b : Breaker) (s : State) : Breaker :=
  mkBreaker (provider b) (state b) (failureCount b) (openedAt b) (probeInFlight b) (threshold b) (cooldown b)
    (state_code s).

Definition transition (b : Breaker) (s : State) : Breaker :=
  setMetric (mkBreaker (provider b) s (failureCount b) (openedAt b) (probeInFlight b) (threshold b) (cooldown b)
    (gauge b)) s.

Definition set_failureCount (b : Breaker) (n : Z) : Breaker :=
  mkBreaker (provider b) (state b) n (openedAt b) (probeInFlight b) (threshold b) (cooldown b) (gauge b).
Definition set_openedAt (b : Breaker) (t : Z) : Breaker :=
  mkBreaker (provider b) (state b) (failureCount b) t (probeInFlight b) (threshold b) (cooldown b) (gauge b).
Definition set_probe (b : Breaker) (p : bool) : Breaker :=
  mkBreaker (provider b) (state b) (failureCount b) (openedAt b) p (threshold b) (cooldown b) (gauge b).

(** Each method takes the instant [now] its clock answers. *)
Definition refresh (now : Z) (b : Breaker) : Breaker :=
  if bool_decide (state b = StateOpen) && (cooldown b <=? Sub now (openedAt b))
  then transition b StateHalfOpen else b.

Definition open (now : Z) (b : Breaker) : Breaker :=
  set_failureCount (set_openedAt (transition b StateOpen) now) 0.

Definition Allow (now : Z) (b : Breaker) : Breaker * bool :=
  let b := refresh now b in
  match state b with
  | StateClosed => (b, true)
  | StateHalfOpen => if probeInFlight b then (b, false) else (set_probe b true, true)
  | StateOpen => (b, false)
  end.

Definition RecordSuccess (b : Breaker) : Breaker :=
  match state b with
  | StateHalfOpen => set_probe (set_failureCount (transition b StateClosed) 0) false
  | _ => set_failureCount b 0
  end.

Definition RecordFailure (now : Z) (b : Breaker) : Breaker :=
  match state b with
  | StateClosed =>
      let b := set_failureCount b (failureCount b + 1) in
      if threshold b <=? failureCount b then open now b else b
  | StateHalfOpen => set_probe (open now b) false
  | StateOpen => b
  end.

Definition ReleaseProbe (b : Breaker) : Breaker := set_probe b false.

Definition ForceHalfOpen (b : Breaker) : Breaker :=
  mkBreaker (provider b) StateHalfOpen (failureCount b) (openedAt b) false (threshold b) (cooldown b) (gauge b).

Definition get_State (now : Z) (b : Breaker) : Breaker * State :=
  let b := refresh now b in (b, state b).

(** ** Histories of calls *)

(** One call of a breaker's production interface, at the instant it runs. *)
Inductive call :=
  | CAllow (now : Z)
  | CSuccess (now : Z)
  | CFailure (now : Z)
  | CRelease (now : Z)
  | CState (now : Z).

Definition call_time (c : call) : Z :=
  match c with CAllow t | CSuccess t | CFailure t | CRelease t | CState t => t end.

(** The breaker after a call, and whether the call was an [Allow] that admitted. *)
Definition do_call (b : Breaker) (c : call) : Breaker * bool :=
  match c with
  | CAllow t => Allow t b
  | CSuccess _ => (RecordSuccess b, false)
  | CFailure t => (RecordFailure t b, false)
  | CRelease _ => (ReleaseProbe b, false)
  | CState t => ((get_State t b).1, false)
  end.

(** A history: the final breaker and the number of admitted requests. *)
Fixpoint run_calls (b : Breaker) (cs : list call) : Breaker * nat :=
  match cs with
  | [] => (b, 0%nat)
  | c :: cs' =>
      let '(b1, ok) := do_call b c in
      let '(b2, n) := run_calls b1 cs' in
      (b2, if ok then S n else n)
  end.

(** ** What a history preserves *)

(** The production methods never leave these. *)
Record breaker_ok (b : Breaker) : Prop := {
  ok_threshold : 0 < threshold b;
  ok_cooldown : 0 < cooldown b;
  ok_failures : 0 <= failureCount b < threshold b;
  ok_clean : state b <> StateClosed -> failureCount b = 0;
  ok_probe : probeInFlight b = true -> state b = StateHalfOpen;
  ok_gauge : gauge b = state_code (state b);
}.

Lemma refresh_ok now b : breaker_ok b -> breaker_ok (refresh now b).
Proof.
  intros [Ht Hc Hf Hcl Hp Hg]. unfold refresh.
  destruct (bool_decide (state b = StateOpen)) eqn:E; [|done]. apply bool_decide_eq_true in E.
  destruct (_ <=? _); [|done]. split; cbn; try done. intros _. apply Hcl. by rewrite E.
Qed.

Lemma open_ok now b : breaker_ok b -> probeInFlight b = false -> breaker_ok (open now b).
Proof. intros [Ht Hc Hf Hcl Hp Hg] Hpr. split; cbn; try done; try lia. by rewrite Hpr. Qed.

Lemma do_call_ok b c : breaker_ok b -> breaker_ok (do_call b c).1.
Proof.
  intros Hb. pose proof Hb as [Ht Hc Hf Hcl Hp Hg].
  destruct c as [t|t|t|t|t]; cbn [do_call fst].
  - pose proof (refresh_ok t b Hb) as Hr. unfold Allow. destruct Hr as [? ? ? ? ? ?].
    destruct (state (refresh t b)) eqn:E; cbn [fst]; [by split; try (rewrite E)| |].
    + split; cbn; rewrite ?E; auto.
    + destruct (probeInFlight (refresh t b)); split; cbn; rewrite ?E; auto.
  - unfold RecordSuccess. destruct (state b) eqn:E; split; cbn; rewrite ?E; auto; try done; lia.
  - unfold RecordFailure. destruct (state b) eqn:E.
    + cbn [threshold failureCount set_failureCount]. destruct (Z.leb_spec (threshold b) (failureCount b + 1)).
      * split; cbn; try done; try lia. intros Hpr. by apply Hp in Hpr.
      * split; cbn; rewrite ?E; try done; lia.
    + done.
    + split; cbn; try done; lia.
  - split; cbn; done.
  - cbn [get_State fst]. by apply refresh_ok.
Qed.

Lemma run_calls_ok b cs : breaker_ok b -> breaker_ok (run_calls b cs).1.
Proof.
  revert b. induction cs as [|c cs IH]; intros b Hb; cbn [run_calls]; [done|].
  pose proof (do_call_ok b c Hb) as Hc. destruct (do_call b c) as [b1 ok]. specialize (IH b1 Hc).
  by destruct (run_calls b1 cs).
Qed.

Lemma New_ok name thr cd : breaker_ok (New name thr cd).
Proof.
  split; unfold New; cbn; repeat case_match; rewrite ?Z.leb_gt in *; unfold DefaultThreshold, DefaultCooldown in *; done || lia.
Qed.

Lemma run_calls_cons b c cs :
  run_calls b (c :: cs) =
    ((run_calls (do_call b c).1 cs).1, ((if (do_call b c).2 then 1 else 0) + (run_calls (do_call b c).1 cs).2)%nat).
Proof. cbn [run_calls]. destruct (do_call b c) as [b1 ok]; simpl. destruct (run_calls b1 cs). by destruct ok. Qed.

(** The tuning never changes. *)
Lemma do_call_config b c : threshold (do_call b c).1 = threshold b /\ cooldown (do_call b c).1 = cooldown b.
Proof.
  destruct c; cbn [do_call fst]; unfold Allow, RecordSuccess, RecordFailure, get_State, refresh; cbn;
    repeat case_match; done.
Qed.

Lemma run_calls_config b cs :
  threshold (run_calls b cs).1 = threshold b /\ cooldown (run_calls b cs).1 = cooldown b.
Proof.
  revert b. induction cs as [|c cs IH]; intros b; [done|]. rewrite run_calls_cons. cbn [fst].
  destruct (IH (do_call b c).1) as [-> ->]. apply do_call_config.
Qed.

(** The call reports no outcome of a request. *)
Definition quiet (c : call) : bool := match c with CAllow _ | CState _ => true | _ => false end.

Lemma refresh_not_open now b : state b <> StateOpen -> refresh now b = b.
Proof. intros H. unfold refresh. by rewrite bool_decide_eq_false_2. Qed.

Lemma probe_held b cs : state b = StateHalfOpen -> probeInFlight b = true -> Forall (fun c => quiet c = true) cs ->
  run_calls b cs = (b, 0%nat).
Proof.
  intros Hs Hp. induction 1 as [|c cs Hc _ IH]; [done|].
  assert (do_call b c = (b, false)) as Hd.
  { destruct c; try done; cbn [do_call]; unfold Allow, get_State; rewrite refresh_not_open by congruence;
      rewrite ?Hs, ?Hp; done. }
  rewrite run_calls_cons, Hd. cbn [fst snd]. by rewrite IH.
Qed.

Lemma refresh_cases now b :
  refresh now b = b \/ (state b = StateOpen /\ refresh now b = transition b StateHalfOpen).
Proof.
  unfold refresh. destruct (bool_decide_reflect (state b = StateOpen)); [|by left].
  destruct (_ <=? _); auto.
Qed.

Lemma one_probe b cs : state b <> StateClosed -> Forall (fun c => quiet c = true) cs ->
  ((run_calls b cs).2 <= 1)%nat.
Proof.
  intros Hs Hq. revert b Hs. induction Hq as [|c cs Hc Hq IH]; intros b Hs; [simpl; lia|].
  rewrite run_calls_cons. cbn [snd].
  assert (state (refresh (call_time c) b) <> StateClosed) as Hr
    by (destruct (refresh_cases (call_time c) b) as [->|[_ ->]]; done).
  destruct c as [t|t|t|t|t]; try done; cbn [do_call call_time] in *.
  - unfold Allow. destruct (state (refresh t b)) eqn:E; [done| |].
    + cbn [fst snd]. apply IH. congruence.
    + destruct (probeInFlight (refresh t b)) eqn:Ep; cbn [fst snd]; [by apply IH; congruence|].
      rewrite (probe_held (set_probe (refresh t b) true)) by done. simpl. lia.
  - cbn [get_State fst snd]. by apply IH.
Qed.

(** ** Properties *)

(** A breaker some history of a fresh one leads to. *)
Definition reachable (b : Breaker) : Prop :=
  exists name thr cd cs, cd <= maxDuration /\ b = (run_calls (New name thr cd) cs).1.

Lemma reachable_ok b : reachable b -> breaker_ok b /\ cooldown b <= maxDuration.
Proof.
  intros (name & thr & cd & cs & Hcd & ->). split; [apply run_calls_ok, New_ok|].
  rewrite (proj2 (run_calls_config _ _)). unfold New. cbn. destruct (_ <=? _); [by vm_compute|done].
Qed.

(** The half-open gate admits a single request: between two reported outcomes
    (success, failure or release), a breaker that is not closed admits at most one
    request, however many callers ask and however long the probe takes. *)
Theorem breaker_single_probe (b : Breaker) (cs : list call) :
  state b <> StateClosed -> Forall (fun c => quiet c = true) cs -> ((run_calls b cs).2 <= 1)%nat.
Proof. apply one_probe. Qed.

(** A tripped breaker fails fast for the whole cooldown and recovers after it.
    Whatever calls arrive before the cooldown has elapsed — late successes and
    failures of calls from before the trip included — none is admitted, the
    breaker stays open and its cooldown is not extended; the first request after
    the cooldown is admitted, as the probe. *)
Theorem breaker_cooldown (b : Breaker) (cs : list call) (now : Z) :
  reachable b -> state b = StateOpen ->
  Forall (fun c => call_time c < openedAt b + cooldown b) cs ->
  let b' := (run_calls b cs).1 in
  (run_calls b cs).2 = 0%nat /\ state b' = StateOpen /\ openedAt b' = openedAt b /\
  (openedAt b + cooldown b <= now ->
     (Allow now b').2 = true /\ state (Allow now b').1 = StateHalfOpen /\ probeInFlight (Allow now b').1 = true).
Proof.
  intros [Hok Hmax]%reachable_ok Hs Hcs. cbv zeta.
  enough (forall b0, breaker_ok b0 -> state b0 = StateOpen -> openedAt b0 = openedAt b -> cooldown b0 = cooldown b ->
    (run_calls b0 cs).2 = 0%nat /\ state (run_calls b0 cs).1 = StateOpen /\ openedAt (run_calls b0 cs).1 = openedAt b) as H.
  { destruct (H b Hok Hs eq_refl eq_refl) as (Hn & Hs' & Ho'). split_and!; [done..|]. intros Hnow.
    pose proof (run_calls_ok b cs Hok) as Hok'. pose proof (run_calls_config b cs) as [_ Hcd].
    revert Hs' Ho' Hok' Hcd. generalize (run_calls b cs).1. intros b' Hs' Ho' Hok' Hcd.
    assert (refresh now b' = transition b' StateHalfOpen) as Hr.
    { unfold refresh. rewrite bool_decide_eq_true_2, Ho', Hcd by done. simpl.
      rewrite (proj2 (Z.leb_le _ _)); [done|]. unfold Sub. lia. }
    assert (probeInFlight b' = false) as Hp.
    { destruct (probeInFlight b') eqn:Ep; [|done]. by rewrite (ok_probe b' Hok' Ep) in Hs'. }
    unfold Allow. rewrite Hr. cbn. rewrite Hp. done. }
  clear Hok Hs. induction Hcs as [|c cs Hc _ IH]; intros b0 Hb0 Hs0 Ho0 Hcd0; [done|].
  assert (state (do_call b0 c).1 = StateOpen /\ openedAt (do_call b0 c).1 = openedAt b /\ (do_call b0 c).2 = false)
    as (Hs1 & Ho1 & Hn1).
  { assert (forall t, t = call_time c -> refresh t b0 = b0) as Hr.
    { intros t ->. unfold refresh. rewrite (proj2 (Z.leb_gt _ _)); [by rewrite andb_false_r|].
      pose proof (ok_cooldown b0 Hb0). rewrite Ho0, Hcd0. unfold Sub, minDuration. lia. }
    destruct c as [t|t|t|t|t]; cbn [do_call fst snd]; unfold Allow, get_State, RecordSuccess, RecordFailure;
      rewrite ?(Hr t), ?Hs0 by done; cbn; rewrite ?Hs0; auto. }
  rewrite run_calls_cons, Hn1. cbn [fst snd].
  apply IH; [by apply do_call_ok|done|done|]. by rewrite (proj2 (do_call_config b0 c)).
Qed.

Definition is_failure (c : call) : bool := match c with CFailure _ => true | _ => false end.
Definition is_success (c : call) : bool := match c with CSuccess _ => true | _ => false end.
Definition is_allow (c : call) : bool := match c with CAllow _ => true | _ => false end.

(** How many calls of a history satisfy [p]. *)
Definition tally (p : call -> bool) (cs : list call) : nat := length (filter (fun c => p c = true) cs).

Lemma tally_cons p c cs : tally p (c :: cs) = ((if p c then 1 else 0) + tally p cs)%nat.
Proof. unfold tally. rewrite filter_cons. destruct (p c); [by rewrite decide_True|by rewrite decide_False]. Qed.

Lemma stays_open b cs : breaker_ok b -> state b <> StateClosed -> Forall (fun c => is_success c = false) cs ->
  state (run_calls b cs).1 <> StateClosed.
Proof.
  intros Hok Hs Hcs. revert b Hok Hs. induction Hcs as [|c cs Hc _ IH]; intros b Hok Hs; [done|].
  rewrite run_calls_cons. cbn [fst]. apply IH; [by apply do_call_ok|].
  assert (forall t, state (refresh t b) <> StateClosed) as Hr
    by (intros t; destruct (refresh_cases t b) as [->|[_ ->]]; done).
  destruct c as [t|t|t|t|t]; cbn [do_call fst]; try done; [|unfold RecordFailure; by destruct (state b) eqn:E; cbn; rewrite ?E|apply Hr].
  unfold Allow. specialize (Hr t). destruct (state (refresh t b)) eqn:E; [done|by cbn [fst]; rewrite E|].
  destruct (probeInFlight _); cbn [fst set_probe state]; by rewrite E.
Qed.

(** A closed breaker trips exactly at the threshold of consecutive failures: over
    a history without a success it is still closed precisely when the failures,
    with those already counted, stay below the threshold; until then every request
    is admitted, and a success resets the count. *)
Theorem breaker_trips_at_threshold (b : Breaker) (cs : list call) :
  reachable b -> state b = StateClosed -> Forall (fun c => is_success c = false) cs ->
  let b' := (run_calls b cs).1 in
  (state b' = StateClosed <-> failureCount b + Z.of_nat (tally is_failure cs) < threshold b) /\
  (state b' = StateClosed -> (run_calls b cs).2 = tally is_allow cs /\
     failureCount b' = failureCount b + Z.of_nat (tally is_failure cs) /\ failureCount (RecordSuccess b') = 0).
Proof.
  intros [Hok _]%reachable_ok Hs Hcs. cbv zeta. revert b Hok Hs. induction Hcs as [|c cs Hc Hcs IH]; intros b Hok Hs.
  { pose proof (ok_failures b Hok). cbn. unfold RecordSuccess. rewrite Hs. cbn. split; [split; [lia|done]|].
    intros _. split_and!; [done|lia|done]. }
  rewrite run_calls_cons, !tally_cons. cbn [fst snd].
  pose proof (do_call_ok b c Hok) as Hok1. pose proof (do_call_config b c) as [Ht1 _].
  destruct (decide (is_failure c = true /\ threshold b <= failureCount b + 1)) as [[Hf Ht]|Hn].
  { destruct c as [| |t| |]; try done. cbn [do_call fst] in *.
    assert (state (RecordFailure t b) = StateOpen) as Ho.
    { unfold RecordFailure. rewrite Hs. cbn. by rewrite (proj2 (Z.leb_le _ _)). }
    pose proof (stays_open (RecordFailure t b) cs Hok1 ltac:(congruence) Hcs) as Hns.
    cbn [is_failure is_allow]. split; [|done]. split; [done|lia]. }
  assert (state (do_call b c).1 = StateClosed /\ (do_call b c).2 = is_allow c /\
    failureCount (do_call b c).1 = failureCount b + (if is_failure c then 1 else 0)) as (Hs1 & Ha1 & Hf1).
  { destruct c as [t|t|t|t|t]; cbn [do_call fst snd is_allow is_failure] in *; unfold Allow, get_State;
      rewrite ?refresh_not_open by congruence; rewrite ?Hs; cbn; rewrite ?Hs; try (split_and!; [done|done|lia]); try done.
    unfold RecordFailure. rewrite Hs. cbn. rewrite (proj2 (Z.leb_gt _ _)) by (apply Z.nle_gt; tauto). cbn. auto. }
  destruct (IH (do_call b c).1 Hok1 Hs1) as [Hiff Hcl]. rewrite Ht1, Hf1 in Hiff. split.
  - rewrite Hiff. destruct (is_failure c); lia.
  - intros Hc'. destruct (Hcl Hc') as (Hn' & Hf' & Hr'). rewrite Hn', Ha1, Hf', Hf1. split_and!; [done| |done].
    destruct (is_failure c); lia.
Qed.

(** The state machine's invariant holds after every history of production
    calls: the failure count stays below the threshold and is zero while the
    circuit is not closed, only a half-open circuit has a probe in flight, the
    gauge shows the state, and the tuning is as constructed. *)
Theorem breaker_invariant (name : string) (thr cd : Z) (cs : list call) :
  let b := (run_calls (New name thr cd) cs).1 in
  breaker_ok b /\ threshold b = (if thr <=? 0 then DefaultThreshold else thr) /\
  cooldown b = (if cd <=? 0 then DefaultCooldown else cd).
Proof.
  cbv zeta. split; [apply run_calls_ok, New_ok|]. apply run_calls_config.
Qed.

(** ** Witnesses *)

(** Two failures, a success, and three failures at the 40th second. *)
Definition tripping : list call :=
  [CAllow 1; CFailure 2; CFailure 3; CSuccess 4; CFailure 5; CFailure 6; CFailure (40 * 10 ^ 9)].

Lemma tripped_reachable : reachable (run_calls (New "openai" 0 0) tripping).1.
Proof. exists "openai", 0, 0, tripping. by split. Qed.

Lemma breaker_single_probe_witness :
  let b := (run_calls (New "openai" 0 0) tripping).1 in
  let cs := [CAllow (99 * 10 ^ 9); CAllow (100 * 10 ^ 9); CAllow (101 * 10 ^ 9); CAllow (300 * 10 ^ 9)] in
  (run_calls b cs).2 = 1%nat /\ ((run_calls b cs).2 <= 1)%nat.
Proof.
  split; [by vm_compute|]. apply breaker_single_probe; [by vm_compute|]. repeat constructor.
Defined.

Lemma breaker_cooldown_witness :
  let b := (run_calls (New "openai" 0 0) tripping).1 in
  let cs := [CAllow (41 * 10 ^ 9); CSuccess (50 * 10 ^ 9); CFailure (60 * 10 ^ 9); CAllow (99 * 10 ^ 9)] in
  let b' := (run_calls b cs).1 in
  (run_calls b cs).2 = 0%nat /\ state b' = StateOpen /\ openedAt b' = openedAt b /\
  (openedAt b + cooldown b <= 100 * 10 ^ 9 ->
     (Allow (100 * 10 ^ 9) b').2 = true /\ state (Allow (100 * 10 ^ 9) b').1 = StateHalfOpen /\
     probeInFlight (Allow (100 * 10 ^ 9) b').1 = true).
Proof.
  apply (breaker_cooldown (run_calls (New "openai" 0 0) tripping).1
    [CAllow (41 * 10 ^ 9); CSuccess (50 * 10 ^ 9); CFailure (60 * 10 ^ 9); CAllow (99 * 10 ^ 9)] (100 * 10 ^ 9)).
  - exact tripped_reachable.
  - by vm_compute.
  - repeat constructor.
Defined.

Lemma breaker_trips_at_threshold_witness :
  let b := (run_calls (New "openai" 0 0) [CFailure 1]).1 in
  let cs := [CAllow 2; CFailure 3; CAllow 4] in
  let b' := (run_calls b cs).1 in
  (state b' = StateClosed <-> failureCount b + Z.of_nat (tally is_failure cs) < threshold b) /\
  (state b' = StateClosed -> (run_calls b cs).2 = tally is_allow cs /\
     failureCount b' = failureCount b + Z.of_nat (tally is_failure cs) /\ failureCount (RecordSuccess b') = 0).
Proof.
  apply (breaker_trips_at_threshold (run_calls (New "openai" 0 0) [CFailure 1]).1 [CAllow 2; CFailure 3; CAllow 4]).
  - exists "openai", 0, 0, [CFailure 1]. by split.
  - by vm_compute.
  - repeat constructor.
Defined.

(** ** registry.go *)

Open Scope nat_scope.

(** The registry: the map from names to breakers, which are shared by reference, and
    the breakers themselves. An index of [heap] is a pointer. *)
Record Registry := mkRegistry {
  breakers : gmap string nat;
  heap : list Breaker;
}.

Definition NewRegistry : Registry := mkRegistry ∅ [].

(** A goroutine inside [Get]: before the read lock, between the two locks after a
    miss, and returned. *)
Inductive getter :=
  | GStart (p : string)
  | GMissed (p : string)
  | GDone (p : string) (b : nat).

Definition alloc (r : Registry) (b : Breaker) : Registry * nat :=
  (mkRegistry (breakers r) (heap r ++ [b]), length (heap r)).

Definition default_breaker (p : string) : Breaker := New p DefaultThreshold DefaultCooldown.

(** What runs under the read lock, and the throwaway breaker of the empty name. *)
Definition get_read (r : Registry) (p : string) : Registry * getter :=
  if (p =? "")%string then let '(r', b) := alloc r (default_breaker "") in (r', GDone p b)
  else match breakers r !! p with Some b => (r, GDone p b) | None => (r, GMissed p) end.

(** What runs under the write lock. *)
Definition get_create (r : Registry) (p : string) : Registry * getter :=
  match breakers r !! p with
  | Some b => (r, GDone p b)
  | None =>
      let '(r', b) := alloc r (default_breaker p) in
      (mkRegistry (<[p := b]> (breakers r')) (heap r'), GDone p b)
  end.

(** The next critical section of a goroutine. *)
Definition advance (r : Registry) (g : getter) : option (Registry * getter) :=
  match g with
  | GStart p => Some (get_read r p)
  | GMissed p => Some (get_create r p)
  | GDone _ _ => None
  end.

(** A lone [Get]. *)
Definition Get (r : Registry) (p : string) : Registry * nat :=
  match get_read r p with
  | (r', GDone _ b) => (r', b)
  | (r', _) => match get_create r' p with (r'', GDone _ b) => (r'', b) | (r'', _) => (r'', 0) end
  end.

Definition Reset (r : Registry) : Registry := mkRegistry ∅ (heap r).
Definition Set_ (r : Registry) (p : string) (b : nat) : Registry := mkRegistry (<[p := b]> (breakers r)) (heap r).

(** One goroutine runs its next critical section. *)
Inductive get_step : Registry * list getter -> Registry * list getter -> Prop :=
  | step_one r gs i g r' g' :
      gs !! i = Some g -> advance r g = Some (r', g') ->
      get_step (r, gs) (r', <[i := g']> gs).

(** The invariant: the map points at the default breaker of the name, a goroutine
    that has returned holds the registered breaker of its name, throwaway breakers
    are in no map and in no other goroutine's hands. *)
Record registry_inv (c : Registry * list getter) : Prop := {
  ri_map : forall p b, breakers c.1 !! p = Some b -> p <> "" /\ heap c.1 !! b = Some (default_breaker p);
  ri_done : forall i p b, c.2 !! i = Some (GDone p b) -> p <> "" -> breakers c.1 !! p = Some b;
  ri_empty : forall i b, c.2 !! i = Some (GDone "" b) -> heap c.1 !! b = Some (default_breaker "");
  ri_fresh : forall i j b, c.2 !! i = Some (GDone "" b) -> c.2 !! j = Some (GDone "" b) -> i = j;
  ri_missed : forall i p, c.2 !! i = Some (GMissed p) -> p <> "";
}.

Lemma list_insert_cases {A} (l : list A) i j x y :
  <[i := x]> l !! j = Some y -> i = j /\ x = y \/ i <> j /\ l !! j = Some y.
Proof. intros [(-> & -> & _)|[? ?]]%list_lookup_insert_Some; auto. Qed.

Lemma default_breaker_inj p q : default_breaker p = default_breaker q -> p = q.
Proof. by intros [= ->]. Qed.

(** Allocating changes no breaker already there. *)
Lemma alloc_lookup r b l x : heap r !! l = Some x -> heap (alloc r b).1 !! l = Some x.
Proof. intros Hl. simpl. by apply lookup_app_l_Some. Qed.

Lemma get_read_inv r gs i p r' g' :
  registry_inv (r, gs) -> gs !! i = Some (GStart p) -> get_read r p = (r', g') -> registry_inv (r', <[i := g']> gs).
Proof.
  intros [Hm Hd He Hf Hmi] Hi Ha. cbn [fst snd] in *.
  assert (i < length gs) as Hlt by (by apply lookup_lt_Some in Hi).
  unfold get_read in Ha. destruct (String.eqb_spec p "") as [->|Hp].
  - injection Ha as <- <-. split; cbn [fst snd breakers heap].
    + intros q b Hq. destruct (Hm q b Hq) as [? ?]. split; [done|]. by apply lookup_app_l_Some.
    + intros j q b [[<- [= <- <-]]|[_ Hj]]%list_insert_cases; [done|]. by apply Hd with j.
    + intros j b [[<- [= <-]]|[_ Hj]]%list_insert_cases; [by apply list_lookup_middle|].
      apply lookup_app_l_Some. by apply He with j.
    + intros j k b Hj Hk.
      assert (forall l, gs !! l = Some (GDone "" (length (heap r))) -> False) as Hfresh.
      { intros l Hl. apply He, lookup_lt_Some in Hl. lia. }
      apply list_insert_cases in Hj as [[<- [= <-]]|[_ Hj]],
        Hk as [[<- Hk]|[_ Hk]]; [done|by apply Hfresh in Hk|injection Hk as <-; by apply Hfresh in Hj|].
      by apply (Hf j k b).
    + intros j q [[_ Hq]|[_ Hj]]%list_insert_cases; [done|]. by apply Hmi with j.
  - assert (r' = r /\ (g' = GMissed p \/ exists b, g' = GDone p b /\ breakers r !! p = Some b)) as [-> Hg]
      by (destruct (breakers r !! p) eqn:Eb; injection Ha as <- <-; eauto).
    split; cbn [fst snd]; [done| | | |].
    + intros j q b [[<- Hq]|[_ Hj]]%list_insert_cases Hne; [|by apply Hd with j].
      destruct Hg as [->|(b' & -> & Hb)]; [done|]. by injection Hq as <- <-.
    + intros j b [[<- Hq]|[_ Hj]]%list_insert_cases; [|by apply He with j].
      destruct Hg as [->|(b' & -> & Hb)]; [done|]. by injection Hq as -> <-.
    + intros j k b Hj Hk. apply list_insert_cases in Hj as [[<- Hj]|[_ Hj]], Hk as [[<- Hk]|[_ Hk]];
        [done| | |by apply (Hf j k b)]; destruct Hg as [->|(b' & -> & Hb)]; try done; congruence.
    + intros j q [[<- Hq]|[_ Hj]]%list_insert_cases; [|by apply Hmi with j].
      destruct Hg as [->|(b' & -> & Hb)]; [|done]. by injection Hq as <-.
Qed.

Lemma get_create_inv r gs i p r' g' :
  registry_inv (r, gs) -> gs !! i = Some (GMissed p) -> get_create r p = (r', g') -> registry_inv (r', <[i := g']> gs).
Proof.
  intros [Hm Hd He Hf Hmi] Hi Ha. cbn [fst snd] in *.
  assert (i < length gs) as Hlt by (by apply lookup_lt_Some in Hi).
  assert (p <> "") as Hp by (by apply Hmi with i).
  unfold get_create in Ha. destruct (breakers r !! p) as [b0|] eqn:Eb.
  - injection Ha as <- <-. split; cbn [fst snd]; [done| | | |].
    + intros j q b [[<- [= <- <-]]|[_ Hj]]%list_insert_cases Hne; [done|by apply Hd with j].
    + intros j b [[<- [= -> _]]|[_ Hj]]%list_insert_cases; [done|by apply He with j].
    + intros j k b Hj Hk. apply list_insert_cases in Hj as [[<- Hj]|[_ Hj]], Hk as [[<- Hk]|[_ Hk]];
        [done|congruence|congruence|by apply (Hf j k b)].
    + intros j q [[<- Hq]|[_ Hj]]%list_insert_cases; [done|by apply Hmi with j].
  - injection Ha as <- <-. split; cbn [fst snd breakers heap].
    + intros q b [[<- <-]|[_ Hq]]%lookup_insert_Some; [split; [done|by apply list_lookup_middle]|].
      destruct (Hm q b Hq) as [? ?]. split; [done|]. by apply lookup_app_l_Some.
    + intros j q b [[<- [= <- <-]]|[_ Hj]]%list_insert_cases Hne; [by apply lookup_insert_eq|].
      rewrite lookup_insert_ne; [by apply Hd with j|]. intros ->. rewrite (Hd j q b) in Eb; done.
    + intros j b [[<- [= -> _]]|[_ Hj]]%list_insert_cases; [done|].
      apply lookup_app_l_Some. by apply He with j.
    + intros j k b Hj Hk. apply list_insert_cases in Hj as [[<- Hj]|[_ Hj]], Hk as [[<- Hk]|[_ Hk]];
        [done|congruence|congruence|by apply (Hf j k b)].
    + intros j q [[<- Hq]|[_ Hj]]%list_insert_cases; [done|by apply Hmi with j].
Qed.

Lemma get_step_inv c c' : get_step c c' -> registry_inv c -> registry_inv c'.
Proof.
  intros [r gs i g r' g' Hi Ha] Hinv. destruct g as [p|p|]; [| |done]; apply (inj Some) in Ha.
  - by eapply get_read_inv.
  - by eapply get_create_inv.
Qed.

(** A registry some series of complete calls filled, and goroutines about to call. *)
Lemma registry_start ps : registry_inv (NewRegistry, GStart <$> ps).
Proof.
  assert (forall i g, (GStart <$> ps) !! i = Some g -> exists p, g = GStart p) as Hs.
  { intros i g Hi. rewrite list_lookup_fmap in Hi. destruct (ps !! i); [|done]. injection Hi as <-. eauto. }
  split; cbn [fst snd breakers NewRegistry].
  - intros p b Hb. by rewrite lookup_empty in Hb.
  - intros i p b Hi. by destruct (Hs _ _ Hi).
  - intros i b Hi. by destruct (Hs _ _ Hi).
  - intros i j b Hi. by destruct (Hs _ _ Hi).
  - intros i p Hi. by destruct (Hs _ _ Hi).
Qed.

Lemma registry_reachable ps c : rtc get_step (NewRegistry, GStart <$> ps) c -> registry_inv c.
Proof.
  generalize (registry_start ps). intros Hi H. induction H as [|c1 c2 c3 Hs _ IH]; [done|].
  apply IH. by eapply get_step_inv.
Qed.

(** One breaker per provider, under every interleaving of the two critical
    sections of any number of concurrent [Get] calls: goroutines that asked for
    the same non-empty name hold the same breaker, goroutines that asked for
    different names hold different ones, two calls with the empty name never share
    one, and every one handed out is closed, with the default tuning. A goroutine
    is never blocked: while it has not returned it can take a step. *)
Theorem registry_one_breaker_per_provider (ps : list string) (c : Registry * list getter) :
  rtc get_step (NewRegistry, GStart <$> ps) c ->
  (forall i j p q a b, c.2 !! i = Some (GDone p a) -> c.2 !! j = Some (GDone q b) -> i <> j ->
     (a = b <-> p = q /\ p <> "")) /\
  (forall i p b, c.2 !! i = Some (GDone p b) -> heap c.1 !! b = Some (default_breaker p)) /\
  (forall i g, c.2 !! i = Some g -> (exists p b, g = GDone p b) \/ exists c', get_step c c').
Proof.
  intros Hr. destruct (registry_reachable ps c Hr) as [Hm Hd He Hf Hmi].
  assert (forall i p b, c.2 !! i = Some (GDone p b) -> heap c.1 !! b = Some (default_breaker p)) as Hheap.
  { intros i p b Hi. destruct (decide (p = "")) as [->|Hp]; [by apply He with i|]. apply Hm. by apply Hd with i. }
  split; [|split; [done|]].
  - intros i j p q a b Hi Hj Hij. split.
    + intros ->. pose proof (Hheap _ _ _ Hi) as H1. rewrite (Hheap _ _ _ Hj) in H1.
      apply (inj Some), default_breaker_inj in H1 as ->. split; [done|]. intros ->. by apply Hij, (Hf i j b).
    + intros [-> Hq]. pose proof (Hd _ _ _ Hi Hq) as H1. rewrite (Hd _ _ _ Hj Hq) in H1. by injection H1.
  - intros i g Hi. destruct c as [r gs]. simpl in Hi. destruct g as [p|p|p b]; [| |left; eauto]; right.
    + destruct (get_read r p) as [r' g'] eqn:E. exists (r', <[i := g']> gs). apply (step_one r gs i (GStart p)); [done|].
      simpl. by rewrite E.
    + destruct (get_create r p) as [r' g'] eqn:E. exists (r', <[i := g']> gs). apply (step_one r gs i (GMissed p)); [done|].
      simpl. by rewrite E.
Qed.

(** Both goroutines miss under the read lock; the first creates, the second finds. *)
Lemma registry_one_breaker_per_provider_witness :
  let c := (mkRegistry {["openai" := 0]} [default_breaker "openai"], [GDone "openai" 0; GDone "openai" 0]) in
  (forall i j p q a b, c.2 !! i = Some (GDone p a) -> c.2 !! j = Some (GDone q b) -> i <> j ->
     (a = b <-> p = q /\ p <> "")) /\
  (forall i p b, c.2 !! i = Some (GDone p b) -> heap c.1 !! b = Some (default_breaker p)) /\
  (forall i g, c.2 !! i = Some g -> (exists p b, g = GDone p b) \/ exists c', get_step c c').
Proof.
  apply (registry_one_breaker_per_provider ["openai"; "openai"]).
  eapply rtc_l; [apply (step_one NewRegistry _ 0 (GStart "openai")); reflexivity|].
  eapply rtc_l; [apply (step_one _ _ 1 (GStart "openai")); reflexivity|].
  eapply rtc_l; [apply (step_one _ _ 1 (GMissed "openai")); reflexivity|].
  eapply rtc_l; [apply (step_one _ _ 0 (GMissed "openai")); reflexivity|].
  reflexivity.
Defined.

(** ** context.go *)

(** A context is the chain of its values, innermost first; the breaker's key is
    unexported, so only [NewContext] adds an entry under it. *)
Inductive context :=
  | Background
  | WithProvider (parent : context) (provider : string)
  | WithOther (parent : context).

Definition NewContext (ctx : context) (provider : string) : context := WithProvider ctx provider.

Fixpoint ProviderFromContext (ctx : context) : string :=
  match ctx with
  | Background => ""
  | WithProvider _ p => p
  | WithOther parent => ProviderFromContext parent
  end.
