(* ===== verification/Levenshtein.v ===== *)
(** * Edit distance

    src/internal/stream/levenshtein.go: the two-row dynamic program over runes,
    proved to compute the least number of insertions, deletions and substitutions
    that turn one string into the other, and the similarity ratio built on it. *)

From Stdlib Require Import Ascii String.
From stdpp Require Import prelude strings list.
From Stdlib Require Import ZArith Lia.
From S2P Require Import Prelude GoString GoFloat GoJson.

Open Scope string_scope.
Open Scope list_scope.
Open Scope nat_scope.

(** ** [[]rune(s)] *)

(** The code point of a valid encoding of [size] bytes. *)
Definition rune_value (size : nat) (l : bytes) : N :=
  (let b k := code (nth k l Ascii.zero) in
   match size with
   | 1%nat => b 0%nat
   | 2%nat => N.land (b 0%nat) 31 * 64 + N.land (b 1%nat) 63
   | 3%nat => N.land (b 0%nat) 15 * 4096 + N.land (b 1%nat) 63 * 64 + N.land (b 2%nat) 63
   | _ => N.land (b 0%nat) 7 * 262144 + N.land (b 1%nat) 63 * 4096 + N.land (b 2%nat) 63 * 64 + N.land (b 3%nat) 63
   end)%N.

(** An invalid byte decodes to U+FFFD; [skip] bytes of a rune already decoded are
    passed over. *)
Fixpoint rune_list (l : bytes) (skip : nat) : list N :=
  match l with
  | [] => []
  | _ :: l' =>
      match skip with
      | S k => rune_list l' k
      | O => match rune_size l with
             | O => 65533%N :: rune_list l' 0
             | S k => rune_value (S k) l :: rune_list l' k
             end
      end
  end.
Definition runes (s : string) : list N := rune_list (to_bytes s) 0.

Example runes_mixed : runes (of_bytes (byte_of <$> [97; 195; 169; 255; 226; 130; 172; 240; 159; 152; 128]%N)) =
  [97; 233; 65533; 8364; 128512]%N.
Proof. by vm_compute. Qed.

(** ** The dynamic program *)

Definition min3 (a b c : nat) : nat :=
  let m := a in
  let m := if b <? m then b else m in
  if c <? m then c else m.

(** One cell of the row [curr], for the rune [x] of the outer loop. *)
Definition cell_step (x : N) (rb : list N) (prev curr : list nat) (j : nat) : list nat :=
  let cost := if N.eqb x (rb !!! (j - 1)) then 0 else 1 in
  <[j := min3 (prev !!! j + 1) (curr !!! (j - 1) + 1) (prev !!! (j - 1) + cost)]> curr.

(** One row: [curr] is overwritten, and the two rows swap. *)
Definition row_step (ra rb : list N) (st : list nat * list nat) (i : nat) : list nat * list nat :=
  let '(prev, curr) := st in
  let curr := <[0 := i]> curr in
  let curr := foldl (cell_step (ra !!! (i - 1)) rb prev) curr (seq 1 (length rb)) in
  (curr, prev).

Definition levenshtein (a b : string) : nat :=
  let '(ra, rb) := (runes a, runes b) in
  let '(ra, rb) := if length ra <? length rb then (rb, ra) else (ra, rb) in
  if length rb =? 0 then length ra
  else
    let prev := seq 0 (length rb + 1) in
    let curr := replicate (length rb + 1) 0 in
    (foldl (row_step ra rb) (prev, curr) (seq 1 (length ra))).1 !!! length rb.

Definition similarity (a b : string) : float64 :=
  if (a =? b)%string then f_one
  else
    let la := length (runes a) in
    let lb := length (runes b) in
    let longest := if la <? lb then lb else la in
    if longest =? 0 then f_one
    else f_sub f_one (f_div (f_of_nat (levenshtein a b)) (f_of_nat longest)).

Example levenshtein_validator : levenshtein "validator" "validate" = 2.
Proof. by vm_compute. Qed.
Example levenshtein_runes : levenshtein "naïve" "naive" = 1.
Proof. by vm_compute. Qed.

(** ** Edit scripts *)

(** [edits a b n]: [n] insertions, deletions and substitutions turn [a] into [b]. *)
Inductive edits {A} : list A -> list A -> nat -> Prop :=
  | edits_nil : edits [] [] 0
  | edits_keep x a b n : edits a b n -> edits (x :: a) (x :: b) n
  | edits_substitute x y a b n : edits a b n -> edits (x :: a) (y :: b) (S n)
  | edits_insert y a b n : edits a b n -> edits a (y :: b) (S n)
  | edits_delete x a b n : edits a b n -> edits (x :: a) b (S n).

(** [n] is the least number of edits. *)
Definition edit_distance {A} (a b : list A) (n : nat) : Prop :=
  edits a b n /\ forall m, edits a b m -> n <= m.

Section scripts.
Context {A : Type}.
Implicit Types a b c : list A.

Lemma edits_snoc_cases a b n (x : A) : edits a b n ->
  edits (a ++ [x]) (b ++ [x]) n /\ (forall y, edits (a ++ [x]) (b ++ [y]) (S n)) /\
  edits a (b ++ [x]) (S n) /\ edits (a ++ [x]) b (S n).
Proof.
  induction 1 as [|z a b n _ IH|z w a b n _ IH|w a b n _ IH|z a b n _ IH]; simpl.
  - split_and!; intros; eauto using @edits.
  - destruct IH as (? & ? & ? & ?). split_and!; intros; eauto using @edits.
  - destruct IH as (? & ? & ? & ?). split_and!; intros; eauto using @edits.
  - destruct IH as (? & ? & ? & ?). split_and!; intros; eauto using @edits.
  - destruct IH as (? & ? & ? & ?). split_and!; intros; eauto using @edits.
Qed.

Lemma edits_reverse a b n : edits a b n -> edits (reverse a) (reverse b) n.
Proof.
  induction 1 as [|z a b n _ IH|z w a b n _ IH|w a b n _ IH|z a b n _ IH]; rewrite ?reverse_cons; [constructor|..].
  all: match goal with
    | |- edits (_ ++ [?x]) _ _ => destruct (edits_snoc_cases _ _ _ x IH) as (? & ? & ? & ?)
    | |- edits _ (_ ++ [?x]) _ => destruct (edits_snoc_cases _ _ _ x IH) as (? & ? & ? & ?)
    end; auto.
Qed.

Lemma edits_sym a b n : edits a b n -> edits b a n.
Proof. induction 1; by constructor. Qed.

Lemma edits_from_nil b : edits [] b (length b).
Proof. induction b; by constructor. Qed.

Lemma edits_to_nil a : edits a [] (length a).
Proof. induction a; by constructor. Qed.

Lemma edits_length a b n : edits a b n -> length a <= length b + n /\ length b <= length a + n.
Proof. induction 1; simpl; lia. Qed.

Lemma edit_distance_sym a b n : edit_distance a b n -> edit_distance b a n.
Proof. intros [H1 H2]. split; [by apply edits_sym|]. intros m Hm. by apply H2, edits_sym. Qed.

Lemma edit_distance_reverse a b n : edit_distance (reverse a) (reverse b) n -> edit_distance a b n.
Proof.
  intros [H1 H2]. split.
  - apply edits_reverse in H1. by rewrite !reverse_involutive in H1.
  - intros m Hm. by apply H2, edits_reverse.
Qed.

Lemma edit_distance_nil b : edit_distance [] b (length b).
Proof. split; [apply edits_from_nil|]. intros m [_ H]%edits_length. done. Qed.

Lemma min3_le u v w : min3 u v w <= u /\ min3 u v w <= v /\ min3 u v w <= w.
Proof.
  unfold min3. destruct (Nat.ltb_spec v u).
  - destruct (Nat.ltb_spec w v); lia.
  - destruct (Nat.ltb_spec w u); lia.
Qed.

(** The recurrence of the dynamic program. *)
Lemma edit_distance_cons (eqb : A -> A -> bool) x y a b p q r :
  (eqb x y = true <-> x = y) ->
  edit_distance a (y :: b) p -> edit_distance (x :: a) b q -> edit_distance a b r ->
  edit_distance (x :: a) (y :: b) (min3 (p + 1) (q + 1) (r + if eqb x y then 0 else 1)).
Proof.
  intros Heq [Hp1 Hp2] [Hq1 Hq2] [Hr1 Hr2]. set (m := min3 _ _ _).
  assert (m <= p + 1 /\ m <= q + 1 /\ m <= r + (if eqb x y then 0 else 1)) as Hm.
  { apply min3_le. }
  split.
  - assert (edits (x :: a) (y :: b) (p + 1)) by (rewrite Nat.add_1_r; by constructor).
    assert (edits (x :: a) (y :: b) (q + 1)) by (rewrite Nat.add_1_r; by constructor).
    assert (edits (x :: a) (y :: b) (r + if eqb x y then 0 else 1)).
    { destruct (eqb x y) eqn:E; [apply proj1 in Heq; rewrite Heq, Nat.add_0_r by done; by constructor|].
      rewrite Nat.add_1_r. by constructor. }
    unfold m, min3. repeat case_match; done.
  - intros k Hk. inversion Hk; subst.
    + rewrite (proj2 Heq eq_refl) in Hm. specialize (Hr2 k ltac:(done)). lia.
    + specialize (Hr2 _ ltac:(done)). destruct (eqb x y); lia.
    + specialize (Hq2 _ ltac:(done)). lia.
    + specialize (Hp2 _ ltac:(done)). lia.
Qed.
End scripts.

(** ** The program computes it *)

Section table.
Context (ra rb : list N).

(** The distance between the prefixes of lengths [i] and [j]. *)
Definition cell (i j n : nat) : Prop :=
  edit_distance (reverse (take i ra)) (reverse (take j rb)) n.

Definition row_ok (i : nat) (row : list nat) : Prop :=
  length row = length rb + 1 /\ forall j, j <= length rb -> cell i j (row !!! j).

Lemma reverse_take_S (l : list N) i : i < length l -> reverse (take (S i) l) = l !!! i :: reverse (take i l).
Proof.
  intros Hi. rewrite (take_S_r _ _ (l !!! i)) by (by apply list_lookup_lookup_total_lt). apply reverse_snoc.
Qed.

Lemma cell_step_ok i prev curr j :
  i < length ra -> row_ok i prev -> length curr = length rb + 1 -> 1 <= j <= length rb ->
  (forall k, k < j -> cell (S i) k (curr !!! k)) ->
  length (cell_step (ra !!! i) rb prev curr j) = length rb + 1 /\
  forall k, k < S j -> cell (S i) k (cell_step (ra !!! i) rb prev curr j !!! k).
Proof.
  intros Hi [Hlp Hp] Hlc Hj Hc. unfold cell_step. rewrite length_insert. split; [done|].
  intros k Hk. destruct (decide (k = j)) as [->|Hne].
  2: { rewrite list_lookup_total_insert_ne by done. apply Hc. lia. }
  rewrite list_lookup_total_insert_eq by lia. destruct j as [|j]; [lia|]. rewrite Nat.sub_1_r. simpl pred.
  pose proof (Hp (S j) ltac:(lia)) as Hup. pose proof (Hp j ltac:(lia)) as Hdiag. pose proof (Hc j ltac:(lia)) as Hleft.
  unfold cell in *. rewrite (reverse_take_S rb) in * by lia. rewrite (reverse_take_S ra) in * by done.
  apply (edit_distance_cons N.eqb); [apply N.eqb_eq|done..].
Qed.

Lemma row_step_ok i prev curr :
  i < length ra -> row_ok i prev -> length curr = length rb + 1 ->
  row_ok (S i) (row_step ra rb (prev, curr) (S i)).1 /\ length (row_step ra rb (prev, curr) (S i)).2 = length rb + 1.
Proof.
  intros Hi Hp Hl. cbn [row_step fst snd]. rewrite Nat.sub_1_r. simpl pred. split; [|apply Hp].
  pose proof (foldl_invariant (fun done row => length row = length rb + 1 /\
      forall k, k < S (length done) -> cell (S i) k (row !!! k))
    (cell_step (ra !!! i) rb prev) (seq 1 (length rb)) (<[0:=S i]> curr)) as H.
  cbv beta in H. rewrite (length_seq (length rb) 1) in H. destruct H as [H1 H2]; [| |split; [exact H1|intros j Hj; apply H2; lia]].
  - rewrite length_insert. split; [done|]. simpl. intros k Hk. assert (k = 0) as -> by lia.
    rewrite list_lookup_total_insert_eq by lia. unfold cell. simpl. apply edit_distance_sym.
    replace (S i) with (length (reverse (take (S i) ra))) at 2 by (rewrite length_reverse, length_take; lia).
    apply edit_distance_nil.
  - intros done_ j todo row Heq [Hlen Hk].
    assert (j = S (length done_) /\ j <= length rb) as [-> Hle].
    { assert (seq 1 (length rb) !! length done_ = Some j) as Hlk by (rewrite Heq; by apply list_lookup_middle).
      apply lookup_seq in Hlk. lia. }
    rewrite (length_app done_), (Nat.add_1_r (length done_) : length done_ + length [_] = _). apply cell_step_ok; [done|done|done|lia|done].
Qed.

Lemma rows_ok :
  row_ok (length ra) (foldl (row_step ra rb) (seq 0 (length rb + 1), replicate (length rb + 1) 0) (seq 1 (length ra))).1.
Proof.
  pose proof (foldl_invariant (fun done st => row_ok (length done) st.1 /\ length st.2 = length rb + 1)
    (row_step ra rb) (seq 1 (length ra)) (seq 0 (length rb + 1), replicate (length rb + 1) 0)) as H.
  cbv beta in H. rewrite (length_seq (length ra) 1) in H. apply H; clear H.
  - simpl. rewrite length_replicate. split; [|done]. split; [apply length_seq|]. intros j Hj.
    unfold cell. rewrite take_0. change (reverse []) with (@nil N).
    replace (seq 0 (length rb + 1) !!! j) with (length (reverse (take j rb))); [apply edit_distance_nil|].
    rewrite length_reverse, length_take. symmetry. rewrite lookup_total_seq_lt by lia. lia.
  - intros done_ i todo [prev curr] Heq [Hrow Hlen].
    assert (i = S (length done_) /\ i <= length ra) as [-> Hle].
    { assert (seq 1 (length ra) !! length done_ = Some i) as Hlk by (rewrite Heq; by apply list_lookup_middle).
      apply lookup_seq in Hlk. lia. }
    rewrite (length_app done_), (Nat.add_1_r (length done_) : length done_ + length [_] = _). apply row_step_ok; [lia|done|done].
Qed.
End table.

(** [levenshtein] is the edit distance of the two strings as rune sequences: some
    script of that many insertions, deletions and substitutions turns the one into
    the other and no shorter one does. *)
Theorem levenshtein_edit_distance (a b : string) :
  edit_distance (runes a) (runes b) (levenshtein a b).
Proof.
  assert (forall ra rb : list N, edit_distance ra rb
    (if length rb =? 0 then length ra
     else (foldl (row_step ra rb) (seq 0 (length rb + 1), replicate (length rb + 1) 0) (seq 1 (length ra))).1
            !!! length rb)) as H.
  { intros ra rb. destruct (Nat.eqb_spec (length rb) 0) as [E|E].
    - apply nil_length_inv in E as ->. apply edit_distance_sym, edit_distance_nil.
    - destruct (rows_ok ra rb) as [_ Hr]. specialize (Hr (length rb) ltac:(done)).
      unfold cell in Hr. rewrite !firstn_all in Hr. by apply edit_distance_reverse. }
  unfold levenshtein. destruct (length (runes a) <? length (runes b)); [apply edit_distance_sym|]; apply H.
Qed.
