(* ===== verification/Stream.v ===== *)
(** * The findings file

    src/internal/stream: the pipe-delimited v1 findings file, its writer (writer.go)
    and its parser (parser.go [parse]), the location and estimate columns, and the
    canonicalization of the category column at the parse boundary (category.go).
    The body of a v2 document is the argument [parseV2Body] of the parser. *)

From Stdlib Require Import Ascii String.
From stdpp Require Import prelude strings gmap list pretty.
From Stdlib Require Import ZArith Lia Wf_nat.
From S2P Require Import Prelude GoString GoStrconv Finding.

Open Scope string_scope.
Open Scope list_scope.
Open Scope nat_scope.

Definition Version : string := "# atcr-findings/v1".
Definition VersionV2 : string := "# atcr-findings/v2".
Definition versionPrefix : string := "# atcr-findings/".

Definition PerSourceColumns : nat := 8.
Definition ReconciledColumns : nat := 9.

(** The wire columns of a [stream.Finding], and its canonical category. The
    in-memory stamps (path validation, sibling, fallback model) stay at their zero
    values in everything here. *)
Record Finding := mkFinding {
  Severity : string;
  File : string;
  Line : Z;
  Problem : string;
  Fix : string;
  Category : string;
  EstMinutes : Z;
  Evidence : string;
  Reviewer : string;
  Reviewers : list string;
  Confidence : string;
  CanonicalCategory_ : string;
}.

Record SkippedRow := mkSkippedRow {
  skip_Line : nat;
  skip_Content : string;
  skip_columns : nat;
}.

Record ParseResult := mkParseResult {
  Findings : list Finding;
  Skipped : list SkippedRow;
}.

(** The two sentinel errors, [ErrUnknownVersion] with the line it quotes, and the
    errors of a v2 body. *)
Inductive ParseError {E : Type} :=
  | ErrMissingHeader
  | ErrUnknownVersion (line : string)
  | V2Error (e : E).
Arguments ParseError : clear implicits.

(** ** Columns *)

Definition atoiOrZero (s : string) : Z := default 0%Z (Atoi (TrimSpace s)).

Definition maxModelEstMinutes : Z := 7 * 24 * 60.
Definition clampEstMinutes (n : Z) : Z := Z.max 0 (Z.min n maxModelEstMinutes).

(** [strings.LastIndex(s, ":")] with the parts around it. *)
Fixpoint last_colon (l : bytes) : option (bytes * bytes) :=
  match l with
  | [] => None
  | c :: l' =>
      match last_colon l' with
      | Some (before, after) => Some (c :: before, after)
      | None => if Ascii.eqb c ":" then Some ([], l') else None
      end
  end.

Definition splitFileLine (s : string) : string * Z :=
  match last_colon (to_bytes s) with
  | None => (s, 0%Z)
  | Some (before, []) => (of_bytes before, 0%Z)
  | Some (before, suffix) =>
      match Atoi (of_bytes suffix) with
      | None => (s, 0%Z)
      | Some n => (of_bytes before, n)
      end
  end.

Definition splitReviewers (s : string) : list string :=
  filter (fun r => r <> "") (TrimSpace <$> Split s ",").

(** ** category.go *)

(** [strings.Fields]: the maximal runs without white space; [cur] is the run being
    read and [skip] bytes of a space already seen are passed over. *)
Fixpoint field_runs (l cur : bytes) (skip : nat) : list bytes :=
  let emit := if cur is [] then [] else [cur] in
  match l with
  | [] => emit
  | c :: l' =>
      match skip with
      | S k => field_runs l' cur k
      | O => match strip_any spaces l with
             | Some rest => emit ++ field_runs l' [] (length l - length rest - 1)
             | None => field_runs l' (cur ++ [c]) 0
             end
      end
  end.
Definition Fields (s : string) : list string := of_bytes <$> field_runs (to_bytes s) [] 0.

(** [strings.CutSuffix] *)
Definition CutSuffix (s suffix : string) : option string :=
  let l := reverse (to_bytes s) in
  let p := reverse (to_bytes suffix) in
  if is_prefix p l then Some (of_bytes (reverse (drop (length p) l))) else None.

Definition numberForms (w : string) : list string :=
  [w; w +:+ "s"]
  ++ (if CutSuffix w "ies" is Some s then [s +:+ "y"] else [])
  ++ (if CutSuffix w "es" is Some s then [s] else [])
  ++ (if CutSuffix w "s" is Some s then [s] else []).

Definition canonicalMembers : gset string := list_to_set (filter (fun c => c <> CategoryOutOfScope) Categories).

(** A lookup of a missing key reads the empty string, which no fold targets. *)
Definition is_plural_fold (k target : string) : bool :=
  let at_ k := default "" (CategoryMerges !! k) in
  (negb (target =? CategoryOutOfScope) &&
   ((at_ (k +:+ "s") =? target) || (if CutSuffix k "s" is Some k' then at_ k' =? target else false)))%string.

Definition pluralFolds : gmap string string :=
  filter (fun kt => is_plural_fold kt.1 kt.2 = true) CategoryMerges.

Section canonical.
Context {U : UnicodeCase}.

Definition CanonicalCategory (raw : string) : string :=
  if (raw =? CategoryOutOfScope)%string then raw
  else
    let w := ToLower (Join (Fields raw) " ") in
    if (w =? "")%string then ""
    else
      let forms := numberForms w in
      match filter (fun f => f ∈ canonicalMembers) forms with
      | f :: _ => f
      | [] => match omap (fun f => pluralFolds !! f) forms with
              | target :: _ => target
              | [] => CategoryOther
              end
      end.
End canonical.

(** ** writer.go *)

(** [fieldReplacer]: the old strings are tried in the order of its arguments, so
    "\r\n" before "\r". *)
Fixpoint escape_field (l : bytes) : bytes :=
  match l with
  | [] => []
  | c :: l' =>
      if Ascii.eqb c "|" then "/"%char :: escape_field l'
      else if Ascii.eqb c (byte_of 13) then
        match l' with
        | d :: l'' => if Ascii.eqb d (byte_of 10) then " "%char :: escape_field l'' else " "%char :: escape_field l'
        | [] => [" "%char]
        end
      else if Ascii.eqb c (byte_of 10) then " "%char :: escape_field l'
      else c :: escape_field l'
  end.
Definition escapeField (s : string) : string := of_bytes (escape_field (to_bytes s)).

Definition fieldsFor (f : Finding) (cols : nat) : list string :=
  let base := [Severity f; File f +:+ ":" +:+ Itoa (Line f); Problem f; Fix f; Category f; Itoa (EstMinutes f); Evidence f] in
  if cols =? ReconciledColumns then
    let reviewers := (fun r => ReplaceAll r "," "/") <$> Reviewers f in
    base ++ [Join reviewers ","; Confidence f]
  else base ++ [Reviewer f].

Definition LF : string := String (byte_of 10) "".
Definition CR : string := String (byte_of 13) "".

(** The writes of [fmt.Fprintln], in order; the error paths are the writer's. *)
Definition write (findings : list Finding) (cols : nat) : string :=
  foldl (fun out f => out +:+ Join (escapeField <$> fieldsFor f cols) "|" +:+ LF) (Version +:+ LF) findings.

Definition WriteSource (findings : list Finding) : string := write findings PerSourceColumns.
Definition WriteReconciled (findings : list Finding) : string := write findings ReconciledColumns.

Definition AsReconciled (f : Finding) (reviewers : list string) (confidence : string) : Finding :=
  mkFinding (Severity f) (File f) (Line f) (Problem f) (Fix f) (Category f) (EstMinutes f) (Evidence f) ""
    reviewers confidence (CanonicalCategory_ f).

(** ** parser.go *)

(** [strings.TrimRight(raw, "\r")]. *)
Fixpoint trim_cr (l : bytes) : bytes :=
  match l with
  | c :: l' => if Ascii.eqb c (byte_of 13) then trim_cr l' else l
  | [] => []
  end.
Definition TrimRightCR (s : string) : string := of_bytes (reverse (trim_cr (reverse (to_bytes s)))).

Definition HasPrefix (s prefix : string) : bool := is_prefix (to_bytes prefix) (to_bytes s).
(** [strings.TrimPrefix] *)
Definition TrimPrefix (s prefix : string) : string :=
  if HasPrefix s prefix then of_bytes (drop (length (to_bytes prefix)) (to_bytes s)) else s.

(** [versionTokenRe]: "v" and at least one digit, nothing else. *)
Definition is_version_token (s : string) : bool :=
  match to_bytes s with
  | c :: d :: ds => Ascii.eqb c "v" && forallb is_digit (d :: ds)
  | _ => false
  end.

(** [severityRe]: the line starts with a severity and a pipe. *)
Definition severity_row (line : string) : bool :=
  existsb (fun sev => HasPrefix line (sev +:+ "|")) [SevCritical; SevHigh; SevMedium; SevLow].

Section parser.
Context {U : UnicodeCase}.

Definition column (f : list string) (i : nat) : string := nth i f "".

Definition fieldsToFinding (f : list string) (cols : nat) : Finding :=
  let '(file, line) := splitFileLine (column f 1) in
  let est := clampEstMinutes (atoiOrZero (column f 5)) in
  let '(reviewer, reviewers, confidence) :=
    if cols =? ReconciledColumns then ("", splitReviewers (column f 7), column f 8) else (column f 7, [], "") in
  mkFinding (column f 0) file line (column f 2) (column f 3) (column f 4) est (column f 6)
    reviewer reviewers confidence (CanonicalCategory (column f 4)).

(** Trailing empty columns past the last are dropped. *)
Fixpoint drop_trailing (fuel cols : nat) (fields : list string) : list string :=
  match fuel with
  | O => fields
  | S k => if (cols <? length fields) && (default "" (last fields) =? "")%string
           then drop_trailing k cols (take (length fields - 1) fields) else fields
  end.

Definition pad_fields (cols : nat) (fields : list string) : list string :=
  fields ++ replicate (cols - length fields) "".

(** The rows under the header, from line number [i]. *)
Fixpoint parse_rows (cols i : nat) (lines : list string) (res : ParseResult) : ParseResult :=
  match lines with
  | [] => res
  | raw :: lines' =>
      let line := TrimRightCR raw in
      let res :=
        if (TrimSpace line =? "")%string then res
        else if HasPrefix line "#" then res
        else if negb (severity_row line) then res
        else
          let fields := drop_trailing (length (Split line "|")) cols (Split line "|") in
          if cols <? length fields
          then mkParseResult (Findings res) (Skipped res ++ [mkSkippedRow (i + 1) line (length fields)])
          else mkParseResult (Findings res ++ [fieldsToFinding (pad_fields cols fields) cols]) (Skipped res) in
      parse_rows cols (S i) lines' res
  end.

Context {E : Type} (parseV2Body : string -> E + ParseResult).

(** The lines up to the header. *)
Fixpoint parse_header (cols i : nat) (lines : list string) : ParseError E + ParseResult :=
  match lines with
  | [] => inl ErrMissingHeader
  | raw :: lines' =>
      let line := TrimRightCR raw in
      if (TrimSpace line =? "")%string then parse_header cols (S i) lines'
      else if (TrimSpace line =? Version)%string then inr (parse_rows cols (S i) lines' (mkParseResult [] []))
      else if (TrimSpace line =? VersionV2)%string && (cols =? PerSourceColumns) then
        match parseV2Body (Join lines' LF) with inl e => inl (V2Error e) | inr res => inr res end
      else if HasPrefix line versionPrefix && is_version_token (TrimSpace (TrimPrefix line versionPrefix))
      then inl (ErrUnknownVersion (TrimSpace line))
      else inl ErrMissingHeader
  end.

Definition parse (data : string) (cols : nat) : ParseError E + ParseResult := parse_header cols 0 (Split data LF).
End parser.

(** ** Reading back what was written: numbers *)

Lemma atoiOrZero_Itoa n : (MinInt64 <= n <= MaxInt64)%Z -> atoiOrZero (Itoa n) = n.
Proof.
  intros Hn. unfold atoiOrZero. rewrite TrimSpace_no_space, Atoi_Itoa by done || (eapply Forall_impl;
    [apply Itoa_chars|apply digit_no_space]). done.
Qed.

(** ** Reading back what was written: columns *)

Lemma last_colon_none l : ":"%char ∉ l -> last_colon l = None.
Proof.
  induction l as [|c l IH]; [done|]. intros [Hc Hl]%not_elem_of_cons. simpl. rewrite IH by done.
  by rewrite (proj2 (Ascii.eqb_neq c ":")) by congruence.
Qed.

Lemma last_colon_app l r : ":"%char ∉ r -> last_colon (l ++ ":"%char :: r) = Some (l, r).
Proof.
  intros Hr. induction l as [|c l IH]; simpl; [by rewrite last_colon_none|]. by rewrite IH.
Qed.

Lemma splitFileLine_join file n : (MinInt64 <= n <= MaxInt64)%Z -> splitFileLine (file +:+ ":" +:+ Itoa n) = (file, n).
Proof.
  intros Hn. unfold splitFileLine. rewrite !to_bytes_app. simpl.
  rewrite last_colon_app.
  2: { intros Hc. pose proof (Itoa_chars n) as H. rewrite Forall_forall in H. by destruct (H _ Hc). }
  rewrite !string_of_list_ascii_of_string, Atoi_Itoa by done.
  destruct (to_bytes (Itoa n)) eqn:E; [|done].
  pose proof (Atoi_Itoa n Hn) as Ha. unfold Atoi in Ha. by rewrite E in Ha.
Qed.

(** The characters a field must not hold. *)
Definition delimiters : list ascii := ["|"%char; byte_of 13; byte_of 10].

Lemma not_delimiter c : c ∉ delimiters ->
  Ascii.eqb c "|" = false /\ Ascii.eqb c (byte_of 13) = false /\ Ascii.eqb c (byte_of 10) = false.
Proof.
  unfold delimiters. rewrite !not_elem_of_cons. intros (H1 & H2 & H3 & _). split_and!; by apply Ascii.eqb_neq.
Qed.

Lemma escape_field_cons c l : c ∉ delimiters -> escape_field (c :: l) = c :: escape_field l.
Proof. intros (H1 & H2 & H3)%not_delimiter. cbn [escape_field]. by rewrite H1, H2, H3. Qed.

Lemma escape_field_id l : (forall c, c ∈ l -> c ∉ delimiters) -> escape_field l = l.
Proof.
  induction l as [|c l IH]; intros H; [done|]. rewrite escape_field_cons by (apply H; left).
  rewrite IH; [done|]. intros d Hd. apply H. by right.
Qed.

(** Where a field ends no pair of characters is split. *)
Lemma escape_field_app c l r : c ∉ delimiters -> escape_field (l ++ c :: r) = escape_field l ++ c :: escape_field r.
Proof.
  intros Hc. induction l as [l IH] using (induction_ltof1 _ (@length ascii)). unfold ltof in IH.
  destruct l as [|a l]; [by apply escape_field_cons|]. cbn [app escape_field].
  pose proof (IH l ltac:(simpl; lia)) as Hl.
  destruct (Ascii.eqb a "|"); [by rewrite Hl|]. destruct (Ascii.eqb a (byte_of 13)).
  - destruct l as [|b l]; cbn [app].
    + destruct (not_delimiter c Hc) as (_ & _ & ->). by rewrite escape_field_cons.
    + destruct (Ascii.eqb b (byte_of 10)); [by rewrite (IH l) by (simpl; lia)|]. change (b :: l ++ c :: r) with ((b :: l) ++ c :: r).
      by rewrite Hl.
  - destruct (Ascii.eqb a (byte_of 10)); by rewrite Hl.
Qed.

Lemma escape_field_clean c l : c ∈ escape_field l -> c ∉ delimiters.
Proof.
  assert ("/"%char ∉ delimiters /\ " "%char ∉ delimiters) as [Hslash Hspace]
    by (split; apply (bool_decide_eq_true_1 _); by vm_compute).
  induction l as [l IH] using (induction_ltof1 _ (@length ascii)). unfold ltof in IH.
  destruct l as [|a l]; [by intros ?%elem_of_nil|]. cbn [escape_field].
  pose proof (IH l ltac:(simpl; lia)) as Hl.
  destruct (Ascii.eqb_spec a "|") as [_|Hp]; [by intros [->|?]%elem_of_cons; auto|].
  destruct (Ascii.eqb_spec a (byte_of 13)) as [_|Hcr].
  - destruct l as [|b l]; [by intros ->%list_elem_of_singleton|].
    destruct (Ascii.eqb b (byte_of 10)); intros [->|H]%elem_of_cons; auto. by apply (IH l); [simpl; lia|].
  - destruct (Ascii.eqb_spec a (byte_of 10)) as [_|Hlf]; intros [->|H]%elem_of_cons; auto.
    unfold delimiters. rewrite !not_elem_of_cons. split_and!; [done..|by intros ?%elem_of_nil].
Qed.

Lemma escapeField_clean c s : c ∈ delimiters -> lacks c (escapeField s).
Proof.
  unfold lacks, escapeField. rewrite list_ascii_of_string_of_list_ascii. intros Hd Hc. by apply escape_field_clean in Hc.
Qed.

Lemma escapeField_id s : (forall c, c ∈ to_bytes s -> c ∉ delimiters) -> escapeField s = s.
Proof. intros H. unfold escapeField. rewrite escape_field_id by done. apply string_of_list_ascii_of_string. Qed.

Lemma escapeField_char c s t : c ∉ delimiters ->
  escapeField (s +:+ char c +:+ t) = escapeField s +:+ char c +:+ escapeField t.
Proof.
  intros Hc. apply to_bytes_inj. rewrite !to_bytes_app. unfold escapeField.
  rewrite !list_ascii_of_string_of_list_ascii, !to_bytes_app. simpl. by apply escape_field_app.
Qed.

Lemma escapeField_Join c l : c ∉ delimiters -> escapeField (Join l (char c)) = Join (escapeField <$> l) (char c).
Proof.
  intros Hc. induction l as [|s l IH]; [done|]. destruct l as [|t l]; [done|].
  rewrite Join_cons, escapeField_char, IH by done. done.
Qed.

Lemma escapeField_Itoa n : escapeField (Itoa n) = Itoa n.
Proof.
  apply escapeField_id. intros c Hc. pose proof (Itoa_chars n) as H. rewrite Forall_forall in H.
  specialize (H c Hc). pose proof (all_chars_forallb (fun c => implb (is_digit c || Ascii.eqb c "-")
    (bool_decide (c ∉ delimiters))) ltac:(by vm_compute) c) as Hall. cbv beta in Hall.
  apply (bool_decide_eq_true_1 _). destruct H as [H| ->]; [by rewrite H in Hall|by vm_compute].
Qed.

(** ** Reading back what was written: rows *)

Definition severities : list string := [SevCritical; SevHigh; SevMedium; SevLow].

(** A finding every column of which the format can carry: one of the four
    severities and machine integers. *)
Definition wire_ok (f : Finding) : Prop :=
  Severity f ∈ severities /\ (MinInt64 <= Line f <= MaxInt64)%Z /\ (MinInt64 <= EstMinutes f <= MaxInt64)%Z.

Section roundtrip.
Context {U : UnicodeCase}.

(** What a finding reads back as: its texts escaped, its estimate clamped, the
    columns of the other shape empty, its canonical category recomputed. *)
Definition wire_form (cols : nat) (f : Finding) : Finding :=
  let reviewers := filter (fun r => r <> "") ((fun r => TrimSpace (escapeField (ReplaceAll r "," "/"))) <$> Reviewers f) in
  mkFinding (Severity f) (escapeField (File f)) (Line f) (escapeField (Problem f)) (escapeField (Fix f))
    (escapeField (Category f)) (clampEstMinutes (EstMinutes f)) (escapeField (Evidence f))
    (if cols =? ReconciledColumns then "" else escapeField (Reviewer f))
    (if cols =? ReconciledColumns then reviewers else [])
    (if cols =? ReconciledColumns then escapeField (Confidence f) else "")
    (CanonicalCategory (escapeField (Category f))).

Definition shape (cols : nat) : Prop := cols = PerSourceColumns \/ cols = ReconciledColumns.

Lemma replace_comma_lacks s : lacks ","%char (ReplaceAll s "," "/").
Proof.
  unfold lacks, ReplaceAll. rewrite list_ascii_of_string_of_list_ascii.
  change (to_bytes ",") with [","%char]. change (to_bytes "/") with ["/"%char]. rewrite replace_bytes_char.
  intros (x & Hx & _)%list_elem_of_fmap. by destruct (Ascii.eqb_spec "," x) as [|Hne].
Qed.

Lemma escapeField_lacks c s : c ∉ ["/"%char; " "%char] -> lacks c s -> lacks c (escapeField s).
Proof.
  unfold lacks, escapeField. rewrite list_ascii_of_string_of_list_ascii. intros Hc.
  rewrite !not_elem_of_cons in Hc. destruct Hc as (H1 & H2 & _). generalize (to_bytes s). intros l.
  induction l as [l IH] using (induction_ltof1 _ (@length ascii)). unfold ltof in IH.
  destruct l as [|a l]; [done|]. cbn [escape_field]. intros [Ha Hl]%not_elem_of_cons.
  pose proof (IH l ltac:(simpl; lia) Hl) as Hr.
  assert (forall x m, c <> x -> c ∉ m -> c ∉ x :: m) as Hcons by (intros; by rewrite not_elem_of_cons).
  destruct (Ascii.eqb a "|"); [by apply Hcons|]. destruct (Ascii.eqb a (byte_of 13)).
  - destruct l as [|b l]; [by apply Hcons|]. destruct (Ascii.eqb b (byte_of 10)); [|by apply Hcons].
    apply Hcons; [done|]. apply IH; [simpl; lia|]. by apply not_elem_of_cons in Hl as [_ ?].
  - destruct (Ascii.eqb a (byte_of 10)); by apply Hcons.
Qed.

Lemma splitReviewers_join rs :
  splitReviewers (escapeField (Join ((fun r => ReplaceAll r "," "/") <$> rs) ",")) =
  filter (fun r => r <> "") ((fun r => TrimSpace (escapeField (ReplaceAll r "," "/"))) <$> rs).
Proof.
  unfold splitReviewers. change "," with (char ",") at 2 3. rewrite escapeField_Join by (apply (bool_decide_eq_true_1 _); by vm_compute).
  destruct rs as [|r rs]; [done|]. rewrite Split_Join.
  - by rewrite <- !list_fmap_compose.
  - done.
  - apply Forall_fmap, Forall_fmap, Forall_forall. intros x _. simpl. apply escapeField_lacks, replace_comma_lacks.
    apply (bool_decide_eq_true_1 _); by vm_compute.
Qed.
Lemma TrimRightCR_id s : lacks (byte_of 13) s -> TrimRightCR s = s.
Proof.
  intros H. unfold TrimRightCR. assert (trim_cr (reverse (to_bytes s)) = reverse (to_bytes s)) as ->.
  { destruct (reverse (to_bytes s)) as [|c l] eqn:E; [done|]. cbn [trim_cr].
    rewrite (proj2 (Ascii.eqb_neq c (byte_of 13))); [done|]. intros ->. apply H, elem_of_reverse. rewrite E. left. }
  rewrite reverse_involutive. apply string_of_list_ascii_of_string.
Qed.

(** The line of a finding. *)
Definition row (cols : nat) (f : Finding) : string := Join (escapeField <$> fieldsFor f cols) "|".

Lemma row_fields_clean cols f c : c ∈ delimiters -> Forall (lacks c) (escapeField <$> fieldsFor f cols).
Proof. intros Hc. apply Forall_fmap, Forall_forall. intros x _. by apply escapeField_clean. Qed.

Lemma row_lacks cols f c : c ∈ [byte_of 13; byte_of 10] -> lacks c (row cols f).
Proof.
  intros Hc. assert (c ∈ delimiters) as Hd by (unfold delimiters; by right). apply lacks_Join; [by apply row_fields_clean|].
  unfold lacks. change (to_bytes "|") with ["|"%char]. rewrite list_elem_of_singleton. intros ->.
  by apply (bool_decide_eq_true_2 _) in Hc.
Qed.

Lemma row_length cols f : shape cols -> length (escapeField <$> fieldsFor f cols) = cols.
Proof. by intros [->| ->]. Qed.

Lemma row_head cols f : Severity f ∈ severities -> exists rest, row cols f = Severity f +:+ "|" +:+ rest.
Proof.
  intros Hs. unfold row, fieldsFor. assert (escapeField (Severity f) = Severity f) as He.
  { unfold severities in Hs. rewrite !elem_of_cons in Hs. by destruct Hs as [->|[->|[->|[->|?%elem_of_nil]]]]. }
  destruct (cols =? ReconciledColumns); rewrite fmap_app, fmap_cons, He; cbn [app]; rewrite fmap_cons;
    cbn [app]; rewrite Join_cons; by eexists.
Qed.

Lemma HasPrefix_app p s : HasPrefix (p +:+ s) p = true.
Proof. unfold HasPrefix. rewrite to_bytes_app. apply is_prefix_spec. by exists (to_bytes s). Qed.

Lemma severity_row_head sev rest : sev ∈ severities ->
  severity_row (sev +:+ "|" +:+ rest) = true /\ HasPrefix (sev +:+ "|" +:+ rest) "#" = false /\
  TrimSpace (sev +:+ "|" +:+ rest) <> "".
Proof.
  intros Hs. split_and!.
  - unfold severity_row. apply existsb_exists. exists sev. split; [by apply list_elem_of_In|].
    rewrite <- str_app_assoc. apply HasPrefix_app.
  - unfold severities in Hs. rewrite !elem_of_cons in Hs. by destruct Hs as [->|[->|[->|[->|?%elem_of_nil]]]].
  - intros Ht. assert ("|"%char ∈ to_bytes (TrimSpace (sev +:+ "|" +:+ rest))) as Hin.
    { apply TrimSpace_keeps; [|apply (bool_decide_eq_true_1 _); by vm_compute].
      rewrite to_bytes_app. apply elem_of_app. right. left. }
    rewrite Ht in Hin. by apply elem_of_nil in Hin.
Qed.

Lemma fieldsToFinding_row cols f : shape cols -> wire_ok f ->
  fieldsToFinding (escapeField <$> fieldsFor f cols) cols = wire_form cols f.
Proof.
  intros Hc (Hs & Hl & He).
  assert (escapeField (Severity f) = Severity f) as Hsev.
  { unfold severities in Hs. rewrite !elem_of_cons in Hs. by destruct Hs as [->|[->|[->|[->|?%elem_of_nil]]]]. }
  assert (escapeField (File f +:+ ":" +:+ Itoa (Line f)) = escapeField (File f) +:+ ":" +:+ Itoa (Line f)) as Hf.
  { change ":" with (char ":"). rewrite escapeField_char, escapeField_Itoa; [done|].
    apply (bool_decide_eq_true_1 _); by vm_compute. }
  unfold fieldsToFinding, fieldsFor, wire_form.
  destruct Hc as [->| ->]; cbn [Nat.eqb PerSourceColumns ReconciledColumns app fmap list_fmap column nth];
    rewrite Hf, splitFileLine_join, escapeField_Itoa, atoiOrZero_Itoa, Hsev, ?splitReviewers_join by done; done.
Qed.

Lemma parse_row cols f i lines res : shape cols -> wire_ok f ->
  parse_rows cols i (row cols f :: lines) res =
  parse_rows cols (S i) lines (mkParseResult (Findings res ++ [wire_form cols f]) (Skipped res)).
Proof.
  intros Hc Hf. cbn [parse_rows]. rewrite TrimRightCR_id by (apply row_lacks; left).
  assert (Split (row cols f) "|" = escapeField <$> fieldsFor f cols) as Hsplit.
  { apply Split_Join; [|apply row_fields_clean; left]. intros H. apply (f_equal length) in H.
    rewrite row_length in H by done. by destruct Hc as [->| ->]. }
  rewrite Hsplit. destruct (row_head cols f) as [rest Hr]; [apply Hf|]. rewrite Hr.
  destruct (severity_row_head (Severity f) rest) as (-> & -> & Ht); [apply Hf|].
  rewrite (proj2 (String.eqb_neq _ _) Ht). cbn [negb].
  assert (forall n, drop_trailing n cols (escapeField <$> fieldsFor f cols) = escapeField <$> fieldsFor f cols) as ->.
  { intros [|n]; [done|]. cbn [drop_trailing]. by rewrite row_length, Nat.ltb_irrefl by done. }
  rewrite row_length, Nat.ltb_irrefl by done. unfold pad_fields. rewrite row_length, Nat.sub_diag, app_nil_r by done.
  by rewrite fieldsToFinding_row.
Qed.

Lemma parse_written_rows cols fs i res : shape cols -> Forall wire_ok fs ->
  parse_rows cols i ((row cols <$> fs) ++ [""]) res =
  mkParseResult (Findings res ++ (wire_form cols <$> fs)) (Skipped res).
Proof.
  intros Hc Hfs. revert i res. induction Hfs as [|f fs Hf _ IH]; intros i res.
  - cbn. rewrite app_nil_r. by destruct res.
  - rewrite fmap_cons. cbn [app]. rewrite parse_row, IH by done. cbn [Findings Skipped]. by rewrite <- app_assoc.
Qed.

(** The writer's output, line by line. *)
Lemma write_lines cols fs : Split (write fs cols) LF = Version :: (row cols <$> fs) ++ [""].
Proof.
  assert (forall out, foldl (fun out f => out +:+ Join (escapeField <$> fieldsFor f cols) "|" +:+ LF) out fs =
    out +:+ foldr (fun f rest => row cols f +:+ LF +:+ rest) "" fs) as Hfold.
  { induction fs as [|f fs IH]; intros out; cbn [foldl foldr].
    - apply to_bytes_inj. rewrite to_bytes_app. simpl. by rewrite app_nil_r.
    - rewrite IH. fold (row cols f). by rewrite !str_app_assoc. }
  unfold write. rewrite Hfold, str_app_assoc. change LF with (char (byte_of 10)).
  rewrite Split_char by (unfold lacks; apply (bool_decide_eq_true_1 _); by vm_compute). f_equal.
  clear Hfold. induction fs as [|f fs IH]; [done|]. cbn [foldr]. rewrite fmap_cons, Split_char.
  - cbn [app]. by rewrite IH.
  - apply row_lacks. right. left.
Qed.

(** C37. What the writer writes the parser reads back, in both column shapes: one
    finding per finding, in order, none skipped and none invented, each with its
    texts' pipes and line breaks replaced, its estimate clamped to a week, and its
    other columns unchanged — in particular the location survives any colon in
    the path. *)
Theorem parse_write {E : Type} (parseV2Body : string -> E + ParseResult) (cols : nat) (findings : list Finding) :
  shape cols -> Forall wire_ok findings ->
  parse parseV2Body (write findings cols) cols = inr (mkParseResult (wire_form cols <$> findings) []).
Proof.
  intros Hc Hfs. unfold parse. rewrite write_lines. cbn [parse_header].
  change (TrimRightCR Version) with Version. change (TrimSpace Version =? "")%string with false.
  change (TrimSpace Version =? Version)%string with true. cbv iota.
  by rewrite (parse_written_rows cols findings).
Qed.

(** The writer cannot be made to forge a column, a row or a header: for any
    findings, the document has one line per finding after the header, and each of
    those lines has exactly the shape's columns. *)
Theorem write_structure (cols : nat) (findings : list Finding) :
  shape cols ->
  Split (write findings cols) LF = Version :: (row cols <$> findings) ++ [""] /\
  Forall (fun f => length (Split (row cols f) "|") = cols) findings.
Proof.
  intros Hc. split; [apply write_lines|]. apply Forall_forall. intros f _.
  unfold row. change "|" with (char "|"). rewrite Split_Join; [by apply row_length| |apply row_fields_clean; left].
  intros H. apply (f_equal length) in H. rewrite row_length in H by done. by destruct Hc as [->| ->].
Qed.
End roundtrip.

(** ** Witnesses *)

#[local] Existing Instance ascii_case.

Definition hostile : Finding :=
  mkFinding "HIGH" "a:b|c.go" 42 ("p|HIGH|" +:+ CR +:+ LF +:+ "LOW|x") "" "Resources" 20000 "e" "ann" ["ann,e "; "bob"] "HIGH" "".

Lemma hostile_ok : wire_ok hostile.
Proof. split; [right; left|]. split; unfold MinInt64, MaxInt64; simpl; lia. Qed.

Lemma parse_write_witness :
  parse (fun _ => inl ()) (write [hostile; hostile] ReconciledColumns) ReconciledColumns =
    inr (mkParseResult (wire_form ReconciledColumns <$> [hostile; hostile]) []) /\
  Reviewers (wire_form ReconciledColumns hostile) = ["ann/e"; "bob"] /\
  Problem (wire_form ReconciledColumns hostile) = "p/HIGH/ LOW/x".
Proof.
  split; [|by vm_compute]. apply (parse_write (fun _ => inl ()) ReconciledColumns [hostile; hostile]); [by right|].
  constructor; [exact hostile_ok|]. constructor; [exact hostile_ok|constructor].
Defined.

Lemma write_structure_witness :
  Split (write [hostile] PerSourceColumns) LF = Version :: (row PerSourceColumns <$> [hostile]) ++ [""] /\
  Forall (fun f => length (Split (row PerSourceColumns f) "|") = PerSourceColumns) [hostile].
Proof. apply (write_structure PerSourceColumns [hostile]). by left. Defined.

(** A foreign version, a garbage version and a missing header are told apart. *)
Example parse_header_errors :
  let p s := parse (fun _ => inl ()) s PerSourceColumns in
  p ("# atcr-findings/v3" +:+ LF) = inl (ErrUnknownVersion "# atcr-findings/v3") /\
  p ("# atcr-findings/v1x" +:+ LF) = inl ErrMissingHeader /\ p ("HIGH|a:1|p" +:+ LF) = inl ErrMissingHeader /\
  p (LF +:+ "# atcr-findings/v2" +:+ LF +:+ "body") = inl (V2Error ()).
Proof. by vm_compute. Qed.
