(* ===== verification/JsonRepair.v ===== *)
(** * Repairing model-written JSON

    src/internal/jsonrepair/repair.go: one linear scan that fixes syntax slips and
    refuses everything else, and [Repair] around it. [Valid] below is
    [encoding/json]'s validity scanner. *)

From Stdlib Require Import Ascii String.
From stdpp Require Import prelude strings list sorting.
From Stdlib Require Import ZArith Lia.
From S2P Require Import Prelude GoString JsonDecode.

Open Scope string_scope.
Open Scope list_scope.
Open Scope nat_scope.

(** ** The scan *)

Inductive pstate := stObjKey | stObjKeyComma | stObjColon | stObjValue | stArrElem | stArrElemComma | stAfterValue.
#[export] Instance pstate_eq_dec : EqDecision pstate.
Proof. solve_decision. Defined.

Record frame := Frame {
  open_ : ascii;
  state : pstate;
  commaPos : nat;
}.

(** The locals of [repairPass]; the innermost frame is the head of [stack]. *)
Record scan := Scan {
  buf : bytes;
  stack : list frame;
  openBrace : Z;
  openBracket : Z;
  topDone : bool;
  lastNumber : bool;
  sawUnmatched : bool;
}.

(** A step goes on, makes [repairPass] answer [false], or would index out of
    range; [Stuck] is also what a scan without fuel answers. *)
Inductive outcome (A : Type) := Ret (a : A) | Decline (saw : bool) | Stuck.
Arguments Ret {A} a.
Arguments Decline {A} saw.
Arguments Stuck {A}.

Definition obind {A B} (m : outcome A) (f : A -> outcome B) : outcome B :=
  match m with Ret a => f a | Decline s => Decline s | Stuck => Stuck end.
Notation "x <~ m ; k" := (obind m (fun x => k)) (at level 20, m at level 100, k at level 200, right associativity).

Definition brace : ascii := byte_of 123.
Definition bracket : ascii := byte_of 91.
Definition dquote : ascii := byte_of 34.
Definition squote : ascii := byte_of 39.

Definition isNumberByte (c : ascii) : bool :=
  is_digit c || Ascii.eqb c "-" || Ascii.eqb c "+" || Ascii.eqb c "." || Ascii.eqb c "e" || Ascii.eqb c "E".
Definition isIdentStart (c : ascii) : bool :=
  Ascii.eqb c "_" || Ascii.eqb c "$" || is_lower c || is_upper c.
Definition isIdentByte (c : ascii) : bool := isIdentStart c || Ascii.eqb c "-" || is_digit c.

(** [openCount[kindIndex(open)]], read and changed. *)
Definition openCount (st : scan) (open : ascii) : Z :=
  if Ascii.eqb open brace then openBrace st else openBracket st.
Definition count_by (d : Z) (open : ascii) (st : scan) : scan :=
  if Ascii.eqb open brace
  then Scan (buf st) (stack st) (openBrace st + d) (openBracket st) (topDone st) (lastNumber st) (sawUnmatched st)
  else Scan (buf st) (stack st) (openBrace st) (openBracket st + d) (topDone st) (lastNumber st) (sawUnmatched st).

Definition set_buf (b : bytes) (st : scan) : scan :=
  Scan b (stack st) (openBrace st) (openBracket st) (topDone st) (lastNumber st) (sawUnmatched st).
Definition set_stack (s : list frame) (st : scan) : scan :=
  Scan (buf st) s (openBrace st) (openBracket st) (topDone st) (lastNumber st) (sawUnmatched st).
Definition set_lastNumber (n : bool) (st : scan) : scan :=
  Scan (buf st) (stack st) (openBrace st) (openBracket st) (topDone st) n (sawUnmatched st).
Definition set_topDone (st : scan) : scan :=
  Scan (buf st) (stack st) (openBrace st) (openBracket st) true (lastNumber st) (sawUnmatched st).
Definition set_saw (w : bool) (st : scan) : scan :=
  Scan (buf st) (stack st) (openBrace st) (openBracket st) (topDone st) (lastNumber st) w.
Definition emit (b : bytes) (st : scan) : scan := set_buf (buf st ++ b) st.

Definition set_top (s : pstate) (st : scan) : scan :=
  match stack st with
  | f :: fs => set_stack (Frame (open_ f) s (commaPos f) :: fs) st
  | [] => st
  end.

Definition valueDone (st : scan) : scan :=
  match stack st with
  | [] => set_topDone st
  | _ => set_top stAfterValue st
  end.
Definition expectsValue (st : scan) : bool :=
  match stack st with
  | [] => negb (topDone st)
  | f :: _ => match state f with stObjValue | stArrElem | stArrElemComma => true | _ => false end
  end.
Definition expectsKey (st : scan) : bool :=
  match stack st with
  | [] => false
  | f :: _ => match state f with stObjKey | stObjKeyComma => true | _ => false end
  end.

(** Go appends [b[p+1:]] to [b[:p]]; both slices need [p < len(b)]. *)
Definition remove_at (p : nat) (b : bytes) : outcome bytes :=
  if p <? length b then Ret (take p b ++ drop (S p) b) else Stuck.

Definition closer_of (open : ascii) : ascii := if Ascii.eqb open brace then "}"%char else "]"%char.

(** A refusal makes [repairPass] answer [false] at every call of [closeTop]. *)
Definition closeTop (st : scan) : outcome scan :=
  match stack st with
  | [] => Stuck
  | f :: fs =>
      b <~ (match state f with
            | stObjKeyComma | stArrElemComma => remove_at (commaPos f) (buf st)
            | stObjKey | stArrElem | stAfterValue => Ret (buf st)
            | stObjColon | stObjValue => Decline (sawUnmatched st)
            end);
      Ret (valueDone (set_lastNumber false (count_by (-1) (open_ f)
             (set_stack fs (set_buf (b ++ [closer_of (open_ f)]) st)))))
  end.

(** Closes every container above the match, then the match. *)
Fixpoint close_to (fuel : nat) (want : ascii) (st : scan) : outcome scan :=
  match fuel, stack st with
  | S k, f :: _ =>
      st' <~ closeTop st;
      if Ascii.eqb (open_ f) want then Ret st' else close_to k want st'
  | _, _ => Stuck
  end.

(** The bytes after the opening quote: those of the literal up to its closing
    quote, and the rest. *)
Fixpoint copyDoubleQuoted (l : bytes) : option (bytes * bytes) :=
  match l with
  | [] => None
  | c :: l' =>
      if Ascii.eqb c "\" then
        match l' with
        | [] => None
        | d :: l'' => '(x, r) ← copyDoubleQuoted l''; Some (c :: d :: x, r)
        end
      else if Ascii.eqb c dquote then Some ([], l')
      else '(x, r) ← copyDoubleQuoted l'; Some (c :: x, r)
  end.

(** The same for a single-quoted literal, rewritten as a double-quoted one. *)
Fixpoint convertSingleQuoted (l : bytes) : option (bytes * bytes) :=
  match l with
  | [] => None
  | c :: l' =>
      if Ascii.eqb c "\" then
        match l' with
        | [] => None
        | d :: l'' =>
            '(x, r) ← convertSingleQuoted l'';
            Some ((if Ascii.eqb d squote then [squote] else [c; d]) ++ x, r)
        end
      else if Ascii.eqb c dquote then '(x, r) ← convertSingleQuoted l'; Some ("\"%char :: dquote :: x, r)
      else if Ascii.eqb c squote then Some ([], l')
      else '(x, r) ← convertSingleQuoted l'; Some (c :: x, r)
  end.

Fixpoint skip_line (l : bytes) : bytes :=
  match l with
  | c :: l' => if Ascii.eqb c (byte_of 10) then l else skip_line l'
  | [] => []
  end.

(** The bytes after the first [*/]. *)
Fixpoint skip_block (l : bytes) : option bytes :=
  match l with
  | c :: (d :: l'') as l' =>
      if Ascii.eqb c "*" && Ascii.eqb d "/" then Some l'' else skip_block l'
  | _ => None
  end.

Fixpoint span (f : ascii -> bool) (l : bytes) : bytes * bytes :=
  match l with
  | c :: l' => if f c then let '(x, r) := span f l' in (c :: x, r) else ([], l)
  | [] => ([], [])
  end.

Definition isLiteral (w : bytes) : bool :=
  bool_decide (w = to_bytes "true") || bool_decide (w = to_bytes "false") || bool_decide (w = to_bytes "null").

(** A string literal has been read: a key waits for its colon, a value is done. *)
Definition string_done (isKey : bool) (lit : bytes) (st : scan) : scan :=
  let st := emit (dquote :: lit ++ [dquote]) st in
  if isKey then set_top stObjColon st else valueDone (set_lastNumber false st).

Definition read_string (c : ascii) (l : bytes) (st : scan) : outcome (scan * bytes) :=
  let isKey := expectsKey st in
  if negb isKey && negb (expectsValue st) then Decline (sawUnmatched st)
  else match (if Ascii.eqb c dquote then copyDoubleQuoted l else convertSingleQuoted l) with
       | None => Decline (sawUnmatched st)
       | Some (lit, r) => Ret (string_done isKey lit st, r)
       end.

Definition read_comma (st : scan) : outcome scan :=
  match stack st with
  | [] => Decline (sawUnmatched st)
  | f :: fs =>
      if bool_decide (state f = stAfterValue) then
        let s := if Ascii.eqb (open_ f) brace then stObjKeyComma else stArrElemComma in
        Ret (emit [","%char] (set_stack (Frame (open_ f) s (length (buf st)) :: fs) st))
      else Decline (sawUnmatched st)
  end.

Definition read_colon (st : scan) : outcome scan :=
  match stack st with
  | f :: _ =>
      if bool_decide (state f = stObjColon) then Ret (emit [":"%char] (set_top stObjValue st))
      else Decline (sawUnmatched st)
  | [] => Decline (sawUnmatched st)
  end.

Definition read_opener (c : ascii) (st : scan) : outcome scan :=
  if expectsValue st then
    let s := if Ascii.eqb c bracket then stArrElem else stObjKey in
    Ret (emit [c] (count_by 1 c (set_stack (Frame c s 0 :: stack st) st)))
  else Decline (sawUnmatched st).

(** [want] is the opener the closer asks for. *)
Definition read_closer (replaceUnmatched : bool) (want : ascii) (st : scan) : outcome scan :=
  let misfit := match stack st with f :: _ => negb (Ascii.eqb (open_ f) want) | [] => false end in
  if misfit && replaceUnmatched then closeTop (set_saw true st)
  else if (0 <? openCount st want)%Z then
    match stack st with
    | [] => Stuck
    | _ => close_to (length (stack st)) want (if misfit then set_saw true st else st)
    end
  else match stack st with
       | [] => if topDone st then Ret st else Decline (sawUnmatched st)
       | _ => if replaceUnmatched then closeTop (set_saw true st) else Ret (set_saw true st)
       end.

Definition read_number (l : bytes) (st : scan) : outcome (scan * bytes) :=
  if expectsValue st then
    let '(n, r) := span isNumberByte l in
    Ret (valueDone (set_lastNumber true (emit n st)), r)
  else Decline (sawUnmatched st).

Definition read_word (l : bytes) (st : scan) : outcome (scan * bytes) :=
  let '(w, r) := span isIdentByte l in
  if expectsKey st then Ret (set_top stObjColon (emit (dquote :: w ++ [dquote]) st), r)
  else if expectsValue st && isLiteral w then Ret (valueDone (set_lastNumber false (emit w st)), r)
  else Decline (sawUnmatched st).

Definition with_rest {A} (r : bytes) (m : outcome A) : outcome (A * bytes) := a <~ m; Ret (a, r).

(** One turn of the loop at byte [c], the bytes after it being [l]. *)
Definition step (replaceUnmatched : bool) (st : scan) (c : ascii) (l : bytes) : outcome (scan * bytes) :=
  let next := match l with d :: _ => Some d | [] => None end in
  if is_json_ws c then Ret (emit [c] st, l)
  else if Ascii.eqb c "/" && bool_decide (next = Some "/"%char) then Ret (st, skip_line (drop 1 l))
  else if Ascii.eqb c "/" && bool_decide (next = Some "*"%char) then
    match skip_block (drop 1 l) with
    | None => Decline (sawUnmatched st)
    | Some r => Ret (emit [" "%char] st, r)
    end
  else if Ascii.eqb c dquote || Ascii.eqb c squote then read_string c l st
  else if Ascii.eqb c ":" then with_rest l (read_colon st)
  else if Ascii.eqb c "," then with_rest l (read_comma st)
  else if Ascii.eqb c brace || Ascii.eqb c bracket then with_rest l (read_opener c st)
  else if Ascii.eqb c "}" || Ascii.eqb c "]" then
    with_rest l (read_closer replaceUnmatched (if Ascii.eqb c "]" then bracket else brace) st)
  else if Ascii.eqb c "-" || is_digit c then read_number (c :: l) st
  else if isIdentStart c then read_word (c :: l) st
  else Decline (sawUnmatched st).

Fixpoint scan_loop (fuel : nat) (replaceUnmatched : bool) (st : scan) (l : bytes) : outcome scan :=
  match l with
  | [] => Ret st
  | c :: l' =>
      match fuel with
      | O => Stuck
      | S k => next <~ step replaceUnmatched st c l'; scan_loop k replaceUnmatched next.1 next.2
      end
  end.

(** The end of the input: what [repairPass] answers as [out] and [complete]. *)
Definition scan_end (st : scan) : outcome (scan * bool) :=
  match stack st with
  | [] => Ret (st, topDone st)
  | [f] =>
      if negb (Ascii.eqb (open_ f) bracket) then Decline (sawUnmatched st)
      else if bool_decide (state f = stAfterValue) && lastNumber st then Decline (sawUnmatched st)
      else st' <~ closeTop st; Ret (st', true)
  | _ => Decline (sawUnmatched st)
  end.

Definition scan_start : scan := Scan [] [] 0 0 false false false.

(** [None] is a pass that does not return. *)
Definition repairPass (s : bytes) (replaceUnmatched : bool) : option (bytes * bool * bool) :=
  match (st <~ scan_loop (length s) replaceUnmatched scan_start s; scan_end st) with
  | Ret (st, complete) => Some (buf st, complete, sawUnmatched st)
  | Decline saw => Some ([], false, saw)
  | Stuck => None
  end.

Definition Repair (s : bytes) : option (bytes * bool) :=
  if Valid s then Some (s, false)
  else
    '(out, ok, sawUnmatched) ← repairPass s false;
    '(out, ok) ← (if negb ok && sawUnmatched
                   then '(out, ok, _) ← repairPass s true; Some (out, ok)
                   else Some (out, ok));
    if negb ok || negb (Valid out) then Some (s, false) else Some (out, true).

Example Repair_examples :
  Repair (quoted "[{^a^: 1,}, 'it\'s ^q^'] // end") = Some (quoted "[{^a^: 1}, ^it's \^q\^^] ", true) /\
  Repair (quoted "{key: [1, /* c */ 2}") = Some (quoted "{^key^: [1,   2]}", true) /\
  Repair (quoted "[{^a^: 1]]") = Some (quoted "[{^a^: 1}]", true) /\
  Repair (quoted "[^a^, ^b^") = Some (quoted "[^a^, ^b^]", true) /\
  Repair (quoted "[{^a^: tru") = Some (quoted "[{^a^: tru", false) /\
  Repair (quoted "{^a^: {^b^: 1]}") = Some (quoted "{^a^: {^b^: 1}}", true) /\
  Repair (quoted "{^a^: {^b^: 1]") = Some (quoted "{^a^: {^b^: 1]", false).
Proof. by vm_compute. Qed.

(** ** What a repair changes: two readings of one list of pieces *)

Inductive piece :=
| PSpace (c : ascii)
| PLine (t : bytes)
| PBlock (t : bytes)
| PString (t : bytes)
| PSingle (t x : bytes)
| PMark (c : ascii)
| PComma (kept : bool)
| PDrop (c : ascii)
| PInsert (c : ascii)
| PNumber (n : bytes)
| PWord (w : bytes)
| PKey (w : bytes).

(** The bytes a piece stands for in the input and in the output. *)
Definition piece_in (p : piece) : bytes :=
  match p with
  | PSpace c | PMark c | PDrop c => [c]
  | PLine t => to_bytes "//" ++ t
  | PBlock t => to_bytes "/*" ++ t ++ to_bytes "*/"
  | PString t => dquote :: t ++ [dquote]
  | PSingle t _ => squote :: t ++ [squote]
  | PComma _ => [","%char]
  | PInsert _ => []
  | PNumber n | PWord n | PKey n => n
  end.
Definition piece_out (p : piece) : bytes :=
  match p with
  | PSpace c | PMark c | PInsert c => [c]
  | PLine _ | PDrop _ | PComma false => []
  | PBlock _ => [" "%char]
  | PString t | PSingle _ t | PKey t => dquote :: t ++ [dquote]
  | PComma true => [","%char]
  | PNumber n | PWord n => n
  end.

Definition text_in (ps : list piece) : bytes := mjoin (piece_in <$> ps).
Definition text_out (ps : list piece) : bytes := mjoin (piece_out <$> ps).

(** The bytes and escapes a literal stands for; an escaped quote is a quote. *)
Fixpoint decoded (l : bytes) : list (bool * ascii) :=
  match l with
  | c :: l' =>
      if Ascii.eqb c "\" then
        match l' with
        | d :: l'' => (negb (Ascii.eqb d dquote || Ascii.eqb d squote), d) :: decoded l''
        | [] => [(true, c)]
        end
      else (false, c) :: decoded l'
  | [] => []
  end.

(** The literal [t] is closed by the first quote that ends it, and no earlier. *)
Definition closed_literal (t : bytes) : Prop := copyDoubleQuoted (t ++ [dquote]) = Some (t, []).

Definition piece_ok (p : piece) : Prop :=
  match p with
  | PSpace c => is_json_ws c = true
  | PLine t => byte_of 10 ∉ t
  | PBlock t => skip_block (t ++ to_bytes "*/") = Some []
  | PString t => closed_literal t
  | PSingle t x => closed_literal x /\ decoded x = decoded t
  | PMark c => c = ":"%char \/ c = brace \/ c = bracket
  | PComma _ => True
  | PDrop c | PInsert c => c = "}"%char \/ c = "]"%char
  | PNumber n => n <> [] /\ Forall (fun c => isNumberByte c = true) n
  | PWord w => isLiteral w = true
  | PKey w => w <> [] /\ Forall (fun c => isIdentByte c = true) w
  end.

(** *** Literals, comments and runs *)

Lemma bytes_ind2 (P : bytes -> Prop) :
  P [] -> (forall c, P [c]) -> (forall c d l, P l -> P (d :: l) -> P (c :: d :: l)) -> forall l, P l.
Proof.
  intros H0 H1 H2 l. enough (P l /\ forall c, P (c :: l)) by tauto.
  induction l as [|d l [IH IH']]; split; auto.
Qed.

Lemma copyDoubleQuoted_escape d l :
  copyDoubleQuoted ("\"%char :: d :: l) = ('(x, r) ← copyDoubleQuoted l; Some ("\"%char :: d :: x, r)).
Proof. done. Qed.

Lemma copyDoubleQuoted_close l : copyDoubleQuoted (dquote :: l) = Some ([], l).
Proof. done. Qed.

Lemma copyDoubleQuoted_plain c l : c <> "\"%char -> c <> dquote ->
  copyDoubleQuoted (c :: l) = ('(x, r) ← copyDoubleQuoted l; Some (c :: x, r)).
Proof.
  intros Hb Hq. cbn [copyDoubleQuoted].
  by rewrite (proj2 (Ascii.eqb_neq c "\") Hb), (proj2 (Ascii.eqb_neq c dquote) Hq).
Qed.

Lemma convertSingleQuoted_escape d l :
  convertSingleQuoted ("\"%char :: d :: l) =
  ('(x, r) ← convertSingleQuoted l; Some ((if Ascii.eqb d squote then [squote] else ["\"%char; d]) ++ x, r)).
Proof. done. Qed.

Lemma convertSingleQuoted_dquote l :
  convertSingleQuoted (dquote :: l) = ('(x, r) ← convertSingleQuoted l; Some ("\"%char :: dquote :: x, r)).
Proof. done. Qed.

Lemma convertSingleQuoted_close l : convertSingleQuoted (squote :: l) = Some ([], l).
Proof. done. Qed.

Lemma convertSingleQuoted_plain c l : c <> "\"%char -> c <> dquote -> c <> squote ->
  convertSingleQuoted (c :: l) = ('(x, r) ← convertSingleQuoted l; Some (c :: x, r)).
Proof.
  intros Hb Hd Hq. cbn [convertSingleQuoted].
  by rewrite (proj2 (Ascii.eqb_neq c "\") Hb), (proj2 (Ascii.eqb_neq c dquote) Hd), (proj2 (Ascii.eqb_neq c squote) Hq).
Qed.

Lemma decoded_escape d l :
  decoded ("\"%char :: d :: l) = (negb (Ascii.eqb d dquote || Ascii.eqb d squote), d) :: decoded l.
Proof. done. Qed.

Lemma decoded_plain c l : c <> "\"%char -> decoded (c :: l) = (false, c) :: decoded l.
Proof. intros Hb. cbn [decoded]. by rewrite (proj2 (Ascii.eqb_neq c "\") Hb). Qed.

Lemma closed_escape d x : closed_literal x -> closed_literal ("\"%char :: d :: x).
Proof.
  unfold closed_literal. intros H. rewrite <-!app_comm_cons, copyDoubleQuoted_escape, H. done.
Qed.

Lemma closed_plain c x : c <> "\"%char -> c <> dquote -> closed_literal x -> closed_literal (c :: x).
Proof.
  unfold closed_literal. intros Hb Hq H. rewrite <-app_comm_cons, copyDoubleQuoted_plain, H; done.
Qed.

Lemma copyDoubleQuoted_spec l x r :
  copyDoubleQuoted l = Some (x, r) -> l = x ++ dquote :: r /\ closed_literal x.
Proof.
  revert x r. induction l as [|c|c d l IH IH'] using bytes_ind2; intros x r H; [done| |];
    destruct (decide (c = "\"%char)) as [->|Hb]; [done| | |];
    try (destruct (decide (c = dquote)) as [->|Hq];
      [rewrite copyDoubleQuoted_close in H; by simplify_eq|rewrite copyDoubleQuoted_plain in H by done]);
    [done| |].
  - rewrite copyDoubleQuoted_escape in H.
    destruct (copyDoubleQuoted l) as [[y s]|]; simplify_eq/=.
    destruct (IH _ _ eq_refl) as [-> Hx]. split; [done|by apply closed_escape].
  - destruct (copyDoubleQuoted (d :: l)) as [[y s]|]; simplify_eq/=.
    destruct (IH' _ _ eq_refl) as [-> Hx]. split; [done|by apply closed_plain].
Qed.

Lemma convertSingleQuoted_spec l x r :
  convertSingleQuoted l = Some (x, r) ->
  exists t, l = t ++ squote :: r /\ closed_literal x /\ decoded x = decoded t.
Proof.
  revert x r. induction l as [|c|c d l IH IH'] using bytes_ind2; intros x r H; [done| |];
    destruct (decide (c = "\"%char)) as [->|Hb]; [done| | |].
  - destruct (decide (c = dquote)) as [->|Hd]; [done|].
    destruct (decide (c = squote)) as [->|Hq]; [|by rewrite convertSingleQuoted_plain in H].
    rewrite convertSingleQuoted_close in H. simplify_eq. by exists [].
  - rewrite convertSingleQuoted_escape in H.
    destruct (convertSingleQuoted l) as [[y s]|]; [|done]; injection H as <- <-.
    destruct (IH _ _ eq_refl) as (t & -> & Hx & Ht). exists ("\"%char :: d :: t).
    split; [done|]. destruct (Ascii.eqb_spec d squote) as [->|Hd]; rewrite decoded_escape.
    + split; [by apply closed_plain|]. rewrite <-Ht. by apply decoded_plain.
    + split; [by apply closed_escape|]. by rewrite <-Ht.
  - destruct (decide (c = dquote)) as [->|Hd];
      [|destruct (decide (c = squote)) as [->|Hq]].
    + rewrite convertSingleQuoted_dquote in H.
      destruct (convertSingleQuoted (d :: l)) as [[y s]|]; [|done]; injection H as <- <-.
      destruct (IH' _ _ eq_refl) as (t & -> & Hx & Ht). exists (dquote :: t).
      split; [done|]. split; [by apply closed_escape|]. rewrite decoded_escape, decoded_plain, Ht; done.
    + rewrite convertSingleQuoted_close in H. simplify_eq. by exists [].
    + rewrite convertSingleQuoted_plain in H by done.
      destruct (convertSingleQuoted (d :: l)) as [[y s]|]; [|done]; injection H as <- <-.
      destruct (IH' _ _ eq_refl) as (t & -> & Hx & Ht). exists (c :: t).
      split; [done|]. split; [by apply closed_plain|]. rewrite !decoded_plain, Ht; done.
Qed.

Lemma skip_line_spec l : exists t, l = t ++ skip_line l /\ byte_of 10 ∉ t.
Proof.
  induction l as [|c l (t & Ht & Hn)]; [by exists []; split; [|apply not_elem_of_nil]|].
  cbn [skip_line]. destruct (Ascii.eqb_spec c (byte_of 10)).
  - exists []. split; [done|apply not_elem_of_nil].
  - exists (c :: t). split; [by rewrite Ht at 1|]. apply not_elem_of_cons. split; [congruence|done].
Qed.

Lemma skip_block_cons c d l :
  skip_block (c :: d :: l) = if Ascii.eqb c "*" && Ascii.eqb d "/" then Some l else skip_block (d :: l).
Proof. done. Qed.

Lemma skip_block_spec l r :
  skip_block l = Some r -> exists t, l = t ++ to_bytes "*/" ++ r /\ skip_block (t ++ to_bytes "*/") = Some [].
Proof.
  induction l as [|c l IH]; [done|]. destruct l as [|d l]; [done|].
  rewrite skip_block_cons. intros H.
  destruct (Ascii.eqb c "*" && Ascii.eqb d "/") eqn:E.
  - simplify_eq. apply andb_true_iff in E as [->%Ascii.eqb_eq ->%Ascii.eqb_eq]. by exists [].
  - destruct (IH H) as (t & Ht & Hs). exists (c :: t). split; [by rewrite Ht|].
    destruct t as [|e t]; injection Ht as -> ->.
    + change (skip_block (c :: "*"%char :: ["/"%char]) = Some []). by rewrite skip_block_cons, E.
    + rewrite <-!app_comm_cons, skip_block_cons, E. done.
Qed.

Lemma span_spec f l : l = (span f l).1 ++ (span f l).2 /\ Forall (fun c => f c = true) (span f l).1.
Proof.
  induction l as [|c l [IH IH']]; [done|]. cbn [span]. destruct (f c) eqn:E; [|done].
  destruct (span f l) as [x r]; simpl in *. split; [by rewrite IH at 1|by constructor].
Qed.

Lemma span_nonempty f c l : f c = true -> (span f (c :: l)).1 <> [].
Proof. intros H. cbn [span]. rewrite H. by destruct (span f l). Qed.

(** *** The invariant of the scan *)

Definition comma_state (s : pstate) : bool :=
  match s with stObjKeyComma | stArrElemComma => true | _ => false end.

(** The places in the output of the commas that may still be dropped, innermost first. *)
Definition commas (fs : list frame) : list nat := commaPos <$> filter (fun f => comma_state (state f) = true) fs.

Definition comma_at (ps : list piece) (p : nat) : Prop :=
  exists ps1 ps2, ps = ps1 ++ PComma true :: ps2 /\ length (text_out ps1) = p.

Definition opens (o : ascii) (fs : list frame) : Z := Z.of_nat (length (filter (fun f => open_ f = o) fs)).

Record scan_inv (ps : list piece) (st : scan) : Prop := {
  inv_pieces : Forall piece_ok ps;
  inv_text : text_out ps = buf st;
  inv_sorted : StronglySorted gt (commas (stack st));
  inv_commas : Forall (comma_at ps) (commas (stack st));
  inv_opens : Forall (fun f => open_ f = brace \/ open_ f = bracket) (stack st);
  inv_brace : openBrace st = opens brace (stack st);
  inv_bracket : openBracket st = opens bracket (stack st);
}.

Lemma text_out_app ps qs : text_out (ps ++ qs) = text_out ps ++ text_out qs.
Proof. unfold text_out. by rewrite fmap_app, mjoin_app. Qed.

Lemma text_in_app ps qs : text_in (ps ++ qs) = text_in ps ++ text_in qs.
Proof. unfold text_in. by rewrite fmap_app, mjoin_app. Qed.

Lemma comma_at_app ps qs p : comma_at ps p -> comma_at (ps ++ qs) p.
Proof. intros (ps1 & ps2 & -> & Hp). exists ps1, (ps2 ++ qs). by rewrite <-app_assoc. Qed.

Lemma comma_at_lt ps p : comma_at ps p -> p < length (text_out ps).
Proof.
  intros (ps1 & ps2 & -> & <-). rewrite text_out_app, length_app. unfold text_out. simpl. lia.
Qed.

(** Dropping the comma at [q] shortens the output there and leaves the commas before it. *)
Lemma comma_at_drop ps q :
  Forall piece_ok ps -> comma_at ps q ->
  exists ps', Forall piece_ok ps' /\ text_in ps' = text_in ps /\
    remove_at q (text_out ps) = Ret (text_out ps') /\
    forall p, p < q -> comma_at ps p -> comma_at ps' p.
Proof.
  intros Hok Hq. pose proof (comma_at_lt _ _ Hq) as Hlt. destruct Hq as (ps1 & ps2 & -> & Hq).
  exists (ps1 ++ PComma false :: ps2). split_and!.
  - apply Forall_app in Hok as [H1 [_ H2]%Forall_cons]. apply Forall_app. split; [done|by constructor].
  - by rewrite !text_in_app.
  - unfold remove_at. rewrite (proj2 (Nat.ltb_lt _ _) Hlt). f_equal.
    rewrite !text_out_app. change (text_out (PComma true :: ps2)) with (","%char :: text_out ps2).
    change (text_out (PComma false :: ps2)) with (text_out ps2).
    rewrite <-Hq, take_app_length, drop_app_ge by lia. f_equal.
    replace (S (length (text_out ps1)) - length (text_out ps1)) with 1 by lia. done.
  - intros p Hp (qs1 & qs2 & Heq & Hlen).
    destruct (app_eq_inv _ _ _ _ Heq) as [(k & -> & Hk)|(k & -> & Hk)].
    + destruct k as [|x k]; simplify_eq/=.
      * rewrite app_nil_r in Hp. lia.
      * exists qs1, (k ++ PComma false :: ps2). by rewrite <-app_assoc.
    + rewrite text_out_app, length_app in Hlen. lia.
Qed.

Lemma comma_at_snoc ps : comma_at (ps ++ [PComma true]) (length (text_out ps)).
Proof. by exists ps, []. Qed.

(** Emitting a piece, whatever else of the locals changes with it. *)
Lemma scan_inv_emit ps st p st' :
  scan_inv ps st -> piece_ok p -> buf st' = buf st ++ piece_out p -> stack st' = stack st ->
  openBrace st' = openBrace st -> openBracket st' = openBracket st -> scan_inv (ps ++ [p]) st'.
Proof.
  intros [Hp Ht Hs Hc Ho Hb Hk] Hok Hbuf Hst Hb' Hk'. split; rewrite ?Hst, ?Hb', ?Hk'; try done.
  - apply Forall_app. by repeat constructor.
  - rewrite text_out_app, Hbuf, Ht. unfold text_out. simpl. by rewrite app_nil_r.
  - eapply Forall_impl; [exact Hc|]. intros q. apply comma_at_app.
Qed.

Lemma text_in_snoc ps p : text_in (ps ++ [p]) = text_in ps ++ piece_in p.
Proof. rewrite text_in_app. unfold text_in. simpl. by rewrite app_nil_r. Qed.

Lemma commas_set f s fs : comma_state s = false -> commas (Frame (open_ f) s (commaPos f) :: fs) = commas fs.
Proof. intros H. unfold commas. rewrite filter_cons_False; [done|]. simpl. congruence. Qed.

Lemma opens_set o f s p fs : opens o (Frame (open_ f) s p :: fs) = opens o (f :: fs).
Proof. unfold opens. rewrite !filter_cons. simpl. by repeat case_decide. Qed.

Lemma commas_cons f fs : commas (f :: fs) = (if comma_state (state f) then [commaPos f] else []) ++ commas fs.
Proof. unfold commas. rewrite filter_cons. case_decide as H; by destruct (comma_state (state f)). Qed.

(** Moving the innermost container to a state that keeps no comma. *)
Lemma scan_inv_set_top ps st s : scan_inv ps st -> comma_state s = false -> scan_inv ps (set_top s st).
Proof.
  intros [Hp Ht Hs Hc Ho Hb Hk] Hn. unfold set_top.
  destruct (stack st) as [|f fs] eqn:E; [by split; rewrite ?E|].
  rewrite commas_cons in Hs, Hc. apply Forall_app in Hc as [_ Hc].
  split; simpl; rewrite ?commas_set, ?opens_set by done; try done.
  - destruct (comma_state (state f)); [by inversion Hs|done].
  - inversion Ho; subst. by constructor.
Qed.

Lemma scan_inv_valueDone ps st : scan_inv ps st -> scan_inv ps (valueDone st).
Proof.
  intros H. unfold valueDone. destruct (stack st) eqn:E; [|by apply scan_inv_set_top].
  destruct H; by split; simpl; rewrite ?E in *.
Qed.

Lemma scan_inv_locals ps st n w : scan_inv ps st -> scan_inv ps (set_lastNumber n st) /\ scan_inv ps (set_saw w st).
Proof. intros []. by split; split. Qed.

(** What an outcome that is not [Stuck] satisfies. *)
Definition yields {A} (m : outcome A) (Q : A -> Prop) : Prop :=
  match m with Ret a => Q a | Decline _ => True | Stuck => False end.

Lemma yields_bind {A B} (m : outcome A) (f : A -> outcome B) (P : A -> Prop) (Q : B -> Prop) :
  yields m P -> (forall a, P a -> yields (f a) Q) -> yields (x <~ m; f x) Q.
Proof. destruct m; simpl; auto. Qed.

Lemma yields_mono {A} (m : outcome A) (P Q : A -> Prop) : yields m P -> (forall a, P a -> Q a) -> yields m Q.
Proof. destruct m; simpl; auto. Qed.

(** The state reached reads [x] more of the input than [ps] does. *)
Definition reads (ps : list piece) (x : bytes) (st' : scan) : Prop :=
  exists ps', scan_inv ps' st' /\ text_in ps' = text_in ps ++ x.

Lemma opens_cons o f fs : opens o (f :: fs) = (opens o fs + if Ascii.eqb (open_ f) o then 1 else 0)%Z.
Proof.
  unfold opens. rewrite filter_cons. destruct (Ascii.eqb_spec (open_ f) o); case_decide; simpl; try done; lia.
Qed.

Lemma opens_pos o fs : (0 < opens o fs)%Z <-> o ∈ (open_ <$> fs).
Proof.
  induction fs as [|f fs IH]; [split; [done|by intros ?%elem_of_nil]|].
  rewrite opens_cons, fmap_cons, elem_of_cons, <-IH.
  assert (0 <= opens o fs)%Z by (unfold opens; lia).
  destruct (Ascii.eqb_spec (open_ f) o) as [->|Hn]; [split; [auto|lia]|].
  split; [intros; right; lia|intros [->|?]; [done|lia]].
Qed.

Lemma open_set_top s st : open_ <$> stack (set_top s st) = open_ <$> stack st.
Proof. unfold set_top. by destruct (stack st) eqn:E; rewrite ?E. Qed.

Lemma open_valueDone st : open_ <$> stack (valueDone st) = open_ <$> stack st.
Proof. unfold valueDone. destruct (stack st) eqn:E; [by simpl; rewrite E|]. by rewrite open_set_top, E. Qed.

(** Popping the innermost container once its trailing comma is dealt with. *)
Lemma scan_inv_pop ps ps' st f fs b :
  scan_inv ps st -> stack st = f :: fs ->
  Forall piece_ok ps' -> text_out ps' = b -> (forall p, p ∈ commas fs -> comma_at ps' p) ->
  scan_inv (ps' ++ [PInsert (closer_of (open_ f))])
    (count_by (-1) (open_ f) (set_stack fs (set_buf (b ++ [closer_of (open_ f)]) st))).
Proof.
  intros [Hp Ht Hs Hc Ho Hb Hk] E Hp' <- Hc'.
  rewrite E in *. apply Forall_cons in Ho as [Hf Ho]. rewrite commas_cons in Hs.
  rewrite opens_cons in Hb, Hk.
  assert (Hok : Forall piece_ok (ps' ++ [PInsert (closer_of (open_ f))])).
  { apply Forall_app. split; [done|]. apply Forall_singleton. simpl. destruct Hf as [-> | ->]; [by left|by right]. }
  assert (Hout : text_out (ps' ++ [PInsert (closer_of (open_ f))]) = text_out ps' ++ [closer_of (open_ f)])
    by by rewrite text_out_app.
  assert (Hsf : StronglySorted gt (commas fs)) by (destruct (comma_state (state f)); [by inversion Hs|done]).
  assert (Hcf : Forall (comma_at (ps' ++ [PInsert (closer_of (open_ f))])) (commas fs)).
  { apply Forall_forall. intros p Hin. by apply comma_at_app, Hc'. }
  unfold count_by.
  destruct Hf as [Hf | Hf]; rewrite Hf in *; split; simpl; try done; simpl in Hb, Hk; lia.
Qed.

Lemma closeTop_reads ps st f fs :
  scan_inv ps st -> stack st = f :: fs ->
  yields (closeTop st) (fun st' => reads ps [] st' /\ open_ <$> stack st' = open_ <$> fs).
Proof.
  intros H E. unfold closeTop. rewrite E. pose proof H as [Hp Ht Hs Hc Ho Hb Hk].
  rewrite E, commas_cons in Hc, Hs. apply Forall_app in Hc as [Hf Hc].
  eapply yields_bind with (P := fun b => exists ps', Forall piece_ok ps' /\ text_out ps' = b /\
    text_in ps' = text_in ps /\ forall p, p ∈ commas fs -> comma_at ps' p).
  - assert (Hkeep : exists ps', Forall piece_ok ps' /\ text_out ps' = buf st /\
      text_in ps' = text_in ps /\ forall p, p ∈ commas fs -> comma_at ps' p).
    { exists ps. split_and!; try done. intros p. by apply Forall_forall. }
    assert (Hdrop : comma_state (state f) = true -> yields (remove_at (commaPos f) (buf st)) (fun b =>
      exists ps', Forall piece_ok ps' /\ text_out ps' = b /\ text_in ps' = text_in ps /\
      forall p, p ∈ commas fs -> comma_at ps' p)).
    { intros Hcs. rewrite Hcs in Hf, Hs. apply Forall_inv in Hf. simpl in Hs.
      destruct (comma_at_drop _ _ Hp Hf) as (ps' & Hp' & Hin & Hrm & Hat).
      rewrite <-Ht, Hrm. exists ps'. split_and!; try done.
      intros p Hel. apply Hat; [|by apply (proj1 (Forall_forall _ _) Hc)].
      inversion Hs as [|? ? _ Hgt]; subst. by apply (proj1 (Forall_forall _ _) Hgt) in Hel. }
    destruct (state f); simpl; auto.
  - intros b (ps' & Hp' & Hb' & Hin & Hat). simpl. split.
    + eexists. split; [|].
      * apply scan_inv_valueDone, (proj1 (scan_inv_locals _ _ false false ltac:(by eapply scan_inv_pop))).
      * by rewrite text_in_snoc, Hin.
    + rewrite open_valueDone. unfold count_by. by destruct (Ascii.eqb (open_ f) brace).
Qed.

Lemma reads_trans ps x st y st' :
  (exists ps', scan_inv ps' st /\ text_in ps' = text_in ps ++ x) ->
  (forall ps', scan_inv ps' st -> reads ps' y st') -> reads ps (x ++ y) st'.
Proof.
  intros (ps' & Hi & Ht) H. destruct (H _ Hi) as (ps'' & Hi' & Ht'). exists ps''.
  by rewrite Ht', Ht, app_assoc.
Qed.

Lemma close_to_reads fuel want ps st :
  scan_inv ps st -> length (stack st) <= fuel -> want ∈ (open_ <$> stack st) ->
  yields (close_to fuel want st) (reads ps []).
Proof.
  revert ps st. induction fuel as [|k IH]; intros ps st H Hlen Hin.
  - destruct (stack st); [by apply elem_of_nil in Hin|simpl in Hlen; lia].
  - cbn [close_to]. destruct (stack st) as [|f fs] eqn:E; [by apply elem_of_nil in Hin|].
    eapply yields_bind; [by eapply closeTop_reads|].
    intros st' [Hr Hop]. destruct (Ascii.eqb_spec (open_ f) want) as [_|Hn]; [done|].
    destruct Hr as (ps' & Hi & Ht). eapply yields_mono; [apply (IH ps' st' Hi)|].
    + apply (f_equal length) in Hop. rewrite !length_fmap in Hop. simpl in Hlen. lia.
    + rewrite Hop. rewrite fmap_cons, elem_of_cons in Hin. by destruct Hin as [->|].
    + intros a (ps'' & Hi' & Ht'). exists ps''. split; [done|]. by rewrite Ht', Ht, app_nil_r.
Qed.

(** A step reads a nonempty piece [x] of the input left, [l]. *)
Definition consumes (ps : list piece) (l : bytes) (next : scan * bytes) : Prop :=
  exists x, l = x ++ next.2 /\ x <> [] /\ reads ps x next.1.

(** The step emitted one piece and then moved between states. *)
Lemma reads_emit ps st p x st' :
  scan_inv ps st -> piece_ok p -> piece_in p = x ->
  (scan_inv (ps ++ [p]) (emit (piece_out p) st) -> scan_inv (ps ++ [p]) st') -> reads ps x st'.
Proof.
  intros H Hok <- Hst. exists (ps ++ [p]). split; [|apply text_in_snoc].
  by apply Hst, (scan_inv_emit _ _ _ _ H).
Qed.

Lemma string_done_reads ps st p x isKey lit :
  scan_inv ps st -> piece_ok p -> piece_in p = x -> piece_out p = dquote :: lit ++ [dquote] ->
  reads ps x (string_done isKey lit st).
Proof.
  intros H Hok Hin Hout. eapply reads_emit; [done..|]. rewrite Hout. intros H'. unfold string_done.
  destruct isKey; [by apply scan_inv_set_top|].
  by apply scan_inv_valueDone, (proj1 (scan_inv_locals _ _ false false H')).
Qed.

Lemma read_string_consumes ps st c l :
  scan_inv ps st -> c = dquote \/ c = squote -> yields (read_string c l st) (consumes ps (c :: l)).
Proof.
  intros H Hc. unfold read_string. case_match; [done|].
  destruct Hc as [-> | ->]; simpl.
  - destruct (copyDoubleQuoted l) as [[lit r]|] eqn:E; simpl; [|done].
    apply copyDoubleQuoted_spec in E as [-> Hlit].
    exists (dquote :: lit ++ [dquote]). split_and!; [by simpl; rewrite <-app_assoc|done|].
    by eapply (string_done_reads _ _ (PString lit)).
  - destruct (convertSingleQuoted l) as [[lit r]|] eqn:E; simpl; [|done].
    apply convertSingleQuoted_spec in E as (t & -> & Hlit & Hd).
    exists (squote :: t ++ [squote]). split_and!; [by simpl; rewrite <-app_assoc|done|].
    by eapply (string_done_reads _ _ (PSingle t lit)).
Qed.

Lemma with_rest_consumes ps c l (m : outcome scan) :
  yields m (reads ps [c]) -> yields (with_rest l m) (consumes ps (c :: l)).
Proof. intros H. eapply yields_bind; [exact H|]. intros st' Hst. by exists [c]. Qed.

Lemma read_colon_reads ps st : scan_inv ps st -> yields (read_colon st) (reads ps [":"%char]).
Proof.
  intros H. unfold read_colon. destruct (stack st) eqn:E; [done|]. case_bool_decide; [|done].
  eapply (reads_emit _ _ (PMark ":")); [apply (scan_inv_set_top _ _ stObjValue H eq_refl)|by left|done|done].
Qed.

Lemma read_comma_reads ps st : scan_inv ps st -> yields (read_comma st) (reads ps [","%char]).
Proof.
  intros H. unfold read_comma. destruct (stack st) as [|f fs] eqn:E; [done|].
  case_bool_decide as Hs; [|done]. exists (ps ++ [PComma true]). split; [|apply text_in_snoc].
  destruct H as [Hp Ht Hst Hc Ho Hb Hk]. rewrite E in *.
  rewrite commas_cons, Hs in Hst, Hc. simpl in Hst, Hc.
  set (s := if Ascii.eqb (open_ f) brace then stObjKeyComma else stArrElemComma).
  assert (Hcs : commas (Frame (open_ f) s (length (buf st)) :: fs) = length (buf st) :: commas fs).
  { rewrite commas_cons. unfold s. by destruct (Ascii.eqb (open_ f) brace). }
  split; simpl; rewrite ?Hcs, ?opens_set; try done.
  - apply Forall_app. by repeat constructor.
  - by rewrite text_out_app, Ht.
  - constructor; [done|]. eapply Forall_impl; [exact Hc|]. intros p Hp'%comma_at_lt. rewrite Ht in Hp'. lia.
  - constructor; [rewrite <-Ht; apply comma_at_snoc|]. eapply Forall_impl; [exact Hc|]. intros p. apply comma_at_app.
  - inversion Ho; subst. by constructor.
Qed.

Lemma read_opener_reads ps st c :
  scan_inv ps st -> c = brace \/ c = bracket -> yields (read_opener c st) (reads ps [c]).
Proof.
  intros H Hc. unfold read_opener. destruct (expectsValue st); [|done]. simpl.
  eapply (reads_emit _ _ (PMark c)); [|by right|done|intros Hi; exact Hi].
  set (s := if Ascii.eqb c bracket then stArrElem else stObjKey).
  assert (Hs : comma_state s = false) by (unfold s; by destruct (Ascii.eqb c bracket)).
  destruct H as [Hp Ht Hst Hcm Ho Hb Hk].
  unfold count_by. destruct Hc as [-> | ->]; split; simpl; try done;
    rewrite ?commas_cons, ?opens_cons; simpl; rewrite ?Hs; try done; try lia;
    constructor; auto.
Qed.

Lemma reads_drop ps st' c : c = "}"%char \/ c = "]"%char -> reads ps [] st' -> reads ps [c] st'.
Proof.
  intros Hc (ps' & Hi & Ht). exists (ps' ++ [PDrop c]). split.
  - apply (scan_inv_emit _ _ _ _ Hi); try done. by rewrite app_nil_r.
  - by rewrite text_in_snoc, Ht, app_nil_r.
Qed.

Lemma reads_nothing ps st : scan_inv ps st -> reads ps [] st.
Proof. intros H. exists ps. by rewrite app_nil_r. Qed.

Lemma openCount_opens ps st want :
  scan_inv ps st -> want = brace \/ want = bracket -> openCount st want = opens want (stack st).
Proof. intros [] [-> | ->]; done. Qed.

Lemma read_closer_reads rep want ps st :
  scan_inv ps st -> want = brace \/ want = bracket -> yields (read_closer rep want st) (reads ps []).
Proof.
  intros H Hw. pose proof (fun w => proj2 (scan_inv_locals _ _ false w H)) as Hsaw.
  assert (Hclose : forall f fs, stack st = f :: fs -> yields (closeTop (set_saw true st)) (reads ps [])).
  { intros f fs E. eapply yields_mono; [by apply (closeTop_reads _ _ _ _ (Hsaw true) E)|]. by intros a [? _]. }
  unfold read_closer. destruct (stack st) as [|f fs] eqn:E.
  - simpl. destruct (Z.ltb_spec 0 (openCount st want)) as [Hlt|_].
    + rewrite (openCount_opens _ _ _ H Hw), E in Hlt. done.
    + destruct (topDone st); [by apply reads_nothing|done].
  - destruct (negb (Ascii.eqb (open_ f) want) && rep); [by eapply Hclose|].
    destruct (Z.ltb_spec 0 (openCount st want)) as [Hlt|_].
    + rewrite (openCount_opens _ _ _ H Hw), opens_pos in Hlt.
      destruct (negb (Ascii.eqb (open_ f) want)); rewrite <-E;
        apply close_to_reads; try done; apply Hsaw.
    + destruct rep; [by eapply Hclose|]. simpl. apply reads_nothing, Hsaw.
Qed.

Lemma read_number_consumes ps st c l :
  scan_inv ps st -> isNumberByte c = true -> yields (read_number (c :: l) st) (consumes ps (c :: l)).
Proof.
  intros H Hc. unfold read_number. destruct (expectsValue st); [|done].
  pose proof (span_spec isNumberByte (c :: l)) as [Hl Hf].
  pose proof (span_nonempty isNumberByte c l Hc) as Hne.
  destruct (span isNumberByte (c :: l)) as [n r]. simpl in Hl, Hf, Hne |- *.
  exists n. split_and!; [done|done|]. eapply (reads_emit _ _ (PNumber n)); [done|done|done|].
  intros Hi. by apply scan_inv_valueDone, (proj1 (scan_inv_locals _ _ true false Hi)).
Qed.

Lemma read_word_consumes ps st c l :
  scan_inv ps st -> isIdentStart c = true -> yields (read_word (c :: l) st) (consumes ps (c :: l)).
Proof.
  intros H Hc. unfold read_word.
  assert (Hi : isIdentByte c = true) by (unfold isIdentByte; by rewrite Hc).
  pose proof (span_spec isIdentByte (c :: l)) as [Hl Hf].
  pose proof (span_nonempty isIdentByte c l Hi) as Hne.
  destruct (span isIdentByte (c :: l)) as [w r]. simpl in Hl, Hf, Hne |- *.
  destruct (expectsKey st).
  - exists w. split_and!; [done|done|]. eapply (reads_emit _ _ (PKey w)); [done|done|done|].
    intros H'. by apply scan_inv_set_top.
  - destruct (expectsValue st); [|done]. destruct (isLiteral w) eqn:Ew; [|done].
    exists w. split_and!; [done|done|]. eapply (reads_emit _ _ (PWord w)); [done|done|done|].
    intros H'. by apply scan_inv_valueDone, (proj1 (scan_inv_locals _ _ false false H')).
Qed.

Lemma comment_consumes ps st l c :
  scan_inv ps st -> forall p r, piece_ok p -> piece_in p = [c] ++ l -> 
  consumes ps (c :: l ++ r) (emit (piece_out p) st, r).
Proof.
  intros H p r Hok Hin. exists (c :: l). split_and!; [done|done|]. by eapply reads_emit.
Qed.

Lemma step_consumes rep ps st c l : scan_inv ps st -> yields (step rep st c l) (consumes ps (c :: l)).
Proof.
  intros H. unfold step.
  destruct (is_json_ws c) eqn:?; [by apply (comment_consumes _ _ [] _ H (PSpace c))|].
  destruct (Ascii.eqb_spec c "/") as [->|_]; simpl.
  { case_bool_decide as Hn; [|case_bool_decide as Hn']; [..|done].
    - destruct l as [|d l]; simplify_eq/=. rewrite drop_0.
      destruct (skip_line_spec l) as (t & Ht & Hnl). rewrite Ht at 1.
      pose proof (comment_consumes _ _ ("/"%char :: t) "/" H (PLine t) (skip_line l) Hnl eq_refl) as Hcc.
      simpl in Hcc. unfold emit in Hcc. rewrite app_nil_r in Hcc. by destruct st.
    - destruct l as [|d l]; simplify_eq/=. rewrite drop_0.
      destruct (skip_block l) as [r|] eqn:E; simpl; [|done].
      apply skip_block_spec in E as (t & -> & Ht).
      pose proof (comment_consumes _ _ ("*"%char :: t ++ to_bytes "*/") "/" H (PBlock t) r Ht eq_refl) as Hcc.
      simpl in Hcc. by rewrite <-app_assoc in Hcc. }
  destruct (Ascii.eqb_spec c dquote); [by apply read_string_consumes; auto|].
  destruct (Ascii.eqb_spec c squote); [by apply read_string_consumes; auto|]. simpl.
  destruct (Ascii.eqb_spec c ":") as [->|_]; [by apply with_rest_consumes, read_colon_reads|].
  destruct (Ascii.eqb_spec c ",") as [->|_]; [by apply with_rest_consumes, read_comma_reads|].
  destruct (Ascii.eqb_spec c brace); [by apply with_rest_consumes, read_opener_reads; auto|].
  destruct (Ascii.eqb_spec c bracket); [by apply with_rest_consumes, read_opener_reads; auto|]. simpl.
  destruct (Ascii.eqb c "}" || Ascii.eqb c "]") eqn:Hc.
  { apply orb_true_iff in Hc. rewrite !Ascii.eqb_eq in Hc. apply with_rest_consumes.
    eapply yields_mono; [|intros a; by apply reads_drop].
    apply read_closer_reads; [done|]. destruct (Ascii.eqb c "]"); auto. }
  destruct (Ascii.eqb c "-" || is_digit c) eqn:Hn.
  { apply read_number_consumes; [done|]. unfold isNumberByte.
    destruct (is_digit c); [done|]. by destruct (Ascii.eqb c "-"). }
  destruct (isIdentStart c) eqn:Hi; [by apply read_word_consumes|done].
Qed.

Lemma scan_loop_reads fuel rep ps st l :
  scan_inv ps st -> length l <= fuel -> yields (scan_loop fuel rep st l) (reads ps l).
Proof.
  revert ps st l. induction fuel as [|k IH]; intros ps st [|c l] H Hlen; simpl in Hlen |- *; try lia;
    [by apply reads_nothing..|].
  eapply yields_bind; [by apply step_consumes|].
  intros [st' r] (x & Hx & Hne & ps' & Hi & Ht). simpl in Hx, Hi |- *.
  assert (length r <= k).
  { apply (f_equal length) in Hx. rewrite length_app in Hx. simpl in Hx. destruct x; [done|simpl in Hx; lia]. }
  eapply yields_mono; [by apply (IH ps')|].
  intros a (ps'' & Hi' & Ht'). exists ps''. split; [done|]. by rewrite Ht', Ht, Hx, app_assoc.
Qed.

Lemma scan_end_reads ps st : scan_inv ps st -> yields (scan_end st) (fun r => reads ps [] r.1).
Proof.
  intros H. unfold scan_end. destruct (stack st) as [|f [|g fs]] eqn:E; simpl; [by apply reads_nothing| |done].
  destruct (negb _); [done|]. destruct (_ && _); [done|].
  eapply yields_bind; [by eapply closeTop_reads|]. by intros a [? _].
Qed.

Lemma scan_start_inv : scan_inv [] scan_start.
Proof. split; simpl; try done; constructor. Qed.

(** A pass returns; one that completes rewrites the whole input piece by piece. *)
Lemma repairPass_pieces s rep :
  exists out ok saw, repairPass s rep = Some (out, ok, saw) /\
    (ok = true -> exists ps, Forall piece_ok ps /\ text_in ps = s /\ text_out ps = out).
Proof.
  unfold repairPass.
  assert (H : yields (st <~ scan_loop (length s) rep scan_start s; scan_end st) (fun r => reads [] s r.1)).
  { eapply yields_bind; [by apply scan_loop_reads, Nat.le_refl; apply scan_start_inv|].
    intros st (ps & Hi & Ht). eapply yields_mono; [by apply scan_end_reads|].
    intros a (ps' & Hi' & Ht'). exists ps'. split; [done|]. by rewrite Ht', Ht, app_nil_r. }
  destruct (obind _ _) as [[st ok]|saw|]; [|by exists [], false, saw|done].
  destruct H as (ps & [Hp Ht _ _ _ _ _] & Hin). by exists (buf st), ok, (sawUnmatched st); split; [|exists ps].
Qed.

(** What [Repair] answers, before it is told apart. *)
Lemma Repair_cases s :
  Repair s = Some (s, false) \/
  exists out, Repair s = Some (out, true) /\ Valid s = false /\ Valid out = true /\
    exists ps, Forall piece_ok ps /\ text_in ps = s /\ text_out ps = out.
Proof.
  unfold Repair. destruct (Valid s); [by left|].
  destruct (repairPass_pieces s false) as (o1 & k1 & w1 & -> & H1).
  destruct (repairPass_pieces s true) as (o2 & k2 & w2 & -> & H2). simpl.
  destruct (negb k1 && w1); simpl;
    [destruct k2; [|by left]; destruct (Valid o2) eqn:Ev; [right|by left]
    |destruct k1; [|by left]; destruct (Valid o1) eqn:Ev; [right|by left]]; simpl;
    eexists; split_and!; try done; auto.
Qed.

(** [Repair] returns on every input, never indexing its stack, its output or
    its comma positions out of range; it answers [true] only with valid JSON, for
    an input that is not, and otherwise gives the input back unchanged; and a
    second call leaves its answer alone. *)
Theorem Repair_total s :
  exists out ok, Repair s = Some (out, ok) /\
    (ok = true -> Valid s = false /\ Valid out = true) /\
    (ok = false -> out = s) /\ Repair out = Some (out, false).
Proof.
  destruct (Repair_cases s) as [H|(out & H & Hs & Ho & _)].
  - exists s, false. split_and!; done.
  - exists out, true. split_and!; try done. unfold Repair. by rewrite Ho.
Qed.

(** C36. A repair never invents data: the input and the repaired output are two
    readings of one list of pieces. String literals, numbers, [true], [false],
    [null] and keys are the same, in the same order, in both; a single-quoted
    literal decodes to the same bytes and escapes as the double-quoted one it
    became, and an unquoted key is the same word in quotes. All that is added is
    closers and a space per block comment; all that is removed is closers, commas
    and comments. *)
Theorem Repair_keeps_data s out :
  Repair s = Some (out, true) -> exists ps, Forall piece_ok ps /\ text_in ps = s /\ text_out ps = out.
Proof.
  intros H. destruct (Repair_cases s) as [H'|(out' & H' & _ & _ & Hps)]; rewrite H in H'; by simplify_eq.
Qed.

Definition sample_slips : bytes := quoted "[{^a^: 1,}, {key: 'it\'s ^q^'] // end".

Lemma Repair_keeps_data_witness :
  Repair sample_slips = Some (quoted "[{^a^: 1}, {^key^: ^it's \^q\^^}] ", true) /\
  exists ps, Forall piece_ok ps /\ text_in ps = sample_slips /\
    text_out ps = quoted "[{^a^: 1}, {^key^: ^it's \^q\^^}] ".
Proof. split; [by vm_compute|]. apply Repair_keeps_data. by vm_compute. Defined.
