(* ===== verification/ModelOutput.v ===== *)
(** * Findings in model output

    src/internal/stream/parser.go ([ParseModelOutput], [BareValueSpans],
    [IsNoFindings], [ParseSiblingLocation] and the fence rules) and v2.go (the JSON
    findings a model writes: decoding, recovery of a cut-off array, repair). *)

From Stdlib Require Import Ascii String.
From stdpp Require Import prelude strings gmap list sorting pretty.
From Stdlib Require Import ZArith Lia Floats.SpecFloat.
From S2P Require Import Prelude GoString GoStrconv GoFloat GoJson JsonDecode Finding JsonRepair Stream.

Open Scope string_scope.
Open Scope list_scope.
Open Scope nat_scope.

(** ** Fences *)

(** [strings.TrimLeft(s, cutset)] *)
Fixpoint trim_left_set (cutset l : bytes) : bytes :=
  match l with
  | c :: l' => if existsb (Ascii.eqb c) cutset then trim_left_set cutset l' else l
  | [] => []
  end.
Definition blank : bytes := byte_of <$> [32; 9]%N.
Definition json_blank : bytes := byte_of <$> [32; 9; 13; 10]%N.

Definition backtick : ascii := byte_of 96.
Definition tilde : ascii := byte_of 126.

(** The length of the run of [c] at the start of [l]. *)
Fixpoint run_length (c : ascii) (l : bytes) : nat :=
  match l with
  | d :: l' => if Ascii.eqb d c then S (run_length c l') else 0
  | [] => 0
  end.

(** The run's character and length; [(0, 0)] where there is none. *)
Definition fenceRun (line : string) : ascii * nat :=
  match trim_left_set blank (to_bytes line) with
  | [] => (byte_of 0, 0)
  | c :: t => if Ascii.eqb c backtick || Ascii.eqb c tilde then (c, run_length c (c :: t)) else (byte_of 0, 0)
  end.

Definition isFenceMarker (line : string) : bool := 3 <=? snd (fenceRun line).

Definition closesFence (line opener : string) : bool :=
  let '(c, n) := fenceRun line in
  let '(oc, on) := fenceRun opener in
  Ascii.eqb c oc && (on <=? n).

(** [strings.EqualFold(s, t)] for an ASCII [t]. *)
Definition EqualFold (s t : string) : bool := bool_decide (fold_key s = fold_key t).

Definition isJSONFence (line : string) : bool :=
  let t := trim_left_set blank (to_bytes line) in
  if negb (is_prefix [backtick; backtick; backtick] t) then false
  else match Fields (of_bytes (trim_left_set [backtick] t)) with
       | info :: _ => EqualFold info "json"
       | [] => false
       end.

(** The offset of the first fence marker line after each line: one backward pass,
    with [next] and [off] of the line below. *)
Definition fence_step (textLen : nat) (line : string) (acc : list nat * nat * nat) : list nat * nat * nat :=
  let '(out, next, off) := acc in
  let off' := off - (String.length line + 1) in
  (Nat.min next textLen :: out, if isFenceMarker (TrimRightCR line) then off' else next, off').
Definition fenceOffsets (lines : list string) (textLen : nat) : list nat :=
  fst (fst (foldr (fence_step textLen) ([], textLen, textLen + 1) lines)).

(** ** Numbers a model writes *)

(** [n / d], both positive, rounded to the nearest float64. *)
Definition round_ratio (n d : Z) : float64 :=
  let s := Z.max 0 (66 + Z.log2 d - Z.log2 n) in
  let m := (n * 2 ^ s / d)%Z in
  let sticky := if (n * 2 ^ s mod d =? 0)%Z then 0%Z else 1%Z in
  binary_normalize 53 1024 (2 * m + sticky) (- s - 1) false.

(** The digits of [l], and the bytes after them. *)
Definition digit_span (l : bytes) : bytes * bytes := span is_digit l.
Definition digits_value (l : bytes) : Z := default 0%Z (read_digits l 0).

(** [strconv] stops counting an exponent's digits past 10000. *)
Definition exponent_value (l : bytes) : Z :=
  foldl (fun e c => if (e <? 10000)%Z then (10 * e + digit_value c)%Z else e) 0%Z l.

(** [strconv.ParseFloat] on a JSON number; [None] is a range error. *)
Definition ParseFloat (lit : bytes) : option float64 :=
  let neg := if lit is "-"%char :: _ then true else false in
  let '(int, r) := digit_span (drop_minus lit) in
  let '(frac, r) := match r with "."%char :: r' => digit_span r' | _ => ([], r) end in
  let exp := match r with
             | _ :: "-"%char :: r' => (- exponent_value r')%Z
             | _ :: "+"%char :: r' => exponent_value r'
             | _ :: r' => exponent_value r'
             | [] => 0%Z
             end in
  let m := digits_value (int ++ frac) in
  let e := (exp - Z.of_nat (length frac))%Z in
  let f := if (m =? 0)%Z then f_zero else round_ratio (m * 10 ^ Z.max 0 e) (10 ^ Z.max 0 (- e)) in
  match f with
  | S754_infinity _ | S754_nan => None
  | f => Some (if neg then SFopp f else f)
  end.

(** [int(f)] of a finite float64. *)
Definition trunc (f : float64) : Z :=
  match f with
  | S754_finite s m e =>
      let n := (if 0 <=? e then Zpos m * 2 ^ e else Zpos m / 2 ^ (- e))%Z in if s then (- n)%Z else n
  | _ => 0%Z
  end.

Definition f_min (x y : float64) : float64 := if f_lt y x then y else x.
Definition f_maximum (x y : float64) : float64 := if f_lt x y then y else x.
Definition MinInt32 : Z := - 2 ^ 31.
Definition MaxInt32 : Z := 2 ^ 31 - 1.

Definition isValidNumber (s : string) : bool := bool_decide (scan_number (to_bytes s) = Some []).

(** The literal a [json.Number] variable takes from a value, the empty one where
    [null] leaves it alone; [None] is an error. *)
Definition number_text (t : jtree) : option string :=
  match t with
  | TNum lit => Some (of_bytes lit)
  | TNull => Some ""
  | TStr s => if isValidNumber s then Some s else None
  | _ => None
  end.

Definition number_value (num : string) : float64 :=
  match Atoi num with
  | Some i => f_of_Z i
  | None => if isValidNumber num then default f_zero (ParseFloat (to_bytes num)) else f_zero
  end.

(** [flexInt.UnmarshalJSON], which never fails. *)
Definition dec_flexInt : decoder Z := fun _ t =>
  let f := match number_text t with
           | Some num => number_value num
           | None => match t with TStr s => f_of_Z (atoiOrZero s) | _ => f_zero end
           end in
  Some (trunc (f_maximum (f_of_Z MinInt32) (f_min f (f_of_Z MaxInt32)))).

(** ** Finding objects *)

Record modelFinding := mkModelFinding {
  m_Severity : string;
  m_FileLine : string;
  m_Problem : string;
  m_Fix : string;
  m_Category : string;
  m_EstMinutes : Z;
  m_Evidence : string;
}.
Definition zero_modelFinding : modelFinding := mkModelFinding "" "" "" "" "" 0 "".

Definition modelFinding_fields : list (string * decoder modelFinding) :=
  [field "severity" m_Severity (fun x m => mkModelFinding x (m_FileLine m) (m_Problem m) (m_Fix m) (m_Category m) (m_EstMinutes m) (m_Evidence m)) dec_string;
   field "file_line" m_FileLine (fun x m => mkModelFinding (m_Severity m) x (m_Problem m) (m_Fix m) (m_Category m) (m_EstMinutes m) (m_Evidence m)) dec_string;
   field "problem" m_Problem (fun x m => mkModelFinding (m_Severity m) (m_FileLine m) x (m_Fix m) (m_Category m) (m_EstMinutes m) (m_Evidence m)) dec_string;
   field "fix" m_Fix (fun x m => mkModelFinding (m_Severity m) (m_FileLine m) (m_Problem m) x (m_Category m) (m_EstMinutes m) (m_Evidence m)) dec_string;
   field "category" m_Category (fun x m => mkModelFinding (m_Severity m) (m_FileLine m) (m_Problem m) (m_Fix m) x (m_EstMinutes m) (m_Evidence m)) dec_string;
   field "est_minutes" m_EstMinutes (fun x m => mkModelFinding (m_Severity m) (m_FileLine m) (m_Problem m) (m_Fix m) (m_Category m) x (m_Evidence m)) dec_flexInt;
   field "evidence" m_Evidence (fun x m => mkModelFinding (m_Severity m) (m_FileLine m) (m_Problem m) (m_Fix m) (m_Category m) (m_EstMinutes m) x) dec_string].

(** A location split into "file" and "line" keys. *)
Definition alt_fields : list (string * decoder (string * Z)) :=
  [field "file" fst (fun x a => (x, snd a)) dec_string; field "line" snd (fun x a => (fst a, x)) dec_flexInt].

Definition splitLocation (e : jtree) : string :=
  match dec_struct alt_fields ("", 0%Z) e with
  | None => ""
  | Some (f, line) =>
      let file := TrimSpace f in
      if (file =? "")%string then ""
      else if (0 <? snd (splitFileLine file))%Z then file
      else file +:+ ":" +:+ Itoa line
  end.

Section elements.
Context {U : UnicodeCase}.

Definition finding_of_elem (e : jtree) : option Finding :=
  m ← dec_struct modelFinding_fields zero_modelFinding e;
  let sev := NormalizeSeverity (m_Severity m) in
  let loc := TrimSpace (m_FileLine m) in
  let loc := if (loc =? "")%string then splitLocation e else loc in
  if negb (bool_decide (is_Some (SeverityRank !! sev))) || (loc =? "")%string then None
  else
    let '(file, line) := splitFileLine loc in
    Some (mkFinding sev file line (m_Problem m) (m_Fix m) (m_Category m) (clampEstMinutes (m_EstMinutes m))
            (m_Evidence m) "" [] "" (CanonicalCategory (m_Category m))).

(** A [json.RawMessage] is its value: the code only decodes it again. *)
Definition findingsFromElems (elems : list jtree) : list Finding := omap finding_of_elem elems.
End elements.

(** ** Recovering a damaged array *)

(** The locals of the loop of [recoverElements]; [elem] is the text of the element
    being read, [None] when [elemStart] is -1. *)
Record recovery := Recovery {
  rec_out : list bytes;
  depth : Z;
  elem : option bytes;
  inStr : bool;
  esc : bool;
}.
Definition recovery_start : recovery := Recovery [] 0 None false false.

(** One byte: [inl] is the early return. *)
Definition recover_step (st : recovery) (c : ascii) : list bytes + recovery :=
  let el : option bytes := (fun x => x ++ [c]) <$> elem st in
  if inStr st then
    inr (if esc st then Recovery (rec_out st) (depth st) el true false
         else if Ascii.eqb c "\" then Recovery (rec_out st) (depth st) el true true
         else if Ascii.eqb c dquote then Recovery (rec_out st) (depth st) el false false
         else Recovery (rec_out st) (depth st) el true false)
  else if Ascii.eqb c dquote then inr (Recovery (rec_out st) (depth st) el true (esc st))
  else if Ascii.eqb c brace || Ascii.eqb c bracket then
    let d := (depth st + 1)%Z in
    inr (Recovery (rec_out st) d (if (d =? 2)%Z then Some [c] else el) false (esc st))
  else if Ascii.eqb c "}" || Ascii.eqb c "]" then
    let d := (depth st - 1)%Z in
    match (if (d =? 1)%Z then el else None) with
    | Some x =>
        if negb (JsonDecode.Valid x) then inl (rec_out st)
        else inr (Recovery (rec_out st ++ [x]) d None false (esc st))
    | None => if (d <=? 0)%Z then inl (rec_out st) else inr (Recovery (rec_out st) d el false (esc st))
    end
  else inr (Recovery (rec_out st) (depth st) el false (esc st)).

Fixpoint recover_loop (st : recovery) (l : bytes) : list bytes :=
  match l with
  | [] => rec_out st
  | c :: l' => match recover_step st c with inl out => out | inr st' => recover_loop st' l' end
  end.
Definition recoverElements (text : bytes) : list bytes := recover_loop recovery_start text.

(** ** Decoding a JSON value of findings *)

(** White space of a Go regexp. *)
Definition re_blank : bytes := byte_of <$> [9; 10; 12; 13; 32]%N.

(** [findingsWrapperRe]: the text from the bracket that opens the wrapper's array. *)
Definition findings_wrapper (l : bytes) : option bytes :=
  match l with
  | c :: l' =>
      if negb (Ascii.eqb c brace) then None
      else
        let key := dquote :: to_bytes "findings" ++ [dquote] in
        let l' := trim_left_set re_blank l' in
        if negb (is_prefix key l') then None
        else match trim_left_set re_blank (drop (length key) l') with
             | d :: l2 =>
                 if negb (Ascii.eqb d ":") then None
                 else match trim_left_set re_blank l2 with
                      | e :: l3 => if Ascii.eqb e bracket then Some (e :: l3) else None
                      | [] => None
                      end
             | [] => None
             end
  | [] => None
  end.

(** The elements kept, each valid JSON. *)
Definition recovered (text : bytes) : list jtree := omap Parse (recoverElements text).

(** The wrapper's [findings] pointer. *)
Definition dec_raw : decoder jtree := fun _ t => Some t.
Definition wrap_fields : list (string * decoder (option (list jtree))) :=
  [field "findings" id (fun x _ => x) (dec_pointer [] (dec_slice TNull dec_raw))].

(** The elements, the bytes consumed and whether the decode was strict. *)
Definition decodeFindingElems (body : bytes) : list jtree * nat * bool :=
  match body with
  | c :: _ =>
      if Ascii.eqb c bracket then
        match DecodeNext body with
        | Some (TArr elems, r) => (elems, length body - length r, true)
        | _ => (recovered body, 0, false)
        end
      else
        match DecodeNext body with
        | None => (match findings_wrapper body with Some arr => recovered arr | None => [] end, 0, false)
        | Some (raw, r) =>
            (match dec_struct wrap_fields None raw with Some (Some elems) => elems | _ => [raw] end,
             length body - length r, true)
        end
  | [] => ([], 0, false)
  end.

Section decode.
Context {U : UnicodeCase}.

Definition decodeJSONValueRepair (text : bytes) (allowRepair : bool) : list Finding * nat :=
  let body := trim_left_set json_blank text in
  match body with
  | c :: _ =>
      if Ascii.eqb c bracket || Ascii.eqb c brace then
        let '(elems, n, ok) := decodeFindingElems body in
        let out := findingsFromElems elems in
        if ok then (out, length text - length body + n)
        else
          let out :=
            if allowRepair then
              match Repair body with
              | Some (fixed, true) =>
                  let '(relems, _, rok) := decodeFindingElems fixed in
                  let found := findingsFromElems relems in
                  if rok && (length out <? length found) then found else out
              | _ => out
              end
            else out in
          (out, length text)
      else ([], 0)
  | [] => ([], 0)
  end.
Definition decodeJSONFindings (text : bytes) : list Finding := fst (decodeJSONValueRepair text true).
Definition decodeJSONValue (text : bytes) : list Finding * nat := decodeJSONValueRepair text false.

(** ** The scan of a reply *)

Definition maxBareScanFactor : nat := 32.
Definition ModelColumns : nat := 7.

(** The locals of [scanModelOutput]. *)
Record mscan := MScan {
  out : list Finding;
  spans : list (nat * nat);
  inFence : bool;
  inJSON : bool;
  openMarker : string;
  bareScanned : nat;
  bareEnd : nat;
  jsonStart : nat;
  offset : nat;
}.
Definition mscan_start : mscan := MScan [] [] false false "" 0 0 0 0.

(** [text[a:b]]; [None] is the panic. *)
Definition slice (text : bytes) (a b : nat) : option bytes :=
  if (a <=? b) && (b <=? length text) then Some (take (b - a) (drop a text)) else None.

(** The fields of a pipe row, folded into the model's columns and padded. *)
Definition model_row (fields : list string) : list string :=
  let fields :=
    if ModelColumns <? length fields
    then take (ModelColumns - 1) fields ++ [Join (drop (ModelColumns - 1) fields) "/"] else fields in
  pad_fields PerSourceColumns fields.

Definition pipe_finding (line : string) : option Finding :=
  if (TrimSpace line =? "")%string || HasPrefix line "#" || negb (severity_row line) then None
  else
    let fields := Split line "|" in
    if (length fields <? 3) || (TrimSpace (column fields 1) =? "")%string then None
    else Some (fieldsToFinding (model_row fields) PerSourceColumns).

(** A fence marker line that opens or closes a block. *)
Definition fence_line (text : bytes) (lineStart next : nat) (line : string) (st : mscan) : option mscan :=
  if inJSON st then
    json ← slice text (jsonStart st) lineStart;
    Some (MScan (out st ++ decodeJSONFindings json) (spans st) (inFence st) (isJSONFence line) line
            (bareScanned st) (bareEnd st) next next)
  else if inFence st then
    Some (MScan (out st) (spans st) false (inJSON st) (openMarker st) (bareScanned st) (bareEnd st) (jsonStart st) next)
  else if isJSONFence line then
    Some (MScan (out st) (spans st) (inFence st) true line (bareScanned st) (bareEnd st) next next)
  else Some (MScan (out st) (spans st) true (inJSON st) line (bareScanned st) (bareEnd st) (jsonStart st) next).

(** A line outside every fence and bare value: [scanned] is what failed attempts
    have been charged by now. *)
Definition row_line (next scanned : nat) (line : string) (st : mscan) : mscan :=
  MScan (out st ++ option_list (pipe_finding line)) (spans st) (inFence st) (inJSON st) (openMarker st) scanned
    (bareEnd st) (jsonStart st) next.

Definition bare_candidate (text : bytes) (line : string) (st : mscan) : bool :=
  let t := TrimSpace line in
  (bareScanned st <? maxBareScanFactor * length text) && (HasPrefix t "[" || HasPrefix t "{").

Definition plain_line (text : bytes) (i lineStart next fence : nat) (line : string) (st : mscan) : option mscan :=
  if bare_candidate text line st then
    let end_ := Nat.max fence lineStart in
    value ← slice text lineStart end_;
    let '(found, n) := decodeJSONValue value in
    if 0 <? length found then
      Some (MScan (out st ++ found) (spans st ++ [(i, i)]) (inFence st) (inJSON st) (openMarker st) (bareScanned st)
              (lineStart + n) (jsonStart st) next)
    else Some (row_line next (bareScanned st + (end_ - lineStart)) line st)
  else Some (row_line next (bareScanned st) line st).

(** [spans[len(spans)-1].Last = i] *)
Definition extend_span (i : nat) (l : list (nat * nat)) : option (list (nat * nat)) :=
  match last l with
  | Some (first, _) => Some (take (length l - 1) l ++ [(first, i)])
  | None => None
  end.

Definition set_offset (next : nat) (sp : list (nat * nat)) (st : mscan) : mscan :=
  MScan (out st) sp (inFence st) (inJSON st) (openMarker st) (bareScanned st) (bareEnd st) (jsonStart st) next.

(** One line [raw] at index [i], [fence] being the offset of the next marker. *)
Definition line_step (text : bytes) (st : mscan) (x : nat * (string * nat)) : option mscan :=
  let '(i, (raw, fence)) := x in
  let lineStart := offset st in
  let next := lineStart + String.length raw + 1 in
  let line := TrimRightCR raw in
  if isFenceMarker line && (negb (inJSON st) && negb (inFence st) || closesFence line (openMarker st))
  then fence_line text lineStart next line st
  else if inJSON st || inFence st then Some (set_offset next (spans st) st)
  else if lineStart <? bareEnd st then (fun sp => set_offset next sp st) <$> extend_span i (spans st)
  else plain_line text i lineStart next fence line st.

(** The loop over the lines, then an unterminated json block. *)
Definition scanModelOutput (data : string) : option (list Finding * list (nat * nat)) :=
  let text := to_bytes data in
  let lines := Split data LF in
  st ← foldM (line_step text) mscan_start (imap (fun i x => (i, x)) (zip lines (fenceOffsets lines (length text))));
  if inJSON st then
    json ← slice text (Nat.min (jsonStart st) (length text)) (length text);
    Some (out st ++ decodeJSONFindings json, spans st)
  else Some (out st, spans st).

Definition BareValueSpans (data : string) : option (list (nat * nat)) := snd <$> scanModelOutput data.
End decode.

(** ** Sibling declarations *)

Definition is_re_blank (c : ascii) : bool := existsb (Ascii.eqb c) re_blank.
Definition SiblingToken : string := "sibling:".

(** The line of the declaration: a positive decimal followed by a blank, one of
    [; , . )] or the end. *)
Definition sibling_line (l : bytes) : option bytes :=
  let '(n, r) := span is_digit l in
  match n with
  | c :: _ =>
      if Ascii.eqb c "0" then None
      else match r with
           | [] => Some n
           | d :: _ => if is_re_blank d || existsb (Ascii.eqb d) (to_bytes ";,.)") then Some n else None
           end
  | [] => None
  end.
(** The shortest path, of at least one byte, that a colon and a line follow; [path]
    is what has been read of it. *)
Fixpoint sibling_path (path l : bytes) : option (bytes * bytes) :=
  match l with
  | [] => None
  | c :: l' =>
      match (if Ascii.eqb c ":" && negb (bool_decide (path = [])) then sibling_line l' else None) with
      | Some n => Some (path, n)
      | None => if is_re_blank c then None else sibling_path (path ++ [c]) l'
      end
  end.

(** After the boundary: the token, blanks and the location. *)
Definition sibling_here (l : bytes) : option (bytes * bytes) :=
  if is_prefix (to_bytes SiblingToken) l
  then sibling_path [] (trim_left_set re_blank (drop (String.length SiblingToken) l)) else None.

(** The leftmost match from the second byte on, or at a boundary byte here. *)
Fixpoint sibling_search (l : bytes) : option (bytes * bytes) :=
  match l with
  | [] => None
  | c :: l' =>
      match (if existsb (Ascii.eqb c) (to_bytes " ;/") then sibling_here (trim_left_set re_blank l') else None) with
      | Some m => Some m
      | None => sibling_search l'
      end
  end.

Definition ParseSiblingLocation (evidence : string) : string :=
  let l := to_bytes evidence in
  match (match sibling_here l with Some m => Some m | None => sibling_search l end) with
  | Some (path, line) => of_bytes (path ++ ":"%char :: line)
  | None => ""
  end.

(** Each finding with its [SiblingLocation]. *)
Definition ParseModelOutput {U : UnicodeCase} (data : string) : option (list (Finding * string)) :=
  r ← scanModelOutput data;
  Some (map (fun f => (f, ParseSiblingLocation (Evidence f))) (fst r)).

(** ** The clean-review sentinel *)

Definition NoFindingsSentinel : string := "NO FINDINGS".

Definition is_word_byte (c : ascii) : bool :=
  is_upper c || is_lower c || is_digit c || Ascii.eqb c "_" || Ascii.eqb c "-".
Definition is_word (l : bytes) : bool := negb (bool_decide (l = [])) && forallb is_word_byte l.

(** [infoStringAttrRe], and [infoStringTokenRe]. *)
Definition is_attr (tok : string) : bool :=
  match Split tok "=" with
  | [k; v] => is_word (to_bytes k) && is_word (to_bytes v)
  | _ => false
  end.
Definition is_token (tok : string) : bool := is_word (to_bytes tok) || is_attr tok.

(** The tokens after the first, with the bare words met so far. *)
Fixpoint extra_tokens (bareExtra : nat) (toks : list string) : bool :=
  match toks with
  | [] => true
  | tok :: toks' =>
      if is_attr tok then extra_tokens bareExtra toks'
      else if is_token tok then if 1 <? bareExtra + 1 then false else extra_tokens (bareExtra + 1) toks'
      else false
  end.
Definition isInfoString (line : string) (n : nat) : bool :=
  match Fields (of_bytes (drop n (trim_left_set blank (to_bytes line)))) with
  | [] => true
  | tok :: toks => is_token tok && extra_tokens 0 toks
  end.
Definition isCleanOpenFence (line : string) : bool :=
  let n := snd (fenceRun line) in (3 <=? n) && isInfoString line n.

(** [bareFenceRe] *)
Definition bare_fence (line : string) : bool :=
  match trim_left_set re_blank (to_bytes line) with
  | c :: t =>
      let n := run_length c (c :: t) in
      (Ascii.eqb c backtick || Ascii.eqb c tilde) && (3 <=? n) &&
      forallb is_re_blank (snd (span is_word_byte (drop n (c :: t))))
  | [] => false
  end.

(** The lines that are not fence metadata, with the state of the open fence. *)
Fixpoint kept_lines (inFence : bool) (openC : ascii) (openN : nat) (lines : list string) : list string :=
  match lines with
  | [] => []
  | l :: lines' =>
      let line := TrimRightCR l in
      let '(c, n) := fenceRun line in
      if (3 <=? n) && negb inFence && isCleanOpenFence line then kept_lines true c n lines'
      else if (3 <=? n) && inFence && Ascii.eqb c openC && (openN <=? n)
              && (TrimSpace (of_bytes (drop n (trim_left_set blank (to_bytes line)))) =? "")%string
      then kept_lines false openC openN lines'
      else if bare_fence line then kept_lines inFence openC openN lines'
      else line :: kept_lines inFence openC openN lines'
  end.

(** Decoding into an [any] fails on a number no float64 can hold. *)
Fixpoint any_ok (t : jtree) : bool :=
  match t with
  | TNum lit => if ParseFloat lit is Some _ then true else false
  | TArr l => forallb any_ok l
  | TObj fs => forallb (fun kv => any_ok kv.2) fs
  | _ => true
  end.

(** A [map[string]any] with [findings] its only key, bound last to an empty slice. *)
Definition is_empty_wrapper (fs : list (string * jtree)) : bool :=
  forallb (fun kv => kv.1 =? "findings")%string fs &&
  match last fs with Some (_, TArr []) => true | _ => false end.

Definition emptyFindingsValue (s : bytes) : nat :=
  match s with
  | c :: _ =>
      if Ascii.eqb c bracket || Ascii.eqb c brace then
        match DecodeNext s with
        | Some (v, r) =>
            if any_ok v && (match v with TArr [] => true | TObj fs => is_empty_wrapper fs | _ => false end)
            then length s - length r else 0
        | None => 0
        end
      else 0
  | [] => 0
  end.

(** [unicode.IsSpace] of a byte read as a rune. *)
Definition is_latin1_space (c : ascii) : bool :=
  existsb (fun n => Ascii.eqb c (byte_of n)) [9; 10; 11; 12; 13; 32; 133; 160]%N.

(** One sentinel or empty value at the start; the rest of the text after it. *)
Definition clean_token (s : bytes) : option bytes :=
  let n := String.length NoFindingsSentinel in
  if (n <=? length s) && EqualFold (of_bytes (take n s)) NoFindingsSentinel
  then Some (trim_left_set (to_bytes ".:!") (drop n s))
  else match emptyFindingsValue s with
       | 0 => None
       | k => Some (drop k s)
       end.

(** Every turn reads at least two bytes, so the length is fuel enough. *)
Fixpoint clean_loop (fuel : nat) (seen : bool) (s : bytes) : bool :=
  match s with
  | [] => seen
  | _ =>
      match fuel with
      | O => false
      | S k =>
          match clean_token s with
          | None => false
          | Some r =>
              if match r with c :: _ => negb (is_latin1_space c) | [] => false end then false
              else clean_loop k true (to_bytes (TrimSpace (of_bytes r)))
          end
      end
  end.

Definition IsNoFindings (content : string) : bool :=
  let s := to_bytes (TrimSpace (Join (kept_lines false (byte_of 0) 0 (Split content LF)) LF)) in
  clean_loop (length s) false s.

(** ** The findings of a reply *)

(** What holds of every finding read from a model: a canonical severity, an estimate
    within the bound, and none of the columns only the engine or the reconciler
    fills. *)
Definition model_safe {U : UnicodeCase} (f : Finding) : Prop :=
  Severity f ∈ severities /\ (0 <= EstMinutes f <= maxModelEstMinutes)%Z /\
  Reviewer f = "" /\ Reviewers f = [] /\ Confidence f = "" /\
  CanonicalCategory_ f = CanonicalCategory (Category f).

Lemma SeverityRank_severities s : is_Some (SeverityRank !! s) -> s ∈ severities.
Proof.
  intros [r H]. unfold SeverityRank in H. unfold severities.
  repeat (apply lookup_insert_Some in H as [[<- _]|[_ H]]; [apply (bool_decide_eq_true_1 _); by vm_compute|]).
  apply lookup_singleton_Some in H as [<- _]. apply (bool_decide_eq_true_1 _); by vm_compute.
Qed.

Lemma clampEstMinutes_bound n : (0 <= clampEstMinutes n <= maxModelEstMinutes)%Z.
Proof. unfold clampEstMinutes, maxModelEstMinutes. lia. Qed.

Section safe.
Context {U : UnicodeCase}.

Lemma finding_of_elem_safe e f : finding_of_elem e = Some f -> model_safe f.
Proof.
  unfold finding_of_elem. destruct (dec_struct _ _ e) as [m|]; [|done]. cbn [mbind option_bind].
  set (loc := if (TrimSpace (m_FileLine m) =? "")%string then splitLocation e else TrimSpace (m_FileLine m)).
  case_bool_decide as Hs; [|done]. destruct (loc =? "")%string; [done|]. cbn [negb orb].
  destruct (splitFileLine loc) as [file line]. intros [= <-]. split_and!; try done;
    [by apply SeverityRank_severities|apply clampEstMinutes_bound..].
Qed.

Lemma findingsFromElems_safe es : Forall model_safe (findingsFromElems es).
Proof.
  apply Forall_forall. intros f (e & _ & He)%list_elem_of_omap. by eapply finding_of_elem_safe.
Qed.

Lemma decodeJSONValueRepair_safe text r : Forall model_safe (fst (decodeJSONValueRepair text r)).
Proof.
  unfold decodeJSONValueRepair. destruct (trim_left_set json_blank text) as [|c body]; [constructor|].
  destruct (_ || _); [|constructor]. destruct (decodeFindingElems (c :: body)) as [[elems n] ok].
  destruct ok; [apply findingsFromElems_safe|]. cbn [fst].
  destruct r; [|apply findingsFromElems_safe]. destruct (Repair (c :: body)) as [[fixed []]|]; try apply findingsFromElems_safe.
  destruct (decodeFindingElems fixed) as [[relems n'] rok]. destruct (_ && _); apply findingsFromElems_safe.
Qed.

Lemma severity_row_first line : severity_row line = true ->
  exists sev rest, sev ∈ severities /\ Split line "|" = sev :: rest.
Proof.
  unfold severity_row. rewrite existsb_exists. intros (sev & Hin & Hp). apply list_elem_of_In in Hin.
  unfold HasPrefix in Hp. apply is_prefix_spec in Hp as [k Hk].
  assert (line = sev +:+ char "|" +:+ of_bytes k) as ->.
  { apply to_bytes_inj. rewrite Hk, !to_bytes_app, list_ascii_of_string_of_list_ascii, <-app_assoc. done. }
  exists sev, (Split (of_bytes k) "|"). split; [done|]. change "|" with (char "|"). apply Split_char.
  unfold lacks. rewrite !elem_of_cons in Hin. apply (bool_decide_eq_true_1 _).
  destruct Hin as [->|[->|[->|[->|Hin%elem_of_nil]]]]; [by vm_compute..|done].
Qed.

(** Past the model's columns a row is padded. *)
Lemma model_row_reviewer fields : column (model_row fields) 7 = "".
Proof.
  unfold column, model_row, pad_fields, ModelColumns, PerSourceColumns.
  set (fs := if 7 <? length fields then _ else fields).
  assert (length fs <= 7) as Hl.
  { unfold fs. destruct (Nat.ltb_spec 7 (length fields)); [|done]. rewrite length_app, length_take. cbn [length]. lia. }
  rewrite app_nth2 by done. rewrite nth_lookup, lookup_replicate_2 by lia. done.
Qed.

Lemma model_row_head sev rest : column (model_row (sev :: rest)) 0 = sev.
Proof. unfold column, model_row. by destruct (_ <? _). Qed.

Lemma pipe_finding_safe line f : pipe_finding line = Some f -> model_safe f.
Proof.
  unfold pipe_finding. destruct (severity_row line) eqn:Hsev; [|by rewrite orb_true_r].
  destruct (_ || _); [done|]. destruct (severity_row_first line Hsev) as (sev & rest & Hin & ->).
  destruct (_ || _); [done|]. intros [= <-]. unfold fieldsToFinding. rewrite model_row_head, model_row_reviewer.
  destruct (splitFileLine _) as [file l]. split_and!; try done; apply clampEstMinutes_bound.
Qed.

(** *** The scan's own invariant *)

(** Lines and their bytes: each but the last ends in a line feed. *)
Definition line_size (x : nat * (string * nat)) : nat := String.length x.2.1 + 1.
Abbreviation sizes := (sum_list_with line_size).

Lemma split_bytes_size l cur :
  sum_list_with (fun x => length x + 1) (split_bytes [byte_of 10] l 0 cur) = length cur + length l + 1.
Proof.
  revert cur. induction l as [|c l IH]; intros cur; cbn [split_bytes]; [simpl; lia|].
  destruct (is_prefix [byte_of 10] (c :: l)); simpl; rewrite IH; [|rewrite length_app]; simpl; lia.
Qed.

Lemma length_to_bytes s : length (to_bytes s) = String.length s.
Proof. induction s as [|c s IH]; [done|]. simpl. by rewrite IH. Qed.

Lemma Split_size s : sum_list_with (fun x => String.length x + 1) (Split s LF) = length (to_bytes s) + 1.
Proof.
  unfold Split. change (to_bytes LF) with [byte_of 10]. pose proof (split_bytes_size (to_bytes s) []) as H.
  cbn [length Nat.add] in H. rewrite <-H. clear H. induction (split_bytes _ _ _ _) as [|x l IH]; [done|].
  rewrite fmap_cons. cbn [sum_list_with]. by rewrite IH, <-length_to_bytes, list_ascii_of_string_of_list_ascii.
Qed.

Lemma fenceOffsets_spec lines n :
  length (fenceOffsets lines n) = length lines /\ Forall (fun k => k <= n) (fenceOffsets lines n).
Proof.
  unfold fenceOffsets. set (m := n + 1). clearbody m.
  induction lines as [|l lines [IHl IHf]]; [by split; [|constructor]|].
  cbn [foldr]. destruct (foldr _ _ lines) as [[out next] off]. cbn [fst fence_step length] in *.
  split; [by rewrite IHl|]. constructor; [lia|done].
Qed.

(** The items the loop runs over. *)
Definition items (data : string) : list (nat * (string * nat)) :=
  imap (fun i x => (i, x)) (zip (Split data LF) (fenceOffsets (Split data LF) (length (to_bytes data)))).

Lemma imap_size (l : list (string * nat)) k :
  sizes (imap (fun i x => (k + i, x)) l) = sum_list_with (fun x => String.length x.1 + 1) l.
Proof.
  revert k. induction l as [|x l IH]; intros k; [done|]. rewrite imap_cons. simpl. unfold line_size at 1. simpl.
  rewrite <-(IH (S k)). f_equal. f_equal. unfold compose. apply imap_ext. intros i y _. simpl. f_equal. lia.
Qed.

Lemma zip_size (ls : list string) (ks : list nat) : length ks = length ls ->
  sum_list_with (fun x : string * nat => String.length x.1 + 1) (zip ls ks) = sum_list_with (fun x => String.length x + 1) ls.
Proof.
  revert ks. induction ls as [|s ls IH]; intros [|k ks]; try done. simpl. intros [= H]. by rewrite IH.
Qed.

Lemma items_spec data done x todo :
  items data = done ++ x :: todo ->
  x.1 = length done /\ x.2.2 <= length (to_bytes data) /\
  sizes done + line_size x + sizes todo = length (to_bytes data) + 1.
Proof.
  intros H. destruct (fenceOffsets_spec (Split data LF) (length (to_bytes data))) as [Hlen Hle].
  assert (Hx : items data !! length done = Some x) by (rewrite H; by apply list_lookup_middle).
  unfold items in Hx. rewrite list_lookup_imap in Hx. apply fmap_Some in Hx as ([s k] & Hz & ->).
  split_and!; [done| |].
  - apply lookup_zip_with_Some in Hz as (s' & k' & [= <- <-] & _ & Hk). simpl.
    rewrite Forall_forall in Hle. apply Hle. by eapply list_elem_of_lookup_2.
  - pose proof (imap_size (zip (Split data LF) (fenceOffsets (Split data LF) (length (to_bytes data)))) 0) as Hs.
    simpl in Hs. change (imap _ _) with (items data) in Hs. rewrite zip_size, Split_size, H in Hs by done.
    rewrite sum_list_with_app in Hs. simpl in Hs. lia.
Qed.

Definition span_lt (a b : nat * nat) : Prop := a.2 < b.1.

Record scan_ok (n size : nat) (st : mscan) : Prop := {
  ok_offset : offset st = size;
  ok_json : inJSON st = true -> jsonStart st <= offset st;
  ok_bare : 0 < bareEnd st -> spans st <> [];
  ok_sorted : StronglySorted span_lt (spans st);
  ok_spans : Forall (fun s => s.1 <= s.2 /\ s.2 < n) (spans st);
  ok_out : Forall model_safe (out st);
}.

Lemma slice_Some text a b : a <= b -> b <= length text -> exists x, slice text a b = Some x.
Proof. intros Ha Hb. unfold slice. rewrite (proj2 (Nat.leb_le _ _) Ha), (proj2 (Nat.leb_le _ _) Hb). by eexists. Qed.

Lemma spans_weaken n m (l : list (nat * nat)) : n <= m -> Forall (fun s => s.1 <= s.2 /\ s.2 < n) l ->
  Forall (fun s => s.1 <= s.2 /\ s.2 < m) l.
Proof. intros Hn H. eapply Forall_impl; [exact H|]. intros s [? ?]. split; lia. Qed.

Lemma extend_span_ok n l : l <> [] -> StronglySorted span_lt l -> Forall (fun s => s.1 <= s.2 /\ s.2 < n) l ->
  exists l', extend_span n l = Some l' /\ l' <> [] /\ StronglySorted span_lt l' /\
    Forall (fun s => s.1 <= s.2 /\ s.2 < S n) l'.
Proof.
  destruct l as [|s l] using rev_ind; [done|]. clear IHl. intros _ Hs Hl.
  unfold extend_span. rewrite last_snoc. destruct s as [a b]. rewrite length_app, Nat.add_sub, take_app_length.
  apply Forall_app in Hl as [Hl Hab]. apply Forall_inv in Hab. simpl in Hab.
  eexists. split; [done|]. split; [by destruct l|]. split.
  - apply StronglySorted_app in Hs as (Hlt & Hs & _). apply StronglySorted_app. split_and!; [|done|repeat constructor].
    intros s t Hs1 Ht. rewrite list_elem_of_singleton in Ht. subst t. apply (Hlt s (a, b) Hs1). left.
  - apply Forall_app. split; [apply (spans_weaken n); [lia|done]|]. apply Forall_singleton. simpl. destruct Hab. split; lia.
Qed.

(** One line keeps the invariant, and no slice or index of it is out of range. *)
Lemma fence_line_ok text n size next line st :
  scan_ok n size st -> size <= length text -> size <= next ->
  exists st', fence_line text size next line st = Some st' /\ scan_ok (S n) next st'.
Proof.
  intros [Ho Hj Hb Hs Hsp Hout] Hle Hnext. unfold fence_line.
  assert (Hsp' := spans_weaken n (S n) _ ltac:(lia) Hsp).
  destruct (inJSON st) eqn:Ej.
  - destruct (slice_Some text (jsonStart st) size) as [x ->]; [specialize (Hj eq_refl); lia|done|].
    eexists. split; [done|]. split; try done; simpl.
    apply Forall_app. split; [done|]. apply decodeJSONValueRepair_safe.
  - destruct (inFence st); [|destruct (isJSONFence line)]; (eexists; split; [done|]); split; try done; simpl; congruence.
Qed.

Lemma plain_line_ok text n size next fence line st :
  scan_ok n size st -> inJSON st = false -> size <= length text -> size <= next -> fence <= length text ->
  bareEnd st <= size -> (forall s, s ∈ spans st -> s.2 < n) ->
  exists st', plain_line text n size next fence line st = Some st' /\ scan_ok (S n) next st'.
Proof.
  intros [Ho Hj Hb Hs Hsp Hout] Ej Hle Hnext Hf Hbare Hlast. unfold plain_line.
  assert (Hsp' := spans_weaken n (S n) _ ltac:(lia) Hsp).
  assert (Hrow : forall k, scan_ok (S n) next (row_line next k line st)).
  { intros k. split; try done; simpl; [congruence|]. apply Forall_app. split; [done|].
    destruct (pipe_finding line) as [f|] eqn:E; simpl; [|constructor]. constructor; [|constructor]. by eapply pipe_finding_safe. }
  destruct (bare_candidate text line st); [|by eexists].
  destruct (slice_Some text size (Nat.max fence size)) as [x ->]; [lia|lia|]. cbn [mbind option_bind].
  destruct (decodeJSONValue x) as [found k] eqn:E. destruct (0 <? length found); [|by eexists].
  eexists. split; [done|]. split; simpl; try done; [congruence|by destruct (spans st)| | |].
  - apply StronglySorted_snoc; [done|]. apply Forall_forall. intros s Hin. by apply Hlast.
  - apply Forall_app. split; [done|]. apply Forall_singleton. simpl. lia.
  - apply Forall_app. split; [done|]. pose proof (decodeJSONValueRepair_safe x false) as H.
    unfold decodeJSONValue in E. by rewrite E in H.
Qed.

Lemma line_step_ok text done_ st x :
  scan_ok (length done_) (sizes done_) st -> x.1 = length done_ -> x.2.2 <= length text ->
  sizes done_ + line_size x <= length text + 1 ->
  exists st', line_step text st x = Some st' /\ scan_ok (length (done_ ++ [x])) (sizes (done_ ++ [x])) st'.
Proof.
  destruct x as [i [raw fence]]. cbn [fst snd]. intros H -> Hf Hsz. rewrite length_app, sum_list_with_app, Nat.add_1_r.
  pose proof (ok_offset _ _ _ H) as Ho.
  change (line_size (length done_, (raw, fence))) with (String.length raw + 1) in Hsz.
  replace (sizes done_ + sizes [(length done_, (raw, fence))]) with (sizes done_ + String.length raw + 1)
    by (unfold line_size at 3; simpl; lia).
  unfold line_step. rewrite Ho.
  destruct (isFenceMarker _ && _); [apply (fence_line_ok text (length done_)); [done|lia|lia]|].
  destruct (inJSON st) eqn:Ej; cbn [orb].
  { eexists. split; [done|]. destruct H. split; simpl; try done; [intros; specialize (ok_json0 Ej); lia|].
    by apply (spans_weaken (length done_)); [lia|]. }
  destruct (inFence st).
  { eexists. split; [done|]. destruct H. split; simpl; try done; [congruence|].
    by apply (spans_weaken (length done_)); [lia|]. }
  destruct (Nat.ltb_spec (sizes done_) (bareEnd st)) as [Hlt|Hge].
  - destruct H. destruct (extend_span_ok (length done_) (spans st)) as (l' & -> & Hne & Hs & Hl); [apply ok_bare0; lia|done..|].
    eexists. split; [done|]. split; simpl; try done. congruence.
  - apply plain_line_ok; try done; try lia.
    intros s Hs. pose proof (ok_spans _ _ _ H) as Hsp. rewrite Forall_forall in Hsp. by apply Hsp.
Qed.

Lemma scan_loop_ok data :
  exists st, foldM (line_step (to_bytes data)) mscan_start (items data) = Some st /\
    scan_ok (length (items data)) (sizes (items data)) st.
Proof.
  apply (foldM_invariant (fun l st => scan_ok (length l) (sizes l) st)).
  - split; simpl; try done; [lia|constructor].
  - intros l x todo st Hl Hst. destruct (items_spec data l x todo Hl) as (H1 & H2 & H3).
    apply line_step_ok; [done|done|done|lia].
Qed.

Lemma scanModelOutput_ok data :
  exists found sp, scanModelOutput data = Some (found, sp) /\ Forall model_safe found /\
    StronglySorted span_lt sp /\ Forall (fun s => s.1 <= s.2 /\ s.2 < length (Split data LF)) sp.
Proof.
  unfold scanModelOutput. destruct (scan_loop_ok data) as (st & Hst & H). unfold items in Hst. rewrite Hst.
  cbn [mbind option_bind]. destruct H as [Ho Hj Hb Hs Hsp Hout].
  assert (length (items data) = length (Split data LF)) as Hn.
  { unfold items. rewrite length_imap, length_zip_with, (proj1 (fenceOffsets_spec _ _)). lia. }
  rewrite Hn in Hsp. destruct (inJSON st); [|by eexists _, _].
  destruct (slice_Some (to_bytes data) (Nat.min (jsonStart st) (length (to_bytes data))) (length (to_bytes data)))
    as [x ->]; [lia|lia|].
  eexists _, _. split_and!; [done| |done|done]. apply Forall_app. split; [done|]. apply decodeJSONValueRepair_safe.
Qed.
End safe.

(** C38. Whatever a model writes, [ParseModelOutput] returns without an index or
    slice panic, and no finding it returns carries a reviewer, a reviewer list or a
    confidence: a model can never forge the columns the engine and the reconciler
    fill. Each has one of the four severities, an estimate between 0 and a week of
    minutes, and the canonical form of its own category. *)
Theorem ParseModelOutput_safe {U : UnicodeCase} (data : string) :
  exists found, ParseModelOutput data = Some found /\ Forall (fun f => model_safe f.1) found.
Proof.
  destruct (scanModelOutput_ok data) as (found & sp & H & Hf & _). unfold ParseModelOutput. rewrite H.
  eexists. split; [done|]. apply Forall_fmap. eapply Forall_impl; [exact Hf|]. done.
Qed.

(** [BareValueSpans] answers spans of lines of the text, in order and pairwise
    disjoint. *)
Theorem BareValueSpans_disjoint {U : UnicodeCase} (data : string) :
  exists sp, BareValueSpans data = Some sp /\ StronglySorted span_lt sp /\
    Forall (fun s => s.1 <= s.2 /\ s.2 < length (Split data LF)) sp.
Proof.
  destruct (scanModelOutput_ok data) as (found & sp & H & _ & Hs & Hl). unfold BareValueSpans. rewrite H. by exists sp.
Qed.

(** ** Recovery of a cut-off array *)

(** The loop from a state; [inl] is its early return. *)
Fixpoint recover_run (st : recovery) (l : bytes) : list bytes + recovery :=
  match l with
  | [] => inr st
  | c :: l' => match recover_step st c with inl out => inl out | inr st' => recover_run st' l' end
  end.

Lemma recover_loop_run st l :
  recover_loop st l = match recover_run st l with inl out => out | inr st' => rec_out st' end.
Proof. revert st. induction l as [|c l IH]; intros st; [done|]. simpl. destruct (recover_step st c); [done|apply IH]. Qed.

Lemma recover_run_app st a b :
  recover_run st (a ++ b) = match recover_run st a with inl out => inl out | inr st' => recover_run st' b end.
Proof. revert st. induction a as [|c a IH]; intros st; [done|]. simpl. destruct (recover_step st c); [done|apply IH]. Qed.

(** The state inside an element, at depth [d], having read [e] of it. *)
Definition inside_elem (o : list bytes) (d : Z) (e : bytes) (str : bool) : recovery := Recovery o d (Some e) str false.

(** Text an element may hold: read inside one, it leaves the depth as it was. *)
Definition passes (x : bytes) : Prop :=
  forall o d e, (2 <= d)%Z -> recover_run (inside_elem o d e false) x = inr (inside_elem o d (e ++ x) false).

Lemma passes_nil : passes [].
Proof. intros o d e _. by rewrite app_nil_r. Qed.

Lemma passes_app a b : passes a -> passes b -> passes (a ++ b).
Proof. intros Ha Hb o d e Hd. by rewrite recover_run_app, Ha, Hb, app_assoc. Qed.

(** A byte that is neither a quote nor a bracket. *)
Definition neutral (c : ascii) : bool :=
  negb (Ascii.eqb c dquote || Ascii.eqb c brace || Ascii.eqb c bracket || Ascii.eqb c "}" || Ascii.eqb c "]").

Lemma neutral_step st c : neutral c = true -> inStr st = false ->
  recover_step st c = inr (Recovery (rec_out st) (depth st) ((fun x => x ++ [c]) <$> elem st) false (esc st)).
Proof.
  unfold neutral. intros Hc Hs. apply negb_true_iff in Hc. repeat (apply orb_false_iff in Hc as [Hc ?]).
  unfold recover_step. rewrite Hs, Hc. by repeat match goal with H : _ = false |- _ => rewrite H; clear H end.
Qed.

Lemma passes_neutral x : Forall (fun c => neutral c = true) x -> passes x.
Proof.
  induction 1 as [|c x Hc _ IH]; [apply passes_nil|]. apply (passes_app [c]); [|done].
  intros o d e Hd. cbn [recover_run]. by rewrite neutral_step.
Qed.

Lemma json_ws_neutral c : is_json_ws c = true -> neutral c = true.
Proof. destruct c as [[] [] [] [] [] [] [] []]; intros H; (discriminate H || reflexivity). Qed.

Lemma skip_ws_split l : exists ws, l = ws ++ skip_ws l /\ Forall (fun c => neutral c = true) ws.
Proof.
  induction l as [|c l (ws & Hl & Hw)]; [by exists []|]. simpl. destruct (is_json_ws c) eqn:E; [|by exists []].
  exists (c :: ws). split; [by rewrite Hl at 1|]. constructor; [by apply json_ws_neutral|done].
Qed.

(** Text a string literal may hold: read inside one, it does not leave it. *)
Definition in_string (x : bytes) : Prop :=
  forall o d e, recover_run (inside_elem o d e true) x = inr (inside_elem o d (e ++ x) true).

Lemma in_string_app a b : in_string a -> in_string b -> in_string (a ++ b).
Proof. intros Ha Hb o d e. by rewrite recover_run_app, Ha, Hb, app_assoc. Qed.

Lemma in_string_plain x : Forall (fun c => c <> "\"%char /\ c <> dquote) x -> in_string x.
Proof.
  induction 1 as [|c x [Hb Hq] _ IH]; [by intros o d e; rewrite app_nil_r|]. apply (in_string_app [c]); [|done].
  intros o d e. cbn [recover_run]. unfold recover_step. cbn [inStr esc inside_elem].
  by rewrite (proj2 (Ascii.eqb_neq c "\") Hb), (proj2 (Ascii.eqb_neq c dquote) Hq).
Qed.

Lemma in_string_escape y : in_string ["\"%char; y].
Proof. intros o d e. cbn. unfold inside_elem. by rewrite <-app_assoc. Qed.

Lemma is_hex_plain c : is_hex c = true -> c <> "\"%char /\ c <> dquote.
Proof. intros H. split; intros ->; discriminate H. Qed.

Lemma scan_string_run l x r : scan_string l = Some (x, r) -> l = x ++ dquote :: r /\ in_string x.
Proof.
  revert x r. induction (well_founded_ltof _ (@length ascii) l) as [l _ IH]. unfold ltof in IH. intros x r.
  destruct l as [|c l]; [done|]. cbn [scan_string].
  destruct (Ascii.eqb_spec c (byte_of 34)) as [->|Hq].
  { intros [= <- <-]. split; [done|]. by apply in_string_plain. }
  destruct (Ascii.eqb_spec c (byte_of 92)) as [->|Hb].
  - destruct l as [|y l2]; [done|]. destruct (Ascii.eqb y "u").
    + destruct l2 as [|h1 [|h2 [|h3 [|h4 l3]]]]; try done.
      destruct (is_hex h1 && is_hex h2 && is_hex h3 && is_hex h4) eqn:Eh; [|done]. bool_prop.
      destruct (scan_string l3) as [[x' r']|] eqn:E; [|done]. intros [= <- <-].
      destruct (IH l3 ltac:(simpl; lia) _ _ E) as [-> Hx]. split; [done|].
      apply (in_string_app ["\"%char; y]), (in_string_app [h1; h2; h3; h4]); [apply in_string_escape| |done].
      apply in_string_plain. repeat (apply Forall_cons; split; [by apply is_hex_plain|]). constructor.
    + destruct (simple_escape y); [|done]. destruct (scan_string l2) as [[x' r']|] eqn:E; [|done]. intros [= <- <-].
      destruct (IH l2 ltac:(simpl; lia) _ _ E) as [-> Hx]. split; [done|].
      by apply (in_string_app ["\"%char; y]); [apply in_string_escape|].
  - destruct (code c <? 32)%N; [done|]. destruct (scan_string l) as [[x' r']|] eqn:E; [|done]. intros [= <- <-].
    destruct (IH l ltac:(simpl; lia) _ _ E) as [-> Hx]. split; [done|].
    apply (in_string_app [c]); [|done]. apply in_string_plain. by constructor.
Qed.

(** A whole literal, with its quotes. *)
Lemma passes_string x : in_string x -> passes (dquote :: x ++ [dquote]).
Proof.
  intros Hx o d e Hd. change (dquote :: x ++ [dquote]) with ([dquote] ++ x ++ [dquote]).
  rewrite (recover_run_app _ [dquote]).
  assert (recover_run (inside_elem o d e false) [dquote] = inr (inside_elem o d (e ++ [dquote]) true)) as -> by done.
  rewrite recover_run_app, Hx.
  assert (forall y, recover_run (inside_elem o d y true) [dquote] = inr (inside_elem o d (y ++ [dquote]) false)) as -> by done.
  by rewrite <-!app_assoc.
Qed.

(** A container inside an element. *)
Lemma passes_container o c x :
  o = brace \/ o = bracket -> c = "}"%char \/ c = "]"%char -> passes x -> passes (o :: x ++ [c]).
Proof.
  intros Ho Hc Hx out d e Hd. change (o :: x ++ [c]) with ([o] ++ x ++ [c]). rewrite recover_run_app.
  assert (Hopen : recover_run (inside_elem out d e false) [o] = inr (inside_elem out (d + 1) (e ++ [o]) false)).
  { cbn [recover_run]. unfold recover_step. cbn [inStr elem depth rec_out esc inside_elem].
    assert ((d + 1 =? 2)%Z = false) as -> by (apply Z.eqb_neq; lia). by destruct Ho as [-> | ->]. }
  rewrite Hopen, recover_run_app, Hx by lia. cbn [recover_run]. unfold recover_step.
  cbn [inStr elem depth rec_out esc inside_elem]. replace (d + 1 - 1)%Z with d by lia.
  rewrite (proj2 (Z.eqb_neq d 1)), (proj2 (Z.leb_gt d 0)) by lia.
  unfold inside_elem. destruct Hc as [-> | ->]; cbn; by rewrite <-!app_assoc.
Qed.

(** [r] is what is left of [l] after bytes that are neither quotes nor brackets. *)
Definition neutral_rest (l r : bytes) : Prop := exists x, l = x ++ r /\ Forall (fun c => neutral c = true) x.

Lemma neutral_refl l : neutral_rest l l.
Proof. by exists []. Qed.

Lemma neutral_trans a b c : neutral_rest a b -> neutral_rest b c -> neutral_rest a c.
Proof. intros (x & -> & Hx) (y & -> & Hy). exists (x ++ y). rewrite <-app_assoc. split; [done|by apply Forall_app]. Qed.

Lemma neutral_one c l : neutral c = true -> neutral_rest (c :: l) l.
Proof. intros H. exists [c]. split; [done|by constructor]. Qed.

Lemma digit_neutral c : is_digit c = true -> neutral c = true.
Proof. destruct c as [[] [] [] [] [] [] [] []]; intros H; (discriminate H || reflexivity). Qed.

Lemma skip_digits_neutral l : neutral_rest l (skip_digits l).
Proof.
  induction l as [|c l IH]; [apply neutral_refl|]. simpl. destruct (is_digit c) eqn:E; [|apply neutral_refl].
  eapply neutral_trans; [by apply neutral_one, digit_neutral|done].
Qed.

Lemma digits1_neutral l r : digits1 l = Some r -> neutral_rest l r.
Proof.
  destruct l as [|c l]; [done|]. simpl. destruct (is_digit c) eqn:E; [|done]. intros [= <-].
  eapply neutral_trans; [by apply neutral_one, digit_neutral|apply skip_digits_neutral].
Qed.

Lemma scan_number_neutral l r : scan_number l = Some r -> neutral_rest l r.
Proof.
  unfold scan_number. destruct (scan_integer (drop_minus l)) as [l1|] eqn:E1; [|done]. cbn [mbind option_bind].
  destruct (scan_fraction l1) as [l2|] eqn:E2; [|done]. cbn [mbind option_bind]. intros E3.
  apply (neutral_trans _ (drop_minus l)).
  { destruct l as [|c l]; [apply neutral_refl|]. simpl. destruct (Ascii.eqb_spec c "-") as [->|]; [by apply neutral_one|apply neutral_refl]. }
  apply (neutral_trans _ l1).
  { destruct (drop_minus l) as [|c l']; [done|]. cbn [scan_integer] in E1.
    destruct (Ascii.eqb_spec c "0") as [->|]; [injection E1 as <-; by apply neutral_one|by apply digits1_neutral]. }
  apply (neutral_trans _ l2).
  { destruct l1 as [|c l1]; [injection E2 as <-; apply neutral_refl|]. cbn [scan_fraction] in E2.
    destruct (Ascii.eqb_spec c ".") as [->|]; [|injection E2 as <-; apply neutral_refl].
    eapply neutral_trans; [by apply neutral_one|by apply digits1_neutral]. }
  destruct l2 as [|c l2]; [injection E3 as <-; apply neutral_refl|]. cbn [scan_exponent] in E3.
  destruct (Ascii.eqb c "e" || Ascii.eqb c "E") eqn:Ec; [|injection E3 as <-; apply neutral_refl].
  assert (neutral c = true) as Hc by (apply orb_true_iff in Ec as [->%Ascii.eqb_eq| ->%Ascii.eqb_eq]; done).
  destruct l2 as [|d l2]; [done|]. eapply neutral_trans; [by apply neutral_one|].
  destruct (Ascii.eqb d "+" || Ascii.eqb d "-") eqn:Ed; [|by apply digits1_neutral].
  assert (neutral d = true) as Hd by (apply orb_true_iff in Ed as [->%Ascii.eqb_eq| ->%Ascii.eqb_eq]; done).
  eapply neutral_trans; [by apply neutral_one|by apply digits1_neutral].
Qed.

Lemma neutral_passes l r : neutral_rest l r -> exists x, l = x ++ r /\ passes x.
Proof. intros (x & -> & Hx). exists x. split; [done|by apply passes_neutral]. Qed.

(** What a value's own text looks like: an element may hold it, and a container's
    inside too. *)
Definition value_text (x : bytes) : Prop :=
  passes x /\
  forall c x', x = c :: x' -> c = brace \/ c = bracket ->
    exists y e, x' = y ++ [e] /\ (e = "}"%char \/ e = "]"%char) /\ passes y.

Definition passes_to (l : bytes) (close : ascii) (r : bytes) : Prop := exists x, l = x ++ close :: r /\ passes x.

Lemma value_text_plain x : (forall c x', x = c :: x' -> c <> brace /\ c <> bracket) -> passes x -> value_text x.
Proof. intros H Hx. split; [done|]. intros c x' -> [-> | ->]; by destruct (H _ _ eq_refl). Qed.

Lemma value_text_container o x c :
  o = brace \/ o = bracket -> c = "}"%char \/ c = "]"%char -> passes x -> value_text (o :: x ++ [c]).
Proof.
  intros Ho Hc Hx. split; [by apply passes_container|]. intros ? ? [= <- <-] _. by exists x, c.
Qed.

Lemma literal_text w t l v r : literal w t l = Some (v, r) -> forallb neutral (to_bytes w) = true ->
  exists x, l = x ++ r /\ value_text x.
Proof.
  unfold literal. destruct (is_prefix (to_bytes w) l) eqn:E; [|done]. intros [= _ <-] Hw.
  apply is_prefix_spec in E as [k ->]. rewrite drop_app_length. exists (to_bytes w). split; [done|].

  assert (Hall : Forall (fun c => neutral c = true) (to_bytes w)).
  { apply Forall_forall. intros c Hc. rewrite forallb_forall in Hw. by apply Hw, list_elem_of_In. }
  apply value_text_plain; [|by apply passes_neutral].
  intros c x' Ex. rewrite Ex in Hall. apply Forall_inv in Hall. split; intros ->; discriminate Hall.
Qed.

(** An empty container's inside is white space. *)
Lemma skip_ws_passes l d r : skip_ws l = d :: r -> passes_to l d r.
Proof.
  intros H. destruct (skip_ws_split l) as (ws & Hl & Hw). rewrite H in Hl. exists ws.
  split; [done|by apply passes_neutral].
Qed.

Lemma passes_to_ws l l' c r : skip_ws l = l' -> passes_to l' c r -> passes_to l c r.
Proof.
  intros <- (x & Hx & Hp). destruct (skip_ws_split l) as (ws & Hl & Hw). exists (ws ++ x).
  split; [by rewrite Hl, Hx, app_assoc|]. apply passes_app; [by apply passes_neutral|done].
Qed.

Lemma passes_to_after x l c r : passes x -> passes_to l c r -> passes_to (x ++ l) c r.
Proof. intros Hx (y & -> & Hy). exists (x ++ y). rewrite <-app_assoc. split; [done|by apply passes_app]. Qed.

Lemma passes_to_here c r : passes_to (c :: r) c r.
Proof. exists []. split; [done|apply passes_nil]. Qed.

(** What the three parsers read, by the fuel they have. *)
Definition value_texts (k : nat) : Prop :=
  forall d l t r, parse_value k d l = Some (t, r) -> exists x, skip_ws l = x ++ r /\ value_text x.
Definition elements_texts (k : nat) : Prop :=
  forall d l ts r, parse_elements k d l = Some (ts, r) -> passes_to l "]" r.
Definition members_texts (k : nat) : Prop :=
  forall d l fs r, parse_members k d l = Some (fs, r) -> passes_to l "}" r.

Lemma value_texts_passes k : value_texts k ->
  forall d l t q, parse_value k d l = Some (t, q) -> exists x, l = x ++ q /\ passes x.
Proof.
  intros IHv d l t q H. destruct (IHv _ _ _ _ H) as (x & Hx & Hp & _). destruct (skip_ws_split l) as (ws & Hl & Hw).
  exists (ws ++ x). split; [by rewrite Hl at 1; rewrite Hx, app_assoc|]. apply passes_app; [by apply passes_neutral|done].
Qed.

Lemma value_texts_S k : elements_texts k -> members_texts k -> value_texts (S k).
Proof.
  intros IHe IHm d l t r.
  cbn [parse_value]. destruct (skip_ws l) as [|c l'] eqn:El; [done|].
  destruct (Ascii.eqb_spec c (byte_of 34)) as [->|Hq].
  { destruct (scan_string l') as [[x s]|] eqn:E; [|done]. intros [= _ <-].
    destruct (scan_string_run _ _ _ E) as [-> Hx]. exists (dquote :: x ++ [dquote]).
    split; [by simpl; rewrite <-app_assoc|]. by apply value_text_plain; [intros ? ? [= <- _]|apply passes_string]. }
  destruct (Ascii.eqb_spec c "{") as [->|Hb].
  { destruct (maxNestingDepth <=? d); [done|]. destruct (skip_ws l') as [|e s] eqn:El'; [done|].
    assert (Hc : forall q, passes_to l' "}" q -> exists x, "{"%char :: l' = x ++ q /\ value_text x).
    { intros q (x & -> & Hx). exists ("{"%char :: x ++ ["}"%char]). split; [by simpl; rewrite <-app_assoc|].
      apply value_text_container; [by left|by left|done]. }
    destruct (Ascii.eqb_spec e "}") as [->|_]; [intros [= _ <-]; by apply Hc, skip_ws_passes|].
    destruct (parse_members k (S d) (e :: s)) as [[fs q]|] eqn:E; [|done]. intros [= _ <-].
    by apply Hc, (passes_to_ws _ _ _ _ El'), (IHm _ _ _ _ E). }
  destruct (Ascii.eqb_spec c "[") as [->|Hb2].
  { destruct (maxNestingDepth <=? d); [done|]. destruct (skip_ws l') as [|e s] eqn:El'; [done|].
    assert (Hc : forall q, passes_to l' "]" q -> exists x, "["%char :: l' = x ++ q /\ value_text x).
    { intros q (x & -> & Hx). exists ("["%char :: x ++ ["]"%char]). split; [by simpl; rewrite <-app_assoc|].
      apply value_text_container; [by right|by right|done]. }
    destruct (Ascii.eqb_spec e "]") as [->|_]; [intros [= _ <-]; by apply Hc, skip_ws_passes|].
    destruct (parse_elements k (S d) (e :: s)) as [[fs q]|] eqn:E; [|done]. intros [= _ <-].
    by apply Hc, (passes_to_ws _ _ _ _ El'), (IHe _ _ _ _ E). }
  destruct (Ascii.eqb c "t"); [intros H; by apply (literal_text _ _ _ _ _ H)|].
  destruct (Ascii.eqb c "f"); [intros H; by apply (literal_text _ _ _ _ _ H)|].
  destruct (Ascii.eqb c "n"); [intros H; by apply (literal_text _ _ _ _ _ H)|].
  destruct (scan_number (c :: l')) as [q|] eqn:E; [|done]. intros [= _ <-].
  destruct (scan_number_neutral _ _ E) as (x & Hx & Hp). exists x. split; [done|].
  apply value_text_plain; [|by apply passes_neutral]. intros a x' ->. apply Forall_inv in Hp. split; intros ->; done.
Qed.

Lemma elements_texts_S k : value_texts k -> elements_texts k -> elements_texts (S k).
Proof.
  intros IHv IHe d l t r. pose proof (value_texts_passes k IHv) as Hval.
  cbn [parse_elements]. destruct (parse_value k d l) as [[v q]|] eqn:E; [|done]. cbn [mbind option_bind].
  destruct (Hval _ _ _ _ E) as (x & -> & Hx). destruct (skip_ws q) as [|c q'] eqn:Eq; [done|].
  intros H. apply passes_to_after; [done|]. apply (passes_to_ws _ _ _ _ Eq).
  destruct (Ascii.eqb_spec c ",") as [->|_].
  + destruct (parse_elements k d q') as [[vs s]|] eqn:E2; [|done]. injection H as _ <-.
    apply (passes_to_after [","%char]); [by apply passes_neutral; repeat constructor|exact (IHe _ _ _ _ E2)].
  + destruct (Ascii.eqb_spec c "]") as [->|_]; [|done]. injection H as _ <-. apply passes_to_here.
Qed.

Lemma members_texts_S k : value_texts k -> members_texts k -> members_texts (S k).
Proof.
  intros IHv IHm d l t r. pose proof (value_texts_passes k IHv) as Hval.
  cbn [parse_members]. destruct (skip_ws l) as [|c l'] eqn:El; [done|].
  destruct (Ascii.eqb_spec c (byte_of 34)) as [->|_]; [|done]. cbn [negb].
  destruct (scan_string l') as [[x s]|] eqn:Es; [|done]. cbn [mbind option_bind].
  destruct (scan_string_run _ _ _ Es) as [-> Hx]. destruct (skip_ws s) as [|e s'] eqn:Ess; [done|].
  destruct (Ascii.eqb_spec e ":") as [->|_]; [|done]. cbn [negb].
  destruct (parse_value k d s') as [[v q]|] eqn:E; [|done]. cbn [mbind option_bind].
  destruct (Hval _ _ _ _ E) as (y & -> & Hy). destruct (skip_ws q) as [|g q'] eqn:Eq; [done|].
  intros H. apply (passes_to_ws _ _ _ _ El). change (byte_of 34) with dquote.
  replace (dquote :: x ++ dquote :: s) with ((dquote :: x ++ [dquote]) ++ s) by (by simpl; rewrite <-app_assoc).
  apply passes_to_after; [by apply passes_string|]. apply (passes_to_ws _ _ _ _ Ess).
  apply (passes_to_after [":"%char]); [by apply passes_neutral; repeat constructor|].
  apply passes_to_after; [done|]. apply (passes_to_ws _ _ _ _ Eq).
  destruct (Ascii.eqb_spec g ",") as [->|_].
  + destruct (parse_members k d q') as [[vs w]|] eqn:E2; [|done]. injection H as _ <-.
    apply (passes_to_after [","%char]); [by apply passes_neutral; repeat constructor|exact (IHm _ _ _ _ E2)].
  + destruct (Ascii.eqb_spec g "}") as [->|_]; [|done]. injection H as _ <-. apply passes_to_here.
Qed.

Lemma parse_texts k : value_texts k /\ elements_texts k /\ members_texts k.
Proof.
  induction k as [|k (IHv & IHe & IHm)]; [done|].
  split_and!; [by apply value_texts_S|by apply elements_texts_S|by apply members_texts_S].
Qed.

(** The text of one complete object or array, with nothing around it. *)
Definition container_text (x : bytes) : Prop :=
  (exists t, DecodeNext x = Some (t, [])) /\ exists c x', x = c :: x' /\ (c = brace \/ c = bracket).

Lemma container_text_valid x : container_text x -> JsonDecode.Valid x = true.
Proof.
  intros [[t Ht] _]. unfold JsonDecode.Valid, Parse. apply bool_decide_eq_true. rewrite Ht. by eexists.
Qed.

Definition between_elems (o : list bytes) : recovery := Recovery o 1 None false false.

(** A container read between elements becomes one. *)
Lemma element_run o x : container_text x -> recover_run (between_elems o) x = inr (between_elems (o ++ [x])).
Proof.
  intros Hc. pose proof (container_text_valid x Hc) as Hv. destruct Hc as [[t Ht] (c & x' & -> & Hc)].
  destruct (proj1 (parse_texts _) _ _ _ _ Ht) as (z & Hz & _ & Hcon). rewrite app_nil_r in Hz.
  assert (skip_ws (c :: x') = c :: x') as Hws by (destruct Hc as [-> | ->]; done). rewrite Hws in Hz. subst z.
  destruct (Hcon c x' eq_refl Hc) as (y & e & -> & He & Hy). clear Hcon Ht Hws.
  change (c :: y ++ [e]) with ([c] ++ y ++ [e]) in *. rewrite (recover_run_app _ [c]).
  assert (recover_run (between_elems o) [c] = inr (inside_elem o 2 [c] false)) as -> by (by destruct Hc as [-> | ->]).
  rewrite recover_run_app, Hy by lia. cbn [recover_run]. unfold recover_step.
  cbn [inStr elem depth rec_out esc inside_elem fmap option_fmap option_map]. rewrite <-app_assoc.
  replace (2 - 1)%Z with 1%Z by lia. change (1 =? 1)%Z with true. cbv iota. rewrite Hv.
  by destruct He as [-> | ->].
Qed.

Lemma gap_run o g : Forall (fun c => neutral c = true) g -> recover_run (between_elems o) g = inr (between_elems o).
Proof.
  induction 1 as [|c g Hc _ IH]; [done|]. cbn [recover_run]. by rewrite neutral_step.
Qed.

(** What a run adds to the output is no longer than what it has read. *)
Definition elem_bound (n : nat) (st : recovery) : Prop := forall e, elem st = Some e -> length e <= n.

Lemma recover_step_bound n st c st' : elem_bound n st -> recover_step st c = inr st' ->
  elem_bound (S n) st' /\ exists k, rec_out st' = rec_out st ++ k /\ Forall (fun x => length x <= S n) k.
Proof.
  intros Hb. assert (Hel : forall e, (fun x => x ++ [c]) <$> elem st = Some e -> length e <= S n).
  { intros e He. destruct (elem st) as [x|] eqn:E; [|done]. injection He as <-. rewrite length_app. simpl.
    specialize (Hb x E). lia. }
  assert (Hsame : forall s d b1 b2 o, o = rec_out st -> s = (fun x => x ++ [c]) <$> elem st ->
    elem_bound (S n) (Recovery o d s b1 b2) /\ exists k, o = rec_out st ++ k /\ Forall (fun x => length x <= S n) k).
  { intros s d b1 b2 o -> ->. split; [exact Hel|]. exists []. by rewrite app_nil_r. }
  unfold recover_step. intros H. destruct (inStr st).
  { destruct (esc st); [|destruct (Ascii.eqb c "\"); [|destruct (Ascii.eqb c dquote)]]; injection H as <-; by apply Hsame. }
  destruct (Ascii.eqb c dquote); [injection H as <-; by apply Hsame|].
  destruct (Ascii.eqb c brace || Ascii.eqb c bracket).
  { destruct (_ =? 2)%Z; injection H as <-; [|by apply Hsame]. split; [|exists []; by rewrite app_nil_r].
    intros e [= <-]. simpl. lia. }
  destruct (Ascii.eqb c "}" || Ascii.eqb c "]"); [|injection H as <-; by apply Hsame].
  destruct (_ =? 1)%Z eqn:Ed.
  - destruct ((fun x => x ++ [c]) <$> elem st) as [x|] eqn:Ex.
    + destruct (negb _); [done|]. injection H as <-. split; [done|]. exists [x]. split; [done|].
      constructor; [by apply Hel|constructor].
    + destruct (_ <=? 0)%Z; [done|]. injection H as <-. by apply Hsame.
  - destruct (_ <=? 0)%Z; [done|]. injection H as <-. by apply Hsame.
Qed.

Lemma recover_run_bound n st l st' : elem_bound n st -> recover_run st l = inr st' ->
  exists k, rec_out st' = rec_out st ++ k /\ Forall (fun x => length x <= n + length l) k.
Proof.
  revert n st. induction l as [|c l IH]; intros n st Hb H.
  - injection H as <-. exists []. by rewrite app_nil_r.
  - cbn [recover_run] in H. destruct (recover_step st c) as [|st1] eqn:E; [done|].
    destruct (recover_step_bound n st c st1 Hb E) as [Hb1 (k1 & Hk1 & Hl1)].
    destruct (IH (S n) st1 Hb1 H) as (k2 & -> & Hl2). exists (k1 ++ k2). rewrite Hk1, app_assoc. split; [done|].
    apply Forall_app. split; (eapply Forall_impl; [eassumption|]); simpl; lia.
Qed.

(** A container that is cut off adds nothing. *)
Lemma cut_run o y p q : container_text y -> y = p ++ q -> q <> [] ->
  recover_loop (between_elems o) p = o.
Proof.
  intros Hy -> Hq. pose proof (element_run o _ Hy) as Hrun. rewrite recover_run_app in Hrun. rewrite recover_loop_run.
  destruct (recover_run (between_elems o) p) as [|st] eqn:E; [done|].
  assert (Hb : elem_bound 0 (between_elems o)) by done.
  destruct (recover_run_bound 0 _ p st Hb E) as (k1 & Hk1 & Hl1).
  assert (exists m, elem_bound m st) as [m Hm].
  { destruct (elem st) as [e|] eqn:Ee; [exists (length e)|exists 0]; intros e' He'; by simplify_eq. }
  destruct (recover_run_bound m st q _ Hm Hrun) as (k2 & Hk2 & _). simpl in Hk1, Hk2. rewrite Hk1, <-app_assoc in Hk2.
  apply app_inv_head in Hk2. destruct k1 as [|x k1]; [by rewrite Hk1, app_nil_r|]. exfalso.
  injection Hk2 as Hx _. apply Forall_inv in Hl1. rewrite <-Hx, length_app in Hl1. destruct q; [done|simpl in Hl1; lia].
Qed.

(** An array's elements, each after the bytes that separate it from the last. *)
Definition chunks_text (chunks : list (bytes * bytes)) : bytes := mjoin ((fun ch => ch.1 ++ ch.2) <$> chunks).

Definition chunks_ok (chunks : list (bytes * bytes)) : Prop :=
  Forall (fun ch => Forall (fun c => neutral c = true) ch.1 /\ container_text ch.2) chunks.

Lemma chunks_run o chunks : chunks_ok chunks ->
  recover_run (between_elems o) (chunks_text chunks) = inr (between_elems (o ++ chunks.*2)).
Proof.
  intros H. revert o. induction H as [|[g x] chunks [Hg Hx] _ IH]; intros o; [by rewrite app_nil_r|].
  unfold chunks_text. rewrite fmap_cons. cbn [mjoin list_join fst snd]. rewrite <-app_assoc, recover_run_app, gap_run by done.
  rewrite recover_run_app, element_run by done. fold (chunks_text chunks). rewrite IH. by rewrite fmap_cons, <-app_assoc.
Qed.

(** A reply cut off inside a finding keeps every finding before it: whatever
    objects or arrays an array holds, in whatever separators, and wherever in the
    next element the text ends, [recoverElements] answers exactly the elements
    complete by then, in order. An array that does close gives all its elements,
    whatever follows it. *)
Theorem recoverElements_cut (chunks : list (bytes * bytes)) (gap y p q rest : bytes) :
  chunks_ok chunks -> Forall (fun c => neutral c = true) gap -> container_text y -> y = p ++ q -> q <> [] ->
  recoverElements (bracket :: chunks_text chunks ++ gap ++ p) = chunks.*2 /\
  recoverElements (bracket :: chunks_text chunks ++ gap ++ "]"%char :: rest) = chunks.*2.
Proof.
  intros Hch Hgap Hy Hpq Hq.
  assert (Hstart : forall l, recoverElements (bracket :: l) = recover_loop (between_elems []) l) by done.
  assert (Hrun : forall l, recover_loop (between_elems []) (chunks_text chunks ++ gap ++ l) =
    recover_loop (between_elems chunks.*2) l).
  { intros l. rewrite !recover_loop_run, recover_run_app, chunks_run by done. rewrite recover_run_app, gap_run by done. done. }
  rewrite !Hstart, !Hrun. split; [by eapply cut_run|]. done.
Qed.

Definition sample_element : bytes := quoted "{^severity^: ^HIGH^, ^fix^: ^use ] not }^}".

Lemma recoverElements_cut_witness :
  recoverElements (bracket :: chunks_text [([], sample_element)] ++ quoted ", " ++ take 30 sample_element) = [sample_element] /\
  recoverElements (bracket :: chunks_text [([], sample_element)] ++ quoted ", " ++ "]"%char :: quoted "bye") = [sample_element].
Proof.
  assert (Hc : container_text sample_element).
  { split; [by eexists; vm_compute|]. eexists _, _. split; [by vm_compute|by left]. }
  apply (recoverElements_cut [([], sample_element)] (quoted ", ") sample_element (take 30 sample_element)
    (drop 30 sample_element) (quoted "bye")).
  - constructor; [split; [constructor|exact Hc]|constructor].
  - repeat (apply Forall_cons; split; [by vm_compute|]). constructor.
  - exact Hc.
  - by rewrite take_drop.
  - intros H. by apply (f_equal length) in H; vm_compute in H.
Defined.

(** A reply whose findings sit under a key it later empties is called clean, and the
    same reply with a fence line inside it is called clean although a finding is
    read from it. *)
Example IsNoFindings_duplicate_key :
  let U := ascii_case in
  let a := of_bytes (quoted "{^findings^:[{^severity^:^HIGH^,^file_line^:^a.go:3^,^problem^:^p^}],") in
  let b := of_bytes (quoted "^findings^:[]}") in
  let fence := "```" +:+ LF in
  IsNoFindings (a +:+ LF +:+ b) = true /\ ParseModelOutput (a +:+ LF +:+ b) = Some [] /\
  IsNoFindings (a +:+ LF +:+ fence +:+ b) = true /\
  (length <$> ParseModelOutput (a +:+ LF +:+ fence +:+ b)) = Some 1.
Proof. by vm_compute. Qed.
