(* ===== verification/FindingsV2.v ===== *)
(** * The v2 findings file

    src/internal/stream/v2.go: the writer's bound check, the body of a v2 document
    (a TOON table or go-axi's JSON envelope), the rule that a findings.toon must
    carry the v2 header, and which of the two findings files a directory's readers
    parse. go-axi's table codec is the class [GoAxi]. *)

From Stdlib Require Import Ascii String.
From stdpp Require Import prelude strings gmap list pretty.
From Stdlib Require Import ZArith Lia.
From S2P Require Import Prelude GoString GoStrconv GoJson JsonDecode JsonRoundtrip Finding JsonRepair Stream ModelOutput.

Open Scope string_scope.
Open Scope list_scope.
Open Scope nat_scope.

(** [v2Row] *)
Record v2Row := mkV2Row {
  v2_Severity : string;
  v2_FileLine : string;
  v2_Problem : string;
  v2_Fix : string;
  v2_Category : string;
  v2_EstMinutes : Z;
  v2_Evidence : string;
  v2_Reviewer : string;
}.

(** What [goaxi.DecodeTabular] answers: the table's name, its columns, its rows by
    column and the row count its header declares. *)
Record TabularDoc := mkTabularDoc {
  doc_Name : string;
  doc_Fields : list string;
  doc_Rows : list (gmap string string);
  doc_Declared : Z;
}.

(** github.com/samestrin/go-axi: [None] is an error. *)
Class GoAxi := {
  DecodeTabular : string -> option TabularDoc;
  EncodeOrJSON : list v2Row -> option string;
}.

(** ** Writing *)

Definition row_of_finding (f : Finding) : v2Row :=
  mkV2Row (Severity f) (File f +:+ ":" +:+ Itoa (Line f)) (Problem f) (Fix f) (Category f) (EstMinutes f)
    (Evidence f) (Reviewer f).

Inductive WriteError := EstTooLarge (f : Finding) | EncodeError.

Definition WriteSourceV2 {A : GoAxi} (findings : list Finding) : WriteError + string :=
  match filter (fun f => (maxModelEstMinutes < EstMinutes f)%Z) findings with
  | f :: _ => inl (EstTooLarge f)
  | [] => match EncodeOrJSON (row_of_finding <$> findings) with
          | Some body => inr (VersionV2 +:+ LF +:+ body)
          | None => inl EncodeError
          end
  end.

(** ** Reading *)

Inductive ValueError := BadSeverity (s : string) | EmptyFileLine | EmptyReviewer.

Inductive BodyError :=
  | TableSyntax
  | TableName (name : string)
  | MissingColumn (col : string)
  | RowCount (declared : Z) (found : nat)
  | RowValue (row : nat) (e : ValueError)
  | RowEst (row : nat) (text : string)
  | EnvelopeSyntax
  | TrailingData
  | KeyCase
  | EnvelopeType
  | FindingsOutside
  | BadFormat (format : string)
  | MissingFindings
  | DataType
  | RowMissingKey (row : nat) (key : string)
  | RowKeyCase (row : nat)
  | RowType (row : nat).

(** The toon tags of [v2Row], in field order. *)
Definition v2TableColumns : list string :=
  ["severity"; "file_line"; "problem"; "fix"; "category"; "est_minutes"; "evidence"; "reviewer"].

Definition checkV2Values (severity fileLine reviewer : string) : option ValueError :=
  if negb (bool_decide (is_Some (SeverityRank !! severity))) then Some (BadSeverity severity)
  else if (TrimSpace fileLine =? "")%string then Some EmptyFileLine
  else if (TrimSpace reviewer =? "")%string then Some EmptyReviewer
  else None.

(** A key equal to one of [want] but for its case. *)
Definition case_clash (want : list string) (k : string) : bool :=
  existsb (fun w => negb (k =? w)%string && EqualFold k w) want.

(** The keys of a value decoded into a map; [None] is a type error. *)
Definition map_keys (t : jtree) : option (list string) :=
  match t with
  | TObj fs => Some (fs.*1)
  | TNull => Some []
  | _ => None
  end.
Definition checkExactKeys (t : jtree) (want : list string) : bool :=
  match map_keys t with
  | Some ks => negb (existsb (case_clash want) ks)
  | None => false
  end.

(** [diskInt.UnmarshalJSON] *)
Definition dec_diskInt : decoder Z := fun old t =>
  match t with
  | TNull => Some old
  | _ => match number_text t with
         | Some num => Atoi num
         | None => match t with TStr s => Atoi (TrimSpace s) | _ => None end
         end
  end.

(** [v2EnvelopeRow] is the row of the table with a strict estimate. *)
Definition zero_v2Row : v2Row := mkV2Row "" "" "" "" "" 0 "" "".
Definition v2Row_fields : list (string * decoder v2Row) :=
  [field "severity" v2_Severity (fun x r => mkV2Row x (v2_FileLine r) (v2_Problem r) (v2_Fix r) (v2_Category r) (v2_EstMinutes r) (v2_Evidence r) (v2_Reviewer r)) dec_string;
   field "file_line" v2_FileLine (fun x r => mkV2Row (v2_Severity r) x (v2_Problem r) (v2_Fix r) (v2_Category r) (v2_EstMinutes r) (v2_Evidence r) (v2_Reviewer r)) dec_string;
   field "problem" v2_Problem (fun x r => mkV2Row (v2_Severity r) (v2_FileLine r) x (v2_Fix r) (v2_Category r) (v2_EstMinutes r) (v2_Evidence r) (v2_Reviewer r)) dec_string;
   field "fix" v2_Fix (fun x r => mkV2Row (v2_Severity r) (v2_FileLine r) (v2_Problem r) x (v2_Category r) (v2_EstMinutes r) (v2_Evidence r) (v2_Reviewer r)) dec_string;
   field "category" v2_Category (fun x r => mkV2Row (v2_Severity r) (v2_FileLine r) (v2_Problem r) (v2_Fix r) x (v2_EstMinutes r) (v2_Evidence r) (v2_Reviewer r)) dec_string;
   field "est_minutes" v2_EstMinutes (fun x r => mkV2Row (v2_Severity r) (v2_FileLine r) (v2_Problem r) (v2_Fix r) (v2_Category r) x (v2_Evidence r) (v2_Reviewer r)) dec_diskInt;
   field "evidence" v2_Evidence (fun x r => mkV2Row (v2_Severity r) (v2_FileLine r) (v2_Problem r) (v2_Fix r) (v2_Category r) (v2_EstMinutes r) x (v2_Reviewer r)) dec_string;
   field "reviewer" v2_Reviewer (fun x r => mkV2Row (v2_Severity r) (v2_FileLine r) (v2_Problem r) (v2_Fix r) (v2_Category r) (v2_EstMinutes r) (v2_Evidence r) x) dec_string].

(** The errors of one row of the envelope. *)
Definition decodeV2EnvelopeRow (i : nat) (raw : jtree) : BodyError + v2Row :=
  match map_keys raw with
  | None => inl (RowType i)
  | Some keys =>
      match filter (fun k => k ∉ keys) v2TableColumns with
      | k :: _ => inl (RowMissingKey i k)
      | [] =>
          if existsb (case_clash v2TableColumns) keys then inl (RowKeyCase i)
          else match dec_struct v2Row_fields zero_v2Row raw with
               | Some r => inr r
               | None => inl (RowType i)
               end
      end
  end.

Section read.
Context {U : UnicodeCase}.

Definition finding_of_row (r : v2Row) : Finding :=
  let '(file, line) := splitFileLine (v2_FileLine r) in
  mkFinding (v2_Severity r) file line (v2_Problem r) (v2_Fix r) (v2_Category r) (clampEstMinutes (v2_EstMinutes r))
    (v2_Evidence r) (v2_Reviewer r) [] "" (CanonicalCategory (v2_Category r)).

(** The loop over the rows: the first bad one stops it. *)
Fixpoint read_rows {A} (row : nat -> A -> BodyError + v2Row) (i : nat) (rows : list A) : BodyError + list Finding :=
  match rows with
  | [] => inr []
  | x :: rows' =>
      match row i x with
      | inl e => inl e
      | inr r =>
          match read_rows row (S i) rows' with
          | inl e => inl e
          | inr fs => inr (finding_of_row r :: fs)
          end
      end
  end.

Definition envelope_row (i : nat) (raw : jtree) : BodyError + v2Row :=
  match decodeV2EnvelopeRow i raw with
  | inl e => inl e
  | inr r => match checkV2Values (v2_Severity r) (v2_FileLine r) (v2_Reviewer r) with
             | Some e => inl (RowValue i e)
             | None => inr r
             end
  end.

Definition cell (r : gmap string string) (col : string) : string := default "" (r !! col).

Definition table_row (i : nat) (r : gmap string string) : BodyError + v2Row :=
  match checkV2Values (cell r "severity") (cell r "file_line") (cell r "reviewer") with
  | Some e => inl (RowValue i e)
  | None => match Atoi (TrimSpace (cell r "est_minutes")) with
            | None => inl (RowEst i (cell r "est_minutes"))
            | Some est => inr (mkV2Row (cell r "severity") (cell r "file_line") (cell r "problem") (cell r "fix")
                                 (cell r "category") est (cell r "evidence") (cell r "reviewer"))
            end
  end.

(** The envelope's own struct; a [json.RawMessage] is [None] while nil. *)
Record v2Envelope := mkV2Envelope {
  env_Format : string;
  env_Notice : string;
  env_findings : option jtree;
  env_data : option jtree;
}.
Definition v2Envelope_fields : list (string * decoder v2Envelope) :=
  [field "axi_format" env_Format (fun x e => mkV2Envelope x (env_Notice e) (env_findings e) (env_data e)) dec_string;
   field "axi_notice" env_Notice (fun x e => mkV2Envelope (env_Format e) x (env_findings e) (env_data e)) dec_string;
   field "findings" env_findings (fun x e => mkV2Envelope (env_Format e) (env_Notice e) x (env_data e)) (fun _ t => Some (Some t));
   field "data" env_data (fun x e => mkV2Envelope (env_Format e) (env_Notice e) (env_findings e) x) (fun _ t => Some (Some t))].


(** [data.findings], the [findings] pointer of the inner struct. *)
Definition parse_data (data : jtree) : BodyError + list Finding :=
  if negb (checkExactKeys data ["findings"]) then inl KeyCase
  else match dec_struct wrap_fields None data with
       | None => inl DataType
       | Some None => inl MissingFindings
       | Some (Some rows) => read_rows envelope_row 0 rows
       end.

Definition parseV2Envelope (body : string) : BodyError + list Finding :=
  match DecodeNext (to_bytes body) with
  | None => inl EnvelopeSyntax
  | Some (raw, rest) =>
      if negb (bool_decide (skip_ws rest = [])) then inl TrailingData
      else if negb (checkExactKeys raw ["axi_format"; "axi_notice"; "data"; "findings"]) then inl KeyCase
      else match dec_struct v2Envelope_fields (mkV2Envelope "" "" None None) raw with
           | None => inl EnvelopeType
           | Some env =>
               if bool_decide (is_Some (env_findings env)) then inl FindingsOutside
               else if negb (env_Format env =? "json")%string then inl (BadFormat (env_Format env))
               else match env_data env with
                    | None => inl MissingFindings
                    | Some data => parse_data data
                    end
           end
  end.

Context {A : GoAxi}.

Definition parse_table (body : string) : BodyError + list Finding :=
  match DecodeTabular body with
  | None => inl TableSyntax
  | Some doc =>
      if negb (doc_Name doc =? "findings")%string then inl (TableName (doc_Name doc))
      else
        let missing := if (0 <? length (doc_Fields doc)) || (0 <? length (doc_Rows doc))
                       then filter (fun col => col ∉ doc_Fields doc) v2TableColumns else [] in
        match missing with
        | col :: _ => inl (MissingColumn col)
        | [] =>
            if negb (doc_Declared doc =? Z.of_nat (length (doc_Rows doc)))%Z
            then inl (RowCount (doc_Declared doc) (length (doc_Rows doc)))
            else read_rows table_row 0 (doc_Rows doc)
        end
  end.

Definition envelopePrefix : bytes := quoted "{^axi_format".

Definition parseV2Body (body : string) : BodyError + ParseResult :=
  match (if is_prefix envelopePrefix (trim_left_set json_blank (to_bytes body))
         then parseV2Envelope body else parse_table body) with
  | inl e => inl e
  | inr fs => inr (mkParseResult fs [])
  end.

Definition ParseSource (data : string) : ParseError BodyError + ParseResult := parse parseV2Body data PerSourceColumns.

(** ** Which file is read *)

Definition findingsFileV1 : string := "findings.txt".
Definition findingsFileV2 : string := "findings.toon".

Definition firstNonBlankLine (data : string) : string :=
  default "" (head (filter (fun t => t <> "") (TrimSpace <$> Split data LF))).

(** [base] is the file's name in its directory. *)
Definition ParseFindingsFile (base data : string) : ParseError BodyError + ParseResult :=
  if (base =? findingsFileV2)%string && negb (firstNonBlankLine data =? VersionV2)%string
  then inl (ErrUnknownVersion (firstNonBlankLine data))
  else ParseSource data.
End read.

(** [os.Lstat] and the read of a file of the directory, at successive moments. *)
Inductive LstatResult := Missing | LstatError | Irregular | Regular.
Inductive ReadResult := ReadMissing | ReadError | ReadOK (data : string).

(** [regularFindingsFile]: a type error other than absence is [None]. *)
Definition regularFindingsFile (r : LstatResult) : option bool :=
  match r with
  | Missing | Irregular => Some false
  | Regular => Some true
  | LstatError => None
  end.

(** What a selection meets: the state of each file when it is looked at. *)
Record moment := mkMoment { toon : LstatResult; txt : LstatResult }.
Inductive SelectError := NoFile | SelectLstat.

Definition SelectFindingsFile (m : moment) : SelectError + string :=
  match regularFindingsFile (toon m) with
  | None => inl SelectLstat
  | Some true => inr findingsFileV2
  | Some false =>
      match regularFindingsFile (txt m) with
      | None => inl SelectLstat
      | Some true => inr findingsFileV1
      | Some false => inl NoFile
      end
  end.

Inductive PoolError := PoolSelect (e : SelectError) | PoolRead (missing : bool) | PoolParse (file : string) (e : ParseError BodyError).

Section pool.
Context {U : UnicodeCase} {A : GoAxi}.

(** [m1] is what the first selection meets and [r1] what the read of the file it
    chose answers; [m2] and [r2] belong to the selection made again. *)
Definition ReadPoolFindings (m1 m2 : moment) (r1 r2 : string -> ReadResult) : PoolError + ParseResult :=
  match SelectFindingsFile m1 with
  | inl e => inl (PoolSelect e)
  | inr file =>
      let again := match r1 file with ReadMissing => (file =? findingsFileV2)%string | _ => false end in
      match (if again
             then match SelectFindingsFile m2 with inl e => inl (PoolSelect e) | inr f => inr (f, r2 f) end
             else inr (file, r1 file)) with
      | inl e => inl e
      | inr (f, ReadOK data) =>
          match ParseFindingsFile f data with inl e => inl (PoolParse f e) | inr res => inr res end
      | inr (f, ReadMissing) => inl (PoolRead true)
      | inr (f, ReadError) => inl (PoolRead false)
      end
  end.
End pool.

(** ** What a v2 file's findings satisfy *)

Section sound.
Context {U : UnicodeCase}.

(** A finding of an on-disk v2 file: a known severity, a location and a reviewer
    that are not blank, an estimate within the bound, and nothing only the
    reconciler fills. *)
Definition v2_sound (f : Finding) : Prop :=
  Severity f ∈ severities /\ TrimSpace (Reviewer f) <> "" /\
  (exists loc, TrimSpace loc <> "" /\ splitFileLine loc = (File f, Line f)) /\
  (0 <= EstMinutes f <= maxModelEstMinutes)%Z /\ Reviewers f = [] /\ Confidence f = "" /\
  CanonicalCategory_ f = CanonicalCategory (Category f).

Definition row_ok (r : v2Row) : Prop := checkV2Values (v2_Severity r) (v2_FileLine r) (v2_Reviewer r) = None.

Lemma finding_of_row_sound r : row_ok r -> v2_sound (finding_of_row r).
Proof.
  unfold row_ok, checkV2Values, finding_of_row. case_bool_decide as Hs; [|done]. cbn [negb].
  destruct (String.eqb_spec (TrimSpace (v2_FileLine r)) "") as [|Hf]; [done|].
  destruct (String.eqb_spec (TrimSpace (v2_Reviewer r)) "") as [|Hr]; [done|]. intros _.
  destruct (splitFileLine (v2_FileLine r)) as [file line] eqn:E. split_and!; try done;
    [by apply SeverityRank_severities|by exists (v2_FileLine r)|apply clampEstMinutes_bound..].
Qed.

Lemma read_rows_sound {A} (row : nat -> A -> BodyError + v2Row) rows i fs :
  (forall i x r, row i x = inr r -> row_ok r) ->
  read_rows row i rows = inr fs -> Forall v2_sound fs /\ length fs = length rows.
Proof.
  intros Hrow. revert i fs. induction rows as [|x rows IH]; intros i fs; cbn [read_rows]; [by intros [= <-]|].
  destruct (row i x) as [|r] eqn:Er; [done|]. destruct (read_rows row (S i) rows) as [|fs'] eqn:E; [done|].
  intros [= <-]. destruct (IH _ _ E) as [H1 H2]. split; [|by simpl; rewrite H2].
  constructor; [by eapply finding_of_row_sound, Hrow|done].
Qed.

Lemma envelope_row_ok i raw r : envelope_row i raw = inr r -> row_ok r.
Proof.
  unfold envelope_row, row_ok. destruct (decodeV2EnvelopeRow i raw) as [|r']; [done|].
  destruct (checkV2Values _ _ _) eqn:E; [done|]. by intros [= <-].
Qed.

Lemma table_row_ok i cells r : table_row i cells = inr r -> row_ok r.
Proof.
  unfold table_row, row_ok. destruct (checkV2Values _ _ _) eqn:E; [done|].
  destruct (Atoi _); [|done]. by intros [= <-].
Qed.

Lemma parseV2Envelope_sound body fs : parseV2Envelope body = inr fs -> Forall v2_sound fs.
Proof.
  unfold parseV2Envelope. destruct (DecodeNext _) as [[raw rest]|]; [|done].
  destruct (negb _); [done|]. destruct (negb _); [done|]. destruct (dec_struct _ _ raw) as [env|]; [|done].
  case_bool_decide; [done|]. destruct (negb _); [done|]. destruct (env_data env) as [data|]; [|done].
  unfold parse_data. destruct (negb _); [done|]. destruct (dec_struct _ _ data) as [[rows|]|]; [|done..].
  intros Hr. eapply read_rows_sound; [apply envelope_row_ok|exact Hr].
Qed.

Context {A : GoAxi}.

Lemma parse_table_sound body fs : parse_table body = inr fs ->
  Forall v2_sound fs /\ exists doc, DecodeTabular body = Some doc /\ doc_Name doc = "findings" /\
    Z.of_nat (length fs) = doc_Declared doc.
Proof.
  unfold parse_table. destruct (DecodeTabular body) as [doc|]; [|done].
  destruct (String.eqb_spec (doc_Name doc) "findings") as [Hn|]; [|done]. cbn [negb].
  match goal with |- context [match ?m with [] => _ | _ => _ end] => destruct m end; [|done].
  destruct (Z.eqb_spec (doc_Declared doc) (Z.of_nat (length (doc_Rows doc)))) as [Hd|]; [|done]. cbn [negb].
  intros H. apply read_rows_sound in H as [Hs Hl]; [|apply table_row_ok].
  split; [done|]. exists doc. by rewrite Hl.
Qed.

Lemma parseV2Body_sound body res : parseV2Body body = inr res -> Forall v2_sound (Findings res) /\ Skipped res = [].
Proof.
  unfold parseV2Body. destruct (is_prefix _ _).
  - destruct (parseV2Envelope body) as [|fs] eqn:E; [done|]. intros [= <-].
    split; [by eapply parseV2Envelope_sound|done].
  - destruct (parse_table body) as [|fs] eqn:E; [done|]. intros [= <-].
    split; [by eapply parse_table_sound|done].
Qed.

End sound.

(** ** A trailing carriage return is white space *)

Definition cr : ascii := byte_of 13.

(** Whether a space's encoding is free of it. *)
Lemma spaces_cr p : p ∈ spaces -> p = [cr] \/ cr ∉ p.
Proof.
  intros Hp. assert (Forall (fun p => p = [cr] \/ cr ∉ p) spaces) as H; [|by rewrite Forall_forall in H; apply H].
  apply (bool_decide_eq_true_1 _). by vm_compute.
Qed.

Lemma is_prefix_snoc_cr p l : p ∈ spaces -> l <> [] -> is_prefix p (l ++ [cr]) = is_prefix p l.
Proof.
  intros Hp Hl. apply eq_bool_prop_intro. split.
  - intros [H|(b & q & Hpq & H)]%Is_true_true%is_prefix_app_cases; apply Is_true_true; [done|].
    exfalso. cbn [is_prefix] in H. apply andb_true_iff in H as [Hb%Ascii.eqb_eq Hq].
    destruct (spaces_cr p Hp) as [E|E].
    + rewrite E in Hpq. destruct l as [|c [|d l]]; simplify_eq/=.
    + apply E. rewrite Hpq. apply elem_of_app. right. rewrite Hb. left.
  - intros H%Is_true_true%is_prefix_spec. destruct H as [k ->]. apply Is_true_true, is_prefix_spec.
    exists (k ++ [cr]). by rewrite <- app_assoc.
Qed.

Lemma strip_any_snoc_cr ps l : (forall p, p ∈ ps -> p ∈ spaces) -> l <> [] ->
  strip_any ps (l ++ [cr]) = (.++ [cr]) <$> strip_any ps l.
Proof.
  intros Hps Hl. induction ps as [|p ps IH]; [done|]. cbn [strip_any].
  rewrite is_prefix_snoc_cr; [|apply Hps; left|done]. destruct (is_prefix p l) eqn:E.
  - apply is_prefix_spec in E as [k ->]. by rewrite <- app_assoc, !drop_app_length.
  - apply IH. intros q Hq. apply Hps. by right.
Qed.

Lemma trim_front_snoc_cr n l : length l < n ->
  trim_front n spaces (l ++ [cr]) =
  (if trim_front n spaces l is [] then [] else trim_front n spaces l ++ [cr]).
Proof.
  revert l. induction n as [|n IH]; intros l Hn; [lia|]. destruct l as [|c l]; [by destruct n|].
  cbn [trim_front]. rewrite strip_any_snoc_cr by done. destruct (strip_any spaces (c :: l)) as [l'|] eqn:E; [|done].
  cbn [fmap option_fmap option_map]. apply strip_any_Some in E as (p & Hp & E). apply IH.
  apply (f_equal length) in E. rewrite length_app in E. pose proof spaces_nonempty as Hne.
  rewrite Forall_forall in Hne. specialize (Hne p Hp). destruct p; simpl in *; [done|lia].
Qed.

Lemma trim_front_fuel n m l : length l <= n -> length l <= m -> trim_front n spaces l = trim_front m spaces l.
Proof.
  revert m l. induction n as [|n IH]; intros m l Hn Hm.
  - destruct l; [|simpl in Hn; lia]. by destruct m.
  - destruct m as [|m]; [destruct l; [done|simpl in Hm; lia]|]. cbn [trim_front].
    destruct (strip_any spaces l) as [l'|] eqn:E; [|done]. apply strip_any_Some in E as (p & Hp & ->).
    pose proof spaces_nonempty as Hne. rewrite Forall_forall in Hne. specialize (Hne p Hp).
    rewrite length_app in Hn, Hm. apply IH; destruct p; simpl in *; done || lia.
Qed.

Lemma trim_snoc_cr l : trim_right (trim_left (l ++ [cr])) = trim_right (trim_left l).
Proof.
  unfold trim_left. rewrite length_app, trim_front_snoc_cr by (simpl; lia).
  rewrite (trim_front_fuel (length l + length [cr]) (length l)) by (simpl; lia).
  destruct (trim_front (length l) spaces l) as [|c m]; [done|]. unfold trim_right.
  rewrite length_app, Nat.add_comm, reverse_app. cbn [length Nat.add trim_front]. done.
Qed.

Lemma TrimSpace_TrimRightCR s : TrimSpace (TrimRightCR s) = TrimSpace s.
Proof.
  unfold TrimSpace, TrimRightCR. rewrite list_ascii_of_string_of_list_ascii. f_equal.
  rewrite <- (reverse_involutive (to_bytes s)) at 2. generalize (reverse (to_bytes s)). intros l.
  induction l as [|c l IH]; [done|]. cbn [trim_cr]. destruct (Ascii.eqb_spec c (byte_of 13)) as [->|]; [|done].
  rewrite IH. by rewrite reverse_cons, trim_snoc_cr.
Qed.

(** ** The files a directory's readers parse *)

Section files.
Context {U : UnicodeCase} {A : GoAxi}.

(** Under a v2 header the answer is the body's. *)
Lemma parse_header_v2 lines i :
  default "" (head (filter (fun t => t <> "") (TrimSpace <$> lines))) = VersionV2 ->
  exists rest, parse_header parseV2Body PerSourceColumns i lines =
    match parseV2Body (Join rest LF) with inl e => inl (V2Error e) | inr res => inr res end.
Proof.
  revert i. induction lines as [|raw lines IH]; intros i; [done|]. cbn [parse_header].
  rewrite TrimSpace_TrimRightCR, fmap_cons.
  destruct (String.eqb_spec (TrimSpace raw) "") as [E|E].
  - rewrite filter_cons_False by (by intros ?). apply IH.
  - rewrite filter_cons_True by done. intros Hv. change (TrimSpace raw = VersionV2) in Hv. rewrite Hv. by exists lines.
Qed.

Lemma ParseFindingsFile_v2 data res : ParseFindingsFile findingsFileV2 data = inr res ->
  exists body, parseV2Body body = inr res.
Proof.
  unfold ParseFindingsFile. change (findingsFileV2 =? findingsFileV2)%string with true. cbn [andb].
  destruct (String.eqb_spec (firstNonBlankLine data) VersionV2) as [E|]; [|done]. cbn [negb].
  unfold ParseSource, parse. destruct (parse_header_v2 (Split data LF) 0 E) as [rest ->].
  destruct (parseV2Body (Join rest LF)) as [|res'] eqn:Eb; [done|]. intros [= <-]. by exists (Join rest LF).
Qed.

(** A pool that holds a regular findings.toon is read from it or not at all: an
    answer then comes from the v2 body of that file's own bytes, under a v2 header,
    with no row skipped and every finding sound. findings.txt answers only after
    findings.toon had gone when it was opened and was still no regular file when
    the directory was looked at again. *)
Theorem ReadPoolFindings_toon (m1 m2 : moment) (r1 r2 : string -> ReadResult) (res : ParseResult) :
  toon m1 = Regular -> ReadPoolFindings m1 m2 r1 r2 = inr res ->
  (exists data, (r1 findingsFileV2 = ReadOK data \/
                 r1 findingsFileV2 = ReadMissing /\ toon m2 = Regular /\ r2 findingsFileV2 = ReadOK data) /\
     firstNonBlankLine data = VersionV2 /\ Forall v2_sound (Findings res) /\ Skipped res = []) \/
  (r1 findingsFileV2 = ReadMissing /\ (toon m2 = Missing \/ toon m2 = Irregular) /\ txt m2 = Regular /\
     exists data, r2 findingsFileV1 = ReadOK data /\ ParseSource data = inr res).
Proof.
  assert (forall data, ParseFindingsFile findingsFileV2 data = inr res ->
    firstNonBlankLine data = VersionV2 /\ Forall v2_sound (Findings res) /\ Skipped res = []) as Hsound.
  { intros data H. split; [|apply ParseFindingsFile_v2 in H as [body H]; by eapply parseV2Body_sound].
    unfold ParseFindingsFile in H. change (findingsFileV2 =? findingsFileV2)%string with true in H.
    by destruct (String.eqb_spec (firstNonBlankLine data) VersionV2). }
  intros Ht. unfold ReadPoolFindings, SelectFindingsFile at 1. rewrite Ht. cbn [regularFindingsFile].
  destruct (r1 findingsFileV2) as [| |data] eqn:E1; [|done|].
  - change (findingsFileV2 =? findingsFileV2)%string with true. cbv iota. unfold SelectFindingsFile.
    destruct (toon m2) eqn:E2; cbn [regularFindingsFile]; [|done| |].
    1, 2: destruct (txt m2) eqn:Ex; cbn [regularFindingsFile]; try done;
      destruct (r2 findingsFileV1) as [| |data] eqn:Er; try done;
      destruct (ParseFindingsFile findingsFileV1 data) as [|res'] eqn:Ep; [done|]; intros [= <-];
      right; split_and!; auto; by exists data.
    destruct (r2 findingsFileV2) as [| |data] eqn:Er; [done..|].
    destruct (ParseFindingsFile findingsFileV2 data) as [|res'] eqn:Ep; [done|]. intros [= <-].
    left. exists data. split; [by right|by apply Hsound].
  - destruct (ParseFindingsFile findingsFileV2 data) as [|res'] eqn:Ep; [done|]. intros [= <-].
    left. exists data. split; [by left|by apply Hsound].
Qed.
End files.

(** ** The envelope round trip *)

(** go-axi's JSON envelope around [v2Row]'s json tags. *)
Definition json_of_v2Row (r : v2Row) : json :=
  JObj [("severity", JStr (v2_Severity r)); ("file_line", JStr (v2_FileLine r)); ("problem", JStr (v2_Problem r));
        ("fix", JStr (v2_Fix r)); ("category", JStr (v2_Category r)); ("est_minutes", JInt (v2_EstMinutes r));
        ("evidence", JStr (v2_Evidence r)); ("reviewer", JStr (v2_Reviewer r))].
Definition json_of_v2Envelope (notice : string) (rows : list v2Row) : json :=
  JObj [("axi_format", JStr "json"); ("axi_notice", JStr notice);
        ("data", JObj [("findings", JArr (json_of_v2Row <$> rows))])].

(** A row encoding/json carries unchanged. *)
Definition v2_wire (r : v2Row) : Prop :=
  Forall (fun s => valid_utf8 s = true)
    [v2_Severity r; v2_FileLine r; v2_Problem r; v2_Fix r; v2_Category r; v2_Evidence r; v2_Reviewer r] /\
  (MinInt64 <= v2_EstMinutes r <= MaxInt64)%Z.

Lemma decodeV2EnvelopeRow_tree i r : v2_wire r ->
  decodeV2EnvelopeRow i (tree_of (json_of_v2Row r)) = inr r.
Proof.
  intros [Hs Hn]. repeat (apply Forall_cons in Hs as [? Hs]).
  assert (tree_of (json_of_v2Row r) = TObj
    [("severity", TStr (v2_Severity r)); ("file_line", TStr (v2_FileLine r)); ("problem", TStr (v2_Problem r));
     ("fix", TStr (v2_Fix r)); ("category", TStr (v2_Category r)); ("est_minutes", TNum (to_bytes (pretty (v2_EstMinutes r))));
     ("evidence", TStr (v2_Evidence r)); ("reviewer", TStr (v2_Reviewer r))]) as ->.
  { unfold json_of_v2Row. cbn [tree_of map fst snd]. by rewrite !sanitize_valid. }
  unfold decodeV2EnvelopeRow. cbn [map_keys].
  match goal with |- context [filter ?P v2TableColumns] =>
    change (filter P v2TableColumns) with (filter (fun k => k ∉ v2TableColumns) v2TableColumns) end.
  assert (filter (fun k => k ∉ v2TableColumns) v2TableColumns = []) as -> by (by vm_compute).
  match goal with |- context [existsb ?f ?l] => change l with v2TableColumns end.
  assert (existsb (case_clash v2TableColumns) v2TableColumns = false) as -> by (by vm_compute).
  assert (dec_diskInt 0%Z (TNum (to_bytes (pretty (v2_EstMinutes r)))) = Some (v2_EstMinutes r)) as He.
  { unfold dec_diskInt. cbn [number_text]. rewrite string_of_list_ascii_of_string. by apply Atoi_Itoa. }
  cbn [dec_struct].
  match goal with |- context [TNum ?n] => set (t := TNum n) in * end.
  assert (foldM (dec_member v2Row_fields) zero_v2Row
    [("severity", TStr (v2_Severity r)); ("file_line", TStr (v2_FileLine r)); ("problem", TStr (v2_Problem r));
     ("fix", TStr (v2_Fix r)); ("category", TStr (v2_Category r)); ("est_minutes", t);
     ("evidence", TStr (v2_Evidence r)); ("reviewer", TStr (v2_Reviewer r))] =
    (n ← dec_diskInt 0%Z t; Some (mkV2Row (v2_Severity r) (v2_FileLine r) (v2_Problem r) (v2_Fix r) (v2_Category r) n
       (v2_Evidence r) (v2_Reviewer r)))) as ->.
  { clearbody t. lazy -[dec_diskInt]. by destruct (dec_diskInt _ t). }
  rewrite He. by destruct r.
Qed.

Lemma skip_ws_blank l : Forall (fun c => is_json_ws c = true) l -> skip_ws l = [].
Proof. induction 1 as [|c l Hc _ IH]; [done|]. cbn [skip_ws]. by rewrite Hc. Qed.

Lemma blank_stops l : Forall (fun c => is_json_ws c = true) l -> stops l.
Proof.
  destruct 1 as [|c l Hc _]; [done|]. revert Hc. destruct c as [[] [] [] [] [] [] [] []]; (discriminate || by repeat split).
Qed.

Lemma dec_raw_elements ts : dec_elements TNull dec_raw [] ts = Some ts.
Proof. induction ts as [|t ts IH]; [done|]. cbn [dec_elements head tail default]. cbn. by rewrite IH. Qed.

Lemma nesting_v2Envelope notice rows : nesting (json_of_v2Envelope notice rows) <= 4.
Proof.
  assert (max_list (map nesting (json_of_v2Row <$> rows)) <= 1) as H.
  { induction rows as [|r rows IH]; [simpl; lia|]. rewrite fmap_cons. cbn [map max_list_with]. apply Nat.max_lub; [|done].
    unfold json_of_v2Row. simpl. lia. }
  unfold json_of_v2Envelope. cbn [nesting map snd]. simpl. simpl in H. lia.
Qed.

Section envelope.
Context {U : UnicodeCase}.

Lemma read_rows_wire i rows : Forall v2_wire rows -> Forall row_ok rows ->
  read_rows envelope_row i (map tree_of (json_of_v2Row <$> rows)) = inr (finding_of_row <$> rows).
Proof.
  intros Hw. revert i. induction Hw as [|r rows Hr _ IH]; intros i Hok; [done|].
  apply Forall_cons in Hok as [Hok Hoks]. rewrite !fmap_cons. cbn [map read_rows]. unfold envelope_row at 1.
  rewrite decodeV2EnvelopeRow_tree, Hok, IH by done. done.
Qed.

Lemma parse_data_wire rows : Forall v2_wire rows -> Forall row_ok rows ->
  parse_data (TObj [("findings", TArr (map tree_of (json_of_v2Row <$> rows)))]) = inr (finding_of_row <$> rows).
Proof.
  intros Hw Hok. unfold parse_data.
  match goal with |- context [checkExactKeys ?t ?w] => change (checkExactKeys t w) with true end. cbn [negb dec_struct foldM].
  match goal with |- context [dec_member wrap_fields None ("findings", TArr ?ts)] =>
    change (dec_member wrap_fields None ("findings", TArr ts)) with ((fun x => x) <$> (Some <$> dec_elements TNull dec_raw [] ts)) end.
  rewrite dec_raw_elements. by apply read_rows_wire.
Qed.

Lemma parseV2Envelope_wire notice rows b blank :
  Marshal (json_of_v2Envelope notice rows) = Some b -> Forall (fun c => is_json_ws c = true) blank ->
  Forall v2_wire rows -> Forall row_ok rows ->
  parseV2Envelope (of_bytes (b ++ blank)) = inr (finding_of_row <$> rows).
Proof.
  intros Hb Hblank Hw Hok. unfold parseV2Envelope, DecodeNext. rewrite list_ascii_of_string_of_list_ascii.
  rewrite (parse_Marshal _ b _ 0 blank Hb); [|rewrite length_app; lia| |by apply blank_stops].
  2: { pose proof (nesting_v2Envelope notice rows). apply (Nat.le_trans _ 4); [lia|]. by apply Nat.leb_le. }
  rewrite skip_ws_blank, bool_decide_true by done. cbn [negb].
  unfold json_of_v2Envelope. cbn [tree_of map fst snd].
  match goal with |- context [checkExactKeys ?t ?w] => change (checkExactKeys t w) with true end.
  match goal with |- context [dec_struct v2Envelope_fields ?z (TObj [_; _; (_, ?t)])] =>
    match goal with |- context [dec_struct v2Envelope_fields z ?o] =>
      change (dec_struct v2Envelope_fields z o) with
        (Some (mkV2Envelope (sanitize "json") (sanitize notice) None (Some t))) end end.
  cbn [negb env_findings env_Format env_data]. rewrite bool_decide_false by (by intros [? ?]).
  change (sanitize "json" =? "json")%string with true. change (sanitize "findings") with "findings".
  by apply parse_data_wire.
Qed.
End envelope.

(** ** The file round trip *)

(** A row as [DecodeTabular] answers it. *)
Definition cells_of_row (r : v2Row) : gmap string string :=
  list_to_map (zip v2TableColumns
    [v2_Severity r; v2_FileLine r; v2_Problem r; v2_Fix r; v2_Category r; Itoa (v2_EstMinutes r); v2_Evidence r; v2_Reviewer r]).

(** What is relied on of go-axi for the rows of one document: what it writes for them
    is its JSON envelope, or a table it reads back as those rows. *)
Definition carried {A : GoAxi} (rows : list v2Row) : Prop :=
  forall body, EncodeOrJSON rows = Some body ->
    (exists notice b blank, Marshal (json_of_v2Envelope notice rows) = Some b /\
       Forall (fun c => is_json_ws c = true) blank /\ body = of_bytes (b ++ blank)) \/
    (is_prefix envelopePrefix (trim_left_set json_blank (to_bytes body)) = false /\
     DecodeTabular body =
       Some (mkTabularDoc "findings" v2TableColumns (cells_of_row <$> rows) (Z.of_nat (length rows)))).

(** A finding the engine writes: its severity known, its reviewer stamped, its
    numbers machine integers, its texts valid UTF-8. *)
Definition v2_writable (f : Finding) : Prop :=
  Severity f ∈ severities /\ TrimSpace (Reviewer f) <> "" /\ (MinInt64 <= Line f <= MaxInt64)%Z /\
  v2_wire (row_of_finding f).

Lemma envelope_routed notice rows b blank :
  Marshal (json_of_v2Envelope notice rows) = Some b ->
  is_prefix envelopePrefix (trim_left_set json_blank (to_bytes (of_bytes (b ++ blank)))) = true.
Proof.
  intros (ts & -> & Hts)%Marshal_Obj. rewrite list_ascii_of_string_of_list_ascii.
  inversion Hts as [|kv t fs ts' (e & _ & ->) Hts' E1 E2]; subst. done.
Qed.

Lemma row_of_finding_ok f : v2_writable f -> row_ok (row_of_finding f).
Proof.
  intros (Hs & Hr & _ & _). unfold row_ok, checkV2Values, row_of_finding. cbn [v2_Severity v2_FileLine v2_Reviewer].
  assert (is_Some (SeverityRank !! Severity f)) as Hrank.
  { unfold severities in Hs. rewrite !elem_of_cons in Hs. destruct Hs as [->|[->|[->|[->|?%elem_of_nil]]]]; [by eexists..|done]. }
  rewrite bool_decide_true by done. cbn [negb].
  destruct (String.eqb_spec (TrimSpace (File f +:+ ":" +:+ Itoa (Line f))) "") as [E|_].
  - exfalso. assert (":"%char ∈ to_bytes (TrimSpace (File f +:+ ":" +:+ Itoa (Line f)))) as Hin.
    { apply TrimSpace_keeps; [|apply (bool_decide_eq_true_1 _); by vm_compute].
      rewrite to_bytes_app. apply elem_of_app. right. left. }
    rewrite E in Hin. by apply elem_of_nil in Hin.
  - by rewrite (proj2 (String.eqb_neq _ _) Hr).
Qed.

Lemma filter_none findings :
  filter (fun f => (maxModelEstMinutes < EstMinutes f)%Z) findings = [] ->
  Forall (fun f => EstMinutes f <= maxModelEstMinutes)%Z findings.
Proof.
  intros H. apply Forall_forall. intros f Hf. apply Z.nlt_ge. intros Hlt.
  assert (f ∈ filter (fun f => (maxModelEstMinutes < EstMinutes f)%Z) findings) as Hin by (by apply list_elem_of_filter).
  rewrite H in Hin. by apply elem_of_nil in Hin.
Qed.

Lemma filter_first findings f fs :
  filter (fun f => (maxModelEstMinutes < EstMinutes f)%Z) findings = f :: fs ->
  exists pre post, findings = pre ++ f :: post /\ (maxModelEstMinutes < EstMinutes f)%Z /\
    Forall (fun f => EstMinutes f <= maxModelEstMinutes)%Z pre.
Proof.
  induction findings as [|g gs IH]; [done|]. rewrite filter_cons. case_decide as Hg.
  - intros [= <- _]. exists [], gs. split_and!; [done|done|constructor].
  - intros (pre & post & -> & Hf & Hpre)%IH. exists (g :: pre), post. split_and!; [done|done|].
    constructor; [lia|done].
Qed.

Section writer.
Context {U : UnicodeCase} {A : GoAxi}.

Lemma table_row_wire i r : row_ok r -> v2_wire r -> table_row i (cells_of_row r) = inr r.
Proof.
  intros Hok [_ Hn]. unfold table_row, cell.
  change (default "" (cells_of_row r !! "severity")) with (v2_Severity r).
  change (default "" (cells_of_row r !! "file_line")) with (v2_FileLine r).
  change (default "" (cells_of_row r !! "reviewer")) with (v2_Reviewer r).
  change (default "" (cells_of_row r !! "est_minutes")) with (Itoa (v2_EstMinutes r)). rewrite Hok.
  rewrite TrimSpace_no_space, Atoi_Itoa by done || (eapply Forall_impl; [apply Itoa_chars|apply digit_no_space]).
  by destruct r.
Qed.

Lemma read_rows_table i rows : Forall v2_wire rows -> Forall row_ok rows ->
  read_rows table_row i (cells_of_row <$> rows) = inr (finding_of_row <$> rows).
Proof.
  intros Hw. revert i. induction Hw as [|r rows Hr _ IH]; intros i Hok; [done|].
  apply Forall_cons in Hok as [Hok Hoks]. rewrite !fmap_cons. cbn [read_rows].
  by rewrite table_row_wire, IH.
Qed.

Lemma parseV2Body_wire rows body : carried rows -> EncodeOrJSON rows = Some body ->
  Forall v2_wire rows -> Forall row_ok rows ->
  parseV2Body body = inr (mkParseResult (finding_of_row <$> rows) []).
Proof.
  intros Hgo Hbody Hw Hok. unfold parseV2Body.
  destruct (Hgo body Hbody) as [(notice & b & blank & Hb & Hblank & ->)|[-> Ht]].
  - by rewrite (envelope_routed _ _ _ _ Hb), (parseV2Envelope_wire _ _ _ _ Hb).
  - unfold parse_table. rewrite Ht. cbn [doc_Name doc_Fields doc_Rows doc_Declared].
    change ("findings" =? "findings")%string with true. cbn [negb].
    match goal with |- context [if ?c then ?x else []] => assert ((if c then x else []) = []) as -> by (by destruct c) end.
    rewrite length_fmap, Z.eqb_refl. cbn [negb]. by rewrite read_rows_table.
Qed.

Lemma ParseFindingsFile_written body res : parseV2Body body = inr res ->
  ParseFindingsFile findingsFileV2 (VersionV2 +:+ LF +:+ body) = inr res.
Proof.
  intros H. unfold ParseFindingsFile, firstNonBlankLine, ParseSource, parse.
  change LF with (char (byte_of 10)). rewrite Split_char by (unfold lacks; apply (bool_decide_eq_true_1 _); by vm_compute).
  rewrite fmap_cons, filter_cons_True by done. cbn [head default].
  change (negb _) with false. rewrite andb_false_r. cbn [parse_header].
  change (TrimRightCR VersionV2) with VersionV2. change (TrimSpace VersionV2) with VersionV2.
  change (VersionV2 =? "")%string with false. change (VersionV2 =? Version)%string with false.
  change ((VersionV2 =? VersionV2)%string && (PerSourceColumns =? PerSourceColumns)) with true. cbv iota.
  change LF with (char (byte_of 10)). by rewrite Join_Split, H.
Qed.

(** What a finding reads back as. *)
Definition v2_form (f : Finding) : Finding :=
  mkFinding (Severity f) (File f) (Line f) (Problem f) (Fix f) (Category f) (Z.max 0 (EstMinutes f)) (Evidence f)
    (Reviewer f) [] "" (CanonicalCategory (Category f)).

Lemma finding_of_written f : (MinInt64 <= Line f <= MaxInt64)%Z -> (EstMinutes f <= maxModelEstMinutes)%Z ->
  finding_of_row (row_of_finding f) = v2_form f.
Proof.
  intros Hl He. unfold finding_of_row, row_of_finding, v2_form.
  cbn [v2_Severity v2_FileLine v2_Problem v2_Fix v2_Category v2_EstMinutes v2_Evidence v2_Reviewer].
  rewrite splitFileLine_join by done. f_equal. unfold clampEstMinutes. lia.
Qed.

(** A v2 findings file loses nothing: for rows go-axi carries, whichever of its two
    encodings it picks, reading back what the writer wrote gives the same findings
    in the same order, byte for byte — pipes, quotes and line breaks included —
    with a negative estimate read as zero and the category's canonical form
    computed. An estimate over a week is refused, naming the first such finding,
    rather than written and read back clamped. *)
Theorem WriteSourceV2_read (findings : list Finding) :
  Forall v2_writable findings -> carried (row_of_finding <$> findings) ->
  match WriteSourceV2 findings with
  | inr data => Forall (fun f => EstMinutes f <= maxModelEstMinutes)%Z findings /\
      ParseFindingsFile findingsFileV2 data = inr (mkParseResult (v2_form <$> findings) [])
  | inl (EstTooLarge f) => exists pre post, findings = pre ++ f :: post /\ (maxModelEstMinutes < EstMinutes f)%Z /\
      Forall (fun f => EstMinutes f <= maxModelEstMinutes)%Z pre
  | inl EncodeError => Forall (fun f => EstMinutes f <= maxModelEstMinutes)%Z findings /\
      EncodeOrJSON (row_of_finding <$> findings) = None
  end.
Proof.
  intros Hw Hgo. unfold WriteSourceV2. destruct (filter _ findings) as [|f fs] eqn:Ef.
  2: by apply filter_first in Ef.
  assert (Forall (fun f => EstMinutes f <= maxModelEstMinutes)%Z findings) as Hest by (by apply filter_none).
  destruct (EncodeOrJSON _) as [body|] eqn:Eb; [|done]. split; [done|].
  assert (Forall v2_wire (row_of_finding <$> findings)) as Hwire
    by (apply Forall_fmap; eapply Forall_impl; [exact Hw|by intros f (_ & _ & _ & ?)]).
  assert (Forall row_ok (row_of_finding <$> findings)) as Hok
    by (apply Forall_fmap; eapply Forall_impl; [exact Hw|apply row_of_finding_ok]).
  assert (finding_of_row <$> (row_of_finding <$> findings) = v2_form <$> findings) as <-.
  { rewrite <- list_fmap_compose. apply list_fmap_ext. intros i f Hi.
    rewrite Forall_lookup in Hw, Hest. by apply finding_of_written; [apply (Hw i f Hi)|apply (Hest i f Hi)]. }
  by apply ParseFindingsFile_written, parseV2Body_wire.
Qed.
End writer.

(** ** Witnesses *)

#[local] Existing Instance ascii_case.

(** A go-axi that always falls back to its envelope, and reads tables of one row. *)
#[local] Instance envelope_axi : GoAxi := {|
  DecodeTabular body := if (body =? "one row")%string
    then Some (mkTabularDoc "findings" (v2TableColumns ++ ["added_later"])
                 [cells_of_row (mkV2Row "LOW" "b.go:3" "p" "f" "bug" 20000 "e" "eve")] 1)
    else if (body =? "cut")%string then Some (mkTabularDoc "findings" v2TableColumns [] 1)
    else None;
  EncodeOrJSON rows := of_bytes ∘ (.++ to_bytes LF) <$> Marshal (json_of_v2Envelope "fallback" rows);
|}.

Lemma envelope_axi_carried rows : carried rows.
Proof.
  intros body H. left. unfold EncodeOrJSON, envelope_axi in H.
  destruct (Marshal _) as [b|] eqn:Eb; [|done]. injection H as <-.
  exists "fallback", b, (to_bytes LF). split_and!; [done|by repeat constructor|done].
Qed.

Definition quoted_finding : Finding :=
  mkFinding "HIGH" "a|b:c.go" 42 ("x|y" +:+ LF +:+ "# atcr-findings/v1") "<fix>" "Bugs" (-5) "e" "ann" [] "" "".

Lemma quoted_finding_writable : v2_writable quoted_finding.
Proof.
  split; [apply (bool_decide_eq_true_1 _); by vm_compute|]. split; [by vm_compute|].
  split; [unfold MinInt64, MaxInt64; simpl; lia|]. split; [|unfold MinInt64, MaxInt64; simpl; lia].
  repeat (apply Forall_cons; split; [by vm_compute|]). constructor.
Qed.

Lemma WriteSourceV2_read_witness :
  exists data, WriteSourceV2 [quoted_finding] = inr data /\
    ParseFindingsFile findingsFileV2 data = inr (mkParseResult (v2_form <$> [quoted_finding]) []).
Proof.
  pose proof (WriteSourceV2_read [quoted_finding] ltac:(constructor; [exact quoted_finding_writable|constructor])
    (envelope_axi_carried _)) as H.
  destruct (WriteSourceV2 [quoted_finding]) as [e|data] eqn:E; [by vm_compute in E|]. exists data. split; [done|apply H].
Defined.

Definition v1_text : string := Version +:+ LF +:+ "HIGH|a.go:1|p|f|bug|5|e|ann" +:+ LF.

Lemma ReadPoolFindings_toon_witness :
  let m1 := mkMoment Regular Regular in
  let m2 := mkMoment Missing Regular in
  let r2 := fun f => if (f =? findingsFileV1)%string then ReadOK v1_text else ReadMissing in
  let res := mkParseResult [mkFinding "HIGH" "a.go" 1 "p" "f" "bug" 5 "e" "ann" [] "" "other"] [] in
  ReadPoolFindings m1 m2 (fun _ => ReadMissing) r2 = inr res /\
  ((exists data, (ReadMissing = ReadOK data \/ ReadMissing = ReadMissing /\ toon m2 = Regular /\ r2 findingsFileV2 = ReadOK data) /\
     firstNonBlankLine data = VersionV2 /\ Forall v2_sound (Findings res) /\ Skipped res = []) \/
  (ReadMissing = ReadMissing /\ (toon m2 = Missing \/ toon m2 = Irregular) /\ txt m2 = Regular /\
     exists data, r2 findingsFileV1 = ReadOK data /\ ParseSource data = inr res)).
Proof.
  intros m1 m2 r2 res. assert (ReadPoolFindings m1 m2 (fun _ => ReadMissing) r2 = inr res) as H by (by vm_compute).
  split; [exact H|]. exact (ReadPoolFindings_toon m1 m2 (fun _ => ReadMissing) r2 res eq_refl H).
Defined.

(** A table's added column is ignored, its estimate clamped, its truncation and a v1
    header in a findings.toon refused, and a bad findings.toon never answered from
    findings.txt. *)
Example findings_toon_answers :
  ParseFindingsFile findingsFileV2 (VersionV2 +:+ LF +:+ "one row") =
    inr (mkParseResult [mkFinding "LOW" "b.go" 3 "p" "f" "bug" 10080 "e" "eve" [] "" "other"] []) /\
  ParseFindingsFile findingsFileV2 (VersionV2 +:+ LF +:+ "cut") = inl (V2Error (RowCount 1 0)) /\
  ParseFindingsFile findingsFileV2 v1_text = inl (ErrUnknownVersion Version) /\
  ReadPoolFindings (mkMoment Regular Regular) (mkMoment Regular Regular) (fun _ => ReadOK v1_text) (fun _ => ReadMissing) =
    inl (PoolParse findingsFileV2 (ErrUnknownVersion Version)).
Proof. by vm_compute. Qed.
