(* ===== verification/Think.v ===== *)
(** * Inline reasoning markup

    src/internal/llmclient/think.go: the split of a leading run of think blocks off a
    model's reply, the two detectors, the mask of JSON string literals under which
    tags are looked for, and the rule for a closer no opener opened. Replies are
    byte strings. *)

From Stdlib Require Import Ascii String.
From stdpp Require Import prelude strings list.
From Stdlib Require Import Lia.
From S2P Require Import Prelude GoString.

Open Scope string_scope.
Open Scope list_scope.
Open Scope nat_scope.

Definition thinkOpen : bytes := Eval vm_compute in to_bytes "<think>".
Definition thinkClose : bytes := Eval vm_compute in to_bytes "</think>".

(** [strings.Index] *)
Fixpoint index_of (sub l : bytes) : option nat :=
  if is_prefix sub l then Some 0 else match l with [] => None | _ :: l' => S <$> index_of sub l' end.

(** [strings.TrimSpace(l) == ""] *)
Definition blank (l : bytes) : bool := (TrimSpace (of_bytes l) =? "")%string.

(** ** [SplitThink] *)

(** The scan for the closer that brings the balance of openers and closers back to
    zero, [tail] being the text from [offset] on. The outer [None] is fuel running
    out. *)
Fixpoint matching_close (fuel : nat) (tail : bytes) (depth offset : nat) : option (option nat) :=
  match fuel with
  | O => None
  | S k =>
      match index_of thinkClose tail with
      | None => Some None
      | Some nextClose =>
          let close :=
            if depth =? 1 then Some (Some (offset + nextClose))
            else matching_close k (drop (nextClose + length thinkClose) tail) (depth - 1)
                   (offset + (nextClose + length thinkClose)) in
          match index_of thinkOpen tail with
          | Some nextOpen =>
              if nextOpen <? nextClose
              then matching_close k (drop (nextOpen + length thinkOpen) tail) (S depth)
                     (offset + (nextOpen + length thinkOpen))
              else close
          | None => close
          end
      end
  end.

(** The loop's variables: what is left, whether a pair was consumed, the builder, and
    the first pair's text while it is the only one. *)
Record split := mkSplit {
  rest : bytes;
  stripped : bool;
  thought : bytes;
  firstReasoning : bytes;
  sawFirst : bool;
  promoted : bool;
}.

(** A consumed pair. *)
Definition consume (st : split) (piece rest' : bytes) : split :=
  if negb (sawFirst st) then mkSplit rest' true (thought st) piece true (promoted st)
  else mkSplit rest' true
         ((if promoted st then thought st else thought st ++ firstReasoning st) ++ piece)
         (firstReasoning st) true true.

Definition closer_like : bytes := take (length thinkClose - 1) thinkClose.

Fixpoint split_loop (fuel : nat) (content : bytes) (st : split) : option (bytes * bytes) :=
  match fuel with
  | O => None
  | S k =>
      let lead := trim_left (rest st) in
      if negb (is_prefix thinkOpen lead) then
        Some (if stripped st then (rest st, if promoted st then thought st else firstReasoning st) else (content, []))
      else
        let rest' := drop (length thinkOpen) lead in
        match matching_close (S (length rest')) rest' 1 0 with
        | None => None
        | Some None =>
            if contains_bytes closer_like rest' then Some (content, [])
            else Some ([], (if sawFirst st then thought st ++ firstReasoning st else thought st) ++ rest')
        | Some (Some end_) =>
            split_loop k content (consume st (take end_ rest') (drop (end_ + length thinkClose) rest'))
        end
  end.

(** The answer and the reasoning removed from it. *)
Definition SplitThink (content : bytes) : option (bytes * bytes) :=
  split_loop (S (length content)) content (mkSplit content false [] [] false false).

(** ** The detectors *)

Fixpoint enclosing_loop (fuel : nat) (rest : bytes) : option bool :=
  match fuel with
  | O => None
  | S k =>
      match index_of thinkOpen rest with
      | None => Some false
      | Some open =>
          let rest := drop (open + length thinkOpen) rest in
          match index_of thinkClose rest with
          | None => Some (negb (blank rest))
          | Some end_ =>
              if negb (blank (take end_ rest)) then Some true
              else enclosing_loop k (drop (end_ + length thinkClose) rest)
          end
      end
  end.
Definition HasEnclosingThinkBlock (content : bytes) : option bool := enclosing_loop (S (length content)) content.

Fixpoint markup_loop (fuel : nat) (rest : bytes) : option bool :=
  match fuel with
  | O => None
  | S k =>
      let after_open open :=
        let rest := drop (open + length thinkOpen) rest in
        match index_of thinkClose rest with
        | None => Some (negb (blank rest))
        | Some end_ =>
            if negb (blank (take end_ rest)) then Some true
            else markup_loop k (drop (end_ + length thinkClose) rest)
        end in
      match index_of thinkOpen rest, index_of thinkClose rest with
      | None, None => Some false
      | None, Some closer => Some (negb (blank (take closer rest)))
      | Some open, Some closer => if closer <? open then Some (negb (blank (take closer rest))) else after_open open
      | Some open, None => after_open open
      end
  end.
Definition HasThinkMarkup (content : bytes) : option bool := markup_loop (S (length content)) content.

(** ** [IndexAfterUnopenedCloser] *)

(** [i] is the offset of [l]'s head and [skip] bytes of a tag are still to be passed. *)
Fixpoint unopened_scan (l : bytes) (skip i depth : nat) (last : option nat) : option nat :=
  match l with
  | [] => last
  | c :: l' =>
      match skip with
      | S k => unopened_scan l' k (S i) depth last
      | O =>
          if is_prefix thinkOpen l then unopened_scan l' (length thinkOpen - 1) (S i) (S depth) last
          else if is_prefix thinkClose l then
            unopened_scan l' (length thinkClose - 1) (S i) (depth - 1)
              (if depth =? 0 then Some (i + length thinkClose) else last)
          else unopened_scan l' 0 (S i) depth last
      end
  end.
(** [None] is the code's [-1]. *)
Definition IndexAfterUnopenedCloser (content : bytes) : option nat := unopened_scan content 0 0 0 None.

(** ** [MaskJSONStrings] *)

Record mask := mkMask {
  inStr : bool;
  escaped : bool;
  openCtx : bool;
  cutPair : bool;
  runHasOpener : bool;
}.

Definition quote : ascii := byte_of 34.
Definition backslash : ascii := byte_of 92.
Definition is_ctx_space (c : ascii) : bool :=
  Ascii.eqb c " " || Ascii.eqb c (byte_of 9) || Ascii.eqb c (byte_of 10) || Ascii.eqb c (byte_of 13).
Definition opens_ctx (c : ascii) : bool :=
  Ascii.eqb c "{" || Ascii.eqb c "[" || Ascii.eqb c "," || Ascii.eqb c ":".

(** One byte, [l] being the input from it on. *)
Definition mask_byte (c : ascii) (l : bytes) (m : mask) : ascii * mask :=
  if negb (inStr m) then
    (c, if Ascii.eqb c quote && openCtx m then mkMask true (escaped m) false (cutPair m) false
        else if is_ctx_space c then m
        else mkMask false (escaped m) (opens_ctx c) (cutPair m) (runHasOpener m))
  else if escaped m then (" "%char, mkMask true false (openCtx m) (cutPair m) (runHasOpener m))
  else
    let opener := is_prefix thinkOpen l in
    let cut := cutPair m || (negb opener && runHasOpener m && (Ascii.eqb c "{" || Ascii.eqb c "[")) in
    let run := runHasOpener m || opener in
    if Ascii.eqb c backslash then (" "%char, mkMask true true (openCtx m) cut run)
    else if Ascii.eqb c quote then (c, mkMask false false false cut run)
    else (" "%char, mkMask true false (openCtx m) cut run).

Fixpoint mask_scan (l : bytes) (m : mask) : bytes * mask :=
  match l with
  | [] => ([], m)
  | c :: l' =>
      let '(b, m1) := mask_byte c l m in
      let '(bs, m2) := mask_scan l' m1 in
      (b :: bs, m2)
  end.

(** [strings.Count] of a substring that does not overlap itself. *)
Fixpoint count_of (sub l : bytes) (skip : nat) : nat :=
  match l with
  | [] => 0
  | c :: l' =>
      match skip with
      | S k => count_of sub l' k
      | O => if is_prefix sub l then S (count_of sub l' (length sub - 1)) else count_of sub l' 0
      end
  end.

Definition mask_start : mask := mkMask false false true false false.

(** The counts are compared without subtraction: removed openers outnumber removed
    closers. *)
Definition MaskJSONStrings (s : bytes) : bytes :=
  let '(masked, m) := mask_scan s mask_start in
  if cutPair m ||
     (contains_bytes thinkClose masked &&
      (count_of thinkClose s 0 + count_of thinkOpen masked 0 <? count_of thinkOpen s 0 + count_of thinkClose masked 0))
  then s else masked.

(** ** [ClassifyUnopenedCloser] *)

Inductive CloserSection := SectionWholeAnswer | SectionAfterCloser | SectionAmbiguous.
#[export] Instance CloserSection_eq_dec : EqDecision CloserSection.
Proof. solve_decision. Defined.

Definition ClassifyUnopenedCloser (answer : bytes) (hasEnvelope : bytes -> bool) : CloserSection * bytes * bool :=
  match IndexAfterUnopenedCloser (MaskJSONStrings answer) with
  | None => (SectionWholeAnswer, answer, false)
  | Some i =>
      if length answer <? i then (SectionWholeAnswer, answer, false)
      else
        let suffix := drop i answer in
        let prefixHasEnvelope := hasEnvelope (take i answer) in
        if negb (hasEnvelope suffix) then (SectionWholeAnswer, answer, prefixHasEnvelope)
        else if prefixHasEnvelope then (SectionAmbiguous, suffix, true)
        else (SectionAfterCloser, suffix, false)
  end.

(** ** Lemmas: occurrences *)

Lemma index_of_Some sub l n : index_of sub l = Some n -> exists pre post, l = pre ++ sub ++ post /\ length pre = n.
Proof.
  revert n. induction l as [|c l IH]; intros n; cbn [index_of].
  - destruct (is_prefix sub []) eqn:E; [|done]. intros [= <-]. apply is_prefix_spec in E as [k ->]. by exists [], k.
  - destruct (is_prefix sub (c :: l)) eqn:E.
    + intros [= <-]. apply is_prefix_spec in E as [k ->]. by exists [], k.
    + destruct (index_of sub l) as [m|]; [|done]. intros [= <-]. destruct (IH m eq_refl) as (pre & post & -> & <-).
      by exists (c :: pre), post.
Qed.

Lemma index_of_lt sub l n : index_of sub l = Some n -> n + length sub <= length l.
Proof. intros (pre & post & -> & <-)%index_of_Some. rewrite !length_app. lia. Qed.

Lemma index_of_drop sub l n : index_of sub l = Some n -> is_prefix sub (drop n l) = true.
Proof.
  intros (pre & post & -> & <-)%index_of_Some. rewrite drop_app_length. apply is_prefix_spec. by exists post.
Qed.

Lemma drop_short sub l n : sub <> [] -> index_of sub l = Some n -> length (drop (n + length sub) l) < length l.
Proof.
  intros Hs Hi. pose proof (index_of_lt _ _ _ Hi). rewrite length_drop. destruct sub; [done|]. simpl in *. lia.
Qed.

Lemma open_nonempty : thinkOpen <> [].
Proof. done. Qed.
Lemma close_nonempty : thinkClose <> [].
Proof. done. Qed.

Lemma trim_left_suffix l : exists ws, l = ws ++ trim_left l.
Proof. apply trim_front_suffix. Qed.

Lemma trim_left_length l : length (trim_left l) <= length l.
Proof. destruct (trim_left_suffix l) as [ws E]. rewrite E at 2. rewrite length_app. lia. Qed.

(** ** Every scan ends *)

Lemma matching_close_total fuel tail depth offset : length tail < fuel -> matching_close fuel tail depth offset <> None.
Proof.
  revert tail depth offset. induction fuel as [|k IH]; intros tail depth offset Hf; [lia|]. cbn [matching_close].
  destruct (index_of thinkClose tail) as [nc|] eqn:Ec; [|done].
  pose proof (drop_short _ _ _ close_nonempty Ec) as Hc.
  destruct (index_of thinkOpen tail) as [no|] eqn:Eo.
  - pose proof (drop_short _ _ _ open_nonempty Eo) as Ho. destruct (no <? nc); [apply IH; lia|].
    destruct (depth =? 1); [done|]. apply IH; lia.
  - destruct (depth =? 1); [done|]. apply IH; lia.
Qed.

Lemma matching_close_bound fuel tail depth offset n :
  matching_close fuel tail depth offset = Some (Some n) ->
  offset <= n /\ n + length thinkClose <= offset + length tail /\
  is_prefix thinkClose (drop (n - offset) tail) = true.
Proof.
  revert tail depth offset. induction fuel as [|k IH]; intros tail depth offset; [done|]. cbn [matching_close].
  destruct (index_of thinkClose tail) as [nc|] eqn:Ec; [|done].
  pose proof (index_of_lt _ _ _ Ec) as Hc.
  assert (forall m d, m <= length tail -> matching_close k (drop m tail) d (offset + m) = Some (Some n) ->
    offset <= n /\ n + length thinkClose <= offset + length tail /\
    is_prefix thinkClose (drop (n - offset) tail) = true) as Hrec.
  { intros m d Hm (H1 & H2 & H3)%IH. rewrite length_drop in H2. rewrite drop_drop in H3.
    replace (m + (n - (offset + m))) with (n - offset) in H3 by lia. split_and!; [lia|lia|done]. }
  assert ((if depth =? 1 then Some (Some (offset + nc))
           else matching_close k (drop (nc + length thinkClose) tail) (depth - 1) (offset + (nc + length thinkClose)))
          = Some (Some n) ->
    offset <= n /\ n + length thinkClose <= offset + length tail /\
    is_prefix thinkClose (drop (n - offset) tail) = true) as Hclose.
  { destruct (depth =? 1); [|apply Hrec; lia]. intros [= <-]. replace (offset + nc - offset) with nc by lia.
    split_and!; [lia|lia|by apply index_of_drop]. }
  destruct (index_of thinkOpen tail) as [no|] eqn:Eo; [|exact Hclose].
  destruct (no <? nc); [|exact Hclose]. apply Hrec. pose proof (index_of_lt _ _ _ Eo). lia.
Qed.

Lemma enclosing_loop_total fuel rest : length rest < fuel -> is_Some (enclosing_loop fuel rest).
Proof.
  revert rest. induction fuel as [|k IH]; intros rest Hf; [lia|]. cbn [enclosing_loop].
  destruct (index_of thinkOpen rest) as [o|] eqn:Eo; [|by eexists].
  pose proof (drop_short _ _ _ open_nonempty Eo). set (rest' := drop _ rest) in *.
  destruct (index_of thinkClose rest') as [e|] eqn:Ee; [|by eexists].
  destruct (negb _); [by eexists|]. apply IH. pose proof (drop_short _ _ _ close_nonempty Ee). lia.
Qed.

Lemma markup_loop_total fuel rest : length rest < fuel -> is_Some (markup_loop fuel rest).
Proof.
  revert rest. induction fuel as [|k IH]; intros rest Hf; [lia|]. cbn [markup_loop].
  destruct (index_of thinkOpen rest) as [o|] eqn:Eo; [|destruct (index_of thinkClose rest); by eexists].
  pose proof (drop_short _ _ _ open_nonempty Eo) as Ho. set (rest' := drop _ rest) in *.
  assert (is_Some (match index_of thinkClose rest' with
    | None => Some (negb (blank rest'))
    | Some e => if negb (blank (take e rest')) then Some true else markup_loop k (drop (e + length thinkClose) rest')
    end)) as Hafter.
  { destruct (index_of thinkClose rest') as [e|] eqn:Ee; [|by eexists].
    destruct (negb _); [by eexists|]. apply IH. pose proof (drop_short _ _ _ close_nonempty Ee). lia. }
  destruct (index_of thinkClose rest) as [c|]; [|exact Hafter].
  destruct (c <? o); [by eexists|exact Hafter].
Qed.

(** ** The balance, byte by byte *)

(** The reference reading of "the matching closer": the offset at which a scan of the
    bytes brings [depth] open blocks to none. *)
Fixpoint close_at (l : bytes) (skip depth i : nat) : option nat :=
  match l with
  | [] => None
  | c :: l' =>
      match skip with
      | S k => close_at l' k depth (S i)
      | O =>
          if is_prefix thinkOpen l then close_at l' (length thinkOpen - 1) (S depth) (S i)
          else if is_prefix thinkClose l then
            if depth =? 1 then Some i else close_at l' (length thinkClose - 1) (depth - 1) (S i)
          else close_at l' 0 depth (S i)
      end
  end.

Lemma index_of_first sub l n k : index_of sub l = Some n -> k < n -> is_prefix sub (drop k l) = false.
Proof.
  revert n k. induction l as [|c l IH]; intros n k; cbn [index_of].
  - destruct (is_prefix sub []); [intros [= <-]; lia|done].
  - destruct (is_prefix sub (c :: l)) eqn:E; [intros [= <-]; lia|].
    destruct (index_of sub l) as [m|]; [|done]. intros [= <-] Hk. destruct k as [|k]; [done|]. apply (IH m); [done|lia].
Qed.

Lemma index_of_none sub l k : index_of sub l = None -> is_prefix sub (drop k l) = false.
Proof.
  revert k. induction l as [|c l IH]; intros k; cbn [index_of].
  - destruct (is_prefix sub []) eqn:E; [done|]. by rewrite drop_nil.
  - destruct (is_prefix sub (c :: l)) eqn:E; [done|]. destruct (index_of sub l); [done|]. intros _.
    destruct k as [|k]; [done|]. by apply IH.
Qed.

Lemma close_at_skip n l d i : n <= length l -> close_at l n d i = close_at (drop n l) 0 d (i + n).
Proof.
  revert l i. induction n as [|n IH]; intros l i Hn; [by rewrite drop_0, Nat.add_0_r|].
  destruct l as [|c l]; simpl in Hn; [lia|]. cbn [close_at drop]. rewrite IH by lia. f_equal. lia.
Qed.

(** No tag begins in the first [n] bytes. *)
Definition tag_free (n : nat) (l : bytes) : Prop :=
  forall k, k < n -> is_prefix thinkOpen (drop k l) = false /\ is_prefix thinkClose (drop k l) = false.

Lemma close_at_free n l d i : n <= length l -> tag_free n l -> close_at l 0 d i = close_at (drop n l) 0 d (i + n).
Proof.
  revert l i. induction n as [|n IH]; intros l i Hn Hf; [by rewrite drop_0, Nat.add_0_r|].
  destruct l as [|c l]; simpl in Hn; [lia|]. destruct (Hf 0 ltac:(lia)) as [Ho Hc].
  change (drop 0 (c :: l)) with (c :: l) in Ho, Hc. cbn [close_at drop]. rewrite Ho, Hc. rewrite IH; [f_equal; lia|lia|].
  intros k Hk. apply (Hf (S k)). lia.
Qed.

(** Only one of the tags can begin at a place. *)
Lemma open_not_close l : is_prefix thinkClose l = true -> is_prefix thinkOpen l = false.
Proof. intros [k ->]%is_prefix_spec. done. Qed.

Lemma prefix_length sub l : is_prefix sub l = true -> length sub <= length l.
Proof. intros [k ->]%is_prefix_spec. rewrite length_app. lia. Qed.

Lemma close_at_open l d i : is_prefix thinkOpen l = true ->
  close_at l 0 d i = close_at (drop (length thinkOpen) l) 0 (S d) (i + length thinkOpen).
Proof.
  intros H. pose proof (prefix_length _ _ H) as Hl. destruct l as [|c l]; [done|]. cbn [close_at]. rewrite H.
  change (length thinkOpen) with 7 in *. simpl in Hl. rewrite close_at_skip by lia. cbn [drop Nat.sub]. f_equal. lia.
Qed.

Lemma close_at_close l d i : is_prefix thinkClose l = true ->
  close_at l 0 d i = if d =? 1 then Some i else
    close_at (drop (length thinkClose) l) 0 (d - 1) (i + length thinkClose).
Proof.
  intros H. pose proof (prefix_length _ _ H) as Hl. pose proof (open_not_close l H) as Ho.
  destruct l as [|c l]; [done|]. cbn [close_at]. rewrite H, Ho. destruct (d =? 1); [done|].
  change (length thinkClose) with 8 in *. simpl in Hl. rewrite close_at_skip by lia. cbn [drop Nat.sub]. f_equal. lia.
Qed.

Lemma close_at_none l d i : index_of thinkClose l = None -> close_at l 0 d i = None.
Proof.
  intros H. assert (forall k, is_prefix thinkClose (drop k l) = false) as Hn by (intros; by apply index_of_none).
  clear H. remember (length l) as n eqn:E. revert l d i Hn E.
  induction (lt_wf n) as [n _ IH]; intros l d i Hn ->. destruct l as [|c l]; [done|].
  destruct (is_prefix thinkOpen (c :: l)) eqn:Ho.
  - pose proof (prefix_length _ _ Ho) as Hl. rewrite close_at_open by done.
    apply (IH (length (drop (length thinkOpen) (c :: l)))); [|intros k; rewrite drop_drop; apply Hn|done].
    rewrite length_drop. change (length thinkOpen) with 7 in *. lia.
  - pose proof (Hn 0) as Hc. change (drop 0 (c :: l)) with (c :: l) in Hc. cbn [close_at]. rewrite Ho, Hc.
    apply (IH (length l)); [simpl; lia|intros k; apply (Hn (S k))|done].
Qed.

Lemma matching_close_eq fuel tail depth offset : length tail < fuel ->
  matching_close fuel tail depth offset = Some (close_at tail 0 depth offset).
Proof.
  revert tail depth offset. induction fuel as [|k IH]; intros tail depth offset Hf; [lia|]. cbn [matching_close].
  destruct (index_of thinkClose tail) as [nc|] eqn:Ec; [|by rewrite close_at_none].
  pose proof (index_of_lt _ _ _ Ec) as Hc. pose proof (drop_short _ _ _ close_nonempty Ec) as Hsc.
  assert (forall m, tag_free m tail -> m = nc ->
    (if depth =? 1 then Some (Some (offset + nc))
     else matching_close k (drop (nc + length thinkClose) tail) (depth - 1) (offset + (nc + length thinkClose)))
    = Some (close_at tail 0 depth offset)) as Hclose.
  { intros m Hm ->. rewrite (close_at_free nc) by (done || lia). rewrite close_at_close by (by apply index_of_drop).
    destruct (depth =? 1); [done|]. rewrite IH by lia. by rewrite drop_drop, Nat.add_assoc. }
  destruct (index_of thinkOpen tail) as [no|] eqn:Eo.
  - pose proof (drop_short _ _ _ open_nonempty Eo) as Hso. pose proof (index_of_lt _ _ _ Eo) as Ho.
    destruct (Nat.ltb_spec no nc) as [Hlt|Hge].
    + rewrite (close_at_free no); [|lia|].
      * rewrite close_at_open by (by apply index_of_drop). rewrite IH by lia. by rewrite drop_drop, Nat.add_assoc.
      * intros j Hj. split; eapply index_of_first; [done|lia|exact Ec|lia].
    + apply (Hclose nc); [|done]. intros j Hj. split; [|by eapply index_of_first].
      eapply index_of_first; [done|]. lia.
  - apply (Hclose nc); [|done]. intros j Hj. split; [by apply index_of_none|by eapply index_of_first].
Qed.

(** ** What [SplitThink] answers *)

(** A leading run: blocks one after another, each opened first thing after white space
    and ended by its matching closer, [cut] telling whether the last one is never
    closed. What follows the run is the answer. *)
Inductive leading : bool -> bytes -> bytes -> bytes -> Prop :=
  | leading_end c : is_prefix thinkOpen (trim_left c) = false -> leading false c c []
  | leading_block cut c inner rest answer r :
      trim_left c = thinkOpen ++ inner ++ thinkClose ++ rest ->
      close_at (inner ++ thinkClose ++ rest) 0 1 0 = Some (length inner) ->
      leading cut rest answer r -> leading cut c answer (inner ++ r)
  | leading_cut c inner :
      trim_left c = thinkOpen ++ inner -> close_at inner 0 1 0 = None ->
      contains_bytes closer_like inner = false -> leading true c [] inner.

(** A leading run that ends in an opener no closer balances although something that looks
    like one follows it. *)
Inductive torn : bytes -> Prop :=
  | torn_here c inner :
      trim_left c = thinkOpen ++ inner -> close_at inner 0 1 0 = None -> contains_bytes closer_like inner = true -> torn c
  | torn_block c inner rest :
      trim_left c = thinkOpen ++ inner ++ thinkClose ++ rest ->
      close_at (inner ++ thinkClose ++ rest) 0 1 0 = Some (length inner) -> torn rest -> torn c.

(** A reply is one or the other. *)
Lemma torn_not_leading c : torn c -> forall cut answer r, ~ leading cut c answer r.
Proof.
  assert (forall (a b : bytes), thinkOpen ++ a = thinkOpen ++ b -> a = b) as Hcancel by (intros a b; apply app_inv_head).
  assert (forall c inner, trim_left c = thinkOpen ++ inner -> is_prefix thinkOpen (trim_left c) = true) as Hopen
    by (intros ? inner ->; apply is_prefix_spec; by exists inner).
  induction 1 as [c inner Hc Hn Hl|c inner rest Hc Hm _ IH]; intros cut answer r H.
  - destruct H as [c H|cut c inner' rest' answer r Hc' Hm' _|c inner' Hc' _ Hl'].
    + by rewrite (Hopen _ _ Hc) in H.
    + rewrite Hc in Hc'. apply Hcancel in Hc' as ->. congruence.
    + rewrite Hc in Hc'. apply Hcancel in Hc' as ->. congruence.
  - destruct H as [c H|cut c inner' rest' answer r Hc' Hm' H|c inner' Hc' Hn' _].
    + by rewrite (Hopen _ _ Hc) in H.
    + rewrite Hc in Hc'. apply Hcancel in Hc'. rewrite Hc', Hm' in Hm. injection Hm as Hlen.
      apply app_inj_1 in Hc' as [_ ->%app_inv_head]; [by apply IH in H|done].
    + rewrite Hc in Hc'. apply Hcancel in Hc' as <-. congruence.
Qed.

(** The reasoning gathered so far, for every pair consumed but the builder's cut. *)
Definition gathered (st : split) (acc : bytes) : Prop :=
  sawFirst st = stripped st /\
  (if promoted st then thought st = acc /\ sawFirst st = true
   else thought st = [] /\ firstReasoning st = acc /\ (sawFirst st = false -> acc = [])).

Lemma consume_gathered st acc piece rest' : gathered st acc -> gathered (consume st piece rest') (acc ++ piece).
Proof.
  intros [Hs Hg]. unfold consume. destruct (sawFirst st) eqn:Es; cbn [negb].
  - destruct (promoted st) eqn:Ep.
    + destruct Hg as [-> _]. by repeat split.
    + destruct Hg as (-> & -> & _). by repeat split.
  - destruct (promoted st) eqn:Ep; [by destruct Hg|]. destruct Hg as (Ht & _ & Ha).
    rewrite Ha by done. by repeat split.
Qed.

Lemma split_loop_spec fuel content st acc :
  length (rest st) < fuel -> gathered st acc -> (stripped st = false -> rest st = content) ->
  exists answer reasoning, split_loop fuel content st = Some (answer, reasoning) /\
    ((answer = content /\ reasoning = [] /\ torn (rest st)) \/
     exists cut r, leading cut (rest st) answer r /\ (cut = false -> reasoning = acc ++ r) /\ acc ++ r `sublist_of` reasoning).
Proof.
  revert st acc. induction fuel as [|k IH]; intros st acc Hf Hg Hst; [lia|]. cbn [split_loop].
  destruct (is_prefix thinkOpen (trim_left (rest st))) eqn:Ho; cbn [negb].
  2: { destruct Hg as [Hsaw Hg]. destruct (stripped st) eqn:Es.
       - eexists _, _. split; [done|]. right. exists false, []. split; [by constructor|]. rewrite app_nil_r.
         destruct (promoted st); [by destruct Hg as [-> _]|]. by destruct Hg as (_ & -> & _).
       - assert (acc = []) as -> by (destruct (promoted st); [by destruct Hg as [_ ?]; congruence|by apply Hg]).
         exists content, []. split; [done|]. right. exists false, []. rewrite (Hst eq_refl) in *. split; [by constructor|]. done. }
  apply is_prefix_spec in Ho as [inner Ho]. rewrite Ho, drop_app_length.
  pose proof (trim_left_length (rest st)) as Hl. rewrite Ho, length_app in Hl. change (length thinkOpen) with 7 in Hl.
  rewrite matching_close_eq by lia. destruct (close_at inner 0 1 0) as [e|] eqn:Ee.
  - pose proof (matching_close_bound (S (length inner)) inner 1 0 e) as Hb.
    rewrite matching_close_eq, Ee in Hb by lia. destruct (Hb eq_refl) as (_ & He & Hcl). clear Hb.
    rewrite Nat.sub_0_r in Hcl. apply is_prefix_spec in Hcl as [rest' Hcl].
    assert (inner = take e inner ++ thinkClose ++ rest') as Hin by (by rewrite <- Hcl, take_drop).
    assert (drop (e + length thinkClose) inner = rest') as Hr by (by rewrite <- drop_drop, Hcl, drop_app_length).
    rewrite Hr. pose proof (f_equal length Hin) as Hlen. rewrite !length_app in Hlen. change (length thinkClose) with 8 in *.
    destruct (IH (consume st (take e inner) rest') (acc ++ take e inner)) as (answer & reasoning & -> & H).
    + unfold consume. destruct (sawFirst st); cbn [negb rest]; lia.
    + by apply consume_gathered.
    + unfold consume. by destruct (sawFirst st).
    + exists answer, reasoning. split; [done|]. assert (forall P : bytes -> Prop, P (rest (consume st (take e inner) rest')) -> P rest') as Hrest
        by (intros P; unfold consume; by destruct (sawFirst st)).
      assert (close_at (take e inner ++ thinkClose ++ rest') 0 1 0 = Some (length (take e inner))) as Hm
        by (rewrite <- Hin, Ee; f_equal; rewrite length_take; lia).
      destruct H as [(H1 & H2 & H3)|(cut & r & Hlead & Hr' & Hsub)].
      * left. split_and!; [done|done|]. eapply torn_block; [rewrite Ho, Hin at 1; done|exact Hm|by apply Hrest].
      * right. exists cut, (take e inner ++ r). split; [|split].
        -- eapply leading_block; [rewrite Ho, Hin at 1; done|exact Hm|by apply (Hrest (fun b => leading cut b answer r))].
        -- intros Hc. by rewrite Hr', <- app_assoc.
        -- by rewrite app_assoc.
  - destruct (contains_bytes closer_like inner) eqn:Ec.
    { eexists _, _. split; [done|]. left. split_and!; [done|done|by apply (torn_here _ inner)]. }
    eexists _, _. split; [done|]. right. exists true, inner. split; [by apply leading_cut|]. split; [done|].
    apply sublist_app; [|done]. destruct Hg as [Hsaw Hg]. destruct (promoted st).
    + destruct Hg as [-> ->]. by apply sublist_inserts_r.
    + destruct Hg as (-> & -> & Ha). destruct (sawFirst st); [done|]. by rewrite Ha.
Qed.

Lemma leading_suffix cut c answer r : leading cut c answer r -> exists run, c = run ++ answer.
Proof.
  induction 1 as [c|cut c inner rest answer r Ht _ _ [run IH]|c inner _ _ _]; [by exists []| |by exists c; rewrite app_nil_r].
  destruct (trim_left_suffix c) as [ws Hws]. exists (ws ++ thinkOpen ++ inner ++ thinkClose ++ run).
  rewrite Hws, Ht, IH. by rewrite <- !app_assoc.
Qed.

Lemma leading_stops cut c answer r : leading cut c answer r -> is_prefix thinkOpen (trim_left answer) = false.
Proof. induction 1 as [c H|cut c inner rest answer r _ _ _ IH|c inner _ _ _]; [exact H|exact IH|reflexivity]. Qed.

Lemma leading_det cut c answer r : leading cut c answer r -> forall cut' answer' r', leading cut' c answer' r' ->
  cut = cut' /\ answer = answer' /\ r = r'.
Proof.
  assert (forall c inner, trim_left c = thinkOpen ++ inner -> is_prefix thinkOpen (trim_left c) = true) as Hopen
    by (intros ? inner ->; apply is_prefix_spec; by exists inner).
  induction 1 as [c H|cut c inner rest answer r Hc Hm _ IH|c inner Hc Hn Hl]; intros cut' answer' r' H'.
  - destruct H' as [c _|cut' c inner' rest' answer' r' Hc' _ _|c inner' Hc' _ _]; [done|by rewrite (Hopen _ _ Hc') in H..].
  - destruct H' as [c H|cut' c inner' rest' answer' r' Hc' Hm' H'|c inner' Hc' Hn' _].
    + by rewrite (Hopen _ _ Hc) in H.
    + rewrite Hc in Hc'. apply app_inv_head in Hc'. rewrite Hc', Hm' in Hm. injection Hm as Hlen.
      apply app_inj_1 in Hc' as [-> ->%app_inv_head]; [|done]. by destruct (IH _ _ _ H') as (-> & -> & ->).
    + rewrite Hc in Hc'. apply app_inv_head in Hc' as <-. congruence.
  - destruct H' as [c H|cut' c inner' rest' answer' r' Hc' Hm' _|c inner' Hc' _ _].
    + by rewrite (Hopen _ _ Hc) in H.
    + rewrite Hc in Hc'. apply app_inv_head in Hc' as ->. congruence.
    + rewrite Hc in Hc'. by apply app_inv_head in Hc' as ->.
Qed.

Lemma SplitThink_no_run c : is_prefix thinkOpen (trim_left c) = false -> SplitThink c = Some (c, []).
Proof. intros H. unfold SplitThink. cbn [split_loop rest]. by rewrite H. Qed.

(** C34. The strip of a leading run always answers. A reply that opens with a run of
    blocks, each opened first thing after white space and ended by the closer that
    balances it, is answered with exactly what follows the run and with the blocks' texts
    as the reasoning; one whose last block is never closed and holds nothing like a closer
    is all reasoning, none of it lost. The reply is handed back whole, with nothing
    removed, only when it opens with no block or its run is torn: it ends in an opener
    that nothing balances although something like a closer follows. Stripping twice
    removes nothing more. *)
Theorem SplitThink_spec (content : bytes) :
  exists answer reasoning, SplitThink content = Some (answer, reasoning) /\
    (exists run, content = run ++ answer) /\
    (torn content -> answer = content /\ reasoning = []) /\
    (forall cut answer' r, leading cut content answer' r ->
       answer = answer' /\ r `sublist_of` reasoning /\ (cut = false -> reasoning = r)) /\
    (torn content \/ exists cut r, leading cut content answer r) /\
    (is_prefix thinkOpen (trim_left content) = false -> answer = content /\ reasoning = []) /\
    (exists reasoning', SplitThink answer = Some (answer, reasoning')).
Proof.
  destruct (split_loop_spec (S (length content)) content (mkSplit content false [] [] false false) [])
    as (answer & reasoning & E & H); [simpl; lia|by repeat split|done|]. cbn [rest app] in H.
  exists answer, reasoning. split; [done|]. split_and!.
  - destruct H as [[-> _]|(cut & r & H & _)]; [by exists []|]. by eapply leading_suffix.
  - intros Ht. destruct H as [(-> & -> & _)|(cut & r & H & _)]; [done|]. by destruct (torn_not_leading _ Ht _ _ _ H).
  - intros cut answer' r' H'. destruct H as [(_ & _ & Ht)|(cut0 & r & H & Hr & Hs)]; [by destruct (torn_not_leading _ Ht _ _ _ H')|].
    destruct (leading_det _ _ _ _ H _ _ _ H') as (<- & <- & <-). by split_and!.
  - destruct H as [(_ & _ & Ht)|(cut & r & H & _)]; [by left|right; by exists cut, r].
  - intros Hc. pose proof (SplitThink_no_run content Hc) as E'. unfold SplitThink in E'. rewrite E in E'. by injection E' as -> ->.
  - destruct H as [[-> _]|(cut & r & H & _)]; [by exists reasoning|]. exists []. apply SplitThink_no_run. by eapply leading_stops.
Qed.

(** ** The unopened closer *)

Lemma unopened_last l k i d last :
  unopened_scan l k i d last = match unopened_scan l k i d None with Some j => Some j | None => last end.
Proof.
  revert k i d last. induction l as [|c l IH]; intros k i d last; [done|]. cbn [unopened_scan].
  destruct k as [|k]; [|apply IH]. destruct (is_prefix thinkOpen _); [apply IH|].
  destruct (is_prefix thinkClose _); [|apply IH].
  rewrite IH. symmetry. rewrite IH. destruct (unopened_scan l _ _ _ None); [done|]. by destruct (d =? 0).
Qed.

Lemma unopened_skip n l i d last : n <= length l ->
  unopened_scan l n i d last = unopened_scan (drop n l) 0 (i + n) d last.
Proof.
  revert l i. induction n as [|n IH]; intros l i Hn; [by rewrite drop_0, Nat.add_0_r|].
  destruct l as [|c l]; simpl in Hn; [lia|]. cbn [unopened_scan drop]. rewrite IH by lia. f_equal. lia.
Qed.

Lemma unopened_open l i d last : is_prefix thinkOpen l = true ->
  unopened_scan l 0 i d last = unopened_scan (drop (length thinkOpen) l) 0 (i + length thinkOpen) (S d) last.
Proof.
  intros H. pose proof (prefix_length _ _ H) as Hl. destruct l as [|c l]; [done|]. cbn [unopened_scan]. rewrite H.
  change (length thinkOpen) with 7 in *. simpl in Hl. rewrite unopened_skip by lia. cbn [drop Nat.sub]. f_equal. lia.
Qed.

Lemma unopened_close l i d last : is_prefix thinkClose l = true ->
  unopened_scan l 0 i d last = unopened_scan (drop (length thinkClose) l) 0 (i + length thinkClose) (d - 1)
    (if d =? 0 then Some (i + length thinkClose) else last).
Proof.
  intros H. pose proof (prefix_length _ _ H) as Hl. pose proof (open_not_close l H) as Ho.
  destruct l as [|c l]; [done|]. cbn [unopened_scan]. rewrite H, Ho.
  change (length thinkClose) with 8 in *. simpl in Hl. rewrite unopened_skip by lia. cbn [drop Nat.sub]. f_equal. lia.
Qed.

Lemma unopened_shift l i j d : unopened_scan l 0 i d None = None -> unopened_scan l 0 j d None = None.
Proof.
  remember (length l) as n eqn:E. revert l i j d E. induction (lt_wf n) as [n _ IH]. intros l i j d ->.
  destruct l as [|c l]; [done|].
  destruct (is_prefix thinkOpen (c :: l)) eqn:Ho.
  { rewrite (unopened_open _ i), (unopened_open _ j) by done. refine (IH _ _ _ _ _ _ eq_refl). pose proof (prefix_length _ _ Ho).
    rewrite length_drop. change (length thinkOpen) with 7 in *. lia. }
  destruct (is_prefix thinkClose (c :: l)) eqn:Hc.
  { rewrite (unopened_close _ i), (unopened_close _ j) by done. destruct (d =? 0).
    - rewrite unopened_last. by destruct (unopened_scan _ _ _ _ None).
    - refine (IH _ _ _ _ _ _ eq_refl). pose proof (prefix_length _ _ Hc). rewrite length_drop. change (length thinkClose) with 8 in *. lia. }
  cbn [unopened_scan]. rewrite Ho, Hc. refine (IH _ _ _ _ _ _ eq_refl). simpl; lia.
Qed.

Lemma unopened_scan_spec l i d j : unopened_scan l 0 i d None = Some j ->
  exists n, j = i + n + length thinkClose /\ is_prefix thinkClose (drop n l) = true /\
    unopened_scan (drop (n + length thinkClose) l) 0 0 0 None = None.
Proof.
  remember (length l) as m eqn:E. revert l i d E. induction (lt_wf m) as [m _ IH]. intros l i d ->.
  destruct l as [|c l]; [done|].
  assert (forall k d', 0 < k -> k <= length (c :: l) -> unopened_scan (drop k (c :: l)) 0 (i + k) d' None = Some j ->
    exists n, j = i + n + length thinkClose /\ is_prefix thinkClose (drop n (c :: l)) = true /\
      unopened_scan (drop (n + length thinkClose) (c :: l)) 0 0 0 None = None) as Hrec.
  { intros k d' Hk Hle H. destruct (IH (length (drop k (c :: l))) ltac:(rewrite length_drop; lia) _ _ _ eq_refl H)
      as (n & -> & Hp & Hn). exists (k + n). rewrite drop_drop in Hp, Hn. rewrite Nat.add_assoc in Hn. split_and!; [lia|done|done]. }
  destruct (is_prefix thinkOpen (c :: l)) eqn:Ho.
  { rewrite unopened_open by done. apply Hrec; [simpl; lia|by apply prefix_length]. }
  destruct (is_prefix thinkClose (c :: l)) eqn:Hc.
  { rewrite unopened_close by done. destruct d as [|d]; cbn [Nat.eqb].
    - rewrite unopened_last. destruct (unopened_scan _ 0 _ _ None) as [j'|] eqn:Es.
      + intros [= ->]. eapply Hrec; [|by apply prefix_length|exact Es]. simpl; lia.
      + intros [= <-]. exists 0. split_and!; [simpl; lia|done|]. eapply unopened_shift. exact Es.
    - apply Hrec; [simpl; lia|by apply prefix_length]. }
  cbn [unopened_scan]. rewrite Ho, Hc. intros H. apply (Hrec 1 d); [lia|simpl; lia|]. by rewrite Nat.add_1_r.
Qed.

(** ** Bare closers and enclosing blocks, on their own terms *)

(** The blocks open at the end of a text, [d] being open at its start: an opener opens
    one, a closer closes the last one that is open. *)
Fixpoint open_blocks (l : bytes) (skip d : nat) : nat :=
  match l with
  | [] => d
  | c :: l' =>
      match skip with
      | S k => open_blocks l' k d
      | O =>
          if is_prefix thinkOpen l then open_blocks l' (length thinkOpen - 1) (S d)
          else if is_prefix thinkClose l then open_blocks l' (length thinkClose - 1) (d - 1)
          else open_blocks l' 0 d
      end
  end.

(** A closer at [n] with no block open before it. *)
Definition bare_from (d : nat) (l : bytes) (n : nat) : Prop :=
  is_prefix thinkClose (drop n l) = true /\ open_blocks (take n l) 0 d = 0.
Definition bare (l : bytes) (n : nat) : Prop := bare_from 0 l n.

(** A tag is passed as a whole. *)
Lemma bare_open d k n : bare_from d (thinkOpen ++ k) n <->
  exists m, n = length thinkOpen + m /\ bare_from (S d) k m.
Proof.
  unfold bare_from. split.
  - intros [Hp Ho]. destruct (Nat.le_gt_cases (length thinkOpen) n) as [Hn|Hn].
    + exists (n - length thinkOpen). split; [lia|]. rewrite drop_app_ge in Hp by done. split; [done|].
      rewrite take_app_ge in Ho by done.
      exact Ho.
    + exfalso. change (length thinkOpen) with 7 in Hn. do 7 (destruct n as [|n]; [done|]). lia.
  - intros (m & -> & Hp & Ho). rewrite drop_app_add, take_app_add. split; [done|].
    exact Ho.
Qed.

Lemma bare_close d k n : bare_from d (thinkClose ++ k) n <->
  (n = 0 /\ d = 0) \/ exists m, n = length thinkClose + m /\ bare_from (d - 1) k m.
Proof.
  unfold bare_from. split.
  - intros [Hp Ho]. destruct (Nat.le_gt_cases (length thinkClose) n) as [Hn|Hn].
    + right. exists (n - length thinkClose). split; [lia|]. rewrite drop_app_ge in Hp by done. split; [done|].
      rewrite take_app_ge in Ho by done.
      exact Ho.
    + left. change (length thinkClose) with 8 in Hn. destruct n as [|n]; [split; [done|exact Ho]|].
      exfalso. do 7 (destruct n as [|n]; [done|]). lia.
  - intros [[-> ->]|(m & -> & Hp & Ho)]; [done|]. rewrite drop_app_add, take_app_add. split; [done|].
    exact Ho.
Qed.

Lemma is_prefix_take p n l : is_prefix p (take n l) = true -> is_prefix p l = true.
Proof. intros [k Hk]%is_prefix_spec. apply is_prefix_spec. exists (k ++ drop n l). rewrite <- (take_drop n l) at 1. by rewrite Hk, <- app_assoc. Qed.

Lemma bare_byte d c l n : is_prefix thinkOpen (c :: l) = false -> is_prefix thinkClose (c :: l) = false ->
  bare_from d (c :: l) n <-> exists m, n = S m /\ bare_from d l m.
Proof.
  intros Ho Hc. unfold bare_from. destruct n as [|n].
  - change (drop 0 (c :: l)) with (c :: l). rewrite Hc. split; [by intros [? _]|by intros (? & ? & _)].
  - assert (open_blocks (take (S n) (c :: l)) 0 d = open_blocks (take n l) 0 d) as ->.
    { cbn [take open_blocks].
      destruct (is_prefix thinkOpen (c :: take n l)) eqn:E1; [by rewrite (is_prefix_take _ (S n) (c :: l) E1) in Ho|].
      destruct (is_prefix thinkClose (c :: take n l)) eqn:E2; [by rewrite (is_prefix_take _ (S n) (c :: l) E2) in Hc|]. done. }
    split; [intros H; by exists n|by intros (m & [= ->] & H)].
Qed.

(** The scan finds the end of the last one. *)
Definition last_from (d : nat) (l : bytes) (i : nat) (answer : option nat) : Prop :=
  match answer with
  | Some j => exists n, j = i + n + length thinkClose /\ bare_from d l n /\ forall m, n < m -> ~ bare_from d l m
  | None => forall n, ~ bare_from d l n
  end.

Lemma last_from_shift k d d' l l' i answer : (forall n, bare_from d l n <-> exists m, n = k + m /\ bare_from d' l' m) ->
  last_from d' l' (i + k) answer -> last_from d l i answer.
Proof.
  intros H. destruct answer as [j|]; cbn [last_from].
  - intros (n & -> & Hb & Hl). exists (k + n). split; [lia|]. split; [apply H; by exists n|].
    intros m Hm (m' & -> & Hb')%H. apply (Hl m'); [lia|done].
  - intros Hn n (m & _ & Hb)%H. by apply (Hn m).
Qed.

Lemma unopened_bare l i d : last_from d l i (unopened_scan l 0 i d None).
Proof.
  remember (length l) as len eqn:E. revert l i d E. induction (lt_wf len) as [len _ IH]. intros l i d ->.
  destruct l as [|c l]; [intros n [H _]; by rewrite drop_nil in H|].
  destruct (is_prefix thinkOpen (c :: l)) eqn:Ho; [|destruct (is_prefix thinkClose (c :: l)) eqn:Hc].
  - rewrite unopened_open by done. apply is_prefix_spec in Ho as [k Ho]. rewrite Ho, drop_app_length.
    apply (last_from_shift (length thinkOpen) d (S d) _ k); [apply bare_open|].
    refine (IH (length k) _ k _ (S d) eq_refl). rewrite Ho, length_app. change (length thinkOpen) with 7. lia.
  - rewrite unopened_close by done. apply is_prefix_spec in Hc as [k Hc]. rewrite Hc, drop_app_length. rewrite unopened_last.
    assert (length k < length (c :: l)) as Hk by (rewrite Hc, length_app; change (length thinkClose) with 8; lia).
    pose proof (IH _ Hk k (i + length thinkClose) (d - 1) eq_refl) as H.
    destruct (unopened_scan k _ _ _ _) as [j|].
    + destruct H as (n & -> & Hb & Hl). exists (length thinkClose + n). split; [lia|]. split; [apply bare_close; right; by exists n|].
      intros m Hm [[-> _]|(m' & -> & H)]%bare_close; [lia|]. apply (Hl m'); [lia|done].
    + destruct (Nat.eqb_spec d 0) as [->|Hd].
      * exists 0. split; [lia|]. split; [apply bare_close; by left|].
        intros m Hm [[-> _]|(m' & _ & H')]%bare_close; [lia|]. by apply (H m').
      * intros n [[_ ?]|(m & _ & H')]%bare_close; [done|]. by apply (H m).
  - cbn [unopened_scan]. rewrite Ho, Hc. apply (last_from_shift 1 d d _ l); [intros n; by apply bare_byte|].
    rewrite Nat.add_1_r. refine (IH (length l) _ l _ d eq_refl). simpl. lia.
Qed.

(** A block with text in it: an opener whose text, up to the next closer or the end, is
    not blank. *)
Definition block_text (l : bytes) : bytes := match index_of thinkClose l with Some e => take e l | None => l end.
Definition encloses (l : bytes) : Prop :=
  exists n, is_prefix thinkOpen (drop n l) = true /\ blank (block_text (drop (n + length thinkOpen) l)) = false.

Lemma blank_no_tag l : blank l = true -> "<"%char ∉ l.
Proof.
  unfold blank. intros H%String.eqb_eq Hin.
  assert ("<"%char ∈ to_bytes (TrimSpace (of_bytes l))) as H'; [|rewrite H in H'; by apply elem_of_nil in H'].
  apply TrimSpace_keeps; [by rewrite list_ascii_of_string_of_list_ascii|apply (bool_decide_eq_true_1 _); by vm_compute].
Qed.

(** No opener begins in a blank text, even one that ends past it. *)
Lemma blank_no_open l e n : blank (take e l) = true -> n < e -> is_prefix thinkOpen (drop n l) = false.
Proof.
  intros Hb Hn. destruct (is_prefix thinkOpen (drop n l)) eqn:E; [|done]. exfalso. apply (blank_no_tag _ Hb).
  apply is_prefix_spec in E as [k E]. apply list_elem_of_lookup. exists n. rewrite lookup_take_lt by done.
  rewrite <- (Nat.add_0_r n), <- lookup_drop, E. done.
Qed.

(** No opener begins inside a tag. *)
Lemma tag_no_open tag l j : is_prefix tag l = true -> tag = thinkOpen \/ tag = thinkClose -> 0 < j < length tag ->
  is_prefix thinkOpen (drop j l) = false.
Proof.
  intros [k ->]%is_prefix_spec [->| ->] Hj; [change (length thinkOpen) with 7 in Hj|change (length thinkClose) with 8 in Hj];
    do 8 (destruct j as [|j]; [first [lia|reflexivity]|]); lia.
Qed.

Lemma enclosing_spec fuel l : length l < fuel -> exists b, enclosing_loop fuel l = Some b /\ (b = true <-> encloses l).
Proof.
  revert l. induction fuel as [|k IH]; intros l Hf; [lia|]. cbn [enclosing_loop].
  destruct (index_of thinkOpen l) as [o|] eqn:Eo.
  2: { exists false. split; [done|]. split; [done|]. intros (n & Hn & _). by rewrite (index_of_none _ _ n Eo) in Hn. }
  pose proof (index_of_drop _ _ _ Eo) as Hpo. pose proof (drop_short _ _ _ open_nonempty Eo) as Hlo.
  assert (forall b, (blank (block_text (drop (o + length thinkOpen) l)) = false -> b = true) ->
    (b = true -> encloses l) -> (forall n, o < n -> is_prefix thinkOpen (drop n l) = true ->
      blank (block_text (drop (n + length thinkOpen) l)) = false -> b = true) -> b = true <-> encloses l) as Hiff.
  { intros b H1 H2 H3. split; [done|]. intros (n & Hn & Hb). destruct (Nat.lt_trichotomy n o) as [Hlt|[->|Hgt]].
    - by rewrite (index_of_first _ _ _ n Eo Hlt) in Hn.
    - by apply H1.
    - by apply (H3 n). }
  assert (forall b, block_text (drop (o + length thinkOpen) l) = b -> blank b = false -> encloses l) as Hfound
    by (intros b <- Hb; by exists o).
  set (rest := drop (o + length thinkOpen) l) in *. unfold block_text in Hfound at 1, Hiff at 1.
  assert (forall n, o < n -> is_prefix thinkOpen (drop n l) = true -> exists m, n = o + length thinkOpen + m) as Hpast.
  { intros n Hn Hp. destruct (Nat.le_gt_cases (o + length thinkOpen) n); [exists (n - (o + length thinkOpen)); lia|]. exfalso.
    assert (n = o + (n - o)) as En by lia. rewrite En, <- drop_drop in Hp.
    rewrite (tag_no_open thinkOpen _ (n - o) Hpo) in Hp; [done|by left|lia]. }
  destruct (index_of thinkClose rest) as [e|] eqn:Ee.
  - destruct (blank (take e rest)) eqn:Eb; cbn [negb].
    + destruct (IH (drop (e + length thinkClose) rest)) as (b & -> & Hb).
      { pose proof (drop_short _ _ _ close_nonempty Ee). lia. }
      exists b. split; [done|]. apply Hiff; [done| |].
      * intros (n & Hn & Ht)%Hb. exists (o + length thinkOpen + (e + length thinkClose + n)).
        unfold rest in Hn, Ht. rewrite !drop_drop in Hn, Ht. split; [exact Hn|].
        by replace (o + length thinkOpen + (e + length thinkClose + n) + length thinkOpen) with
          (o + length thinkOpen + (e + length thinkClose + (n + length thinkOpen))) by lia.
      * intros n Hn Hp Ht. destruct (Hpast n Hn Hp) as [m ->]. rewrite <- drop_drop in Hp. fold rest in Hp.
        apply Hb. exists (m - (e + length thinkClose)).
        destruct (Nat.le_gt_cases (e + length thinkClose) m) as [Hle|Hgt].
        -- rewrite !drop_drop. replace (e + length thinkClose + (m - (e + length thinkClose))) with m by lia. split; [done|].
           replace (e + length thinkClose + (m - (e + length thinkClose) + length thinkOpen)) with (m + length thinkOpen) by lia.
           unfold rest. rewrite drop_drop. by rewrite Nat.add_assoc.
        -- exfalso. destruct (Nat.le_gt_cases e m) as [Hem|Hem]; [|by rewrite (blank_no_open rest e m Eb Hem) in Hp].
           pose proof (index_of_drop _ _ _ Ee) as Hpc. assert (m = e + (m - e)) as Em by lia. rewrite Em, <- drop_drop in Hp.
           destruct (decide (m = e)) as [->|Hne].
           ++ rewrite Nat.sub_diag, drop_0, (open_not_close _ Hpc) in Hp. done.
           ++ rewrite (tag_no_open thinkClose _ (m - e) Hpc) in Hp; [done|by right|lia].
    + exists true. split; [done|]. split; [|done]. intros _. by eapply Hfound.
  - exists (negb (blank rest)). split; [done|]. destruct (blank rest) eqn:Eb; cbn [negb].
    + apply Hiff; [done|done|]. intros n Hn Hp _. destruct (Hpast n Hn Hp) as [m ->]. rewrite <- drop_drop in Hp. fold rest in Hp.
      rewrite (blank_no_open rest (S (m + length rest)) m) in Hp; [done| |lia]. by rewrite take_ge by lia.
    + split; [|done]. intros _. by eapply Hfound.
Qed.

(** ** The mask *)

(** A byte and what the mask leaves of it. *)
Definition masks (a b : ascii) : Prop := b = a \/ b = " "%char.

Lemma mask_scan_masks l m : Forall2 masks l (fst (mask_scan l m)).
Proof.
  revert m. induction l as [|c l IH]; intros m; [constructor|]. cbn [mask_scan].
  destruct (mask_byte c (c :: l) m) as [b m1] eqn:E. specialize (IH m1). destruct (mask_scan l m1) as [bs m2].
  constructor; [|exact IH]. unfold mask_byte in E. unfold masks. repeat case_match; simplify_eq; auto.
Qed.

Lemma Mask_masks s : Forall2 masks s (MaskJSONStrings s).
Proof.
  unfold MaskJSONStrings. pose proof (mask_scan_masks s mask_start) as H.
  destruct (mask_scan s mask_start) as [masked m]. destruct (_ || _); [|exact H].
  apply Forall_Forall2_diag, Forall_true. intros c. by left.
Qed.

Lemma masks_prefix p a b : Forall2 masks a b -> " "%char ∉ p -> is_prefix p b = true -> is_prefix p a = true.
Proof.
  intros H. revert p. induction H as [|x y a b Hxy _ IH]; intros p Hp; [by destruct p|]. destruct p as [|c p]; [done|].
  apply not_elem_of_cons in Hp as [Hc Hp]. cbn [is_prefix]. rewrite !andb_true_iff, !Ascii.eqb_eq.
  intros [<- Hpb]. split; [|by apply IH]. by destruct Hxy as [->| ->].
Qed.

(** The rule for a bare closer. The text it answers is a suffix of the reply; it is
    the whole reply unless the part after the last unopened closer carries an
    envelope, and is then that part. The boundary is a literal closer of the reply
    itself, with no unopened closer left after it under the mask, and the three
    sections and the flag say exactly which sides of it carry an envelope, so no
    text is chosen when both do without the caller being told. *)
Theorem ClassifyUnopenedCloser_spec (answer : bytes) (hasEnvelope : bytes -> bool) :
  let '(section, text, flag) := ClassifyUnopenedCloser answer hasEnvelope in
  (section = SectionWholeAnswer /\ text = answer /\ flag = false /\
     IndexAfterUnopenedCloser (MaskJSONStrings answer) = None) \/
  exists before after, answer = before ++ thinkClose ++ after /\
    IndexAfterUnopenedCloser (drop (length (before ++ thinkClose)) (MaskJSONStrings answer)) = None /\
    flag = hasEnvelope (before ++ thinkClose) /\
    match section with
    | SectionWholeAnswer => text = answer /\ hasEnvelope after = false
    | SectionAfterCloser => text = after /\ hasEnvelope after = true /\ flag = false
    | SectionAmbiguous => text = after /\ hasEnvelope after = true /\ flag = true
    end.
Proof.
  unfold ClassifyUnopenedCloser. destruct (IndexAfterUnopenedCloser _) as [i|] eqn:Ei; [|by left].
  unfold IndexAfterUnopenedCloser in Ei. apply unopened_scan_spec in Ei as (n & -> & Hp & Hn). cbn [Nat.add] in *.
  pose proof (Mask_masks answer) as Hm. pose proof (Forall2_length _ _ _ Hm) as Hlen.
  assert (is_prefix thinkClose (drop n answer) = true) as Hpa.
  { eapply masks_prefix; [by apply Forall2_drop|apply (bool_decide_eq_true_1 _); by vm_compute|done]. }
  pose proof (prefix_length _ _ Hpa) as Hle. rewrite length_drop in Hle.
  apply is_prefix_spec in Hpa as [after Ha].
  assert (n <= length answer) as Hna by (change (length thinkClose) with 8 in Hle; lia).
  assert (answer = (take n answer ++ thinkClose) ++ after) as Hans by (by rewrite <- app_assoc, <- Ha, take_drop).
  assert (length (take n answer ++ thinkClose) = n + length thinkClose) as Hbl
    by (rewrite length_app, length_take; lia).
  rewrite (proj2 (Nat.ltb_ge _ _)) by lia.
  assert (drop (n + length thinkClose) answer = after) as Hd by (rewrite Hans, <- Hbl; by rewrite drop_app_length).
  assert (take (n + length thinkClose) answer = take n answer ++ thinkClose) as Ht
    by (rewrite Hans at 1; rewrite <- Hbl; by rewrite take_app_length).
  rewrite Hd, Ht. destruct (hasEnvelope after) eqn:E1; cbn [negb];
    [destruct (hasEnvelope (take n answer ++ thinkClose)) eqn:E2|]; right;
    exists (take n answer), after; (split; [by rewrite Hans at 1; rewrite <- app_assoc|]); rewrite Hbl; auto.
Qed.

(** A reply without a bare closer outside its JSON strings, and one cut in two by the last
    such closer. *)
Definition uncut (answer : bytes) : Prop := forall n, ~ bare (MaskJSONStrings answer) n.
Definition cut_at (answer before after : bytes) : Prop :=
  answer = before ++ thinkClose ++ after /\ bare (MaskJSONStrings answer) (length before) /\
  forall n, length before < n -> ~ bare (MaskJSONStrings answer) n.

Lemma closer_cases (answer : bytes) :
  (uncut answer /\ forall env, ClassifyUnopenedCloser answer env = (SectionWholeAnswer, answer, false)) \/
  exists before after, cut_at answer before after /\ forall env, ClassifyUnopenedCloser answer env =
    if env after then if env (before ++ thinkClose) then (SectionAmbiguous, after, true) else (SectionAfterCloser, after, false)
    else (SectionWholeAnswer, answer, env (before ++ thinkClose)).
Proof.
  unfold ClassifyUnopenedCloser. pose proof (unopened_bare (MaskJSONStrings answer) 0 0) as H.
  fold (IndexAfterUnopenedCloser (MaskJSONStrings answer)) in H.
  destruct (IndexAfterUnopenedCloser (MaskJSONStrings answer)) as [j|]; cbn [last_from] in H; [right|by left].
  destruct H as (n & -> & [Hp Ho] & Hlast). cbn [Nat.add].
  pose proof (Mask_masks answer) as Hm. pose proof (Forall2_length _ _ _ Hm) as Hlen.
  assert (is_prefix thinkClose (drop n answer) = true) as Hpa.
  { eapply masks_prefix; [by apply Forall2_drop|apply (bool_decide_eq_true_1 _); by vm_compute|done]. }
  pose proof (prefix_length _ _ Hpa) as Hle. rewrite length_drop in Hle.
  apply is_prefix_spec in Hpa as [after Ha].
  assert (length (take n answer) = n) as Hn by (rewrite length_take; change (length thinkClose) with 8 in Hle; lia).
  assert (answer = take n answer ++ thinkClose ++ after) as Hans by (by rewrite <- Ha, take_drop).
  exists (take n answer), after. unfold cut_at, bare. rewrite Hn. split; [by split_and!|]. intros env.
  rewrite (proj2 (Nat.ltb_ge _ _)) by (change (length thinkClose) with 8 in *; lia).
  assert (drop (n + length thinkClose) answer = after) as -> by (by rewrite <- drop_drop, Ha, drop_app_length).
  assert (take (n + length thinkClose) answer = take n answer ++ thinkClose) as ->.
  { rewrite Hans at 1. rewrite app_assoc. rewrite take_app_length'; [done|]. rewrite length_app. lia. }
  by destruct (env after), (env (take n answer ++ thinkClose)).
Qed.

(** The mask's state on the masked copy beside its state on the reply. *)
Definition shadow (m m' : mask) : Prop :=
  inStr m' = inStr m /\ openCtx m' = openCtx m /\ (inStr m = false -> escaped m = false) /\
  escaped m' = false /\ cutPair m' = false /\ runHasOpener m' = false.

Lemma mask_byte_shadow c l b m m1 l' m' :
  shadow m m' -> mask_byte c l m = (b, m1) -> exists m1', mask_byte b (b :: l') m' = (b, m1') /\ shadow m1 m1'.
Proof.
  intros (Hi & Ho & He & He' & Hc & Hr). unfold mask_byte at 1. destruct (inStr m) eqn:Em; cbn [negb].
  - destruct (escaped m) eqn:Ee.
    + intros [= <- <-]. unfold mask_byte. rewrite Hi, He', Hc, Hr. cbn. eexists. by repeat split.
    + set (cut := cutPair m || _). set (run := runHasOpener m || _). clearbody cut run.
      destruct (Ascii.eqb c backslash).
      * intros [= <- <-]. unfold mask_byte. rewrite Hi, He', Hc, Hr. cbn. eexists. by repeat split.
      * destruct (Ascii.eqb_spec c quote) as [->|].
        -- intros [= <- <-]. unfold mask_byte. rewrite Hi, He', Hc, Hr. cbn. eexists. by repeat split.
        -- intros [= <- <-]. unfold mask_byte. rewrite Hi, He', Hc, Hr. cbn. eexists. by repeat split.
  - rewrite He by done. intros [= <- <-]. unfold mask_byte. rewrite Hi, Ho, He', Hc, Hr. cbn [negb].
    destruct (Ascii.eqb c quote && openCtx m); [eexists; by repeat split|].
    destruct (is_ctx_space c); eexists; repeat split; auto; congruence.
Qed.

Lemma mask_scan_shadow l m m' : shadow m m' ->
  exists m2, mask_scan (fst (mask_scan l m)) m' = (fst (mask_scan l m), m2) /\ cutPair m2 = false.
Proof.
  revert m m'. induction l as [|c l IH]; intros m m' Hs; [exists m'; by destruct Hs as (_ & _ & _ & _ & ? & _)|].
  cbn [mask_scan]. destruct (mask_byte c (c :: l) m) as [b m1] eqn:E.
  destruct (mask_scan l m1) as [bs m2] eqn:El. cbn [fst mask_scan].
  destruct (mask_byte_shadow _ _ _ _ _ bs _ Hs E) as (m1' & -> & Hs1).
  destruct (IH m1 m1' Hs1) as (m3 & E3 & H3). rewrite El in E3. cbn [fst] in E3. rewrite E3. by exists m3.
Qed.

Lemma mask_scan_no_quote l m : quote ∉ l -> inStr m = false ->
  exists m', mask_scan l m = (l, m').
Proof.
  revert m. induction l as [|c l IH]; intros m; [by exists m|].
  intros [Hc Hl]%not_elem_of_cons Hm. cbn [mask_scan]. unfold mask_byte. rewrite Hm. cbn [negb].
  rewrite (proj2 (Ascii.eqb_neq c quote)) by done. cbn [andb].
  destruct (is_ctx_space c); [destruct (IH m Hl Hm) as [m' ->]; by exists m'|].
  match goal with |- context [mask_scan l ?m1] => destruct (IH m1 Hl eq_refl) as [m' ->] end. by exists m'.
Qed.

(** The mask keeps every byte in its place: it changes a byte only into a space, so
    an offset found in the masked copy is the same offset of the reply; it leaves a
    reply without quotes alone, and masking the copy changes nothing more. *)
Theorem MaskJSONStrings_spec (s : bytes) :
  length (MaskJSONStrings s) = length s /\ Forall2 masks s (MaskJSONStrings s) /\
  (quote ∉ s -> MaskJSONStrings s = s) /\
  MaskJSONStrings (MaskJSONStrings s) = MaskJSONStrings s.
Proof.
  pose proof (Mask_masks s) as Hm. split_and!; [symmetry; by eapply Forall2_length|done| |].
  - intros Hq. unfold MaskJSONStrings. destruct (mask_scan_no_quote s mask_start Hq eq_refl) as [m' ->]. by destruct (_ || _).
  - destruct (mask_scan_shadow s mask_start mask_start) as (m2 & E2 & H2); [by repeat split|].
    assert (MaskJSONStrings s = s \/ MaskJSONStrings s = fst (mask_scan s mask_start)) as [E| ->].
    { unfold MaskJSONStrings. destruct (mask_scan s mask_start). destruct (_ || _); auto. }
    { by rewrite !E. }
    unfold MaskJSONStrings. rewrite E2, H2. by destruct (_ || _).
Qed.

Definition text (s : string) : bytes := to_bytes s.

(** The first pair's text is written into the builder twice when two pairs precede an
    opener that is never closed. *)
Example SplitThink_duplicates :
  SplitThink (text "<think>a</think><think>b</think><think>c") = Some ([], text "abac") /\
  SplitThink (text "<think>a</think><think>b</think>c") = Some (text "c", text "ab").
Proof. by vm_compute. Qed.

(** A blank bare closer in front hides a block with text from the detector. *)
Example HasThinkMarkup_hidden :
  HasThinkMarkup (text "</think><think>draft</think>answer") = Some false /\
  HasEnclosingThinkBlock (text "</think><think>draft</think>answer") = Some true.
Proof. by vm_compute. Qed.
