(* ===== verification/SkepticVerdict.v ===== *)
(** * The skeptic's verdict

    src/internal/verify: the reading of a verdict out of a skeptic's reply
    (verdict.go), the choice of the committed envelope around a bare closer and the
    grade of one skeptic run (invoke.go), and the vote over several skeptics
    (votes.go). The engine run itself is its [Result]. *)

From Stdlib Require Import Ascii String.
From stdpp Require Import prelude strings gmap list pretty.
From Stdlib Require Import ZArith Lia.
From S2P Require Import Prelude GoString GoStrconv GoJson JsonDecode JsonRoundtrip Finding JsonRepair Stream ModelOutput Think.

Open Scope string_scope.
Open Scope list_scope.
Open Scope nat_scope.

(** ** verdict.go *)

Definition verdictConfirmed : string := "confirmed".
Definition verdictRefuted : string := "refuted".
Definition verdictUnverifiable : string := "unverifiable".
Definition verdicts : list string := [verdictConfirmed; verdictRefuted; verdictUnverifiable].

(** A [reclib.Verification] with only these fields set. *)
Definition verification (verdict skeptic notes : string) : Verification := mkVerification verdict skeptic notes false false.

(** [extractJSONObject]'s loop from a byte inside the object: the bytes up to the
    brace that closes it. *)
Fixpoint object_scan (l : bytes) (depth : nat) (inStr escaped : bool) : option bytes :=
  match l with
  | [] => None
  | c :: l' =>
      if inStr then
        cons c <$> (if escaped then object_scan l' depth true false
                    else if Ascii.eqb c backslash then object_scan l' depth true true
                    else if Ascii.eqb c quote then object_scan l' depth false false
                    else object_scan l' depth true false)
      else if Ascii.eqb c quote then cons c <$> object_scan l' depth true false
      else if Ascii.eqb c "{" then cons c <$> object_scan l' (S depth) false false
      else if Ascii.eqb c "}" then
        if depth =? 1 then Some [c] else cons c <$> object_scan l' (depth - 1) false false
      else cons c <$> object_scan l' depth false false
  end.

(** The empty string stands for none. *)
Definition extractJSONObject (s : bytes) : bytes :=
  match index_of (to_bytes "{") s with
  | None => []
  | Some start => default [] (object_scan (drop start s) 0 false false)
  end.

(** The candidates [forEachJSONObjectAt] hands its callback, in order, with their
    offsets; the outer [None] is fuel running out. *)
Fixpoint objects_from (fuel off : nat) (s : bytes) : option (list (bytes * nat)) :=
  match fuel with
  | O => None
  | S k =>
      let rest := drop off s in
      match extractJSONObject rest with
      | [] =>
          match index_of (to_bytes "{") rest with
          | None => Some []
          | Some next => objects_from k (off + (next + 1)) s
          end
      | obj =>
          let start := off + default 0 (index_of obj rest) in
          cons (obj, start) <$> objects_from k (start + length obj) s
      end
  end.
Definition forEachJSONObjectAt (s : bytes) : option (list (bytes * nat)) := objects_from (S (length s)) 0 s.
Definition forEachJSONObject (s : bytes) : option (list bytes) := cands ← forEachJSONObjectAt s; Some (map fst cands).

Definition notesRawCap : nat := 2000.
Definition elision : bytes := map byte_of [226; 128; 166]%N ++ to_bytes "[truncated]".

(** The walk down to a byte that starts a rune. *)
Fixpoint rune_floor (cut : nat) (s : bytes) : nat :=
  match cut with
  | O => O
  | S k => match s !! cut with
           | Some c => if continuation c then rune_floor k s else cut
           | None => cut
           end
  end.
Definition truncateForNotes (s : bytes) : bytes :=
  if length s <=? notesRawCap then s else take (rune_floor notesRawCap s) s ++ elision.

Inductive parseCause := parseCauseUsable | parseCauseMalformed | parseCauseInvalidEnum | parseCauseEmpty.
#[export] Instance parseCause_eq_dec : EqDecision parseCause.
Proof. solve_decision. Defined.

Definition usableVerdictCause (c : parseCause) : bool := bool_decide (c = parseCauseUsable).

(** The struct [read] decodes a candidate into. *)
Definition candidate_fields : list (string * decoder (option string * string)) :=
  [field "verdict" fst (fun x c => (x, snd c)) (dec_pointer "" dec_string);
   field "reasoning" snd (fun x c => (fst c, x)) dec_string].

(** [hasVerdictKey] *)
Definition keyed_fields : list (string * decoder (option string)) :=
  [field "verdict" id (fun x _ => x) (dec_pointer "" dec_string)].
Definition hasVerdictKey (obj : bytes) : bool :=
  match Unmarshal (dec_struct keyed_fields) None obj with Some (Some _) => true | _ => false end.

(** What [read] makes of a candidate: nothing, the out-of-enum text it remembers, or a
    verdict. *)
Inductive reading := NotVerdict | OutOfEnum (text : bytes) | Graded (v : Verification).

(** The [start, end) of the contents of each closed json fence: [off] is the offset of
    the first of the lines left. *)
Fixpoint fence_spans (lines : list string) (off start : nat) (inFence inJSON : bool) (len : nat) : list (nat * nat) :=
  match lines with
  | [] => []
  | raw :: lines' =>
      if len <=? off then []
      else
        let next := Nat.min (off + String.length raw + 1) len in
        let line := TrimRightCR raw in
        if inFence && isFenceMarker line then
          (if inJSON then [(start, off)] else []) ++ fence_spans lines' next start false false len
        else if isJSONFence line then fence_spans lines' next next true true len
        else if isFenceMarker line then fence_spans lines' next start true inJSON len
        else fence_spans lines' next start inFence inJSON len
  end.
Definition jsonFenceSpans (s : bytes) : list (nat * nat) :=
  fence_spans (Split (of_bytes s) LF) 0 0 false false (length s).

(** A candidate the repair pass may read, its repaired text and its offset. *)
Record loose_candidate := mkLoose { obj : bytes; fixed : bytes; start : nat }.

(** One candidate's share of the count of verdict-keyed objects, and of the loose ones.
    [None] is an index panic in [jsonrepair.Repair]. *)
Definition loose_step (acc : nat * list loose_candidate) (c : bytes * nat) : option (nat * list loose_candidate) :=
  '(out, ok) ← Repair (fst c);
  Some (if ok : bool
        then if hasVerdictKey out then (S (fst acc), snd acc ++ [mkLoose (fst c) out (snd c)]) else acc
        else if hasVerdictKey (fst c) then (S (fst acc), snd acc) else acc).

Definition is_fenced (fences : list (nat * nat)) (c : loose_candidate) : bool :=
  existsb (fun f => (fst f <=? start c) && (start c + length (obj c) <=? snd f)) fences.

Section verdict.
Context {U : UnicodeCase}.

Definition read (obj : bytes) : reading :=
  match Unmarshal (dec_struct candidate_fields) (None, "") obj with
  | Some (Some verdict, reasoning) =>
      let norm := lower_trim verdict in
      if bool_decide (norm ∈ verdicts)
      then Graded (verification norm "" (of_bytes (truncateForNotes (to_bytes reasoning))))
      else OutOfEnum (truncateForNotes (to_bytes verdict))
  | _ => NotVerdict
  end.

(** The first value [invalidEnum] is set to stays. *)
Definition remember (inv : option bytes) (text : bytes) : option bytes :=
  match inv with Some _ => inv | None => Some text end.

(** The strict pass. *)
Fixpoint strict_pass (objs : list bytes) (inv : option bytes) : option Verification * option bytes :=
  match objs with
  | [] => (None, inv)
  | o :: objs' =>
      match read o with
      | Graded v => (Some v, inv)
      | OutOfEnum t => strict_pass objs' (remember inv t)
      | NotVerdict => strict_pass objs' inv
      end
  end.

(** [repairPass]'s loop over the loose candidates. *)
Fixpoint repair_loop (fences : list (nat * nat)) (keyed : nat) (whole : bytes) (loose : list loose_candidate)
    (inv : option bytes) : option Verification * option bytes :=
  match loose with
  | [] => (None, inv)
  | c :: loose' =>
      let fenced := is_fenced fences c in
      if negb fenced && negb (keyed =? 1) then repair_loop fences keyed whole loose' inv
      else match read (fixed c) with
           | NotVerdict => repair_loop fences keyed whole loose' inv
           | OutOfEnum t => repair_loop fences keyed whole loose' (remember inv t)
           | Graded v =>
               if (Verdict v =? verdictRefuted)%string && negb fenced && negb (bool_decide (obj c = whole))
               then repair_loop fences keyed whole loose' inv
               else (Some v, inv)
           end
  end.

Definition repairPass (response : bytes) (inv : option bytes) : option (option Verification * option bytes) :=
  cands ← forEachJSONObjectAt response;
  '(keyed, loose) ← foldM loose_step (0, []) cands;
  Some (repair_loop (jsonFenceSpans response) keyed (to_bytes (TrimSpace (of_bytes response))) loose inv).

(** [None] is a scan that does not end or an index panic. *)
Definition parseVerdictCore (response : bytes) : option (Verification * parseCause * bool) :=
  if (TrimSpace (of_bytes response) =? "")%string
  then Some (verification verdictUnverifiable "" "empty_response", parseCauseEmpty, false)
  else
    objs ← forEachJSONObject response;
    let '(result, inv) := strict_pass objs None in
    match result with
    | Some v => Some (v, parseCauseUsable, false)
    | None =>
        '(result, inv) ← repairPass response inv;
        Some (match result with
              | Some v => (v, parseCauseUsable, true)
              | None =>
                  match inv with
                  | Some text =>
                      (verification verdictUnverifiable ""
                         (of_bytes (to_bytes "invalid_verdict: " ++ text ++ to_bytes " (raw: " ++
                                    truncateForNotes response ++ to_bytes ")")),
                       parseCauseInvalidEnum, false)
                  | None =>
                      (verification verdictUnverifiable ""
                         (of_bytes (to_bytes "malformed_output: " ++ truncateForNotes response)),
                       parseCauseMalformed, false)
                  end
              end)
    end.

Definition parseVerdictCause (response : bytes) : option (Verification * parseCause) := fst <$> parseVerdictCore response.
Definition parseVerdict (response : bytes) : option Verification := fst <$> parseVerdictCause response.
End verdict.

(** ** invoke.go: the committed envelope *)

Inductive closerSection := sectionWholeAnswer | sectionAfterCloser | sectionAmbiguous | sectionPrefixOnly.
#[export] Instance closerSection_eq_dec : EqDecision closerSection.
Proof. solve_decision. Defined.

Definition classifyUnopenedCloser (answer : bytes) (hasEnvelope : bytes -> bool) : closerSection * bytes :=
  let '(section, text, prefixHasEnvelope) := ClassifyUnopenedCloser answer hasEnvelope in
  match section with
  | SectionAfterCloser => (sectionAfterCloser, text)
  | SectionAmbiguous => (sectionAmbiguous, text)
  | SectionWholeAnswer => (if prefixHasEnvelope then sectionPrefixOnly else sectionWholeAnswer, text)
  end.

(** [verdictFromAnswer]'s answer: ambiguous, or the verdict with the bytes dropped ahead
    of its section. *)
Inductive committed := Ambiguous | Committed (v : Verification) (discardedPrefix : nat) (section : closerSection).

Definition fragmentAfterToken : string := "verdict_after_unopened_closer".
Definition fragmentBeforeToken : string := "verdict_before_unopened_closer".

(** A literal of [markerTokenPattern] at the head, in any case ((?i) folds s with
    U+017F too): the bytes matched. *)
Fixpoint match_fold (pat l : bytes) : option nat :=
  match pat with
  | [] => Some 0
  | p :: pat' =>
      match l with
      | c :: l' =>
          if Ascii.eqb (lower_byte c) p then S <$> match_fold pat' l'
          else if Ascii.eqb p "s" && is_prefix (map byte_of [197; 191]%N) l
          then (fun n => S (S n)) <$> match_fold pat' (tail l') else None
      | [] => None
      end
  end.
Definition match_marker (l : bytes) : option nat :=
  match match_fold (to_bytes fragmentAfterToken) l with
  | Some n => Some n
  | None => match_fold (to_bytes fragmentBeforeToken) l
  end.

(** [ReplaceAllStringFunc]: [skip] bytes of a match are still to be rewritten. *)
Fixpoint neutralise (l : bytes) (skip : nat) : bytes :=
  match l with
  | [] => []
  | c :: l' =>
      let hyphen := if Ascii.eqb c "_" then "-"%char else c in
      match skip with
      | S k => hyphen :: neutralise l' k
      | O => match match_marker l with
             | Some n => hyphen :: neutralise l' (n - 1)
             | None => c :: neutralise l' 0
             end
      end
  end.
Definition neutraliseMarkerTokens (s : string) : string := of_bytes (neutralise (to_bytes s) 0).

Definition leadWithFragmentMarker (marker notes : string) : string :=
  if (notes =? "")%string then marker else marker +:+ " " +:+ notes.

(** [None] is [ok == false]. *)
Definition splitFragmentMarker (notes : string) : option (string * string) :=
  if negb (HasPrefix notes ("[" +:+ fragmentAfterToken +:+ ":")) &&
     negb (HasPrefix notes ("[" +:+ fragmentBeforeToken +:+ ":")) then None
  else match index_of (to_bytes "]") (to_bytes notes) with
       | None => None
       | Some end_ =>
           Some (of_bytes (take (end_ + 1) (to_bytes notes)), TrimPrefix (of_bytes (drop (end_ + 1) (to_bytes notes))) " ")
       end.

(** What [invokeSkeptic] reads of the engine's [fanout.Result]. *)
Record RunResult := mkRunResult {
  Status : string;
  Err : option string;
  Content : bytes;
  TrippedBudgets : list string;
  ResponseTruncated : bool;
  Salvaged : bool;
}.
Definition StatusOK : string := "ok".
Definition budgetToolBytes : string := "tool_budget_bytes".

Definition tripsVoidTheVerdict (tripped : list string) (derivedBudget : bool) : bool :=
  if negb derivedBudget then 0 <? length tripped
  else existsb (fun b => negb (b =? budgetToolBytes)%string) tripped.

Definition failureNotes (res : RunResult) : string :=
  "skeptic run halted (status: " +:+ Status res +:+ ")" +:+
  (if 0 <? length (TrippedBudgets res) then "; tripped budgets: " +:+ Join (TrippedBudgets res) ", " else "") +:+
  (match Err res with Some e => "; error: " +:+ e | None => "" end).

Section grade.
Context {U : UnicodeCase}.

(** A scan that does not end carries nothing; [parseVerdictCore_total] shows there is
    none. *)
Definition carriesVerdict (s : bytes) : bool :=
  match parseVerdictCause s with Some (_, c) => usableVerdictCause c | None => false end.

Definition verdictFromAnswer (answer : bytes) : option committed :=
  let '(section, text) := classifyUnopenedCloser answer carriesVerdict in
  if bool_decide (section = sectionAmbiguous) then Some Ambiguous
  else
    '(parsed, _, _) ← parseVerdictCore text;
    Some (if bool_decide (section = sectionPrefixOnly) && (Verdict parsed =? verdictRefuted)%string then Ambiguous
          else Committed parsed (length answer - length text) section).

(** The notes of a committed verdict, as the artifacts carry them. *)
Definition engine_notes (content : bytes) (v : Verification) (discardedPrefix : nat) (section : closerSection) : string :=
  let notes :=
    if (Verdict v =? verdictUnverifiable)%string && (Notes v =? "empty_response")%string && negb (blank content)
    then "think_only_reply: " +:+ of_bytes (truncateForNotes content) else Notes v in
  let notes := neutraliseMarkerTokens notes in
  if 0 <? discardedPrefix then
    leadWithFragmentMarker ("[" +:+ fragmentAfterToken +:+ ": " +:+ Itoa (Z.of_nat discardedPrefix) +:+
                            " prefix byte(s) discarded]") notes
  else if bool_decide (section = sectionPrefixOnly) then
    leadWithFragmentMarker ("[" +:+ fragmentBeforeToken +:+ ": text after the closer ignored]") notes
  else notes.

(** [invokeSkeptic] from the engine's result on: the skeptic's verification and the
    tripped budgets the caller records. *)
Definition grade_run (skeptic : string) (derivedBudget : bool) (res : RunResult) : option (Verification * list string) :=
  let unverifiable notes := Some (verification verdictUnverifiable skeptic notes, TrippedBudgets res) in
  if negb (Status res =? StatusOK)%string || tripsVoidTheVerdict (TrippedBudgets res) derivedBudget
  then unverifiable (failureNotes res)
  else if ResponseTruncated res then unverifiable "response_truncated"
  else if Salvaged res then unverifiable "reasoning_salvaged"
  else
    '(answer, _) ← SplitThink (Content res);
    enclosing ← HasEnclosingThinkBlock (MaskJSONStrings answer);
    if enclosing : bool then unverifiable "think_markup_after_answer"
    else
      c ← verdictFromAnswer answer;
      match c with
      | Ambiguous => unverifiable "ambiguous_unopened_closer"
      | Committed v discardedPrefix section =>
          let truncated := 0 <? length (TrippedBudgets res) in
          Some (mkVerification (Verdict v) skeptic (engine_notes (Content res) v discardedPrefix section)
                  (ChallengeSurvived v) truncated,
                if truncated then TrippedBudgets res else [])
      end.
End grade.

(** ** votes.go *)

Definition filterByVerdict (vs : list Verification) (verdict : string) : list Verification :=
  filter (fun v => Verdict v = verdict) vs.

Definition anyTruncated (vs : list Verification) : bool := existsb Truncated vs.

(** One entry's marker, and its part of the joined reasonings. *)
Definition reasoning_part (v : Verification) : list string * string :=
  let label := if (Skeptic v =? "")%string then Verdict v else Skeptic v in
  match splitFragmentMarker (Notes v) with
  | Some (marker, rest) => ([marker], label +:+ ": " +:+ rest)
  | None => ([], label +:+ ": " +:+ Notes v)
  end.
Definition combineReasonings (vs : list Verification) : string :=
  let markers := concat ((fun v => fst (reasoning_part v)) <$> vs) in
  let joined := Join ((fun v => snd (reasoning_part v)) <$> vs) " | " in
  if (length markers =? 0) then joined else Join markers " " +:+ " " +:+ joined.

Definition joinSkeptics (vs : list Verification) : string :=
  Join (filter (fun n => n <> "") (Skeptic <$> vs)) ", ".

Definition is_vote (v : Verification) : bool := bool_decide (Verdict v ∈ verdicts).

Definition count_vote (counts : gmap string nat) (v : Verification) : gmap string nat :=
  <[Verdict v := S (default 0 (counts !! Verdict v))]> counts.

(** The loop over the counts, in the order the map is ranged over: the winner, its
    count, and whether another verdict has as many. *)
Definition tally_step (acc : string * nat * bool) (vn : string * nat) : string * nat * bool :=
  let '(winner, top, tie) := acc in
  let '(verdict, n) := vn in
  if top <? n then (verdict, n, false)
  else if n =? top then (winner, top, true) else acc.

Section votes.
(** The order a [range] over the counts visits them in, which Go leaves open. *)
Context (range : gmap string nat -> list (string * nat)).

Definition aggregateVerdicts (perSkeptic : list (option Verification)) : Verification :=
  let valid := filter (fun v => is_vote v = true) (omap id perSkeptic) in
  match valid with
  | [] => verification verdictUnverifiable "" "no_skeptic_verdicts"
  | [v] => v
  | _ =>
      let counts := foldl count_vote ∅ valid in
      let '(winner, _, tie) := foldl tally_step ("", 0, false) (range counts) in
      if tie : bool then
        mkVerification verdictUnverifiable (joinSkeptics valid) (combineReasonings valid) false
          (anyTruncated (filterByVerdict valid verdictUnverifiable))
      else
        let winners := filterByVerdict valid winner in
        mkVerification winner (joinSkeptics winners) (combineReasonings winners) false (anyTruncated winners)
  end.
End votes.

(** ** Lemmas: the candidates *)

Lemma object_scan_prefix l d i e o : object_scan l d i e = Some o -> exists post, l = o ++ post /\ o <> [].
Proof.
  revert d i e o. induction l as [|c l IH]; intros d i e o; [done|]. cbn [object_scan].
  assert (forall d i e, cons c <$> object_scan l d i e = Some o -> exists post, c :: l = o ++ post /\ o <> []) as Hrec.
  { intros d' i' e' H. destruct (object_scan l d' i' e') as [o'|] eqn:E; [|done]. injection H as <-.
    apply IH in E as (post & -> & _). by exists post. }
  destruct i; [destruct e; [apply Hrec|]; repeat (destruct (Ascii.eqb _ _); [apply Hrec|]); apply Hrec|].
  destruct (Ascii.eqb c quote); [apply Hrec|]. destruct (Ascii.eqb c "{"); [apply Hrec|].
  destruct (Ascii.eqb c "}"); [|apply Hrec]. destruct (d =? 1); [|apply Hrec].
  intros [= <-]. by exists l.
Qed.

Lemma object_scan_head c l o : object_scan (c :: l) 0 false false = Some o -> exists o', o = c :: o'.
Proof. intros (post & E & Ho)%object_scan_prefix. destruct o as [|d o']; [done|]. injection E as -> _. by exists o'. Qed.

Lemma index_of_char c l n : index_of [c] l = Some n -> exists pre post, l = pre ++ c :: post /\ length pre = n /\ c ∉ pre.
Proof.
  intros H. destruct (index_of_Some _ _ _ H) as (pre & post & -> & Hn). exists pre, post. split_and!; [done|done|].
  intros (a & b & Hab)%list_elem_of_split. pose proof (index_of_first _ _ _ (length a) H) as Hf.
  rewrite <- Hn, Hab in Hf. rewrite <- app_assoc, drop_app_length in Hf. cbn in Hf. rewrite Ascii.eqb_refl in Hf.
  rewrite length_app in Hf. simpl in Hf. assert (true && true = false) by (apply Hf; lia). done.
Qed.

Lemma index_of_char_none c l : index_of [c] l = None -> c ∉ l.
Proof.
  intros H (a & b & ->)%list_elem_of_split. pose proof (index_of_none _ _ (length a) H) as Hf.
  rewrite drop_app_length in Hf. cbn in Hf. by rewrite Ascii.eqb_refl in Hf.
Qed.

(** The first occurrence of a text whose first byte occurs nowhere before it. *)
Lemma index_of_fresh c o pre post : c ∉ pre -> index_of (c :: o) (pre ++ (c :: o) ++ post) = Some (length pre).
Proof.
  induction pre as [|a pre IH]; intros Hc.
  - cbn [app index_of]. assert (is_prefix (c :: o) (c :: o ++ post) = true) as ->; [|done].
    apply is_prefix_spec. by exists post.
  - apply not_elem_of_cons in Hc as [Ha Hc]. cbn [app index_of length].
    assert (is_prefix (c :: o) (a :: pre ++ c :: o ++ post) = false) as ->.
    { cbn [is_prefix]. by rewrite (proj2 (Ascii.eqb_neq _ _)) by done. }
    change (pre ++ c :: o ++ post) with (pre ++ (c :: o) ++ post). by rewrite IH.
Qed.

Lemma extract_spec l o : extractJSONObject l = o -> o <> [] ->
  exists pre post, l = pre ++ o ++ post /\ "{"%char ∉ pre /\ index_of o l = Some (length pre).
Proof.
  unfold extractJSONObject. change (to_bytes "{") with ["{"%char].
  destruct (index_of ["{"%char] l) as [n|] eqn:En; [|by intros <-].
  apply index_of_char in En as (pre & rest & -> & <- & Hpre). rewrite drop_app_length.
  destruct (object_scan ("{"%char :: rest) 0 false false) as [o'|] eqn:E; [|by intros <-]. cbn [default].
  intros <- _. destruct (object_scan_head _ _ _ E) as [o'' ->]. apply object_scan_prefix in E as (post & -> & _).
  exists pre, post. split_and!; [done|done|]. by apply index_of_fresh.
Qed.

(** A candidate, the offset a scan has reached being [off]. *)
Definition candidate_at (s : bytes) (off : nat) (c : bytes * nat) : Prop :=
  off <= snd c /\ snd c + length (fst c) <= length s /\ take (length (fst c)) (drop (snd c) s) = fst c /\ fst c <> [].

Lemma objects_from_spec fuel off s : length s - off < fuel -> off <= length s ->
  exists cs, objects_from fuel off s = Some cs /\ Forall (candidate_at s off) cs.
Proof.
  revert off. induction fuel as [|k IH]; intros off Hf Hoff; [lia|]. cbn [objects_from].
  destruct (extractJSONObject (drop off s)) as [|c o] eqn:E.
  - destruct (index_of (to_bytes "{") (drop off s)) as [n|] eqn:En; [|by exists []].
    apply index_of_lt in En. rewrite length_drop in En. change (length (to_bytes "{")) with 1 in En.
    destruct (IH (off + (n + 1))) as (cs & -> & Hcs); [lia|lia|]. exists cs. split; [done|].
    eapply Forall_impl; [exact Hcs|]. intros x (? & ? & ? & ?). split_and!; [lia|done|done|done].
  - pose proof (extract_spec _ _ E ltac:(done)) as (pre & post & Hs & _ & ->). cbn zeta. change (default 0 (Some (length pre))) with (length pre).
    assert (length s = off + length pre + length (c :: o) + length post) as Hl.
    { pose proof (f_equal length Hs) as H. rewrite length_drop, !length_app in H. lia. }
    destruct (IH (off + length pre + length (c :: o))) as (cs & -> & Hcs); [simpl in *; lia|lia|].
    eexists. split; [done|]. constructor.
    + split_and!; cbn [fst snd]; [lia|lia| |done].
      rewrite <- drop_drop, Hs, drop_app_length. by rewrite take_app_length.
    + eapply Forall_impl; [exact Hcs|]. intros x (? & ? & ? & ?). split_and!; [lia|done|done|done].
Qed.

Lemma forEachJSONObjectAt_total s : exists cs, forEachJSONObjectAt s = Some cs /\ Forall (candidate_at s 0) cs.
Proof. apply objects_from_spec; lia. Qed.

(** ** Lemmas: reading a candidate *)

Definition note_cap : nat := 2014.

Lemma rune_floor_le n s : rune_floor n s <= n.
Proof. induction n as [|n IH]; [done|]. cbn [rune_floor]. destruct (s !! S n) as [c|]; [destruct (continuation c)|]; lia. Qed.

Lemma truncateForNotes_length s : length (truncateForNotes s) <= note_cap.
Proof.
  unfold truncateForNotes, note_cap. destruct (Nat.leb_spec (length s) notesRawCap) as [H|_]; unfold notesRawCap in *; [lia|].
  pose proof (rune_floor_le 2000 s). rewrite length_app, length_take. change (length elision) with 14. lia.
Qed.

Lemma of_bytes_length l : String.length (of_bytes l) = length l.
Proof. induction l as [|c l IH]; [done|]. simpl. by rewrite <- IH. Qed.

Definition not_graded {U : UnicodeCase} (o : bytes) : Prop := forall v, read o <> Graded v.

(** What a graded verdict is: one of the three, with nothing but bounded notes. *)
Definition plain_verdict (v : Verification) : Prop :=
  Verdict v ∈ verdicts /\ Skeptic v = "" /\ ChallengeSurvived v = false /\ Truncated v = false.

Definition short (inv : option bytes) : Prop := forall t, inv = Some t -> length t <= note_cap.

(** The candidates that count as verdict-keyed. *)
Definition keyed_candidate (o : bytes) : bool :=
  match Repair o with
  | Some (out, true) => hasVerdictKey out
  | Some (_, false) => hasVerdictKey o
  | None => false
  end.

Definition loose_ok (cands : list (bytes * nat)) (c : loose_candidate) : Prop :=
  (obj c, start c) ∈ cands /\ Repair (obj c) = Some (fixed c, true).

Lemma loose_fold cands keyed loose : exists loose',
  foldM loose_step (keyed, loose) cands =
    Some (keyed + length (filter (fun c => keyed_candidate (fst c) = true) cands), loose') /\
  forall c, c ∈ loose' -> c ∈ loose \/ loose_ok cands c.
Proof.
  revert keyed loose. induction cands as [|[o off] cands IH]; intros keyed loose.
  { exists loose. split; [cbn; by rewrite Nat.add_0_r|by left]. }
  cbn [foldM]. unfold loose_step at 2. cbn [fst snd].
  assert (forall l' : list loose_candidate, (forall c, c ∈ l' -> c ∈ loose \/ loose_ok ((o, off) :: cands) c) ->
    forall n, exists loose', foldM loose_step (n, l') cands =
      Some (n + length (filter (fun c => keyed_candidate (fst c) = true) cands), loose') /\
      forall c, c ∈ loose' -> c ∈ loose \/ loose_ok ((o, off) :: cands) c) as Hrec.
  { intros l' Hl' n. destruct (IH n l') as (loose' & E & H). exists loose'. split; [exact E|].
    intros c [Hc|[Hin Hr]]%H; [by apply Hl'|]. right. split; [by right|done]. }
  destruct (Repair_cases o) as [E|(out & E & _)]; rewrite E; cbn [mbind option_bind].
  - assert (keyed_candidate o = hasVerdictKey o) as Ek by (unfold keyed_candidate; by rewrite E).
    destruct (hasVerdictKey o);
      [rewrite filter_cons_True by done; cbn [length]; rewrite Nat.add_succ_r
      |rewrite filter_cons_False by (by cbn [fst]; rewrite Ek)]; apply Hrec; by left.
  - assert (keyed_candidate o = hasVerdictKey out) as Ek by (unfold keyed_candidate; by rewrite E).
    destruct (hasVerdictKey out);
      [rewrite filter_cons_True by done; cbn [length]; rewrite Nat.add_succ_r
      |rewrite filter_cons_False by (by cbn [fst]; rewrite Ek)]; apply Hrec; [|by left].
    intros c [Hc|Hc%list_elem_of_singleton]%elem_of_app; [by left|]. subst c. right. split; [left|done].
Qed.

Section lemmas.
Context {U : UnicodeCase}.

Lemma read_graded o v : read o = Graded v -> plain_verdict v /\ String.length (Notes v) <= note_cap.
Proof.
  unfold read. destruct (Unmarshal _ _ o) as [[[verdict|] reasoning]|]; [|done..].
  case_bool_decide as Hin; [|done]. intros [= <-]. split; [by repeat split|].
  cbn [Notes verification]. rewrite of_bytes_length. apply truncateForNotes_length.
Qed.

Lemma read_short o t : read o = OutOfEnum t -> length t <= note_cap.
Proof.
  unfold read. destruct (Unmarshal _ _ o) as [[[verdict|] reasoning]|]; [|done..].
  case_bool_decide; [done|]. intros [= <-]. apply truncateForNotes_length.
Qed.

Lemma remember_short inv t : short inv -> length t <= note_cap -> short (remember inv t).
Proof. intros Hi Ht u. destruct inv as [w|]; [apply Hi|]. by intros [= <-]. Qed.

Lemma strict_pass_spec objs inv : short inv -> short (snd (strict_pass objs inv)) /\
  match fst (strict_pass objs inv) with
  | Some v => exists pre o post, objs = pre ++ o :: post /\ read o = Graded v /\ Forall not_graded pre
  | None => Forall not_graded objs
  end.
Proof.
  revert inv. induction objs as [|o objs IH]; intros inv Hi; [by split; [|constructor]|]. cbn [strict_pass].
  assert (not_graded o -> forall i, short i -> short (snd (strict_pass objs i)) /\
    match fst (strict_pass objs i) with
    | Some v => exists pre q post, o :: objs = pre ++ q :: post /\ read q = Graded v /\ Forall not_graded pre
    | None => Forall not_graded (o :: objs)
    end) as Hrec.
  { intros Ho i Hs. destruct (IH i Hs) as [H1 H2]. split; [done|]. destruct (fst (strict_pass objs i)); [|by constructor].
    destruct H2 as (pre & q & post & -> & Hq & Hpre). exists (o :: pre), q, post. split_and!; [done|done|by constructor]. }
  destruct (read o) as [|t|v] eqn:E.
  - apply Hrec; [|done]. intros w. by rewrite E.
  - apply Hrec; [intros w; by rewrite E|]. apply remember_short; [done|]. by eapply read_short.
  - split; [done|]. exists [], o, objs. split_and!; [done|done|constructor].
Qed.

Lemma repair_loop_spec fences keyed whole loose inv : short inv ->
  short (snd (repair_loop fences keyed whole loose inv)) /\
  forall v, fst (repair_loop fences keyed whole loose inv) = Some v ->
    exists c, c ∈ loose /\ read (fixed c) = Graded v /\ (is_fenced fences c = true \/ keyed = 1) /\
      (Verdict v = verdictRefuted -> is_fenced fences c = true \/ obj c = whole).
Proof.
  revert inv. induction loose as [|c loose IH]; intros inv Hi; [by split|]. cbn [repair_loop].
  assert (forall i, short i -> short (snd (repair_loop fences keyed whole loose i)) /\
    forall v, fst (repair_loop fences keyed whole loose i) = Some v ->
    exists d, d ∈ c :: loose /\ read (fixed d) = Graded v /\ (is_fenced fences d = true \/ keyed = 1) /\
      (Verdict v = verdictRefuted -> is_fenced fences d = true \/ obj d = whole)) as Hrec.
  { intros i Hs. destruct (IH i Hs) as [H1 H2]. split; [done|]. intros v (d & Hd & H)%H2. exists d. split; [by right|done]. }
  destruct (negb (is_fenced fences c) && negb (keyed =? 1)) eqn:Eg; [by apply Hrec|].
  destruct (read (fixed c)) as [|t|v] eqn:Er; [by apply Hrec|apply Hrec, remember_short; [done|by eapply read_short]|].
  destruct (_ && negb (bool_decide (obj c = whole))) eqn:Ew; [by apply Hrec|].
  split; [done|]. intros w [= <-]. exists c. split; [left|]. split; [done|]. split.
  - apply andb_false_iff in Eg as [H%negb_false_iff|H%negb_false_iff]; [by left|right; by apply Nat.eqb_eq].
  - intros Hv. rewrite Hv in Ew. change (verdictRefuted =? verdictRefuted)%string with true in Ew. cbn [andb] in Ew.
    apply andb_false_iff in Ew as [H%negb_false_iff|H%negb_false_iff]; [by left|right; by apply bool_decide_eq_true in H].
Qed.
End lemmas.

Section parse.
Context {U : UnicodeCase}.

(** What the parse of a reply rests on, its candidates being [cands]. *)
Definition parse_outcome (response : bytes) (cands : list (bytes * nat)) (v : Verification) (cause : parseCause)
    (repaired : bool) : Prop :=
  match cause with
  | parseCauseUsable =>
      if repaired then
        Forall (fun c => not_graded (fst c)) cands /\
        exists c, (obj c, start c) ∈ cands /\ Repair (obj c) = Some (fixed c, true) /\ read (fixed c) = Graded v /\
          (is_fenced (jsonFenceSpans response) c = true \/
           length (filter (fun c => keyed_candidate (fst c) = true) cands) = 1) /\
          (Verdict v = verdictRefuted ->
           is_fenced (jsonFenceSpans response) c = true \/ obj c = to_bytes (TrimSpace (of_bytes response)))
      else exists pre c post, cands = pre ++ c :: post /\ read (fst c) = Graded v /\
             Forall (fun c => not_graded (fst c)) pre
  | parseCauseEmpty => TrimSpace (of_bytes response) = "" /\ Verdict v = verdictUnverifiable /\ repaired = false
  | _ => Verdict v = verdictUnverifiable /\ repaired = false /\ Forall (fun c => not_graded (fst c)) cands
  end.

Lemma unverifiable_plain notes : plain_verdict (verification verdictUnverifiable "" notes).
Proof. split; [apply (bool_decide_eq_true_1 _); by vm_compute|done]. Qed.

Lemma strict_pass_cands (cands : list (bytes * nat)) :
  short (snd (strict_pass (map fst cands) None)) /\
  match fst (strict_pass (map fst cands) None) with
  | Some v => exists pre c post, cands = pre ++ c :: post /\ read (fst c) = Graded v /\
                Forall (fun c => not_graded (fst c)) pre
  | None => Forall (fun c => not_graded (fst c)) cands
  end.
Proof.
  destruct (strict_pass_spec (map fst cands) None) as [Hs H]; [done|]. split; [exact Hs|].
  destruct (fst (strict_pass _ _)).
  - destruct H as (pre & o & post & Hm & Ho & Hpre).
    apply (fmap_app_inv fst) in Hm as (pre' & rest & -> & Hr & ->). destruct rest as [|c rest]; [done|].
    injection Hr as -> _. exists pre', c, rest. split_and!; [done|done|]. exact (proj1 (Forall_fmap _ _ _) Hpre).
  - exact (proj1 (Forall_fmap fst _ _) H).
Qed.

Lemma parseVerdictCore_cases response : exists cands v cause repaired,
  forEachJSONObjectAt response = Some cands /\ Forall (candidate_at response 0) cands /\
  parseVerdictCore response = Some (v, cause, repaired) /\ plain_verdict v /\
  String.length (Notes v) <= 2 * note_cap + 25 /\ parse_outcome response cands v cause repaired.
Proof.
  destruct (forEachJSONObjectAt_total response) as (cands & Hc & Hat).
  unfold parseVerdictCore, forEachJSONObject. rewrite Hc. cbn [mbind option_bind].
  destruct (String.eqb_spec (TrimSpace (of_bytes response)) "") as [Hb|Hb].
  { eexists cands, _, parseCauseEmpty, false. split_and!; try done; [apply unverifiable_plain|simpl; unfold note_cap; lia]. }
  destruct (strict_pass_cands cands) as [Hshort Hstrict].
  destruct (strict_pass (map fst cands) None) as [[v|] inv]; cbn [fst snd] in *.
  { exists cands, v, parseCauseUsable, false. destruct Hstrict as (pre & c & post & ? & Hr & ?).
    pose proof (read_graded _ _ Hr) as [Hp Hl]. split_and!; try done; [lia|]. by exists pre, c, post. }
  unfold repairPass. rewrite Hc. cbn [mbind option_bind].
  destruct (loose_fold cands 0 []) as (loose & -> & Hloose). cbn [mbind option_bind].
  destruct (repair_loop_spec (jsonFenceSpans response) (0 + length (filter (fun c => keyed_candidate (fst c) = true) cands))
    (to_bytes (TrimSpace (of_bytes response))) loose inv Hshort) as [Hs Hr].
  destruct (repair_loop _ _ _ _ _) as [[v|] inv']; cbn [fst snd] in *.
  { exists cands, v, parseCauseUsable, true. destruct (Hr v eq_refl) as (c & Hin & Hread & Hk & Hw).
    pose proof (read_graded _ _ Hread) as [Hp Hl]. destruct (Hloose c Hin) as [?%elem_of_nil|[Hin' Hrep]]; [done|].
    split_and!; try done; [lia|]. split; [done|]. by exists c. }
  pose proof (truncateForNotes_length response) as Hlen.
  destruct inv' as [t|].
  - eexists cands, _, parseCauseInvalidEnum, false. split_and!; try done; [apply unverifiable_plain|].
    pose proof (Hs t eq_refl). cbn [Notes verification]. rewrite of_bytes_length, !length_app.
    change (length (to_bytes "invalid_verdict: ")) with 17. change (length (to_bytes " (raw: ")) with 7.
    change (length (to_bytes ")")) with 1. lia.
  - eexists cands, _, parseCauseMalformed, false. split_and!; try done; [apply unverifiable_plain|].
    cbn [Notes verification]. rewrite of_bytes_length, !length_app.
    change (length (to_bytes "malformed_output: ")) with 18. lia.
Qed.

(** C5. The reading of a skeptic's reply always ends without a panic, in one of the three
    verdicts, with notes of bounded length. A verdict read strictly is that of the
    first candidate object of the reply that holds one, whatever decoys precede it.
    A repaired verdict is taken only when no candidate holds a strict one, from an
    object of the reply that sits in a closed json fence or is the reply's only
    verdict-keyed object; and a repaired refutation only when the object is fenced
    or is the whole reply. Every other reply is unverifiable. *)
Theorem parseVerdictCore_spec (response : bytes) : exists cands v cause repaired,
  forEachJSONObjectAt response = Some cands /\ Forall (candidate_at response 0) cands /\
  parseVerdictCore response = Some (v, cause, repaired) /\ Verdict v ∈ verdicts /\
  String.length (Notes v) <= 4053 /\ parse_outcome response cands v cause repaired.
Proof.
  destruct (parseVerdictCore_cases response) as (cands & v & cause & repaired & H1 & H2 & H3 & [H4 _] & H5 & H6).
  by exists cands, v, cause, repaired.
Qed.
End parse.

(** ** A valid object is a candidate of its own

    The brace scan agrees with the JSON grammar on every text the grammar accepts. *)

(** A text the scan passes over without leaving the object it is in. *)
Definition passes (x : bytes) : Prop :=
  forall d tl, object_scan (x ++ tl) (S d) false false = app x <$> object_scan tl (S d) false false.

Definition plain (c : ascii) : Prop := c <> quote /\ c <> "{"%char /\ c <> "}"%char.

Lemma fmap_app_cons (c : ascii) x (o : option bytes) : cons c <$> (app x <$> o) = app (c :: x) <$> o.
Proof. by destruct o. Qed.

Lemma over_passes_nil : passes [].
Proof. intros d tl. simpl. by destruct (object_scan _ _ _ _). Qed.

Lemma over_passes_app x y : passes x -> passes y -> passes (x ++ y).
Proof.
  intros Hx Hy d tl. rewrite <- app_assoc, Hx, Hy. destruct (object_scan tl _ _ _); [|done].
  simpl. by rewrite app_assoc.
Qed.

Lemma passes_plain x : Forall plain x -> passes x.
Proof.
  induction 1 as [|c x (H1 & H2 & H3) _ IH]; [apply over_passes_nil|]. intros d tl. cbn [app object_scan].
  rewrite !(proj2 (Ascii.eqb_neq _ _)) by done. by rewrite IH, fmap_app_cons.
Qed.

(** The same inside a string literal, up to its closing quote. *)
Definition closes (x : bytes) : Prop :=
  forall d tl, object_scan (x ++ tl) d true false = app x <$> object_scan tl d false false.

Lemma closes_cons c x : c <> backslash -> c <> quote -> closes x -> closes (c :: x).
Proof.
  intros H1 H2 H d tl. cbn [app object_scan]. rewrite !(proj2 (Ascii.eqb_neq _ _)) by done.
  by rewrite H, fmap_app_cons.
Qed.

Lemma closes_escape c x : closes x -> closes (backslash :: c :: x).
Proof.
  intros H d tl. cbn [app object_scan]. change (Ascii.eqb backslash backslash) with true. cbv iota.
  by rewrite H, !fmap_app_cons.
Qed.

Lemma hex_not_special c : is_hex c = true -> c <> backslash /\ c <> quote.
Proof. intros H. split; intros ->; by vm_compute in H. Qed.

Lemma scan_string_closes l x r : scan_string l = Some (x, r) -> exists y, l = y ++ r /\ closes y.
Proof.
  remember (length l) as n eqn:E. revert l x r E. induction (lt_wf n) as [n _ IH]. intros l x r ->.
  assert (forall l1 pre, length l1 < length l -> l = pre ++ l1 -> (forall y, closes y -> closes (pre ++ y)) ->
    forall x1, scan_string l1 = Some (x1, r) -> exists y, l = y ++ r /\ closes y) as Hrec.
  { intros l1 pre Hl -> Hpre x1 H. destruct (IH _ Hl _ _ _ eq_refl H) as (y & -> & Hy).
    exists (pre ++ y). split; [by rewrite <- app_assoc|by apply Hpre]. }
  destruct l as [|c l]; [done|]. cbn [scan_string]. destruct (Ascii.eqb_spec c (byte_of 34)) as [->|Hq].
  { intros [= _ <-]. exists [byte_of 34]. split; [done|]. intros d tl. cbn [app object_scan].
    change (Ascii.eqb (byte_of 34) backslash) with false. change (Ascii.eqb (byte_of 34) quote) with true. cbv iota.
    by destruct (object_scan tl _ _ _). }
  destruct (Ascii.eqb_spec c (byte_of 92)) as [->|Hb].
  - destruct l as [|d l]; [done|]. destruct (Ascii.eqb d "u").
    + destruct l as [|h1 [|h2 [|h3 [|h4 l]]]]; [done..|].
      destruct (is_hex h1 && is_hex h2 && is_hex h3 && is_hex h4) eqn:Hh; [|done].
      destruct (scan_string l) as [[x1 r1]|] eqn:Es; [|done]. intros [= _ <-].
      apply andb_true_iff in Hh as [Hh H4]. apply andb_true_iff in Hh as [Hh H3]. apply andb_true_iff in Hh as [H1 H2].
      apply hex_not_special in H1 as [], H2 as [], H3 as [], H4 as [].
      eapply (Hrec l (byte_of 92 :: d :: [h1; h2; h3; h4])); [simpl; lia|done| |exact Es].
      intros y Hy. apply closes_escape. by do 4 (apply closes_cons; [done|done|]).
    + destruct (simple_escape d); [|done]. destruct (scan_string l) as [[x1 r1]|] eqn:Es; [|done]. intros [= _ <-].
      eapply (Hrec l [byte_of 92; d]); [simpl; lia|done| |exact Es]. intros y Hy. by apply closes_escape.
  - destruct (code c <? 32)%N; [done|]. destruct (scan_string l) as [[x1 r1]|] eqn:Es; [|done]. intros [= _ <-].
    eapply (Hrec l [c]); [simpl; lia|done| |exact Es]. intros y Hy. by apply closes_cons.
Qed.

Lemma over_passes_string y : closes y -> passes (quote :: y).
Proof. intros H d tl. cbn [app object_scan]. change (Ascii.eqb quote quote) with true. cbv iota. by rewrite H, fmap_app_cons. Qed.

Lemma passes_braces x : passes x -> passes ("{"%char :: x ++ ["}"%char]).
Proof.
  intros H d tl. cbn [app object_scan]. change (Ascii.eqb "{" quote) with false. change (Ascii.eqb "{" "{") with true. cbv iota.
  rewrite <- app_assoc, H. cbn [app object_scan]. change (Ascii.eqb "}" quote) with false.
  change (Ascii.eqb "}" "{") with false. change (Ascii.eqb "}" "}") with true. cbv iota. cbn [Nat.eqb Nat.sub].
  destruct (object_scan tl _ _ _); [|done]. simpl. by rewrite <- app_assoc.
Qed.

(** [r] is what is left of [l] after plain bytes. *)
Definition skips (l r : bytes) : Prop := exists x, l = x ++ r /\ Forall plain x.

Lemma skips_refl l : skips l l.
Proof. by exists []. Qed.
Lemma skips_cons c l r : plain c -> skips l r -> skips (c :: l) r.
Proof. intros Hc (x & -> & Hx). exists (c :: x). split; [done|by constructor]. Qed.
Lemma skips_trans l m r : skips l m -> skips m r -> skips l r.
Proof. intros (x & -> & Hx) (y & -> & Hy). exists (x ++ y). split; [by rewrite <- app_assoc|by apply Forall_app]. Qed.

Ltac plain_byte H := let E := fresh in split_and!; intros E; rewrite E in H; by vm_compute in H.

Lemma ws_plain c : is_json_ws c = true -> plain c.
Proof. intros H. plain_byte H. Qed.
Lemma digit_plain c : is_digit c = true -> plain c.
Proof. intros H. plain_byte H. Qed.
Lemma eqb_plain c d : Ascii.eqb c d = true -> plain d -> plain c.
Proof. by intros ->%Ascii.eqb_eq. Qed.

Lemma skip_ws_skips l : skips l (skip_ws l).
Proof.
  induction l as [|c l IH]; [apply skips_refl|]. cbn [skip_ws]. destruct (is_json_ws c) eqn:E; [|apply skips_refl].
  apply skips_cons; [by apply ws_plain|done].
Qed.

Lemma skip_digits_skips l : skips l (skip_digits l).
Proof.
  induction l as [|c l IH]; [apply skips_refl|]. cbn [skip_digits]. destruct (is_digit c) eqn:E; [|apply skips_refl].
  apply skips_cons; [by apply digit_plain|done].
Qed.

Lemma digits1_skips l r : digits1 l = Some r -> skips l r.
Proof.
  destruct l as [|c l]; [done|]. cbn [digits1]. destruct (is_digit c) eqn:E; [|done]. intros [= <-].
  apply skips_cons; [by apply digit_plain|apply skip_digits_skips].
Qed.

Lemma eqb_plain_list c ds : existsb (Ascii.eqb c) ds = true -> Forall plain ds -> plain c.
Proof.
  intros H Hds. apply existsb_exists in H as (d & Hd & ->%Ascii.eqb_eq). rewrite Forall_forall in Hds.
  apply Hds. by apply list_elem_of_In.
Qed.

Ltac plain_const := repeat constructor; discriminate.

Lemma scan_exponent_skips l r : scan_exponent l = Some r -> skips l r.
Proof.
  destruct l as [|c l]; [intros [= <-]; apply skips_refl|]. cbn [scan_exponent].
  destruct (Ascii.eqb c "e" || Ascii.eqb c "E") eqn:E; [|intros [= <-]; apply skips_refl].
  assert (plain c) as Hc by (apply (eqb_plain_list c ["e"%char; "E"%char]); [simpl; by rewrite orb_false_r|plain_const]).
  destruct l as [|d l]; [done|]. destruct (Ascii.eqb d "+" || Ascii.eqb d "-") eqn:Es; intros H; apply skips_cons; try done.
  - apply skips_cons; [|by apply digits1_skips].
    apply (eqb_plain_list d ["+"%char; "-"%char]); [simpl; by rewrite orb_false_r|plain_const].
  - by apply digits1_skips.
Qed.

Lemma scan_fraction_skips l r : scan_fraction l = Some r -> skips l r.
Proof.
  destruct l as [|c l]; [intros [= <-]; apply skips_refl|]. cbn [scan_fraction].
  destruct (Ascii.eqb c ".") eqn:E; [|intros [= <-]; apply skips_refl]. intros H.
  apply skips_cons; [by apply (eqb_plain c "."); [done|plain_const]|by apply digits1_skips].
Qed.

Lemma scan_integer_skips l r : scan_integer l = Some r -> skips l r.
Proof.
  destruct l as [|c l]; [done|]. cbn [scan_integer]. destruct (Ascii.eqb c "0") eqn:E; [|apply digits1_skips].
  intros [= <-]. apply skips_cons; [by apply (eqb_plain c "0"); [done|plain_const]|apply skips_refl].
Qed.

Lemma drop_minus_skips l : skips l (drop_minus l).
Proof.
  destruct l as [|c l]; [apply skips_refl|]. cbn [drop_minus]. destruct (Ascii.eqb c "-") eqn:E; [|apply skips_refl].
  apply skips_cons; [by apply (eqb_plain c "-"); [done|plain_const]|apply skips_refl].
Qed.

Lemma scan_number_skips l r : scan_number l = Some r -> skips l r.
Proof.
  unfold scan_number. destruct (scan_integer (drop_minus l)) as [m|] eqn:Ei; [|done]. cbn [mbind option_bind].
  destruct (scan_fraction m) as [f|] eqn:Ef; [|done]. cbn [mbind option_bind]. intros H.
  eapply skips_trans; [apply drop_minus_skips|]. eapply skips_trans; [by apply scan_integer_skips|].
  eapply skips_trans; [by apply scan_fraction_skips|]. by apply scan_exponent_skips.
Qed.

Lemma literal_skips w t l v r : literal w t l = Some (v, r) -> Forall plain (to_bytes w) -> skips l r.
Proof.
  unfold literal. destruct (is_prefix (to_bytes w) l) eqn:E; [|done]. intros [= _ <-] Hw.
  apply is_prefix_spec in E as [k ->]. rewrite drop_app_length. by exists (to_bytes w).
Qed.

Definition over (l r : bytes) : Prop := exists x, l = x ++ r /\ passes x.
(** The text of members, up to the brace that ends them. *)
Definition braced (l r : bytes) : Prop := exists x, l = x ++ "}"%char :: r /\ passes x.

Lemma over_skips l r : skips l r -> over l r.
Proof. intros (x & -> & Hx). exists x. split; [done|by apply passes_plain]. Qed.
Lemma over_trans l m r : over l m -> over m r -> over l r.
Proof. intros (x & -> & Hx) (y & -> & Hy). exists (x ++ y). split; [by rewrite <- app_assoc|by apply over_passes_app]. Qed.
Lemma over_braced l m r : over l m -> braced m r -> braced l r.
Proof. intros (x & -> & Hx) (y & -> & Hy). exists (x ++ y). split; [by rewrite <- app_assoc|by apply over_passes_app]. Qed.
Lemma over_ws l c r : skip_ws l = c :: r -> over l (c :: r).
Proof. intros <-. apply over_skips, skip_ws_skips. Qed.
Lemma over_byte c l : plain c -> over (c :: l) l.
Proof. intros Hc. apply over_skips, skips_cons; [done|apply skips_refl]. Qed.
Lemma over_string l x r : scan_string l = Some (x, r) -> over (quote :: l) r.
Proof. intros (y & -> & Hy)%scan_string_closes. exists (quote :: y). split; [done|by apply over_passes_string]. Qed.
Lemma over_object l r : braced l r -> over ("{"%char :: l) r.
Proof.
  intros (x & -> & Hx). exists ("{"%char :: x ++ ["}"%char]). split; [by rewrite <- app_comm_cons, <- app_assoc|by apply passes_braces].
Qed.

Lemma parse_over fuel :
  (forall d l v r, parse_value fuel d l = Some (v, r) -> over l r) /\
  (forall d l v r, parse_elements fuel d l = Some (v, r) -> over l r) /\
  (forall d l v r, parse_members fuel d l = Some (v, r) -> braced l r).
Proof.
  induction fuel as [|k (IHv & IHe & IHm)]; [done|]. split_and!; intros d l v r.
  - cbn [parse_value]. destruct (skip_ws l) as [|c l'] eqn:El; [done|]. apply over_ws in El. intros H.
    eapply over_trans; [exact El|]. clear El.
    destruct (Ascii.eqb_spec c (byte_of 34)) as [->|_].
    { destruct (scan_string l') as [[x s]|] eqn:E; [|done]. injection H as _ <-. by eapply over_string. }
    destruct (Ascii.eqb_spec c "{") as [->|_].
    { destruct (maxNestingDepth <=? d); [done|]. apply over_object.
      destruct (skip_ws l') as [|e s] eqn:El; [done|]. apply over_ws in El. eapply over_braced; [exact El|].
      destruct (Ascii.eqb_spec e "}") as [->|_].
      - injection H as _ <-. exists []. split; [done|apply over_passes_nil].
      - destruct (parse_members k (S d) (e :: s)) as [[fs q]|] eqn:E; [|done]. injection H as _ <-. by eapply IHm. }
    destruct (Ascii.eqb_spec c "[") as [->|_].
    { destruct (maxNestingDepth <=? d); [done|]. eapply over_trans; [apply over_byte; plain_const|].
      destruct (skip_ws l') as [|e s] eqn:El; [done|]. apply over_ws in El. eapply over_trans; [exact El|].
      destruct (Ascii.eqb_spec e "]") as [->|_].
      - injection H as _ <-. apply over_byte. plain_const.
      - destruct (parse_elements k (S d) (e :: s)) as [[fs q]|] eqn:E; [|done]. injection H as _ <-. by eapply IHe. }
    destruct (Ascii.eqb c "t"); [by eapply over_skips, literal_skips; [exact H|plain_const]|].
    destruct (Ascii.eqb c "f"); [by eapply over_skips, literal_skips; [exact H|plain_const]|].
    destruct (Ascii.eqb c "n"); [by eapply over_skips, literal_skips; [exact H|plain_const]|].
    destruct (scan_number (c :: l')) as [q|] eqn:E; [|done]. injection H as _ <-. by apply over_skips, scan_number_skips.
  - cbn [parse_elements]. destruct (parse_value k d l) as [[w q]|] eqn:E; [|done]. cbn [mbind option_bind].
    apply IHv in E. destruct (skip_ws q) as [|c q'] eqn:Eq; [done|]. apply over_ws in Eq. intros H.
    eapply over_trans; [exact E|]. eapply over_trans; [exact Eq|].
    destruct (Ascii.eqb_spec c ",") as [->|_].
    + destruct (parse_elements k d q') as [[vs s]|] eqn:E2; [|done]. injection H as _ <-.
      eapply over_trans; [apply over_byte; plain_const|by eapply IHe].
    + destruct (Ascii.eqb_spec c "]") as [->|_]; [|done]. injection H as _ <-. apply over_byte. plain_const.
  - cbn [parse_members]. destruct (skip_ws l) as [|c l'] eqn:El; [done|]. apply over_ws in El.
    destruct (Ascii.eqb_spec c (byte_of 34)) as [->|_]; [|done]. cbn [negb].
    destruct (scan_string l') as [[x s]|] eqn:Es; [|done]. cbn [mbind option_bind]. apply over_string in Es.
    destruct (skip_ws s) as [|e s'] eqn:Ew; [done|]. apply over_ws in Ew.
    destruct (Ascii.eqb_spec e ":") as [->|_]; [|done]. cbn [negb].
    destruct (parse_value k d s') as [[w q]|] eqn:E; [|done]. cbn [mbind option_bind]. apply IHv in E.
    destruct (skip_ws q) as [|g q'] eqn:Eq; [done|]. apply over_ws in Eq. intros H.
    eapply over_braced; [exact El|]. eapply over_braced; [exact Es|]. eapply over_braced; [exact Ew|].
    eapply over_braced; [apply over_byte; plain_const|]. eapply over_braced; [exact E|]. eapply over_braced; [exact Eq|].
    destruct (Ascii.eqb_spec g ",") as [->|_].
    + destruct (parse_members k d q') as [[vs t]|] eqn:E2; [|done]. injection H as _ <-.
      eapply over_braced; [apply over_byte; plain_const|by eapply IHm].
    + destruct (Ascii.eqb_spec g "}") as [->|_]; [|done]. injection H as _ <-. exists []. split; [done|apply over_passes_nil].
Qed.

(** A valid object's text is scanned as one candidate, whatever follows. *)
Lemma object_scan_valid l t post : DecodeNext ("{"%char :: l) = Some (t, []) ->
  object_scan (("{"%char :: l) ++ post) 0 false false = Some ("{"%char :: l).
Proof.
  unfold DecodeNext. generalize (2 * length ("{"%char :: l) + 2). intros fuel H.
  destruct fuel as [|k]; [done|]. cbn [parse_value] in H. rewrite skip_ws_id in H by done.
  change (Ascii.eqb "{" (byte_of 34)) with false in H. change (Ascii.eqb "{" "{") with true in H. cbv iota in H.
  destruct (maxNestingDepth <=? 0); [done|].
  assert (braced l []) as (x & -> & Hx).
  { destruct (skip_ws l) as [|e s] eqn:El; [done|]. apply over_ws in El. eapply over_braced; [exact El|].
    destruct (Ascii.eqb_spec e "}") as [->|_].
    - injection H as _ ->. exists []. split; [done|apply over_passes_nil].
    - destruct (parse_members k 1 (e :: s)) as [[fs q]|] eqn:E; [|done]. injection H as _ ->. by eapply parse_over. }
  cbn [app object_scan]. change (Ascii.eqb "{" quote) with false. change (Ascii.eqb "{" "{") with true. cbv iota.
  rewrite <- app_assoc, Hx. cbn [app object_scan]. done.
Qed.

Lemma extract_valid prose l t post : "{"%char ∉ prose -> DecodeNext ("{"%char :: l) = Some (t, []) ->
  extractJSONObject (prose ++ ("{"%char :: l) ++ post) = "{"%char :: l.
Proof.
  intros Hp H. unfold extractJSONObject. change (to_bytes "{") with ["{"%char].
  assert (index_of ["{"%char] (prose ++ ("{"%char :: l) ++ post) = Some (length prose)) as ->.
  { pose proof (index_of_fresh "{"%char [] prose (l ++ post) Hp) as E. exact E. }
  rewrite drop_app_length, (object_scan_valid l t post H). done.
Qed.

Section graded.
Context {U : UnicodeCase}.

(** A verdict is never lost to its own text or to what surrounds it: when a reply's
    first brace opens a valid JSON object that reads as a verdict, the reply is
    graded as exactly that verdict, whatever braces, quotes and escapes its strings
    hold, whatever its fields nest, and whatever follows it. *)
Theorem parseVerdictCore_valid (prose l post : bytes) (t : jtree) (v : Verification) :
  "{"%char ∉ prose -> DecodeNext ("{"%char :: l) = Some (t, []) -> read ("{"%char :: l) = Graded v ->
  parseVerdictCore (prose ++ ("{"%char :: l) ++ post) = Some (v, parseCauseUsable, false).
Proof.
  intros Hp H Hr. pose proof (extract_valid prose l t post Hp H) as Hx.
  set (response := prose ++ ("{"%char :: l) ++ post) in *.
  unfold parseVerdictCore. destruct (String.eqb_spec (TrimSpace (of_bytes response)) "") as [E|_].
  { exfalso. assert ("{"%char ∈ to_bytes (TrimSpace (of_bytes response))) as Hin.
    { apply TrimSpace_keeps; [|apply (bool_decide_eq_true_1 _); by vm_compute].
      rewrite list_ascii_of_string_of_list_ascii. apply elem_of_app. right. left. }
    rewrite E in Hin. by apply elem_of_nil in Hin. }
  destruct (forEachJSONObjectAt_total response) as (cands & Hc & _).
  unfold forEachJSONObject. rewrite Hc. cbn [mbind option_bind].
  unfold forEachJSONObjectAt in Hc. cbn [objects_from] in Hc. rewrite drop_0, Hx in Hc.
  destruct (objects_from (length response) _ response) as [cs|]; [|done]. injection Hc as <-.
  cbn [map fst strict_pass]. by rewrite Hr.
Qed.
End graded.

(** ** The grade of a run *)

Section run.
Context {U : UnicodeCase}.

Lemma carriesVerdict_spec s : carriesVerdict s = true <->
  exists v repaired, parseVerdictCore s = Some (v, parseCauseUsable, repaired).
Proof.
  unfold carriesVerdict, parseVerdictCause.
  destruct (parseVerdictCore s) as [[[v c] r]|]; cbn; [|split; [done|by intros (? & ? & ?)]].
  unfold usableVerdictCause. rewrite bool_decide_eq_true. split; [intros ->; by exists v, r|by intros (? & ? & [= _ -> _])].
Qed.

(** A verdict other than unverifiable is one an object of the text holds. *)
Definition object_verdict (text : bytes) (v : Verification) : Prop :=
  exists o off, candidate_at text 0 (o, off) /\
    (read o = Graded v \/ exists out, Repair o = Some (out, true) /\ read out = Graded v /\
      (Verdict v = verdictRefuted ->
       existsb (fun f => (fst f <=? off) && (off + length o <=? snd f)) (jsonFenceSpans text) = true \/
       o = to_bytes (TrimSpace (of_bytes text)))).

Lemma parse_object text v cause repaired : parseVerdictCore text = Some (v, cause, repaired) ->
  Verdict v <> verdictUnverifiable -> object_verdict text v.
Proof.
  intros H Hv. destruct (parseVerdictCore_cases text) as (cands & v' & cause' & r' & _ & Hat & E & _ & _ & Ho).
  rewrite E in H. injection H as -> -> ->. rewrite Forall_forall in Hat. destruct cause; cbn in Ho.
  - destruct repaired.
    + destruct Ho as (_ & c & Hin & Hrep & Hread & _ & Href). exists (obj c), (start c).
      split; [by apply Hat|]. right. exists (fixed c). split_and!; done.
    + destruct Ho as (pre & [o off] & post & -> & Hread & _). exists o, off. split; [|by left].
      apply Hat, elem_of_app. right. left.
  - by destruct Ho.
  - by destruct Ho.
  - by destruct Ho as (_ & ? & _).
Qed.

Lemma SplitThink_total c : exists answer reasoning run, SplitThink c = Some (answer, reasoning) /\ c = run ++ answer.
Proof.
  destruct (split_loop_spec (S (length c)) c (mkSplit c false [] [] false false) [])
    as (answer & reasoning & E & H); [simpl; lia|by repeat split|done|].
  assert (exists run, c = run ++ answer) as [run Hr].
  { destruct H as [[-> _]|(cut & r & H & _)]; [by exists []|]. by eapply leading_suffix. }
  by exists answer, reasoning, run.
Qed.

(** What is fit to be graded: a run the engine finished, with no budget tripped that voids
    it (the byte budget of the tools does not when the budget was derived), a reply not cut
    off and not salvaged from the reasoning channel. *)
Definition fit (derived : bool) (res : RunResult) : Prop :=
  Status res = "ok" /\
  (if derived then Forall (fun b => b = "tool_budget_bytes") (TrippedBudgets res) else TrippedBudgets res = []) /\
  ResponseTruncated res = false /\ Salvaged res = false.

(** What the parser reads in a text, and what of it is a verdict. *)
Definition reading_of (text : bytes) (w : Verification) : Prop := exists cause repaired, parseVerdictCore text = Some (w, cause, repaired).
Definition usable (text : bytes) (w : Verification) : Prop := exists repaired, parseVerdictCore text = Some (w, parseCauseUsable, repaired).
Definition usable_text (text : bytes) : Prop := exists w, usable text w.

(** The verdict an answer commits to. Without a bare closer outside the JSON strings the
    answer is read whole. With one, cut at the last: verdicts on both sides settle nothing;
    one after it only is the answer's; and with none after it the answer is read whole,
    where a refutation does not count if the text before the closer is a verdict by itself. *)
Inductive ruled (answer : bytes) : string -> Prop :=
  | ruled_uncut w : uncut answer -> reading_of answer w -> ruled answer (Verdict w)
  | ruled_both before after : cut_at answer before after ->
      usable_text (before ++ thinkClose) -> usable_text after -> ruled answer "unverifiable"
  | ruled_after before after w : cut_at answer before after ->
      ~ usable_text (before ++ thinkClose) -> usable after w -> ruled answer (Verdict w)
  | ruled_whole before after w : cut_at answer before after -> ~ usable_text after -> reading_of answer w ->
      (usable_text (before ++ thinkClose) -> Verdict w <> "refuted") -> ruled answer (Verdict w)
  | ruled_withdrawn before after w : cut_at answer before after -> ~ usable_text after -> reading_of answer w ->
      usable_text (before ++ thinkClose) -> Verdict w = "refuted" -> ruled answer "unverifiable".

Lemma carries_usable text : carriesVerdict text = true <-> usable_text text.
Proof. rewrite carriesVerdict_spec. unfold usable_text, usable. done. Qed.

Lemma cut_at_unique answer before after before' after' : cut_at answer before after -> cut_at answer before' after' ->
  before = before' /\ after = after'.
Proof.
  intros (E & Hb & Hl) (E' & Hb' & Hl').
  assert (length before = length before') as Hlen.
  { destruct (Nat.lt_trichotomy (length before) (length before')) as [H|[H|H]]; [by destruct (Hl _ H)|done|by destruct (Hl' _ H)]. }
  rewrite E in E'. by apply app_inj_1 in E' as [-> ->%app_inv_head].
Qed.

Lemma cut_not_uncut answer before after : cut_at answer before after -> ~ uncut answer.
Proof. intros (_ & Hb & _) H. by apply (H (length before)). Qed.

Lemma reading_unique text w w' : reading_of text w -> reading_of text w' -> w = w'.
Proof. intros (? & ? & H) (? & ? & H'). congruence. Qed.
Lemma usable_reading text w : usable text w -> reading_of text w.
Proof. intros (r & H). by exists parseCauseUsable, r. Qed.

Lemma ruled_unique answer u u' : ruled answer u -> ruled answer u' -> u = u'.
Proof.
  intros H H'; destruct H; destruct H';
    try solve [exfalso; by eapply cut_not_uncut];
    try match goal with H1 : cut_at answer ?b ?a, H2 : cut_at answer ?b' ?a' |- _ =>
      destruct (cut_at_unique _ _ _ _ _ H1 H2) as [<- <-] end;
    repeat match goal with H : usable ?t ?w |- _ =>
      lazymatch goal with _ : reading_of t w |- _ => fail | _ => pose proof (usable_reading t w H); assert (usable_text t) by (by exists w) end end;
    repeat match goal with H1 : reading_of ?t ?w, H2 : reading_of ?t ?w' |- _ =>
      lazymatch w with w' => fail | _ => pose proof (reading_unique t w w' H1 H2); subst w' end end;
    first [done|exfalso; tauto|idtac].
Qed.

(** What the answer is committed to. *)
Definition committed_verdict (c : committed) : string :=
  match c with Ambiguous => verdictUnverifiable | Committed v _ _ => Verdict v end.

Lemma verdictFromAnswer_ruled answer : exists c, verdictFromAnswer answer = Some c /\ ruled answer (committed_verdict c) /\
  match c with
  | Ambiguous => True
  | Committed v _ _ => (exists dropped text, answer = dropped ++ text /\ reading_of text v) /\
      (Verdict v = "refuted" -> uncut answer \/ exists before after, cut_at answer before after /\ ~ usable_text (before ++ thinkClose))
  end.
Proof.
  assert (forall text, exists w cause repaired, parseVerdictCore text = Some (w, cause, repaired) /\
    (cause = parseCauseUsable <-> usable_text text)) as Hp.
  { intros text. destruct (parseVerdictCore_cases text) as (cands & w & cause & repaired & _ & _ & E & _).
    exists w, cause, repaired. split; [done|]. unfold usable_text, usable. rewrite E. split; [intros ->; by exists w, repaired|].
    by intros (? & ? & [= _ -> _]). }
  unfold verdictFromAnswer, classifyUnopenedCloser.
  destruct (closer_cases answer) as [[Hu Hc]|(before & after & Hcut & Hc)]; rewrite (Hc carriesVerdict).
  - rewrite bool_decide_eq_false_2 by done. destruct (Hp answer) as (w & cause & repaired & E & _). rewrite E. cbn [mbind option_bind].
    rewrite bool_decide_eq_false_2 by done. cbn [andb]. eexists. split; [done|].
    assert (reading_of answer w) as Hr by (by exists cause, repaired).
    cbn [committed_verdict]. split; [by apply ruled_uncut|]. split; [by exists [], answer|]. intros _. by left.
  - destruct (carriesVerdict after) eqn:Ea; [apply carries_usable in Ea|apply not_true_iff_false in Ea; rewrite carries_usable in Ea];
      (destruct (carriesVerdict (before ++ thinkClose)) eqn:Eb;
        [apply carries_usable in Eb|apply not_true_iff_false in Eb; rewrite carries_usable in Eb]).
    + rewrite bool_decide_eq_true_2 by done. eexists. split; [done|]. split; [|done]. by apply (ruled_both answer before after).
    + rewrite bool_decide_eq_false_2 by done. destruct (Hp after) as (w & cause & repaired & E & Hcause). rewrite E. cbn [mbind option_bind].
      rewrite bool_decide_eq_false_2 by done. cbn [andb]. eexists. split; [done|].
      assert (usable after w) as Hw by (apply Hcause in Ea as ->; by exists repaired).
      cbn [committed_verdict]. split; [by apply (ruled_after answer before after)|]. split.
      * exists (before ++ thinkClose), after. split; [by destruct Hcut as [-> _]; rewrite <- app_assoc|by apply usable_reading].
      * intros _. right. by exists before, after.
    + rewrite bool_decide_eq_false_2 by done. destruct (Hp answer) as (w & cause & repaired & E & _). rewrite E. cbn [mbind option_bind].
      rewrite bool_decide_eq_true_2 by done. cbn [andb]. assert (reading_of answer w) as Hr by (by exists cause, repaired).
      destruct (String.eqb_spec (Verdict w) verdictRefuted) as [Hw|Hw].
      * eexists. split; [done|]. split; [|done]. by apply (ruled_withdrawn answer before after w).
      * eexists. split; [done|]. cbn [committed_verdict]. split; [by apply (ruled_whole answer before after)|]. split; [by exists [], answer|done].
    + rewrite bool_decide_eq_false_2 by done. destruct (Hp answer) as (w & cause & repaired & E & _). rewrite E. cbn [mbind option_bind].
      rewrite bool_decide_eq_false_2 by done. cbn [andb]. assert (reading_of answer w) as Hr by (by exists cause, repaired).
      eexists. split; [done|]. cbn [committed_verdict]. split; [by apply (ruled_whole answer before after)|]. split; [by exists [], answer|].
      intros _. right. by exists before, after.
Qed.

Lemma trips_spec tripped derived : tripsVoidTheVerdict tripped derived = false <->
  if derived then Forall (fun b => b = "tool_budget_bytes") tripped else tripped = [].
Proof.
  unfold tripsVoidTheVerdict, budgetToolBytes. destruct derived; cbn [negb].
  - induction tripped as [|b l IH]; [done|]. cbn [existsb]. rewrite Forall_cons, <- IH, orb_false_iff, negb_false_iff, String.eqb_eq. done.
  - by destruct tripped.
Qed.

(** The grade of a run whose reply is split into [answer]. *)
Record grading (skeptic : string) (derived : bool) (res : RunResult) (answer : bytes) (v : Verification) : Prop := {
  grading_enum : Verdict v ∈ ["confirmed"; "refuted"; "unverifiable"];
  grading_skeptic : Skeptic v = skeptic;
  grading_unfit : ~ fit derived res \/ encloses (MaskJSONStrings answer) -> Verdict v = "unverifiable";
  grading_ruled : fit derived res -> ~ encloses (MaskJSONStrings answer) -> forall u, ruled answer u <-> u = Verdict v;
  grading_held : Verdict v <> "unverifiable" -> Truncated v = bool_decide (TrippedBudgets res <> []) /\
    exists dropped text w, answer = dropped ++ text /\ object_verdict text w /\ Verdict w = Verdict v;
  grading_refuted : Verdict v = "refuted" ->
    uncut answer \/ exists before after, cut_at answer before after /\ ~ usable_text (before ++ thinkClose);
}.

Lemma grading_unverifiable skeptic derived res answer notes :
  (fit derived res -> ~ encloses (MaskJSONStrings answer) -> ruled answer "unverifiable") ->
  grading skeptic derived res answer (verification verdictUnverifiable skeptic notes).
Proof.
  intros Hr. split; try done.
  - apply (bool_decide_eq_true_1 _); by vm_compute.
  - intros Hf He u. split; [intros Hu; eapply ruled_unique; [exact Hu|by apply Hr]|intros ->; by apply Hr].
Qed.

Lemma grading_committed skeptic derived res answer text w notes survived : fit derived res ->
  ~ encloses (MaskJSONStrings answer) -> ruled answer (Verdict w) -> reading_of text w -> (exists dropped, answer = dropped ++ text) ->
  (Verdict w = "refuted" -> uncut answer \/ exists before after, cut_at answer before after /\ ~ usable_text (before ++ thinkClose)) ->
  grading skeptic derived res answer (mkVerification (Verdict w) skeptic notes survived (0 <? length (TrippedBudgets res))).
Proof.
  intros Hf He Hr (cause & repaired & Hw) [dropped Hd] Href. split; cbn [Verdict Skeptic Truncated]; try done.
  - destruct (parseVerdictCore_cases text) as (cands & w' & cause' & repaired' & _ & _ & E & [Hin _] & _).
    rewrite Hw in E. by injection E as <- <- <-.
  - tauto.
  - intros _ _ u. split; [intros Hu; by eapply ruled_unique|by intros ->].
  - intros Hv. split; [by destruct (TrippedBudgets res)|]. exists dropped, text, w. split_and!; [done| |done]. by eapply parse_object.
Qed.

(** C2. What a run is graded, and what a refutation, the one grade that clears the gate,
    rests on. Every run is graded, without a panic, in one of the three verdicts. A run
    that is not fit (the engine did not finish it, a budget voids it, the reply was cut
    off or salvaged from the reasoning channel) is unverifiable, and so is a reply with a
    think block with text left in its answer outside the JSON strings. Any other is
    graded exactly the verdict its answer commits to; a confirmed or refuted one is held
    by an object of the text that was read; and a refutation never comes from before a
    bare closer: there is none, or what is before the last one is no verdict by itself. *)
Theorem grade_run_refuted (skeptic : string) (derived : bool) (res : RunResult) : exists v tripped answer reasoning,
  grade_run skeptic derived res = Some (v, tripped) /\ SplitThink (Content res) = Some (answer, reasoning) /\
  grading skeptic derived res answer v.
Proof.
  destruct (SplitThink_total (Content res)) as (answer & reasoning & run & Esplit & _).
  destruct (enclosing_spec (S (length (MaskJSONStrings answer))) (MaskJSONStrings answer) ltac:(lia)) as (b & Eb & Hb).
  fold (HasEnclosingThinkBlock (MaskJSONStrings answer)) in Eb.
  unfold grade_run. rewrite Esplit. cbn [mbind option_bind]. rewrite Eb. cbn [mbind option_bind].
  assert (forall notes (l : list string), (fit derived res -> encloses (MaskJSONStrings answer)) -> exists v tripped answer0 reasoning0,
    Some (verification verdictUnverifiable skeptic notes, l) = Some (v, tripped) /\ Some (answer, reasoning) = Some (answer0, reasoning0) /\
    grading skeptic derived res answer0 v) as Hun.
  { intros notes l Hfit. do 4 eexists. split; [done|]. split; [done|]. apply grading_unverifiable. intros Hf He. by destruct (He (Hfit Hf)). }
  assert (fit derived res <-> Status res = StatusOK /\ tripsVoidTheVerdict (TrippedBudgets res) derived = false /\
    ResponseTruncated res = false /\ Salvaged res = false) as Hfit by (unfold fit; by rewrite trips_spec).
  destruct (String.eqb_spec (Status res) StatusOK) as [Hok|Hok]; cbn [negb orb]; [|apply Hun; tauto].
  destruct (tripsVoidTheVerdict _ _) eqn:Ht; [apply Hun; rewrite Hfit; by intros (_ & ? & _)|].
  destruct (ResponseTruncated res) eqn:Hr; [apply Hun; rewrite Hfit; by intros (_ & _ & ? & _)|].
  destruct (Salvaged res) eqn:Hs; [apply Hun; rewrite Hfit; by intros (_ & _ & _ & ?)|].
  destruct b; [apply Hun; intros _; by apply Hb|].
  assert (fit derived res) as Hf by (by apply Hfit).
  assert (~ encloses (MaskJSONStrings answer)) as He by (rewrite <- Hb; done).
  destruct (verdictFromAnswer_ruled answer) as (c & -> & Hruled & Hc). cbn [mbind option_bind].
  destruct c as [|w discarded section]; (do 4 eexists; split; [done|]; split; [done|]).
  - by apply grading_unverifiable.
  - destruct Hc as [(dropped & text & Hd & Hw) Href]. apply (grading_committed _ _ _ _ text); [done..|by exists dropped|done].
Qed.
End run.

(** ** The vote *)

(** What the loop over the counts ends with, the pairs seen being [l]. *)
Definition tallied (l : list (string * nat)) (acc : string * nat * bool) : Prop :=
  let '(w, top, tie) := acc in
  (w, top) ∈ l /\ (forall p, p ∈ l -> snd p <= top) /\
  (if tie then exists k, k <> w /\ (k, top) ∈ l else forall k, (k, top) ∈ l -> k = w).

Lemma tally_spec l : l <> [] -> NoDup (fst <$> l) -> (forall p, p ∈ l -> 0 < snd p) ->
  tallied l (foldl tally_step ("", 0, false) l).
Proof.
  induction l as [|[k n] l IH] using rev_ind; [done|]. intros _ Hnd Hpos. rewrite foldl_app. cbn [foldl].
  rewrite fmap_app in Hnd. apply NoDup_app in Hnd as (Hnd & Hk & _).
  assert (forall m, (k, m) ∉ l) as Hfresh.
  { intros m Hm. apply (Hk k); [apply list_elem_of_fmap; by exists (k, m)|left]. }
  assert (0 < n) as Hn by (apply (Hpos (k, n)), elem_of_app; right; left).
  destruct l as [|p l].
  - cbn [foldl tally_step]. rewrite (proj2 (Nat.ltb_lt _ _)) by done. split_and!; [left| |].
    + intros p ->%list_elem_of_singleton. done.
    + intros j [= ->]%list_elem_of_singleton. done.
  - assert (tallied (p :: l) (foldl tally_step ("", 0, false) (p :: l))) as Ht.
    { apply IH; [done|done|]. intros q Hq. apply Hpos, elem_of_app. by left. }
    destruct (foldl tally_step _ (p :: l)) as [[w top] tie]. destruct Ht as (Hw & Hle & Htie).
    cbn [tally_step]. destruct (Nat.ltb_spec top n) as [Hlt|Hge]; [|destruct (Nat.eqb_spec n top) as [->|Hne]].
    + split_and!; [apply elem_of_app; right; left| |].
      * intros q [Hq%Hle| ->%list_elem_of_singleton]%elem_of_app; [lia|done].
      * intros j [Hj%Hle|[= ->]%list_elem_of_singleton]%elem_of_app; [simpl in Hj; lia|done].
    + split_and!; [apply elem_of_app; by left| |].
      * intros q [Hq%Hle| ->%list_elem_of_singleton]%elem_of_app; [done|done].
      * exists k. split; [intros ->; by apply (Hfresh top)|apply elem_of_app; right; left].
    + split_and!; [apply elem_of_app; by left| |].
      * intros q [Hq%Hle| ->%list_elem_of_singleton]%elem_of_app; [done|simpl; lia].
      * destruct tie.
        -- destruct Htie as (j & Hj & Hin). exists j. split; [done|apply elem_of_app; by left].
        -- intros j [Hj|[= -> ->]%list_elem_of_singleton]%elem_of_app; [by apply Htie|done].
Qed.

Definition votes (vs : list Verification) (k : string) : nat := length (filterByVerdict vs k).

Lemma count_votes vs m k : default 0 (foldl count_vote m vs !! k) = default 0 (m !! k) + votes vs k /\
  (forall n, foldl count_vote m vs !! k = Some n -> (forall j, m !! k = Some j -> 0 < j) -> 0 < n).
Proof.
  revert m. induction vs as [|v vs IH]; intros m; cbn [foldl].
  - unfold votes. cbn. split; [lia|]. intros n Hn H. by apply H.
  - destruct (IH (count_vote m v)) as [H1 H2]. unfold votes, filterByVerdict in *. rewrite filter_cons.
    unfold count_vote in H1, H2 |- *. split.
    + rewrite H1. destruct (decide (Verdict v = k)) as [->|Hne].
      * rewrite lookup_insert_eq. simpl. unfold votes in *. lia.
      * by rewrite lookup_insert_ne.
    + intros n Hn H. apply (H2 n Hn). intros j. destruct (decide (Verdict v = k)) as [->|Hne].
      * rewrite lookup_insert_eq. intros [= <-]. lia.
      * rewrite lookup_insert_ne by done. apply H.
Qed.

Lemma votes_pos vs k : 0 < votes vs k <-> exists v, v ∈ vs /\ Verdict v = k.
Proof.
  unfold votes, filterByVerdict. split.
  - destruct (filter _ vs) as [|v l] eqn:E; [simpl; lia|]. intros _. exists v.
    assert (v ∈ filter (fun v => Verdict v = k) vs) as Hin by (rewrite E; left).
    apply list_elem_of_filter in Hin as [? ?]. by split.
  - intros (v & Hv & Hk). destruct (filter _ vs) as [|w l] eqn:E; [|simpl; lia].
    assert (v ∈ filter (fun v => Verdict v = k) vs) as Hin by (by apply list_elem_of_filter).
    rewrite E in Hin. by apply elem_of_nil in Hin.
Qed.

(** The valid verdicts of a panel. *)
Definition valid_votes (perSkeptic : list (option Verification)) : list Verification :=
  filter (fun v => is_vote v = true) (omap id perSkeptic).

(** [w] has more votes than any other verdict. *)
Definition wins (vs : list Verification) (w : string) : Prop := forall k, k <> w -> votes vs k < votes vs w.

Section vote.
Context (range : gmap string nat -> list (string * nat)) (range_perm : forall m, range m ≡ₚ map_to_list m).

Lemma range_elem vs k n : (k, n) ∈ range (foldl count_vote ∅ vs) <-> 0 < n /\ n = votes vs k.
Proof.
  rewrite range_perm, elem_of_map_to_list. destruct (count_votes vs ∅ k) as [H1 H2].
  rewrite lookup_empty in H1, H2. cbn [default] in H1. split.
  - intros Hk. rewrite Hk in H1. cbn in H1. split; [by apply (H2 n Hk)|done].
  - intros [Hn ->]. destruct (foldl count_vote ∅ vs !! k) as [m|]; cbn in H1; [by subst|lia].
Qed.

Lemma range_tally vs : vs <> [] ->
  let '(w, top, tie) := foldl tally_step ("", 0, false) (range (foldl count_vote ∅ vs)) in
  (tie = false -> wins vs w) /\ (tie = true -> forall w, ~ wins vs w).
Proof.
  intros Hvs. pose proof (tally_spec (range (foldl count_vote ∅ vs))) as Ht.
  destruct (foldl tally_step _ _) as [[w top] tie]. destruct Ht as (Hw & Hle & Htie).
  - destruct vs as [|v vs]; [done|]. intros E.
    assert ((Verdict v, votes (v :: vs) (Verdict v)) ∈ range (foldl count_vote ∅ (v :: vs))) as Hin.
    { apply range_elem. split; [|done]. apply votes_pos. exists v. split; [left|done]. }
    rewrite E in Hin. by apply elem_of_nil in Hin.
  - rewrite (range_perm _). apply NoDup_fst_map_to_list.
  - intros [k n] [? _]%range_elem. done.
  - apply range_elem in Hw as [Hpos Hw].
    assert (forall k, votes vs k <= top) as Hmax.
    { intros k. destruct (decide (0 < votes vs k)) as [Hk|]; [|lia]. by apply (Hle (k, votes vs k)), range_elem. }
    split; intros ->.
    + intros k Hk. rewrite <- Hw. pose proof (Hmax k). destruct (decide (votes vs k = top)) as [E|]; [|lia].
      exfalso. apply Hk, Htie, range_elem. lia.
    + destruct Htie as (k & Hk & [_ Hkt]%range_elem). intros x Hx. destruct (decide (x = w)) as [->|Hne].
      * specialize (Hx k Hk). lia.
      * pose proof (Hmax x). specialize (Hx w ltac:(done)). lia.
Qed.
End vote.

Section aggregate.
Context (range : gmap string nat -> list (string * nat)) (range_perm : forall m, range m ≡ₚ map_to_list m).

Lemma aggregate_cases perSkeptic : let vs := valid_votes perSkeptic in
  (vs = [] /\ aggregateVerdicts range perSkeptic = verification verdictUnverifiable "" "no_skeptic_verdicts") \/
  (exists v, vs = [v] /\ aggregateVerdicts range perSkeptic = v) \/
  (2 <= length vs /\
   ((exists w, wins vs w /\ aggregateVerdicts range perSkeptic =
       mkVerification w (joinSkeptics (filterByVerdict vs w)) (combineReasonings (filterByVerdict vs w)) false
         (anyTruncated (filterByVerdict vs w))) \/
    ((forall w, ~ wins vs w) /\ aggregateVerdicts range perSkeptic =
       mkVerification verdictUnverifiable (joinSkeptics vs) (combineReasonings vs) false
         (anyTruncated (filterByVerdict vs verdictUnverifiable))))).
Proof.
  intros vs. unfold vs, aggregateVerdicts. clear vs. fold (valid_votes perSkeptic).
  destruct (valid_votes perSkeptic) as [|v [|w vs']]; [by left|right; left; by exists v|]. right. right. split; [simpl; lia|].
  pose proof (range_tally range range_perm (v :: w :: vs') ltac:(done)) as Ht.
  destruct (foldl tally_step _ _) as [[k top] tie]. destruct Ht as [H1 H2].
  destruct tie; [right; split; [by apply H2|done]|left; exists k; split; [by apply H1|done]].
Qed.

Lemma wins_unique vs w w' : wins vs w -> wins vs w' -> w = w'.
Proof.
  intros H H'. destruct (decide (w = w')) as [|Hne]; [done|].
  specialize (H w' ltac:(done)). specialize (H' w Hne). lia.
Qed.

Lemma wins_single v : wins [v] (Verdict v).
Proof.
  intros k Hk. assert (~ 0 < votes [v] k) as H.
  { rewrite votes_pos. intros (x & ->%list_elem_of_singleton & <-). done. }
  assert (0 < votes [v] (Verdict v)) by (apply votes_pos; exists v; split; [left|done]). lia.
Qed.

Lemma aggregate_verdict perSkeptic : let vs := valid_votes perSkeptic in
  (exists w, wins vs w /\ Verdict (aggregateVerdicts range perSkeptic) = w) \/
  ((forall w, ~ wins vs w) /\ Verdict (aggregateVerdicts range perSkeptic) = verdictUnverifiable).
Proof.
  intros vs. pose proof (aggregate_cases perSkeptic) as Hc. fold vs in Hc.
  destruct Hc as [[E ->]|[(v & E & ->)|(_ & [(w & Hw & ->)|[Hw ->]])]].
  - right. split; [|done]. intros w Hw. specialize (Hw (String "x" w)). rewrite E in Hw. unfold votes in Hw. simpl in Hw.
    assert (0 < 0); [apply Hw|lia]. intros Hx. apply (f_equal String.length) in Hx. simpl in Hx. lia.
  - left. exists (Verdict v). split; [|done]. rewrite E. apply wins_single.
  - left. by exists w.
  - by right.
Qed.
End aggregate.

Lemma aggregate_order (range range' : gmap string nat -> list (string * nat)) perSkeptic :
  (forall m, range m ≡ₚ map_to_list m) -> (forall m, range' m ≡ₚ map_to_list m) ->
  aggregateVerdicts range' perSkeptic = aggregateVerdicts range perSkeptic.
Proof.
  intros Hr Hr'. unfold aggregateVerdicts. destruct (filter _ _) as [|v [|w vs]]; [done..|].
  pose proof (range_tally range Hr (v :: w :: vs) ltac:(done)) as Ht.
  pose proof (range_tally range' Hr' (v :: w :: vs) ltac:(done)) as Ht'. cbv zeta.
  destruct (foldl tally_step _ (range _)) as [[x top] tie]. destruct (foldl tally_step _ (range' _)) as [[x' top'] tie'].
  destruct Ht as [H1 H2], Ht' as [H1' H2'].
  destruct tie, tie'; [done|by destruct (H2 eq_refl x'); apply H1'|by destruct (H2' eq_refl x); apply H1|].
  by rewrite (wins_unique _ x x' (H1 eq_refl) (H1' eq_refl)).
Qed.

Lemma votes_perm vs vs' k : vs ≡ₚ vs' -> votes vs k = votes vs' k.
Proof. intros H. unfold votes, filterByVerdict. by rewrite H. Qed.

(** C8. The vote over a panel. A verdict is returned only when it has strictly more valid
    votes than any other, nil and malformed entries having no vote; any tie for the
    most, and an empty panel, are unverifiable. The reasonings, names and truncation
    a decided vote reports are those of its voters alone, and of everyone on a tie.
    The answer does not depend on the order Go ranges over the counts, nor its
    verdict on the order of the skeptics. *)
Theorem aggregateVerdicts_spec (range range' : gmap string nat -> list (string * nat))
    (perSkeptic perSkeptic' : list (option Verification)) :
  (forall m, range m ≡ₚ map_to_list m) -> (forall m, range' m ≡ₚ map_to_list m) -> perSkeptic ≡ₚ perSkeptic' ->
  let vs := valid_votes perSkeptic in
  let agg := aggregateVerdicts range perSkeptic in
  (forall w, wins vs w -> Verdict agg = w /\
     (2 <= length vs -> Skeptic agg = joinSkeptics (filterByVerdict vs w) /\
        Notes agg = combineReasonings (filterByVerdict vs w))) /\
  ((forall w, ~ wins vs w) -> Verdict agg = verdictUnverifiable /\
     (2 <= length vs -> Skeptic agg = joinSkeptics vs /\ Notes agg = combineReasonings vs)) /\
  (2 <= length vs -> Truncated agg = anyTruncated (filterByVerdict vs (Verdict agg))) /\
  aggregateVerdicts range' perSkeptic = agg /\
  Verdict (aggregateVerdicts range perSkeptic') = Verdict agg.
Proof.
  intros Hr Hr' Hp vs agg. pose proof (aggregate_cases range Hr perSkeptic) as Hc. fold vs agg in Hc.
  pose proof (aggregate_verdict range Hr perSkeptic) as Ha. fold vs agg in Ha.
  assert (vs ≡ₚ valid_votes perSkeptic') as Hvs by (unfold vs, valid_votes; by rewrite Hp).
  split_and!.
  - intros w Hw. destruct Ha as [(w' & Hw' & E)|[Hno _]]; [|by destruct (Hno w)].
    rewrite (wins_unique vs w w' Hw Hw'). split; [done|]. intros H2.
    destruct Hc as [[E1 _]|[(v & E1 & _)|(_ & [(x & Hx & ->)|[Hno _]])]]; [rewrite E1 in H2; simpl in H2; lia..| |by destruct (Hno w)].
    by rewrite (wins_unique vs w' x Hw' Hx).
  - intros Hno. destruct Ha as [(w' & Hw' & E)|[_ E]]; [by destruct (Hno w')|].
    split; [done|]. intros H2.
    destruct Hc as [[E1 _]|[(v & E1 & _)|(_ & [(x & Hx & _)|[_ ->]])]]; [rewrite E1 in H2; simpl in H2; lia..|by destruct (Hno x)|done].
  - intros H2. destruct Hc as [[E1 _]|[(v & E1 & _)|(_ & [(x & Hx & ->)|[_ ->]])]]; [rewrite E1 in H2; simpl in H2; lia..|done|done].
  - by apply aggregate_order.
  - destruct Ha as [(w & Hw & E)|[Hno E]];
      destruct (aggregate_verdict range Hr perSkeptic') as [(w' & Hw' & E')|[Hno' E']]; rewrite E, E'; [| | |done].
    + apply (wins_unique vs); [|done]. intros k Hk. specialize (Hw' k Hk). by rewrite !(votes_perm vs _ _ Hvs).
    + destruct (Hno' w). intros k Hk. specialize (Hw k Hk). by rewrite <- !(votes_perm vs _ _ Hvs).
    + destruct (Hno w'). intros k Hk. specialize (Hw' k Hk). by rewrite !(votes_perm vs _ _ Hvs).
Qed.

(** ** Witnesses *)

#[local] Existing Instance ascii_case.

Definition tricky : bytes := quoted "^verdict^: ^ Refuted ^, ^reasoning^: ^a } \^ { b^, ^n^: [{}, 1.5e3]}".

Lemma parseVerdictCore_valid_witness :
  parseVerdictCore (to_bytes "My answer: " ++ ("{"%char :: tricky) ++ quoted " or else {^verdict^: ^confirmed^}") =
  Some (verification verdictRefuted "" (of_bytes (quoted "a } ^ { b")), parseCauseUsable, false).
Proof.
  destruct (DecodeNext ("{"%char :: tricky)) as [[t r]|] eqn:E; [|by vm_compute in E].
  assert (r = []) as -> by (vm_compute in E; by injection E).
  apply (parseVerdictCore_valid (to_bytes "My answer: ") tricky _ t); [|exact E|by vm_compute].
  apply (bool_decide_eq_true_1 _). by vm_compute.
Defined.

Definition vote (v skeptic notes : string) (truncated : bool) : option Verification :=
  Some (mkVerification v skeptic notes false truncated).
Definition panel : list (option Verification) :=
  [vote "refuted" "ann" "no" false; None; vote "confirmed" "bob" "yes" true; vote "maybe" "eve" "?" false;
   vote "refuted" "dan" "[verdict_after_unopened_closer: 7 prefix byte(s) discarded] never" false].

Lemma aggregateVerdicts_spec_witness :
  let agg := aggregateVerdicts map_to_list panel in
  Verdict agg = "refuted" /\ Skeptic agg = "ann, dan" /\
  Notes agg = "[verdict_after_unopened_closer: 7 prefix byte(s) discarded] ann: no | dan: never" /\
  aggregateVerdicts (fun m => reverse (map_to_list m)) panel = agg /\
  Verdict (aggregateVerdicts map_to_list (reverse panel)) = Verdict agg.
Proof.
  pose proof (aggregateVerdicts_spec map_to_list (fun m => reverse (map_to_list m)) panel (reverse panel)
    (fun m => reflexivity _) (fun m => reverse_Permutation _) (Permutation_sym (reverse_Permutation panel)))
    as (_ & _ & _ & H1 & H2).
  cbv zeta. split_and!; [by vm_compute|by vm_compute|by vm_compute|exact H1|exact H2].
Defined.

Definition run (content : string) : RunResult := mkRunResult "ok" None (quoted content) [] false false.
Definition grade_of (content : string) : option (string * string) :=
  (fun g => (Verdict (fst g), Notes (fst g))) <$> grade_run "s" false (run content).

(** A draft in a leading think block is not graded; the same draft after prose is
    refused; a bare closer with a verdict on each side is refused, and so is a
    refutation before one only; a loose refutation counts only fenced or alone. *)
Example grade_run_examples :
  grade_of "<think>{^verdict^:^refuted^}</think>{^verdict^:^confirmed^,^reasoning^:^r^}" = Some ("confirmed", "r") /\
  grade_of "So: <think>{^verdict^:^refuted^}</think>{^verdict^:^confirmed^}" = Some ("unverifiable", "think_markup_after_answer") /\
  grade_of "{^verdict^:^refuted^}</think>{^verdict^:^confirmed^}" = Some ("unverifiable", "ambiguous_unopened_closer") /\
  grade_of "{^verdict^:^refuted^}</think>done" = Some ("unverifiable", "ambiguous_unopened_closer") /\
  grade_of "{^verdict^:^confirmed^}</think>done" =
    Some ("confirmed", "[verdict_before_unopened_closer: text after the closer ignored]") /\
  grade_of "draft</think>{^verdict^:^refuted^,^reasoning^:^Verdict_After_unopened_closer^}" =
    Some ("refuted", "[verdict_after_unopened_closer: 13 prefix byte(s) discarded] Verdict-After-unopened-closer") /\
  grade_of "it was {'verdict': 'refuted',}" = Some ("unverifiable", "malformed_output: it was {'verdict': 'refuted',}") /\
  grade_of "{'verdict': 'refuted',}" = Some ("refuted", "").
Proof. by vm_compute. Qed.
