(* ===== verification/Gate.v ===== *)
(** * The severity gate and the records it reads

    src/internal/reconcile: the gate predicate and its counts (gate.go), the
    records derived from merged findings (emit.go [JSONFindings]), their routing out
    of the primary stream (unresolved.go) and the fallback-aware reviewer count
    (fallback.go); src/internal/verify/severity.go: the floor and the ceilings of
    the verify stage. *)

From Stdlib Require Import Ascii String.
From stdpp Require Import prelude strings gmap fin_sets list.
From Stdlib Require Import ZArith Lia.
From S2P Require Import Prelude GoString GoSort JsonDecode Finding Merge Reconcile.

Open Scope string_scope.
Open Scope list_scope.
Open Scope nat_scope.

(** [JSONFinding]: the columns it shares with the library's [Finding] (its own
    [Reviewer] does not exist and stays empty), and the fields the operations here
    and the debate stage read or write; [Stamps] are those of path validation and of an
    applied cluster merge. *)
Record Stamps := mkStamps {
  PathValid : bool;
  PathWarning : string;
  PathSuggestion : string;
  ClusterMerged : bool;
  ClusterID : string;
}.
Definition no_stamps : Stamps := mkStamps false "" "" false "".
Record JSONFinding := mkJSONFinding {
  j_Finding : Finding;
  j_FallbackReviewers : gmap string string;
  j_SourceQuotes : list SourceQuote;
  j_ConfidenceDiscount : string;
  j_Stamps : Stamps;
}.

(** One record of [Result.JSONFindings] without cached records: a single finding's
    record carries no quotes. *)
Definition recordQuotes (quotes : list SourceQuote) : list SourceQuote := if length quotes <? 2 then [] else quotes.
Definition json_of_Merged (m : Merged) : JSONFinding :=
  mkJSONFinding (m_Finding m) ∅ (recordQuotes (SourceQuotes m)) (ConfidenceDiscount m) no_stamps.
Definition JSONFindings (cached : option (list JSONFinding)) (findings : list Merged) : list JSONFinding :=
  default (json_of_Merged <$> findings) cached.

Section gate.
Context {U : UnicodeCase}.

(** ** gate.go *)

Definition ParseSeverity (s : string) : option string :=
  let n := ToUpper (TrimSpace s) in
  if bool_decide (n ∈ [SevCritical; SevHigh; SevMedium; SevLow]) then Some n else None.

(** [SeverityRank[stream.NormalizeSeverity(s)]] *)
Definition rank (s : string) : Z := index0 SeverityRank (NormalizeSeverity s).

Definition AtOrAbove (severity threshold : string) : bool :=
  match SeverityRank !! NormalizeSeverity threshold with
  | None => false
  | Some tr => (tr <=? rank severity)%Z
  end.

Definition IsFailing (severity category : string) (v : option Verification) (threshold : string) (requireVerified : bool) : bool :=
  if (lower_trim category =? CategoryOutOfScope)%string then false
  else
    let verdict := match v with Some v => lower_trim (Verdict v) | None => "" end in
    if (verdict =? VerdictRefuted)%string then false
    else if negb (AtOrAbove (ToUpper (TrimSpace severity)) (ToUpper (TrimSpace threshold))) then false
    else if requireVerified && negb (verdict =? VerdictConfirmed)%string then false
    else true.

Definition finding_fails (threshold : string) (requireVerified : bool) (f : Finding) : bool :=
  IsFailing (Severity f) (Category f) (Verification_ f) threshold requireVerified.

Definition CountAtOrAbove (findings : list Merged) (threshold : string) (requireVerified : bool) : nat :=
  foldl (fun n m => if finding_fails threshold requireVerified (m_Finding m) then S n else n) 0 findings.
Definition CountFailingJSON (findings : list JSONFinding) (threshold : string) (requireVerified : bool) : nat :=
  foldl (fun n j => if finding_fails threshold requireVerified (j_Finding j) then S n else n) 0 findings.

(** [allUnverifiableCollapse] on the bytes of verification.json, [None] where they
    could not be read: the number of verdicts its error names. *)
Definition verdict_fields : list (string * decoder string) := [field "verdict" id (fun x _ => x) dec_string].
Definition verdicts_fields : list (string * decoder (list string)) :=
  [field "findings" id (fun x _ => x) (dec_slice "" (dec_struct verdict_fields))].
Definition allUnverifiableCollapse (data : option bytes) : option nat :=
  match data with
  | None => None
  | Some data =>
      match Unmarshal (dec_struct verdicts_fields) [] data with
      | None | Some [] => None
      | Some vs => if forallb (fun v => (lower_trim v =? VerdictUnverifiable)%string) vs then Some (length vs) else None
      end
  end.

(** [ValidateRequireVerified]: [present] is whether verification.json is there and no
    directory, [manifest] the manifest's bytes. *)
Inductive RequireVerifiedWarning := NotRun | AllUnverifiable (n : nat).
Definition stages_fields : list (string * decoder (list string)) :=
  [field "stages" id (fun x _ => x) (dec_slice "" dec_string)].
Definition ValidateRequireVerified (present : bool) (verification manifest : option bytes) : option RequireVerifiedWarning :=
  if present then AllUnverifiable <$> allUnverifiableCollapse verification
  else
    match (data ← manifest; Unmarshal (dec_struct stages_fields) [] data) with
    | Some stages => if existsb (fun s => (s =? "verify")%string) stages then None else Some NotRun
    | None => Some NotRun
    end.

(** ** verify/severity.go *)

Definition meetsSeverityFloor (findingSeverity minSeverity : string) : bool :=
  let fr := rank findingSeverity in
  if (fr =? 0)%Z then false else (rank minSeverity <=? fr)%Z.

Definition withinComplexityCeiling (estMinutes maxMinutes : Z) : bool :=
  if ((maxMinutes <=? 0) || (estMinutes <=? 0))%Z then true else (estMinutes <=? maxMinutes)%Z.

Definition withinSeverityCeiling (findingSeverity maxSeverity : string) : bool :=
  let nc := NormalizeSeverity maxSeverity in
  if (nc =? "")%string then true
  else let cr := index0 SeverityRank nc in
       if (cr =? 0)%Z then false else (rank findingSeverity <=? cr)%Z.

(** ** fallback.go *)

(** One reviewer of [distinctReviewerCount]'s loop: the voices and the targets seen. *)
Definition voice_step (fallback : gmap string string) (acc : nat * gset string) (r : string) : nat * gset string :=
  let target := default "" (fallback !! r) in
  if (target =? "")%string then (S (fst acc), snd acc)
  else if bool_decide (target ∈ snd acc) then acc
  else (S (fst acc), {[target]} ∪ snd acc).
Definition distinctReviewerCount (reviewers : list string) (fallback : gmap string string) : nat :=
  if bool_decide (fallback = ∅) then length reviewers
  else fst (foldl (voice_step fallback) (0, ∅) reviewers).

(** [memberQuotes] *)
Definition memberQuotes (f : JSONFinding) : list SourceQuote * bool :=
  match j_SourceQuotes f with
  | _ :: _ => (j_SourceQuotes f, true)
  | [] =>
      let reviewers := if Reviewers (j_Finding f) is [] then [""] else Reviewers (j_Finding f) in
      ((fun r => mkSourceQuote r (File (j_Finding f)) (lower_trim (Category (j_Finding f))) (Evidence (j_Finding f))) <$> reviewers,
       length (Reviewers (j_Finding f)) <=? 1)
  end.

(** [recomputeFallbackConfidence] on one record. *)
Definition recompute (f : JSONFinding) : JSONFinding :=
  let g := j_Finding f in
  if bool_decide (is_Some (Verification_ g)) || (Confidence g =? ConfidenceVerified)%string then f
  else
    let distinct := distinctReviewerCount (Reviewers g) (j_FallbackReviewers f) in
    if length (Reviewers g) <=? distinct then f
    else
      let '(quotes, provenanced) := memberQuotes f in
      let '(confidence, discount) :=
        DiscountedConfidence distinct (Category g) (provenanced && negb (IsPanelWideQuotes quotes)) in
      mkJSONFinding (set_Confidence confidence g) (j_FallbackReviewers f) (j_SourceQuotes f) discount (j_Stamps f).
Definition recomputeFallbackConfidence (findings : list JSONFinding) : list JSONFinding := recompute <$> findings.
End gate.

(** [stampFallbackProvenance]: the sources' (reviewer, served model) pairs in order. *)
Definition reviewerFallback (pairs : list (string * string)) : gmap string string :=
  foldl (fun m rt => if negb (snd rt =? "")%string && negb (fst rt =? "")%string then <[fst rt := snd rt]> m else m) ∅ pairs.
Definition stamp (targets : gmap string string) (f : JSONFinding) : JSONFinding :=
  let fr := foldl (fun m rev => let target := default "" (targets !! rev) in
                     if (target =? "")%string then m else <[rev := target]> m) ∅ (Reviewers (j_Finding f)) in
  if bool_decide (fr = ∅) then f
  else mkJSONFinding (j_Finding f) fr (j_SourceQuotes f) (j_ConfidenceDiscount f) (j_Stamps f).
Definition stampFallbackProvenance (findings : list JSONFinding) (pairs : list (string * string)) : list JSONFinding :=
  let targets := reviewerFallback pairs in
  if bool_decide (targets = ∅) then findings else stamp targets <$> findings.

(** ** unresolved.go *)

(** The loop of [routeUnresolved] from index [i]. *)
Fixpoint route_loop (drop : gset nat) (i : nat) (merged : list Merged) (jf : list JSONFinding)
    : list Merged * list JSONFinding * list JSONFinding :=
  match jf with
  | [] => ([], [], [])
  | j :: jf' =>
      let '(km, kj, r) := route_loop drop (S i) (tail merged) jf' in
      if bool_decide (i ∈ drop) then (km, kj, j :: r)
      else (match head merged with Some m => m :: km | None => km end, j :: kj, r)
  end.
(** [None] is the panic of a [make] with a negative capacity. *)
Definition routeUnresolved (merged : list Merged) (jf : list JSONFinding) (idx : list nat)
    : option (list Merged * list JSONFinding * list JSONFinding) :=
  match idx with
  | [] => Some (merged, jf, [])
  | _ =>
      let drop : gset nat := list_to_set idx in
      if (length merged <? size drop) || (length jf <? size drop) then None
      else Some (route_loop drop 0 merged jf)
  end.

Definition countOutOfScope (merged : list Merged) : nat :=
  length (filter (fun m => Category (m_Finding m) = CategoryOutOfScope) merged).

(** mcp/handlers.go [failingFindings]: [None] is an index panic. *)
Section failing.
Context {U : UnicodeCase}.
Definition failing_step (jsons : list JSONFinding) (threshold : string) (requireVerified : bool)
    (out : list JSONFinding) (im : nat * Merged) : option (list JSONFinding) :=
  if finding_fails threshold requireVerified (m_Finding (snd im))
  then j ← jsons !! (fst im); Some (out ++ [j]) else Some out.
Definition failingFindings (jsons : list JSONFinding) (findings : list Merged) (threshold : string) (requireVerified : bool)
    : option (list JSONFinding) :=
  foldM (failing_step jsons threshold requireVerified) [] (imap pair findings).
End failing.

(** ** The counts *)

Section counts.
Context {U : UnicodeCase}.

Lemma fold_count {A} (p : A -> bool) (l : list A) n :
  foldl (fun n x => if p x then S n else n) n l = n + length (filter (fun x => p x = true) l).
Proof.
  revert n. induction l as [|x l IH]; intros n; cbn [foldl]; [simpl; lia|]. rewrite filter_cons, IH.
  destruct (p x); [rewrite decide_True by done|rewrite decide_False by done]; simpl; lia.
Qed.

(** A canonical threshold. *)
Definition canonical (t : string) : Prop := t ∈ [SevCritical; SevHigh; SevMedium; SevLow].

Lemma canonical_upper t : canonical t -> ToUpper (TrimSpace t) = t.
Proof.
  unfold canonical. rewrite !elem_of_cons. intros [->|[->|[->|[->|?%elem_of_nil]]]]; [by vm_compute..|done].
Qed.

End counts.

(** ** Voices *)

(** A reviewer served by its own model, and the served models of the others. *)
Definition target_of (fallback : gmap string string) (r : string) : string := default "" (fallback !! r).
Definition native (fallback : gmap string string) (rs : list string) : list string :=
  filter (fun r => target_of fallback r = "") rs.
Definition shared (fallback : gmap string string) (rs : list string) : gset string :=
  list_to_set (filter (fun t => t <> "") (target_of fallback <$> rs)).

Lemma size_union_singleton (x : string) (X : gset string) : x ∉ X -> size ({[x]} ∪ X) = S (size X).
Proof. intros H. pose proof (size_union ({[x]} : gset string) X) as E. rewrite E by set_solver. by rewrite size_singleton. Qed.

Lemma voice_fold fallback rs n seen :
  foldl (voice_step fallback) (n, seen) rs =
  (n + length (native fallback rs) + size (shared fallback rs ∖ seen), seen ∪ shared fallback rs).
Proof.
  revert n seen. unfold native, shared. induction rs as [|r rs IH]; intros n seen; cbn [foldl].
  { cbn. assert ((∅ : gset string) ∖ seen = ∅) as -> by set_solver. rewrite size_empty. f_equal; [lia|set_solver]. }
  unfold voice_step at 2. cbn [fst snd]. fold (target_of fallback r). rewrite fmap_cons, !filter_cons.
  destruct (String.eqb_spec (target_of fallback r) "") as [E|E].
  - rewrite IH, decide_True, decide_False by (done || by intros ?). cbn [length]. f_equal. lia.
  - rewrite decide_False, decide_True by done. rewrite list_to_set_cons. case_bool_decide as Hin.
    + rewrite IH. assert (forall X : gset string, ({[target_of fallback r]} ∪ X) ∖ seen = X ∖ seen) as -> by set_solver.
      f_equal. set_solver.
    + rewrite IH. set (T := list_to_set _). f_equal; [|set_solver].
      assert (({[target_of fallback r]} ∪ T) ∖ seen = {[target_of fallback r]} ∪ T ∖ ({[target_of fallback r]} ∪ seen)) as ->.
      { apply set_eq. intros x. destruct (decide (x = target_of fallback r)) as [->|]; set_solver. }
      rewrite size_union_singleton by set_solver. lia.
Qed.

Lemma distinctReviewerCount_eq rs fallback :
  distinctReviewerCount rs fallback = length (native fallback rs) + size (shared fallback rs).
Proof.
  unfold distinctReviewerCount. case_bool_decide as E.
  - subst fallback. unfold native, shared. induction rs as [|r rs IH]; [done|].
    rewrite fmap_cons, !filter_cons. assert (target_of ∅ r = "") as E by (unfold target_of; by rewrite lookup_empty).
    rewrite E, decide_True, decide_False by (done || by intros ?). cbn [length]. lia.
  - rewrite voice_fold. cbn [fst]. rewrite difference_empty_L. lia.
Qed.

Lemma shared_size fallback rs : size (shared fallback rs) <= length (filter (fun r => target_of fallback r <> "") rs).
Proof.
  unfold shared. induction rs as [|r rs IH]; [done|]. rewrite fmap_cons, !filter_cons.
  destruct (decide (target_of fallback r <> "")) as [H|H]; [|done]. rewrite list_to_set_cons. cbn [length].
  set (T := list_to_set _) in *. pose proof (size_union_alt ({[target_of fallback r]} : gset string) T) as E.
  rewrite E, size_singleton. assert (size (T ∖ {[target_of fallback r]}) <= size T) by (apply subseteq_size; set_solver). lia.
Qed.

Lemma distinct_le rs fallback : distinctReviewerCount rs fallback <= length rs.
Proof.
  rewrite distinctReviewerCount_eq. pose proof (shared_size fallback rs). unfold native.
  assert (length (filter (fun r => target_of fallback r = "") rs) + length (filter (fun r => target_of fallback r <> "") rs)
    = length rs); [|lia]. clear H. induction rs as [|r rs IH]; [done|]. rewrite !filter_cons.
  destruct (decide (target_of fallback r = "")) as [E|E].
  - rewrite decide_False by (by intros ?). cbn [length]. lia.
  - rewrite decide_True by done. cbn [length]. lia.
Qed.

Section confidence.
Context {U : UnicodeCase}.

(** A record whose confidence a verify verdict owns. *)
Definition verdict_owned (f : JSONFinding) : Prop :=
  is_Some (Verification_ (j_Finding f)) \/ Confidence (j_Finding f) = ConfidenceVerified.

(** Fallback de-weighting. The voices counted are the reviewers that ran on their own
    model and one per served model, never more than the reviewers. Recomputing a
    record changes nothing but its confidence and discount, and those only where
    reviewers collapsed and no verdict owns the record; it then answers HIGH only
    for two or more voices, so reviewers all served by one model leave MEDIUM. *)
Theorem recompute_spec (f : JSONFinding) :
  let g := j_Finding f in
  let d := distinctReviewerCount (Reviewers g) (j_FallbackReviewers f) in
  d = length (native (j_FallbackReviewers f) (Reviewers g)) + size (shared (j_FallbackReviewers f) (Reviewers g)) /\
  d <= length (Reviewers g) /\
  j_Finding (recompute f) = set_Confidence (Confidence (j_Finding (recompute f))) g /\
  j_FallbackReviewers (recompute f) = j_FallbackReviewers f /\ j_SourceQuotes (recompute f) = j_SourceQuotes f /\
  (verdict_owned f \/ d = length (Reviewers g) -> recompute f = f) /\
  (~ verdict_owned f -> d < length (Reviewers g) ->
     (Confidence (j_Finding (recompute f)) = ConfHigh -> 2 <= d) /\
     (d <= 1 -> Confidence (j_Finding (recompute f)) = ConfMedium)).
Proof.
  intros g d. split; [apply distinctReviewerCount_eq|]. assert (d <= length (Reviewers g)) as Hle by apply distinct_le.
  split; [done|]. assert (j_Finding f = set_Confidence (Confidence (j_Finding f)) g) as Hid by (unfold g; by destruct (j_Finding f)).
  unfold recompute. fold g d.
  destruct (bool_decide (is_Some (Verification_ g)) || (Confidence g =? ConfidenceVerified)%string) eqn:Eo.
  { split_and!; [apply Hid|done|done|done|]. intros []. unfold verdict_owned. fold g.
    apply orb_true_iff in Eo as [H%bool_decide_eq_true|H%String.eqb_eq]; auto. }
  assert (~ verdict_owned f) as Hno.
  { apply orb_false_iff in Eo as [H1%bool_decide_eq_false H2%String.eqb_neq]. unfold verdict_owned. fold g. by intros [?|?]. }
  destruct (Nat.leb_spec (length (Reviewers g)) d) as [Hd|Hd].
  { split_and!; [apply Hid|done|done|done|]. intros _ H. lia. }
  destruct (memberQuotes f) as [quotes provenanced]. destruct (DiscountedConfidence d _ _) as [c disc] eqn:Ec.
  assert ((c = ConfHigh -> 2 <= d) /\ (d <= 1 -> c = ConfMedium)) as Hc.
  { unfold DiscountedConfidence, ConfidenceFor in Ec. destruct (Nat.leb_spec 2 d) as [H2|H2].
    - split; [done|lia].
    - cbn [andb] in Ec. injection Ec as <- _. split; done. }
  cbn [j_Finding j_FallbackReviewers j_SourceQuotes]. split_and!; [done|done|done|intros [?|?]; [done|lia]|done].
Qed.
End confidence.

(** ** Routing *)

Section routing.
Context {U : UnicodeCase}.

(** A merged finding and its record agree on what the gate reads. *)
Definition same_gate (m : Merged) (j : JSONFinding) : Prop :=
  Severity (m_Finding m) = Severity (j_Finding j) /\ Category (m_Finding m) = Category (j_Finding j) /\
  Verification_ (m_Finding m) = Verification_ (j_Finding j).

(** The elements at the positions [p] answers for, from position [i]. *)
Definition positions {A} (p : nat -> bool) (i : nat) (l : list A) : list A :=
  snd <$> filter (fun x : nat * A => p (fst x) = true) (imap (fun k x => (i + k, x)) l).

Lemma positions_cons {A} p i (x : A) l :
  positions p i (x :: l) = if p i then x :: positions p (S i) l else positions p (S i) l.
Proof.
  unfold positions. cbn [imap]. rewrite filter_cons. cbn [fst]. rewrite Nat.add_0_r.
  rewrite (imap_ext _ (fun k x => (S i + k, x)) l).
  2: { intros k y _. cbn. f_equal. lia. }
  destruct (p i); repeat case_decide; (done || congruence).
Qed.

Lemma positions_perm {A} p i (l : list A) : l ≡ₚ positions (negb ∘ p) i l ++ positions p i l.
Proof.
  revert i. induction l as [|x l IH]; intros i; [done|]. rewrite !positions_cons. unfold compose at 1.
  destruct (p i); cbn [negb].
  - rewrite <- Permutation_middle. by rewrite <- IH.
  - cbn [app]. by rewrite <- IH.
Qed.

Lemma route_loop_spec drop i merged jf : Forall2 same_gate merged jf ->
  let '(km, kj, r) := route_loop drop i merged jf in
  Forall2 same_gate km kj /\
  km = positions (fun k => negb (bool_decide (k ∈ drop))) i merged /\
  kj = positions (fun k => negb (bool_decide (k ∈ drop))) i jf /\
  r = positions (fun k => bool_decide (k ∈ drop)) i jf.
Proof.
  intros H. revert i. induction H as [|m j merged jf Hmj H IH]; intros i; [by split_and!; [constructor|..]|].
  cbn [route_loop tail head]. specialize (IH (S i)). destruct (route_loop drop (S i) merged jf) as [[km kj] r].
  destruct IH as (IH1 & IH2 & IH3 & IH4). rewrite !positions_cons.
  case_bool_decide; cbn [negb]; split_and!; solve [by constructor|congruence].
Qed.

Lemma filter_of_fmap {A B} (f : A -> B) (P : B -> Prop) `{!forall x, Decision (P x)} (l : list A) :
  filter P (f <$> l) = f <$> filter (fun x => P (f x)) l.
Proof. induction l as [|x l IH]; [done|]. rewrite fmap_cons, !filter_cons, IH. by case_decide. Qed.

Lemma filter_length_impl {A} (P Q : A -> Prop) `{!forall x, Decision (P x), !forall x, Decision (Q x)} (l : list A) :
  (forall x, P x -> Q x) -> length (filter P l) <= length (filter Q l).
Proof. intros Hi. induction l as [|x l IH]; [done|]. rewrite !filter_cons. repeat case_decide; simpl; (lia || naive_solver). Qed.

Lemma same_gate_fails m j t rv : same_gate m j -> finding_fails t rv (m_Finding m) = finding_fails t rv (j_Finding j).
Proof. unfold finding_fails. by intros (-> & -> & ->). Qed.

Lemma failing_fold jsons t rv l k out : Forall2 same_gate l (drop k jsons) ->
  foldM (failing_step jsons t rv) out (imap (fun i m => (k + i, m)) l) =
  Some (out ++ filter (fun j => finding_fails t rv (j_Finding j) = true) (drop k jsons)).
Proof.
  intros H. remember (drop k jsons) as rest eqn:Er. revert k out Er.
  induction H as [|m j l rest Hmj H IH]; intros k out Er; [by rewrite app_nil_r|].
  assert (jsons !! k = Some j) as Hj. { rewrite <- (Nat.add_0_r k), <- lookup_drop, <- Er. done. }
  assert (rest = drop (S k) jsons) as Hr. { rewrite <- (Nat.add_1_r k), <- drop_drop, <- Er. done. }
  rewrite (imap_cons (fun i m => (k + i, m))). rewrite Nat.add_0_r.
  rewrite (imap_ext _ (fun i m => (S k + i, m)) l) by (intros; cbn; f_equal; lia).
  cbn [foldM]. unfold failing_step at 2. cbn [fst snd]. rewrite (same_gate_fails m j t rv Hmj), filter_cons.
  destruct (finding_fails t rv (j_Finding j)).
  - rewrite Hj. cbn. rewrite decide_True by done. rewrite (IH (S k) _ Hr). by rewrite <- app_assoc.
  - cbn [mbind option_bind]. rewrite decide_False by done. by apply (IH (S k)).
Qed.

(** The level of a severity as the gate reads it: in upper case without its padding, and
    again as the rank lookup reads that. *)
Definition level (s : string) : nat := severity_level (ToUpper (TrimSpace s)).

(** What the gate is to count. *)
Definition blocks (t : string) (rv : bool) (f : Finding) : Prop :=
  1 <= level t <= level (Severity f) /\ ToLower (TrimSpace (Category f)) <> "out-of-scope"%string /\
  match Verification_ f with
  | None => rv = false
  | Some v => ToLower (TrimSpace (Verdict v)) <> "refuted"%string /\ (rv = true -> ToLower (TrimSpace (Verdict v)) = "confirmed"%string)
  end.
#[export] Instance blocks_dec t rv f : Decision (blocks t rv f).
Proof. unfold blocks. destruct (Verification_ f); apply _. Defined.

Lemma AtOrAbove_level s t : AtOrAbove (ToUpper (TrimSpace s)) (ToUpper (TrimSpace t)) = true <-> 1 <= level t <= level s.
Proof.
  unfold AtOrAbove, rank. rewrite severity_level_rank, severity_level_index. fold (level t) (level s).
  destruct (Nat.leb_spec 1 (level t)); [rewrite Z.leb_le; lia|split; [done|lia]].
Qed.

Lemma finding_fails_blocks t rv f : finding_fails t rv f = true <-> blocks t rv f.
Proof.
  unfold finding_fails, IsFailing, blocks. rewrite <- AtOrAbove_level. unfold lower_trim, CategoryOutOfScope, VerdictRefuted, VerdictConfirmed.
  destruct (String.eqb_spec (ToLower (TrimSpace (Category f))) "out-of-scope"); [naive_solver|].
  destruct (Verification_ f) as [v|].
  - destruct (String.eqb_spec (ToLower (TrimSpace (Verdict v))) "refuted"); [naive_solver|].
    destruct (AtOrAbove _ _); [|naive_solver].
    destruct rv, (String.eqb_spec (ToLower (TrimSpace (Verdict v))) "confirmed"); naive_solver.
  - destruct (AtOrAbove _ _); [|naive_solver]. destruct rv; naive_solver.
Qed.

(** C7. The severity gate counts exactly the findings that block: of a severity at or
    above the threshold, not out of scope, not refuted and, when verification is required,
    confirmed, whatever the case and the padding the file spells them in; a threshold
    that is no severity counts nothing. The count over the re-read records is the same,
    and the list of failing records names exactly those. So raising the threshold never
    counts more findings, and neither does requiring verification. *)
Theorem CountAtOrAbove_gate (findings : list Merged) (t : string) (rv : bool) :
  CountAtOrAbove findings t rv = length (filter (fun m => blocks t rv (m_Finding m)) findings) /\
  CountFailingJSON (JSONFindings None findings) t rv = length (filter (fun m => blocks t rv (m_Finding m)) findings) /\
  failingFindings (JSONFindings None findings) findings t rv =
    Some (json_of_Merged <$> filter (fun m => blocks t rv (m_Finding m)) findings) /\
  (forall t', 1 <= level t <= level t' -> CountAtOrAbove findings t' rv <= CountAtOrAbove findings t rv) /\
  CountAtOrAbove findings t true <= CountAtOrAbove findings t false.
Proof.
  assert (forall t rv, CountAtOrAbove findings t rv = length (filter (fun m => blocks t rv (m_Finding m)) findings)) as Hc.
  { intros u w. unfold CountAtOrAbove. rewrite fold_count. cbn [Nat.add]. f_equal.
    apply list_filter_iff. intros m. apply finding_fails_blocks. }
  split_and!; [apply Hc| | | |].
  - unfold CountFailingJSON, JSONFindings. rewrite fold_count. cbn [Nat.add default from_option].
    rewrite filter_of_fmap, length_fmap. f_equal. apply list_filter_iff. intros m. apply finding_fails_blocks.
  - unfold failingFindings. etrans; [apply (failing_fold (JSONFindings None findings) t rv findings 0 [])|].
    + rewrite drop_0. unfold JSONFindings. cbn [default from_option]. by apply Forall2_fmap_self.
    + cbn [app]. rewrite drop_0. unfold JSONFindings. cbn [default from_option]. rewrite filter_of_fmap.
      do 2 f_equal. apply list_filter_iff. intros m. apply finding_fails_blocks.
  - intros t' Hl. rewrite !Hc. apply filter_length_impl. intros m (H1 & H2 & H3). unfold blocks. split_and!; [lia..|done|done].
  - rewrite !Hc. apply filter_length_impl. intros m (H1 & H2 & H3). split_and!; [lia..|done|].
    by destruct (Verification_ (m_Finding m)) as [v|]; [destruct H3|].
Qed.

Lemma positions_ext {A} p q i (l : list A) : (forall k, p k = q k) -> positions p i l = positions q i l.
Proof.
  intros H. revert i. induction l as [|x l IH]; intros i; [done|]. rewrite !positions_cons, H, IH. done.
Qed.

Lemma positions_const {A} (b : bool) i (l : list A) : positions (fun _ => b) i l = if b then l else [].
Proof.
  revert i. induction l as [|x l IH]; intros i; [by destruct b|]. rewrite positions_cons, IH. by destruct b.
Qed.

Lemma drop_size idx n : Forall (fun i => i < n) idx -> size (list_to_set idx : gset nat) <= n.
Proof.
  intros H. rewrite <- (size_set_seq (C := gset nat) 0 n). apply subseteq_size. intros i.
  rewrite elem_of_list_to_set, elem_of_set_seq. rewrite Forall_forall in H. intros Hi. specialize (H i Hi). lia.
Qed.

Lemma routeUnresolved_spec merged jf idx : Forall2 same_gate merged jf -> Forall (fun i => i < length jf) idx ->
  exists km, routeUnresolved merged jf idx =
    Some (km, positions (fun k => negb (bool_decide (k ∈ idx))) 0 jf, positions (fun k => bool_decide (k ∈ idx)) 0 jf) /\
  Forall2 same_gate km (positions (fun k => negb (bool_decide (k ∈ idx))) 0 jf).
Proof.
  intros H Hidx. destruct idx as [|i0 idx'].
  { assert (forall k, bool_decide (k ∈ @nil nat) = false) as Hb by (intros k; by apply bool_decide_eq_false, not_elem_of_nil).
    exists merged. rewrite (positions_ext _ (fun _ => true)) by (intros k; by rewrite Hb).
    rewrite (positions_ext (fun k => bool_decide (k ∈ @nil nat)) (fun _ => false)), !positions_const by done. by split. }
  unfold routeUnresolved. pose proof (drop_size _ _ Hidx) as Hsz. set (idx := i0 :: idx') in *.
  pose proof (Forall2_length _ _ _ H) as Hlen. rewrite Hlen.
  destruct (Nat.ltb_spec (length jf) (size (list_to_set idx : gset nat))); [lia|]. cbn [orb].
  pose proof (route_loop_spec (list_to_set idx) 0 merged jf H) as Hr.
  destruct (route_loop (list_to_set idx) 0 merged jf) as [[km kj] r]. destruct Hr as (H1 & _ & H3 & H4).
  assert (forall k, bool_decide (k ∈ (list_to_set idx : gset nat)) = bool_decide (k ∈ idx)) as Hb.
  { intros k. apply bool_decide_ext, elem_of_list_to_set. }
  rewrite (positions_ext _ (fun k => negb (bool_decide (k ∈ idx)))) in H3 by (intros k; by rewrite Hb).
  rewrite (positions_ext _ (fun k => bool_decide (k ∈ idx))) in H4 by (intros k; by rewrite Hb).
  subst kj r. by exists km.
Qed.

(** Routing findings out of the primary stream. On aligned inputs and indices in
    range it does not panic; the records kept and the records routed are those off and
    on the indices, in order, and together are all of them; the findings kept stay
    aligned with the records kept, so that the inline list of failing records, which
    indexes one by the position in the other, does not panic, is the failing records
    in order, and has the length the gate counts. *)
Theorem routeUnresolved_aligned (merged : list Merged) (jf : list JSONFinding) (idx : list nat) (t : string) (rv : bool) :
  Forall2 same_gate merged jf -> Forall (fun i => i < length jf) idx ->
  exists km kj r, routeUnresolved merged jf idx = Some (km, kj, r) /\
  kj = positions (fun k => negb (bool_decide (k ∈ idx))) 0 jf /\ r = positions (fun k => bool_decide (k ∈ idx)) 0 jf /\
  jf ≡ₚ kj ++ r /\ Forall2 same_gate km kj /\
  failingFindings kj km t rv = Some (filter (fun j => finding_fails t rv (j_Finding j) = true) kj) /\
  length (filter (fun j => finding_fails t rv (j_Finding j) = true) kj) = CountAtOrAbove km t rv.
Proof.
  intros H Hidx. destruct (routeUnresolved_spec merged jf idx H Hidx) as (km & Hr & Hk).
  exists km. do 2 eexists. split; [exact Hr|]. split; [done|]. split; [done|]. split.
  { apply (positions_perm (fun k => bool_decide (k ∈ idx)) 0). }
  split; [done|]. split; [apply (failing_fold _ t rv km 0 [] Hk)|].
  unfold CountAtOrAbove. rewrite fold_count. cbn [Nat.add]. clear Hr.
  induction Hk as [|m j km' kj' Hmj Hk IH]; [done|]. rewrite !filter_cons, (same_gate_fails m j t rv Hmj).
  destruct (finding_fails t rv (j_Finding j)); repeat case_decide; simpl; congruence.
Qed.
End routing.

(** ** Witnesses *)

#[local] Existing Instance ascii_case.

(** Three merged findings: a refuted CRITICAL, a confirmed HIGH and a MEDIUM. *)
Definition sample (sev : string) (v : option Verification) : Merged :=
  mkMerged (mkFinding sev "a.go" 1 "p" "f" "style" 5 "e" "" ["r1"; "r2"] ConfHigh "" v) [] "" [].
Definition sample_merged : list Merged :=
  [sample "critical" (Some (mkVerification " Refuted" "s" "" false false)); sample "HIGH" (Some (mkVerification "confirmed" "s" "" false false));
   sample "MEDIUM" None].

(** A threshold that is no severity counts nothing, required verification counts the
    confirmed finding alone. *)
Example gate_counts :
  CountAtOrAbove sample_merged "low " false = 2 /\ CountAtOrAbove sample_merged "LOW" true = 1 /\
  CountAtOrAbove sample_merged "BLOCKER" false = 0.
Proof. by vm_compute. Qed.

Lemma routeUnresolved_aligned_witness :
  (exists km kj r, routeUnresolved sample_merged (json_of_Merged <$> sample_merged) [1] = Some (km, kj, r) /\
     length kj = 2 /\ length r = 1 /\ Forall2 same_gate km kj).
Proof.
  destruct (routeUnresolved_aligned sample_merged (json_of_Merged <$> sample_merged) [1] "LOW" false)
    as (km & kj & r & H1 & H2 & H3 & _ & H5 & _).
  - by repeat constructor.
  - by repeat constructor.
  - exists km, kj, r. split; [done|]. subst kj r. split; [by vm_compute|]. split; [by vm_compute|done].
Defined.

(** Two reviewers served by one model and a third on its own leave two voices; two
    served by one model leave one, and MEDIUM. *)
Example recompute_examples :
  let f fr := mkJSONFinding (mkFinding "HIGH" "a.go" 1 "p" "f" "style" 5 "e" "" ["r1"; "r2"; "r3"] ConfHigh "" None) fr [] "" no_stamps in
  Confidence (j_Finding (recompute (f (<["r1" := "m"]> (<["r2" := "m"]> ∅))))) = ConfHigh /\
  Confidence (j_Finding (recompute (f (<["r1" := "m"]> (<["r2" := "m"]> (<["r3" := "m"]> ∅)))))) = ConfMedium.
Proof. by vm_compute. Qed.
