(* ===== verification/GoInt.v ===== *)
(** * Machine integers

    Go's [int] and [int64], both 64 bits wide here: values are [Z] and every
    operation that can leave the range wraps around explicitly. *)

From stdpp Require Import base tactics numbers.
From Stdlib Require Import ZArith Lia.
From S2P Require Import GoStrconv.

Open Scope Z_scope.

Definition two64 : Z := 2 ^ 64.
Definition wrap64 (n : Z) : Z := (n - MinInt64) mod two64 + MinInt64.

Definition int64_range (n : Z) : Prop := MinInt64 <= n <= MaxInt64.

Lemma wrap64_id n : int64_range n -> wrap64 n = n.
Proof. unfold int64_range, wrap64, MinInt64, MaxInt64, two64. intros H. rewrite Z.mod_small; lia. Qed.

Lemma wrap64_range n : int64_range (wrap64 n).
Proof.
  unfold int64_range, wrap64, MinInt64, MaxInt64, two64. pose proof (Z.mod_pos_bound (n - - 2 ^ 63) (2 ^ 64)). lia.
Qed.

(** Go's [min] and [max] builtins. *)
Definition go_min (a b : Z) : Z := if b <? a then b else a.
Definition go_max (a b : Z) : Z := if a <? b then b else a.

Lemma go_min_eq a b : go_min a b = Z.min a b.
Proof. unfold go_min. destruct (Z.ltb_spec b a); lia. Qed.

Lemma go_max_eq a b : go_max a b = Z.max a b.
Proof. unfold go_max. destruct (Z.ltb_spec a b); lia. Qed.

(** A value in range by arithmetic on what bounds it. *)
Ltac int_range := unfold int64_range, MaxInt64, MinInt64 in *; split; lia.
