(* ===== verification/Window.v ===== *)
(** * Context windows and tool ceilings

    src/internal/payload/contextwindow.go and sizing.go: the resolution of a model's
    context window and the byte and line budgets derived from it;
    src/internal/fanout/review.go [appliedByteBudget]; src/internal/verify/invoke.go:
    the skeptic's tool ceiling and the dispatcher that enforces it. Integers are
    64 bits wide and wrap. *)

From Stdlib Require Import Ascii String.
From stdpp Require Import prelude strings gmap list.
From Stdlib Require Import ZArith Lia.
From S2P Require Import Prelude GoString GoStrconv GoInt GoJson.

Open Scope string_scope.
Open Scope list_scope.
Open Scope Z_scope.

(** ** contextwindow.go *)

Definition defaultContextWindowTokens : Z := 32768.

Definition contextWindowTokens : gmap string Z := list_to_map
  [("anthropic/claude-opus-4.8", 200000); ("anthropic/claude-sonnet-5", 200000);
   ("google/gemini-2.5-pro", 1000000); ("google/gemini-2.5-flash", 1000000);
   ("openai/gpt-5.5", 128000); ("openai/gpt-5.4-mini", 128000); ("deepseek/deepseek-v4-pro", 128000);
   ("moonshotai/kimi-k2.7-code", 128000); ("qwen/qwen3-coder-plus", 128000); ("z-ai/glm-5.2", 128000)].

Definition contextWindowTokensCap : Z := 10000000.

(** The range over the table, in whatever order. *)
Definition MaxStaticContextWindow (range : list (string * Z)) : Z :=
  foldl (fun m w => if m <? snd w then snd w else m) defaultContextWindowTokens range.

Inductive WindowSource := WindowSourceDeclaration | WindowSourceTable | WindowSourceDefault.
#[export] Instance WindowSource_eq_dec : EqDecision WindowSource.
Proof. solve_decision. Defined.

Definition ResolveContextWindow (model : string) (declared : option Z) : Z * WindowSource :=
  match declared with
  | Some d =>
      if (0 <? d) && (d <=? contextWindowTokensCap) then (d, WindowSourceDeclaration)
      else match contextWindowTokens !! TrimSpace model with
           | Some w => (w, WindowSourceTable)
           | None => (defaultContextWindowTokens, WindowSourceDefault)
           end
  | None =>
      match contextWindowTokens !! TrimSpace model with
      | Some w => (w, WindowSourceTable)
      | None => (defaultContextWindowTokens, WindowSourceDefault)
      end
  end.

Definition ContextWindowTokens (model : string) (declared : option Z) : Z := fst (ResolveContextWindow model declared).

(** ** sizing.go *)

Definition DefaultOutputTokens : Z := 8192.
Definition conservativeBytesPerTokenNum : Z := 7.
Definition conservativeBytesPerTokenDen : Z := 2.
Definition promptOverheadTokens : Z := 4096.
Definition AvgBytesPerLine : Z := 64.
Definition minChunkLines : Z := 64.
Definition MinUsableReadBytes : Z := 64 * 1024.
Definition ReasoningReplayReserveCaps : Z := 2.

Definition EffectiveByteBudget (model : string) (declared : option Z) (outputTokens : Z) : Z :=
  let outputTokens := if outputTokens <? 0 then 0 else outputTokens in
  let effectiveTokens := wrap64 (wrap64 (ContextWindowTokens model declared - outputTokens) - promptOverheadTokens) in
  if effectiveTokens <=? 0 then 0
  else Z.quot (wrap64 (effectiveTokens * conservativeBytesPerTokenNum)) conservativeBytesPerTokenDen.

Definition InputRoomTokens (model : string) (declared : option Z) : Z :=
  let room := wrap64 (ContextWindowTokens model declared - promptOverheadTokens) in
  if room <? 0 then 0 else room.

Definition WindowFundsAUsableRead (model : string) (declared outputTokens : option Z) : bool :=
  let outCap := match outputTokens with
                | Some o => if 0 <? o then o else DefaultOutputTokens
                | None => DefaultOutputTokens
                end in
  let reserved := go_min outCap (Z.quot (InputRoomTokens model declared) 2) in
  MinUsableReadBytes <=? EffectiveByteBudget model declared reserved.

Definition ClampLinesToByteBudget (maxLines byteBudget : Z) : Z :=
  if (byteBudget <=? 0) || (maxLines <=? 0) then maxLines
  else
    let allowed := Z.quot byteBudget AvgBytesPerLine in
    if maxLines <=? allowed then maxLines
    else if allowed <? minChunkLines then minChunkLines else allowed.

Definition ChunkMaxLines (model : string) (declared : option Z) (outputTokens : Z) : Z :=
  let maxLines := Z.quot (EffectiveByteBudget model declared outputTokens) AvgBytesPerLine in
  if maxLines <? minChunkLines then minChunkLines else maxLines.

Definition ChunkExceedsByteBudget (chunkBytes budget : Z) : bool := (1 <? budget) && (budget <? chunkBytes).

Definition TokensToBytes (tokens : Z) : Z :=
  if tokens <=? 0 then 0 else Z.quot (wrap64 (tokens * conservativeBytesPerTokenNum)) conservativeBytesPerTokenDen.

Definition SizingOutputTokens (toolLoop : bool) (outputTokens : Z) : Z :=
  if negb toolLoop then outputTokens else wrap64 (outputTokens * (1 + ReasoningReplayReserveCaps)).

(** fanout/review.go; [scope] is the length of the scope constraint. *)
Definition appliedByteBudget (agentBudget globalBudget : Z) (scope : nat) : Z :=
  if agentBudget <=? 0 then 0
  else
    let applied := if (0 <? globalBudget) && (globalBudget <? agentBudget) then globalBudget else agentBudget in
    let s := Z.of_nat scope in
    if 0 <? s then let applied := wrap64 (applied - s) in if applied <? 0 then 0 else applied else applied.

(** ** verify/invoke.go: the ceiling *)

(** What [skepticToolBudget] reads of a [registry.AgentConfig]. *)
Record AgentConfig := mkAgentConfig {
  ac_Model : string;
  ac_MaxTokens : option Z;
  ac_ContextWindowTokens : option Z;
  ac_ToolBudgetBytes : option Z;
}.

Definition minSkepticToolBudget : Z := 1.
Definition minTrustworthyCeilingBytes : Z := MinUsableReadBytes.

Definition reservedOutputTokens (c : AgentConfig) : Z :=
  match ac_MaxTokens c with
  | Some m => if 0 <? m then m else DefaultOutputTokens
  | None => DefaultOutputTokens
  end.

Definition derefInt64 (p : option Z) : Z := default 0 p.

(** The tool ceiling, and whether a trip on it spares the verdict. *)
Definition skepticToolBudget (c : AgentConfig) : Z * bool :=
  let declared := derefInt64 (ac_ToolBudgetBytes c) in
  let unsized := if declared <? 0 then (minSkepticToolBudget, false) else (declared, false) in
  match ac_ContextWindowTokens c with
  | None => unsized
  | Some _ =>
      if negb (bool_decide (snd (ResolveContextWindow (ac_Model c) (ac_ContextWindowTokens c)) = WindowSourceDeclaration))
      then unsized
      else
        let reserved := go_min (reservedOutputTokens c)
                          (Z.quot (InputRoomTokens (ac_Model c) (ac_ContextWindowTokens c)) 2) in
        let ceiling := EffectiveByteBudget (ac_Model c) (ac_ContextWindowTokens c) reserved in
        if ceiling <? minTrustworthyCeilingBytes then (minSkepticToolBudget, false)
        else if (0 <? declared) && (declared <? ceiling) then (declared, false)
        else (ceiling, true)
  end.

(** ** verify/invoke.go: the dispatcher *)

(** [runeCeilCut] for [0 < n]: the first rune start from [n] on, within the longest
    encoding. *)
Fixpoint rune_ceil (i : nat) (fuel : nat) (s : bytes) : option nat :=
  match fuel with
  | O => None
  | S k => match s !! i with
           | Some c => if continuation c then rune_ceil (S i) k s else Some i
           | None => None
           end
  end.
Definition UTFMax : nat := 4.
Definition runeCeilCut (s : bytes) (n : Z) : bytes :=
  if Z.of_nat (length s) <=? n then s
  else if n <=? 0 then []
  else
    let n := Z.to_nat n in
    let limit := Nat.min (n + UTFMax) (length s) in
    match rune_ceil n (limit - n) s with
    | Some i => take i s
    | None => if (limit =? length s)%nat then s else take n s
    end.

Record ToolResult := mkToolResult {
  tr_Content : bytes;
  tr_Truncated : bool;
  tr_OriginalBytes : Z;
}.

(** [boundedDispatcher.Execute] on what the inner dispatcher answers ([None]: an error,
    passed on), with the allowance left. *)
Definition Execute (remaining : Z) (inner : option ToolResult) : Z * option ToolResult :=
  match inner with
  | None => (remaining, None)
  | Some out =>
      let out :=
        if remaining <? Z.of_nat (length (tr_Content out)) then
          let cut := runeCeilCut (tr_Content out) remaining in
          if (length cut <? length (tr_Content out))%nat
          then mkToolResult cut true
                 (if tr_OriginalBytes out =? 0 then Z.of_nat (length (tr_Content out)) else tr_OriginalBytes out)
          else out
        else out in
      (wrap64 (remaining - Z.of_nat (length (tr_Content out))), Some out)
  end.

(** The tool results of a run through [clampDispatcher], in order. *)
Fixpoint execute_all (remaining : Z) (inner : list (option ToolResult)) : list (option ToolResult) :=
  match inner with
  | [] => []
  | o :: inner' => let '(remaining', out) := Execute remaining o in out :: execute_all remaining' inner'
  end.
Definition clampDispatcher (budget : Z) (inner : list (option ToolResult)) : list (option ToolResult) :=
  if budget <=? 0 then inner else execute_all (wrap64 (budget + 1)) inner.

(** ** The window *)

Lemma table_range w model : contextWindowTokens !! model = Some w -> 0 < w <= contextWindowTokensCap.
Proof.
  intros H%elem_of_list_to_map_2. revert H. rewrite !elem_of_cons, elem_of_nil. unfold contextWindowTokensCap.
  intros H. repeat (destruct H as [[= _ ->]|H]; [lia|]). done.
Qed.

Lemma window_range model declared : 0 < ContextWindowTokens model declared <= contextWindowTokensCap.
Proof.
  unfold ContextWindowTokens, ResolveContextWindow.
  assert (0 < fst (match contextWindowTokens !! TrimSpace model with
                   | Some w => (w, WindowSourceTable) | None => (defaultContextWindowTokens, WindowSourceDefault) end)
          <= contextWindowTokensCap) as H.
  { destruct (contextWindowTokens !! TrimSpace model) as [w|] eqn:E; cbn [fst]; [by eapply table_range|].
    by unfold defaultContextWindowTokens, contextWindowTokensCap. }
  destruct declared as [d|]; [|done]. destruct ((0 <? d) && (d <=? contextWindowTokensCap)) eqn:E; [|done].
  bool_prop. cbn [fst]. lia.
Qed.

(** A declaration in range is the window, and so is its source. *)
Lemma declared_window model d : 0 < d <= contextWindowTokensCap ->
  ResolveContextWindow model (Some d) = (d, WindowSourceDeclaration).
Proof. intros H. unfold ResolveContextWindow. by rewrite (proj2 (Z.ltb_lt 0 d)), (proj2 (Z.leb_le d _)) by lia. Qed.

Lemma declaration_source model declared :
  snd (ResolveContextWindow model declared) = WindowSourceDeclaration <->
  exists d, declared = Some d /\ 0 < d <= contextWindowTokensCap.
Proof.
  split.
  - unfold ResolveContextWindow. destruct declared as [d|]; [|by destruct (_ !! _)].
    destruct ((0 <? d) && (d <=? contextWindowTokensCap)) eqn:E; [|by destruct (_ !! _)]. bool_prop. intros _. exists d. split; [done|lia].
  - intros (d & -> & H). by rewrite declared_window.
Qed.

(** The tokens left for input under a reservation. *)
Definition input_tokens (model : string) (declared : option Z) (outputTokens : Z) : Z :=
  Z.max 0 (ContextWindowTokens model declared - Z.max 0 outputTokens - promptOverheadTokens).

(** A reservation whose subtraction stays in range, however small the window. *)
Definition reservable (out : Z) : Prop := MinInt64 <= out <= MaxInt64 - promptOverheadTokens.

Lemma EffectiveByteBudget_eq model declared out : reservable out ->
  EffectiveByteBudget model declared out = 7 * input_tokens model declared out / 2.
Proof.
  intros Ho. pose proof (window_range model declared) as Hw. unfold EffectiveByteBudget, input_tokens.
  unfold reservable, contextWindowTokensCap, promptOverheadTokens, MaxInt64, MinInt64 in *.
  set (o := if out <? 0 then 0 else out). assert (o = Z.max 0 out) as Eo by (unfold o; destruct (Z.ltb_spec out 0); lia).
  rewrite Eo. clear Eo. clearbody o. clear o. set (w := ContextWindowTokens model declared) in *. clearbody w.
  assert (int64_range (w - Z.max 0 out) /\ int64_range (w - Z.max 0 out - 4096)) as [H1 H2] by (split; int_range).
  rewrite (wrap64_id _ H1), (wrap64_id _ H2). 
  assert (w - Z.max 0 out - 4096 <= 10000000) as H3 by lia. clear H1 H2. revert H3. generalize (w - Z.max 0 out - 4096). intros n H3.
  destruct (Z.leb_spec n 0) as [H|H].
  - rewrite Z.max_l by lia. done.
  - rewrite Z.max_r by lia. unfold conservativeBytesPerTokenNum, conservativeBytesPerTokenDen.
    rewrite wrap64_id by int_range. rewrite Z.quot_div_nonneg by lia. f_equal. lia.
Qed.

Lemma InputRoomTokens_eq model declared : InputRoomTokens model declared = Z.max 0 (ContextWindowTokens model declared - promptOverheadTokens).
Proof.
  pose proof (window_range model declared) as Hw. unfold InputRoomTokens, contextWindowTokensCap, promptOverheadTokens in *.
  rewrite wrap64_id by int_range.
  destruct (Z.ltb_spec (ContextWindowTokens model declared - 4096) 0); lia.
Qed.

Lemma budget_range model declared out : reservable out -> 0 <= EffectiveByteBudget model declared out <= 35000000.
Proof.
  intros Ho. rewrite EffectiveByteBudget_eq by done. pose proof (window_range model declared) as Hw.
  unfold contextWindowTokensCap in Hw. unfold input_tokens, promptOverheadTokens. Z.to_euclidean_division_equations. lia.
Qed.

(** The byte budget of a payload. On every reservation that leaves the prompt overhead
    in range it is never negative, never overflows, and never overshoots: the bytes it allows, at 3.5 bytes a token,
    plus the reserved output and the prompt overhead stay inside the resolved window;
    one byte more would not. It grows with the window and shrinks with the
    reservation. *)
Theorem EffectiveByteBudget_fits (model : string) (declared : option Z) (out : Z) : reservable out ->
  let b := EffectiveByteBudget model declared out in
  0 <= b <= 35000000 /\
  (0 < b -> 2 * b + 7 * Z.max 0 out + 7 * promptOverheadTokens <= 7 * ContextWindowTokens model declared) /\
  7 * (ContextWindowTokens model declared - Z.max 0 out - promptOverheadTokens) < 2 * (b + 1) /\
  (forall model' declared', ContextWindowTokens model declared <= ContextWindowTokens model' declared' ->
     b <= EffectiveByteBudget model' declared' out) /\
  (forall out', reservable out' -> out <= out' -> EffectiveByteBudget model declared out' <= b).
Proof.
  intros Ho b. split; [by apply budget_range|]. unfold b. rewrite EffectiveByteBudget_eq by done. split_and!.
  - unfold input_tokens. Z.to_euclidean_division_equations. lia.
  - unfold input_tokens. Z.to_euclidean_division_equations. lia.
  - intros model' declared' Hle. rewrite EffectiveByteBudget_eq by done. apply Z.div_le_mono; [lia|]. unfold input_tokens. lia.
  - intros out' Ho' Hle. rewrite EffectiveByteBudget_eq by done. apply Z.div_le_mono; [lia|]. unfold input_tokens. lia.
Qed.

(** ** The skeptic's ceiling *)

(** The agent with its window declared as [w]. *)
Definition with_window (c : AgentConfig) (w : Z) : AgentConfig :=
  mkAgentConfig (ac_Model c) (ac_MaxTokens c) (Some w) (ac_ToolBudgetBytes c).

(** The reservation and the ceiling at a declared window. *)
Definition reserve (c : AgentConfig) (w : Z) : Z := Z.min (reservedOutputTokens c) (Z.max 0 (w - promptOverheadTokens) / 2).
Definition ceiling (c : AgentConfig) (w : Z) : Z := 7 * Z.max 0 (w - reserve c w - promptOverheadTokens) / 2.

Lemma reservedOutputTokens_pos c : 0 < reservedOutputTokens c.
Proof. unfold reservedOutputTokens, DefaultOutputTokens. destruct (ac_MaxTokens c) as [m|]; [|lia]. destruct (Z.ltb_spec 0 m); lia. Qed.

Lemma reserve_range c w : 0 < w <= contextWindowTokensCap -> 0 <= reserve c w <= 5000000.
Proof.
  intros Hw. pose proof (reservedOutputTokens_pos c). unfold reserve, contextWindowTokensCap, promptOverheadTokens in *.
  Z.to_euclidean_division_equations. lia.
Qed.

Lemma reserve_eq c w : 0 < w <= contextWindowTokensCap ->
  go_min (reservedOutputTokens c) (Z.quot (InputRoomTokens (ac_Model c) (Some w)) 2) = reserve c w.
Proof.
  intros Hw. rewrite go_min_eq, InputRoomTokens_eq. unfold ContextWindowTokens. rewrite declared_window by done. cbn [fst].
  unfold reserve. by rewrite Z.quot_div_nonneg by lia.
Qed.

Lemma ceiling_eq c w : 0 < w <= contextWindowTokensCap ->
  EffectiveByteBudget (ac_Model c) (Some w) (reserve c w) = ceiling c w.
Proof.
  intros Hw. pose proof (reserve_range c w Hw). rewrite EffectiveByteBudget_eq.
  2: { unfold reservable, MinInt64, MaxInt64, promptOverheadTokens. split; lia. }
  unfold input_tokens, ContextWindowTokens, ceiling. rewrite declared_window by done. cbn [fst]. by rewrite (Z.max_r 0 (reserve c w)) by lia.
Qed.

Lemma funds_eq c w : 0 < w <= contextWindowTokensCap ->
  WindowFundsAUsableRead (ac_Model c) (Some w) (ac_MaxTokens c) = (MinUsableReadBytes <=? ceiling c w).
Proof. intros Hw. unfold WindowFundsAUsableRead. fold (reservedOutputTokens c). by rewrite reserve_eq, ceiling_eq by done. Qed.

Lemma skepticToolBudget_declared c w : 0 < w <= contextWindowTokensCap -> ac_ContextWindowTokens c = Some w ->
  skepticToolBudget c =
    if ceiling c w <? MinUsableReadBytes then (1, false)
    else if (0 <? derefInt64 (ac_ToolBudgetBytes c)) && (derefInt64 (ac_ToolBudgetBytes c) <? ceiling c w)
         then (derefInt64 (ac_ToolBudgetBytes c), false) else (ceiling c w, true).
Proof.
  intros Hw E. unfold skepticToolBudget. rewrite E, (declared_window _ _ Hw). cbn [snd]. rewrite bool_decide_true by done.
  cbn [negb]. by rewrite reserve_eq, ceiling_eq by done.
Qed.

Lemma ceiling_mono c w w' : w <= w' -> ceiling c w <= ceiling c w'.
Proof.
  intros H. unfold ceiling, reserve, promptOverheadTokens. pose proof (reservedOutputTokens_pos c).
  Z.to_euclidean_division_equations. lia.
Qed.

Lemma ceiling_fits c w : MinUsableReadBytes <= ceiling c w ->
  2 * ceiling c w + 7 * reserve c w + 7 * promptOverheadTokens <= 7 * w /\ 2 * reserve c w <= w - promptOverheadTokens.
Proof.
  unfold ceiling, reserve, promptOverheadTokens, MinUsableReadBytes. pose proof (reservedOutputTokens_pos c).
  Z.to_euclidean_division_equations. lia.
Qed.

(** The smallest window that funds a read beside the default reservation. *)
Lemma funded_window c w : ac_MaxTokens c = None -> (MinUsableReadBytes <=? ceiling c w) = (31013 <=? w).
Proof.
  intros E. assert (reservedOutputTokens c = 8192) as Er by (unfold reservedOutputTokens; by rewrite E).
  apply Bool.eq_iff_eq_true. rewrite !Z.leb_le. unfold ceiling, reserve, promptOverheadTokens, MinUsableReadBytes. rewrite Er.
  Z.to_euclidean_division_equations. lia.
Qed.

Lemma skepticToolBudget_undeclared c : (forall w, ac_ContextWindowTokens c = Some w -> ~ 0 < w <= contextWindowTokensCap) ->
  skepticToolBudget c = (if derefInt64 (ac_ToolBudgetBytes c) <? 0 then 1 else derefInt64 (ac_ToolBudgetBytes c), false).
Proof.
  intros H. unfold skepticToolBudget. destruct (ac_ContextWindowTokens c) as [w|]; [|by destruct (_ <? 0)].
  rewrite bool_decide_false; [by destruct (_ <? 0)|]. rewrite declaration_source. intros (d & [= <-] & Hd). by apply (H w).
Qed.

(** The skeptic's tool ceiling. A window that is not declared, or declared out of range,
    changes nothing but a negative budget. A declared one is never left unlimited: it
    is starved, and floored at one byte with trips that void the verdict, exactly when
    the pre-flight check [WindowFundsAUsableRead] says so; otherwise a smaller declared
    budget is kept as it is, and the ceiling enforced is one tool result at least and
    fits the window beside the reservation, which takes no more than half the room. The
    enforced number never falls when the window grows, and with no declared output cap
    the starved windows are those below 31013 tokens. *)
Theorem skepticToolBudget_spec (c : AgentConfig) :
  let d := derefInt64 (ac_ToolBudgetBytes c) in
  ((forall w, ac_ContextWindowTokens c = Some w -> ~ 0 < w <= contextWindowTokensCap) ->
     skepticToolBudget c = (if d <? 0 then 1 else d, false)) /\
  (forall w, 0 < w <= contextWindowTokensCap ->
     let '(b, derived) := skepticToolBudget (with_window c w) in
     0 < b /\
     (WindowFundsAUsableRead (ac_Model c) (Some w) (ac_MaxTokens c) = false -> b = 1 /\ derived = false) /\
     (WindowFundsAUsableRead (ac_Model c) (Some w) (ac_MaxTokens c) = true ->
        b = (if derived then ceiling c w else d) /\ b <= ceiling c w /\ MinUsableReadBytes <= ceiling c w /\
        (derived = false <-> 0 < d < ceiling c w) /\
        2 * ceiling c w + 7 * reserve c w + 7 * promptOverheadTokens <= 7 * w /\
        2 * reserve c w <= w - promptOverheadTokens) /\
     (forall w', w <= w' <= contextWindowTokensCap -> b <= fst (skepticToolBudget (with_window c w'))) /\
     (ac_MaxTokens c = None -> WindowFundsAUsableRead (ac_Model c) (Some w) (ac_MaxTokens c) = (31013 <=? w))).
Proof.
  intros d. split; [apply skepticToolBudget_undeclared|]. intros w Hw.
  assert (forall w', 0 < w' <= contextWindowTokensCap -> skepticToolBudget (with_window c w') =
    if ceiling c w' <? MinUsableReadBytes then (1, false)
    else if (0 <? d) && (d <? ceiling c w') then (d, false) else (ceiling c w', true)) as E.
  { intros w' Hw'. exact (skepticToolBudget_declared (with_window c w') w' Hw' eq_refl). }
  pose proof (fun w' (H : w <= w' <= contextWindowTokensCap) => E w' ltac:(lia)) as E'. rewrite (E w Hw).
  rewrite funds_eq by done. pose proof (ceiling_fits c w) as Hfit. pose proof (funded_window c w) as Hf. unfold MinUsableReadBytes in *.
  rewrite Z.leb_antisym in *. destruct (Z.ltb_spec (ceiling c w) (64 * 1024)) as [H|H]; cbn [negb] in *.
  - split_and!; [lia|done|done| |done]. intros w' Hw'. rewrite (E' w' Hw'). repeat case_match; bool_prop; cbn [fst]; lia.
  - destruct (Hfit H) as [H1 H2]. pose proof (fun w' (Hw' : w <= w' <= contextWindowTokensCap) => ceiling_mono c w w' ltac:(lia)) as Hm.
    destruct ((0 <? d) && (d <? ceiling c w)) eqn:Ed; bool_prop.
    + split_and!; [lia|done| | |done].
      * intros _. split_and!; (done || lia).
      * intros w' Hw'. specialize (Hm w' Hw'). rewrite (E' w' Hw'). repeat case_match; bool_prop; cbn [fst]; lia.
    + apply andb_false_iff in Ed. split_and!; [lia|done| | |done].
      * intros _. split_and!; (done || lia).
      * intros w' Hw'. specialize (Hm w' Hw'). rewrite (E' w' Hw'). destruct (Z.ltb_spec (ceiling c w') (64 * 1024)); [lia|].
        destruct ((0 <? d) && (d <? ceiling c w')) eqn:Ed'; bool_prop; cbn [fst]; [|lia].
        destruct Ed as [Ed|Ed]; bool_prop; lia.
Qed.


(** ** The enforced ceiling *)

(** One encoded rune, and text made of them. *)
Definition rune (r : bytes) : Prop := r <> [] /\ rune_size r = length r.
Inductive utf8_text : bytes -> Prop :=
  | utf8_nil : utf8_text []
  | utf8_rune r l : rune r -> utf8_text l -> utf8_text (r ++ l).

Lemma between_mono lo hi lo' hi' c : (lo' <= lo)%N -> (hi <= hi')%N -> between lo hi c = true -> between lo' hi' c = true.
Proof. unfold between. rewrite !andb_true_iff, !N.leb_le. lia. Qed.

Ltac byte_case :=
  apply not_true_iff_false; unfold continuation, between in *; rewrite ?andb_true_iff, ?N.leb_le, ?N.ltb_lt, ?N.ltb_ge in *; lia.

Lemma rune_shape r : rune r -> exists c tl, r = c :: tl /\ continuation c = false /\
  Forall (fun b => continuation b = true) tl /\ (length tl < UTFMax)%nat.
Proof.
  intros [Hne Hr]. unfold UTFMax. destruct r as [|a tl]; [done|]. exists a, tl. split; [done|]. cbn [rune_size] in Hr.
  destruct (code a <? 128)%N eqn:E1.
  { destruct tl; [|done]. split_and!; [byte_case|done|simpl; lia]. }
  destruct tl as [|b tl]; [done|]. destruct (between 194 223 a) eqn:E2.
  { destruct (continuation b) eqn:Eb; [|done]. destruct tl; [|done]. split_and!; [byte_case|by repeat constructor|simpl; lia]. }
  destruct tl as [|c tl]; [done|].
  match type of Hr with context [negb (between ?lo ?hi b && continuation c)] => 
    assert (128 <= lo /\ hi <= 191)%N as [Hlo Hhi] by (split; repeat case_match; lia);
    destruct (between lo hi b) eqn:Eb; [|done] end.
  destruct (continuation c) eqn:Ec; [|done]. cbn [andb negb] in Hr. apply (between_mono _ _ 128 191) in Eb; [|done|done].
  fold (continuation b) in Eb. destruct (between 224 239 a) eqn:E3.
  { destruct tl; [|done]. split_and!; [byte_case|by repeat constructor|simpl; lia]. }
  destruct tl as [|d tl]; [done|]. destruct (between 240 244 a) eqn:E4; [|done]. destruct (continuation d) eqn:Ed; [|done].
  destruct tl; [|done]. split_and!; [byte_case|by repeat constructor|simpl; lia].
Qed.

Lemma rune_ceil_spec fuel i s :
  match rune_ceil i fuel s with
  | Some j => (i <= j < i + fuel)%nat /\ exists c, s !! j = Some c /\ continuation c = false
  | None => forall j c, (i <= j < i + fuel)%nat -> s !! j = Some c -> continuation c = true
  end.
Proof.
  revert i. induction fuel as [|k IH]; intros i; cbn [rune_ceil]; [intros; lia|].
  destruct (s !! i) as [c|] eqn:Ei.
  - destruct (continuation c) eqn:Ec; [|split; [lia|by exists c]]. specialize (IH (S i)). destruct (rune_ceil (S i) k s) as [j|].
    + destruct IH as [? ?]. split; [lia|done].
    + intros j c' Hj Hc'. destruct (decide (i = j)) as [->|]; [congruence|]. apply (IH j c'); [lia|done].
  - intros j c Hj Hc. exfalso. apply lookup_ge_None in Ei. apply lookup_lt_Some in Hc. lia.
Qed.

(** The cut of a text longer than the allowance. *)
Lemma runeCeilCut_spec s n : 0 < n -> n < Z.of_nat (length s) ->
  exists k, runeCeilCut s n = take k s /\ n <= Z.of_nat (length (take k s)) <= n + 4.
Proof.
  intros Hn Hs. unfold runeCeilCut. rewrite (proj2 (Z.leb_gt _ _)), (proj2 (Z.leb_gt _ _)) by lia. unfold UTFMax.
  set (m := Z.to_nat n). pose proof (rune_ceil_spec (Nat.min (m + 4) (length s) - m) m s) as H.
  destruct (rune_ceil m _ s) as [j|].
  - exists j. split; [done|]. rewrite length_take. lia.
  - destruct (Nat.eqb_spec (Nat.min (m + 4) (length s)) (length s)) as [E|E].
    + exists (length s). rewrite take_ge by lia. split; [done|]. lia.
    + exists m. split; [done|]. rewrite length_take. lia.
Qed.

(** A rune boundary inside text splits it into text. *)
Lemma utf8_text_take l k : utf8_text l -> (forall c, l !! k = Some c -> continuation c = false) -> utf8_text (take k l).
Proof.
  intros H. revert k. induction H as [|r l Hr Hl IH]; intros k Hk; [rewrite take_nil; constructor|].
  destruct (rune_shape r Hr) as (c & tl & -> & Hc & Htl & _). destruct k as [|k]; [constructor|].
  destruct (decide (length (c :: tl) <= S k)%nat) as [Hle|Hlt].
  - rewrite take_app_ge by done. apply utf8_rune; [done|]. apply IH. intros c' Hc'. apply Hk. by rewrite lookup_app_r.
  - simpl in Hlt. destruct (lookup_lt_is_Some_2 tl k) as [b Hb]; [lia|]. rewrite Forall_forall in Htl.
    assert (continuation b = true) as Hb1 by (apply Htl; by eapply list_elem_of_lookup_2).
    assert (continuation b = false) as Hb2. { apply Hk. simpl. rewrite lookup_app_l by lia. done. }
    congruence.
Qed.

Lemma utf8_text_head l : utf8_text l -> l <> [] -> exists c, l !! O = Some c /\ continuation c = false.
Proof. destruct 1 as [|r l Hr _]; [done|]. intros _. destruct (rune_shape r Hr) as (c & tl & -> & Hc & _). by exists c. Qed.

(** Text starts a rune within four bytes. *)
Lemma utf8_text_start l m : utf8_text l -> (m + 3 < length l)%nat ->
  exists j c, (m <= j <= m + 3)%nat /\ l !! j = Some c /\ continuation c = false.
Proof.
  intros H. revert m. induction H as [|r l Hr Hl IH]; intros m Hm; [simpl in Hm; lia|].
  destruct (rune_shape r Hr) as (c & tl & -> & Hc & _ & Hn). unfold UTFMax in Hn. rewrite length_app in Hm.
  destruct (decide (length (c :: tl) <= m)%nat) as [Hle|Hlt].
  - destruct (IH (m - length (c :: tl))%nat) as (j & c' & Hj & Hc' & Hs); [lia|]. exists (length (c :: tl) + j)%nat, c'.
    split; [lia|]. split; [|done]. rewrite lookup_app_r by lia. by replace (length (c :: tl) + j - length (c :: tl))%nat with j by lia.
  - destruct m as [|m]; [by exists O, c; split; [lia|]|]. cbn [length] in *.
    destruct (utf8_text_head l Hl) as (c' & Hc' & Hs); [intros ->; simpl in Hm; lia|].
    exists (length (c :: tl)), c'. split; [simpl; lia|]. split; [|done]. rewrite lookup_app_r, Nat.sub_diag by lia. done.
Qed.

Lemma runeCeilCut_text s n : utf8_text s -> 0 < n -> n < Z.of_nat (length s) ->
  utf8_text (runeCeilCut s n) /\ Z.of_nat (length (runeCeilCut s n)) <= n + 3.
Proof.
  intros Ht Hn Hs. unfold runeCeilCut. rewrite (proj2 (Z.leb_gt _ _)), (proj2 (Z.leb_gt _ _)) by lia. unfold UTFMax.
  set (m := Z.to_nat n). pose proof (rune_ceil_spec (Nat.min (m + 4) (length s) - m) m s) as H.
  destruct (rune_ceil m _ s) as [j|].
  - destruct H as (Hj & c & Hc & Hcont). rewrite length_take. split; [|lia].
    apply utf8_text_take; [done|]. intros c'. rewrite Hc. by intros [= <-].
  - destruct (decide (m + 3 < length s)%nat) as [Hm|Hm].
    + exfalso. destruct (utf8_text_start s m Ht Hm) as (j & c & Hj & Hc & Hcont). rewrite (H j c) in Hcont; [done|lia|done].
    + rewrite (proj2 (Nat.eqb_eq _ _)) by lia. split; [done|lia].
Qed.

(** The bytes of one result and of all. *)
Definition result_size (o : option ToolResult) : Z := match o with Some out => Z.of_nat (length (tr_Content out)) | None => 0 end.
Definition delivered (outs : list (option ToolResult)) : Z := foldr (fun o n => result_size o + n) 0 outs.

(** What the wrapper makes of one result: passed on as it is, or cut and marked. *)
Definition bounded (i o : option ToolResult) : Prop :=
  i = o \/ exists x y, i = Some x /\ o = Some y /\ tr_Truncated y = true /\
    (exists tl, tl <> [] /\ tr_Content x = tr_Content y ++ tl) /\
    tr_OriginalBytes y = (if tr_OriginalBytes x =? 0 then Z.of_nat (length (tr_Content x)) else tr_OriginalBytes x).

(** How far the cut of a result rounds up. *)
Definition cut_slack (slack : Z) (i : option ToolResult) : Prop :=
  forall x n, i = Some x -> 0 < n -> n < Z.of_nat (length (tr_Content x)) ->
    Z.of_nat (length (runeCeilCut (tr_Content x) n)) <= n + slack.

(** One call with allowance [r]. *)
Lemma Execute_spec slack r i : 0 <= slack <= 4 -> - slack <= r <= MaxInt64 -> cut_slack slack i ->
  let '(r', o) := Execute r i in
  r' = r - result_size o /\ - slack <= r' <= r /\ bounded i o /\ (o <> i -> r' <= 0) /\ (r <= 0 -> result_size o = 0).
Proof.
  intros Hs Hr Hc. assert (forall n, 0 <= n <= r + slack \/ n = 0 -> wrap64 (r - n) = r - n) as Hw.
  { intros n Hn. apply wrap64_id. unfold int64_range, MaxInt64, MinInt64 in *. split; lia. }
  destruct i as [x|]; cbn [Execute]; [|cbn [result_size]; split_and!; (done || lia || by left)].
  destruct (Z.ltb_spec r (Z.of_nat (length (tr_Content x)))) as [Hlt|Hge].
  2: { rewrite Hw by lia. cbn [result_size]. split_and!; (done || lia || by left). }
  destruct (Z.leb_spec r 0) as [H0|H0].
  - assert (runeCeilCut (tr_Content x) r = []) as ->.
    { unfold runeCeilCut. destruct (Z.leb_spec (Z.of_nat (length (tr_Content x))) r) as [?|?].
      - apply nil_length_inv. lia. - by rewrite (proj2 (Z.leb_le _ _)). }
    destruct (tr_Content x) as [|c s] eqn:Ex; cbn [length Nat.ltb Nat.leb tr_Content].
    + rewrite Ex. cbn [length]. rewrite Hw by lia. cbn [result_size]. rewrite Ex. split_and!; (done || lia || by left).
    + rewrite Hw by lia. cbn [result_size tr_Content length]. split_and!; try (done || lia). right. exists x. eexists.
      split; [done|]. split; [reflexivity|]. cbn [tr_Truncated tr_Content tr_OriginalBytes]. rewrite Ex. split; [done|].
      split; [by exists (c :: s)|done].
  - destruct (runeCeilCut_spec _ _ H0 Hlt) as (k & Ek & Hk). pose proof (Hc x r eq_refl H0 Hlt) as Hsl. rewrite Ek in *.
    destruct (Nat.ltb_spec (length (take k (tr_Content x))) (length (tr_Content x))) as [Hcut|Hcut].
    + cbn [tr_Content]. rewrite Hw by lia. cbn [result_size tr_Content]. split_and!; try (done || lia). right. exists x. eexists.
      split; [done|]. split; [reflexivity|]. cbn [tr_Truncated tr_Content tr_OriginalBytes]. split; [done|].
      split; [|done]. exists (drop k (tr_Content x)). rewrite take_drop. split; [|done]. intros E.
      apply (f_equal length) in E. rewrite length_drop in E. rewrite length_take in Hcut. simpl in E. lia.
    + assert (length (take k (tr_Content x)) = length (tr_Content x)) as El by (rewrite length_take in *; lia).
      rewrite Hw by lia. cbn [result_size]. split_and!; (done || lia || by left).
Qed.

Lemma execute_all_spec slack r inner : 0 <= slack <= 4 -> - slack <= r <= MaxInt64 -> Forall (cut_slack slack) inner ->
  let outs := execute_all r inner in
  Forall2 bounded inner outs /\ 0 <= delivered outs <= Z.max 0 (r + (if 0 <? r then slack else 0)) /\
  (outs <> inner -> r <= delivered outs).
Proof.
  intros Hs. revert r. induction inner as [|i inner IH]; intros r Hr Hc.
  { cbn. split_and!; [constructor|lia|lia|done]. }
  apply Forall_cons in Hc as [Hi Hc]. cbn [execute_all]. pose proof (Execute_spec slack r i Hs Hr Hi) as H.
  destruct (Execute r i) as [r' o]. destruct H as (H1 & H2 & H3 & H4 & H5).
  destruct (IH r' ltac:(lia) Hc) as (G1 & G2 & G3). cbn [delivered foldr]. fold (delivered (execute_all r' inner)).
  assert (0 <= result_size o) by (destruct o; simpl; lia). split_and!; [by constructor|lia| |].
  - destruct (Z.ltb_spec 0 r), (Z.ltb_spec 0 r'); lia.
  - intros Hne. destruct (decide (0 < r')) as [Hp|Hp]; [|lia]. assert (o = i) as ->.
    { destruct H3 as [->|(x & y & -> & -> & _ & (tl & Htl & E) & _)]; [done|]. exfalso.
      assert (Some y <> Some x) as Hxy; [|specialize (H4 Hxy); lia]. intros [= ->].
      apply (f_equal length) in E. rewrite length_app in E. destruct tl; [done|simpl in E; lia]. }
    assert (r' <= delivered (execute_all r' inner)); [|lia]. apply G3. intros E. by rewrite E in Hne.
Qed.

(** A result whose content is text. *)
Definition text_result (o : option ToolResult) : Prop := forall x, o = Some x -> utf8_text (tr_Content x).

Lemma cut_slack_any i : cut_slack 4 i.
Proof. intros x n _ Hn Hs. destruct (runeCeilCut_spec _ _ Hn Hs) as (k & -> & H). lia. Qed.

Lemma cut_slack_text i : text_result i -> cut_slack 3 i.
Proof. intros Ht x n E Hn Hs. by apply runeCeilCut_text; [apply Ht|..]. Qed.

Lemma runeCeilCut_any s n : utf8_text s -> utf8_text (runeCeilCut s n).
Proof.
  intros Ht. destruct (Z.leb_spec (Z.of_nat (length s)) n) as [H|H].
  { unfold runeCeilCut. by rewrite (proj2 (Z.leb_le _ _)). }
  destruct (Z.leb_spec n 0) as [H0|H0]; [|by apply runeCeilCut_text].
  unfold runeCeilCut. rewrite (proj2 (Z.leb_gt _ _)), (proj2 (Z.leb_le n 0)) by lia. constructor.
Qed.

Lemma execute_all_text r inner : Forall text_result inner -> Forall text_result (execute_all r inner).
Proof.
  intros H. revert r. induction H as [|i inner Hi _ IH]; intros r; [constructor|]. cbn [execute_all].
  destruct (Execute r i) as [r' o] eqn:E. constructor; [|apply IH]. intros y ->.
  destruct i as [x|]; [|done]. cbn [Execute] in E. injection E as _ <-. specialize (Hi x eq_refl).
  repeat case_match; cbn [tr_Content]; (done || by apply runeCeilCut_any).
Qed.

(** The enforced ceiling. Through a wrapper of a positive budget every result is passed
    on as it is, errors included, or cut to a prefix and marked, with its real size
    recorded. Whatever the tools answer, at most four bytes more than the allowance of
    budget plus one are delivered over a whole run, at most three where the tools
    answer UTF-8, which then stays UTF-8; and a run any result of which was cut
    delivers more than the budget, so that the loop's trip fires. *)
Theorem clampDispatcher_bounds (budget : Z) (inner : list (option ToolResult)) :
  0 < budget < MaxInt64 ->
  let outs := clampDispatcher budget inner in
  Forall2 bounded inner outs /\ delivered outs <= budget + 5 /\
  (outs <> inner -> budget < delivered outs) /\
  (Forall text_result inner ->
     delivered outs <= budget + 4 /\ Forall text_result outs).
Proof.
  intros Hb outs. assert (outs = execute_all (budget + 1) inner) as ->.
  { unfold outs, clampDispatcher. rewrite (proj2 (Z.leb_gt _ _)), wrap64_id by (lia || (unfold int64_range, MinInt64; split; lia)). done. }
  destruct (execute_all_spec 4 (budget + 1) inner) as (H1 & H2 & H3);
    [lia|unfold MaxInt64 in *; lia|by apply Forall_forall; intros i _; apply cut_slack_any|].
  rewrite (proj2 (Z.ltb_lt _ _)) in H2 by lia. split_and!; [done|lia|intros Hne; specialize (H3 Hne); lia|].
  intros Ht. split; [|by apply execute_all_text].
  destruct (execute_all_spec 3 (budget + 1) inner) as (_ & G2 & _);
    [lia|unfold MaxInt64 in *; lia|by eapply Forall_impl; [exact Ht|apply cut_slack_text]|].
  rewrite (proj2 (Z.ltb_lt _ _)) in G2 by lia. lia.
Qed.

(** ** Lines *)

(** The line budget of a chunk. It is never below the floor of 64 lines, so a small
    window or a tight byte budget never disables chunking; above the floor its lines,
    at 64 bytes each, fit the window's byte budget, and clamping them to a configured
    byte budget never adds a line and makes them fit it too; and the budget left after
    a global cap and the scope text is never negative nor above either. *)
Theorem chunk_lines (model : string) (declared : option Z) (out b g : Z) (scope : nat) :
  reservable out -> int64_range g -> Z.of_nat scope <= MaxInt64 ->
  let a := EffectiveByteBudget model declared out in
  let l := ChunkMaxLines model declared out in
  let l' := ClampLinesToByteBudget l b in
  minChunkLines <= l' <= l /\ (minChunkLines < l -> AvgBytesPerLine * l <= a) /\
  (0 < b -> minChunkLines < l' -> AvgBytesPerLine * l' <= b) /\
  0 <= appliedByteBudget a g scope <= a /\ (0 < g -> appliedByteBudget a g scope <= g).
Proof.
  intros Ho Hg Hsc a l l'. pose proof (budget_range model declared out Ho) as Ha. fold a in Ha.
  assert (minChunkLines <= l /\ (minChunkLines < l -> AvgBytesPerLine * l <= a)) as [H1 H2].
  { unfold l, ChunkMaxLines, AvgBytesPerLine, minChunkLines. fold a. rewrite Z.quot_div_nonneg by lia.
    destruct (Z.ltb_spec (a / 64) 64); Z.to_euclidean_division_equations; lia. }
  assert (minChunkLines <= l' <= l /\ (0 < b -> minChunkLines < l' -> AvgBytesPerLine * l' <= b)) as [H3 H4].
  { unfold l', ClampLinesToByteBudget, AvgBytesPerLine, minChunkLines in *. clearbody l.
    destruct (Z.leb_spec b 0) as [Hb|Hb]; cbn [orb]; [lia|]. destruct (Z.leb_spec l 0); [lia|].
    rewrite Z.quot_div_nonneg by lia. destruct (Z.leb_spec l (b / 64)); [|destruct (Z.ltb_spec (b / 64) 64)];
      Z.to_euclidean_division_equations; lia. }
  split_and!; try (done || lia); clearbody a; unfold appliedByteBudget;
    rewrite wrap64_id by (unfold int64_range, MaxInt64, MinInt64 in *; repeat case_match; bool_prop; split; lia);
    repeat case_match; bool_prop; lia.
Qed.

(** ** Examples and witnesses *)

(** A window smaller than the prompt overhead and a reservation near the largest
    integer wrap around to a budget in the exabytes. *)
Example EffectiveByteBudget_wraps : EffectiveByteBudget "m" (Some 1) MaxInt64 = 4611686018427373575.
Proof. vm_compute. reflexivity. Qed.

Lemma EffectiveByteBudget_fits_witness :
  reservable 8192 /\ EffectiveByteBudget "dax" (Some 32768) 8192 = 71680 /\
  (0 < 71680 -> 2 * 71680 + 7 * 8192 + 7 * promptOverheadTokens <= 7 * ContextWindowTokens "dax" (Some 32768)).
Proof.
  assert (reservable 8192) as H by (unfold reservable, MinInt64, MaxInt64, promptOverheadTokens; split; lia).
  split; [done|]. split; [by vm_compute|].
  exact (proj1 (proj2 (EffectiveByteBudget_fits "dax" (Some 32768) 8192 H))).
Defined.

Lemma chunk_lines_witness :
  reservable 8192 /\ minChunkLines <= ClampLinesToByteBudget (ChunkMaxLines "dax" (Some 32768) 8192) 4096 /\
  ChunkMaxLines "dax" (Some 32768) 8192 = 1120 /\ ClampLinesToByteBudget 1120 4096 = 64.
Proof.
  assert (reservable 8192) as H by (unfold reservable, MinInt64, MaxInt64, promptOverheadTokens; split; lia).
  split; [done|]. split; [|split; by vm_compute].
  assert (int64_range 0) as Hg by (unfold int64_range, MinInt64, MaxInt64; split; lia).
  assert (Z.of_nat 0 <= MaxInt64) as Hs by by vm_compute.
  exact (proj1 (proj1 (chunk_lines "dax" (Some 32768) 8192 4096 0 0 H Hg Hs))).
Defined.

(** Two results of a run under a budget of five: the first passes, the second is cut
    inside a two-byte rune and keeps it whole. *)
Definition sample_results : list (option ToolResult) :=
  [Some (mkToolResult (to_bytes "abc") false 3); None;
   Some (mkToolResult (to_bytes "de" ++ [byte_of 195; byte_of 169] ++ to_bytes "f") false 5)].

Lemma clampDispatcher_bounds_witness :
  0 < 5 < MaxInt64 /\ delivered (clampDispatcher 5 sample_results) = 7 /\
  (clampDispatcher 5 sample_results <> sample_results -> 5 < delivered (clampDispatcher 5 sample_results)).
Proof.
  assert (0 < 5 < MaxInt64) as H by (unfold MaxInt64; lia). split; [done|]. split; [by vm_compute|].
  exact (proj1 (proj2 (proj2 (clampDispatcher_bounds 5 sample_results H)))).
Defined.
