(* ===== verification/Budget.v ===== *)
(** * The byte budget

    src/internal/payload/budget.go: which files of a payload are shed to fit a byte
    budget, which synthetic sections are exempt, and the escalation-aware order;
    src/internal/fanout/review.go [keepSmallestEntry], the last resort of a re-fit.
    Sizes are 64-bit and their sums saturate or wrap as the code's do. *)

From Stdlib Require Import Ascii String.
From stdpp Require Import prelude strings gmap fin_sets list sorting.
From Stdlib Require Import ZArith Lia.
From S2P Require Import Prelude GoString GoSort GoStrconv GoInt.

Open Scope string_scope.
Open Scope list_scope.
Open Scope nat_scope.

Record FileEntry := mkFileEntry {
  Path : string;
  Size : Z;
  Body : bytes;
  Mode : string;
  shedExempt : bool;
  exemptRank : Z;
}.
#[export] Instance FileEntry_inhabited : Inhabited FileEntry := populate (mkFileEntry "" 0 [] "" false 0).

Record Truncation := mkTruncation {
  Truncated : bool;
  FilesDropped : list string;
  AllDropped : bool;
}.

Definition clampSize (s : Z) : Z := (if s <? 0 then 0 else s)%Z.

(** The saturating sum and its early exit. *)
Fixpoint total_loop (entries : list FileEntry) (total : Z) : Z :=
  match entries with
  | [] => total
  | e :: entries' =>
      let sz := clampSize (Size e) in
      if (MaxInt64 - sz <? total)%Z then MaxInt64 else total_loop entries' (total + sz)%Z
  end.

Section pass.
Context (entries : list FileEntry) (budget : Z).

(** The sort's comparison of two positions. *)
Definition entry_less (tier : option (FileEntry -> Z)) (ei ej : FileEntry) : bool :=
  let rest := if negb (Size ei =? Size ej)%Z then (Size ej <? Size ei)%Z else str_ltb (Path ei) (Path ej) in
  match tier with
  | Some tier => if negb (tier ei =? tier ej)%Z then (tier ei <? tier ej)%Z else rest
  | None => rest
  end.
Definition drop_order (tier : option (FileEntry -> Z)) : list nat :=
  slice_stable (fun a b => entry_less tier (entries !!! a) (entries !!! b)) (seq 0 (length entries)).

(** The shed-exempt sections in the order they are funded. *)
Definition exempt_order : list nat :=
  let exemptIdx := filter (fun i => shedExempt (entries !!! i) = true) (seq 0 (length entries)) in
  if 1 <? length exemptIdx
  then slice_stable (fun a b => (exemptRank (entries !!! b) <? exemptRank (entries !!! a))%Z) exemptIdx else exemptIdx.
Definition fund_step (acc : Z * gset nat) (i : nat) : Z * gset nat :=
  let sz := clampSize (Size (entries !!! i)) in
  if (wrap64 (fst acc + sz) <=? budget)%Z then (wrap64 (fst acc + sz), {[i]} ∪ snd acc) else acc.
Definition funded : gset nat := snd (foldl fund_step (0%Z, ∅) exempt_order).

(** The shedding loop: the positions dropped, in drop order. *)
Fixpoint drop_loop (funded : gset nat) (idx : list nat) (used : Z) : list nat :=
  match idx with
  | [] => []
  | i :: idx' =>
      if (used <=? budget)%Z then []
      else if bool_decide (i ∈ funded) then drop_loop funded idx' used
      else i :: drop_loop funded idx' (wrap64 (used - clampSize (Size (entries !!! i))))
  end.

Definition applyByteBudgetOrdered (tier : option (FileEntry -> Z)) : list FileEntry * Truncation :=
  if (budget <=? 0)%Z then (entries, mkTruncation false [] false)
  else
    let total := total_loop entries 0 in
    if (total <=? budget)%Z then (entries, mkTruncation false [] false)
    else
      let dropped := drop_loop funded (drop_order tier) total in
      let keptIdx := filter (fun i => i ∉ dropped) (seq 0 (length entries)) in
      let droppedIdx := filter (fun i => i ∈ dropped) (seq 0 (length entries)) in
      let kept := (fun i => entries !!! i) <$> keptIdx in
      let droppedPaths := sort_strings ((fun i => Path (entries !!! i)) <$> droppedIdx) in
      let reviewableIn := length (filter (fun e => shedExempt e = false) entries) in
      let reviewableKept := length (filter (fun e => shedExempt e = false) kept) in
      (kept, mkTruncation (0 <? length droppedPaths) droppedPaths ((0 <? reviewableIn) && (reviewableKept =? 0))).
End pass.

Definition ApplyByteBudget (entries : list FileEntry) (budget : Z) : list FileEntry * Truncation :=
  applyByteBudgetOrdered entries budget None.

Definition ReviewableCount (entries : list FileEntry) : nat :=
  foldl (fun n e => if negb (shedExempt e) then S n else n) 0 entries.

Definition ModeDiff : string := "diff".
Definition ModeBlocks : string := "blocks".
Definition ModeFiles : string := "files".
Definition modeRank (m : string) : Z :=
  if (m =? ModeBlocks)%string then 1 else if (m =? ModeFiles)%string then 2 else 0.

Definition escalation_tier (configured : string) (e : FileEntry) : Z :=
  if (modeRank configured <? modeRank (Mode e))%Z then 1 else 0.
Definition ApplyByteBudgetPreferEscalated (entries : list FileEntry) (budget : Z) (configured : string) : list FileEntry * Truncation :=
  let '(kept, t) := applyByteBudgetOrdered entries budget (Some (escalation_tier configured)) in
  if AllDropped t then ApplyByteBudget entries budget else (kept, t).

Definition ValidateBudget (budget : Z) : bool := negb (budget <? 0)%Z.

(** ** fanout/review.go *)

Definition droppedPathsExcept (entries : list FileEntry) (keepIdx : nat) : list string :=
  sort_strings ((fun p => Path (snd p)) <$> filter (fun p => fst p <> keepIdx) (imap pair entries)).

(** The entry with the smallest non-empty body so far, and its position. *)
Definition smallest_step (acc : option (nat * FileEntry)) (ie : nat * FileEntry) : option (nat * FileEntry) :=
  if length (Body (snd ie)) =? 0 then acc
  else match acc with
       | Some (_, s) => if length (Body (snd ie)) <? length (Body s) then Some ie else acc
       | None => Some ie
       end.
Definition keepSmallestEntry (entries : list FileEntry) : option (list FileEntry * Truncation) :=
  match foldl smallest_step None (imap pair entries) with
  | None => None
  | Some (i, smallest) =>
      Some ([smallest], mkTruncation (0 <? ReviewableCount entries - ReviewableCount [smallest])
                          (droppedPathsExcept entries i) false)
  end.

(** ** Sums of sizes *)

(** A negative size counts as nothing. *)
Definition counted (e : FileEntry) : Z := Z.max 0 (Size e).
Definition sizes (l : list FileEntry) : Z := foldr (fun e n => (counted e + n)%Z) 0%Z l.

Lemma clampSize_counted e : clampSize (Size e) = counted e.
Proof. unfold clampSize, counted. destruct (Z.ltb_spec (Size e) 0); lia. Qed.

Lemma clampSize_nonneg s : (0 <= clampSize s)%Z.
Proof. unfold clampSize. destruct (Z.ltb_spec s 0); lia. Qed.

Lemma sizes_cons e l : sizes (e :: l) = (clampSize (Size e) + sizes l)%Z.
Proof. by rewrite clampSize_counted. Qed.

Lemma sizes_nonneg l : (0 <= sizes l)%Z.
Proof. induction l as [|e l IH]; [done|]. rewrite sizes_cons. pose proof (clampSize_nonneg (Size e)). lia. Qed.

Lemma sizes_app l k : sizes (l ++ k) = (sizes l + sizes k)%Z.
Proof. induction l as [|e l IH]; [done|]. cbn [app]. rewrite !sizes_cons, IH. lia. Qed.

#[export] Instance sizes_Proper : Proper ((≡ₚ) ==> eq) sizes.
Proof. induction 1 as [|e l k _ IH|e e' l|l k m _ IH1 _ IH2]; rewrite ?sizes_cons; lia. Qed.

Lemma total_loop_eq l t : (0 <= t)%Z -> (sizes l + t <= MaxInt64)%Z -> total_loop l t = (sizes l + t)%Z.
Proof.
  revert t. induction l as [|e l IH]; intros t Ht Hle; [simpl; lia|]. rewrite sizes_cons in Hle. cbn [total_loop].
  pose proof (clampSize_nonneg (Size e)). pose proof (sizes_nonneg l).
  destruct (Z.ltb_spec (MaxInt64 - clampSize (Size e)) t); [lia|]. rewrite IH, sizes_cons by lia. lia.
Qed.

Section spec.
Context (entries : list FileEntry) (budget : Z).
Context (Hbudget : (0 < budget)%Z) (Hsum : (sizes entries <= MaxInt64)%Z).

Notation at_ i := (entries !!! i).
Definition pick (js : list nat) : list FileEntry := (fun i => entries !!! i) <$> js.

Lemma pick_all : pick (seq 0 (length entries)) = entries.
Proof.
  unfold pick. apply list_eq. intros i. rewrite list_lookup_fmap. destruct (decide (i < length entries)) as [H|H].
  - rewrite lookup_seq_lt by lia. cbn. by rewrite list_lookup_lookup_total_lt by lia.
  - rewrite (lookup_ge_None_2 entries), (lookup_ge_None_2 (seq _ _)) by (rewrite ?length_seq; lia). done.
Qed.

Lemma pick_cons i js : sizes (pick (i :: js)) = (clampSize (Size (at_ i)) + sizes (pick js))%Z.
Proof. apply sizes_cons. Qed.

Lemma pick_app js ks : pick (js ++ ks) = pick js ++ pick ks.
Proof. apply fmap_app. Qed.

Lemma pick_perm js ks : js ≡ₚ ks -> pick js ≡ₚ pick ks.
Proof. intros H. unfold pick. by rewrite H. Qed.

Lemma pick_sub js ks : NoDup js -> (forall i, i ∈ js -> i ∈ ks) -> (sizes (pick js) <= sizes (pick ks))%Z.
Proof.
  intros Hnd Hin. destruct (submseteq_Permutation js ks) as [ls Hls]; [by apply NoDup_submseteq|].
  rewrite (pick_perm _ _ Hls), pick_app, sizes_app. pose proof (sizes_nonneg (pick ls)). lia.
Qed.

Lemma pick_sub_all js : NoDup js -> (forall i, i ∈ js -> i < length entries) -> (sizes (pick js) <= sizes entries)%Z.
Proof.
  intros Hnd Hin. assert (sizes entries = sizes (pick (seq 0 (length entries)))) as -> by (by rewrite pick_all).
  apply pick_sub; [done|]. intros i Hi. apply elem_of_seq. specialize (Hin i Hi). lia.
Qed.

(** ** Funding *)

Lemma exempt_order_perm : exempt_order entries ≡ₚ filter (fun i => shedExempt (at_ i) = true) (seq 0 (length entries)).
Proof. unfold exempt_order. destruct (1 <? _); [apply slice_stable_Permutation|done]. Qed.

Lemma exempt_order_NoDup : NoDup (exempt_order entries).
Proof. rewrite exempt_order_perm. apply NoDup_filter, NoDup_seq. Qed.

Lemma elem_of_exempt_order i : i ∈ exempt_order entries <-> shedExempt (at_ i) = true /\ i < length entries.
Proof. rewrite exempt_order_perm, list_elem_of_filter, elem_of_seq. naive_solver lia. Qed.

(** The section [i] is funded before [j]: its rank is higher, or it comes first. *)
Definition funded_first (i j : nat) : Prop :=
  (exemptRank (at_ j) < exemptRank (at_ i))%Z \/ exemptRank (at_ i) = exemptRank (at_ j) /\ i < j.
#[export] Instance funded_first_dec i j : Decision (funded_first i j) := _.

(** The exempt sections the budget protects: exactly those that fit beside the protected
    ones funded before them. *)
Definition protects (fs : list nat) : Prop := NoDup fs /\ forall i, i ∈ fs <->
  i < length entries /\ shedExempt (at_ i) = true /\
  (sizes (pick (filter (fun j => funded_first j i) fs)) + counted (at_ i) <= budget)%Z.

Lemma exempt_order_sorted : StronglySorted funded_first (exempt_order entries).
Proof.
  unfold exempt_order. set (l := filter _ _).
  assert (StronglySorted lt l) as Hl.
  { apply StronglySorted_filter. generalize 0. induction (length entries) as [|n IH]; intros k; cbn [seq]; constructor; [done|].
    apply Forall_forall. intros j ?%elem_of_seq. lia. }
  destruct (1 <? length l) eqn:E.
  - pose proof (slice_stable_ties _ lt l Hl
      (WeakOrder0 := key_WeakOrder (fun a b => (b <? a)%Z) (fun i => exemptRank (at_ i)))) as H.
    eapply StronglySorted_impl; [|exact H]. intros i j [Hr|[Hr Hij]]; [left; lia|].
    unfold funded_first. apply Z.ltb_ge in Hr. lia.
  - apply Nat.ltb_ge in E. destruct l as [|i [|j l]]; [constructor|by repeat constructor|cbn in E; lia].
Qed.

Lemma funded_first_asym i j : funded_first i j -> ~ funded_first j i.
Proof. unfold funded_first. lia. Qed.

(** One section more is decided on the budget the earlier ones leave. *)
Lemma protects_step (dn fs : list nat) x (ok : bool) :
  StronglySorted funded_first (dn ++ [x]) -> (forall i, i ∈ fs -> i ∈ dn) ->
  (forall i, i ∈ dn -> i ∈ fs <-> (sizes (pick (filter (fun j => funded_first j i) fs)) + counted (at_ i) <= budget)%Z) ->
  (ok = true <-> (sizes (pick fs) + counted (at_ x) <= budget)%Z) -> x ∉ dn ->
  let fs' := if ok then x :: fs else fs in
  forall i, i ∈ dn ++ [x] -> i ∈ fs' <-> (sizes (pick (filter (fun j => funded_first j i) fs')) + counted (at_ i) <= budget)%Z.
Proof.
  intros Hs Hsub Hdn Hok Hx fs' i Hi. apply StronglySorted_app in Hs as (Hb & _ & _).
  assert (forall j, j ∈ dn -> funded_first j x) as Hbx by (intros j Hj; apply Hb; [done|by apply list_elem_of_singleton]).
  assert (filter (fun j => funded_first j x) fs' = fs) as Ex.
  { assert (filter (fun j => funded_first j x) fs = fs) as E by (apply filter_Forall_id, Forall_forall; auto).
    unfold fs'. destruct ok; [|done]. rewrite filter_cons_False; [done|]. unfold funded_first. lia. }
  apply elem_of_app in Hi as [Hi|Hi%list_elem_of_singleton].
  - assert (filter (fun j => funded_first j i) fs' = filter (fun j => funded_first j i) fs) as ->.
    { unfold fs'. destruct ok; [|done]. by rewrite filter_cons_False by by apply funded_first_asym, Hbx. }
    rewrite <- (Hdn i Hi). unfold fs'. destruct ok; [|done]. rewrite elem_of_cons. split; [|auto].
    intros [->|?]; [done|done].
  - subst i. rewrite Ex, <- Hok. unfold fs'. destruct ok; [split; [done|left]|].
    split; [|done]. intros Hin. by destruct Hx; apply Hsub.
Qed.

(** The funded sections are the protected ones, and together fit the budget. *)
Lemma funded_spec : exists fs, protects fs /\ (forall i, i ∈ funded entries budget <-> i ∈ fs) /\ (sizes (pick fs) <= budget)%Z.
Proof.
  unfold funded. pose proof exempt_order_NoDup as Hnd. pose proof exempt_order_sorted as Hso.
  assert (forall i, i ∈ exempt_order entries -> i < length entries) as Hlt by (intros i; rewrite elem_of_exempt_order; tauto).
  assert (exists fs, NoDup fs /\ (forall i, i ∈ snd (foldl (fund_step entries budget) (0%Z, ∅) (exempt_order entries)) <-> i ∈ fs) /\
    (forall i, i ∈ fs -> i ∈ exempt_order entries) /\
    fst (foldl (fund_step entries budget) (0%Z, ∅) (exempt_order entries)) = sizes (pick fs) /\ (sizes (pick fs) <= budget)%Z /\
    (forall i, i ∈ exempt_order entries -> i ∈ fs <->
       (sizes (pick (filter (fun j => funded_first j i) fs)) + counted (at_ i) <= budget)%Z))
    as (fs & H1 & H2 & H3 & _ & H5 & H6).
  2:{ exists fs. split_and!; [split; [done|]|done|done]. intros i. split.
      - intros Hi. specialize (H3 i Hi). destruct (proj1 (elem_of_exempt_order i) H3). by rewrite <- (H6 i H3).
      - intros (Hl & He & Hfit). by apply H6, Hfit; apply elem_of_exempt_order. }
  apply (foldl_invariant (fun done s => exists fs, NoDup fs /\ (forall i, i ∈ snd s <-> i ∈ fs) /\ (forall i, i ∈ fs -> i ∈ done) /\
    fst s = sizes (pick fs) /\ (sizes (pick fs) <= budget)%Z /\
    (forall i, i ∈ done -> i ∈ fs <-> (sizes (pick (filter (fun j => funded_first j i) fs)) + counted (at_ i) <= budget)%Z))).
  - exists []. split_and!; [constructor|set_solver|done|done|cbn; lia|by intros i ?%elem_of_nil].
  - intros dn x todo [used f] E (fs & H1 & H2 & H3 & H4 & H5 & H6). cbn [fst snd] in *. rewrite E in Hnd, Hlt, Hso.
    rewrite cons_middle, app_assoc in Hso. apply StronglySorted_app in Hso as (_ & Hso & _).
    apply NoDup_app in Hnd as (_ & Hdis & _). assert (x ∉ dn) as Hxd. { intros Hx. apply (Hdis x); [done|left]. }
    assert (NoDup (x :: fs)) as Hnd' by (constructor; [auto|done]).
    assert (sizes (pick (x :: fs)) <= MaxInt64)%Z as Hle.
    { etrans; [apply pick_sub_all; [done|]|done]. intros i [->|Hi]%elem_of_cons; apply Hlt; set_solver. }
    rewrite pick_cons in Hle. unfold fund_step. cbn [fst snd]. subst used.
    pose proof (clampSize_nonneg (Size (at_ x))). pose proof (sizes_nonneg (pick fs)).
    rewrite wrap64_id by (unfold int64_range, MinInt64; split; lia).
    pose proof (protects_step dn fs x (sizes (pick fs) + clampSize (Size (at_ x)) <=? budget)%Z Hso H3 H6) as Hp.
    rewrite Z.leb_le, clampSize_counted in Hp. specialize (Hp (iff_refl _) Hxd). cbv zeta in Hp. rewrite clampSize_counted.
    destruct (Z.leb_spec (sizes (pick fs) + counted (at_ x)) budget) as [Hb|Hb]; cbn [fst snd].
    + exists (x :: fs). rewrite pick_cons, clampSize_counted. split_and!; [done|set_solver|set_solver|lia|lia|exact Hp].
    + exists fs. split_and!; [done|done|set_solver|done|done|exact Hp].
Qed.

(** ** Shedding *)

Lemma drop_loop_spec (f : gset nat) idx used : (sizes (pick idx) <= used <= MaxInt64)%Z ->
  exists pre post, idx = pre ++ post /\ drop_loop entries budget f idx used = filter (fun i => i ∉ f) pre /\
  (post = [] \/ (used - sizes (pick (filter (fun i => i ∉ f) pre)) <= budget)%Z) /\
  (forall d x, drop_loop entries budget f idx used = d ++ [x] -> (budget < used - sizes (pick d))%Z).
Proof.
  revert used. induction idx as [|i idx IH]; intros used Hu.
  { exists [], []. split_and!; [done|done|by left|]. by intros [|? d] x. }
  rewrite pick_cons in Hu. pose proof (clampSize_nonneg (Size (at_ i))).
  pose proof (sizes_nonneg (pick idx)). cbn [drop_loop]. destruct (Z.leb_spec used budget) as [Hb|Hb].
  { exists [], (i :: idx). split_and!; [done|done|right; cbn; lia|]. by intros [|? d] x. }
  case_bool_decide as Hi.
  - destruct (IH used) as (pre & post & -> & E & H1 & H2); [lia|]. exists (i :: pre), post.
    rewrite filter_cons_False by (intros H'; done). by split_and!.
  - rewrite wrap64_id by (unfold int64_range, MinInt64; split; lia).
    destruct (IH (used - clampSize (Size (at_ i)))%Z) as (pre & post & -> & E & H1 & H2); [lia|]. exists (i :: pre), post.
    rewrite filter_cons_True by done. split_and!; [done|by rewrite E| |].
    + destruct H1 as [?|H1]; [by left|right]. rewrite pick_cons. lia.
    + intros [|j d] x; [intros [= <- _]; cbn; lia|]. intros [= <- Ed]. apply H2 in Ed. rewrite pick_cons. lia.
Qed.

Lemma drop_order_perm tier : drop_order entries tier ≡ₚ seq 0 (length entries).
Proof. apply slice_stable_Permutation. Qed.

#[local] Instance size_desc_WeakOrder : WeakOrder (fun a b : FileEntry => (Size b <? Size a)%Z).
Proof. apply (key_WeakOrder (fun a b => Z.ltb b a) Size). Qed.

Definition tier_of (tier : option (FileEntry -> Z)) (e : FileEntry) : Z := match tier with Some t => t e | None => 0%Z end.

Lemma entry_less_lex tier a b : entry_less tier a b =
  lex_less (fun a b => (tier_of tier a <? tier_of tier b)%Z)
    (lex_less (fun a b => (Size b <? Size a)%Z) (fun a b => str_ltb (Path a) (Path b))) a b.
Proof.
  unfold entry_less, lex_less. destruct tier as [t|]; cbn [tier_of]; [|rewrite Z.ltb_irrefl];
  repeat match goal with |- context [(?x =? ?y)%Z] => destruct (Z.eqb_spec x y) end; cbn [negb];
  repeat match goal with |- context [(?x <? ?y)%Z] => destruct (Z.ltb_spec x y) end; (done || lia).
Qed.

#[local] Instance entry_less_WeakOrder tier : WeakOrder (entry_less tier).
Proof.
  assert (WeakOrder (lex_less (fun a b => (tier_of tier a <? tier_of tier b)%Z)
    (lex_less (fun a b => (Size b <? Size a)%Z) (fun a b => str_ltb (Path a) (Path b))))) as H.
  { apply lex_WeakOrder; [apply (key_WeakOrder Z.ltb (tier_of tier))|].
    apply lex_WeakOrder; [apply _|apply (key_WeakOrder str_ltb Path)]. }
  split; unfold not_after; intros *; rewrite !entry_less_lex; [apply less_asym|apply (not_after_trans _ _ _)].
Qed.

Lemma drop_order_sorted tier :
  StronglySorted (fun i j => not_after (entry_less tier) (at_ i) (at_ j)) (drop_order entries tier).
Proof.
  unfold drop_order. apply (slice_stable_sorted (fun a b => entry_less tier (at_ a) (at_ b))).
Qed.

(** What a pass that dropped the positions [dropped] answers. *)
Definition shed (tier : option (FileEntry -> Z)) (dropped : list nat) (kept : list FileEntry) (t : Truncation) : Prop :=
  kept = pick (filter (fun i => i ∉ dropped) (seq 0 (length entries))) /\
  entries ≡ₚ kept ++ pick dropped /\
  FilesDropped t = sort_strings (Path <$> pick dropped) /\
  (sizes kept <= budget)%Z /\
  (Truncated t = true <-> (budget < sizes entries)%Z) /\
  (AllDropped t = true <-> (exists e, e ∈ entries /\ shedExempt e = false) /\ forall e, e ∈ kept -> shedExempt e = true) /\
  (forall i, i ∈ dropped -> i < length entries /\ i ∉ funded entries budget) /\
  StronglySorted (fun i j => not_after (entry_less tier) (at_ i) (at_ j)) dropped /\
  (forall i k, i ∈ dropped -> k < length entries -> k ∉ dropped -> k ∉ funded entries budget ->
     not_after (entry_less tier) (at_ i) (at_ k)) /\
  (forall d x, dropped = d ++ [x] -> (budget < sizes entries - sizes (pick d))%Z).

Lemma kept_dropped dropped : NoDup dropped -> (forall i, i ∈ dropped -> i < length entries) ->
  entries ≡ₚ pick (filter (fun i => i ∉ dropped) (seq 0 (length entries))) ++ pick dropped.
Proof.
  intros Hnd Hin. rewrite <- pick_app. rewrite <- pick_all at 1. apply pick_perm.
  rewrite <- (filter_app_complement (fun i => i ∈ dropped) (seq 0 (length entries))) at 1. rewrite Permutation_app_comm.
  f_equiv. apply NoDup_Permutation; [apply NoDup_filter, NoDup_seq|done|]. intros i.
  rewrite list_elem_of_filter, elem_of_seq. split; [tauto|]. intros Hi. split; [done|]. specialize (Hin i Hi). lia.
Qed.

Lemma all_dropped kept :
  (0 <? length (filter (fun e => shedExempt e = false) entries)) &&
  (length (filter (fun e => shedExempt e = false) kept) =? 0) = true <->
  (exists e, e ∈ entries /\ shedExempt e = false) /\ forall e, e ∈ kept -> shedExempt e = true.
Proof.
  rewrite andb_true_iff, Nat.ltb_lt, Nat.eqb_eq. f_equiv.
  - destruct (filter _ entries) as [|e l] eqn:E; cbn [length]; split; [lia| |intros _|lia].
    + intros (e & He & Hs). assert (e ∈ filter (fun e => shedExempt e = false) entries) as H by by apply list_elem_of_filter.
      rewrite E in H. by apply elem_of_nil in H.
    + assert (e ∈ filter (fun e => shedExempt e = false) entries) as [? ?]%list_elem_of_filter by (rewrite E; left). by exists e.
  - split.
    + intros H%nil_length_inv e He. destruct (shedExempt e) eqn:Hs; [done|].
      assert (e ∈ filter (fun e => shedExempt e = false) kept) as Hin by by apply list_elem_of_filter.
      rewrite H in Hin. by apply elem_of_nil in Hin.
    + intros H. rewrite filter_Forall_nil; [done|]. apply Forall_forall. intros e He. by rewrite (H e He).
Qed.

Lemma nothing_shed tier : (sizes entries <= budget)%Z -> shed tier [] entries (mkTruncation false [] false).
Proof.
  intros H. unfold shed. assert (filter (fun i => i ∉ []) (seq 0 (length entries)) = seq 0 (length entries)) as E.
  { apply filter_Forall_id, Forall_forall. intros i _. apply not_elem_of_nil. }
  rewrite E, pick_all. cbn [Truncated FilesDropped AllDropped]. split_and!; try done.
  - by rewrite app_nil_r.
  - split; [done|lia].
  - split; [done|]. intros ((e & He & Hs) & Hall). by rewrite (Hall e He) in Hs.
  - by intros i ?%elem_of_nil.
  - constructor.
  - by intros i k ?%elem_of_nil.
  - by intros [|? d] x.
Qed.

(** The loop's result over the whole drop order. *)
Lemma drop_loop_shed tier (dropped := drop_loop entries budget (funded entries budget) (drop_order entries tier) (sizes entries)) :
  NoDup dropped /\ (forall i, i ∈ dropped -> i < length entries /\ i ∉ funded entries budget) /\
  (sizes (pick (filter (fun i => i ∉ dropped) (seq 0 (length entries)))) <= budget)%Z /\
  StronglySorted (fun i j => not_after (entry_less tier) (at_ i) (at_ j)) dropped /\
  (forall i k, i ∈ dropped -> k < length entries -> k ∉ dropped -> k ∉ funded entries budget ->
     not_after (entry_less tier) (at_ i) (at_ k)) /\
  (forall d x, dropped = d ++ [x] -> (budget < sizes entries - sizes (pick d))%Z).
Proof.
  pose proof (drop_order_perm tier) as Hp. assert (sizes entries = sizes (pick (drop_order entries tier))) as Hs.
  { by rewrite (pick_perm _ _ Hp), pick_all. }
  destruct (drop_loop_spec (funded entries budget) (drop_order entries tier) (sizes entries)) as (pre & post & E & Ed & H1 & H2); [lia|].
  fold dropped in Ed, H2. assert (NoDup (drop_order entries tier)) as Hnd by (rewrite Hp; apply NoDup_seq).
  assert (forall i, i ∈ drop_order entries tier <-> i < length entries) as Hin by (intros i; rewrite Hp, elem_of_seq; lia).
  rewrite E in Hnd, Hin. clearbody dropped. subst dropped. apply NoDup_app in Hnd as (Hpre & Hdis & Hpost).
  assert (NoDup (filter (fun i => i ∉ funded entries budget) pre)) as Hd by by apply NoDup_filter.
  assert (forall i, i ∈ filter (fun i => i ∉ funded entries budget) pre -> i < length entries /\ i ∉ funded entries budget) as Hlt.
  { intros i [? ?]%list_elem_of_filter. split; [|done]. apply Hin. set_solver. }
  pose proof (drop_order_sorted tier) as Hsort. rewrite E in Hsort. apply StronglySorted_app in Hsort as (Hsort & Hsp & _).
  split_and!; [done|done| |by apply StronglySorted_filter| |done].
  - pose proof (kept_dropped _ Hd (fun i Hi => proj1 (Hlt i Hi))) as Hk. apply sizes_Proper in Hk. rewrite sizes_app in Hk.
    destruct H1 as [->|H1]; [|lia]. destruct funded_spec as (fs & Hfs & Hf & Hle). etrans; [|exact Hle].
    apply pick_sub; [apply NoDup_filter, NoDup_seq|]. intros i [Hi1 Hi2]%list_elem_of_filter. apply Hf.
    destruct (decide (i ∈ funded entries budget)) as [|Hnf]; [done|]. exfalso. apply Hi1, list_elem_of_filter. split; [done|].
    apply elem_of_seq in Hi2. assert (i ∈ pre ++ []) as Hi by (apply Hin; lia). by rewrite app_nil_r in Hi.
  - intros i k [Hi1 Hi2]%list_elem_of_filter Hk Hnk Hnf. apply Hin in Hk.
    assert (k ∈ post) as Hkp. { apply elem_of_app in Hk as [Hk|Hk]; [|done]. exfalso. by apply Hnk, list_elem_of_filter. }
    by apply Hsort.
Qed.

Lemma applyByteBudgetOrdered_shed tier : exists dropped,
  let '(kept, t) := applyByteBudgetOrdered entries budget tier in shed tier dropped kept t.
Proof.
  unfold applyByteBudgetOrdered. rewrite (proj2 (Z.leb_gt _ _)), total_loop_eq, Z.add_0_r by lia.
  destruct (Z.leb_spec (sizes entries) budget) as [H|H]; [exists []; by apply nothing_shed|].
  destruct (drop_loop_shed tier) as (Hnd & Hlt & Hle & Hsort & Hord & Hmin). cbv zeta in *. set (dropped := drop_loop _ _ _ _ _) in *.
  pose proof (kept_dropped _ Hnd (fun i Hi => proj1 (Hlt i Hi))) as Hp. exists dropped.
  assert (sort_strings ((fun i => Path (at_ i)) <$> filter (fun i => i ∈ dropped) (seq 0 (length entries))) =
          sort_strings (Path <$> pick dropped)) as ->.
  { apply sort_strings_perm_eq. unfold pick. rewrite <- list_fmap_compose. f_equiv.
    apply NoDup_Permutation; [apply NoDup_filter, NoDup_seq|done|]. intros i. rewrite list_elem_of_filter, elem_of_seq.
    split; [tauto|]. intros Hi. split; [done|]. destruct (Hlt i Hi). lia. }
  unfold shed. cbn [Truncated FilesDropped AllDropped]. split_and!; [done|done|done|done| |apply all_dropped|done|done|done|done].
  - split; [done|]. intros _. rewrite Nat.ltb_lt, sort_strings_Permutation, length_fmap. clearbody dropped.
    destruct dropped as [|i d]; [|simpl; lia]. exfalso. apply sizes_Proper in Hp. rewrite sizes_app in Hp.
    change (sizes (pick [])) with 0%Z in Hp. lia.
Qed.
End spec.

(** ** The two passes *)

Lemma size_desc_clamp a b : entry_less None b a = false -> (clampSize (Size b) <= clampSize (Size a))%Z.
Proof.
  unfold entry_less, clampSize. destruct (Z.eqb_spec (Size b) (Size a)) as [->|]; cbn [negb]; [done|].
  destruct (Z.ltb_spec (Size a) (Size b)), (Z.ltb_spec (Size a) 0), (Z.ltb_spec (Size b) 0); (done || lia).
Qed.

(** The last file dropped is the smallest, and does not fit. *)
Lemma all_dropped_tight entries budget dropped kept t :
  shed entries budget None dropped kept t -> AllDropped t = true ->
  forall e, e ∈ entries -> shedExempt e = false -> (budget < sizes kept + clampSize (Size e))%Z.
Proof.
  intros (Hk & Hp & _ & _ & _ & Had & _ & Hsort & _ & Hmin) Hall e He Hrev. apply Had in Hall as [_ Hall].
  rewrite Hp in He. apply elem_of_app in He as [He|He]; [by rewrite (Hall e He) in Hrev|].
  apply list_elem_of_fmap in He as (i & -> & Hi). destruct dropped as [|x d _] using rev_ind; [by apply elem_of_nil in Hi|].
  specialize (Hmin d x eq_refl). apply sizes_Proper in Hp. rewrite sizes_app in Hp. unfold pick in Hp, Hmin. rewrite fmap_app in Hp.
  rewrite sizes_app in Hp. cbn [fmap list_fmap] in Hp. rewrite sizes_cons in Hp. change (sizes []) with 0%Z in Hp.
  assert (clampSize (Size (entries !!! x)) <= clampSize (Size (entries !!! i)))%Z; [|lia].
  apply elem_of_app in Hi as [Hi| ->%list_elem_of_singleton]; [|done]. apply size_desc_clamp.
  apply StronglySorted_app in Hsort as (Hsort & _ & _). apply (Hsort i x); [done|left].
Qed.

(** [a] is shed no later than [b]: it is larger, or as large and not after it by path. *)
Definition shed_first (a b : FileEntry) : Prop :=
  (Size b < Size a)%Z \/ Size a = Size b /\ str_ltb (Path b) (Path a) = false.

Lemma entry_less_None a b : not_after (entry_less None) a b <-> shed_first a b.
Proof.
  unfold not_after, entry_less, shed_first. destruct (Z.eqb_spec (Size b) (Size a)) as [E|]; cbn [negb].
  - rewrite E. intuition lia.
  - rewrite Z.ltb_ge. intuition lia.
Qed.

(** What a pass that protects the positions [fs] and sheds the positions [dropped] keeps
    and reports. *)
Record sheds (entries : list FileEntry) (budget : Z) (fs dropped : list nat) (kept : list FileEntry) (t : Truncation) : Prop := {
  sheds_kept : kept = (fun i => entries !!! i) <$> filter (fun i => i ∉ dropped) (seq 0 (length entries));
  sheds_all : entries ≡ₚ kept ++ pick entries dropped;
  sheds_fits : (sizes kept <= budget)%Z;
  sheds_names : FilesDropped t ≡ₚ Path <$> pick entries dropped /\
    StronglySorted (fun p q => str_ltb q p = false) (FilesDropped t);
  sheds_truncated : Truncated t = true <-> (budget < sizes entries)%Z;
  sheds_nothing_left : AllDropped t = true <->
    (exists e, e ∈ entries /\ shedExempt e = false) /\ forall e, e ∈ kept -> shedExempt e = true;
  sheds_unprotected : forall i, i ∈ dropped -> i < length entries /\ i ∉ fs;
  sheds_largest : StronglySorted (fun i j => shed_first (entries !!! i) (entries !!! j)) dropped /\
    forall i k, i ∈ dropped -> k < length entries -> k ∉ dropped -> k ∉ fs -> shed_first (entries !!! i) (entries !!! k);
  sheds_least : forall d x, dropped = d ++ [x] -> (budget < sizes entries - sizes (pick entries d))%Z;
}.

Lemma shed_sheds entries budget fs dropped kept t : (forall i, i ∈ funded entries budget <-> i ∈ fs) ->
  shed entries budget None dropped kept t -> sheds entries budget fs dropped kept t.
Proof.
  intros Hf (H1 & H2 & H3 & H4 & H5 & H6 & H7 & H8 & H9 & H10). split; try done.
  - rewrite H3. split; [by rewrite sort_strings_Permutation|apply sort_strings_sorted].
  - intros i Hi. destruct (H7 i Hi) as [? Hn]. by rewrite <- Hf.
  - split; [by eapply StronglySorted_impl; [intros i j; apply entry_less_None|]|].
    intros i k Hi Hk Hnk Hnf. apply entry_less_None. by apply H9; rewrite ?Hf.
Qed.

(** C35. Shedding to a byte budget, on a payload whose sizes do not overflow. The protected
    sections are exactly the shed-exempt ones that fit beside the protected ones of higher
    rank, or of the same rank and before them. Without a budget nothing is shed. With one,
    some files that are not protected are: the largest first, by path among equals, none
    while the rest fits, and until it does. What is kept is in the payload's order, and with
    what is dropped is the whole payload; the names dropped are reported in order;
    truncation is reported exactly when the payload was over budget, and an empty review
    exactly when there was a reviewable file and none is left, which happens only when none
    fits beside what is kept. *)
Theorem ApplyByteBudget_spec (entries : list FileEntry) (budget : Z) : (sizes entries <= MaxInt64)%Z ->
  let '(kept, t) := ApplyByteBudget entries budget in
  ((budget <= 0)%Z -> kept = entries /\ t = mkTruncation false [] false) /\
  ((0 < budget)%Z ->
    (exists fs dropped, protects entries budget fs /\ (sizes (pick entries fs) <= budget)%Z /\
       sheds entries budget fs dropped kept t) /\
    (AllDropped t = true -> forall e, e ∈ entries -> shedExempt e = false -> (budget < sizes kept + counted e)%Z)).
Proof.
  intros Hs. unfold ApplyByteBudget. destruct (applyByteBudgetOrdered entries budget None) as [kept t] eqn:E. split.
  - intros Hb. unfold applyByteBudgetOrdered in E. rewrite (proj2 (Z.leb_le _ _) Hb) in E. by injection E as <- <-.
  - intros Hb. destruct (applyByteBudgetOrdered_shed entries budget Hb Hs None) as [dropped H]. rewrite E in H.
    destruct (funded_spec entries budget Hb Hs) as (fs & H1 & H2 & H3). split.
    + exists fs, dropped. split_and!; [done|done|by apply shed_sheds].
    + intros Had e He Hrev. rewrite <- clampSize_counted. by eapply (all_dropped_tight entries budget dropped kept t).
Qed.

(** The escalation-aware pass fits the budget too, and sheds an escalated file only
    when every unfunded file it keeps is escalated as well, unless that order would
    leave no reviewable file: then it is the plain pass, so it never leaves none where
    the plain pass leaves some. *)
Theorem ApplyByteBudgetPreferEscalated_spec (entries : list FileEntry) (budget : Z) (configured : string) :
  (0 < budget)%Z -> (sizes entries <= MaxInt64)%Z ->
  let '(kept, t) := ApplyByteBudgetPreferEscalated entries budget configured in
  let escalated i := (modeRank configured < modeRank (Mode (entries !!! i)))%Z in
  (sizes kept <= budget)%Z /\
  ((kept, t) = ApplyByteBudget entries budget \/
   AllDropped t = false /\ exists dropped, shed entries budget (Some (escalation_tier configured)) dropped kept t /\
     forall i k, i ∈ dropped -> escalated i -> k < length entries -> k ∉ dropped -> k ∉ funded entries budget -> escalated k) /\
  (AllDropped t = true -> AllDropped (snd (ApplyByteBudget entries budget)) = true).
Proof.
  intros Hb Hs. unfold ApplyByteBudgetPreferEscalated.
  pose proof (applyByteBudgetOrdered_shed entries budget Hb Hs None) as (dropped' & H').
  pose proof (applyByteBudgetOrdered_shed entries budget Hb Hs (Some (escalation_tier configured))) as (dropped & H).
  destruct (applyByteBudgetOrdered entries budget (Some _)) as [kept t]. destruct (AllDropped t) eqn:Ead.
  - unfold ApplyByteBudget. destruct (applyByteBudgetOrdered entries budget None) as [kept' t'].
    split; [apply H'|]. split; [by left|done].
  - split; [apply H|]. split; [|by rewrite Ead]. right. split; [done|]. exists dropped. split; [done|].
    destruct H as (_ & _ & _ & _ & _ & _ & _ & _ & Hord & _). intros i k Hi Hesc Hk Hnk Hnf.
    pose proof (Hord i k Hi Hk Hnk Hnf) as Hno. unfold not_after, entry_less, escalation_tier in Hno.
    rewrite (proj2 (Z.ltb_lt (modeRank configured) (modeRank (Mode (entries !!! i))))) in Hno by done.
    by destruct (Z.ltb_spec (modeRank configured) (modeRank (Mode (entries !!! k)))).
Qed.

(** ** Examples and witnesses *)

Definition file (path : string) (size : Z) : FileEntry := mkFileEntry path size [] ModeDiff false 0.

(** Past the largest integer the saturated total is less than the sum, so shedding stops
    while what is kept is still over the budget. *)
Example ApplyByteBudget_saturates :
  let entries := [file "a" (2 ^ 62); file "b" (2 ^ 62); file "c" (2 ^ 62)] in
  sizes (fst (ApplyByteBudget entries (2 ^ 62))) = (2 ^ 63)%Z.
Proof. by vm_compute. Qed.

(** A lockfile, a source file and a claim ledger that is funded. *)
Definition sample_entries : list FileEntry :=
  [file "go.sum" 900; file "main.go" 100; mkFileEntry "<claims>" 50 [] "" true 2; mkFileEntry "x.go" 300 [] ModeFiles false 0].

Lemma ApplyByteBudget_spec_witness :
  (sizes sample_entries <= MaxInt64)%Z /\
  Path <$> fst (ApplyByteBudget sample_entries 460) = ["main.go"; "<claims>"; "x.go"] /\
  exists fs dropped, protects sample_entries 460 fs /\
    sheds sample_entries 460 fs dropped (fst (ApplyByteBudget sample_entries 460)) (snd (ApplyByteBudget sample_entries 460)).
Proof.
  assert (sizes sample_entries <= MaxInt64)%Z as H2 by (by vm_compute).
  split; [done|]. split; [by vm_compute|]. pose proof (ApplyByteBudget_spec sample_entries 460 H2) as H.
  destruct (ApplyByteBudget sample_entries 460) as [kept t]. destruct H as [_ H].
  destruct (H ltac:(lia)) as [(fs & dropped & H1 & _ & H3) _]. by exists fs, dropped.
Defined.

Lemma ApplyByteBudgetPreferEscalated_spec_witness :
  (0 < 400)%Z /\ (sizes sample_entries <= MaxInt64)%Z /\
  Path <$> fst (ApplyByteBudgetPreferEscalated sample_entries 400 ModeDiff) = ["<claims>"; "x.go"] /\
  (sizes (fst (ApplyByteBudgetPreferEscalated sample_entries 400 ModeDiff)) <= 400)%Z.
Proof.
  assert (0 < 400)%Z as H1 by lia. assert (sizes sample_entries <= MaxInt64)%Z as H2 by (by vm_compute).
  split; [done|]. split; [done|]. split; [by vm_compute|].
  pose proof (ApplyByteBudgetPreferEscalated_spec sample_entries 400 ModeDiff H1 H2) as H.
  destruct (ApplyByteBudgetPreferEscalated sample_entries 400 ModeDiff) as [kept t]. by destruct H.
Defined.
