(* ===== verification/WorkQueue.v ===== *)
(** * The fan-out work queue

    src/internal/fanout: the queue of units a pool of workers drains (workpool.go), the
    per-lane lease caps (throttle.go), the outer retry budget (requeue.go), and the part
    of [Engine.Run] that settles a lease (engine.go). Every operation of a queue runs
    under its mutex, so concurrent workers amount to some interleaving of whole
    operations: [step] below. Instants and durations are nanoseconds. A breaker's state
    and the clock are read anew at each use, so each lane's reads are arguments. The
    log lines, the hooks and the invocation itself are not modelled: what an attempt
    answers is an argument of the step that settles it. *)

From Stdlib Require Import Ascii String.
From stdpp Require Import prelude strings gmap list.
From Stdlib Require Import ZArith Lia.
From S2P Require Import Prelude GoStrconv GoInt CircuitBreaker.

Open Scope string_scope.
Open Scope list_scope.
Open Scope Z_scope.

(** ** requeue.go *)

Definition second : Z := 10 ^ 9.
Definition unitMaxAttempts : Z := 4.
Definition unitBackoffBudget : Z := 600 * second.
Definition rateLimitBackoff : Z := 75 * second.
Definition outageBackoff : Z := 20 * second.
Definition circuitOpenBackoff : Z := DefaultCooldown.
Definition unitCircuitWaitBudget : Z := 1800 * second.

Inductive failureClass :=
  | failureFinal | failureRateLimit | failureServer | failureTransport | failureTimeout | failureCircuitOpen.
#[export] Instance failureClass_eq_dec : EqDecision failureClass.
Proof. solve_decision. Defined.

(** An error, as what [errors.Is] and [errors.As] answer about it. *)
Record UnitError := mkUnitError {
  is_Canceled : bool;
  as_HTTPStatus : option Z;
  is_DeadlineExceeded : bool;
  as_CircuitOpen : bool;
  as_URLError : bool;
}.

Definition classifyUnitFailure (err : option UnitError) : failureClass :=
  match err with
  | None => failureFinal
  | Some e =>
      if is_Canceled e then failureFinal
      else match as_HTTPStatus e with
           | Some status => if status =? 429 then failureRateLimit
                            else if 500 <=? status then failureServer else failureFinal
           | None =>
               if is_DeadlineExceeded e then failureTimeout
               else if as_CircuitOpen e then failureCircuitOpen
               else if as_URLError e then failureTransport else failureFinal
           end
  end.

Record unitRetryPolicy := mkPolicy {
  maxAttempts : Z;
  budget : Z;
  backoff : failureClass -> Z -> Z;
  circuitWait : Z;
  circuitBudget : Z;
}.

(** [base << (attempt - 1)]: [attempt] is 1-based, Go panics on a negative shift. *)
Definition unitBackoff (c : failureClass) (attempt : Z) : Z :=
  let base := if bool_decide (c = failureRateLimit) then rateLimitBackoff else outageBackoff in
  wrap64 (Z.shiftl base (attempt - 1)).

Definition defaultUnitRetryPolicy : unitRetryPolicy :=
  mkPolicy unitMaxAttempts unitBackoffBudget unitBackoff circuitOpenBackoff unitCircuitWaitBudget.

(** [unitRetryPolicy.next] and [nextCircuitWait]: [None] when the budget is exhausted. *)
Definition next (p : unitRetryPolicy) (c : failureClass) (attempt spent : Z) : option Z :=
  if maxAttempts p <=? attempt then None
  else let d := backoff p c attempt in if budget p <? wrap64 (spent + d) then None else Some d.
Definition nextCircuitWait (p : unitRetryPolicy) (waited : Z) : option Z :=
  if circuitBudget p <? wrap64 (waited + circuitWait p) then None else Some (circuitWait p).

Record unitRetryState := mkRetry {
  attempts : Z;
  circuitWaits : Z;
  requeues : Z;
  spent : Z;
  circuitSpent : Z;
}.
Definition fresh_retry : unitRetryState := mkRetry 0 0 0 0 0.
Definition calls (s : unitRetryState) : Z := attempts s - circuitWaits s.

(** What the queue and the throttle read of a [Result]. *)
Record Result := mkResult {
  Status : string;
  Err : option UnitError;
  FallbackUsed : bool;
  primaryServerErr : bool;
  failedFastOnly : bool;
}.
Definition StatusOK : string := "ok".
Definition StatusFailed : string := "failed".
Definition set_Status (s : string) (r : Result) : Result :=
  mkResult s (Err r) (FallbackUsed r) (primaryServerErr r) (failedFastOnly r).

(** engine.go, the closure [settle]: the unit's retry state, the backoff if the attempt
    is requeued, and its result. *)
Definition settle (p : unitRetryPolicy) (requeueable cancelled : bool) (st : unitRetryState) (res : Result)
    : unitRetryState * option Z * Result :=
  let st := mkRetry (attempts st + 1) (circuitWaits st) (requeues st) (spent st) (circuitSpent st) in
  if negb requeueable || (Status res =? StatusOK)%string || cancelled then (st, None, res)
  else
    let class := classifyUnitFailure (Err res) in
    if bool_decide (class = failureFinal) then (st, None, res)
    else
      let class := if bool_decide (class = failureCircuitOpen) && negb (failedFastOnly res) then failureTransport else class in
      if bool_decide (class = failureCircuitOpen) then
        let st := mkRetry (attempts st) (circuitWaits st + 1) (requeues st) (spent st) (circuitSpent st) in
        match nextCircuitWait p (circuitSpent st) with
        | None => (st, None, set_Status StatusFailed res)
        | Some d => (mkRetry (attempts st) (circuitWaits st) (requeues st + 1) (spent st) (wrap64 (circuitSpent st + d)), Some d, res)
        end
      else
        match next p class (calls st) (spent st) with
        | None => (st, None, set_Status StatusFailed res)
        | Some d => (mkRetry (attempts st) (circuitWaits st) (requeues st + 1) (wrap64 (spent st + d)) (circuitSpent st), Some d, res)
        end.

(** ** throttle.go *)

Definition throttleWindow : Z := rateLimitBackoff.
Definition serverStreak : Z := 2.
Definition serverWindow : Z := 2 * outageBackoff.

(** A lane: provider and model. *)
Definition leaseKey : Type := string * string.

Record providerLane := mkLane {
  inFlight : Z;
  limit : Z;
  until : Z;
  serverRun : Z;
  serverUntil : Z;
}.
Definition zero_lane : providerLane := mkLane 0 0 0 0 0.

Record providerThrottle := mkThrottle {
  ceiling : Z;
  lanes : gmap leaseKey providerLane;
  providerInFlight : gmap string Z;
}.
Definition newProviderThrottle (ceiling : Z) : providerThrottle := mkThrottle (go_max ceiling 1) ∅ ∅.

(** [lane] adds an empty lane where there is none, which no later read can tell. *)
Definition lane (t : providerThrottle) (k : leaseKey) : providerLane := default zero_lane (lanes t !! k).
Definition provider_leases (t : providerThrottle) (p : string) : Z := default 0 (providerInFlight t !! p).
Definition set_lane (t : providerThrottle) (k : leaseKey) (l : providerLane) : providerThrottle :=
  mkThrottle (ceiling t) (<[k := l]> (lanes t)) (providerInFlight t).
Definition add_provider (t : providerThrottle) (p : string) (n : Z) : providerThrottle :=
  mkThrottle (ceiling t) (lanes t) (<[p := provider_leases t p + n]> (providerInFlight t)).

(** What one verdict reads: the clock, and the provider's breaker twice. *)
Record reads := mkReads { read_now : Z; read_cap : State; read_state : State }.

Definition capFor (t : providerThrottle) (e : reads) (k : leaseKey) : Z * bool :=
  if (fst k =? "")%string then (ceiling t, false)
  else
    let l := lane t k in
    let c := if 0 <? limit l then (limit l, true) else (ceiling t, false) in
    let c := if read_now e <? serverUntil l then (go_max 1 (Z.quot (fst c) 2), true) else c in
    if bool_decide (read_cap e = StateClosed) then c else (1, true).

Record leaseVerdict := mkVerdict { lv_admit : bool; throttled : bool; probe : bool }.

Definition verdict (t : providerThrottle) (e : reads) (k : leaseKey) : leaseVerdict :=
  if (fst k =? "")%string then mkVerdict true false false
  else
    let '(lim, thr) := capFor t e k in
    let state := read_state e in
    let leases := provider_leases t (fst k) in
    mkVerdict (if bool_decide (state = StateClosed) then inFlight (lane t k) <? lim else leases <? 1)
              thr ((leases =? 0) && bool_decide (state = StateHalfOpen)).

Section queue.
(** The lane of a unit, and what the verdict on a lane reads. *)
Context (key : nat -> leaseKey).

(** [pick]: [k] is the position of the head of [pending]. One verdict serves a lane's
    every unit of the pass. *)
Fixpoint pick_loop (t : providerThrottle) (env : leaseKey -> reads) (k : nat) (pending : list nat)
    (healthy deferred : option nat) : option nat :=
  match pending with
  | [] => match healthy with Some h => Some h | None => deferred end
  | i :: pending' =>
      let v := verdict t (env (key i)) (key i) in
      if negb (lv_admit v) then pick_loop t env (S k) pending' healthy deferred
      else if probe v then Some k
      else if negb (throttled v)
      then pick_loop t env (S k) pending' (match healthy with Some h => Some h | None => Some k end) deferred
      else pick_loop t env (S k) pending' healthy (match deferred with Some d => Some d | None => Some k end)
  end.
Definition pick (t : providerThrottle) (env : leaseKey -> reads) (pending : list nat) : option nat :=
  pick_loop t env 0 pending None None.

Definition acquire (t : providerThrottle) (i : nat) : providerThrottle :=
  let k := key i in
  if (fst k =? "")%string then t
  else
    let l := lane t k in
    add_provider (set_lane t k (mkLane (inFlight l + 1) (limit l) (until l) (serverRun l) (serverUntil l))) (fst k) 1.

(** [done], with the instant it reads. *)
Definition throttle_done (t : providerThrottle) (now : Z) (i : nat) (r : Result) : providerThrottle :=
  let k := key i in
  if (fst k =? "")%string then t
  else
    let l := lane t k in
    let l := mkLane (inFlight l - 1) (limit l) (until l) (serverRun l) (serverUntil l) in
    let t := add_provider (set_lane t k l) (fst k) (-1) in
    let ok := (Status r =? StatusOK)%string in
    let serverFail := primaryServerErr r ||
      (negb (FallbackUsed r) && negb ok && bool_decide (classifyUnitFailure (Err r) = failureServer)) in
    if FallbackUsed r && negb serverFail then t
    else
      let l := if ok && negb (FallbackUsed r) then mkLane (inFlight l) (limit l) (until l) 0 (serverUntil l) else l in
      let l :=
        if serverFail then
          mkLane (inFlight l) (limit l) (until l) (serverRun l + 1)
            (if serverStreak <=? serverRun l + 1 then now + serverWindow else serverUntil l)
        else if negb (FallbackUsed r) && negb ok && bool_decide (classifyUnitFailure (Err r) = failureRateLimit) then
          let lim := if limit l =? 0 then ceiling t else limit l in
          mkLane (inFlight l) (go_max 1 (Z.quot lim 2)) (now + throttleWindow) (serverRun l) (serverUntil l)
        else if negb (FallbackUsed r) && ok && (0 <? limit l) && negb (now <? until l) then
          mkLane (inFlight l) (if ceiling t <=? limit l + 1 then 0 else limit l + 1) (until l) (serverRun l) (serverUntil l)
        else l in
      set_lane t k l.

(** ** workpool.go *)

Record unitQueue := mkQueue {
  pending : list nat;
  delayed : list (nat * Z);
  held : Z;
  throttle : option providerThrottle;
}.
Definition newUnitQueue (idx : list nat) (throttle : option providerThrottle) : unitQueue := mkQueue idx [] 0 throttle.

Definition promote (all : bool) (now : Z) (q : unitQueue) : unitQueue :=
  let ready (d : nat * Z) := all || negb (now <? snd d) in
  mkQueue (pending q ++ (fst <$> List.filter ready (delayed q))) (List.filter (fun d => negb (ready d)) (delayed q))
    (held q) (throttle q).

Definition take (all : bool) (env : leaseKey -> reads) (q : unitQueue) : option (nat * unitQueue) :=
  let at_ := match throttle q with
             | Some t => if all then Some O else pick t env (pending q)
             | None => Some O
             end in
  at_ ← at_;
  i ← pending q !! at_;
  Some (i, mkQueue (firstn at_ (pending q) ++ skipn (S at_) (pending q)) (delayed q) (held q)
             ((fun t => acquire t i) <$> throttle q)).

(** One pass of [lease]'s loop: a unit, the end of the queue, or a wait. *)
Inductive lease_outcome := Leased (i : nat) (q : unitQueue) | Drained | Waiting (q : unitQueue).
Definition lease_pass (cancelled : bool) (now : Z) (env : leaseKey -> reads) (q : unitQueue) : lease_outcome :=
  let q := promote cancelled now q in
  match take cancelled env q with
  | Some (i, q) => Leased i (mkQueue (pending q) (delayed q) (held q + 1) (throttle q))
  | None =>
      if (length (pending q) =? 0)%nat && (length (delayed q) =? 0)%nat && (held q =? 0) then Drained else Waiting q
  end.

(** [release], and [requeue] with its backoff. *)
Definition release (now : Z) (i : nat) (r : Result) (q : unitQueue) : unitQueue :=
  mkQueue (pending q) (delayed q) (held q - 1) ((fun t => throttle_done t now i r) <$> throttle q).
Definition requeue (now : Z) (i : nat) (d : Z) (r : Result) (q : unitQueue) : unitQueue :=
  mkQueue (pending q) (delayed q ++ [(i, now + d)]) (held q - 1) ((fun t => throttle_done t now i r) <$> throttle q).
End queue.

Definition poolWorkers (n maxParallel : Z) : Z := if (0 <? maxParallel) && (maxParallel <? n) then maxParallel else n.

(** ** A pool draining a queue *)

Section system.
Context (key : nat -> leaseKey) (workers : nat) (serial : bool).
Context (policy : unitRetryPolicy) (requeueable : nat -> bool).

(** The shared state of [Engine.Run] for one queue: the queue, the units its workers hold,
    the units resolved, every unit's retry state, whether the run was cancelled, and
    the leases handed out. *)
Record sys := mkSys {
  s_queue : unitQueue;
  s_holding : list nat;
  s_resolved : list nat;
  s_retry : nat -> unitRetryState;
  s_cancelled : bool;
  s_leases : list nat;
}.

Definition update {A} (f : nat -> A) (i : nat) (x : A) : nat -> A := fun j => if (j =? i)%nat then x else f j.

(** How a worker ends the lease of unit [i] ([runUnit]): the retry state, the backoff of a
    requeue, the result. [None] for the attempt is a recovered panic; a lease that finds
    the run cancelled ([entry]) resolves without an attempt when the unit had one
    before or the lane is serial. *)
Definition end_lease (s : sys) (entry : bool) (i : nat) (attempt : option Result) (last : Result)
    : unitRetryState * option Z * Result :=
  let st := s_retry s i in
  if entry && ((0 <? attempts st) || serial) then (st, None, last)
  else match attempt with
       | None => (st, None, last)
       | Some res => settle policy (requeueable i) (s_cancelled s) st res
       end.

Inductive step : sys -> sys -> Prop :=
  (** An idle worker leases. *)
  | step_lease s now env i q :
      (length (s_holding s) < workers)%nat ->
      lease_pass key (s_cancelled s) now env (s_queue s) = Leased i q ->
      step s (mkSys q (i :: s_holding s) (s_resolved s) (s_retry s) (s_cancelled s) (s_leases s ++ [i]))
  (** A pass that leases nothing promotes delayed units all the same. *)
  | step_wait s now env q :
      (length (s_holding s) < workers)%nat ->
      lease_pass key (s_cancelled s) now env (s_queue s) = Waiting q ->
      step s (mkSys q (s_holding s) (s_resolved s) (s_retry s) (s_cancelled s) (s_leases s))
  (** A worker ends the lease of a unit it holds. *)
  | step_end s now pre i post entry attempt last st res :
      s_holding s = pre ++ i :: post -> (entry = true -> s_cancelled s = true) ->
      end_lease s entry i attempt last = (st, None, res) ->
      step s (mkSys (release key now i res (s_queue s)) (pre ++ post) (i :: s_resolved s)
                (update (s_retry s) i st) (s_cancelled s) (s_leases s))
  | step_requeue s now pre i post entry attempt last st d res :
      s_holding s = pre ++ i :: post -> (entry = true -> s_cancelled s = true) ->
      end_lease s entry i attempt last = (st, Some d, res) ->
      step s (mkSys (requeue key now i d res (s_queue s)) (pre ++ post) (s_resolved s)
                (update (s_retry s) i st) (s_cancelled s) (s_leases s))
  (** The run is cancelled. *)
  | step_cancel s :
      step s (mkSys (s_queue s) (s_holding s) (s_resolved s) (s_retry s) true (s_leases s)).

Definition init (units : list nat) (t : option providerThrottle) : sys :=
  mkSys (newUnitQueue units t) [] [] (fun _ => fresh_retry) false [].

Definition reachable (units : list nat) (t : option providerThrottle) (s : sys) : Prop := rtc step (init units t) s.
End system.

(** ** The retry budget *)

(** A unit's state while it is not resolved, under the engine's policy. *)
Definition live_retry (st : unitRetryState) : Prop :=
  requeues st = attempts st /\ 0 <= circuitWaits st /\ circuitSpent st = circuitWaits st * circuitOpenBackoff /\
  circuitSpent st <= unitCircuitWaitBudget /\ 0 <= calls st <= unitMaxAttempts - 1 /\ 0 <= spent st <= unitBackoffBudget.

Lemma fresh_live : live_retry fresh_retry.
Proof.
  unfold live_retry, calls, fresh_retry. cbn [attempts circuitWaits requeues spent circuitSpent].
  change unitMaxAttempts with 4. change unitBackoffBudget with 600000000000. change unitCircuitWaitBudget with 1800000000000. lia.
Qed.

Definition maxRequeues : Z := (unitMaxAttempts - 1) + unitCircuitWaitBudget / circuitOpenBackoff.

Lemma live_requeues st : live_retry st -> 0 <= requeues st <= maxRequeues.
Proof.
  unfold live_retry, calls. intros (-> & H1 & H2 & H3 & H4 & _). unfold maxRequeues.
  change (unitCircuitWaitBudget / circuitOpenBackoff) with 30. change unitMaxAttempts with 4 in *.
  change unitCircuitWaitBudget with 1800000000000 in *. change circuitOpenBackoff with 60000000000 in *. lia.
Qed.

Lemma unitBackoff_range c n : 1 <= n <= 3 -> 0 < unitBackoff c n <= 300 * second.
Proof.
  intros H. assert (n = 1 \/ n = 2 \/ n = 3) as [->|[->| ->]] by lia; unfold unitBackoff; case_bool_decide; by vm_compute.
Qed.

Lemma nextCircuitWait_live st : live_retry st ->
  match nextCircuitWait defaultUnitRetryPolicy (circuitSpent st) with
  | Some d => d = circuitOpenBackoff /\ circuitSpent st + d <= unitCircuitWaitBudget
  | None => True
  end.
Proof.
  intros (_ & H2 & H3 & H4 & _). unfold nextCircuitWait. cbn [defaultUnitRetryPolicy circuitBudget circuitWait].
  change unitCircuitWaitBudget with 1800000000000 in *. change circuitOpenBackoff with 60000000000 in *.
  rewrite wrap64_id by int_range. destruct (Z.ltb_spec 1800000000000 (circuitSpent st + 60000000000)); [done|]. split; [done|lia].
Qed.

Lemma next_live c n spent : 1 <= n -> 0 <= spent <= unitBackoffBudget ->
  match next defaultUnitRetryPolicy c n spent with
  | Some d => n <= unitMaxAttempts - 1 /\ 0 < d /\ spent + d <= unitBackoffBudget
  | None => True
  end.
Proof.
  intros Hn Hs. unfold next. cbn [defaultUnitRetryPolicy maxAttempts backoff budget].
  change unitMaxAttempts with 4. change unitBackoffBudget with 600000000000 in *.
  destruct (Z.leb_spec 4 n); [done|]. pose proof (unitBackoff_range c n ltac:(lia)) as Hd. change second with 1000000000 in Hd.
  rewrite wrap64_id by int_range. destruct (Z.ltb_spec 600000000000 (spent + unitBackoff c n)); [done|]. lia.
Qed.

Lemma settle_live req cancelled st res st' d res' : live_retry st ->
  settle defaultUnitRetryPolicy req cancelled st res = (st', d, res') ->
  match d with
  | Some d => live_retry st' /\ requeues st' = requeues st + 1 /\ 0 < d
  | None => requeues st' = requeues st
  end.
Proof.
  intros Hl. pose proof (nextCircuitWait_live st Hl) as Hc. destruct Hl as (H1 & H2 & H3 & H4 & H5 & H6). unfold settle.
  destruct (_ || cancelled); [by intros [= <- <- _]|]. cbv zeta. case_bool_decide; [by intros [= <- <- _]|].
  match goal with |- context [bool_decide (?c = failureCircuitOpen)] =>
    lazymatch c with (if _ then _ else _) => set (class := c) end end.
  cbn [attempts circuitWaits requeues spent circuitSpent]. unfold calls in *. case_bool_decide.
  - destruct (nextCircuitWait _ _) as [d'|]; intros [= <- <- _]; [|done]. destruct Hc as [-> Hc].
    change unitCircuitWaitBudget with 1800000000000 in *. change circuitOpenBackoff with 60000000000 in *.
    unfold live_retry, calls. cbn [attempts circuitWaits requeues spent circuitSpent]. rewrite wrap64_id by int_range.
    change unitCircuitWaitBudget with 1800000000000. change circuitOpenBackoff with 60000000000. split_and!; (done || lia).
  - pose proof (next_live class (attempts st + 1 - circuitWaits st) (spent st) ltac:(lia) H6) as Hn.
    destruct (next _ _ _ _) as [d'|]; intros [= <- <- _]; [|done]. unfold live_retry, calls.
    cbn [attempts circuitWaits requeues spent circuitSpent]. rewrite (wrap64_id (spent st + d'))
      by (change unitBackoffBudget with 600000000000 in *; int_range). split_and!; (done || lia).
Qed.

(** ** The choice of a unit *)

Section choice.
Context (key : nat -> leaseKey) (t : providerThrottle) (env : leaseKey -> reads).

Definition unit_verdict (i : nat) : leaseVerdict := verdict t (env (key i)) (key i).

(** The position of the first unit that satisfies a test. *)
Definition first_at (p : nat -> bool) (l : list nat) : option nat := fst <$> list_find (fun i => p i = true) l.

Lemma first_at_cons p i l : first_at p (i :: l) = if p i then Some O else S <$> first_at p l.
Proof.
  unfold first_at. cbn [list_find]. destruct (p i); [by rewrite decide_True|]. rewrite decide_False by done.
  by destruct (list_find _ l) as [[? ?]|].
Qed.

Definition wins_probe (i : nat) : bool := lv_admit (unit_verdict i) && probe (unit_verdict i).
Definition wins_healthy (i : nat) : bool := lv_admit (unit_verdict i) && negb (throttled (unit_verdict i)).
Definition wins_any (i : nat) : bool := lv_admit (unit_verdict i).

Lemma pick_loop_eq k l healthy deferred : pick_loop key t env k l healthy deferred =
  (Nat.add k <$> first_at wins_probe l) ∪
  ((healthy ∪ (Nat.add k <$> first_at wins_healthy l)) ∪ (deferred ∪ (Nat.add k <$> first_at wins_any l))).
Proof.
  revert k healthy deferred. induction l as [|i l IH]; intros k healthy deferred.
  { cbn. by destruct healthy, deferred. }
  cbn [pick_loop]. rewrite !first_at_cons. unfold wins_probe at 1, wins_healthy at 1, wins_any at 1, unit_verdict.
  assert (forall o : option nat, Nat.add k <$> (S <$> o) = Nat.add (S k) <$> o) as Hs.
  { intros [x|]; [|done]. cbn. f_equal. lia. }
  destruct (lv_admit _); cbn [andb negb]; [|rewrite IH, !Hs; done].
  destruct (probe _).
  { change (Nat.add k <$> Some O) with (Some (k + O)%nat). rewrite Nat.add_0_r. by destruct ((_ ∪ _) ∪ _). }
  change (Nat.add k <$> Some O) with (Some (k + O)%nat). rewrite Nat.add_0_r.
  destruct (throttled _); cbn [negb]; rewrite IH, !Hs; change (Nat.add k <$> Some O) with (Some (k + O)%nat); rewrite ?Nat.add_0_r;
    destruct (first_at wins_probe l), healthy, deferred, (first_at wins_healthy l), (first_at wins_any l); done.
Qed.

(** The choice of the next unit is the one the rule describes: the first admitted
    unit whose provider's half-open breaker waits for its probe, else the first
    admitted unit of an unthrottled lane, else the first admitted unit. *)
Theorem pick_reference (l : list nat) :
  pick key t env l = first_at wins_probe l ∪ (first_at wins_healthy l ∪ first_at wins_any l).
Proof.
  unfold pick. rewrite pick_loop_eq. assert (forall o : option nat, Nat.add 0 <$> o = o) as H by (intros [x|]; reflexivity).
  rewrite !H. by destruct (first_at wins_probe l), (first_at wins_healthy l), (first_at wins_any l).
Qed.
End choice.

(** ** The lanes' counts *)

Lemma lane_set t k l k' : lane (set_lane t k l) k' = if decide (k' = k) then l else lane t k'.
Proof.
  unfold lane, set_lane. cbn [lanes]. case_decide as E; [by subst; rewrite lookup_insert_eq|by rewrite lookup_insert_ne].
Qed.

Lemma lane_add t p n k : lane (add_provider t p n) k = lane t k.
Proof. done. Qed.

Lemma leases_set t k l p : provider_leases (set_lane t k l) p = provider_leases t p.
Proof. done. Qed.

Lemma leases_add t p n p' : provider_leases (add_provider t p n) p' = provider_leases t p' + (if decide (p' = p) then n else 0).
Proof.
  unfold provider_leases, add_provider. cbn [providerInFlight]. case_decide as E.
  - subst. by rewrite lookup_insert_eq.
  - rewrite lookup_insert_ne by done. lia.
Qed.

Section counts.
Context (key : nat -> leaseKey).

(** How many of the held units satisfy a test. *)
Definition holds (p : nat -> bool) (l : list nat) : Z := Z.of_nat (length (List.filter p l)).

Lemma holds_cons p i l : holds p (i :: l) = (if p i then 1 else 0) + holds p l.
Proof. unfold holds. cbn [List.filter]. destruct (p i); cbn [length]; lia. Qed.

Lemma holds_middle p pre i post : holds p (pre ++ i :: post) = (if p i then 1 else 0) + holds p (pre ++ post).
Proof. unfold holds. rewrite !List.filter_app, !length_app. cbn [List.filter]. destruct (p i); cbn [length]; lia. Qed.

Lemma holds_nonneg p l : 0 <= holds p l.
Proof. unfold holds. lia. Qed.

Definition on_lane (k : leaseKey) (i : nat) : bool := bool_decide (key i = k).
Definition on_provider (p : string) (i : nat) : bool := bool_decide (fst (key i) = p).

(** The throttle counts exactly the held units, and its caps are within the ceiling. *)
Definition throttle_ok (t : providerThrottle) (holding : list nat) : Prop :=
  1 <= ceiling t /\
  (forall k, fst k <> "" -> inFlight (lane t k) = holds (on_lane k) holding) /\
  (forall p, p <> "" -> provider_leases t p = holds (on_provider p) holding) /\
  (forall k, 0 <= limit (lane t k) <= ceiling t).

Lemma newProviderThrottle_ok n : throttle_ok (newProviderThrottle n) [].
Proof.
  unfold throttle_ok, newProviderThrottle. rewrite go_max_eq. cbn [ceiling]. split; [lia|].
  unfold lane, provider_leases. cbn [lanes providerInFlight].
  split; [intros k _; by rewrite lookup_empty|]. split; [intros p _; by rewrite lookup_empty|].
  intros k. rewrite lookup_empty. cbn. lia.
Qed.

Lemma acquire_ok t i l : throttle_ok t l -> throttle_ok (acquire key t i) (i :: l).
Proof.
  intros (H1 & H2 & H3 & H4). unfold acquire. destruct (String.eqb_spec (fst (key i)) "") as [E|E].
  - split_and!; [done| | |done].
    + intros k Hk. rewrite H2, holds_cons by done. unfold on_lane. rewrite bool_decide_false; [done|]. congruence.
    + intros p Hp. rewrite H3, holds_cons by done. unfold on_provider. rewrite bool_decide_false; [done|]. congruence.
  - split_and!; [done| | |].
    + intros k Hk. rewrite lane_add, lane_set, holds_cons. unfold on_lane at 1. case_decide as Ek.
      * subst k. rewrite bool_decide_true by done. cbn [inFlight]. rewrite H2 by done. lia.
      * rewrite bool_decide_false by congruence. by rewrite H2.
    + intros p Hp. rewrite leases_add, leases_set, holds_cons, H3 by done. unfold on_provider at 2. case_decide as Ep.
      * rewrite bool_decide_true by congruence. lia.
      * rewrite bool_decide_false by congruence. lia.
    + intros k. rewrite lane_add, lane_set. case_decide; [subst k; apply H4|apply H4].
Qed.

Lemma set_lane_ok t k l holding : throttle_ok t holding -> inFlight l = inFlight (lane t k) -> 0 <= limit l <= ceiling t ->
  throttle_ok (set_lane t k l) holding.
Proof.
  intros (H1 & H2 & H3 & H4) Hf Hl. split_and!; [done| |done|].
  - intros k' Hk. rewrite lane_set. case_decide; [|by apply H2]. subst k'. rewrite Hf. by apply H2.
  - intros k'. rewrite lane_set. by case_decide.
Qed.

Lemma leave_ok t pre i post : throttle_ok t (pre ++ i :: post) -> fst (key i) <> "" ->
  throttle_ok (add_provider (set_lane t (key i) (mkLane (inFlight (lane t (key i)) - 1) (limit (lane t (key i)))
    (until (lane t (key i))) (serverRun (lane t (key i))) (serverUntil (lane t (key i))))) (fst (key i)) (-1)) (pre ++ post).
Proof.
  intros (H1 & H2 & H3 & H4) E. split_and!; [done| | |].
  - intros k Hk. rewrite lane_add, lane_set. specialize (H2 k Hk). rewrite holds_middle in H2. unfold on_lane at 1 in H2.
    match goal with |- context [decide ?P] => destruct (decide P) as [Ek|Ek] end.
    { subst k. rewrite bool_decide_true in H2 by done. cbv iota in H2. cbn [inFlight]. lia. }
    rewrite bool_decide_false in H2 by congruence. cbv iota in H2. lia.
  - intros p Hp. rewrite leases_add, leases_set. specialize (H3 p Hp). rewrite holds_middle in H3. unfold on_provider at 1 in H3.
    match goal with |- context [decide ?P] => destruct (decide P) as [Ep|Ep] end.
    { subst p. rewrite bool_decide_true in H3 by done. cbv iota in H3. lia. }
    rewrite bool_decide_false in H3 by congruence. cbv iota in H3. lia.
  - intros k. rewrite lane_add, lane_set. case_decide; [subst k; apply H4|apply H4].
Qed.

Lemma throttle_done_ok t now pre i post r : throttle_ok t (pre ++ i :: post) ->
  throttle_ok (throttle_done key t now i r) (pre ++ post).
Proof.
  intros H. unfold throttle_done. destruct (String.eqb_spec (fst (key i)) "") as [E|E].
  { destruct H as (H1 & H2 & H3 & H4). split_and!; [done| | |done].
    - intros k Hk. rewrite (H2 k Hk), holds_middle. unfold on_lane at 1. rewrite bool_decide_false; [done|congruence].
    - intros p Hp. rewrite (H3 p Hp), holds_middle. unfold on_provider at 1. rewrite bool_decide_false; [done|congruence]. }
  pose proof (leave_ok t pre i post H E) as Hl. cbv zeta. set (t' := add_provider _ _ _) in *.
  destruct (FallbackUsed r && negb _); [done|].
  assert (0 <= limit (lane t' (key i)) <= ceiling t') as Hlim by apply Hl.
  assert (1 <= ceiling t') as Hc by apply Hl.
  assert (lane t' (key i) = mkLane (inFlight (lane t (key i)) - 1) (limit (lane t (key i))) (until (lane t (key i)))
    (serverRun (lane t (key i))) (serverUntil (lane t (key i)))) as El.
  { unfold t'. rewrite lane_add, lane_set. by rewrite decide_True. }
  apply set_lane_ok; [done| |]; rewrite El in *; cbn [limit inFlight] in *;
    repeat case_match; cbn [limit inFlight until serverRun serverUntil] in *; bool_prop; rewrite ?go_max_eq;
    Z.to_euclidean_division_equations; (done || lia).
Qed.

(** ** The queue's operations *)

(** The units waiting in a queue. *)
Definition queue_units (q : unitQueue) : list nat := pending q ++ (fst <$> delayed q).

Definition queue_throttle_ok (q : unitQueue) (holding : list nat) : Prop :=
  match throttle q with Some t => throttle_ok t holding | None => True end.

Lemma promote_units all now q : queue_units (promote all now q) ≡ₚ queue_units q.
Proof.
  unfold queue_units, promote. cbn [pending delayed]. rewrite <- app_assoc. apply Permutation_app_head.
  induction (delayed q) as [|d l IH]; [done|]. cbn [List.filter]. destruct (all || negb (now <? snd d)); cbn [negb app fmap list_fmap].
  - by constructor.
  - rewrite <- Permutation_middle. by constructor.
Qed.

Lemma promote_all_ready all now q : (forall d, d ∈ delayed q -> all = true \/ snd d <= now) ->
  delayed (promote all now q) = [] /\ pending (promote all now q) = queue_units q.
Proof.
  intros H. unfold queue_units, promote. cbn [pending delayed]. assert (forall d, d ∈ delayed q -> all || negb (now <? snd d) = true) as Hr.
  { intros d Hd. destruct (H d Hd) as [->|Hle]; [done|]. rewrite (proj2 (Z.ltb_ge _ _)) by done. by rewrite orb_true_r. }
  assert (List.filter (fun d => all || negb (now <? snd d)) (delayed q) = delayed q /\
          List.filter (fun d => negb (all || negb (now <? snd d))) (delayed q) = []) as [-> ->]; [|done].
  clear H. induction (delayed q) as [|d l IH]; [done|]. cbn [List.filter]. rewrite (Hr d) by left. cbn [negb].
  destruct IH as [-> ->]; [intros d' Hd'; apply Hr; by right|done].
Qed.

Lemma take_spec all env q i q' : take key all env q = Some (i, q') ->
  queue_units q ≡ₚ i :: queue_units q' /\ held q' = held q /\ throttle q' = (fun t => acquire key t i) <$> throttle q.
Proof.
  unfold take. destruct (match throttle q with Some t => if all then Some O else pick key t env (pending q) | None => Some O end) as [n|]; [|done].
  cbn [mbind option_bind]. destruct (pending q !! n) as [j|] eqn:Ej; [|done]. cbn [mbind option_bind]. intros [= <- <-].
  cbn [held throttle]. split; [|done]. unfold queue_units. cbn [pending delayed].
  rewrite <- (take_drop_middle (pending q) n j Ej) at 1. rewrite <- !app_assoc. cbn [app]. by rewrite <- Permutation_middle.
Qed.

Lemma lease_pass_spec cancelled now env q :
  match lease_pass key cancelled now env q with
  | Leased i q' => queue_units q ≡ₚ i :: queue_units q' /\ held q' = held q + 1 /\
      throttle q' = (fun t => acquire key t i) <$> throttle q
  | Waiting q' => queue_units q' ≡ₚ queue_units q /\ held q' = held q /\ throttle q' = throttle q
  | Drained => queue_units q = [] /\ held q = 0
  end.
Proof.
  unfold lease_pass. pose proof (promote_units cancelled now q) as Hp. set (q1 := promote cancelled now q) in *.
  assert (held q1 = held q /\ throttle q1 = throttle q) as [Hh Ht] by done.
  destruct (take key cancelled env q1) as [[i q2]|] eqn:E.
  - apply take_spec in E as (E1 & E2 & E3). unfold queue_units in *. cbn [pending delayed held throttle]. rewrite <- Hp, E2, E3. done.
  - destruct ((length (pending q1) =? 0)%nat && (length (delayed q1) =? 0)%nat && (held q1 =? 0)) eqn:Ed; [|by rewrite Hp].
    apply andb_true_iff in Ed as [[Ea Eb]%andb_true_iff Ec]. apply Nat.eqb_eq, nil_length_inv in Ea, Eb. apply Z.eqb_eq in Ec.
    split; [|congruence]. unfold queue_units at 1 in Hp. rewrite Ea, Eb in Hp. by apply Permutation_nil in Hp.
Qed.
End counts.

(** ** Every reachable state *)

Section reach.
Context (key : nat -> leaseKey) (workers : nat) (serial : bool) (requeueable : nat -> bool).
Context (units : list nat) (Hunits : NoDup units).

Abbreviation qstep := (step key workers serial defaultUnitRetryPolicy requeueable).

(** How often a unit was leased. *)
Definition leased (s : sys) (i : nat) : Z := holds (fun j => (j =? i)%nat) (s_leases s).

Record inv (s : sys) : Prop := {
  inv_units : queue_units (s_queue s) ++ s_holding s ++ s_resolved s ≡ₚ units;
  inv_held : held (s_queue s) = Z.of_nat (length (s_holding s));
  inv_workers : (length (s_holding s) <= workers)%nat;
  inv_live i : i ∈ queue_units (s_queue s) ++ s_holding s -> live_retry (s_retry s i);
  inv_waiting i : i ∈ queue_units (s_queue s) -> leased s i = requeues (s_retry s i);
  inv_out i : i ∈ s_holding s ++ s_resolved s -> leased s i = requeues (s_retry s i) + 1 /\ requeues (s_retry s i) <= maxRequeues;
  inv_others i : i ∉ units -> leased s i = 0;
  inv_throttle : queue_throttle_ok key (s_queue s) (s_holding s);
}.

Lemma inv_NoDup s : inv s -> NoDup (queue_units (s_queue s) ++ s_holding s ++ s_resolved s).
Proof. intros H. by rewrite (inv_units s H). Qed.

Lemma leased_snoc s q h r rt c j i : leased (mkSys q h r rt c (s_leases s ++ [j])) i = leased s i + (if (j =? i)%nat then 1 else 0).
Proof. unfold leased, holds. cbn [s_leases]. rewrite List.filter_app, length_app. cbn [List.filter]. destruct (j =? i)%nat; cbn [length]; lia. Qed.

Lemma inv_lease s now env i q : inv s -> (length (s_holding s) < workers)%nat ->
  lease_pass key (s_cancelled s) now env (s_queue s) = Leased i q ->
  inv (mkSys q (i :: s_holding s) (s_resolved s) (s_retry s) (s_cancelled s) (s_leases s ++ [i])).
Proof.
  intros H Hw E. pose proof (lease_pass_spec key (s_cancelled s) now env (s_queue s)) as Hl. rewrite E in Hl.
  destruct Hl as (Hp & Hh & Ht). pose proof (inv_NoDup s H) as Hnd. rewrite Hp in Hnd. cbn [app] in Hnd.
  apply NoDup_cons in Hnd as [Hi _]. rewrite !elem_of_app in Hi.
  assert (forall j, j ∈ queue_units q -> j ∈ queue_units (s_queue s)) as Hsub by (intros j Hj; rewrite Hp; by right).
  assert (i ∈ queue_units (s_queue s)) as Hin by (rewrite Hp; left).
  split; cbn [s_queue s_holding s_resolved s_retry s_leases].
  - rewrite <- (inv_units s H), Hp. cbn [app]. by rewrite <- Permutation_middle.
  - rewrite Hh, (inv_held s H). cbn [length]. lia.
  - cbn [length]. lia.
  - intros j Hj. apply (inv_live s H). rewrite elem_of_app in Hj |- *. rewrite elem_of_cons in Hj.
    destruct Hj as [Hj|[->|Hj]]; [left; by apply Hsub|by left|by right].
  - intros j Hj. rewrite leased_snoc, (inv_waiting s H j (Hsub j Hj)). destruct (Nat.eqb_spec i j) as [->|]; [tauto|lia].
  - intros j Hj. rewrite leased_snoc. cbn [app] in Hj. apply elem_of_cons in Hj as [->|Hj].
    + rewrite Nat.eqb_refl, (inv_waiting s H i Hin). split; [done|]. apply live_requeues, (inv_live s H). rewrite elem_of_app. by left.
    + destruct (Nat.eqb_spec i j) as [->|]; [|rewrite Z.add_0_r; by apply (inv_out s H)].
      rewrite elem_of_app in Hj. tauto.
  - intros j Hj. rewrite leased_snoc, (inv_others s H j Hj). destruct (Nat.eqb_spec i j) as [->|]; [|done].
    destruct Hj. rewrite <- (inv_units s H), !elem_of_app. by left.
  - unfold queue_throttle_ok in *. cbn [s_queue]. rewrite Ht. pose proof (inv_throttle s H) as Hto. unfold queue_throttle_ok in Hto.
    destruct (throttle (s_queue s)); [|done]. by apply acquire_ok.
Qed.

Lemma inv_wait s now env q : inv s -> lease_pass key (s_cancelled s) now env (s_queue s) = Waiting q ->
  inv (mkSys q (s_holding s) (s_resolved s) (s_retry s) (s_cancelled s) (s_leases s)).
Proof.
  intros H E. pose proof (lease_pass_spec key (s_cancelled s) now env (s_queue s)) as Hl. rewrite E in Hl.
  destruct Hl as (Hp & Hh & Ht). split; cbn [s_queue s_holding s_resolved s_retry s_leases].
  - by rewrite Hp, (inv_units s H).
  - by rewrite Hh, (inv_held s H).
  - apply (inv_workers s H).
  - intros j. rewrite Hp. apply (inv_live s H).
  - intros j. rewrite Hp. apply (inv_waiting s H).
  - apply (inv_out s H).
  - apply (inv_others s H).
  - unfold queue_throttle_ok. rewrite Ht. apply (inv_throttle s H).
Qed.

Lemma end_lease_live s entry i attempt last st d res : live_retry (s_retry s i) ->
  end_lease serial defaultUnitRetryPolicy requeueable s entry i attempt last = (st, d, res) ->
  match d with
  | Some _ => live_retry st /\ requeues st = requeues (s_retry s i) + 1
  | None => requeues st = requeues (s_retry s i)
  end.
Proof.
  intros Hl. unfold end_lease. destruct (entry && _); [by intros [= <- <- _]|]. destruct attempt as [r|]; [|by intros [= <- <- _]].
  intros E. pose proof (settle_live _ _ _ _ _ _ _ Hl E) as H. destruct d; [|done]. by destruct H as (? & ? & _).
Qed.

Lemma update_eq {A} (f : nat -> A) i x : update f i x i = x.
Proof. unfold update. by rewrite Nat.eqb_refl. Qed.
Lemma update_ne {A} (f : nat -> A) i x j : j <> i -> update f i x j = f j.
Proof. unfold update. intros H. by rewrite (proj2 (Nat.eqb_neq _ _)). Qed.

(** A held unit is held once and nowhere else. *)
Lemma held_once s pre i post : inv s -> s_holding s = pre ++ i :: post ->
  i ∉ queue_units (s_queue s) /\ i ∉ pre ++ post /\ i ∉ s_resolved s /\ live_retry (s_retry s i) /\
  leased s i = requeues (s_retry s i) + 1.
Proof.
  intros H E. pose proof (inv_NoDup s H) as Hnd. rewrite E in Hnd.
  assert (queue_units (s_queue s) ++ (pre ++ i :: post) ++ s_resolved s ≡ₚ
    i :: queue_units (s_queue s) ++ (pre ++ post) ++ s_resolved s) as Hp.
  { rewrite <- (Permutation_middle pre post i). cbn [app]. by rewrite <- Permutation_middle. }
  rewrite Hp in Hnd. apply NoDup_cons in Hnd as [Hi _]. rewrite !elem_of_app in Hi. rewrite elem_of_app.
  assert (i ∈ s_holding s) as Hin by (rewrite E, elem_of_app; right; left).
  split_and!; try tauto.
  - apply (inv_live s H). rewrite elem_of_app. by right.
  - apply (inv_out s H). rewrite elem_of_app. by left.
Qed.

Lemma inv_end s now pre i post entry attempt last st res : inv s -> s_holding s = pre ++ i :: post ->
  end_lease serial defaultUnitRetryPolicy requeueable s entry i attempt last = (st, None, res) ->
  inv (mkSys (release key now i res (s_queue s)) (pre ++ post) (i :: s_resolved s) (update (s_retry s) i st) (s_cancelled s) (s_leases s)).
Proof.
  intros H E Es. destruct (held_once s pre i post H E) as (Hq & Hpp & Hr & Hl & Hc).
  pose proof (end_lease_live s entry i attempt last st None res Hl Es) as Hst. cbn in Hst.
  assert (forall j, j <> i -> update (s_retry s) i st j = s_retry s j) as Hu by (intros j; apply update_ne).
  assert (forall j, j ∈ pre ++ post -> j ∈ s_holding s) as Hsub by (intros j; rewrite E, !elem_of_app, elem_of_cons; tauto).
  split; cbn [s_queue s_holding s_resolved s_retry s_leases].
  - rewrite <- (inv_units s H), E. change (queue_units (release key now i res (s_queue s))) with (queue_units (s_queue s)).
    apply Permutation_app_head. rewrite <- Permutation_middle, <- (app_assoc pre). cbn [app]. rewrite <- Permutation_middle. by rewrite app_assoc.
  - cbn [release held]. rewrite (inv_held s H), E, !length_app. cbn [length]. lia.
  - pose proof (inv_workers s H) as Hw. rewrite E, !length_app in *. cbn [length] in Hw. lia.
  - intros j Hj. change (queue_units (release key now i res (s_queue s))) with (queue_units (s_queue s)) in Hj.
    assert (j <> i) as Hne by (intros ->; rewrite elem_of_app in Hj; tauto). rewrite Hu by done.
    apply (inv_live s H). rewrite elem_of_app in Hj |- *. destruct Hj; [by left|right; by apply Hsub].
  - intros j Hj. rewrite Hu; [by apply (inv_waiting s H)|]. intros ->. by apply Hq.
  - intros j Hj. change (leased (mkSys (release key now i res (s_queue s)) (pre ++ post) (i :: s_resolved s) (update (s_retry s) i st)
      (s_cancelled s) (s_leases s)) j) with (leased s j).
    destruct (decide (j = i)) as [->|Hne].
    + rewrite update_eq, Hst. split; [done|]. by apply live_requeues.
    + rewrite Hu by done. apply (inv_out s H). rewrite elem_of_app, elem_of_cons in Hj. rewrite elem_of_app.
      destruct Hj as [Hj|[?|Hj]]; [left; by apply Hsub|done|by right].
  - apply (inv_others s H).
  - unfold queue_throttle_ok. cbn [s_queue release throttle]. pose proof (inv_throttle s H) as Hto. unfold queue_throttle_ok in Hto.
    destruct (throttle (s_queue s)); [|done]. cbn. rewrite E in Hto. by apply throttle_done_ok.
Qed.

Lemma inv_requeue s now pre i post entry attempt last st d res : inv s -> s_holding s = pre ++ i :: post ->
  end_lease serial defaultUnitRetryPolicy requeueable s entry i attempt last = (st, Some d, res) ->
  inv (mkSys (requeue key now i d res (s_queue s)) (pre ++ post) (s_resolved s) (update (s_retry s) i st) (s_cancelled s) (s_leases s)).
Proof.
  intros H E Es. destruct (held_once s pre i post H E) as (Hq & Hpp & Hr & Hl & Hc).
  pose proof (end_lease_live s entry i attempt last st (Some d) res Hl Es) as [Hst1 Hst2].
  assert (forall j, j <> i -> update (s_retry s) i st j = s_retry s j) as Hu by (intros j; apply update_ne).
  assert (forall j, j ∈ pre ++ post -> j ∈ s_holding s) as Hsub by (intros j; rewrite E, !elem_of_app, elem_of_cons; tauto).
  assert (queue_units (requeue key now i d res (s_queue s)) = queue_units (s_queue s) ++ [i]) as Eq.
  { unfold queue_units, requeue. cbn [pending delayed]. by rewrite fmap_app, app_assoc. }
  split; cbn [s_queue s_holding s_resolved s_retry s_leases].
  - rewrite <- (inv_units s H), E, Eq, <- !app_assoc. apply Permutation_app_head. cbn [app].
    rewrite <- Permutation_middle. by rewrite app_assoc.
  - cbn [requeue held]. rewrite (inv_held s H), E, !length_app. cbn [length]. lia.
  - pose proof (inv_workers s H) as Hw. rewrite E, !length_app in *. cbn [length] in Hw. lia.
  - intros j Hj. destruct (decide (j = i)) as [->|Hne]; [by rewrite update_eq|]. rewrite Hu by done. apply (inv_live s H).
    rewrite Eq, elem_of_app, elem_of_app, list_elem_of_singleton in Hj. rewrite elem_of_app.
    destruct Hj as [[Hj|?]|Hj]; [by left|done|right; by apply Hsub].
  - intros j Hj. destruct (decide (j = i)) as [->|Hne]; [rewrite update_eq, Hst2; exact Hc|]. rewrite Hu by done. apply (inv_waiting s H).
    rewrite Eq, elem_of_app, list_elem_of_singleton in Hj. by destruct Hj.
  - intros j Hj. assert (j <> i) as Hne by (intros ->; rewrite elem_of_app in Hj; tauto).
    rewrite Hu by done. apply (inv_out s H). rewrite elem_of_app in Hj |- *. destruct Hj; [left; by apply Hsub|by right].
  - apply (inv_others s H).
  - unfold queue_throttle_ok. cbn [s_queue requeue throttle]. pose proof (inv_throttle s H) as Hto. unfold queue_throttle_ok in Hto.
    destruct (throttle (s_queue s)); [|done]. cbn. rewrite E in Hto. by apply throttle_done_ok.
Qed.

Lemma inv_step s s' : inv s -> qstep s s' -> inv s'.
Proof.
  intros H Hs. destruct Hs as [s now env i q Hw E|s now env q Hw E|s now pre i post entry attempt last st res E _ Es
    |s now pre i post entry attempt last st d res E _ Es|s].
  - by eapply inv_lease.
  - by eapply inv_wait.
  - by eapply inv_end.
  - by eapply inv_requeue.
  - by destruct H.
Qed.

Lemma inv_init t : match t with Some t => throttle_ok key t [] | None => True end -> inv (init units t).
Proof.
  intros Ht. split; cbn [init s_queue s_holding s_resolved s_retry s_leases newUnitQueue held length].
  - unfold queue_units. cbn [pending delayed newUnitQueue fmap list_fmap]. by rewrite !app_nil_r.
  - lia.
  - lia.
  - intros i _. apply fresh_live.
  - done.
  - by intros i ?%elem_of_nil.
  - done.
  - done.
Qed.

Lemma inv_reachable t s : match t with Some t => throttle_ok key t [] | None => True end ->
  reachable key workers serial defaultUnitRetryPolicy requeueable units t s -> inv s.
Proof.
  intros Ht H. unfold reachable in H. pose proof (inv_init t Ht) as H0. induction H as [|x y z Hxy Hyz IH]; [done|].
  apply IH. by eapply inv_step.
Qed.

Definition started (t : option providerThrottle) : Prop := match t with Some t => throttle_ok key t [] | None => True end.

Lemma resolved_in_units s i : inv s -> i ∈ s_resolved s -> i ∈ units.
Proof. intros H Hi. rewrite <- (inv_units s H), !elem_of_app. by right; right. Qed.

(** C26. The pool of workers. In every interleaving of leases, ends, requeues and waits, with
    whatever the attempts answer and wherever the run is cancelled, each unit is at
    every moment in exactly one place: waiting, held by one worker, or resolved; the
    queue's count is that of the held units, never more than the workers; and the
    throttle counts exactly the units held on each lane and each provider, with every
    lane's cap within the ceiling. *)
Theorem queue_conserves (t : option providerThrottle) (s : sys) :
  started t -> reachable key workers serial defaultUnitRetryPolicy requeueable units t s ->
  queue_units (s_queue s) ++ s_holding s ++ s_resolved s ≡ₚ units /\
  NoDup (queue_units (s_queue s) ++ s_holding s ++ s_resolved s) /\
  held (s_queue s) = Z.of_nat (length (s_holding s)) /\ (length (s_holding s) <= workers)%nat /\
  queue_throttle_ok key (s_queue s) (s_holding s).
Proof.
  intros Ht Hr. pose proof (inv_reachable t s Ht Hr) as H. split_and!; [apply H|by apply inv_NoDup|apply H|apply H|apply H].
Qed.

Lemma length_by_keys (l ks : list nat) c : NoDup ks -> (forall j, j ∈ l -> j ∈ ks) ->
  (forall i, holds (fun j => (j =? i)%nat) l <= c) -> Z.of_nat (length l) <= c * Z.of_nat (length ks).
Proof.
  intros Hnd. revert l. induction Hnd as [|k ks Hk _ IH]; intros l Hl Hc.
  { destruct l as [|j l]; [simpl; lia|]. specialize (Hl j ltac:(left)). by apply elem_of_nil in Hl. }
  assert (length l = length (List.filter (fun j => (j =? k)%nat) l) + length (List.filter (fun j => negb (j =? k)%nat) l))%nat as El.
  { clear. induction l as [|j l IH]; [done|]. cbn [List.filter length]. destruct (j =? k)%nat; cbn [negb length]; lia. }
  pose proof (Hc k) as Hck. unfold holds in Hck. cbn [length].
  assert (Z.of_nat (length (List.filter (fun j => negb (j =? k)%nat) l)) <= c * Z.of_nat (length ks)) as H; [|lia].
  apply IH.
  - intros j [Hj Hn]%list_elem_of_In%List.filter_In. apply negb_true_iff, Nat.eqb_neq in Hn. apply list_elem_of_In in Hj.
    apply Hl, elem_of_cons in Hj as [?|?]; done.
  - intros i. specialize (Hc i). unfold holds in *. etrans; [|exact Hc]. apply inj_le. clear.
    induction l as [|j l IH]; [done|]. cbn [List.filter]. destruct (j =? k)%nat eqn:Ek; cbn [negb List.filter];
      destruct (j =? i)%nat; cbn [length]; lia.
Qed.

Lemma leases_are_units s i : inv s -> i ∈ s_leases s -> i ∈ units.
Proof.
  intros H Hi. destruct (decide (i ∈ units)) as [|Hn]; [done|]. pose proof (inv_others s H i Hn) as H0. exfalso.
  unfold leased, holds in H0. assert (List.In i (List.filter (fun j => (j =? i)%nat) (s_leases s))) as Hin.
  { apply List.filter_In. rewrite Nat.eqb_refl. split; [by apply list_elem_of_In|done]. }
  destruct (List.filter _ _); [done|cbn [length] in H0; lia].
Qed.

(** The outer retry ends. A unit waits at most thirty-three times, three of them after
    an attempt that made a call and thirty for an open breaker, so a run of any
    interleaving makes at most thirty-four leases for each unit; and a unit not yet
    resolved has waited no more than ten minutes for its backoffs and thirty for the
    breaker. *)
Theorem leases_bounded (t : option providerThrottle) (s : sys) :
  started t -> reachable key workers serial defaultUnitRetryPolicy requeueable units t s ->
  (forall i, leased s i <= 34) /\ Z.of_nat (length (s_leases s)) <= 34 * Z.of_nat (length units) /\
  (forall i, i ∈ queue_units (s_queue s) ++ s_holding s ->
     calls (s_retry s i) <= 3 /\ circuitWaits (s_retry s i) <= 30 /\
     spent (s_retry s i) <= 600 * second /\ circuitSpent (s_retry s i) <= 1800 * second).
Proof.
  intros Ht Hr. pose proof (inv_reachable t s Ht Hr) as H.
  assert (maxRequeues = 33) as Hm by by vm_compute.
  assert (forall i, leased s i <= 34) as Hl.
  { intros i. destruct (decide (i ∈ units)) as [Hi|Hi]; [|rewrite (inv_others s H i Hi); lia].
    rewrite <- (inv_units s H), elem_of_app in Hi. destruct Hi as [Hi|Hi].
    - rewrite (inv_waiting s H i Hi). assert (live_retry (s_retry s i)) as Hl by (apply (inv_live s H); rewrite elem_of_app; by left).
      apply live_requeues in Hl. lia.
    - destruct (inv_out s H i Hi). lia. }
  split; [done|]. split; [apply (length_by_keys _ _ _ Hunits); [intros j; by apply leases_are_units|exact Hl]|].
  intros i Hi. destruct (inv_live s H i Hi) as (_ & H2 & H3 & H4 & H5 & H6).
  change unitMaxAttempts with 4 in *. change unitBackoffBudget with (600 * second) in *.
  change unitCircuitWaitBudget with (1800 * second) in *. change circuitOpenBackoff with (60 * second) in *. unfold second in *. lia.
Qed.

(** ** Progress *)

Lemma capFor_pos t e k : 1 <= ceiling t -> (forall k, 0 <= limit (lane t k) <= ceiling t) -> 1 <= fst (capFor t e k) <= ceiling t.
Proof.
  intros Hc Hl. specialize (Hl k). unfold capFor. destruct (fst k =? "")%string; [cbn [fst]; lia|]. cbv zeta.
  rewrite go_max_eq. repeat case_match; bool_prop; cbn [fst] in *; Z.to_euclidean_division_equations; lia.
Qed.

(** With nothing in flight every unit is admitted. *)
Lemma idle_admits t e k : throttle_ok key t [] -> lv_admit (verdict t e k) = true.
Proof.
  intros (H1 & H2 & H3 & H4). unfold verdict. destruct (String.eqb_spec (fst k) "") as [E|E]; [done|].
  pose proof (capFor_pos t e k H1 H4) as Hc. destruct (capFor t e k) as [lim thr]. cbn [fst lv_admit] in *.
  rewrite (H2 k E), (H3 (fst k) E). change (holds _ []) with 0. case_bool_decide; [apply Z.ltb_lt; lia|done].
Qed.

Lemma first_at_spec p l n : first_at p l = Some n -> exists i, l !! n = Some i /\ p i = true.
Proof.
  unfold first_at. destruct (list_find _ l) as [[m i]|] eqn:E; [|done]. intros [= <-]. apply list_find_Some in E as (? & ? & _). by exists i.
Qed.

Lemma pick_Some t env l n : pick key t env l = Some n -> exists i, l !! n = Some i /\ lv_admit (unit_verdict key t env i) = true.
Proof.
  unfold pick. rewrite pick_loop_eq. assert (forall o : option nat, Nat.add 0 <$> o = o) as H by (intros [x|]; reflexivity).
  rewrite !H. destruct (first_at (wins_probe key t env) l) as [m|] eqn:E1.
  - intros E. assert (m = n) as -> by (destruct ((_ ∪ _) ∪ _); by injection E). apply first_at_spec in E1 as (i & ? & [? _]%andb_true_iff). by exists i.
  - destruct (first_at (wins_healthy key t env) l) as [m|] eqn:E2.
    + intros E. assert (m = n) as -> by (destruct (first_at (wins_any key t env) l); by injection E).
      apply first_at_spec in E2 as (i & ? & [? _]%andb_true_iff). by exists i.
    + intros E. assert (first_at (wins_any key t env) l = Some n) as E3 by (by destruct (first_at (wins_any key t env) l)).
      apply first_at_spec in E3 as (i & ? & ?). by exists i.
Qed.

Lemma pick_None t env l : pick key t env l = None -> forall i, i ∈ l -> lv_admit (unit_verdict key t env i) = false.
Proof.
  unfold pick. rewrite pick_loop_eq. assert (forall o : option nat, Nat.add 0 <$> o = o) as H by (intros [x|]; reflexivity).
  rewrite !H. intros E i Hi. destruct (first_at (wins_any key t env) l) as [m|] eqn:E3.
  { by destruct (first_at (wins_probe key t env) l), (first_at (wins_healthy key t env) l). }
  unfold first_at in E3. destruct (list_find _ l) as [[? ?]|] eqn:Ef; [done|].
  apply list_find_None in Ef. rewrite Forall_forall in Ef. specialize (Ef i Hi). unfold wins_any in Ef. by apply not_true_iff_false.
Qed.

Lemma take_idle all env q : pending q <> [] -> queue_throttle_ok key q [] -> exists i q', take key all env q = Some (i, q').
Proof.
  intros Hp Ht. unfold take, queue_throttle_ok in *.
  assert (exists n i, (match throttle q with Some t => if all then Some O else pick key t env (pending q) | None => Some O end) = Some n
    /\ pending q !! n = Some i) as (n & i & -> & E).
  { destruct (pending q) as [|i l] eqn:El; [done|]. destruct (throttle q) as [t|]; [|by exists O, i]. destruct all; [by exists O, i|].
    destruct (pick key t env (i :: l)) as [n|] eqn:E.
    - exists n. destruct (pick_Some _ _ _ _ E) as (j & ? & _). by exists j.
    - pose proof (pick_None t env _ E i ltac:(left)) as H. unfold unit_verdict in H. by rewrite idle_admits in H. }
  cbn [mbind option_bind]. rewrite E. cbn [mbind option_bind]. by do 2 eexists.
Qed.

Lemma take_empty all env q : pending q = [] -> take key all env q = None.
Proof. unfold take. intros ->. by destruct (throttle q) as [t|]; [destruct all|]. Qed.

(** A unit is pending once the instants up to [now] have passed. *)
Definition ready_by (now : Z) (s : sys) : Prop :=
  pending (s_queue s) <> [] \/ exists d, d ∈ delayed (s_queue s) /\ (s_cancelled s = true \/ snd d <= now).

Lemma promote_ready now s : pending (promote (s_cancelled s) now (s_queue s)) <> [] <-> ready_by now s.
Proof.
  unfold promote, ready_by. cbn [pending]. destruct (pending (s_queue s)) as [|i l]; [|split; [by left|done]].
  cbn [app]. transitivity (List.filter (fun d => s_cancelled s || negb (now <? snd d)) (delayed (s_queue s)) <> []).
  { by destruct (List.filter _ _). }
  split.
  - intros H. right. destruct (List.filter _ _) as [|d l] eqn:E; [done|].
    assert (List.In d (d :: l)) as Hd by (by left). rewrite <- E in Hd. apply List.filter_In in Hd as [Hd Hr].
    exists d. split; [by apply list_elem_of_In|]. apply orb_true_iff in Hr as [?|Hr]; [by left|right]. bool_prop. lia.
  - intros [?|(d & Hd & Hr)]; [done|]. intros E. apply list_elem_of_In in Hd.
    assert (List.In d []) as []. rewrite <- E. apply List.filter_In. split; [done|].
    apply orb_true_iff. destruct Hr as [?|Hr]; [by left|right]. apply negb_true_iff, Z.ltb_ge. lia.
Qed.

Lemma resolved_all s : inv s -> s_resolved s ≡ₚ units -> queue_units (s_queue s) = [] /\ s_holding s = [].
Proof.
  intros H Hp. pose proof (inv_units s H) as Hu. apply Permutation_length in Hp, Hu. rewrite !length_app in Hu.
  split; apply nil_length_inv; lia.
Qed.

(** C27. The queue never wedges and ends on time. At every instant, whatever the breakers
    answer and however far the caps have been lowered: a worker is told the queue is
    drained exactly when every unit is resolved; and while no unit is held, a worker
    leases one exactly when one is pending or one waiting out a backoff is due by then or
    the run is cancelled, so it leases at the earliest ready time and not before. *)
Theorem queue_progress (t : option providerThrottle) (s : sys) :
  started t -> reachable key workers serial defaultUnitRetryPolicy requeueable units t s ->
  forall now env,
  let pass := lease_pass key (s_cancelled s) now env (s_queue s) in
  (pass = Drained <-> s_resolved s ≡ₚ units) /\
  (s_holding s = [] -> (exists i q, pass = Leased i q) <-> ready_by now s).
Proof.
  intros Ht Hr now env. pose proof (inv_reachable t s Ht Hr) as H. cbv zeta. split; [split|].
  - intros E. pose proof (lease_pass_spec key (s_cancelled s) now env (s_queue s)) as Hl. rewrite E in Hl.
    destruct Hl as [Hq Hh]. rewrite (inv_held s H) in Hh. pose proof (inv_units s H) as Hu. rewrite Hq in Hu.
    assert (s_holding s = []) as Hn by (apply nil_length_inv; lia). by rewrite Hn in Hu.
  - intros Hp. destruct (resolved_all s H Hp) as [Hq Hn].
    assert (queue_units (promote (s_cancelled s) now (s_queue s)) = []) as E.
    { apply Permutation_nil_r. by rewrite promote_units, Hq. }
    apply app_nil in E as [E1 E2%fmap_nil_inv]. unfold lease_pass. rewrite take_empty, E1, E2 by done.
    cbn [promote held]. by rewrite (inv_held s H), Hn.
  - intros Hh. rewrite <- promote_ready. unfold lease_pass. split.
    + intros (i & q & E) Hp. rewrite take_empty in E by done. by destruct (_ && _).
    + intros Hp. destruct (take_idle (s_cancelled s) env _ Hp) as (i & q & E).
      { pose proof (inv_throttle s H) as Hto. rewrite Hh in Hto. exact Hto. }
      rewrite E. by do 2 eexists.
Qed.

(** The caps. On a run not cancelled, a unit is leased only below its lane's cap, as
    counted by the units really held, while the breaker reads closed, and only while
    the provider holds none of its units on any lane while it does not; the cap is
    between one and the ceiling, one when the breaker does not read closed, and at most
    half the ceiling, or one, during a window opened by consecutive server failures. *)
Theorem lease_respects_caps (t0 : option providerThrottle) (s : sys) (now : Z) (env : leaseKey -> reads) (i : nat) (q : unitQueue)
    (t : providerThrottle) :
  started t0 -> reachable key workers serial defaultUnitRetryPolicy requeueable units t0 s ->
  s_cancelled s = false -> throttle (s_queue s) = Some t -> fst (key i) <> "" ->
  lease_pass key false now env (s_queue s) = Leased i q ->
  let e := env (key i) in
  let cap := fst (capFor t e (key i)) in
  1 <= cap <= ceiling t /\
  (read_state e = StateClosed -> holds (on_lane key (key i)) (s_holding s) < cap) /\
  (read_state e <> StateClosed -> holds (on_provider key (fst (key i))) (s_holding s) = 0) /\
  (read_cap e <> StateClosed -> cap = 1) /\
  (read_now e < serverUntil (lane t (key i)) -> cap = 1 \/ 2 * cap <= ceiling t).
Proof.
  intros Ht Hr Hc Hq Hk E e cap. pose proof (inv_reachable t0 s Ht Hr) as H. pose proof (inv_throttle s H) as Hto.
  unfold queue_throttle_ok in Hto. rewrite Hq in Hto. destruct Hto as (H1 & H2 & H3 & H4).
  pose proof (capFor_pos t e (key i) H1 H4) as Hcap. fold cap in Hcap.
  assert (lv_admit (verdict t e (key i)) = true) as Ha.
  { unfold lease_pass in E. destruct (take key false env _) as [[j q1]|] eqn:Et; [|by destruct (_ && _)].
    injection E as -> _. unfold take in Et. cbn [promote throttle] in Et. rewrite Hq in Et.
    destruct (pick key t env _) as [n|] eqn:Ep; [|done]. cbn [mbind option_bind] in Et.
    destruct (pick_Some _ _ _ _ Ep) as (j & Ej & Ha). rewrite Ej in Et. cbn in Et. by injection Et as -> _. }
  unfold verdict in Ha. rewrite (proj2 (String.eqb_neq _ _)) in Ha by done.
  assert (cap = fst (capFor t e (key i))) as Ecap by done. destruct (capFor t e (key i)) as [lim thr] eqn:Ec. cbn [fst lv_admit] in *.
  split; [done|]. rewrite (H2 _ Hk), (H3 _ Hk) in Ha. split_and!.
  - intros Hs. rewrite bool_decide_true in Ha by done. apply Z.ltb_lt in Ha. lia.
  - intros Hs. rewrite bool_decide_false in Ha by done. apply Z.ltb_lt in Ha. pose proof (holds_nonneg (on_provider key (fst (key i))) (s_holding s)). lia.
  - intros Hs. unfold capFor in Ec. rewrite (proj2 (String.eqb_neq _ _)) in Ec by done. rewrite bool_decide_false in Ec by done.
    injection Ec as <- _. done.
  - intros Hn. unfold capFor in Ec. rewrite (proj2 (String.eqb_neq _ _)) in Ec by done. specialize (H4 (key i)).
    rewrite (proj2 (Z.ltb_lt _ _)) in Ec by done. rewrite go_max_eq in Ec. rewrite Ecap. revert Ec.
    repeat case_match; intros [= <- _]; bool_prop; cbn [fst] in *; Z.to_euclidean_division_equations; lia.
Qed.

(** ** What a run promises of each unit *)

(** A unit waits, runs, or is done; [n] is how often it may still be put back. *)
Inductive phase := PWaiting (n : nat) | PRunning (n : nat) | PDone.

(** The specification: units start one at a time, are put back a bounded number of times,
    and finish once. *)
Inductive spec_step (f f' : nat -> phase) : Prop :=
  | spec_start i n : f i = PWaiting n -> (forall j, f' j = update f i (PRunning n) j) -> spec_step f f'
  | spec_put_back i n : f i = PRunning (S n) -> (forall j, f' j = update f i (PWaiting n) j) -> spec_step f f'
  | spec_finish i n : f i = PRunning n -> (forall j, f' j = update f i PDone j) -> spec_step f f'
  | spec_stutter : (forall j, f' j = f j) -> spec_step f f'.

Definition put_backs (st : unitRetryState) : nat := Z.to_nat (maxRequeues - requeues st).
Definition phase_of (s : sys) (i : nat) : phase :=
  if bool_decide (i ∈ s_resolved s) then PDone
  else if bool_decide (i ∈ s_holding s) then PRunning (put_backs (s_retry s i))
  else PWaiting (put_backs (s_retry s i)).

Lemma phase_lease s now env i q : inv s -> lease_pass key (s_cancelled s) now env (s_queue s) = Leased i q ->
  spec_step (phase_of s) (phase_of (mkSys q (i :: s_holding s) (s_resolved s) (s_retry s) (s_cancelled s) (s_leases s ++ [i]))).
Proof.
  intros H E. pose proof (lease_pass_spec key (s_cancelled s) now env (s_queue s)) as Hl. rewrite E in Hl.
  destruct Hl as (Hp & _). pose proof (inv_NoDup s H) as Hnd. rewrite Hp in Hnd. cbn [app] in Hnd.
  apply NoDup_cons in Hnd as [Hi _]. rewrite !elem_of_app in Hi. apply (spec_start _ _ i (put_backs (s_retry s i))).
  - unfold phase_of. rewrite !bool_decide_false by tauto. done.
  - intros j. unfold phase_of, update. cbn [s_resolved s_holding s_retry]. destruct (Nat.eqb_spec j i) as [->|Hne].
    + rewrite bool_decide_false by tauto. rewrite bool_decide_true by left. done.
    + do 2 f_equal. rewrite (bool_decide_ext (j ∈ i :: s_holding s) (j ∈ s_holding s)); [done|]. rewrite elem_of_cons. tauto.
Qed.

Lemma phase_held s pre i post : inv s -> s_holding s = pre ++ i :: post -> phase_of s i = PRunning (put_backs (s_retry s i)).
Proof.
  intros H E. destruct (held_once s pre i post H E) as (_ & _ & Hr & _). unfold phase_of. rewrite bool_decide_false by done.
  rewrite bool_decide_true; [done|]. rewrite E, elem_of_app. right. left.
Qed.

Lemma phase_others s pre i post j q r st : inv s -> s_holding s = pre ++ i :: post -> j <> i ->
  (j ∈ r <-> j ∈ s_resolved s) ->
  phase_of (mkSys q (pre ++ post) r (update (s_retry s) i st) (s_cancelled s) (s_leases s)) j = phase_of s j.
Proof.
  intros H E Hne Hr. unfold phase_of. cbn [s_resolved s_holding s_retry]. rewrite update_ne by done.
  rewrite (bool_decide_ext _ _ Hr), (bool_decide_ext (j ∈ pre ++ post) (j ∈ s_holding s)); [done|].
  rewrite E, !elem_of_app, elem_of_cons. tauto.
Qed.

(** C25. Refinement. Every step of the pool is a step of the specification, or changes no
    unit's phase: a unit runs on one worker at a time, is put back at most thirty-three
    times, and once done is never run again. *)
Theorem queue_refines (t : option providerThrottle) (s s' : sys) :
  started t -> reachable key workers serial defaultUnitRetryPolicy requeueable units t s -> qstep s s' ->
  spec_step (phase_of s) (phase_of s').
Proof.
  intros Ht Hr Hs. pose proof (inv_reachable t s Ht Hr) as H.
  destruct Hs as [s now env i q Hw E|s now env q Hw E|s now pre i post entry attempt last st res E _ Es
    |s now pre i post entry attempt last st d res E _ Es|s].
  - by eapply phase_lease.
  - by apply spec_stutter.
  - apply (spec_finish _ _ i (put_backs (s_retry s i))); [by eapply phase_held|]. intros j. unfold update at 2.
    destruct (Nat.eqb_spec j i) as [->|Hne].
    + unfold phase_of. cbn [s_resolved]. rewrite bool_decide_true; [done|left].
    + eapply phase_others; [done..|]. rewrite elem_of_cons. tauto.
  - destruct (held_once s pre i post H E) as (_ & Hpp & Hres & Hl & _).
    destruct (end_lease_live s entry i attempt last st (Some d) res Hl Es) as [Hl' Hst].
    apply (spec_put_back _ _ i (put_backs st)).
    + rewrite (phase_held s pre i post H E). f_equal. apply live_requeues in Hl, Hl'. unfold put_backs. lia.
    + intros j. unfold update at 2. destruct (Nat.eqb_spec j i) as [->|Hne]; [|by eapply phase_others].
      unfold phase_of. cbn [s_resolved s_holding s_retry]. rewrite update_eq. by rewrite !bool_decide_false.
  - by apply spec_stutter.
Qed.
End reach.

(** ** Examples and witnesses *)

(** Three units on one lane, two workers. *)
Definition sample_key (i : nat) : leaseKey := ("proxy", "model").
Definition sample_throttle : option providerThrottle := Some (newProviderThrottle 2).
Definition closed : leaseKey -> reads := fun _ => mkReads 0 StateClosed StateClosed.
Definition sample_init : sys := init [0; 1; 2]%nat sample_throttle.
Definition sample_leased (q : unitQueue) : sys := mkSys q [0%nat] [] (fun _ => fresh_retry) false [0%nat].
Definition sample_queue : unitQueue :=
  match lease_pass sample_key false 0 closed (s_queue sample_init) with Leased _ q => q | _ => s_queue sample_init end.
Abbreviation sample_step := (step sample_key 2 false defaultUnitRetryPolicy (fun _ => true)).

Lemma sample_started : started sample_key sample_throttle.
Proof. apply newProviderThrottle_ok. Qed.

Lemma sample_first : sample_step sample_init (sample_leased sample_queue).
Proof. apply (step_lease sample_key 2 false defaultUnitRetryPolicy (fun _ => true) sample_init 0 closed 0%nat); [simpl; lia|by vm_compute]. Qed.

Lemma sample_NoDup : NoDup [0; 1; 2]%nat.
Proof. apply (bool_decide_eq_true_1 _). by vm_compute. Qed.

Lemma sample_reachable : reachable sample_key 2 false defaultUnitRetryPolicy (fun _ => true) [0; 1; 2]%nat sample_throttle
  (sample_leased sample_queue).
Proof. apply rtc_once, sample_first. Qed.

Lemma queue_conserves_witness :
  NoDup [0; 1; 2]%nat /\ started sample_key sample_throttle /\
  queue_units sample_queue ++ [0%nat] ++ [] ≡ₚ [0; 1; 2]%nat.
Proof.
  split; [exact sample_NoDup|]. split; [exact sample_started|].
  exact (proj1 (queue_conserves sample_key 2 false (fun _ => true) _ sample_NoDup _ _ sample_started sample_reachable)).
Defined.

Lemma leases_bounded_witness : NoDup [0; 1; 2]%nat /\ started sample_key sample_throttle /\
  (forall i, leased (sample_leased sample_queue) i <= 34).
Proof.
  split; [exact sample_NoDup|]. split; [exact sample_started|].
  exact (proj1 (leases_bounded sample_key 2 false (fun _ => true) _ sample_NoDup _ _ sample_started sample_reachable)).
Defined.

Lemma queue_progress_witness : NoDup [0; 1; 2]%nat /\ started sample_key sample_throttle /\
  (forall now env, lease_pass sample_key (s_cancelled sample_init) now env (s_queue sample_init) = Drained <->
     s_resolved sample_init ≡ₚ [0; 1; 2]%nat) /\
  (forall now env, (exists i q, lease_pass sample_key (s_cancelled sample_init) now env (s_queue sample_init) = Leased i q) <->
     ready_by now sample_init).
Proof.
  split; [exact sample_NoDup|]. split; [exact sample_started|].
  pose proof (queue_progress sample_key 2 false (fun _ => true) [0; 1; 2]%nat sample_NoDup _ sample_init sample_started (rtc_refl _ _)) as H.
  split; intros now env; [apply (H now env)|by apply (H now env)].
Defined.

Lemma lease_respects_caps_witness :
  exists t q, throttle (s_queue (sample_leased sample_queue)) = Some t /\
    lease_pass sample_key false 5 closed (s_queue (sample_leased sample_queue)) = Leased 1 q /\
    1 <= fst (capFor t (closed (sample_key 1)) (sample_key 1)) <= ceiling t.
Proof.
  do 2 eexists. split; [reflexivity|]. split; [by vm_compute|].
  refine (proj1 (lease_respects_caps sample_key 2 false (fun _ => true) [0; 1; 2]%nat sample_NoDup _ _ 5 closed 1 _ _
    sample_started sample_reachable eq_refl eq_refl _ _)); by vm_compute.
Defined.

Lemma queue_refines_witness : NoDup [0; 1; 2]%nat /\ started sample_key sample_throttle /\
  spec_step (phase_of sample_init) (phase_of (sample_leased sample_queue)).
Proof.
  split; [exact sample_NoDup|]. split; [exact sample_started|].
  exact (queue_refines sample_key 2 false (fun _ => true) _ sample_NoDup _ _ _ sample_started (rtc_refl _ _) sample_first).
Defined.
