(* ===== verification/Chunker.v ===== *)
(** * The diff chunker and the chunk framing of review.md

    src/internal/fanout/chunker.go: the split of a diff into files, the packing of files
    into chunks, and the delimiter that joins the outputs of several chunks;
    src/internal/fanout/artifacts.go [agentReviewContent]; and the readers of that
    framing in src/internal/reconcile/justification.go, which find the segment of a chunk
    again. Diffs are byte strings; the joined output is read line by line. *)

From Stdlib Require Import Ascii String.
From stdpp Require Import prelude strings gmap list.
From Stdlib Require Import ZArith Lia.
From S2P Require Import Prelude GoString Stream.

Open Scope string_scope.
Open Scope list_scope.
Open Scope nat_scope.

(** ** Lines *)

Definition lf : ascii := byte_of 10.

(** [strings.SplitAfter(s, "\n")]. *)
Fixpoint split_after (l : bytes) : list bytes :=
  match l with
  | [] => [[]]
  | c :: l' =>
      if Ascii.eqb c lf then [c] :: split_after l'
      else match split_after l' with x :: xs => (c :: x) :: xs | [] => [[c]] end
  end.

Definition isDiffFileMarker (ln : bytes) : bool :=
  is_prefix (to_bytes "diff --git ") ln || is_prefix (to_bytes "diff --cc ") ln ||
  is_prefix (to_bytes "diff --combined ") ln || is_prefix (to_bytes "=== FILE: ") ln ||
  is_prefix (to_bytes "[deleted file: ") ln || is_prefix (to_bytes "[binary file changed: ") ln.

Definition hasGitDiffMarker (diff : bytes) : bool :=
  existsb (fun ln => is_prefix (to_bytes "diff --git ") ln || is_prefix (to_bytes "diff --cc ") ln ||
                     is_prefix (to_bytes "diff --combined ") ln) (split_after diff).

Definition is_lf (c : ascii) : bool := Ascii.eqb c lf.

(** [strings.HasSuffix(s, "\n")]. *)
Definition ends_lf (s : bytes) : bool := match last s with Some c => is_lf c | None => false end.

Definition countLines (s : bytes) : nat :=
  if bool_decide (s = []) then 0
  else
    let n := length (filter (fun c => is_lf c = true) s) in
    if ends_lf s then n else S n.

Fixpoint prefix_lines (i : nat) (lines : list bytes) : nat :=
  match lines with
  | [] => 0
  | ln :: lines' => if isDiffFileMarker ln then i else prefix_lines (S i) lines'
  end.
Definition diffPrefixLines (chunk : bytes) : nat := prefix_lines 0 (split_after chunk).

Definition countDiffFiles (diff : bytes) : nat :=
  if bool_decide (diff = []) then 0 else length (filter (fun ln => isDiffFileMarker ln = true) (split_after diff)).

(** The loop of [splitDiffFiles]: segments, the current one, whether a marker was seen. *)
Definition seg_step (st : list bytes * bytes * bool) (ln : bytes) : list bytes * bytes * bool :=
  let '(segments, cur, started) := st in
  let '(segments, cur) := if isDiffFileMarker ln && started then (segments ++ [cur], []) else (segments, cur) in
  (segments, cur ++ ln, if isDiffFileMarker ln then true else started).
Definition splitDiffFiles (diff : bytes) : list bytes :=
  if bool_decide (diff = []) then []
  else
    let '(segments, cur, _) := foldl seg_step ([], [], false) (split_after diff) in
    if 0 <? length cur then segments ++ [cur] else segments.

Definition maxChunksPerAgent : nat := 64.

Definition pack_step (maxLines : Z) (st : list bytes * bytes * nat) (f : bytes) : list bytes * bytes * nat :=
  let '(chunks, cur, curLines) := st in
  let fl := countLines f in
  let '(chunks, cur, curLines) :=
    if (0 <? length cur) && (maxLines <? Z.of_nat (curLines + fl))%Z && (length chunks <? maxChunksPerAgent - 1)
    then (chunks ++ [cur], [], 0) else (chunks, cur, curLines) in
  (chunks, cur ++ f, curLines + fl).
Definition chunkDiff (diff : bytes) (maxLines : Z) : list bytes :=
  if bool_decide (diff = []) then []
  else
    let files := splitDiffFiles diff in
    if (maxLines <=? 0)%Z || (length files <=? 1) then [diff]
    else
      let '(chunks, cur, _) := foldl (pack_step maxLines) ([], [], 0) files in
      if 0 <? length cur then chunks ++ [cur] else chunks.

(** ** The chunk framing *)

Definition chunkBoundaryLine : string := "<!-- atcr:chunk-boundary -->".
Definition neutral : string := "<!-- atcr:chunk-boundary (model-issued copy; not a chunk delimiter) -->".

Definition neutraliseChunkBoundary (content : string) : string :=
  if negb (Contains content chunkBoundaryLine) then content
  else Join ((fun ln => if (ln =? chunkBoundaryLine)%string then neutral else ln) <$> Split content LF) LF.

Definition joinChunkContents (contents : list string) : string :=
  let neutralised := neutraliseChunkBoundary <$> contents in
  if length neutralised <? 2 then Join neutralised LF
  else Join neutralised (LF +:+ chunkBoundaryLine +:+ LF).

(** artifacts.go: [chunkContents] is nil for an unchunked result. *)
Definition agentReviewContent (content : string) (chunkContents : option (list string)) : string :=
  match chunkContents with None => neutraliseChunkBoundary content | Some _ => content end.

(** ** reconcile/justification.go *)

(** [salvagedSegmentLines]: [seg], [start] and the lines excluded so far. *)
Definition salvage_step (lines : list string) (refused : gset Z) (st : nat * nat * gset nat) (i : nat) : nat * nat * gset nat :=
  let '(seg, start, out) := st in
  match lines !! i with
  | Some ln =>
      if (ln =? chunkBoundaryLine)%string
      then (S seg, S i, if decide (Z.of_nat seg ∈ refused) then out ∪ list_to_set (seq start (i - start)) else out)
      else st
  | None => (S seg, S i, if decide (Z.of_nat seg ∈ refused) then out ∪ list_to_set (seq start (i - start)) else out)
  end.
Definition salvagedSegmentLines (lines : list string) (bins : list Z) : gset nat * bool :=
  if bool_decide (bins = []) then (∅, false)
  else
    let refused : gset Z := list_to_set bins in
    let '(seg, _, out) := foldl (salvage_step lines refused) (0, 0, ∅) (seq 0 (S (length lines))) in
    if bool_decide (set_Exists (fun b => b < 0 \/ Z.of_nat seg <= b)%Z refused) then (∅, true) else (out, false).

Fixpoint bound_below (lines : list string) (i : nat) : option nat :=
  match i with
  | O => None
  | S k => match lines !! k with
           | Some ln => if (ln =? chunkBoundaryLine)%string then Some (S k) else bound_below lines k
           | None => bound_below lines k
           end
  end.
Fixpoint bound_above (lines : list string) (i : nat) : option nat :=
  match lines with
  | [] => None
  | ln :: lines' => if (ln =? chunkBoundaryLine)%string then Some i else bound_above lines' (S i)
  end.
Definition chunkSegmentBounds (lines : list string) (idx : nat) : nat * nat * bool :=
  let lo := bound_below lines idx in
  let hi := bound_above (drop (S idx) lines) (S idx) in
  (default 0 lo, default (length lines) hi, match lo, hi with None, None => false | _, _ => true end).

(** ** Lines *)

(** A line with its line feed. *)
Definition is_line (p : bytes) : Prop := exists q, p = q ++ [lf] /\ lf ∉ q.

Lemma split_after_lacks l : lf ∉ l -> split_after l = [l].
Proof.
  induction l as [|c l IH]; intros H; [done|]. apply not_elem_of_cons in H as [Hc H]. cbn [split_after].
  rewrite (proj2 (Ascii.eqb_neq c lf)) by done. by rewrite IH.
Qed.

Lemma split_after_line p l : is_line p -> split_after (p ++ l) = p :: split_after l.
Proof.
  intros (q & -> & Hq). rewrite <- app_assoc. cbn [app]. induction q as [|c q IH].
  - cbn [app split_after]. by rewrite Ascii.eqb_refl.
  - apply not_elem_of_cons in Hq as [Hc Hq]. cbn [app split_after]. rewrite (proj2 (Ascii.eqb_neq c lf)) by done.
    by rewrite IH.
Qed.

Lemma split_after_lines ls r : Forall is_line ls -> lf ∉ r -> split_after (mjoin ls ++ r) = ls ++ [r].
Proof.
  intros H Hr. induction H as [|p ls Hp Hls IH]; [by apply split_after_lacks|].
  cbn [mjoin list_join]. rewrite <- app_assoc, split_after_line by done. cbn [app]. f_equal. exact IH.
Qed.

(** Every text is lines and a rest without a line feed. *)
Lemma lines_of l : exists ls r, l = mjoin ls ++ r /\ Forall is_line ls /\ lf ∉ r.
Proof.
  induction l as [|c l (ls & r & -> & Hls & Hr)]; [exists [], []; repeat split; [constructor|apply not_elem_of_nil]|].
  destruct (decide (c = lf)) as [->|Hc].
  - exists ([lf] :: ls), r. split; [done|]. split; [|done]. constructor; [|done]. exists []. split; [done|apply not_elem_of_nil].
  - destruct ls as [|p ls].
    + exists [], (c :: r). repeat split; [constructor|]. by apply not_elem_of_cons.
    + apply Forall_cons in Hls as [(q & -> & Hq) Hls]. exists ((c :: q ++ [lf]) :: ls), r. split; [done|]. split; [|done].
      constructor; [|done]. exists (c :: q). split; [done|]. by apply not_elem_of_cons.
Qed.

Lemma is_line_ends p : is_line p -> ends_lf p = true.
Proof. intros (q & -> & _). unfold ends_lf. rewrite last_snoc. by apply Ascii.eqb_eq. Qed.

Lemma ends_lf_app x y : y <> [] -> ends_lf (x ++ y) = ends_lf y.
Proof.
  intros Hy. unfold ends_lf. destruct y as [|c y _] using rev_ind; [done|]. by rewrite app_assoc, !last_snoc.
Qed.

(** Text that ends with a line. *)
Definition whole_lines (l : bytes) : Prop := exists ls, l = mjoin ls /\ Forall is_line ls.

Lemma whole_lines_app x y : whole_lines x -> whole_lines y -> whole_lines (x ++ y).
Proof. intros (a & -> & Ha) (b & -> & Hb). exists (a ++ b). rewrite mjoin_app. split; [done|by apply Forall_app]. Qed.

Lemma whole_lines_mjoin ls : Forall whole_lines ls -> whole_lines (mjoin ls).
Proof. induction 1; [by exists []|by apply whole_lines_app]. Qed.

Lemma whole_lines_ends x : whole_lines x -> x = [] \/ ends_lf x = true.
Proof.
  intros (ls & -> & H). destruct ls as [|p ls _] using rev_ind; [by left|right].
  apply Forall_app in H as [_ [Hp _]%Forall_cons]. rewrite mjoin_app. cbn. rewrite app_nil_r.
  rewrite ends_lf_app; [by apply is_line_ends|]. destruct Hp as (q & -> & _). by destruct q.
Qed.

Lemma countLines_app x y : whole_lines x -> countLines (x ++ y) = countLines x + countLines y.
Proof.
  intros Hx. destruct (whole_lines_ends x Hx) as [->|He]; [done|].
  destruct y as [|c y]; [rewrite app_nil_r; cbn [countLines]; unfold countLines at 3; cbn; lia|].
  unfold countLines. rewrite (bool_decide_eq_false_2 (x ++ c :: y = [])) by (by destruct x).
  rewrite (bool_decide_eq_false_2 (x = [])) by (by intros ->). rewrite (bool_decide_eq_false_2 (c :: y = [])) by done.
  rewrite ends_lf_app by done. rewrite He, filter_app, length_app. destruct (ends_lf (c :: y)); lia.
Qed.

Lemma countLines_mjoin ls r : Forall whole_lines ls -> countLines (mjoin ls ++ r) = sum_list (countLines <$> ls) + countLines r.
Proof.
  induction 1 as [|x ls Hx Hls IH]; [done|]. change (mjoin (x :: ls)) with (x ++ mjoin ls).
  rewrite <- app_assoc, countLines_app by done. rewrite IH.
  change (sum_list (countLines <$> x :: ls)) with (countLines x + sum_list (countLines <$> ls)). lia.
Qed.

Lemma isDiffFileMarker_nil : isDiffFileMarker [] = false.
Proof. done. Qed.

Lemma countDiffFiles_eq l : countDiffFiles l = length (filter (fun ln => isDiffFileMarker ln = true) (split_after l)).
Proof. unfold countDiffFiles. case_bool_decide; [by subst|done]. Qed.

Lemma countDiffFiles_lines ls : Forall is_line ls ->
  countDiffFiles (mjoin ls) = length (filter (fun ln => isDiffFileMarker ln = true) ls).
Proof.
  intros H. rewrite countDiffFiles_eq, <- (app_nil_r (mjoin ls)), split_after_lines by (done || apply not_elem_of_nil).
  rewrite filter_app. cbn. by rewrite app_nil_r.
Qed.

Lemma countDiffFiles_app x y : whole_lines x -> countDiffFiles (x ++ y) = countDiffFiles x + countDiffFiles y.
Proof.
  intros (ls & -> & H). rewrite (countDiffFiles_lines ls H), !countDiffFiles_eq.
  destruct (lines_of y) as (ls' & r & -> & H' & Hr). rewrite app_assoc, <- mjoin_app.
  rewrite !split_after_lines by (done || by apply Forall_app). by rewrite <- app_assoc, filter_app, length_app.
Qed.

Lemma countDiffFiles_mjoin ls r : Forall whole_lines ls ->
  countDiffFiles (mjoin ls ++ r) = sum_list (countDiffFiles <$> ls) + countDiffFiles r.
Proof.
  induction 1 as [|x ls Hx Hls IH]; [done|]. change (mjoin (x :: ls)) with (x ++ mjoin ls).
  rewrite <- app_assoc, countDiffFiles_app by done. rewrite IH.
  change (sum_list (countDiffFiles <$> x :: ls)) with (countDiffFiles x + sum_list (countDiffFiles <$> ls)). lia.
Qed.

(** ** Files of a diff *)

Lemma mjoin_snoc_inv {A} (P : A -> Prop) (gs : list (list A)) a z :
  mjoin gs = a ++ [z] -> Forall (fun g => g <> []) gs -> Forall P a ->
  exists gs0 b, gs = gs0 ++ [b ++ [z]] /\ Forall (Forall P) gs0 /\ Forall P b.
Proof.
  intros E Hn Ha. destruct gs as [|g gs _] using rev_ind; [by destruct a|].
  apply Forall_app in Hn as [_ [Hg _]%Forall_cons]. destruct g as [|y b _] using rev_ind; [done|].
  rewrite mjoin_app in E. cbn in E. rewrite app_nil_r, app_assoc in E. apply app_inj_tail in E as [<- ->].
  apply Forall_app in Ha as [H1 H2]. exists gs, b. split; [done|]. split; [|done].
  clear -H1. induction gs as [|g gs IH]; [constructor|]. change (mjoin (g :: gs)) with (g ++ mjoin gs) in H1.
  apply Forall_app in H1 as [? ?]. constructor; [done|by apply IH].
Qed.

Lemma mjoin_mjoin {A} (gs : list (list (list A))) : mjoin (mjoin (M:=list) <$> gs) = mjoin (mjoin gs).
Proof.
  induction gs as [|g gs IH]; [done|]. change (mjoin (g :: gs)) with (g ++ mjoin gs). rewrite mjoin_app. cbn. f_equal. exact IH.
Qed.

Definition markers (g : list bytes) : list bytes := filter (fun ln => isDiffFileMarker ln = true) g.
Definition starts_file (g : list bytes) : Prop := exists m t, g = m :: t /\ isDiffFileMarker m = true.

Lemma starts_file_snoc g x : starts_file g -> starts_file (g ++ [x]).
Proof. intros (m & t & -> & H). by exists m, (t ++ [x]). Qed.

Lemma markers_snoc g x : markers (g ++ [x]) = markers g ++ (if isDiffFileMarker x then [x] else []).
Proof. unfold markers. rewrite filter_app, filter_cons. case_decide as Hd; [by rewrite Hd|]. by destruct (isDiffFileMarker x). Qed.

Definition seg_inv (done : list bytes) (st : list bytes * bytes * bool) : Prop :=
  exists gs cg, st.1 = (mjoin <$> gs, mjoin cg) /\ done = mjoin gs ++ cg /\
    (if st.2 then Forall (fun g => length (markers g) = 1) (gs ++ [cg]) else gs = [] /\ markers cg = []) /\
    Forall starts_file (tail (gs ++ [cg])).

Lemma seg_step_inv done x st : seg_inv done st -> seg_inv (done ++ [x]) (seg_step st x).
Proof.
  destruct st as [[segs cur] started]. intros (gs & cg & [= -> ->] & -> & Hm & Ht). cbn [snd] in Hm. unfold seg_step.
  assert (forall y, mjoin cg ++ y = mjoin (cg ++ [y])) as Hj by (intros y; rewrite mjoin_app; cbn; by rewrite app_nil_r).
  destruct (isDiffFileMarker x) eqn:Ex; cbn [andb].
  - destruct started.
    + exists (gs ++ [cg]), [x]. split; [by rewrite fmap_app; cbn; rewrite app_nil_r|].
      split; [rewrite mjoin_app; cbn; by rewrite app_nil_r, <- app_assoc|]. cbn [snd]. split.
      * apply Forall_app. split; [done|]. constructor; [|constructor]. unfold markers. by rewrite filter_cons_True.
      * destruct gs as [|g gs]; cbn [app tail] in *; [constructor; [by exists x, []|constructor]|].
        apply Forall_app. split; [done|]. constructor; [by exists x, []|constructor].
    + destruct Hm as [-> Hm]. exists [], (cg ++ [x]). rewrite <- Hj. split; [done|]. split; [done|]. cbn [snd app tail].
      split; [|constructor]. constructor; [|constructor]. by rewrite markers_snoc, Hm, Ex.
  - exists gs, (cg ++ [x]). rewrite <- Hj. split; [done|]. split; [by rewrite app_assoc|]. cbn [snd]. split.
    + destruct started.
      * apply Forall_app in Hm as [H1 [H2 _]%Forall_cons]. apply Forall_app. split; [done|].
        constructor; [by rewrite markers_snoc, Ex, app_nil_r|constructor].
      * destruct Hm as [-> Hm]. split; [done|]. by rewrite markers_snoc, Hm, Ex.
    + destruct gs as [|g gs]; cbn [app tail] in *; [constructor|]. apply Forall_app in Ht as [H1 [H2 _]%Forall_cons].
      apply Forall_app. split; [done|]. constructor; [by apply starts_file_snoc|constructor].
Qed.

(** The lines of a diff in groups: one file each, a preamble with the first. *)
Definition file_groups (diff : bytes) (gs : list (list bytes)) : Prop :=
  mjoin gs = split_after diff /\ Forall (fun g => mjoin g <> []) gs /\
  (Forall (fun g => length (markers g) = 1) gs \/ length gs = 1 /\ Forall (fun g => markers g = []) gs) /\
  Forall starts_file (tail gs).

Lemma splitDiffFiles_groups diff : diff <> [] -> exists gs, file_groups diff gs /\ splitDiffFiles diff = mjoin (M:=list) <$> gs.
Proof.
  intros Hne. unfold splitDiffFiles. rewrite bool_decide_eq_false_2 by done.
  assert (seg_inv (split_after diff) (foldl seg_step ([], [], false) (split_after diff))) as H.
  { apply foldl_invariant; [|intros; by apply seg_step_inv]. exists [], []. split; [done|]. split; [done|]. split; [done|constructor]. }
  destruct (foldl seg_step _ _) as [[segs cur] started]. destruct H as (gs & cg & [= -> ->] & E & Hm & Ht). cbn [snd] in Hm.
  destruct (lines_of diff) as (ls & r & Ed & Hls & Hr). rewrite Ed, split_after_lines in E by done.
  assert (forall g : list bytes, (exists m, m ∈ g /\ m <> []) -> mjoin g <> []) as Hj.
  { intros g (m & Hin & Hm0) Eg. apply list_elem_of_split in Hin as (a & b & ->). rewrite mjoin_app in Eg. cbn in Eg.
    apply app_nil in Eg as [_ Eg]. apply app_nil in Eg as [Eg _]. done. }
  assert (forall g : list bytes, length (markers g) = 1 -> mjoin g <> []) as Hmark.
  { intros g Hg. apply Hj. destruct (markers g) as [|m t] eqn:Eg; [done|]. exists m.
    assert (m ∈ markers g) as Hin by (rewrite Eg; left). apply list_elem_of_filter in Hin as [Hmk Hin]. split; [done|].
    intros ->. by rewrite isDiffFileMarker_nil in Hmk. }
  assert (Forall (fun g => mjoin g <> []) (gs ++ [cg])) as Hall.
  { destruct started; [by eapply Forall_impl; [exact Hm|intros g; apply Hmark]|]. destruct Hm as [-> _]. constructor; [|constructor].
    cbn in E. intros Hcg. apply Hne. rewrite <- Hcg, <- E, Ed, mjoin_app. cbn. by rewrite app_nil_r. }
  exists (gs ++ [cg]). split.
  - split; [rewrite mjoin_app; cbn; rewrite app_nil_r, Ed, split_after_lines by done; by rewrite E|]. split; [done|].
    split; [|done]. destruct started; [by left|right]. destruct Hm as [-> Hm]. split; [done|]. by constructor.
  - apply Forall_app in Hall as [_ [Hcg _]%Forall_cons]. destruct (mjoin cg) eqn:Ec; [done|]. cbn [length Nat.ltb Nat.leb].
    rewrite fmap_app, <- Ec. done.
Qed.

Lemma file_groups_last diff gs : diff <> [] -> file_groups diff gs ->
  exists gs0 b r, gs = gs0 ++ [b ++ [r]] /\ Forall (Forall is_line) gs0 /\ Forall is_line b /\ lf ∉ r.
Proof.
  intros Hne (E & Hn & _ & _). destruct (lines_of diff) as (ls & r & -> & Hls & Hr). rewrite split_after_lines in E by done.
  destruct (mjoin_snoc_inv is_line gs ls r E) as (gs0 & b & -> & H1 & H2); [|done|by exists gs0, b, r].
  eapply Forall_impl; [exact Hn|]. by intros g Hg ->.
Qed.

(** Each segment holds one file. *)
Lemma group_countDiffFiles diff gs g : diff <> [] -> file_groups diff gs -> g ∈ gs -> countDiffFiles (mjoin g) = length (markers g).
Proof.
  intros Hne Hg Hin. destruct (file_groups_last diff gs Hne Hg) as (gs0 & b & r & -> & H1 & H2 & Hr).
  apply elem_of_app in Hin as [Hin| ->%list_elem_of_singleton].
  - rewrite Forall_forall in H1. rewrite countDiffFiles_lines by by apply H1. done.
  - rewrite mjoin_app. cbn. rewrite app_nil_r, countDiffFiles_eq, split_after_lines by done. done.
Qed.

Lemma segments_whole diff : diff <> [] -> exists fs z, splitDiffFiles diff = fs ++ [z] /\ Forall whole_lines fs.
Proof.
  intros Hne. destruct (splitDiffFiles_groups diff Hne) as (gs & Hg & ->).
  destruct (file_groups_last diff gs Hne Hg) as (gs0 & b & r & -> & H1 & _). exists (mjoin (M:=list) <$> gs0), (mjoin (b ++ [r])).
  rewrite fmap_app. split; [done|]. apply Forall_fmap. eapply Forall_impl; [exact H1|]. intros g H. by exists g.
Qed.

Lemma splitDiffFiles_concat diff : mjoin (splitDiffFiles diff) = diff.
Proof.
  destruct (decide (diff = [])) as [->|Hne]; [done|]. destruct (splitDiffFiles_groups diff Hne) as (gs & (E & _) & ->).
  destruct (lines_of diff) as (ls & r & Ed & Hls & Hr). rewrite Ed, split_after_lines in E by done.
  transitivity (mjoin (mjoin gs)).
  - apply mjoin_mjoin.
  - rewrite E, mjoin_app, Ed. cbn. by rewrite app_nil_r.
Qed.

Lemma splitDiffFiles_nonempty diff : Forall (fun f => f <> []) (splitDiffFiles diff).
Proof.
  destruct (decide (diff = [])) as [->|Hne]; [constructor|]. destruct (splitDiffFiles_groups diff Hne) as (gs & (_ & H & _) & ->).
  by apply Forall_fmap.
Qed.

(** ** Packing *)

Section packing.
Context (maxLines : Z).

Definition lines_in (c : list bytes) : nat := sum_list (countLines <$> c).
Definition fits (c : list bytes) : Prop := (Z.of_nat (lines_in c) <= maxLines)%Z \/ length c <= 1.
(** A chunk is closed only before a file that would overflow it. *)
Definition greedy (cs : list (list bytes)) : Prop :=
  forall i c d, cs !! i = Some c -> cs !! S i = Some d ->
  exists f d', d = f :: d' /\ (maxLines < Z.of_nat (lines_in c + countLines f))%Z.

Definition pack_inv (done : list bytes) (st : list bytes * bytes * nat) : Prop :=
  exists cs cc, st = (mjoin (M:=list) <$> cs, mjoin cc, lines_in cc) /\ done = mjoin cs ++ cc /\ (cc = [] -> cs = []) /\
    Forall (fun c => c <> []) cs /\ Forall fits cs /\ (fits cc \/ length cs = maxChunksPerAgent - 1) /\
    length cs <= maxChunksPerAgent - 1 /\ greedy (cs ++ [cc]).

Lemma lines_in_snoc c f : lines_in (c ++ [f]) = lines_in c + countLines f.
Proof. unfold lines_in. rewrite fmap_app, sum_list_with_app. cbn. unfold id. lia. Qed.

Lemma greedy_snoc cs c f : greedy (cs ++ [c]) -> (maxLines < Z.of_nat (lines_in c + countLines f))%Z ->
  greedy ((cs ++ [c]) ++ [[f]]).
Proof.
  intros Hg Hf i a b Ha Hb. destruct (decide (S i < length (cs ++ [c]))) as [Hi|Hi].
  - rewrite lookup_app_l in Ha by lia. rewrite lookup_app_l in Hb by lia. by eapply Hg.
  - assert (i = length cs) as ->.
    { apply lookup_lt_Some in Hb. rewrite !length_app in *. cbn in *. lia. }
    rewrite lookup_app_l, list_lookup_middle in Ha by (rewrite ?length_app; cbn; lia). injection Ha as <-.
    rewrite lookup_app_r in Hb by (rewrite length_app; cbn; lia). rewrite length_app in Hb. cbn in Hb.
    replace (S (length cs) - (length cs + 1)) with 0 in Hb by lia. injection Hb as <-. by exists f, [].
Qed.

Lemma greedy_grow cs c f : c <> [] \/ cs = [] -> greedy (cs ++ [c]) -> greedy (cs ++ [c ++ [f]]).
Proof.
  intros Hc Hg i a b Ha Hb. destruct (decide (S i < length cs)) as [Hi|Hi].
  - rewrite lookup_app_l in Ha, Hb by lia. apply (Hg i); by rewrite lookup_app_l by lia.
  - assert (S i = length cs) as Ei. { apply lookup_lt_Some in Hb. rewrite length_app in Hb. cbn in Hb. lia. }
    destruct Hc as [Hc|Hc]; [|subst; cbn in Ei; lia]. rewrite Ei, list_lookup_middle in Hb by done. injection Hb as <-.
    rewrite lookup_app_l in Ha by lia.
    destruct (Hg i a c) as (g & c' & -> & H); [by rewrite lookup_app_l by lia|by rewrite Ei, list_lookup_middle by done|].
    by exists g, (c' ++ [f]).
Qed.

Lemma pack_step_inv done f st : f <> [] -> Forall (fun f => f <> []) done -> pack_inv done st ->
  pack_inv (done ++ [f]) (pack_step maxLines st f).
Proof.
  intros Hf Hdone (cs & cc & -> & -> & Hcc & Hne & Hfit & Hlast & Hlen & Hg). unfold pack_step.
  assert (mjoin cc ++ f = mjoin (cc ++ [f])) as Hj by (rewrite mjoin_app; cbn; by rewrite app_nil_r).
  assert ((0 <? length (mjoin cc)) = negb (bool_decide (cc = []))) as ->.
  { destruct cc as [|g cc]; [done|]. apply Forall_app in Hdone as [_ [Hgne _]%Forall_cons].
    change (mjoin (g :: cc)) with (g ++ mjoin cc). by destruct g. }
  rewrite length_fmap. destruct (negb _ && _ && _) eqn:Econd.
  - apply andb_true_iff in Econd as [[Hc Hov]%andb_true_iff Hsl]. apply negb_true_iff, bool_decide_eq_false in Hc.
    apply Z.ltb_lt in Hov. apply Nat.ltb_lt in Hsl. exists (cs ++ [cc]), [f].
    rewrite (lines_in_snoc [] f : lines_in [f] = _).
    split; [rewrite fmap_app; cbn; by rewrite app_nil_r|]. split; [rewrite mjoin_app; cbn; by rewrite app_nil_r, <- app_assoc|].
    split; [done|]. split; [apply Forall_app; split; [done|]; by constructor|]. split.
    { apply Forall_app. split; [done|]. constructor; [|constructor]. destruct Hlast as [?|?]; [done|lia]. }
    split; [left; right; cbn; lia|]. split; [rewrite length_app; unfold maxChunksPerAgent in *; cbn in *; lia|]. by apply greedy_snoc.
  - exists cs, (cc ++ [f]). rewrite Hj, lines_in_snoc. split; [done|]. split; [by rewrite app_assoc|].
    split; [by intros [_ ?]%app_nil|]. split; [done|]. split; [done|]. split.
    { destruct (bool_decide (cc = [])) eqn:Ec; cbn [negb andb] in Econd.
      - apply bool_decide_eq_true in Ec as ->. left. right. cbn. lia.
      - destruct (Z.ltb_spec maxLines (Z.of_nat (lines_in cc + countLines f))) as [_|Hle]; cbn [andb] in Econd.
        + apply Nat.ltb_ge in Econd. right. lia.
        + left. left. by rewrite lines_in_snoc. }
    split; [done|]. apply greedy_grow; [|done]. destruct (decide (cc = [])); [right; by apply Hcc|by left].
Qed.

Lemma pack_spec files : files <> [] -> Forall (fun f => f <> []) files ->
  exists cs, (let '(chunks, cur, _) := foldl (pack_step maxLines) ([], [], 0) files in
              if 0 <? length cur then chunks ++ [cur] else chunks) = mjoin (M:=list) <$> cs /\
    mjoin cs = files /\ Forall (fun c => c <> []) cs /\ length cs <= maxChunksPerAgent /\ greedy cs /\
    forall i c, cs !! i = Some c -> fits c \/ i = maxChunksPerAgent - 1.
Proof.
  intros Hne Hall. assert (pack_inv files (foldl (pack_step maxLines) ([], [], 0) files)) as H.
  { apply foldl_invariant.
    - exists [], []. split; [done|]. split; [done|]. split; [done|]. split; [constructor|]. split; [constructor|].
      split; [left; right; cbn; lia|]. split; [cbn; lia|]. intros [|i] c d H1 H2; done.
    - intros done f todo st -> Hst. apply Forall_app in Hall as [H1 [H2 _]%Forall_cons]. by apply pack_step_inv. }
  destruct (foldl _ _ _) as [[chunks cur] n]. destruct H as (cs & cc & [= -> -> _] & -> & Hcc & H1 & H2 & H3 & H4 & H5).
  destruct cc as [|g cc]; [by rewrite Hcc in Hne|].
  assert (0 <? length (mjoin (g :: cc)) = true) as ->.
  { apply Forall_app in Hall as [_ [Hg _]%Forall_cons]. change (mjoin (g :: cc)) with (g ++ mjoin cc). by destruct g. }
  exists (cs ++ [g :: cc]). split; [by rewrite fmap_app|]. split; [rewrite mjoin_app; cbn [mjoin list_join]; by rewrite app_nil_r|].
  split; [apply Forall_app; split; [done|]; by constructor|]. split; [rewrite length_app; unfold maxChunksPerAgent in *; cbn in *; lia|].
  split; [done|]. intros i c Hi. apply lookup_snoc_Some in Hi as [[_ Hi]|[-> <-]].
  - left. rewrite Forall_forall in H2. apply H2. by eapply list_elem_of_lookup_2.
  - destruct H3 as [?|?]; [by left|by right].
Qed.
End packing.

Lemma sums_add_up (X fs : list bytes) z : X = fs ++ [z] -> Forall whole_lines fs ->
  sum_list (countLines <$> X) = countLines (mjoin X) /\ sum_list (countDiffFiles <$> X) = countDiffFiles (mjoin X).
Proof.
  intros -> H. rewrite mjoin_app. change (mjoin [z]) with (z ++ []). rewrite app_nil_r, countLines_mjoin, countDiffFiles_mjoin by done.
  rewrite !fmap_app, !sum_list_with_app. cbn. unfold id. lia.
Qed.

Lemma chunk_sums diff cs : diff <> [] -> mjoin cs = splitDiffFiles diff -> Forall (fun c => c <> []) cs ->
  (forall c, c ∈ cs -> lines_in c = countLines (mjoin c)) /\
  sum_list (countDiffFiles <$> (mjoin (M:=list) <$> cs)) = countDiffFiles diff /\
  sum_list (countLines <$> (mjoin (M:=list) <$> cs)) = countLines diff.
Proof.
  intros Hne E Hcs. destruct (segments_whole diff Hne) as (fs & z & Ef & Hfs).
  assert (mjoin (mjoin (M:=list) <$> cs) = diff) as Ed.
  { by rewrite mjoin_mjoin, E, splitDiffFiles_concat. }
  destruct (mjoin_snoc_inv whole_lines cs fs z) as (cs0 & b & -> & H1 & H2); [by rewrite E|done|done|]. split.
  - intros c [Hc| ->%list_elem_of_singleton]%elem_of_app; unfold lines_in.
    + apply Forall_app in Hcs as [Hcs _]. rewrite Forall_forall in H1, Hcs. pose proof (H1 c Hc) as Hw. pose proof (Hcs c Hc) as Hn.
      destruct c as [|y c _] using rev_ind; [done|]. apply Forall_app in Hw as [Hw _]. by eapply sums_add_up.
    + by eapply sums_add_up.
  - rewrite <- Ed. destruct (sums_add_up (mjoin (M:=list) <$> cs0 ++ [b ++ [z]]) (mjoin (M:=list) <$> cs0) (mjoin (b ++ [z]))) as [-> ->]; [by rewrite fmap_app| |done].
    apply Forall_fmap. eapply Forall_impl; [exact H1|]. intros c Hc. by apply whole_lines_mjoin.
Qed.

Lemma git_marker_files diff : hasGitDiffMarker diff = true -> Forall (fun f => countDiffFiles f = 1) (splitDiffFiles diff).
Proof.
  intros H. destruct (decide (diff = [])) as [->|Hne]; [constructor|]. destruct (splitDiffFiles_groups diff Hne) as (gs & Hg & ->).
  pose proof Hg as (E & _ & Hm & _). apply Forall_fmap, Forall_forall. intros g Hin. cbn.
  rewrite (group_countDiffFiles diff gs g) by done. destruct Hm as [Hm|[Hl Hm]]; [rewrite Forall_forall in Hm; by apply Hm|].
  exfalso. unfold hasGitDiffMarker in H. apply existsb_exists in H as (ln & Hln & Hmk). apply list_elem_of_In in Hln.
  destruct gs as [|g' [|]]; [done| |done]. apply Forall_cons in Hm as [Hm _]. change (mjoin [g']) with (g' ++ []) in E.
  rewrite app_nil_r in E. assert (ln ∈ markers g') as Hbad.
  { unfold markers. apply list_elem_of_filter. rewrite E. split; [|done]. unfold isDiffFileMarker. by rewrite Hmk. }
  rewrite Hm in Hbad. by apply elem_of_nil in Hbad.
Qed.

(** C32. Packing a diff. The chunks are the whole files of the diff, in order, none split
    and no byte lost, and there are at most 64 of them. A chunk exceeds the line limit
    only when it is one file, or is the sixty-fourth; it was closed only before a file
    that would have overflowed it. A file begins at each marker line, so the file counts
    and the line counts the chunks are stamped with add up to the diff's. *)
Theorem chunkDiff_spec (diff : bytes) (maxLines : Z) :
  exists cs, chunkDiff diff maxLines = mjoin (M:=list) <$> cs /\ mjoin cs = splitDiffFiles diff /\
    mjoin (chunkDiff diff maxLines) = diff /\ Forall (fun c => c <> []) cs /\ length cs <= maxChunksPerAgent /\
    ((maxLines <= 0)%Z -> length cs <= 1) /\
    ((0 < maxLines)%Z -> forall i c, cs !! i = Some c ->
       (Z.of_nat (countLines (mjoin c)) <= maxLines)%Z \/ length c = 1 \/ i = maxChunksPerAgent - 1) /\
    (forall i c d, cs !! i = Some c -> cs !! S i = Some d ->
       exists f d', d = f :: d' /\ (maxLines < Z.of_nat (countLines (mjoin c) + countLines f))%Z) /\
    (hasGitDiffMarker diff = true -> Forall (fun f => countDiffFiles f = 1) (splitDiffFiles diff)) /\
    sum_list (countDiffFiles <$> chunkDiff diff maxLines) = countDiffFiles diff /\
    sum_list (countLines <$> chunkDiff diff maxLines) = countLines diff.
Proof.
  destruct (decide (diff = [])) as [->|Hne]; [|].
  { exists []. split_and!; try done; intros; cbn; lia. }
  assert (splitDiffFiles diff <> []) as Hf. { destruct (segments_whole diff Hne) as (fs & z & -> & _). by destruct fs. }
  assert (exists cs, chunkDiff diff maxLines = mjoin (M:=list) <$> cs /\ mjoin cs = splitDiffFiles diff /\
            Forall (fun c => c <> []) cs /\ length cs <= maxChunksPerAgent /\ ((maxLines <= 0)%Z -> length cs <= 1) /\
            ((0 < maxLines)%Z -> forall i c, cs !! i = Some c -> fits maxLines c \/ i = maxChunksPerAgent - 1) /\
            greedy maxLines cs) as (cs & -> & E & Hcs & Hlen & H0 & Hfit & Hg).
  { unfold chunkDiff. rewrite bool_decide_eq_false_2 by done. destruct ((maxLines <=? 0)%Z || _) eqn:Ec.
    - exists [splitDiffFiles diff]. cbn [fmap list_fmap]. rewrite splitDiffFiles_concat.
      split; [done|]. split; [cbn; by rewrite app_nil_r|]. split; [by constructor|]. split; [unfold maxChunksPerAgent; cbn; lia|].
      split; [done|]. split; [|by intros [|i]].
      intros Hm [|i] c Hc; [|done]. injection Hc as <-. left. right. apply orb_true_iff in Ec as [Ec|Ec].
      + apply Z.leb_le in Ec. lia.
      + by apply Nat.leb_le in Ec.
    - apply orb_false_iff in Ec as [Ec _]. apply Z.leb_gt in Ec.
      destruct (pack_spec maxLines (splitDiffFiles diff) Hf (splitDiffFiles_nonempty diff)) as (cs & H1 & H2 & H3 & H4 & H5 & H6).
      exists cs. split_and!; try done. lia. }
  destruct (chunk_sums diff cs Hne E Hcs) as (Hl & Hd & Hn). exists cs. split_and!; try done.
  - by rewrite mjoin_mjoin, E, splitDiffFiles_concat.
  - intros Hm i c Hi. pose proof (list_elem_of_lookup_2 _ _ _ Hi) as Hin. rewrite <- (Hl c Hin).
    destruct (Hfit Hm i c Hi) as [[?|?]|?]; [by left| |by right; right]. right. left.
    rewrite Forall_forall in Hcs. specialize (Hcs c Hin). destruct c as [|? [|]]; cbn in *; [done|done|lia].
  - intros i c d Hc Hd'. rewrite <- (Hl c) by by eapply list_elem_of_lookup_2. by apply (Hg i).
  - by apply git_marker_files.
Qed.

(** ** The framing *)

Lemma LF_char : LF = char lf.
Proof. done. Qed.

Lemma split_bytes_app_char c x y cur : split_bytes [c] (x ++ c :: y) 0 cur = split_bytes [c] x 0 cur ++ split_bytes [c] y 0 [].
Proof.
  revert cur. induction x as [|a x IH]; intros cur.
  - cbn [app split_bytes is_prefix]. by rewrite Ascii.eqb_refl.
  - cbn [app split_bytes is_prefix]. destruct (Ascii.eqb c a && true); cbn [length Nat.sub app]; [f_equal; apply IH|apply IH].
Qed.

Lemma Split_app_char c s t : Split (s +:+ char c +:+ t) (char c) = Split s (char c) ++ Split t (char c).
Proof. unfold Split. rewrite to_bytes_app. simpl. by rewrite split_bytes_app_char, fmap_app. Qed.

Lemma Split_all_lack c s : Forall (lacks c) (Split s (char c)).
Proof.
  unfold Split. apply Forall_fmap. cut (forall l cur, c ∉ cur -> Forall (fun x => c ∉ x) (split_bytes [c] l 0 cur)).
  { intros H. eapply Forall_impl; [apply H, not_elem_of_nil|]. intros x Hx. unfold lacks. cbn.
    by rewrite list_ascii_of_string_of_list_ascii. }
  induction l as [|a l IH]; intros cur Hcur; [by constructor|]. cbn [split_bytes is_prefix].
  destruct (Ascii.eqb_spec c a) as [->|Ha]; cbn [andb length Nat.sub].
  - constructor; [done|]. apply IH, not_elem_of_nil.
  - apply IH. rewrite not_elem_of_app. split; [done|]. by rewrite list_elem_of_singleton.
Qed.

Lemma Split_nonempty c s : Split s (char c) <> [].
Proof.
  unfold Split. cut (forall l cur, split_bytes [c] l 0 cur <> []); [intros H E; by apply fmap_nil_inv, H in E|].
  induction l as [|a l IH]; intros cur; [done|]. cbn [split_bytes is_prefix]. destruct (_ && true); [done|apply IH].
Qed.

Lemma contains_bytes_mid sub a b : contains_bytes sub (a ++ sub ++ b) = true.
Proof.
  induction a as [|c a IH]; cbn [app contains_bytes].
  - destruct sub as [|d sub]; [by destruct b|]. cbn [app contains_bytes].
    apply orb_true_iff. left. apply (is_prefix_spec (d :: sub) (d :: sub ++ b)). by exists b.
  - apply orb_true_iff. by right.
Qed.

Lemma Join_mid x l sep : x ∈ l -> exists a b, to_bytes (Join l sep) = a ++ to_bytes x ++ b.
Proof.
  induction l as [|y l IH]; [by intros ?%elem_of_nil|]. intros [->|Hx]%elem_of_cons.
  - destruct l as [|z l]; [exists [], []; by rewrite app_nil_r|]. rewrite Join_cons, !to_bytes_app. by exists [], (to_bytes sep ++ to_bytes (Join (z :: l) sep)).
  - destruct l as [|z l]; [by apply elem_of_nil in Hx|]. rewrite Join_cons, !to_bytes_app. destruct (IH Hx) as (a & b & ->).
    exists (to_bytes y ++ to_bytes sep ++ a), b. by rewrite <- !app_assoc.
Qed.

(** The lines of one chunk's output, as they are written. *)
Definition seg_lines (content : string) : list string := Split (neutraliseChunkBoundary content) LF.

Lemma seg_lines_eq content : seg_lines content = (fun ln => if (ln =? chunkBoundaryLine)%string then neutral else ln) <$> Split content LF.
Proof.
  unfold seg_lines, neutraliseChunkBoundary. destruct (Contains content chunkBoundaryLine) eqn:E; cbn [negb].
  - rewrite LF_char in *. apply Split_Join.
    + intros E0%fmap_nil_inv. by apply Split_nonempty in E0.
    + apply Forall_fmap. eapply Forall_impl; [apply Split_all_lack|]. intros ln Hln. cbn.
      destruct (ln =? chunkBoundaryLine)%string; [|done]. apply (bool_decide_eq_true_1 _); by vm_compute.
  - symmetry. rewrite <- (list_fmap_id (Split content LF)) at 2. apply Forall_fmap_ext_1, Forall_forall. intros ln Hln. cbn.
    destruct (String.eqb_spec ln chunkBoundaryLine) as [->|]; [|done]. exfalso.
    rewrite LF_char in Hln. apply (Join_mid _ _ (char lf)) in Hln as (a & b & H). rewrite Join_Split in H.
    unfold Contains in E. by rewrite H, contains_bytes_mid in E.
Qed.

Lemma seg_lines_free content : chunkBoundaryLine ∉ seg_lines content.
Proof.
  rewrite seg_lines_eq. intros (ln & E & _)%list_elem_of_fmap. destruct (String.eqb_spec ln chunkBoundaryLine); [by vm_compute in E|by subst].
Qed.

(** Segments with the delimiter between them. *)
Fixpoint framed (segs : list (list string)) : list string :=
  match segs with
  | [] => []
  | s :: segs' => match segs' with [] => s | _ => s ++ chunkBoundaryLine :: framed segs' end
  end.
Definition offset (segs : list (list string)) (k : nat) : nat := sum_list ((fun s => S (length s)) <$> take k segs).

Lemma framed_cons s t segs : framed (s :: t :: segs) = s ++ chunkBoundaryLine :: framed (t :: segs).
Proof. done. Qed.

Lemma Split_framed s t : Split (s +:+ (LF +:+ chunkBoundaryLine +:+ LF) +:+ t) LF = Split s LF ++ chunkBoundaryLine :: Split t LF.
Proof.
  rewrite LF_char, (str_app_assoc (char lf)), Split_app_char. f_equal.
Qed.

Lemma join_framed contents : contents <> [] -> Split (joinChunkContents contents) LF = framed (seg_lines <$> contents).
Proof.
  intros Hne. unfold joinChunkContents. rewrite length_fmap. destruct contents as [|c [|d contents]]; [done|done|]. cbn [length Nat.ltb Nat.leb].
  clear Hne. revert c d. induction contents as [|e contents IH]; intros c d.
  - cbn [fmap list_fmap framed]. rewrite Join_cons. cbn [Join String.concat]. apply Split_framed.
  - rewrite !fmap_cons, Join_cons, Split_framed, framed_cons. f_equal. f_equal. apply (IH d e).
Qed.

(** ** Finding a chunk again *)

Definition free (s : list string) : Prop := chunkBoundaryLine ∉ s.

Lemma free_lookup s i ln : free s -> s !! i = Some ln -> (ln =? chunkBoundaryLine)%string = false.
Proof. intros Hs Hi. apply String.eqb_neq. intros ->. apply Hs. by eapply list_elem_of_lookup_2. Qed.

Lemma length_framed s segs : length (framed (s :: segs)) = length s + sum_list ((fun s => S (length s)) <$> segs).
Proof.
  revert s. induction segs as [|t segs IH]; intros s; [cbn; lia|]. rewrite framed_cons, length_app. cbn [length].
  rewrite IH. cbn. unfold id. lia.
Qed.

(** What is before and after one segment. *)
Lemma framed_split segs k s : segs !! k = Some s ->
  exists pre post, framed segs = pre ++ s ++ post /\ length pre = offset segs k /\
    (if bool_decide (k = 0) then pre = [] else exists p, pre = p ++ [chunkBoundaryLine]) /\
    (if bool_decide (S k = length segs) then post = [] else exists p, post = chunkBoundaryLine :: p).
Proof.
  revert k. induction segs as [|t segs IH]; intros [|k] Hk; [done|done| |].
  - injection Hk as ->. destruct segs as [|u segs].
    + exists [], []. cbn. by rewrite app_nil_r.
    + exists [], (chunkBoundaryLine :: framed (u :: segs)). rewrite framed_cons. split; [done|]. split; [done|]. split; [done|].
      cbn [length]. rewrite bool_decide_eq_false_2 by done. by eexists.
  - destruct segs as [|u segs]; [done|]. destruct (IH k Hk) as (pre & post & E & Hl & Hpre & Hpost).
    exists (t ++ chunkBoundaryLine :: pre), post. rewrite framed_cons, E, <- app_assoc. split; [done|]. split.
    { rewrite length_app. cbn [length]. rewrite Hl. unfold offset. cbn. unfold id. lia. }
    split.
    + rewrite bool_decide_eq_false_2 by done. clear Hpost. case_bool_decide; [subst; by exists t|]. destruct Hpre as (p & ->).
      exists (t ++ chunkBoundaryLine :: p). by rewrite <- app_assoc.
    + clear Hpre. rewrite (bool_decide_ext _ (S k = length (u :: segs))); [done|]. cbn [length]. lia.
Qed.

Lemma bound_below_free lines a j : (forall i, a <= i < a + j -> exists ln, lines !! i = Some ln /\ (ln =? chunkBoundaryLine)%string = false) ->
  bound_below lines (a + j) = bound_below lines a.
Proof.
  induction j as [|j IH]; intros H; [by rewrite Nat.add_0_r|]. rewrite Nat.add_succ_r. cbn [bound_below].
  destruct (H (a + j) ltac:(lia)) as (ln & -> & ->). apply IH. intros i Hi. apply H. lia.
Qed.

Lemma bound_above_free s rest i : free s -> bound_above (s ++ rest) i = bound_above rest (i + length s).
Proof.
  revert i. induction s as [|ln s IH]; intros i Hs; [by rewrite Nat.add_0_r|]. apply not_elem_of_cons in Hs as [Hln Hs].
  cbn [app bound_above length]. rewrite (proj2 (String.eqb_neq ln chunkBoundaryLine)) by done. rewrite IH by done. f_equal. lia.
Qed.

Lemma chunkSegmentBounds_framed segs k s j : Forall free segs -> segs !! k = Some s -> j < length s ->
  chunkSegmentBounds (framed segs) (offset segs k + j) = (offset segs k, offset segs k + length s, 1 <? length segs).
Proof.
  intros Hfree Hk Hj. destruct (framed_split segs k s Hk) as (pre & post & -> & Hl & Hpre & Hpost). rewrite <- Hl.
  assert (free s) as Hs. { rewrite Forall_forall in Hfree. apply Hfree. by eapply list_elem_of_lookup_2. }
  unfold chunkSegmentBounds. rewrite bound_below_free.
  2: { intros i Hi. destruct (lookup_lt_is_Some_2 s (i - length pre)) as [ln Hln]; [lia|]. exists ln.
       rewrite lookup_app_r, lookup_app_l by lia. split; [done|]. by eapply free_lookup. }
  assert (bound_below (pre ++ s ++ post) (length pre) = if bool_decide (k = 0) then None else Some (length pre)) as ->.
  { clear Hpost. destruct (decide (k = 0)) as [->|Hk0]; [rewrite bool_decide_eq_true_2 in * by done; by subst|].
    rewrite bool_decide_eq_false_2 in * by done. destruct Hpre as (p & ->). rewrite length_app. cbn [length]. rewrite Nat.add_1_r. cbn [bound_below].
    rewrite <- !app_assoc. cbn [app]. rewrite list_lookup_middle by done. by rewrite String.eqb_refl. }
  rewrite drop_app_ge, drop_app_le by lia. rewrite bound_above_free.
  2: { intros Hin. apply Hs. rewrite <- (take_drop (S (length pre + j) - length pre) s), elem_of_app. by right. }
  rewrite length_drop. replace (S (length pre + j) + (length s - (S (length pre + j) - length pre))) with (length pre + length s) by lia.
  assert (bound_above post (length pre + length s) = if bool_decide (S k = length segs) then None else Some (length pre + length s)) as ->.
  { clear Hpre. destruct (decide (S k = length segs)) as [He|He]; [rewrite bool_decide_eq_true_2 in * by done; by subst|].
    rewrite bool_decide_eq_false_2 in * by done. destruct Hpost as (p & ->). cbn [bound_above]. by rewrite String.eqb_refl. }
  apply lookup_lt_Some in Hk. destruct (decide (k = 0)) as [->|Hk0].
  - rewrite (bool_decide_eq_true_2 (0 = 0)) in * by done. subst pre. destruct (decide (1 = length segs)) as [He|He].
    + rewrite (bool_decide_eq_true_2 (1 = length segs)) in * by done. subst post. rewrite <- He. cbn. by rewrite app_nil_r.
    + rewrite (bool_decide_eq_false_2 (1 = length segs)) by done. destruct (Nat.ltb_spec 1 (length segs)); [done|lia].
  - rewrite (bool_decide_eq_false_2 (k = 0)) by done. destruct (Nat.ltb_spec 1 (length segs)); [|lia].
    destruct (decide (S k = length segs)) as [He|He].
    + rewrite (bool_decide_eq_true_2 (S k = length segs)) in * by done. subst post. cbn. rewrite !length_app. cbn. by rewrite Nat.add_0_r.
    + by rewrite (bool_decide_eq_false_2 (S k = length segs)) by done.
Qed.

(** The lines [salvagedSegmentLines] excludes, segment by segment. *)
Fixpoint excluded (refused : gset Z) (seg start : nat) (segs : list (list string)) : gset nat :=
  match segs with
  | [] => ∅
  | s :: segs' =>
      (if decide (Z.of_nat seg ∈ refused) then list_to_set (seq start (length s)) else ∅) ∪
      excluded refused (S seg) (start + S (length s)) segs'
  end.

Lemma salvage_free lines refused s a st : (forall i, i < length s -> lines !! (a + i) = s !! i) -> free s ->
  foldl (salvage_step lines refused) st (seq a (length s)) = st.
Proof.
  intros Hl Hs. apply foldl_preserves; [done|]. intros st' i Hi ->. apply elem_of_seq in Hi.
  destruct (lookup_lt_is_Some_2 s (i - a)) as [ln Hln]; [lia|]. destruct st as [[seg start] out]. cbn [salvage_step].
  replace i with (a + (i - a)) at 1 by lia. rewrite Hl, Hln by lia. by rewrite (free_lookup s (i - a)).
Qed.

Lemma salvage_framed refused pre segs seg out : segs <> [] -> Forall free segs ->
  exists start, foldl (salvage_step (pre ++ framed segs) refused) (seg, length pre, out) (seq (length pre) (S (length (framed segs)))) =
  (seg + length segs, start, out ∪ excluded refused seg (length pre) segs).
Proof.
  revert pre seg out. induction segs as [|s segs IH]; intros pre seg out Hne Hfree; [done|].
  apply Forall_cons in Hfree as [Hs Hfree]. destruct segs as [|t segs].
  - cbn [framed]. rewrite seq_S, foldl_app, salvage_free; [|intros i Hi; rewrite lookup_app_r by lia; f_equal; lia|done].
    cbn [foldl salvage_step]. rewrite lookup_ge_None_2 by (rewrite length_app; lia). eexists. f_equal; [f_equal; cbn; lia|].
    cbn [excluded]. replace (length pre + length s - length pre) with (length s) by lia. case_decide; set_solver.
  - rewrite framed_cons, length_app. cbn [length]. rewrite <- Nat.add_succ_r, seq_app, foldl_app.
    rewrite salvage_free; [|intros i Hi; rewrite lookup_app_r, lookup_app_l by lia; f_equal; lia|done].
    change (seq (length pre + length s) (S (S (length (framed (t :: segs))))))
      with ((length pre + length s) :: seq (S (length pre + length s)) (S (length (framed (t :: segs))))).
    cbn [foldl]. cbn [salvage_step]. rewrite app_assoc, list_lookup_middle by (by rewrite length_app). rewrite String.eqb_refl.
    replace (length pre + length s - length pre) with (length s) by lia.
    destruct (IH ((pre ++ s) ++ [chunkBoundaryLine]) (S seg) (if decide (Z.of_nat seg ∈ refused) then out ∪ list_to_set (seq (length pre) (length s)) else out)) as (start & E); [done|done|].
    rewrite !length_app in E. cbn [length] in E. rewrite <- app_assoc in E. cbn [app] in E.
    replace (length pre + length s + 1) with (S (length pre + length s)) in E by lia. exists start. rewrite E.
    f_equal; [f_equal; cbn; lia|]. change (excluded refused seg (length pre) (s :: t :: segs)) with
      ((if decide (Z.of_nat seg ∈ refused) then list_to_set (seq (length pre) (length s)) else ∅) ∪
       excluded refused (S seg) (length pre + S (length s)) (t :: segs)).
    rewrite Nat.add_succ_r. case_decide; set_solver.
Qed.

Lemma elem_of_excluded refused seg start segs i : i ∈ excluded refused seg start segs <->
  exists k s j, segs !! k = Some s /\ Z.of_nat (seg + k) ∈ refused /\ j < length s /\ i = start + offset segs k + j.
Proof.
  revert seg start. induction segs as [|s segs IH]; intros seg start; [split; [set_solver|by intros (? & ? & ? & ? & _)]|].
  cbn [excluded]. rewrite elem_of_union, IH. split.
  - intros [H|(k & t & j & Hk & Hr & Hj & ->)].
    + case_decide as Hd; [|set_solver]. rewrite elem_of_list_to_set, elem_of_seq in H. exists 0, s, (i - start).
      rewrite Nat.add_0_r. cbn. split_and!; [done|done|lia|lia].
    + exists (S k), t, j. rewrite Nat.add_succ_r. split_and!; [done|done|done|]. unfold offset. cbn. unfold id. lia.
  - intros ([|k] & t & j & Hk & Hr & Hj & ->).
    + injection Hk as ->. left. rewrite Nat.add_0_r in Hr. rewrite decide_True by done. rewrite elem_of_list_to_set, elem_of_seq. cbn. lia.
    + right. exists k, t, j. rewrite Nat.add_succ_r in Hr. split_and!; [done|done|done|]. unfold offset. cbn. unfold id. lia.
Qed.

Lemma salvagedSegmentLines_framed segs bins : segs <> [] -> Forall free segs ->
  let '(out, desynced) := salvagedSegmentLines (framed segs) bins in
  desynced = negb (forallb (fun b => (0 <=? b) && (b <? Z.of_nat (length segs)))%Z bins) /\
  (desynced = false -> forall i, i ∈ out <-> exists k s j, segs !! k = Some s /\ Z.of_nat k ∈ bins /\ j < length s /\ i = offset segs k + j).
Proof.
  intros Hne Hfree. unfold salvagedSegmentLines. case_bool_decide as Hb.
  - subst bins. split; [done|]. intros _ i. split; [set_solver|]. intros (k & s & j & _ & Hin & _). by apply elem_of_nil in Hin.
  - destruct (salvage_framed (list_to_set bins) [] segs 0 ∅ Hne Hfree) as (start & E). cbn [app length] in E. rewrite E. cbn [Nat.add].
    case_bool_decide as Hex.
    + split; [|done]. destruct Hex as (b & Hin%elem_of_list_to_set & Hb'). symmetry. apply negb_true_iff, not_true_iff_false.
      rewrite forallb_forall. intros H. specialize (H b ltac:(by apply list_elem_of_In)). lia.
    + split.
      * symmetry. apply negb_false_iff, forallb_forall. intros b Hin%list_elem_of_In.
        destruct (decide (b < 0 \/ Z.of_nat (length segs) <= b)%Z) as [Hb'|Hb'].
        { destruct Hex. exists b. by rewrite elem_of_list_to_set. }
        lia.
      * intros _ i. rewrite union_empty_l_L, elem_of_excluded. cbn [Nat.add]. by setoid_rewrite elem_of_list_to_set.
Qed.

(** C33. The framing of chunk outputs. The joined text, read by lines, is the chunks' lines
    with one delimiter between two of them, whatever a model wrote: a line of its own
    that spells the delimiter is annotated, every other line is kept. So segment k is
    chunk k: the bounds found around any line of a chunk are that chunk's, and the lines
    excluded for refused bins are exactly the lines of the named chunks; a bin that names
    no chunk is reported, and nothing else is. *)
Theorem chunk_framing (contents : list string) (bins : list Z) :
  contents <> [] ->
  let lines := Split (joinChunkContents contents) LF in
  let segs := seg_lines <$> contents in
  lines = framed segs /\
  Forall (fun c => seg_lines c = (fun ln => if (ln =? chunkBoundaryLine)%string then neutral else ln) <$> Split c LF) contents /\
  (forall k c j, contents !! k = Some c -> j < length (seg_lines c) ->
     chunkSegmentBounds lines (offset segs k + j) =
     (offset segs k, offset segs k + length (seg_lines c), 1 <? length contents)) /\
  let '(out, desynced) := salvagedSegmentLines lines bins in
  desynced = negb (forallb (fun b => (0 <=? b) && (b <? Z.of_nat (length contents)))%Z bins) /\
  (desynced = false -> forall i, i ∈ out <->
     exists k c j, contents !! k = Some c /\ Z.of_nat k ∈ bins /\ j < length (seg_lines c) /\ i = offset segs k + j).
Proof.
  intros Hne lines segs. assert (lines = framed segs) as E by (by apply join_framed).
  assert (Forall free segs) as Hfree. { apply Forall_fmap, Forall_forall. intros c _. apply seg_lines_free. }
  assert (length segs = length contents) as Hlen by apply length_fmap.
  assert (segs <> []) as Hs by (by intros ?%fmap_nil_inv).
  split; [done|]. split; [apply Forall_forall; intros c _; apply seg_lines_eq|]. rewrite E. split.
  - intros k c j Hk Hj. rewrite <- Hlen. apply chunkSegmentBounds_framed; [done| |done]. unfold segs. by rewrite list_lookup_fmap, Hk.
  - pose proof (salvagedSegmentLines_framed segs bins Hs Hfree) as H. destruct (salvagedSegmentLines _ _) as [out desynced].
    destruct H as [H1 H2]. rewrite Hlen in H1. split; [done|]. intros Hd i. rewrite (H2 Hd i). split.
    + intros (k & s & j & Hk & Hb & Hj & ->). unfold segs in Hk. rewrite list_lookup_fmap in Hk. apply fmap_Some in Hk as (c & Hk & ->).
      by exists k, c, j.
    + intros (k & c & j & Hk & Hb & Hj & ->). exists k, (seg_lines c), j. split; [|done]. unfold segs. by rewrite list_lookup_fmap, Hk.
Qed.

(** ** chunkmerge.go: review.md of a resumed persona *)

(** [writeMergedAgent]: the prior review.md ahead of the fresh output. *)
Definition merged_review (old content : string) : string :=
  if (old =? "")%string then content
  else if (content =? "")%string then old
  else old +:+ LF +:+ chunkBoundaryLine +:+ LF +:+ content.

(** The fresh chunks' segments come after the prior ones, so the bin indices of the fresh
    result, which status.json records, name the prior chunks. *)
Lemma framed_app a b : a <> [] -> b <> [] -> framed (a ++ b) = framed a ++ chunkBoundaryLine :: framed b.
Proof.
  intros Ha Hb. induction a as [|s a IH]; [done|]. destruct a as [|t a]; [by destruct b|].
  change ((s :: t :: a) ++ b) with (s :: t :: (a ++ b)). rewrite !framed_cons, <- app_assoc. cbn [app]. do 2 f_equal. by apply IH.
Qed.

Lemma merged_review_segments olds news : olds <> [] -> news <> [] ->
  joinChunkContents olds <> "" -> joinChunkContents news <> "" ->
  Split (merged_review (joinChunkContents olds) (joinChunkContents news)) LF = framed ((seg_lines <$> olds) ++ (seg_lines <$> news)).
Proof.
  intros Ho Hn Ho' Hn'. unfold merged_review. rewrite (proj2 (String.eqb_neq _ "")) by done. rewrite (proj2 (String.eqb_neq _ "")) by done.
  rewrite framed_app by by intros ?%fmap_nil_inv. rewrite <- !join_framed by done.
  rewrite <- Split_framed. by rewrite !str_app_assoc.
Qed.

(** A resumed persona whose fresh bin 0 was refused: the prior chunk's line is excluded in
    its place. *)
Example resume_excludes_the_prior_chunk :
  let review := merged_review (joinChunkContents ["prior prose at a.go:1"]) (joinChunkContents ["refused draft at b.go:2"; "fine prose at c.go:3"]) in
  Split review LF !! 0 = Some "prior prose at a.go:1" /\ Split review LF !! 2 = Some "refused draft at b.go:2" /\ elements (fst (salvagedSegmentLines (Split review LF) [0%Z])) = [0].
Proof. by vm_compute. Qed.

(** ** Witnesses *)

Definition sample_contents : list string := ["a.go:1 is wrong" +:+ LF +:+ chunkBoundaryLine; "b.go:2 is fine"; ""].

Lemma chunk_framing_witness :
  sample_contents <> [] /\ Split (joinChunkContents sample_contents) LF =
    ["a.go:1 is wrong"; neutral; chunkBoundaryLine; "b.go:2 is fine"; chunkBoundaryLine; ""] /\ chunkSegmentBounds (Split (joinChunkContents sample_contents) LF) 3 = (3, 4, true).
Proof.
  assert (sample_contents <> []) as H by done. split; [done|]. split; [by vm_compute|].
  destruct (chunk_framing sample_contents [] H) as (_ & _ & Hb & _). exact (Hb 1 "b.go:2 is fine" 0 eq_refl (Nat.lt_0_succ 0)).
Defined.

Definition sample_diff : bytes :=
  to_bytes ("preamble" +:+ LF +:+ "diff --git a/x b/x" +:+ LF +:+ "+1" +:+ LF +:+ "+2" +:+ LF +:+ "diff --git a/y b/y" +:+ LF +:+ "+3").

Example chunkDiff_sample : length <$> chunkDiff sample_diff 4 = [34; 21] /\ countDiffFiles sample_diff = 2 /\ diffPrefixLines sample_diff = 1.
Proof. by vm_compute. Qed.
