(* ===== verification/ChunkMerge.v ===== *)
(** * Merging the chunks of a persona

    src/internal/fanout: the fold of a chunked persona's results into one record
    (chunker.go [mergeChunkResults], [mergeResultGroup], [promoteRePackedDegradation]),
    the findings read from a result (engine.go [parseFindings]) and the salvage fields
    status.json records (artifacts.go); the reader of those fields in
    src/internal/reconcile/justification.go [sourceSalvage]. Counters are unbounded
    integers; the parsed-finding memo, which caches [parseFindings], is left out, and so
    are the fields no line of these functions reads or writes. *)

From Stdlib Require Import Ascii String.
From stdpp Require Import prelude strings gmap list.
From Stdlib Require Import ZArith Lia.
From S2P Require Import Prelude GoString GoSort Stream ModelOutput Think Budget Chunker.

Open Scope string_scope.
Open Scope list_scope.
Open Scope Z_scope.

Definition StatusOK : string := "ok".
Definition StatusFailed : string := "failed".
Definition StatusTimeout : string := "timeout".
Definition degradationOverflow : string := "overflow".

(** engine.go [Result]. A call record stays opaque. *)
Record Result {CallRecord : Type} := mkResult {
  Agent : string;
  Content : string;
  Status : string;
  Err : option string;
  DurationMS : Z;
  FallbackUsed : bool;
  FallbackFrom : string;
  FallbackModel : string;
  r_Truncation : Truncation;
  Requeues : Z;
  UnitAttempts : Z;
  DiffTruncation : Truncation;
  servedChunkFiles : option (list string);
  servedRePacked : bool;
  ResponseTruncated : bool;
  Salvaged : bool;
  SalvagedOnStop : bool;
  UnparseableResponse : bool;
  ThinkSuppressed : bool;
  ThinkOnlyAttempts : Z;
  UnparseableChunks : Z;
  SilentChunks : Z;
  Tools : bool;
  Turns : Z;
  ToolCalls : Z;
  ToolBytes : Z;
  ToolsDegraded : bool;
  ToolsRequested : bool;
  TrippedBudgets : list string;
  ToolsDegradedReason : string;
  CacheHit : bool;
  UnreviewedChunks : Z;
  EffectiveBudget : Z;
  ResolvedWindow : Z;
  ReservedOutputTokens : Z;
  ReasoningReserveTokens : Z;
  ChunkCount : Z;
  DegradationAction : string;
  ResolvedMaxTokens : Z;
  Model : string;
  TokensIn : Z;
  TokensOut : Z;
  CallRecords : list CallRecord;
  chunkContents : option (list string);
  chunkSalvaged : list bool;
  chunkSalvagedOnStop : list bool;
}.
Arguments Result : clear implicits.

Section merge.
Context {U : UnicodeCase} {Rec : Type}.
Implicit Types (r : Result Rec) (g : list (Result Rec)).

(** ** Findings of a result *)

Definition parse_reply (content : string) : option (list (Finding * string)) :=
  match SplitThink (to_bytes content) with
  | Some (answer, _) => ParseModelOutput (of_bytes answer)
  | None => None
  end.

(** The loop over [chunkContents], the flags read as far as they are aligned. *)
Fixpoint parse_bins (contents : list string) (refused : list bool) : option (list (Finding * string)) :=
  match contents with
  | [] => Some []
  | c :: contents' =>
      rest ← parse_bins contents' (tail refused);
      if default false (head refused) then Some rest
      else found ← parse_reply c; Some (found ++ rest)
  end.

Definition refused_bins (r : Result Rec) (contents : list string) : list bool :=
  let perChunk := bool_decide (length (chunkSalvaged r) = length contents) in
  let onStop := perChunk && bool_decide (length (chunkSalvagedOnStop r) = length contents) in
  if perChunk then
    zip_with (fun s o => s && negb (onStop && o)) (chunkSalvaged r)
      (if onStop then chunkSalvagedOnStop r else replicate (length contents) false)
  else [].

Definition parseFindings (r : Result Rec) : option (list (Finding * string)) :=
  match chunkContents r with
  | None => if Salvaged r && ResponseTruncated r then Some [] else parse_reply (Content r)
  | Some contents =>
      if negb (bool_decide (length (chunkSalvaged r) = length contents)) && Salvaged r then Some []
      else parse_bins contents (refused_bins r contents)
  end.
Definition ParsedFindingCount (r : Result Rec) : option nat :=
  if (Content r =? "")%string then Some O else length <$> parseFindings r.

(** ** chunker.go *)

(** A Go slice that is nil when it is empty. *)
Definition shed (t : Truncation) : bool := Truncated t || negb (bool_decide (FilesDropped t = [])).

Definition set_Truncation (t : Truncation) (r : Result Rec) : Result Rec :=
  mkResult _ (Agent r) (Content r) (Status r) (Err r) (DurationMS r) (FallbackUsed r) (FallbackFrom r) (FallbackModel r)
    t (Requeues r) (UnitAttempts r) (DiffTruncation r) (servedChunkFiles r) (servedRePacked r) (ResponseTruncated r)
    (Salvaged r) (SalvagedOnStop r) (UnparseableResponse r) (ThinkSuppressed r) (ThinkOnlyAttempts r) (UnparseableChunks r)
    (SilentChunks r) (Tools r) (Turns r) (ToolCalls r) (ToolBytes r) (ToolsDegraded r) (ToolsRequested r) (TrippedBudgets r)
    (ToolsDegradedReason r) (CacheHit r) (UnreviewedChunks r) (EffectiveBudget r) (ResolvedWindow r) (ReservedOutputTokens r)
    (ReasoningReserveTokens r) (ChunkCount r) (DegradationAction r) (ResolvedMaxTokens r) (Model r) (TokensIn r) (TokensOut r)
    (CallRecords r) (chunkContents r) (chunkSalvaged r) (chunkSalvagedOnStop r).

Definition promoteDiffTruncation (r : Result Rec) : Result Rec :=
  if shed (r_Truncation r) then r else set_Truncation (DiffTruncation r) r.

(** One content-bearing chunk: content, salvaged, on a stop reason. *)
Record chunkBin := mkBin { content : string; salvaged : bool; onStop : bool }.
Definition bin_of (r : Result Rec) : chunkBin := mkBin (Content r) (Salvaged r) (SalvagedOnStop r).
Definition has_content (r : Result Rec) : bool := negb (TrimSpace (Content r) =? "")%string.
Definition bins_of (g : list (Result Rec)) : list chunkBin := bin_of <$> filter (fun r => has_content r = true) g.

(** A count per key, in first-seen order. *)
Fixpoint count_keys {A} (key : A -> option string) (l : list A) (acc : list (string * nat)) : list (string * nat) :=
  match l with
  | [] => acc
  | x :: l' =>
      count_keys key l'
        match key x with
        | None => acc
        | Some k => if bool_decide (k ∈ fst <$> acc)
                    then (fun p : string * nat => if (fst p =? k)%string then (k, S (snd p)) else p) <$> acc
                    else acc ++ [(k, 1%nat)]
        end
  end.

(** The served models: the key of a chunk, the first chunk with a key, whether some chunk
    reached it without failing over. *)
Definition served_key (r : Result Rec) : option string :=
  let m := TrimSpace (Model r) in
  if (Status r =? StatusOK)%string && negb (m =? "")%string then Some (ToLower m) else None.
Definition served_first (g : list (Result Rec)) (k : string) : option (Result Rec) :=
  head (filter (fun r => served_key r = Some k) g).
Definition served_primary (g : list (Result Rec)) (k : string) : bool :=
  existsb (fun r => bool_decide (served_key r = Some k) && negb (FallbackUsed r)) g.
Definition best_served_step (g : list (Result Rec)) (best : option (Result Rec) * nat * bool) (kc : string * nat) :=
  let '(src, count, primary) := best in
  let '(k, c) := kc in
  let p := served_primary g k in
  if (count <? c)%nat || ((c =? count)%nat && p && negb primary) then (served_first g k, c, p) else best.
Definition best_served (g : list (Result Rec)) : option (Result Rec) :=
  fst (fst (foldl (best_served_step g) (None, O, false) (count_keys served_key g []))).

Definition fallback_key (r : Result Rec) : option string :=
  if FallbackUsed r && negb (FallbackModel r =? "")%string then Some (FallbackModel r) else None.
Definition modal_step (best : string * nat) (kc : string * nat) : string * nat :=
  if (snd best <? snd kc)%nat then kc else best.
Definition fallback_froms (g : list (Result Rec)) : gset string :=
  list_to_set (FallbackFrom <$> filter (fun r => FallbackUsed r && negb (FallbackFrom r =? "")%string = true) g).

Definition first_err (acc : option string) (r : Result Rec) : option string :=
  if (Status r =? StatusOK)%string then acc else match acc with None => Err r | Some _ => acc end.
Definition first_diff (acc : Truncation) (r : Result Rec) : Truncation := if shed acc then acc else DiffTruncation r.
Definition first_reason (acc : string) (r : Result Rec) : string := if (acc =? "")%string then ToolsDegradedReason r else acc.
Definition sum_over (f : Result Rec -> Z) (g : list (Result Rec)) : Z := foldl (fun acc r => acc + f r) 0 g.

(** [promoteRePackedDegradation]: the files its re-packed chunks shed, the action, and the
    smallest budget, present once a chunk was re-packed. *)
Definition repack_step (acc : gset string * option Z * string) (r : Result Rec) : gset string * option Z * string :=
  let '(dropped, budget, action) := acc in
  if negb (servedRePacked r) then acc
  else
    (dropped ∪ list_to_set (FilesDropped (r_Truncation r)),
     Some match budget with
          | None => EffectiveBudget r
          | Some b => if EffectiveBudget r <? b then EffectiveBudget r else b
          end,
     if (action =? degradationOverflow)%string then action else DegradationAction r).
Definition promoteRePackedDegradation (out : Result Rec) (g : list (Result Rec)) : Result Rec :=
  match foldl repack_step (∅, None, "") g with
  | (_, None, _) => out
  | (dropped, Some budget, action) =>
      let dropped := dropped ∪ list_to_set (FilesDropped (DiffTruncation out)) in
      let zero := budget =? 0 in
      mkResult _ (Agent out) (Content out) (Status out) (Err out) (DurationMS out) (FallbackUsed out) (FallbackFrom out)
        (FallbackModel out)
        (if bool_decide (dropped = ∅) then r_Truncation out
         else mkTruncation true (sort_strings (elements dropped)) false)
        (Requeues out) (UnitAttempts out) (DiffTruncation out) (servedChunkFiles out) (servedRePacked out)
        (ResponseTruncated out) (Salvaged out) (SalvagedOnStop out) (UnparseableResponse out) (ThinkSuppressed out)
        (ThinkOnlyAttempts out) (UnparseableChunks out) (SilentChunks out) (Tools out) (Turns out) (ToolCalls out)
        (ToolBytes out) (ToolsDegraded out) (ToolsRequested out) (TrippedBudgets out) (ToolsDegradedReason out)
        (CacheHit out) (UnreviewedChunks out) budget (ResolvedWindow out)
        (if zero then 0 else ReservedOutputTokens out) (if zero then 0 else ReasoningReserveTokens out)
        (Z.of_nat (length g)) (if (action =? "")%string then DegradationAction out else action)
        (if zero then 0 else ResolvedMaxTokens out) (Model out) (TokensIn out) (TokensOut out) (CallRecords out)
        (chunkContents out) (chunkSalvaged out) (chunkSalvagedOnStop out)
  end.

(** The fold of one persona's raw chunk results; [serial] when its lane runs one chunk at a
    time. *)
Definition mergeResultGroup (serial : bool) (g0 : Result Rec) (gs : list (Result Rec)) : option (Result Rec) :=
  let g := g0 :: gs in
  let bins := bins_of g in
  let contents := content <$> bins in
  let okCount := length (filter (fun r => Status r = StatusOK) g) in
  let any (f : Result Rec -> bool) := existsb f g in
  let firstErr := foldl first_err None g in
  let served := best_served g in
  let dflt {A} (f : Result Rec -> A) : A := match served with Some src => f src | None => f g0 end in
  let fallbackModel := fst (foldl modal_step ("", O) (count_keys fallback_key g [])) in
  let unparseable := sum_over (fun r => if UnparseableResponse r then 1 else 0) g in
  let partial := (0 <? okCount)%nat && (okCount <? length g)%nat in
  let sawTimeout := any (fun r => (Status r =? StatusTimeout)%string) in
  let status := if (0 <? okCount)%nat then StatusOK else if sawTimeout then StatusTimeout else StatusFailed in
  let out (unparseableResponse : bool) := mkResult _ (Agent g0) (joinChunkContents contents) status
    (if (0 <? okCount)%nat then None else firstErr)
    (if serial then sum_over DurationMS g else foldl (fun acc r => if acc <? DurationMS r then DurationMS r else acc) 0 g)
    (any FallbackUsed) (Join (sort_strings (elements (fallback_froms g))) ",") fallbackModel (r_Truncation g0)
    (sum_over Requeues g) (foldl (fun acc r => if acc <? UnitAttempts r then UnitAttempts r else acc) 0 g)
    (foldl first_diff (DiffTruncation g0) g) None false (any ResponseTruncated) (any Salvaged) false
    unparseableResponse (any ThinkSuppressed) (sum_over ThinkOnlyAttempts g) unparseable (sum_over SilentChunks g)
    (any Tools) (sum_over Turns g) (sum_over ToolCalls g) (sum_over ToolBytes g) (any ToolsDegraded) (any ToolsRequested)
    (mjoin (TrippedBudgets <$> g)) (foldl first_reason (ToolsDegradedReason g0) g) (forallb CacheHit g)
    (if partial then Z.of_nat (length g) - Z.of_nat okCount else UnreviewedChunks g0)
    (EffectiveBudget g0) (dflt ResolvedWindow) (dflt ReservedOutputTokens) (dflt ReasoningReserveTokens) (ChunkCount g0)
    (DegradationAction g0) (dflt ResolvedMaxTokens) (dflt Model) (sum_over TokensIn g) (sum_over TokensOut g)
    (mjoin (CallRecords <$> g)) (if bool_decide (contents = []) then None else Some contents)
    (salvaged <$> bins) (onStop <$> bins) in
  n ← ParsedFindingCount (out false);
  Some (promoteDiffTruncation (promoteRePackedDegradation (out ((n =? 0)%nat && (0 <? unparseable))) g)).

(** [mergeChunkResults]: one result per agent, in first-appearance order. *)
Definition agents_of (results : list (Result Rec)) : list string :=
  foldl (fun acc r => if bool_decide (Agent r ∈ acc) then acc else acc ++ [Agent r]) [] results.
Definition merge_agent (serialSet : gset string) (results : list (Result Rec)) (name : string) : option (Result Rec) :=
  match filter (fun r => Agent r = name) results with
  | [] => None
  | [r] => Some (promoteDiffTruncation r)
  | g0 :: gs => mergeResultGroup (bool_decide (Agent g0 ∈ serialSet)) g0 gs
  end.
Definition mergeChunkResults (serialSet : gset string) (results : list (Result Rec)) : option (list (Result Rec)) :=
  mapM (merge_agent serialSet results) (agents_of results).

(** ** artifacts.go: what status.json records of a salvage *)

Fixpoint true_indices (i : nat) (flags : list bool) : list Z :=
  match flags with
  | [] => []
  | b :: flags' => if b then Z.of_nat i :: true_indices (S i) flags' else true_indices (S i) flags'
  end.
Definition contents_of (r : Result Rec) : list string := default [] (chunkContents r).
Definition salvagedChunkIndices (r : Result Rec) : list Z :=
  if bool_decide (length (chunkSalvaged r) = length (contents_of r)) then true_indices 0 (chunkSalvaged r) else [].
Definition salvagedOnStop (r : Result Rec) : bool * list Z :=
  match chunkContents r with
  | None => (Salvaged r && SalvagedOnStop r, [])
  | Some contents =>
      if negb (bool_decide (length (chunkSalvaged r) = length contents)) ||
         negb (bool_decide (length (chunkSalvagedOnStop r) = length contents)) then (false, [])
      else (false, true_indices 0 (zip_with andb (chunkSalvagedOnStop r) (chunkSalvaged r)))
  end.

(** The salvage and suppression fields of [AgentStatus]; a reader's [sourceSalvage]. *)
Record AgentStatus := mkStatus {
  st_Salvaged : bool;
  st_SalvagedChunks : list Z;
  st_SalvagedOnStop : bool;
  st_SalvagedOnStopChunks : list Z;
  st_ThinkSuppressed : bool;
  st_UnparseableChunks : Z;
  st_ChunkCount : Z;
}.
Definition statusFor (r : Result Rec) : AgentStatus :=
  let '(onStop, onStopChunks) := salvagedOnStop r in
  mkStatus (Salvaged r) (salvagedChunkIndices r) onStop onStopChunks (ThinkSuppressed r) (UnparseableChunks r) (ChunkCount r).
Definition sourceSalvage (st : AgentStatus) : bool * list Z :=
  if negb (st_Salvaged st) then (false, st_SalvagedChunks st)
  else if bool_decide (st_SalvagedChunks st = []) then (negb (st_SalvagedOnStop st), [])
  else if bool_decide (st_SalvagedOnStopChunks st = []) then (true, st_SalvagedChunks st)
  else
    let abandoned := filter (fun b => b ∉ st_SalvagedOnStopChunks st) (st_SalvagedChunks st) in
    (negb (bool_decide (abandoned = [])), abandoned).
End merge.

(** ** justification.go: the lines withheld from a narrative *)

(** [None] withholds the whole review.md: a salvage no bin accounts for. *)
Definition salvage_exclusion (st : AgentStatus) (lines : list string) : option (gset nat) :=
  let '(s, bins) := sourceSalvage st in
  if s && bool_decide (bins = []) then None
  else
    let '(out, desynced) := salvagedSegmentLines lines (if s then bins else []) in
    if desynced then None else Some out.

Section facts.
Context {U : UnicodeCase} {Rec : Type}.
Implicit Types (r : Result Rec) (g results : list (Result Rec)).

(** ** Reading a reply is total *)

Definition reply (c : string) : list (Finding * string) := default [] (parse_reply c).

Lemma parse_reply_eq c : parse_reply c = Some (reply c).
Proof.
  unfold reply, parse_reply. destruct (split_loop_spec (S (length (to_bytes c))) (to_bytes c) (mkSplit (to_bytes c) false [] [] false false) [])
    as (answer & reasoning & E & _); [simpl; lia|by repeat split|done|]. unfold SplitThink. rewrite E. unfold ParseModelOutput.
  destruct (scanModelOutput_ok (of_bytes answer)) as (found & sp & -> & _). done.
Qed.

Lemma parse_bins_eq contents refused : length refused = length contents ->
  parse_bins contents refused = Some (mjoin (zip_with (fun c (b : bool) => if b then [] else reply c) contents refused)).
Proof.
  revert refused. induction contents as [|c contents IH]; intros [|b refused] H; try done. cbn [parse_bins tail head].
  rewrite IH by (cbn in H; lia). cbn. destruct b; [done|]. by rewrite parse_reply_eq.
Qed.

Lemma parse_bins_total contents refused : is_Some (parse_bins contents refused).
Proof.
  revert refused. induction contents as [|c contents IH]; intros refused; [done|]. cbn [parse_bins].
  destruct (IH (tail refused)) as [l ->]. cbn. destruct (default false (head refused)); [done|]. by rewrite parse_reply_eq.
Qed.

Lemma parseFindings_total r : is_Some (parseFindings r).
Proof.
  unfold parseFindings. destruct (chunkContents r) as [contents|].
  - destruct (_ && _); [done|apply parse_bins_total].
  - destruct (_ && _); [done|]. by rewrite parse_reply_eq.
Qed.

Lemma ParsedFindingCount_total r : is_Some (ParsedFindingCount r).
Proof. unfold ParsedFindingCount. destruct (_ =? _)%string; [done|]. by destruct (parseFindings_total r) as [l ->]. Qed.

(** ** The merged record *)

(** What the merge theorems read of a merged record. *)
Record merged (g0 : Result Rec) (gs : list (Result Rec)) (m : Result Rec) : Prop := mkMerged {
  mg_Agent : Agent m = Agent g0;
  mg_Content : Content m = joinChunkContents (content <$> bins_of (g0 :: gs));
  mg_contents : chunkContents m = if bool_decide (content <$> bins_of (g0 :: gs) = []) then None else Some (content <$> bins_of (g0 :: gs));
  mg_flags : chunkSalvaged m = salvaged <$> bins_of (g0 :: gs) /\ chunkSalvagedOnStop m = onStop <$> bins_of (g0 :: gs);
  mg_Salvaged : Salvaged m = existsb Salvaged (g0 :: gs) /\ SalvagedOnStop m = false;
  mg_Status : Status m = if existsb (fun r => (Status r =? StatusOK)%string) (g0 :: gs) then StatusOK
                         else if existsb (fun r => (Status r =? StatusTimeout)%string) (g0 :: gs) then StatusTimeout else StatusFailed;
  mg_Err : Err m = if existsb (fun r => (Status r =? StatusOK)%string) (g0 :: gs) then None else foldl first_err None (g0 :: gs);
  mg_sums : TokensIn m = sum_over TokensIn (g0 :: gs) /\ TokensOut m = sum_over TokensOut (g0 :: gs) /\
    Turns m = sum_over Turns (g0 :: gs) /\ ToolCalls m = sum_over ToolCalls (g0 :: gs) /\
    ToolBytes m = sum_over ToolBytes (g0 :: gs) /\ Requeues m = sum_over Requeues (g0 :: gs) /\
    SilentChunks m = sum_over SilentChunks (g0 :: gs);
  mg_records : CallRecords m = mjoin (CallRecords <$> g0 :: gs);
  mg_diff : DiffTruncation m = foldl first_diff (DiffTruncation g0) (g0 :: gs);
  mg_truncated : shed (DiffTruncation m) = true -> shed (r_Truncation m) = true;
}.

Lemma count_ok_pos g : (0 <? length (filter (fun r => Status r = StatusOK) g))%nat = existsb (fun r => (Status r =? StatusOK)%string) g.
Proof.
  induction g as [|r g IH]; [done|]. rewrite filter_cons. cbn [existsb]. destruct (String.eqb_spec (Status r) StatusOK) as [E|E].
  - by rewrite decide_True.
  - by rewrite decide_False.
Qed.

Lemma mergeResultGroup_merged serial (g0 : Result Rec) (gs : list (Result Rec)) : exists m, mergeResultGroup serial g0 gs = Some m /\ merged g0 gs m.
Proof.
  unfold mergeResultGroup. rewrite count_ok_pos. match goal with |- context [ParsedFindingCount ?o] => destruct (ParsedFindingCount_total o) as [n ->] end.
  cbn [mbind option_bind]. eexists. split; [reflexivity|]. unfold promoteRePackedDegradation.
  destruct (foldl repack_step _ _) as [[dropped [budget|]] action]; unfold promoteDiffTruncation;
    (destruct (shed (r_Truncation _)) eqn:Es; (split; try reflexivity; try (split_and!; reflexivity);
       intros H; (exact Es || exact H))).
Qed.
(** ** One record per agent *)

Definition same_counts (f : Result Rec -> Z) (m : Result Rec) (g : list (Result Rec)) : Prop := f m = sum_over f g.
Definition counters : list (Result Rec -> Z) := [TokensIn; TokensOut; Turns; ToolCalls; ToolBytes; Requeues; SilentChunks].

Lemma sum_over_acc (f : Result Rec -> Z) g n : foldl (fun acc r => acc + f r) n g = n + sum_over f g.
Proof.
  unfold sum_over. revert n. induction g as [|r g IH]; intros n; [cbn; lia|]. cbn [foldl]. rewrite IH, (IH (0 + f r)). lia.
Qed.

Lemma sum_over_cons (f : Result Rec -> Z) r g : sum_over f (r :: g) = f r + sum_over f g.
Proof. unfold sum_over at 1. cbn [foldl]. by rewrite sum_over_acc. Qed.

Lemma sum_over_app (f : Result Rec -> Z) g g' : sum_over f (g ++ g') = sum_over f g + sum_over f g'.
Proof. induction g as [|r g IH]; [done|]. cbn [app]. rewrite !sum_over_cons, IH. lia. Qed.

Lemma sum_over_Permutation (f : Result Rec -> Z) g g' : g ≡ₚ g' -> sum_over f g = sum_over f g'.
Proof. induction 1; rewrite ?sum_over_cons in *; lia. Qed.

(** A record and the group it stands for. *)
Record stands_for (g : list (Result Rec)) (m : Result Rec) : Prop := mkStands {
  sf_agent : forall r, r ∈ g -> Agent r = Agent m;
  sf_ok : Status m = StatusOK <-> exists r, r ∈ g /\ Status r = StatusOK;
  sf_counts : Forall (fun f => same_counts f m g) counters;
  sf_records : CallRecords m = mjoin (CallRecords <$> g);
  sf_diff : forall r, r ∈ g -> shed (DiffTruncation r) = true -> shed (r_Truncation m) = true;
}.

Lemma first_diff_shed r g t : r ∈ g -> shed (DiffTruncation r) = true -> shed (foldl first_diff t g) = true.
Proof.
  intros Hr Hs. revert t. induction g as [|r' g IH]; intros t; [by apply elem_of_nil in Hr|]. cbn [foldl].
  assert (forall t, shed t = true -> shed (foldl first_diff t g) = true) as Hkeep.
  { clear. induction g as [|x g IH]; intros t Ht; [done|]. cbn [foldl]. apply IH. unfold first_diff. by rewrite Ht. }
  apply elem_of_cons in Hr as [->|Hr]; [|by apply IH]. apply Hkeep. unfold first_diff. by destruct (shed t) eqn:E.
Qed.

Lemma promote_stands_for r : stands_for [r] (promoteDiffTruncation r).
Proof.
  assert (forall {A} (f : Result Rec -> A), (forall t, f (set_Truncation t r) = f r) -> f (promoteDiffTruncation r) = f r) as Hp.
  { intros A f Hf. unfold promoteDiffTruncation. by destruct (shed _). }
  split.
  - intros x ->%list_elem_of_singleton. by rewrite Hp.
  - rewrite Hp by done. split; [intros H; exists r; split; [left|done]|by intros (x & ->%list_elem_of_singleton & H)].
  - unfold counters, same_counts. repeat constructor; rewrite Hp by done; rewrite sum_over_cons; cbn; lia.
  - rewrite Hp by done. cbn. by rewrite app_nil_r.
  - intros x ->%list_elem_of_singleton Hs. unfold promoteDiffTruncation. by destruct (shed (r_Truncation r)) eqn:E.
Qed.

Lemma merged_stands_for (g0 : Result Rec) gs m : (forall r, r ∈ gs -> Agent r = Agent g0) -> merged g0 gs m -> stands_for (g0 :: gs) m.
Proof.
  intros Ha Hm. split.
  - intros r [->|Hr]%elem_of_cons; rewrite (mg_Agent _ _ _ Hm); [done|by apply Ha].
  - rewrite (mg_Status _ _ _ Hm). destruct (existsb _ (g0 :: gs)) eqn:E.
    + apply existsb_exists in E as (r & Hr%list_elem_of_In & Hs%String.eqb_eq). split; [intros _; by exists r|done].
    + split.
      * intros H. exfalso. unfold StatusTimeout, StatusFailed, StatusOK in H. clear E. by destruct (existsb _ _).
      * intros (r & Hr & Hs). exfalso. apply not_true_iff_false in E. apply E, existsb_exists. exists r.
        split; [by apply list_elem_of_In|by apply String.eqb_eq].
  - destruct (mg_sums _ _ _ Hm) as (H1 & H2 & H3 & H4 & H5 & H6 & H7). unfold counters, same_counts. by repeat constructor.
  - apply (mg_records _ _ _ Hm).
  - intros r Hr Hs. apply (mg_truncated _ _ _ Hm). rewrite (mg_diff _ _ _ Hm). by apply (first_diff_shed r).
Qed.

Lemma merge_agent_stands serialSet results name : name ∈ Agent <$> results ->
  exists m, merge_agent serialSet results name = Some m /\ Agent m = name /\
    stands_for (filter (fun r => Agent r = name) results) m.
Proof.
  intros Hname. unfold merge_agent. assert (forall r, r ∈ filter (fun r => Agent r = name) results -> Agent r = name) as Hall.
  { intros r Hr. by apply list_elem_of_filter in Hr as [? _]. }
  apply list_elem_of_fmap in Hname as (r0 & -> & Hr0).
  assert (r0 ∈ filter (fun r => Agent r = Agent r0) results) as Hin by (by apply list_elem_of_filter).
  destruct (filter (fun r => Agent r = Agent r0) results) as [|g0 [|g1 gs]]; [by apply elem_of_nil in Hin| |].
  - pose proof (promote_stands_for g0) as H. eexists. split; [done|]. split; [|done].
    rewrite <- (sf_agent _ _ H g0) by left. apply Hall. left.
  - destruct (mergeResultGroup_merged (bool_decide (Agent g0 ∈ serialSet)) g0 (g1 :: gs)) as (m & -> & Hm).
    exists m. split; [done|]. split; [rewrite (mg_Agent _ _ _ Hm); apply Hall; left|]. apply merged_stands_for; [|done].
    intros r Hr. rewrite (Hall g0) by left. apply Hall. by right.
Qed.

Lemma agents_of_spec results : NoDup (agents_of results) /\ (forall a, a ∈ agents_of results <-> a ∈ Agent <$> results).
Proof.
  unfold agents_of. apply (foldl_invariant (fun done acc => NoDup acc /\ forall a, a ∈ acc <-> a ∈ Agent <$> (done : list (Result Rec)))).
  - split; [constructor|]. intros a. done.
  - intros done r todo acc _ [Hn Ha]. case_bool_decide as Hin.
    + split; [exact Hn|]. intros a. rewrite Ha, fmap_app, elem_of_app. cbn [fmap list_fmap]. rewrite list_elem_of_singleton.
      split; [by left|]. intros [?| ->]; [done|by apply Ha].
    + split.
      * apply NoDup_app. split; [exact Hn|]. split; [|apply NoDup_singleton]. intros a H1 ->%list_elem_of_singleton. done.
      * intros a. rewrite elem_of_app, Ha, fmap_app, elem_of_app. done.
Qed.

Lemma mapM_stands serialSet results names : (forall a, a ∈ names -> a ∈ Agent <$> results) ->
  exists out, mapM (merge_agent serialSet results) names = Some out /\ Agent <$> out = names /\
    Forall2 (fun a m => Agent m = a /\ stands_for (filter (fun r => Agent r = a) results) m) names out.
Proof.
  induction names as [|a names IH]; intros H; [by exists []|].
  destruct (merge_agent_stands serialSet results a) as (m & Em & Ea & Hm); [apply H; left|].
  destruct IH as (out & Eo & Ea' & Ho); [intros b Hb; apply H; by right|].
  exists (m :: out). cbn. rewrite Em. cbn. rewrite Eo. cbn. split; [done|]. split; [by rewrite Ea, Ea'|]. by constructor.
Qed.
End facts.

Section theorems.
Context {U : UnicodeCase} {Rec : Type}.
Implicit Types (r : Result Rec) (g results : list (Result Rec)).

(** One record per persona. Merging always answers, one record per agent in order of
    first appearance. Nothing a chunk spent is lost or counted twice: tokens, turns, tool
    calls, requeues and silent chunks add up and every call record is kept. A persona is
    ok exactly when one of its chunks is, and a file shed from the whole diff is on the
    record of every persona whose chunks carry it. *)
Theorem mergeChunkResults_conserves (serialSet : gset string) (results : list (Result Rec)) :
  exists out, mergeChunkResults serialSet results = Some out /\
    NoDup (Agent <$> out) /\ Agent <$> out = agents_of results /\
    (forall a, a ∈ Agent <$> out <-> a ∈ Agent <$> results) /\
    Forall (fun f => sum_over f out = sum_over f results)
      [TokensIn; TokensOut; Turns; ToolCalls; ToolBytes; Requeues; SilentChunks] /\
    mjoin (CallRecords <$> out) ≡ₚ mjoin (CallRecords <$> results) /\
    Forall (fun m =>
      (Status m = StatusOK <-> exists r, r ∈ results /\ Agent r = Agent m /\ Status r = StatusOK) /\
      (forall r, r ∈ results -> Agent r = Agent m -> shed (DiffTruncation r) = true -> shed (r_Truncation m) = true)) out.
Proof.
  destruct (agents_of_spec results) as [Hn Ha].
  destruct (mapM_stands serialSet results (agents_of results)) as (out & E & Eout & Hout); [intros a Hin; by apply Ha|].
  exists out. split; [done|]. rewrite Eout. split; [done|]. split; [done|]. split; [done|].
  assert (mjoin ((fun a => filter (fun r => Agent r = a) results) <$> agents_of results) ≡ₚ results) as Hp.
  { apply filter_keys_Permutation; [done|]. intros r Hr. apply Ha, list_elem_of_fmap. by exists r. }
  split_and!.
  - change (Forall (fun f => sum_over f out = sum_over f results) counters). apply Forall_forall. intros f Hf.
    rewrite <- (sum_over_Permutation f _ _ Hp). clear -Hout Hf. induction Hout as [|a m names out Hm Hrest IH]; [done|].
    rewrite sum_over_cons, fmap_cons. change (mjoin (?x :: ?y)) with (x ++ mjoin y). rewrite sum_over_app. f_equal; [|exact IH].
    destruct Hm as [_ [_ _ Hc _ _]]. rewrite Forall_forall in Hc. by apply Hc.
  - rewrite <- Hp. clear -Hout. induction Hout as [|a m names out Hm Hrest IH]; [done|]. cbn. rewrite fmap_app, mjoin_app.
    rewrite (sf_records _ _ (proj2 Hm)). by apply Permutation_app_head.
  - apply Forall_forall. intros m Hm. apply list_elem_of_lookup_1 in Hm as (i & Hi).
    destruct (Forall2_lookup_r _ _ _ _ _ Hout Hi) as (a & _ & Ea & Hs).
    assert (forall r, r ∈ filter (fun r => Agent r = a) results <-> r ∈ results /\ Agent r = Agent m) as Hin.
    { intros r. rewrite list_elem_of_filter, Ea. tauto. }
    split; [|intros r Hr E'; apply (sf_diff _ _ Hs); by apply Hin].
    rewrite (sf_ok _ _ Hs). split; [intros (r & [Hr Hag]%Hin & Hok); by exists r|].
    intros (r & Hr & Hag & Hok). exists r. split; [by apply Hin|done].
Qed.
End theorems.

(** ** What a merged record says of its chunks *)

Section provenance.
Context {U : UnicodeCase} {Rec : Type}.
Implicit Types (r : Result Rec) (g results : list (Result Rec)).

(** A chunk's own result, with the flags the client sets: a salvage is on a stop reason
    unless the reply was cut off. *)
Definition raw (r : Result Rec) : Prop :=
  chunkContents r = None /\ SalvagedOnStop r = Salvaged r && negb (ResponseTruncated r) /\
  (Salvaged r = true -> has_content r = true).
(** A promoted draft whose findings are refused. *)
Definition refused (r : Result Rec) : bool := Salvaged r && ResponseTruncated r.
Definition content_chunks (g : list (Result Rec)) : list (Result Rec) := filter (fun r => has_content r = true) g.

Lemma raw_refused r : raw r -> Salvaged r && negb (SalvagedOnStop r) = refused r.
Proof. intros (_ & -> & _). unfold refused. by destruct (Salvaged r), (ResponseTruncated r). Qed.

Lemma raw_parse r : raw r -> parseFindings r = Some (if refused r then [] else reply (Content r)).
Proof. intros (Hc & _). unfold parseFindings. rewrite Hc. fold (refused r). destruct (refused r); [done|apply parse_reply_eq]. Qed.

Lemma mapM_parse g : (forall r, r ∈ g -> raw r) ->
  mapM parseFindings g = Some ((fun r => if refused r then [] else reply (Content r)) <$> g).
Proof.
  induction g as [|r g IH]; intros H; [done|]. cbn. rewrite (raw_parse r) by (apply H; left). cbn.
  rewrite IH by (intros x Hx; apply H; by right). done.
Qed.

Section group.
Context (g0 : Result Rec) (gs : list (Result Rec)) (m : Result Rec).
Context (Hraw : Forall raw (g0 :: gs)) (Hm : merged g0 gs m).
Let kept := content_chunks (g0 :: gs).

Lemma kept_raw r : r ∈ kept -> raw r.
Proof. intros [_ Hr]%list_elem_of_filter. rewrite Forall_forall in Hraw. by apply Hraw. Qed.

Lemma kept_contents : content <$> bins_of (g0 :: gs) = Content <$> kept.
Proof. unfold bins_of. by rewrite <- list_fmap_compose. Qed.

Lemma merged_contents : kept <> [] -> chunkContents m = Some (Content <$> kept).
Proof. intros Hk. rewrite (mg_contents _ _ _ Hm), kept_contents. rewrite bool_decide_eq_false_2; [done|]. by intros ?%fmap_nil_inv. Qed.

Lemma merged_salvaged : chunkSalvaged m = Salvaged <$> kept /\ chunkSalvagedOnStop m = SalvagedOnStop <$> kept.
Proof. destruct (mg_flags _ _ _ Hm) as [-> ->]. unfold bins_of. by rewrite <- !list_fmap_compose. Qed.

Lemma merged_parse : parseFindings m = Some (mjoin ((fun r => if refused r then [] else reply (Content r)) <$> kept)).
Proof.
  destruct (decide (kept = [])) as [E|Hne].
  - assert (chunkContents m = None) as Hc. { rewrite (mg_contents _ _ _ Hm), kept_contents, E. done. }
    rewrite E. unfold parseFindings. rewrite Hc, (mg_Content _ _ _ Hm), kept_contents, E. destruct (_ && _); [done|].
    by vm_compute.
  - destruct merged_salvaged as [Hs Ho]. unfold parseFindings. rewrite (merged_contents Hne), Hs.
    rewrite !length_fmap, bool_decide_eq_true_2 by done. cbn [negb andb]. unfold refused_bins. rewrite Hs, Ho.
    rewrite !length_fmap, !bool_decide_eq_true_2 by done. cbn [andb]. rewrite parse_bins_eq.
    + f_equal. f_equal. pose proof kept_raw as Hk. clear -Hk. induction kept as [|r l IH]; [done|]. cbn. f_equal.
      * by rewrite <- (raw_refused r) by (apply Hk; left).
      * apply IH. intros x Hx. apply Hk. by right.
    + rewrite length_zip_with, !length_fmap. lia.
Qed.

Lemma elem_of_true_indices b i flags : b ∈ true_indices i flags <-> exists k, flags !! k = Some true /\ b = Z.of_nat (i + k).
Proof.
  revert i. induction flags as [|x flags IH]; intros i; [split; [by intros ?%elem_of_nil|by intros (k & ? & _)]|]. cbn [true_indices].
  assert (b ∈ true_indices (S i) flags <-> exists k, flags !! k = Some true /\ b = Z.of_nat (i + S k)) as Hrest.
  { rewrite IH. by setoid_rewrite Nat.add_succ_r. }
  destruct x; rewrite ?elem_of_cons, Hrest; split.
  - intros [->|(k & ? & ?)]; [exists O; split; [done|f_equal; lia]|by exists (S k)].
  - intros ([|k] & H & ->); [left; f_equal; lia|right; by exists k].
  - intros (k & ? & ?). by exists (S k).
  - intros ([|k] & H & ->); [done|by exists k].
Qed.

Lemma indices_of (f : Result Rec -> bool) b : b ∈ true_indices 0 (f <$> kept) <-> exists k r, kept !! k = Some r /\ f r = true /\ b = Z.of_nat k.
Proof.
  rewrite elem_of_true_indices. split.
  - intros (k & Hk & ->). rewrite list_lookup_fmap in Hk. destruct (kept !! k) as [r|] eqn:E; [|done]. injection Hk as Hf. by exists k, r.
  - intros (k & r & Hk & Hf & ->). exists k. by rewrite list_lookup_fmap, Hk, <- Hf.
Qed.

(** The bins the status names are the refused ones. *)
Lemma sourceSalvage_spec : let '(s, bins) := sourceSalvage (statusFor m) in
  (s = false -> forall r, r ∈ kept -> refused r = false) /\
  (s = true -> bins <> [] /\ forall b, b ∈ bins <-> exists k r, kept !! k = Some r /\ refused r = true /\ b = Z.of_nat k).
Proof.
  destruct (mg_Salvaged _ _ _ Hm) as [Hsal Hos]. destruct merged_salvaged as [Hs Ho].
  assert (Salvaged m = true <-> exists r, r ∈ kept /\ Salvaged r = true) as Hany.
  { rewrite Hsal, existsb_exists. split.
    - intros (r & Hr%list_elem_of_In & Hr'). exists r. split; [|done]. apply list_elem_of_filter. split; [|done].
      rewrite Forall_forall in Hraw. by destruct (Hraw r Hr) as (_ & _ & H); apply H.
    - intros (r & [_ Hr]%list_elem_of_filter & Hr'). exists r. split; [by apply list_elem_of_In|done]. }
  destruct (decide (kept = [])) as [E|Hne].
  { assert (Salvaged m = false) as Hf. { apply not_true_iff_false. rewrite Hany, E. by intros (r & ?%elem_of_nil & _). }
    unfold statusFor. destruct (salvagedOnStop m). unfold sourceSalvage. cbn [st_Salvaged]. rewrite Hf. cbn [negb]. split; [|done].
    rewrite E. by intros _ r ?%elem_of_nil. }
  assert (statusFor m = mkStatus (Salvaged m) (true_indices 0 (Salvaged <$> kept)) false
            (true_indices 0 ((fun r => SalvagedOnStop r && Salvaged r) <$> kept)) (ThinkSuppressed m) (UnparseableChunks m)
            (ChunkCount m)) as ->.
  { unfold statusFor, salvagedOnStop, salvagedChunkIndices, contents_of. rewrite (merged_contents Hne), Hs, Ho. cbn [default]. unfold id.
    rewrite !length_fmap, !bool_decide_eq_true_2 by done. cbn [negb orb]. do 2 f_equal. clear.
    induction kept as [|r l IH]; [done|]. cbn. by rewrite IH. }
  unfold sourceSalvage. cbn [st_Salvaged st_SalvagedChunks st_SalvagedOnStop st_SalvagedOnStopChunks].
  destruct (Salvaged m) eqn:Em; cbn [negb].
  - destruct (proj1 Hany eq_refl) as (r0 & Hr0 & Hr0'). apply list_elem_of_lookup in Hr0 as (k0 & Hk0).
    assert (Z.of_nat k0 ∈ true_indices 0 (Salvaged <$> kept)) as Hin0 by (apply indices_of; by exists k0, r0).
    case_bool_decide as He; [rewrite He in Hin0; by apply elem_of_nil in Hin0|].
    case_bool_decide as He'.
    + split; [done|]. intros _. split; [done|]. intros b. rewrite indices_of.
      assert (forall k r, kept !! k = Some r -> Salvaged r = refused r) as Hsame.
      { intros k r Hk. rewrite <- (raw_refused r) by (apply kept_raw; by eapply list_elem_of_lookup_2).
        destruct (Salvaged r) eqn:Er; [|done]. destruct (SalvagedOnStop r) eqn:Eo; [|done]. exfalso.
        assert (Z.of_nat k ∈ true_indices 0 ((fun r => SalvagedOnStop r && Salvaged r) <$> kept)) as Hbad.
        { apply indices_of. exists k, r. by rewrite Er, Eo. }
        rewrite He' in Hbad. by apply elem_of_nil in Hbad. }
      split; intros (k & r & Hk & Hr & ->); exists k, r; (split; [done|]); (split; [|done]); by rewrite <- Hr, (Hsame k r Hk).
    + set (abandoned := filter _ _).
      assert (forall b, b ∈ abandoned <-> exists k r, kept !! k = Some r /\ refused r = true /\ b = Z.of_nat k) as Hab.
      { intros b. unfold abandoned. rewrite list_elem_of_filter, !indices_of. split.
        - intros (Hno & k & r & Hk & Hr & ->). exists k, r. split; [done|]. split; [|done].
          rewrite <- (raw_refused r) by (apply kept_raw; by eapply list_elem_of_lookup_2). rewrite Hr. cbn. apply negb_true_iff.
          apply not_true_iff_false. intros Hon. apply Hno. exists k, r. by rewrite Hon, Hr.
        - intros (k & r & Hk & Hr & ->). rewrite <- (raw_refused r) in Hr by (apply kept_raw; by eapply list_elem_of_lookup_2).
          apply andb_true_iff in Hr as [Hr1 Hr2%negb_true_iff]. split; [|by exists k, r].
          intros (k' & r' & Hk' & Hr' & Hkk). apply Nat2Z.inj in Hkk as <-. rewrite Hk in Hk'. injection Hk' as <-. by rewrite Hr2 in Hr'. }
      split.
      * intros Hz r Hr. apply negb_false_iff, bool_decide_eq_true in Hz. apply not_true_iff_false. intros Hbad.
        apply list_elem_of_lookup in Hr as (k & Hk). assert (Z.of_nat k ∈ abandoned) as H by (apply Hab; by exists k, r).
        rewrite Hz in H. by apply elem_of_nil in H.
      * intros Hz%negb_true_iff%bool_decide_eq_false. by split.
  - split; [|done]. intros _ r Hr. unfold refused. destruct (Salvaged r) eqn:Er; [|done]. assert (false = true) as Hbad; [|done].
    apply Hany. by exists r.
Qed.
End group.
End provenance.

(** C28. A persona's findings and its narrative agree. The findings read from the merged
    record are those of its chunks that hold content, in order, and none of a chunk whose
    salvaged draft was cut off. The lines of review.md withheld from provenance on the
    record status.json keeps are exactly the lines of those same refused chunks. *)
Theorem mergeResultGroup_provenance {U : UnicodeCase} {Rec : Type} (serial : bool) (g0 : Result Rec) (gs : list (Result Rec)) :
  Forall raw (g0 :: gs) ->
  let kept := content_chunks (g0 :: gs) in
  exists m, mergeResultGroup serial g0 gs = Some m /\
    (exists found, mapM parseFindings kept = Some found /\ parseFindings m = Some (mjoin found)) /\
    Forall (fun r => refused r = true -> parseFindings r = Some []) kept /\
    let lines := Split (agentReviewContent (Content m) (chunkContents m)) LF in
    exists out, salvage_exclusion (statusFor m) lines = Some out /\
      forall i, i ∈ out <-> exists k r j, kept !! k = Some r /\ refused r = true /\ (j < length (seg_lines (Content r)))%nat /\
        i = (offset ((fun r => seg_lines (Content r)) <$> kept) k + j)%nat.
Proof.
  intros Hraw kept. destruct (mergeResultGroup_merged serial g0 gs) as (m & E & Hm). exists m. split; [done|].
  pose proof (kept_raw g0 gs Hraw) as Hk. split; [|split].
  - exists ((fun r => if refused r then [] else reply (Content r)) <$> kept). split; [|by apply (merged_parse g0 gs)].
    by apply mapM_parse.
  - apply Forall_forall. intros r Hr Href. rewrite (raw_parse r) by by apply Hk. by rewrite Href.
  - intros lines. pose proof (sourceSalvage_spec g0 gs m Hraw Hm) as Hs. unfold salvage_exclusion.
    destruct (sourceSalvage (statusFor m)) as [s bins]. destruct Hs as [Hs0 Hs1]. fold kept in Hs0, Hs1.
    destruct (decide (kept = [])) as [Ek|Hne].
    { assert (s = false) as ->. { destruct s; [|done]. destruct (Hs1 eq_refl) as [Hn Hb]. destruct bins as [|b bins]; [done|].
        destruct (proj1 (Hb b) ltac:(left)) as (k & r & Hbad & _). by rewrite Ek in Hbad. }
      cbn [andb]. exists ∅. split; [done|]. intros i. rewrite Ek. split; [set_solver|]. by intros (k & r & j & Hbad & _). }
    assert (lines = framed ((fun r => seg_lines (Content r)) <$> kept)) as Hlines.
    { unfold lines. rewrite (merged_contents g0 gs m Hm Hne). cbn [agentReviewContent]. rewrite (mg_Content _ _ _ Hm).
      rewrite (kept_contents g0 gs), join_framed by by intros ?%fmap_nil_inv. by rewrite <- list_fmap_compose. }
    set (segs := (fun r => seg_lines (Content r)) <$> kept) in *.
    assert (s && bool_decide (bins = []) = false) as ->.
    { destruct s; [|done]. cbn. apply bool_decide_eq_false_2. by apply Hs1. }
    pose proof (salvagedSegmentLines_framed segs (if s then bins else [])) as H. rewrite Hlines.
    destruct (salvagedSegmentLines (framed segs) (if s then bins else [])) as [out desynced].
    destruct H as [Hd Ho]; [by intros ?%fmap_nil_inv|apply Forall_fmap, Forall_forall; intros r _; apply seg_lines_free|].
    assert (desynced = false) as ->.
    { rewrite Hd. apply negb_false_iff, forallb_forall. intros b Hb%list_elem_of_In. destruct s; [|by apply elem_of_nil in Hb].
      destruct (Hs1 eq_refl) as [_ Hb']. apply Hb' in Hb as (k & r & Hk' & _ & ->). unfold segs. rewrite length_fmap.
      apply lookup_lt_Some in Hk'. apply andb_true_iff. split; [apply Z.leb_le; lia|apply Z.ltb_lt; lia]. }
    exists out. split; [done|]. intros i. rewrite (Ho eq_refl i). split.
    + intros (k & sg & j & Hk' & Hb & Hj & ->). destruct s; [|by apply elem_of_nil in Hb]. destruct (Hs1 eq_refl) as [_ Hb'].
      apply Hb' in Hb as (k' & r & Hr & Href & Ekk). apply Nat2Z.inj in Ekk as <-. exists k, r, j. split; [done|]. split; [done|].
      unfold segs in Hk'. rewrite list_lookup_fmap, Hr in Hk'. injection Hk' as <-. done.
    + intros (k & r & j & Hr & Href & Hj & ->). exists k, (seg_lines (Content r)), j.
      split; [unfold segs; by rewrite list_lookup_fmap, Hr|]. split; [|done]. destruct s.
      * apply (Hs1 eq_refl). by exists k, r.
      * rewrite (Hs0 eq_refl r) in Href; [done|]. by eapply list_elem_of_lookup_2.
Qed.

(** ** Examples and witnesses *)

Definition no_truncation : Truncation := mkTruncation false [] false.
Definition chunk_result (content : string) (status : string) (salvaged truncated : bool) (tokens : Z) : Result unit :=
  mkResult unit "bruce" content status (if (status =? StatusOK)%string then None else Some "boom") 5 false "" "" no_truncation 0 1
    no_truncation None false truncated salvaged (salvaged && negb truncated) false false 0 0 0 false 1 0 0 false false [] "" false
    0 0 0 0 0 2 "" 0 "gpt" tokens tokens [tt] None [] [].

Definition clean_chunk : Result unit := chunk_result "HIGH|a.go:3|nil deref|check it|correctness|5|x" StatusOK false false 10.
Definition draft_chunk : Result unit := chunk_result "HIGH|b.go:4|a draft|check it|correctness|5|x" StatusOK true true 7.
Definition blank_salvage : Result unit := chunk_result " " StatusOK true false 7.
Definition timed_out : Result unit := chunk_result "" StatusTimeout false false 1.

(** The files a merged record finds, and the lines its narrative withholds. *)
Definition merged_view (g0 : Result unit) (gs : list (Result unit)) : option (option (list string) * option (list nat)) :=
  match mergeResultGroup (U := ascii_case) false g0 gs with
  | None => None
  | Some m =>
      Some (match parseFindings (U := ascii_case) m with
            | Some l => Some (map (fun f => File (fst f)) l)
            | None => None
            end,
            match salvage_exclusion (statusFor m) (Split (Content m) LF) with
            | Some out => Some (elements out)
            | None => None
            end)
  end.

Lemma mergeResultGroup_provenance_witness :
  Forall raw [clean_chunk; draft_chunk; timed_out] /\ merged_view clean_chunk [draft_chunk; timed_out] = Some (Some ["a.go"], Some [2%nat]) /\ exists m, mergeResultGroup (U := ascii_case) false clean_chunk [draft_chunk; timed_out] = Some m.
Proof.
  assert (Forall raw [clean_chunk; draft_chunk; timed_out]) as H.
  { repeat (apply Forall_cons; split; [split; [reflexivity|split; [reflexivity|by vm_compute]]|]). apply Forall_nil. exact I. }
  split; [exact H|]. split; [by vm_compute|].
  destruct (mergeResultGroup_provenance (U := ascii_case) false clean_chunk [draft_chunk; timed_out] H) as (m & E & _). exists m. exact E.
Defined.

(** A salvaged reply of white space leaves no bin, so the persona's salvage bit stands
    alone and the whole narrative is withheld, the clean chunk's included. *)
Example blank_salvage_withholds_everything : merged_view clean_chunk [blank_salvage] = Some (Some ["a.go"], None).
Proof. by vm_compute. Qed.
