(* ===== verification/RecordMerge.v ===== *)
(** * Merging reconciled records

    src/internal/reconcile/merge.go [MergeJSONFindings] and symbol_anchor.go: the record a
    group of findings.json records collapses to when a judge rules them one finding, and
    the "(symbol) " anchors findings.json carries and ambiguous.json does not. *)

From Stdlib Require Import Ascii String.
From stdpp Require Import prelude strings gmap fin_sets list sorting.
From Stdlib Require Import ZArith Lia.
From S2P Require Import Prelude GoString GoSort Finding Merge Reconcile Gate Think.

Open Scope string_scope.
Open Scope list_scope.
Open Scope nat_scope.

(** ** symbol_anchor.go *)

(** [safeSymbolAnchor], on bytes: a byte of a longer rune is above the space. *)
Definition anchor_char (c : ascii) : bool :=
  negb (Ascii.eqb c "|"%char || Ascii.eqb c "("%char || Ascii.eqb c ")"%char || (code c <=? 32)%N).
Definition safeSymbolAnchor (name : bytes) : bool := negb (bool_decide (name = [])) && forallb anchor_char name.

Definition stripOneAnchor (s : bytes) : option bytes :=
  if length s <? 4 then None
  else
    match s with
    | c :: _ =>
        if negb (Ascii.eqb c "("%char) then None
        else
          match index_of (to_bytes ")") s with
          | None => None
          | Some close =>
              if negb (safeSymbolAnchor (drop 1 (take close s))) then None
              else
                match drop (S close) s with
                | a :: after => if Ascii.eqb a " "%char then Some after else None
                | [] => None
                end
          end
    | [] => None
    end.
Fixpoint strip_anchors (fuel : nat) (problem : bytes) : bytes :=
  match fuel with
  | O => problem
  | S fuel => match stripOneAnchor problem with None => problem | Some rest => strip_anchors fuel rest end
  end.
Definition StripSymbolAnchors (problem : string) : string :=
  of_bytes (strip_anchors (String.length problem) (to_bytes problem)).

(** [stampSymbolAnchors] on one record, for a grouper that resolves symbols. *)
Definition set_Problem (p : string) (f : Finding) : Finding :=
  mkFinding (Severity f) (File f) (Line f) p (Fix f) (Category f) (EstMinutes f) (Evidence f) (Reviewer f) (Reviewers f)
    (Confidence f) (Disagreement f) (Verification_ f).
Definition anchored (name problem : string) : string :=
  let prefix := "(" +:+ name +:+ ") " in
  if negb (safeSymbolAnchor (to_bytes name)) then problem
  else if is_prefix (to_bytes prefix) (to_bytes problem) then problem
  else prefix +:+ problem.
Definition stampSymbolAnchors (sr : option (string -> Z -> string)) (jf : list JSONFinding) : list JSONFinding :=
  match sr with
  | None => jf
  | Some EnclosingSymbol =>
      (fun j => let f := j_Finding j in
         mkJSONFinding (set_Problem (anchored (EnclosingSymbol (File f) (Line f)) (Problem f)) f) (j_FallbackReviewers j)
           (j_SourceQuotes j) (j_ConfidenceDiscount j) (j_Stamps j)) <$> jf
  end.

(** ** merge.go *)

(** [strings.SplitN(s, " vs ", 2)] *)
Definition cut_vs (s : string) : string * option string :=
  match index_of (to_bytes " vs ") (to_bytes s) with
  | None => (s, None)
  | Some i => (of_bytes (take i (to_bytes s)), Some (of_bytes (drop (i + 4) (to_bytes s))))
  end.

Section record_merge.
Context {U : UnicodeCase}.

(** The closure [consider] of [widestDisagreement], over its two locals. *)
Definition consider (lo : Z * string) (rangeAnnotation : string) : Z * string :=
  if (rangeAnnotation =? "")%string then lo
  else
    let s := NormalizeSeverity (fst (cut_vs rangeAnnotation)) in
    match SeverityRank !! s with
    | Some r => if (r <? fst lo)%Z then (r, s) else lo
    | None => lo
    end.
Definition widestDisagreement (maxSev scalarDisagreement : string) (group : list JSONFinding) : string :=
  let maxRank := index0 SeverityRank maxSev in
  let '(loRank, loSev) :=
    foldl consider (consider (maxRank, maxSev) scalarDisagreement) ((fun f => Disagreement (j_Finding f)) <$> group) in
  if (loRank <? maxRank)%Z then loSev +:+ " vs " +:+ maxSev else scalarDisagreement.

Definition first_nonempty (l : list string) : string :=
  foldl (fun acc s => if (acc =? "")%string then s else acc) "" l.
Definition mergePathFields (group : list JSONFinding) : bool * string * string :=
  let warning := first_nonempty ((fun f => PathWarning (j_Stamps f)) <$> group) in
  let suggestion := first_nonempty ((fun f => PathSuggestion (j_Stamps f)) <$> group) in
  if negb (warning =? "")%string then (false, warning, suggestion)
  else (match group with f :: _ => PathValid (j_Stamps f) | [] => false end, "", suggestion).

Definition unionReviewers (group : list JSONFinding) : list string :=
  let set : gset string := foldl (fun set f => foldl (fun set r => if negb (r =? "")%string then {[r]} ∪ set else set) set
                                                   (Reviewers (j_Finding f))) ∅ group in
  sort_strings (elements set).

Definition evidence_step (acc : gset string * list string) (f : JSONFinding) : gset string * list string :=
  let e := Evidence (j_Finding f) in
  if (e =? "")%string || bool_decide (e ∈ fst acc) then acc else ({[e]} ∪ fst acc, snd acc ++ [e]).
Definition joinEvidence (group : list JSONFinding) : string :=
  Join (snd (foldl evidence_step (∅, []) group)) " / ".

Definition VerdictRank (verdict : string) : Z :=
  let v := lower_trim verdict in
  if (v =? VerdictConfirmed)%string then 3 else if (v =? VerdictUnverifiable)%string then 2
  else if (v =? VerdictRefuted)%string then 1 else 0.

(** [splitNames] of disagree.go *)
Definition splitNames (s : string) : list string :=
  filter (fun t => t <> "") (TrimSpace <$> Split s ",").
Definition add_name (acc : gset string * list string) (name : string) : gset string * list string :=
  if (name =? "")%string || bool_decide (name ∈ fst acc) then acc else ({[name]} ∪ fst acc, snd acc ++ [name]).
Definition choose (chosen : option Verification) (v : Verification) : option Verification :=
  match chosen with
  | None => Some v
  | Some c => if (VerdictRank (Verdict c) <? VerdictRank (Verdict v))%Z then Some v else Some c
  end.
Definition mergeVerification (group : list JSONFinding) : option Verification :=
  let vs := omap (fun f => Verification_ (j_Finding f)) group in
  let skeptics := snd (foldl add_name (∅, []) (mjoin ((fun v => splitNames (Skeptic v)) <$> vs))) in
  chosen ← foldl choose None vs;
  Some (mkVerification (Verdict chosen) (Join skeptics ", ") (Notes chosen) (ChallengeSurvived chosen) (Truncated chosen)).

Definition quotesCategory (quotes : list SourceQuote) : string :=
  ModalCategory ((fun q => mkFinding "" "" 0 "" "" (sq_Category q) 0 "" "" [] "" "" None) <$> quotes).
Definition discountedConfidence (reviewerCount : nat) (category : string) (quotes : list SourceQuote) (provenanced : bool) :
    string * string :=
  DiscountedConfidence reviewerCount category (provenanced && negb (IsPanelWideQuotes quotes)).

(** The member as the library's merge rules see it. *)
Definition scalar_fields (f : JSONFinding) : Finding :=
  let g := j_Finding f in
  mkFinding (Severity g) (File g) (Line g) (Problem g) (Fix g) (Category g) (EstMinutes g) (Evidence g) "" [] "" "" None.
Definition zero_JSONFinding : JSONFinding := mkJSONFinding inhabitant ∅ [] "" no_stamps.

(** [None] is the index panic of [MergeSeverity], which a group never meets. The record's
    ID (a member's) is not modelled. *)
Definition MergeJSONFindings (group : list JSONFinding) : option JSONFinding :=
  match group with
  | [] => Some zero_JSONFinding
  | [f] => Some f
  | first :: _ =>
      let sf := scalar_fields <$> group in
      '(maxSev, disagreement) ← MergeSeverity sf;
      let disagreement := widestDisagreement maxSev disagreement group in
      let reviewers := unionReviewers group in
      let quotes := mjoin ((fun f => fst (memberQuotes f)) <$> group) in
      let provenanced := forallb (fun f => snd (memberQuotes f)) group in
      let category := quotesCategory quotes in
      let '(confidence, discount) := discountedConfidence (length reviewers) category quotes provenanced in
      let '(valid, warning, suggestion) := mergePathFields group in
      Some (mkJSONFinding
        (mkFinding maxSev (File (j_Finding first)) (Line (j_Finding first)) (LongestField sf Problem) (LongestField sf Fix)
          category (MaxEstMinutes sf) (joinEvidence group) "" reviewers confidence disagreement (mergeVerification group))
        ∅ (if provenanced then quotes else []) discount (mkStamps valid warning suggestion false ""))
  end.
End record_merge.

(** ** Anchors *)

Lemma strip_shorter s r : stripOneAnchor s = Some r -> length r < length s.
Proof.
  unfold stripOneAnchor. destruct (length s <? 4); [done|]. destruct s as [|c s]; [done|]. destruct (negb _); [done|].
  destruct (index_of _ _) as [i|]; [|done]. destruct (negb _); [done|].
  destruct (drop (S i) (c :: s)) as [|a l] eqn:E; [done|]. destruct (Ascii.eqb a " "); [|done]. intros [= ->].
  apply (f_equal length) in E. rewrite length_drop in E. cbn in *. lia.
Qed.

Lemma strip_anchors_fuel n m l : length l <= n -> length l <= m -> strip_anchors n l = strip_anchors m l.
Proof.
  revert m l. induction n as [|n IH]; intros m l Hn Hm.
  - destruct l; [|cbn in Hn; lia]. by destruct m.
  - destruct m as [|m]; [destruct l; [done|cbn in Hm; lia]|]. cbn. destruct (stripOneAnchor l) as [r|] eqn:E; [|done].
    apply strip_shorter in E. apply IH; lia.
Qed.

Lemma index_of_char_first (c : ascii) (x y : bytes) : Forall (fun a => a <> c) x -> index_of [c] (x ++ c :: y) = Some (length x).
Proof.
  induction 1 as [|a x Ha _ IH]; cbn [app index_of is_prefix length].
  - by rewrite Ascii.eqb_refl.
  - rewrite (proj2 (Ascii.eqb_neq c a)) by congruence. cbn [andb]. by rewrite IH.
Qed.

Lemma anchor_chars name : forallb anchor_char name = true -> Forall (fun a => a <> ")"%char) name.
Proof.
  intros H. apply Forall_forall. intros a Ha ->. rewrite forallb_forall in H. specialize (H _ (proj1 (list_elem_of_In _ _) Ha)).
  by vm_compute in H.
Qed.

Lemma strip_anchored name p : safeSymbolAnchor name = true -> stripOneAnchor (("("%char :: name) ++ ")"%char :: " "%char :: p) = Some p.
Proof.
  intros Hs. pose proof Hs as [Hne Hc]%andb_true_iff. apply negb_true_iff, bool_decide_eq_false_1 in Hne.
  unfold stripOneAnchor. set (s := (_ ++ _ : bytes)).
  assert (length s <? 4 = false) as ->.
  { apply Nat.ltb_ge. unfold s. rewrite length_app. cbn. destruct name; [done|]. cbn. lia. }
  assert (index_of (to_bytes ")") s = Some (S (length name))) as E.
  { unfold s. change (to_bytes ")") with [")"%char]. rewrite index_of_char_first; [done|]. constructor; [done|by apply anchor_chars]. }
  change s with ("("%char :: (name ++ ")"%char :: " "%char :: p)) at 1. cbn [negb Ascii.eqb]. cbv iota beta.
  rewrite E. cbn [negb].
  assert (take (S (length name)) s = "("%char :: name) as ->.
  { unfold s. rewrite take_app_le by done. apply take_ge. done. }
  change (drop 1 ("("%char :: name)) with name. rewrite Hs. cbn [negb].
  assert (drop (S (S (length name))) s = " "%char :: p) as ->; [|done].
  unfold s. change (S (S (length name))) with (S (length ("("%char :: name))). rewrite <- Nat.add_1_r.
  rewrite <- drop_drop, drop_app_length. done.
Qed.

Lemma strip_strips s r : stripOneAnchor s = Some r -> strip_anchors (length s) s = strip_anchors (length r) r.
Proof.
  intros E. pose proof (strip_shorter _ _ E) as Hl. destruct (length s) as [|n] eqn:En; [lia|]. cbn. rewrite E.
  apply strip_anchors_fuel; lia.
Qed.

Lemma string_length_bytes s : String.length s = length (to_bytes s).
Proof. unfold to_bytes. induction s as [|c s IH]; cbn; [done|]. by rewrite IH. Qed.

(** A record and its raw cluster member have the same identity, stamped or not. *)
Lemma strip_anchor_stamp name problem : StripSymbolAnchors (anchored name problem) = StripSymbolAnchors problem.
Proof.
  unfold anchored. destruct (safeSymbolAnchor _) eqn:Es; [|done]. cbn [negb]. destruct (is_prefix _ _); [done|].
  unfold StripSymbolAnchors. rewrite !string_length_bytes. f_equal. apply strip_strips.
  rewrite !to_bytes_app. rewrite <- !app_assoc. change (to_bytes "(" ++ ?x) with ("("%char :: x).
  exact (strip_anchored _ (to_bytes problem) Es).
Qed.

(** ** Names *)

Lemma split_lacks_sep c l cur : c ∉ cur -> Forall (fun x => c ∉ x) (split_bytes [c] l 0 cur).
Proof.
  revert cur. induction l as [|a l IH]; intros cur Hc; cbn.
  - by repeat constructor.
  - destruct (Ascii.eqb_spec c a) as [->|Hne]; cbn.
    + constructor; [done|]. apply IH, not_elem_of_nil.
    + apply IH. rewrite elem_of_app, list_elem_of_singleton. intros [?|?]; done.
Qed.

Lemma Split_lacks_sep c s : Forall (lacks c) (Split s (char c)).
Proof.
  unfold Split. apply Forall_fmap. eapply Forall_impl; [apply (split_lacks_sep c (to_bytes s) []), not_elem_of_nil|].
  intros x Hx. unfold lacks, compose. by rewrite list_ascii_of_string_of_list_ascii.
Qed.

(** A name as [splitNames] answers it. *)
Definition plain_name (n : string) : Prop := n <> "" /\ TrimSpace n = n /\ lacks ","%char n.

Lemma splitNames_plain s : Forall plain_name (splitNames s).
Proof.
  apply Forall_forall. intros n [Hn (x & -> & Hx)%list_elem_of_fmap]%list_elem_of_filter.
  split; [done|]. split; [apply TrimSpace_idemp|]. intros Hc. unfold TrimSpace in Hc.
  rewrite list_ascii_of_string_of_list_ascii in Hc. apply trim_elem in Hc. revert Hc.
  pose proof (Split_lacks_sep "," s) as Hl. rewrite Forall_forall in Hl. exact (Hl x Hx).
Qed.

Lemma TrimSpace_space n : TrimSpace (" " +:+ n) = TrimSpace n.
Proof. unfold TrimSpace. rewrite to_bytes_app. done. Qed.

Lemma split_cur c a l cur : exists h t, split_bytes [c] l 0 cur = h :: t /\ split_bytes [c] l 0 (a :: cur) = (a :: h) :: t.
Proof.
  revert cur. induction l as [|b l IH]; intros cur; cbn; [by eexists _, _|].
  destruct (Ascii.eqb c b && true); [by eexists _, _|]. apply (IH (cur ++ [b])).
Qed.

Lemma Split_space s : TrimSpace <$> Split (" " +:+ s) "," = TrimSpace <$> Split s ",".
Proof.
  unfold Split. rewrite to_bytes_app. change (to_bytes " " ++ ?l) with (" "%char :: l). change (to_bytes ",") with [","%char].
  change (split_bytes [","%char] (" "%char :: ?l) 0 []) with (split_bytes [","%char] l 0 [" "%char]).
  destruct (split_cur "," " " (to_bytes s) []) as (h & t & -> & ->). cbn [fmap list_fmap]. f_equal.
Qed.

Lemma splitNames_cons n s : plain_name n -> splitNames (n +:+ "," +:+ " " +:+ s) = n :: splitNames s.
Proof.
  intros (H1 & H2 & H3). unfold splitNames. change "," with (char ","). rewrite Split_char by done.
  change (char ",") with ",". rewrite fmap_cons, Split_space, H2. by rewrite filter_cons_True.
Qed.

Lemma splitNames_Join l : Forall plain_name l -> splitNames (Join l ", ") = l.
Proof.
  induction 1 as [|n l Hn Hl IH]; [done|]. destruct l as [|m l].
  - destruct Hn as (H1 & H2 & H3). unfold splitNames. change (Join [n] ", ") with n. change "," with (char ",").
    rewrite Split_lacks by done. rewrite fmap_cons, H2. by rewrite filter_cons_True.
  - rewrite Join_cons. change (", " +:+ ?x) with ("," +:+ " " +:+ x). by rewrite splitNames_cons, IH.
Qed.

(** ** The merged record *)

Section record_merge_spec.
Context {U : UnicodeCase}.
Implicit Types (group : list JSONFinding) (f : JSONFinding).

Lemma fold_insert_elem {A} (p : A -> option string) (l : list A) (X : gset string) n :
  n ∈ foldl (fun set x => match p x with Some r => {[r]} ∪ set | None => set end) X l <-> n ∈ X \/ exists x, x ∈ l /\ p x = Some n.
Proof.
  revert X. induction l as [|x l IH]; intros X; cbn.
  - split; [by left|]. intros [?|(x & ?%elem_of_nil & _)]; done.
  - rewrite IH. destruct (p x) as [r|] eqn:E; set_unfold; naive_solver congruence.
Qed.

Lemma elem_of_unionReviewers group r :
  r ∈ unionReviewers group <-> r <> "" /\ exists f, f ∈ group /\ r ∈ Reviewers (j_Finding f).
Proof.
  unfold unionReviewers. rewrite elem_of_sort_strings, elem_of_elements.
  apply (foldl_invariant (fun fs (set : gset string) => r ∈ set <-> r <> "" /\ exists f, f ∈ fs /\ r ∈ Reviewers (j_Finding f))).
  - split; [by intros ?%not_elem_of_empty|by intros (_ & f & ?%elem_of_nil & _)].
  - intros done f todo set _ IH.
    rewrite (foldl_ext _ (fun set r => match (if (r =? "")%string then None else Some r) with Some r => {[r]} ∪ set | None => set end)).
    2: { intros s x _. by destruct (x =? "")%string. }
    rewrite fold_insert_elem, IH. setoid_rewrite elem_of_app. setoid_rewrite list_elem_of_singleton. split.
    + intros [[Hr (g & Hg & Hin)]|(x & Hx & E)]; [split; [done|]; exists g; tauto|].
      destruct (String.eqb_spec x "") as [|Hne]; [done|]. injection E as ->. split; [done|]. exists f. tauto.
    + intros [Hr (g & [Hg|[= ->]] & Hin)]; [left; split; [done|]; by exists g|]. right. exists r. split; [done|].
      by rewrite (proj2 (String.eqb_neq r "") Hr).
Qed.

Definition names_of group : list string := mjoin ((fun v => splitNames (Skeptic v)) <$> omap (fun f => Verification_ (j_Finding f)) group).

Lemma add_names l (acc : gset string * list string) : (forall n, n ∈ fst acc <-> n ∈ snd acc) -> NoDup (snd acc) ->
  let out := snd (foldl add_name acc l) in
  NoDup out /\ forall n, n ∈ out <-> n ∈ snd acc \/ n ∈ l /\ n <> "".
Proof.
  revert acc. induction l as [|x l IH]; intros [X ns] HX Hnd; cbn [fst snd] in *.
  - split; [done|]. intros n. cbn. split; [by left|]. intros [?|[?%elem_of_nil _]]; done.
  - cbn [foldl]. set (a := add_name (X, ns) x). unfold add_name in a. cbn [fst snd] in a. revert a.
    destruct (String.eqb_spec x "") as [->|Hx]; cbn [orb]; cbv zeta.
    + destruct (IH (X, ns) HX Hnd) as [H1 H2]. split; [done|]. intros n. rewrite H2. cbn [snd]. rewrite elem_of_cons. naive_solver.
    + case_bool_decide as Hin.
      * destruct (IH (X, ns) HX Hnd) as [H1 H2]. split; [done|]. intros n. rewrite H2. cbn [snd]. rewrite elem_of_cons.
        apply HX in Hin. naive_solver.
      * destruct (IH ({[x]} ∪ X, ns ++ [x])) as [H1 H2]; cbn [fst snd].
        { intros n. rewrite elem_of_union, elem_of_singleton, HX, elem_of_app, list_elem_of_singleton. tauto. }
        { apply NoDup_app. split; [done|]. split; [|apply NoDup_singleton]. intros n Hn Hn'%list_elem_of_singleton. subst n.
          by apply Hin, HX. }
        split; [done|]. intros n. rewrite H2. cbn [snd]. rewrite elem_of_app, list_elem_of_singleton, elem_of_cons. naive_solver.
Qed.

Lemma choose_best vs c : let best := foldl choose (Some c) vs in
  exists v, best = Some v /\ v ∈ c :: vs /\ forall w, w ∈ c :: vs -> (VerdictRank (Verdict w) <= VerdictRank (Verdict v))%Z.
Proof.
  revert c. induction vs as [|x vs IH]; intros c; cbn [foldl].
  - exists c. split; [done|]. split; [by left|]. intros w Hw%list_elem_of_singleton. subst. lia.
  - cbn [choose]. destruct (Z.ltb_spec (VerdictRank (Verdict c)) (VerdictRank (Verdict x))) as [Hlt|Hge].
    + destruct (IH x) as (v & Hv & Hin & Hb). exists v. split; [done|]. split; [by right|]. intros w [->|Hw]%elem_of_cons; [|by apply Hb].
      etrans; [|apply (Hb x); by left]. lia.
    + destruct (IH c) as (v & Hv & Hin & Hb). exists v. split; [done|].
      split; [apply elem_of_cons in Hin as [->|?]; [by left|by do 2 right]|].
      intros w [->|[->|Hw]%elem_of_cons]%elem_of_cons; [apply Hb; by left| |apply Hb; by right].
      etrans; [|apply (Hb c); by left]. lia.
Qed.

(** Lowest end of a recorded span of severities, if it names one. *)
Definition low_end (d : string) : option Z :=
  if (d =? "")%string then None else SeverityRank !! NormalizeSeverity (fst (cut_vs d)).

Lemma consider_le lo d : (fst (consider lo d) <= fst lo)%Z /\ (forall r, low_end d = Some r -> (fst (consider lo d) <= r)%Z).
Proof.
  unfold consider, low_end. destruct (d =? "")%string; [split; [lia|done]|].
  destruct (_ !! _) as [r|]; [|split; [lia|done]]. destruct (Z.ltb_spec r (fst lo)); cbn [fst]; (split; [lia|]); intros r' [= ->]; lia.
Qed.
Lemma consider_known lo d : SeverityRank !! snd lo = Some (fst lo) -> SeverityRank !! snd (consider lo d) = Some (fst (consider lo d)).
Proof.
  intros H. unfold consider. destruct (d =? "")%string; [done|].
  destruct (SeverityRank !! NormalizeSeverity _) as [r|] eqn:E; [|done]. by destruct (r <? fst lo)%Z.
Qed.

Lemma consider_fold ds lo : let out := foldl consider lo ds in
  (fst out <= fst lo)%Z /\ (forall d r, d ∈ ds -> low_end d = Some r -> (fst out <= r)%Z) /\
  (SeverityRank !! snd lo = Some (fst lo) -> SeverityRank !! snd out = Some (fst out)).
Proof.
  revert lo. induction ds as [|d ds IH]; intros lo; cbn [foldl].
  - split; [lia|]. split; [by intros d r ?%elem_of_nil|done].
  - destruct (IH (consider lo d)) as (H1 & H2 & H3), (consider_le lo d) as [H4 H5]. split; [lia|]. split.
    + intros d' r [->|Hd]%elem_of_cons Hr; [specialize (H5 r Hr); lia|by apply (H2 d')].
    + intros Hk. by apply H3, consider_known.
Qed.

Lemma mergeVerification_spec group :
  match mergeVerification group with
  | None => forall f, f ∈ group -> Verification_ (j_Finding f) = None
  | Some v =>
      (exists f w, f ∈ group /\ Verification_ (j_Finding f) = Some w /\
         Verdict v = Verdict w /\ ChallengeSurvived v = ChallengeSurvived w /\ Truncated v = Truncated w) /\
      (forall f w, f ∈ group -> Verification_ (j_Finding f) = Some w -> (VerdictRank (Verdict w) <= VerdictRank (Verdict v))%Z) /\
      NoDup (splitNames (Skeptic v)) /\
      forall n, n ∈ splitNames (Skeptic v) <->
        exists f w, f ∈ group /\ Verification_ (j_Finding f) = Some w /\ n ∈ splitNames (Skeptic w)
  end.
Proof.
  unfold mergeVerification. set (vs := omap _ group).
  assert (forall w, w ∈ vs <-> exists f, f ∈ group /\ Verification_ (j_Finding f) = Some w) as Hvs by (intros w; apply list_elem_of_omap).
  set (names := mjoin _).
  assert (forall n, n ∈ names <-> exists f w, f ∈ group /\ Verification_ (j_Finding f) = Some w /\ n ∈ splitNames (Skeptic w)) as Hn.
  { intros n. unfold names. rewrite elem_of_mjoin. setoid_rewrite list_elem_of_fmap. split.
    - intros (l & (w & -> & (f & Hf & Ew)%Hvs) & Hn). by exists f, w.
    - intros (f & w & Hf & Ew & Hn). exists (splitNames (Skeptic w)). split; [|done]. exists w. split; [done|]. apply Hvs. by exists f. }
  assert (forall n, n ∈ names -> plain_name n) as Hplain.
  { intros n (f & w & _ & _ & Hw)%Hn. pose proof (splitNames_plain (Skeptic w)) as Hp. rewrite Forall_forall in Hp. by apply Hp. }
  destruct (add_names names (∅, [])) as [Hnd Hel]; [intros n; cbn; set_solver|constructor|]. cbn [snd] in Hnd, Hel.
  clearbody names. destruct vs as [|v0 vs'] eqn:Ev; cbn [foldl mbind option_bind].
  - intros f Hf. destruct (Verification_ (j_Finding f)) as [w|] eqn:Ew; [|done].
    exfalso. eapply (not_elem_of_nil w), Hvs. by exists f.
  - change (choose None v0) with (Some v0). destruct (choose_best vs' v0) as (v & -> & Hin & Hb). cbn [mbind option_bind].
    cbn [Verdict Skeptic ChallengeSurvived Truncated]. rewrite splitNames_Join.
    2: { apply Forall_forall. intros n [Hc|[Hi _]]%Hel; [by apply elem_of_nil in Hc|by apply Hplain]. }
    split; [|split; [|split; [done|]]].
    + apply Hvs in Hin as (f & Hf & Ew). by exists f, v.
    + intros f w Hf Ew. apply Hb, Hvs. by exists f.
    + intros n. rewrite Hel, <- Hn. split; [intros [Hc|[? _]]; [by apply elem_of_nil in Hc|done]|].
      intros Hi. right. split; [done|]. by apply Hplain.
Qed.

(** The columns of the merged record that the rest relies on. *)
Lemma merged_record group : 2 <= length group -> exists m mx dis,
  MergeJSONFindings group = Some m /\ severity_answer (scalar_fields <$> group) mx dis /\
  Severity (j_Finding m) = mx /\ Disagreement (j_Finding m) = widestDisagreement mx dis group /\
  Reviewers (j_Finding m) = unionReviewers group /\ Evidence (j_Finding m) = joinEvidence group /\
  Verification_ (j_Finding m) = mergeVerification group /\ Confidence (j_Finding m) ∈ [ConfHigh; ConfMedium; ConfLow].
Proof.
  intros Hlen. destruct group as [|f1 [|f2 g]] eqn:Eg; [cbn in Hlen; lia..|]. rewrite <- Eg.
  destruct (MergeSeverity_answer (scalar_fields <$> group)) as (mx & dis & Hsev & Hans); [by rewrite Eg|].
  destruct (discountedConfidence (length (unionReviewers group))
    (quotesCategory (mjoin ((fun f => fst (memberQuotes f)) <$> group))) (mjoin ((fun f => fst (memberQuotes f)) <$> group))
    (forallb (fun f => snd (memberQuotes f)) group)) as [confidence discount] eqn:Ec.
  destruct (mergePathFields group) as [[valid warning] suggestion] eqn:Ep.
  eexists _, mx, dis. split; [rewrite Eg in *; unfold MergeJSONFindings; rewrite Hsev; cbn [mbind option_bind]; cbv zeta; rewrite Ec, Ep; reflexivity|].
  do 6 (split; [done|]). cbn. unfold discountedConfidence, DiscountedConfidence, ConfidenceFor in Ec.
  destruct (_ && _ && _) in Ec; [injection Ec as <- _; right; by left|]. destruct (2 <=? length (unionReviewers group)) in Ec; injection Ec as <- _; [by left|right; by left].
Qed.

(** The recorded span of the merged record reaches as low as any member's own. *)
Lemma widest_span group mx dis f r : severity_answer (scalar_fields <$> group) mx dis -> f ∈ group ->
  low_end (Disagreement (j_Finding f)) = Some r -> (r < index0 SeverityRank mx)%Z ->
  exists lo rlo, widestDisagreement mx dis group = lo +:+ " vs " +:+ mx /\ SeverityRank !! lo = Some rlo /\ (rlo <= r)%Z.
Proof.
  intros Hans Hf Hr Hlt. unfold widestDisagreement. set (lo0 := (index0 SeverityRank mx, mx)).
  destruct (foldl consider (consider lo0 dis) _) as [lr ls] eqn:El.
  pose proof (consider_fold ((fun f => Disagreement (j_Finding f)) <$> group) (consider lo0 dis)) as (H1 & H2 & H3). rewrite El in *.
  cbn [fst snd] in *. specialize (H2 (Disagreement (j_Finding f)) r ltac:(by apply (list_elem_of_fmap_2 (fun f => Disagreement (j_Finding f)))) Hr).
  rewrite (proj2 (Z.ltb_lt lr (index0 SeverityRank mx))) by lia. exists ls, lr. split; [done|]. split; [|done].
  apply H3, consider_known. cbn [lo0 fst snd].
  destruct Hans as [(Hnone & (g0 & Hg & ->) & _)|(rmax & _ & _ & _ & Hm & _)]; [|unfold index0; by rewrite Hm].
  exfalso. unfold index0 in Hlt. apply head_Some_elem_of in Hg. rewrite (Hnone _ Hg) in Hlt. cbn in Hlt.
  unfold low_end in Hr. destruct (_ =? _)%string; [done|]. apply SeverityRank_cases in Hr. lia.
Qed.

Lemma merged_severity group mx dis : severity_answer (scalar_fields <$> group) mx dis ->
  (forall f r, f ∈ group -> SeverityRank !! NormalizeSeverity (Severity (j_Finding f)) = Some r -> (r <= index0 SeverityRank mx)%Z) /\
  (exists f, f ∈ group /\ mx = NormalizeSeverity (Severity (j_Finding f))).
Proof.
  intros Hans. split.
  - intros f r Hf Hr. destruct Hans as [(Hnone & _)|(rmax & lo & rlo & _ & Hm & _ & _ & Hall & _)].
    + specialize (Hnone (scalar_fields f) ltac:(by apply list_elem_of_fmap_2)). cbn in Hnone. congruence.
    + unfold index0. rewrite Hm. apply (Hall (scalar_fields f)); [by apply list_elem_of_fmap_2|done].
  - destruct Hans as [(_ & (f & Hf & ->) & _)|(rmax & lo & rlo & (f & Hf & <-) & _)].
    + apply head_Some_elem_of in Hf. apply list_elem_of_fmap in Hf as (h & -> & Hh). by exists h.
    + apply list_elem_of_fmap in Hf as (h & -> & Hh). by exists h.
Qed.

(** C21. Merging the records a judge ruled one finding loses no voice and no warning sign. The
    severity is the highest of the members', the reviewers are all of theirs, sorted and each
    once, the span of disagreement reaches down to the lowest end any member's own span had,
    and of the members' verdicts the strongest stands (confirmed before unverifiable before
    refuted), with every skeptic that voted on any of them. *)
Theorem MergeJSONFindings_spec group (Hlen : 2 <= length group) : exists m, MergeJSONFindings group = Some m /\
  (forall f r, f ∈ group -> SeverityRank !! NormalizeSeverity (Severity (j_Finding f)) = Some r ->
     (r <= index0 SeverityRank (Severity (j_Finding m)))%Z) /\
  (exists f, f ∈ group /\ Severity (j_Finding m) = NormalizeSeverity (Severity (j_Finding f))) /\
  StronglySorted (fun a b => str_ltb a b = true) (Reviewers (j_Finding m)) /\
  (forall r, r ∈ Reviewers (j_Finding m) <-> r <> "" /\ exists f, f ∈ group /\ r ∈ Reviewers (j_Finding f)) /\
  (forall f r, f ∈ group -> low_end (Disagreement (j_Finding f)) = Some r -> (r < index0 SeverityRank (Severity (j_Finding m)))%Z ->
     exists lo rlo, Disagreement (j_Finding m) = lo +:+ " vs " +:+ Severity (j_Finding m) /\
       SeverityRank !! lo = Some rlo /\ (rlo <= r)%Z) /\
  match Verification_ (j_Finding m) with
  | None => forall f, f ∈ group -> Verification_ (j_Finding f) = None
  | Some v =>
      (exists f w, f ∈ group /\ Verification_ (j_Finding f) = Some w /\
         Verdict v = Verdict w /\ ChallengeSurvived v = ChallengeSurvived w /\ Truncated v = Truncated w) /\
      (forall f w, f ∈ group -> Verification_ (j_Finding f) = Some w -> (VerdictRank (Verdict w) <= VerdictRank (Verdict v))%Z) /\
      NoDup (splitNames (Skeptic v)) /\
      forall n, n ∈ splitNames (Skeptic v) <->
        exists f w, f ∈ group /\ Verification_ (j_Finding f) = Some w /\ n ∈ splitNames (Skeptic w)
  end.
Proof.
  destruct (merged_record group Hlen) as (m & mx & dis & E & Hans & H1 & H2 & H3 & _ & H4 & _). exists m. split; [exact E|].
  rewrite H1, H2, H3, H4.
  destruct (merged_severity group mx dis Hans) as [Hmax Hfrom]. split; [exact Hmax|]. split; [exact Hfrom|].
  split; [apply sort_strings_strict, NoDup_elements|]. split; [intros r; apply elem_of_unionReviewers|].
  split; [intros f r; apply (widest_span group mx dis f r Hans)|apply mergeVerification_spec].
Qed.
End record_merge_spec.

(** ** Examples and witnesses *)

Definition record (sev problem reviewer disagreement : string) (v : option Verification) : JSONFinding :=
  mkJSONFinding (mkFinding sev "a.go" 10 problem "" "correctness" 5 ("saw " +:+ problem) "" [reviewer] ConfMedium disagreement v)
    ∅ [] "" no_stamps.
Definition two_records : list JSONFinding :=
  [record "HIGH" "nil deref" "greta" "LOW vs HIGH" (Some (mkVerification "refuted" "sk1, sk2" "n" false false));
   record "MEDIUM" "nil pointer" "bruce" "" (Some (mkVerification "confirmed" "sk2,sk3" "m" false false))].

Lemma MergeJSONFindings_spec_witness : 2 <= length two_records /\ exists m, MergeJSONFindings (U := ascii_case) two_records = Some m /\
  forall r, r ∈ Reviewers (j_Finding m) <-> r <> "" /\ exists f, f ∈ two_records /\ r ∈ Reviewers (j_Finding f).
Proof.
  assert (2 <= length two_records) as Hlen by done. split; [exact Hlen|].
  destruct (MergeJSONFindings_spec (U := ascii_case) two_records Hlen) as (m & E & _ & _ & _ & Hr & _). exists m. split; [exact E|exact Hr].
Defined.

Example two_records_merged :
  (fun m => (Severity (j_Finding m), Disagreement (j_Finding m), Reviewers (j_Finding m), Confidence (j_Finding m),
             (fun v => (Verdict v, Skeptic v)) <$> Verification_ (j_Finding m))) <$> MergeJSONFindings (U := ascii_case) two_records =
  Some ("HIGH", "LOW vs HIGH", ["bruce"; "greta"], "HIGH", Some ("confirmed", "sk1, sk2, sk3")).
Proof. by vm_compute. Qed.

(** Two personas served by one fallback model are one voice everywhere else
    ([distinctReviewerCount]); a cluster merge counts them as two and forgets that they
    were served by a fallback. *)
Definition served_by_one (reviewer problem : string) : JSONFinding :=
  mkJSONFinding (j_Finding (record "HIGH" problem reviewer "" None)) {[reviewer := "haiku"]} [] "" no_stamps.
Example cluster_merge_forgets_the_fallback :
  (fun m => (Confidence (j_Finding m), j_FallbackReviewers m)) <$>
    MergeJSONFindings (U := ascii_case) [served_by_one "bruce" "nil deref"; served_by_one "greta" "nil pointer"] = Some (ConfHigh, ∅) /\
  ConfidenceFor (distinctReviewerCount ["bruce"; "greta"] {["bruce" := "haiku"; "greta" := "haiku"]}) = ConfMedium.
Proof. by vm_compute. Qed.

Example anchors_stripped : StripSymbolAnchors "(parse) (run) nil deref (x)" = "nil deref (x)".
Proof. by vm_compute. Qed.
