(* ===== verification/Radar.v ===== *)
(** * The disagreement radar

    src/internal/reconcile/disagree.go: the tension spots of a review, from its reconciled
    findings and gray-zone clusters, each with a score, ranked. [Score] is a float64 that
    only ever holds an integer of at most four times the number of reviewers, exactly: here
    an integer. The rendering of the radar is not modelled. *)

From Stdlib Require Import Ascii String.
From stdpp Require Import prelude strings gmap fin_sets list sorting pretty.
From Stdlib Require Import ZArith Lia SpecFloat.
From S2P Require Import Prelude GoString GoSort GoFloat Finding Ambiguous Merge Reconcile Gate RecordMerge.

Open Scope string_scope.
Open Scope list_scope.
Open Scope Z_scope.

(** ** Items *)

Definition KindSeveritySplit : string := "severity_split".
Definition KindSoloFinding : string := "solo_finding".
Definition KindGrayZone : string := "gray_zone".
Definition KindVerificationDisagreement : string := "verification_disagreement".

Record Position := mkPosition { pos_Reviewer : string; pos_Severity : string; pos_Problem : string }.
Record DisagreementItem := mkItem {
  it_Kind : string;
  it_File : string;
  it_Line : Z;
  it_Severity : string;
  it_Problem : string;
  it_Score : Z;
  it_Spread : Z;
  it_Independence : nat;
  it_Reviewers : list string;
  it_Disagreement : string;
  it_Skeptics : string;
  it_Detail : string;
  it_Positions : list Position;
}.

(** [strconv.FormatFloat(x, 'f', 2, 64)]: the exact value, rounded half to even. *)
Definition round_half_even (n d : Z) : Z :=
  let q := n / d in
  match 2 * (n mod d) ?= d with Lt => q | Gt => q + 1 | Eq => if Z.even q then q else q + 1 end.
Definition hundredths (n : Z) : string :=
  Itoa (n / 100) +:+ "." +:+ (if n mod 100 <? 10 then "0" else "") +:+ Itoa (n mod 100).
Definition format2 (x : float64) : string :=
  match x with
  | S754_nan => "NaN"
  | S754_infinity s => if s then "-Inf" else "+Inf"
  | S754_zero s => if s then "-0.00" else "0.00"
  | S754_finite s m e =>
      let n := Z.pos m * 100 in
      (if s then "-" else "") +:+ hundredths (if 0 <=? e then n * 2 ^ e else round_half_even n (2 ^ (- e)))
  end.

Definition nul : string := of_bytes [byte_of 0].
Definition locationKey (file : string) (line : Z) : string := file +:+ nul +:+ Itoa line.

Section radar.
Context {U : UnicodeCase}.

Definition categoryIsOutOfScope (c : string) : bool := (lower_trim c =? CategoryOutOfScope)%string.
Definition allOutOfScope (findings : list Finding) : bool :=
  if bool_decide (findings = []) then false else forallb (fun f => categoryIsOutOfScope (Category f)) findings.

Definition isRefutedJSON (f : JSONFinding) : bool :=
  match Verification_ (j_Finding f) with Some v => (lower_trim (Verdict v) =? VerdictRefuted)%string | None => false end.
Definition isVerificationTie (v : option Verification) : bool :=
  match v with
  | None => false
  | Some v => (lower_trim (Verdict v) =? VerdictUnverifiable)%string && (2 <=? length (splitNames (Skeptic v)))%nat
  end.

Definition spreadFromDisagreement (d : string) : Z :=
  match cut_vs d with
  | (_, None) => 0
  | (a, Some b) =>
      let lo := index0 SeverityRank (NormalizeSeverity a) in
      let hi := index0 SeverityRank (NormalizeSeverity b) in
      if hi <? lo then 0 else hi - lo
  end.
Definition scoreFor (spread : Z) (independence : nat) (sevRank : Z) : Z :=
  if 0 <? spread then spread * Z.of_nat independence else sevRank.
Definition atLeastOne (n : nat) : nat := Nat.max 1 n.

Definition voices (f : JSONFinding) : nat := atLeastOne (distinctReviewerCount (Reviewers (j_Finding f)) (j_FallbackReviewers f)).
Definition severitySplitItem (f : JSONFinding) : DisagreementItem :=
  let g := j_Finding f in
  let spread := spreadFromDisagreement (Disagreement g) in
  mkItem KindSeveritySplit (File g) (Line g) (Severity g) (Problem g) (scoreFor spread (voices f) (rank (Severity g))) spread
    (voices f) (Reviewers g) (Disagreement g) "" "" [].
Definition soloItem (f : JSONFinding) : DisagreementItem :=
  let g := j_Finding f in
  mkItem KindSoloFinding (File g) (Line g) (Severity g) (Problem g) (scoreFor 0 (voices f) (rank (Severity g))) 0
    (voices f) (Reviewers g) "" "" "" [].
Definition verificationItem (f : JSONFinding) : DisagreementItem :=
  let g := j_Finding f in
  let spread := spreadFromDisagreement (Disagreement g) in
  let '(skeptic, notes) := match Verification_ g with Some v => (Skeptic v, Notes v) | None => ("", "") end in
  mkItem KindVerificationDisagreement (File g) (Line g) (Severity g) (Problem g)
    (scoreFor spread (voices f) (rank (Severity g))) spread (voices f) (Reviewers g) (Disagreement g) skeptic notes [].

Definition ClusterDisplayProblem (findings : list Finding) : string :=
  foldl (fun best f => if (String.length best <? String.length (Problem f))%nat then Problem f else best) "" findings.

(** The locals [maxRank], [minRank], [maxSev] and [revSet] of [grayZoneItem]. *)
Record gray := mkGray { g_max : Z; g_min : Z; g_sev : string; g_revs : gset string }.
Definition gray_step (g : gray) (f : Finding) : gray :=
  let norm := NormalizeSeverity (Severity f) in
  let g :=
    match SeverityRank !! norm with
    | Some r =>
        let '(mx, sev) := if g_max g <? r then (r, norm) else (g_max g, g_sev g) in
        mkGray mx (if r <? g_min g then r else g_min g) sev (g_revs g)
    | None => g
    end in
  if (Reviewer f =? "")%string then g else mkGray (g_max g) (g_min g) (g_sev g) ({[Reviewer f]} ∪ g_revs g).
Definition cluster_fallback (reviewerFallback : gmap string string) (reviewers : list string) : gmap string string :=
  foldl (fun m rev => let target := default "" (reviewerFallback !! rev) in
                      if (target =? "")%string then m else <[rev := target]> m) ∅ reviewers.
Definition grayZoneItem (c : AmbiguousCluster) (reviewerFallback : gmap string string) : DisagreementItem :=
  let fs := amb_Findings c in
  let g := foldl gray_step (mkGray 0 (2 ^ 31) "" ∅) fs in
  let positions := (fun f => mkPosition (Reviewer f) (Severity f) (Problem f)) <$> fs in
  let spread := if (0 <? g_max g) && (g_min g <=? g_max g) then g_max g - g_min g else 0 in
  let maxSev := if (g_sev g =? "")%string then match fs with f :: _ => NormalizeSeverity (Severity f) | [] => g_sev g end
                else g_sev g in
  let reviewers := sort_strings (elements (g_revs g)) in
  let indep := atLeastOne (distinctReviewerCount reviewers (cluster_fallback reviewerFallback reviewers)) in
  let score := scoreFor spread indep (index0 SeverityRank maxSev) in
  let score := if (score =? 0) && (0 <? length fs)%nat then 1 else score in
  mkItem KindGrayZone (amb_File c) (amb_Line c) maxSev (ClusterDisplayProblem fs) score spread indep reviewers "" ""
    ("similarity " +:+ format2 (Similarity c)) positions.

(** ** The radar *)

Definition grayKeys (clusters : list AmbiguousCluster) : gset string :=
  list_to_set (mjoin ((fun c => (fun f => locationKey (File f) (Line f)) <$> amb_Findings c) <$> clusters)).
(** One round of the loop over the findings: the item the finding yields, if any. *)
Definition finding_item (keys : gset string) (f : JSONFinding) : option DisagreementItem :=
  let g := j_Finding f in
  if isRefutedJSON f then None
  else if categoryIsOutOfScope (Category g) then None
  else if bool_decide (locationKey (File g) (Line g) ∈ keys) then None
  else if isVerificationTie (Verification_ g) then Some (verificationItem f)
  else if negb (Disagreement g =? "")%string then Some (severitySplitItem f)
  else match Reviewers g with [_] => Some (soloItem f) | _ => None end.
(** The targets of every finding's fallback map, a later one over an earlier. *)
Definition fallback_targets (findings : list JSONFinding) : gmap string string :=
  foldl (fun m f => filter (fun kv => kv.2 <> "") (j_FallbackReviewers f) ∪ m) ∅ findings.
Definition cluster_item (rf : gmap string string) (c : AmbiguousCluster) : option DisagreementItem :=
  if bool_decide (amb_Findings c = []) || allOutOfScope (amb_Findings c) then None else Some (grayZoneItem c rf).

Definition disagreement_less (a b : DisagreementItem) : bool :=
  if negb (it_Score a =? it_Score b) then it_Score b <? it_Score a
  else if negb (rank (it_Severity a) =? rank (it_Severity b)) then rank (it_Severity b) <? rank (it_Severity a)
  else if negb (it_File a =? it_File b)%string then str_ltb (it_File a) (it_File b)
  else if negb (it_Line a =? it_Line b) then it_Line a <? it_Line b
  else if negb (it_Kind a =? it_Kind b)%string then str_ltb (it_Kind a) (it_Kind b)
  else str_ltb (it_Problem a) (it_Problem b).
Definition sortDisagreements (items : list DisagreementItem) : list DisagreementItem := slice_stable disagreement_less items.

(** [BuildDisagreements], its [Items]. *)
Definition BuildDisagreements (findings : list JSONFinding) (clusters : list AmbiguousCluster) : list DisagreementItem :=
  sortDisagreements (omap (finding_item (grayKeys clusters)) findings ++ omap (cluster_item (fallback_targets findings)) clusters).
End radar.

(** ** Keys and order *)

Lemma last_split (c : ascii) (x y u v : bytes) : c ∉ u -> c ∉ v -> x ++ c :: u = y ++ c :: v -> x = y /\ u = v.
Proof.
  revert y. induction x as [|a x IH]; intros [|b y] Hu Hv; cbn; intros E; injection E.
  - by intros ->.
  - intros -> ->. exfalso. apply Hu. set_solver.
  - intros <- <-. exfalso. apply Hv. set_solver.
  - intros E2 ->. by destruct (IH y Hu Hv E2) as [-> ->].
Qed.

Lemma locationKey_inj f l f' l' : locationKey f l = locationKey f' l' -> f = f' /\ l = l'.
Proof.
  intros E. apply (f_equal to_bytes) in E. unfold locationKey in E. rewrite !to_bytes_app in E. change (to_bytes nul) with [byte_of 0] in E.
  cbn [app] in E.
  assert (forall n, byte_of 0 ∉ to_bytes (Itoa n)) as Hn.
  { intros n Hin. pose proof (Itoa_chars n) as Hc. rewrite Forall_forall in Hc. destruct (Hc _ Hin) as [H|H]; vm_compute in H; discriminate. }
  destruct (last_split _ _ _ _ _ (Hn l) (Hn l') E) as [E1%to_bytes_inj E2%to_bytes_inj]. split; [done|].
  by apply (inj (pretty (A := Z))) in E2.
Qed.

Lemma omap_perm {A B} (f : A -> option B) (l l' : list A) : l ≡ₚ l' -> omap f l ≡ₚ omap f l'.
Proof.
  induction 1 as [|x l l' _ IH|x y l|l l' l'' _ IH1 _ IH2]; [done|cbn; by destruct (f x); [f_equiv|]| |by etrans].
  cbn. destruct (f x), (f y); try done. by apply perm_swap.
Qed.

Section radar_spec.
Context {U : UnicodeCase}.

Lemma disagreement_less_lex a b : disagreement_less a b =
  lex_less (fun a b => it_Score b <? it_Score a)
    (lex_less (fun a b => rank (it_Severity b) <? rank (it_Severity a))
      (lex_less (fun a b => str_ltb (it_File a) (it_File b))
        (lex_less (fun a b => it_Line a <? it_Line b)
          (lex_less (fun a b => str_ltb (it_Kind a) (it_Kind b)) (fun a b => str_ltb (it_Problem a) (it_Problem b)))))) a b.
Proof.
  rewrite <- (if_lex_Z_desc it_Score), <- (if_lex_Z_desc (fun i => rank (it_Severity i))), <- (if_lex_str it_File),
    <- (if_lex_Z it_Line), <- (if_lex_str it_Kind). done.
Qed.

#[export] Instance disagreement_less_WeakOrder : WeakOrder disagreement_less.
Proof.
  eapply WeakOrder_ext; [exact disagreement_less_lex|].
  apply lex_WeakOrder; [apply (key_WeakOrder (fun a b => Z.ltb b a) it_Score)|].
  apply lex_WeakOrder; [apply (key_WeakOrder (fun a b => Z.ltb b a) (fun i => rank (it_Severity i)))|].
  apply lex_WeakOrder; [apply (key_WeakOrder str_ltb it_File)|].
  apply lex_WeakOrder; [apply (key_WeakOrder Z.ltb it_Line)|].
  apply lex_WeakOrder; [apply (key_WeakOrder str_ltb it_Kind)|apply (key_WeakOrder str_ltb it_Problem)].
Qed.
(** ** What reaches the radar *)

Definition co_located (clusters : list AmbiguousCluster) (file : string) (line : Z) : Prop :=
  exists c g, c ∈ clusters /\ g ∈ amb_Findings c /\ File g = file /\ Line g = line.

Lemma elem_of_grayKeys clusters file line : locationKey file line ∈ grayKeys clusters <-> co_located clusters file line.
Proof.
  unfold grayKeys, co_located. rewrite elem_of_list_to_set, elem_of_mjoin. setoid_rewrite list_elem_of_fmap. split.
  - intros (l & (c & -> & Hc) & Hk). apply list_elem_of_fmap in Hk as (g & E & Hg). apply locationKey_inj in E as [-> ->].
    by exists c, g.
  - intros (c & g & Hc & Hg & <- & <-). eexists. split; [by exists c|]. apply list_elem_of_fmap. by exists g.
Qed.

Definition in_scope (f : Finding) : Prop := lower_trim (Category f) <> CategoryOutOfScope.
Definition tied (f : JSONFinding) : Prop := isVerificationTie (Verification_ (j_Finding f)) = true.
Definition split_on (f : JSONFinding) : Prop := Disagreement (j_Finding f) <> "".
Definition solo (f : JSONFinding) : Prop := exists r, Reviewers (j_Finding f) = [r].
Definition surfaces (clusters : list AmbiguousCluster) (f : JSONFinding) : Prop :=
  isRefutedJSON f = false /\ in_scope (j_Finding f) /\ ~ co_located clusters (File (j_Finding f)) (Line (j_Finding f)) /\
  (tied f \/ split_on f \/ solo f).
Definition entry (f : JSONFinding) : DisagreementItem :=
  if isVerificationTie (Verification_ (j_Finding f)) then verificationItem f
  else if bool_decide (split_on f) then severitySplitItem f else soloItem f.

Lemma finding_item_spec clusters f it : finding_item (grayKeys clusters) f = Some it <-> surfaces clusters f /\ it = entry f.
Proof.
  unfold finding_item, surfaces, entry, in_scope, tied. destruct (isRefutedJSON f); [naive_solver|].
  unfold categoryIsOutOfScope. destruct (String.eqb_spec (lower_trim (Category (j_Finding f))) CategoryOutOfScope); [naive_solver|].
  case_bool_decide as Hk; rewrite elem_of_grayKeys in Hk; [naive_solver|].
  destruct (isVerificationTie _) eqn:Et; [naive_solver|]. unfold split_on, solo.
  destruct (String.eqb_spec (Disagreement (j_Finding f)) "") as [E|E]; cbn [negb].
  - rewrite bool_decide_eq_false_2 by naive_solver. destruct (Reviewers (j_Finding f)) as [|r [|r' rs]]; naive_solver.
  - rewrite bool_decide_eq_true_2 by done. naive_solver.
Qed.

Lemma entry_kind f : it_Kind (entry f) <> KindGrayZone.
Proof.
  unfold entry. destruct (isVerificationTie _); [|by case_bool_decide]. unfold verificationItem.
  by destruct (Verification_ (j_Finding f)).
Qed.
Lemma entry_key f : (it_File (entry f), it_Line (entry f), it_Problem (entry f)) =
  (File (j_Finding f), Line (j_Finding f), Problem (j_Finding f)).
Proof.
  unfold entry. destruct (isVerificationTie _); [|by case_bool_decide]. unfold verificationItem.
  by destruct (Verification_ (j_Finding f)).
Qed.

Lemma forallb_false_elem {A} (p : A -> bool) (l : list A) : forallb p l = false -> exists x, x ∈ l /\ p x = false.
Proof.
  induction l as [|x l IH]; [done|]. cbn [forallb]. destruct (p x) eqn:E; cbn [andb]; intros H.
  - destruct (IH H) as (y & Hy & Hp). exists y. split; [by right|done].
  - exists x. split; [by left|done].
Qed.

Lemma cluster_item_spec rf c it :
  cluster_item rf c = Some it <-> (exists g, g ∈ amb_Findings c /\ in_scope g) /\ it = grayZoneItem c rf.
Proof.
  unfold cluster_item, allOutOfScope. case_bool_decide as E; cbn [orb].
  - split; [done|]. intros [(g & Hg & _) _]. rewrite E in Hg. by apply elem_of_nil in Hg.
  - destruct (forallb _ _) eqn:Ef.
    + split; [done|]. intros [(g & Hg & Hs) _]. rewrite forallb_forall in Ef. specialize (Ef g (proj1 (list_elem_of_In _ _) Hg)).
      by apply String.eqb_eq in Ef.
    + split; [|by intros [_ ->]]. intros [= <-]. split; [|done].
      apply forallb_false_elem in Ef as (g & Hg & Hc). exists g. split; [done|]. by apply String.eqb_neq.
Qed.

Lemma rank_nonneg s : 0 <= index0 SeverityRank s <= 4.
Proof. unfold index0. destruct (SeverityRank !! s) as [r|] eqn:E; [|cbn; lia]. apply SeverityRank_cases in E. cbn. lia. Qed.
Lemma scoreFor_nonneg spread n r : 0 <= r -> 0 <= scoreFor spread n r.
Proof. unfold scoreFor. destruct (Z.ltb_spec 0 spread); nia. Qed.

Lemma gray_score_pos c rf : amb_Findings c <> [] -> 1 <= it_Score (grayZoneItem c rf).
Proof.
  intros Hne. unfold grayZoneItem. cbn [it_Score]. set (sc := scoreFor _ _ _).
  assert (0 <= sc) as Hsc by apply scoreFor_nonneg, rank_nonneg.
  destruct (Z.eqb_spec sc 0); cbn [andb]; [|lia]. destruct (amb_Findings c); [done|]. cbn. lia.
Qed.

Lemma elem_of_radar findings clusters it : it ∈ BuildDisagreements findings clusters <->
  (exists f, f ∈ findings /\ surfaces clusters f /\ it = entry f) \/
  (exists c, c ∈ clusters /\ (exists g, g ∈ amb_Findings c /\ in_scope g) /\ it = grayZoneItem c (fallback_targets findings)).
Proof.
  unfold BuildDisagreements, sortDisagreements. rewrite slice_stable_Permutation, elem_of_app, !list_elem_of_omap.
  setoid_rewrite finding_item_spec. setoid_rewrite cluster_item_spec. naive_solver.
Qed.
Lemma radar_entry findings clusters it : it ∈ BuildDisagreements findings clusters -> it_Kind it <> KindGrayZone ->
  exists f, f ∈ findings /\ surfaces clusters f /\ it = entry f.
Proof. by intros [?|(c & _ & _ & ->)]%elem_of_radar Hk. Qed.
Lemma surfaces_apart findings clusters it : it ∈ BuildDisagreements findings clusters -> it_Kind it <> KindGrayZone ->
  ~ co_located clusters (it_File it) (it_Line it).
Proof.
  intros Hin Hk. destruct (radar_entry _ _ _ Hin Hk) as (f & _ & (_ & _ & Hc & _) & ->).
  pose proof (entry_key f) as E. injection E as -> -> _. done.
Qed.

(** ** The specification of the radar *)

(** An item is ranked ahead of another: more score; of one score, the more severe; then
    the file, the line, the kind and the problem, upwards. *)
Definition ahead (a b : DisagreementItem) : Prop :=
  it_Score b < it_Score a \/ it_Score a = it_Score b /\
  (Z.of_nat (severity_level (it_Severity b)) < Z.of_nat (severity_level (it_Severity a)) \/
   Z.of_nat (severity_level (it_Severity a)) = Z.of_nat (severity_level (it_Severity b)) /\
   (str_ltb (it_File a) (it_File b) = true \/ it_File a = it_File b /\
    (it_Line a < it_Line b \/ it_Line a = it_Line b /\
     (str_ltb (it_Kind a) (it_Kind b) = true \/ it_Kind a = it_Kind b /\ str_ltb (it_Problem a) (it_Problem b) = true)))).

Lemma disagreement_less_ahead a b : disagreement_less a b = true <-> ahead a b.
Proof.
  unfold disagreement_less, rank, ahead. rewrite !severity_level_index.
  by apply if_Z_desc_spec, if_Z_desc_spec, if_str_spec, if_Z_spec, if_str_spec.
Qed.

(** The distance between the ends of a recorded disagreement, lowest first, and the voices
    behind a finding: one per reviewer on its own model and one per model that stood in. *)
Definition spread_of (f : JSONFinding) : nat :=
  match cut_vs (Disagreement (j_Finding f)) with
  | (lo, Some hi) => severity_level hi - severity_level lo
  | (_, None) => 0
  end%nat.
Definition voices_of (f : JSONFinding) : nat :=
  Nat.max 1 (length (native (j_FallbackReviewers f) (Reviewers (j_Finding f))) +
             size (shared (j_FallbackReviewers f) (Reviewers (j_Finding f)))).
Definition item_score (f : JSONFinding) (spread : nat) : Z :=
  Z.of_nat (if decide (spread = 0%nat) then severity_level (Severity (j_Finding f)) else spread * voices_of f)%nat.

(** Two or more skeptics looked and settled nothing. *)
Definition skeptics_tied (f : JSONFinding) (v : Verification) : Prop :=
  Verification_ (j_Finding f) = Some v /\ ToLower (TrimSpace (Verdict v)) = "unverifiable" /\ (2 <= length (splitNames (Skeptic v)))%nat.

(** The item a finding shows as, in the order of precedence. *)
Inductive shows (f : JSONFinding) : DisagreementItem -> Prop :=
  | shows_tie v : skeptics_tied f v ->
      shows f (mkItem "verification_disagreement" (File (j_Finding f)) (Line (j_Finding f)) (Severity (j_Finding f)) (Problem (j_Finding f))
        (item_score f (spread_of f)) (Z.of_nat (spread_of f)) (voices_of f) (Reviewers (j_Finding f)) (Disagreement (j_Finding f))
        (Skeptic v) (Notes v) [])
  | shows_split : (forall v, ~ skeptics_tied f v) -> Disagreement (j_Finding f) <> "" ->
      shows f (mkItem "severity_split" (File (j_Finding f)) (Line (j_Finding f)) (Severity (j_Finding f)) (Problem (j_Finding f))
        (item_score f (spread_of f)) (Z.of_nat (spread_of f)) (voices_of f) (Reviewers (j_Finding f)) (Disagreement (j_Finding f)) "" "" [])
  | shows_solo r : (forall v, ~ skeptics_tied f v) -> Disagreement (j_Finding f) = "" -> Reviewers (j_Finding f) = [r] ->
      shows f (mkItem "solo_finding" (File (j_Finding f)) (Line (j_Finding f)) (Severity (j_Finding f)) (Problem (j_Finding f))
        (item_score f 0) 0 (voices_of f) [r] "" "" "" []).

(** A finding no skeptic refuted, in scope and away from every gray-zone cluster. *)
Definition eligible (clusters : list AmbiguousCluster) (f : JSONFinding) : Prop :=
  (forall v, Verification_ (j_Finding f) = Some v -> ToLower (TrimSpace (Verdict v)) <> "refuted") /\
  ToLower (TrimSpace (Category (j_Finding f))) <> "out-of-scope" /\
  (forall c g, c ∈ clusters -> g ∈ amb_Findings c -> File g = File (j_Finding f) -> Line g <> Line (j_Finding f)).

Lemma tie_spec f : isVerificationTie (Verification_ (j_Finding f)) = true <-> exists v, skeptics_tied f v.
Proof.
  unfold isVerificationTie, skeptics_tied. destruct (Verification_ (j_Finding f)) as [v|]; [|naive_solver].
  rewrite andb_true_iff, String.eqb_eq, Nat.leb_le. split; [intros []; by exists v|by intros (? & [= <-] & ?)].
Qed.

Lemma spread_spec f : spreadFromDisagreement (Disagreement (j_Finding f)) = Z.of_nat (spread_of f).
Proof.
  unfold spreadFromDisagreement, spread_of. destruct (cut_vs _) as [lo [hi|]]; [|done]. rewrite !severity_level_index.
  destruct (Z.ltb_spec (Z.of_nat (severity_level hi)) (Z.of_nat (severity_level lo))); lia.
Qed.
Lemma voices_spec f : voices f = voices_of f.
Proof. unfold voices, voices_of, atLeastOne. by rewrite distinctReviewerCount_eq. Qed.
Lemma score_spec f n : scoreFor (Z.of_nat n) (voices f) (rank (Severity (j_Finding f))) = item_score f n.
Proof.
  unfold scoreFor, item_score, rank. rewrite severity_level_index, voices_spec.
  destruct (Z.ltb_spec 0 (Z.of_nat n)); [rewrite decide_False by lia|rewrite decide_True by lia]; lia.
Qed.

Lemma eligible_spec clusters f : eligible clusters f <->
  isRefutedJSON f = false /\ in_scope (j_Finding f) /\ ~ co_located clusters (File (j_Finding f)) (Line (j_Finding f)).
Proof.
  unfold eligible, isRefutedJSON, in_scope, co_located, lower_trim, VerdictRefuted, CategoryOutOfScope.
  assert ((forall c g, c ∈ clusters -> g ∈ amb_Findings c -> File g = File (j_Finding f) -> Line g <> Line (j_Finding f)) <->
    ~ (exists c g, c ∈ clusters /\ g ∈ amb_Findings c /\ File g = File (j_Finding f) /\ Line g = Line (j_Finding f))) as -> by
    (split; [by intros H (c & g & Hc & Hg & Hf & Hl); eapply H|intros H c g Hc Hg Hf Hl; apply H; by exists c, g]).
  destruct (Verification_ (j_Finding f)) as [v|]; [rewrite String.eqb_neq|]; naive_solver.
Qed.

Lemma shows_entry clusters f it : eligible clusters f /\ shows f it <-> surfaces clusters f /\ it = entry f.
Proof.
  rewrite eligible_spec. unfold surfaces.
  enough (shows f it <-> (tied f \/ split_on f \/ solo f) /\ it = entry f) as -> by tauto.
  unfold entry, tied, split_on, solo. destruct (isVerificationTie _) eqn:Et.
  - apply tie_spec in Et as Hv. destruct Hv as [v Hv]. pose proof Hv as (E & _). split.
    + intros [w Hw|Hn|r Hn]; [|by destruct (Hn v)..]. assert (w = v) as -> by (destruct Hw; congruence). split; [auto|].
      unfold verificationItem. by rewrite E, spread_spec, score_spec, voices_spec.
    + intros [_ ->]. unfold verificationItem. rewrite E, spread_spec, score_spec, voices_spec. by apply shows_tie.
  - assert (forall v, ~ skeptics_tied f v) as Hn by (intros v Hv; pose proof (proj2 (tie_spec f) (ex_intro _ v Hv)); congruence).
    case_bool_decide as Hd.
    + unfold severitySplitItem. rewrite spread_spec, score_spec, voices_spec. split.
      * intros [w Hw| |r]; [by destruct (Hn w)|auto|done].
      * intros [_ ->]. by apply shows_split.
    + unfold soloItem.
      assert (scoreFor 0 (voices f) (rank (Severity (j_Finding f))) = item_score f 0) as -> by apply (score_spec f 0).
      rewrite voices_spec. split.
      * intros [w Hw| |r _ Hd' Hr]; [by destruct (Hn w)|done|]. rewrite Hr. split; [right; right; by eexists|done].
      * intros [[?|[?|[r Hr]]] ->]; [done..|]. rewrite Hr. destruct (decide (Disagreement (j_Finding f) = "")); [by apply (shows_solo f r)|done].
Qed.

End radar_spec.

(** ** Examples *)

Definition raw_finding (sev : string) (line : Z) (problem category reviewer : string) : Finding :=
  mkFinding sev "a.go" line problem "" category 5 "" reviewer [] "" "" None.
Definition gray_cluster (fs : list Finding) : AmbiguousCluster := mkAmbiguousCluster "c1" "a.go" 10 (f_const 55 100) fs.

(** A cluster whose members are all out of scope yields no item, but hides an in-scope
    severity split at the same line, which is no member of it. *)
Example out_of_scope_cluster_hides_a_split :
  let hidden := record "CRITICAL" "sql injection" "greta" "LOW vs CRITICAL" None in
  let old := gray_cluster [raw_finding "LOW" 10 "old style" "out-of-scope" "bruce"; raw_finding "LOW" 10 "old naming" "out-of-scope" "greta"] in
  (BuildDisagreements (U := ascii_case) [hidden] [old], it_Kind <$> BuildDisagreements (U := ascii_case) [hidden] []) =
    ([], [KindSeveritySplit]).
Proof. by vm_compute. Qed.

(** Findings a skeptic refuted do not surface, except as members of a gray-zone cluster. *)
Example refuted_cluster_surfaces :
  let refuted p r := record "HIGH" p r "" (Some (mkVerification "refuted" "sk1" "" false false)) in
  let c := gray_cluster [raw_finding "HIGH" 10 "nil deref" "correctness" "bruce"; raw_finding "HIGH" 10 "nil pointer" "correctness" "greta"] in
  (fun it => (it_Kind it, it_Score it, it_Detail it)) <$>
    BuildDisagreements (U := ascii_case) [refuted "nil deref" "bruce"; refuted "nil pointer" "greta"] [c] =
  [(KindGrayZone, 3, "similarity 0.55")].
Proof. by vm_compute. Qed.
