(* ===== verification/DebateApply.v ===== *)
(** * Cross-examination: a run over a review

    src/internal/debate: [runDebate] of debate.go from the records it reads to those it
    writes, with the filters that keep a re-run from debating again (debate.go, cluster.go),
    the rulings applied to the findings (emit.go [applyRulings]), the clusters merged in place
    (cluster.go) and the attempt counts carried from one debate.json to the next. The
    transcripts, the correction of verification.json and the files themselves are not
    modelled. *)

From Stdlib Require Import Ascii String.
From stdpp Require Import prelude strings gmap fin_sets list sorting pretty.
From Stdlib Require Import ZArith Lia SpecFloat.
From S2P Require Import Prelude GoString GoSort GoFloat GoJson Finding Ambiguous Merge Reconcile Gate Think RecordMerge Radar SkepticVerdict Debate.

Open Scope string_scope.
Open Scope list_scope.
Open Scope nat_scope.

(** ** Keys and records *)

Definition FindingKey : Type := string * Z * string.
Definition finding_key (f : JSONFinding) : FindingKey := (File (j_Finding f), Line (j_Finding f), Problem (j_Finding f)).
Definition item_key (it : DisagreementItem) : FindingKey := (it_File it, it_Line it, it_Problem it).
Definition result_key (ir : ItemResult) : FindingKey := (ir_File ir, ir_Line ir, ir_Problem ir).
Definition location (f : JSONFinding) : string := Radar.locationKey (File (j_Finding f)) (Line (j_Finding f)).

Record ruleApply := mkRuleApply {
  ra_verdict : string;
  ra_survived : bool;
  ra_severity : string;
  ra_judge : string;
  ra_reasoning : string;
}.
Record OverflowItem := mkOverflowItem {
  ov_File : string;
  ov_Line : Z;
  ov_Kind : string;
  ov_Severity : string;
  ov_Problem : string;
  ov_UnresolvedAttempts : Z;
  ov_Reason : string;
}.
Definition overflow_key (ov : OverflowItem) : FindingKey := (ov_File ov, ov_Line ov, ov_Problem ov).
Definition OverflowAttemptsExhausted : string := "unresolved_attempts_exhausted".
Record DebateFile := mkDebateFile { df_Items : list ItemResult; df_Overflow : list OverflowItem }.

(** The value of a Go map lookup that ignores presence. *)
Definition attempts_of (attempts : gmap FindingKey Z) (k : FindingKey) : Z := default 0%Z (attempts !! k).

(** ** The attempt counts *)

Definition maxUnresolvedAttempts : Z := 3.
Definition countsTowardWithholding (reason : string) : bool :=
  negb (bool_decide (reason ∈ [ReasonContextCancelled; ReasonHarnessUnavailable; ReasonInsufficientModels; ReasonNoProposer])).
Definition carryUnresolvedAttempts (prior : Z) (reason : string) : Z :=
  if countsTowardWithholding reason then (prior + 1)%Z else prior.

(** [priorUnresolvedAttempts], [None] where debate.json is absent or unreadable. *)
Definition item_attempts (out : gmap FindingKey Z) (it : ItemResult) : gmap FindingKey Z :=
  if negb (ir_Outcome it =? OutcomeUnresolved)%string then out
  else
    let n := ir_UnresolvedAttempts it in
    <[result_key it := if (n <? 1)%Z && countsTowardWithholding (ir_Reason it) then 1%Z else n]> out.
Definition overflow_attempts (out : gmap FindingKey Z) (ov : OverflowItem) : gmap FindingKey Z :=
  let n := ov_UnresolvedAttempts ov in
  let n := if (ov_Reason ov =? OverflowAttemptsExhausted)%string && (n <? maxUnresolvedAttempts)%Z then maxUnresolvedAttempts else n in
  if (n <? 1)%Z then out
  else if (attempts_of out (overflow_key ov) <? n)%Z then <[overflow_key ov := n]> out else out.
Definition priorUnresolvedAttempts (df : option DebateFile) : gmap FindingKey Z :=
  match df with
  | None => ∅
  | Some df => foldl overflow_attempts (foldl item_attempts ∅ (df_Items df)) (df_Overflow df)
  end.

Definition overflow_item (attempts : gmap FindingKey Z) (reason : string) (it : DisagreementItem) : OverflowItem :=
  mkOverflowItem (it_File it) (it_Line it) (it_Kind it) (it_Severity it) (it_Problem it) (attempts_of attempts (item_key it)) reason.
Definition overflowItems (items : list DisagreementItem) (attempts : gmap FindingKey Z) : list OverflowItem :=
  overflow_item attempts "" <$> items.
Definition exhausted (attempts : gmap FindingKey Z) (it : DisagreementItem) : Prop :=
  (maxUnresolvedAttempts <= attempts_of attempts (item_key it))%Z.
#[export] Instance exhausted_dec attempts it : Decision (exhausted attempts it).
Proof. unfold exhausted. apply _. Defined.
Definition withholdExhausted (items : list DisagreementItem) (attempts : gmap FindingKey Z) :
    list DisagreementItem * list OverflowItem :=
  if bool_decide (attempts = ∅) then (items, [])
  else (filter (fun it => ~ exhausted attempts it) items,
        overflow_item attempts OverflowAttemptsExhausted <$> filter (exhausted attempts) items).

(** ** What a re-run need not debate *)

Fixpoint dedup_loop (seen : gset FindingKey) (findings : list JSONFinding) : list JSONFinding :=
  match findings with
  | [] => []
  | f :: rest => if bool_decide (finding_key f ∈ seen) then dedup_loop seen rest else f :: dedup_loop ({[finding_key f]} ∪ seen) rest
  end.
Definition deduplicateFindings (findings : list JSONFinding) : list JSONFinding := dedup_loop ∅ findings.

Definition survived (f : JSONFinding) : Prop :=
  match Verification_ (j_Finding f) with Some v => ChallengeSurvived v = true | None => False end.
#[export] Instance survived_dec f : Decision (survived f).
Proof. unfold survived. destruct (Verification_ (j_Finding f)); apply _. Defined.
Definition filterAlreadyDebated (items : list DisagreementItem) (findings : list JSONFinding) : list DisagreementItem :=
  let debated : gset FindingKey := list_to_set (finding_key <$> filter survived findings) in
  if bool_decide (debated = ∅) then items else filter (fun it => item_key it ∉ debated) items.

Definition collisionSentinelID : string := "atcr:collision".
Definition collision : AmbiguousCluster := mkAmbiguousCluster collisionSentinelID "" 0 (S754_zero false) [].
Definition cluster_key (c : AmbiguousCluster) : FindingKey := (amb_File c, amb_Line c, ClusterDisplayProblem (amb_Findings c)).
Definition index_cluster (out : gmap FindingKey AmbiguousCluster) (c : AmbiguousCluster) : gmap FindingKey AmbiguousCluster :=
  <[cluster_key c := match out !! cluster_key c with Some _ => collision | None => c end]> out.
Definition indexClusters (clusters : list AmbiguousCluster) : gmap FindingKey AmbiguousCluster := foldl index_cluster ∅ clusters.

Definition applied (f : JSONFinding) : Prop := ClusterMerged (j_Stamps f) = true /\ ClusterID (j_Stamps f) <> "".
(** [idx] is the index, nil where there are no clusters. *)
Definition suppressed (mergedIDs mergedAtLoc : gset string) (idx : option (gmap FindingKey AmbiguousCluster)) (it : DisagreementItem) : bool :=
  (it_Kind it =? KindGrayZone)%string &&
  match idx with
  | None => false
  | Some m =>
      match m !! item_key it with
      | Some c => negb (ID c =? "")%string && bool_decide (ID c ∈ mergedIDs)
      | None => bool_decide (Radar.locationKey (it_File it) (it_Line it) ∈ mergedAtLoc)
      end
  end.
#[export] Instance applied_dec f : Decision (applied f).
Proof. unfold applied. apply _. Defined.
Definition filterMergedClusters (items : list DisagreementItem) (findings : list JSONFinding)
    (idx : option (gmap FindingKey AmbiguousCluster)) : list DisagreementItem :=
  let merged := filter applied findings in
  let mergedIDs : gset string := list_to_set ((fun f => ClusterID (j_Stamps f)) <$> merged) in
  if bool_decide (mergedIDs = ∅) then items
  else filter (fun it => suppressed mergedIDs (list_to_set (location <$> merged)) idx it = false) items.

Section debate_apply.
Context {U : UnicodeCase}.

(** ** Rulings *)

Definition validVerdict (v : string) : bool := bool_decide (v ∈ [VerdictConfirmed; VerdictRefuted; VerdictUnverifiable]).
Definition rule_for (rulings : gmap FindingKey ruleApply) (f : JSONFinding) : option ruleApply :=
  ra ← rulings !! finding_key f; if validVerdict (ra_verdict ra) then Some ra else None.
Definition set_rule (ra : ruleApply) (f : JSONFinding) : JSONFinding :=
  let g := j_Finding f in
  let v :=
    match Verification_ g with
    | Some v => mkVerification (ra_verdict ra) (Skeptic v) (Notes v) (ra_survived ra) false
    | None => mkVerification (ra_verdict ra) (ra_judge ra) (ra_reasoning ra) (ra_survived ra) false
    end in
  mkJSONFinding
    (mkFinding (if (ra_severity ra =? "")%string then Severity g else ra_severity ra) (File g) (Line g) (Problem g) (Fix g) (Category g)
       (EstMinutes g) (Evidence g) (Reviewer g) (Reviewers g) (ConfidenceForVerdict (Confidence g) (ra_verdict ra)) (Disagreement g) (Some v))
    (j_FallbackReviewers f) (j_SourceQuotes f) (j_ConfidenceDiscount f) (j_Stamps f).
Definition apply_rule (rulings : gmap FindingKey ruleApply) (f : JSONFinding) : JSONFinding :=
  match rule_for rulings f with Some ra => set_rule ra f | None => f end.
Definition clear_caveat (rulings : gmap FindingKey ruleApply) (cleared : gmap FindingKey ruleApply) (f : JSONFinding) :
    gmap FindingKey ruleApply :=
  match rule_for rulings f, Verification_ (j_Finding f) with
  | Some ra, Some v => if Truncated v then <[finding_key f := ra]> cleared else cleared
  | _, _ => cleared
  end.
(** The findings, and the caveats the rulings cleared. *)
Definition applyRulings (findings : list JSONFinding) (rulings : gmap FindingKey ruleApply) : list JSONFinding * gmap FindingKey ruleApply :=
  (apply_rule rulings <$> findings, foldl (clear_caveat rulings) ∅ findings).

(** ** Cluster merges *)

Definition stripped_key (f : Finding) : FindingKey := (File f, Line f, StripSymbolAnchors (Problem f)).
Definition exact_member (c : AmbiguousCluster) (f : JSONFinding) : Prop := stripped_key (j_Finding f) ∈ stripped_key <$> amb_Findings c.
Definition at_member (c : AmbiguousCluster) (f : JSONFinding) : Prop :=
  location f ∈ (fun g => Radar.locationKey (File g) (Line g)) <$> amb_Findings c.
#[export] Instance exact_member_dec c f : Decision (exact_member c f).
Proof. unfold exact_member. apply _. Defined.
#[export] Instance at_member_dec c f : Decision (at_member c f).
Proof. unfold at_member. apply _. Defined.
(** The records pass 2 takes: the only unmatched one where a member matched exactly. *)
Definition drifted (c : AmbiguousCluster) (findings : list JSONFinding) (f : JSONFinding) : Prop :=
  ~ exact_member c f /\ at_member c f /\ location f ∈ location <$> filter (exact_member c) findings /\
  length (filter (fun g => ~ exact_member c g /\ at_member c g /\ location g = location f) findings) = 1.
Definition matched (c : AmbiguousCluster) (findings : list JSONFinding) (f : JSONFinding) : Prop := exact_member c f \/ drifted c findings f.
#[export] Instance matched_dec c findings f : Decision (matched c findings f).
Proof. unfold matched, drifted. apply _. Defined.

(** [merged] in place of the first record that satisfies [P], the others dropped. *)
Fixpoint collapse (P : JSONFinding -> Prop) `{!forall f, Decision (P f)} (merged : JSONFinding) (placed : bool) (findings : list JSONFinding) :
    list JSONFinding :=
  match findings with
  | [] => []
  | f :: rest =>
      if decide (P f) then (if placed then collapse P merged true rest else merged :: collapse P merged true rest)
      else f :: collapse P merged placed rest
  end.
Definition stamp_cluster (c : AmbiguousCluster) (m : JSONFinding) : JSONFinding :=
  let g := j_Finding m in
  let st := j_Stamps m in
  mkJSONFinding
    (mkFinding (Severity g) (amb_File c) (amb_Line c) (Problem g) (Fix g) (Category g) (EstMinutes g) (Evidence g) (Reviewer g) (Reviewers g)
       (Confidence g) (Disagreement g) (Verification_ g))
    (j_FallbackReviewers m) (j_SourceQuotes m) (j_ConfidenceDiscount m)
    (mkStamps (PathValid st) (PathWarning st) (PathSuggestion st) true (ID c)).
Definition applyOneClusterMerge (findings : list JSONFinding) (c : AmbiguousCluster) : option (list JSONFinding * bool) :=
  if (ID c =? "")%string then Some (findings, false)
  else
    let group := filter (matched c findings) findings in
    if bool_decide (filter (exact_member c) findings = []) || (length group <? 2) then Some (findings, false)
    else if existsb (fun f => ClusterMerged (j_Stamps f)) group then Some (findings, false)
    else m ← MergeJSONFindings group; Some (collapse (matched c findings) (stamp_cluster c m) false findings, true).

(** The findings, the clusters applied and those with fewer than two members. *)
Definition merge_step (acc : option (list JSONFinding * nat * nat)) (c : AmbiguousCluster) : option (list JSONFinding * nat * nat) :=
  '(findings, n, skipped) ← acc;
  if length (amb_Findings c) <? 2 then Some (findings, n, S skipped)
  else '(findings, ok) ← applyOneClusterMerge findings c; Some (findings, if ok : bool then S n else n, skipped).
Definition applyClusterMerges (findings : list JSONFinding) (clusters : list AmbiguousCluster) : option (list JSONFinding * nat * nat) :=
  foldl merge_step (Some (findings, 0, 0)) clusters.

Definition firstClusterRulingCollision (rulings : gmap FindingKey ruleApply) (clusters : list AmbiguousCluster) : string :=
  let ruledLocs : gset string := list_to_set ((fun kv => Radar.locationKey kv.1.1.1 kv.1.1.2) <$> map_to_list rulings) in
  match filter (fun g => Radar.locationKey (File g) (Line g) ∈ ruledLocs) (mjoin (amb_Findings <$> clusters)) with
  | g :: _ => File g +:+ ":" +:+ Itoa (Line g)
  | [] => ""
  end.

(** ** The run *)

Definition splitSeverity (ir : ItemResult) : string := if (ir_Outcome ir =? OutcomeSplit)%string then ir_SettledSeverity ir else "".
Definition ruleVerdict (ir : ItemResult) : string := ruling_verdict (ir_Outcome ir).
Definition set_Reason (reason : string) (ir : ItemResult) : ItemResult :=
  mkItemResult (ir_File ir) (ir_Line ir) (ir_Kind ir) (ir_Problem ir) (ir_Outcome ir) reason (ir_UnresolvedAttempts ir) (ir_OriginalSeverity ir)
    (ir_SettledSeverity ir) (ir_ClusterDecision ir) (ir_ChallengeSurvived ir) (ir_SingleModel ir) (ir_Proposer ir) (ir_Challenger ir) (ir_Judge ir)
    (ir_Reasoning ir).
Definition set_Attempts (n : Z) (ir : ItemResult) : ItemResult :=
  mkItemResult (ir_File ir) (ir_Line ir) (ir_Kind ir) (ir_Problem ir) (ir_Outcome ir) (ir_Reason ir) n (ir_OriginalSeverity ir)
    (ir_SettledSeverity ir) (ir_ClusterDecision ir) (ir_ChallengeSurvived ir) (ir_SingleModel ir) (ir_Proposer ir) (ir_Challenger ir) (ir_Judge ir)
    (ir_Reasoning ir).

Record itemOutcome := mkOutcome {
  oc_ir : ItemResult;
  oc_apply : option (FindingKey * ruleApply);
  oc_cluster : option AmbiguousCluster;
}.
Definition settle (idx : gmap FindingKey AmbiguousCluster) (it : DisagreementItem) (ir : ItemResult) : itemOutcome :=
  if (ir_Outcome ir =? OutcomeUnresolved)%string then mkOutcome ir None None
  else if (it_Kind it =? KindGrayZone)%string then
    if (ir_ClusterDecision ir =? ClusterMerge)%string then mkOutcome ir None (idx !! item_key it)
    else if (ir_ClusterDecision ir =? ClusterSeparate)%string then mkOutcome ir None None
    else mkOutcome (set_Reason ReasonNoClusterDecision ir) None None
  else
    mkOutcome ir (Some (item_key it, mkRuleApply (ruleVerdict ir) (ir_ChallengeSurvived ir) (splitSeverity ir) (ir_Judge ir) (ir_Reasoning ir)))
      None.

(** What a run depends on besides the files: the configuration, the registry, the engine
    ([None] in [h_engine] where the harness could not be built), the items whose turn came
    after the context ended, and the sentinel each item draws. *)
Record Harness := mkHarness {
  h_cfg : Config;
  h_reg : Registry;
  h_engine : engine;
  h_cancelled : nat -> bool;
  h_sentinel : nat -> string;
}.
Definition item_outcome (h : Harness) (idx : gmap FindingKey AmbiguousCluster) (i : nat) (it : DisagreementItem) : option itemOutcome :=
  ir ← match h_engine h with
       | None => Some (unresolved_item it None ReasonHarnessUnavailable "")
       | Some _ =>
           if h_cancelled h i then Some (unresolved_item it None ReasonContextCancelled "")
           else debateOne (h_cfg h) (Some (h_reg h)) (h_engine h) (h_sentinel h i) it
       end;
  Some (settle idx it ir).
Fixpoint debate_items (h : Harness) (idx : gmap FindingKey AmbiguousCluster) (i : nat) (items : list DisagreementItem) :
    option (list itemOutcome) :=
  match items with
  | [] => Some []
  | it :: rest => oc ← item_outcome h idx i it; ocs ← debate_items h idx (S i) rest; Some (oc :: ocs)
  end.
Definition record_outcome (attempts : gmap FindingKey Z) (oc : itemOutcome) : ItemResult :=
  let ir := oc_ir oc in
  if (ir_Outcome ir =? OutcomeUnresolved)%string
  then set_Attempts (carryUnresolvedAttempts (attempts_of attempts (result_key ir)) (ir_Reason ir)) ir else ir.
Definition rulings_of (ocs : list itemOutcome) : gmap FindingKey ruleApply :=
  foldl (fun m oc => match oc_apply oc with Some (k, ra) => <[k := ra]> m | None => m end) ∅ ocs.

(** [Result], without the duration. *)
Record Result := mkResult { Selected : nat; Upheld : nat; Overturned : nat; SplitCount : nat; Unresolved : nat; Overflow : nat; Withheld : nat }.
Definition tally (res : Result) (ir : ItemResult) : Result :=
  let o := ir_Outcome ir in
  mkResult (Selected res) (if (o =? OutcomeUphold)%string then S (Upheld res) else Upheld res)
    (if (o =? OutcomeOverturn)%string then S (Overturned res) else Overturned res)
    (if (o =? OutcomeSplit)%string then S (SplitCount res) else SplitCount res)
    (if bool_decide (o ∈ [OutcomeUphold; OutcomeOverturn; OutcomeSplit]) then Unresolved res else S (Unresolved res)) (Overflow res) (Withheld res).

(** The radar's items a run could debate: the clusters are those of ambiguous.json, none
    where it is absent or unreadable. *)
Definition debatable (findings : list JSONFinding) (clusters : list AmbiguousCluster) : list DisagreementItem :=
  let idx := match clusters with [] => None | _ => Some (indexClusters clusters) end in
  filterAlreadyDebated (filterMergedClusters (BuildDisagreements findings clusters) findings idx) findings.

(** What a run writes, with the location its invariant guard would warn of. *)
Record Run := mkRun {
  run_findings : list JSONFinding;
  run_file : DebateFile;
  run_result : Result;
  run_collision : string;
  run_applied : nat;
}.
Definition runDebate (h : Harness) (findings : list JSONFinding) (clusters : list AmbiguousCluster) (prior : option DebateFile) : option Run :=
  let findings := deduplicateFindings findings in
  let attempts := priorUnresolvedAttempts prior in
  let '(items, withheld) := withholdExhausted (debatable findings clusters) attempts in
  let '(selected, overflow) := SelectItems items (h_cfg h) in
  ocs ← debate_items h (indexClusters clusters) 0 selected;
  let results := record_outcome attempts <$> ocs in
  let rulings := rulings_of ocs in
  let merges := omap oc_cluster ocs in
  let ruled := if bool_decide (rulings = ∅) then findings else fst (applyRulings findings rulings) in
  '(merged, applied, skipped) ← applyClusterMerges ruled merges;
  let counted := foldl tally (mkResult 0 0 0 0 0 0 0) results in
  Some (mkRun merged (mkDebateFile results (overflowItems overflow attempts ++ withheld))
    (mkResult (length selected) (Upheld counted) (Overturned counted) (SplitCount counted) (Unresolved counted)
       (length overflow) (length withheld))
    (firstClusterRulingCollision rulings merges) applied).
End debate_apply.

Lemma Forall2_in_r {A B} (R : A -> B -> Prop) l k y : Forall2 R l k -> y ∈ k -> exists x, x ∈ l /\ R x y.
Proof. induction 1 as [|x z l k Hxz _ IH]; [by intros ?%elem_of_nil|]. set_unfold. naive_solver. Qed.

(** ** One item's outcome *)

Section outcome_spec.
Context {U : UnicodeCase}.

(** The shape of an item's outcome: about the item, with a reason exactly when it is
    unresolved, and with a settled severity only on a split. *)
Record answers (it : DisagreementItem) (ir : ItemResult) : Prop := mkAnswers {
  an_key : result_key ir = item_key it;
  an_kind : ir_Kind ir = it_Kind it;
  an_outcome : ir_Outcome ir = OutcomeUnresolved /\ ir_Reason ir <> "" \/ ir_Outcome ir ∈ rulings /\ ir_Reason ir = "";
  an_survived : ir_ChallengeSurvived ir = ruling_survived (ir_Outcome ir);
  an_settled : ir_SettledSeverity ir = "" \/ canonical (ir_SettledSeverity ir) /\ ir_Outcome ir = OutcomeSplit;
}.

Lemma rulings_settled o : o ∈ rulings -> o <> OutcomeUnresolved.
Proof. intros H ->. by apply (bool_decide_eq_true_2 _) in H. Qed.

Lemma unresolved_answers it cast reason reasoning : reason <> "" -> answers it (unresolved_item it cast reason reasoning).
Proof. intros Hr. by constructor; [..|left|done|left]. Qed.

Lemma ruled_answers text it cast r : ruled text r -> answers it (ruled_result it cast r).
Proof.
  intros (Ho & Hs & _). constructor; [done|done|by right|done|]. cbn.
  destruct (String.eqb_spec (ru_Outcome r) OutcomeSplit) as [E|]; [|by left]. apply elem_of_cons in Hs as [->|Hs]; [by left|by right].
Qed.

Lemma item_outcome_spec h idx i it : exists ir, item_outcome h idx i it = Some (settle idx it ir) /\ answers it ir.
Proof.
  unfold item_outcome. destruct (h_engine h) as [ask|].
  2: { eexists. split; [done|]. by apply unresolved_answers. }
  destruct (h_cancelled h i); [eexists; split; [done|]; by apply unresolved_answers|].
  destruct (debateOne_cases (h_cfg h) (Some (h_reg h)) (Some ask) (h_sentinel h i) it) as (ir & -> & H). eexists. split; [done|].
  destruct H as [(cast & reason & reasoning & Hr & ->)|(cast & ask' & p & c & raw & r & _ & _ & _ & _ & _ & _ & _ & _ & (_ & t & _ & Ht & _) & ->)];
    [by apply unresolved_answers|by apply (ruled_answers t)].
Qed.

Definition outcome_of (idx : gmap FindingKey AmbiguousCluster) (it : DisagreementItem) (oc : itemOutcome) : Prop :=
  exists ir, answers it ir /\ oc = settle idx it ir.
Lemma debate_items_spec h idx i items : exists ocs, debate_items h idx i items = Some ocs /\ Forall2 (outcome_of idx) items ocs.
Proof.
  revert i. induction items as [|it items IH]; intros i; cbn [debate_items]; [by exists []|].
  destruct (item_outcome_spec h idx i it) as (ir & -> & Ha), (IH (S i)) as (ocs & Hocs & HF). cbn [mbind option_bind]. rewrite Hocs.
  cbn [mbind option_bind]. eexists. split; [done|]. constructor; [by exists ir|done].
Qed.

(** Where a ruling goes: a finding of its own, or a cluster's members. *)
Lemma settle_apply idx it ir k ra : oc_apply (settle idx it ir) = Some (k, ra) <->
  ir_Outcome ir <> OutcomeUnresolved /\ it_Kind it <> KindGrayZone /\ k = item_key it /\
  ra = mkRuleApply (ruleVerdict ir) (ir_ChallengeSurvived ir) (splitSeverity ir) (ir_Judge ir) (ir_Reasoning ir).
Proof.
  unfold settle. destruct (String.eqb_spec (ir_Outcome ir) OutcomeUnresolved); [naive_solver|].
  destruct (String.eqb_spec (it_Kind it) KindGrayZone); [|cbn; naive_solver].
  destruct (_ =? ClusterMerge)%string; [naive_solver|]. destruct (_ =? ClusterSeparate)%string; naive_solver.
Qed.
Lemma settle_cluster idx it ir c : oc_cluster (settle idx it ir) = Some c <->
  ir_Outcome ir <> OutcomeUnresolved /\ it_Kind it = KindGrayZone /\ ir_ClusterDecision ir = ClusterMerge /\ idx !! item_key it = Some c.
Proof.
  unfold settle. destruct (String.eqb_spec (ir_Outcome ir) OutcomeUnresolved); [naive_solver|].
  destruct (String.eqb_spec (it_Kind it) KindGrayZone); [|naive_solver].
  destruct (String.eqb_spec (ir_ClusterDecision ir) ClusterMerge); [cbn; naive_solver|].
  destruct (_ =? ClusterSeparate)%string; naive_solver.
Qed.
Lemma settle_ir idx it ir : result_key (oc_ir (settle idx it ir)) = result_key ir /\ ir_Outcome (oc_ir (settle idx it ir)) = ir_Outcome ir /\
  (oc_ir (settle idx it ir) = ir \/ oc_ir (settle idx it ir) = set_Reason ReasonNoClusterDecision ir /\ ir_Outcome ir <> OutcomeUnresolved /\
    it_Kind it = KindGrayZone).
Proof.
  unfold settle. destruct (String.eqb_spec (ir_Outcome ir) OutcomeUnresolved); [by repeat split; left|].
  destruct (String.eqb_spec (it_Kind it) KindGrayZone); [|by repeat split; left].
  destruct (_ =? ClusterMerge)%string; [by repeat split; left|]. destruct (_ =? ClusterSeparate)%string; [by repeat split; left|].
  repeat split. by right.
Qed.

Lemma rulings_of_Some ocs k ra : rulings_of ocs !! k = Some ra -> exists oc, oc ∈ ocs /\ oc_apply oc = Some (k, ra).
Proof.
  unfold rulings_of. apply (foldl_invariant (fun ocs (m : gmap FindingKey ruleApply) => m !! k = Some ra -> exists oc, oc ∈ ocs /\ oc_apply oc = Some (k, ra))).
  - by rewrite lookup_empty.
  - intros done oc todo m _ IH. destruct (oc_apply oc) as [[k' ra']|] eqn:E.
    + intros [[-> ->]|[_ H]]%lookup_insert_Some; [exists oc; split; [set_solver|done]|].
      destruct (IH H) as (o & Ho & Eo). exists o. split; [set_solver|done].
    + intros H. destruct (IH H) as (o & Ho & Eo). exists o. split; [set_solver|done].
Qed.

(** ** The parts of a run *)

Lemma applyOneClusterMerge_total findings c : is_Some (applyOneClusterMerge findings c).
Proof.
  unfold applyOneClusterMerge. destruct (ID c =? "")%string; [done|]. case_bool_decide; cbn [orb]; [done|].
  destruct (Nat.ltb_spec (length (filter (matched c findings) findings)) 2) as [|Hlen]; [done|]. destruct (existsb _ _); [done|].
  destruct (merged_record _ Hlen) as (m & _ & _ & -> & _). done.
Qed.
Lemma merge_steps_total clusters acc : is_Some (foldl merge_step (Some acc) clusters).
Proof.
  revert acc. induction clusters as [|c cs IH]; intros [[fs n] sk]; cbn [foldl]; [done|]. cbn [merge_step mbind option_bind].
  destruct (length (amb_Findings c) <? 2); [apply IH|]. destruct (applyOneClusterMerge_total fs c) as [[fs' ok] ->]. apply IH.
Qed.

Lemma apply_no_rules (findings : list JSONFinding) : apply_rule ∅ <$> findings = findings.
Proof.
  rewrite <- (list_fmap_id findings) at 2. apply list_fmap_ext. intros i f _. unfold apply_rule, rule_for. by rewrite lookup_empty.
Qed.

Definition kept (findings : list JSONFinding) (clusters : list AmbiguousCluster) (prior : option DebateFile) :=
  withholdExhausted (debatable findings clusters) (priorUnresolvedAttempts prior).
Definition selection (h : Harness) (findings : list JSONFinding) (clusters : list AmbiguousCluster) (prior : option DebateFile) :=
  SelectItems (fst (kept findings clusters prior)) (h_cfg h).

(** A run in its parts, on findings already deduplicated: what was selected, its outcomes,
    the rulings and the merges. *)
Record parts (h : Harness) (findings : list JSONFinding) (clusters : list AmbiguousCluster) (prior : option DebateFile) (r : Run)
    (ocs : list itemOutcome) (skipped : nat) : Prop := mkParts {
  pt_outcomes : Forall2 (outcome_of (indexClusters clusters)) (fst (selection h findings clusters prior)) ocs;
  pt_findings : applyClusterMerges (apply_rule (rulings_of ocs) <$> findings) (omap oc_cluster ocs) = Some (run_findings r, run_applied r, skipped);
  pt_items : df_Items (run_file r) = record_outcome (priorUnresolvedAttempts prior) <$> ocs;
  pt_overflow : df_Overflow (run_file r) =
    overflowItems (snd (selection h findings clusters prior)) (priorUnresolvedAttempts prior) ++ snd (kept findings clusters prior);
  pt_collision : run_collision r = firstClusterRulingCollision (rulings_of ocs) (omap oc_cluster ocs);
}.

Lemma runDebate_parts h findings clusters prior : exists r ocs skipped, runDebate h findings clusters prior = Some r /\
  parts h (deduplicateFindings findings) clusters prior r ocs skipped.
Proof.
  unfold runDebate. set (fs := deduplicateFindings findings).
  destruct (kept fs clusters prior) as [items withheld] eqn:Ek. unfold kept in Ek. rewrite Ek.
  destruct (SelectItems items (h_cfg h)) as [selected overflow] eqn:Es.
  destruct (debate_items_spec h (indexClusters clusters) 0 selected) as (ocs & -> & Hocs). cbn [mbind option_bind].
  assert ((if bool_decide (rulings_of ocs = ∅) then fs else fst (applyRulings fs (rulings_of ocs))) = apply_rule (rulings_of ocs) <$> fs) as ->.
  { case_bool_decide as E; [by rewrite E, apply_no_rules|done]. }
  destruct (merge_steps_total (omap oc_cluster ocs) (apply_rule (rulings_of ocs) <$> fs, 0, 0)) as [[[merged n] sk] Hm].
  unfold applyClusterMerges. rewrite Hm. cbn [mbind option_bind]. eexists _, ocs, sk. split; [done|].
  assert (selection h fs clusters prior = (selected, overflow)) as Hsel by (unfold selection, kept; rewrite Ek; exact Es).
  constructor; cbn; rewrite ?Hsel; unfold kept; rewrite ?Ek; done.
Qed.

Lemma SelectItems_parts items cfg : fst (SelectItems items cfg) ++ snd (SelectItems items cfg) ≡ₚ filter (fun it => it_Kind it ∈ Triggers cfg) items.
Proof.
  unfold SelectItems. destruct (_ || _)%bool; cbn [fst snd]; [rewrite app_nil_r|rewrite take_drop]; apply slice_stable_Permutation.
Qed.
Lemma withhold_parts items attempts : fst (withholdExhausted items attempts) = filter (fun it => ~ exhausted attempts it) items /\
  snd (withholdExhausted items attempts) = overflow_item attempts OverflowAttemptsExhausted <$> filter (exhausted attempts) items.
Proof.
  unfold withholdExhausted. case_bool_decide as E; cbn [fst snd]; [|done]. subst attempts.
  assert (forall it, ~ exhausted ∅ it) as Hn.
  { intros it. unfold exhausted, attempts_of. rewrite lookup_empty. cbn. unfold maxUnresolvedAttempts. lia. }
  split; [symmetry; apply filter_Forall_id|rewrite filter_Forall_nil; [done|]]; apply Forall_forall; auto.
Qed.
Lemma selected_debatable h findings clusters prior it :
  it ∈ fst (selection h findings clusters prior) -> it ∈ debatable findings clusters.
Proof.
  intros H. assert (it ∈ fst (selection h findings clusters prior) ++ snd (selection h findings clusters prior)) as H' by (apply elem_of_app; by left).
  unfold selection in H'. rewrite SelectItems_parts in H'. apply list_elem_of_filter in H' as [_ H']. unfold kept in H'.
  rewrite (proj1 (withhold_parts _ _)) in H'. by apply list_elem_of_filter in H' as [_ H'].
Qed.
Lemma filterMergedClusters_sub items findings idx it : it ∈ filterMergedClusters items findings idx -> it ∈ items.
Proof. unfold filterMergedClusters. case_bool_decide; [done|]. by intros [_ ?]%list_elem_of_filter. Qed.
Lemma filterAlreadyDebated_in items findings it : it ∈ filterAlreadyDebated items findings <->
  it ∈ items /\ forall f, f ∈ findings -> survived f -> finding_key f <> item_key it.
Proof.
  assert (item_key it ∉ (list_to_set (finding_key <$> filter survived findings) : gset FindingKey) <->
    forall f, f ∈ findings -> survived f -> finding_key f <> item_key it) as Hk.
  { rewrite elem_of_list_to_set, list_elem_of_fmap. setoid_rewrite list_elem_of_filter. split.
    - intros H f Hf Hs E. apply H. by exists f.
    - intros H (f & E & Hs & Hf). by apply (H f). }
  rewrite <- Hk. unfold filterAlreadyDebated. case_bool_decide as E.
  - rewrite E. split; [|tauto]. intros ?. split; [done|]. apply not_elem_of_empty.
  - rewrite list_elem_of_filter. tauto.
Qed.
Lemma debatable_radar findings clusters it : it ∈ debatable findings clusters -> it ∈ BuildDisagreements findings clusters.
Proof. unfold debatable. intros [H _]%filterAlreadyDebated_in. by apply filterMergedClusters_sub in H. Qed.
End outcome_spec.

(** ** Types of the records *)

Section types.
Context {U : UnicodeCase}.

Definition confidences : list string := [ConfHigh; ConfMedium; ConfLow; ConfidenceVerified].
(** A record whose closed vocabularies hold: severity, confidence and, if it is verified,
    verdict. *)
Definition well_typed (f : JSONFinding) : Prop :=
  canonical (Severity (j_Finding f)) /\ Confidence (j_Finding f) ∈ confidences /\
  match Verification_ (j_Finding f) with Some v => validVerdict (Verdict v) = true | None => True end.

Lemma ConfidenceForVerdict_typed c v : c ∈ confidences -> ConfidenceForVerdict c v ∈ confidences.
Proof.
  intros H. unfold ConfidenceForVerdict. cbv zeta. destruct (_ =? _)%string; [by do 3 right; left|].
  destruct (_ =? _)%string; [by do 2 right; left|].
  assert (ToUpper (TrimSpace c) = c) as ->; [|done].
  unfold confidences in H. repeat (apply elem_of_cons in H as [->|H]; [by vm_compute|]). by apply elem_of_nil in H.
Qed.

Definition rule_typed (ra : ruleApply) : Prop := ra_severity ra = "" \/ canonical (ra_severity ra).

Lemma apply_rule_typed rulings f : (forall ra, rulings !! finding_key f = Some ra -> rule_typed ra) -> well_typed f ->
  well_typed (apply_rule rulings f).
Proof.
  intros Hr (H1 & H2 & H3). unfold apply_rule. destruct (rule_for rulings f) as [ra|] eqn:E; [|done].
  unfold rule_for in E. destruct (rulings !! finding_key f) as [ra'|]; cbn [mbind option_bind] in E; [|done].
  destruct (validVerdict (ra_verdict ra')) eqn:Ev; [|done]. injection E as ->. specialize (Hr ra eq_refl).
  split; [|split]; cbn.
  - destruct (String.eqb_spec (ra_severity ra) ""); [done|]. by destruct Hr.
  - by apply ConfidenceForVerdict_typed.
  - by destruct (Verification_ (j_Finding f)).
Qed.

Lemma rulings_of_typed idx items ocs : Forall2 (outcome_of idx) items ocs -> forall k ra, rulings_of ocs !! k = Some ra -> rule_typed ra.
Proof.
  intros HF k ra (oc & Hoc & E)%rulings_of_Some.
  apply (Forall2_in_r _ _ _ _ HF) in Hoc as (it & _ & ir & Ha & ->). apply settle_apply in E as (_ & _ & _ & ->).
  unfold rule_typed, splitSeverity. cbn. destruct (_ =? _)%string; [|by left]. destruct (an_settled _ _ Ha) as [?|[? _]]; [by left|by right].
Qed.

Lemma collapse_Forall (Q P : JSONFinding -> Prop) `{!forall f, Decision (P f)} m placed l :
  Q m -> Forall Q l -> Forall Q (collapse P m placed l).
Proof.
  intros Hm HF. revert placed. induction HF as [|f l Hf _ IH]; intros placed; cbn; [done|]. case_decide; [destruct placed; [done|by constructor]|by constructor].
Qed.

(** What an applied merge did. *)
Definition merged_into (c : AmbiguousCluster) (findings findings' : list JSONFinding) : Prop :=
  let group := filter (matched c findings) findings in
  ID c <> "" /\ 2 <= length group /\ Forall (fun f => ClusterMerged (j_Stamps f) = false) group /\
  (exists f, f ∈ findings /\ exact_member c f) /\
  exists m, MergeJSONFindings group = Some m /\ findings' = collapse (matched c findings) (stamp_cluster c m) false findings.
Lemma applyOneClusterMerge_spec findings c : exists findings' ok, applyOneClusterMerge findings c = Some (findings', ok) /\
  if ok : bool then merged_into c findings findings' else findings' = findings.
Proof.
  unfold applyOneClusterMerge, merged_into. set (group := filter (matched c findings) findings).
  destruct (String.eqb_spec (ID c) "") as [|Hid]; [by eexists _, false|]. case_bool_decide as Ee; cbn [orb]; [by eexists _, false|].
  destruct (Nat.ltb_spec (length group) 2) as [|Hlen]; [by eexists _, false|].
  destruct (existsb _ _) eqn:Ex; [by eexists _, false|].
  destruct (merged_record _ Hlen) as (m & _ & _ & Em & _). rewrite Em. cbn [mbind option_bind]. eexists _, true. split; [done|].
  split; [done|]. split; [done|]. split; [|split; [|by exists m]].
  - apply Forall_forall. intros f Hf. destruct (ClusterMerged (j_Stamps f)) eqn:Ec; [|done].
    assert (existsb (fun f => ClusterMerged (j_Stamps f)) group = true); [|congruence].
    apply existsb_exists. exists f. split; [by apply list_elem_of_In|done].
  - destruct (filter (exact_member c) findings) as [|f l] eqn:El; [done|]. exists f.
    assert (f ∈ filter (exact_member c) findings) as [H1 H2]%list_elem_of_filter by (rewrite El; by left). done.
Qed.

(** Whatever an applied merge preserves, a run's merges preserve. *)
Lemma merge_steps_preserve (Q : list JSONFinding -> Prop) clusters :
  (forall c fs fs', c ∈ clusters -> Q fs -> merged_into c fs fs' -> Q fs') ->
  forall fs n sk fs' n' sk', Q fs -> foldl merge_step (Some (fs, n, sk)) clusters = Some (fs', n', sk') -> Q fs'.
Proof.
  induction clusters as [|c cs IH]; intros Hstep fs n sk fs' n' sk' Hq; cbn [foldl]; [by intros [= <- _ _]|].
  cbn [merge_step mbind option_bind]. assert (forall c fs fs', c ∈ cs -> Q fs -> merged_into c fs fs' -> Q fs') as Hstep'.
  { intros ? ? ? ?. apply Hstep. by right. }
  destruct (length (amb_Findings c) <? 2); [by apply IH|].
  destruct (applyOneClusterMerge_spec fs c) as (fs1 & ok & -> & H). cbn [mbind option_bind]. apply IH; [done|].
  destruct ok; [apply (Hstep c fs fs1); [by left|done..]|by subst].
Qed.

Lemma merged_into_typed c fs fs' : Forall well_typed fs -> merged_into c fs fs' -> Forall well_typed fs'.
Proof.
  intros H (_ & Hlen & _ & _ & m & Em & ->). apply collapse_Forall; [|done].
  destruct (merged_record _ Hlen) as (m' & mx & dis & Em' & Hans & H1 & _ & _ & _ & H2 & H3). rewrite Em in Em'. injection Em' as <-.
  rewrite Forall_forall in H.
  assert (forall f, f ∈ filter (matched c fs) fs -> well_typed f) as Hg by (intros f [_ Hf]%list_elem_of_filter; by apply H).
  split; [|split]; cbn.
  - rewrite H1. destruct (merged_severity _ _ _ Hans) as [_ (f & Hf & ->)]. destruct (Hg f Hf) as [Hc _]. unfold NormalizeSeverity.
    by rewrite canonical_upper.
  - unfold confidences. revert H3. set_unfold. tauto.
  - rewrite H2. pose proof (mergeVerification_spec (filter (matched c fs) fs)) as Hv. destruct (mergeVerification _) as [v|]; [|done].
    destruct Hv as ((f & w & Hf & Ew & -> & _) & _). destruct (Hg f Hf) as (_ & _ & Hw). by rewrite Ew in Hw.
Qed.

(** A recorded outcome: its vocabulary, a reason where one is due, and a settled severity only
    on a split. *)
Definition result_typed (ir : ItemResult) : Prop :=
  ir_Outcome ir ∈ OutcomeUnresolved :: rulings /\
  (ir_Outcome ir = OutcomeUnresolved -> ir_Reason ir <> "") /\
  (ir_Outcome ir <> OutcomeUnresolved -> ir_Reason ir = "" \/ ir_Reason ir = ReasonNoClusterDecision /\ ir_Kind ir = KindGrayZone) /\
  ir_ChallengeSurvived ir = ruling_survived (ir_Outcome ir) /\
  (ir_SettledSeverity ir = "" \/ canonical (ir_SettledSeverity ir) /\ ir_Outcome ir = OutcomeSplit).

Lemma record_outcome_typed idx it oc attempts : outcome_of idx it oc -> result_typed (record_outcome attempts oc).
Proof.
  intros (ir & [_ Hk Ho Hs Ht] & ->). destruct (settle_ir idx it ir) as (_ & Eo & Hir).
  assert (result_typed (oc_ir (settle idx it ir))) as Hr.
  { unfold result_typed. destruct Hir as [->|(-> & Hne & Hg)].
    - split; [destruct Ho as [[-> _]|[? _]]; [by left|by right]|]. split; [intros E; destruct Ho as [[_ ?]|[Hr _]]; [done|by apply rulings_settled in Hr]|].
      split; [|done]. intros Hne. destruct Ho as [[? _]|[_ ?]]; [done|by left].
    - cbn. split; [destruct Ho as [[-> _]|[? _]]; [by left|by right]|]. split; [done|]. split; [|done]. intros _. right. by rewrite Hk. }
  unfold record_outcome. by destruct (_ =? _)%string.
Qed.

Lemma dedup_sub seen fs : dedup_loop seen fs ⊆ fs.
Proof.
  revert seen. induction fs as [|f fs IH]; intros seen; cbn; [done|]. case_bool_decide; [|]; set_solver.
Qed.

(** C15. The debate stage always finishes and keeps the records typed: from findings whose
    severity, confidence and verdict are in their vocabularies it writes findings that are,
    and every outcome it records names one of the four outcomes, a reason exactly where an
    item is unresolved or a cluster ruling decided nothing, and a settled severity, in the
    vocabulary, only on a split. *)
Theorem runDebate_typed (h : Harness) (findings : list JSONFinding) (clusters : list AmbiguousCluster) (prior : option DebateFile)
    (Hwt : Forall well_typed findings) : exists r, runDebate h findings clusters prior = Some r /\
  Forall well_typed (run_findings r) /\ Forall result_typed (df_Items (run_file r)).
Proof.
  destruct (runDebate_parts h findings clusters prior) as (r & ocs & sk & E & P). exists r. split; [done|]. split.
  - eapply merge_steps_preserve; [|..|exact (pt_findings _ _ _ _ _ _ _ P)].
    + intros c fs fs' _. apply merged_into_typed.
    + apply Forall_fmap, Forall_forall. intros f Hf%dedup_sub. rewrite Forall_forall in Hwt.
      apply apply_rule_typed; [|by apply Hwt]. apply (rulings_of_typed _ _ _ (pt_outcomes _ _ _ _ _ _ _ P)).
  - rewrite (pt_items _ _ _ _ _ _ _ P). apply Forall_fmap, Forall_forall. intros oc Hoc.
    apply (Forall2_in_r _ _ _ _ (pt_outcomes _ _ _ _ _ _ _ P)) in Hoc as (it & _ & Ho). by eapply record_outcome_typed.
Qed.
End types.

(** ** Rulings and merges *)

Section conserve.
Context {U : UnicodeCase}.

Lemma index_member clusters k c : indexClusters clusters !! k = Some c -> c = collision \/ c ∈ clusters /\ cluster_key c = k.
Proof.
  unfold indexClusters.
  apply (foldl_invariant (fun cs (m : gmap FindingKey AmbiguousCluster) => m !! k = Some c -> c = collision \/ c ∈ cs /\ cluster_key c = k)).
  - by rewrite lookup_empty.
  - intros done d todo m _ IH. unfold index_cluster. rewrite lookup_insert_Some. intros [[Hk Hc]|[_ H]].
    + destruct (m !! cluster_key d); [by left|]. subst. right. set_solver.
    + destruct (IH H) as [?|[? ?]]; [by left|right]. set_solver.
Qed.

(** No item with a finding of its own stands where a cluster of the radar has a member, and no
    ruled key where a merged cluster has one. *)
Definition selected_from (findings : list JSONFinding) (clusters : list AmbiguousCluster) (items : list DisagreementItem) : Prop :=
  forall it, it ∈ items -> it ∈ BuildDisagreements findings clusters.

Lemma ruled_apart findings clusters items ocs k ra : selected_from findings clusters items ->
  Forall2 (outcome_of (indexClusters clusters)) items ocs -> rulings_of ocs !! k = Some ra ->
  exists it, it ∈ items /\ it_Kind it <> KindGrayZone /\ k = item_key it /\ ~ co_located clusters k.1.1 k.1.2.
Proof.
  intros Hs HF (oc & Hoc & E)%rulings_of_Some. apply (Forall2_in_r _ _ _ _ HF) in Hoc as (it & Hit & ir & _ & ->).
  apply settle_apply in E as (_ & Hk & -> & _). exists it. split; [done|]. split; [done|]. split; [done|].
  exact (surfaces_apart _ _ _ (Hs it Hit) Hk).
Qed.
Lemma merged_from clusters items ocs c : Forall2 (outcome_of (indexClusters clusters)) items ocs -> c ∈ omap oc_cluster ocs ->
  c = collision \/ c ∈ clusters.
Proof.
  intros HF (oc & Hoc & E)%list_elem_of_omap. apply (Forall2_in_r _ _ _ _ HF) in Hoc as (it & Hit & ir & _ & ->).
  apply settle_cluster in E as (_ & _ & _ & E). apply index_member in E as [?|[? _]]; [by left|by right].
Qed.
Lemma merged_location clusters c file line : c = collision \/ c ∈ clusters ->
  Radar.locationKey file line ∈ (fun g => Radar.locationKey (File g) (Line g)) <$> amb_Findings c -> co_located clusters file line.
Proof.
  intros [->|Hc] (g & E & Hg)%list_elem_of_fmap; [by apply elem_of_nil in Hg|]. apply locationKey_inj in E as [-> ->]. by exists c, g.
Qed.

Lemma no_collision findings clusters items ocs : selected_from findings clusters items ->
  Forall2 (outcome_of (indexClusters clusters)) items ocs -> firstClusterRulingCollision (rulings_of ocs) (omap oc_cluster ocs) = "".
Proof.
  intros Hs HF. unfold firstClusterRulingCollision. set (P := fun g : Finding => _). set (members := mjoin _).
  rewrite (filter_Forall_nil P members); [done|]. apply Forall_forall. intros g (fs & (c & -> & Hc)%list_elem_of_fmap & Hg)%elem_of_mjoin Hin.
  unfold P in Hin. apply elem_of_list_to_set, list_elem_of_fmap in Hin as ([k ra] & E & Hk). cbn in E. apply elem_of_map_to_list in Hk.
  destruct (ruled_apart _ _ _ _ _ _ Hs HF Hk) as (it & _ & _ & _ & Hap). apply locationKey_inj in E as [E1 E2].
  apply Hap. rewrite <- E1, <- E2. eapply merged_location; [by eapply merged_from|].
  apply (list_elem_of_fmap_2 (fun g => Radar.locationKey (File g) (Line g))). done.
Qed.

Lemma matched_location c fs f : matched c fs f -> at_member c f.
Proof.
  intros [He|(_ & Ha & _)]; [|done]. unfold exact_member, at_member in *. apply list_elem_of_fmap in He as (g & E & Hg).
  apply list_elem_of_fmap. exists g. split; [|done]. unfold stripped_key in E. injection E as E1 E2 _. unfold location. by rewrite E1, E2.
Qed.

Lemma apply_rule_key rulings f : finding_key (apply_rule rulings f) = finding_key f.
Proof. unfold apply_rule. by destruct (rule_for rulings f). Qed.

(** ** What becomes of a finding *)

(** A ruling touches the severity, the confidence and the verification block only. *)
Definition unruled (f : JSONFinding) : JSONFinding :=
  let g := j_Finding f in
  mkJSONFinding (mkFinding "" (File g) (Line g) (Problem g) (Fix g) (Category g) (EstMinutes g) (Evidence g) (Reviewer g) (Reviewers g) ""
    (Disagreement g) None) (j_FallbackReviewers f) (j_SourceQuotes f) (j_ConfidenceDiscount f) (j_Stamps f).
(** What a cluster merge keeps of a member. *)
Definition folded (f g : JSONFinding) : Prop :=
  ClusterMerged (j_Stamps g) = true /\
  (forall r, r ∈ Reviewers (j_Finding f) -> r <> "" -> r ∈ Reviewers (j_Finding g)) /\
  (rank (Severity (j_Finding f)) <= index0 SeverityRank (Severity (j_Finding g)))%Z /\
  (Verification_ (j_Finding f) <> None -> Verification_ (j_Finding g) <> None).

Lemma apply_rule_unruled rulings f : unruled (apply_rule rulings f) = unruled f.
Proof. unfold apply_rule. by destruct (rule_for rulings f). Qed.

Lemma collapse_elem (P : JSONFinding -> Prop) `{!forall f, Decision (P f)} m placed l g :
  g ∈ collapse P m placed l <-> (g ∈ l /\ ~ P g) \/ (g = m /\ placed = false /\ exists f, f ∈ l /\ P f).
Proof.
  revert placed. induction l as [|f l IH]; intros placed; cbn [collapse]; [set_solver|].
  case_decide as Hp; [destruct placed|]; set_unfold; rewrite IH; naive_solver.
Qed.

Lemma merged_member c fs f m : f ∈ filter (matched c fs) fs -> 2 <= length (filter (matched c fs) fs) ->
  MergeJSONFindings (filter (matched c fs) fs) = Some m -> folded f (stamp_cluster c m).
Proof.
  intros Hf Hlen Em. destruct (merged_record _ Hlen) as (m' & mx & dis & Em' & Hans & H1 & _ & H2 & _ & H3 & _).
  rewrite Em in Em'. injection Em' as <-. split; [done|]. cbn. split; [|split].
  - intros r Hr Hne. rewrite H2. apply elem_of_unionReviewers. split; [done|]. by exists f.
  - rewrite H1. destruct (merged_severity _ _ _ Hans) as [Hmax _]. unfold rank, index0 at 1.
    destruct (SeverityRank !! NormalizeSeverity (Severity (j_Finding f))) as [r|] eqn:E; cbn; [by apply (Hmax f)|apply rank_nonneg].
  - intros Hv. rewrite H3. pose proof (mergeVerification_spec (filter (matched c fs) fs)) as Hm. destruct (mergeVerification _); [done|].
    by rewrite Hm in Hv.
Qed.

(** Through the merges of a run: each record is still there, or folded into a survivor; no
    record at a place no cluster has a member is touched. *)
Definition carried (clusters : list AmbiguousCluster) (start now : list JSONFinding) : Prop :=
  (forall f, f ∈ start -> f ∈ now \/ co_located clusters (File (j_Finding f)) (Line (j_Finding f)) /\ exists g, g ∈ now /\ folded f g) /\
  (forall g, g ∈ now -> g ∈ start \/ ClusterMerged (j_Stamps g) = true /\
     exists c, c ∈ clusters /\ ClusterID (j_Stamps g) = ID c /\ File (j_Finding g) = amb_File c /\ Line (j_Finding g) = amb_Line c).

Lemma carried_step clusters start fs fs' c : c = collision \/ c ∈ clusters -> carried clusters start fs -> merged_into c fs fs' ->
  carried clusters start fs'.
Proof.
  intros Hc [Hfwd Hback] (Hid & Hlen & Hfresh & (e & He & Hex) & m & Em & ->).
  assert (c ∈ clusters) as Hc'.
  { destruct Hc as [->|?]; [|done]. by apply elem_of_nil in Hex. }
  assert (stamp_cluster c m ∈ collapse (matched c fs) (stamp_cluster c m) false fs) as Hs.
  { apply collapse_elem. right. split; [done|]. split; [done|]. exists e. split; [done|by left]. }
  split.
  - intros f Hf. destruct (Hfwd f Hf) as [Hin|(Hl & g & Hg & Hfold)].
    + destruct (decide (matched c fs f)) as [Hm|Hm]; [right|left; apply collapse_elem; by left].
      split; [eapply merged_location; [by right|exact (matched_location _ _ _ Hm)]|].
      exists (stamp_cluster c m). split; [done|]. apply (merged_member c fs); [by apply list_elem_of_filter|done..].
    + right. split; [done|]. exists g. split; [|done]. apply collapse_elem. left. split; [done|]. intros Hm.
      rewrite Forall_forall in Hfresh. assert (ClusterMerged (j_Stamps g) = false) as E by (apply Hfresh; by apply list_elem_of_filter).
      destruct Hfold as [E' _]. congruence.
  - intros g Hg. apply collapse_elem in Hg as [[Hg _]|[-> _]]; [by apply Hback|]. right. split; [done|]. by exists c.
Qed.

Lemma run_carried h findings clusters prior r ocs sk : parts h findings clusters prior r ocs sk ->
  carried clusters (apply_rule (rulings_of ocs) <$> findings) (run_findings r).
Proof.
  intros P. eapply (merge_steps_preserve (carried clusters (apply_rule (rulings_of ocs) <$> findings)));
    [|..|exact (pt_findings _ _ _ _ _ _ _ P)].
  - intros c fs fs' Hc. apply carried_step. by apply (merged_from _ _ _ _ (pt_outcomes _ _ _ _ _ _ _ P)).
  - split; intros f Hf; by left.
Qed.
End conserve.

(** ** One ruling to a finding *)

Section unique.
Context {U : UnicodeCase}.

Lemma dedup_keys seen fs : NoDup (finding_key <$> dedup_loop seen fs) /\
  (forall f, f ∈ dedup_loop seen fs -> finding_key f ∉ seen) /\
  (forall f, f ∈ fs -> finding_key f ∉ seen -> finding_key f ∈ finding_key <$> dedup_loop seen fs).
Proof.
  revert seen. induction fs as [|f fs IH]; intros seen; cbn [dedup_loop].
  - split; [constructor|]. split; intros f Hf; by apply elem_of_nil in Hf.
  - case_bool_decide as Hin.
    + destruct (IH seen) as (H1 & H2 & H3). split; [done|]. split; [done|]. intros g [->|Hg]%elem_of_cons Hn; [done|by apply H3].
    + destruct (IH ({[finding_key f]} ∪ seen)) as (H1 & H2 & H3). split; [|split].
      * cbn. apply NoDup_cons. split; [|done]. intros (g & E & Hg)%list_elem_of_fmap. apply (H2 g Hg), elem_of_union_l, elem_of_singleton. done.
      * intros g [->|Hg]%elem_of_cons; [done|]. intros Hs. by apply (H2 g Hg), elem_of_union_r.
      * intros g Hg Hn. cbn. destruct (decide (finding_key g = finding_key f)) as [->|Hne]; [by left|]. right.
        apply elem_of_cons in Hg as [->|Hg]; [done|]. apply H3; [done|]. by intros [Hc%elem_of_singleton|?]%elem_of_union.
Qed.
Lemma dedup_NoDup fs : NoDup (finding_key <$> deduplicateFindings fs).
Proof. apply dedup_keys. Qed.
Lemma dedup_key fs f : f ∈ fs -> finding_key f ∈ finding_key <$> deduplicateFindings fs.
Proof. intros Hf. apply dedup_keys; [done|apply not_elem_of_empty]. Qed.

Lemma NoDup_key_eq fs f g : NoDup (finding_key <$> fs) -> f ∈ fs -> g ∈ fs -> finding_key f = finding_key g -> f = g.
Proof.
  intros Hnd (i & Hi)%list_elem_of_lookup (j & Hj)%list_elem_of_lookup E.
  assert (i = j) as ->; [|congruence].
  apply (NoDup_lookup _ _ _ (finding_key f) Hnd); rewrite list_lookup_fmap; [by rewrite Hi|by rewrite Hj, E].
Qed.

(** The items with a finding of their own. *)
Definition own (items : list DisagreementItem) : list FindingKey := item_key <$> filter (fun it => it_Kind it <> KindGrayZone) items.
Lemma own_app l k : own (l ++ k) = own l ++ own k.
Proof. unfold own. by rewrite filter_app, fmap_app. Qed.
#[export] Instance own_perm : Proper ((≡ₚ) ==> (≡ₚ)) own.
Proof. intros l k H. unfold own. by rewrite H. Qed.

Lemma own_entries keys fs : NoDup (finding_key <$> fs) -> NoDup (own (omap (finding_item keys) fs)) /\
  forall k, k ∈ own (omap (finding_item keys) fs) -> k ∈ finding_key <$> fs.
Proof.
  induction fs as [|f fs IH]; cbn [omap list_omap fmap list_fmap]; [split; [constructor|by intros k ?%elem_of_nil]|]. intros [Hn Hnd]%NoDup_cons. destruct (IH Hnd) as [H1 H2].
  destruct (finding_item keys f) as [it|] eqn:E; [|split; [done|]; intros k Hk; right; by apply H2].
  set (rest := omap _ fs) in *. change (it :: rest) with ([it] ++ rest). rewrite own_app.
  assert (own [it] = [finding_key f] \/ own [it] = []) as Ho.
  { unfold own. destruct (decide (it_Kind it <> KindGrayZone)) as [Hk|Hk]; [left; rewrite filter_cons_True by done|right; by rewrite filter_cons_False].
    cbn. f_equal. assert (it = entry f) as ->; [|by pose proof (entry_key f)].
    unfold finding_item, entry, split_on in *. destruct (isRefutedJSON f); [done|]. destruct (categoryIsOutOfScope _); [done|].
    destruct (bool_decide (Radar.locationKey _ _ ∈ _)); [done|]. destruct (isVerificationTie _); [by injection E|].
    destruct (String.eqb_spec (Disagreement (j_Finding f)) ""); cbn [negb] in E.
    - rewrite bool_decide_eq_false_2 by naive_solver. destruct (Reviewers (j_Finding f)) as [|? [|? ?]]; [done|by injection E|done].
    - rewrite bool_decide_eq_true_2 by done. by injection E. }
  destruct Ho as [->| ->]; cbn; [|split; [done|]; intros k Hk; right; by apply H2]. split.
  - apply NoDup_cons. split; [|done]. intros Hk%H2. done.
  - intros k [->|Hk]%elem_of_cons; [by left|right; by apply H2].
Qed.

Lemma own_radar fs clusters : NoDup (finding_key <$> fs) -> NoDup (own (BuildDisagreements fs clusters)).
Proof.
  intros Hnd. unfold BuildDisagreements, sortDisagreements. rewrite (own_perm _ _ (slice_stable_Permutation _ _)), own_app.
  assert (own (omap (cluster_item (fallback_targets fs)) clusters) = []) as ->.
  { unfold own. rewrite filter_Forall_nil; [done|]. apply Forall_forall. intros it (c & _ & E)%list_elem_of_omap.
    apply cluster_item_spec in E as [_ ->]. cbn. tauto. }
  rewrite app_nil_r. by apply own_entries.
Qed.

Lemma own_sub items items' : items ⊆+ items' -> NoDup (own items') -> NoDup (own items).
Proof. intros (k & ->)%submseteq_Permutation. rewrite own_app. by intros [? _]%NoDup_app. Qed.

Lemma filter_sub {A} (P : A -> Prop) `{!forall x, Decision (P x)} (l : list A) : filter P l ⊆+ l.
Proof. apply sublist_submseteq, sublist_filter. Qed.

Lemma debatable_sub fs clusters : debatable fs clusters ⊆+ BuildDisagreements fs clusters.
Proof.
  unfold debatable, filterAlreadyDebated, filterMergedClusters. set (radar := BuildDisagreements fs clusters).
  set (merged := if bool_decide (list_to_set _ = ∅) then radar else _). assert (merged ⊆+ radar) as Hm by (unfold merged; case_bool_decide; [done|apply filter_sub]).
  case_bool_decide; [done|]. by etrans; [apply filter_sub|].
Qed.
Lemma selection_sub h fs clusters prior :
  fst (selection h fs clusters prior) ++ snd (selection h fs clusters prior) ⊆+ debatable fs clusters.
Proof.
  unfold selection. rewrite SelectItems_parts. etrans; [apply filter_sub|]. unfold kept. rewrite (proj1 (withhold_parts _ _)). apply filter_sub.
Qed.

Lemma outcome_keys idx items ocs : Forall2 (outcome_of idx) items ocs ->
  forall k, k ∈ (omap (fun oc => fst <$> oc_apply oc) ocs) -> k ∈ own items.
Proof.
  intros HF k (oc & Hoc & E)%list_elem_of_omap. apply (Forall2_in_r _ _ _ _ HF) in Hoc as (it & Hit & ir & _ & ->).
  destruct (oc_apply _) as [[k' ra]|] eqn:Ea; [|done]. injection E as ->. apply settle_apply in Ea as (_ & Hk & -> & _).
  unfold own. apply list_elem_of_fmap_2, list_elem_of_filter. done.
Qed.
Lemma outcome_NoDup idx items ocs : Forall2 (outcome_of idx) items ocs -> NoDup (own items) ->
  NoDup (omap (fun oc => fst <$> oc_apply oc) ocs).
Proof.
  induction 1 as [|it oc items ocs Ho HF IH]; [constructor|]. change (it :: items) with ([it] ++ items). rewrite own_app. intros (_ & Hd & Hnd)%NoDup_app.
  cbn [omap list_omap]. destruct (oc_apply oc) as [[k ra]|] eqn:E; cbn [fmap option_fmap option_map fst]; [|by apply IH].
  apply NoDup_cons. split; [|by apply IH]. intros Hk%(outcome_keys _ _ _ HF). apply (Hd k); [|done].
  apply (outcome_keys idx [it] [oc]); [by repeat constructor|]. cbn. rewrite E. by left.
Qed.

Lemma rulings_of_own ocs k ra oc : NoDup (omap (fun oc => fst <$> oc_apply oc) ocs) -> oc ∈ ocs -> oc_apply oc = Some (k, ra) ->
  rulings_of ocs !! k = Some ra.
Proof.
  intros Hnd Hoc E. destruct (rulings_of ocs !! k) as [ra'|] eqn:El.
  - apply rulings_of_Some in El as (oc' & Hoc' & E'). f_equal. revert Hnd Hoc Hoc'. clear -E E'.
    induction ocs as [|o ocs IH]; [by intros _ ?%elem_of_nil|]. cbn [omap list_omap].
    assert (forall o' r, o' ∈ ocs -> oc_apply o' = Some (k, r) -> k ∈ omap (fun oc => fst <$> oc_apply oc) ocs) as Hk.
    { intros o' r Ho' Er. apply list_elem_of_omap. exists o'. split; [done|]. by rewrite Er. }
    intros Hnd [->|Hoc]%elem_of_cons [->|Hoc']%elem_of_cons.
    + congruence.
    + rewrite E in Hnd. cbn in Hnd. apply NoDup_cons in Hnd as [Hn _]. by apply Hk in E'.
    + rewrite E' in Hnd. cbn in Hnd. apply NoDup_cons in Hnd as [Hn _]. by apply Hk in E.
    + apply IH; [|done..]. destruct (oc_apply o) as [[? ?]|]; cbn in Hnd; [by apply NoDup_cons in Hnd as [_ ?]|done].
  - exfalso. revert Hoc El. unfold rulings_of.
    apply (foldl_invariant (fun ocs (m : gmap FindingKey ruleApply) => oc ∈ ocs -> m !! k = None -> False)).
    + by intros ?%elem_of_nil.
    + intros done o todo m _ IH [Ho|Ho%list_elem_of_singleton]%elem_of_app.
      * destruct (oc_apply o) as [[k' ra']|]; [|by apply IH]. intros [H _]%lookup_insert_None. by apply IH.
      * subst o. rewrite E. by rewrite lookup_insert_eq.
Qed.

Lemma run_rulings h fs clusters prior r ocs sk : NoDup (finding_key <$> fs) -> parts h fs clusters prior r ocs sk ->
  forall it oc ir, it ∈ fst (selection h fs clusters prior) -> oc ∈ ocs -> oc = settle (indexClusters clusters) it ir ->
    ir_Outcome ir <> OutcomeUnresolved -> it_Kind it <> KindGrayZone ->
    rulings_of ocs !! item_key it =
      Some (mkRuleApply (ruleVerdict ir) (ir_ChallengeSurvived ir) (splitSeverity ir) (ir_Judge ir) (ir_Reasoning ir)).
Proof.
  intros Hnd P it oc ir Hit Hoc -> Hne Hk. eapply rulings_of_own; [|exact Hoc|by apply settle_apply].
  eapply outcome_NoDup; [exact (pt_outcomes _ _ _ _ _ _ _ P)|]. eapply own_sub, own_radar, Hnd.
  etrans; [|apply debatable_sub]. etrans; [|apply (selection_sub h fs clusters prior)]. by apply submseteq_inserts_r.
Qed.
End unique.

(** ** What a run does to the findings *)

Section run_spec.
Context {U : UnicodeCase}.

Lemma selected_radar h fs clusters prior : selected_from fs clusters (fst (selection h fs clusters prior)).
Proof. intros it Hit. eapply debatable_radar, selected_debatable, Hit. Qed.

Lemma unruled_same rulings f : (forall ra, rulings !! finding_key f = Some ra -> False) -> apply_rule rulings f = f.
Proof. intros H. unfold apply_rule, rule_for. destruct (rulings !! finding_key f) as [ra|] eqn:E; [by destruct (H ra)|done]. Qed.

Lemma co_located_unruled h fs clusters prior r ocs sk f : parts h fs clusters prior r ocs sk ->
  co_located clusters (File (j_Finding f)) (Line (j_Finding f)) -> apply_rule (rulings_of ocs) f = f.
Proof.
  intros P Hl. apply unruled_same. intros ra Hra.
  by destruct (ruled_apart _ _ _ _ _ _ (selected_radar _ _ _ _) (pt_outcomes _ _ _ _ _ _ _ P) Hra) as (it & _ & _ & _ & Hn).
Qed.

Lemma length_collapse (P : JSONFinding -> Prop) `{!forall f, Decision (P f)} m l : length (collapse P m true l) <= length l /\
  length (collapse P m false l) <= length l.
Proof. induction l as [|f l [IH1 IH2]]; cbn; [lia|]. case_decide; cbn; lia. Qed.

(** The record a ruling leaves of a finding. *)
Definition settled_as (ir : ItemResult) (f g : JSONFinding) : Prop :=
  unruled g = unruled f /\
  Severity (j_Finding g) = (if (ir_SettledSeverity ir =? "")%string then Severity (j_Finding f) else ir_SettledSeverity ir) /\
  Confidence (j_Finding g) = ConfidenceForVerdict (Confidence (j_Finding f)) (ruleVerdict ir) /\
  exists v, Verification_ (j_Finding g) = Some v /\ Verdict v = ruleVerdict ir /\ ChallengeSurvived v = ir_ChallengeSurvived ir.

Lemma rulings_verdict o : o ∈ rulings -> validVerdict (ruling_verdict o) = true.
Proof. unfold rulings. intros H. repeat (apply elem_of_cons in H as [->|H]; [by vm_compute|]). by apply elem_of_nil in H. Qed.

(** The finding behind a selected item of its own. *)
Lemma item_finding h fs clusters prior it : it ∈ fst (selection h fs clusters prior) -> it_Kind it <> KindGrayZone ->
  exists f, f ∈ fs /\ finding_key f = item_key it /\ isRefutedJSON f = false /\ ~ co_located clusters (File (j_Finding f)) (Line (j_Finding f)).
Proof.
  intros Hit Hk. destruct (radar_entry _ _ _ (selected_radar _ _ _ _ _ Hit) Hk) as (f & Hf & (Hr & _ & Hc & _) & ->).
  exists f. split; [done|]. split; [|done]. by pose proof (entry_key f).
Qed.

(** A ruling an item of its own received, applied to the record it is about. *)
Lemma ruled_record h fs clusters prior r ocs sk : NoDup (finding_key <$> fs) -> parts h fs clusters prior r ocs sk ->
  forall ir, ir ∈ df_Items (run_file r) -> ir_Kind ir <> KindGrayZone -> ir_Outcome ir <> OutcomeUnresolved ->
  exists f, f ∈ fs /\ finding_key f = result_key ir /\ ~ co_located clusters (File (j_Finding f)) (Line (j_Finding f)) /\
    let g := apply_rule (rulings_of ocs) f in g ∈ run_findings r /\ settled_as ir f g.
Proof.
  intros Hnd P ir Hir Hk Hne. rewrite (pt_items _ _ _ _ _ _ _ P) in Hir. apply list_elem_of_fmap in Hir as (oc & E & Hoc).
  destruct (Forall2_in_r _ _ _ _ (pt_outcomes _ _ _ _ _ _ _ P) Hoc) as (it & Hit & ir0 & Ha & Eoc).
  destruct (settle_ir (indexClusters clusters) it ir0) as (Ekey & Eout & Hcase). rewrite <- Eoc in Ekey, Eout, Hcase.
  assert (ir = oc_ir oc) as ->.
  { unfold record_outcome in E. destruct (String.eqb_spec (ir_Outcome (oc_ir oc)) OutcomeUnresolved) as [Eu|]; [|done]. by subst ir. }
  clear E. assert (oc_ir oc = ir0) as E0.
  { destruct Hcase as [?|(E & _ & Hg)]; [done|]. destruct Hk. rewrite E. cbn. by rewrite (an_kind _ _ Ha), Hg. }
  rewrite E0 in *. assert (it_Kind it <> KindGrayZone) as Hk' by by rewrite <- (an_kind _ _ Ha).
  destruct (item_finding _ _ _ _ _ Hit Hk') as (f & Hf & Ef & _ & Hap). exists f. split; [done|]. split; [by rewrite (an_key _ _ Ha)|].
  split; [done|]. cbv zeta. split.
  - destruct (run_carried _ _ _ _ _ _ _ P) as [Hfwd _].
    destruct (Hfwd (apply_rule (rulings_of ocs) f)) as [?|[Hl _]]; [by apply list_elem_of_fmap_2|done|].
    destruct Hap. pose proof (apply_rule_key (rulings_of ocs) f) as Ek. unfold finding_key in Ek. injection Ek as E1 E2 _. by rewrite E1, E2 in Hl.
  - split; [apply apply_rule_unruled|]. pose proof (run_rulings _ _ _ _ _ _ _ Hnd P it oc ir0 Hit Hoc Eoc Hne Hk') as Hra.
    unfold apply_rule, rule_for. rewrite Ef, Hra. cbn [mbind option_bind ra_verdict].
    destruct (an_outcome _ _ Ha) as [[? _]|[Ho _]]; [done|]. assert (validVerdict (ruleVerdict ir0) = true) as -> by exact (rulings_verdict _ Ho).
    assert (splitSeverity ir0 = ir_SettledSeverity ir0) as ->.
    { unfold splitSeverity. destruct (an_settled _ _ Ha) as [->|[Hc ->]]; [by destruct (_ =? _)%string|done]. }
    split; [done|]. split; [done|]. cbn. by destruct (Verification_ (j_Finding f)); eexists.
Qed.

(** A ruled item of the run's file. *)
Lemma item_ruled h fs clusters prior r ocs sk ir : parts h fs clusters prior r ocs sk -> ir ∈ df_Items (run_file r) ->
  ir_Outcome ir <> OutcomeUnresolved -> ir_ChallengeSurvived ir = ruling_survived (ir_Outcome ir) /\ ir_Outcome ir ∈ rulings.
Proof.
  intros P Hir Hne. rewrite (pt_items _ _ _ _ _ _ _ P) in Hir. apply list_elem_of_fmap in Hir as (oc & -> & Hoc).
  destruct (Forall2_in_r _ _ _ _ (pt_outcomes _ _ _ _ _ _ _ P) Hoc) as (it' & _ & Ho').
  destruct (record_outcome_typed _ _ _ (priorUnresolvedAttempts prior) Ho') as (H1 & _ & _ & H4 & _). split; [done|].
  by apply elem_of_cons in H1 as [?|?].
Qed.

(** One location and one problem. *)
Definition same_problem (f g : JSONFinding) : Prop :=
  File (j_Finding f) = File (j_Finding g) /\ Line (j_Finding f) = Line (j_Finding g) /\ Problem (j_Finding f) = Problem (j_Finding g).

(** What is read of the records: the first of each location and problem. *)
Record firsts (findings read : list JSONFinding) : Prop := {
  firsts_sub : read `sublist_of` findings;
  firsts_apart : forall i j f g, read !! i = Some f -> read !! j = Some g -> same_problem f g -> i = j;
  firsts_all : forall f, f ∈ findings -> exists g, g ∈ read /\ same_problem f g;
  firsts_first : forall pre f post, findings = pre ++ f :: post -> (forall g, g ∈ pre -> ~ same_problem f g) -> f ∈ read;
}.

Lemma same_problem_key f g : same_problem f g <-> finding_key f = finding_key g.
Proof. unfold same_problem, finding_key. split; [by intros (-> & -> & ->)|by intros [= -> -> ->]]. Qed.

Lemma dedup_loop_sub seen fs : dedup_loop seen fs `sublist_of` fs.
Proof.
  revert seen. induction fs as [|f fs IH]; intros seen; cbn [dedup_loop]; [done|].
  case_bool_decide; [by apply sublist_cons|by apply sublist_skip].
Qed.

Lemma dedup_loop_first pre f post seen : (forall g, g ∈ pre -> finding_key g <> finding_key f) -> finding_key f ∉ seen ->
  f ∈ dedup_loop seen (pre ++ f :: post).
Proof.
  revert seen. induction pre as [|g pre IH]; intros seen Hpre Hs; cbn [app dedup_loop].
  - rewrite bool_decide_eq_false_2 by done. by left.
  - assert (forall h, h ∈ pre -> finding_key h <> finding_key f) as Hp by (intros h Hh; apply Hpre; by right).
    case_bool_decide; [by apply IH|]. right. apply IH; [done|]. intros [E%elem_of_singleton|?]%elem_of_union; [|done].
    apply (Hpre g); [by left|done].
Qed.

Lemma dedup_firsts fs : firsts fs (deduplicateFindings fs).
Proof.
  split.
  - apply dedup_loop_sub.
  - intros i j f g Hi Hj E%same_problem_key. apply (NoDup_lookup _ _ _ (finding_key f) (dedup_NoDup fs)); rewrite list_lookup_fmap;
      [by rewrite Hi|by rewrite Hj, E].
  - intros f Hf. pose proof (dedup_key fs f Hf) as (g & E & Hg)%list_elem_of_fmap. exists g. split; [done|]. by apply same_problem_key.
  - intros pre f post -> Hn. apply dedup_loop_first; [|apply not_elem_of_empty].
    intros g Hg E. apply (Hn g Hg). by apply same_problem_key.
Qed.

(** What a ruling leaves of the finding it is about, in words: nothing but its severity,
    confidence and verification changes; an upheld or split finding is confirmed and has
    survived, an overturned one is refuted; a split settles the severity. *)
Definition ruled_as (ir : ItemResult) (f g : JSONFinding) : Prop :=
  unruled g = unruled f /\
  Severity (j_Finding g) = (if (ir_SettledSeverity ir =? "")%string then Severity (j_Finding f) else ir_SettledSeverity ir) /\
  exists v, Verification_ (j_Finding g) = Some v /\
    (ir_Outcome ir ∈ ["uphold"; "split"] /\ Verdict v = "confirmed" /\ ChallengeSurvived v = true /\ Confidence (j_Finding g) = "VERIFIED" \/
     ir_Outcome ir = "overturn" /\ Verdict v = "refuted" /\ ChallengeSurvived v = false /\ Confidence (j_Finding g) = "LOW").

Lemma settled_ruled ir f g : settled_as ir f g -> ir_ChallengeSurvived ir = ruling_survived (ir_Outcome ir) -> ir_Outcome ir ∈ rulings ->
  ruled_as ir f g.
Proof.
  intros (H1 & H2 & H3 & v & Hv & H4 & H5) Hs Ho. split; [done|]. split; [done|]. exists v. split; [done|].
  rewrite H3, H4, H5, Hs. unfold ruleVerdict. unfold rulings in Ho.
  repeat (apply elem_of_cons in Ho as [E|Ho]; [rewrite E; first
    [right; split; [done|by vm_compute]|left; split; [by left|by vm_compute]|left; split; [by right; left|by vm_compute]]|]).
  by apply elem_of_nil in Ho.
Qed.

(** C11. The debate stage loses no finding. It reads the first record of each location and
    problem. Every finding read is written again with only its severity, confidence and
    verification changed, or was folded into the survivor of a cluster with a member at its
    location, which keeps all its reviewers, is at least as severe and is verified if it was;
    a record written is one of those or the survivor of a cluster, and there are no more of
    them. Each ruling on an item of its own lands, on the one finding it is about, and no
    finding is both ruled and merged. *)
Theorem runDebate_conserves (h : Harness) (findings : list JSONFinding) (clusters : list AmbiguousCluster) (prior : option DebateFile) :
  exists r fs, runDebate h findings clusters prior = Some r /\ firsts findings fs /\
  (forall f, f ∈ fs -> (exists g, g ∈ run_findings r /\ unruled g = unruled f) \/
     co_located clusters (File (j_Finding f)) (Line (j_Finding f)) /\ exists g, g ∈ run_findings r /\ folded f g) /\
  (forall g, g ∈ run_findings r -> (exists f, f ∈ fs /\ unruled g = unruled f) \/
     ClusterMerged (j_Stamps g) = true /\ exists c, c ∈ clusters /\ ClusterID (j_Stamps g) = ID c) /\
  length (run_findings r) <= length fs /\
  (forall ir, ir ∈ df_Items (run_file r) -> ir_Kind ir <> "gray_zone" -> ir_Outcome ir <> "unresolved" ->
     exists f g, f ∈ fs /\ (File (j_Finding f), Line (j_Finding f), Problem (j_Finding f)) = (ir_File ir, ir_Line ir, ir_Problem ir) /\
       g ∈ run_findings r /\ ruled_as ir f g) /\
  run_collision r = "".
Proof.
  destruct (runDebate_parts h findings clusters prior) as (r & ocs & sk & E & P). exists r, (deduplicateFindings findings).
  split; [done|]. split; [apply dedup_firsts|].
  set (fs := deduplicateFindings findings) in *. destruct (run_carried _ _ _ _ _ _ _ P) as [Hfwd Hback]. split; [|split; [|split; [|split]]].
  - intros f Hf. destruct (Hfwd (apply_rule (rulings_of ocs) f)) as [Hin|(Hl & Hg)]; [by apply list_elem_of_fmap_2|left|right].
    + eexists. split; [exact Hin|apply apply_rule_unruled].
    + pose proof (apply_rule_key (rulings_of ocs) f) as Ek. unfold finding_key in Ek. injection Ek as E1 E2 _. rewrite E1, E2 in Hl.
      split; [done|]. by rewrite (co_located_unruled _ _ _ _ _ _ _ f P Hl) in Hg.
  - intros g Hg. destruct (Hback g Hg) as [(f & -> & Hf)%list_elem_of_fmap|(Hm & c & Hc & Hid & _)]; [left|right; split; [done|by exists c]].
    exists f. split; [done|apply apply_rule_unruled].
  - eapply (merge_steps_preserve (fun l => length l <= length fs)); [|..|exact (pt_findings _ _ _ _ _ _ _ P)].
    + intros c l l' _ Hl (_ & _ & _ & _ & m & _ & ->). etrans; [apply length_collapse|done].
    + by rewrite length_fmap.
  - intros ir Hir Hk Hne. destruct (ruled_record _ _ _ _ _ _ _ (dedup_NoDup findings) P ir Hir Hk Hne) as (f & Hf & Ef & _ & Hg & Hs).
    destruct (item_ruled _ _ _ _ _ _ _ _ P Hir Hne) as [H1 H2].
    exists f, (apply_rule (rulings_of ocs) f). split_and!; [done|exact Ef|done|by apply settled_ruled].
  - rewrite (pt_collision _ _ _ _ _ _ _ P). eapply no_collision; [apply selected_radar|exact (pt_outcomes _ _ _ _ _ _ _ P)].
Qed.

(** ** A second run *)

(** A cluster's own location is that of one of its members, as the reconciler writes them. *)
Definition placed (c : AmbiguousCluster) : Prop := exists g, g ∈ amb_Findings c /\ File g = amb_File c /\ Line g = amb_Line c.

(** C14. A second run does not debate again what the first one settled: once an item of its own
    has been upheld, split or overturned, nothing the next run could debate, over the records
    the first one wrote and the same clusters, has its key; nor is a cluster debated whose
    merge is on record. *)
Theorem rerun_settled (h : Harness) (findings : list JSONFinding) (clusters : list AmbiguousCluster) (prior : option DebateFile)
    (Hplaced : Forall placed clusters) : exists r, runDebate h findings clusters prior = Some r /\
  let next := debatable (deduplicateFindings (run_findings r)) clusters in
  (forall ir it, ir ∈ df_Items (run_file r) -> ir_Kind ir <> KindGrayZone -> ir_Outcome ir <> OutcomeUnresolved ->
     it ∈ next -> item_key it <> result_key ir) /\
  (forall c it g, g ∈ deduplicateFindings (run_findings r) -> applied g -> ClusterID (j_Stamps g) = ID c ->
     indexClusters clusters !! item_key it = Some c -> it_Kind it = KindGrayZone -> it ∉ next).
Proof.
  destruct (runDebate_parts h findings clusters prior) as (r & ocs & sk & E & P). exists r. split; [done|]. cbv zeta. split.
  - intros ir it Hir Hk Hne Hit Ekey.
    destruct (ruled_record _ _ _ _ _ _ _ (dedup_NoDup findings) P ir Hir Hk Hne) as (f & Hf & Ef & Hap & Hg & _ & _ & _ & v & Ev & Hv & Hs).
    set (g := apply_rule (rulings_of ocs) f) in *. assert (finding_key g = result_key ir) as Egk by (unfold g; by rewrite apply_rule_key).
    assert (~ co_located clusters (it_File it) (it_Line it)) as Hapit.
    { unfold item_key in Ekey. rewrite <- Ef in Ekey. unfold finding_key in Ekey. by injection Ekey as -> -> _. }
    assert (forall g', g' ∈ run_findings r -> finding_key g' = result_key ir -> g' = g) as Honly.
    { intros g' Hg' Eg'. destruct (run_carried _ _ _ _ _ _ _ P) as [_ Hback]. destruct (Hback g' Hg') as [(f' & -> & Hf')%list_elem_of_fmap|(_ & c & Hc & _ & E1 & E2)].
      - rewrite apply_rule_key in Eg'. unfold g. f_equal. apply (NoDup_key_eq _ _ _ (dedup_NoDup findings)); [done|done|by rewrite Eg', Ef].
      - destruct Hap. rewrite Forall_forall in Hplaced. destruct (Hplaced c Hc) as (m & Hm & E3 & E4). exists c, m.
        split; [done|]. split; [done|]. rewrite <- Ef in Eg'. unfold finding_key in Eg'. injection Eg' as <- <- _. by rewrite E1, E2. }
    assert (g ∈ deduplicateFindings (run_findings r)) as Hgd.
    { pose proof (dedup_key _ _ Hg) as Hd. apply list_elem_of_fmap in Hd as (g' & Eg' & Hg').
      rewrite <- (Honly g'); [done|by apply dedup_sub in Hg'|by rewrite <- Eg', Egk]. }
    pose proof (debatable_radar _ _ _ Hit) as Hrad. unfold debatable in Hit. apply filterAlreadyDebated_in in Hit as [_ Hdeb].
    destruct (decide (it_Kind it = KindGrayZone)) as [Hgz|Hgz].
    { apply elem_of_radar in Hrad as [(f' & _ & _ & ->)|(c & Hc & _ & ->)]; [by apply entry_kind in Hgz|].
      destruct Hapit. rewrite Forall_forall in Hplaced. destruct (Hplaced c Hc) as (m & Hm & E3 & E4). by exists c, m. }
    destruct (radar_entry _ _ _ Hrad Hgz) as (f' & Hf' & (Href & _) & ->).
    assert (f' = g) as ->.
    { apply Honly; [by apply dedup_sub in Hf'|]. rewrite <- Ekey. symmetry. apply entry_key. }
    apply (Hdeb g Hgd); [|by rewrite Egk, Ekey]. unfold survived. rewrite Ev. rewrite Hs.
    unfold isRefutedJSON in Href. rewrite Ev, Hv in Href. unfold ruleVerdict in Href.
    destruct (item_ruled _ _ _ _ _ _ _ _ P Hir Hne) as [-> Ho].
    revert Href. unfold rulings in Ho. repeat (apply elem_of_cons in Ho as [->|Ho]; [by vm_compute|]). by apply elem_of_nil in Ho.
  - intros c it g Hg [Hm Hid] Eid Hidx Hk Hit. unfold debatable in Hit. apply filterAlreadyDebated_in in Hit as [Hit _].
    unfold filterMergedClusters in Hit. set (fs' := deduplicateFindings (run_findings r)) in *.
    assert (ID c ∈ (list_to_set ((fun f => ClusterID (j_Stamps f)) <$> filter applied fs') : gset string)) as Hin.
    { apply elem_of_list_to_set, list_elem_of_fmap. exists g. split; [done|]. apply list_elem_of_filter. split; [by split|done]. }
    rewrite bool_decide_eq_false_2 in Hit by (intros E0; rewrite E0 in Hin; exact (not_elem_of_empty _ Hin)).
    apply list_elem_of_filter in Hit as [Hs _]. unfold suppressed in Hs. rewrite Hk in Hs. cbn [String.eqb] in Hs.
    destruct clusters as [|c0 cs]; [done|]. rewrite Hidx in Hs. rewrite bool_decide_eq_true_2 in Hs by done.
    rewrite <- Eid in Hs. destruct (String.eqb_spec (ClusterID (j_Stamps g)) ""); [done|]. by vm_compute in Hs.
Qed.
End run_spec.

(** ** The attempt counts from run to run *)

(** A fold whose steps each touch the map at the key of their element only. *)
Section keyed_fold.
Context {X V : Type} (key : X -> FindingKey) (step : gmap FindingKey V -> X -> gmap FindingKey V).
Hypothesis Hother : forall m x k, key x <> k -> step m x !! k = m !! k.
Hypothesis Hlocal : forall m m' x, m !! key x = m' !! key x -> step m x !! key x = step m' x !! key x.

Lemma keyed_fold_other l m k : k ∉ key <$> l -> foldl step m l !! k = m !! k.
Proof.
  revert m. induction l as [|x l IH]; intros m; cbn; [done|]. intros [Hne Hl]%not_elem_of_cons. rewrite IH by done. apply Hother. by intros E; apply Hne.
Qed.
Lemma keyed_fold_own l m x : NoDup (key <$> l) -> x ∈ l -> foldl step m l !! key x = step m x !! key x.
Proof.
  revert m. induction l as [|y l IH]; intros m; cbn; [by intros _ ?%elem_of_nil|]. intros [Hy Hnd]%NoDup_cons [->|Hx]%elem_of_cons.
  - by apply keyed_fold_other.
  - rewrite IH by done. apply Hlocal, Hother. intros E. apply Hy. rewrite E. by apply (list_elem_of_fmap_2 key).
Qed.
End keyed_fold.

Section attempts.
Context {U : UnicodeCase}.

Lemma item_attempts_other m ir k : result_key ir <> k -> item_attempts m ir !! k = m !! k.
Proof. intros H. unfold item_attempts. destruct (negb _); [done|]. by apply lookup_insert_ne. Qed.
Lemma item_attempts_local m m' ir : m !! result_key ir = m' !! result_key ir ->
  item_attempts m ir !! result_key ir = item_attempts m' ir !! result_key ir.
Proof. intros H. unfold item_attempts. destruct (negb _); [done|]. by rewrite !lookup_insert_eq. Qed.
Lemma overflow_attempts_other m ov k : overflow_key ov <> k -> overflow_attempts m ov !! k = m !! k.
Proof. intros H. unfold overflow_attempts. destruct (_ <? 1)%Z; [done|]. destruct (_ <? _)%Z; [by apply lookup_insert_ne|done]. Qed.
Lemma overflow_attempts_local m m' ov : m !! overflow_key ov = m' !! overflow_key ov ->
  overflow_attempts m ov !! overflow_key ov = overflow_attempts m' ov !! overflow_key ov.
Proof.
  intros H. unfold overflow_attempts, attempts_of. rewrite H. destruct (_ <? 1)%Z; [done|]. destruct (_ <? _)%Z; [by rewrite !lookup_insert_eq|done].
Qed.

(** What a debate.json that records each key once says of one. *)
Lemma prior_of_item df ir : NoDup ((result_key <$> df_Items df) ++ (overflow_key <$> df_Overflow df)) -> ir ∈ df_Items df ->
  priorUnresolvedAttempts (Some df) !! result_key ir =
  if (ir_Outcome ir =? OutcomeUnresolved)%string
  then Some (if (ir_UnresolvedAttempts ir <? 1)%Z && countsTowardWithholding (ir_Reason ir) then 1%Z else ir_UnresolvedAttempts ir) else None.
Proof.
  intros (Hi & Hd & Ho)%NoDup_app Hin. cbn. rewrite (keyed_fold_other overflow_key _ overflow_attempts_other).
  2: { apply Hd. by apply list_elem_of_fmap_2. }
  rewrite (keyed_fold_own result_key _ item_attempts_other item_attempts_local) by done.
  unfold item_attempts. destruct (_ =? OutcomeUnresolved)%string; cbn [negb]; [by rewrite lookup_insert_eq|apply lookup_empty].
Qed.
Lemma prior_of_overflow df ov : NoDup ((result_key <$> df_Items df) ++ (overflow_key <$> df_Overflow df)) -> ov ∈ df_Overflow df ->
  attempts_of (priorUnresolvedAttempts (Some df)) (overflow_key ov) =
  Z.max 0 (if (ov_Reason ov =? OverflowAttemptsExhausted)%string then Z.max maxUnresolvedAttempts (ov_UnresolvedAttempts ov) else ov_UnresolvedAttempts ov).
Proof.
  intros (Hi & Hd & Ho)%NoDup_app Hin. unfold attempts_of. cbn [priorUnresolvedAttempts].
  rewrite (keyed_fold_own overflow_key _ overflow_attempts_other overflow_attempts_local) by done.
  assert (foldl item_attempts ∅ (df_Items df) !! overflow_key ov = None) as Hnone.
  { rewrite (keyed_fold_other result_key _ item_attempts_other); [apply lookup_empty|].
    intros Hk. apply (Hd _ Hk). by apply list_elem_of_fmap_2. }
  unfold overflow_attempts, attempts_of. rewrite Hnone. cbn [default from_option id]. unfold maxUnresolvedAttempts in *.
  destruct (ov_Reason ov =? _)%string; cbn [andb].
  - destruct (Z.ltb_spec (ov_UnresolvedAttempts ov) 3).
    + change (3 <? 1)%Z with false. change (0 <? 3)%Z with true. cbv iota. rewrite lookup_insert_eq. cbn. lia.
    + destruct (Z.ltb_spec (ov_UnresolvedAttempts ov) 1); [lia|]. rewrite (proj2 (Z.ltb_lt _ _)) by lia. rewrite lookup_insert_eq. cbn. lia.
  - destruct (Z.ltb_spec (ov_UnresolvedAttempts ov) 1); [rewrite Hnone; cbn; lia|].
    rewrite (proj2 (Z.ltb_lt _ _)) by lia. rewrite lookup_insert_eq. cbn. lia.
Qed.

Lemma overflow_keys attempts reason (items : list DisagreementItem) : overflow_key <$> (overflow_item attempts reason <$> items) = item_key <$> items.
Proof. rewrite <- list_fmap_compose. by apply list_fmap_ext. Qed.

Lemma recorded_keys idx items ocs attempts : Forall2 (outcome_of idx) items ocs -> result_key <$> (record_outcome attempts <$> ocs) = item_key <$> items.
Proof.
  induction 1 as [|it oc items ocs (ir & Ha & ->) _ IH]; [done|]. cbn [fmap list_fmap]. f_equal; [|exact IH].
  rewrite <- (an_key _ _ Ha), <- (proj1 (settle_ir idx it ir)). unfold record_outcome. by destruct (_ =? OutcomeUnresolved)%string.
Qed.

(** The keys a run records are those of the items it could debate, less those no trigger
    is on for. *)
Lemma run_keys h fs clusters prior r ocs sk : parts h fs clusters prior r ocs sk -> NoDup (item_key <$> debatable fs clusters) ->
  NoDup ((result_key <$> df_Items (run_file r)) ++ (overflow_key <$> df_Overflow (run_file r))).
Proof.
  intros P Hnd. rewrite (pt_items _ _ _ _ _ _ _ P), (recorded_keys _ _ _ _ (pt_outcomes _ _ _ _ _ _ _ P)), (pt_overflow _ _ _ _ _ _ _ P).
  unfold overflowItems. unfold kept at 1. rewrite (proj2 (withhold_parts _ _)), fmap_app, !overflow_keys, <- !fmap_app.
  set (attempts := priorUnresolvedAttempts prior). set (sel := selection h fs clusters prior).
  assert (fst sel ++ snd sel ++ filter (exhausted attempts) (debatable fs clusters) ⊆+ debatable fs clusters) as (k & Hk)%submseteq_Permutation.
  { rewrite app_assoc. unfold sel, selection. rewrite SelectItems_parts. unfold kept. rewrite (proj1 (withhold_parts _ _)).
    etrans; [apply submseteq_skips_r, filter_sub|]. clear. induction (debatable fs clusters) as [|it l IH]; [done|].
    destruct (decide (exhausted attempts it)) as [He|He].
    - rewrite (filter_cons_False (fun it => ~ exhausted attempts it)) by tauto. rewrite filter_cons_True by done.
      rewrite <- Permutation_middle. by apply submseteq_skip.
    - rewrite (filter_cons_True (fun it => ~ exhausted attempts it)) by done. rewrite filter_cons_False by done. by apply submseteq_skip. }
  rewrite Hk, fmap_app in Hnd. by apply NoDup_app in Hnd as [? _].
Qed.

Lemma recorded_item h fs clusters prior r ocs sk it : parts h fs clusters prior r ocs sk -> it ∈ fst (selection h fs clusters prior) ->
  exists ir, ir ∈ df_Items (run_file r) /\ result_key ir = item_key it /\
    (ir_Outcome ir = OutcomeUnresolved ->
       ir_UnresolvedAttempts ir = carryUnresolvedAttempts (attempts_of (priorUnresolvedAttempts prior) (item_key it)) (ir_Reason ir)).
Proof.
  intros P Hit. pose proof (pt_outcomes _ _ _ _ _ _ _ P) as HF. pose proof (pt_items _ _ _ _ _ _ _ P) as Hi.
  apply list_elem_of_lookup in Hit as [i Hi']. destruct (Forall2_lookup_l _ _ _ _ _ HF Hi') as (oc & Hoc & ir & Ha & Eoc).
  destruct (settle_ir (indexClusters clusters) it ir) as (Ek & _ & _). rewrite <- Eoc, (an_key _ _ Ha) in Ek.
  exists (record_outcome (priorUnresolvedAttempts prior) oc). split; [rewrite Hi; apply list_elem_of_fmap_2; by eapply list_elem_of_lookup_2|].
  unfold record_outcome. rewrite Ek. destruct (String.eqb_spec (ir_Outcome (oc_ir oc)) OutcomeUnresolved) as [E|E]; [|done].
  split; [|done]. exact Ek.
Qed.

(** ** A disputed item over a series of runs *)

Definition unresolved_for (k : FindingKey) (counts : bool) (ir : ItemResult) : Prop :=
  result_key ir = k /\ ir_Outcome ir = OutcomeUnresolved /\ countsTowardWithholding (ir_Reason ir) = counts.
#[export] Instance unresolved_for_dec k b ir : Decision (unresolved_for k b ir).
Proof. unfold unresolved_for. apply _. Defined.
Definition spent (k : FindingKey) (r : Run) : nat := length (filter (unresolved_for k true) (df_Items (run_file r))).
Definition withheld (k : FindingKey) (r : Run) : Prop :=
  exists ov, ov ∈ df_Overflow (run_file r) /\ overflow_key ov = k /\ ov_Reason ov = OverflowAttemptsExhausted.
(** The item of this key could be debated, its trigger is on, and no other has its key. *)
Definition contested (k : FindingKey) (h : Harness) (findings : list JSONFinding) (clusters : list AmbiguousCluster) : Prop :=
  let items := debatable (deduplicateFindings findings) clusters in
  NoDup (item_key <$> items) /\ exists it, it ∈ items /\ item_key it = k /\ it_Kind it ∈ Triggers (h_cfg h).

Lemma spent_once k r ir : NoDup (result_key <$> df_Items (run_file r)) -> ir ∈ df_Items (run_file r) -> result_key ir = k ->
  ir_Outcome ir = OutcomeUnresolved -> spent k r = if countsTowardWithholding (ir_Reason ir) then 1 else 0.
Proof.
  unfold spent. intros Hn Hir Ek Eo. induction (df_Items (run_file r)) as [|y l IH]; [by apply elem_of_nil in Hir|].
  cbn in Hn. apply NoDup_cons in Hn as [Hy Hn].
  assert (forall z, z ∈ l -> result_key y = k -> ~ unresolved_for k true z) as Hno.
  { intros z Hz Ey (Ez & _). apply Hy. rewrite Ey, <- Ez. by apply list_elem_of_fmap_2. }
  apply elem_of_cons in Hir as [->|Hir].
  - assert (filter (unresolved_for k true) l = []) as E by (apply filter_Forall_nil, Forall_forall; intros z Hz; by apply Hno).
    destruct (countsTowardWithholding (ir_Reason y)) eqn:Ec;
      [rewrite filter_cons_True by done|rewrite filter_cons_False by (intros (_ & _ & ?); congruence)]; cbn; by rewrite E.
  - rewrite filter_cons_False; [by apply IH|]. intros (Ey & _). apply Hy. rewrite Ey, <- Ek. by apply list_elem_of_fmap_2.
Qed.

Lemma run_attempts k h findings clusters prior r : contested k h findings clusters -> runDebate h findings clusters prior = Some r ->
  (forall ir, ir ∈ df_Items (run_file r) -> result_key ir = k -> ir_Outcome ir = OutcomeUnresolved) ->
  let a := attempts_of (priorUnresolvedAttempts prior) k in (0 <= a)%Z ->
  attempts_of (priorUnresolvedAttempts (Some (run_file r))) k = (a + Z.of_nat (spent k r))%Z /\
  spent k r <= 1 /\ (withheld k r <-> (maxUnresolvedAttempts <= a)%Z) /\ (withheld k r -> spent k r = 0).
Proof.
  intros [Hnd (it & Hit & <- & Htrig)] Erun Hunres a Ha.
  destruct (runDebate_parts h findings clusters prior) as (r' & ocs & sk & E & P). rewrite Erun in E. injection E as <-.
  set (fs := deduplicateFindings findings) in *. pose proof (run_keys _ _ _ _ _ _ _ P Hnd) as Hkeys.
  pose proof (pt_overflow _ _ _ _ _ _ _ P) as Hov. unfold kept in Hov. rewrite (proj2 (withhold_parts _ _)) in Hov.
  assert (forall ov, ov ∈ df_Overflow (run_file r) -> overflow_key ov = item_key it ->
    spent (item_key it) r = 0) as Hov0.
  { intros ov Hin Eov. unfold spent. rewrite filter_Forall_nil; [done|]. apply Forall_forall. intros ir Hir (Ek & _).
    apply NoDup_app in Hkeys as (_ & Hd & _). apply (Hd (item_key it)); [rewrite <- Ek; by apply list_elem_of_fmap_2|].
    rewrite <- Eov. by apply list_elem_of_fmap_2. }
  assert (withheld (item_key it) r -> (maxUnresolvedAttempts <= a)%Z) as Hwa.
  { intros (ov & Hin & Eov & Er). rewrite Hov in Hin. apply elem_of_app in Hin as [Hin|Hin]; apply list_elem_of_fmap in Hin as (it' & -> & Hit'); [done|].
    apply list_elem_of_filter in Hit' as [He _]. unfold exhausted in He. unfold a. by rewrite <- Eov. }
  destruct (decide (exhausted (priorUnresolvedAttempts prior) it)) as [He|He].
  - (* withheld *)
    set (ov := overflow_item (priorUnresolvedAttempts prior) OverflowAttemptsExhausted it).
    assert (ov ∈ df_Overflow (run_file r)) as Hin.
    { rewrite Hov. apply elem_of_app. right. apply list_elem_of_fmap_2, list_elem_of_filter. done. }
    rewrite (Hov0 ov Hin eq_refl). split; [|split; [lia|split; [|done]]].
    + change (item_key it) with (overflow_key ov). rewrite (prior_of_overflow _ _ Hkeys Hin). cbn. unfold exhausted, maxUnresolvedAttempts in *.
      fold a in He |- *. lia.
    + split; [done|]. intros _. by exists ov.
  - assert (it ∈ fst (selection h fs clusters prior) ++ snd (selection h fs clusters prior)) as Hs.
    { unfold selection. rewrite SelectItems_parts. apply list_elem_of_filter. split; [done|]. unfold kept.
      rewrite (proj1 (withhold_parts _ _)). by apply list_elem_of_filter. }
    assert (withheld (item_key it) r <-> (maxUnresolvedAttempts <= a)%Z) as Hiff by (split; [done|intros; by destruct He]).
    apply elem_of_app in Hs as [Hs|Hs].
    + (* debated *)
      destruct (recorded_item _ _ _ _ _ _ _ _ P Hs) as (ir & Hir & Ek & Hatt). pose proof (Hunres ir Hir Ek) as Eo. specialize (Hatt Eo). fold a in Hatt.
      assert (spent (item_key it) r = if countsTowardWithholding (ir_Reason ir) then 1 else 0) as ->.
      { apply spent_once; [by apply NoDup_app in Hkeys as (? & _)|done..]. }
      split; [|split; [by destruct (countsTowardWithholding _); lia|split; [exact Hiff|]]].
      * rewrite <- Ek. unfold attempts_of at 1. rewrite (prior_of_item _ _ Hkeys Hir), Eo. cbn. rewrite Hatt. unfold carryUnresolvedAttempts.
        destruct (countsTowardWithholding (ir_Reason ir)); [rewrite andb_true_r, (proj2 (Z.ltb_ge _ _)) by lia|rewrite andb_false_r]; cbv iota; lia.
      * intros Hw%Hwa. by destruct He.
    + (* over the cap *)
      set (ov := overflow_item (priorUnresolvedAttempts prior) "" it).
      assert (ov ∈ df_Overflow (run_file r)) as Hin by (rewrite Hov; apply elem_of_app; left; by apply list_elem_of_fmap_2).
      rewrite (Hov0 ov Hin eq_refl). split; [|split; [lia|split; [exact Hiff|done]]].
      change (item_key it) with (overflow_key ov). rewrite (prior_of_overflow _ _ Hkeys Hin). cbn. fold a. lia.
Qed.

(** The debate.json files of a series of runs none of which settled the item of this key, and
    how many of them left it unresolved on its own evidence. *)
Inductive campaign (k : FindingKey) : option DebateFile -> nat -> Prop :=
  | campaign_start : campaign k None 0
  | campaign_run prior n h findings clusters r :
      campaign k prior n -> contested k h findings clusters -> runDebate h findings clusters prior = Some r ->
      (forall ir, ir ∈ df_Items (run_file r) -> result_key ir = k -> ir_Outcome ir = OutcomeUnresolved) ->
      campaign k (Some (run_file r)) (n + spent k r).

(** C13. An item that never converges is debated three times on its own evidence and no more.
    Over any series of runs that leave it unresolved, the count debate.json carries is exactly
    the number of those that failed on the item's own evidence; runs that failed for a cause
    outside it (no harness, an interruption, a missing role) and runs where the cap left it out
    spend nothing. The next run withholds it, openly, exactly when that number is three. *)
Theorem withholding_ceiling (k : FindingKey) (prior : option DebateFile) (n : nat) (Hc : campaign k prior n) :
  n <= 3 /\ attempts_of (priorUnresolvedAttempts prior) k = Z.of_nat n /\
  forall h findings clusters r, contested k h findings clusters -> runDebate h findings clusters prior = Some r ->
    (forall ir, ir ∈ df_Items (run_file r) -> result_key ir = k -> ir_Outcome ir = OutcomeUnresolved) ->
    (withheld k r <-> n = 3) /\ (n = 3 -> spent k r = 0).
Proof.
  assert (n <= 3 /\ attempts_of (priorUnresolvedAttempts prior) k = Z.of_nat n) as [Hn Ha].
  { induction Hc as [|prior n h findings clusters r _ [IHn IHa] Hcont Hrun Hun]; [split; [lia|done]|].
    destruct (run_attempts _ _ _ _ _ _ Hcont Hrun Hun) as (H1 & H2 & H3 & H4); [rewrite IHa; lia|]. rewrite IHa in H1, H3.
    split; [|rewrite H1; lia]. unfold maxUnresolvedAttempts in H3. destruct (decide (n = 3)) as [->|]; [rewrite H4; [lia|apply H3; lia]|lia]. }
  split; [done|]. split; [done|]. intros h findings clusters r Hcont Hrun Hun.
  destruct (run_attempts _ _ _ _ _ _ Hcont Hrun Hun) as (_ & _ & H3 & H4); [rewrite Ha; lia|]. rewrite Ha in H3. unfold maxUnresolvedAttempts in H3.
  split; [rewrite H3; lia|]. intros ->. apply H4, H3. lia.
Qed.
End attempts.

(** ** Examples and witnesses *)

(** A harness whose seats all answer the same; each of the sample cast says its piece. *)
Definition replying (content : string) : option (Caster -> string -> RunResult) :=
  Some (fun _ _ => mkRunResult StatusOK None (to_bytes content) [] false false).
Definition sample_harness (ask : option (Caster -> string -> RunResult)) : Harness :=
  mkHarness (ResolveConfig (mkDebateConfig [] None true)) sample_registry ask (fun _ => false) (fun _ => "0123456789abcdef").
Definition split_finding : JSONFinding := record "HIGH" "nil deref" "greta" "MEDIUM vs HIGH" None.
Definition split_key : FindingKey := finding_key split_finding.
Definition run_once (ask : option (Caster -> string -> RunResult)) (prior : option DebateFile) : option Run :=
  runDebate (U := ascii_case) (sample_harness ask) [split_finding] [] prior.

(** An item whose seats stay silent is withheld on the fourth run; one whose harness never
    comes up is not. *)
Fixpoint after_runs (ask : option (Caster -> string -> RunResult)) (n : nat) (prior : option DebateFile) : option (option DebateFile) :=
  match n with O => Some prior | S m => r ← run_once ask prior; after_runs ask m (Some (run_file r)) end.
Example silent_item_withheld :
  ((fun df => attempts_of (priorUnresolvedAttempts df) split_key) <$> after_runs (replying "") 5 None,
   (fun df => attempts_of (priorUnresolvedAttempts df) split_key) <$> after_runs None 5 None) = (Some 3%Z, Some 0%Z).
Proof. by vm_compute. Qed.

(** Ruling on the finding: the judge's reply settles the severity. *)
Definition split_reply : string := dq "{^outcome^: ^split^, ^settled_severity^: ^medium^, ^reasoning^: ^guarded upstream^}".
Example split_settles :
  (fun r => (Severity ∘ j_Finding <$> run_findings r, Confidence ∘ j_Finding <$> run_findings r, ir_Outcome <$> df_Items (run_file r),
             SplitCount (run_result r))) <$> run_once (replying split_reply) None =
  Some ([SevMedium], [ConfidenceVerified], [OutcomeSplit], 1).
Proof. by vm_compute. Qed.

Lemma runDebate_typed_witness : Forall well_typed [split_finding] /\ exists r, run_once (replying split_reply) None = Some r /\
  Forall well_typed (run_findings r).
Proof.
  assert (Forall well_typed [split_finding]) as H.
  { constructor; [|constructor]. split; [apply (bool_decide_eq_true_1 _); by vm_compute|]. split; [apply (bool_decide_eq_true_1 _); by vm_compute|exact I]. }
  split; [exact H|].
  destruct (runDebate_typed (U := ascii_case) (sample_harness (replying split_reply)) [split_finding] [] None H) as (r & E & Hr & _).
  exists r. split; [exact E|exact Hr].
Defined.

(** Two members of a gray-zone cluster, and the records they became. *)
Definition member (line : Z) (problem reviewer : string) : Finding := raw_finding "HIGH" line problem "correctness" reviewer.
Definition member_record (line : Z) (problem reviewer : string) : JSONFinding :=
  mkJSONFinding (mkFinding "HIGH" "a.go" line problem "" "correctness" 5 "" "" [reviewer] ConfMedium "" None) ∅ [] "" no_stamps.
Definition two_lines : AmbiguousCluster := gray_cluster [member 10 "nil deref" "greta"; member 12 "nil pointer" "bruce"].
Definition merge_reply : string := dq "{^outcome^: ^uphold^, ^cluster_decision^: ^merge^, ^reasoning^: ^same bug^}".

Example merge_ruling_unions :
  (fun r => ((fun f => (File (j_Finding f), Line (j_Finding f), Reviewers (j_Finding f), ClusterID (j_Stamps f))) <$> run_findings r,
             run_applied r, debatable (U := ascii_case) (run_findings r) [two_lines])) <$>
    runDebate (U := ascii_case) (sample_harness (replying merge_reply)) [member_record 10 "nil deref" "greta"; member_record 12 "nil pointer" "bruce"]
      [two_lines] None =
  Some ([("a.go", 10%Z, ["bruce"; "greta"], "c1")], 1, []).
Proof. by vm_compute. Qed.

(** Both members match exactly; a third record alone at one of their lines is absorbed all
    the same. *)
Example unrelated_finding_absorbed :
  let unrelated := member_record 10 "sql injection through the order parameter" "dax" in
  (fun out => (length (fst out), Problem ∘ j_Finding <$> fst out)) <$>
    applyOneClusterMerge (U := ascii_case) [member_record 10 "nil deref" "greta"; unrelated; member_record 12 "nil pointer" "bruce"] two_lines =
  Some (1, ["sql injection through the order parameter"]).
Proof. by vm_compute. Qed.

(** A cluster ruled to stay separate is debated again by every later run. *)
Definition separate_reply : string := dq "{^outcome^: ^uphold^, ^cluster_decision^: ^separate^, ^reasoning^: ^two bugs^}".
Example separate_debated_again :
  (fun r => (it_Kind <$> debatable (U := ascii_case) (run_findings r) [two_lines], run_findings r)) <$>
    runDebate (U := ascii_case) (sample_harness (replying separate_reply)) [member_record 10 "nil deref" "greta"; member_record 12 "nil pointer" "bruce"]
      [two_lines] None =
  Some ([KindGrayZone], [member_record 10 "nil deref" "greta"; member_record 12 "nil pointer" "bruce"]).
Proof. by vm_compute. Qed.

Lemma rerun_settled_witness : Forall placed [two_lines] /\
  exists r, runDebate (U := ascii_case) (sample_harness (replying merge_reply)) [member_record 10 "nil deref" "greta"; member_record 12 "nil pointer" "bruce"]
    [two_lines] None = Some r /\
  forall it g, g ∈ deduplicateFindings (run_findings r) -> applied g -> ClusterID (j_Stamps g) = "c1" ->
    indexClusters [two_lines] !! item_key it = Some two_lines -> it_Kind it = KindGrayZone ->
    it ∉ debatable (U := ascii_case) (deduplicateFindings (run_findings r)) [two_lines].
Proof.
  assert (Forall placed [two_lines]) as H.
  { constructor; [|constructor]. exists (member 10 "nil deref" "greta"). split; [by left|done]. }
  split; [exact H|].
  destruct (rerun_settled (U := ascii_case) (sample_harness (replying merge_reply))
    [member_record 10 "nil deref" "greta"; member_record 12 "nil pointer" "bruce"] [two_lines] None H) as (r & E & _ & Hm).
  exists r. split; [exact E|]. intros it g Hg Ha Hid Hidx Hk. exact (Hm two_lines it g Hg Ha Hid Hidx Hk).
Defined.

(** One silent run, and what it leaves. *)
Definition silent_run : Run := default (mkRun [] (mkDebateFile [] []) (mkResult 0 0 0 0 0 0 0) "" 0) (run_once (replying "") None).
Lemma sample_contested : contested (U := ascii_case) split_key (sample_harness (replying "")) [split_finding] [].
Proof.
  split; [apply (bool_decide_eq_true_1 _); by vm_compute|]. eexists. split; [by left|]. split; [by vm_compute|].
  apply (bool_decide_eq_true_1 _); by vm_compute.
Qed.
Lemma withholding_ceiling_witness : campaign (U := ascii_case) split_key (Some (run_file silent_run)) 1 /\
  attempts_of (priorUnresolvedAttempts (Some (run_file silent_run))) split_key = 1%Z.
Proof.
  assert (campaign (U := ascii_case) split_key (Some (run_file silent_run)) 1) as H.
  { change 1 with (0 + 1). replace 1 with (spent split_key silent_run) by (by vm_compute).
    apply (campaign_run (U := ascii_case) split_key None 0 (sample_harness (replying "")) [split_finding] [] silent_run (campaign_start _) sample_contested);
      [by vm_compute|].
    assert (Forall (fun ir => ir_Outcome ir = OutcomeUnresolved) (df_Items (run_file silent_run))) as Hall
      by (apply (bool_decide_eq_true_1 _); by vm_compute).
    rewrite Forall_forall in Hall. intros ir Hir _. by apply Hall. }
  split; [exact H|]. exact (proj1 (proj2 (withholding_ceiling (U := ascii_case) split_key _ 1 H))).
Defined.
