(* ===== verification/Partition.v ===== *)
(** * Partitioning a baseline payload

    src/internal/payload/fullrepo.go [PartitionByBudget]: the files of a whole-repository
    review packed into chunks of a byte budget; src/internal/fanout/review.go
    [recordedChunks]: the same packing of the bins an interrupted run left open. The code
    sorts positions; sorting the entries stably by the same comparison yields the same
    sequence. *)

From Stdlib Require Import Ascii String.
From stdpp Require Import prelude strings gmap fin_sets list sorting.
From Stdlib Require Import ZArith Lia.
From S2P Require Import Prelude GoString GoSort GoStrconv GoInt Budget.

Open Scope string_scope.
Open Scope list_scope.
Open Scope Z_scope.

Definition part_less (ei ej : FileEntry) : bool :=
  let si := clampSize (Size ei) in
  let sj := clampSize (Size ej) in
  if negb (si =? sj) then sj <? si else str_ltb (Path ei) (Path ej).

(** The locals of the packing loop: [chunks], [current], [used]. *)
Definition packing : Type := list (list FileEntry) * list FileEntry * Z.

Definition part_flush (st : packing) : packing :=
  let '(chunks, current, used) := st in
  match current with [] => st | _ :: _ => (chunks ++ [current], [], 0) end.

Definition part_step (chunkBudget : Z) (st : packing) (e : FileEntry) : packing :=
  let sz := clampSize (Size e) in
  if chunkBudget <? sz then
    let '(chunks, current, used) := part_flush st in (chunks ++ [[e]], current, used)
  else
    let '(_, current, used) := st in
    let st := match current with
              | _ :: _ => if wrap64 (chunkBudget - used) <? sz then part_flush st else st
              | [] => st
              end in
    let '(chunks, current, used) := st in
    (chunks, current ++ [e], wrap64 (used + sz)).

(** [None] is [ErrNoEffectiveByteBudget]. *)
Definition PartitionByBudget (entries : list FileEntry) (chunkBudget : Z) : option (list (list FileEntry)) :=
  match entries with
  | [] => Some []
  | _ :: _ =>
      if chunkBudget <=? 0 then None
      else Some (fst (fst (part_flush (foldl (part_step chunkBudget) ([], [], 0) (slice_stable part_less entries)))))
  end.

(** The entries of one recorded bin that the fresh payload still carries and no earlier
    bin took; [byPath] keeps the last entry of a path. *)
Definition by_path (entries : list FileEntry) : gmap string FileEntry :=
  foldl (fun m e => <[Path e := e]> m) ∅ entries.

Definition bin_step (byPath : gmap string FileEntry) (st : gset string * list FileEntry) (f : string) :
    gset string * list FileEntry :=
  let '(taken, bin) := st in
  match byPath !! f with
  | Some e => if bool_decide (f ∈ taken) then st else ({[f]} ∪ taken, bin ++ [e])
  | None => st
  end.

Fixpoint recorded_loop (byPath : gmap string FileEntry) (chunkBudget : Z) (taken : gset string)
    (recorded : list (list string)) : option (list (list FileEntry)) :=
  match recorded with
  | [] => Some []
  | files :: recorded' =>
      let '(taken, bin) := foldl (bin_step byPath) (taken, []) files in
      split ← PartitionByBudget bin chunkBudget;
      rest ← recorded_loop byPath chunkBudget taken recorded';
      Some (split ++ rest)
  end.

Definition recordedChunks (entries : list FileEntry) (recorded : list (list string)) (chunkBudget : Z) :
    option (list (list FileEntry)) :=
  recorded_loop (by_path entries) chunkBudget ∅ recorded.

(** ** The packing *)

Fixpoint bytes_of (c : list FileEntry) : Z :=
  match c with [] => 0 | e :: c' => clampSize (Size e) + bytes_of c' end.
Definition oversize (chunkBudget : Z) (c : list FileEntry) : Prop := exists e, c = [e] /\ chunkBudget < clampSize (Size e).

Lemma bytes_of_app a b : bytes_of (a ++ b) = bytes_of a + bytes_of b.
Proof. induction a as [|e a IH]; cbn; [done|]. rewrite IH. lia. Qed.

Lemma bytes_of_nonneg c : 0 <= bytes_of c.
Proof. induction c as [|e c IH]; cbn; [done|]. pose proof (clampSize_nonneg (Size e)). lia. Qed.

Section partition.
Context (chunkBudget : Z) (Hpos : 0 < chunkBudget) (Hmax : chunkBudget <= MaxInt64).

Definition fits (c : list FileEntry) : Prop := bytes_of c <= chunkBudget \/ oversize chunkBudget c.
(** A chunk was closed only because its successor's first file did not fit. *)
Definition tight (chunks : list (list FileEntry)) : Prop :=
  forall i c d e, chunks !! i = Some c -> chunks !! S i = Some d -> head d = Some e ->
    chunkBudget < bytes_of c + clampSize (Size e).

Record packed (done : list FileEntry) (st : packing) : Prop := mkPacked {
  pk_all : mjoin (fst (fst st)) ++ snd (fst st) = done;
  pk_nonempty : Forall (fun c => c <> []) (fst (fst st));
  pk_fits : Forall fits (fst (fst st));
  pk_used : snd st = bytes_of (snd (fst st)) /\ bytes_of (snd (fst st)) <= chunkBudget;
  pk_tight : tight (fst (fst st) ++ match snd (fst st) with [] => [] | c => [c] end);
}.

Lemma tight_snoc cs d : tight cs -> (forall c e, last cs = Some c -> head d = Some e -> chunkBudget < bytes_of c + clampSize (Size e)) ->
  tight (cs ++ [d]).
Proof.
  intros Ht Hl i c d' e Hc Hd He. destruct (decide (S i < length cs)%nat) as [Hi|Hi].
  - rewrite lookup_app_l in Hd by done. rewrite lookup_app_l in Hc by lia. by eapply Ht.
  - assert (S i = length cs) as Hlen.
    { apply lookup_lt_Some in Hd. rewrite length_app in Hd. cbn in Hd. lia. }
    rewrite lookup_app_r, Hlen, Nat.sub_diag in Hd by lia. injection Hd as <-.
    rewrite lookup_app_l in Hc by lia. apply (Hl c e); [|done]. rewrite last_lookup, <- Hlen. done.
Qed.

Lemma tight_grow cs c e : c <> [] -> tight (cs ++ [c]) -> tight (cs ++ [c ++ [e]]).
Proof.
  intros Hne Ht. assert (tight cs) as Hcs.
  { intros i a b f Ha Hb Hf. apply (Ht i a b f); [by apply lookup_app_l_Some..|done]. }
  apply tight_snoc; [done|]. intros a f Ha Hf. destruct c as [|g c]; [done|]. cbn in Hf. injection Hf as ->.
  rewrite last_lookup in Ha. assert (0 < length cs)%nat as Hlt by (destruct cs; [done|cbn; lia]).
  apply (Ht (pred (length cs)) a (f :: c) f); [by apply lookup_app_l_Some| |done].
  rewrite Nat.succ_pred by lia. rewrite lookup_app_r by lia. by rewrite Nat.sub_diag.
Qed.

Lemma part_flush_packed done st : packed done st -> packed done (part_flush st) /\ snd (fst (part_flush st)) = [].
Proof.
  destruct st as [[cs cur] used]. intros [Ha Hn Hf [Hu Hle] Ht]. cbn in *. destruct cur as [|e cur]; [done|].
  split; [|done]. split; cbn.
  - by rewrite mjoin_app, <- Ha, app_nil_r; cbn; rewrite app_nil_r.
  - apply Forall_app. by split; [|constructor].
  - apply Forall_app. split; [done|]. constructor; [by left|done].
  - split; [done|lia].
  - by rewrite app_nil_r.
Qed.

(** With no file in the current chunk the last one closed is an oversized file. *)
Definition opened (st : packing) : Prop :=
  snd (fst st) = [] -> forall c, last (fst (fst st)) = Some c -> chunkBudget < bytes_of c.

Lemma packed_add done cs cur used e : clampSize (Size e) <= chunkBudget -> packed done (cs, cur, used) ->
  bytes_of cur + clampSize (Size e) <= chunkBudget ->
  (cur = [] -> forall c, last cs = Some c -> chunkBudget < bytes_of c + clampSize (Size e)) ->
  packed (done ++ [e]) (cs, cur ++ [e], wrap64 (used + clampSize (Size e))).
Proof.
  intros Hle [Ha Hn Hf [Hu Hc] Ht] Hfit Hopen. cbn in *. subst used.
  pose proof (bytes_of_nonneg cur). pose proof (clampSize_nonneg (Size e)). unfold MaxInt64 in Hmax.
  split; cbn; [|done|done| |].
  - by rewrite app_assoc, Ha.
  - rewrite bytes_of_app. cbn. rewrite wrap64_id by (unfold int64_range, MinInt64, MaxInt64; lia). split; lia.
  - destruct cur as [|g cur]; cbn; [|by apply (tight_grow cs (g :: cur) e)].
    rewrite app_nil_r in Ht. apply tight_snoc; [done|]. intros c f Hl Hf'. cbn in Hf'. injection Hf' as <-. by apply Hopen.
Qed.

Lemma part_step_packed done st e : packed done st /\ opened st ->
  packed (done ++ [e]) (part_step chunkBudget st e) /\ opened (part_step chunkBudget st e).
Proof.
  intros [Hp Ho]. unfold part_step. pose proof (clampSize_nonneg (Size e)) as Hnn.
  destruct (chunkBudget <? clampSize (Size e)) eqn:Hov; bool_prop.
  - apply part_flush_packed in Hp as [[Ha Hn Hf Hu Ht] Hc]. destruct (part_flush st) as [[cs cur] used]. cbn in *. subst cur.
    split; [split; cbn; [| | |done|]|].
    + rewrite mjoin_app. cbn. rewrite !app_nil_r in *. by rewrite Ha.
    + apply Forall_app. by split; [|constructor].
    + apply Forall_app. split; [done|]. constructor; [|done]. right. by exists e.
    + rewrite !app_nil_r in *. apply tight_snoc; [done|]. intros c f _ Hf'. cbn in Hf'. injection Hf' as <-.
      pose proof (bytes_of_nonneg c). lia.
    + intros _ c Hl. cbn in Hl. rewrite last_snoc in Hl. injection Hl as <-. cbn. lia.
  - destruct st as [[cs cur] used]. pose proof Hp as [_ _ _ [Hu Hle] _]. cbn in Hu, Hle. subst used. pose proof (bytes_of_nonneg cur).
    unfold MaxInt64 in Hmax. rewrite wrap64_id by (unfold int64_range, MinInt64, MaxInt64; lia).
    destruct cur as [|g cur]; [|destruct (chunkBudget - bytes_of (g :: cur) <? clampSize (Size e)) eqn:Hfull; bool_prop].
    + split; [|done]. apply packed_add; [done|done|cbn; lia|]. intros _ c Hc. specialize (Ho eq_refl c Hc). lia.
    + destruct (part_flush_packed _ _ Hp) as [Hp' _]. split; [|done]. apply packed_add; [done|done|cbn; lia|].
      intros _ c Hc. rewrite last_snoc in Hc. injection Hc as <-. lia.
    + split; [|by destruct cur]. apply packed_add; [done|done|lia|done].
Qed.

Lemma pack_loop entries : packed entries (foldl (part_step chunkBudget) ([], [], 0) entries).
Proof.
  apply (foldl_invariant (fun done st => packed done st /\ opened st)).
  - split; [|done]. split; cbn; [done|constructor|constructor|lia|]. by intros [|i].
  - intros done e todo st _ H. by apply part_step_packed.
Qed.
End partition.

#[local] Instance part_less_WeakOrder : WeakOrder part_less.
Proof.
  assert (forall a b, part_less a b = true <-> clampSize (Size b) < clampSize (Size a) \/
    (clampSize (Size a) = clampSize (Size b) /\ str_ltb (Path a) (Path b) = true)) as H.
  { intros a b. unfold part_less. destruct (clampSize (Size a) =? clampSize (Size b)) eqn:E; cbn [negb]; bool_prop.
    - split; [by right|]. intros [?|[_ ?]]; [lia|done].
    - rewrite Z.ltb_lt. split; [by left|]. intros [?|[? _]]; [done|lia]. }
  split.
  - intros x y Hxy. apply not_true_iff_false. rewrite H in *. intros Hyx. destruct Hxy as [|[E1 H1]], Hyx as [|[E2 H2]]; try lia.
    by rewrite (less_asym _ _ H1) in H2.
  - intros x y z Hxy Hyz. unfold not_after in *. apply not_true_iff_false. rewrite <- not_true_iff_false, H in *.
    intros [Hlt|[E Hs]]; [|].
    + destruct (Z.lt_trichotomy (clampSize (Size x)) (clampSize (Size y))) as [?|[?|?]]; [by apply Hxy; left| |lia].
      apply Hyz. left. lia.
    + destruct (Z.lt_trichotomy (clampSize (Size x)) (clampSize (Size y))) as [?|[E'|?]];
        [by apply Hxy; left| |apply Hyz; left; lia].
      destruct (str_ltb (Path y) (Path x)) eqn:E1; [by apply Hxy; right|].
      destruct (str_ltb (Path z) (Path y)) eqn:E2; [by apply Hyz; right; split; [lia|]|].
      by rewrite (not_after_trans (less := str_ltb) _ _ _ E1 E2) in Hs.
Qed.

Lemma part_less_total x y : not_after part_less x y -> not_after part_less y x -> Path x = Path y.
Proof.
  unfold not_after, part_less. rewrite (Z.eqb_sym (clampSize (Size y))).
  destruct (clampSize (Size x) =? clampSize (Size y)) eqn:E; cbn [negb]; intros H1 H2.
  - by apply str_ltb_total.
  - bool_prop. lia.
Qed.

Lemma clampSize_pos_head (c : list FileEntry) e : head c = Some e -> clampSize (Size e) <= bytes_of c.
Proof. destruct c as [|f c]; [done|]. intros [= ->]. cbn. pose proof (bytes_of_nonneg c). lia. Qed.

(** A partition is refused only for want of a budget; else it holds every file once. *)
Lemma PartitionByBudget_chunks entries chunkBudget : chunkBudget <= MaxInt64 ->
  match PartitionByBudget entries chunkBudget with
  | None => entries <> [] /\ chunkBudget <= 0
  | Some chunks => (entries <> [] -> 0 < chunkBudget) /\ mjoin chunks = slice_stable part_less entries /\
      Forall (fun c => c <> [] /\ fits chunkBudget c) chunks /\ tight chunkBudget chunks
  end.
Proof.
  intros Hmax. destruct entries as [|e entries]; cbn [PartitionByBudget].
  { split; [done|]. split; [done|]. split; [constructor|]. by intros i c d f Hi. }
  destruct (chunkBudget <=? 0) eqn:E; bool_prop; [done|]. split; [lia|].
  pose proof (pack_loop chunkBudget E Hmax (slice_stable part_less (e :: entries))) as Hp.
  apply part_flush_packed in Hp as [[Ha Hn Hf _ Ht] Hc]; [|done].
  destruct (part_flush _) as [[cs cur] used]. cbn in *. subst cur. rewrite app_nil_r in *.
  split; [done|]. split; [|done]. by apply Forall_and.
Qed.

Lemma PartitionByBudget_elems entries chunkBudget chunks :
  chunkBudget <= MaxInt64 -> PartitionByBudget entries chunkBudget = Some chunks -> mjoin chunks ≡ₚ entries.
Proof.
  intros Hmax H. pose proof (PartitionByBudget_chunks entries chunkBudget Hmax) as Hs. rewrite H in Hs.
  destruct Hs as (_ & -> & _). apply slice_stable_Permutation.
Qed.

Lemma bytes_of_Permutation a b : a ≡ₚ b -> bytes_of a = bytes_of b.
Proof. induction 1; cbn; lia. Qed.

(** Two neighbours together are over the budget. *)
Lemma count_chunks chunkBudget chunks : (forall c, c ∈ chunks -> c <> []) -> tight chunkBudget chunks ->
  Z.of_nat (length chunks) * chunkBudget <= 2 * bytes_of (mjoin chunks) - default 0 (bytes_of <$> head chunks) + Z.max 0 chunkBudget.
Proof.
  induction chunks as [|c [|d cs] IH]; intros Hne Ht; [cbn; lia| |].
  - cbn. rewrite app_nil_r. pose proof (bytes_of_nonneg c). lia.
  - assert (chunkBudget < bytes_of c + bytes_of d) as Hcd.
    { destruct (head d) as [e|] eqn:Ee; [|by destruct d; [destruct (Hne [] ltac:(right; left))|]].
      pose proof (Ht O c d e eq_refl eq_refl Ee). pose proof (clampSize_pos_head d e Ee). lia. }
    assert (tight chunkBudget (d :: cs)) as Ht' by (intros i; apply (Ht (S i))).
    specialize (IH (fun c' Hc => Hne c' ltac:(by right)) Ht'). cbn [head fmap option_fmap option_map default] in *. unfold id in *.
    change (mjoin (c :: d :: cs)) with (c ++ mjoin (d :: cs)). rewrite bytes_of_app.
    change (length (c :: d :: cs)) with (S (length (d :: cs))). rewrite Nat2Z.inj_succ, Z.mul_succ_l. lia.
Qed.

(** A partition exists exactly when there is a budget or nothing to partition. It loses
    and repeats no file, has no empty chunk, keeps every chunk within the budget unless it
    is one file that alone exceeds it, opens a chunk only when its first file no longer fit
    the one before, and does not depend on the order in which the files were listed. *)
Theorem PartitionByBudget_spec (entries : list FileEntry) (chunkBudget : Z) (Hmax : chunkBudget <= MaxInt64)
    (Hpaths : NoDup (Path <$> entries)) :
  (PartitionByBudget entries chunkBudget = None <-> entries <> [] /\ chunkBudget <= 0) /\
  (forall entries', entries' ≡ₚ entries -> PartitionByBudget entries' chunkBudget = PartitionByBudget entries chunkBudget) /\
  (forall chunks, PartitionByBudget entries chunkBudget = Some chunks ->
     mjoin chunks ≡ₚ entries /\
     (forall c, c ∈ chunks -> c <> [] /\ (bytes_of c <= chunkBudget \/ exists e, c = [e] /\ chunkBudget < clampSize (Size e))) /\
     (forall i c d e, chunks !! i = Some c -> chunks !! S i = Some d -> head d = Some e ->
        chunkBudget < bytes_of c + clampSize (Size e)) /\
     (0 < chunkBudget -> Z.of_nat (length chunks) * chunkBudget <= 2 * bytes_of entries + chunkBudget)).
Proof.
  pose proof (PartitionByBudget_chunks entries chunkBudget Hmax) as Hs. split; [|split].
  - destruct (PartitionByBudget entries chunkBudget) as [chunks|]; [|done]. split; [done|]. intros [Hne Hb].
    destruct Hs as [Hp _]. specialize (Hp Hne). lia.
  - intros entries' Hp. assert (slice_stable part_less entries' = slice_stable part_less entries) as Heq.
    { apply slice_stable_perm_eq; [apply _| |done]. intros x y Hx Hy H1 H2. rewrite Hp in Hx, Hy.
      pose proof (part_less_total x y H1 H2) as Heq. apply list_elem_of_lookup in Hx as (i & Hi), Hy as (j & Hj).
      assert (i = j) as <-. { eapply (NoDup_lookup _ i j (Path x) Hpaths); rewrite list_lookup_fmap, ?Hi, ?Hj; cbn; by rewrite ?Heq. }
      congruence. }
    destruct entries as [|e l], entries' as [|e' l']; cbn [PartitionByBudget]; [done| | |by rewrite Heq].
    + by symmetry in Hp; apply Permutation_nil_cons in Hp.
    + by apply Permutation_nil_cons in Hp.
  - intros chunks H. rewrite H in Hs. destruct Hs as (_ & Ha & Hf & Ht). rewrite Forall_forall in Hf.
    split; [rewrite Ha; apply slice_stable_Permutation|]. split; [exact Hf|]. split; [exact Ht|].
    intros Hpos. pose proof (count_chunks chunkBudget chunks (fun c Hc => proj1 (Hf c Hc)) Ht) as Hn.
    rewrite Ha, (bytes_of_Permutation _ _ (slice_stable_Permutation part_less entries)) in Hn.
    destruct (head chunks) as [c|]; cbn in Hn; [pose proof (bytes_of_nonneg c)|]; unfold id in *; lia.
Qed.

(** ** The recorded bins *)

Lemma by_path_spec entries : NoDup (Path <$> entries) ->
  forall f e, by_path entries !! f = Some e <-> e ∈ entries /\ Path e = f.
Proof.
  unfold by_path. intros Hnd. cut (forall es (m : gmap string FileEntry), NoDup (Path <$> es) ->
    (forall e, e ∈ es -> m !! Path e = None) -> forall f e,
    foldl (fun m e => <[Path e := e]> m) m es !! f = Some e <-> m !! f = Some e \/ (e ∈ es /\ Path e = f)).
  { intros H f e. rewrite H by (done || (intros; apply lookup_empty)). rewrite lookup_empty. naive_solver. }
  induction es as [|x es IH]; intros m Hes Hm f e; cbn [foldl].
  { split; [by left|]. intros [?|[?%elem_of_nil _]]; done. }
  rewrite fmap_cons in Hes. apply NoDup_cons in Hes as [Hx Hes].
  assert (forall y, y ∈ es -> Path y <> Path x) as Hne by (intros y Hy E; apply Hx; rewrite <- E; by apply list_elem_of_fmap_2).
  rewrite IH; [|done|].
  - rewrite elem_of_cons. destruct (decide (Path x = f)) as [<-|Hf].
    + rewrite lookup_insert_eq, Hm by left. split.
      * intros [[= ->]|[? ?]]; [right; split; [by left|done]|right; by split; [right|]].
      * intros [?|[[->|?] ?]]; [done|by left|by right].
    + rewrite lookup_insert_ne by done. split.
      * intros [?|[? ?]]; [by left|right; by split; [right|]].
      * intros [?|[[->|?] ?]]; [by left|done|by right].
  - intros y Hy. rewrite lookup_insert_ne by (by apply not_eq_sym, Hne). apply Hm. by right.
Qed.

Section recorded.
Context (byPath : gmap string FileEntry) (Hkey : forall f e, byPath !! f = Some e -> Path e = f).
Context (chunkBudget : Z) (Hmax : chunkBudget <= MaxInt64).

(** A file of the payload that the bins name and no bin before them took. *)
Definition wanted (taken : gset string) (files : list string) (e : FileEntry) : Prop :=
  byPath !! Path e = Some e /\ Path e ∈ files /\ Path e ∉ taken.

Lemma bin_loop files taken : exists taken' bin, foldl (bin_step byPath) (taken, []) files = (taken', bin) /\
  (forall f, f ∈ taken' <-> f ∈ taken \/ (f ∈ files /\ is_Some (byPath !! f))) /\
  NoDup (Path <$> bin) /\ forall e, e ∈ bin <-> wanted taken files e.
Proof.
  induction files as [|f files IH] using rev_ind.
  { exists taken, []. split; [done|]. split; [|split; [constructor|]].
    - intros f. split; [by left|]. intros [?|[?%elem_of_nil _]]; done.
    - intros e. split; [by intros ?%elem_of_nil|]. by intros (_ & ?%elem_of_nil & _). }
  destruct IH as (t & b & E & Ht & Hnd & Hb). rewrite foldl_snoc, E. cbn [bin_step].
  destruct (byPath !! f) as [e|] eqn:Ef.
  2:{ exists t, b. split; [done|]. split; [|split; [done|]].
      - intros g. rewrite Ht, elem_of_app, list_elem_of_singleton. split; [naive_solver|]. intros [?|[[?| ->] Hs]]; [by left|by right|].
        rewrite Ef in Hs. by destruct Hs.
      - intros e. rewrite Hb. unfold wanted. rewrite elem_of_app, list_elem_of_singleton. split; [naive_solver|].
        intros (H1 & [?|E1] & H3); [done|]. by rewrite E1, Ef in H1. }
  pose proof (Hkey f e Ef) as Hp. subst f. case_bool_decide as Hin.
  - exists t, b. split; [done|]. split; [|split; [done|]].
    + intros g. rewrite elem_of_app, list_elem_of_singleton. split; [rewrite Ht; naive_solver|].
      intros [?|[[?| ->] Hs]]; [by apply Ht; left|by apply Ht; right|done].
    + intros e'. rewrite Hb. unfold wanted. rewrite elem_of_app, list_elem_of_singleton. split; [naive_solver|].
      intros (H1 & [?|E1] & H3); [done|]. split; [done|]. split; [|done]. rewrite E1 in *. apply Ht in Hin as [?|[? _]]; done.
  - assert (Path e ∉ Path <$> b) as Hfresh.
    { intros (e' & E1 & Hb')%list_elem_of_fmap. apply Hin, Ht. apply Hb in Hb' as (H1 & H2 & _). rewrite E1. right. split; [done|by eexists]. }
    exists ({[Path e]} ∪ t), (b ++ [e]). split; [done|]. split; [|split].
    + intros g. rewrite elem_of_union, elem_of_singleton, Ht, elem_of_app, list_elem_of_singleton. split; [|naive_solver].
      intros [->|[?|[? ?]]]; [right; split; [by right|by eexists]|by left|right; by split; [left|]].
    + rewrite fmap_app. apply NoDup_app. split; [done|]. split; [|apply NoDup_singleton].
      intros g Hg ->%list_elem_of_singleton. done.
    + intros e'. rewrite elem_of_app, list_elem_of_singleton, Hb. unfold wanted. rewrite elem_of_app, list_elem_of_singleton. split.
      * intros [(H1 & H2 & H3)| ->]; [by repeat split; [|left|]|]. split; [done|]. split; [by right|].
        intros H. apply Hin, Ht. by left.
      * intros (H1 & [?|E1] & H3); [by left|]. right. rewrite E1, Ef in H1. by injection H1.
Qed.

(** The chunks a list of recorded bins is packed into. *)
Record packed_from (taken : gset string) (recorded : list (list string)) (chunks : list (list FileEntry)) : Prop := mkFrom {
  pf_nodup : NoDup (Path <$> mjoin chunks);
  pf_all : forall e, e ∈ mjoin chunks <-> wanted taken (mjoin recorded) e;
  pf_fit : forall c, c ∈ chunks -> c <> [] /\ fits chunkBudget c;
  pf_bin : forall c, c ∈ chunks -> exists i files, recorded !! i = Some files /\
    forall e, e ∈ c -> Path e ∈ files /\ forall j files', (j < i)%nat -> recorded !! j = Some files' -> Path e ∉ files';
}.

Lemma recorded_loop_spec recorded taken :
  match recorded_loop byPath chunkBudget taken recorded with
  | None => chunkBudget <= 0 /\ exists e, wanted taken (mjoin recorded) e
  | Some chunks => packed_from taken recorded chunks /\ (0 < chunkBudget \/ forall e, ~ wanted taken (mjoin recorded) e)
  end.
Proof.
  revert taken. induction recorded as [|files recorded IH]; intros taken; cbn [recorded_loop].
  { split; [|right; by intros e (_ & ?%elem_of_nil & _)]. split; [constructor| | |].
    - intros e. split; [by intros ?%elem_of_nil|]. by intros (_ & ?%elem_of_nil & _).
    - by intros c ?%elem_of_nil.
    - by intros c ?%elem_of_nil. }
  destruct (bin_loop files taken) as (t & b & E & Ht & Hnd & Hb). rewrite E.
  assert (forall e, wanted taken (mjoin (files :: recorded)) e <-> e ∈ b \/ wanted t (mjoin recorded) e) as Hw.
  { intros e. rewrite Hb. unfold wanted. change (mjoin (files :: recorded)) with (files ++ mjoin recorded).
    rewrite elem_of_app, Ht. split.
    - intros (H1 & H2 & H3). destruct (decide (Path e ∈ files)) as [Hf|Hf]; [by left|]. right. split; [done|].
      destruct H2 as [?|H2]; [done|]. split; [done|]. by intros [?|[? _]].
    - intros [(H1 & H2 & H3)|(H1 & H2 & H3)]; [by repeat split; [|left|]|]. split; [done|]. split; [by right|].
      intros H. apply H3. by left. }
  pose proof (PartitionByBudget_chunks b chunkBudget Hmax) as Hs.
  destruct (PartitionByBudget b chunkBudget) as [split|] eqn:Ep; cbn [mbind option_bind].
  2:{ destruct Hs as [Hne Hle]. split; [done|]. destruct b as [|e b]; [done|]. exists e. apply Hw. left. left. }
  pose proof (PartitionByBudget_elems b chunkBudget split Hmax Ep) as Hperm. destruct Hs as (Hpos & _ & Hf & _). rewrite Forall_forall in Hf.
  specialize (IH t). destruct (recorded_loop byPath chunkBudget t recorded) as [rest|]; cbn [mbind option_bind].
  2:{ destruct IH as [Hle (e & He)]. split; [done|]. exists e. apply Hw. by right. }
  destruct IH as [[In1 Ia If Ib] Hno]. split; [split|].
  - rewrite mjoin_app, fmap_app. apply NoDup_app. split; [by rewrite Hperm|]. split; [|done].
    intros f (e & -> & He)%list_elem_of_fmap (e' & E' & He')%list_elem_of_fmap. rewrite Hperm in He. apply Hb in He as (H1 & H2 & _).
    apply Ia in He' as (_ & _ & H3). apply H3, Ht. rewrite <- E'. right. split; [done|by eexists].
  - intros e. by rewrite mjoin_app, elem_of_app, Hperm, Ia, Hw.
  - intros c [Hc|Hc]%elem_of_app; [by apply Hf|by apply If].
  - intros c [Hc|Hc]%elem_of_app.
    + exists O, files. split; [done|]. intros e He. split; [|lia].
      assert (e ∈ b) as Heb by (rewrite <- Hperm; apply elem_of_mjoin; by exists c). by apply Hb in Heb as (_ & ? & _).
    + destruct (Ib c Hc) as (i & fs & Hi & He). exists (S i), fs. split; [done|]. intros e Hec.
      destruct (He e Hec) as [H1 H2]. split; [done|]. intros [|j] fs' Hj Hl; [|by apply (H2 j fs'); [lia|]].
      injection Hl as <-. assert (e ∈ mjoin rest) as Her by (apply elem_of_mjoin; by exists c).
      apply Ia in Her as (H3 & _ & H4). intros Hin. apply H4, Ht. right. split; [done|by eexists].
  - destruct (decide (0 < chunkBudget)) as [?|Hle]; [by left|]. right. intros e [He|He]%Hw; [|destruct Hno as [?|Hno]; [lia|by apply (Hno e)]].
    destruct b as [|e' b]; [by apply elem_of_nil in He|]. specialize (Hpos ltac:(done)). lia.
Qed.
End recorded.

(** What a resume packs from the bins an interrupted run left open: every file of the
    fresh payload that some bin names, once, and no other file; each chunk is non-empty,
    within the budget or one file that exceeds it, and holds files of a single recorded
    bin, the first that names them. It is refused only when there is no budget and some
    named file is still in the payload. *)
Lemma recordedChunks_spec (entries : list FileEntry) (recorded : list (list string)) (chunkBudget : Z)
    (Hmax : chunkBudget <= MaxInt64) (Hpaths : NoDup (Path <$> entries)) :
  match recordedChunks entries recorded chunkBudget with
  | None => chunkBudget <= 0 /\ exists e, e ∈ entries /\ Path e ∈ mjoin recorded
  | Some chunks =>
      mjoin chunks ≡ₚ filter (fun e => Path e ∈ mjoin recorded) entries /\
      forall c, c ∈ chunks -> c <> [] /\
        (bytes_of c <= chunkBudget \/ exists e, c = [e] /\ chunkBudget < clampSize (Size e)) /\
        exists i files, recorded !! i = Some files /\
          forall e, e ∈ c -> Path e ∈ files /\ forall j files', (j < i)%nat -> recorded !! j = Some files' -> Path e ∉ files'
  end.
Proof.
  pose proof (by_path_spec entries Hpaths) as Hm. unfold recordedChunks.
  assert (forall f e, by_path entries !! f = Some e -> Path e = f) as Hkey by (intros f e ?%Hm; naive_solver).
  assert (forall e, wanted (by_path entries) ∅ (mjoin recorded) e <-> e ∈ filter (fun e => Path e ∈ mjoin recorded) entries) as Hw.
  { intros e. unfold wanted. rewrite Hm, list_elem_of_filter. set_solver. }
  pose proof (recorded_loop_spec _ Hkey chunkBudget Hmax recorded ∅) as Hs.
  destruct (recorded_loop _ _ _ _) as [chunks|].
  - destruct Hs as [[Hnd Ha Hf Hb] _]. split; [|by intros c Hc; destruct (Hf c Hc); split; [|split; [|apply Hb]]].
    apply NoDup_Permutation.
    + by eapply NoDup_fmap_1.
    + apply NoDup_filter. by eapply NoDup_fmap_1.
    + intros e. by rewrite Ha, Hw.
  - destruct Hs as [? (e & He)]. split; [done|]. exists e. apply Hw, list_elem_of_filter in He. naive_solver.
Qed.

(** ** Witnesses *)

Definition sample_entries : list FileEntry := [file "a.go" 3; file "big.go" 9; file "c.go" 4; file "d.go" 2].
Definition paths (chunks : list (list FileEntry)) : list (list string) := (fun c : list FileEntry => Path <$> c) <$> chunks.

Example PartitionByBudget_sample :
  paths <$> PartitionByBudget sample_entries 6 = Some [["big.go"]; ["c.go"]; ["a.go"; "d.go"]].
Proof. by vm_compute. Qed.

Lemma PartitionByBudget_spec_witness :
  exists chunks, PartitionByBudget sample_entries 6 = Some chunks /\ mjoin chunks ≡ₚ sample_entries.
Proof.
  destruct (PartitionByBudget_spec sample_entries 6) as (_ & _ & H).
  - apply (bool_decide_eq_true_1 _). by vm_compute.
  - apply (bool_decide_eq_true_1 _). by vm_compute.
  - destruct (PartitionByBudget sample_entries 6) as [chunks|] eqn:E; [|by vm_compute in E].
    exists chunks. split; [done|]. by apply H.
Defined.

Example recordedChunks_sample :
  match recordedChunks sample_entries [["c.go"; "gone.go"]; ["a.go"; "c.go"]] 6 with
  | None => False
  | Some chunks => paths chunks = [["c.go"]; ["a.go"]] /\
      mjoin chunks ≡ₚ filter (fun e => Path e ∈ mjoin [["c.go"; "gone.go"]; ["a.go"; "c.go"]]) sample_entries
  end.
Proof.
  pose proof (recordedChunks_spec sample_entries [["c.go"; "gone.go"]; ["a.go"; "c.go"]] 6
    (bool_decide_eq_true_1 (6 <= MaxInt64) ltac:(by vm_compute))
    (bool_decide_eq_true_1 (NoDup (Path <$> sample_entries)) ltac:(by vm_compute))) as H.
  destruct (recordedChunks _ _ _) as [chunks|] eqn:E; [|by vm_compute in E].
  split; [|by apply H]. vm_compute in E. by injection E as <-.
Qed.
