(* ===== verification/ChunkRecord.v ===== *)
(** * The durable chunk record

    src/internal/fanout: the chunks.json record of a persona's bins (chunkrecord.go), its
    plan from the slots of a run, the union a resume starts from (chunkmerge.go,
    [inheritAttempts], [readResumeRecord], [dropOpenBins] and [narrowReviewed] of
    resume.go) and the readers of coverage (chunkcoverage.go, baseline_coverage.go). A
    record is the parsed JSON; reading and parsing a file is an argument. The ledger's
    concurrent writers are in [ChunkLedger]. *)

From Stdlib Require Import Ascii String.
From stdpp Require Import prelude strings gmap fin_sets list.
From Stdlib Require Import ZArith Lia.
From S2P Require Import Prelude GoString Sha256 GoSort GoStrconv GoInt Budget Partition Chunker ChunkMerge.

Open Scope string_scope.
Open Scope list_scope.
Open Scope Z_scope.

Definition chunksSchemaVersion : Z := 1.
Definition chunkOutcomePending : string := "pending".
Definition chunkOutcomeDeferred : string := "deferred".
Definition chunkOutcomeLeased : string := "leased".

Record chunkRecordBin := mkRecordBin {
  Index : Z;
  Files : list string;
  Outcome : string;
  ContributedNothing : bool;
  RePacked : bool;
  ServedFiles : list string;
  Attempts : Z;
  Hashes : gmap string string;
  OverWindow : bool;
}.
Record chunkRecord := mkRecord {
  SchemaVersion : Z;
  rec_Agent : string;
  Bins : list chunkRecordBin;
}.
Definition set_Index (i : Z) (b : chunkRecordBin) : chunkRecordBin :=
  mkRecordBin i (Files b) (Outcome b) (ContributedNothing b) (RePacked b) (ServedFiles b) (Attempts b) (Hashes b) (OverWindow b).
Definition set_Attempts (n : Z) (b : chunkRecordBin) : chunkRecordBin :=
  mkRecordBin (Index b) (Files b) (Outcome b) (ContributedNothing b) (RePacked b) (ServedFiles b) n (Hashes b) (OverWindow b).
Definition set_Bins (bs : list chunkRecordBin) (r : chunkRecord) : chunkRecord := mkRecord (SchemaVersion r) (rec_Agent r) bs.

Definition reviewed (b : chunkRecordBin) : bool := (Outcome b =? StatusOK)%string && negb (ContributedNothing b).
Definition coveredFiles (b : chunkRecordBin) : list string :=
  if negb (reviewed b) then [] else if RePacked b then ServedFiles b else Files b.
Definition open_bin (b : chunkRecordBin) : bool :=
  negb (reviewed b) || existsb (fun f => negb (bool_decide (f ∈ coveredFiles b))) (Files b).

(** ** The plan *)

(** filepath.Base on a slash-separated system. *)
Definition is_slash (c : ascii) : bool := Ascii.eqb c "/"%char.
Fixpoint strip_slashes (l : bytes) : bytes :=
  match l with c :: l' => if is_slash c then strip_slashes l' else l | [] => [] end.
Fixpoint until_slash (l : bytes) : bytes :=
  match l with c :: l' => if is_slash c then [] else c :: until_slash l' | [] => [] end.
Definition Base (path : string) : string :=
  if (path =? "")%string then "."
  else
    match strip_slashes (rev (to_bytes path)) with
    | [] => "/"
    | l => of_bytes (rev (until_slash l))
    end.
Definition agentDirName (agent : string) : option string :=
  let base := Base agent in
  if bool_decide (base ∈ ["."; ".."; ""; "/"]) then None else Some base.

(** The fields of [Slot] and of its primary that the ledger and the coverage read. *)
Record Slot := mkSlot {
  Name : string;
  chunkFiles : list string;
  ChunkTotal : Z;
  slot_entries : list FileEntry;
  deferredBins : list (list string);
  resumedBin : bool;
  overWindow : bool;
}.
Definition recordedBin (s : Slot) : bool :=
  negb (bool_decide (chunkFiles s = [])) && ((1 <? ChunkTotal s) || resumedBin s).

Definition HashText (s : bytes) : string := "sha256:" +:+ EncodeToString (Sum256 s).
Definition entryHashes (entries : list FileEntry) : gmap string string :=
  foldl (fun m e => <[Path e := HashText (Body e)]> m) ∅ entries.

Definition planned_bin (i : nat) (s : Slot) : chunkRecordBin :=
  mkRecordBin (Z.of_nat i) (chunkFiles s) chunkOutcomePending false false [] 0 (entryHashes (slot_entries s)) (overWindow s).
Definition defer_bin (bins : list chunkRecordBin) (files : list string) : list chunkRecordBin :=
  bins ++ [mkRecordBin (Z.of_nat (length bins)) files chunkOutcomeDeferred false false [] 0 ∅ false].

Record fileGap := mkGap { gap_unreviewed : Z; gap_deferred : Z }.

(** The ledger's plan: records, slot references (directory, bin) and directories in
    first-seen order; what a resume carried. *)
Record plan := mkPlan {
  records : gmap string chunkRecord;
  bySlot : gmap nat (string * nat);
  order : list string;
  carried : gmap string (gset string);
  carriedGaps : gmap string fileGap;
}.

Definition plan_slot (p : plan) (x : nat * Slot) : plan :=
  let '(i, s) := x in
  if negb (recordedBin s) then p
  else
    match agentDirName (Name s) with
    | None => p
    | Some dir =>
        let '(rec, ord) := match records p !! dir with
                           | Some rec => (rec, order p)
                           | None => (mkRecord chunksSchemaVersion (Name s) [], order p ++ [dir])
                           end in
        let bin := length (Bins rec) in
        let bins := foldl defer_bin (Bins rec ++ [planned_bin bin s]) (deferredBins s) in
        mkPlan (<[dir := set_Bins bins rec]> (records p)) (<[i := (dir, bin)]> (bySlot p)) ord (carried p) (carriedGaps p)
    end.
(** [None] is the nil ledger. *)
Definition newChunkLedger (slots : list Slot) : option plan :=
  let p := foldl plan_slot (mkPlan ∅ ∅ [] ∅ ∅) (imap pair slots) in
  if bool_decide (records p = ∅) then None else Some p.

(** ** Resuming: the union with the prior record *)

Definition file_attempts (prior : chunkRecord) (f : string) : Z :=
  foldl (fun n b => if negb (open_bin b) || (Attempts b =? 0) then n
                    else if bool_decide (f ∈ Files b) then go_max n (Attempts b) else n) 0 (Bins prior).
Definition inherit_bin (prior : chunkRecord) (b : chunkRecordBin) : chunkRecordBin :=
  set_Attempts (foldl (fun n f => go_max n (file_attempts prior f)) (Attempts b) (Files b)) b.
Definition inherit_dir (prior : gmap string chunkRecord) (p : plan) (dir : string) : plan :=
  match prior !! dir, records p !! dir with
  | Some pr, Some rec =>
      mkPlan (<[dir := set_Bins (inherit_bin pr <$> Bins rec) rec]> (records p)) (bySlot p) (order p) (carried p) (carriedGaps p)
  | _, _ => p
  end.
Definition inheritAttempts (prior : gmap string chunkRecord) (p : plan) : plan := foldl (inherit_dir prior) p (order p).

(** path.Clean, on the elements between slashes: the stack holds them reversed. *)
Definition clean_step (rooted : bool) (stack : list string) (elem : string) : list string :=
  if bool_decide (elem ∈ [""; "."]) then stack
  else if (elem =? "..")%string then
    match stack with
    | top :: rest => if (top =? "..")%string then ".." :: stack else rest
    | [] => if rooted then [] else [".."]
    end
  else elem :: stack.
Definition Clean (path : string) : string :=
  let rooted := is_prefix (to_bytes "/") (to_bytes path) in
  let out := Join (rev (foldl (clean_step rooted) [] (Split path "/"))) "/" in
  if rooted then "/" +:+ out else if (out =? "")%string then "." else out.

Definition anyIn (files : list string) (set : gset string) : bool := existsb (fun f => bool_decide (f ∈ set)) files.
Definition files_of (bins : list chunkRecordBin) : gset string := list_to_set (mjoin (Files <$> bins)).

Definition uncovered_in (b : chunkRecordBin) : list string := filter (fun f => f ∉ coveredFiles b) (Files b).
Definition carriedGap (kept deferred : list chunkRecordBin) : fileGap :=
  let unreviewed : gset string := files_of deferred ∪ list_to_set (mjoin (uncovered_in <$> filter (fun b => open_bin b = true) kept)) in
  mkGap (Z.of_nat (size unreviewed)) (Z.of_nat (length (mjoin (Files <$> deferred)))).

(** The prior bins carried over: whole, none of their files dispatched by this run. *)
Definition carriable (fresh : gset string) (b : chunkRecordBin) : bool :=
  negb (bool_decide (Files b = []) || anyIn (Files b) fresh).
Definition kept_bins (fresh : gset string) (bins : list chunkRecordBin) : list chunkRecordBin :=
  filter (fun b => carriable fresh b && (Outcome b =? StatusOK)%string = true) bins.
Definition deferred_bins (fresh : gset string) (bins : list chunkRecordBin) : list chunkRecordBin :=
  filter (fun b => carriable fresh b && (Outcome b =? chunkOutcomeDeferred)%string = true) bins.
Definition renumber (bins : list chunkRecordBin) : list chunkRecordBin := imap (fun i b => set_Index (Z.of_nat i) b) bins.

Definition carry_dir (prior : gmap string chunkRecord) (p : plan) (dir : string) : plan :=
  match prior !! dir, records p !! dir with
  | Some pr, Some rec =>
      let fresh := files_of (Bins rec) in
      let kept := kept_bins fresh (Bins pr) in
      let deferred := deferred_bins fresh (Bins pr) in
      if bool_decide (kept = []) then p
      else
        let g := carriedGap kept deferred in
        mkPlan (<[dir := set_Bins (renumber ((kept ++ Bins rec) ++ deferred)) rec]> (records p))
          ((fun ref : string * nat => if (ref.1 =? dir)%string then (ref.1, (ref.2 + length kept)%nat) else ref) <$> bySlot p)
          (order p) (<[dir := list_to_set (Clean <$> mjoin (Files <$> kept))]> (carried p))
          (if 0 <? gap_unreviewed g then <[dir := g]> (carriedGaps p) else carriedGaps p)
  | _, _ => p
  end.
Definition carryReviewed (prior : gmap string chunkRecord) (p : plan) : plan := foldl (carry_dir prior) p (order p).

(** Total bins of a record, and how many finished ok. *)
Definition binCounts (rec : chunkRecord) : nat * nat :=
  (length (Bins rec), length (filter (fun b => Outcome b = StatusOK) (Bins rec))).

(** [trustedChunkRecord]: [parsed] is the file within the directory, read and parsed;
    [findings] tells whether a findings file lies beside it. *)
Definition trustedChunkRecord (parsed : option chunkRecord) (findings : bool) (agent : string) : option chunkRecord :=
  match parsed with
  | None => None
  | Some rec =>
      if negb (SchemaVersion rec =? chunksSchemaVersion) || negb (rec_Agent rec =? agent)%string
         || bool_decide (Bins rec = []) then None
      else if findings then Some rec else None
  end.

(** [readResumeRecord], with the completed agents and a reader of trusted records. *)
Record resumeRecord := mkResume {
  done_agents : gset string;
  open_bins : gmap string (list (list string));
  reviewed_at : gmap string (gset string);
}.
Definition record_hashes (acc : gmap string (gset string)) (b : chunkRecordBin) : gmap string (gset string) :=
  foldl (fun m f => match Hashes b !! f with
                    | Some h => <[f := {[h]} ∪ default ∅ (m !! f)]> m
                    | None => m
                    end) acc (coveredFiles b).
Definition open_sets (rec : chunkRecord) : list (list string) := Files <$> filter (fun b => open_bin b = true) (Bins rec).
Definition resume_step (trusted : string -> option chunkRecord) (rr : resumeRecord) (name : string) : resumeRecord :=
  match agentDirName name with
  | None => rr
  | Some _ =>
      match trusted name with
      | None => rr
      | Some rec =>
          let at' := foldl record_hashes (reviewed_at rr) (Bins rec) in
          if bool_decide (open_sets rec = []) then mkResume (done_agents rr) (open_bins rr) at'
          else mkResume (done_agents rr ∖ {[name]}) (<[name := open_sets rec]> (open_bins rr)) at'
      end
  end.
Definition readResumeRecord (completed : gset string) (roster : list string) (baseline : bool)
    (trusted : string -> option chunkRecord) : resumeRecord :=
  let rr := mkResume completed ∅ ∅ in
  if baseline then foldl (resume_step trusted) rr roster else rr.

(** The record [dropOpenBins] leaves on disk. *)
Definition dropOpenBins (rec : chunkRecord) : chunkRecord :=
  let kept := filter (fun b => open_bin b = false) (Bins rec) in
  if bool_decide (length kept = length (Bins rec)) then rec else set_Bins (renumber kept) rec.

Definition narrowReviewed (slots : list Slot) (prior : gmap string (gset string)) (b : gmap string string) : gmap string string :=
  let carried : gset string := list_to_set (mjoin (chunkFiles <$> slots)) in
  filter (fun fh => fh.1 ∈ carried \/ fh.2 ∈ default ∅ (prior !! fh.1)) b.

(** ** Readers of coverage *)

Record Coverage := mkCoverage {
  BinsReviewed : nat;
  BinsPlanned : nat;
  FilesCovered : nat;
  FilesInScope : nat;
  BinsOverWindow : nat;
}.
(** What [loadChunkRecord] reads: nothing there, a file it refuses, or a record. *)
Inductive loaded := Missing | Refused | Parsed (rec : chunkRecord).
Definition loadChunkRecord (l : loaded) : loaded :=
  match l with
  | Parsed rec => if SchemaVersion rec =? chunksSchemaVersion then Parsed rec else Refused
  | _ => l
  end.

(** [None] is the error; the flag is [ok]. *)
Fixpoint read_bins (ls : list loaded) : option (list chunkRecordBin * bool) :=
  match ls with
  | [] => Some ([], false)
  | l :: ls' =>
      match loadChunkRecord l with
      | Refused => None
      | Missing => read_bins ls'
      | Parsed rec => '(bs, _) ← read_bins ls'; Some (Bins rec ++ bs, true)
      end
  end.
Definition covered_of (bins : list chunkRecordBin) : gset string := list_to_set (mjoin (coveredFiles <$> bins)).
Definition ReadCoverage (ls : list loaded) : option (Coverage * bool) :=
  match read_bins ls with
  | None => None
  | Some (bins, ok) =>
      Some (mkCoverage (length (filter (fun b => reviewed b = true) bins)) (length bins)
              (size (covered_of bins ∩ files_of bins)) (size (files_of bins))
              (length (filter (fun b => negb (reviewed b) && OverWindow b = true) bins)), ok)
  end.

(** ** Coverage of a run's raw results *)

Section coverage.
Context {Rec : Type}.
Implicit Types (r : Result Rec) (slots : list Slot) (results : list (Result Rec)).

Definition abandonedSalvagedChunks (a : AgentStatus) : Z :=
  Z.of_nat (length (filter (fun i => i ∉ st_SalvagedOnStopChunks a) (st_SalvagedChunks a))).
Definition WholePersonaSalvaged (a : AgentStatus) : bool :=
  if negb (st_Salvaged a) then false
  else if bool_decide (st_SalvagedChunks a = []) then negb (st_SalvagedOnStop a)
  else
    let abandoned := abandonedSalvagedChunks a in
    if abandoned =? 0 then false
    else if st_ChunkCount a <=? 0 then true
    else st_ChunkCount a <=? abandoned.
Definition WholePersonaThinkSuppressed (a : AgentStatus) : bool :=
  if negb (st_ThinkSuppressed a) then false
  else if st_ChunkCount a <=? 0 then true
  else if st_UnparseableChunks a =? 0 then true
  else st_ChunkCount a <=? st_UnparseableChunks a.
(** [resultStatus] fills the fields [statusFor] does. *)
Definition contributedNothing r : bool :=
  WholePersonaSalvaged (statusFor r) || WholePersonaThinkSuppressed (statusFor r).

(** What [slotDone] and [slotRequeue] stamp on a bin; the attempt counts when the slot was
    leased. *)
Definition complete_bin (leased : bool) r (b : chunkRecordBin) : chunkRecordBin :=
  mkRecordBin (Index b) (Files b) (Status r) ((Status r =? StatusOK)%string && contributedNothing r) (servedRePacked r)
    (if servedRePacked r then default [] (servedChunkFiles r) else []) (if leased then Attempts b + 1 else Attempts b)
    (Hashes b) (OverWindow b).
Definition requeue_bin (leased : bool) (b : chunkRecordBin) : chunkRecordBin :=
  mkRecordBin (Index b) (Files b) chunkOutcomePending false false [] (if leased then Attempts b + 1 else Attempts b)
    (Hashes b) (OverWindow b).

Definition servedCoverage (s : Slot) r : list string :=
  match servedChunkFiles r with
  | None => if servedRePacked r then [] else chunkFiles s
  | Some fs => fs
  end.
Definition succeeded r : bool := (Status r =? StatusOK)%string && negb (contributedNothing r).

(** The files the servers of the succeeded slots read. *)
Definition served_by slots results : gset string :=
  list_to_set (mjoin (zip_with (fun s r => if succeeded r then servedCoverage s r else []) slots results)).
Definition all_ok slots results : bool :=
  bool_decide (length results = length slots) && forallb (fun s => bool_decide (deferredBins s = [])) slots &&
  forallb (fun r => negb (negb (Status r =? StatusOK)%string || servedRePacked r || contributedNothing r)) results.
Definition uncoveredBaselineFiles slots results (reviewed : gmap string string) : gset string :=
  if bool_decide (reviewed = ∅) then ∅
  else if bool_decide (results = []) then dom reviewed
  else if all_ok slots results then ∅
  else dom reviewed ∖ served_by slots results.

(** The slots of one persona, with their results. *)
Definition planned_files (s : Slot) : list string := chunkFiles s ++ mjoin (deferredBins s).
Definition persona_gap slots results (name : string) : fileGap :=
  let planned : gset string := list_to_set (mjoin (planned_files <$> filter (fun s => Name s = name) slots)) in
  let reviewed : gset string := list_to_set (mjoin (zip_with (fun s r =>
        if bool_decide (Name s = name) && succeeded r then servedCoverage s r else []) slots results)) in
  mkGap (Z.of_nat (size (planned ∖ reviewed)))
    (Z.of_nat (length (mjoin (mjoin (deferredBins <$> filter (fun s => Name s = name) slots))))).
(** Only a persona with a gap has an entry. *)
Definition unreviewedFileCounts slots results (name : string) : option fileGap :=
  let g := persona_gap slots results name in
  if gap_unreviewed g =? 0 then None else Some g.
End coverage.

(** ** Facts of the plan *)

(** The directory a slot is recorded under, and the bins of one directory's slots. *)
Definition slot_dir (s : Slot) : option string := if recordedBin s then agentDirName (Name s) else None.
Definition own (dir : string) (slots : list Slot) : list Slot := filter (fun s => slot_dir s = Some dir) slots.
Definition bins_step (bins : list chunkRecordBin) (s : Slot) : list chunkRecordBin :=
  foldl defer_bin (bins ++ [planned_bin (length bins) s]) (deferredBins s).
Definition bins_for (slots : list Slot) : list chunkRecordBin := foldl bins_step [] slots.

Record planned (slots : list Slot) (p : plan) : Prop := mkPlanned {
  pl_records : forall dir, records p !! dir =
    match own dir slots with
    | [] => None
    | s :: _ => Some (mkRecord chunksSchemaVersion (Name s) (bins_for (own dir slots)))
    end;
  pl_bySlot : forall i, bySlot p !! i =
    (s ← slots !! i; dir ← slot_dir s; Some (dir, length (bins_for (own dir (take i slots)))));
  pl_order : NoDup (order p) /\ forall dir, dir ∈ order p <-> is_Some (records p !! dir);
  pl_carried : carried p = ∅ /\ carriedGaps p = ∅;
}.

Lemma own_snoc dir slots s : own dir (slots ++ [s]) = own dir slots ++ (if bool_decide (slot_dir s = Some dir) then [s] else []).
Proof.
  unfold own. rewrite filter_app. f_equal. destruct (decide (slot_dir s = Some dir)) as [H|H].
  - by rewrite filter_cons_True, bool_decide_eq_true_2.
  - by rewrite filter_cons_False, bool_decide_eq_false_2.
Qed.

Lemma bins_for_snoc slots s : bins_for (slots ++ [s]) = bins_step (bins_for slots) s.
Proof. unfold bins_for. apply foldl_snoc. Qed.

Lemma lookup_snoc_take {A} (l : list A) x i : (l ++ [x]) !! i = if bool_decide (i = length l) then Some x else l !! i.
Proof.
  case_bool_decide as E; [subst; by rewrite list_lookup_middle|].
  destruct (decide (i < length l)%nat); [by rewrite lookup_app_l|].
  rewrite !lookup_ge_None_2; [done|lia|rewrite length_app; cbn; lia].
Qed.

Lemma plan_planned slots : planned slots (foldl plan_slot (mkPlan ∅ ∅ [] ∅ ∅) (imap pair slots)).
Proof.
  induction slots as [|s slots IH] using rev_ind.
  { split; [intros dir; apply lookup_empty|intros i; apply lookup_empty| |done].
    split; [constructor|]. intros dir. cbn [foldl imap records order]. rewrite lookup_empty.
    split; [by intros ?%elem_of_nil|by intros []]. }
  rewrite imap_app, foldl_app. cbn [imap foldl]. rewrite Nat.add_0_r. set (p := foldl _ _ _) in *. clearbody p.
  destruct IH as [Hr Hs [Hnd Ho] Hc].
  assert (forall i, (i <= length slots)%nat -> take i (slots ++ [s]) = take i slots) as Htake by (intros i Hi; by apply take_app_le).
  assert (slot_dir s = None -> planned (slots ++ [s]) p) as Hskip.
  { intros E. split; [| |done|done].
    - intros dir. rewrite own_snoc, E, bool_decide_eq_false_2, app_nil_r by done. apply Hr.
    - intros i. rewrite Hs, lookup_snoc_take. case_bool_decide as Hi.
      + subst i. rewrite lookup_ge_None_2 by done. cbn. by rewrite E.
      + destruct (slots !! i) eqn:Ei; [|done]. cbn. by rewrite Htake by (apply lookup_lt_Some in Ei; lia). }
  unfold plan_slot. unfold slot_dir in Hskip. destruct (recordedBin s) eqn:Erec; cbn [negb]; [|by apply Hskip].
  destruct (agentDirName (Name s)) as [dir|] eqn:Ed; [|by apply Hskip]. clear Hskip.
  assert (slot_dir s = Some dir) as Hd by (unfold slot_dir; by rewrite Erec).
  set (b := match records p !! dir with Some rec => rec | None => mkRecord chunksSchemaVersion (Name s) [] end).
  assert (Bins b = bins_for (own dir slots)) as Hb.
  { subst b. rewrite Hr. by destruct (own dir slots). }
  assert (match records p !! dir with Some rec => (rec, order p) | None => (mkRecord chunksSchemaVersion (Name s) [], order p ++ [dir]) end
    = (b, match records p !! dir with Some _ => order p | None => order p ++ [dir] end)) as -> by (subst b; by destruct (records p !! dir)).
  cbn zeta iota beta. fold (bins_step (Bins b) s). rewrite Hb. split; cbn [records bySlot order carried carriedGaps]; [| | |done].
  - intros d. rewrite own_snoc, Hd. destruct (decide (d = dir)) as [->|Hne].
    + rewrite lookup_insert_eq, bool_decide_eq_true_2 by done. rewrite bins_for_snoc. subst b. rewrite Hr.
      by destruct (own dir slots).
    + rewrite lookup_insert_ne, bool_decide_eq_false_2, app_nil_r by congruence. apply Hr.
  - intros i. rewrite lookup_snoc_take. case_bool_decide as Hi.
    + subst i. rewrite lookup_insert_eq. cbn. rewrite Hd. cbn. by rewrite Htake, firstn_all by done.
    + rewrite lookup_insert_ne by done. rewrite Hs. destruct (slots !! i) eqn:Ei; [|done]. cbn.
      by rewrite Htake by (apply lookup_lt_Some in Ei; lia).
  - destruct (records p !! dir) as [rec|] eqn:Er.
    + split; [done|]. intros d. rewrite Ho. destruct (decide (d = dir)) as [->|]; [|by rewrite lookup_insert_ne].
      rewrite lookup_insert_eq, Er. split; intros _; by eexists.
    + split.
      * apply NoDup_app. split; [done|]. split; [|apply NoDup_singleton]. intros d Hin ->%list_elem_of_singleton.
        apply Ho in Hin as [? ?]. congruence.
      * intros d. rewrite elem_of_app, list_elem_of_singleton, Ho. destruct (decide (d = dir)) as [->|].
        -- rewrite lookup_insert_eq. split; [intros _; by eexists|by right].
        -- rewrite lookup_insert_ne by done. split; [by intros [|]|by left].
Qed.

Lemma fmap_defer {A} (f : chunkRecordBin -> A) (g : nat -> list string -> A) bins fss :
  (forall n files, f (mkRecordBin (Z.of_nat n) files chunkOutcomeDeferred false false [] 0 ∅ false) = g n files) ->
  f <$> foldl defer_bin bins fss = (f <$> bins) ++ imap (fun k files => g (length bins + k)%nat files) fss.
Proof.
  intros Hg. revert bins. induction fss as [|fs fss IH]; intros bins; [by rewrite app_nil_r|].
  cbn [foldl]. rewrite IH. unfold defer_bin. rewrite fmap_app, <- app_assoc. cbn. f_equal. rewrite Hg, Nat.add_0_r. f_equal.
  apply imap_ext. intros k x _. cbn. rewrite length_app. cbn. f_equal. lia.
Qed.

Lemma bins_step_Files bins s : Files <$> bins_step bins s = (Files <$> bins) ++ chunkFiles s :: deferredBins s.
Proof.
  unfold bins_step. rewrite (fmap_defer Files (fun _ files => files)) by done. rewrite fmap_app, <- app_assoc. cbn. do 2 f_equal.
  generalize (deferredBins s). intros fss. apply list_eq. intros i. rewrite list_lookup_imap. by destruct (fss !! i).
Qed.

Lemma bins_for_Files slots : Files <$> bins_for slots = mjoin ((fun s => chunkFiles s :: deferredBins s) <$> slots).
Proof.
  induction slots as [|s slots IH] using rev_ind; [done|]. rewrite bins_for_snoc, bins_step_Files, IH, fmap_app, mjoin_app.
  cbn. by rewrite app_nil_r.
Qed.

Definition numbered (bins : list chunkRecordBin) : Prop := Index <$> bins = Z.of_nat <$> seq 0 (length bins).

Lemma numbered_defer bins fss : numbered bins -> numbered (foldl defer_bin bins fss).
Proof.
  revert bins. induction fss as [|fs fss IH]; intros bins H; [done|]. cbn [foldl]. apply IH. unfold numbered, defer_bin in *.
  rewrite fmap_app, H, length_app, seq_app, fmap_app. done.
Qed.

Lemma bins_for_numbered slots : numbered (bins_for slots).
Proof.
  induction slots as [|s slots IH] using rev_ind; [done|]. rewrite bins_for_snoc. apply numbered_defer. unfold numbered in *.
  rewrite fmap_app, IH, length_app, seq_app, fmap_app. done.
Qed.

Lemma renumber_numbered bins : numbered (renumber bins).
Proof.
  unfold numbered, renumber. rewrite fmap_imap, length_imap. apply list_eq. intros i.
  rewrite list_lookup_imap, list_lookup_fmap. destruct (decide (i < length bins)%nat) as [Hi|Hi].
  - rewrite lookup_seq_lt by done. apply lookup_lt_is_Some_2 in Hi as [b ->]. done.
  - rewrite !lookup_ge_None_2; [done|rewrite length_seq; lia|lia].
Qed.

Lemma renumber_fmap {A} (f : chunkRecordBin -> A) bins : (forall i b, f (set_Index i b) = f b) -> f <$> renumber bins = f <$> bins.
Proof.
  intros H. unfold renumber. rewrite fmap_imap. apply list_eq. intros i. rewrite list_lookup_imap, list_lookup_fmap.
  destruct (bins !! i); [|done]. cbn. by rewrite H.
Qed.

(** A slot's bin, at its reference. *)
Lemma bins_step_app bins s : exists ext, bins_step bins s = bins ++ planned_bin (length bins) s :: ext.
Proof.
  unfold bins_step. generalize (deferredBins s). intros fss. induction fss as [|fs fss IH] using rev_ind; [by exists []|].
  destruct IH as [ext E]. rewrite foldl_snoc, E. unfold defer_bin at 1. rewrite <- app_assoc. eexists. cbn. done.
Qed.

Lemma bins_for_app a b : exists ext, bins_for (a ++ b) = bins_for a ++ ext.
Proof.
  induction b as [|s b IH] using rev_ind; [exists []; by rewrite !app_nil_r|]. destruct IH as [ext E].
  rewrite app_assoc, bins_for_snoc, E. destruct (bins_step_app (bins_for a ++ ext) s) as [ext' ->]. rewrite <- app_assoc. by eexists.
Qed.

Lemma bins_for_slot dir slots i s : slots !! i = Some s -> slot_dir s = Some dir ->
  bins_for (own dir slots) !! length (bins_for (own dir (take i slots))) =
    Some (planned_bin (length (bins_for (own dir (take i slots)))) s).
Proof.
  intros Hi Hd. assert (own dir slots = (own dir (take i slots) ++ [s]) ++ own dir (drop (S i) slots)) as ->.
  { rewrite <- (take_drop_middle slots i s Hi) at 1. unfold own. rewrite filter_app, filter_cons_True, <- app_assoc by done. done. }
  destruct (bins_for_app (own dir (take i slots) ++ [s]) (own dir (drop (S i) slots))) as [ext ->].
  rewrite bins_for_snoc. destruct (bins_step_app (bins_for (own dir (take i slots))) s) as [ext' ->].
  rewrite <- app_assoc. by apply list_lookup_middle.
Qed.

(** ** The resume passes, one directory at a time *)

(** Two plans agree on a directory. *)
Record same_at (dir : string) (p q : plan) : Prop := mkSame {
  sa_records : records p !! dir = records q !! dir;
  sa_bySlot : forall i k, bySlot p !! i = Some (dir, k) <-> bySlot q !! i = Some (dir, k);
  sa_carried : carried p !! dir = carried q !! dir;
  sa_gaps : carriedGaps p !! dir = carriedGaps q !! dir;
}.
#[local] Instance same_at_Equivalence dir : Equivalence (same_at dir).
Proof.
  split.
  - by split.
  - intros p q [? H ? ?]. split; [done| |done|done]. intros i k. by rewrite H.
  - intros p q r [? H ? ?] [? H' ? ?]. split; [congruence| |congruence|congruence]. intros i k. by rewrite H, H'.
Qed.

Lemma fold_at dir (step : plan -> string -> plan) l p :
  (forall p d, d <> dir -> same_at dir (step p d) p) ->
  (forall p q, same_at dir p q -> same_at dir (step p dir) (step q dir)) ->
  NoDup l -> same_at dir (foldl step p l) (if bool_decide (dir ∈ l) then step p dir else p).
Proof.
  intros Hne Hat. revert p. induction l as [|d l IH]; intros p Hnd; [done|]. apply NoDup_cons in Hnd as [Hd Hnd].
  cbn [foldl]. transitivity (if bool_decide (dir ∈ l) then step (step p d) dir else step p d); [by apply IH|].
  destruct (decide (d = dir)) as [->|Hdd].
  - rewrite bool_decide_eq_false_2, bool_decide_eq_true_2 by (done || left). done.
  - destruct (decide (dir ∈ l)) as [Hin|Hin].
    + rewrite !bool_decide_eq_true_2 by (done || by right). apply Hat. by apply Hne.
    + rewrite !bool_decide_eq_false_2; [by apply Hne|by intros [->|]%elem_of_cons|done].
Qed.

Lemma inherit_dir_ne prior dir p d : d <> dir -> same_at dir (inherit_dir prior p d) p.
Proof.
  intros Hne. unfold inherit_dir. destruct (prior !! d), (records p !! d); try done.
  split; [|done|done|done]. cbn. by rewrite lookup_insert_ne.
Qed.

Lemma inherit_dir_at prior dir p q : same_at dir p q -> same_at dir (inherit_dir prior p dir) (inherit_dir prior q dir).
Proof.
  intros Hpq. pose proof Hpq as [Hr Hs Hc Hg]. unfold inherit_dir. rewrite Hr. destruct (prior !! dir), (records q !! dir) eqn:E; try done.
  split; [|done|done|done]. cbn. by rewrite !lookup_insert_eq.
Qed.

Lemma shift_lookup dir n (m : gmap nat (string * nat)) i d k : d <> dir ->
  ((fun ref : string * nat => if (ref.1 =? dir)%string then (ref.1, (ref.2 + n)%nat) else ref) <$> m) !! i = Some (d, k) <->
  m !! i = Some (d, k).
Proof.
  intros Hne. rewrite lookup_fmap, fmap_Some. split.
  - intros ([d' k'] & Hm & E). cbn in E. destruct (d' =? dir)%string eqn:Ed; injection E as -> ->; [|done].
    apply String.eqb_eq in Ed. done.
  - intros Hm. exists (d, k). split; [done|]. cbn. by rewrite (proj2 (String.eqb_neq d dir) Hne).
Qed.

Lemma shift_lookup_eq dir n (m : gmap nat (string * nat)) i k :
  ((fun ref : string * nat => if (ref.1 =? dir)%string then (ref.1, (ref.2 + n)%nat) else ref) <$> m) !! i = Some (dir, k) <->
  exists k', m !! i = Some (dir, k') /\ k = (k' + n)%nat.
Proof.
  rewrite lookup_fmap, fmap_Some. split.
  - intros ([d' k'] & Hm & E). cbn in E. destruct (d' =? dir)%string eqn:Ed.
    + injection E as <- ->. by exists k'.
    + injection E as <- _. by rewrite String.eqb_refl in Ed.
  - intros (k' & Hm & ->). exists (dir, k'). split; [done|]. cbn. by rewrite String.eqb_refl.
Qed.

Lemma carry_dir_ne prior dir p d : d <> dir -> same_at dir (carry_dir prior p d) p.
Proof.
  intros Hne. unfold carry_dir. destruct (prior !! d), (records p !! d); try done. case_bool_decide; [done|].
  split; cbn.
  - by rewrite lookup_insert_ne.
  - intros i k. by apply shift_lookup, not_eq_sym.
  - by rewrite lookup_insert_ne.
  - destruct (0 <? _); [by rewrite lookup_insert_ne|done].
Qed.

Lemma carry_dir_at prior dir p q : same_at dir p q -> same_at dir (carry_dir prior p dir) (carry_dir prior q dir).
Proof.
  intros Hpq. pose proof Hpq as [Hr Hs Hc Hg]. unfold carry_dir. rewrite Hr. destruct (prior !! dir), (records q !! dir) eqn:E; try done.
  case_bool_decide; [done|]. split; cbn.
  - by rewrite !lookup_insert_eq.
  - intros i k. rewrite !shift_lookup_eq. naive_solver.
  - by rewrite !lookup_insert_eq.
  - destruct (0 <? _); [by rewrite !lookup_insert_eq|done].
Qed.

(** ** Bins that share no file *)

Section disjoint.
Context {A B : Type} (f : A -> list B).

Lemma mjoin_NoDup_split l : NoDup (mjoin (f <$> l)) -> forall pre b post, l = pre ++ b :: post ->
  NoDup (f b) /\ forall x, x ∈ f b -> forall b', b' ∈ pre ++ post -> x ∉ f b'.
Proof.
  intros Hnd pre b post ->. rewrite fmap_app, mjoin_app in Hnd. cbn in Hnd.
  apply NoDup_app in Hnd as (_ & Hpre & (Hb & Hpost & _)%NoDup_app). split; [done|]. intros x Hx b' [Hin|Hin]%elem_of_app Hx'.
  - apply (Hpre x); [apply elem_of_mjoin; exists (f b'); split; [by apply list_elem_of_fmap_2|done]|]. by apply elem_of_app; left.
  - apply (Hpost x Hx). apply elem_of_mjoin. exists (f b'). split; [by apply list_elem_of_fmap_2|done].
Qed.

Lemma mjoin_NoDup_inj l x b1 b2 : NoDup (mjoin (f <$> l)) -> b1 ∈ l -> b2 ∈ l -> x ∈ f b1 -> x ∈ f b2 -> b1 = b2.
Proof.
  induction l as [|b l IH]; intros Hnd H1 H2 Hx1 Hx2; [by apply elem_of_nil in H1|].
  cbn in Hnd. apply NoDup_app in Hnd as (_ & Hd & Hnd).
  assert (forall b', b' ∈ l -> x ∈ f b' -> x ∉ f b) as Hno.
  { intros b' Hb' Hx' Hb. apply (Hd x Hb), elem_of_mjoin. exists (f b'). split; [by apply list_elem_of_fmap_2|done]. }
  apply elem_of_cons in H1 as [->|H1], H2 as [->|H2]; [done|by destruct (Hno _ H2 Hx2)|by destruct (Hno _ H1 Hx1)|by apply IH].
Qed.

Lemma mjoin_NoDup_filter (P : A -> Prop) `{!forall x, Decision (P x)} l : NoDup (mjoin (f <$> l)) -> NoDup (mjoin (f <$> filter P l)).
Proof.
  induction l as [|b l IH]; intros Hnd; [done|]. cbn in Hnd. apply NoDup_app in Hnd as (Hb & Hd & Hnd).
  rewrite filter_cons. case_decide; [|by apply IH]. cbn. apply NoDup_app. split; [done|]. split; [|by apply IH].
  intros x Hx Hin. apply (Hd x Hx). apply elem_of_mjoin in Hin as (fs & (b' & -> & Hb')%list_elem_of_fmap & Hx').
  apply list_elem_of_filter in Hb' as [_ Hb']. apply elem_of_mjoin. exists (f b'). split; [by apply list_elem_of_fmap_2|done].
Qed.
End disjoint.

Lemma elem_of_bin_files f bins : f ∈ files_of bins <-> exists b, b ∈ bins /\ f ∈ Files b.
Proof.
  unfold files_of. rewrite elem_of_list_to_set, elem_of_mjoin. split.
  - intros (fs & (b & -> & Hb)%list_elem_of_fmap & Hf). by exists b.
  - intros (b & Hb & Hf). exists (Files b). split; [by apply list_elem_of_fmap_2|done].
Qed.

Lemma elem_of_covered_of f bins : f ∈ covered_of bins <-> exists b, b ∈ bins /\ f ∈ coveredFiles b.
Proof.
  unfold covered_of. rewrite elem_of_list_to_set, elem_of_mjoin. split.
  - intros (fs & (b & -> & Hb)%list_elem_of_fmap & Hf). by exists b.
  - intros (b & Hb & Hf). exists (coveredFiles b). split; [by apply list_elem_of_fmap_2|done].
Qed.

Lemma anyIn_false files set : anyIn files set = false <-> forall f, f ∈ files -> f ∉ set.
Proof.
  unfold anyIn. rewrite <- not_true_iff_false, existsb_exists. split.
  - intros H f Hf Hs. apply H. exists f. split; [by apply list_elem_of_In|]. by apply bool_decide_eq_true.
  - intros H (f & Hf & Hs%bool_decide_eq_true). apply list_elem_of_In in Hf. by apply (H f).
Qed.

Lemma carriable_true fresh b : carriable fresh b = true <-> Files b <> [] /\ forall f, f ∈ Files b -> f ∉ fresh.
Proof.
  unfold carriable. rewrite negb_true_iff, orb_false_iff, bool_decide_eq_false, anyIn_false. done.
Qed.

Lemma elem_of_kept fresh bins b : b ∈ kept_bins fresh bins <-> b ∈ bins /\ carriable fresh b = true /\ Outcome b = StatusOK.
Proof. unfold kept_bins. rewrite list_elem_of_filter, andb_true_iff, String.eqb_eq. tauto. Qed.

Lemma elem_of_deferred fresh bins b :
  b ∈ deferred_bins fresh bins <-> b ∈ bins /\ carriable fresh b = true /\ Outcome b = chunkOutcomeDeferred.
Proof. unfold deferred_bins. rewrite list_elem_of_filter, andb_true_iff, String.eqb_eq. tauto. Qed.

Lemma elem_of_renumber bins b : b ∈ renumber bins <-> exists k b0, bins !! k = Some b0 /\ b = set_Index (Z.of_nat k) b0.
Proof.
  unfold renumber. rewrite list_elem_of_lookup. split.
  - intros (k & Hk). rewrite list_lookup_imap, fmap_Some in Hk. destruct Hk as (b0 & Hb & ->). by exists k, b0.
  - intros (k & b0 & Hk & ->). exists k. by rewrite list_lookup_imap, Hk.
Qed.

(** The bins a persona's record has after the two passes. *)
Definition union_bins (pr : chunkRecord) (planned : list chunkRecordBin) : list chunkRecordBin :=
  let bins := inherit_bin pr <$> planned in
  let fresh := files_of bins in
  if bool_decide (kept_bins fresh (Bins pr) = []) then bins
  else renumber ((kept_bins fresh (Bins pr) ++ bins) ++ deferred_bins fresh (Bins pr)).
Definition union_offset (pr : chunkRecord) (planned : list chunkRecordBin) : nat :=
  length (kept_bins (files_of (inherit_bin pr <$> planned)) (Bins pr)).

Definition resume_plan (prior : gmap string chunkRecord) (p : plan) : plan := carryReviewed prior (inheritAttempts prior p).

Lemma inheritAttempts_order prior p : order (inheritAttempts prior p) = order p.
Proof.
  unfold inheritAttempts. apply (foldl_preserves (fun q => order q = order p)); [done|]. intros q d _ <-. unfold inherit_dir.
  by destruct (prior !! d), (records q !! d).
Qed.

Lemma resume_plan_at prior p dir pr rec : NoDup (order p) -> dir ∈ order p -> prior !! dir = Some pr ->
  records p !! dir = Some rec ->
  records (resume_plan prior p) !! dir = Some (set_Bins (union_bins pr (Bins rec)) rec) /\
  (forall i k, bySlot p !! i = Some (dir, k) -> bySlot (resume_plan prior p) !! i = Some (dir, (k + union_offset pr (Bins rec))%nat)).
Proof.
  intros Hnd Hin Hpr Hrec. unfold resume_plan, carryReviewed. rewrite inheritAttempts_order.
  pose proof (fold_at dir (inherit_dir prior) (order p) p (inherit_dir_ne prior dir) (inherit_dir_at prior dir) Hnd) as [Ir Is _ _].
  rewrite bool_decide_eq_true_2 in Ir, Is by done. fold (inheritAttempts prior p) in Ir, Is.
  assert (records (inheritAttempts prior p) !! dir = Some (set_Bins (inherit_bin pr <$> Bins rec) rec)) as Er.
  { rewrite Ir. unfold inherit_dir. rewrite Hpr, Hrec. cbn. by rewrite lookup_insert_eq. }
  assert (forall i k, bySlot p !! i = Some (dir, k) -> bySlot (inheritAttempts prior p) !! i = Some (dir, k)) as Es.
  { intros i k Hk. apply Is. unfold inherit_dir. by rewrite Hpr, Hrec. }
  set (q := inheritAttempts prior p) in *. clearbody q.
  pose proof (fold_at dir (carry_dir prior) (order p) q (carry_dir_ne prior dir) (carry_dir_at prior dir) Hnd) as [Cr Cs _ _].
  rewrite bool_decide_eq_true_2 in Cr, Cs by done. unfold union_bins, union_offset. split.
  - rewrite Cr. unfold carry_dir. rewrite Hpr, Er. cbn [Bins set_Bins]. case_bool_decide; [done|]. cbn. by rewrite lookup_insert_eq.
  - intros i k Hk. apply Cs. unfold carry_dir. rewrite Hpr, Er. cbn [Bins set_Bins]. case_bool_decide as Ek.
    + rewrite Ek. cbn. rewrite Nat.add_0_r. by apply Es.
    + apply shift_lookup_eq. exists k. split; [by apply Es|done].
Qed.

(** ** The attempts a re-leased bin inherits *)

Lemma file_attempts_spec pr b0 f : NoDup (mjoin (Files <$> Bins pr)) -> b0 ∈ Bins pr -> open_bin b0 = true -> f ∈ Files b0 ->
  file_attempts pr f = Z.max 0 (Attempts b0).
Proof.
  intros Hnd Hin Ho Hf. apply list_elem_of_split in Hin as (pre & post & E).
  destruct (mjoin_NoDup_split Files (Bins pr) Hnd pre b0 post E) as [_ Hd]. specialize (Hd f Hf).
  assert (forall l n, (forall b, b ∈ l -> f ∉ Files b) ->
    foldl (fun n b => if negb (open_bin b) || (Attempts b =? 0) then n
                      else if bool_decide (f ∈ Files b) then go_max n (Attempts b) else n) n l = n) as Hno.
  { induction l as [|b l IH]; intros n Hl; [done|]. cbn [foldl]. rewrite bool_decide_eq_false_2 by (apply Hl; left).
    destruct (_ || _); apply IH; intros b' Hb'; apply Hl; by right. }
  unfold file_attempts. rewrite E, foldl_app. cbn [foldl]. rewrite (Hno pre) by (intros b Hb; apply Hd, elem_of_app; by left).
  rewrite Hno by (intros b Hb; apply Hd, elem_of_app; by right). rewrite Ho, bool_decide_eq_true_2 by done. cbn [negb orb].
  destruct (Attempts b0 =? 0) eqn:Ea; bool_prop; [lia|]. by rewrite go_max_eq.
Qed.

Lemma inherit_attempts pr b0 b : NoDup (mjoin (Files <$> Bins pr)) -> b0 ∈ Bins pr -> open_bin b0 = true ->
  Files b <> [] -> Files b ⊆ Files b0 -> Attempts b = 0 -> Attempts (inherit_bin pr b) = Z.max 0 (Attempts b0).
Proof.
  intros Hnd Hin Ho Hne Hsub Ha. unfold inherit_bin. cbn [Attempts set_Attempts]. rewrite Ha.
  assert (forall fs n, fs ⊆ Files b0 -> 0 <= n <= Z.max 0 (Attempts b0) -> fs <> [] \/ n = Z.max 0 (Attempts b0) ->
    foldl (fun n f => go_max n (file_attempts pr f)) n fs = Z.max 0 (Attempts b0)) as H; [|apply H; [done|lia|by left]].
  induction fs as [|f fs IH]; intros n Hs Hn Hc; [by destruct Hc|]. cbn [foldl].
  rewrite (file_attempts_spec pr b0 f Hnd Hin Ho) by (apply Hs; left). rewrite go_max_eq.
  apply IH; [intros g Hg; apply Hs; by right|lia|right; lia].
Qed.

(** The unit of one re-packed bin of a resume (review.go [renderBin]). *)
Definition bin_slot (name : string) (total windowBudget : Z) (ck : list FileEntry) : Slot :=
  mkSlot name (Path <$> ck) total ck [] true
    match ck with [e] => windowBudget <? Size e | _ => false end.

Lemma elem_of_open_sets pr fs : fs ∈ open_sets pr <-> exists b, b ∈ Bins pr /\ open_bin b = true /\ fs = Files b.
Proof.
  unfold open_sets. rewrite list_elem_of_fmap. split.
  - intros (b & -> & [Ho Hb]%list_elem_of_filter). by exists b.
  - intros (b & Hb & Ho & ->). exists b. split; [done|]. by apply list_elem_of_filter.
Qed.

Lemma bins_for_imap slots : Forall (fun s => deferredBins s = []) slots -> bins_for slots = imap planned_bin slots.
Proof.
  induction slots as [|s slots IH] using rev_ind; [done|]. intros [Hs Hd]%Forall_app. inversion_clear Hd as [|? ? E _].
  rewrite bins_for_snoc, IH by done. unfold bins_step. rewrite E. cbn. rewrite length_imap, imap_app. cbn. by rewrite Nat.add_0_r.
Qed.

(** ** One persona's resume *)

Section persona.
Context (entries : list FileEntry) (pr : chunkRecord) (budget : Z) (chunks : list (list FileEntry)).
Context (name : string) (window : Z).
Hypothesis Hpaths : NoDup (Path <$> entries).
Hypothesis Hprior : NoDup (mjoin (Files <$> Bins pr)).
Hypothesis Hbudget : 0 < budget <= MaxInt64.
Hypothesis Hchunks : recordedChunks entries (open_sets pr) budget = Some chunks.

Definition slots_of_chunks : list Slot := bin_slot name (Z.of_nat (length chunks)) window <$> chunks.
Definition planned_bins : list chunkRecordBin := bins_for slots_of_chunks.
Definition dispatched : gset string := files_of (inherit_bin pr <$> planned_bins).

Lemma chunks_spec : mjoin chunks ≡ₚ filter (fun e => Path e ∈ mjoin (open_sets pr)) entries /\
  forall c, c ∈ chunks -> c <> [] /\ exists b, b ∈ Bins pr /\ open_bin b = true /\ (Path <$> c) ⊆ Files b.
Proof.
  pose proof (recordedChunks_spec entries (open_sets pr) budget (proj2 Hbudget) Hpaths) as H. rewrite Hchunks in H.
  destruct H as [Hp Hc]. split; [done|]. intros c Hin. destruct (Hc c Hin) as (Hne & _ & i & files & Hi & He). split; [done|].
  apply list_elem_of_lookup_2, elem_of_open_sets in Hi as (b & Hb & Ho & ->). exists b. split; [done|]. split; [done|].
  intros f (e & -> & Hec)%list_elem_of_fmap. by apply He.
Qed.

Lemma planned_eq : planned_bins = imap planned_bin slots_of_chunks.
Proof. apply bins_for_imap. unfold slots_of_chunks. apply Forall_fmap, Forall_forall. done. Qed.

Lemma planned_Files : Files <$> planned_bins = (fun c : list FileEntry => Path <$> c) <$> chunks.
Proof.
  rewrite planned_eq, fmap_imap. unfold slots_of_chunks. apply list_eq. intros i.
  rewrite list_lookup_imap, !list_lookup_fmap. by destruct (chunks !! i).
Qed.

Lemma inherited_Files : Files <$> (inherit_bin pr <$> planned_bins) = (fun c : list FileEntry => Path <$> c) <$> chunks.
Proof. rewrite <- planned_Files, <- list_fmap_compose. done. Qed.

Lemma mjoin_Files : mjoin (Files <$> (inherit_bin pr <$> planned_bins)) = Path <$> mjoin chunks.
Proof. rewrite inherited_Files. clear. induction chunks as [|c cs IH]; [done|]. rewrite fmap_cons. change (mjoin (c :: cs)) with (c ++ mjoin cs). by rewrite fmap_app, <- IH. Qed.

Lemma dispatched_NoDup : NoDup (mjoin (Files <$> (inherit_bin pr <$> planned_bins))).
Proof.
  rewrite mjoin_Files, (proj1 chunks_spec). clear -Hpaths. induction entries as [|e es IH]; [done|].
  rewrite fmap_cons in Hpaths. apply NoDup_cons in Hpaths as [He Hes]. rewrite filter_cons. case_decide; [|by apply IH].
  rewrite fmap_cons. apply NoDup_cons. split; [|by apply IH]. intros (e' & E & [_ He']%list_elem_of_filter)%list_elem_of_fmap.
  apply He. rewrite E. by apply list_elem_of_fmap_2.
Qed.

(** What is dispatched: the payload's files that an open bin names. *)
Lemma elem_of_dispatched f : f ∈ dispatched <->
  (exists e, e ∈ entries /\ Path e = f) /\ exists b, b ∈ Bins pr /\ open_bin b = true /\ f ∈ Files b.
Proof.
  unfold dispatched, files_of. rewrite elem_of_list_to_set, mjoin_Files, (proj1 chunks_spec), list_elem_of_fmap. split.
  - intros (e & -> & [Hin He]%list_elem_of_filter). split; [by exists e|].
    apply elem_of_mjoin in Hin as (fs & (b & Hb & Ho & ->)%elem_of_open_sets & Hf). by exists b.
  - intros [(e & He & <-) (b & Hb & Ho & Hf)]. exists e. split; [done|]. apply list_elem_of_filter. split; [|done].
    apply elem_of_mjoin. exists (Files b). split; [|done]. apply elem_of_open_sets. by exists b.
Qed.

(** A reviewed bin shares no file with what is dispatched, so it is carried. *)
Lemma reviewed_is_kept b : b ∈ Bins pr -> open_bin b = false -> Files b <> [] -> b ∈ kept_bins dispatched (Bins pr).
Proof.
  intros Hb Ho Hne. apply elem_of_kept. split; [done|]. split.
  - apply carriable_true. split; [done|]. intros f Hf (_ & b' & Hb' & Ho' & Hf')%elem_of_dispatched.
    assert (b = b') as -> by (by eapply (mjoin_NoDup_inj Files)). congruence.
  - unfold open_bin in Ho. apply orb_false_iff in Ho as [Ho _]. apply negb_false_iff in Ho. unfold reviewed in Ho.
    bool_prop. by apply String.eqb_eq.
Qed.

Lemma inherited_bin b : b ∈ inherit_bin pr <$> planned_bins -> reviewed b = false /\ Outcome b = chunkOutcomePending.
Proof.
  rewrite planned_eq. intros (b0 & -> & (k & Hk)%list_elem_of_lookup)%list_elem_of_fmap.
  rewrite list_lookup_imap, fmap_Some in Hk. by destruct Hk as (s & _ & ->).
Qed.

Lemma fresh_slot k c : chunks !! k = Some c -> exists b, (inherit_bin pr <$> planned_bins) !! k = Some b /\
  Files b = Path <$> c /\ Outcome b = chunkOutcomePending /\
  exists b0, b0 ∈ Bins pr /\ open_bin b0 = true /\ Files b ⊆ Files b0 /\ Attempts b = Z.max 0 (Attempts b0).
Proof.
  intros Hk. rewrite list_lookup_fmap, planned_eq, list_lookup_imap. unfold slots_of_chunks. rewrite list_lookup_fmap, Hk. cbn [fmap option_fmap option_map].
  eexists. split; [done|]. split; [done|]. split; [done|].
  destruct (proj2 chunks_spec c) as (Hne & b0 & Hb & Ho & Hsub); [by eapply list_elem_of_lookup_2|].
  exists b0. split; [done|]. split; [done|]. split; [done|]. apply inherit_attempts; try done. cbn. by destruct c.
Qed.

Definition bins_union : list chunkRecordBin := union_bins pr planned_bins.

Lemma union_fresh k b : (inherit_bin pr <$> planned_bins) !! k = Some b ->
  exists i, bins_union !! (k + union_offset pr planned_bins)%nat = Some (set_Index i b).
Proof.
  intros Hk. unfold bins_union, union_bins, union_offset. fold dispatched. case_bool_decide as E.
  - rewrite E. cbn. rewrite Nat.add_0_r, Hk. exists (Index b). by destruct b.
  - exists (Z.of_nat (k + length (kept_bins dispatched (Bins pr)))). unfold renumber. rewrite list_lookup_imap.
    rewrite (lookup_app_l_Some _ _ _ b); [done|]. rewrite lookup_app_r by lia. by rewrite Nat.add_sub.
Qed.

Lemma elem_of_union b : b ∈ bins_union -> exists i b0, b = set_Index i b0 /\
  (b0 ∈ kept_bins dispatched (Bins pr) \/ b0 ∈ inherit_bin pr <$> planned_bins \/ b0 ∈ deferred_bins dispatched (Bins pr)).
Proof.
  unfold bins_union, union_bins. fold dispatched. case_bool_decide.
  - intros Hb. exists (Index b), b. split; [by destruct b|]. by right; left.
  - intros (k & b0 & Hk & ->)%elem_of_renumber. eexists _, b0. split; [done|]. apply list_elem_of_lookup_2 in Hk.
    apply elem_of_app in Hk as [[?|?]%elem_of_app|?]; auto.
Qed.

Lemma union_Files : mjoin (Files <$> bins_union) =
  if bool_decide (kept_bins dispatched (Bins pr) = []) then mjoin (Files <$> (inherit_bin pr <$> planned_bins))
  else mjoin (Files <$> kept_bins dispatched (Bins pr)) ++ mjoin (Files <$> (inherit_bin pr <$> planned_bins)) ++
       mjoin (Files <$> deferred_bins dispatched (Bins pr)).
Proof.
  unfold bins_union, union_bins. fold dispatched. case_bool_decide; [done|]. rewrite renumber_fmap by done.
  by rewrite !fmap_app, !mjoin_app, app_assoc.
Qed.

Lemma in_mjoin_Files f bins : f ∈ mjoin (Files <$> bins) <-> exists b, b ∈ bins /\ f ∈ Files b.
Proof. rewrite <- elem_of_bin_files. unfold files_of. by rewrite elem_of_list_to_set. Qed.

Lemma union_NoDup : NoDup (mjoin (Files <$> bins_union)).
Proof.
  rewrite union_Files. case_bool_decide as Ek; [apply dispatched_NoDup|].
  assert (forall f b, b ∈ inherit_bin pr <$> planned_bins -> f ∈ Files b -> f ∈ dispatched) as Hfresh.
  { intros f b Hb Hf. apply elem_of_bin_files. by exists b. }
  apply NoDup_app. split; [by apply mjoin_NoDup_filter|]. split.
  - intros f (b & (Hb & Hc & Ho)%elem_of_kept & Hf)%in_mjoin_Files. apply carriable_true in Hc as [_ Hc].
    intros [(b' & Hb' & Hf')%in_mjoin_Files|(b' & (Hb' & _ & Ho')%elem_of_deferred & Hf')%in_mjoin_Files]%elem_of_app.
    + by apply (Hc f Hf), (Hfresh f b').
    + assert (b = b') as -> by (by eapply (mjoin_NoDup_inj Files)). by rewrite Ho in Ho'.
  - apply NoDup_app. split; [apply dispatched_NoDup|]. split; [|by apply mjoin_NoDup_filter].
    intros f (b & Hb & Hf)%in_mjoin_Files (b' & (_ & Hc & _)%elem_of_deferred & Hf')%in_mjoin_Files.
    apply carriable_true in Hc as [_ Hc]. by apply (Hc f Hf'), (Hfresh f b).
Qed.

Lemma union_numbered : numbered bins_union.
Proof.
  unfold bins_union, union_bins. case_bool_decide; [|apply renumber_numbered].
  pose proof (bins_for_numbered slots_of_chunks) as H0. unfold numbered in *. rewrite <- list_fmap_compose, length_fmap. exact H0.
Qed.

(** A reviewed bin survives, and an open bin's files that are still in the payload are
    dispatched again. *)
Lemma union_kept b : b ∈ Bins pr -> open_bin b = false -> Files b <> [] -> exists i, set_Index i b ∈ bins_union.
Proof.
  intros Hb Ho Hne. pose proof (reviewed_is_kept b Hb Ho Hne) as Hk. unfold bins_union, union_bins. fold dispatched.
  rewrite bool_decide_eq_false_2 by (intros E; rewrite E in Hk; by apply elem_of_nil in Hk).
  apply list_elem_of_lookup in Hk as [k Hk]. exists (Z.of_nat k). apply elem_of_renumber. exists k, b. split; [|done].
  by apply lookup_app_l_Some, lookup_app_l_Some.
Qed.

Lemma union_has_dispatched f : f ∈ dispatched -> f ∈ files_of bins_union.
Proof.
  intros (b & (k & Hk)%list_elem_of_lookup & Hf)%elem_of_bin_files. destruct (union_fresh k b Hk) as [i Hi].
  apply elem_of_bin_files. exists (set_Index i b). split; [by eapply list_elem_of_lookup_2|done].
Qed.

Lemma union_covers_payload e : e ∈ entries -> Path e ∈ files_of (Bins pr) -> Path e ∈ files_of bins_union.
Proof.
  intros He (b & Hb & Hf)%elem_of_bin_files. destruct (open_bin b) eqn:Ho.
  - apply union_has_dispatched, elem_of_dispatched. split; [by exists e|by exists b].
  - destruct (union_kept b Hb Ho) as [i Hi]; [by destruct (Files b); [apply elem_of_nil in Hf|]|].
    apply elem_of_bin_files. by exists (set_Index i b).
Qed.

Lemma union_covered : covered_of bins_union ⊆ covered_of (Bins pr).
Proof.
  intros f (b & Hb & Hf)%elem_of_covered_of. apply elem_of_union in Hb as (i & b0 & -> & Hb0).
  change (coveredFiles (set_Index i b0)) with (coveredFiles b0) in Hf. apply elem_of_covered_of. exists b0. split; [|done].
  destruct Hb0 as [H|[H|H]].
  - by apply elem_of_kept in H as [? _].
  - apply inherited_bin in H as [H _]. unfold coveredFiles in Hf. rewrite H in Hf. by apply elem_of_nil in Hf.
  - by apply elem_of_deferred in H as [? _].
Qed.
End persona.

(** C29. What a resume starts from: when the prior record named every file once, so does the
    union record, with bins numbered in order; every reviewed bin is in it unchanged but for
    its index, every file of the record that the payload still carries is in it, nothing
    counts as covered that was not covered before, and every slot of the persona refers to
    a pending bin of exactly its files, which come from one open prior bin whose attempts it
    inherits. *)
Theorem resume_union (entries : list FileEntry) (pr : chunkRecord) (budget window : Z) (chunks : list (list FileEntry))
    (name dir : string) (slots : list Slot) (prior : gmap string chunkRecord) (p : plan)
    (Hpaths : NoDup (Path <$> entries)) (Hprior : NoDup (mjoin (Files <$> Bins pr))) (Hbudget : 0 < budget <= MaxInt64)
    (Hchunks : recordedChunks entries (open_sets pr) budget = Some chunks) (Hne : chunks <> [])
    (Hslots : own dir slots = bin_slot name (Z.of_nat (length chunks)) window <$> chunks)
    (Hpr : prior !! dir = Some pr) (Hplan : newChunkLedger slots = Some p) :
  exists rec, records (resume_plan prior p) !! dir = Some rec /\
    NoDup (mjoin (Files <$> Bins rec)) /\ Index <$> Bins rec = Z.of_nat <$> seq 0 (length (Bins rec)) /\
    (forall b, b ∈ Bins pr -> open_bin b = false -> Files b <> [] -> exists i, set_Index i b ∈ Bins rec) /\
    (forall e, e ∈ entries -> Path e ∈ files_of (Bins pr) -> Path e ∈ files_of (Bins rec)) /\
    covered_of (Bins rec) ⊆ covered_of (Bins pr) /\
    (forall i s, slots !! i = Some s -> slot_dir s = Some dir -> exists k b b0,
       bySlot (resume_plan prior p) !! i = Some (dir, k) /\ Bins rec !! k = Some b /\ Files b = chunkFiles s /\
       Outcome b = chunkOutcomePending /\ b0 ∈ Bins pr /\ open_bin b0 = true /\ Files b ⊆ Files b0 /\
       Attempts b = Z.max 0 (Attempts b0)).
Proof.
  unfold newChunkLedger in Hplan. pose proof (plan_planned slots) as Hpl. set (q := foldl _ _ _) in *. clearbody q.
  case_bool_decide; [done|]. injection Hplan as ->. destruct Hpl as [Hr Hs [Hnd Ho] _].
  assert (exists n, records p !! dir = Some (mkRecord chunksSchemaVersion n (planned_bins chunks name window))) as [n Hrec].
  { rewrite Hr, Hslots. destruct chunks as [|c cs]; [done|]. by eexists. }
  destruct (resume_plan_at prior p dir pr _ Hnd ltac:(apply Ho; by eexists) Hpr Hrec) as [Er Es]. cbn [Bins] in Er, Es.
  eexists. split; [exact Er|]. cbn [set_Bins Bins]. fold (bins_union pr chunks name window).
  split; [by eapply union_NoDup|]. split; [by apply union_numbered|]. split; [intros b; by eapply union_kept|].
  split; [intros e; by eapply union_covers_payload|]. split; [by apply union_covered|].
  intros i s Hi Hd. assert (own dir slots = own dir (take i slots) ++ s :: own dir (drop (S i) slots)) as Hown.
  { rewrite <- (take_drop_middle slots i s Hi) at 1. unfold own. by rewrite filter_app, filter_cons_True. }
  set (k := length (own dir (take i slots))).
  assert (exists c, chunks !! k = Some c /\ s = bin_slot name (Z.of_nat (length chunks)) window c) as (c & Hc & ->).
  { assert (own dir slots !! k = Some s) as Hk by (rewrite Hown; by apply list_lookup_middle).
    rewrite Hslots, list_lookup_fmap, fmap_Some in Hk. naive_solver. }
  destruct (fresh_slot entries pr budget chunks name window Hpaths Hprior Hbudget Hchunks k c Hc)
    as (b & Hb & Hf & Hout & b0 & Hb0 & Hop & Hsub & Hat).
  destruct (union_fresh pr chunks name window k b Hb) as [j Hj].
  exists (k + union_offset pr (planned_bins chunks name window))%nat, (set_Index j b), b0.
  split; [|split; [exact Hj|done]]. apply Es. rewrite Hs, Hi. cbn. rewrite Hd. cbn. do 2 f_equal.
  rewrite bins_for_imap, length_imap; [done|].
  assert (Forall (fun s => deferredBins s = []) (own dir slots)) as Hall by (rewrite Hslots; by apply Forall_fmap, Forall_forall).
  rewrite Hown in Hall. by apply Forall_app in Hall as [? _].
Qed.

(** ** The readers of coverage agree *)

Section agree.
Context {Rec : Type}.
Implicit Types (r : Result Rec) (slots : list Slot) (results : list (Result Rec)).

(** The bins the completion hook leaves for a run's slots. *)
Definition run_bins slots results : list chunkRecordBin :=
  zip_with (fun s r => complete_bin true r (planned_bin 0 s)) slots results.
(** A server that did not re-pack carries its slot's files, or no tag at all. *)
Definition tagged (s : Slot) r : Prop := servedRePacked r = false -> default (chunkFiles s) (servedChunkFiles r) = chunkFiles s.

Lemma covered_complete s r n l : tagged s r ->
  coveredFiles (complete_bin l r (planned_bin n s)) = if succeeded r then servedCoverage s r else [].
Proof.
  intros Ht. unfold coveredFiles, reviewed, succeeded, servedCoverage. cbn.
  destruct (Status r =? StatusOK)%string; cbn; [|done]. destruct (contributedNothing r); cbn; [done|].
  unfold tagged in Ht. destruct (servedRePacked r); [by destruct (servedChunkFiles r)|]. specialize (Ht eq_refl).
  by destruct (servedChunkFiles r).
Qed.

Lemma covered_run_bins slots results :
  (forall i s r, slots !! i = Some s -> results !! i = Some r -> tagged s r) ->
  coveredFiles <$> run_bins slots results = zip_with (fun s r => if succeeded r then servedCoverage s r else []) slots results.
Proof.
  unfold run_bins. revert results. induction slots as [|s slots IH]; intros [|r results] Ht; try done. cbn. f_equal.
  - apply covered_complete. by apply (Ht O).
  - apply IH. intros i. apply (Ht (S i)).
Qed.

Lemma all_ok_true slots results : all_ok slots results = true -> length results = length slots /\
  (forall s, s ∈ slots -> deferredBins s = []) /\
  (forall r, r ∈ results -> succeeded r = true /\ servedRePacked r = false).
Proof.
  unfold all_ok. rewrite !andb_true_iff, bool_decide_eq_true, !forallb_forall. intros [[Hl Hd] Hr]. split; [done|]. split.
  - intros s Hs. specialize (Hd s (proj1 (list_elem_of_In _ _) Hs)). by apply bool_decide_eq_true in Hd.
  - intros r Hin. specialize (Hr r (proj1 (list_elem_of_In _ _) Hin)). unfold succeeded.
    destruct (Status r =? StatusOK)%string, (servedRePacked r), (contributedNothing r); done.
Qed.

(** The names of the payload's files, by slot. *)
Definition slot_files slots : gset string := list_to_set (mjoin (planned_files <$> slots)).

Lemma all_ok_served slots results f : all_ok slots results = true ->
  (forall i s r, slots !! i = Some s -> results !! i = Some r -> tagged s r) ->
  f ∈ slot_files slots -> f ∈ served_by slots results.
Proof.
  intros (Hl & Hd & Hr)%all_ok_true Ht Hf. unfold slot_files, served_by in *. rewrite elem_of_list_to_set, elem_of_mjoin in *.
  destruct Hf as (fs & (s & -> & Hs)%list_elem_of_fmap & Hf). pose proof (Hd s Hs) as Hds.
  apply list_elem_of_lookup in Hs as [i Hi]. assert (i < length results)%nat as Hlt by (rewrite Hl; by apply lookup_lt_Some in Hi).
  apply lookup_lt_is_Some in Hlt as [r Hri]. destruct (Hr r ltac:(by eapply list_elem_of_lookup_2)) as [Hsu Hrp].
  exists (servedCoverage s r). split.
  - apply list_elem_of_lookup. exists i. rewrite lookup_zip_with, Hi, Hri. cbn. by rewrite Hsu.
  - unfold planned_files in Hf. rewrite Hds in Hf. cbn in Hf. rewrite app_nil_r in Hf.
    specialize (Ht i s r Hi Hri Hrp). unfold servedCoverage. rewrite Hrp. destruct (servedChunkFiles r); cbn in Ht; by rewrite ?Ht.
Qed.


(** The bins of one persona. *)
Definition persona_bins slots results (name : string) : list chunkRecordBin :=
  (fun sr => complete_bin true sr.2 (planned_bin 0 sr.1)) <$> filter (fun sr => Name sr.1 = name) (zip slots results).

Lemma persona_reviewed slots results name f :
  (forall i s r, slots !! i = Some s -> results !! i = Some r -> tagged s r) ->
  f ∈ mjoin (zip_with (fun s r => if bool_decide (Name s = name) && succeeded r then servedCoverage s r else []) slots results) <->
  f ∈ covered_of (persona_bins slots results name).
Proof.
  intros Ht. rewrite elem_of_covered_of, elem_of_mjoin. unfold persona_bins. split.
  - intros (fs & (i & Hi)%list_elem_of_lookup & Hf). rewrite lookup_zip_with in Hi.
    destruct (slots !! i) as [s|] eqn:Es; [|done]. destruct (results !! i) as [r|] eqn:Er; [|done]. cbn in Hi. injection Hi as <-.
    destruct (bool_decide (Name s = name)) eqn:En; [|by apply elem_of_nil in Hf]. bool_prop. cbn [andb] in Hf.
    exists (complete_bin true r (planned_bin 0 s)). split; [|by rewrite covered_complete by (by eapply Ht)].
    apply list_elem_of_fmap. exists (s, r). split; [done|]. apply list_elem_of_filter. split; [done|].
    apply list_elem_of_lookup. exists i. by rewrite lookup_zip_with, Es, Er.
  - intros (b & ([s r] & -> & [Hn (i & Hi)%list_elem_of_lookup]%list_elem_of_filter)%list_elem_of_fmap & Hf). cbn in Hn, Hf.
    rewrite lookup_zip_with in Hi. destruct (slots !! i) as [s'|] eqn:Es; [|done]. destruct (results !! i) as [r'|] eqn:Er; [|done].
    cbn in Hi. injection Hi as -> ->. rewrite covered_complete in Hf by (by eapply Ht).
    exists (if bool_decide (Name s = name) && succeeded r then servedCoverage s r else []). split.
    + apply list_elem_of_lookup. exists i. by rewrite lookup_zip_with, Es, Er.
    + by rewrite bool_decide_eq_true_2.
Qed.
End agree.

(** The three readers of coverage tell the same story. The files a baseline run leaves out
    of the index are exactly those no bin of its chunk records covers, on the short cut for
    an all-ok run as well as on the attribution of each slot, whatever the number of
    results; a persona's gap in its status counts exactly its planned files that no bin of
    its own record covers, and it has no gap exactly when they are all covered. *)
Theorem coverage_agrees {Rec : Type} (slots : list Slot) (results : list (Result Rec)) (reviewed : gmap string string)
    (Htag : forall i s r, slots !! i = Some s -> results !! i = Some r -> tagged s r)
    (Hpayload : dom reviewed ⊆ slot_files slots) :
  uncoveredBaselineFiles slots results reviewed = dom reviewed ∖ covered_of (run_bins slots results) /\
  forall name,
    let planned := slot_files (filter (fun s => Name s = name) slots) in
    let covered := covered_of (persona_bins slots results name) in
    gap_unreviewed (persona_gap slots results name) = Z.of_nat (size (planned ∖ covered)) /\
    (unreviewedFileCounts slots results name = None <-> planned ⊆ covered).
Proof.
  assert (served_by slots results = covered_of (run_bins slots results)) as Hserved.
  { unfold served_by, covered_of. by rewrite covered_run_bins. }
  split.
  - unfold uncoveredBaselineFiles. case_bool_decide as E; [subst; rewrite dom_empty_L; set_solver|].
    case_bool_decide as E'; [subst; unfold run_bins; destruct slots; set_solver|].
    destruct (all_ok slots results) eqn:Eo; [|by rewrite Hserved]. apply set_eq. intros f.
    rewrite elem_of_difference, elem_of_empty. split; [done|]. intros [Hf Hn]. apply Hn. rewrite <- Hserved.
    apply (all_ok_served _ _ _ Eo Htag). by apply Hpayload.
  - intros name planned covered. assert (gap_unreviewed (persona_gap slots results name) = Z.of_nat (size (planned ∖ covered))) as Hg.
    { unfold persona_gap. cbn [gap_unreviewed]. do 2 f_equal. fold (slot_files (filter (fun s => Name s = name) slots)).
      fold planned. f_equal. apply set_eq. intros f. rewrite elem_of_list_to_set. by apply persona_reviewed. }
    split; [done|]. unfold unreviewedFileCounts. rewrite Hg. destruct (_ =? 0) eqn:Ez; bool_prop.
    + assert (size (planned ∖ covered) = O) as Hs by lia. apply size_empty_inv in Hs. split; [|done]. intros _. set_solver.
    + split; [done|]. intros Hsub. assert (planned ∖ covered = ∅) as E by set_solver. rewrite E, size_empty in Ez. done.
Qed.

(** ** Examples and witnesses *)

Definition done_bin (i : Z) (files : list string) : chunkRecordBin := mkRecordBin i files StatusOK false false [] 1 ∅ false.
Definition failed_bin (i attempts : Z) (files : list string) : chunkRecordBin :=
  mkRecordBin i files StatusFailed false false [] attempts ∅ false.
Definition deferred_bin (i : Z) (files : list string) : chunkRecordBin :=
  mkRecordBin i files chunkOutcomeDeferred false false [] 0 ∅ false.

Definition sample_prior : chunkRecord :=
  mkRecord 1 "greta" [done_bin 0 ["a.go"]; failed_bin 1 2 ["c.go"; "d.go"]; deferred_bin 2 ["gone.go"]].
Definition sample_chunks : list (list FileEntry) := [[file "c.go" 4]; [file "d.go" 2]].
Definition sample_slots : list Slot := bin_slot "greta" 2 100 <$> sample_chunks.
Definition sample_prior_map : gmap string chunkRecord := {["greta" := sample_prior]}.

Example resume_union_sample :
  (fun p => (fun b => (Index b, Files b, Outcome b, Attempts b)) <$> default [] (Bins <$> records (resume_plan sample_prior_map p) !! "greta"))
    <$> newChunkLedger sample_slots =
  Some [(0, ["a.go"], "ok", 1); (1, ["c.go"], "pending", 2); (2, ["d.go"], "pending", 2); (3, ["gone.go"], "deferred", 0)].
Proof. by vm_compute. Qed.

Lemma resume_union_witness :
  exists p rec, newChunkLedger sample_slots = Some p /\
    records (resume_plan sample_prior_map p) !! "greta" = Some rec /\ NoDup (mjoin (Files <$> Bins rec)).
Proof.
  destruct (newChunkLedger sample_slots) as [p|] eqn:E; [|vm_compute in E; discriminate].
  destruct (resume_union sample_entries sample_prior 4 100 sample_chunks "greta" "greta" sample_slots sample_prior_map p)
    as (rec & Hr & Hn & _).
  - apply (bool_decide_eq_true_1 _). by vm_compute.
  - apply (bool_decide_eq_true_1 _). by vm_compute.
  - split; apply (bool_decide_eq_true_1 _); by vm_compute.
  - by vm_compute.
  - done.
  - by vm_compute.
  - by vm_compute.
  - exact E.
  - exists p, rec. split; [reflexivity|]. split; [exact Hr|exact Hn].
Defined.

Lemma coverage_agrees_witness :
  uncoveredBaselineFiles sample_slots [clean_chunk; timed_out] {["c.go" := "h"; "d.go" := "h"]} =
    {["c.go"; "d.go"]} ∖ covered_of (run_bins sample_slots [clean_chunk; timed_out]).
Proof.
  destruct (coverage_agrees sample_slots [clean_chunk; timed_out] {["c.go" := "h"; "d.go" := "h"]}) as [-> _].
  - intros i s r Hs Hr _. destruct i as [|[|i]]; cbn in Hs, Hr; [| |done]; by injection Hr as <-.
  - apply (bool_decide_eq_true_1 _). by vm_compute.
  - reflexivity.
Defined.

(** A resume that is killed after a bin was recorded ok leaves that bin reviewed, while the
    findings file beside the record is still the one of the run before it: the next resume
    trusts the record, does not dispatch the bin and carries it, and its findings are
    nowhere. The guard on a missing findings file covers the first interruption only. *)
Definition after_kill (p : plan) : option chunkRecord :=
  (fun rec => set_Bins (alter (complete_bin true clean_chunk) 1%nat (Bins rec)) rec) <$> records p !! "greta".

Example killed_resume_loses_a_bin :
  let next := p ← newChunkLedger sample_slots; rec ← after_kill (resume_plan sample_prior_map p); trustedChunkRecord (Some rec) true "greta" in
  open_sets <$> next = Some [["d.go"]; ["gone.go"]] /\
  (fun rec => elements (covered_of (Bins rec))) <$> next = Some ["c.go"; "a.go"].
Proof. by vm_compute. Qed.
