(* ===== verification/ChunkLedger.v ===== *)
(** * The work ledger of a run

    src/internal/fanout/chunkrecord.go [chunkLedger]: the hooks a run calls as its bins are
    leased, requeued and resolved, the coalescing writer of each persona's chunks.json, and
    (review.go) the per-persona tracker composed behind the completion hook. Every critical
    section under the ledger's mutex is one step; the file writes outside it, the per-file
    write mutex and the calls of any number of workers interleave arbitrarily. A write
    either replaces the file whole or fails and leaves it (src/internal/atomicfs). The plan
    and its bins are [ChunkRecord]'s. *)

From Stdlib Require Import Ascii String.
From stdpp Require Import prelude strings gmap fin_sets list.
From Stdlib Require Import ZArith Lia.
From S2P Require Import Prelude GoString GoStrconv Budget Partition ChunkMerge ChunkRecord.

Open Scope string_scope.
Open Scope list_scope.
Open Scope nat_scope.

(** ** The ledger's memory *)

Record chunkLedger := mkLedger {
  l_plan : plan;
  leased : gset nat;
  gen : gmap string nat;
  written : gmap string nat;
  failed : option string;
  writes : nat;
}.
Definition count_at (m : gmap string nat) (dir : string) : nat := default 0 (m !! dir).

Definition set_records (rs : gmap string chunkRecord) (p : plan) : plan :=
  mkPlan rs (bySlot p) (order p) (carried p) (carriedGaps p).
Definition update_bin (dir : string) (k : nat) (f : chunkRecordBin -> chunkRecordBin) (p : plan) : plan :=
  set_records (alter (fun rec => set_Bins (alter f k (Bins rec)) rec) dir (records p)) p.

(** [touch]: a mutation of a record, and the generation a write must capture. *)
Definition touch (dir : string) (l : chunkLedger) : chunkLedger :=
  mkLedger (l_plan l) (leased l) (<[dir := S (count_at (gen l) dir)]> (gen l)) (written l) (failed l) (writes l).

Definition slotStart (i : nat) (l : chunkLedger) : chunkLedger :=
  match bySlot (l_plan l) !! i with
  | None => l
  | Some _ => mkLedger (l_plan l) ({[i]} ∪ leased l) (gen l) (written l) (failed l) (writes l)
  end.

(** The critical section of [slotDone] and of [slotRequeue]: the bin restamped, its lease
    released. *)
Definition restamp (i : nat) (dir : string) (k : nat) (f : bool -> chunkRecordBin -> chunkRecordBin) (l : chunkLedger) : chunkLedger :=
  touch dir (mkLedger (update_bin dir k (f (bool_decide (i ∈ leased l))) (l_plan l)) (leased l ∖ {[i]}) (gen l) (written l)
               (failed l) (writes l)).

(** [retryable]: a recorded bin that is not over its reviewer's window. *)
Definition retryable (l : chunkLedger) (i : nat) : bool :=
  match bySlot (l_plan l) !! i with
  | None => false
  | Some (dir, k) =>
      match rec ← records (l_plan l) !! dir; Bins rec !! k with
      | Some b => negb (OverWindow b)
      | None => false
      end
  end.

(** [states]: every planned bin by its state, a leased one as leased; no entry is zero. *)
Definition add_count (key : string) (n : Z) (m : gmap string Z) : gmap string Z :=
  <[key := (default 0 (m !! key) + n)%Z]> m.
Definition all_bins (p : plan) : list chunkRecordBin := mjoin ((fun dir => default [] (Bins <$> records p !! dir)) <$> order p).
Definition lease_step (p : plan) (out : gmap string Z) (i : nat) : gmap string Z :=
  match '(dir, k) ← bySlot p !! i; rec ← records p !! dir; Bins rec !! k with
  | Some b => add_count chunkOutcomeLeased 1 (add_count (Outcome b) (-1) out)
  | None => out
  end.
Definition states (l : chunkLedger) : gmap string Z :=
  let out := foldl (fun out b => add_count (Outcome b) 1 out) ∅ (all_bins (l_plan l)) in
  filter (fun kn => kn.2 <> 0%Z) (foldl (lease_step (l_plan l)) out (elements (leased l))).

(** ** The per-persona tracker *)

Section tracker.
Context {Rec : Type}.

Record personaTracker := mkTracker {
  t_agent : list string;
  t_pending : gmap string nat;
  t_results : gmap nat (Result Rec);
}.
(** The indices of one persona's slots, in order. *)
Definition slots_of (t : personaTracker) (name : string) : list nat :=
  filter (fun i => t_agent t !! i = Some name) (seq 0 (length (t_agent t))).
Definition newPersonaTracker (slots : list Slot) : personaTracker :=
  mkTracker (Name <$> slots)
    (foldl (fun m s => <[Name s := S (count_at m (Name s))]> m) ∅ slots) ∅.

(** A slot's results are there once it is resolved. The answer is the call of [onDone]. *)
Definition event : Type := string * list nat * list (Result Rec).
Definition tracker_done (i : nat) (r : Result Rec) (t : personaTracker) : personaTracker * option event :=
  match t_agent t !! i with
  | None => (t, None)
  | Some name =>
      match t_results t !! i with
      | Some _ => (t, None)
      | None =>
          let pending := count_at (t_pending t) name - 1 in
          let t := mkTracker (t_agent t) (<[name := pending]> (t_pending t)) (<[i := r]> (t_results t)) in
          if 0 <? pending then (t, None)
          else (t, Some (name, slots_of t name, omap (fun j => t_results t !! j) (slots_of t name)))
      end
  end.
End tracker.
Arguments personaTracker : clear implicits.
Arguments event : clear implicits.

(** ** Concurrent calls *)

Section world.
Context {Rec : Type}.

(** A call of one of the hooks, and where it stands. What follows the flush of a
    completion is the tracker. *)
Inductive call :=
  | Plan (dir : string)
  | Start (i : nat)
  | Done (i : nat) (r : Result Rec)
  | Requeue (i : nat).
Definition after : Type := option (nat * Result Rec).
Inductive pc :=
  | Called (c : call)
  | Flush (dir : string) (want : nat) (k : after)
  | Locked (dir : string) (want : nat) (k : after)
  | Writing (dir : string) (want snap : nat) (data : chunkRecord) (k : after)
  | Wrote (dir : string) (want snap : nat) (ok : bool) (k : after)
  | Unlock (dir : string) (want : nat) (k : after)
  | Track (i : nat) (r : Result Rec)
  | Returned.

(** [w_hist] keeps, for the proofs, every version a record has had, [w_dgen] the version on
    disk, [w_done] the version and result of each completion. *)
Record world := mkWorld {
  w_led : chunkLedger;
  w_mu : gmap string nat;
  w_disk : gmap string chunkRecord;
  w_trk : personaTracker Rec;
  w_fired : list (event Rec);
  w_pcs : list pc;
  w_hist : gmap string (list chunkRecord);
  w_dgen : gmap string nat;
  w_done : gmap nat (nat * Result Rec);
}.

Definition goto (t : nat) (p : pc) (w : world) : world :=
  mkWorld (w_led w) (w_mu w) (w_disk w) (w_trk w) (w_fired w) (<[t := p]> (w_pcs w)) (w_hist w) (w_dgen w) (w_done w).
Definition set_led (l : chunkLedger) (w : world) : world :=
  mkWorld l (w_mu w) (w_disk w) (w_trk w) (w_fired w) (w_pcs w) (w_hist w) (w_dgen w) (w_done w).
Definition set_mu (m : gmap string nat) (w : world) : world :=
  mkWorld (w_led w) m (w_disk w) (w_trk w) (w_fired w) (w_pcs w) (w_hist w) (w_dgen w) (w_done w).
(** A new version of a record, after a mutation. *)
Definition push (dir : string) (l : chunkLedger) (w : world) : world :=
  mkWorld l (w_mu w) (w_disk w) (w_trk w) (w_fired w) (w_pcs w)
    (<[dir := default [] (w_hist w !! dir) ++ option_list (records (l_plan l) !! dir)]> (w_hist w))
    (w_dgen w) (w_done w).
Definition set_disk (dir : string) (data : chunkRecord) (snap : nat) (w : world) : world :=
  mkWorld (w_led w) (w_mu w) (<[dir := data]> (w_disk w)) (w_trk w) (w_fired w) (w_pcs w) (w_hist w)
    (<[dir := snap]> (w_dgen w)) (w_done w).
Definition note_done (i g : nat) (r : Result Rec) (w : world) : world :=
  mkWorld (w_led w) (w_mu w) (w_disk w) (w_trk w) (w_fired w) (w_pcs w) (w_hist w) (w_dgen w) (<[i := (g, r)]> (w_done w)).
Definition call_slot (c : call) : option nat :=
  match c with Plan _ => None | Start i | Done i _ | Requeue i => Some i end.
(** The engine calls the hooks of one slot one after the other, and none after its
    completion; a plan is written for a planned record. *)
Definition admissible (c : call) (w : world) : Prop :=
  match call_slot c with
  | None => forall dir, c = Plan dir -> is_Some (records (l_plan (w_led w)) !! dir)
  | Some i => w_done w !! i = None /\ forall c', Called c' ∈ w_pcs w -> call_slot c' <> Some i
  end.

Definition new_call (c : call) (w : world) : world :=
  mkWorld (w_led w) (w_mu w) (w_disk w) (w_trk w) (w_fired w) (w_pcs w ++ [Called c]) (w_hist w) (w_dgen w) (w_done w).
Definition then_pc (k : after) : pc := match k with None => Returned | Some (i, r) => Track i r end.
(** The end of [flush]: the generation of a write, even a failed one, is accounted for. *)
Definition account (dir : string) (snap : nat) (ok : bool) (l : chunkLedger) : chunkLedger :=
  mkLedger (l_plan l) (leased l) (gen l) (<[dir := snap]> (written l))
    (if ok then failed l else match failed l with None => Some dir | Some _ => failed l end) (S (writes l)).
Definition run_tracker (i : nat) (r : Result Rec) (w : world) : world :=
  let '(t, e) := tracker_done i r (w_trk w) in
  mkWorld (w_led w) (w_mu w) (w_disk w) t (w_fired w ++ option_list e) (w_pcs w) (w_hist w) (w_dgen w) (w_done w).

Notation ref i w := (bySlot (l_plan (w_led w)) !! i).
Notation at_pc t p w := (w_pcs w !! t = Some p).

Inductive step : world -> world -> Prop :=
  | step_call c w : admissible c w -> step w (new_call c w)
  | step_plan t dir w : at_pc t (Called (Plan dir)) w ->
      let l := touch dir (w_led w) in
      step w (goto t (Flush dir (count_at (gen l) dir) None) (push dir l w))
  | step_start t i w : at_pc t (Called (Start i)) w -> step w (goto t Returned (set_led (slotStart i (w_led w)) w))
  | step_done t i r dir k w : at_pc t (Called (Done i r)) w -> ref i w = Some (dir, k) ->
      let l := restamp i dir k (fun leased => complete_bin leased r) (w_led w) in
      let want := count_at (gen l) dir in
      step w (goto t (Flush dir want (Some (i, r))) (note_done i want r (push dir l w)))
  | step_done_bulk t i r w : at_pc t (Called (Done i r)) w -> ref i w = None ->
      step w (goto t (Track i r) (note_done i 0 r w))
  | step_requeue t i dir k w : at_pc t (Called (Requeue i)) w -> ref i w = Some (dir, k) ->
      let l := restamp i dir k requeue_bin (w_led w) in
      step w (goto t (Flush dir (count_at (gen l) dir) None) (push dir l w))
  | step_requeue_bulk t i w : at_pc t (Called (Requeue i)) w -> ref i w = None -> step w (goto t Returned w)
  | step_lock t dir want k w : at_pc t (Flush dir want k) w -> w_mu w !! dir = None ->
      step w (goto t (Locked dir want k) (set_mu (<[dir := t]> (w_mu w)) w))
  | step_covered t dir want k w : at_pc t (Locked dir want k) w -> want <= count_at (written (w_led w)) dir ->
      step w (goto t (Unlock dir want k) w)
  | step_snapshot t dir want k data w : at_pc t (Locked dir want k) w -> count_at (written (w_led w)) dir < want ->
      records (l_plan (w_led w)) !! dir = Some data ->
      step w (goto t (Writing dir want (count_at (gen (w_led w)) dir) data k) w)
  | step_write t dir want snap data k w : at_pc t (Writing dir want snap data k) w ->
      step w (goto t (Wrote dir want snap true k) (set_disk dir data snap w))
  | step_write_fails t dir want snap data k w : at_pc t (Writing dir want snap data k) w ->
      step w (goto t (Wrote dir want snap false k) w)
  | step_account t dir want snap ok k w : at_pc t (Wrote dir want snap ok k) w ->
      step w (goto t (Unlock dir want k) (set_led (account dir snap ok (w_led w)) w))
  | step_unlock t dir want k w : at_pc t (Unlock dir want k) w ->
      step w (goto t (then_pc k) (set_mu (delete dir (w_mu w)) w))
  | step_track t i r w : at_pc t (Track i r) w -> step w (goto t Returned (run_tracker i r w)).

(** The run of a plan: nothing called, the disk as the runs before it left it. *)
Definition start_ledger (p : plan) : chunkLedger := mkLedger p ∅ ∅ ∅ None 0.
Definition initial (p : plan) (slots : list Slot) (disk : gmap string chunkRecord) : world :=
  mkWorld (start_ledger p) ∅ disk (newPersonaTracker slots) [] [] ((fun rec => [rec]) <$> records p) ∅ ∅.
Definition reachable (p : plan) (slots : list Slot) (disk : gmap string chunkRecord) : world -> Prop :=
  rtc step (initial p slots disk).
End world.

(** ** The invariant *)

Section invariant.
Context {Rec : Type} (p : plan).
Implicit Types (w : world (Rec := Rec)) (l : chunkLedger).

(** Every slot refers to a bin of its own. *)
Record plan_ok : Prop := mkPlanOk {
  po_valid : forall i dir k, bySlot p !! i = Some (dir, k) -> exists rec b, records p !! dir = Some rec /\ Bins rec !! k = Some b;
  po_inj : forall i j dir k, bySlot p !! i = Some (dir, k) -> bySlot p !! j = Some (dir, k) -> i = j;
}.

(** What a run never changes of a record. *)
Definition bin_shape (b : chunkRecordBin) : Z * list string * gmap string string * bool := (Index b, Files b, Hashes b, OverWindow b).
Definition shape (rec : chunkRecord) : Z * string * list (Z * list string * gmap string string * bool) :=
  (SchemaVersion rec, rec_Agent rec, bin_shape <$> Bins rec).

Definition ref w (i : nat) : option (string * nat) := bySlot (l_plan (w_led w)) !! i.
Definition gen_at w dir : nat := count_at (gen (w_led w)) dir.
Definition written_at w dir : nat := count_at (written (w_led w)) dir.

(** A completion whose version some accounted write holds. *)
Definition reported w (i : nat) (r : Result Rec) : Prop :=
  exists g, w_done w !! i = Some (g, r) /\ forall dir k, ref w i = Some (dir, k) -> 0 < g <= written_at w dir.
Definition after_ok w (dir : string) (want : nat) (k : after) : Prop :=
  match k with None => True | Some (i, r) => w_done w !! i = Some (want, r) /\ exists n, ref w i = Some (dir, n) end.

Definition pc_fwd w (c : pc) : Prop :=
  match c with
  | Called _ | Returned => True
  | Flush dir want k | Locked dir want k => 0 < want <= gen_at w dir /\ after_ok w dir want k
  | Writing dir want snap data k =>
      0 < want <= snap /\ snap <= gen_at w dir /\ after_ok w dir want k /\ exists h, w_hist w !! dir = Some h /\ h !! snap = Some data
  | Wrote dir want snap ok k => 0 < want <= snap /\ snap <= gen_at w dir /\ after_ok w dir want k
  | Unlock dir want k => 0 < want <= written_at w dir /\ after_ok w dir want k
  | Track i r => reported w i r
  end.

(** The file whose lock a thread holds, and what it may assume of it. *)
Definition holder (c : pc (Rec := Rec)) : option string :=
  match c with
  | Locked dir _ _ | Writing dir _ _ _ _ | Wrote dir _ _ _ _ | Unlock dir _ _ => Some dir
  | _ => None
  end.
Definition pc_own w (c : pc (Rec := Rec)) : Prop :=
  match c with
  | Writing dir want snap _ _ => written_at w dir < want /\ count_at (w_dgen w) dir <= snap
  | Wrote dir _ snap ok _ => written_at w dir <= snap /\ (ok = true -> w_dgen w !! dir = Some snap)
  | _ => True
  end.

(** What holds of the memory, the disk and the versions, *)
Record mem_ok w : Prop := mkMem {
  iv_refs : bySlot (l_plan (w_led w)) = bySlot p /\ order (l_plan (w_led w)) = order p;
  iv_dom : forall dir, is_Some (records p !! dir) -> is_Some (records (l_plan (w_led w)) !! dir);
  iv_hist : forall dir, match records (l_plan (w_led w)) !! dir with
                        | Some rec => exists h, w_hist w !! dir = Some h /\ length h = S (gen_at w dir) /\ h !! gen_at w dir = Some rec
                        | None => w_hist w !! dir = None /\ gen_at w dir = 0
                        end;
  iv_shape : forall dir h rec, w_hist w !! dir = Some h -> rec ∈ h -> exists rec0, records p !! dir = Some rec0 /\ shape rec = shape rec0;
  iv_le : forall dir, written_at w dir <= gen_at w dir /\ count_at (w_dgen w) dir <= gen_at w dir;
  iv_disk : forall dir g, w_dgen w !! dir = Some g ->
    exists h rec, w_hist w !! dir = Some h /\ h !! g = Some rec /\ w_disk w !! dir = Some rec;
  iv_durable : failed (w_led w) = None -> forall dir, 0 < written_at w dir -> exists g, w_dgen w !! dir = Some g /\ written_at w dir <= g;
  iv_done : forall i g r dir k, w_done w !! i = Some (g, r) -> ref w i = Some (dir, k) ->
    g <= gen_at w dir /\ forall h g' rec, w_hist w !! dir = Some h -> g <= g' -> h !! g' = Some rec ->
      exists x b, Bins rec !! k = Some (complete_bin x r b);
  iv_trk : forall i r, t_results (w_trk w) !! i = Some r -> reported w i r;
}.
(** and of the callers: each file lock has one holder, a slot one call at a time. *)
Record pcs_ok w : Prop := mkPcs {
  iv_fwd : forall t c, w_pcs w !! t = Some c -> pc_fwd w c /\ pc_own w c;
  iv_called : forall t c i, w_pcs w !! t = Some (Called c) -> call_slot c = Some i ->
    w_done w !! i = None /\ forall t' c', w_pcs w !! t' = Some (Called c') -> call_slot c' = Some i -> t' = t;
  iv_planned : forall t dir, w_pcs w !! t = Some (Called (Plan dir)) -> is_Some (records (l_plan (w_led w)) !! dir);
  iv_lock : forall t dir, w_mu w !! dir = Some t <-> exists c, w_pcs w !! t = Some c /\ holder c = Some dir;
}.
Definition inv w : Prop := mem_ok w /\ pcs_ok w.

(** Time only adds: versions, generations, completions. *)
Record ext w w' : Prop := mkExt {
  ex_ref : forall i, ref w' i = ref w i;
  ex_gen : forall dir, gen_at w dir <= gen_at w' dir;
  ex_written : forall dir, written_at w dir <= written_at w' dir;
  ex_hist : forall dir h, w_hist w !! dir = Some h -> exists h', w_hist w' !! dir = Some (h ++ h');
  ex_done : forall i x, w_done w !! i = Some x -> w_done w' !! i = Some x;
}.

Lemma reported_ext w w' i r : ext w w' -> reported w i r -> reported w' i r.
Proof.
  intros [Hr _ Hw _ Hd] (g & Hg & Hl). exists g. split; [by apply Hd|]. intros dir k Hk. rewrite Hr in Hk.
  specialize (Hl dir k Hk). specialize (Hw dir). lia.
Qed.

Lemma after_ok_ext w w' dir want k : ext w w' -> after_ok w dir want k -> after_ok w' dir want k.
Proof. intros [Hr _ _ _ Hd]. destruct k as [[i r]|]; [|done]. intros [H (n & Hn)]. split; [by apply Hd|]. exists n. by rewrite Hr. Qed.

Lemma pc_fwd_ext w w' c : ext w w' -> pc_fwd w c -> pc_fwd w' c.
Proof.
  intros He. pose proof (ex_gen _ _ He) as Hg. pose proof (ex_written _ _ He) as Hw. destruct c as [c|d want k|d want k|d want s data k|d want s ok k|d want k|i r|]; cbn; try done.
  - intros [? ?]. specialize (Hg d). split; [lia|by eapply after_ok_ext].
  - intros [? ?]. specialize (Hg d). split; [lia|by eapply after_ok_ext].
  - intros (? & ? & ? & h & Hh & Hs). specialize (Hg d). split; [lia|]. split; [lia|]. split; [by eapply after_ok_ext|].
    destruct (ex_hist _ _ He d h Hh) as [h' Hh']. exists (h ++ h'). split; [done|]. by apply lookup_app_l_Some.
  - intros (? & ? & ?). specialize (Hg d). split; [lia|]. split; [lia|by eapply after_ok_ext].
  - intros [? ?]. specialize (Hw d). split; [lia|by eapply after_ok_ext].
  - by apply reported_ext.
Qed.

Lemma lookup_step w t c t' c' : w_pcs w !! t = Some c' -> <[t := c]> (w_pcs w) !! t' = if decide (t' = t) then Some c else w_pcs w !! t'.
Proof.
  intros H. destruct (decide (t' = t)) as [->|Hne]; [|by rewrite list_lookup_insert_ne].
  rewrite list_lookup_insert_eq; [done|]. by apply lookup_lt_Some in H.
Qed.

(** A thread that moves on, the locks unchanged. *)
Lemma pcs_goto w w' t c0 c : pcs_ok w -> w_pcs w !! t = Some c0 -> w_pcs w' = <[t := c]> (w_pcs w) -> w_mu w' = w_mu w ->
  ext w w' -> holder c = holder c0 -> pc_fwd w' c -> pc_own w' c -> (forall d, c <> Called d) ->
  (forall t' c', t' <> t -> w_pcs w !! t' = Some c' -> pc_own w c' -> pc_own w' c') ->
  (forall t' d i, t' <> t -> w_pcs w !! t' = Some (Called d) -> call_slot d = Some i -> w_done w' !! i = w_done w !! i) ->
  (forall dir, is_Some (records (l_plan (w_led w)) !! dir) -> is_Some (records (l_plan (w_led w')) !! dir)) ->
  pcs_ok w'.
Proof.
  intros [Hf Hc Hp Hl] H0 Epcs Emu He Hh Hfw Hown Hnc Hoth Hdn Hrec.
  pose proof (fun t' => lookup_step w t c t' c0 H0) as Hlk. split; rewrite ?Epcs, ?Emu.
  - intros t' c'. rewrite Hlk. case_decide as E; [by intros [= <-]|]. intros H. destruct (Hf t' c' H) as [H1 H2].
    split; [by eapply pc_fwd_ext|by eapply Hoth].
  - intros t' d i. rewrite Hlk. case_decide as E; [intros [= Hd]; by destruct (Hnc d)|]. intros H Hd.
    destruct (Hc t' d i H Hd) as [H1 H2]. split; [by rewrite (Hdn t' d i)|]. intros t2 d2. rewrite Hlk.
    case_decide; [intros [= Hd']; by destruct (Hnc d2)|apply H2].
  - intros t' dir. rewrite Hlk. case_decide as E; [intros [= Hd]; by destruct (Hnc (Plan dir))|]. intros H. apply Hrec. by eapply Hp.
  - intros t' dir. rewrite Hl, Hlk. case_decide as E; [|done]. subst t'. rewrite H0. split.
    + intros (? & [= <-] & H). exists c. split; [done|congruence].
    + intros (? & [= <-] & H). exists c0. split; [done|congruence].
Qed.

Lemma ext_refl w w' : w_led w' = w_led w -> w_hist w' = w_hist w -> w_done w' = w_done w -> ext w w'.
Proof.
  intros El Eh Ed. split; unfold ref, gen_at, written_at; rewrite ?El, ?Eh, ?Ed; try done.
  intros dir h Hh. exists []. by rewrite app_nil_r.
Qed.

Lemma ext_same w w1 w' : ext w w1 -> w_led w' = w_led w1 -> w_hist w' = w_hist w1 -> w_done w' = w_done w1 -> ext w w'.
Proof.
  intros [] El Eh Ed. split; unfold ref, gen_at, written_at in *; rewrite ?El, ?Eh, ?Ed; done.
Qed.

Lemma ext_trans w1 w2 w3 : ext w1 w2 -> ext w2 w3 -> ext w1 w3.
Proof.
  intros [Hr Hg Hw Hh Hd] [Hr' Hg' Hw' Hh' Hd']. split; [..|by auto].
  - intros i. by rewrite Hr'.
  - intros dir. specialize (Hg dir). specialize (Hg' dir). lia.
  - intros dir. specialize (Hw dir). specialize (Hw' dir). lia.
  - intros dir h Hi. destruct (Hh dir h Hi) as [a Ha], (Hh' dir _ Ha) as [b Hb]. exists (a ++ b). by rewrite Hb, app_assoc.
Qed.

Lemma mem_same w w' : w_led w' = w_led w -> w_hist w' = w_hist w -> w_done w' = w_done w -> w_disk w' = w_disk w ->
  w_dgen w' = w_dgen w -> w_trk w' = w_trk w -> mem_ok w -> mem_ok w'.
Proof.
  intros El Eh Ed Ek Eg Et []. split; unfold reported, ref, gen_at, written_at in *; rewrite ?El, ?Eh, ?Ed, ?Ek, ?Eg, ?Et; done.
Qed.

(** Steps of a thread that touch nothing but its place. *)
Lemma inv_goto w t c0 c : inv w -> w_pcs w !! t = Some c0 -> holder c = holder c0 -> pc_fwd w c -> pc_own w c ->
  (forall d, c <> Called d) -> inv (goto t c w).
Proof.
  intros [Hm Hp] H0 Hh Hf Ho Hc. split; [by apply (mem_same w)|].
  eapply (pcs_goto w (goto t c w) t c0 c); try done. by apply ext_refl.
Qed.

Lemma count_insert (m : gmap string nat) d n d' : count_at (<[d := n]> m) d' = if decide (d' = d) then n else count_at m d'.
Proof. unfold count_at. case_decide as E; [subst; by rewrite lookup_insert_eq|by rewrite lookup_insert_ne]. Qed.

(** ** Mutations *)

Record mutated (dir : string) (g : chunkRecord -> chunkRecord) (l l' : chunkLedger) : Prop := mkMutated {
  mt_ref : bySlot (l_plan l') = bySlot (l_plan l) /\ order (l_plan l') = order (l_plan l);
  mt_rec : records (l_plan l') = alter g dir (records (l_plan l));
  mt_gen : gen l' = <[dir := S (count_at (gen l) dir)]> (gen l);
  mt_rest : written l' = written l /\ failed l' = failed l;
}.

Lemma touch_mutated dir l : mutated dir (fun rec => rec) l (touch dir l).
Proof. split; cbn; try done. by rewrite alter_id. Qed.

Definition restamp_rec (k : nat) (f : chunkRecordBin -> chunkRecordBin) (rec : chunkRecord) : chunkRecord :=
  set_Bins (alter f k (Bins rec)) rec.
Lemma restamp_mutated i dir k f l : mutated dir (restamp_rec k (f (bool_decide (i ∈ leased l)))) l (restamp i dir k f l).
Proof. by split. Qed.

Lemma restamp_shape k f rec : (forall b, bin_shape (f b) = bin_shape b) -> shape (restamp_rec k f rec) = shape rec.
Proof.
  intros Hf. unfold shape, restamp_rec. cbn. f_equal. apply list_eq. intros j. rewrite !list_lookup_fmap.
  destruct (decide (j = k)) as [->|Hne]; [|by rewrite list_lookup_alter_ne].
  rewrite list_lookup_alter_eq. destruct (Bins rec !! k); [|done]. cbn. by rewrite Hf.
Qed.

(** A mutation adds a version; it may not touch the bin of a completed slot. *)
Lemma mem_push w dir l' g rec : mem_ok w -> mutated dir g (w_led w) l' -> records (l_plan (w_led w)) !! dir = Some rec ->
  (forall rc, shape (g rc) = shape rc) ->
  (forall i x k b, w_done w !! i = Some x -> ref w i = Some (dir, k) -> Bins rec !! k = Some b -> Bins (g rec) !! k = Some b) ->
  mem_ok (push dir l' w) /\ ext w (push dir l' w) /\ gen_at (push dir l' w) dir = S (gen_at w dir).
Proof.
  intros [Hr Hdom Hh Hs Hl Hk Hd Hn Ht] [[Mr Mo] Mrec Mg [Mw Mf]] Hrec Hshape Hkeep.
  assert (forall d, gen_at (push dir l' w) d = if decide (d = dir) then S (gen_at w dir) else gen_at w d) as Egen.
  { intros d. unfold gen_at. cbn [push w_led]. rewrite Mg. apply count_insert. }
  assert (forall d, written_at (push dir l' w) d = written_at w d) as Ewr by (intros d; unfold written_at; cbn; by rewrite Mw).
  assert (forall i, ref (push dir l' w) i = ref w i) as Eref by (intros i; unfold ref; cbn; by rewrite Mr).
  assert (records (l_plan l') !! dir = Some (g rec)) as Erec by (by rewrite Mrec, lookup_alter_eq, Hrec).
  pose proof (Hh dir) as H0. rewrite Hrec in H0. destruct H0 as (h0 & Hh0 & Hlen0 & Hlast0).
  assert (forall d, w_hist (push dir l' w) !! d = if decide (d = dir) then Some (h0 ++ [g rec]) else w_hist w !! d) as Ehist.
  { intros d. cbn [push w_hist]. rewrite Erec, Hh0. cbn [default option_list]. unfold id.
    case_decide as E; [subst; by rewrite lookup_insert_eq|by rewrite lookup_insert_ne]. }
  assert (ext w (push dir l' w)) as Hext.
  { split.
    - exact Eref.
    - intros d. rewrite Egen. case_decide; subst; lia.
    - intros d. by rewrite Ewr.
    - intros d h. rewrite Ehist. case_decide as E; [subst; rewrite Hh0; intros [= <-]; by eexists|intros H; exists []; by rewrite app_nil_r].
    - done. }
  split; [|split; [done|rewrite Egen; by rewrite decide_True]]. split; rewrite ?Ewr.
  - cbn. by rewrite Mr, Mo.
  - intros d Hd0. cbn. rewrite Mrec. destruct (Hdom d Hd0) as [rc Hrc]. destruct (decide (d = dir)) as [->|Hne].
    + rewrite lookup_alter_eq, Hrc. by eexists.
    + rewrite lookup_alter_ne, Hrc by done. by eexists.
  - intros d. cbn [push w_led]. rewrite Ehist, Egen. destruct (decide (d = dir)) as [->|Hne].
    + rewrite Erec. exists (h0 ++ [g rec]). split; [done|]. rewrite length_app, Hlen0. split; [cbn; lia|]. by rewrite list_lookup_middle.
    + rewrite Mrec, lookup_alter_ne by done. apply Hh.
  - intros d h rc. rewrite Ehist. case_decide as E; [|apply Hs]. subst d. intros [= <-] [Hin|Hin]%elem_of_app; [by eapply Hs|].
    apply list_elem_of_singleton in Hin as ->. rewrite Hshape. apply (Hs dir h0); [done|]. by eapply list_elem_of_lookup_2.
  - intros d. rewrite Ewr, Egen. destruct (Hl d). cbn [push w_dgen]. case_decide; subst; lia.
  - intros d n Hg. cbn [push w_dgen w_disk] in *. destruct (Hk d n Hg) as (h & rc & Hd1 & Hd2 & Hd3).
    destruct (ex_hist _ _ Hext d h Hd1) as [h' Hh']. exists (h ++ h'), rc. split; [done|]. split; [by apply lookup_app_l_Some|done].
  - intros Hfail d. rewrite Ewr. cbn [push w_dgen w_led] in *. apply Hd. by rewrite <- Mf.
  - intros i n r d k Hi Hk'. rewrite Eref in Hk'. cbn [push w_done] in Hi. destruct (Hn i n r d k Hi Hk') as [Hle Hv]. split.
    + rewrite Egen. case_decide; subst; lia.
    + intros h n' rc. rewrite Ehist. case_decide as E; [|apply Hv]. subst d. intros [= <-] Hge Hl'.
      destruct (decide (n' < length h0)) as [Hlt|Hnlt]; [rewrite lookup_app_l in Hl' by done; by eapply Hv|].
      rewrite lookup_app_r in Hl' by lia. destruct (n' - length h0) as [|j]; [|by destruct j]. injection Hl' as <-.
      destruct (Hv h0 (gen_at w dir) rec Hh0) as (x & b & Hb); [lia|done|]. exists x, b. by eapply Hkeep.
  - intros i r Hi. eapply reported_ext; [exact Hext|]. by apply Ht.
Qed.

Lemma mem_note_done w i g r : mem_ok w -> w_done w !! i = None ->
  (forall dir k, ref w i = Some (dir, k) -> g <= gen_at w dir /\ forall h g' rec, w_hist w !! dir = Some h -> g <= g' ->
     h !! g' = Some rec -> exists x b, Bins rec !! k = Some (complete_bin x r b)) ->
  mem_ok (note_done i g r w) /\ ext w (note_done i g r w).
Proof.
  intros [Hr Hdom Hh Hs Hl Hk Hd Hn Ht] H0 Hi.
  assert (ext w (note_done i g r w)) as Hext.
  { split; try done.
    - intros dir h Hh0. exists []. by rewrite app_nil_r.
    - intros j x Hj. cbn. by rewrite lookup_insert_ne by congruence. }
  split; [|done]. split; try done.
  - intros j n q dir k Hj Hk'. cbn [note_done w_done] in Hj. destruct (decide (j = i)) as [->|Hne].
    + rewrite lookup_insert_eq in Hj. injection Hj as <- <-. by apply Hi.
    + rewrite lookup_insert_ne in Hj by done. by eapply Hn.
  - intros j q Hj. eapply reported_ext; [exact Hext|]. by apply Ht.
Qed.

Lemma mem_account w dir snap ok : mem_ok w -> written_at w dir <= snap -> snap <= gen_at w dir ->
  (ok = true -> w_dgen w !! dir = Some snap) ->
  mem_ok (set_led (account dir snap ok (w_led w)) w) /\ ext w (set_led (account dir snap ok (w_led w)) w).
Proof.
  intros [Hr Hdom Hh Hs Hl Hk Hd Hn Ht] Hle Hge Hok. set (w' := set_led _ w).
  assert (forall d, written_at w' d = if decide (d = dir) then snap else written_at w d) as Ew by (intros d; apply count_insert).
  assert (ext w w') as Hext.
  { split; try done.
    - intros d. rewrite Ew. case_decide; subst; lia.
    - intros d h Hd0. exists []. by rewrite app_nil_r. }
  split; [|done]. split; try done.
  - intros d. rewrite Ew. destruct (Hl d). case_decide; [subst; split; [exact Hge|done]|by split].
  - intros Hf d. rewrite Ew. cbn [w' set_led w_led account failed] in Hf. case_decide as E.
    + subst d. intros _. exists snap. split; [|done]. apply Hok. destruct ok; [done|]. by destruct (failed (w_led w)).
    + apply Hd. destruct ok; [done|]. by destruct (failed (w_led w)).
  - intros i r Hi. eapply reported_ext; [exact Hext|]. by apply Ht.
Qed.

Lemma mem_set_disk w dir data snap h : mem_ok w -> written_at w dir <= snap -> snap <= gen_at w dir ->
  w_hist w !! dir = Some h -> h !! snap = Some data -> mem_ok (set_disk dir data snap w) /\ ext w (set_disk dir data snap w).
Proof.
  intros [Hr Hdom Hh Hs Hl Hk Hd Hn Ht] Hle Hge Hh0 Hdata. split; [|by apply ext_refl]. split; try done.
  - intros d. cbn [set_disk w_dgen]. rewrite count_insert. destruct (Hl d). split; [done|]. case_decide; subst; done.
  - intros d g Hg. cbn [set_disk w_dgen w_disk w_hist] in *. destruct (decide (d = dir)) as [->|Hne].
    + rewrite lookup_insert_eq in Hg. injection Hg as <-. exists h, data. by rewrite lookup_insert_eq.
    + rewrite lookup_insert_ne in Hg by done. rewrite lookup_insert_ne by done. by apply Hk.
  - intros Hf d Hpos. cbn [set_disk w_dgen]. destruct (decide (d = dir)) as [->|Hne].
    + exists snap. by rewrite lookup_insert_eq.
    + rewrite lookup_insert_ne by done. by apply Hd.
Qed.

Lemma pc_own_same w w' c : (forall d, written_at w' d = written_at w d) -> w_dgen w' = w_dgen w -> pc_own w c -> pc_own w' c.
Proof. intros Hw Hd. destruct c; cbn; rewrite ?Hw, ?Hd; done. Qed.

(** Two threads do not hold one lock. *)
Lemma lock_excl w t t' c c' dir : pcs_ok w -> w_pcs w !! t = Some c -> holder c = Some dir -> t' <> t ->
  w_pcs w !! t' = Some c' -> holder c' <> Some dir.
Proof.
  intros [_ _ _ Hl] Hc Hh Hne Hc' Hh'. assert (w_mu w !! dir = Some t) as H1 by (apply Hl; by exists c).
  assert (w_mu w !! dir = Some t') as H2 by (apply Hl; by exists c'). congruence.
Qed.

Lemma pc_own_other w w' c dir : holder c <> Some dir -> (forall d, d <> dir -> written_at w' d = written_at w d) ->
  (forall d, d <> dir -> w_dgen w' !! d = w_dgen w !! d) -> pc_own w c -> pc_own w' c.
Proof.
  intros Hh Hw Hd. unfold count_at. destruct c as [| | |d want s data k|d want s ok k| | |]; cbn in *; try done;
    unfold count_at; (rewrite Hw, Hd by congruence); done.
Qed.

(** ** The steps *)

Context (Hplan : plan_ok).

Lemma inv_mutate w t c0 dir l' g : inv w -> w_pcs w !! t = Some (Called c0) ->
  mutated dir g (w_led w) l' -> is_Some (records (l_plan (w_led w)) !! dir) -> (forall rc, shape (g rc) = shape rc) ->
  (forall i x k rec b, w_done w !! i = Some x -> ref w i = Some (dir, k) -> Bins rec !! k = Some b -> Bins (g rec) !! k = Some b) ->
  inv (goto t (Flush dir (count_at (gen l') dir) None) (push dir l' w)).
Proof.
  intros [Hm Hp] H0 Hmut [rec Hrec] Hshape Hkeep.
  destruct (mem_push w dir l' g rec Hm Hmut Hrec Hshape (fun i x k b => Hkeep i x k rec b)) as (Hm' & Hext & Hgen).
  split; [by apply (mem_same (push dir l' w))|]. eapply (pcs_goto w _ t (Called c0)); try done.
  - by apply (ext_same w (push dir l' w)).
  - cbn. change (gen_at (push dir l' w) dir) with (count_at (gen l') dir) in Hgen. split; [|done]. unfold gen_at. cbn. lia.
  - intros t' c' _ _. apply pc_own_same; [|done]. intros d. unfold written_at. cbn. rewrite (proj1 (mt_rest _ _ _ _ Hmut)). done.
  - intros d [rc Hd]. cbn. rewrite (mt_rec _ _ _ _ Hmut). destruct (decide (d = dir)) as [->|Hne].
    + rewrite lookup_alter_eq, Hd. by eexists.
    + rewrite lookup_alter_ne, Hd by done. by eexists.
Qed.

Lemma ref_valid w i dir k : mem_ok w -> ref w i = Some (dir, k) -> is_Some (records (l_plan (w_led w)) !! dir).
Proof.
  intros Hm Hi. unfold ref in Hi. rewrite (proj1 (iv_refs _ Hm)) in Hi. destruct (po_valid Hplan i dir k Hi) as (rec0 & b0 & H1 & _).
  apply (iv_dom _ Hm). by exists rec0.
Qed.

(** The bin of a slot is in every version. *)
Lemma ref_bin w i dir k h rec : mem_ok w -> ref w i = Some (dir, k) -> w_hist w !! dir = Some h -> rec ∈ h ->
  exists b, Bins rec !! k = Some b.
Proof.
  intros Hm Hi Hh Hin. unfold ref in Hi. rewrite (proj1 (iv_refs _ Hm)) in Hi. destruct (po_valid Hplan i dir k Hi) as (rec0 & b0 & H1 & H2).
  destruct (iv_shape _ Hm dir h rec Hh Hin) as (rec1 & H3 & Hsh). assert (rec1 = rec0) as -> by congruence.
  assert (k < length (Bins rec)) as Hk; [|by apply lookup_lt_is_Some in Hk].
  unfold shape in Hsh. injection Hsh as _ _ Hsh. apply (f_equal length) in Hsh. rewrite !length_fmap in Hsh. rewrite Hsh.
  by apply lookup_lt_Some in H2.
Qed.

Lemma restamp_keeps w i dir k f : mem_ok w -> ref w i = Some (dir, k) -> w_done w !! i = None ->
  forall j x k' rec b, w_done w !! j = Some x -> ref w j = Some (dir, k') -> Bins rec !! k' = Some b ->
    Bins (restamp_rec k f rec) !! k' = Some b.
Proof.
  intros Hm Hi Hn j x k' rec b Hj Hj' Hb. unfold restamp_rec. cbn. rewrite list_lookup_alter_ne; [done|].
  intros ->. assert (i = j) as -> by (unfold ref in *; rewrite (proj1 (iv_refs _ Hm)) in *; by eapply po_inj). congruence.
Qed.

Lemma inv_done_step w t i r dir k : inv w -> w_pcs w !! t = Some (Called (Done i r)) -> ref w i = Some (dir, k) ->
  let l := restamp i dir k (fun leased => complete_bin leased r) (w_led w) in
  let want := count_at (gen l) dir in
  inv (goto t (Flush dir want (Some (i, r))) (note_done i want r (push dir l w))).
Proof.
  intros [Hm Hp] H0 Hi l want. destruct (iv_called _ Hp t (Done i r) i H0 eq_refl) as [Hnone Huniq].
  set (f := complete_bin (Rec := Rec) (bool_decide (i ∈ leased (w_led w))) r).
  pose proof (restamp_mutated i dir k (fun leased => complete_bin leased r) (w_led w)) as Hmut. fold f l in Hmut. cbn beta in Hmut.
  destruct (ref_valid w i dir k Hm Hi) as [rec Hrec].
  destruct (mem_push w dir l (restamp_rec k f) rec Hm Hmut Hrec) as (Hm1 & He1 & Hgen).
  { intros rc. by apply restamp_shape. }
  { intros j x k' b. by apply (restamp_keeps w i dir k f Hm Hi Hnone). }
  assert (want = S (gen_at w dir)) as Ewant by exact Hgen.
  destruct (mem_note_done (push dir l w) i want r Hm1 Hnone) as [Hm2 He2].
  { intros d k' Hk'. rewrite (ex_ref _ _ He1), Hi in Hk'. injection Hk' as <- <-. rewrite Hgen, Ewant. split; [done|].
    intros h g' rc Hh Hge Hl. pose proof (iv_hist _ Hm1 dir) as Hh1. cbn [push w_led] in Hh1.
    rewrite (mt_rec _ _ _ _ Hmut), lookup_alter_eq, Hrec in Hh1. cbn in Hh1. destruct Hh1 as (h1 & Eh & Hlen & Hlast).
    change (w_hist (push dir l w) !! dir = Some h1) in Eh. rewrite Hh in Eh. injection Eh as <-.
    rewrite Hgen in Hlen, Hlast. assert (g' = S (gen_at w dir)) as -> by (apply lookup_lt_Some in Hl; lia).
    rewrite Hl in Hlast. injection Hlast as ->. destruct (ref_bin (push dir l w) i dir k h (restamp_rec k f rec) Hm1) as [b Hb];
      [by rewrite (ex_ref _ _ He1)|done|by eapply list_elem_of_lookup_2|].
    cbn in Hb. rewrite list_lookup_alter_eq in Hb. destruct (Bins rec !! k) as [b0|] eqn:Eb; [|done].
    exists (bool_decide (i ∈ leased (w_led w))), b0. cbn. by rewrite list_lookup_alter_eq, Eb. }
  pose proof (ext_trans _ _ _ He1 He2) as Hext.
  split; [by apply (mem_same (note_done i want r (push dir l w)))|].
  eapply (pcs_goto w _ t (Called (Done i r))); try done.
  - by apply (ext_same w (note_done i want r (push dir l w))).
  - change (0 < want <= gen_at (push dir l w) dir /\ after_ok (note_done i want r (push dir l w)) dir want (Some (i, r))).
    rewrite Hgen. split; [lia|]. cbn. split; [apply lookup_insert_eq|]. exists k. rewrite (ex_ref _ _ He2), (ex_ref _ _ He1). done.
  - intros t' d j Hne Ht' Hd. cbn. rewrite lookup_insert_ne; [done|]. intros E. subst j. by apply Hne, (Huniq t' d).
  - intros d [rc Hd]. cbn. destruct (decide (d = dir)) as [->|Hne].
    + rewrite lookup_alter_eq, Hd. by eexists.
    + rewrite lookup_alter_ne, Hd by done. by eexists.
Qed.

Lemma inv_call w c : inv w -> admissible c w -> inv (new_call c w).
Proof.
  intros [Hm [Hf Hc Hp Hl]] Hadm. split; [by apply (mem_same w)|].
  assert (forall t d, w_pcs (new_call c w) !! t = Some d -> w_pcs w !! t = Some d \/ (t = length (w_pcs w) /\ d = Called c)) as Hlk.
  { intros t d. cbn. rewrite lookup_snoc_take. case_bool_decide; [intros [= <-]; by right|by left]. }
  assert (forall t d, w_pcs w !! t = Some d -> w_pcs (new_call c w) !! t = Some d) as Hold by (intros t d Ht; by apply lookup_app_l_Some).
  split.
  - intros t d [Ht|[-> ->]]%Hlk; [|done]. destruct (Hf t d Ht) as [H1 H2]. split; [|done]. eapply pc_fwd_ext; [|exact H1]. by apply ext_refl.
  - intros t d j Ht Hd. unfold admissible in Hadm. destruct (Hlk _ _ Ht) as [Ho|[-> Ed]].
    + destruct (Hc t d j Ho Hd) as [H1 H2]. split; [done|]. intros t' d' [Ho'|[-> Ed']]%Hlk Hd'; [by eapply H2|].
      injection Ed' as ->. rewrite Hd' in Hadm. destruct Hadm as [_ Hno]. destruct (Hno d); [by eapply list_elem_of_lookup_2|done].
    + injection Ed as ->. rewrite Hd in Hadm. destruct Hadm as [Hn Hno]. split; [done|]. intros t' d' [Ho'|[-> _]]%Hlk Hd'; [|done].
      destruct (Hno d'); [by eapply list_elem_of_lookup_2|done].
  - intros t dir [Ho|[_ Ed]]%Hlk; [by eapply Hp|]. injection Ed as <-. by apply Hadm.
  - intros t dir. cbn [new_call w_mu]. rewrite Hl. split.
    + intros (d & Hd & Hh). exists d. split; [by apply Hold|done].
    + intros (d & [Ho|[_ ->]]%Hlk & Hh); [by exists d|done].
Qed.

Lemma inv_lock w t dir want k : inv w -> w_pcs w !! t = Some (Flush dir want k) -> w_mu w !! dir = None ->
  inv (goto t (Locked dir want k) (set_mu (<[dir := t]> (w_mu w)) w)).
Proof.
  intros [Hm [Hf Hc Hp Hl]] H0 Hfree. split; [by apply (mem_same w)|]. set (w' := goto _ _ _).
  assert (forall t', w_pcs w' !! t' = if decide (t' = t) then Some (Locked dir want k) else w_pcs w !! t') as Hlk
    by exact (fun t' => lookup_step w t _ t' _ H0).
  assert (forall c, pc_fwd w c -> pc_fwd w' c) as Hfw by (intros c; apply pc_fwd_ext; by apply ext_refl).
  split.
  - intros t' c. rewrite Hlk. case_decide as E; [|intros H; destruct (Hf t' c H); by split; [apply Hfw|]].
    intros [= <-]. split; [|done]. by apply (Hfw (Flush dir want k)), (Hf t).
  - intros t' c i. rewrite Hlk. case_decide as E0; [done|]. intros H Hi. destruct (Hc t' c i H Hi) as [H1 H2]. split; [done|].
    intros t2 c2. rewrite Hlk. case_decide; [done|apply H2].
  - intros t' d. rewrite Hlk. case_decide; [done|apply Hp].
  - intros t' d. cbn [w' goto set_mu w_mu]. rewrite Hlk. case_decide as E.
    + subst t'. destruct (decide (d = dir)) as [->|Hne].
      * rewrite lookup_insert_eq. split; [intros _; by eexists|done].
      * rewrite lookup_insert_ne, Hl by done. split; [intros (c & Hc' & Hh); rewrite H0 in Hc'; by injection Hc' as <-|].
        intros (c & [= <-] & [= E']). done.
    + destruct (decide (d = dir)) as [->|Hne].
      * rewrite lookup_insert_eq. split; [intros [= Et]; by subst|]. intros Hex. apply Hl in Hex. congruence.
      * rewrite lookup_insert_ne by done. apply Hl.
Qed.

Lemma inv_unlock w t dir want k : inv w -> w_pcs w !! t = Some (Unlock dir want k) ->
  inv (goto t (then_pc k) (set_mu (delete dir (w_mu w)) w)).
Proof.
  intros [Hm Hpc] H0. pose proof Hpc as [Hf Hc Hp Hl]. split; [by apply (mem_same w)|]. set (w' := goto _ _ _).
  assert (forall t', w_pcs w' !! t' = if decide (t' = t) then Some (then_pc k) else w_pcs w !! t') as Hlk
    by exact (fun t' => lookup_step w t _ t' _ H0).
  assert (holder (then_pc k) = None) as Hnh by (by destruct k as [[]|]).
  assert (forall c, Called c <> then_pc k) as Hnc by (intros c; by destruct k as [[]|]).
  assert (forall c, pc_fwd w c -> pc_fwd w' c) as Hfw by (intros c; apply pc_fwd_ext; by apply ext_refl).
  split.
  - intros t' c. rewrite Hlk. case_decide as E; [|intros H; destruct (Hf t' c H); by split; [apply Hfw|]].
    intros [= <-]. split; [|by destruct k as [[]|]]. destruct (Hf t _ H0) as [[Hw Ha] _]. destruct k as [[i r]|]; [|done].
    destruct Ha as [Hd (n & Hn)]. exists want. split; [done|]. intros d k' Hk'. change (ref w i = Some (d, k')) in Hk'.
    rewrite Hn in Hk'. by injection Hk' as <- _.
  - intros t' c i. rewrite Hlk. case_decide as E0; [intros [= E]; by destruct (Hnc c)|]. intros H Hi. destruct (Hc t' c i H Hi) as [H1 H2].
    split; [done|]. intros t2 c2. rewrite Hlk. case_decide; [intros [= E]; by destruct (Hnc c2)|apply H2].
  - intros t' d. rewrite Hlk. case_decide; [intros [= E]; by destruct (Hnc (Plan d))|apply Hp].
  - intros t' d. cbn [w' goto set_mu w_mu]. rewrite Hlk.
    assert (w_mu w !! dir = Some t) as Ht by (apply Hl; by eexists).
    destruct (decide (d = dir)) as [->|Hne].
    + rewrite lookup_delete_eq. split; [done|]. intros (c & Hc' & Hh). case_decide as E; [injection Hc' as <-; by rewrite Hnh in Hh|].
      by destruct (lock_excl w t t' (Unlock dir want k) c dir Hpc H0 eq_refl E Hc').
    + rewrite lookup_delete_ne, Hl by done. case_decide as E; [|done]. subst t'. split.
      * intros (c & Hc' & Hh). rewrite H0 in Hc'. injection Hc' as <-. by injection Hh as ->.
      * intros (c & [= <-] & Hh). by rewrite Hnh in Hh.
Qed.

(** A step of the lock's holder that changes what is known of its file only. *)
Lemma inv_holder w w1 t c0 c dir : inv w -> w_pcs w !! t = Some c0 -> holder c0 = Some dir -> holder c = Some dir ->
  mem_ok w1 -> ext w w1 -> w_pcs w1 = w_pcs w -> w_mu w1 = w_mu w -> w_done w1 = w_done w ->
  records (l_plan (w_led w1)) = records (l_plan (w_led w)) ->
  pc_fwd w1 c -> pc_own w1 c -> (forall d, d <> dir -> written_at w1 d = written_at w d) ->
  (forall d, d <> dir -> w_dgen w1 !! d = w_dgen w !! d) -> inv (goto t c w1).
Proof.
  intros [Hm Hp] H0 Hh0 Hh Hm1 He Epcs Emu Edone Erec Hf Ho Hw Hd. split; [by apply (mem_same w1)|].
  eapply (pcs_goto w _ t c0 c); try done.
  - cbn. by rewrite Epcs.
  - by apply (ext_same w w1).
  - by rewrite Hh, Hh0.
  - intros d ->. discriminate.
  - intros t' c' Hne Hc' Hown. change (pc_own w1 c'). apply (pc_own_other w w1 c' dir); [|done|done|done].
    exact (lock_excl w t t' c0 c' dir Hp H0 Hh0 Hne Hc').
  - intros t' d i _ _ _. cbn. by rewrite Edone.
  - intros d. cbn. by rewrite Erec.
Qed.

Lemma tracker_results i r (t : personaTracker Rec) j q : t_results (tracker_done i r t).1 !! j = Some q ->
  t_results t !! j = Some q \/ (j = i /\ q = r).
Proof.
  unfold tracker_done. destruct (t_agent t !! i); [|by left]. destruct (t_results t !! i); [by left|].
  set (t' := mkTracker _ _ _). intros H. assert (t_results t' !! j = Some q) as H' by (by destruct (0 <? _)).
  cbn in H'. destruct (decide (j = i)) as [->|Hne].
  - rewrite lookup_insert_eq in H'. injection H' as ->. by right.
  - rewrite lookup_insert_ne in H' by done. by left.
Qed.

Lemma inv_track w t i r : inv w -> w_pcs w !! t = Some (Track i r) -> inv (goto t Returned (run_tracker i r w)).
Proof.
  intros [Hm Hp] H0. destruct (iv_fwd _ Hp t _ H0) as [Hrep _]. cbn in Hrep. unfold run_tracker.
  pose proof (tracker_results i r (w_trk w)) as Htr. destruct (tracker_done i r (w_trk w)) as [trk e]. cbn [fst] in Htr.
  set (w1 := mkWorld _ _ _ _ _ _ _ _ _).
  assert (mem_ok w1) as Hm1.
  { destruct Hm as [Hr Hdom Hh Hs Hl Hk Hd Hn Ht]. split; try done. intros j q Hj. change (reported w j q).
    destruct (Htr j q Hj) as [Hold|[-> ->]]; [by apply Ht|done]. }
  split; [by apply (mem_same w1)|]. eapply (pcs_goto w _ t (Track i r)); try done. by apply ext_refl.
Qed.

Lemma ledger_inv_step w w' : inv w -> step w w' -> inv w'.
Proof.
  intros Hi Hstep. pose proof Hi as [Hm Hp].
  destruct Hstep as [c w Ha|t dir w H0|t i w H0|t i r dir k w H0 Hr|t i r w H0 Hr|t i dir k w H0 Hr|t i w H0 Hr
    |t dir want k w H0 Hf|t dir want k w H0 Hle|t dir want k data w H0 Hlt Hd|t dir want snap data k w H0
    |t dir want snap data k w H0|t dir want snap ok k w H0|t dir want k w H0|t i r w H0].
  - by apply inv_call.
  - eapply (inv_mutate w t _ dir _ (fun rec => rec)); try done; [apply touch_mutated|by apply (iv_planned _ Hp t)].
  - set (l := slotStart i (w_led w)).
    assert (l_plan l = l_plan (w_led w) /\ gen l = gen (w_led w) /\ written l = written (w_led w) /\ failed l = failed (w_led w)) as (E1 & E2 & E3 & E4)
      by (subst l; unfold slotStart; by destruct (bySlot (l_plan (w_led w)) !! i)).
    assert (ext w (set_led l w)) as Hext.
    { split; unfold ref, gen_at, written_at; cbn; rewrite ?E1, ?E2, ?E3; try done. intros d h Hh. exists []. by rewrite app_nil_r. }
    split.
    + apply (mem_same (set_led l w)); try done. destruct Hm. split; unfold reported, ref, gen_at, written_at in *; cbn; rewrite ?E1, ?E2, ?E3, ?E4; done.
    + eapply (pcs_goto w _ t _ Returned); try done.
      * by apply (ext_same w (set_led l w)).
      * intros t' c' _ _. apply pc_own_same; [|done]. intros d. unfold written_at. cbn. by rewrite E3.
      * intros d. cbn. by rewrite E1.
  - by apply (inv_done_step w t i r dir k).
  - destruct (iv_called _ Hp t (Done i r) i H0 eq_refl) as [Hnone Huniq].
    destruct (mem_note_done w i 0 r Hm Hnone) as [Hm1 He]; [intros d k Hk; unfold ref in Hk; congruence|].
    split; [by apply (mem_same (note_done i 0 r w))|]. eapply (pcs_goto w _ t); try done.
    + by apply (ext_same w (note_done i 0 r w)).
    + cbn. exists 0. split; [apply lookup_insert_eq|]. intros d k Hk. change (ref w i = Some (d, k)) in Hk. unfold ref in Hk. congruence.
    + intros t' d j Hne Ht' Hd. cbn. rewrite lookup_insert_ne; [done|]. intros E. subst j. by apply Hne, (Huniq t' d).
  - destruct (iv_called _ Hp t (Requeue i) i H0 eq_refl) as [Hnone _].
    eapply (inv_mutate w t _ dir _ (restamp_rec k (requeue_bin (bool_decide (i ∈ leased (w_led w)))))); try done.
    + by eapply ref_valid.
    + intros rc. by apply restamp_shape.
    + by apply (restamp_keeps w i).
  - by eapply inv_goto.
  - by apply inv_lock.
  - destruct (iv_fwd _ Hp t _ H0) as [[Hw Ha] _]. eapply inv_goto; try done. cbn. unfold written_at. split; [lia|done].
  - destruct (iv_fwd _ Hp t _ H0) as [[Hw Ha] _]. pose proof (iv_hist _ Hm dir) as Hh. rewrite Hd in Hh. destruct Hh as (h & Hh & Hlen & Hlast).
    eapply inv_goto; try done.
    + cbn. unfold gen_at in *. split; [lia|]. split; [lia|]. split; [done|]. by exists h.
    + cbn. split; [done|]. apply (iv_le _ Hm).
  - destruct (iv_fwd _ Hp t _ H0) as [(Hw & Hg & Ha & h & Hh & Hs) [Hwr Hdg]].
    destruct (mem_set_disk w dir data snap h Hm) as [Hm1 He]; [lia|done|done|done|].
    eapply (inv_holder w _ t _ _ dir); try done.
    + cbn. split; [unfold written_at in *; cbn; lia|]. intros _. apply lookup_insert_eq.
    + intros d Hne. cbn. by rewrite lookup_insert_ne.
  - destruct (iv_fwd _ Hp t _ H0) as [(Hw & Hg & Ha & _) [Hwr _]]. eapply inv_goto; try done. cbn. split; [lia|done].
  - destruct (iv_fwd _ Hp t _ H0) as [(Hw & Hg & Ha) [Hwr Hok]].
    destruct (mem_account w dir snap ok Hm Hwr Hg Hok) as [Hm1 He].
    assert (forall d, written_at (set_led (account dir snap ok (w_led w)) w) d = if decide (d = dir) then snap else written_at w d) as Ew
      by (intros d; apply count_insert).
    eapply (inv_holder w _ t _ _ dir); try done.
    + split; [rewrite Ew, decide_True by done; lia|]. by eapply after_ok_ext.
    + intros d Hne. by rewrite Ew, decide_False.
  - by apply (inv_unlock w t dir want).
  - by apply inv_track.
Qed.

Lemma inv_initial slots disk : inv (initial p slots disk).
Proof.
  assert (forall d, gen_at (initial p slots disk) d = 0) as Eg by (intros d; unfold gen_at, count_at; cbn; by rewrite lookup_empty).
  split; [split|split; try done].
  - done.
  - done.
  - intros d. rewrite Eg. cbn [initial w_led start_ledger l_plan w_hist]. rewrite lookup_fmap. destruct (records p !! d) as [rec|]; [|done].
    by exists [rec].
  - intros d h rec. cbn [initial w_hist]. rewrite lookup_fmap, fmap_Some. intros (rec0 & Hr & ->) ->%list_elem_of_singleton. by exists rec0.
  - intros d. unfold written_at, gen_at, count_at. cbn. rewrite !lookup_empty. done.
  - intros d g. cbn. by rewrite lookup_empty.
  - intros _ d. unfold written_at, count_at. cbn. rewrite lookup_empty. cbn. lia.
  - intros i g r d k. cbn. by rewrite lookup_empty.
  - intros i r. cbn. by rewrite lookup_empty.
  - intros t d. cbn. rewrite lookup_empty. split; [done|]. by intros (c & ? & _).
Qed.

Lemma ledger_inv slots disk w : reachable p slots disk w -> inv w.
Proof.
  intros H. pose proof (inv_initial slots disk) as Hi. unfold reachable in H. induction H as [|x y z Hxy _ IH]; [done|].
  apply IH. by eapply ledger_inv_step.
Qed.
End invariant.

(** ** The tracker reports each persona once, when its last slot resolves *)

Section tracked.
Context {Rec : Type} (slots : list Slot).
Implicit Types (t : personaTracker Rec).

Definition unresolved t (name : string) : list nat := filter (fun j => t_results t !! j = None) (slots_of t name).

Record trk_ok t (fired : list (event Rec)) : Prop := mkTrkOk {
  tk_agent : t_agent t = Name <$> slots;
  tk_pending : forall name, count_at (t_pending t) name = length (unresolved t name);
  tk_once : NoDup ((fun e => e.1.1) <$> fired);
  tk_done : forall name, name ∈ (fun e => e.1.1) <$> fired -> unresolved t name = [];
  tk_event : forall name idx rs, (name, idx, rs) ∈ fired ->
    idx = slots_of t name /\ Forall2 (fun j r => t_results t !! j = Some r) idx rs;
  tk_all : forall name, slots_of t name <> [] -> unresolved t name = [] -> name ∈ (fun e => e.1.1) <$> fired;
}.

Lemma slots_of_same t t' name : t_agent t' = t_agent t -> slots_of t' name = slots_of t name.
Proof. intros E. unfold slots_of. by rewrite E. Qed.

Lemma elem_of_slots_of t name i : i ∈ slots_of t name <-> t_agent t !! i = Some name.
Proof.
  unfold slots_of. rewrite list_elem_of_filter, elem_of_seq. split; [by intros [? _]|]. intros H. split; [done|].
  apply lookup_lt_Some in H. lia.
Qed.

Lemma slots_of_NoDup t name : NoDup (slots_of t name).
Proof. apply NoDup_filter, NoDup_seq. Qed.

(** Resolving one slot takes it, and only it, out of its persona's unresolved slots. *)
Lemma unresolved_insert t t' i (r : Result Rec) name : t_agent t' = t_agent t -> t_results t' = <[i := r]> (t_results t) ->
  t_results t !! i = None ->
  (t_agent t !! i = Some name -> length (unresolved t name) = S (length (unresolved t' name))) /\
  (t_agent t !! i <> Some name -> unresolved t' name = unresolved t name).
Proof.
  intros Ea Er Hi. unfold unresolved. rewrite (slots_of_same t t' name Ea), Er. split.
  - intros Hn. apply elem_of_slots_of in Hn. apply list_elem_of_split in Hn as (pre & post & E).
    pose proof (slots_of_NoDup t name) as Hnd. rewrite E in *. apply NoDup_app in Hnd as (_ & Hpre & [Hpost _]%NoDup_cons).
    assert (forall l : list nat, i ∉ l -> filter (fun j => <[i := r]> (t_results t) !! j = None) l = filter (fun j => t_results t !! j = None) l) as Hsame.
    { intros l Hl. apply filter_iff_in. intros j Hj. rewrite lookup_insert_ne; [done|]. by intros ->. }
    rewrite !filter_app, !filter_cons, lookup_insert_eq, decide_True, decide_False by done. rewrite !Hsame; [|done|].
    + rewrite !length_app. cbn. lia.
    + intros Hin. apply (Hpre i Hin). left.
  - intros Hn. apply filter_iff_in. intros j Hj%elem_of_slots_of. rewrite lookup_insert_ne; [done|]. by intros ->.
Qed.

Lemma omap_resolved (m : gmap nat (Result Rec)) idx : (forall j, j ∈ idx -> m !! j <> None) ->
  Forall2 (fun j r => m !! j = Some r) idx (omap (fun j => m !! j) idx).
Proof.
  induction idx as [|j idx IH]; intros H; [constructor|]. cbn. destruct (m !! j) eqn:E; [|by destruct (H j (list_elem_of_here _ _))].
  constructor; [done|]. apply IH. intros k Hk. apply H. by right.
Qed.

Lemma trk_step i (r : Result Rec) t fired : trk_ok t fired ->
  trk_ok (tracker_done i r t).1 (fired ++ option_list (tracker_done i r t).2).
Proof.
  intros Hok. unfold tracker_done. destruct (t_agent t !! i) as [name|] eqn:Ea; [|by rewrite app_nil_r].
  destruct (t_results t !! i) eqn:Er; [by rewrite app_nil_r|]. destruct Hok as [Hag Hpe Hon Hdo Hev Hal].
  set (t' := mkTracker _ _ _). pose proof (fun n => unresolved_insert t t' i r n eq_refl eq_refl Er) as Hun.
  pose proof (proj1 (Hun name) Ea) as Hlen. rewrite <- Hpe in Hlen.
  assert (count_at (t_pending t) name - 1 = length (unresolved t' name)) as Ep by lia.
  assert (forall n, count_at (t_pending t') n = length (unresolved t' n)) as Hpe'.
  { intros n. cbn [t' t_pending]. rewrite count_insert. destruct (decide (n = name)) as [->|Hne]; [done|].
    rewrite (proj2 (Hun n)); [apply Hpe|]. rewrite Ea. congruence. }
  assert (forall n, n <> name -> unresolved t' n = unresolved t n) as Hoth by (intros n Hne; apply Hun; rewrite Ea; congruence).
  assert (name ∉ (fun e => e.1.1) <$> fired) as Hnew by (intros Hin; rewrite Hpe, (Hdo name Hin) in Hlen; done).
  assert (forall n idx rs, (n, idx, rs) ∈ fired -> idx = slots_of t' n /\ Forall2 (fun j q => t_results t' !! j = Some q) idx rs) as Hev'.
  { intros n idx rs Hin. destruct (Hev n idx rs Hin) as [-> Hall]. split; [done|]. eapply Forall2_impl; [exact Hall|].
    intros j q Hj. cbn. rewrite lookup_insert_ne; [done|]. intros <-. congruence. }
  destruct (0 <? count_at (t_pending t) name - 1) eqn:Ez; cbn [fst snd option_list option_rect]; bool_prop.
  - rewrite app_nil_r. split; try done.
    + intros n Hin. rewrite Hoth; [by apply Hdo|]. by intros ->.
    + intros n Hs Hu. destruct (decide (n = name)) as [->|Hne]; [rewrite Hu in Ep; cbn in Ep; lia|].
      rewrite Hoth in Hu by done. by apply Hal.
  - assert (unresolved t' name = []) as Hnil by (apply length_zero_iff_nil; lia). split; try done.
    + rewrite fmap_app. apply NoDup_app. split; [done|]. split; [|apply NoDup_singleton]. by intros n Hn ->%list_elem_of_singleton.
    + intros n. rewrite fmap_app, elem_of_app, fmap_cons, fmap_nil, list_elem_of_singleton. cbn [fst]. intros [Hin| ->]; [|done].
      rewrite Hoth; [by apply Hdo|]. by intros ->.
    + intros n idx rs [Hin|Hin]%elem_of_app; [by apply Hev'|]. apply list_elem_of_singleton in Hin. injection Hin as -> -> ->.
      split; [done|]. apply omap_resolved. intros j Hj Hj'. assert (j ∈ unresolved t' name) as Hju by (by apply list_elem_of_filter).
      rewrite Hnil in Hju. by apply elem_of_nil in Hju.
    + intros n Hs Hu. rewrite fmap_app, elem_of_app, fmap_cons, fmap_nil, list_elem_of_singleton. cbn [fst].
      destruct (decide (n = name)) as [->|Hne]; [by right|]. left. rewrite Hoth in Hu by done. by apply Hal.
Qed.

Lemma positions_count (l : list string) x :
  length (filter (fun j => l !! j = Some x) (seq 0 (length l))) = length (filter (fun y => y = x) l).
Proof.
  induction l as [|y l IH] using rev_ind; [done|]. rewrite length_app, seq_app, !filter_app, !length_app. cbn [length seq Nat.add].
  f_equal.
  - rewrite <- IH. apply (f_equal length), filter_iff_in. intros j [_ Hj]%elem_of_seq. by rewrite lookup_app_l by lia.
  - rewrite !filter_cons, !filter_nil, list_lookup_middle by done. destruct (decide (y = x)) as [->|Hne].
    + by rewrite decide_True.
    + rewrite decide_False; [done|]. by intros [= ->].
Qed.

Lemma pending_count (ss : list Slot) name :
  count_at (foldl (fun m s => <[Name s := S (count_at m (Name s))]> m) ∅ ss) name = length (filter (fun y => y = name) (Name <$> ss)).
Proof.
  induction ss as [|s ss IH] using rev_ind; [done|].
  rewrite foldl_snoc, count_insert, fmap_app, filter_app, length_app, <- IH, fmap_cons, fmap_nil, filter_cons, filter_nil.
  destruct (decide (name = Name s)) as [->|Hne].
  - rewrite decide_True by done. cbn. lia.
  - rewrite decide_False by congruence. cbn. lia.
Qed.

Lemma trk_initial : trk_ok (newPersonaTracker (Rec := Rec) slots) [].
Proof.
  set (t := newPersonaTracker slots).
  assert (forall name, unresolved t name = slots_of t name) as Hall.
  { intros name. apply filter_Forall_id, Forall_forall. intros j _. apply lookup_empty. }
  split.
  - done.
  - intros name. rewrite Hall. unfold slots_of. cbn [t newPersonaTracker t_agent t_pending]. rewrite positions_count.
    apply pending_count.
  - constructor.
  - by intros name ?%elem_of_nil.
  - by intros name idx rs ?%elem_of_nil.
  - intros name Hs Hu. by rewrite Hall in Hu.
Qed.
End tracked.

Lemma trk_reachable {Rec : Type} (p : plan) slots disk (w : world (Rec := Rec)) : reachable p slots disk w ->
  trk_ok slots (w_trk w) (w_fired w).
Proof.
  intros H. pose proof (trk_initial (Rec := Rec) slots) as Hi. change (trk_ok slots (w_trk (initial (Rec := Rec) p slots disk)) (w_fired (initial (Rec := Rec) p slots disk))) in Hi.
  unfold reachable in H. induction H as [|x y z Hxy _ IH]; [done|]. apply IH. destruct Hxy; try exact Hi.
  unfold run_tracker. pose proof (trk_step slots i r (w_trk w) (w_fired w) Hi) as Hs.
  by destruct (tracker_done i r (w_trk w)).
Qed.

(** ** The plans of the code give every slot a bin of its own *)

Lemma plan_ok_planned slots p : planned slots p -> plan_ok p.
Proof.
  intros [Hr Hs _ _].
  assert (forall i dir k, bySlot p !! i = Some (dir, k) -> exists s, slots !! i = Some s /\ slot_dir s = Some dir /\
    k = length (bins_for (own dir (take i slots)))) as Href.
  { intros i dir k Hi. rewrite Hs in Hi. destruct (slots !! i) as [s|] eqn:Es; [|done]. cbn in Hi.
    destruct (slot_dir s) as [d|] eqn:Ed; [|done]. cbn in Hi. injection Hi as -> <-. by exists s. }
  split.
  - intros i dir k (s & Es & Ed & ->)%Href. pose proof (bins_for_slot dir slots i s Es Ed) as Hb. rewrite Hr.
    assert (s ∈ own dir slots) as Hin by (apply list_elem_of_filter; split; [done|by eapply list_elem_of_lookup_2]).
    destruct (own dir slots) as [|s0 l] eqn:Eo; [by apply elem_of_nil in Hin|]. eexists _, _. split; [done|]. exact Hb.
  - assert (forall i j dir k, i < j -> bySlot p !! i = Some (dir, k) -> bySlot p !! j = Some (dir, k) -> False) as Hlt.
    { intros i j dir k Hij (s & Es & Ed & E1)%Href (s' & Es' & _ & E2)%Href.
      assert (own dir (take j slots) = (own dir (take i slots) ++ [s]) ++ own dir (drop (S i) (take j slots))) as E.
      { assert (take j slots !! i = Some s) as Hti by (by rewrite lookup_take_lt).
        rewrite <- (take_drop_middle (take j slots) i s Hti) at 1. rewrite take_take, Nat.min_l by lia. unfold own.
        by rewrite filter_app, filter_cons_True, <- app_assoc. }
      rewrite E in E2. destruct (bins_for_app (own dir (take i slots) ++ [s]) (own dir (drop (S i) (take j slots)))) as [ext Eext].
      rewrite Eext, bins_for_snoc in E2. destruct (bins_step_app (bins_for (own dir (take i slots))) s) as [ext' Eext'].
      rewrite Eext', !length_app in E2. cbn in E2. lia. }
    intros i j dir k Hi Hj. destruct (Nat.lt_trichotomy i j) as [H|[H|H]]; [by destruct (Hlt i j dir k)|done|by destruct (Hlt j i dir k)].
Qed.

Lemma plan_ok_inherit_dir prior p dir : plan_ok p -> plan_ok (inherit_dir prior p dir).
Proof.
  intros [Hv Hi]. unfold inherit_dir. destruct (prior !! dir) as [pr|]; [|done]. destruct (records p !! dir) as [rec|] eqn:Er; [|done].
  split; [|exact Hi]. intros i d k Hk. destruct (Hv i d k Hk) as (rc & b & Hrc & Hb). cbn. destruct (decide (d = dir)) as [->|Hne].
  - rewrite lookup_insert_eq. eexists _, _. split; [done|]. cbn. rewrite list_lookup_fmap. assert (rc = rec) as -> by congruence.
    by rewrite Hb.
  - rewrite lookup_insert_ne by done. by exists rc, b.
Qed.

Lemma plan_ok_carry_dir prior p dir : plan_ok p -> plan_ok (carry_dir prior p dir).
Proof.
  intros [Hv Hi]. unfold carry_dir. destruct (prior !! dir) as [pr|]; [|done]. destruct (records p !! dir) as [rec|] eqn:Er; [|done].
  case_bool_decide; [done|]. set (n := length _). split; cbn [records bySlot].
  - intros i d k Hk. destruct (decide (d = dir)) as [->|Hne].
    + apply shift_lookup_eq in Hk as (k' & Hk' & ->). destruct (Hv i dir k' Hk') as (rc & b & Hrc & Hb).
      rewrite lookup_insert_eq. eexists _, _. split; [done|]. cbn [set_Bins Bins]. unfold renumber. rewrite list_lookup_imap.
      assert (rc = rec) as -> by congruence. rewrite (lookup_app_l_Some _ _ _ b); [done|].
      rewrite lookup_app_r by lia. subst n. by rewrite Nat.add_sub.
    + apply shift_lookup in Hk; [|done]. rewrite lookup_insert_ne by done. by apply (Hv i).
  - intros i j d k Hk Hk'. destruct (decide (d = dir)) as [->|Hne].
    + apply shift_lookup_eq in Hk as (k1 & H1 & E1), Hk' as (k2 & H2 & E2). assert (k1 = k2) as -> by lia. by eapply Hi.
    + apply shift_lookup in Hk, Hk'; [|done..]. by eapply Hi.
Qed.

Lemma plan_ok_resume slots prior p : newChunkLedger slots = Some p -> plan_ok (resume_plan prior p).
Proof.
  unfold newChunkLedger. case_bool_decide; [done|]. intros [= <-]. unfold resume_plan, carryReviewed, inheritAttempts.
  apply (foldl_preserves plan_ok); [|intros q d _; apply plan_ok_carry_dir].
  apply (foldl_preserves plan_ok); [|intros q d _; apply plan_ok_inherit_dir]. eapply plan_ok_planned, plan_planned.
Qed.

(** ** What the disk holds *)

Lemma disk_untouched {Rec : Type} (p : plan) slots disk (w : world (Rec := Rec)) dir : reachable p slots disk w ->
  w_dgen w !! dir = None -> w_disk w !! dir = disk !! dir.
Proof.
  intros H. unfold reachable in H. cut (forall v u : world (Rec := Rec), rtc step v u ->
    (w_dgen v !! dir = None -> w_disk v !! dir = disk !! dir) -> w_dgen u !! dir = None -> w_disk u !! dir = disk !! dir).
  { intros Hcut. by apply (Hcut _ _ H). }
  clear. induction 1 as [|x y z Hxy _ IH]; [done|]. intros Hx. apply IH. destruct Hxy; try exact Hx.
  - cbn. destruct (decide (dir = dir0)) as [->|Hne]; [by rewrite lookup_insert_eq|by rewrite !lookup_insert_ne].
  - unfold run_tracker. by destruct (tracker_done i r (w_trk w)).
Qed.

(** C30. The ledger keeps its promise under every interleaving of the hooks, for the plan of
    any slots, resumed or not: a persona is
    reported done at most once, with the results of its slots in order, as soon as all of
    them have resolved, and, unless a write failed, at that moment and ever after the file
    on disk holds the outcome of every one of its recorded bins. A file is never torn: it is
    what an earlier run left or a version of the planned record. *)
Theorem durable_before_reported {Rec : Type} (slots : list Slot) (prior : gmap string chunkRecord) (p0 : plan)
    (disk : gmap string chunkRecord) (w : world (Rec := Rec)) (Hplan : newChunkLedger slots = Some p0)
    (Hw : reachable (resume_plan prior p0) slots disk w) :
  let p := resume_plan prior p0 in
  NoDup ((fun e => e.1.1) <$> w_fired w) /\
  (forall name idx rs, (name, idx, rs) ∈ w_fired w ->
     idx = filter (fun i => (Name <$> slots) !! i = Some name) (seq 0 (length slots)) /\ length rs = length idx /\
     (failed (w_led w) = None -> forall i r dir k, (i, r) ∈ zip idx rs -> bySlot p !! i = Some (dir, k) ->
        exists rec x b, w_disk w !! dir = Some rec /\ Bins rec !! k = Some (complete_bin x r b))) /\
  (forall name, name ∈ Name <$> slots ->
     (forall i, (Name <$> slots) !! i = Some name -> is_Some (t_results (w_trk w) !! i)) -> name ∈ (fun e => e.1.1) <$> w_fired w) /\
  (forall dir rec, w_disk w !! dir = Some rec ->
     disk !! dir = Some rec \/ exists rec0, records p !! dir = Some rec0 /\ shape rec = shape rec0).
Proof.
  intros p. destruct (ledger_inv p (plan_ok_resume slots prior p0 Hplan) slots disk w Hw) as [Hm _]. destruct (trk_reachable p slots disk w Hw) as [Hag Hpe Hon Hdo Hev Hal].
  split; [done|]. split; [|split].
  - intros name idx rs Hin. destruct (Hev name idx rs Hin) as [-> Hall]. unfold slots_of at 1. rewrite Hag, length_fmap.
    split; [done|]. split; [by apply Forall2_length in Hall|]. intros Hfail i r dir k Hz Hi.
    assert (t_results (w_trk w) !! i = Some r) as Hr.
    { apply list_elem_of_lookup in Hz as [n Hn]. rewrite lookup_zip_with in Hn.
      destruct (slots_of (w_trk w) name !! n) eqn:E1; [|done]. destruct (rs !! n) eqn:E2; [|done]. injection Hn as <- <-.
      by eapply Forall2_lookup_lr in Hall. }
    destruct (iv_trk _ _ Hm i r Hr) as (g & Hg & Hw').
    assert (ref w i = Some (dir, k)) as Hi' by (unfold ref; by rewrite (proj1 (iv_refs _ _ Hm))).
    destruct (Hw' dir k Hi') as [Hpos Hle]. destruct (iv_durable _ _ Hm Hfail dir) as (g' & Hg' & Hle'); [lia|].
    destruct (iv_disk _ _ Hm dir g' Hg') as (h & rec & Hh & Hrec & Hd).
    destruct (iv_done _ _ Hm i g r dir k Hg Hi') as [_ Hver]. destruct (Hver h g' rec Hh) as (x & b & Hb); [lia|done|].
    by exists rec, x, b.
  - intros name Hname Hres. apply Hal.
    + apply list_elem_of_lookup in Hname as [i Hi]. rewrite <- Hag in Hi. apply elem_of_slots_of in Hi. intros E. rewrite E in Hi.
      by apply elem_of_nil in Hi.
    + unfold unresolved. apply filter_Forall_nil, Forall_forall. intros i Hi%elem_of_slots_of. rewrite Hag in Hi.
      destruct (Hres i Hi) as [r ->]. done.
  - intros dir rec Hd. destruct (w_dgen w !! dir) as [g|] eqn:Eg.
    + destruct (iv_disk _ _ Hm dir g Eg) as (h & rec' & Hh & Hrec & Hd'). assert (rec' = rec) as -> by congruence.
      right. apply (iv_shape _ _ Hm dir h rec Hh). by eapply list_elem_of_lookup_2.
    + left. by rewrite <- (disk_untouched p slots disk w dir Hw Eg).
Qed.

(** ** Every call returns *)

Definition todo {Rec : Type} (c : pc (Rec := Rec)) : nat :=
  match c with
  | Called _ => 8 | Flush _ _ _ => 7 | Locked _ _ _ => 6 | Writing _ _ _ _ _ => 5 | Wrote _ _ _ _ _ => 4
  | Unlock _ _ _ => 3 | Track _ _ => 2 | Returned => 0
  end.
Fixpoint work_of {Rec : Type} (cs : list (pc (Rec := Rec))) : nat := match cs with [] => 0 | c :: cs' => todo c + work_of cs' end.
Definition work {Rec : Type} (w : world (Rec := Rec)) : nat := work_of (w_pcs w).

Lemma work_insert {Rec : Type} (cs : list (pc (Rec := Rec))) t c0 c : cs !! t = Some c0 -> todo c < todo c0 -> work_of (<[t := c]> cs) < work_of cs.
Proof.
  revert t. induction cs as [|x cs IH]; intros [|t] H Hlt; try done.
  - injection H as ->. cbn. lia.
  - specialize (IH t H Hlt). change (todo x + work_of (<[t := c]> cs) < todo x + work_of cs). lia.
Qed.

Lemma work_goto {Rec : Type} (w w1 : world (Rec := Rec)) t c0 c : w_pcs w !! t = Some c0 -> w_pcs w1 = w_pcs w -> todo c < todo c0 ->
  work (goto t c w1) < work w.
Proof. intros H0 E Hlt. unfold work. cbn [goto w_pcs]. rewrite E. by eapply work_insert. Qed.

Lemma step_work {Rec : Type} (w w' : world (Rec := Rec)) : step w w' -> (exists c, w' = new_call c w) \/ work w' < work w.
Proof.
  intros H. destruct H; [left; by eexists| right..]; (eapply work_goto; [eassumption|try done|cbn; try lia]).
  - destruct k as [[]|]; cbn; lia.
  - unfold run_tracker. by destruct (tracker_done i r (w_trk w)).
Qed.

(** A thread that is not waiting for a lock can move. *)
Lemma can_move {Rec : Type} (p : plan) (w : world (Rec := Rec)) t c : inv p w -> w_pcs w !! t = Some c -> c <> Returned ->
  (forall dir want k, c = Flush dir want k -> w_mu w !! dir = None) -> exists w', step w w' /\ work w' < work w.
Proof.
  intros [Hm Hp] H0 Hnr Hfree.
  assert (forall w', step w w' -> (forall c, w' <> new_call c w) -> exists w', step w w' /\ work w' < work w) as Hgo.
  { intros w' Hs Hn. exists w'. split; [done|]. destruct (step_work w w' Hs) as [[d Hd]|]; [by destruct (Hn d)|done]. }
  assert (forall w' : world (Rec := Rec), length (w_pcs w') = length (w_pcs w) -> forall d, w' <> new_call d w) as Hlen.
  { intros w' E d ->. cbn in E. rewrite length_app in E. cbn in E. lia. }
  destruct c as [[dir|i|i r|i]|dir want k|dir want k|dir want snap data k|dir want snap ok k|dir want k|i r|]; [..|done].
  - eapply Hgo; [by eapply step_plan|]. apply Hlen. apply length_insert.
  - eapply Hgo; [by eapply step_start|]. apply Hlen. apply length_insert.
  - destruct (bySlot (l_plan (w_led w)) !! i) as [[dir k]|] eqn:E.
    + eapply Hgo; [by eapply step_done|]. apply Hlen. apply length_insert.
    + eapply Hgo; [by eapply step_done_bulk|]. apply Hlen. apply length_insert.
  - destruct (bySlot (l_plan (w_led w)) !! i) as [[dir k]|] eqn:E.
    + eapply Hgo; [by eapply step_requeue|]. apply Hlen. apply length_insert.
    + eapply Hgo; [by eapply step_requeue_bulk|]. apply Hlen. apply length_insert.
  - eapply Hgo; [eapply step_lock; [exact H0|by eapply Hfree]|]. apply Hlen. apply length_insert.
  - destruct (decide (want <= count_at (written (w_led w)) dir)) as [Hle|Hgt].
    + eapply Hgo; [by eapply step_covered|]. apply Hlen. apply length_insert.
    + destruct (iv_fwd _ Hp t _ H0) as [[Hw _] _]. pose proof (iv_hist _ _ Hm dir) as Hh.
      destruct (records (l_plan (w_led w)) !! dir) as [data|] eqn:Er; [|lia].
      eapply Hgo; [eapply step_snapshot; [exact H0|lia|exact Er]|]. apply Hlen. apply length_insert.
  - eapply Hgo; [by eapply step_write|]. apply Hlen. apply length_insert.
  - eapply Hgo; [by eapply step_account|]. apply Hlen. apply length_insert.
  - eapply Hgo; [by eapply step_unlock|]. apply Hlen. apply length_insert.
  - eapply Hgo; [by eapply step_track|]. apply Hlen. unfold run_tracker. destruct (tracker_done i r (w_trk w)). apply length_insert.
Qed.

(** C31. No call of a hook is ever stuck and none runs for ever: in every reachable state in
    which some call has not returned, a step other than a new call is possible and brings
    the calls nearer their end; and every step but a new call does, so that at most [work]
    more of them follow once no more calls arrive. *)
Theorem ledger_calls_return {Rec : Type} (slots : list Slot) (prior : gmap string chunkRecord) (p0 : plan)
    (disk : gmap string chunkRecord) (w : world (Rec := Rec)) (Hplan : newChunkLedger slots = Some p0)
    (Hw : reachable (resume_plan prior p0) slots disk w) :
  (forall w', step w w' -> (exists c, w' = new_call c w) \/ work w' < work w) /\
  (forall t c, w_pcs w !! t = Some c -> c <> Returned -> exists w', step w w' /\ work w' < work w).
Proof.
  pose proof (ledger_inv _ (plan_ok_resume slots prior p0 Hplan) slots disk w Hw) as Hi. split; [apply step_work|]. intros t c H0 Hnr.
  assert (forall dir, w_mu w !! dir <> None -> exists w', step w w' /\ work w' < work w) as Hheld.
  { intros dir Hmu. destruct (w_mu w !! dir) as [t'|] eqn:E; [|done]. destruct Hi as [Hm Hp].
    apply (iv_lock _ Hp) in E as (c' & Hc' & Hh). apply (can_move _ w t' c' (conj Hm Hp) Hc'); [by intros ->|by intros d want k ->]. }
  destruct c as [| dir want k| | | | | |]; try (by eapply can_move).
  destruct (w_mu w !! dir) as [t'|] eqn:E; [by apply (Hheld dir); rewrite E|].
  apply (can_move _ w t _ Hi H0 Hnr). intros d want' k' [= -> _ _]. exact E.
Qed.

(** ** Runs that can be evaluated *)

Section scheduler.
Context {Rec : Type}.

Definition admissible_b (c : call (Rec := Rec)) (w : world (Rec := Rec)) : bool :=
  match c with
  | Plan dir => bool_decide (is_Some (records (l_plan (w_led w)) !! dir))
  | Start i | Done i _ | Requeue i =>
      bool_decide (w_done w !! i ≫= (fun _ => Some tt) = None) &&
      forallb (fun q => match q with Called c' => negb (bool_decide (call_slot c' = Some i)) | _ => true end) (w_pcs w)
  end.

(** The step of thread [t], its write going through if [ok]. *)
Definition advance (t : nat) (ok : bool) (w : world (Rec := Rec)) : option world :=
  match w_pcs w !! t with
  | Some (Called (Plan dir)) =>
      let l := touch dir (w_led w) in Some (goto t (Flush dir (count_at (gen l) dir) None) (push dir l w))
  | Some (Called (Start i)) => Some (goto t Returned (set_led (slotStart i (w_led w)) w))
  | Some (Called (Done i r)) =>
      match bySlot (l_plan (w_led w)) !! i with
      | Some (dir, k) =>
          let l := restamp i dir k (fun leased => complete_bin leased r) (w_led w) in
          let want := count_at (gen l) dir in
          Some (goto t (Flush dir want (Some (i, r))) (note_done i want r (push dir l w)))
      | None => Some (goto t (Track i r) (note_done i 0 r w))
      end
  | Some (Called (Requeue i)) =>
      match bySlot (l_plan (w_led w)) !! i with
      | Some (dir, k) =>
          let l := restamp i dir k requeue_bin (w_led w) in Some (goto t (Flush dir (count_at (gen l) dir) None) (push dir l w))
      | None => Some (goto t Returned w)
      end
  | Some (Flush dir want k) =>
      match w_mu w !! dir with
      | None => Some (goto t (Locked dir want k) (set_mu (<[dir := t]> (w_mu w)) w))
      | Some _ => None
      end
  | Some (Locked dir want k) =>
      if decide (want <= count_at (written (w_led w)) dir) then Some (goto t (Unlock dir want k) w)
      else data ← records (l_plan (w_led w)) !! dir; Some (goto t (Writing dir want (count_at (gen (w_led w)) dir) data k) w)
  | Some (Writing dir want snap data k) =>
      Some (if ok then goto t (Wrote dir want snap true k) (set_disk dir data snap w) else goto t (Wrote dir want snap false k) w)
  | Some (Wrote dir want snap ok k) => Some (goto t (Unlock dir want k) (set_led (account dir snap ok (w_led w)) w))
  | Some (Unlock dir want k) => Some (goto t (then_pc k) (set_mu (delete dir (w_mu w)) w))
  | Some (Track i r) => Some (goto t Returned (run_tracker i r w))
  | Some Returned | None => None
  end.

(** A schedule: calls that arrive, and steps of threads. *)
Fixpoint play (ms : list (call (Rec := Rec) + nat * bool)) (w : world (Rec := Rec)) : option world :=
  match ms with
  | [] => Some w
  | inl c :: ms => if admissible_b c w then play ms (new_call c w) else None
  | inr (t, ok) :: ms => advance t ok w ≫= play ms
  end.

Lemma admissible_sound c w : admissible_b c w = true -> admissible c w.
Proof.
  unfold admissible, admissible_b. destruct c as [dir|i|i r|i]; cbn; [by intros ?%bool_decide_eq_true_1 d [= <-]|..].
  all: intros [E Hf]%andb_true_iff; apply bool_decide_eq_true_1 in E; split; [by destruct (w_done w !! i)|].
  all: intros c' Hc; rewrite forallb_forall in Hf; specialize (Hf _ (proj1 (list_elem_of_In _ _) Hc)); by apply negb_true_iff, bool_decide_eq_false_1 in Hf.
Qed.

Lemma advance_sound t ok w w' : advance t ok w = Some w' -> step w w'.
Proof.
  unfold advance. destruct (w_pcs w !! t) as [c|] eqn:E; [|done].
  destruct c as [[dir|i|i r|i]|dir want k|dir want k|dir want snap data k|dir want snap ok' k|dir want k|i r|]; [..|done].
  - intros [= <-]. by eapply step_plan.
  - intros [= <-]. by eapply step_start.
  - destruct (_ !! i) as [[dir k]|] eqn:Ei; intros [= <-]; [by eapply step_done|by eapply step_done_bulk].
  - destruct (_ !! i) as [[dir k]|] eqn:Ei; intros [= <-]; [by eapply step_requeue|by eapply step_requeue_bulk].
  - destruct (w_mu w !! dir) eqn:Em; [done|]. intros [= <-]. by eapply step_lock.
  - case_decide as Hw; [intros [= <-]; by eapply step_covered|]. destruct (_ !! dir) as [data|] eqn:Ed; [|done].
    intros [= <-]. eapply step_snapshot; [done|lia|done].
  - destruct ok; intros [= <-]; [by eapply step_write|by eapply step_write_fails].
  - intros [= <-]. by eapply step_account.
  - intros [= <-]. by eapply step_unlock.
  - intros [= <-]. by eapply step_track.
Qed.

Lemma play_sound ms w w' : play ms w = Some w' -> rtc step w w'.
Proof.
  revert w. induction ms as [|[c|[t ok]] ms IH]; intros w; cbn; [by intros [= <-]|..].
  - destruct (admissible_b c w) eqn:E; [|done]. intros H. eapply rtc_l; [|by apply IH]. by apply step_call, admissible_sound.
  - destruct (advance t ok w) as [w1|] eqn:E; [|done]. intros H. eapply rtc_l; [by eapply advance_sound|by apply IH].
Qed.
End scheduler.

(** Two workers resolve the two bins of a resumed plan. The first write captures both
    completions, so the second call returns without one. *)
Definition sample_schedule : list (call (Rec := unit) + nat * bool) :=
  inl (Start 0) :: inl (Start 1) :: inr (0, true) :: inr (1, true) :: inl (Done 0 clean_chunk) :: inl (Done 1 timed_out) ::
  inr (2, true) :: inr (3, true) :: (inr <$> [(2, true); (2, true); (2, true); (2, true); (2, true)]) ++
  (inr <$> [(3, true); (3, true); (3, true); (3, true); (2, true)]).
Definition sample_plan : plan := default (mkPlan ∅ ∅ [] ∅ ∅) (newChunkLedger sample_slots).
Definition sample_world : world (Rec := unit) :=
  default (initial (resume_plan sample_prior_map sample_plan) sample_slots sample_prior_map)
    (play sample_schedule (initial (resume_plan sample_prior_map sample_plan) sample_slots sample_prior_map)).

Example sample_world_reports :
  ((fun e => (e.1.1, e.1.2)) <$> w_fired sample_world, writes (w_led sample_world),
   (fun b => (Index b, Outcome b, Attempts b)) <$> default [] (Bins <$> w_disk sample_world !! "greta")) =
  ([("greta", [0; 1])], 1, [(0%Z, "ok", 1%Z); (1%Z, "ok", 3%Z); (2%Z, "timeout", 3%Z); (3%Z, "deferred", 0%Z)]).
Proof. by vm_compute. Qed.

Lemma sample_world_reached : reachable (resume_plan sample_prior_map sample_plan) sample_slots sample_prior_map sample_world.
Proof.
  apply play_sound with sample_schedule. unfold sample_world.
  destruct (play sample_schedule _) eqn:E; [done|]. exfalso.
  assert (bool_decide (play sample_schedule (initial (resume_plan sample_prior_map sample_plan) sample_slots sample_prior_map)
    ≫= (fun _ => Some tt) = None) = false) as Hn by by vm_compute.
  rewrite E in Hn. done.
Qed.

Lemma durable_before_reported_witness :
  newChunkLedger sample_slots = Some sample_plan /\ NoDup ((fun e => e.1.1) <$> w_fired sample_world) /\
  exists rec x b, w_disk sample_world !! "greta" = Some rec /\ Bins rec !! 2 = Some (complete_bin x timed_out b).
Proof.
  assert (newChunkLedger sample_slots = Some sample_plan) as E by by vm_compute.
  destruct (durable_before_reported sample_slots sample_prior_map sample_plan sample_prior_map sample_world E sample_world_reached)
    as (Hn & Hd & _).
  split; [exact E|]. split; [exact Hn|].
  destruct (Hd "greta" [0; 1] [clean_chunk; timed_out]) as (_ & _ & Hb).
  - assert (w_fired sample_world = [("greta", [0; 1], [clean_chunk; timed_out])]) as -> by by vm_compute. by left.
  - apply (Hb ltac:(by vm_compute) 1 timed_out "greta" 2); [by right; left|by vm_compute].
Defined.

Lemma ledger_calls_return_witness :
  newChunkLedger sample_slots = Some sample_plan /\ w_pcs sample_world !! 2 = Some Returned /\
  forall w', step sample_world w' -> (exists c, w' = new_call c sample_world) \/ work w' < work sample_world.
Proof.
  assert (newChunkLedger sample_slots = Some sample_plan) as E by by vm_compute.
  split; [exact E|]. split; [by vm_compute|].
  exact (proj1 (ledger_calls_return sample_slots sample_prior_map sample_plan sample_prior_map sample_world E sample_world_reached)).
Defined.
