(* ===== verification/GoTime.v ===== *)
(** * time.Parse and Time.Format, for [time.RFC3339]

    Go's package [time] as the sources use it: [time.Parse(time.RFC3339, s)] and
    [t.UTC().Format(time.RFC3339)]. An instant is an integer, the nanoseconds since
    the start of the year 0 in UTC, which is what [Time.Before] compares. The parser is
    the general one of the package (one-digit hours, a fraction after the seconds, an
    offset of up to 24:60); its fast path agrees with it wherever it answers. On the
    form every writer of the store emits, UTC to the second, the order of the strings is
    the order of the instants. *)

From Stdlib Require Import Ascii String.
From stdpp Require Import prelude strings list.
From Stdlib Require Import ZArith Lia.
From S2P Require Import Prelude GoString GoStrconv.

Open Scope string_scope.
Open Scope list_scope.
Open Scope Z_scope.

(** ** The calendar *)

Definition leap (y : Z) : bool := (y mod 4 =? 0) && (negb (y mod 100 =? 0) || (y mod 400 =? 0)).
Definition month_days : list Z := [31; 28; 31; 30; 31; 30; 31; 31; 30; 31; 30; 31].
Definition daysIn (m y : Z) : Z :=
  if (m =? 2) && leap y then 29 else month_days !!! Z.to_nat (m - 1).

(** Days from the start of the year 0 to the start of year [y], and from the start of
    [y] to the start of its month [m]. *)
Definition days_before_year (y : Z) : Z := 365 * y + (y + 3) / 4 - (y + 99) / 100 + (y + 399) / 400.
Definition days_before_month (m y : Z) : Z :=
  foldr Z.add 0 (take (Z.to_nat (m - 1)) month_days) + (if (2 <? m) && leap y then 1 else 0).

Definition second_ns : Z := 10 ^ 9.
(** [time.Date(..., time.UTC)] of fields in range. *)
Definition Date (y mo d h mi s ns : Z) : Z :=
  (((days_before_year y + days_before_month mo y + (d - 1)) * 24 + h) * 60 + mi) * 60 * second_ns
  + s * second_ns + ns.

(** ** Parsing *)

Definition head_is (f : ascii -> bool) (l : bytes) : bool := match l with c :: _ => f c | [] => false end.
Definition skip_char (c : ascii) (l : bytes) : option bytes :=
  match l with x :: l' => if Ascii.eqb x c then Some l' else None | [] => None end.

(** [getnum]: one or two digits, two when [fixed]. *)
Definition getnum (fixed : bool) (l : bytes) : option (Z * bytes) :=
  match l with
  | a :: b :: l' =>
      if negb (is_digit a) then None
      else if is_digit b then Some (10 * digit_value a + digit_value b, l')
      else if fixed then None else Some (digit_value a, b :: l')
  | [a] => if is_digit a && negb fixed then Some (digit_value a, []) else None
  | [] => None
  end.

Definition get_year (l : bytes) : option (Z * bytes) :=
  if (length l <? 4)%nat then None
  else y ← read_digits (take 4 l) 0; Some (y, drop 4 l).

Definition in_range (lo hi : Z) (p : Z * bytes) : option (Z * bytes) :=
  if (lo <=? p.1) && (p.1 <=? hi) then Some p else None.

Fixpoint take_digits (l : bytes) : bytes * bytes :=
  match l with
  | c :: l' => if is_digit c then let '(ds, rest) := take_digits l' in (c :: ds, rest) else ([], l)
  | [] => ([], [])
  end.

(** The fraction a value may carry although the layout has none: its first nine digits
    count. *)
Definition comma_or_period (c : ascii) : bool := Ascii.eqb c "." || Ascii.eqb c ",".
Definition get_fraction (l : bytes) : option (Z * bytes) :=
  match l with
  | c :: l' =>
      if comma_or_period c && head_is is_digit l' then
        let '(ds, rest) := take_digits l' in
        let ds := take 9 ds in
        n ← read_digits ds 0; Some (n * 10 ^ Z.of_nat (9 - length ds), rest)
      else Some (0, l)
  | [] => Some (0, [])
  end.

(** The offset in seconds: [Z], or a sign, hours and minutes. *)
Definition get_zone (l : bytes) : option (Z * bytes) :=
  match l with
  | c :: l' =>
      if Ascii.eqb c "Z" then Some (0, l')
      else match l' with
      | h1 :: h2 :: colon :: m1 :: m2 :: rest =>
          if negb (Ascii.eqb colon ":") then None
          else
            '(hr, _) ← (p ← getnum true [h1; h2]; in_range 0 24 p);
            '(mm, _) ← (p ← getnum true [m1; m2]; in_range 0 60 p);
            if Ascii.eqb c "+" then Some ((hr * 60 + mm) * 60, rest)
            else if Ascii.eqb c "-" then Some (- ((hr * 60 + mm) * 60), rest)
            else None
      | _ => None
      end
  | [] => None
  end.

(** A separator, then a number. *)
Definition field (sep : ascii) (fixed : bool) (lo hi : Z) (l : bytes) : option (Z * bytes) :=
  match skip_char sep l with
  | None => None
  | Some l => match getnum fixed l with None => None | Some p => in_range lo hi p end
  end.

(** [time.Parse(time.RFC3339, value)]: the instant, or [None] for any error. A day is
    checked last, against its month. *)
Definition parse_rfc3339 (value : string) : option Z :=
  '(y, l1) ← get_year (to_bytes value);
  '(mo, l2) ← field "-" true 1 12 l1;
  '(d, l3) ← field "-" true 0 99 l2;
  '(h, l4) ← field "T" false 0 23 l3;
  '(mi, l5) ← field ":" true 0 59 l4;
  '(s, l6) ← field ":" true 0 59 l5;
  '(ns, l7) ← get_fraction l6;
  '(off, l8) ← get_zone l7;
  match l8 with
  | [] => if (1 <=? d) && (d <=? daysIn mo y) then Some (Date y mo d h mi s ns - off * second_ns) else None
  | _ :: _ => None
  end.

Definition is_rfc3339 (value : string) : bool := bool_decide (is_Some (parse_rfc3339 value)).

(** ** Formatting a UTC time *)

Record Civil := mkCivil { c_year : Z; c_month : Z; c_day : Z; c_hour : Z; c_min : Z; c_sec : Z }.

Definition digit (n : Z) : ascii := byte_of (Z.to_N (48 + n)).
Definition two_digits (n : Z) : bytes := [digit (n / 10); digit (n mod 10)].
Definition format_bytes (t : Civil) : bytes :=
  two_digits (c_year t / 100) ++ two_digits (c_year t mod 100) ++ ("-"%char :: two_digits (c_month t))
  ++ ("-"%char :: two_digits (c_day t)) ++ ("T"%char :: two_digits (c_hour t))
  ++ (":"%char :: two_digits (c_min t)) ++ (":"%char :: two_digits (c_sec t)) ++ ["Z"%char].
(** [t.UTC().Format(time.RFC3339)] for a year of four digits. *)
Definition format_rfc3339 (t : Civil) : string := of_bytes (format_bytes t).

Definition instant (t : Civil) : Z :=
  Date (c_year t) (c_month t) (c_day t) (c_hour t) (c_min t) (c_sec t) 0.

(** The times a clock can read in the years 0 to 9999. *)
Definition civil_ok (t : Civil) : Prop :=
  0 <= c_year t <= 9999 /\ 1 <= c_month t <= 12 /\ 1 <= c_day t <= daysIn (c_month t) (c_year t)
  /\ 0 <= c_hour t <= 23 /\ 0 <= c_min t <= 59 /\ 0 <= c_sec t <= 59.

Example parse_offset : parse_rfc3339 "2026-01-01T01:00:00+05:00" = parse_rfc3339 "2025-12-31T20:00:00Z".
Proof. vm_compute. reflexivity. Qed.
Example parse_forms : (is_rfc3339 "2026-02-29T00:00:00Z", is_rfc3339 "2024-02-29T1:00:00,5Z", is_rfc3339 "",
  is_rfc3339 "2026-02-28T24:00:00Z", is_rfc3339 "2026-02-28T00:00:00.1234567899-23:60") = (false, true, false, false, true).
Proof. vm_compute. reflexivity. Qed.

(** ** Lemmas: what is formatted is read back *)

(** A claim about the ten digits is checked on each. *)
Lemma each_digit (p : Z -> bool) : forallb (fun i => p (Z.of_nat i)) (seq 0 10) = true -> forall n, 0 <= n < 10 -> p n = true.
Proof.
  intros Hp n Hn. rewrite forallb_forall in Hp. rewrite <- (Z2Nat.id n) by lia. apply Hp, in_seq. lia.
Qed.

Lemma digit_spec n : 0 <= n < 10 -> is_digit (digit n) = true /\ digit_value (digit n) = n.
Proof.
  intros Hn. assert (is_digit (digit n) && (digit_value (digit n) =? n) = true) as [? ?]%andb_true_iff
    by (apply (each_digit (fun n => is_digit (digit n) && (digit_value (digit n) =? n))); [by vm_compute|done]).
  split; [done|by apply Z.eqb_eq].
Qed.

Lemma digit_compare n m : 0 <= n < 10 -> 0 <= m < 10 -> Ascii.compare (digit n) (digit m) = (n ?= m).
Proof.
  intros [_ Hv]%digit_spec [_ Hw]%digit_spec. unfold Ascii.compare. unfold digit_value, code in Hv, Hw.
  rewrite <- N2Z.inj_compare. destruct (Z.compare_spec n m), (Z.compare_spec (Z.of_N (N_of_ascii (digit n))) (Z.of_N (N_of_ascii (digit m)))); lia || done.
Qed.

Lemma two_digits_range n : 0 <= n < 100 -> 0 <= n / 10 < 10 /\ 0 <= n mod 10 < 10 /\ n = 10 * (n / 10) + n mod 10.
Proof. intros. Z.to_euclidean_division_equations. lia. Qed.

Lemma getnum_two fixed n l : 0 <= n < 100 -> getnum fixed (two_digits n ++ l) = Some (n, l).
Proof.
  intros (H1 & H2 & Hn)%two_digits_range. destruct (digit_spec _ H1) as [D1 V1], (digit_spec _ H2) as [D2 V2].
  cbn [getnum two_digits app]. by rewrite D1, D2, V1, V2, <- Hn.
Qed.

Lemma field_two sep fixed lo hi n l : 0 <= n < 100 -> lo <= n <= hi ->
  field sep fixed lo hi (sep :: two_digits n ++ l) = Some (n, l).
Proof.
  intros H Hb. unfold field, skip_char. rewrite Ascii.eqb_refl, getnum_two by done. unfold in_range. cbn [fst].
  by rewrite (proj2 (Z.leb_le lo n)), (proj2 (Z.leb_le n hi)) by lia.
Qed.

Lemma get_year_four y l : 0 <= y <= 9999 ->
  get_year (two_digits (y / 100) ++ two_digits (y mod 100) ++ l) = Some (y, l).
Proof.
  intros H. assert (0 <= y / 100 < 100 /\ 0 <= y mod 100 < 100 /\ y = 100 * (y / 100) + y mod 100) as (Ha & Hb & Hy)
    by (Z.to_euclidean_division_equations; lia).
  destruct (two_digits_range _ Ha) as (H1 & H2 & E1), (two_digits_range _ Hb) as (H3 & H4 & E2).
  destruct (digit_spec _ H1) as [D1 V1], (digit_spec _ H2) as [D2 V2], (digit_spec _ H3) as [D3 V3], (digit_spec _ H4) as [D4 V4].
  unfold get_year. cbn [two_digits app length Nat.ltb Nat.leb take drop read_digits].
  rewrite D1, D2, D3, D4, V1, V2, V3, V4. rewrite !take_0, drop_0. cbn [read_digits mbind option_bind]. do 2 f_equal. lia.
Qed.

Lemma daysIn_range m y : 1 <= m <= 12 -> 28 <= daysIn m y <= 31.
Proof.
  intros H. unfold daysIn. assert (m = 1 \/ m = 2 \/ m = 3 \/ m = 4 \/ m = 5 \/ m = 6 \/ m = 7 \/ m = 8 \/ m = 9 \/ m = 10 \/ m = 11 \/ m = 12) as Hm by lia.
  destruct (leap y); repeat (destruct Hm as [->|Hm]; [vm_compute; intuition congruence|]); subst; vm_compute; intuition congruence.
Qed.

Lemma parse_format t : civil_ok t -> parse_rfc3339 (format_rfc3339 t) = Some (instant t).
Proof.
  intros (Hy & Hmo & Hd & Hh & Hmi & Hs). pose proof (daysIn_range (c_month t) (c_year t) Hmo).
  unfold parse_rfc3339, format_rfc3339, format_bytes. rewrite list_ascii_of_string_of_list_ascii.
  rewrite <- !app_comm_cons, get_year_four by done. cbn [mbind option_bind].
  do 5 (rewrite field_two by lia; cbn [mbind option_bind]).
  cbn [app get_fraction comma_or_period Ascii.eqb Bool.eqb andb orb get_zone mbind option_bind].
  rewrite (proj2 (Z.leb_le _ _) (proj1 Hd)), (proj2 (Z.leb_le _ _) (proj2 Hd)). cbn [andb]. unfold instant. f_equal. lia.
Qed.

(** ** Lemmas: the order of the strings is the order of the instants *)

Lemma compare_cons x l y k :
  String.compare (of_bytes (x :: l)) (of_bytes (y :: k)) =
    match Ascii.compare x y with Eq => String.compare (of_bytes l) (of_bytes k) | c => c end.
Proof. done. Qed.

Lemma compare_sep x l k : String.compare (of_bytes (x :: l)) (of_bytes (x :: k)) = String.compare (of_bytes l) (of_bytes k).
Proof. rewrite compare_cons. by rewrite (proj2 (ascii_compare_eq x x) eq_refl). Qed.

Lemma compare_two n m l k : 0 <= n < 100 -> 0 <= m < 100 ->
  String.compare (of_bytes (two_digits n ++ l)) (of_bytes (two_digits m ++ k)) =
    match n ?= m with Eq => String.compare (of_bytes l) (of_bytes k) | c => c end.
Proof.
  intros (Hn1 & Hn2 & En)%two_digits_range (Hm1 & Hm2 & Em)%two_digits_range.
  unfold two_digits. cbn [app]. rewrite !compare_cons, !digit_compare by done.
  destruct (Z.compare_spec (n / 10) (m / 10)), (Z.compare_spec (n mod 10) (m mod 10)), (Z.compare_spec n m); lia || done.
Qed.

Lemma dby_succ y : days_before_year (y + 1) = days_before_year y + 365 + (if leap y then 1 else 0).
Proof.
  unfold days_before_year, leap.
  destruct (Z.eqb_spec (y mod 4) 0), (Z.eqb_spec (y mod 100) 0), (Z.eqb_spec (y mod 400) 0); cbn [andb orb negb];
    Z.to_euclidean_division_equations; lia.
Qed.

Lemma dby_mono y y' : y < y' -> days_before_year y + 365 + (if leap y then 1 else 0) <= days_before_year y'.
Proof.
  intros H. rewrite <- dby_succ. replace y' with (y + 1 + Z.of_nat (Z.to_nat (y' - (y + 1)))) by lia.
  induction (Z.to_nat (y' - (y + 1))) as [|n IH]; [rewrite Z.add_0_r; lia|].
  rewrite Nat2Z.inj_succ, <- Z.add_1_r, Z.add_assoc, (dby_succ (y + 1 + Z.of_nat n)).
  destruct (leap (y + 1 + Z.of_nat n)); lia.
Qed.

Lemma month_after m m' y : 1 <= m <= 12 -> 1 <= m' <= 12 -> m < m' ->
  days_before_month m y + daysIn m y <= days_before_month m' y.
Proof.
  intros Hm Hm' Hlt. unfold days_before_month, daysIn.
  assert (m = 1 \/ m = 2 \/ m = 3 \/ m = 4 \/ m = 5 \/ m = 6 \/ m = 7 \/ m = 8 \/ m = 9 \/ m = 10 \/ m = 11) as Hc by lia.
  assert (m' = 2 \/ m' = 3 \/ m' = 4 \/ m' = 5 \/ m' = 6 \/ m' = 7 \/ m' = 8 \/ m' = 9 \/ m' = 10 \/ m' = 11 \/ m' = 12) as Hc' by lia.
  destruct (leap y); destruct_or! Hc; destruct_or! Hc'; subst m m'; first [exfalso; lia | vm_compute; congruence].
Qed.

Lemma month_bounds m y : 1 <= m <= 12 ->
  0 <= days_before_month m y /\ days_before_month m y + daysIn m y <= 365 + (if leap y then 1 else 0).
Proof.
  intros Hm. unfold days_before_month, daysIn.
  assert (m = 1 \/ m = 2 \/ m = 3 \/ m = 4 \/ m = 5 \/ m = 6 \/ m = 7 \/ m = 8 \/ m = 9 \/ m = 10 \/ m = 11 \/ m = 12) as Hc by lia.
  destruct (leap y); destruct_or! Hc; subst m; vm_compute; intuition congruence.
Qed.

Definition date_days (t : Civil) : Z :=
  days_before_year (c_year t) + days_before_month (c_month t) (c_year t) + (c_day t - 1).

Lemma date_days_compare a b : civil_ok a -> civil_ok b ->
  (date_days a ?= date_days b) =
    match c_year a ?= c_year b with
    | Eq => match c_month a ?= c_month b with Eq => c_day a ?= c_day b | c => c end
    | c => c
    end.
Proof.
  intros (_ & Hm & Hd & _) (_ & Hm' & Hd' & _). unfold date_days.
  destruct (month_bounds (c_month a) (c_year a) Hm), (month_bounds (c_month b) (c_year b) Hm').
  destruct (Z.compare_spec (c_year a) (c_year b)) as [Ey|Hlt|Hlt].
  - rewrite <- Ey in *. destruct (Z.compare_spec (c_month a) (c_month b)) as [Em|Hlt|Hlt].
    + rewrite <- Em. destruct (Z.compare_spec (c_day a) (c_day b)); [apply Z.compare_eq_iff|apply Z.compare_lt_iff|apply Z.compare_gt_iff]; lia.
    + pose proof (month_after _ _ (c_year a) Hm Hm' Hlt). apply Z.compare_lt_iff. lia.
    + pose proof (month_after _ _ (c_year a) Hm' Hm Hlt). apply Z.compare_gt_iff. lia.
  - pose proof (dby_mono _ _ Hlt). apply Z.compare_lt_iff. lia.
  - pose proof (dby_mono _ _ Hlt). apply Z.compare_gt_iff. lia.
Qed.

Lemma scale_compare x x' y y' k : 0 <= y < k -> 0 <= y' < k ->
  (x * k + y ?= x' * k + y') = match x ?= x' with Eq => y ?= y' | c => c end.
Proof.
  intros. destruct (Z.compare_spec x x') as [->|Hlt|Hlt].
  - destruct (Z.compare_spec y y'); [apply Z.compare_eq_iff|apply Z.compare_lt_iff|apply Z.compare_gt_iff]; nia.
  - apply Z.compare_lt_iff. nia.
  - apply Z.compare_gt_iff. nia.
Qed.

Lemma format_compare a b : civil_ok a -> civil_ok b ->
  String.compare (format_rfc3339 a) (format_rfc3339 b) = (instant a ?= instant b).
Proof.
  intros Ha Hb. assert (forall t, instant t = ((date_days t * 24 + c_hour t) * 60 + c_min t) * 60 * second_ns + c_sec t * second_ns) as Hi.
  { intros t. unfold instant, Date, date_days. lia. }
  rewrite !Hi, <- !Z.mul_add_distr_r, <- Zmult_compare_compat_r by (unfold second_ns; lia).
  pose proof Ha as (Hy & Hmo & Hd & Hh & Hmi & Hs). pose proof Hb as (Hy' & Hmo' & Hd' & Hh' & Hmi' & Hs').
  rewrite !scale_compare by lia. rewrite date_days_compare by done.
  assert (forall y, 0 <= y <= 9999 -> 0 <= y / 100 < 100 /\ 0 <= y mod 100 < 100 /\ y = y / 100 * 100 + y mod 100) as Hcent
    by (intros; Z.to_euclidean_division_equations; lia).
  destruct (Hcent _ Hy) as (Hc1 & Hc2 & Ec), (Hcent _ Hy') as (Hc1' & Hc2' & Ec').
  rewrite Ec, Ec' at 1. rewrite scale_compare by lia.
  pose proof (daysIn_range (c_month a) (c_year a) Hmo). pose proof (daysIn_range (c_month b) (c_year b) Hmo').
  unfold format_rfc3339, format_bytes. rewrite <- !app_comm_cons.
  repeat first [rewrite compare_two by lia | rewrite compare_sep].
  by repeat match goal with |- context [?x ?= ?y] => destruct (x ?= y) end.
Qed.

(** For the form every writer of the store emits, the byte order is the order in time. *)
Lemma format_order a b : civil_ok a -> civil_ok b ->
  str_ltb (format_rfc3339 a) (format_rfc3339 b) = (instant a <? instant b).
Proof.
  intros Ha Hb. unfold str_ltb, String.ltb, Z.ltb. by rewrite format_compare.
Qed.
