(* ===== verification/LocalDebt.v ===== *)
(** * The local debt store: records, statuses and the fold

    src/internal/localdebt/record.go and the read-side fold of store.go and
    streaming.go: the record, the status vocabulary and its predicates, the write gate's
    checks, and the fold that reduces the append-only stream to one effective record per
    finding id, with the counters and the annotation it carries over. A position in a
    group is a [nat] where the code has an index, [None] where it has -1. Files, locks
    and JSON are not modelled here. *)

From Stdlib Require Import Ascii String.
From stdpp Require Import prelude strings gmap fin_sets list sorting.
From Stdlib Require Import ZArith Lia.
From S2P Require Import Prelude GoString GoStrconv GoSort GoInt GoTime Sha256.

Open Scope string_scope.
Open Scope list_scope.
Open Scope nat_scope.

(** ** Loops that keep the best position so far *)

(** [for i := 1; i < len(l); i++ { if takes(l[i], l[best]) { best = i } }]. *)
Fixpoint last_max_from {A} (takes : A -> A -> bool) (best : nat) (cur : A) (i : nat) (l : list A) : nat :=
  match l with
  | [] => best
  | it :: l' => if takes it cur then last_max_from takes i it (S i) l' else last_max_from takes best cur (S i) l'
  end.
Definition last_max {A} (takes : A -> A -> bool) (l : list A) : nat :=
  match l with [] => 0 | x :: l' => last_max_from takes 0 x 1 l' end.

(** The positions, from [i] on, that pass a test, each with its element. *)
Fixpoint marked_from {A} (i : nat) (p : nat -> A -> bool) (l : list A) : list (nat * A) :=
  match l with
  | [] => []
  | x :: l' => if p i x then (i, x) :: marked_from (S i) p l' else marked_from (S i) p l'
  end.
Definition marked {A} (p : nat -> A -> bool) (l : list A) : list (nat * A) := marked_from 0 p l.

(** The winner among the marked ones, as a position of the whole group. *)
Definition best_marked {A} (takes : A -> A -> bool) (m : list (nat * A)) : option nat :=
  m.*1 !! last_max takes m.*2.

(** ** Records *)

Record ReconcilerFeedback := mkFeedback { fb_Kind : string; fb_With : string; fb_Reason : string }.
Record SourceReport := mkReport { sr_Path : string; sr_Line : Z; sr_Section : string }.
Record DebtRecord := mkDebt {
  r_SchemaVersion : Z;
  r_ID : string;
  r_RunID : string;
  r_Timestamp : string;
  r_Severity : string;
  r_File : string;
  r_Line : Z;
  r_Problem : string;
  r_Fix : string;
  r_Category : string;
  r_EstMinutes : Z;
  r_Evidence : string;
  r_Reviewers : list string;
  r_Confidence : string;
  r_Model : string;
  r_ModelReviewers : list string;
  r_Origin : string;
  r_Occurrences : Z;
  r_CountedThrough : string;
  r_FirstSeen : string;
  r_ConfidenceDiscount : string;
  r_ReconcilerFeedback : option ReconcilerFeedback;
  r_Attempts : Z;
  r_Justification : string;
  r_SourceReport : option SourceReport;
  r_Status : string;
  r_ResolvedAt : string;
}.

(** Assignments to fields. *)
Definition set_counters (occ : Z) (first counted : string) (r : DebtRecord) : DebtRecord :=
  mkDebt (r_SchemaVersion r) (r_ID r) (r_RunID r) (r_Timestamp r) (r_Severity r) (r_File r) (r_Line r)
    (r_Problem r) (r_Fix r) (r_Category r) (r_EstMinutes r) (r_Evidence r) (r_Reviewers r) (r_Confidence r)
    (r_Model r) (r_ModelReviewers r) (r_Origin r) occ counted first
    (r_ConfidenceDiscount r) (r_ReconcilerFeedback r) (r_Attempts r) (r_Justification r) (r_SourceReport r)
    (r_Status r) (r_ResolvedAt r).
Definition set_feedback (f : option ReconcilerFeedback) (r : DebtRecord) : DebtRecord :=
  mkDebt (r_SchemaVersion r) (r_ID r) (r_RunID r) (r_Timestamp r) (r_Severity r) (r_File r) (r_Line r)
    (r_Problem r) (r_Fix r) (r_Category r) (r_EstMinutes r) (r_Evidence r) (r_Reviewers r) (r_Confidence r)
    (r_Model r) (r_ModelReviewers r) (r_Origin r) (r_Occurrences r) (r_CountedThrough r) (r_FirstSeen r)
    (r_ConfidenceDiscount r) f (r_Attempts r) (r_Justification r) (r_SourceReport r)
    (r_Status r) (r_ResolvedAt r).
Definition set_attribution (model : string) (reviewers : list string) (r : DebtRecord) : DebtRecord :=
  mkDebt (r_SchemaVersion r) (r_ID r) (r_RunID r) (r_Timestamp r) (r_Severity r) (r_File r) (r_Line r)
    (r_Problem r) (r_Fix r) (r_Category r) (r_EstMinutes r) (r_Evidence r) (r_Reviewers r) (r_Confidence r)
    model reviewers (r_Origin r) (r_Occurrences r) (r_CountedThrough r) (r_FirstSeen r)
    (r_ConfidenceDiscount r) (r_ReconcilerFeedback r) (r_Attempts r) (r_Justification r) (r_SourceReport r)
    (r_Status r) (r_ResolvedAt r).

(** ** Statuses *)

Definition StatusResolved : string := "resolved".
Definition StatusDeferred : string := "deferred".
Definition StatusWontfix : string := "wontfix".
Definition StatusUnreproducible : string := "unreproducible".
Definition StatusAttemptsExhausted : string := "attempts-exhausted".
Definition OriginReview : string := "review".
Definition OriginManual : string := "manual".

Definition one_of (vs : list string) (s : string) : bool := existsb (String.eqb s) vs.

Definition FeedbackWrongMerge : string := "wrong-merge".
Definition FeedbackWrongSplit : string := "wrong-split".
Definition FeedbackWrongCategory : string := "wrong-category".

(** The projection of a record the streaming reads keep. *)
Record Summary := mkSummary {
  sm_ID : string;
  sm_Status : string;
  sm_Severity : string;
  sm_Timestamp : string;
  sm_HasFile : bool;
  sm_File : string;
  sm_Line : Z;
  sm_Category : string;
  sm_EstMinutes : Z;
  sm_Origin : string;
  sm_Confidence : string;
  sm_FeedbackKind : string;
}.
Definition set_kind (k : string) (s : Summary) : Summary :=
  mkSummary (sm_ID s) (sm_Status s) (sm_Severity s) (sm_Timestamp s) (sm_HasFile s) (sm_File s) (sm_Line s)
    (sm_Category s) (sm_EstMinutes s) (sm_Origin s) (sm_Confidence s) k.
(** What [decodeSummary] returns for the line of a record: an absent annotation decodes
    to the zero struct, whose kind is empty. *)
Definition summary_of (r : DebtRecord) : Summary :=
  mkSummary (r_ID r) (r_Status r) (r_Severity r) (r_Timestamp r) (negb (String.eqb (r_File r) "")) (r_File r)
    (r_Line r) (r_Category r) (r_EstMinutes r) (r_Origin r) (r_Confidence r)
    (match r_ReconcilerFeedback r with Some f => fb_Kind f | None => "" end).

Section statuses.
Context {U : UnicodeCase}.

Definition normalizeStatus (status : string) : string := lower_trim status.

Definition IsClosedStatus (status : string) : bool :=
  one_of [StatusResolved; StatusDeferred; StatusWontfix; StatusUnreproducible; StatusAttemptsExhausted]
    (normalizeStatus status).
Definition IsSuppressingStatus (status : string) : bool := String.eqb (normalizeStatus status) StatusWontfix.
Definition IsSettledStatus (status : string) : bool :=
  one_of [StatusResolved; StatusWontfix; StatusUnreproducible] (normalizeStatus status).
Definition bearsRationale (status : string) : bool :=
  IsSettledStatus status || String.eqb (normalizeStatus status) StatusAttemptsExhausted.
Definition IsKnownStatus (status : string) : bool :=
  if String.eqb (normalizeStatus status) "" then true
  else one_of [StatusResolved; StatusDeferred; StatusWontfix; StatusUnreproducible; StatusAttemptsExhausted]
    (normalizeStatus status).
Definition ClosedStatusRank (status : string) : Z :=
  let s := normalizeStatus status in
  if String.eqb s StatusWontfix then 5
  else if String.eqb s StatusUnreproducible then 4
  else if String.eqb s StatusAttemptsExhausted then 3
  else if String.eqb s StatusResolved then 2
  else if String.eqb s StatusDeferred then 1
  else 0.
Definition foldPrecedence (status : string) : Z :=
  if IsSettledStatus status then 10 + ClosedStatusRank status else ClosedStatusRank status.
Definition HigherClosedStatus (current candidate : string) : string :=
  if (ClosedStatusRank current <? ClosedStatusRank candidate)%Z then candidate else current.

Definition effectiveOrigin (origin : string) : string :=
  let o := lower_trim origin in
  if one_of [OriginReview; OriginManual] o then o else OriginReview.
Definition EffectiveOrigin (r : DebtRecord) : string := effectiveOrigin (r_Origin r).

(** ** The interface of the fold *)

(** What a value must expose to take part: [type foldable interface]. *)
Class Foldable (T : Type) := {
  foldID : T -> string;
  foldStatus : T -> string;
  foldTimestamp : T -> string;
}.

#[export] Instance Record_Foldable : Foldable DebtRecord := {|
  foldID := r_ID; foldStatus := r_Status; foldTimestamp := r_Timestamp |}.

#[export] Instance Summary_Foldable : Foldable Summary := {|
  foldID := sm_ID; foldStatus := sm_Status; foldTimestamp := sm_Timestamp |}.

Definition orderableTimestamps (a b : string) : bool := is_rfc3339 a && is_rfc3339 b.

Section fold.
Context {T : Type} {F : Foldable T}.

(** The switch of [latestIndex]: whether [it] replaces the best so far. *)
Definition newer_than (it cur : T) : bool :=
  if negb (orderableTimestamps (foldTimestamp it) (foldTimestamp cur)) then true
  else if str_ltb (foldTimestamp cur) (foldTimestamp it) then true
  else if String.eqb (foldTimestamp it) (foldTimestamp cur)
          && (foldPrecedence (foldStatus cur) <? foldPrecedence (foldStatus it))%Z then true
  else String.eqb (foldTimestamp it) (foldTimestamp cur)
       && (foldPrecedence (foldStatus it) =? foldPrecedence (foldStatus cur))%Z.
Definition latestIndex (group : list T) : nat := last_max newer_than group.

Definition foldIndex (group : list T) : nat :=
  match marked (fun _ x => IsSuppressingStatus (foldStatus x)) group with
  | [] => latestIndex group
  | suppressing => default 0 (best_marked newer_than suppressing)
  end.

Definition newestAnnotatedIndex (annotated : T -> bool) (group : list T) : option nat :=
  match marked (fun _ x => annotated x) group with
  | [] => None
  | m => best_marked newer_than m
  end.

(** [foldByID]: the groups, and the record of each that counts, at the place of its
    first one. *)
Definition group_step (st : list string * gset string * gmap string (list T)) (it : T) :
  list string * gset string * gmap string (list T) :=
  let '(order, seen, byID) := st in
  let id := foldID it in
  (if decide (id ∈ seen) then order else order ++ [id],
   {[id]} ∪ seen,
   <[id := default [] (byID !! id) ++ [it]]> byID).
Definition foldByID (items : list T) : list T * gmap string (list T) :=
  let '(order, _, byID) := foldl group_step ([], ∅, ∅) items in
  (omap (fun id => let group := default [] (byID !! id) in group !! foldIndex group) order, byID).
End fold.

(** ** Counters *)

Definition isSighting (r : DebtRecord) : bool :=
  match r_ReconcilerFeedback r with
  | Some _ => false
  | None =>
      if String.eqb (r_Status r) "" then true
      else String.eqb (EffectiveOrigin r) OriginManual && String.eqb (TrimSpace (r_ResolvedAt r)) ""
  end.

Definition earlierTimestamp (a b : string) : string :=
  match parse_rfc3339 a, parse_rfc3339 b with
  | Some ta, Some tb => if (tb <? ta)%Z then b else a
  | _, _ => if str_ltb b a then b else a
  end.

(** The first loop of [aggregateCounters]: the record with the highest count. *)
Definition carrier_step (c : option DebtRecord) (r : DebtRecord) : option DebtRecord :=
  if (r_Occurrences r =? 0)%Z then c
  else match c with
  | None => Some r
  | Some c0 =>
      if (r_Occurrences c0 <? r_Occurrences r)%Z
         || (r_Occurrences r =? r_Occurrences c0)%Z && str_ltb (r_Timestamp c0) (r_Timestamp r)
      then Some r else c
  end.
Definition carrier (group : list DebtRecord) : option DebtRecord := foldl carrier_step None group.
Definition carried_of (c : option DebtRecord) : Z := match c with Some r => r_Occurrences r | None => 0 end.
Definition boundary_of (c : option DebtRecord) : string :=
  match c with
  | Some r => if String.eqb (r_CountedThrough r) "" then r_Timestamp r else r_CountedThrough r
  | None => ""
  end.

(** The second loop: the fresh sightings, the earliest one, the newest counted. *)
Definition count_step (carried : Z) (boundary : string) (st : Z * string * string) (r : DebtRecord) :
  Z * string * string :=
  let '(fresh, first, counted) := st in
  let fresh :=
    if isSighting r && ((r_Occurrences r =? 0)%Z && ((carried =? 0)%Z || str_ltb boundary (r_Timestamp r)))
    then (fresh + 1)%Z else fresh in
  let counted := if isSighting r && str_ltb counted (r_Timestamp r) then r_Timestamp r else counted in
  let seen := if String.eqb (r_FirstSeen r) "" then r_Timestamp r else r_FirstSeen r in
  let first :=
    if String.eqb seen "" then first
    else if String.eqb first "" then seen else earlierTimestamp first seen in
  (fresh, first, counted).

Definition aggregateCounters (eff : DebtRecord) (group : list DebtRecord) : DebtRecord :=
  let c := carrier group in
  let '(fresh, first, counted) :=
    foldl (count_step (carried_of c) (boundary_of c)) (0%Z, "", boundary_of c) group in
  let occ := wrap64 (carried_of c + fresh) in
  set_counters (if (occ <? 1)%Z then 1 else occ) first counted eff.

Definition annotated (r : DebtRecord) : bool :=
  match r_ReconcilerFeedback r with Some _ => true | None => false end.

(** The loop body of [foldWithGroups]. *)
Definition stamp_group (eff : DebtRecord) (group : list DebtRecord) : DebtRecord :=
  let eff := aggregateCounters eff group in
  match newestAnnotatedIndex annotated group with
  | Some j => match group !! j with Some r => set_feedback (r_ReconcilerFeedback r) eff | None => eff end
  | None => eff
  end.
Definition foldWithGroups (recs : list DebtRecord) : list DebtRecord * gmap string (list DebtRecord) :=
  let '(folded, byID) := foldByID recs in
  ((fun eff => stamp_group eff (default [] (byID !! r_ID eff))) <$> folded, byID).
Definition FoldRecords (recs : list DebtRecord) : list DebtRecord := (foldWithGroups recs).1.

(** ** Summaries *)

(** The loop body of [FoldSummaries]. *)
Definition stamp_summary (sum : Summary) (group : list Summary) : Summary :=
  match newestAnnotatedIndex (fun s => negb (String.eqb (sm_FeedbackKind s) "")) group with
  | Some j => match group !! j with Some s => set_kind (sm_FeedbackKind s) sum | None => sum end
  | None => sum
  end.
Definition FoldSummaries (sums : list Summary) : list Summary :=
  let '(folded, byID) := foldByID sums in
  (fun sum => stamp_summary sum (default [] (byID !! sm_ID sum))) <$> folded.

(** ** The write gate *)

Definition IsKnownFeedbackKind (kind : string) : bool :=
  one_of [FeedbackWrongMerge; FeedbackWrongSplit; FeedbackWrongCategory] kind.
Definition FeedbackKindTakesPartner (kind : string) : bool := String.eqb kind FeedbackWrongSplit.
Definition IsWellFormedFindingID (id : string) : bool :=
  (length (to_bytes id) =? 16) && forallb (fun c => is_digit c || between 97 102 c) (to_bytes id).

(** [ReconcilerFeedback.validate]: the error, when there is one. *)
Definition validate (f : ReconcilerFeedback) (selfID : string) : option string :=
  if negb (IsKnownFeedbackKind (fb_Kind f)) then Some "unknown kind"
  else if String.eqb (TrimSpace (fb_Reason f)) "" then Some "empty reason"
  else if String.eqb (fb_With f) "" then None
  else if negb (FeedbackKindTakesPartner (fb_Kind f)) then Some "kind takes no partner finding"
  else if negb (IsWellFormedFindingID (fb_With f)) then Some "partner is not a finding id"
  else if String.eqb (fb_With f) selfID then Some "partner is the finding itself"
  else None.
End statuses.

(** ** The statuses in words *)

(** How final a status is, in any case and with any padding: 5 for a dismissal down to 1
    for a deferral, 0 for an open record. *)
Definition finality {U : UnicodeCase} (status : string) : nat :=
  let s := ToLower (TrimSpace status) in
  if decide (s = "wontfix") then 5 else if decide (s = "unreproducible") then 4
  else if decide (s = "attempts-exhausted") then 3 else if decide (s = "resolved") then 2
  else if decide (s = "deferred") then 1 else 0.

Lemma finality_spec {U : UnicodeCase} status :
  ClosedStatusRank status = Z.of_nat (finality status) /\
  IsClosedStatus status = (1 <=? finality status) /\ bearsRationale status = (2 <=? finality status).
Proof.
  unfold ClosedStatusRank, IsClosedStatus, bearsRationale, IsSettledStatus, finality, normalizeStatus, lower_trim, one_of,
    StatusWontfix, StatusUnreproducible, StatusAttemptsExhausted, StatusResolved, StatusDeferred.
  generalize (ToLower (TrimSpace status)). intros w. cbn [existsb].
  destruct (String.eqb_spec w "wontfix") as [->|]; [by vm_compute|].
  destruct (String.eqb_spec w "unreproducible") as [->|]; [by vm_compute|].
  destruct (String.eqb_spec w "attempts-exhausted") as [->|]; [by vm_compute|].
  destruct (String.eqb_spec w "resolved") as [->|]; [by vm_compute|].
  destruct (String.eqb_spec w "deferred") as [->|]; [by vm_compute|]. by rewrite !decide_False.
Qed.

(** ** Lemmas: the loops pick the last maximum *)

Section pick.
Context {A : Type} (takes : A -> A -> bool).

(** The element the loop keeps, instead of its position. *)
Definition pick_step (best : option A) (it : A) : option A :=
  match best with None => Some it | Some b => if takes it b then Some it else best end.
Definition pick (l : list A) : option A := foldl pick_step None l.

Lemma last_max_from_pick l pre best cur i : pre !! best = Some cur -> length pre = i ->
  (pre ++ l) !! last_max_from takes best cur i l = foldl pick_step (Some cur) l.
Proof.
  revert pre best cur i. induction l as [|x l IH]; intros pre best cur i Hb <-; simpl.
  - by rewrite app_nil_r.
  - rewrite (cons_middle x), (assoc_L (++)).
    destruct (takes x cur); apply IH; rewrite ?length_app; simpl; try lia.
    + rewrite lookup_app_r, Nat.sub_diag by lia. done.
    + rewrite lookup_app_l; [done|]. by eapply lookup_lt_Some.
Qed.

Lemma last_max_pick l : l !! last_max takes l = pick l.
Proof. destruct l as [|x l]; [done|]. by apply (last_max_from_pick l [x]). Qed.

Lemma pick_best_app l1 l2 : pick (l1 ++ l2) = foldl pick_step (pick l1) l2.
Proof. apply foldl_app. Qed.

Lemma pick_from_elem l b x : foldl pick_step b l = Some x -> b = Some x \/ x ∈ l.
Proof.
  revert b. induction l as [|y l IH]; intros b; simpl; [auto|]. intros [Hb|?]%IH; [|set_solver].
  destruct b as [b|]; simpl in Hb; [destruct (takes y b)|]; simplify_eq; set_solver.
Qed.
Lemma pick_elem l x : pick l = Some x -> x ∈ l.
Proof. by intros [?|?]%pick_from_elem. Qed.

Lemma pick_from_Some l b : is_Some (foldl pick_step (Some b) l).
Proof. revert b. induction l as [|y l IH]; intros b; simpl; [eauto|]. destruct (takes y b); apply IH. Qed.
Lemma pick_best_None l : pick l = None <-> l = [].
Proof.
  split; [|by intros ->]. destruct l as [|x l]; [done|]. unfold pick. simpl.
  destruct (pick_from_Some l x) as [y ->]. done.
Qed.

Lemma pick_snoc l e : (forall y, y ∈ l -> takes e y = true) -> pick (l ++ [e]) = Some e.
Proof.
  intros H. rewrite pick_best_app. simpl. destruct (pick l) as [b|] eqn:E; simpl; [|done].
  by rewrite H by (by apply pick_elem).
Qed.

(** A list whose elements all take over from the ones before hides them. *)
Lemma pick_app_newer l1 l2 : l2 <> [] -> (forall x y, x ∈ l1 -> y ∈ l2 -> takes y x = true) ->
  pick (l1 ++ l2) = pick l2.
Proof.
  intros Hne H. rewrite pick_best_app. destruct l2 as [|y l2]; [done|]. unfold pick at 2. simpl. f_equal.
  destruct (pick l1) as [b|] eqn:E; [|done]. simpl. rewrite H; [done|by apply pick_elem|by left].
Qed.

(** The same with a test on top. *)
Lemma choice_app (p : A -> bool) l1 l2 : (forall x y, x ∈ l1 -> y ∈ l2 -> takes y x = true) ->
  pick (filter (fun x => p x = true) (l1 ++ l2)) =
    match pick (filter (fun x => p x = true) l2) with Some y => Some y | None => pick (filter (fun x => p x = true) l1) end.
Proof.
  intros H. rewrite filter_app. destruct (pick (filter (fun x => p x = true) l2)) as [y|] eqn:E.
  - rewrite <- E. apply pick_app_newer; [intros E'; by rewrite E' in E|].
    intros x z [_ Hx]%list_elem_of_filter [_ Hz]%list_elem_of_filter. auto.
  - apply pick_best_None in E. by rewrite E, app_nil_r.
Qed.

Section order.
Context (less : A -> A -> bool) `{!WeakOrder less} (P : A -> Prop).
Hypothesis takes_less : forall x y, P x -> P y -> takes x y = negb (less x y).

Lemma takes_trans x y z : P x -> P y -> P z -> takes x y = true -> takes y z = true -> takes x z = true.
Proof using WeakOrder0 takes_less.
  intros Hx Hy Hz. rewrite !takes_less by done. rewrite !negb_true_iff. intros H1 H2.
  by apply (not_after_trans (less := less) z y x).
Qed.

Lemma pick_from_max l b x : P b -> Forall P l -> foldl pick_step (Some b) l = Some x ->
  takes x b = true /\ forall y, y ∈ l -> takes x y = true.
Proof using WeakOrder0 takes_less.
  intros Hb Hl. revert b Hb. induction Hl as [|y l Hy Hl IH]; intros b Hb; simpl.
  - intros [= ->]. rewrite takes_less by done. rewrite negb_true_iff. split; [by apply less_irrefl|set_solver].
  - destruct (takes y b) eqn:E; intros Hf.
    + assert (P x) as Hx. { destruct (pick_from_elem _ _ _ Hf) as [[= ->]|H']; [done|]. rewrite Forall_forall in Hl. by apply Hl. }
      destruct (IH y Hy Hf) as [H1 H2]. split; [by apply (takes_trans x y b)|].
      intros z [->|Hz]%elem_of_cons; auto.
    + destruct (IH b Hb Hf) as [H1 H2]. split; [done|]. intros z [->|Hz]%elem_of_cons; [|auto].
      assert (P x) as Hx. { destruct (pick_from_elem _ _ _ Hf) as [[= ->]|H']; [done|]. rewrite Forall_forall in Hl. by apply Hl. }
      apply (takes_trans x b y); try done. rewrite takes_less in E |- * by done.
      apply negb_false_iff in E. rewrite negb_true_iff. by apply less_asym.
Qed.

Lemma pick_max l x : Forall P l -> pick l = Some x -> forall y, y ∈ l -> takes x y = true.
Proof using WeakOrder0 takes_less.
  intros Hl. destruct l as [|z l]; [done|]. apply Forall_cons in Hl as [Hz Hl]. unfold pick. simpl. intros Hf.
  destruct (pick_from_max l z x Hz Hl Hf). intros y [->|?]%elem_of_cons; auto.
Qed.

(** An element that no other one reaches is the one picked. *)
Lemma pick_strict l x : Forall P l -> x ∈ l -> (forall y, y ∈ l -> y = x \/ takes y x = false) -> pick l = Some x.
Proof using WeakOrder0 takes_less.
  intros Hl Hx H. destruct (pick l) as [z|] eqn:E; [|apply pick_best_None in E; set_solver].
  destruct (H z (pick_elem _ _ E)) as [->|Hz]; [done|]. rewrite (pick_max l z Hl E x Hx) in Hz. done.
Qed.

(** What is picked is passed by nothing before it and passes everything after it. *)
Lemma pick_split l x : Forall P l -> pick l = Some x -> exists l1 l2, l = l1 ++ x :: l2 /\
  (forall y, y ∈ l1 -> less x y = false) /\ (forall y, y ∈ l2 -> less y x = true).
Proof using WeakOrder0 takes_less.
  intros Hl. revert x. induction l as [|y l IH] using rev_ind; intros x; [done|].
  apply Forall_app in Hl as [Hl Hy]. apply Forall_cons in Hy as [Hy _]. rewrite pick_best_app. cbn [foldl].
  destruct (pick l) as [b|] eqn:E; cbn [pick_step].
  - assert (P b) as Hb by (rewrite Forall_forall in Hl; apply Hl; by apply pick_elem).
    destruct (IH Hl b eq_refl) as (l1 & l2 & -> & H1 & H2). rewrite takes_less by done.
    destruct (less y b) eqn:Ey; cbn [negb]; intros [= <-].
    + exists l1, (l2 ++ [y]). split; [by rewrite <- app_assoc|]. split; [done|].
      intros z [Hz| ->%list_elem_of_singleton]%elem_of_app; [by apply H2|done].
    + exists (l1 ++ b :: l2), []. split; [done|]. split; [|by intros ? ?%elem_of_nil].
      intros z [Hz|[->|Hz]%elem_of_cons]%elem_of_app; [|done|].
      * by apply (not_after_trans (less := less) z b y); [apply H1|].
      * apply (not_after_trans (less := less) z b y); [apply less_asym, H2, Hz|done].
  - apply pick_best_None in E as ->. intros [= <-]. exists [], []. split; [done|]. split; by intros ? ?%elem_of_nil.
Qed.
End order.
End pick.

Lemma pick_fmap {A B} (takes : A -> A -> bool) (takes' : B -> B -> bool) (f : A -> B) (l : list A) :
  (forall x y, takes' (f x) (f y) = takes x y) -> pick takes' (f <$> l) = f <$> pick takes l.
Proof.
  intros H. unfold pick. change None with (f <$> @None A) at 1. generalize (@None A).
  induction l as [|x l IH]; intros b; simpl; [done|]. rewrite <- IH. f_equal.
  destruct b as [b|]; simpl; [|done]. rewrite H. by destruct (takes x b).
Qed.

(** The positions. *)
Lemma marked_from_elem {A} k (p : nat -> A -> bool) (l : list A) i x :
  (i, x) ∈ marked_from k p l <-> exists j, i = k + j /\ l !! j = Some x /\ p i x = true.
Proof.
  revert k. induction l as [|y l IH]; intros k; simpl.
  - split; [by intros ?%elem_of_nil|]. intros (j & _ & ? & _). done.
  - assert ((i, x) ∈ marked_from (S k) p l <-> exists j, i = k + S j /\ l !! j = Some x /\ p i x = true) as HIH.
    { rewrite IH. split; intros (j & -> & ?); exists j; split; try done; lia. }
    destruct (p k y) eqn:E; rewrite ?elem_of_cons, HIH; split.
    + intros [[= -> ->]|(j & ?)]; [exists 0; rewrite Nat.add_0_r; auto|by exists (S j)].
    + intros ([|j] & -> & Hl & Hp); [left; simplify_eq/=; by rewrite Nat.add_0_r|right; by exists j].
    + intros (j & ?). by exists (S j).
    + intros ([|j] & -> & Hl & Hp); [|by exists j]. simplify_eq/=. rewrite Nat.add_0_r in Hp. congruence.
Qed.
Lemma marked_elem {A} (p : nat -> A -> bool) (l : list A) i x :
  (i, x) ∈ marked p l <-> l !! i = Some x /\ p i x = true.
Proof.
  unfold marked. rewrite marked_from_elem. split; [by intros (j & -> & ?)|]. intros ?. by exists i.
Qed.

Lemma marked_from_values {A} k (p : A -> bool) (l : list A) :
  (marked_from k (fun _ => p) l).*2 = filter (fun x => p x = true) l.
Proof.
  revert k. induction l as [|x l IH]; intros k; simpl; [done|].
  destruct (p x) eqn:E; [rewrite filter_cons_True by done|rewrite filter_cons_False by congruence]; simpl; by rewrite IH.
Qed.
Lemma marked_values {A} (p : A -> bool) (l : list A) : (marked (fun _ => p) l).*2 = filter (fun x => p x = true) l.
Proof. apply marked_from_values. Qed.

Lemma best_marked_pick {A} (takes : A -> A -> bool) (m : list (nat * A)) :
  match best_marked takes m with
  | Some i => exists x, (i, x) ∈ m /\ pick takes m.*2 = Some x
  | None => m = []
  end.
Proof.
  unfold best_marked. rewrite <- last_max_pick, !list_lookup_fmap.
  destruct (m !! last_max takes m.*2) as [[i x]|] eqn:E; simpl.
  - exists x. split; [by eapply list_elem_of_lookup_2|done].
  - destruct m as [|y m]; [done|]. exfalso.
    assert (is_Some (pick takes (y :: m).*2)) as [z Hz]. { apply not_eq_None_Some. by rewrite pick_best_None. }
    rewrite <- last_max_pick, list_lookup_fmap, E in Hz. done.
Qed.

(** ** Lemmas: the order of the fold *)

Section fold_lemmas.
Context {U : UnicodeCase}.

Section generic.
Context {T : Type} {F : Foldable T}.

(** A timestamp the fold can order. *)
Definition dated (x : T) : Prop := is_rfc3339 (foldTimestamp x) = true.

(** Older in time, then lower in precedence. *)
Definition older : T -> T -> bool :=
  lex_less (fun a b => str_ltb (foldTimestamp a) (foldTimestamp b))
    (fun a b => (foldPrecedence (foldStatus a) <? foldPrecedence (foldStatus b))%Z).
#[export] Instance older_WeakOrder : WeakOrder older.
Proof.
  apply lex_WeakOrder; [apply (key_WeakOrder str_ltb foldTimestamp)|].
  apply (key_WeakOrder Z.ltb (fun a => foldPrecedence (foldStatus a))).
Qed.

Lemma newer_than_older x y : dated x -> dated y -> newer_than x y = negb (older x y).
Proof.
  unfold dated, newer_than, older, lex_less, orderableTimestamps. intros -> ->. simpl.
  destruct (str_ltb (foldTimestamp y) (foldTimestamp x)) eqn:E1.
  { by rewrite (str_ltb_asym _ _ E1). }
  destruct (str_ltb (foldTimestamp x) (foldTimestamp y)) eqn:E2.
  { destruct (String.eqb_spec (foldTimestamp x) (foldTimestamp y)) as [E|]; [|done].
    rewrite E, str_ltb_irrefl in E2. done. }
  rewrite (str_ltb_total _ _ E1 E2), String.eqb_refl. simpl.
  destruct (Z.ltb_spec (foldPrecedence (foldStatus y)) (foldPrecedence (foldStatus x))),
    (Z.ltb_spec (foldPrecedence (foldStatus x)) (foldPrecedence (foldStatus y))),
    (Z.eqb_spec (foldPrecedence (foldStatus x)) (foldPrecedence (foldStatus y))); lia || done.
Qed.

Lemma newest_max l x : Forall dated l -> pick newer_than l = Some x -> forall y, y ∈ l -> newer_than x y = true.
Proof. apply (pick_max newer_than older dated newer_than_older). Qed.

Lemma newer_than_strict x y : dated x -> dated y -> str_ltb (foldTimestamp y) (foldTimestamp x) = true ->
  newer_than x y = true /\ newer_than y x = false.
Proof.
  unfold dated, newer_than, orderableTimestamps. intros -> -> H. simpl. rewrite H. split; [done|].
  rewrite (str_ltb_asym _ _ H). destruct (String.eqb_spec (foldTimestamp y) (foldTimestamp x)) as [E|]; [|done].
  rewrite E, str_ltb_irrefl in H. done.
Qed.

(** ** The record that counts, without positions *)

Definition suppressing (x : T) : bool := IsSuppressingStatus (foldStatus x).
Abbreviation suppressing_in g := (filter (fun x => suppressing x = true) g).
Definition effective (g : list T) : option T :=
  match suppressing_in g with [] => pick newer_than g | m => pick newer_than m end.

Lemma foldIndex_effective g : g !! foldIndex g = effective g.
Proof.
  unfold foldIndex, effective, latestIndex. pose proof (marked_values suppressing g) as Hv.
  change (fun (_ : nat) (x : T) => IsSuppressingStatus (foldStatus x)) with (fun (_ : nat) => suppressing).
  destruct (marked (fun _ => suppressing) g) as [|m0 m] eqn:E.
  { simpl in Hv. rewrite <- Hv. apply last_max_pick. }
  rewrite <- Hv. pose proof (best_marked_pick newer_than (m0 :: m)) as Hb.
  destruct (best_marked newer_than (m0 :: m)) as [i|]; [|done]. destruct Hb as (x & Hx & Hp). simpl.
  rewrite <- E in Hx. apply marked_elem in Hx as [Hx _]. rewrite Hx. symmetry. exact Hp.
Qed.

Lemma effective_rule1 g : suppressing_in g <> [] -> effective g = pick newer_than (suppressing_in g).
Proof. unfold effective. by destruct (suppressing_in g). Qed.
Lemma effective_rule2 g : suppressing_in g = [] -> effective g = pick newer_than g.
Proof. unfold effective. by intros ->. Qed.

Lemma effective_elem g x : effective g = Some x -> x ∈ g.
Proof.
  unfold effective. destruct (suppressing_in g) eqn:E; intros H%pick_elem; [done|].
  rewrite <- E in H. by apply list_elem_of_filter in H as [_ H].
Qed.
Lemma effective_None g : effective g = None <-> g = [].
Proof.
  unfold effective. destruct (suppressing_in g) eqn:E; rewrite pick_best_None; [done|].
  split; [done|]. intros ->. done.
Qed.
Lemma effective_nonempty g : g <> [] -> exists x, effective g = Some x.
Proof. intros H. destruct (effective g) eqn:E; [eauto|]. by apply effective_None in E. Qed.

Lemma effective_suppressing g x : effective g = Some x ->
  suppressing x = true <-> suppressing_in g <> [].
Proof.
  unfold effective. destruct (suppressing_in g) as [|y m] eqn:E; intros H%pick_elem.
  - split; [|done]. intros Hs. exfalso. assert (x ∈ suppressing_in g) as Hx by (by apply list_elem_of_filter).
    rewrite E in Hx. by apply elem_of_nil in Hx.
  - split; [done|]. intros _. rewrite <- E in H. by apply list_elem_of_filter in H as [? _].
Qed.

Lemma effective_max g x : Forall dated g -> effective g = Some x ->
  forall y, y ∈ g -> (suppressing x = true -> suppressing y = true) -> newer_than x y = true.
Proof.
  intros Hd He y Hy Hs. unfold effective in He. destruct (suppressing_in g) as [|z m] eqn:E.
  - by apply (newest_max g).
  - rewrite <- E in He. pose proof (pick_elem _ _ _ He) as Hx. apply list_elem_of_filter in Hx as [Hsx _].
    apply (newest_max (suppressing_in g)); [apply Forall_forall; intros w [_ Hw]%list_elem_of_filter; rewrite Forall_forall in Hd; auto|done|]. apply list_elem_of_filter. auto.
Qed.

(** Appending depends on a group only through its effective record. *)
Lemma effective_app g l : effective (g ++ l) =
  match suppressing_in l, effective g with
  | [], Some x => if suppressing x then Some x else foldl (pick_step newer_than) (Some x) l
  | m, Some x => if suppressing x then foldl (pick_step newer_than) (Some x) m else pick newer_than m
  | _, None => effective l
  end.
Proof.
  destruct (effective g) as [x|] eqn:Eg.
  2:{ apply effective_None in Eg as ->. simpl. by destruct (suppressing_in l). }
  pose proof (effective_suppressing g x Eg) as Hs. destruct (suppressing x).
  - assert (suppressing_in g <> []) as Hg by (by apply Hs).
    rewrite (effective_rule1 g Hg) in Eg. rewrite effective_rule1, filter_app, pick_best_app, Eg.
    + by destruct (suppressing_in l).
    + rewrite filter_app. intros [? _]%app_nil. done.
  - destruct (suppressing_in g) eqn:E1; [|by pose proof (proj2 Hs ltac:(done))].
    rewrite (effective_rule2 g E1) in Eg. destruct (suppressing_in l) eqn:E2.
    + rewrite effective_rule2 by (by rewrite filter_app, E1, E2). by rewrite pick_best_app, Eg.
    + rewrite effective_rule1 by (by rewrite filter_app, E1, E2). by rewrite filter_app, E1, E2.
Qed.

(** A record kept last, among records it beats, still counts. *)
Lemma effective_snoc l e :
  (forall y, y ∈ l -> suppressing y = true -> suppressing e = true) ->
  (forall y, y ∈ l -> (suppressing e = true -> suppressing y = true) -> newer_than e y = true) ->
  effective (l ++ [e]) = Some e.
Proof.
  intros H1 H2. destruct (suppressing e) eqn:Es.
  - assert (suppressing_in (l ++ [e]) = suppressing_in l ++ [e]) as Hl by (by rewrite filter_app, filter_cons_True).
    rewrite effective_rule1; rewrite Hl; [|by intros [_ ?]%app_nil].
    apply pick_snoc. intros y [Hy Hl']%list_elem_of_filter. auto.
  - rewrite effective_rule2; [apply pick_snoc; intros; by apply H2|].
    apply filter_Forall_nil, Forall_forall. intros y Hy Hs. apply elem_of_app in Hy as [Hy|Hy].
    + pose proof (H1 y Hy Hs). congruence.
    + apply list_elem_of_singleton in Hy as ->. congruence.
Qed.
End generic.

Lemma filter_fmap_same {A B} (f : A -> B) (p : B -> bool) (q : A -> bool) (l : list A) : (forall x, p (f x) = q x) ->
  filter (fun x => p x = true) (f <$> l) = f <$> filter (fun x => q x = true) l.
Proof.
  intros H. induction l as [|x l IH]; [done|]. rewrite fmap_cons, !filter_cons, IH, H. by destruct (decide (q x = true)).
Qed.

Lemma effective_fmap {T T'} {F : Foldable T} {F' : Foldable T'} (f : T -> T') (g : list T) :
  (forall x, foldStatus (f x) = foldStatus x /\ foldTimestamp (f x) = foldTimestamp x) ->
  effective (f <$> g) = f <$> effective g.
Proof.
  intros Hf. assert (forall x y, newer_than (f x) (f y) = newer_than x y) as Hn.
  { intros x y. unfold newer_than. by rewrite !(proj1 (Hf _)), !(proj2 (Hf _)). }
  unfold effective. assert (filter (fun x => suppressing x = true) (f <$> g) = f <$> filter (fun x => suppressing x = true) g) as ->.
  { apply filter_fmap_same. intros x. unfold suppressing. by rewrite (proj1 (Hf x)). }
  destruct (filter _ g) eqn:E; simpl; [|rewrite <- fmap_cons]; by apply pick_fmap.
Qed.
End fold_lemmas.

(** ** Lemmas: the groups *)

Lemma omap_fmap {A B C} (f : A -> option B) (g : B -> C) (l : list A) : g <$> omap f l = omap (fun x => g <$> f x) l.
Proof. induction l as [|x l IH]; [done|]. cbn. destruct (f x); cbn; f_equal; apply IH. Qed.
Lemma omap_ext_in {A B} (f g : A -> option B) (l : list A) : (forall x, x ∈ l -> f x = g x) -> omap f l = omap g l.
Proof.
  induction l as [|x l IH]; intros H; [done|]. cbn. rewrite (H x) by (by left).
  assert (omap f l = omap g l) as E by (apply IH; intros y Hy; apply H; by right).
  cbn in E. by rewrite E.
Qed.

Section group_lemmas.
Context {U : UnicodeCase}.

Section generic.
Context {T : Type} {F : Foldable T}.

(** The ids in the order of their first records, and the records of an id. *)
Definition order_step (order : list string) (it : T) : list string :=
  if decide (foldID it ∈ order) then order else order ++ [foldID it].
Definition id_order (items : list T) : list string := foldl order_step [] items.
Definition group_of (id : string) (items : list T) : list T := filter (fun it => foldID it = id) items.

Lemma group_step_spec items st0 : foldl group_step ([], ∅, ∅) items = st0 ->
  st0.1.1 = id_order items /\ (forall id, id ∈ st0.1.2 <-> id ∈ id_order items) /\
  (forall id, default [] (st0.2 !! id) = group_of id items).
Proof.
  intros <-. unfold id_order. induction items as [|it items IH] using rev_ind.
  { split_and!; [done|set_solver|]. intros id. simpl. by rewrite lookup_empty. }
  rewrite !foldl_snoc. destruct (foldl group_step ([], ∅, ∅) items) as [[order seen] byID].
  destruct IH as (Ho & Hs & Hb). cbn [fst snd] in *. unfold group_step. cbn [fst snd].
  rewrite <- Ho in *. unfold order_step. split_and!.
  - destruct (decide (foldID it ∈ seen)) as [H|H]; rewrite Hs in H; by case_decide.
  - intros id. rewrite elem_of_union, elem_of_singleton, Hs. case_decide as H; [split; [by intros [-> |?]|by right]|].
    rewrite elem_of_app, list_elem_of_singleton. tauto.
  - intros id. unfold group_of. rewrite filter_app, filter_cons, filter_nil.
    destruct (decide (foldID it = id)) as [<-|H].
    + rewrite lookup_insert_eq. simpl. by rewrite Hb.
    + rewrite lookup_insert_ne by done. by rewrite Hb, app_nil_r.
Qed.

Lemma elem_of_id_order items id : id ∈ id_order items <-> exists it, it ∈ items /\ foldID it = id.
Proof.
  unfold id_order. induction items as [|it items IH] using rev_ind; [set_solver|].
  rewrite foldl_snoc. unfold order_step. case_decide as H.
  - split; [intros (x & ? & ?)%IH; exists x; set_solver|]. intros (x & [Hx| ->%list_elem_of_singleton]%elem_of_app & <-); [|done].
    apply IH. eauto.
  - rewrite elem_of_app, IH, list_elem_of_singleton. split.
    + intros [(x & ? & ?)| ->]; [exists x|exists it]; set_solver.
    + intros (x & [Hx| ->%list_elem_of_singleton]%elem_of_app & <-); eauto.
Qed.
Lemma NoDup_id_order items : NoDup (id_order items).
Proof.
  unfold id_order. induction items as [|it items IH] using rev_ind; [constructor|].
  rewrite foldl_snoc. unfold order_step. case_decide; [done|]. apply NoDup_app. split_and!; [done|set_solver|apply NoDup_singleton].
Qed.

Lemma group_of_app id l1 l2 : group_of id (l1 ++ l2) = group_of id l1 ++ group_of id l2.
Proof. apply filter_app. Qed.
Lemma elem_of_group_of id items x : x ∈ group_of id items <-> foldID x = id /\ x ∈ items.
Proof. unfold group_of. by rewrite list_elem_of_filter. Qed.
Lemma group_of_nonempty id items : id ∈ id_order items -> group_of id items <> [].
Proof. intros (it & Hit & Hid)%elem_of_id_order E. assert (it ∈ group_of id items) as H by (by apply elem_of_group_of). rewrite E in H. by apply elem_of_nil in H. Qed.

Lemma foldByID_spec items : exists byID,
  foldByID items = (omap (fun id => effective (group_of id items)) (id_order items), byID) /\
  forall id, default [] (byID !! id) = group_of id items.
Proof.
  unfold foldByID. destruct (foldl group_step ([], ∅, ∅) items) as [[order seen] byID] eqn:E.
  destruct (group_step_spec items _ E) as (Ho & _ & Hb). cbn [fst snd] in *. exists byID. split; [|done].
  f_equal. rewrite Ho. apply omap_ext_in. intros id _. rewrite Hb. apply foldIndex_effective.
Qed.

(** The loop over the folded records that stamps each with its group. *)
Lemma fold_stamped (stamp : T -> list T -> T) items :
  (let '(folded, byID) := foldByID items in (fun e => stamp e (default [] (byID !! foldID e))) <$> folded) =
  omap (fun id => (fun e => stamp e (group_of id items)) <$> effective (group_of id items)) (id_order items).
Proof.
  destruct (foldByID_spec items) as (byID & -> & Hb). rewrite omap_fmap. apply omap_ext_in. intros id _.
  destruct (effective (group_of id items)) as [e|] eqn:E; [|done]. simpl. do 2 f_equal.
  apply effective_elem, elem_of_group_of in E as [<- _]. apply Hb.
Qed.

(** The newest annotated element, without positions. *)
Definition newest_of (p : T -> bool) (g : list T) : option T := pick newer_than (filter (fun x => p x = true) g).
Lemma newestAnnotatedIndex_pick p g :
  match newestAnnotatedIndex p g with Some j => g !! j | None => None end = newest_of p g.
Proof.
  unfold newestAnnotatedIndex, newest_of. rewrite <- marked_values. destruct (marked (fun _ => p) g) as [|m0 m] eqn:E; [done|].
  pose proof (best_marked_pick newer_than (m0 :: m)) as Hb.
  destruct (best_marked newer_than (m0 :: m)) as [i|]; [|done]. destruct Hb as (x & Hx & Hp).
  rewrite <- E in Hx. apply marked_elem in Hx as [-> _]. by rewrite Hp.
Qed.
Lemma newestAnnotatedIndex_valid p g j : newestAnnotatedIndex p g = Some j -> is_Some (g !! j).
Proof.
  unfold newestAnnotatedIndex. destruct (marked (fun _ => p) g) as [|m0 m] eqn:E; [done|]. intros H.
  pose proof (best_marked_pick newer_than (m0 :: m)) as Hb. rewrite H in Hb. destruct Hb as (x & Hx & _).
  rewrite <- E in Hx. apply marked_elem in Hx as [-> _]. eauto.
Qed.
End generic.

(** What an id folds to. *)
Definition carry_feedback (o : option DebtRecord) (r : DebtRecord) : DebtRecord :=
  match o with Some a => set_feedback (r_ReconcilerFeedback a) r | None => r end.
Definition fold_group (g : list DebtRecord) : option DebtRecord :=
  (fun e => carry_feedback (newest_of annotated g) (aggregateCounters e g)) <$> effective g.

Lemma stamp_group_spec e g : stamp_group e g = carry_feedback (newest_of annotated g) (aggregateCounters e g).
Proof.
  unfold stamp_group. rewrite <- newestAnnotatedIndex_pick.
  destruct (newestAnnotatedIndex annotated g) as [j|] eqn:E; [|done].
  apply newestAnnotatedIndex_valid in E as [r ->]. done.
Qed.

Lemma FoldRecords_groups recs :
  FoldRecords recs = omap (fun id => fold_group (group_of id recs)) (id_order recs).
Proof.
  unfold FoldRecords, foldWithGroups. pose proof (fold_stamped stamp_group recs) as H.
  destruct (foldByID recs) as [folded byID]. cbn [fst]. etransitivity; [exact H|].
  apply omap_ext_in. intros id _. unfold fold_group. destruct (effective _); [|done]. simpl. by rewrite stamp_group_spec.
Qed.

(** ** The summaries fold as the records do *)

(** An annotation the write gate let through names its kind. *)
Definition kinded (r : DebtRecord) : Prop :=
  match r_ReconcilerFeedback r with Some f => fb_Kind f <> "" | None => True end.

Lemma group_of_summaries id recs : group_of id (summary_of <$> recs) = summary_of <$> group_of id recs.
Proof.
  unfold group_of. induction recs as [|r recs IH]; [done|]. rewrite fmap_cons, !filter_cons, IH. simpl.
  by destruct (decide (r_ID r = id)).
Qed.
Lemma id_order_summaries recs : id_order (summary_of <$> recs) = id_order recs.
Proof.
  unfold id_order. generalize (@nil string). induction recs as [|r recs IH]; intros o; [done|]. cbn. by rewrite <- IH.
Qed.

Lemma FoldSummaries_records recs : Forall kinded recs ->
  FoldSummaries (summary_of <$> recs) = summary_of <$> FoldRecords recs.
Proof.
  intros Hk. unfold FoldSummaries.
  etransitivity; [exact (fold_stamped stamp_summary (summary_of <$> recs))|].
  rewrite FoldRecords_groups, omap_fmap, id_order_summaries. apply omap_ext_in. intros id _.
  rewrite group_of_summaries. set (g := group_of id recs).
  rewrite (effective_fmap summary_of) by done. unfold fold_group. destruct (effective g) as [e|]; [|done]. simpl. f_equal.
  unfold stamp_summary.
  set (p := fun s => negb (String.eqb (sm_FeedbackKind s) "")).
  assert (newest_of p (summary_of <$> g) = summary_of <$> newest_of annotated g) as Hn.
  { unfold newest_of. rewrite <- (pick_fmap newer_than newer_than summary_of) by done. f_equal.
    etransitivity; [apply (filter_fmap_same summary_of p (fun r => p (summary_of r))); done|]. f_equal.
    apply filter_iff_in. intros r [_ Hr]%elem_of_group_of. rewrite Forall_forall in Hk. specialize (Hk r Hr).
    unfold p, kinded, annotated, summary_of in *. simpl. destruct (r_ReconcilerFeedback r); [|done].
    by destruct (String.eqb_spec (fb_Kind r0) ""). }
  pose proof (newestAnnotatedIndex_pick p (summary_of <$> g)) as Hj. rewrite Hn in Hj.
  destruct (newestAnnotatedIndex p (summary_of <$> g)) as [j|] eqn:E.
  - apply newestAnnotatedIndex_valid in E as [s Hs]. rewrite Hs in Hj |- *. destruct (newest_of annotated g) as [a|] eqn:Ea; [|done].
    simpl in Hj. injection Hj as ->. unfold aggregateCounters. by destruct (foldl _ _ _) as [[? ?] ?].
  - destruct (newest_of annotated g) eqn:Ea; [done|]. simpl. unfold aggregateCounters. by destruct (foldl _ _ _) as [[? ?] ?].
Qed.
End group_lemmas.

(** ** Properties *)

(** the streaming path and the full path cannot disagree: when every annotation names
    its kind, as the write gate demands, folding the summaries of the records gives the
    summaries of the folded records, in the same order. *)
Theorem FoldSummaries_agrees {U : UnicodeCase} recs : Forall kinded recs ->
  FoldSummaries (summary_of <$> recs) = summary_of <$> FoldRecords recs.
Proof. apply FoldSummaries_records. Qed.

Definition noted (ts status : string) (fb : option ReconcilerFeedback) : DebtRecord :=
  mkDebt 4 "00000000000000aa" ts ts "HIGH" "a.go" 7 "leak" "close it" "correctness" 5 "" ["vera"] "MEDIUM" "m1" [] "" 0 "" "" ""
    fb 0 "" None status "".
Definition noted_history : list DebtRecord :=
  [noted "2026-06-01T00:00:00Z" "" None;
   noted "2026-06-02T00:00:00Z" "deferred" (Some (mkFeedback FeedbackWrongSplit "" "one issue"));
   noted "2026-06-03T00:00:00Z" "" None].
Lemma FoldSummaries_agrees_witness : Forall kinded noted_history /\
  (fun s => (sm_Timestamp s, sm_Status s, sm_FeedbackKind s)) <$> FoldSummaries (U := ascii_case) (summary_of <$> noted_history) =
    [("2026-06-03T00:00:00Z", "", "wrong-split")].
Proof.
  assert (Forall kinded noted_history) as H by (repeat constructor; done).
  split; [exact H|]. rewrite (FoldSummaries_agrees (U := ascii_case) noted_history H). vm_compute. reflexivity.
Defined.
