(* ===== verification/DebtCompact.v ===== *)
(** * The local debt store: compaction

    The pure part of [Compact] in src/internal/localdebt/store.go: what compaction
    retains for each id ([retainForCompaction]), the plan around shards it may not
    rewrite ([planCompaction]), the filing into month shards, the counts it reports, and
    the thresholds of automatic compaction. Staging, renaming and locking are not
    modelled: the plan and the filing are what a run writes.

    The theorems show that compaction is invisible: the fold over a compacted store, and
    over a compacted store appended to, is the fold over the original, field by field;
    at most four records per id remain. *)

From Stdlib Require Import Ascii String.
From stdpp Require Import prelude strings gmap fin_sets list sorting.
From Stdlib Require Import ZArith Lia.
From S2P Require Import Prelude GoString GoStrconv GoSort GoInt GoTime LocalDebt.

Open Scope string_scope.
Open Scope list_scope.
Open Scope nat_scope.

Section compaction.
Context {U : UnicodeCase}.

(** ** What is retained *)

(** [modelDonorIndex]: the position of the best donor so far, with its record. *)
Definition is_donor (r : DebtRecord) : bool :=
  IsClosedStatus (r_Status r) && negb (String.eqb (TrimSpace (r_Model r)) "").
Definition not_before (r b : DebtRecord) : bool := negb (str_ltb (r_Timestamp r) (r_Timestamp b)).
Fixpoint donor_from (best : option (nat * DebtRecord)) (i : nat) (group : list DebtRecord) : option nat :=
  match group with
  | [] => fst <$> best
  | r :: group' =>
      if negb (is_donor r) then donor_from best (S i) group'
      else match best with
      | None => donor_from (Some (i, r)) (S i) group'
      | Some (_, b) => donor_from (if not_before r b then Some (i, r) else best) (S i) group'
      end
  end.
Definition modelDonorIndex (group : list DebtRecord) : option nat := donor_from None 0 group.

(** The switch of [highestRankedTerminalIndex]: rank, then recency. *)
Definition higher_ranked (r cur : DebtRecord) : bool :=
  if (ClosedStatusRank (r_Status cur) <? ClosedStatusRank (r_Status r))%Z then true
  else (ClosedStatusRank (r_Status r) =? ClosedStatusRank (r_Status cur))%Z && not_before r cur.
Definition highestRankedTerminalIndex (terminals : list DebtRecord) : nat := last_max higher_ranked terminals.

(** The superseded rationale: a record other than the effective one whose rationale the
    effective record does not already carry. *)
Definition owed_rationale (eff : DebtRecord) (effIdx : option nat) (i : nat) (r : DebtRecord) : bool :=
  if decide (Some i = effIdx) then false
  else if negb (bearsRationale (r_Status r)) then false
  else negb (bearsRationale (r_Status eff)
             && String.eqb (TrimSpace (r_Justification r)) (TrimSpace (r_Justification eff))).
Definition trail_index (eff : DebtRecord) (effIdx : option nat) (group : list DebtRecord) : option nat :=
  match marked (owed_rationale eff effIdx) group with
  | [] => None
  | m => m.*1 !! highestRankedTerminalIndex m.*2
  end.

(** The latest closed record, when the effective one is open. *)
Definition latest_closed_index (eff : DebtRecord) (group : list DebtRecord) : option nat :=
  if IsClosedStatus (r_Status eff) then None
  else match marked (fun _ r => IsClosedStatus (r_Status r)) group with
  | [] => None
  | m => m.*1 !! latestIndex m.*2
  end.

Definition exhausted (group : list DebtRecord) (o : option nat) : bool :=
  match o with
  | Some i => match group !! i with
              | Some r => String.eqb (normalizeStatus (r_Status r)) StatusAttemptsExhausted
              | None => false
              end
  | None => false
  end.

Definition carryAnnotation (eff r : DebtRecord) : DebtRecord :=
  if annotated r then set_feedback (r_ReconcilerFeedback eff) r else r.
(** A retained record that is not the effective one: its counters are zeroed. *)
Definition retained_copy (eff r : DebtRecord) : DebtRecord := set_counters 0 "" "" (carryAnnotation eff r).
Definition emit (eff : DebtRecord) (group : list DebtRecord) (o : option nat) : list DebtRecord :=
  match o with
  | Some i => match group !! i with Some r => [retained_copy eff r] | None => [] end
  | None => []
  end.

(** The loop body of [retainForCompaction]. *)
Definition retain_group (eff : DebtRecord) (group : list DebtRecord) : list DebtRecord :=
  let effIdx := if (0 <? length group) then Some (foldIndex group) else None in
  let latest := latest_closed_index eff group in
  let donor := modelDonorIndex group in
  let trail := trail_index eff effIdx group in
  let donor := if decide (donor = trail \/ donor = effIdx) then None else donor in
  let latest :=
    if bool_decide (latest = trail) || bool_decide (latest = donor)
       || negb (exhausted group latest) && negb (exhausted group trail) && negb (exhausted group donor)
    then None else latest in
  emit eff group trail ++ emit eff group latest ++ emit eff group donor ++ [eff].

Definition retainForCompaction (recs : list DebtRecord) : list DebtRecord :=
  let '(effective, byID) := foldWithGroups recs in
  mjoin ((fun eff => retain_group eff (default [] (byID !! r_ID eff))) <$> effective).

(** ** The plan around shards that may not be rewritten *)

(** [monthFromRunID]: the leading "YYYY-MM" of a run id. *)
Definition month_ok (l : bytes) : bool :=
  match l with
  | [y1; y2; y3; y4; dash; m1; m2] =>
      is_digit y1 && is_digit y2 && is_digit y3 && is_digit y4 && Ascii.eqb dash "-"
      && (Ascii.eqb m1 "0" && between 49 57 m2 || Ascii.eqb m1 "1" && between 48 50 m2)
  | _ => false
  end.
Definition monthFromRunID (runID : string) : option string :=
  let l := to_bytes runID in
  if length l <? 7 then None
  else if month_ok (take 7 l) then Some (of_bytes (take 7 l)) else None.

(** What was read: every record with the file it is in ([records] and [shards] of
    [shardRead]), and the files that may not be rewritten. *)
Record shardRead := mkRead { sh_records : list (DebtRecord * string); sh_frozen : gset string }.
Definition frozenIDs (read : shardRead) : gset string :=
  list_to_set (r_ID <$> (filter (fun p => p.2 ∈ sh_frozen read) (sh_records read)).*1).

Definition plan_step (frozen : gset string) (files : gset string) (st : list DebtRecord * list DebtRecord)
    (p : DebtRecord * string) : list DebtRecord * list DebtRecord :=
  let '(compactable, carried) := st in
  if decide (p.2 ∈ files) then st
  else if decide (r_ID p.1 ∈ frozen) then (compactable, carried ++ [p.1])
  else (compactable ++ [p.1], carried).
Definition planCompaction (read : shardRead) : list DebtRecord :=
  let frozen := frozenIDs read in
  if decide (frozen = ∅) then retainForCompaction (sh_records read).*1
  else
    let '(compactable, carried) := foldl (plan_step frozen (sh_frozen read)) ([], []) (sh_records read) in
    retainForCompaction compactable ++ carried.

Definition frozen_month (read : shardRead) (month : string) : bool :=
  bool_decide (month +:+ ".jsonl" ∈ sh_frozen read).
(** [bucketByMonth]: the records filed into each month shard. *)
Definition bucket_step (frozen : string -> bool) (byMonth : gmap string (list DebtRecord)) (r : DebtRecord) :
  gmap string (list DebtRecord) :=
  match monthFromRunID (r_RunID r) with
  | None => byMonth
  | Some month => if frozen month then byMonth else <[month := default [] (byMonth !! month) ++ [r]]> byMonth
  end.
Definition bucketByMonth (planned : list DebtRecord) (frozen : string -> bool) : gmap string (list DebtRecord) :=
  foldl (bucket_step frozen) ∅ planned.
Definition filed (read : shardRead) : gmap string (list DebtRecord) :=
  bucketByMonth (planCompaction read) (frozen_month read).
Definition filedCount (byMonth : gmap string (list DebtRecord)) : nat :=
  foldr (fun p n => length p.2 + n) 0 (map_to_list byMonth).

(** The records in files a run leaves alone, and the counts it reports: before, after
    and dropped. *)
Definition left_alone (read : shardRead) : list DebtRecord :=
  (filter (fun p => p.2 ∈ sh_frozen read) (sh_records read)).*1.
Definition compactionCounts (read : shardRead) (filed : nat) : Z * Z * Z :=
  let before := Z.of_nat (length (sh_records read)) in
  let after := Z.of_nat (filed + length (left_alone read)) in
  (before, after, (before - after)%Z).

(** What is on disk after a run: the files left alone and the month shards written. A
    month shard that is not frozen and gets no record is removed. *)
Definition on_disk_after (read : shardRead) : list DebtRecord :=
  left_alone read ++ mjoin ((map_to_list (filed read)).*2).

(** ** The thresholds of automatic compaction *)

Definition DefaultAutoCompactMaxRecords : Z := 100000.
Definition DefaultAutoCompactMaxBytes : Z := 104857600.
Definition minBytesPerRecord : Z := 64.
Definition maxRecords (policy : Z) : Z := if (policy <=? 0)%Z then DefaultAutoCompactMaxRecords else policy.
Definition maxBytes (policy : Z) : Z := if (policy <=? 0)%Z then DefaultAutoCompactMaxBytes else policy.
Definition needsExactLineCount (size policyRecords : Z) : bool :=
  (wrap64 (maxRecords policyRecords * minBytesPerRecord) <=? size)%Z.
Definition grewPast (current watermark : Z) : bool :=
  if (watermark <=? 0)%Z then (0 <? current)%Z else (wrap64 (watermark * 3) <? wrap64 (current * 2))%Z.

(** [MaybeCompact]'s decision: the size on disk, the line count where it is taken, and
    the watermark of the last run, in records and bytes. *)
Definition should_compact (policyRecords policyBytes size lines wRecords wBytes : Z) : bool :=
  let byBytes := (maxBytes policyBytes <=? size)%Z in
  let counted := negb byBytes && needsExactLineCount size policyRecords in
  let tripped := byBytes || counted && (maxRecords policyRecords <=? lines)%Z in
  if negb tripped then false
  else if counted && (0 <=? lines)%Z then grewPast lines wRecords else grewPast size wBytes.

(** ** Lemmas: one group *)

(** What the counters and the annotation leave of a record. *)
Definition core (r : DebtRecord) : DebtRecord := set_feedback None (set_counters 0 "" "" r).

Lemma core_retained eff r : core (retained_copy eff r) = core r.
Proof. unfold retained_copy, carryAnnotation. by destruct (annotated r). Qed.
Lemma core_stamped e g o : core (carry_feedback o (aggregateCounters e g)) = core e.
Proof.
  unfold aggregateCounters. destruct (foldl _ _ _) as [[fresh first] counted]. by destruct o.
Qed.

Lemma newer_than_core x y : newer_than (core x) (core y) = newer_than x y.
Proof. done. Qed.
Lemma newer_than_same_core x x' y y' : core x = core x' -> core y = core y' -> newer_than x y = newer_than x' y'.
Proof. intros Hx Hy. by rewrite <- newer_than_core, Hx, Hy, newer_than_core. Qed.

(** Facts about a record that only its core decides. *)
Lemma core_fields x y : core x = core y ->
  r_ID x = r_ID y /\ r_Timestamp x = r_Timestamp y /\ r_Status x = r_Status y /\ r_Model x = r_Model y /\
  r_ModelReviewers x = r_ModelReviewers y /\ r_Reviewers x = r_Reviewers y /\ r_Justification x = r_Justification y /\
  r_Origin x = r_Origin y /\ r_ResolvedAt x = r_ResolvedAt y.
Proof.
  intros H. split_and!;
    [apply (f_equal r_ID) in H|apply (f_equal r_Timestamp) in H|apply (f_equal r_Status) in H|apply (f_equal r_Model) in H
    |apply (f_equal r_ModelReviewers) in H|apply (f_equal r_Reviewers) in H|apply (f_equal r_Justification) in H
    |apply (f_equal r_Origin) in H|apply (f_equal r_ResolvedAt) in H]; exact H.
Qed.

Lemma elem_of_emit eff g o z : z ∈ emit eff g o -> exists i r, o = Some i /\ g !! i = Some r /\ z = retained_copy eff r.
Proof.
  unfold emit. destruct o as [i|]; [|by intros ?%elem_of_nil]. destruct (g !! i) as [r|] eqn:E; [|by intros ?%elem_of_nil].
  intros ->%list_elem_of_singleton. eauto.
Qed.

(** A compacted group ends with the effective record; the others are copies. *)
Lemma retain_group_shape eff g : exists zs, retain_group eff g = zs ++ [eff] /\ length zs <= 3 /\
  forall z, z ∈ zs -> exists r, r ∈ g /\ z = retained_copy eff r.
Proof.
  unfold retain_group. rewrite !(assoc_L (++)). eexists. split; [reflexivity|]. split.
  - rewrite !length_app. unfold emit. repeat match goal with |- context [match ?o with Some _ => _ | None => _ end] => destruct o end; simpl; lia.
  - intros z. rewrite !elem_of_app.
    intros [[Hz|Hz]|Hz]; apply elem_of_emit in Hz as (i & r & _ & Hr & ->); exists r; split; try done; by eapply list_elem_of_lookup_2.
Qed.
End compaction.

(** ** Lemmas: the effective record survives *)

Section fold_stable.
Context {U : UnicodeCase}.

Lemma suppressing_core x y : core x = core y -> suppressing x = suppressing y.
Proof. intros H. unfold suppressing. simpl. by rewrite (proj1 (proj2 (proj2 (core_fields x y H)))). Qed.

Lemma retain_group_effective g e eff : Forall dated g -> effective g = Some e -> core eff = core e ->
  effective (retain_group eff g) = Some eff.
Proof.
  intros Hd He Hc. destruct (retain_group_shape eff g) as (zs & -> & _ & Hzs).
  assert (forall z, z ∈ zs -> exists r, r ∈ g /\ core z = core r) as Hz.
  { intros z (r & Hr & ->)%Hzs. exists r. by rewrite core_retained. }
  apply effective_snoc.
  - intros y (r & Hr & Hy)%Hz. rewrite (suppressing_core y r Hy), (suppressing_core eff e Hc). intros Hs.
    apply (effective_suppressing g e He). intros E. assert (r ∈ filter (fun x => suppressing x = true) g) as H by (by apply list_elem_of_filter).
    rewrite E in H. by apply elem_of_nil in H.
  - intros y (r & Hr & Hy)%Hz. rewrite (suppressing_core y r Hy), (suppressing_core eff e Hc). intros Hs.
    rewrite (newer_than_same_core eff e y r) by done. by apply (effective_max g).
Qed.

Lemma pick_from_core (l : list DebtRecord) x x' : core x = core x' ->
  core <$> foldl (pick_step newer_than) (Some x) l = core <$> foldl (pick_step newer_than) (Some x') l.
Proof.
  revert x x'. induction l as [|y l IH]; intros x x' H; simpl; [by rewrite H|].
  rewrite (newer_than_same_core y y x x') by done. destruct (newer_than y x'); by apply IH.
Qed.

(** Two groups with the same effective record fold alike, whatever is appended. *)
Lemma effective_app_core (g g' l : list DebtRecord) : core <$> effective g = core <$> effective g' ->
  core <$> effective (g ++ l) = core <$> effective (g' ++ l).
Proof.
  intros H. rewrite (effective_app g), (effective_app g').
  destruct (effective g) as [x|], (effective g') as [x'|]; try done. apply (inj Some) in H.
  rewrite (suppressing_core x x') by done.
  destruct (filter _ l) as [|y m] eqn:E, (suppressing x'); try done; [|by apply pick_from_core|by apply pick_from_core].
  change (Some (core x) = Some (core x')). by rewrite H.
Qed.

(** ** Lemmas: the counters, one at a time *)

Definition is_fresh (carried : Z) (boundary : string) (r : DebtRecord) : bool :=
  isSighting r && ((r_Occurrences r =? 0)%Z && ((carried =? 0)%Z || str_ltb boundary (r_Timestamp r))).
Definition count_fresh (carried : Z) (boundary : string) (g : list DebtRecord) : Z :=
  Z.of_nat (length (filter (fun r => is_fresh carried boundary r = true) g)).
Definition counted_step (t : string) (r : DebtRecord) : string :=
  if isSighting r && str_ltb t (r_Timestamp r) then r_Timestamp r else t.
Definition seen_of (r : DebtRecord) : string :=
  if String.eqb (r_FirstSeen r) "" then r_Timestamp r else r_FirstSeen r.
Definition first_step (first : string) (r : DebtRecord) : string :=
  if String.eqb (seen_of r) "" then first
  else if String.eqb first "" then seen_of r else earlierTimestamp first (seen_of r).

Definition fresh_in (g : list DebtRecord) : Z := count_fresh (carried_of (carrier g)) (boundary_of (carrier g)) g.
Definition at_least_one (n : Z) : Z := if (n <? 1)%Z then 1%Z else n.
Definition occurrences (g : list DebtRecord) : Z := at_least_one (wrap64 (carried_of (carrier g) + fresh_in g)).
Definition first_in (g : list DebtRecord) : string := foldl first_step "" g.
Definition counted_in (g : list DebtRecord) : string := foldl counted_step (boundary_of (carrier g)) g.

Lemma count_fold c b n f t g : foldl (count_step c b) (n, f, t) g =
  ((n + count_fresh c b g)%Z, foldl first_step f g, foldl counted_step t g).
Proof.
  revert n f t. induction g as [|r g IH]; intros n f t; simpl; [by rewrite Z.add_0_r|].
  rewrite IH. unfold count_fresh. rewrite filter_cons. fold (is_fresh c b r).
  destruct (is_fresh c b r) eqn:E; simpl; [|done]. do 2 f_equal. lia.
Qed.

Lemma aggregate_spec e g : aggregateCounters e g = set_counters (occurrences g) (first_in g) (counted_in g) e.
Proof. unfold aggregateCounters. by rewrite count_fold. Qed.

Lemma occurrences_range g : (1 <= occurrences g <= MaxInt64)%Z.
Proof.
  unfold occurrences, at_least_one. pose proof (wrap64_range (carried_of (carrier g) + fresh_in g)) as [? ?].
  destruct (Z.ltb_spec (wrap64 (carried_of (carrier g) + fresh_in g)) 1); [|lia]. by vm_compute.
Qed.

Lemma count_fresh_app c b g l : count_fresh c b (g ++ l) = (count_fresh c b g + count_fresh c b l)%Z.
Proof. unfold count_fresh. rewrite filter_app, length_app. lia. Qed.

Lemma carrier_zero l c : Forall (fun r => r_Occurrences r = 0%Z) l -> foldl carrier_step c l = c.
Proof.
  intros H. revert c. induction H as [|r l Hr _ IH]; intros c; simpl; [done|].
  replace (carrier_step c r) with c by (unfold carrier_step; by rewrite Hr). apply IH.
Qed.
Lemma carrier_app_zero g l : Forall (fun r => r_Occurrences r = 0%Z) l -> carrier (g ++ l) = carrier g.
Proof. intros H. unfold carrier. by rewrite foldl_app, carrier_zero. Qed.

Lemma carrier_from g c r : foldl carrier_step c g = Some r -> c = Some r \/ r ∈ g /\ r_Occurrences r <> 0%Z.
Proof.
  revert c. induction g as [|x g IH]; intros c; simpl; [auto|]. intros [Hc|[? ?]]%IH; [|set_solver].
  unfold carrier_step in Hc. destruct (Z.eqb_spec (r_Occurrences x) 0); [auto|].
  destruct c as [c0|]; [destruct (_ || _)|]; simplify_eq; auto; right; split; try done; by left.
Qed.
Lemma carrier_Some g r : carrier g = Some r -> r ∈ g /\ r_Occurrences r <> 0%Z.
Proof. by intros [?|?]%carrier_from. Qed.
Lemma carrier_None g : carrier g = None -> Forall (fun r => r_Occurrences r = 0%Z) g.
Proof.
  unfold carrier. assert (forall l c, foldl carrier_step (Some c) l <> None) as Hs.
  { induction l as [|x l IH]; intros c; simpl; [done|]. unfold carrier_step at 2. destruct (_ =? _)%Z; [apply IH|]. destruct (_ || _); apply IH. }
  induction g as [|x g IH]; [constructor|]. simpl. unfold carrier_step at 2. destruct (Z.eqb_spec (r_Occurrences x) 0); intros H.
  - constructor; auto.
  - by apply Hs in H.
Qed.

(** The boundary after a group: at or after every sighting of it and its start. *)
Lemma counted_spec t g : (foldl counted_step t g = t \/ exists r, r ∈ g /\ foldl counted_step t g = r_Timestamp r) /\
  str_ltb (foldl counted_step t g) t = false /\
  forall r, r ∈ g -> isSighting r = true -> str_ltb (foldl counted_step t g) (r_Timestamp r) = false.
Proof.
  revert t. induction g as [|x g IH]; intros t; simpl.
  { split_and!; [by left|apply str_ltb_irrefl|]. intros r Hr. by apply elem_of_nil in Hr. }
  destruct (IH (counted_step t x)) as (H1 & H2 & H3).
  assert (str_ltb (counted_step t x) t = false /\ (isSighting x = true -> str_ltb (counted_step t x) (r_Timestamp x) = false)) as [Ha Hb].
  { unfold counted_step. destruct (isSighting x); simpl; [|split; [apply str_ltb_irrefl|done]].
    destruct (str_ltb t (r_Timestamp x)) eqn:E; split; try done; try apply str_ltb_irrefl; [by apply str_ltb_asym|by rewrite str_ltb_irrefl]. }
  assert (forall a b c, str_ltb b a = false -> str_ltb c b = false -> str_ltb c a = false) as Htr.
  { intros a b c. apply (not_after_trans (less := str_ltb) a b c). }
  split_and!.
  - destruct H1 as [->|(r & Hr & ->)]; [|right; exists r; split; [by right|done]].
    unfold counted_step. destruct (_ && _); [right; exists x; split; [by left|done]|by left].
  - by apply (Htr _ (counted_step t x)).
  - intros r [->|Hr]%elem_of_cons Hs; [|auto]. apply (Htr _ (counted_step t x)); auto.
Qed.

Lemma counted_unmoved t g : (forall r, r ∈ g -> isSighting r = true -> str_ltb t (r_Timestamp r) = false) ->
  foldl counted_step t g = t.
Proof.
  intros H. induction g as [|x g IH]; simpl; [done|].
  replace (counted_step t x) with t; [apply IH; intros r Hr; apply H; by right|].
  unfold counted_step. destruct (isSighting x) eqn:E; [|done]. by rewrite (H x ltac:(by left) E).
Qed.
End fold_stable.

(** ** Lemmas: the counters survive *)

(** A first sighting that can be read and is not later than the record. *)
Definition first_ok (r : DebtRecord) : Prop :=
  exists t s, parse_rfc3339 (r_Timestamp r) = Some t /\ parse_rfc3339 (seen_of r) = Some s /\ (s <= t)%Z.

Section counters_stable.
Context {U : UnicodeCase}.

(** Records the fold can order, those appended later being later. *)
Definition ordered (g l : list DebtRecord) : Prop :=
  Forall dated (g ++ l) /\ forall r y, r ∈ g -> y ∈ l -> str_ltb (r_Timestamp r) (r_Timestamp y) = true.

(** What the records [g] of an id and those appended later, [l], must be like for the
    counters. *)
Record appendable (g l : list DebtRecord) : Prop := {
  ap_first : Forall first_ok (g ++ l);
  ap_later : forall r y, r ∈ g -> y ∈ l ->
    str_ltb (r_Timestamp r) (r_Timestamp y) = true /\ str_ltb (r_CountedThrough r) (r_Timestamp y) = true;
  ap_zero : Forall (fun y => r_Occurrences y = 0%Z) l;
  ap_counts : l <> [] -> Forall (fun r => (0 <= r_Occurrences r /\ r_Occurrences r + Z.of_nat (length (g ++ l)) <= MaxInt64)%Z) g;
  ap_seen : l <> [] -> g <> [] -> Exists (fun r => isSighting r = true \/ (0 < r_Occurrences r)%Z) g;
}.

Lemma first_ok_dated r : first_ok r -> dated r.
Proof. intros (t & s & Ht & _). unfold dated, is_rfc3339. simpl. rewrite Ht. by apply bool_decide_eq_true. Qed.
Lemma first_ok_ne r : first_ok r -> r_Timestamp r <> "" /\ seen_of r <> "".
Proof. intros (t & s & Ht & Hs & _). assert (parse_rfc3339 "" = None) as H0 by reflexivity. split; intros E; congruence. Qed.
Lemma appendable_ordered g l : appendable g l -> ordered g l.
Proof.
  intros [H Hl _ _ _]. split; [|intros r y Hr Hy; by destruct (Hl r y Hr Hy)].
  eapply Forall_impl; [exact H|]. apply first_ok_dated.
Qed.

Lemma ltb_empty s : s <> "" -> str_ltb "" s = true.
Proof. by destruct s. Qed.
Lemma not_ltb_empty s : str_ltb s "" = false.
Proof. by destruct s. Qed.

Lemma boundary_bound g y : (forall r, r ∈ g -> str_ltb (r_Timestamp r) (r_Timestamp y) = true /\ str_ltb (r_CountedThrough r) (r_Timestamp y) = true) ->
  r_Timestamp y <> "" -> str_ltb (boundary_of (carrier g)) (r_Timestamp y) = true.
Proof.
  intros H Hy. unfold boundary_of. destruct (carrier g) as [c|] eqn:E; [|by apply ltb_empty].
  apply carrier_Some in E as [Hc _]. destruct (H c Hc). by destruct (String.eqb_spec (r_CountedThrough c) "").
Qed.

Lemma boundary_nonempty g c : Forall first_ok g -> carrier g = Some c -> boundary_of (Some c) <> "".
Proof.
  intros H [Hc _]%carrier_Some. simpl. destruct (String.eqb_spec (r_CountedThrough c) ""); [|done].
  rewrite Forall_forall in H. by apply first_ok_ne, H.
Qed.

Lemma count_fresh_later c b l : Forall (fun y => r_Occurrences y = 0%Z) l ->
  (forall y, y ∈ l -> str_ltb b (r_Timestamp y) = true) ->
  count_fresh c b l = Z.of_nat (length (filter (fun r => isSighting r = true) l)).
Proof.
  intros Hz Hb. unfold count_fresh. f_equal. f_equal. apply filter_iff_in. intros y Hy. unfold is_fresh.
  rewrite Forall_forall in Hz. rewrite (Hz y Hy), (Hb y Hy). simpl. by rewrite orb_true_r, andb_true_r.
Qed.

(** A group with a sighting or a count counts at least one. *)
Lemma counted_group g : Forall first_ok g -> Forall (fun r => (0 <= r_Occurrences r)%Z) g ->
  Exists (fun r => isSighting r = true \/ (0 < r_Occurrences r)%Z) g ->
  (1 <= carried_of (carrier g) + fresh_in g)%Z /\ counted_in g <> "".
Proof.
  intros Hf Hn Hs. unfold fresh_in. destruct (carrier g) as [c|] eqn:E.
  - pose proof (boundary_nonempty g c Hf E) as Hb. apply carrier_Some in E as Hc. destruct Hc as [Hc Hc0].
    rewrite Forall_forall in Hn. specialize (Hn c Hc). split.
    + cbn [carried_of]. unfold count_fresh. lia.
    + unfold counted_in. rewrite E. destruct (counted_spec (boundary_of (Some c)) g) as (_ & H & _). intros E'.
      rewrite E' in H. destruct (boundary_of (Some c)); done.
  - apply carrier_None in E as Hz. apply Exists_exists in Hs as (r & Hr & Hs).
    pose proof Hz as Hz'. rewrite Forall_forall in Hz. specialize (Hz r Hr). destruct Hs as [Hs|]; [|lia].
    rewrite Forall_forall in Hf. destruct (first_ok_ne r (Hf r Hr)) as [Hne _]. split.
    + cbn [carried_of boundary_of]. unfold count_fresh.
      assert (r ∈ filter (fun r => is_fresh 0 "" r = true) g) as Hin.
      { apply list_elem_of_filter. split; [|done]. unfold is_fresh. by rewrite Hs, Hz. }
      destruct (filter _ g); [by apply elem_of_nil in Hin|]. simpl. lia.
    + unfold counted_in. rewrite E. destruct (counted_spec "" g) as (_ & _ & H). intros E'. cbn [boundary_of] in E'.
      specialize (H r Hr Hs). rewrite E' in H. by rewrite ltb_empty in H.
Qed.

(** ** The compacted group, for the counters *)

Section block.
Context (g zs : list DebtRecord) (e eff : DebtRecord).
Hypothesis Hfirst : Forall first_ok g.
Hypothesis He : e ∈ g.
Hypothesis Heff : eff = carry_feedback (newest_of annotated g) (aggregateCounters e g).
Hypothesis Hzs : forall z, z ∈ zs -> exists r, r ∈ g /\ z = retained_copy eff r.

Lemma annotated_newest r : r ∈ g -> annotated r = true -> exists a, newest_of annotated g = Some a /\ annotated a = true.
Proof using.
  intros Hr Ha. unfold newest_of. assert (r ∈ filter (fun x => annotated x = true) g) as Hin by (by apply list_elem_of_filter).
  destruct (pick _ _) as [a|] eqn:E; [|apply pick_best_None in E; rewrite E in Hin; by apply elem_of_nil in Hin].
  apply pick_elem, list_elem_of_filter in E as [? _]. eauto.
Qed.

Lemma eff_feedback : r_ReconcilerFeedback eff =
  match newest_of annotated g with Some a => r_ReconcilerFeedback a | None => None end.
Proof using Heff He.
  rewrite Heff, aggregate_spec. destruct (newest_of annotated g) as [a|] eqn:E; [done|]. simpl.
  destruct (r_ReconcilerFeedback e) as [f|] eqn:Ef; [|done].
  destruct (annotated_newest e He) as (a & Ha & _); [unfold annotated; by rewrite Ef|]. congruence.
Qed.

Lemma eff_annotated r : r ∈ g -> annotated r = true -> annotated eff = true.
Proof using Heff He.
  intros Hr Ha. unfold annotated. rewrite eff_feedback. by destruct (annotated_newest r Hr Ha) as (a & -> & ?).
Qed.

Lemma copy_sighting r : r ∈ g -> isSighting (retained_copy eff r) = isSighting r.
Proof using Heff He.
  intros Hr. unfold retained_copy, carryAnnotation. destruct (annotated r) eqn:E; [|done].
  pose proof (eff_annotated r Hr E) as He'. unfold annotated in E, He'. unfold isSighting. cbn [r_ReconcilerFeedback set_counters set_feedback].
  destruct (r_ReconcilerFeedback eff); [|done]. by destruct (r_ReconcilerFeedback r).
Qed.

Lemma eff_sighting : isSighting eff = true -> isSighting e = true.
Proof using Heff He.
  unfold isSighting. rewrite eff_feedback. destruct (newest_of annotated g) as [a|] eqn:E.
  { pose proof E as Ha. unfold newest_of in Ha. apply pick_elem, list_elem_of_filter in Ha as [Ha _]. unfold annotated in Ha.
    by destruct (r_ReconcilerFeedback a). }
  destruct (r_ReconcilerFeedback e) as [f|] eqn:Ef.
  { destruct (annotated_newest e He) as (a & Ha & _); [unfold annotated; by rewrite Ef|]. congruence. }
  rewrite Heff, aggregate_spec. done.
Qed.

Lemma eff_fields : r_Occurrences eff = occurrences g /\ r_CountedThrough eff = counted_in g /\
  r_FirstSeen eff = first_in g /\ r_Timestamp eff = r_Timestamp e /\ core eff = core e.
Proof using Heff. rewrite Heff, aggregate_spec. by destruct (newest_of annotated g). Qed.

(** The boundary the compacted group starts from. *)
Definition settled_boundary : string := if String.eqb (counted_in g) "" then r_Timestamp e else counted_in g.

Lemma block_carrier l : Forall (fun y => r_Occurrences y = 0%Z) l -> carrier ((zs ++ [eff]) ++ l) = Some eff.
Proof using Heff Hzs.
  intros Hl. rewrite carrier_app_zero by done. unfold carrier. rewrite foldl_app, (carrier_zero zs).
  - simpl. unfold carrier_step. destruct eff_fields as [-> _]. pose proof (occurrences_range g).
    destruct (Z.eqb_spec (occurrences g) 0); [lia|done].
  - apply Forall_forall. intros z (r & _ & ->)%Hzs. done.
Qed.
Lemma block_boundary : boundary_of (Some eff) = settled_boundary.
Proof using Heff. unfold settled_boundary. simpl. by destruct eff_fields as (_ & -> & _ & -> & _). Qed.

Lemma block_sightings z : z ∈ zs ++ [eff] -> isSighting z = true -> str_ltb settled_boundary (r_Timestamp z) = false.
Proof using Hfirst He Heff Hzs.
  intros Hz Hs. assert (exists r, r ∈ g /\ isSighting r = true /\ r_Timestamp z = r_Timestamp r) as (r & Hr & Hsr & ->).
  { apply elem_of_app in Hz as [(r & Hr & ->)%Hzs|Hz].
    - exists r. rewrite copy_sighting in Hs by done. split_and!; try done. unfold retained_copy, carryAnnotation. by destruct (annotated r).
    - apply list_elem_of_singleton in Hz as ->. exists e. split_and!; [done|by apply eff_sighting|]. by destruct eff_fields as (_ & _ & _ & -> & _). }
  destruct (counted_spec (boundary_of (carrier g)) g) as (_ & _ & H). specialize (H r Hr Hsr). fold (counted_in g) in H.
  unfold settled_boundary. destruct (String.eqb_spec (counted_in g) "") as [E|]; [|done].
  rewrite E, ltb_empty in H; [done|]. rewrite Forall_forall in Hfirst. by apply first_ok_ne, Hfirst.
Qed.
End block.
End counters_stable.

(** ** Lemmas: a compacted group folds like the group *)

Section group_stable.
Context {U : UnicodeCase}.

(** The same effective record: the same fields, the same count and the same annotation;
    a boundary the first fold left empty is the record's own timestamp; the first
    sighting is the same instant. *)
Definition same_effective (a b : DebtRecord) : Prop :=
  core a = core b /\ r_Occurrences a = r_Occurrences b /\ r_ReconcilerFeedback a = r_ReconcilerFeedback b /\
  (r_CountedThrough b = r_CountedThrough a \/ r_CountedThrough a = "" /\ r_CountedThrough b = r_Timestamp a) /\
  is_Some (parse_rfc3339 (r_FirstSeen a)) /\ parse_rfc3339 (r_FirstSeen a) = parse_rfc3339 (r_FirstSeen b).

(** The earliest of the first sightings. *)
Lemma first_spec g f : (f = "" \/ is_Some (parse_rfc3339 f)) -> Forall (fun r => is_Some (parse_rfc3339 (seen_of r))) g ->
  f <> "" \/ g <> [] ->
  exists t, parse_rfc3339 (foldl first_step f g) = Some t /\
    (foldl first_step f g = f \/ exists r, r ∈ g /\ foldl first_step f g = seen_of r) /\
    (forall s, parse_rfc3339 f = Some s -> (t <= s)%Z) /\
    (forall r s, r ∈ g -> parse_rfc3339 (seen_of r) = Some s -> (t <= s)%Z).
Proof.
  intros Hf Hg. revert f Hf. induction Hg as [|x g Hx Hg IH]; intros f Hf Hne; simpl.
  { destruct Hf as [->|[t Ht]]; [by destruct Hne|]. exists t. split_and!; [done|by left|intros s; rewrite Ht; intros [= ->]; lia|].
    intros r s Hr. by apply elem_of_nil in Hr. }
  assert (parse_rfc3339 "" = None) as H0 by reflexivity.
  assert (seen_of x <> "") as Hxne by (intros E; rewrite E, H0 in Hx; by destruct Hx).
  destruct Hx as [tx Htx].
  assert (exists t, parse_rfc3339 (first_step f x) = Some t /\ (first_step f x = f \/ first_step f x = seen_of x) /\
    (t <= tx)%Z /\ forall s, parse_rfc3339 f = Some s -> (t <= s)%Z) as (t1 & Ht1 & Hc & Hle & Hlef).
  { unfold first_step. destruct (String.eqb_spec (seen_of x) ""); [done|]. destruct (String.eqb_spec f "") as [->|Hfne].
    - exists tx. split_and!; auto; [lia|congruence].
    - destruct Hf as [?|[tf Htf]]; [done|]. unfold earlierTimestamp. rewrite Htf, Htx. destruct (Z.ltb_spec tx tf).
      + exists tx. split_and!; auto; [lia|]. intros s [= <-]. lia.
      + exists tf. split_and!; auto. intros s [= <-]. lia. }
  assert (first_step f x <> "") as Hne1 by (intros E; rewrite E, H0 in Ht1; done).
  destruct (IH (first_step f x)) as (t & Ht & Hin & Hf1 & Hg1); [right; eauto|by left|].
  exists t. split_and!; [done| | |].
  - destruct Hin as [->|(r & ? & ->)]; [|right; exists r; split; [by right|done]]. destruct Hc as [->| ->]; [by left|right].
    exists x. split; [by left|done].
  - intros s Hs. pose proof (Hf1 t1 Ht1). specialize (Hlef s Hs). lia.
  - intros r s [->|Hr]%elem_of_cons Hs; [|by apply (Hg1 r)]. rewrite Htx in Hs. injection Hs as <-. pose proof (Hf1 t1 Ht1). lia.
Qed.

Lemma first_ok_seen r : first_ok r -> is_Some (parse_rfc3339 (seen_of r)).
Proof. intros (t & s & _ & -> & _). eauto. Qed.


Definition feedback_of (o : option DebtRecord) : option ReconcilerFeedback :=
  match o with Some a => r_ReconcilerFeedback a | None => None end.

Section one_group.
Context (g l : list DebtRecord) (e eff : DebtRecord).
Hypothesis He : effective g = Some e.
Hypothesis Heff : eff = carry_feedback (newest_of annotated g) (aggregateCounters e g).

(** Every annotated record of the compacted group carries the group's newest verdict. *)
Lemma block_feedback z : z ∈ retain_group eff g -> annotated z = true -> r_ReconcilerFeedback z = r_ReconcilerFeedback eff.
Proof using He Heff.
  pose proof (effective_elem _ _ He) as Hin. destruct (retain_group_shape eff g) as (zs & -> & _ & Hzs). intros [(r & Hr & ->)%Hzs|Hz]%elem_of_app.
  - unfold retained_copy, carryAnnotation. by destruct (annotated r) eqn:E; unfold annotated in *; simpl in *; [|rewrite E].
  - by apply list_elem_of_singleton in Hz as ->.
Qed.

Lemma newest_of_app (g' : list DebtRecord) : ordered g l -> (forall z, z ∈ g' -> exists r, r ∈ g /\ core z = core r) ->
  newest_of annotated (g' ++ l) =
    match newest_of annotated l with Some a => Some a | None => newest_of annotated g' end.
Proof using.
  intros [Hd Hl] Hz. apply choice_app. intros x y Hx Hy. destruct (Hz x Hx) as (r & Hr & Hc).
  rewrite (newer_than_same_core y y x r) by done. rewrite Forall_forall in Hd.
  apply newer_than_strict; [apply Hd, elem_of_app; auto|apply Hd, elem_of_app; auto|auto].
Qed.


Lemma block_newest : ordered g l ->
  feedback_of (newest_of annotated (g ++ l)) = feedback_of (newest_of annotated (retain_group eff g ++ l)).
Proof using He Heff.
  intros Ho. pose proof (effective_elem _ _ He) as Hin. destruct (retain_group_shape eff g) as (zs & Hshape & _ & Hzs).
  assert (core eff = core e) as Hce by (by destruct (eff_fields g e eff Heff) as (_ & _ & _ & _ & ?)).
  rewrite (newest_of_app g) by eauto. rewrite (newest_of_app (retain_group eff g)); [|done|].
  2:{ rewrite Hshape. intros z [(r & Hr & ->)%Hzs|Hz]%elem_of_app; [exists r; by rewrite core_retained|].
      apply list_elem_of_singleton in Hz as ->. eauto. }
  destruct (newest_of annotated l); [done|]. pose proof (eff_feedback g e eff Hin Heff) as Hfb. fold (feedback_of (newest_of annotated g)) in Hfb.
  rewrite <- Hfb. destruct (newest_of annotated (retain_group eff g)) as [b|] eqn:E; cbn [feedback_of].
  - unfold newest_of in E. apply pick_elem, list_elem_of_filter in E as [Ha Hb]. by rewrite (block_feedback b).
  - destruct (r_ReconcilerFeedback eff) as [f|] eqn:Ef; [|done]. unfold newest_of in E. apply pick_best_None in E.
    assert (eff ∈ filter (fun x => annotated x = true) (retain_group eff g)) as Hx.
    { apply list_elem_of_filter. split; [unfold annotated; by rewrite Ef|]. rewrite Hshape. set_solver. }
    rewrite E in Hx. by apply elem_of_nil in Hx.
Qed.

(** Compacted or not, the group appended to has the same effective record and verdict. *)
Lemma group_core_stable : ordered g l -> exists ea eb,
  effective (g ++ l) = Some ea /\ effective (retain_group eff g ++ l) = Some eb /\ core ea = core eb.
Proof using He Heff.
  intros [Hd _]. apply Forall_app in Hd as [Hd _]. destruct (eff_fields g e eff Heff) as (_ & _ & _ & _ & Hce).
  pose proof (retain_group_effective g e eff Hd He Hce) as Hbe.
  pose proof (effective_app_core g (retain_group eff g) l) as Hc. rewrite He, Hbe in Hc. cbn in Hc. rewrite Hce in Hc. specialize (Hc eq_refl).
  destruct (effective (g ++ l)) as [ea|] eqn:Ea.
  2:{ apply effective_None, app_nil in Ea as [-> _]. done. }
  destruct (effective (retain_group eff g ++ l)) as [eb|] eqn:Eb; [|done]. apply (inj Some) in Hc. eauto.
Qed.
End one_group.

Section with_group.
Context (g l : list DebtRecord) (e eff : DebtRecord).
Hypothesis Hok : appendable g l.
Hypothesis He : effective g = Some e.
Hypothesis Heff : eff = carry_feedback (newest_of annotated g) (aggregateCounters e g).

Lemma grp_first : Forall first_ok g.
Proof using Hok. by destruct (proj1 (Forall_app _ _ _) (ap_first _ _ Hok)). Qed.
Lemma grp_in : e ∈ g.
Proof using He. by apply effective_elem. Qed.

Lemma block_occurrences : occurrences (retain_group eff g ++ l) = occurrences (g ++ l) /\
  counted_in (retain_group eff g ++ l) =
    (if String.eqb (counted_in (g ++ l)) "" then r_Timestamp e else counted_in (g ++ l)) /\
  (counted_in (g ++ l) = "" -> l = []).
Proof using Hok He Heff.
  pose proof grp_first as Hg. pose proof grp_in as Hin. destruct (retain_group_shape eff g) as (zs & Hshape & _ & Hzs). rewrite Hshape. destruct Hok as [Hf Hlater Hz Hcounts Hseen].
  pose proof (block_carrier g zs e eff Heff Hzs l Hz) as Hc.
  assert (forall y, y ∈ l -> r_Timestamp y <> "") as Hyne.
  { intros y Hy. apply Forall_app in Hf as [_ Hf]. rewrite Forall_forall in Hf. by apply first_ok_ne, Hf. }
  assert (forall y, y ∈ l -> str_ltb (boundary_of (carrier g)) (r_Timestamp y) = true) as Hbl.
  { intros y Hy. apply boundary_bound; auto. }
  assert (settled_boundary g e = counted_in g \/ counted_in g = "" /\ settled_boundary g e = r_Timestamp e) as Hset.
  { unfold settled_boundary. destruct (String.eqb_spec (counted_in g) ""); auto. }
  assert (counted_in (g ++ l) = foldl counted_step (counted_in g) l) as Hcl.
  { unfold counted_in. by rewrite carrier_app_zero, foldl_app. }
  assert (counted_in ((zs ++ [eff]) ++ l) = foldl counted_step (settled_boundary g e) l) as Hcb.
  { unfold counted_in. rewrite Hc, (block_boundary g e eff Heff), foldl_app. f_equal.
    apply counted_unmoved. by apply (block_sightings g zs e eff). }
  rewrite Hcl, Hcb.
  assert (forall y, y ∈ l -> str_ltb (settled_boundary g e) (r_Timestamp y) = true) as Hsl.
  { intros y Hy. destruct Hset as [->|[_ ->]]; [|by apply (Hlater e)].
    destruct (counted_spec (boundary_of (carrier g)) g) as [[Heq|(r & Hr & Heq)] _]; unfold counted_in; rewrite Heq; [auto|by apply (Hlater r)]. }
  assert (count_fresh (occurrences g) (settled_boundary g e) ((zs ++ [eff]) ++ l) = Z.of_nat (length (filter (fun r => isSighting r = true) l))) as Hfresh.
  { rewrite count_fresh_app, (count_fresh_later _ _ l) by done. unfold count_fresh at 1. rewrite filter_Forall_nil; [done|].
    apply Forall_forall. intros z Hzb Hfr. unfold is_fresh in Hfr. apply andb_true_iff in Hfr as [Hs Hfr]. apply andb_true_iff in Hfr as [_ Hfr].
    rewrite (block_sightings g zs e eff) in Hfr by done. pose proof (occurrences_range g). destruct (Z.eqb_spec (occurrences g) 0); [lia|done]. }
  assert (fresh_in (g ++ l) = fresh_in g + Z.of_nat (length (filter (fun r => isSighting r = true) l)))%Z as Hfg.
  { unfold fresh_in. by rewrite carrier_app_zero, count_fresh_app, (count_fresh_later _ _ l). }
  unfold occurrences at 1. unfold fresh_in at 1. rewrite Hc, (block_boundary g e eff Heff).
  cbn [carried_of]. rewrite (proj1 (eff_fields g e eff Heff)), Hfresh.
  destruct (decide (l = [])) as [->|Hl].
  - rewrite filter_nil, app_nil_r. cbn [length Z.of_nat foldl]. rewrite Z.add_0_r. split; [|by split].
    pose proof (occurrences_range g). rewrite wrap64_id by int_range. unfold at_least_one.
    destruct (Z.ltb_spec (occurrences g) 1); lia.
  - specialize (Hcounts Hl). assert (g <> []) as Hgne by (by intros ->; apply elem_of_nil in Hin).
    assert (Forall (fun r => 0 <= r_Occurrences r)%Z g) as Hnn by (eapply Forall_impl; [exact Hcounts|]; simpl; lia).
    destruct (counted_group g Hg Hnn (Hseen Hl Hgne)) as [H1 Hne].
    assert (foldl counted_step (counted_in g) l <> "") as Hcne.
    { intros E. destruct (counted_spec (counted_in g) l) as (_ & H & _). rewrite E in H. by rewrite ltb_empty in H. }
    split.
    2:{ destruct Hset as [->|[? _]]; [|done]. by destruct (String.eqb_spec (foldl counted_step (counted_in g) l) ""). }
    assert (carried_of (carrier g) + Z.of_nat (length (g ++ l)) <= MaxInt64)%Z as Hmax.
    { destruct (carrier g) as [c|] eqn:Ec; simpl.
      - apply carrier_Some in Ec as [Hcg _]. rewrite Forall_forall in Hcounts. by apply Hcounts.
      - rewrite Forall_forall in Hcounts. specialize (Hcounts e Hin). lia. }
    assert (fresh_in g <= Z.of_nat (length g))%Z as Hle.
    { unfold fresh_in, count_fresh. apply inj_le, length_filter. }
    pose proof (length_filter (fun r => isSighting r = true) l) as Hlf. rewrite length_app in Hmax.
    assert (0 <= carried_of (carrier g))%Z as Hc0.
    { destruct (carrier g) as [c|] eqn:Ec; simpl; [|done]. apply carrier_Some in Ec as [Hcg _]. rewrite Forall_forall in Hnn. by apply Hnn. }
    assert (0 <= fresh_in g)%Z by (unfold fresh_in, count_fresh; lia).
    unfold occurrences. rewrite carrier_app_zero, Hfg, Z.add_assoc by done.
    rewrite (wrap64_id (carried_of (carrier g) + fresh_in g)) by int_range.
    unfold at_least_one at 2. destruct (Z.ltb_spec (carried_of (carrier g) + fresh_in g) 1); [lia|done].
Qed.

Lemma block_first : is_Some (parse_rfc3339 (first_in (g ++ l))) /\
  parse_rfc3339 (first_in (g ++ l)) = parse_rfc3339 (first_in (retain_group eff g ++ l)).
Proof using Hok He Heff.
  pose proof grp_first as Hg. pose proof grp_in as Hin. destruct (retain_group_shape eff g) as (zs & Hshape & _ & Hzs). rewrite Hshape.
  pose proof (ap_first _ _ Hok) as Hf. apply Forall_app in Hf as [_ Hl].
  assert (forall l, Forall first_ok l -> Forall (fun r => is_Some (parse_rfc3339 (seen_of r))) l) as Hseen.
  { intros l' H. eapply Forall_impl; [exact H|]. apply first_ok_seen. }
  assert (forall l', l' <> [] -> Forall first_ok l' -> exists t, parse_rfc3339 (first_in l') = Some t /\
    (exists r, r ∈ l' /\ first_in l' = seen_of r) /\ (forall r s, r ∈ l' -> parse_rfc3339 (seen_of r) = Some s -> (t <= s)%Z)) as Hspec.
  { intros l' Hne Hl'. destruct (first_spec l' "") as (t & Ht & Hc & _ & Hm); [by left|auto|by right|].
    exists t. split_and!; [done| |done]. destruct Hc as [Hc|?]; [|done]. fold (first_in l') in Hc, Ht. rewrite Hc in Ht. done. }
  destruct (eff_fields g e eff Heff) as (_ & _ & Hef & Het & _).
  assert (g <> []) as Hgne by (by intros ->; apply elem_of_nil in Hin).
  destruct (Hspec g Hgne Hg) as (tg & Htg & _ & Hmg).
  assert (seen_of eff = first_in g) as Hes.
  { unfold seen_of. rewrite Hef. destruct (String.eqb_spec (first_in g) "") as [E|]; [|done]. rewrite E in Htg. done. }
  assert (forall z, z ∈ zs -> exists r t, r ∈ g /\ parse_rfc3339 (seen_of z) = Some t /\ (tg <= t)%Z) as Hz.
  { intros z (r & Hr & ->)%Hzs. rewrite Forall_forall in Hg. destruct (Hg r Hr) as (t & s & Ht & Hs & Hle).
    exists r, t. split_and!; [done| |pose proof (Hmg r s Hr Hs); lia]. unfold retained_copy, carryAnnotation. by destruct (annotated r). }
  destruct (Hspec (g ++ l)) as (t & Ht & (r & Hr & Her) & Hm); [by intros [? _]%app_nil|by apply Forall_app|].
  split; [eauto|].
  destruct (first_spec ((zs ++ [eff]) ++ l) "") as (t' & Ht' & Hc' & _ & Hm'); [by left| |right; by intros [[_ ?]%app_nil _]%app_nil|].
  { apply Forall_app; split; [apply Forall_app; split; [|repeat constructor; rewrite Hes, Htg; eauto]|auto].
    apply Forall_forall. intros z (_ & t' & _ & -> & _)%Hz. eauto. }
  fold (first_in ((zs ++ [eff]) ++ l)) in Ht', Hc'. rewrite Ht, Ht'. f_equal. apply Z.le_antisymm.
  - destruct Hc' as [Hc'|(r' & Hr' & Her')]; [by rewrite Hc' in Ht'|]. rewrite Her' in Ht'.
    rewrite !elem_of_app, list_elem_of_singleton in Hr'. destruct Hr' as [[Hz'| ->]|Hl'].
    + destruct (Hz r' Hz') as (r1 & t1 & Hr1 & Ht1 & Hle). rewrite Ht' in Ht1. injection Ht1 as <-.
      assert (t <= tg)%Z; [|lia]. destruct (Hspec g Hgne Hg) as (tg' & Htg' & (r2 & Hr2 & Her2) & _). rewrite Htg in Htg'. injection Htg' as <-.
      rewrite Her2 in Htg. apply (Hm r2); [set_solver|done].
    + rewrite Hes in Ht'. rewrite Htg in Ht'. injection Ht' as <-.
      destruct (Hspec g Hgne Hg) as (tg' & Htg' & (r2 & Hr2 & Her2) & _). rewrite Htg in Htg'. injection Htg' as <-.
      rewrite Her2 in Htg. apply (Hm r2); [set_solver|done].
    + apply (Hm r'); [set_solver|done].
  - rewrite Her in Ht. apply elem_of_app in Hr as [Hr|Hr].
    + assert (t' <= tg)%Z; [|pose proof (Hmg r t Hr Ht); lia]. apply (Hm' eff); [set_solver|by rewrite Hes].
    + apply (Hm' r); [set_solver|done].
Qed.

(** A group folded, compacted and appended to folds like the group appended to. *)
Lemma group_stable : exists a b, fold_group (g ++ l) = Some a /\ fold_group (retain_group eff g ++ l) = Some b /\ same_effective a b.
Proof using Hok He Heff.
  destruct (group_core_stable g l e eff He Heff (appendable_ordered g l Hok)) as (ea & eb & Ea & Eb & Hc).
  destruct block_occurrences as (Hocc & Hct & Hl). destruct block_first as [Hf1 Hf2]. pose proof (block_newest g l e eff He Heff (appendable_ordered g l Hok)) as Hn.
  unfold fold_group. rewrite Ea, Eb. cbn [fmap option_fmap option_map]. do 2 eexists. split_and!; [done|done|].
  unfold same_effective. rewrite !core_stamped.
  rewrite (eff_feedback _ ea _ (effective_elem _ _ Ea) eq_refl), (eff_feedback _ eb _ (effective_elem _ _ Eb) eq_refl).
  assert (forall x g', let y := carry_feedback (newest_of annotated g') (aggregateCounters x g') in
    r_Occurrences y = occurrences g' /\ r_CountedThrough y = counted_in g' /\ r_FirstSeen y = first_in g' /\ r_Timestamp y = r_Timestamp x) as Hy.
  { intros x g'. cbn. rewrite aggregate_spec. by destruct (newest_of annotated g'). }
  destruct (Hy ea (g ++ l)) as (-> & -> & -> & ->), (Hy eb (retain_group eff g ++ l)) as (-> & -> & -> & _).
  split_and!; try done. rewrite Hct. destruct (String.eqb_spec (counted_in (g ++ l)) "") as [E|]; [right|by left].
  split; [done|]. rewrite (Hl E), app_nil_r, He in Ea. by injection Ea as ->.
Qed.
End with_group.
End group_stable.

(** ** The whole store *)

Section store.
Context {U : UnicodeCase}.

Definition block (recs : list DebtRecord) (id : string) : list DebtRecord :=
  match fold_group (group_of id recs) with Some eff => retain_group eff (group_of id recs) | None => [] end.

Lemma omap_list_cons {A B} (f : A -> option B) x (l : list A) :
  omap f (x :: l) = match f x with Some y => y :: omap f l | None => omap f l end.
Proof. done. Qed.
Lemma mjoin_list_cons {A} (x : list A) (l : list (list A)) : mjoin (x :: l) = x ++ mjoin l.
Proof. done. Qed.

Lemma mjoin_omap {A B} (f : A -> option B) (h : B -> list DebtRecord) (l : list A) :
  mjoin (h <$> omap f l) = mjoin ((fun x => match f x with Some y => h y | None => [] end) <$> l).
Proof.
  induction l as [|x l IH]; [done|]. rewrite omap_list_cons, fmap_cons, mjoin_list_cons, <- IH. by destruct (f x).
Qed.

Lemma fold_group_id id recs eff : fold_group (group_of id recs) = Some eff -> r_ID eff = id.
Proof.
  unfold fold_group. destruct (effective (group_of id recs)) as [e|] eqn:E; [|done]. intros [= <-].
  apply effective_elem, elem_of_group_of in E as [E _]. cbn in E. rewrite <- E. rewrite aggregate_spec. by destruct (newest_of _ _).
Qed.

Lemma retainForCompaction_blocks recs : retainForCompaction recs = mjoin (block recs <$> id_order recs).
Proof.
  unfold retainForCompaction. pose proof (FoldRecords_groups recs) as HF. unfold FoldRecords in HF.
  destruct (foldByID_spec recs) as (byID & Hfold & Hb). unfold foldWithGroups in *. rewrite Hfold in *. cbn [fst] in HF. rewrite HF.
  rewrite mjoin_omap. f_equal. apply list_fmap_ext. intros i id _. unfold block.
  destruct (fold_group (group_of id recs)) as [eff|] eqn:E; [|done]. rewrite (fold_group_id id recs eff E). by rewrite Hb.
Qed.

Lemma block_ids recs id r : r ∈ block recs id -> r_ID r = id.
Proof.
  unfold block. destruct (fold_group (group_of id recs)) as [eff|] eqn:E; [|by intros ?%elem_of_nil].
  destruct (retain_group_shape eff (group_of id recs)) as (zs & -> & _ & Hzs).
  intros [(r' & [Hr _]%elem_of_group_of & ->)%Hzs|Hr]%elem_of_app.
  - cbn in Hr. rewrite <- Hr. unfold retained_copy, carryAnnotation. by destruct (annotated r').
  - apply list_elem_of_singleton in Hr as ->. by apply (fold_group_id id recs).
Qed.

Lemma fold_group_Some g : g <> [] -> is_Some (fold_group g).
Proof. intros [e He]%effective_nonempty. unfold fold_group. rewrite He. eauto. Qed.

Lemma block_nonempty recs id : id ∈ id_order recs -> block recs id <> [].
Proof.
  intros [eff He]%group_of_nonempty%fold_group_Some. unfold block. rewrite He.
  destruct (retain_group_shape eff (group_of id recs)) as (zs & -> & _). by intros [_ ?]%app_nil.
Qed.

Section blocks.
Context (f : string -> list DebtRecord).
Hypothesis Hf : forall id r, r ∈ f id -> r_ID r = id.

Lemma group_of_blocks id ids : NoDup ids ->
  group_of id (mjoin (f <$> ids)) = if decide (id ∈ ids) then f id else [].
Proof using Hf.
  assert (forall i, group_of id (f i) = if decide (id = i) then f i else []) as Hi.
  { intros i. case_decide as E.
    - apply filter_Forall_id, Forall_forall. intros r Hr. by rewrite E; apply Hf.
    - apply filter_Forall_nil, Forall_forall. intros r Hr Hid. apply E. rewrite <- Hid. by apply Hf. }
  induction ids as [|i ids IH]; intros Hnd; [done|]. apply NoDup_cons in Hnd as [Hni Hnd]. rewrite fmap_cons, mjoin_list_cons.
  rewrite group_of_app, Hi, IH by done. destruct (decide (id = i)) as [->|Hne].
  - rewrite decide_False, decide_True by (done || by left). by rewrite app_nil_r.
  - destruct (decide (id ∈ ids)); [rewrite decide_True by (by right)|rewrite decide_False by (by intros [?|?]%elem_of_cons)]; done.
Qed.

Lemma order_one id l o : (forall r, r ∈ l -> r_ID r = id) -> l <> [] -> id ∉ o -> foldl order_step o l = o ++ [id].
Proof using.
  intros Hl Hne Ho. destruct l as [|x l]; [done|]. cbn [foldl]. unfold order_step at 2. cbn [foldID Record_Foldable].
  rewrite (Hl x) by (by left). rewrite decide_False by done.
  assert (forall r, r ∈ l -> r_ID r = id) as Hl' by (intros; apply Hl; by right). clear Hl Hne.
  induction l as [|y l IH]; [done|]. cbn [foldl]. unfold order_step at 2. cbn [foldID Record_Foldable]. rewrite (Hl' y) by (by left).
  rewrite decide_True by (apply elem_of_app; right; by left). apply IH. intros; apply Hl'. by right.
Qed.

Lemma id_order_blocks ids : NoDup ids -> (forall id, id ∈ ids -> f id <> []) -> id_order (mjoin (f <$> ids)) = ids.
Proof using Hf.
  intros Hnd Hne. unfold id_order.
  assert (forall o, NoDup (o ++ ids) -> foldl order_step o (mjoin (f <$> ids)) = o ++ ids) as H.
  2:{ by apply (H []). }
  clear Hnd. induction ids as [|id ids IH]; intros o Hnd; [by rewrite app_nil_r|]. rewrite fmap_cons, mjoin_list_cons.
  rewrite foldl_app, (order_one id (f id) o); [|by apply Hf|apply Hne; by left|].
  - rewrite IH; [by rewrite <- (assoc_L (++))|intros; apply Hne; by right|by rewrite <- (assoc_L (++))].
  - apply NoDup_app in Hnd as (_ & H & _). intros Hi. apply (H id Hi). by left.
Qed.
End blocks.

Lemma compacted_order recs l : id_order (retainForCompaction recs ++ l) = id_order (recs ++ l).
Proof.
  assert (id_order (retainForCompaction recs) = id_order recs) as H.
  { rewrite retainForCompaction_blocks. apply id_order_blocks; [apply block_ids|apply NoDup_id_order|apply block_nonempty]. }
  unfold id_order in *. by rewrite !foldl_app, H.
Qed.

Lemma compacted_group recs id : group_of id (retainForCompaction recs) =
  match fold_group (group_of id recs) with Some eff => retain_group eff (group_of id recs) | None => [] end.
Proof.
  rewrite retainForCompaction_blocks, group_of_blocks; [|apply block_ids|apply NoDup_id_order].
  fold (block recs id). case_decide as H; [done|]. unfold block.
  destruct (group_of id recs) as [|r g] eqn:E; [done|]. exfalso. apply H, elem_of_id_order.
  assert (r ∈ group_of id recs) as Hr by (rewrite E; by left). apply elem_of_group_of in Hr as [? ?]. eauto.
Qed.

(** What a history and the records appended to it later must be like: each id's are. *)
Definition history_ok (recs later : list DebtRecord) : Prop :=
  forall id, appendable (group_of id recs) (group_of id later).

Lemma same_effective_refl g a : Forall first_ok g -> fold_group g = Some a -> same_effective a a.
Proof.
  intros Hg Ha. unfold same_effective. split_and!; try done; [by left|].
  unfold fold_group in Ha. destruct (effective g) as [e|] eqn:E; [|done]. injection Ha as <-. apply effective_elem in E.
  replace (r_FirstSeen _) with (first_in g) by (rewrite aggregate_spec; by destruct (newest_of annotated g)).
  destruct (first_spec g "") as (t & Ht & _); [by left| |right; by intros ->; apply elem_of_nil in E|].
  - eapply Forall_impl; [exact Hg|]. apply first_ok_seen.
  - unfold first_in. by rewrite Ht.
Qed.

Lemma Forall2_omap_same {A B} (R : B -> B -> Prop) (f h : A -> option B) (l : list A) :
  (forall x, x ∈ l -> match f x, h x with Some a, Some b => R a b | None, None => True | _, _ => False end) ->
  Forall2 R (omap f l) (omap h l).
Proof.
  induction l as [|x l IH]; intros H; [constructor|]. rewrite !omap_list_cons.
  pose proof (H x ltac:(by left)) as Hx. assert (Forall2 R (omap f l) (omap h l)) by (apply IH; intros y Hy; apply H; by right).
  destruct (f x), (h x); try done. by constructor.
Qed.

Lemma fold_stable recs later : history_ok recs later ->
  Forall2 same_effective (FoldRecords (recs ++ later)) (FoldRecords (retainForCompaction recs ++ later)).
Proof.
  intros Hok. rewrite !FoldRecords_groups, compacted_order. apply Forall2_omap_same. intros id Hid.
  rewrite (group_of_app id recs), (group_of_app id (retainForCompaction recs)), compacted_group. specialize (Hok id).
  destruct (effective (group_of id recs)) as [e|] eqn:E.
  - destruct (group_stable (group_of id recs) (group_of id later) e _ Hok E eq_refl) as (a & b & Ha & Hb & Hab).
    rewrite Ha. unfold fold_group at 2. rewrite E. cbn [fmap option_fmap option_map]. by rewrite Hb.
  - apply effective_None in E. rewrite E in *. cbn [app]. change (fold_group []) with (@None DebtRecord). cbn [app].
    destruct (fold_group (group_of id later)) as [a|] eqn:Ea; [|done].
    apply (same_effective_refl (group_of id later)); [|done]. apply (ap_first _ _ Hok).
Qed.
End store.

(** ** What a compacted group keeps *)

Section retention.
Context {U : UnicodeCase}.

(** The model donor, without positions. *)
Definition donor_of (g : list DebtRecord) : option DebtRecord := pick not_before (filter (fun r => is_donor r = true) g).

Lemma donor_from_pick l pre best i :
  length pre = i -> (forall k b, best = Some (k, b) -> pre !! k = Some b) ->
  match donor_from best i l with
  | Some k => exists d, (pre ++ l) !! k = Some d /\ foldl (pick_step not_before) (snd <$> best) (filter (fun r => is_donor r = true) l) = Some d
  | None => foldl (pick_step not_before) (snd <$> best) (filter (fun r => is_donor r = true) l) = None
  end.
Proof.
  revert pre best i. induction l as [|r l IH]; intros pre best i <- Hb; simpl.
  - destruct best as [[k b]|]; simpl; [|done]. exists b. rewrite app_nil_r. auto.
  - rewrite (cons_middle r), (assoc_L (++)). rewrite filter_cons.
    assert (forall k b, best = Some (k, b) -> (pre ++ [r]) !! k = Some b) as Hb'.
    { intros k b Hk. apply lookup_app_l_Some. by apply Hb. }
    assert ((pre ++ [r]) !! length pre = Some r) as Hr by (by rewrite lookup_app_r, Nat.sub_diag by lia).
    destruct (is_donor r) eqn:E; simpl.
    + destruct best as [[k b]|]; simpl; [destruct (not_before r b)|]; (eapply IH; [rewrite length_app; simpl; lia|]); try done; by intros k' b' [= <- <-].
    + apply IH; [rewrite length_app; simpl; lia|done].
Qed.
Lemma modelDonorIndex_spec g :
  match modelDonorIndex g with Some k => exists d, g !! k = Some d /\ donor_of g = Some d | None => donor_of g = None end.
Proof. apply (donor_from_pick g [] None 0); [done|]. by intros. Qed.

(** The latest closed record, without positions. *)
Definition closed (r : DebtRecord) : bool := IsClosedStatus (r_Status r).
Definition latest_closed (g : list DebtRecord) : option DebtRecord := pick newer_than (filter (fun r => closed r = true) g).

Lemma latest_closed_index_spec eff g : IsClosedStatus (r_Status eff) = false ->
  match latest_closed_index eff g with Some k => exists x, g !! k = Some x /\ latest_closed g = Some x | None => latest_closed g = None end.
Proof.
  intros Ho. unfold latest_closed_index, latest_closed. rewrite Ho. rewrite <- (marked_values closed).
  change (fun (_ : nat) (r : DebtRecord) => IsClosedStatus (r_Status r)) with (fun (_ : nat) => closed).
  destruct (marked (fun _ => closed) g) as [|m0 m] eqn:E; [done|].
  pose proof (best_marked_pick newer_than (m0 :: m)) as Hb. unfold best_marked in Hb. unfold latestIndex.
  destruct ((m0 :: m).*1 !! last_max newer_than (m0 :: m).*2) as [k|]; [|done].
  destruct Hb as (x & Hx & Hp). rewrite <- E in Hx. apply marked_elem in Hx as [? _]. eauto.
Qed.

Lemma trail_index_spec eff ei g k : trail_index eff ei g = Some k ->
  exists x, g !! k = Some x /\ owed_rationale eff ei k x = true /\
    pick higher_ranked (marked (owed_rationale eff ei) g).*2 = Some x.
Proof.
  unfold trail_index, highestRankedTerminalIndex. destruct (marked _ g) as [|m0 m] eqn:E; [done|]. intros Hk.
  pose proof (best_marked_pick higher_ranked (m0 :: m)) as Hb. unfold best_marked in Hb. rewrite Hk in Hb.
  destruct Hb as (x & Hx & Hp). rewrite <- E in Hx. apply marked_elem in Hx as [? ?]. eauto.
Qed.
Lemma trail_index_None eff ei g : trail_index eff ei g = None -> marked (owed_rationale eff ei) g = [].
Proof.
  unfold trail_index, highestRankedTerminalIndex. destruct (marked _ g) as [|m0 m] eqn:E; [done|]. intros Hk.
  pose proof (best_marked_pick higher_ranked (m0 :: m)) as Hb. unfold best_marked in Hb. by rewrite Hk in Hb.
Qed.

Definition is_exhausted (r : DebtRecord) : bool := String.eqb (normalizeStatus (r_Status r)) StatusAttemptsExhausted.
Definition kept (eff : DebtRecord) (g : list DebtRecord) (x : DebtRecord) : Prop :=
  exists z, z ∈ retain_group eff g /\ core z = core x.

Lemma emit_Some eff g i x : g !! i = Some x -> emit eff g (Some i) = [retained_copy eff x].
Proof. intros H. simpl. by rewrite H. Qed.

Lemma kept_emitted eff g o i x : o = Some i -> g !! i = Some x -> (forall z, z ∈ emit eff g o -> z ∈ retain_group eff g) -> kept eff g x.
Proof.
  intros -> Hx H. exists (retained_copy eff x). split; [|apply core_retained]. apply H. rewrite (emit_Some eff g i x) by done. by left.
Qed.

Section group.
Context (g : list DebtRecord) (e eff : DebtRecord).
Hypothesis He : effective g = Some e.
Hypothesis Heff : core eff = core e.

Lemma eff_index : (if 0 <? length g then Some (foldIndex g) else None) = Some (foldIndex g) /\ g !! foldIndex g = Some e.
Proof using He. rewrite foldIndex_effective. split; [|done]. apply effective_elem in He. destruct g; [by apply elem_of_nil in He|done]. Qed.

Lemma kept_eff : kept eff g e.
Proof using Heff. exists eff. split; [|done]. destruct (retain_group_shape eff g) as (zs & -> & _). apply elem_of_app. right. by left. Qed.

(** The highest-ranked superseded rationale is kept. *)
Lemma kept_trail i x : trail_index eff (Some (foldIndex g)) g = Some i -> g !! i = Some x -> kept eff g x.
Proof using He.
  intros Hi Hx. eapply kept_emitted; [exact Hi|exact Hx|]. intros z Hz. unfold retain_group.
  rewrite (proj1 eff_index). apply elem_of_app. by left.
Qed.

(** The model donor is kept, as itself, as the rationale or as the effective record. *)
Lemma kept_donor d : donor_of g = Some d -> kept eff g d.
Proof using He Heff.
  intros Hd. pose proof (modelDonorIndex_spec g) as Hs. destruct (modelDonorIndex g) as [k|] eqn:Ek; [|congruence].
  destruct Hs as (d' & Hk & Hd'). rewrite Hd in Hd'. injection Hd' as <-.
  destruct (decide (Some k = trail_index eff (Some (foldIndex g)) g \/ Some k = Some (foldIndex g))) as [Hc|Hc].
  - destruct Hc as [Hc|[= ->]]; [by apply (kept_trail k)|]. rewrite (proj2 eff_index) in Hk. injection Hk as <-. apply kept_eff.
  - eapply (kept_emitted eff g (Some k)); [done|exact Hk|]. intros z Hz. unfold retain_group. rewrite (proj1 eff_index), Ek.
    rewrite decide_False by done. set_solver.
Qed.

Lemma exhausted_emit o z : exhausted g o = false -> z ∈ emit eff g o -> is_exhausted z = false.
Proof using.
  intros Ho (i & r & -> & Hr & ->)%elem_of_emit. simpl in Ho. rewrite Hr in Ho. unfold is_exhausted, retained_copy, carryAnnotation.
  by destruct (annotated r).
Qed.

(** The latest closed record of an open id is kept, or neither it nor anything kept is
    attempts-exhausted. *)
Lemma kept_latest x : closed e = false -> latest_closed g = Some x ->
  kept eff g x \/ is_exhausted x = false /\ forall z, z ∈ retain_group eff g -> closed z = true -> is_exhausted z = false.
Proof using He Heff.
  intros Ho Hx. assert (r_Status eff = r_Status e) as Hst by (by apply (core_fields eff e)).
  assert (IsClosedStatus (r_Status eff) = false) as Ho' by (by rewrite Hst).
  pose proof (latest_closed_index_spec eff g Ho') as Hs. destruct (latest_closed_index eff g) as [k|] eqn:Ek; [|congruence].
  destruct Hs as (x' & Hk & Hx'). rewrite Hx in Hx'. injection Hx' as <-.
  set (tr := trail_index eff (Some (foldIndex g)) g).
  set (dn := if decide (modelDonorIndex g = tr \/ modelDonorIndex g = Some (foldIndex g)) then None else modelDonorIndex g).
  assert (retain_group eff g = emit eff g tr ++ emit eff g
    (if bool_decide (Some k = tr) || bool_decide (Some k = dn)
        || negb (exhausted g (Some k)) && negb (exhausted g tr) && negb (exhausted g dn) then None else Some k)
    ++ emit eff g dn ++ [eff]) as HR.
  { unfold retain_group. rewrite (proj1 eff_index), Ek. done. }
  destruct (decide (Some k = tr)) as [Ht|Ht]; [left; by apply (kept_trail k)|].
  destruct (decide (Some k = dn)) as [Hd|Hd].
  { left. eapply (kept_emitted eff g dn); [done|exact Hk|]. intros z Hz. rewrite HR. set_solver. }
  rewrite !bool_decide_false in HR by done. cbn [orb] in HR.
  destruct (negb (exhausted g (Some k)) && negb (exhausted g tr) && negb (exhausted g dn)) eqn:Ex; cbn [emit] in HR.
  - right. apply andb_true_iff in Ex as [Ex Ex3]. apply andb_true_iff in Ex as [Ex1 Ex2]. rewrite negb_true_iff in Ex1, Ex2, Ex3.
    split; [simpl in Ex1; by rewrite Hk in Ex1|]. intros z. rewrite HR, !elem_of_app, list_elem_of_singleton.
    intros [Hz|[Hz|[Hz| ->]]] Hcz; [by apply (exhausted_emit tr)|by apply elem_of_nil in Hz|by apply (exhausted_emit dn)|].
    unfold closed in Hcz. congruence.
  - left. eapply (kept_emitted eff g (Some k)); [done|exact Hk|]. intros z Hz. rewrite HR. set_solver.
Qed.
End group.

(** The bound, and what it is spent on. *)
Lemma retained_from recs id z : z ∈ group_of id (retainForCompaction recs) ->
  exists r, r ∈ group_of id recs /\ core z = core r.
Proof.
  rewrite compacted_group. unfold fold_group. destruct (effective (group_of id recs)) as [e|] eqn:E; [|by intros ?%elem_of_nil].
  cbn [fmap option_fmap option_map]. destruct (retain_group_shape (carry_feedback (newest_of annotated (group_of id recs)) (aggregateCounters e (group_of id recs))) (group_of id recs)) as (zs & -> & _ & Hzs).
  intros [(r & Hr & ->)%Hzs|Hz]%elem_of_app; [exists r; by rewrite core_retained|].
  apply list_elem_of_singleton in Hz as ->. exists e. split; [by apply effective_elem|apply core_stamped].
Qed.

Lemma retained_four recs id : length (group_of id (retainForCompaction recs)) <= 4.
Proof.
  rewrite compacted_group. destruct (fold_group _) as [eff|]; [|simpl; lia].
  destruct (retain_group_shape eff (group_of id recs)) as (zs & -> & Hl & _). rewrite length_app. simpl. lia.
Qed.
End retention.

(** ** The plan around frozen shards *)

Section plan.
Context {U : UnicodeCase}.

(** Every record is in a frozen file or in the month shard its run id names. *)
Definition well_filed (read : shardRead) : Prop := forall p, p ∈ sh_records read ->
  p.2 ∈ sh_frozen read \/ exists m, monthFromRunID (r_RunID p.1) = Some m /\ p.2 = m +:+ ".jsonl".

Definition fileable (frozen : string -> bool) (r : DebtRecord) : bool :=
  match monthFromRunID (r_RunID r) with Some m => negb (frozen m) | None => false end.

Lemma bucket_all frozen planned :
  mjoin ((map_to_list (bucketByMonth planned frozen)).*2) ≡ₚ filter (fun r => fileable frozen r = true) planned.
Proof.
  unfold bucketByMonth. induction planned as [|r planned IH] using rev_ind; [cbn; by rewrite map_to_list_empty|].
  rewrite foldl_snoc, filter_app, filter_cons, filter_nil. set (M := foldl (bucket_step frozen) ∅ planned) in *.
  assert (fileable frozen r = match monthFromRunID (r_RunID r) with Some m => negb (frozen m) | None => false end) as Hf by done.
  unfold bucket_step. destruct (monthFromRunID (r_RunID r)) as [m|]; [|rewrite decide_False by congruence; by rewrite app_nil_r].
  destruct (frozen m); cbn [negb] in Hf; [rewrite decide_False by congruence; by rewrite app_nil_r|].
  rewrite decide_True by done. rewrite <- IH.
  destruct (M !! m) as [old|] eqn:E.
  - rewrite <- insert_delete_eq, map_to_list_insert by apply lookup_delete_eq.
    rewrite <- (insert_delete_id M m old) at 2 by done. rewrite map_to_list_insert by apply lookup_delete_eq.
    rewrite !fmap_cons, !mjoin_list_cons. cbn [snd default]. change (default [] (Some old)) with old. solve_Permutation.
  - rewrite map_to_list_insert by done. rewrite fmap_cons, mjoin_list_cons. cbn [snd default]. apply (Permutation_app_comm [r]).
Qed.

Definition compactable_of (read : shardRead) : list DebtRecord :=
  (filter (fun p => p.2 ∉ sh_frozen read /\ r_ID p.1 ∉ frozenIDs read) (sh_records read)).*1.
Definition carried_of_read (read : shardRead) : list DebtRecord :=
  (filter (fun p => p.2 ∉ sh_frozen read /\ r_ID p.1 ∈ frozenIDs read) (sh_records read)).*1.

Lemma plan_split frozen files l : foldl (plan_step frozen files) ([], []) l =
  ((filter (fun p => p.2 ∉ files /\ r_ID p.1 ∉ frozen) l).*1, (filter (fun p => p.2 ∉ files /\ r_ID p.1 ∈ frozen) l).*1).
Proof.
  induction l as [|p l IH] using rev_ind; [done|]. rewrite foldl_snoc, IH, !filter_app, !fmap_app, !filter_cons, !filter_nil.
  unfold plan_step. destruct (decide (p.2 ∈ files)) as [Hf|Hf].
  - rewrite !decide_False by tauto. by rewrite !app_nil_r.
  - destruct (decide (r_ID p.1 ∈ frozen)) as [Hi|Hi].
    + rewrite decide_False by tauto. rewrite decide_True by tauto. cbn. by rewrite app_nil_r.
    + rewrite decide_True by tauto. rewrite decide_False by tauto. cbn. by rewrite app_nil_r.
Qed.

Lemma elem_of_frozenIDs read id : id ∈ frozenIDs read <-> exists p, p ∈ sh_records read /\ p.2 ∈ sh_frozen read /\ r_ID p.1 = id.
Proof.
  unfold frozenIDs. rewrite elem_of_list_to_set, list_elem_of_fmap. split.
  - intros (r & -> & (p & -> & [? ?]%list_elem_of_filter)%list_elem_of_fmap). eauto.
  - intros (p & Hp & Hf & <-). exists p.1. split; [done|]. apply list_elem_of_fmap. exists p. split; [done|]. by apply list_elem_of_filter.
Qed.

Lemma planCompaction_split read : planCompaction read = retainForCompaction (compactable_of read) ++ carried_of_read read.
Proof.
  unfold planCompaction. case_decide as H; [|by rewrite plan_split].
  assert (forall p, p ∈ sh_records read -> p.2 ∉ sh_frozen read) as Hn.
  { intros p Hp Hf. assert (r_ID p.1 ∈ frozenIDs read) as Hin by (apply elem_of_frozenIDs; eauto). rewrite H in Hin. by apply elem_of_empty in Hin. }
  unfold compactable_of, carried_of_read. rewrite (filter_Forall_id (fun p => _ /\ r_ID p.1 ∉ _)), filter_Forall_nil, app_nil_r; [done| |].
  - apply Forall_forall. intros p _ [_ Hi]. rewrite H in Hi. by apply elem_of_empty in Hi.
  - apply Forall_forall. intros p Hp. split; [auto|]. rewrite H. apply not_elem_of_empty.
Qed.

Lemma core_RunID x y : core x = core y -> r_RunID x = r_RunID y.
Proof. intros H. by apply (f_equal r_RunID) in H. Qed.

Lemma elem_of_group (l : list DebtRecord) x : x ∈ l -> x ∈ group_of (r_ID x) l.
Proof. intros H. by apply elem_of_group_of. Qed.

Lemma unfrozen_fileable read p : well_filed read -> p ∈ sh_records read -> p.2 ∉ sh_frozen read -> fileable (frozen_month read) p.1 = true.
Proof.
  intros Hw Hp Hf. destruct (Hw p Hp) as [?|(m & Hm & Hs)]; [done|]. unfold fileable, frozen_month. rewrite Hm, <- Hs.
  by rewrite bool_decide_false.
Qed.

Lemma plan_fileable read : well_filed read -> Forall (fun r => fileable (frozen_month read) r = true) (planCompaction read).
Proof.
  intros Hw. rewrite planCompaction_split. apply Forall_app. split; apply Forall_forall; intros z Hz.
  - apply elem_of_group, retained_from in Hz as (r & [_ Hr]%elem_of_group_of & Hc).
    apply list_elem_of_fmap in Hr as (p & -> & [[Hf _] Hp]%list_elem_of_filter).
    unfold fileable. rewrite (core_RunID z p.1 Hc). by apply (unfrozen_fileable read p).
  - apply list_elem_of_fmap in Hz as (p & -> & [[Hf _] Hp]%list_elem_of_filter). by apply unfrozen_fileable.
Qed.

Lemma group_of_values id (P : DebtRecord * string -> Prop) `{!forall p, Decision (P p)} (l : list (DebtRecord * string)) :
  group_of id (filter P l).*1 = (filter (fun p => P p /\ r_ID p.1 = id) l).*1.
Proof.
  unfold group_of. induction l as [|p l IH]; [done|]. rewrite !filter_cons.
  destruct (decide (P p)) as [Hp|Hp]; [|rewrite decide_False by tauto; exact IH].
  rewrite fmap_cons, filter_cons. destruct (decide (foldID p.1 = id)) as [Hi|Hi].
  - rewrite decide_True by done. by rewrite fmap_cons, IH.
  - rewrite decide_False by (intros [_ ?]; done). exact IH.
Qed.

Lemma on_disk_groups read id : well_filed read ->
  group_of id (on_disk_after read) ≡ₚ
    if decide (id ∈ frozenIDs read) then group_of id (sh_records read).*1 else group_of id (retainForCompaction (sh_records read).*1).
Proof.
  intros Hw. unfold on_disk_after, filed. rewrite group_of_app.
  assert (group_of id (mjoin (map_to_list (bucketByMonth (planCompaction read) (frozen_month read))).*2) ≡ₚ group_of id (planCompaction read)) as ->.
  { unfold group_of. apply filter_Permutation. rewrite bucket_all. by rewrite filter_Forall_id by (by apply plan_fileable). }
  rewrite planCompaction_split, group_of_app. unfold left_alone, carried_of_read. rewrite !group_of_values.
  assert ((sh_records read).*1 = (filter (fun p => True) (sh_records read)).*1) as Hall by (f_equal; symmetry; apply filter_Forall_id, Forall_true; done).
  case_decide as Hid.
  - rewrite compacted_group. unfold compactable_of. rewrite group_of_values.
    rewrite (filter_Forall_nil (fun p => (_ /\ r_ID p.1 ∉ _) /\ _)) by (apply Forall_forall; intros p _ [[_ ?] <-]; done).
    rewrite fmap_nil. change (fold_group []) with (@None DebtRecord). cbn [app]. rewrite Hall, group_of_values, <- fmap_app. apply fmap_Permutation.
    clear Hall Hw. induction (sh_records read) as [|p l IH]; [done|]. rewrite !filter_cons.
    destruct (decide (r_ID p.1 = id)) as [Hi|Hi].
    + rewrite (decide_True (P := True /\ r_ID p.1 = id)) by done. destruct (decide (p.2 ∈ sh_frozen read)) as [Hf|Hf].
      * rewrite decide_True by done. rewrite decide_False by tauto. cbn [app]. by rewrite IH.
      * rewrite decide_False by tauto. rewrite decide_True by (by rewrite Hi). rewrite <- Permutation_middle. by rewrite IH.
    + rewrite !decide_False by tauto. exact IH.
  - rewrite (filter_Forall_nil (fun p => p.2 ∈ _ /\ _)) by (apply Forall_forall; intros p Hp [Hf <-]; apply Hid, elem_of_frozenIDs; eauto).
    rewrite (filter_Forall_nil (fun p => (_ /\ r_ID p.1 ∈ _) /\ _)) by (apply Forall_forall; intros p _ [[_ ?] <-]; done).
    rewrite fmap_nil. cbn [app]. rewrite app_nil_r, !compacted_group.
    assert (group_of id (compactable_of read) = group_of id (sh_records read).*1) as ->; [|done].
    unfold compactable_of. rewrite Hall, !group_of_values. f_equal. apply filter_iff_in. intros p Hp. split; [tauto|].
    intros [_ <-]. split_and!; [|done|done]. intros Hf. apply Hid, elem_of_frozenIDs. eauto.
Qed.

Lemma mjoin_length {A} (ls : list (string * list A)) : foldr (fun p n => length p.2 + n) 0 ls = length (mjoin ls.*2).
Proof. induction ls as [|p ls IH]; [done|]. rewrite fmap_cons, mjoin_list_cons, length_app. cbn. by rewrite IH. Qed.
Lemma counts_spec read : compactionCounts read (filedCount (filed read)) =
  (Z.of_nat (length (sh_records read)), Z.of_nat (length (on_disk_after read)),
   (Z.of_nat (length (sh_records read)) - Z.of_nat (length (on_disk_after read)))%Z).
Proof.
  unfold compactionCounts, filedCount, on_disk_after. rewrite mjoin_length, length_app.
  by rewrite (Nat.add_comm (length (mjoin _))).
Qed.
End plan.

(** ** Automatic compaction is damped *)

(** A store that has not grown by half since the last run is not compacted again, however
    far above the thresholds it is. *)
Lemma compaction_damped policyRecords policyBytes size lines wRecords wBytes :
  (0 < wRecords /\ 0 < wBytes /\ wRecords < 2 ^ 61 /\ wBytes < 2 ^ 61 /\ 0 <= lines /\ 0 <= size)%Z ->
  (2 * lines <= 3 * wRecords /\ 2 * size <= 3 * wBytes)%Z ->
  should_compact policyRecords policyBytes size lines wRecords wBytes = false.
Proof.
  intros (Hr & Hb & Hr' & Hb' & Hl & Hs) [H1 H2]. unfold should_compact. destruct (negb _); [done|].
  assert (forall c w, 0 <= c -> 0 < w < 2 ^ 61 -> 2 * c <= 3 * w -> grewPast c w = false)%Z as Hg.
  { intros c w Hc Hw Hcw. unfold grewPast. destruct (Z.leb_spec w 0); [lia|]. rewrite !wrap64_id by int_range. apply Z.ltb_ge. lia. }
  destruct (_ && _); apply Hg; lia.
Qed.

(** ** Properties *)

Section properties.
Context {U : UnicodeCase}.

(** A timestamp as every writer of the store formats it. *)
Definition utc (r : DebtRecord) : Prop := exists c, civil_ok c /\ r_Timestamp r = format_rfc3339 c.

Lemma utc_dated r : utc r -> dated r.
Proof. intros (c & Hc & Ht). unfold dated, is_rfc3339. cbn. rewrite Ht, parse_format by done. by apply bool_decide_eq_true. Qed.

Lemma newer_instants x y tx ty : utc x -> utc y -> newer_than x y = true ->
  parse_rfc3339 (r_Timestamp x) = Some tx -> parse_rfc3339 (r_Timestamp y) = Some ty -> (ty <= tx)%Z.
Proof.
  intros Hx Hy Hn Htx Hty. rewrite newer_than_older in Hn by (by apply utc_dated). apply negb_true_iff in Hn.
  unfold older, lex_less in Hn. cbn in Hn. destruct Hx as (a & Ha & Ea), Hy as (b & Hb & Eb). rewrite Ea, Eb in *.
  rewrite format_order in Hn by done. rewrite parse_format in Htx, Hty by done. injection Htx as <-. injection Hty as <-.
  destruct (Z.ltb_spec (instant a) (instant b)); [done|lia].
Qed.

(** C19. [FoldRecords] returns exactly one record for each finding id of the store. On
    timestamps as the writers format them, it is the one the documented rule names: when
    a dismissed (wontfix) record exists it is a dismissed one, and no record of the id, or
    no dismissed one in that case, is later in time: the byte comparison of the fold is
    the order of the instants. Only counters and annotation differ from the stored
    record. *)
Theorem FoldRecords_recency recs : Forall utc recs ->
  NoDup (r_ID <$> FoldRecords recs) /\ (forall r, r ∈ recs -> r_ID r ∈ r_ID <$> FoldRecords recs) /\
  forall eff, eff ∈ FoldRecords recs ->
    (exists e, e ∈ group_of (r_ID eff) recs /\ core e = core eff) /\
    forall r, r ∈ group_of (r_ID eff) recs ->
      (IsSuppressingStatus (r_Status r) = true -> IsSuppressingStatus (r_Status eff) = true) /\
      ((IsSuppressingStatus (r_Status eff) = true -> IsSuppressingStatus (r_Status r) = true) ->
       forall t teff, parse_rfc3339 (r_Timestamp r) = Some t -> parse_rfc3339 (r_Timestamp eff) = Some teff -> (t <= teff)%Z).
Proof.
  intros Hutc. rewrite FoldRecords_groups.
  assert (r_ID <$> omap (fun id => fold_group (group_of id recs)) (id_order recs) = id_order recs) as Hids.
  { assert (forall id, id ∈ id_order recs -> is_Some (fold_group (group_of id recs))) as H by (intros id Hid; by apply fold_group_Some, group_of_nonempty).
    induction (id_order recs) as [|id ids IH]; [done|]. rewrite omap_list_cons. destruct (H id ltac:(by left)) as [a Ha]. rewrite Ha, fmap_cons.
    rewrite (fold_group_id id recs a Ha). f_equal. apply IH. intros id' ?. apply H. by right. }
  split_and!; [rewrite Hids; apply NoDup_id_order|intros r Hr; rewrite Hids; apply elem_of_id_order; eauto|].
  intros eff Heff. apply list_elem_of_omap in Heff as (id & _ & Heff). rewrite (fold_group_id id recs eff Heff).
  unfold fold_group in Heff. destruct (effective (group_of id recs)) as [e|] eqn:E; [|done]. injection Heff as Heff.
  assert (core e = core eff) as Hc by (rewrite <- Heff; by rewrite core_stamped).
  pose proof (effective_elem _ _ E) as He. split; [eauto|]. intros r Hr.
  apply core_fields in Hc as (_ & <- & <- & _). split.
  - intros Hs. apply (effective_suppressing _ e E). intros Hn.
    assert (r ∈ filter (fun x => suppressing x = true) (group_of id recs)) as Hin by (by apply list_elem_of_filter).
    rewrite Hn in Hin. by apply elem_of_nil in Hin.
  - intros Hs t teff Ht Hteff. rewrite Forall_forall in Hutc. apply elem_of_group_of in Hr as Hr'. apply elem_of_group_of in He as He'.
    apply (newer_instants e r teff t); [apply Hutc, He'|apply Hutc, Hr'| |done|done].
    apply (effective_max (group_of id recs)); [|done|done|done]. apply Forall_forall. intros x [_ Hx]%elem_of_group_of. by apply utc_dated, Hutc.
Qed.

(** C6. compaction is invisible to every reader of the fold, at once and after any
    records appended later: on readable timestamps, with later records newer and carrying
    no count, the fold of the compacted store and the appended records has the same ids
    in the same order as the fold of the whole history, and each effective record is the
    same in every field: count and annotation included, the first sighting the same
    instant, the counting boundary unchanged unless the first fold left it empty. *)
Theorem compaction_invisible recs later : history_ok recs later ->
  Forall2 same_effective (FoldRecords (recs ++ later)) (FoldRecords (retainForCompaction recs ++ later)).
Proof. apply fold_stable. Qed.

(** The best superseded rationale. *)
Definition rationale_kept (recs : list DebtRecord) (id : string) (r : DebtRecord) : Prop :=
  exists z, z ∈ group_of id (retainForCompaction recs) /\ bearsRationale (r_Status z) = true /\
    ((ClosedStatusRank (r_Status r) <= ClosedStatusRank (r_Status z))%Z \/
     TrimSpace (r_Justification z) = TrimSpace (r_Justification r)).

#[local] Instance rank_WeakOrder : WeakOrder (lex_less (fun a b => (ClosedStatusRank (r_Status a) <? ClosedStatusRank (r_Status b))%Z)
  (fun a b => str_ltb (r_Timestamp a) (r_Timestamp b))).
Proof.
  apply lex_WeakOrder; [apply (key_WeakOrder Z.ltb (fun a => ClosedStatusRank (r_Status a)))|apply (key_WeakOrder str_ltb r_Timestamp)].
Qed.
Lemma higher_ranked_order x y : higher_ranked x y = negb (lex_less (fun a b => (ClosedStatusRank (r_Status a) <? ClosedStatusRank (r_Status b))%Z)
  (fun a b => str_ltb (r_Timestamp a) (r_Timestamp b)) x y).
Proof.
  unfold higher_ranked, lex_less, not_before.
  destruct (Z.ltb_spec (ClosedStatusRank (r_Status y)) (ClosedStatusRank (r_Status x))), (Z.ltb_spec (ClosedStatusRank (r_Status x)) (ClosedStatusRank (r_Status y))),
    (Z.eqb_spec (ClosedStatusRank (r_Status x)) (ClosedStatusRank (r_Status y))); lia || done.
Qed.
Lemma higher_ranked_rank x y : higher_ranked x y = true -> (ClosedStatusRank (r_Status y) <= ClosedStatusRank (r_Status x))%Z.
Proof.
  unfold higher_ranked. destruct (Z.ltb_spec (ClosedStatusRank (r_Status y)) (ClosedStatusRank (r_Status x))); [lia|].
  intros [->%Z.eqb_eq _]%andb_true_iff. lia.
Qed.

Lemma rationale_survives recs id r : r ∈ group_of id recs -> bearsRationale (r_Status r) = true -> rationale_kept recs id r.
Proof.
  intros Hr Hb. unfold rationale_kept. rewrite compacted_group. unfold fold_group. set (g := group_of id recs) in *.
  destruct (effective g) as [e|] eqn:E; [|apply effective_None in E; rewrite E in Hr; by apply elem_of_nil in Hr].
  cbn [fmap option_fmap option_map]. set (eff := carry_feedback (newest_of annotated g) (aggregateCounters e g)).
  assert (core eff = core e) as Hc by apply core_stamped.
  apply list_elem_of_lookup in Hr as [i Hi]. destruct (kept_eff g e eff Hc) as (z & Hz & Hzc).
  pose proof (core_fields _ _ Hzc) as (_ & _ & Hzs & _ & _ & _ & Hzj & _). pose proof (core_fields _ _ Hc) as (_ & _ & Hes & _ & _ & _ & Hej & _).
  destruct (owed_rationale eff (Some (foldIndex g)) i r) eqn:Ho.
  - assert ((i, r) ∈ marked (owed_rationale eff (Some (foldIndex g))) g) as Hm by (by apply marked_elem).
    destruct (trail_index eff (Some (foldIndex g)) g) as [k|] eqn:Ek; [|apply trail_index_None in Ek; rewrite Ek in Hm; by apply elem_of_nil in Hm].
    destruct (trail_index_spec _ _ _ _ Ek) as (x & Hx & Hox & Hp).
    destruct (kept_trail g e eff E k x Ek Hx) as (w & Hw & Hwc). exists w. pose proof (core_fields _ _ Hwc) as (_ & _ & -> & _).
    split_and!; [done| |left].
    + unfold owed_rationale in Hox. destruct (decide _); [done|]. by destruct (bearsRationale (r_Status x)).
    + apply higher_ranked_rank. refine (pick_max higher_ranked _ (fun _ => True) (fun a b _ _ => higher_ranked_order a b) _ x _ Hp r _).
      * by apply Forall_forall.
      * apply list_elem_of_fmap. by exists (i, r).
  - exists z. unfold owed_rationale in Ho. destruct (decide (Some i = Some (foldIndex g))) as [[= ->]|Hne].
    + rewrite (proj2 (eff_index g e E)) in Hi. injection Hi as ->. rewrite Hzs, Hzj. auto.
    + rewrite Hb in Ho. cbn [negb] in Ho. apply negb_false_iff, andb_true_iff in Ho as [Hbe Hj%String.eqb_eq].
      rewrite Hes in Hbe. rewrite Hzs, Hzj. split_and!; [done|done|right]. by rewrite Hj, Hej.
Qed.

(** A closed record that names a model, and the latest of them: the last of those with the
    greatest timestamp. *)
Definition names_model (r : DebtRecord) : Prop := 1 <= finality (r_Status r) /\ TrimSpace (r_Model r) <> "".
Definition latest_namer (g : list DebtRecord) (r : DebtRecord) : Prop :=
  names_model r /\ exists l1 l2, g = l1 ++ r :: l2 /\
    (forall x, x ∈ l1 -> names_model x -> str_ltb (r_Timestamp r) (r_Timestamp x) = false) /\
    (forall x, x ∈ l2 -> names_model x -> str_ltb (r_Timestamp x) (r_Timestamp r) = true).

Lemma is_donor_names r : is_donor r = true <-> names_model r.
Proof.
  unfold is_donor, names_model. destruct (finality_spec (r_Status r)) as (_ & -> & _).
  by rewrite andb_true_iff, Nat.leb_le, negb_true_iff, String.eqb_neq.
Qed.

Lemma filter_app_split {A} (P : A -> Prop) `{!forall x, Decision (P x)} (l l1 l2 : list A) x : filter P l = l1 ++ x :: l2 ->
  exists k1 k2, l = k1 ++ x :: k2 /\ filter P k1 = l1 /\ filter P k2 = l2.
Proof.
  revert l1. induction l as [|y l IH]; intros l1 E; [by destruct l1|]. rewrite filter_cons in E. case_decide as Hy.
  - destruct l1 as [|z l1]; injection E as -> E; [by exists [], l|].
    destruct (IH l1 E) as (k1 & k2 & -> & <- & <-). exists (z :: k1), k2. by rewrite filter_cons_True.
  - destruct (IH l1 E) as (k1 & k2 & -> & <- & <-). exists (y :: k1), k2. by rewrite filter_cons_False.
Qed.

Lemma donor_latest g r : donor_of g = Some r -> latest_namer g r.
Proof.
  intros H. unfold donor_of in H. pose proof (pick_elem _ _ _ H) as [Hd _]%list_elem_of_filter.
  split; [by apply is_donor_names|].
  destruct (pick_split not_before (fun x y => str_ltb (r_Timestamp x) (r_Timestamp y)) (fun _ => True) (fun _ _ _ _ => eq_refl) _ r
    ltac:(by apply Forall_true) H) as (l1 & l2 & E & H1 & H2).
  apply filter_app_split in E as (k1 & k2 & -> & <- & <-). exists k1, k2. split; [done|].
  split; intros x Hx Hn%is_donor_names; [apply H1|apply H2]; by apply list_elem_of_filter.
Qed.

Lemma donor_exists g r : r ∈ g -> names_model r -> exists d, donor_of g = Some d.
Proof.
  intros Hr Hn%is_donor_names. unfold donor_of. destruct (pick _ _) as [d|] eqn:E; [by exists d|]. apply pick_best_None in E.
  assert (r ∈ filter (fun x => is_donor x = true) g) as Hin by (by apply list_elem_of_filter). rewrite E in Hin. by apply elem_of_nil in Hin.
Qed.

Lemma fold_effective recs eff : eff ∈ FoldRecords recs ->
  exists e, effective (group_of (r_ID eff) recs) = Some e /\ core eff = core e.
Proof.
  rewrite FoldRecords_groups. intros (id & _ & Hf)%list_elem_of_omap. rewrite (fold_group_id _ _ _ Hf). unfold fold_group in Hf.
  destruct (effective (group_of id recs)) as [e|]; [|done]. injection Hf as <-. exists e. split; [done|]. apply core_stamped.
Qed.

Lemma retained_keeps recs id r : effective (group_of id recs) = Some r \/ donor_of (group_of id recs) = Some r ->
  exists z, z ∈ group_of id (retainForCompaction recs) /\ core z = core r.
Proof.
  intros Hr. rewrite compacted_group. unfold fold_group. destruct (effective (group_of id recs)) as [e|] eqn:E.
  - assert (core (carry_feedback (newest_of annotated (group_of id recs)) (aggregateCounters e (group_of id recs))) = core e) as Hc by apply core_stamped.
    destruct Hr as [[= ->]|Hr]; [by apply (kept_eff _ r)|by apply (kept_donor _ e)].
  - apply effective_None in E. rewrite E in Hr. by destruct Hr.
Qed.

(** C17. what compaction keeps of an id: at most four records, each a record of the
    id changed in nothing but counters and annotation; among them the record the fold shows
    and, if any closed record names a model, the latest closed record that does; and no
    rationale (of a resolved or more final record) is lost unless one at least as final, or
    the same text, is kept. *)
Theorem retention_bounds recs id :
  length (group_of id (retainForCompaction recs)) <= 4 /\
  (forall z, z ∈ group_of id (retainForCompaction recs) -> exists r, r ∈ group_of id recs /\ core z = core r) /\
  (forall eff, eff ∈ FoldRecords recs -> r_ID eff = id ->
     exists z, z ∈ group_of id (retainForCompaction recs) /\ core z = core eff) /\
  (forall r, r ∈ group_of id recs -> names_model r ->
     exists d z, latest_namer (group_of id recs) d /\ z ∈ group_of id (retainForCompaction recs) /\ core z = core d) /\
  (forall r, r ∈ group_of id recs -> 2 <= finality (r_Status r) ->
     exists z, z ∈ group_of id (retainForCompaction recs) /\ 2 <= finality (r_Status z) /\
       (finality (r_Status r) <= finality (r_Status z) \/ TrimSpace (r_Justification z) = TrimSpace (r_Justification r))).
Proof.
  split_and!; [apply retained_four|by apply retained_from|..].
  - intros eff Heff <-. destruct (fold_effective recs eff Heff) as (e & He & ->). apply retained_keeps. by left.
  - intros r Hr Hn. destruct (donor_exists _ _ Hr Hn) as [d Hd]. destruct (retained_keeps recs id d) as (z & Hz & Hc); [by right|].
    exists d, z. split; [by apply donor_latest|done].
  - intros r Hr Hf. destruct (rationale_survives recs id r Hr) as (z & Hz & Hb & Hor).
    { destruct (finality_spec (r_Status r)) as (_ & _ & ->). by apply Nat.leb_le. }
    destruct (finality_spec (r_Status z)) as (E1 & _ & E2). destruct (finality_spec (r_Status r)) as (E3 & _ & _).
    rewrite E2 in Hb. rewrite E1, E3 in Hor. apply Nat.leb_le in Hb. exists z. split_and!; [done|done|]. destruct Hor; [left; lia|by right].
Qed.

(** C16. what a run leaves on disk, when every record is in a frozen file or in the
    month shard its run id names: an id with a record in a frozen file keeps exactly its
    records, every other id exactly what compaction retains of its whole history; and the
    reported counts are those of the records read and of the records on disk. *)
Theorem compaction_plan read : well_filed read ->
  (forall id, group_of id (on_disk_after read) ≡ₚ
     if decide (id ∈ frozenIDs read) then group_of id (sh_records read).*1
     else group_of id (retainForCompaction (sh_records read).*1)) /\
  compactionCounts read (filedCount (filed read)) =
    (Z.of_nat (length (sh_records read)), Z.of_nat (length (on_disk_after read)),
     (Z.of_nat (length (sh_records read)) - Z.of_nat (length (on_disk_after read)))%Z).
Proof. intros Hw. split; [intros id; by apply on_disk_groups|apply counts_spec]. Qed.
End properties.

(** ** Examples and witnesses *)

Section samples.

Definition sample (runID ts status model justification : string) : DebtRecord :=
  mkDebt 4 "00000000000000aa" runID ts "HIGH" "a.go" 7 "leak" "close it" "correctness" 5 "" ["vera"] "MEDIUM" model [] "" 0 "" "" ""
    None 0 justification None status "".
Definition first_open : DebtRecord := sample "2026-06-01T00:00:00Z-run" "2026-06-01T00:00:00Z" "" "m1" "".
Definition then_resolved : DebtRecord := sample "2026-06-02T00:00:00Z-resolved" "2026-06-02T00:00:00Z" "resolved" "m1" "closed the file".
Definition regressed : DebtRecord := sample "2026-07-01T00:00:00Z-run" "2026-07-01T00:00:00Z" "" "" "".
Definition resolved_again : DebtRecord := sample "2026-07-02T00:00:00Z-resolved" "2026-07-02T00:00:00Z" "Resolved" "" "really".

Definition counters (r : DebtRecord) : string * Z * string * string :=
  (r_Status r, r_Occurrences r, r_CountedThrough r, r_FirstSeen r).

(** The life cycle in the comment of [aggregateCounters]. *)
Example regression_counted :
  (counters <$> FoldRecords (U := ascii_case) [first_open; then_resolved],
   counters <$> FoldRecords (U := ascii_case) (retainForCompaction (U := ascii_case) [first_open; then_resolved] ++ [regressed]),
   counters <$> retainForCompaction (U := ascii_case) [first_open; then_resolved; regressed]) =
  ([("resolved", 1%Z, "2026-06-01T00:00:00Z", "2026-06-01T00:00:00Z")],
   [("", 2%Z, "2026-07-01T00:00:00Z", "2026-06-01T00:00:00Z")],
   [("resolved", 0%Z, "", ""); ("", 2%Z, "2026-07-01T00:00:00Z", "2026-06-01T00:00:00Z")]).
Proof. vm_compute. reflexivity. Qed.

Lemma group_of_one id0 (l : list DebtRecord) id : Forall (fun r => r_ID r = id0) l -> group_of id l = if decide (id = id0) then l else [].
Proof.
  intros H. unfold group_of. case_decide as E.
  - apply filter_Forall_id. eapply Forall_impl; [exact H|]. intros r Hr. cbn. congruence.
  - apply filter_Forall_nil. eapply Forall_impl; [exact H|]. intros r Hr. cbn. congruence.
Qed.
Lemma appendable_nil {U : UnicodeCase} : appendable [] [].
Proof. split; [by apply Forall_nil|intros r y Hr; by apply elem_of_nil in Hr|by apply Forall_nil|done|done]. Qed.
Lemma one_id_history {U : UnicodeCase} id0 recs later : Forall (fun r => r_ID r = id0) recs -> Forall (fun r => r_ID r = id0) later ->
  appendable recs later -> history_ok recs later.
Proof.
  intros H1 H2 Ha id. rewrite !(group_of_one id0) by done. case_decide; [done|apply appendable_nil].
Qed.

Lemma sample_appendable : appendable (U := ascii_case) [first_open; then_resolved; regressed] [resolved_again].
Proof.
  split.
  - repeat constructor; (eexists _, _; split_and!; [vm_compute; reflexivity|vm_compute; reflexivity|lia]).
  - intros r y Hr Hy. apply list_elem_of_singleton in Hy as ->.
    apply (proj1 (Forall_forall (fun r => str_ltb (r_Timestamp r) (r_Timestamp resolved_again) = true /\ str_ltb (r_CountedThrough r) (r_Timestamp resolved_again) = true) _)) with (x := r) in Hr; [done|].
    repeat constructor.
  - by repeat constructor.
  - intros _. repeat constructor; by vm_compute.
  - intros _ _. left. left. by vm_compute.
Qed.

Lemma compaction_invisible_witness : history_ok (U := ascii_case) [first_open; then_resolved; regressed] [resolved_again] /\
  Forall2 (same_effective) (FoldRecords (U := ascii_case) ([first_open; then_resolved; regressed] ++ [resolved_again]))
    (FoldRecords (U := ascii_case) (retainForCompaction (U := ascii_case) [first_open; then_resolved; regressed] ++ [resolved_again])).
Proof.
  assert (history_ok (U := ascii_case) [first_open; then_resolved; regressed] [resolved_again]) as H.
  { apply (one_id_history "00000000000000aa"); [by repeat constructor|by repeat constructor|apply sample_appendable]. }
  split; [exact H|]. apply compaction_invisible. exact H.
Defined.

Definition clock (mo d : Z) : Civil := mkCivil 2026 mo d 0 0 0.
Lemma FoldRecords_recency_witness : Forall utc [first_open; then_resolved; regressed] /\
  NoDup (r_ID <$> FoldRecords (U := ascii_case) [first_open; then_resolved; regressed]).
Proof.
  assert (Forall utc [first_open; then_resolved; regressed]) as H.
  { repeat constructor; [exists (clock 6 1)|exists (clock 6 2)|exists (clock 7 1)]; (split; [unfold civil_ok; vm_compute; intuition congruence|vm_compute; reflexivity]). }
  split; [exact H|]. apply (FoldRecords_recency (U := ascii_case) [first_open; then_resolved; regressed] H).
Defined.

(** A store of two shards, the older one frozen: the id keeps its history. *)
Definition frozen_store : shardRead :=
  mkRead [(first_open, "2026-06.jsonl"); (then_resolved, "2026-06.jsonl"); (regressed, "2026-07.jsonl")] {["2026-06.jsonl"]}.
Lemma compaction_plan_witness : well_filed frozen_store /\
  compactionCounts frozen_store (filedCount (filed (U := ascii_case) frozen_store)) = (3%Z, 3%Z, 0%Z).
Proof.
  assert (well_filed frozen_store) as H.
  { intros p Hp. cbn in Hp. rewrite !elem_of_cons, elem_of_nil in Hp. destruct Hp as [-> |[-> |[-> |[]]]].
    - left. cbn. by apply elem_of_singleton.
    - left. cbn. by apply elem_of_singleton.
    - right. exists "2026-07". split; [by vm_compute|done]. }
  split; [exact H|]. rewrite (proj2 (compaction_plan (U := ascii_case) frozen_store H)). vm_compute. reflexivity.
Defined.

(** A record in a shard its run id does not name is lost when the shard it names is
    frozen: the run neither rewrites nor keeps it, though it is not in that shard. *)
Definition misfiled_store : shardRead :=
  mkRead [(set_attribution "m2" [] first_open, "2026-07.jsonl")] {["2026-06.jsonl"]}.
Example misfiled_record_lost :
  (length (sh_records misfiled_store), compactionCounts misfiled_store (filedCount (filed (U := ascii_case) misfiled_store)),
   on_disk_after (U := ascii_case) misfiled_store) = (1, (1%Z, 0%Z, 1%Z), []).
Proof. vm_compute. reflexivity. Qed.

(** The floor of one becomes a count: a group of markers alone, counted 1 by the floor,
    is written back as a carrier of 1, and the first sighting after it counts 2 where the
    uncompacted history counts 1. *)
Example floor_becomes_a_count :
  (r_Occurrences <$> FoldRecords (U := ascii_case) [then_resolved; regressed],
   r_Occurrences <$> FoldRecords (U := ascii_case) (retainForCompaction (U := ascii_case) [then_resolved] ++ [regressed])) =
  ([1%Z], [2%Z]).
Proof. vm_compute. reflexivity. Qed.

(** The four kinds of record an open id keeps, all distinct. *)
Definition long_history : list DebtRecord :=
  [sample "2026-06-01T00:00:00Z-unreproducible" "2026-06-01T00:00:00Z" "unreproducible" "" "not seen";
   sample "2026-06-02T00:00:00Z-resolved" "2026-06-02T00:00:00Z" "resolved" "" "fixed";
   sample "2026-06-03T00:00:00Z-deferred" "2026-06-03T00:00:00Z" "deferred" "m1" "";
   sample "2026-06-04T00:00:00Z-attempts" "2026-06-04T00:00:00Z" "attempts-exhausted" "" "gave up"; regressed].
Example four_retained :
  r_Status <$> retainForCompaction (U := ascii_case) long_history = ["unreproducible"; "attempts-exhausted"; "deferred"; ""].
Proof. vm_compute. reflexivity. Qed.
End samples.
