(* ===== verification/DebtSignal.v ===== *)
(** * The local debt store: the quality signal

    src/internal/localdebt/qualitysignal.go: the fold to terminal records, with the model
    recovered from the latest attributed one, and the counts per persona and model built
    from it and from the annotations. The rows are pointers shared by a map and a slice in
    the code; here a map of rows and the order of their keys.

    The theorem is the property the store's tests name: compacting a history changes no
    row of the signal, neither now nor after later records. *)

From Stdlib Require Import Ascii String.
From stdpp Require Import prelude strings gmap fin_sets list sorting.
From Stdlib Require Import ZArith Lia.
From S2P Require Import Prelude GoString GoStrconv GoSort GoInt GoTime LocalDebt DebtCompact.

Open Scope string_scope.
Open Scope list_scope.
Open Scope nat_scope.

Record QualityRow := mkRow {
  q_Persona : string;
  q_Model : string;
  q_Dismissed : Z;
  q_Confirmed : Z;
  q_Unreproducible : Z;
  q_AttemptsExhausted : Z;
  q_TerminalOutcomes : Z;
  q_WrongMerge : Z;
  q_WrongSplit : Z;
  q_WrongCategory : Z;
}.

(** The increments of the two passes: of the four outcomes and their sum, and of the
    three annotations. *)
Definition add_outcome (d c u a : Z) (q : QualityRow) : QualityRow :=
  mkRow (q_Persona q) (q_Model q) (q_Dismissed q + d) (q_Confirmed q + c) (q_Unreproducible q + u)
    (q_AttemptsExhausted q + a) (q_TerminalOutcomes q + 1) (q_WrongMerge q) (q_WrongSplit q) (q_WrongCategory q).
Definition add_feedback (m s c : Z) (q : QualityRow) : QualityRow :=
  mkRow (q_Persona q) (q_Model q) (q_Dismissed q) (q_Confirmed q) (q_Unreproducible q)
    (q_AttemptsExhausted q) (q_TerminalOutcomes q) (q_WrongMerge q + m) (q_WrongSplit q + s) (q_WrongCategory q + c).

Section signal.
Context {U : UnicodeCase}.

(** ** The terminal records *)

(** The donor maps of [foldTerminalByID], in one: timestamp, model and reviewers. *)
Definition donor_entry (r : DebtRecord) : string * string * list string :=
  (r_Timestamp r, r_Model r, match r_ModelReviewers r with [] => r_Reviewers r | rs => rs end).
Definition index_step (st : gmap string (string * string * list string) * gmap string (list DebtRecord)) (r : DebtRecord) :
  gmap string (string * string * list string) * gmap string (list DebtRecord) :=
  let '(donors, terminals) := st in
  let terminals :=
    if IsClosedStatus (r_Status r) then <[r_ID r := default [] (terminals !! r_ID r) ++ [r]]> terminals else terminals in
  if negb (IsClosedStatus (r_Status r)) || String.eqb (TrimSpace (r_Model r)) "" then (donors, terminals)
  else
    let replace := match donors !! r_ID r with
                   | None => true
                   | Some (ts, _, _) => negb (str_ltb (r_Timestamp r) ts)
                   end in
    (if replace then <[r_ID r := donor_entry r]> donors else donors, terminals).

(** The recovery of the model of a record without one. *)
Definition recover (donors : gmap string (string * string * list string)) (r : DebtRecord) : DebtRecord :=
  if String.eqb (TrimSpace (r_Model r)) "" then
    match donors !! r_ID r with
    | Some (_, model, reviewers) =>
        if String.eqb model "" then set_attribution "" (r_ModelReviewers r) r else set_attribution model reviewers r
    | None => set_attribution "" (r_ModelReviewers r) r
    end
  else r.

Definition foldTerminalByID (records : list DebtRecord) : list DebtRecord :=
  let '(donors, terminals) := foldl index_step (∅, ∅) records in
  omap (fun r =>
    if IsClosedStatus (r_Status r) then Some (recover donors r)
    else match terminals !! r_ID r with
    | None => None
    | Some prior =>
        match prior !! latestIndex prior with
        | Some latest =>
            if String.eqb (normalizeStatus (r_Status latest)) StatusAttemptsExhausted then Some (recover donors latest) else None
        | None => None
        end
    end) (FoldRecords records).

(** ** The rows *)

Definition persona_step (out : list string) (raw : string) : list string :=
  let persona := TrimSpace raw in
  if decide (persona = "" \/ persona ∈ out) then out else out ++ [persona].
(** The keys of the rows a record credits: [rowsFor]. *)
Definition credited (r : DebtRecord) : list (string * string) :=
  let model := TrimSpace (r_Model r) in
  if String.eqb model "" then []
  else
    let reviewers := match r_ModelReviewers r with [] => r_Reviewers r | rs => rs end in
    (fun persona => (persona, model)) <$> foldl persona_step [] reviewers.

Definition rows_state : Type := gmap (string * string) QualityRow * list (string * string).
Definition touch (st : rows_state) (k : string * string) : rows_state :=
  let '(groups, order) := st in
  match groups !! k with
  | Some _ => st
  | None => (<[k := mkRow k.1 k.2 0 0 0 0 0 0 0 0]> groups, order ++ [k])
  end.
Definition bump (f : QualityRow -> QualityRow) (st : rows_state) (k : string * string) : rows_state :=
  (alter f k st.1, st.2).
(** [for _, row := range rowsFor(rec) { ... }]. *)
Definition credit (f : QualityRow -> QualityRow) (st : rows_state) (r : DebtRecord) : rows_state :=
  foldl (bump f) (foldl touch st (credited r)) (credited r).

(** The switch on the status of a terminal record; [deferred] is no outcome. *)
Definition outcome_of (status : string) : option (QualityRow -> QualityRow) :=
  let s := normalizeStatus status in
  if String.eqb s StatusWontfix then Some (add_outcome 1 0 0 0)
  else if String.eqb s StatusResolved then Some (add_outcome 0 1 0 0)
  else if String.eqb s StatusUnreproducible then Some (add_outcome 0 0 1 0)
  else if String.eqb s StatusAttemptsExhausted then Some (add_outcome 0 0 0 1)
  else None.
Definition feedback_row (fb : option ReconcilerFeedback) : option (QualityRow -> QualityRow) :=
  match fb with
  | Some f =>
      if String.eqb (fb_Kind f) FeedbackWrongMerge then Some (add_feedback 1 0 0)
      else if String.eqb (fb_Kind f) FeedbackWrongSplit then Some (add_feedback 0 1 0)
      else if String.eqb (fb_Kind f) FeedbackWrongCategory then Some (add_feedback 0 0 1)
      else None
  | None => None
  end.
Definition tally (what : DebtRecord -> option (QualityRow -> QualityRow)) (st : rows_state) (r : DebtRecord) : rows_state :=
  match what r with Some f => credit f st r | None => st end.

Definition row_less : QualityRow -> QualityRow -> bool :=
  fun a b => if negb (String.eqb (q_Persona a) (q_Persona b)) then str_ltb (q_Persona a) (q_Persona b)
             else str_ltb (q_Model a) (q_Model b).

Definition AggregateQualitySignal (records : list DebtRecord) : list QualityRow :=
  let st := foldl (tally (fun r => outcome_of (r_Status r))) (∅, []) (foldTerminalByID records) in
  let '(groups, order) := foldl (tally (fun r => feedback_row (r_ReconcilerFeedback r))) st (FoldRecords records) in
  slice_stable row_less (omap (fun k => groups !! k) order).
End signal.

(** ** Lemmas: the signal of one id *)

Lemma omap_twice {A B C} (f : A -> option B) (h : B -> option C) (l : list A) :
  omap h (omap f l) = omap (fun x => match f x with Some y => h y | None => None end) l.
Proof.
  induction l as [|x l IH]; [done|]. rewrite !omap_list_cons. destruct (f x); [rewrite omap_list_cons, IH|rewrite IH]; done.
Qed.

Section signal_lemmas.
Context {U : UnicodeCase}.

Definition recover_from (o : option DebtRecord) (r : DebtRecord) : DebtRecord :=
  if String.eqb (TrimSpace (r_Model r)) "" then
    match o with
    | Some d => set_attribution (r_Model d) (match r_ModelReviewers d with [] => r_Reviewers d | rs => rs end) r
    | None => set_attribution "" (r_ModelReviewers r) r
    end
  else r.
(** The terminal record of an id, from its records. *)
Definition terminal_group (g : list DebtRecord) : option DebtRecord :=
  match fold_group g with
  | None => None
  | Some r =>
      if closed r then Some (recover_from (donor_of g) r)
      else match latest_closed g with
      | Some x => if is_exhausted x then Some (recover_from (donor_of g) x) else None
      | None => None
      end
  end.

Lemma index_spec records st : foldl index_step (∅, ∅) records = st -> forall id,
  st.1 !! id = donor_entry <$> donor_of (group_of id records) /\
  default [] (st.2 !! id) = filter (fun r => closed r = true) (group_of id records).
Proof.
  intros <- id. induction records as [|r records IH] using rev_ind; [by split; cbn; rewrite lookup_empty|].
  rewrite foldl_snoc. destruct (foldl index_step (∅, ∅) records) as [donors terminals]. destruct IH as [IHd IHt]. cbn [fst snd] in *.
  rewrite group_of_app. unfold group_of at 2 4. rewrite filter_cons, filter_nil. cbn [foldID Record_Foldable].
  unfold index_step. fold (closed r). fold (is_donor r).
  assert (negb (IsClosedStatus (r_Status r)) || String.eqb (TrimSpace (r_Model r)) "" = negb (is_donor r)) as Hdn.
  { unfold is_donor. by rewrite negb_andb, negb_involutive. }
  unfold donor_of. rewrite !filter_app.
  destruct (decide (r_ID r = id)) as [Hid|Hid].
  - rewrite Hid. rewrite !filter_cons, !filter_nil. change (IsClosedStatus (r_Status r)) with (closed r) in *. rewrite Hdn. split.
    + destruct (is_donor r) eqn:E; cbn [negb]; [|by destruct (closed r); rewrite app_nil_r].
      rewrite pick_best_app. fold (donor_of (group_of id records)). rewrite IHd. cbn [foldl].
      destruct (donor_of (group_of id records)) as [d|]; cbn [fmap option_fmap option_map pick_step fst].
      * rewrite decide_True by done. cbn [foldl pick_step donor_entry]. unfold not_before.
        destruct (str_ltb (r_Timestamp r) (r_Timestamp d)); cbn [negb]; [by rewrite IHd|by rewrite lookup_insert_eq].
      * rewrite decide_True by done. by rewrite lookup_insert_eq.
    + destruct (closed r) eqn:E; destruct (negb (is_donor r)); cbn [snd]; rewrite ?lookup_insert_eq; cbn [default]; rewrite ?IHt, ?app_nil_r; done.
  - rewrite !filter_nil, !app_nil_r. change (IsClosedStatus (r_Status r)) with (closed r) in *. rewrite Hdn.
    destruct (negb (is_donor r)), (closed r); cbn [fst snd]; rewrite ?lookup_insert_ne by done; try done;
      destruct (match donors !! r_ID r with Some (ts, _, _) => _ | None => _ end); rewrite ?lookup_insert_ne by done; done.
Qed.

Lemma donor_model g d : donor_of g = Some d -> r_Model d <> "".
Proof.
  intros H E. unfold donor_of in H. apply pick_elem, list_elem_of_filter in H as [H _]. unfold is_donor in H. rewrite E in H.
  apply andb_true_iff in H as [_ H]. by vm_compute in H.
Qed.

Lemma foldTerminalByID_groups records :
  foldTerminalByID records = omap (fun id => terminal_group (group_of id records)) (id_order records).
Proof.
  unfold foldTerminalByID. destruct (foldl index_step (∅, ∅) records) as [donors terminals] eqn:E.
  pose proof (index_spec records _ E) as Hs. cbn [fst snd] in Hs. rewrite FoldRecords_groups.
  rewrite omap_twice. apply omap_ext_in. intros id _. cbn beta. unfold terminal_group.
  destruct (fold_group (group_of id records)) as [r|] eqn:Er; [|done]. cbn [mbind option_bind].
  rewrite (fold_group_id id records r Er). destruct (Hs id) as [Hd Ht].
  assert (forall x, r_ID x = id -> recover donors x = recover_from (donor_of (group_of id records)) x) as Hrec.
  { intros x Hx. unfold recover, recover_from. rewrite Hx, Hd. destruct (String.eqb (TrimSpace (r_Model x)) ""); [|done].
    destruct (donor_of (group_of id records)) as [d|] eqn:Ed; [|done]. cbn [fmap option_fmap option_map donor_entry].
    destruct (String.eqb_spec (r_Model d) "") as [E'|]; [by destruct (donor_model _ _ Ed E')|done]. }
  unfold closed at 1. destruct (IsClosedStatus (r_Status r)).
  { rewrite Hrec; [done|by apply (fold_group_id id records)]. }
  unfold latest_closed. rewrite <- Ht. destruct (terminals !! id) as [prior|]; [|done].
  change (default [] (Some prior)) with prior in *. unfold latestIndex. rewrite last_max_pick. destruct (pick newer_than prior) as [x|] eqn:Ex; [|done].
  fold (is_exhausted x). destruct (is_exhausted x); [|done]. rewrite Hrec; [done|].
  apply pick_elem in Ex. rewrite Ht in Ex. by apply list_elem_of_filter in Ex as [_ [Hid _]%elem_of_group_of].
Qed.

(** ** The signal of one id does not see a compaction *)

Lemma fmap_None_core (o o' : option DebtRecord) : core <$> o = core <$> o' -> o = None <-> o' = None.
Proof. by destruct o, o'. Qed.

Lemma filter_core (p : DebtRecord -> bool) (l : list DebtRecord) : (forall r, p (core r) = p r) ->
  filter (fun r => p r = true) (core <$> l) = core <$> filter (fun r => p r = true) l.
Proof. intros H. by apply filter_fmap_same. Qed.

Section stable.
Context (g l : list DebtRecord) (e eff : DebtRecord).
Hypothesis He : effective g = Some e.
Hypothesis Heff : eff = carry_feedback (newest_of annotated g) (aggregateCounters e g).
Hypothesis Hord : ordered g l.
Hypothesis Hdistinct : NoDup (r_Timestamp <$> filter (fun r => closed r = true) g).

Lemma same_time r d : r ∈ g -> d ∈ g -> closed r = true -> closed d = true -> r_Timestamp r = r_Timestamp d -> r = d.
Proof using Hdistinct.
  intros Hr Hd Hcr Hcd Ht. assert (r ∈ filter (fun r => closed r = true) g) as [i Hi]%list_elem_of_lookup_1 by (by apply list_elem_of_filter).
  assert (d ∈ filter (fun r => closed r = true) g) as [j Hj]%list_elem_of_lookup_1 by (by apply list_elem_of_filter).
  assert (i = j) as ->; [|congruence].
  apply (NoDup_lookup (r_Timestamp <$> filter (fun r => closed r = true) g) i j (r_Timestamp r)); [done| |];
    rewrite list_lookup_fmap; [by rewrite Hi|by rewrite Hj, Ht].
Qed.

Lemma kept_from z : z ∈ retain_group eff g -> exists r, r ∈ g /\ core z = core r.
Proof using He Heff.
  destruct (retain_group_shape eff g) as (zs & -> & _ & Hzs). intros [(r & Hr & ->)%Hzs|Hz]%elem_of_app.
  - exists r. by rewrite core_retained.
  - apply list_elem_of_singleton in Hz as ->. exists e. split; [by apply effective_elem|]. by rewrite Heff, core_stamped.
Qed.

(** A choice by time among closed records that keeps its winner keeps its answer. *)
Lemma choice_kept (takes less : DebtRecord -> DebtRecord -> bool) `{!WeakOrder less} (p : DebtRecord -> bool) (P : DebtRecord -> Prop) x :
  (forall a b, P a -> P b -> takes a b = negb (less a b)) ->
  (forall a b, takes (core a) (core b) = takes a b) -> (forall a, p (core a) = p a) ->
  (forall a, a ∈ g -> P a /\ P (core a)) -> (forall a, p a = true -> closed a = true) ->
  (forall a b, a ∈ g -> b ∈ g -> str_ltb (r_Timestamp a) (r_Timestamp b) = true -> takes a b = false) ->
  pick takes (filter (fun r => p r = true) g) = Some x -> kept eff g x ->
  core <$> pick takes (filter (fun r => p r = true) (retain_group eff g)) = Some (core x).
Proof using He Heff Hdistinct.
  intros Htl Htc Hpc HP Hpcl Hlt Hx (z & Hz & Hzx). rewrite <- (pick_fmap takes takes core) by done. rewrite <- (filter_core p) by done.
  pose proof (pick_elem _ _ _ Hx) as Hin. apply list_elem_of_filter in Hin as [Hpx Hxg].
  assert (forall a, a ∈ g -> p a = true -> core a = core x \/ takes a x = false) as Hmax.
  { intros a Ha Hpa. destruct (str_ltb (r_Timestamp a) (r_Timestamp x)) eqn:E1; [right; by apply Hlt|].
    destruct (str_ltb (r_Timestamp x) (r_Timestamp a)) eqn:E2.
    - exfalso. assert (takes x a = true) as Hxa.
      { apply (pick_max takes less P Htl (filter (fun r => p r = true) g)); [|done|by apply list_elem_of_filter].
        apply Forall_forall. intros b [_ Hb]%list_elem_of_filter. by apply HP. }
      by rewrite Hlt in Hxa.
    - left. f_equal. apply same_time; auto. by apply str_ltb_total. }
  apply (pick_strict takes less P Htl).
  - apply Forall_forall. intros y [_ Hy]%list_elem_of_filter. apply list_elem_of_fmap in Hy as (w & -> & Hw).
    apply kept_from in Hw as (r & Hr & ->). by apply HP.
  - apply list_elem_of_filter. split; [by rewrite Hpc|]. apply list_elem_of_fmap. by exists z.
  - intros y [Hpy Hy]%list_elem_of_filter. apply list_elem_of_fmap in Hy as (w & -> & Hw).
    apply kept_from in Hw as (r & Hr & Hc). rewrite Hc in *. rewrite Hpc in Hpy. rewrite Htc. by apply Hmax.
Qed.

Lemma ordered_dated a : a ∈ g -> dated a.
Proof using Hord. intros Ha. destruct Hord as [Hd _]. rewrite Forall_forall in Hd. apply Hd, elem_of_app. by left. Qed.

Lemma later_than_kept z y : z ∈ retain_group eff g -> y ∈ l -> str_ltb (r_Timestamp z) (r_Timestamp y) = true.
Proof using He Heff Hord.
  intros (r & Hr & Hc)%kept_from Hy. apply core_fields in Hc as (_ & -> & _). by apply Hord.
Qed.

Lemma donor_app x : (forall z y, z ∈ x -> y ∈ l -> str_ltb (r_Timestamp z) (r_Timestamp y) = true) ->
  donor_of (x ++ l) = match donor_of l with Some d => Some d | None => donor_of x end.
Proof using. intros H. apply choice_app. intros z y Hz Hy. unfold not_before. by rewrite (str_ltb_asym _ _ (H z y Hz Hy)). Qed.

Lemma donor_kept : core <$> donor_of (retain_group eff g) = core <$> donor_of g.
Proof using He Heff Hdistinct.
  destruct (donor_of g) as [d|] eqn:Ed.
  - apply (choice_kept not_before (fun a b => str_ltb (r_Timestamp a) (r_Timestamp b)) is_donor (fun _ => True)); try done.
    + unfold is_donor, closed. by intros a [? _]%andb_true_iff.
    + unfold not_before. by intros a b _ _ ->.
    + apply (kept_donor g e eff He); [|done]. by rewrite Heff, core_stamped.
  - destruct (donor_of (retain_group eff g)) as [z|] eqn:Ez; [|done]. exfalso.
    unfold donor_of in *. apply pick_elem, list_elem_of_filter in Ez as [Hz (r & Hr & Hc)%kept_from].
    apply pick_best_None in Ed. assert (r ∈ filter (fun r => is_donor r = true) g) as Hin.
    { apply list_elem_of_filter. split; [|done]. unfold is_donor in *. by apply core_fields in Hc as (_ & _ & <- & <- & _). }
    rewrite Ed in Hin. by apply elem_of_nil in Hin.
Qed.

Lemma donor_stable : core <$> donor_of (retain_group eff g ++ l) = core <$> donor_of (g ++ l).
Proof using He Heff Hord Hdistinct.
  rewrite !donor_app; [|by intros; apply Hord|apply later_than_kept]. destruct (donor_of l); [done|]. apply donor_kept.
Qed.

Lemma recover_core o o' r r' : core <$> o = core <$> o' -> core r = core r' -> core (recover_from o r) = core (recover_from o' r').
Proof using.
  intros Ho Hr. apply core_fields in Hr as Hf. destruct Hf as (_ & _ & _ & Hm & Hmr & _). unfold recover_from. rewrite Hm.
  assert (forall m rs, core (set_attribution m rs r) = core (set_attribution m rs r')) as Hset.
  { intros m rs. change (set_attribution m rs (core r) = set_attribution m rs (core r')). by rewrite Hr. }
  destruct (String.eqb (TrimSpace (r_Model r')) ""); [|done]. destruct o as [d|], o' as [d'|]; try done.
  - apply (inj Some), core_fields in Ho as (_ & _ & _ & -> & -> & -> & _). apply Hset.
  - rewrite Hmr. apply Hset.
Qed.

Lemma latest_app x : (forall z y, z ∈ x -> y ∈ l -> newer_than y z = true) ->
  latest_closed (x ++ l) = match latest_closed l with Some d => Some d | None => latest_closed x end.
Proof using. intros H. by apply choice_app. Qed.

Lemma closed_core a b : core a = core b -> closed a = closed b /\ is_exhausted a = is_exhausted b.
Proof using. intros H. unfold closed, is_exhausted. by apply core_fields in H as (_ & _ & -> & _). Qed.

Lemma later_newer y a : y ∈ l -> a ∈ g -> newer_than y a = true.
Proof using Hord.
  intros Hy Ha. destruct Hord as [Hd Hl]. rewrite Forall_forall in Hd.
  by apply newer_than_strict; [apply Hd, elem_of_app; auto|apply Hd, elem_of_app; auto|apply Hl].
Qed.

(** The latest closed record that is kept is still the latest. *)
Lemma latest_kept x : latest_closed g = Some x -> kept eff g x -> core <$> latest_closed (retain_group eff g) = Some (core x).
Proof using He Heff Hord Hdistinct.
  apply (choice_kept newer_than older closed dated); try done.
  - by apply newer_than_older.
  - intros a Ha. split; apply (ordered_dated a Ha).
  - intros a b Ha Hb Hlt. by apply (newer_than_strict b a (ordered_dated b Hb) (ordered_dated a Ha)).
Qed.

(** An id that is open after all: what its latest closed record says. *)
Definition last_outcome (g : list DebtRecord) : option DebtRecord :=
  match latest_closed g with Some x => if is_exhausted x then Some (core x) else None | None => None end.

Lemma suppressing_closed (a : DebtRecord) : suppressing a = true -> closed a = true.
Proof using.
  unfold suppressing, closed, IsSuppressingStatus, IsClosedStatus. cbn [foldStatus Record_Foldable].
  intros ->%String.eqb_eq. by vm_compute.
Qed.

Lemma newest_closed_is_effective x : suppressing e = false -> closed e = true -> latest_closed g = Some x -> x = e.
Proof using He Hord Hdistinct.
  intros Hs Hc Hx. unfold latest_closed in Hx. pose proof (pick_elem _ _ _ Hx) as [Hcx Hxg]%list_elem_of_filter.
  pose proof (effective_elem _ _ He) as Heg.
  assert (Forall dated g) as Hd by (apply Forall_forall; apply ordered_dated).
  assert (newer_than e x = true) as H1 by (apply (effective_max g); [done|done|done|by rewrite Hs]).
  assert (newer_than x e = true) as H2.
  { apply (newest_max (filter (fun r => closed r = true) g)); [|done|by apply list_elem_of_filter].
    apply Forall_forall. intros b [_ Hb]%list_elem_of_filter. by apply ordered_dated. }
  apply same_time; try done. apply str_ltb_total; apply not_true_iff_false; intros Hlt.
  - destruct (newer_than_strict e x) as [_ ?]; [by apply ordered_dated|by apply ordered_dated|exact Hlt|congruence].
  - destruct (newer_than_strict x e) as [_ ?]; [by apply ordered_dated|by apply ordered_dated|exact Hlt|congruence].
Qed.

Lemma open_not_suppressed ea : effective (g ++ l) = Some ea -> closed ea = false -> suppressing e = false.
Proof using He Heff.
  intros Hea Ho. destruct (suppressing e) eqn:Es; [|done]. exfalso. rewrite effective_app, He, Es in Hea.
  assert (ea = e \/ ea ∈ filter (fun x => suppressing x = true) l) as [->|[Hs _]%list_elem_of_filter].
  { destruct (filter (fun x => suppressing x = true) l) as [|y m]; [injection Hea; auto|].
    apply pick_from_elem in Hea as [[= ->]|?]; auto. }
  - apply suppressing_closed in Es. congruence.
  - apply suppressing_closed in Hs. congruence.
Qed.

Lemma outcome_stable ea : effective (g ++ l) = Some ea -> closed ea = false ->
  last_outcome (retain_group eff g ++ l) = last_outcome (g ++ l).
Proof using He Heff Hord Hdistinct.
  intros Hea Ho. unfold last_outcome. rewrite (latest_app g), (latest_app (retain_group eff g)).
  2:{ intros z y (r & Hr & Hc)%kept_from Hy. rewrite (newer_than_same_core y y z r) by done. by apply later_newer. }
  2:{ intros. by apply later_newer. }
  destruct (latest_closed l) eqn:El; [done|].
  assert (core eff = core e) as Hce by (by rewrite Heff, core_stamped).
  destruct (latest_closed g) as [x|] eqn:Ex.
  2:{ destruct (latest_closed (retain_group eff g)) as [z|] eqn:Ez; [|done]. exfalso. unfold latest_closed in *.
      apply pick_elem, list_elem_of_filter in Ez as [Hz (r & Hr & Hc)%kept_from]. apply pick_best_None in Ex.
      assert (r ∈ filter (fun r => closed r = true) g) as Hin by (apply list_elem_of_filter; split; [by rewrite <- (proj1 (closed_core z r Hc))|done]).
      rewrite Ex in Hin. by apply elem_of_nil in Hin. }
  assert (kept eff g x \/ is_exhausted x = false /\ forall z, z ∈ retain_group eff g -> closed z = true -> is_exhausted z = false) as [Hk|[Hx Hz]].
  { destruct (closed e) eqn:Ee; [left|by apply (kept_latest g e eff He Hce)].
    rewrite (newest_closed_is_effective x); [by apply kept_eff|by eapply open_not_suppressed|done|done]. }
  - pose proof (latest_kept x Ex Hk) as Hl. destruct (latest_closed (retain_group eff g)) as [z|]; [|done].
    apply (inj Some) in Hl. by rewrite (proj2 (closed_core z x Hl)), Hl.
  - rewrite Hx. destruct (latest_closed (retain_group eff g)) as [z|] eqn:Ez; [|done].
    unfold latest_closed in Ez. apply pick_elem, list_elem_of_filter in Ez as [? ?]. by rewrite (Hz z).
Qed.

Lemma terminal_stable : core <$> terminal_group (retain_group eff g ++ l) = core <$> terminal_group (g ++ l).
Proof using He Heff Hord Hdistinct.
  destruct (group_core_stable g l e eff He Heff Hord) as (ea & eb & Ea & Eb & Hc).
  pose proof donor_stable as Hd. unfold terminal_group, fold_group. rewrite Ea, Eb. cbn [fmap option_fmap option_map].
  set (a := carry_feedback _ (aggregateCounters ea _)). set (b := carry_feedback _ (aggregateCounters eb _)).
  assert (core a = core ea) as Ha by apply core_stamped. assert (core b = core eb) as Hb by apply core_stamped.
  rewrite (proj1 (closed_core a ea Ha)), (proj1 (closed_core b eb Hb)), <- (proj1 (closed_core ea eb Hc)).
  destruct (closed ea) eqn:Ec.
  - cbn. f_equal. apply recover_core; [done|]. by rewrite Ha, Hb.
  - pose proof (outcome_stable ea Ea Ec) as Ho. unfold last_outcome in Ho.
    destruct (latest_closed (retain_group eff g ++ l)) as [z|], (latest_closed (g ++ l)) as [x|];
      try destruct (is_exhausted z); try destruct (is_exhausted x); try done.
    apply (inj Some) in Ho. cbn. f_equal. by apply recover_core.
Qed.
End stable.
End signal_lemmas.

(** ** The whole signal *)

Section whole.
Context {U : UnicodeCase}.

Lemma foldl_through {A B} (f : A -> B -> A) (h : B -> B) (l : list B) (st : A) : (forall st r, f st (h r) = f st r) ->
  foldl f st l = foldl f st (h <$> l).
Proof. intros H. revert st. induction l as [|r l IH]; intros st; [done|]. cbn. by rewrite H, IH. Qed.

(** What the annotation pass reads of a record. *)
Definition core_feedback (r : DebtRecord) : DebtRecord := set_feedback (r_ReconcilerFeedback r) (core r).

(** Records in the order they are read, later ones later, the closed ones of an id at
    distinct times. *)
Definition signal_ok (recs later : list DebtRecord) : Prop := forall id,
  ordered (group_of id recs) (group_of id later) /\
  NoDup (r_Timestamp <$> filter (fun r => closed r = true) (group_of id recs)).

Lemma compacted_groups recs later id : ordered (group_of id recs) (group_of id later) ->
  group_of id (retainForCompaction recs ++ later) = group_of id (recs ++ later) \/
  exists e eff, effective (group_of id recs) = Some e /\
    eff = carry_feedback (newest_of annotated (group_of id recs)) (aggregateCounters e (group_of id recs)) /\
    group_of id (retainForCompaction recs ++ later) = retain_group eff (group_of id recs) ++ group_of id later.
Proof.
  intros _. rewrite !group_of_app, compacted_group. unfold fold_group. destruct (effective (group_of id recs)) as [e|] eqn:E.
  - right. eauto.
  - left. apply effective_None in E. by rewrite E.
Qed.

Lemma terminals_stable recs later : signal_ok recs later ->
  core <$> foldTerminalByID (retainForCompaction recs ++ later) = core <$> foldTerminalByID (recs ++ later).
Proof.
  intros Hok. rewrite !foldTerminalByID_groups, !omap_fmap, compacted_order. apply omap_ext_in. intros id _.
  destruct (Hok id) as [Ho Hd]. destruct (compacted_groups recs later id Ho) as [->|(e & eff & He & Heff & ->)]; [done|].
  rewrite group_of_app. by apply (terminal_stable _ _ e).
Qed.

Lemma folds_stable recs later : signal_ok recs later ->
  core_feedback <$> FoldRecords (retainForCompaction recs ++ later) = core_feedback <$> FoldRecords (recs ++ later).
Proof.
  intros Hok. rewrite !FoldRecords_groups, !omap_fmap, compacted_order. apply omap_ext_in. intros id _.
  destruct (Hok id) as [Ho _]. destruct (compacted_groups recs later id Ho) as [->|(e & eff & He & Heff & ->)]; [done|].
  rewrite group_of_app. destruct (group_core_stable _ _ e eff He Heff Ho) as (ea & eb & Ea & Eb & Hc).
  pose proof (block_newest _ _ e eff He Heff Ho) as Hn. unfold fold_group. rewrite Ea, Eb. cbn. f_equal.
  unfold core_feedback. rewrite !core_stamped, Hc.
  rewrite (eff_feedback _ ea _ (effective_elem _ _ Ea) eq_refl), (eff_feedback _ eb _ (effective_elem _ _ Eb) eq_refl).
  unfold feedback_of in Hn. by rewrite Hn.
Qed.

Lemma signal_stable recs later : signal_ok recs later ->
  AggregateQualitySignal (retainForCompaction recs ++ later) = AggregateQualitySignal (recs ++ later).
Proof.
  intros Hok. unfold AggregateQualitySignal.
  pose proof (foldl_through (tally (fun r => outcome_of (r_Status r))) core) as H1.
  pose proof (foldl_through (tally (fun r => feedback_row (r_ReconcilerFeedback r))) core_feedback) as H2.
  rewrite (H1 (foldTerminalByID (retainForCompaction recs ++ later))), (H1 (foldTerminalByID (recs ++ later))) by done.
  rewrite (H2 (FoldRecords (retainForCompaction recs ++ later))), (H2 (FoldRecords (recs ++ later))) by done.
  by rewrite terminals_stable, folds_stable.
Qed.

(** ** The rows are counts *)

Definition zero_row (k : string * string) : QualityRow := mkRow k.1 k.2 0 0 0 0 0 0 0 0.
Abbreviation update := (QualityRow -> QualityRow).

(** The rows after the credits [h], each an update of some keys. *)
Definition rows_inv (st : rows_state) (h : list (update * list (string * string))) : Prop :=
  NoDup st.2 /\ forall k,
    (k ∈ st.2 <-> k ∈ mjoin h.*2) /\
    st.1 !! k = if decide (k ∈ mjoin h.*2)
                then Some (foldl (fun q f => f q) (zero_row k) (filter (fun a => k ∈ a.2) h).*1) else None.

Lemma touch_all ks st : NoDup st.2 -> (forall k, k ∈ st.2 <-> is_Some (st.1 !! k)) ->
  let st' := foldl touch st ks in
  NoDup st'.2 /\ forall k, (k ∈ st'.2 <-> k ∈ st.2 \/ k ∈ ks) /\
    st'.1 !! k = match st.1 !! k with Some q => Some q | None => if decide (k ∈ ks) then Some (zero_row k) else None end.
Proof.
  revert st. induction ks as [|k0 ks IH]; intros st Hnd Hst; cbn zeta.
  { split; [done|]. intros k. split; [set_solver|]. cbn. by destruct (st.1 !! k). }
  cbn [foldl]. destruct st as [groups order]. cbn [fst snd] in *. unfold touch at 2 4 6. fold touch.
  destruct (groups !! k0) as [q0|] eqn:E.
  - destruct (IH (groups, order) Hnd Hst) as [H1 H2]. split; [done|]. intros k. destruct (H2 k) as [Hk1 ->]. cbn [fst snd] in *. split.
    + rewrite Hk1, elem_of_cons. split; [tauto|]. intros [?|[->|?]]; auto. left. apply Hst. rewrite E. eauto.
    + destruct (groups !! k) eqn:Ek; [done|]. destruct (decide (k ∈ ks)) as [Hin|Hin]; [by rewrite decide_True by (by right)|].
      rewrite decide_False; [done|]. intros [->|?]%elem_of_cons; [congruence|done].
  - assert (k0 ∉ order) as Hn by (rewrite Hst, E; by intros [? ?]).
    destruct (IH (<[k0 := zero_row k0]> groups, order ++ [k0])) as [H1 H2].
    + cbn. apply NoDup_app. split_and!; [done|set_solver|apply NoDup_singleton].
    + intros k. cbn. rewrite elem_of_app, list_elem_of_singleton, Hst.
      destruct (decide (k = k0)) as [->|Hne]; [rewrite lookup_insert_eq; naive_solver|rewrite lookup_insert_ne by done; tauto].
    + split; [exact H1|]. intros k. destruct (H2 k) as [Hk1 Hk2]. cbn [fst snd] in *. split.
      * etransitivity; [exact Hk1|]. rewrite elem_of_app, list_elem_of_singleton, elem_of_cons. tauto.
      * etransitivity; [exact Hk2|]. destruct (decide (k = k0)) as [->|Hne].
        { rewrite lookup_insert_eq, E, decide_True by (by left). done. }
        rewrite lookup_insert_ne by done. destruct (groups !! k); [done|].
        destruct (decide (k ∈ ks)) as [Hin|Hin]; [by rewrite decide_True by (by right)|].
        rewrite decide_False; [done|]. by intros [->|?]%elem_of_cons.
Qed.

Lemma bump_all f ks st : NoDup ks ->
  (foldl (bump f) st ks).2 = st.2 /\
  forall k, (foldl (bump f) st ks).1 !! k = if decide (k ∈ ks) then f <$> st.1 !! k else st.1 !! k.
Proof.
  revert st. induction ks as [|k0 ks IH]; intros st Hnd; [done|]. apply NoDup_cons in Hnd as [Hn Hnd]. cbn [foldl].
  destruct (IH (bump f st k0) Hnd) as [H1 H2]. split; [by rewrite H1|]. intros k. rewrite H2. unfold bump. cbn [fst snd].
  destruct (decide (k = k0)) as [->|Hne].
  - rewrite decide_False by done. rewrite lookup_alter_eq, decide_True by (by left). done.
  - rewrite lookup_alter_ne by done. destruct (decide (k ∈ ks)); [by rewrite decide_True by (by right)|].
    rewrite decide_False; [done|]. by intros [?|?]%elem_of_cons.
Qed.

Lemma persona_step_spec rs out : NoDup out -> "" ∉ out ->
  NoDup (foldl persona_step out rs) /\ "" ∉ foldl persona_step out rs /\
  forall p, p ∈ foldl persona_step out rs <-> p ∈ out \/ p <> "" /\ p ∈ TrimSpace <$> rs.
Proof.
  revert out. induction rs as [|r rs IH]; intros out Hnd Hne; cbn [foldl].
  { split_and!; [done|done|]. intros p. split; [auto|]. by intros [?|[_ ?%elem_of_nil]]. }
  unfold persona_step at 2 4 6. case_decide as H.
  - destruct (IH out Hnd Hne) as (H1 & H2 & H3). split_and!; [done|done|]. intros p. rewrite H3, fmap_cons, elem_of_cons. naive_solver.
  - assert (TrimSpace r <> "" /\ TrimSpace r ∉ out) as [Hr Ho] by tauto. destruct (IH (out ++ [TrimSpace r])) as (H1 & H2 & H3).
    + apply NoDup_app. split_and!; [done|set_solver|apply NoDup_singleton].
    + rewrite elem_of_app, list_elem_of_singleton. naive_solver.
    + split_and!; [done|done|]. intros p. rewrite H3, elem_of_app, list_elem_of_singleton, fmap_cons, elem_of_cons. naive_solver.
Qed.

Lemma NoDup_credited r : NoDup (credited r).
Proof.
  unfold credited. destruct (String.eqb _ _); [constructor|]. apply NoDup_fmap_2_strong; [by intros ? ? _ _ [= ->]|].
  apply (persona_step_spec _ []); [constructor|by intros ?%elem_of_nil].
Qed.

Lemma rows_inv_credit f st h r : rows_inv st h -> rows_inv (credit f st r) (h ++ [(f, credited r)]).
Proof.
  intros [Hnd Hst]. assert (forall k, k ∈ st.2 <-> is_Some (st.1 !! k)) as Hs.
  { intros k. destruct (Hst k) as [H1 H2]. rewrite H1, H2. case_decide; split; intros Hx; done. }
  destruct (touch_all (credited r) st Hnd Hs) as [Ht1 Ht2]. unfold credit.
  destruct (bump_all f (credited r) (foldl touch st (credited r)) (NoDup_credited r)) as [Hb1 Hb2].
  unfold rows_inv. rewrite Hb1. split; [done|]. intros k. destruct (Ht2 k) as [Hk1 Hk2], (Hst k) as [Hk3 Hk4].
  assert (k ∈ mjoin (h ++ [(f, credited r)]).*2 <-> k ∈ mjoin h.*2 \/ k ∈ credited r) as Hmem.
  { rewrite fmap_app, mjoin_app, elem_of_app. cbn [fmap list_fmap mjoin list_join snd]. by rewrite app_nil_r. }
  split; [by rewrite Hk1, Hk3, Hmem|]. rewrite Hb2, Hk2, Hk4.
  rewrite filter_app, (fmap_app fst), foldl_app, filter_cons, filter_nil. cbn [snd].
  destruct (decide (k ∈ credited r)) as [Hc|Hc].
  - rewrite (decide_True (P := k ∈ mjoin (h ++ [(f, credited r)]).*2)) by (rewrite Hmem; auto).
    destruct (decide (k ∈ mjoin h.*2)) as [Hin|Hin]; [done|]. cbn. do 2 f_equal.
    assert (filter (fun a => k ∈ a.2) h = []) as ->; [|done]. apply filter_Forall_nil, Forall_forall. intros a Ha Hka.
    apply Hin, elem_of_mjoin. exists a.2. split; [apply list_elem_of_fmap; eauto|done].
  - destruct (decide (k ∈ mjoin h.*2)) as [Hin|Hin]; [rewrite decide_True by (rewrite Hmem; auto)|rewrite decide_False by (rewrite Hmem; tauto)]; done.
Qed.

(** The credits of one pass. *)
Definition credits (what : DebtRecord -> option update) (l : list DebtRecord) : list (update * list (string * string)) :=
  omap (fun r => (fun f => (f, credited r)) <$> what r) l.

Lemma rows_inv_tally what l st h : rows_inv st h -> rows_inv (foldl (tally what) st l) (h ++ credits what l).
Proof.
  revert st h. induction l as [|r l IH]; intros st h Hst; cbn [foldl]; [by rewrite app_nil_r|].
  unfold credits. rewrite omap_list_cons. unfold tally at 2. destruct (what r) as [f|]; cbn [fmap option_fmap option_map].
  - rewrite cons_middle, (assoc_L (++)). by apply IH, rows_inv_credit.
  - by apply IH.
Qed.

Definition status_is (s : string) (r : DebtRecord) : bool := String.eqb (normalizeStatus (r_Status r)) s.
Definition kind_is (s : string) (r : DebtRecord) : bool :=
  match r_ReconcilerFeedback r with Some f => String.eqb (fb_Kind f) s | None => false end.
(** How many of the records that pass a test credit the row [k]. *)
Definition credit_count (p : DebtRecord -> bool) (k : string * string) (l : list DebtRecord) : Z :=
  Z.of_nat (length (filter (fun r => p r = true /\ k ∈ credited r) l)).

Lemma credit_count_cons p k r l :
  credit_count p k (r :: l) = ((if decide (p r = true /\ k ∈ credited r) then 1 else 0) + credit_count p k l)%Z.
Proof. unfold credit_count. rewrite filter_cons. case_decide; cbn [length]; lia. Qed.

Lemma credits_cons what k r l :
  (filter (fun a => k ∈ a.2) (credits what (r :: l))).*1 =
    match what r with
    | Some f => if decide (k ∈ credited r) then f :: (filter (fun a => k ∈ a.2) (credits what l)).*1
                else (filter (fun a => k ∈ a.2) (credits what l)).*1
    | None => (filter (fun a => k ∈ a.2) (credits what l)).*1
    end.
Proof.
  unfold credits. rewrite omap_list_cons. destruct (what r); [|done]. cbn [fmap option_fmap option_map].
  rewrite filter_cons. cbn [snd]. by destruct (decide (k ∈ credited r)).
Qed.

Definition outcome_tested (r : DebtRecord) : bool :=
  status_is StatusWontfix r || status_is StatusResolved r || status_is StatusUnreproducible r || status_is StatusAttemptsExhausted r.
Definition kind_tested (r : DebtRecord) : bool :=
  kind_is FeedbackWrongMerge r || kind_is FeedbackWrongSplit r || kind_is FeedbackWrongCategory r.

Lemma outcome_counts k l q :
  foldl (fun q f => f q) q (filter (fun a => k ∈ a.2) (credits (fun r => outcome_of (r_Status r)) l)).*1 =
  mkRow (q_Persona q) (q_Model q) (q_Dismissed q + credit_count (status_is StatusWontfix) k l)
    (q_Confirmed q + credit_count (status_is StatusResolved) k l)
    (q_Unreproducible q + credit_count (status_is StatusUnreproducible) k l)
    (q_AttemptsExhausted q + credit_count (status_is StatusAttemptsExhausted) k l)
    (q_TerminalOutcomes q + credit_count outcome_tested k l)
    (q_WrongMerge q) (q_WrongSplit q) (q_WrongCategory q).
Proof.
  revert q. induction l as [|r l IH]; intros q.
  { unfold credit_count. cbn. rewrite !Z.add_0_r. by destruct q. }
  rewrite credits_cons, !credit_count_cons. unfold outcome_tested, status_is, outcome_of.
  destruct (String.eqb_spec (normalizeStatus (r_Status r)) StatusWontfix) as [E|_];
    [|destruct (String.eqb_spec (normalizeStatus (r_Status r)) StatusResolved) as [E|_];
    [|destruct (String.eqb_spec (normalizeStatus (r_Status r)) StatusUnreproducible) as [E|_];
    [|destruct (String.eqb_spec (normalizeStatus (r_Status r)) StatusAttemptsExhausted) as [E|_]]]];
    try rewrite !E; cbn [orb]; destruct (decide (k ∈ credited r)) as [Hc|Hc]; cbn [foldl]; rewrite IH; cbn;
    repeat first [rewrite decide_True by (split; [reflexivity|done]) | rewrite decide_False by (intros [? ?]; done)];
    f_equal; unfold outcome_tested, status_is; lia.
Qed.

Lemma feedback_counts k l q :
  foldl (fun q f => f q) q (filter (fun a => k ∈ a.2) (credits (fun r => feedback_row (r_ReconcilerFeedback r)) l)).*1 =
  mkRow (q_Persona q) (q_Model q) (q_Dismissed q) (q_Confirmed q) (q_Unreproducible q) (q_AttemptsExhausted q) (q_TerminalOutcomes q)
    (q_WrongMerge q + credit_count (kind_is FeedbackWrongMerge) k l)
    (q_WrongSplit q + credit_count (kind_is FeedbackWrongSplit) k l)
    (q_WrongCategory q + credit_count (kind_is FeedbackWrongCategory) k l).
Proof.
  revert q. induction l as [|r l IH]; intros q.
  { unfold credit_count. cbn. rewrite !Z.add_0_r. by destruct q. }
  rewrite credits_cons, !credit_count_cons. unfold kind_is, feedback_row. destruct (r_ReconcilerFeedback r) as [f|].
  - destruct (String.eqb_spec (fb_Kind f) FeedbackWrongMerge) as [E|_];
      [|destruct (String.eqb_spec (fb_Kind f) FeedbackWrongSplit) as [E|_];
      [|destruct (String.eqb_spec (fb_Kind f) FeedbackWrongCategory) as [E|_]]];
      try rewrite !E; destruct (decide (k ∈ credited r)) as [Hc|Hc]; cbn [foldl]; rewrite IH; cbn;
      repeat first [rewrite decide_True by (split; [reflexivity|done]) | rewrite decide_False by (intros [? ?]; done)];
      f_equal; unfold kind_is; lia.
  - rewrite IH. repeat rewrite decide_False by (intros [? ?]; done). f_equal; unfold kind_is; lia.
Qed.

(** The row of a persona and model: the outcomes of the terminal records, and the
    annotations of the folded ones, that credit it. *)
Definition row_of (terminal folded : list DebtRecord) (k : string * string) : QualityRow :=
  mkRow k.1 k.2
    (credit_count (status_is StatusWontfix) k terminal) (credit_count (status_is StatusResolved) k terminal)
    (credit_count (status_is StatusUnreproducible) k terminal) (credit_count (status_is StatusAttemptsExhausted) k terminal)
    (credit_count outcome_tested k terminal)
    (credit_count (kind_is FeedbackWrongMerge) k folded) (credit_count (kind_is FeedbackWrongSplit) k folded)
    (credit_count (kind_is FeedbackWrongCategory) k folded).

Lemma outcome_tested_Some r : is_Some (outcome_of (r_Status r)) <-> outcome_tested r = true.
Proof.
  unfold outcome_of, outcome_tested, status_is.
  repeat (case_match; cbn [orb]; [split; [done|eauto]|]). split; [by intros [? ?]|done].
Qed.
Lemma kind_tested_Some r : is_Some (feedback_row (r_ReconcilerFeedback r)) <-> kind_tested r = true.
Proof.
  unfold feedback_row, kind_tested, kind_is. destruct (r_ReconcilerFeedback r); [|split; [by intros [? ?]|done]].
  repeat (case_match; cbn [orb]; [split; [done|eauto]|]). split; [by intros [? ?]|done].
Qed.

Lemma elem_of_credits what k l : k ∈ mjoin (credits what l).*2 <-> exists r, r ∈ l /\ is_Some (what r) /\ k ∈ credited r.
Proof.
  unfold credits. induction l as [|r l IH].
  { cbn. split; [by intros ?%elem_of_nil|]. by intros (? & ?%elem_of_nil & _). }
  rewrite omap_list_cons. destruct (what r) as [f|] eqn:E; cbn [fmap option_fmap option_map].
  - rewrite fmap_cons, mjoin_list_cons, elem_of_app, IH. cbn [snd]. split.
    + intros [?|(x & ? & ? & ?)]; [exists r; rewrite E; split_and!; [by left|eauto|done]|exists x; split; [by right|done]].
    + intros (x & [->|?]%elem_of_cons & ? & ?); [by left|right; eauto].
  - rewrite IH. split; intros (x & Hx & Hs & ?); [exists x; split; [by right|done]|].
    apply elem_of_cons in Hx as [->|?]; [rewrite E in Hs; by destruct Hs|eauto].
Qed.

#[local] Instance row_less_WeakOrder : WeakOrder row_less.
Proof.
  eapply (WeakOrder_ext _ (lex_less (fun a b => str_ltb (q_Persona a) (q_Persona b)) (fun a b => str_ltb (q_Model a) (q_Model b)))).
  - intros a b. unfold row_less. rewrite (if_lex_str q_Persona (fun a b => str_ltb (q_Model a) (q_Model b))). done.
  - apply lex_WeakOrder; [apply (key_WeakOrder str_ltb q_Persona)|apply (key_WeakOrder str_ltb q_Model)].
Qed.

Lemma row_less_total a b : row_less a b = false -> row_less b a = false -> q_Persona a = q_Persona b /\ q_Model a = q_Model b.
Proof.
  unfold row_less. destruct (String.eqb_spec (q_Persona a) (q_Persona b)) as [E|E]; cbn [negb].
  - rewrite E, String.eqb_refl. cbn [negb]. intros H1 H2. split; [done|]. by apply str_ltb_total.
  - destruct (String.eqb_spec (q_Persona b) (q_Persona a)) as [E'|_]; [congruence|]. cbn [negb]. intros H1 H2.
    by destruct (E (str_ltb_total _ _ H1 H2)).
Qed.

Lemma rows_strict T F l : StronglySorted (not_after row_less) l -> NoDup l -> (forall q, q ∈ l -> exists k, q = row_of T F k) ->
  StronglySorted (fun a b => row_less a b = true) l.
Proof.
  intros Hs. induction Hs as [|q l Hs IH Hf]; intros Hnd Hq; [constructor|]. apply NoDup_cons in Hnd as [Hni Hnd].
  constructor; [apply IH; [done|intros; apply Hq; by right]|]. apply Forall_forall. intros q' Hq'.
  rewrite Forall_forall in Hf. specialize (Hf q' Hq'). destruct (row_less q q') eqn:E; [done|]. exfalso. apply Hni.
  destruct (row_less_total q q' E Hf) as [E1 E2]. destruct (Hq q ltac:(by left)) as [k1 ->], (Hq q' ltac:(by right)) as [k2 ->].
  unfold row_of in E1, E2. cbn in E1, E2. destruct k1, k2. cbn in *. by subst.
Qed.

Lemma rows_spec records : let terminal := foldTerminalByID records in let folded := FoldRecords records in
  StronglySorted (fun a b => row_less a b = true) (AggregateQualitySignal records) /\
  forall q, q ∈ AggregateQualitySignal records <-> exists k, q = row_of terminal folded k /\
    ((exists r, r ∈ terminal /\ outcome_tested r = true /\ k ∈ credited r) \/
     (exists r, r ∈ folded /\ kind_tested r = true /\ k ∈ credited r)).
Proof.
  cbn zeta. unfold AggregateQualitySignal.
  set (T := foldTerminalByID records). set (F := FoldRecords records).
  set (w1 := fun r => outcome_of (r_Status r)). set (w2 := fun r => feedback_row (r_ReconcilerFeedback r)).
  assert (rows_inv (∅, []) []) as H0.
  { split; [constructor|]. intros k. split; [done|]. by rewrite decide_False by (by intros ?%elem_of_nil). }
  apply (rows_inv_tally w1 T), (rows_inv_tally w2 F) in H0. cbn [app] in H0.
  destruct (foldl (tally w2) (foldl (tally w1) (∅, []) T) F) as [groups order]. destruct H0 as [Hnd Hrows]. cbn [fst snd] in *.
  assert (forall k, k ∈ mjoin (credits w1 T ++ credits w2 F).*2 <->
    (exists r, r ∈ T /\ outcome_tested r = true /\ k ∈ credited r) \/ (exists r, r ∈ F /\ kind_tested r = true /\ k ∈ credited r)) as Hmem.
  { intros k. rewrite fmap_app, mjoin_app, elem_of_app, !elem_of_credits.
    split; (intros [(r & ? & Hs & ?)|(r & ? & Hs & ?)]; [left|right]; exists r; split_and!; try done);
      [by apply outcome_tested_Some|by apply kind_tested_Some|by apply outcome_tested_Some|by apply kind_tested_Some]. }
  assert (forall k, k ∈ order -> groups !! k = Some (row_of T F k)) as Hrow.
  { intros k Hk. destruct (Hrows k) as [Ho ->]. rewrite decide_True by (by apply Ho). f_equal.
    rewrite filter_app, (fmap_app fst), foldl_app. unfold w1, w2. by rewrite outcome_counts, feedback_counts. }
  assert (omap (fun k => groups !! k) order = row_of T F <$> order) as ->.
  { clear Hnd Hrows. induction order as [|k order IH]; [done|]. rewrite omap_list_cons, Hrow by (by left). rewrite fmap_cons. f_equal.
    apply IH. intros k' Hk'. apply Hrow. by right. }
  split.
  - assert (NoDup (row_of T F <$> order)) as Hnd'.
    { apply NoDup_fmap_2_strong; [|done]. intros [p1 m1] [p2 m2] _ _ H. unfold row_of in H. cbn [fst snd] in H. by injection H as -> ->. }
    apply (rows_strict T F); [apply slice_stable_sorted, _|by rewrite slice_stable_Permutation|].
    intros q. rewrite slice_stable_Permutation. by intros (k & -> & _)%list_elem_of_fmap; exists k.
  - intros q. rewrite slice_stable_elem, list_elem_of_fmap. split.
    + intros (k & -> & Hk). exists k. split; [done|]. by apply Hmem, Hrows.
    + intros (k & -> & Hk). exists k. split; [done|]. by apply Hrows, Hmem.
Qed.
End whole.

(** ** Properties *)

Section properties.
Context {U : UnicodeCase}.

(** Every counted outcome is one of the four. *)
Lemma outcome_sum k l : credit_count outcome_tested k l =
  (credit_count (status_is StatusWontfix) k l + credit_count (status_is StatusResolved) k l
   + credit_count (status_is StatusUnreproducible) k l + credit_count (status_is StatusAttemptsExhausted) k l)%Z.
Proof.
  induction l as [|r l IH]; [done|].
  rewrite !credit_count_cons, IH. unfold outcome_tested, status_is.
  destruct (String.eqb_spec (normalizeStatus (r_Status r)) StatusWontfix) as [E|_];
    [|destruct (String.eqb_spec (normalizeStatus (r_Status r)) StatusResolved) as [E|_];
    [|destruct (String.eqb_spec (normalizeStatus (r_Status r)) StatusUnreproducible) as [E|_];
    [|destruct (String.eqb_spec (normalizeStatus (r_Status r)) StatusAttemptsExhausted) as [E|_]]]];
    try rewrite !E; cbn [orb]; destruct (decide (k ∈ credited r)) as [Hc|Hc];
    repeat first [rewrite decide_True by (split; [reflexivity|done]) | rewrite decide_False by (intros [? ?]; done)];
    unfold outcome_tested, status_is; lia.
Qed.

(** C9. the quality signal does not see a compaction. Whatever is appended to a store
    later, every row of the signal, per persona and model, is the same whether the store
    was compacted first or not, when timestamps can be read, later records of an id are
    newer, and no two closed records of an id share a timestamp. *)
Theorem signal_survives_compaction recs later : signal_ok recs later ->
  AggregateQualitySignal (retainForCompaction recs ++ later) = AggregateQualitySignal (recs ++ later).
Proof. apply signal_stable. Qed.

(** ** The signal on its own terms *)

(** The reviewers a record names for its model, without padding, and whether it counts for
    a persona and a model: the recorded reviewers of the model, or the finding's where none
    are recorded. *)
Definition named (r : DebtRecord) : list string :=
  TrimSpace <$> match r_ModelReviewers r with [] => r_Reviewers r | rs => rs end.
Definition earns (r : DebtRecord) (persona model : string) : Prop :=
  persona <> "" /\ persona ∈ named r /\ model <> "" /\ model = TrimSpace (r_Model r).
#[local] Instance earns_dec r persona model : Decision (earns r persona model).
Proof. unfold earns. apply _. Defined.

Definition with_status (l : list DebtRecord) (status persona model : string) : Z :=
  Z.of_nat (length (filter (fun r => ToLower (TrimSpace (r_Status r)) = status /\ earns r persona model) l)).
Definition with_note (l : list DebtRecord) (kind persona model : string) : Z :=
  Z.of_nat (length (filter (fun r => fb_Kind <$> r_ReconcilerFeedback r = Some kind /\ earns r persona model) l)).

(** The row of a persona and a model, from the terminal records and the shown ones. *)
Definition signal_row (terminal shown : list DebtRecord) (persona model : string) : QualityRow :=
  let count status := with_status terminal status persona model in
  mkRow persona model (count "wontfix") (count "resolved") (count "unreproducible") (count "attempts-exhausted")
    (count "wontfix" + count "resolved" + count "unreproducible" + count "attempts-exhausted")%Z
    (with_note shown "wrong-merge" persona model) (with_note shown "wrong-split" persona model)
    (with_note shown "wrong-category" persona model).
Definition has_row (terminal shown : list DebtRecord) (persona model : string) : Prop :=
  (exists r, r ∈ terminal /\ ToLower (TrimSpace (r_Status r)) ∈ ["wontfix"; "resolved"; "unreproducible"; "attempts-exhausted"] /\
     earns r persona model) \/
  (exists r f, r ∈ shown /\ r_ReconcilerFeedback r = Some f /\ fb_Kind f ∈ ["wrong-merge"; "wrong-split"; "wrong-category"] /\
     earns r persona model).

(** A record with its model recovered: its own, or that of the latest closed record of the
    id that names one, with that record's reviewers. *)
Definition attributed (g : list DebtRecord) (x t : DebtRecord) : Prop :=
  (TrimSpace (r_Model x) <> "" /\ t = x) \/
  (TrimSpace (r_Model x) = "" /\ exists d, latest_namer g d /\
     t = set_attribution (r_Model d) (match r_ModelReviewers d with [] => r_Reviewers d | rs => rs end) x) \/
  (TrimSpace (r_Model x) = "" /\ (forall d, d ∈ g -> ~ names_model d) /\ t = set_attribution "" (r_ModelReviewers x) x).

(** The last closed record of an id: no closed one is later in time. *)
Definition last_closed (g : list DebtRecord) (x : DebtRecord) : Prop :=
  x ∈ g /\ 1 <= finality (r_Status x) /\
  (Forall utc g -> forall y ty tx, y ∈ g -> 1 <= finality (r_Status y) ->
     parse_rfc3339 (r_Timestamp y) = Some ty -> parse_rfc3339 (r_Timestamp x) = Some tx -> (ty <= tx)%Z).

(** The terminal record of an id, by the record the fold shows: that record when it is
    closed, else the last closed one if it ran out of attempts. *)
Definition settles (g : list DebtRecord) (shown t : DebtRecord) : Prop :=
  (1 <= finality (r_Status shown) /\ attributed g shown t) \/
  (finality (r_Status shown) = 0 /\ exists x, last_closed g x /\ ToLower (TrimSpace (r_Status x)) = "attempts-exhausted" /\ attributed g x t).
Definition unsettled (g : list DebtRecord) (shown : DebtRecord) : Prop :=
  finality (r_Status shown) = 0 /\
  ((forall y, y ∈ g -> finality (r_Status y) = 0) \/
   exists x, last_closed g x /\ ToLower (TrimSpace (r_Status x)) <> "attempts-exhausted").

Lemma credited_earns r k : k ∈ credited r <-> earns r k.1 k.2.
Proof.
  unfold credited, earns, named. destruct k as [persona model]. cbn [fst snd].
  destruct (String.eqb_spec (TrimSpace (r_Model r)) "") as [E|E]; [split; [by intros ?%elem_of_nil|naive_solver]|].
  rewrite list_elem_of_fmap. destruct (persona_step_spec (match r_ModelReviewers r with [] => r_Reviewers r | rs => rs end) [])
    as (_ & _ & H); [constructor|by intros ?%elem_of_nil|]. setoid_rewrite H.
  split; [intros (q & [= -> ->] & [?%elem_of_nil|[? ?]]); [done|naive_solver]|].
  intros (? & ? & ? & ->). exists persona. split; [done|]. auto.
Qed.

Lemma count_status s k l : credit_count (status_is s) k l = with_status l s k.1 k.2.
Proof.
  unfold credit_count, with_status. do 2 f_equal. apply list_filter_iff. intros r. rewrite credited_earns.
  unfold status_is, normalizeStatus, lower_trim. by rewrite String.eqb_eq.
Qed.
Lemma count_note s k l : credit_count (kind_is s) k l = with_note l s k.1 k.2.
Proof.
  unfold credit_count, with_note. do 2 f_equal. apply list_filter_iff. intros r. rewrite credited_earns.
  unfold kind_is. destruct (r_ReconcilerFeedback r) as [f|]; cbn; [rewrite String.eqb_eq|]; naive_solver.
Qed.

Lemma row_signal T F k : row_of T F k = signal_row T F k.1 k.2.
Proof. unfold row_of, signal_row. rewrite outcome_sum, !count_status, !count_note. done. Qed.

Lemma has_row_spec T F k : has_row T F k.1 k.2 <->
  (exists r, r ∈ T /\ outcome_tested r = true /\ k ∈ credited r) \/ (exists r, r ∈ F /\ kind_tested r = true /\ k ∈ credited r).
Proof.
  unfold has_row. setoid_rewrite credited_earns.
  assert (forall r, outcome_tested r = true <-> ToLower (TrimSpace (r_Status r)) ∈ ["wontfix"; "resolved"; "unreproducible"; "attempts-exhausted"]) as Ho.
  { intros r. unfold outcome_tested, status_is, normalizeStatus, lower_trim. rewrite !orb_true_iff, !String.eqb_eq, !elem_of_cons, elem_of_nil. tauto. }
  assert (forall r, kind_tested r = true <->
    exists f, r_ReconcilerFeedback r = Some f /\ fb_Kind f ∈ ["wrong-merge"; "wrong-split"; "wrong-category"]) as Hk.
  { intros r. unfold kind_tested, kind_is. destruct (r_ReconcilerFeedback r) as [f|]; [|naive_solver].
    rewrite !orb_true_iff, !String.eqb_eq. setoid_rewrite elem_of_cons. setoid_rewrite elem_of_cons. setoid_rewrite elem_of_cons. setoid_rewrite elem_of_nil.
    naive_solver. }
  setoid_rewrite Ho. setoid_rewrite Hk. naive_solver.
Qed.

Lemma recover_attributed donors g x : donors !! r_ID x = donor_entry <$> donor_of g -> attributed g x (recover donors x).
Proof.
  intros Hd. unfold recover, attributed. destruct (String.eqb_spec (TrimSpace (r_Model x)) "") as [E|E]; [right|by left].
  rewrite Hd. destruct (donor_of g) as [d|] eqn:Ed; cbn [fmap option_fmap option_map donor_entry].
  - destruct (String.eqb_spec (r_Model d) ""); [by destruct (donor_model _ _ Ed)|]. left. split; [done|]. exists d. split; [by apply donor_latest|done].
  - right. split_and!; [done| |done]. intros d Hin Hn. destruct (donor_exists g d Hin Hn) as [d' E']. congruence.
Qed.

Lemma pick_last_closed g x : pick newer_than (filter (fun r => closed r = true) g) = Some x -> last_closed g x.
Proof.
  intros H. pose proof (pick_elem _ _ _ H) as [Hc Hin]%list_elem_of_filter.
  assert (forall r, closed r = true <-> 1 <= finality (r_Status r)) as Hf.
  { intros r. unfold closed. destruct (finality_spec (r_Status r)) as (_ & -> & _). apply Nat.leb_le. }
  split; [done|]. split; [by apply Hf|]. intros Hutc y ty tx Hy Hyc Hty Htx. rewrite Forall_forall in Hutc.
  apply (newer_instants x y tx ty); [by apply Hutc..| |done|done].
  apply (pick_max newer_than older dated newer_than_older (filter (fun r => closed r = true) g)); [|done|].
  - apply Forall_forall. intros z [_ Hz]%list_elem_of_filter. by apply utc_dated, Hutc.
  - apply list_elem_of_filter. split; [by apply Hf|done].
Qed.

Lemma terminals_spec records : exists settled open,
  settled ++ open ≡ₚ FoldRecords records /\
  Forall2 (fun f t => settles (group_of (r_ID f) records) f t) settled (foldTerminalByID records) /\
  Forall (fun f => unsettled (group_of (r_ID f) records) f) open.
Proof.
  unfold foldTerminalByID. destruct (foldl index_step (∅, ∅) records) as [donors terminals] eqn:E.
  pose proof (index_spec records _ E) as Hs. cbn [fst snd] in Hs.
  match goal with |- context [omap ?h (FoldRecords records)] => destruct (omap_split h (FoldRecords records)) as (kept & lost & Hp & Hk & Hl) end.
  exists kept, lost. split; [done|].
  assert (forall r, IsClosedStatus (r_Status r) = true <-> 1 <= finality (r_Status r)) as Hf.
  { intros r. destruct (finality_spec (r_Status r)) as (_ & -> & _). apply Nat.leb_le. }
  assert (forall r, closed r = false -> finality (r_Status r) = 0) as Hf0.
  { intros r Hr. unfold closed in Hr. destruct (finality_spec (r_Status r)) as (_ & E' & _). rewrite E' in Hr. apply Nat.leb_gt in Hr. lia. }
  assert (forall r prior latest, terminals !! r_ID r = Some prior -> prior !! latestIndex prior = Some latest ->
    last_closed (group_of (r_ID r) records) latest /\ r_ID latest = r_ID r) as Hlast.
  { intros r prior latest Hpr Hla. destruct (Hs (r_ID r)) as [_ Ht]. rewrite Hpr in Ht. cbn [default from_option id] in Ht. unfold latestIndex in Hla.
    rewrite last_max_pick in Hla. rewrite Ht in Hla. split; [by apply pick_last_closed|].
    apply pick_elem, list_elem_of_filter in Hla as [_ Hla]. by apply elem_of_group_of in Hla as [? _]. }
  split.
  - eapply Forall2_impl; [exact Hk|]. cbn beta. intros r t Ht. destruct (IsClosedStatus (r_Status r)) eqn:Ec.
    + injection Ht as <-. left. split; [by apply Hf|]. apply recover_attributed, Hs.
    + right. split; [by apply Hf0|]. destruct (terminals !! r_ID r) as [prior|] eqn:Ep; [|done].
      destruct (prior !! latestIndex prior) as [latest|] eqn:El; [|done].
      destruct (String.eqb_spec (normalizeStatus (r_Status latest)) StatusAttemptsExhausted) as [Ex|]; [|done]. injection Ht as <-.
      destruct (Hlast r prior latest Ep El) as [Hlc Hid]. exists latest. split; [done|]. split; [exact Ex|].
      apply recover_attributed. rewrite Hid. apply Hs.
  - eapply Forall_impl; [exact Hl|]. cbn beta. intros r Hr. destruct (IsClosedStatus (r_Status r)) eqn:Ec; [done|].
    split; [by apply Hf0|]. destruct (Hs (r_ID r)) as [_ Ht]. destruct (terminals !! r_ID r) as [prior|] eqn:Ep.
    + destruct (prior !! latestIndex prior) as [latest|] eqn:El.
      * right. destruct (Hlast r prior latest Ep El) as [Hlc _]. exists latest. split; [done|].
        by destruct (String.eqb_spec (normalizeStatus (r_Status latest)) StatusAttemptsExhausted).
      * left. unfold latestIndex in El. rewrite last_max_pick in El. apply pick_best_None in El. subst prior. cbn [default from_option id] in Ht.
        intros y Hy. apply Hf0. apply not_true_iff_false. intros Hc.
        assert (y ∈ filter (fun r => closed r = true) (group_of (r_ID r) records)) as Hin by (by apply list_elem_of_filter).
        rewrite <- Ht in Hin. by apply elem_of_nil in Hin.
    + left. cbn [default from_option id] in Ht. intros y Hy. apply Hf0. apply not_true_iff_false. intros Hc.
      assert (y ∈ filter (fun r => closed r = true) (group_of (r_ID r) records)) as Hin by (by apply list_elem_of_filter).
      rewrite <- Ht in Hin. by apply elem_of_nil in Hin.
Qed.

(** C18. the rows of the signal, exactly. There is a terminal record for each record the
    fold shows closed, and for each it shows open whose last closed record ran out of
    attempts, with the model recovered from the latest closed record that names one; and
    for no other. There is a row for each persona and model that a terminal record with a
    counted outcome, or a shown record with a known annotation, names, and for no other:
    personas are the reviewers recorded for the model, else those of the finding. Each of
    its counters is the number of such records and [TerminalOutcomes] the sum of the four
    outcomes. The rows are strictly sorted by persona and model, hence one per pair. *)
Theorem AggregateQualitySignal_rows records : exists terminal settled open,
  settled ++ open ≡ₚ FoldRecords records /\
  Forall2 (fun f t => settles (group_of (r_ID f) records) f t) settled terminal /\
  Forall (fun f => unsettled (group_of (r_ID f) records) f) open /\
  (forall q, q ∈ AggregateQualitySignal records <-> exists persona model,
     q = signal_row terminal (FoldRecords records) persona model /\ has_row terminal (FoldRecords records) persona model) /\
  StronglySorted (fun a b => str_ltb (q_Persona a) (q_Persona b) = true \/
    q_Persona a = q_Persona b /\ str_ltb (q_Model a) (q_Model b) = true) (AggregateQualitySignal records).
Proof.
  destruct (terminals_spec records) as (settled & open & Hp & Hs & Ho). destruct (rows_spec records) as [Hsort Hrows].
  exists (foldTerminalByID records), settled, open. split_and!; [done..| |].
  - intros q. rewrite Hrows. split.
    + intros (k & -> & Hk). exists k.1, k.2. split; [apply row_signal|by apply has_row_spec].
    + intros (persona & model & -> & Hk). exists (persona, model). split; [by rewrite row_signal|by apply (has_row_spec _ _ (persona, model)) in Hk].
  - clear Hrows. induction Hsort as [|a l _ IH Ha]; [constructor|]. constructor; [done|]. eapply Forall_impl; [exact Ha|].
    intros b H. unfold row_less in H. by apply (if_str_spec _ _ _ _ (iff_refl _)) in H.
Qed.
End properties.

(** ** Examples and witnesses *)

Definition summary_row (q : QualityRow) : string * string * Z * Z * Z * Z :=
  (q_Persona q, q_Model q, q_Dismissed q, q_Confirmed q, q_Unreproducible q, q_AttemptsExhausted q).

Lemma signal_survives_compaction_witness :
  signal_ok (U := ascii_case) [first_open; then_resolved; regressed] [resolved_again] /\
  summary_row <$> AggregateQualitySignal (U := ascii_case)
    (retainForCompaction (U := ascii_case) [first_open; then_resolved; regressed] ++ [resolved_again]) = [("vera", "m1", 0, 1, 0, 0)%Z].
Proof.
  assert (signal_ok (U := ascii_case) [first_open; then_resolved; regressed] [resolved_again]) as H.
  { intros id. rewrite !(group_of_one "00000000000000aa") by (by repeat constructor). case_decide.
    - split; [apply (appendable_ordered (U := ascii_case)), sample_appendable|]. vm_compute. repeat constructor. by intros ?%elem_of_nil.
    - split; [split; [constructor|by intros ? ? ?%elem_of_nil]|constructor]. }
  split; [exact H|]. rewrite (signal_survives_compaction (U := ascii_case) _ _ H). vm_compute. reflexivity.
Defined.

(** Two closed records of one second: the donor is the trail, the latest closed record is
    written after it and takes its place, and a later record without a model is credited
    to the other model once the store is compacted. *)
Definition tied_close : DebtRecord := sample "2026-06-02T00:00:00Z-resolved" "2026-06-02T00:00:00Z" "resolved" "m2" "closed".
Definition tied_donor : DebtRecord := sample "2026-06-02T00:00:00Z-attempts" "2026-06-02T00:00:00Z" "attempts-exhausted" "m1" "gave up".
Example tied_donor_displaced :
  (summary_row <$> AggregateQualitySignal (U := ascii_case) ([tied_close; tied_donor; regressed] ++ [resolved_again]),
   summary_row <$> AggregateQualitySignal (U := ascii_case)
     (retainForCompaction (U := ascii_case) [tied_close; tied_donor; regressed] ++ [resolved_again])) =
  ([("vera", "m1", 0, 1, 0, 0)%Z], [("vera", "m2", 0, 1, 0, 0)%Z]).
Proof. vm_compute. reflexivity. Qed.
