(* ===== verification/DebtPersist.v ===== *)
(** * The local debt store: what a reconcile run appends

    src/internal/localdebt/reconcile.go, with the append gate of store.go
    ([appendLocked]) and history.FindingID: the ids a run may not append again, the
    findings it leaves out, the records it builds, and the gate each must pass. The
    dedup read, the pool summary and the file writes are arguments or left out: a failed
    read is [None]. The justification and the source report of a finding, which its
    record here does not carry, come with it. *)

From Stdlib Require Import Ascii String.
From stdpp Require Import prelude strings gmap fin_sets list sorting pretty.
From Stdlib Require Import ZArith Lia.
From S2P Require Import Prelude GoString GoStrconv GoSort GoInt GoTime Sha256 Finding Gate Think LocalDebt DebtCompact.

Open Scope string_scope.
Open Scope list_scope.
Open Scope nat_scope.

Section persist.
Context {U : UnicodeCase}.

(** [history.FindingID]: the first eight bytes of the digest of location and problem. *)
Definition nul_char : string := of_bytes [byte_of 0].
Definition FindingID (file : string) (line : Z) (problem : string) : string :=
  EncodeToString (take 8 (Sum256 (to_bytes (file +:+ nul_char +:+ Itoa line +:+ nul_char +:+ problem)))).

(** ** The append gate *)

(** The checks of [appendLocked] before it touches the store. *)
Definition append_error (rec : DebtRecord) : option string :=
  match monthFromRunID (r_RunID rec) with
  | None => Some "cannot derive month from run_id"
  | Some _ =>
      if negb (IsKnownStatus (r_Status rec)) then Some "unknown status"
      else
        let invalid := match r_ReconcilerFeedback rec with Some f => validate f (r_ID rec) | None => None end in
        match invalid with
        | Some _ => Some "invalid reconciler feedback"
        | None => if (r_Attempts rec <? 0)%Z then Some "negative attempts" else None
        end
  end.
(** [appendBatch]: a record the gate refuses is skipped, the others are written. *)
Definition append_step (st : list DebtRecord * nat) (rec : DebtRecord) : list DebtRecord * nat :=
  let '(store, written) := st in
  match append_error rec with Some _ => st | None => (store ++ [rec], S written) end.
Definition appendBatch (store recs : list DebtRecord) : list DebtRecord * nat := foldl append_step (store, 0) recs.

(** ** Which findings, and their model *)

Definition siblingNotFoundPrefix : string := "sibling file not found: ".
Definition AnchoredPathWarning (warning : string) : string :=
  if is_prefix (to_bytes siblingNotFoundPrefix) (to_bytes warning) then ""
  else match index_of (to_bytes ("; " +:+ siblingNotFoundPrefix)) (to_bytes warning) with
  | Some i => of_bytes (take i (to_bytes warning))
  | None => warning
  end.

Fixpoint resolve_loop (model : string) (modelByReviewer : gmap string string) (reviewers : list string) : string :=
  match reviewers with
  | [] => model
  | rev :: rest =>
      let m := default "" (modelByReviewer !! rev) in
      if String.eqb m "" then resolve_loop model modelByReviewer rest
      else if String.eqb model "" then resolve_loop m modelByReviewer rest
      else if negb (String.eqb m model) then "" else resolve_loop model modelByReviewer rest
  end.
Definition resolveRecordModel (reviewers : list string) (modelByReviewer : gmap string string) : string :=
  resolve_loop "" modelByReviewer reviewers.
Definition attributableReviewers (reviewers : list string) (modelByReviewer : gmap string string) (model : string) : list string :=
  filter (fun rev => default "" (modelByReviewer !! rev) = model) reviewers.

(** A finding with what the enrichment stamped on it. *)
Record DebtFinding := mkDebtFinding { df_Finding : JSONFinding; df_Justification : string; df_SourceReport : option SourceReport }.

(** The exclusions of [PersistForReconcile]. *)
Definition excluded (f : DebtFinding) : bool :=
  let g := j_Finding (df_Finding f) in
  String.eqb (lower_trim (Category g)) CategoryOutOfScope
  || match Verification_ g with Some v => String.eqb (lower_trim (Verdict v)) VerdictRefuted | None => false end
  || negb (String.eqb (AnchoredPathWarning (PathWarning (j_Stamps (df_Finding f)))) "").

Definition SchemaVersion : Z := 4.
Definition finding_id (f : DebtFinding) : string :=
  let g := j_Finding (df_Finding f) in FindingID (File g) (Line g) (Problem g).
Definition record_of (runID reconciledAt : string) (modelByReviewer : gmap string string) (f : DebtFinding) : DebtRecord :=
  let g := j_Finding (df_Finding f) in
  let model := resolveRecordModel (Reviewers g) modelByReviewer in
  mkDebt SchemaVersion (finding_id f) runID reconciledAt (Severity g) (File g) (Line g) (Problem g) (Fix g) (Category g)
    (EstMinutes g) (Evidence g) (Reviewers g) (Confidence g) model
    (if String.eqb model "" then [] else attributableReviewers (Reviewers g) modelByReviewer model)
    "" 0 "" "" (j_ConfidenceDiscount (df_Finding f)) None 0 (df_Justification f) (df_SourceReport f) "" "".

(** ** The run *)

(** The ids already there: of the folded summaries, those suppressed or still open. *)
Definition seed (read : option (list Summary)) : gset string :=
  match read with
  | None => ∅
  | Some sums =>
      list_to_set (sm_ID <$> filter (fun s => IsSuppressingStatus (sm_Status s) || negb (IsClosedStatus (sm_Status s)) = true) (FoldSummaries sums))
  end.

Definition batch_step (runID reconciledAt : string) (modelByReviewer : gmap string string)
    (st : gset string * list DebtRecord) (f : DebtFinding) : gset string * list DebtRecord :=
  let '(seen, batch) := st in
  if excluded f then st
  else
    let rec := record_of runID reconciledAt modelByReviewer f in
    if decide (r_ID rec ∈ seen) then st else ({[r_ID rec]} ∪ seen, batch ++ [rec]).

(** What a run finds around it: the root it was given, whether the context had ended at
    each of the three boundaries, whether the store's directory resolves, what the dedup
    read returned, whether the root is still there before the write, whether the append
    got the lock, and for the compaction the policy, the watermark, the store's size and
    lines (where they can be read) and the shards it reads. *)
Record PersistEnv := mkPersistEnv {
  env_root : string;
  env_ended_read : bool; env_ended_append : bool; env_ended_compact : bool;
  env_store_dir : bool;
  env_summaries : option (list Summary);
  env_root_there : bool;
  env_locked : bool;
  env_policy : Z * Z;
  env_watermark : Z * Z;
  env_size : list DebtRecord -> option Z;
  env_lines : list DebtRecord -> option Z;
  env_shards : list DebtRecord -> option shardRead;
}.

(** [MaybeCompact]: an error leaves the store as it is, and so does a store nothing of
    which can be read as a record. *)
Definition MaybeCompact (env : PersistEnv) (store : list DebtRecord) : list DebtRecord :=
  match env_size env store with
  | None => store
  | Some size =>
      let counted := negb (maxBytes (env_policy env).2 <=? size)%Z && needsExactLineCount size (env_policy env).1 in
      if counted && bool_decide (env_lines env store = None) then store
      else if negb (should_compact (env_policy env).1 (env_policy env).2 size (default (-1)%Z (env_lines env store))
                      (env_watermark env).1 (env_watermark env).2) then store
      else match env_shards env store with
           | None => store
           | Some read => if decide (sh_records read = []) then store else on_disk_after read
           end
  end.

(** [PersistForReconcile]: the store after it, given its records and the run: when it was
    reconciled and the base name of its directory. *)
Definition PersistForReconcile (env : PersistEnv) (store : list DebtRecord) (reconciledAt base : string)
    (modelByReviewer : gmap string string) (findings : list DebtFinding) : list DebtRecord :=
  match findings with
  | [] => store
  | _ =>
      if String.eqb (TrimSpace (env_root env)) "" then store
      else if env_ended_read env then store
      else if negb (env_store_dir env) then store
      else
        let runID := reconciledAt +:+ "-" +:+ base in
        match monthFromRunID runID with
        | None => store
        | Some _ =>
            let '(_, batch) := foldl (batch_step runID reconciledAt modelByReviewer) (seed (env_summaries env), []) findings in
            match batch with
            | [] => store
            | _ =>
                if negb (env_root_there env) then store
                else if env_ended_append env then store
                else if negb (env_locked env) then store
                else
                  let '(store, written) := appendBatch store batch in
                  if written =? 0 then store
                  else if env_ended_compact env then store
                  else MaybeCompact env store
            end
        end
  end.
End persist.

(** ** Lemmas *)

Section persist_lemmas.
Context {U : UnicodeCase}.

Lemma open_empty : IsClosedStatus "" = false /\ IsSuppressingStatus "" = false /\ IsKnownStatus "" = true.
Proof. by vm_compute. Qed.

Lemma record_passes runID t models f : is_Some (monthFromRunID runID) -> append_error (record_of runID t models f) = None.
Proof.
  intros [m Hm]. unfold append_error, record_of. cbn [r_RunID r_Status r_ReconcilerFeedback r_Attempts]. rewrite Hm.
  by rewrite (proj2 (proj2 open_empty)).
Qed.

Lemma append_all store recs : Forall (fun r => append_error r = None) recs -> appendBatch store recs = (store ++ recs, length recs).
Proof.
  unfold appendBatch. intros H. enough (forall st n, foldl append_step (st, n) recs = (st ++ recs, n + length recs)) as He by apply He.
  induction H as [|r recs Hr H IH]; intros st n; cbn [foldl length]; [by rewrite app_nil_r, Nat.add_0_r|].
  unfold append_step at 2. rewrite Hr, IH, <- (assoc_L (++)). f_equal. lia.
Qed.

(** The first finding of an id that is not left out. *)
Definition eligible (id : string) (f : DebtFinding) : Prop := excluded f = false /\ finding_id f = id.
#[export] Instance eligible_dec id f : Decision (eligible id f).
Proof. unfold eligible. apply _. Defined.
Definition detected (id : string) (findings : list DebtFinding) : option DebtFinding := head (filter (eligible id) findings).

Lemma detected_snoc id fs f : detected id (fs ++ [f]) =
  match detected id fs with Some g => Some g | None => if decide (eligible id f) then Some f else None end.
Proof.
  unfold detected. rewrite filter_app, filter_cons, filter_nil. destruct (filter (eligible id) fs); [|done]. cbn. by case_decide.
Qed.

Lemma batch_spec runID t models seen0 fs :
  let st := foldl (batch_step runID t models) (seen0, []) fs in
  (forall id, id ∈ st.1 <-> id ∈ seen0 \/ is_Some (detected id fs)) /\
  forall id, group_of id st.2 =
    if decide (id ∈ seen0) then [] else match detected id fs with Some f => [record_of runID t models f] | None => [] end.
Proof.
  cbn zeta. induction fs as [|f fs [IHs IHb]] using rev_ind.
  { cbn. split; [|intros id; by case_decide]. intros id. split; [by left|]. by intros [?|[? ?]]. }
  rewrite foldl_snoc. destruct (foldl (batch_step runID t models) (seen0, []) fs) as [seen batch]. cbn [fst snd] in *.
  unfold batch_step. set (r := record_of runID t models f). assert (r_ID r = finding_id f) as Hid by done.
  destruct (excluded f) eqn:Ex.
  { split; intros id; rewrite detected_snoc, (decide_False (P := eligible id f)) by (unfold eligible; rewrite Ex; by intros [? ?]);
      cbn [fst snd]; [rewrite IHs|rewrite IHb]; by destruct (detected id fs). }
  assert (forall id, eligible id f <-> finding_id f = id) as Hel by (unfold eligible; rewrite Ex; tauto).
  destruct (decide (r_ID r ∈ seen)) as [Hseen|Hseen]; cbn [fst snd].
  - rewrite Hid in Hseen. apply IHs in Hseen. split; intros id; rewrite detected_snoc.
    + rewrite IHs. destruct (detected id fs) as [g|] eqn:E; [done|]. case_decide as Hd; [|done]. apply Hel in Hd as <-.
      rewrite E in Hseen. split; [|by intros; destruct Hseen as [?|[? ?]]; auto]. intros [?|[? ?]]; [by left|done].
    + rewrite IHb. case_decide as H0; [done|]. destruct (detected id fs) as [g|] eqn:E; [done|]. case_decide as Hd; [|done].
      apply Hel in Hd as <-. rewrite E in Hseen. by destruct Hseen as [?|[? ?]].
  - rewrite Hid in Hseen. rewrite IHs in Hseen. split; intros id; rewrite detected_snoc.
    + rewrite elem_of_union, elem_of_singleton, IHs, Hid. destruct (detected id fs) as [g|] eqn:E.
      * split; [intros [->|?]; [right; eauto|done]|auto].
      * case_decide as Hd; rewrite Hel in Hd; [|naive_solver]. split; [right; eauto|by left].
    + rewrite group_of_app, IHb. unfold group_of at 1. rewrite filter_cons, filter_nil. cbn [foldID Record_Foldable]. rewrite Hid.
      destruct (decide (finding_id f = id)) as [<-|Hne].
      * destruct (decide (finding_id f ∈ seen0)); [destruct Hseen; by left|].
        destruct (detected (finding_id f) fs) eqn:E; [destruct Hseen; right; eauto|]. by rewrite (decide_True (P := eligible _ f)) by (by apply Hel).
      * rewrite app_nil_r. case_decide; [done|]. destruct (detected id fs); [done|]. by rewrite decide_False by (by rewrite Hel).
Qed.

(** Nothing stops the run before its append. *)
Definition proceeds (env : PersistEnv) : Prop :=
  TrimSpace (env_root env) <> "" /\ env_ended_read env = false /\ env_store_dir env = true /\
  env_root_there env = true /\ env_ended_append env = false /\ env_locked env = true.
#[export] Instance proceeds_dec env : Decision (proceeds env).
Proof. unfold proceeds. apply _. Defined.

(** The batch and the store once it is appended. *)
Lemma PersistForReconcile_appended env store t base models fs : is_Some (monthFromRunID (t +:+ "-" +:+ base)) -> proceeds env ->
  exists batch, (forall id, group_of id batch =
      if decide (id ∈ seed (env_summaries env)) then []
      else match detected id fs with Some f => [record_of (t +:+ "-" +:+ base) t models f] | None => [] end) /\
    PersistForReconcile env store t base models fs =
      if decide (batch = []) then store
      else if env_ended_compact env then store ++ batch else MaybeCompact env (store ++ batch).
Proof.
  intros [m Hm] (H1 & H2 & H3 & H4 & H5 & H6). unfold PersistForReconcile. destruct fs as [|f0 fs].
  { exists []. split; [intros id; by case_decide|done]. }
  cbv zeta. rewrite (proj2 (String.eqb_neq _ _) H1), H2, H3, H4, H5, H6, Hm. cbn [negb].
  pose proof (batch_spec (t +:+ "-" +:+ base) t models (seed (env_summaries env)) (f0 :: fs)) as [_ Hb]. cbv zeta in Hb.
  assert (Forall (fun r => append_error r = None)
    (foldl (batch_step (t +:+ "-" +:+ base) t models) (seed (env_summaries env), []) (f0 :: fs)).2) as Hall.
  { generalize (f0 :: fs). intros l. induction l as [|f l IH] using rev_ind; [constructor|]. rewrite foldl_snoc.
    destruct (foldl _ _ l) as [seen batch]. cbn [snd] in *. unfold batch_step. destruct (excluded f); [done|].
    destruct (decide _); cbn [snd]; [done|]. apply Forall_app. split; [done|]. constructor; [|constructor]. apply record_passes. eauto. }
  destruct (foldl (batch_step _ t models) (seed _, []) (f0 :: fs)) as [seen batch]. cbn [snd] in *.
  exists batch. split; [exact Hb|]. destruct batch as [|r batch]; [done|].
  by rewrite (decide_False (P := r :: batch = [])), append_all by done.
Qed.

Lemma PersistForReconcile_stopped env store t base models fs : ~ proceeds env -> PersistForReconcile env store t base models fs = store.
Proof.
  intros H. unfold PersistForReconcile. destruct fs; [done|]. cbv zeta.
  destruct (String.eqb_spec (TrimSpace (env_root env)) ""); [done|]. destruct (env_ended_read env) eqn:E2; [done|].
  destruct (env_store_dir env) eqn:E3; [|done]. cbn [negb]. destruct (monthFromRunID _); [|done].
  destruct (foldl _ _ _) as [? [|]]; [done|]. destruct (env_root_there env) eqn:E4; [|done].
  destruct (env_ended_append env) eqn:E5; [done|]. destruct (env_locked env) eqn:E6; [|done].
  destruct H. unfold proceeds. auto 10.
Qed.

(** Open, or dismissed for good. *)
Definition surfaced (r : DebtRecord) : Prop := suppressing r = true \/ closed r = false.

Lemma folded_of store id : (exists r, r ∈ FoldRecords store /\ r_ID r = id /\ surfaced r) ->
  exists r, fold_group (group_of id store) = Some r /\ surfaced r.
Proof.
  rewrite FoldRecords_groups. intros (r & Hr & Hid & Hs). apply list_elem_of_omap in Hr as (id' & _ & Hr).
  pose proof (fold_group_id _ _ _ Hr). exists r. by subst.
Qed.

Lemma seed_surfaced store id : Forall kinded store -> id ∈ seed (Some (summary_of <$> store)) ->
  exists r, fold_group (group_of id store) = Some r /\ surfaced r.
Proof.
  intros Hk Hid. apply folded_of. unfold seed in Hid. rewrite FoldSummaries_records in Hid by done.
  apply elem_of_list_to_set, list_elem_of_fmap in Hid as (s & -> & [Hs (r & -> & Hr)%list_elem_of_fmap]%list_elem_of_filter).
  exists r. split_and!; [done|done|]. unfold surfaced, suppressing, closed. apply orb_true_iff in Hs as [Hs|Hs]; [by left|right].
  by apply negb_true_iff in Hs.
Qed.

Lemma surfaced_core a b : core a = core b -> surfaced a -> surfaced b.
Proof. unfold surfaced, suppressing, closed. intros H. cbn. by apply core_fields in H as (_ & _ & -> & _). Qed.

(** A newer detection surfaces its id. *)
Lemma detection_surfaces g y : Forall dated g -> dated y -> (forall r, r ∈ g -> str_ltb (r_Timestamp r) (r_Timestamp y) = true) ->
  r_Status y = "" -> exists r, fold_group (g ++ [y]) = Some r /\ surfaced r.
Proof.
  intros Hg Hy Hnew Hst. destruct (effective (g ++ [y])) as [e|] eqn:E; [|by apply effective_None, app_nil in E as [_ ?]].
  exists (carry_feedback (newest_of annotated (g ++ [y])) (aggregateCounters e (g ++ [y]))). split; [unfold fold_group; by rewrite E|].
  apply (surfaced_core e); [by rewrite core_stamped|]. rewrite effective_app in E.
  assert (suppressing y = false) as Hsy by (unfold suppressing; cbn; rewrite Hst; apply open_empty).
  rewrite (filter_cons_False _ y), filter_nil in E by congruence. destruct (effective g) as [x|] eqn:Eg.
  - destruct (suppressing x) eqn:Ex.
    + injection E as <-. by left.
    + cbn in E. destruct (newer_than_strict y x) as [Hn _]; [done| |by apply Hnew, effective_elem|].
      { rewrite Forall_forall in Hg. by apply Hg, effective_elem. }
      rewrite Hn in E. injection E as <-. right. unfold closed. rewrite Hst. apply open_empty.
  - right. unfold effective in E. rewrite filter_cons_False, filter_nil in E by congruence. cbn in E. injection E as <-.
    unfold closed. rewrite Hst. apply open_empty.
Qed.
End persist_lemmas.

(** ** Properties *)

Section properties.
Context {U : UnicodeCase}.

(** Every detection folds to a surfaced record once its id's group is extended. *)
Lemma appended_surfaces store reconciledAt base models findings read store' f :
  Forall (fun r => dated r /\ kinded r /\ str_ltb (r_Timestamp r) reconciledAt = true) store ->
  is_rfc3339 reconciledAt = true -> read = None \/ read = Some (summary_of <$> store) ->
  (forall id, group_of id store' = group_of id store ++
    if decide (id ∈ seed read) then []
    else match detected id findings with Some f => [record_of (reconciledAt +:+ "-" +:+ base) reconciledAt models f] | None => [] end) ->
  f ∈ findings -> excluded f = false -> exists eff, eff ∈ FoldRecords store' /\ r_ID eff = finding_id f /\ surfaced eff.
Proof.
  intros Hstore Ht Hread Hg Hf Hex. set (id := finding_id f).
  assert (is_Some (detected id findings)) as [f' Hd].
  { unfold detected. assert (f ∈ filter (eligible id) findings) as Hin by (by apply list_elem_of_filter).
    destruct (filter (eligible id) findings); [by apply elem_of_nil in Hin|]. eauto. }
  assert (exists r, fold_group (group_of id store') = Some r /\ surfaced r) as (r & Hr & Hs).
  { rewrite Hg, Hd. case_decide as Hseed.
    - rewrite app_nil_r. destruct Hread as [->| ->]; [by apply elem_of_empty in Hseed|]. apply seed_surfaced; [|done].
      eapply Forall_impl; [exact Hstore|]. by intros r (_ & ? & _).
    - rewrite Forall_forall in Hstore. apply detection_surfaces; [apply Forall_forall| |
        |done]; [intros r [_ Hr]%elem_of_group_of; by apply Hstore|done|intros r [_ Hr]%elem_of_group_of; by apply Hstore]. }
  exists r. split_and!; [|by apply (fold_group_id _ _ _ Hr)|exact Hs].
  rewrite FoldRecords_groups. apply list_elem_of_omap. exists id. split; [|exact Hr].
  apply elem_of_id_order. assert (group_of id store' <> []) as Hne by (intros E; by rewrite E in Hr).
  destruct (group_of id store') as [|x g] eqn:E; [done|]. exists x. assert (x ∈ group_of id store') as Hx by (rewrite E; by left).
  by apply elem_of_group_of in Hx as [? ?].
Qed.

(** What the append gate lets through has an annotation that names its kind, so every
    record appended through it meets the hypothesis of the theorem. *)
Lemma gate_kinded r : append_error r = None -> kinded r.
Proof.
  unfold append_error, kinded. destruct (monthFromRunID (r_RunID r)); [|done]. destruct (IsKnownStatus (r_Status r)); [|done].
  destruct (r_ReconcilerFeedback r) as [f|]; [|done]. cbn [negb]. intros H He. unfold validate in H. rewrite He in H. by vm_compute in H.
Qed.

(** C10. no detection is silenced by an old closure. A run that nothing stops appends to the
    store, and then compacts the result unless it appended nothing or its context ended;
    a run that is stopped leaves the store alone. In the store as appended, every finding
    the run did not leave out folds to an open record, or to a dismissal: a closed id is
    reopened by its new detection, and a failed dedup read changes none of this. With the
    dedup read, an id that was already open or dismissed gets no record, any other detected
    id exactly one, and an id not detected none. *)
Theorem detections_surface env store reconciledAt base models findings :
  Forall (fun r => dated r /\ kinded r /\ str_ltb (r_Timestamp r) reconciledAt = true) store ->
  is_rfc3339 reconciledAt = true -> is_Some (monthFromRunID (reconciledAt +:+ "-" +:+ base)) ->
  env_summaries env = None \/ env_summaries env = Some (summary_of <$> store) ->
  (~ proceeds env -> PersistForReconcile env store reconciledAt base models findings = store) /\
  (proceeds env -> exists batch, let store' := store ++ batch in
    PersistForReconcile env store reconciledAt base models findings =
      (if decide (batch = []) then store
       else if env_ended_compact env then store' else MaybeCompact env store') /\
    (forall f, f ∈ findings -> excluded f = false ->
       exists eff, eff ∈ FoldRecords store' /\ r_ID eff = finding_id f /\
         (IsSuppressingStatus (r_Status eff) = true \/ IsClosedStatus (r_Status eff) = false)) /\
    forall id, group_of id store' = group_of id store ++
      if decide (id ∈ seed (env_summaries env)) then []
      else match detected id findings with
           | Some f => [record_of (reconciledAt +:+ "-" +:+ base) reconciledAt models f]
           | None => []
           end).
Proof.
  intros Hstore Ht Hm Hread. split; [apply PersistForReconcile_stopped|]. intros Hp.
  destruct (PersistForReconcile_appended env store reconciledAt base models findings Hm Hp) as (batch & Hb & E).
  exists batch. split; [done|].
  assert (forall id, group_of id (store ++ batch) = group_of id store ++
      if decide (id ∈ seed (env_summaries env)) then []
      else match detected id findings with Some f => [record_of (reconciledAt +:+ "-" +:+ base) reconciledAt models f] | None => [] end) as Hg.
  { intros id. by rewrite group_of_app, Hb. }
  split; [|exact Hg]. intros f Hf Hex. by apply (appended_surfaces store reconciledAt base models findings (env_summaries env)).
Qed.

End properties.

(** ** Examples and witnesses *)

Definition leak : DebtFinding :=
  mkDebtFinding (mkJSONFinding (mkFinding "HIGH" "a.go" 7 "leak" "close it" "correctness" 5 "" "" ["vera"; "otto"] "MEDIUM" "" None)
    ∅ [] "" no_stamps) "" None.
Definition hallucinated : DebtFinding :=
  mkDebtFinding (mkJSONFinding (mkFinding "LOW" "no.go" 1 "ghost" "" "docs" 5 "" "" ["vera"] "LOW" "" None)
    ∅ [] "" (mkStamps false "path not found" "" false "")) "" None.
Definition june : DebtRecord := record_of "2026-06-01T00:00:00Z-run" "2026-06-01T00:00:00Z" {["vera" := "m1"]} leak.
Definition close_with (status ts : string) (r : DebtRecord) : DebtRecord :=
  mkDebt (r_SchemaVersion r) (r_ID r) (ts +:+ "-" +:+ status) ts (r_Severity r) (r_File r) (r_Line r)
    (r_Problem r) (r_Fix r) (r_Category r) (r_EstMinutes r) (r_Evidence r) (r_Reviewers r) (r_Confidence r)
    (r_Model r) (r_ModelReviewers r) (r_Origin r) 0 "" "" (r_ConfidenceDiscount r) None (r_Attempts r) (r_Justification r) (r_SourceReport r)
    status ts.
Definition closed_store (status : string) : list DebtRecord := [june; close_with status "2026-06-02T00:00:00Z" june].
(** A run nothing stops, with a store of one shard whose size the argument gives. *)
Definition july_env (size : Z) (store : list DebtRecord) : PersistEnv :=
  mkPersistEnv "/repo" false false false true (Some (summary_of <$> store)) true true (0, 0)%Z (0, 0)%Z (fun _ => Some size)
    (fun l => Some (Z.of_nat (length l))) (fun l => Some (mkRead ((fun r => (r, "2026-07.jsonl")) <$> l) ∅)).
Definition july (store : list DebtRecord) (findings : list DebtFinding) : list DebtRecord :=
  PersistForReconcile (U := ascii_case) (july_env 1000 store) store "2026-07-01T00:00:00Z" "run" ∅ findings.

Example july_runs :
  (r_ID june, r_ModelReviewers june,
   (fun s => (length (july (closed_store s) [leak; hallucinated; leak]),
              r_Status <$> FoldRecords (U := ascii_case) (july (closed_store s) [leak; hallucinated; leak]))) <$>
     ["resolved"; "wontfix"; "attempts-exhausted"]) =
  ("1087c8ef7efe3b77", ["vera"], [(3, [""]); (2, ["wontfix"]); (3, [""])]).
Proof. vm_compute. reflexivity. Qed.

(** Past the size threshold the same run compacts what it appended to. *)
Example july_compacts :
  (length (PersistForReconcile (U := ascii_case) (july_env 200000000 (closed_store "resolved")) (closed_store "resolved")
     "2026-07-01T00:00:00Z" "run" ∅ [leak]), length (july (closed_store "resolved") [leak])) = (2, 3).
Proof. vm_compute. reflexivity. Qed.

Lemma detections_surface_witness :
  let store := closed_store "resolved" in
  Forall (fun r => dated r /\ kinded r /\ str_ltb (r_Timestamp r) "2026-07-01T00:00:00Z" = true) store /\
  proceeds (july_env 1000 store) /\
  exists store' eff, july store [leak; hallucinated] = store' /\ eff ∈ FoldRecords (U := ascii_case) store' /\ r_ID eff = finding_id leak.
Proof.
  cbn zeta.
  assert (Forall (fun r => dated r /\ kinded r /\ str_ltb (r_Timestamp r) "2026-07-01T00:00:00Z" = true) (closed_store "resolved")) as H.
  { repeat constructor. }
  assert (proceeds (july_env 1000 (closed_store "resolved"))) as Hp by (by apply (bool_decide_unpack _); vm_compute).
  split; [exact H|]. split; [exact Hp|].
  destruct (detections_surface (U := ascii_case) (july_env 1000 (closed_store "resolved")) (closed_store "resolved")
    "2026-07-01T00:00:00Z" "run" ∅ [leak; hallucinated] H) as [_ Hs];
    [by vm_compute|exists "2026-07"; by vm_compute|by right|].
  destruct (Hs Hp) as (batch & E & Hf & _).
  destruct (Hf leak) as (eff & He & Hid & _); [by left|by vm_compute|].
  exists (closed_store "resolved" ++ batch), eff. split; [|split; [exact He|exact Hid]]. unfold july. rewrite E.
  destruct (decide (batch = [])) as [->|_]; [by rewrite app_nil_r|done].
Defined.
